(* ===== verification/_CoqProject ===== *)
-Q . S2P
Prelude.v
Types.v
Arm64.v
Ownership.v
ImageCatalog.v
Artifacts.v
Engine.v
Plan.v
Memory.v
Faults.v
ExportTrie.v
SymbolTable.v
MachO.v
Demo.v
Dispatch.v
Analyze.v
Prepare.v
Commit.v
Pending.v
PrepareSafety.v
CommitOrder.v
CommitSafety.v
CommitVerdict.v
PrepareKeeps.v
PlanWf.v
MachOBounds.v
DyldImages.v
MachOSpec.v
SymbolResolve.v
ImportSlots.v
ChainedFixups.v
WalkInvariants.v
ResolverSafety.v
FixupsSafety.v
ResolverSpec.v
Device.v
PatchCode.v
EngineWorld.v
Runtime.v
RuntimeSpec.v
StaticPool.v
MemoryEngine.v
InlineEngine.v
RelocEngine.v
RelocSpec.v
NativeMemory.v
RelocPages.v
ProviderEngine.v
ProviderSpec.v
Objc.v
ObjcSpec.v
PlatformSeams.v
PointerAuth.v
Swift.v
BindWalk.v
RebindEngine.v
RebindCommit.v
SwiftSafety.v
SwiftSpec.v
DyldCache.v
DyldIndex.v
DyldCacheSpec.v
CacheReuse.v
RebindCache.v
RebindDemo.v
RebindLedger.v
RebindReplay.v
RebindPlanWf.v
RebindVtable.v
RebindLifecycle.v
NativeSymbols.v
NativeSymbolsSpec.v
RuntimeSymbol.v
RuntimeSymbolSpec.v
Vendors.v
VendorsSpec.v
Facade.v
FacadeSpec.v
Compat.v
CompatSpec.v
