(* ===== verification/Prelude.v ===== *)
(** * HookKit: a verification library

    HookKit installs hooks in a running iOS process: a caller describes hooks,
    the library chooses an engine for each, prepares them without touching the
    process, and commits them in one order.  This library models the C code under
    src/include and src/src as executable definitions and proves what makes it
    correct.  This first file also holds what every other file uses: record
    update, machine words, the state monad with failing allocations, and lemmas
    on lists, options and integers.

    ** How the code is modelled

    Machine integers are [Z] with the wrap-around of the C type written out
    ([u32], [u64], [s64]; bit operations on [Z]).  Names are the code's.  A
    function that changes state is a function of the state ([M S A] is
    [S → A * S]); one that allocates takes the heap, whose every allocation may
    fail by an arbitrary oracle ([heap], [alloc]); one that may refuse returns a
    status or an option, in the order of the code's tests.  A function that reads
    raw memory is partial (Memory.v: [memory] is [Z → option Z], and [option]
    says that an address which cannot be read was read), so that the theorem
    "reads only the image" is that the function has a result ([runs]); with state
    as well it is [F S A] (Faults.v, [returns]).  Loops of C that are not
    structural take fuel; the amounts and why they are enough are listed below.

    ** The parts, and the files that model them

    The public data (src/include/HookKit/*.h): Types.v, the structs as records
    and the enums as inductive types with their numeric codes.

    The plan core (src/src/core).
    - Ownership.v (HKOwnership.c): the serialised key of a target and the list of
      ownership records.  ImageCatalog.v (HKImageCatalog.c, HKImageScope.c): the
      images, which selector matches which, and the early-stopping scope check.
      DyldImages.v: the catalog filled from the images dyld lists.
    - Artifacts.v (HKArtifactLedger.c, HKIDs.c, HKReport.c, HKInstalled.c): the
      ledger of what was installed, identifiers, reports.
    - Engine.v (HKEngineInternal.h): the vtable an engine offers, as a record of
      operations over an engine state the plan does not look into.  This is the
      interface between the plan and the engines.
    - Plan.v, Dispatch.v, Analyze.v, Prepare.v, Commit.v, Pending.v (HKPlan.c):
      construction of plans, one file for each phase, and the queue of deferred
      hooks.  PrepareSafety.v, CommitOrder.v, CommitSafety.v, CommitVerdict.v and
      PlanWf.v hold the theorems on them, PrepareKeeps.v what analysing and
      preparing keep of each hook; Demo.v a small process for witnesses.
    - Runtime.v, RuntimeSpec.v (HKRuntime.c): creation of a runtime, the engine
      registry, enumeration of backends, a caller's list of preferred backends.
      Vendors.v, VendorsSpec.v (the same file): how the process finds, loads and
      binds the vendors' libraries.
    - RuntimeSymbol.v, RuntimeSymbolSpec.v (HKRuntimeSymbol.c): the lookup of a
      symbol through the catalog of a runtime.

    The legacy facade (src/src/compatibility/HKLegacyFacade.c): Facade.v and
    FacadeSpec.v.  A call builds a specification, creates a runtime and a plan of
    its own, and analyses, prepares and commits it; a batch does so once for many
    specifications.  The pointers callers let it write are cells by address.  It
    is the client that composes the parts above: Runtime.v for the runtime, the
    plan core for the hook, NativeMemory.v for the bytes of a memory patch,
    Swift.v for the Swift calls.

    The compatibility header (src/include/HookKit/HookKitCompat.h): Compat.v and
    CompatSpec.v, the entry points of substrate, substitute and libhooker.  They
    share one runtime, which the first call creates, and make a plan for each call;
    what the code reads or writes without asking is a fault of the model.

    The resolvers (src/src/resolvers), over memory of arbitrary bytes.
    - ExportTrie.v (HKExportTrie.c), SymbolTable.v (HKSymbolTable.c), MachO.v and
      MachOBounds.v (HKMachO.c), SymbolResolve.v (HKSymbolResolve.c),
      ImportSlots.v (HKImportSlots.c), ChainedFixups.v (HKChainedFixups.c), with
      MachOSpec.v, WalkInvariants.v, ResolverSafety.v, FixupsSafety.v and
      ResolverSpec.v for their theorems; Demo.v also holds a small image.
    - DyldCache.v (HKDyldCachePatches.c): the uses of a symbol in the patch tables
      of the shared cache, with the sorted index and the per-lookup cache;
      DyldIndex.v, DyldCacheSpec.v, CacheReuse.v for their theorems.

    The machine under the engines.
    - Arm64.v (native/hk_arm64.c): the relocator, with the semantics of the
      instructions it emits and accepts.  PointerAuth.v (internal/HKPointerAuth.h)
      over the class [PacOps] of strip and sign operations.
    - Device.v: the seams of the engines' headers (read, write, allocate,
      publish) as operations on a device with memory, and the contracts the
      engines are proved against; PatchCode.v: code stored in that memory.
    - NativeMemory.v (native/hk_native.c): the writer, the range probes and the
      page search over the Mach VM calls.  PlatformSeams.v: the seams a runtime
      registers its engines with, from NativeMemory.v and StaticPool.v.
    - NativeSymbols.v, NativeSymbolsSpec.v (native/hk_symbols.c): private symbols
      from the shared cache's file or the image's own.

    The engines (src/src/engines, native/hk_swift.c), each an instance of the
    vtable of Engine.v; EngineWorld.v is the state they share.
    - StaticPool.v; MemoryEngine.v; InlineEngine.v; RelocEngine.v with RelocSpec.v
      and RelocPages.v; ProviderEngine.v with ProviderSpec.v.
    - RebindEngine.v (sites and commit), RebindCache.v (the process's file and
      symbol caches), RebindVtable.v (the adapter), BindWalk.v, and RebindCommit.v,
      RebindLedger.v, RebindReplay.v, RebindPlanWf.v, RebindLifecycle.v for the
      theorems, RebindDemo.v for a small image.
    - Objc.v, ObjcSpec.v; Swift.v, SwiftSafety.v, SwiftSpec.v.

    ** What the theorems show

    - Plans: preparing mutates nothing; commit runs the hooks in the least
      topological order, mutates only behind its gates, and reports ACTIVE only
      what was mutated, owned and published; the state after it says what
      happened; adding a hook keeps a plan well-formed; analysis picks the least
      eligible route; a key identifies its target.
    - Engines: for each, the life of a hook (prepare, commit, verify, release)
      against its contract: calls of the target go to the replacement, the
      original replays the displaced code, exactly the declared bytes or slots
      are written, a refusal leaves everything as it was, and pages, files and
      handles are neither leaked nor given back twice.
    - Relocator: an emitted instruction simulates the original on the semantics.
    - Resolvers: over any bytes they end, read only the image and locate only
      what lies in it; over a well-formed image they find what is defined.
    - Caches: no cache (shared-cache index, symbol cache, file cache, the index of
      native symbols) changes an answer.
    - Runtime: creation and its refusals; a list of backend names keeps exactly
      the engines it names, in that order; one image decides a symbol; a vendor is
      bound whole or not at all.
    - Facade: a call always comes back, leaves the caller's runtimes and plans
      alone, writes no cell but the caller's pointer, and its answer is what became
      of the one hook it committed, or a refusal with nothing mutated; a batch
      answers OK or PARTIAL exactly by its operations; a memory patch reads only
      what the kernel called readable.
    - Compatibility header: the same for its calls, whose answer says whether the
      hook is in place; a batch counts the hooks that are; a memory patch faults on
      a range that is not mapped.

    ** Fuel and bounds

    Each is enough by a theorem or by the type of what it counts: doubling of a
    capacity, 65 (a [size_t] has 64 bits); bits of a mask and its phases, 64;
    ULEB128, 10 bytes as in the code; depth of the trie walk, 129 as in the code;
    a chain, the span of its segment; several starts on a page, the extent of the
    start table; a scan of a string, what is left of its table; a walk over
    regions, the length of the range, for every region has at least a byte; the
    search for a near page, 2^27 over the page size on either side; binary
    searches and merges, the number of entries and one; tokens of a list of
    backends, and words of the list the facade is given, its length and one.

    ** Not modelled

    - What the operating system and dyld do: the Mach VM calls, dyld's lookup
      functions, the contents of files, [dladdr], [dlsym], the demangler and
      libobjc are parameters, with the documented laws the theorems use as named
      hypotheses.  A qsort is any function that sorts.
    - The vendors' libraries: what their functions do is a parameter of the
      provider engine and of Vendors.v, and so are the functions of libobjc that
      the Objective-C seams of HKRuntime.c pass on.
    - The inline builders of HookKitObjC.h, which fill in the fields of a target or
      a specification; Core.h and the other headers of declarations; the programs
      under src/tools.
    - The Objective-C files (HKSubstitutor.m, HKLegacyModules.m,
      HKInlinePreflight.m).
    - Locks and threads: each entry point is a step of its own, as under the lock
      the code takes.  The versioning of public structs by [struct_size] is
      modelled only where a function tests it.
    - The counter of identifiers is a part of the world the engines share. *)

From stdpp Require Import base list strings gmap numbers.

#[global] Open Scope Z_scope.
#[global] Set Default Goal Selector "!".

(** ** Record update

    [r <| f := v |>] replaces one field.  A record takes part by giving its
    eta expansion; the setter of a field is the expansion with that
    projection abstracted. *)

Class Eta (R : Type) := eta_expand : R -> R.

Class FieldSetter {R T : Type} (proj : R -> T) := set_field : (T -> T) -> R -> R.
Arguments set_field {R T} proj {_} _ _ /.

Ltac field_setter R proj :=
  let e := constr:(_ : Eta R) in
  let e := eval red in e in
  let abstracted := eval pattern proj in e in
  match abstracted with
  | ?body _ =>
      let s := eval cbv beta in (fun f => body (fun r => f (proj r))) in
      exact s
  end.

#[global] Hint Extern 1 (@FieldSetter ?R _ ?proj) =>
  field_setter R proj : typeclass_instances.

Declare Scope record_scope.
#[global] Open Scope record_scope.
#[warnings="-postfix-notation-not-level-1"]
Notation "r <| f := v |>" := (set_field f (fun _ => v) r)
  (at level 12, left associativity, f at level 11, v at level 200,
   format "r  <| f  :=  v |>") : record_scope.

(** ** Machine words

    A [w]-bit unsigned integer is a [Z] in [0, 2^w); the wrap-around is
    written where the C code has it. *)

Definition u32 (z : Z) : Z := z mod 2 ^ 32.
Definition u64 (z : Z) : Z := z mod 2 ^ 64.

(** Reinterpretation of 64 bits as a two's-complement value. *)
Definition s64 (z : Z) : Z := if u64 z <? 2 ^ 63 then u64 z else u64 z - 2 ^ 64.

(** Bit field [lo + n - 1 : lo] of a word. *)
Definition bits (x lo n : Z) : Z := Z.land (Z.shiftr x lo) (Z.ones n).

Arguments u32 : simpl never.
Arguments u64 : simpl never.
Arguments s64 : simpl never.
Arguments bits : simpl never.

Definition is_u32 (z : Z) : Prop := 0 <= z < 2 ^ 32.
Definition is_u64 (z : Z) : Prop := 0 <= z < 2 ^ 64.

Lemma u32_range z : 0 <= u32 z < 2 ^ 32.
Proof. apply Z.mod_pos_bound; lia. Qed.

Lemma u64_range z : 0 <= u64 z < 2 ^ 64.
Proof. apply Z.mod_pos_bound; lia. Qed.

Lemma u64_small z : is_u64 z → u64 z = z.
Proof. intros H. by apply Z.mod_small. Qed.

Lemma u64_u64 z : u64 (u64 z) = u64 z.
Proof. apply Z.mod_mod; lia. Qed.

Lemma s64_range z : - 2 ^ 63 <= s64 z < 2 ^ 63.
Proof.
  unfold s64. pose proof (u64_range z).
  destruct (Z.ltb_spec (u64 z) (2 ^ 63)); lia.
Qed.

Lemma u64_s64 z : u64 (s64 z) = u64 z.
Proof.
  unfold s64. destruct (u64 z <? 2 ^ 63); [apply u64_u64|].
  unfold u64. rewrite <- (Z.mod_add (z mod _ - _) 1) by lia.
  rewrite <- (Z.mod_mod z) at 2 by lia. f_equal. lia.
Qed.

Lemma bits_range x lo n : 0 <= n → 0 <= bits x lo n < 2 ^ n.
Proof.
  intros Hn. unfold bits. rewrite Z.land_ones by done.
  apply Z.mod_pos_bound. by apply Z.pow_pos_nonneg.
Qed.

(** The test [(x & mask) == value] on a contiguous mask is a field test. *)
Lemma bits_mask x lo n v :
  0 <= lo → 0 <= n →
  Z.land x (Z.shiftl (Z.ones n) lo) = Z.shiftl v lo ↔ bits x lo n = v.
Proof.
  intros Hlo Hn. unfold bits. split; intros H.
  - apply (f_equal (λ z, Z.shiftr z lo)) in H.
    rewrite Z.shiftr_land, !Z.shiftr_shiftl_l, Z.sub_diag, !Z.shiftl_0_r in H by lia.
    done.
  - rewrite <- H, Z.shiftl_land. apply Z.bits_inj'. intros i Hi.
    rewrite !Z.land_spec, !Z.shiftl_spec by lia.
    destruct (Z.ltb_spec i lo) as [Hlt|Hge].
    + rewrite (Z.testbit_neg_r _ (i - lo)) by lia. by rewrite !andb_false_r.
    + rewrite Z.shiftr_spec by lia. by replace (i - lo + lo) with i by lia.
Qed.

(** Masking away a field and inserting another value there. *)
Lemma land_insert x m c k :
  Z.land (Z.lor (Z.land x m) c) k = Z.lor (Z.land x (Z.land m k)) (Z.land c k).
Proof.
  apply Z.bits_inj'. intros i Hi.
  rewrite !Z.land_spec, !Z.lor_spec, !Z.land_spec.
  by destruct (Z.testbit x i), (Z.testbit m i), (Z.testbit c i), (Z.testbit k i).
Qed.

(** Concatenating a shifted value and a low field is an addition. *)
Lemma lor_shiftl_low a b n :
  0 <= n → 0 <= b < 2 ^ n → Z.lor (Z.shiftl a n) b = a * 2 ^ n + b.
Proof.
  intros Hn Hb. rewrite <- Z.shiftl_mul_pow2 by lia.
  assert (H : Z.land (Z.shiftl a n) b = 0).
  { apply Z.bits_inj'. intros i Hi. rewrite Z.land_spec, Z.shiftl_spec, Z.bits_0 by lia.
    destruct (Z.ltb_spec i n).
    - by rewrite Z.testbit_neg_r by lia.
    - rewrite <- (Z.mod_small b (2 ^ n)) by lia.
      rewrite Z.mod_pow2_bits_high by lia. by rewrite andb_false_r. }
  rewrite Z.add_nocarry_lxor by done. symmetry. by apply Z.lxor_lor.
Qed.

(** Reinterpretation changes a value by a multiple of 2^64 only. *)
Lemma s64_congr z : ∃ k, s64 z = z + k * 2 ^ 64.
Proof.
  unfold s64, u64. pose proof (Z.div_mod z (2 ^ 64) ltac:(lia)).
  destruct (_ <? _); [exists (- (z / 2 ^ 64))|exists (- (z / 2 ^ 64) - 1)]; lia.
Qed.

Lemma u64_add_multiple z k : is_u64 z → u64 (z + k * 2 ^ 64) = z.
Proof. intros H. unfold u64. rewrite Z.mod_add by lia. by apply Z.mod_small. Qed.

(** ** State-passing computations

    A C function that reads or writes state is a function from the state
    before to its result and the state after. *)

Definition M (S A : Type) : Type := S → A * S.

Definition ret {S A} (a : A) : M S A := λ s, (a, s).
Definition bind {S A B} (m : M S A) (k : A → M S B) : M S B :=
  λ s, let '(a, s') := m s in k a s'.
Definition gets {S A} (f : S → A) : M S A := λ s, (f s, s).
Definition modify {S} (f : S → S) : M S unit := λ s, (tt, f s).

Declare Scope monad_scope.
Delimit Scope monad_scope with monad.
#[global] Open Scope monad_scope.
Notation "x <- m ;; k" := (bind m (λ x, k))
  (at level 100, m at next level, right associativity) : monad_scope.
Notation "m ;;; k" := (bind m (λ _, k))
  (at level 100, right associativity) : monad_scope.

Definition when {S} (b : bool) (m : M S unit) : M S unit := if b then m else ret tt.

(** A computation on a part of the state, run on the whole. *)
Definition zoom {S T A} (get : S → T) (put : T → S → S) (m : M T A) : M S A :=
  λ s, let '(a, t) := m (get s) in (a, put t s).

(** [for(...)] over a list; the body returns whether to go on. *)
Fixpoint for_each {S A} (l : list A) (body : A → M S unit) : M S unit :=
  match l with
  | [] => ret tt
  | x :: l => body x ;;; for_each l body
  end.

(** [for(...)] with an early [return false]. *)
Fixpoint for_all {S A} (l : list A) (body : A → M S bool) : M S bool :=
  match l with
  | [] => ret true
  | x :: l => ok <- body x ;; if ok then for_all l body else ret false
  end.

(** *** Total-correctness triples *)

Definition triple {S A} (P : S → Prop) (m : M S A) (Q : A → S → Prop) : Prop :=
  ∀ s, P s → Q (m s).1 (m s).2.

Section Triples.
Context {S : Type}.
Implicit Types P : S → Prop.

Lemma triple_ret {A} P (a : A) (Q : A → S → Prop) :
  (∀ s, P s → Q a s) → triple P (ret a) Q.
Proof. intros H s Hs. by apply H. Qed.

Lemma triple_bind {A B} P (m : M S A) (k : A → M S B) R Q :
  triple P m R → (∀ a, triple (R a) (k a) Q) → triple P (bind m k) Q.
Proof.
  intros Hm Hk s Hs. specialize (Hm s Hs). unfold bind.
  destruct (m s) as [a s']. by apply (Hk a).
Qed.

Lemma triple_gets {A} P (f : S → A) (Q : A → S → Prop) :
  (∀ s, P s → Q (f s) s) → triple P (gets f) Q.
Proof. intros H s Hs. by apply H. Qed.

Lemma triple_modify P (f : S → S) (Q : unit → S → Prop) :
  (∀ s, P s → Q tt (f s)) → triple P (modify f) Q.
Proof. intros H s Hs. by apply H. Qed.

Lemma triple_conseq {A} P P' (m : M S A) (Q Q' : A → S → Prop) :
  triple P' m Q' → (∀ s, P s → P' s) → (∀ a s, Q' a s → Q a s) → triple P m Q.
Proof. intros H HP HQ s Hs. apply HQ, H, HP, Hs. Qed.

Lemma triple_if {A} P (b : bool) (m1 m2 : M S A) Q :
  (b = true → triple P m1 Q) → (b = false → triple P m2 Q) →
  triple P (if b then m1 else m2) Q.
Proof. destruct b; auto. Qed.

Lemma triple_when P (b : bool) (m : M S unit) Q :
  (b = true → triple P m Q) → (b = false → ∀ s, P s → Q tt s) → triple P (when b m) Q.
Proof. destruct b; intros H1 H2; [by apply H1|]. apply triple_ret. by apply H2. Qed.

(** A loop invariant that does not mention the position. *)
Lemma triple_for_each {A} (I : S → Prop) (l : list A) body :
  (∀ x, x ∈ l → triple I (body x) (λ _, I)) → triple I (for_each l body) (λ _, I).
Proof.
  induction l as [|x l IH]; intros H; cbn [for_each].
  - by apply triple_ret.
  - apply (triple_bind _ _ _ (λ _, I)); [apply H; by left|].
    intros _. apply IH. intros y Hy. apply H. by right.
Qed.

(** A loop invariant indexed by the elements done. *)
Lemma triple_for_each_done {A} (I : list A → S → Prop) (l : list A) body :
  (∀ d x r, l = d ++ x :: r → triple (I d) (body x) (λ _, I (d ++ [x]))) →
  triple (I []) (for_each l body) (λ _, I l).
Proof.
  intros H. cut (∀ d r, l = d ++ r → triple (I d) (for_each r body) (λ _, I l)).
  { intros Hc. by apply (Hc []). }
  intros d r. revert d. induction r as [|x r IH]; intros d Hl; cbn [for_each].
  - rewrite app_nil_r in Hl. subst d. by apply triple_ret.
  - apply (triple_bind _ _ _ (λ _, I (d ++ [x]))); [by apply (H d x r)|].
    intros _. apply IH. by rewrite <- app_assoc.
Qed.
End Triples.

Lemma triple_zoom {S T A} (get : S → T) (put : T → S → S) P (m : M T A) Q :
  (∀ s, P s → Q (m (get s)).1 (put (m (get s)).2 s)) → triple P (zoom get put m) Q.
Proof. intros H s Hs. specialize (H s Hs). unfold zoom. by destruct (m (get s)). Qed.

(** ** The C allocator

    Whether the [n]-th allocation of a run fails is arbitrary; a block that
    must be told apart from others gets an address never given out before. *)

Record heap : Type := Heap {
  h_fails : nat → bool;
  h_tick : nat;
  h_next : Z }.

#[export] Instance heap_eta : Eta heap := λ h, Heap (h_fails h) (h_tick h) (h_next h).

(** [malloc]/[calloc]/[realloc] of a block whose identity does not matter. *)
Definition alloc : M heap bool := λ h,
  (negb (h_fails h (h_tick h)), h <| h_tick := S (h_tick h) |>).

(** The same for an object handed out by address; 0 is NULL. *)
Definition alloc_object : M heap Z := λ h,
  let h' := h <| h_tick := S (h_tick h) |> in
  if h_fails h (h_tick h) then (0, h') else (h_next h, h' <| h_next := h_next h + 1 |>).

(** No allocation fails. *)
Definition heap_ok (h : heap) : Prop := ∀ n, h_fails h n = false.

Definition SIZE_MAX : Z := 2 ^ 64 - 1.

(** The capacity loop of the growable arrays: doubled until enough, or exactly
    what is needed once doubling would wrap.  [fuel] 65 covers every size. *)
Fixpoint grow_capacity (fuel : nat) (capacity needed : Z) : Z :=
  match fuel with
  | O => capacity
  | S fuel =>
      if capacity <? needed then
        if SIZE_MAX / 2 <? capacity then needed
        else grow_capacity fuel (capacity * 2) needed
      else capacity
  end.

Lemma grow_capacity_enough fuel capacity needed :
  0 < capacity → 2 ^ 65 <= capacity * 2 ^ Z.of_nat fuel →
  needed <= SIZE_MAX → needed <= grow_capacity fuel capacity needed.
Proof.
  revert capacity. induction fuel as [|fuel IH]; intros c Hc Hf Hn; cbn [grow_capacity].
  - unfold SIZE_MAX in Hn. lia.
  - destruct (Z.ltb_spec c needed); [|lia]. destruct (SIZE_MAX / 2 <? c); [lia|].
    apply IH; [lia| |done]. rewrite Nat2Z.inj_succ, Z.pow_succ_r in Hf by lia. lia.
Qed.

Arguments grow_capacity : simpl never.
