(* ===== verification/Types.v ===== *)
(** * The public and internal data types (include/HookKit/*.h,
    src/core/HKEngineInternal.h)

    Structs are records and enums inductive types; an enum that reaches a
    [default:] branch keeps a constructor for the values it does not name.  A
    [void *] is its address with 0 for NULL; a [const char *] is an
    [option string]; the [struct_size]/[struct_version] headers appear where
    the code reads them. *)

From stdpp Require Import base list strings gmap numbers.
From S2P Require Import Prelude.

Record hk_id : Type := Id { id_high : Z; id_low : Z }.

#[export] Instance hk_id_eq_dec : EqDecision hk_id.
Proof. solve_decision. Defined.

Definition zero_id : hk_id := Id 0 0.

Inductive hk_status : Type :=
  | HK_STATUS_OK | HK_STATUS_INVALID_ARGUMENT | HK_STATUS_INVALID_STATE
  | HK_STATUS_OUT_OF_MEMORY | HK_STATUS_UNAVAILABLE | HK_STATUS_INTERNAL_ERROR
  | HK_STATUS_SHUTTING_DOWN.

#[export] Instance hk_status_eq_dec : EqDecision hk_status.
Proof. solve_decision. Defined.

Definition hk_status_code (s : hk_status) : Z :=
  match s with
  | HK_STATUS_OK => 0 | HK_STATUS_INVALID_ARGUMENT => 1 | HK_STATUS_INVALID_STATE => 2
  | HK_STATUS_OUT_OF_MEMORY => 3 | HK_STATUS_UNAVAILABLE => 4
  | HK_STATUS_INTERNAL_ERROR => 5 | HK_STATUS_SHUTTING_DOWN => 6
  end.

(** [hk_bytes_view_t]: NULL with the size the caller left there, or bytes. *)
Inductive bytes_view : Type :=
  | BytesNull (size : Z)
  | Bytes (data : list Z).

(** [hk_string_view_t], the same. *)
Inductive string_view : Type :=
  | ViewNull (length : Z)
  | View (data : string).

(** ** Targets *)

Inductive hk_target_kind : Type :=
  | HK_TARGET_FUNCTION_SYMBOL | HK_TARGET_FUNCTION_ADDRESS | HK_TARGET_OBJC_METHOD
  | HK_TARGET_MEMORY_PATCH | HK_TARGET_SWIFT_VTABLE | HK_TARGET_OTHER (kind : Z).

#[export] Instance hk_target_kind_eq_dec : EqDecision hk_target_kind.
Proof. solve_decision. Defined.

Definition hk_target_kind_code (k : hk_target_kind) : Z :=
  match k with
  | HK_TARGET_FUNCTION_SYMBOL => 0 | HK_TARGET_FUNCTION_ADDRESS => 1
  | HK_TARGET_OBJC_METHOD => 2 | HK_TARGET_MEMORY_PATCH => 3
  | HK_TARGET_SWIFT_VTABLE => 4 | HK_TARGET_OTHER k => k
  end.

(** An image selector.  The kind decides which of the other fields the code
    reads, so the kinds are constructors; the fields a copy carries along
    beside them ([path], [uuid], [header]) sit in [sel_extra]. *)
Record selector_extra : Type := SelectorExtra {
  se_path : option string;
  se_uuid : list Z;
  se_header : Z }.

#[export] Instance selector_extra_eq_dec : EqDecision selector_extra.
Proof. solve_decision. Defined.

Inductive image_selector_kind : Type :=
  | HK_IMAGE_ANY_LOADED | HK_IMAGE_MAIN_EXECUTABLE | HK_IMAGE_EXACT_PATH
  | HK_IMAGE_EXACT_UUID | HK_IMAGE_EXACT_HEADER | HK_IMAGE_EXPLICIT_SET
  | HK_IMAGE_OTHER (kind : Z).

#[export] Instance image_selector_kind_eq_dec : EqDecision image_selector_kind.
Proof. solve_decision. Defined.

Definition image_selector_kind_code (k : image_selector_kind) : Z :=
  match k with
  | HK_IMAGE_ANY_LOADED => 0 | HK_IMAGE_MAIN_EXECUTABLE => 1 | HK_IMAGE_EXACT_PATH => 2
  | HK_IMAGE_EXACT_UUID => 3 | HK_IMAGE_EXACT_HEADER => 4 | HK_IMAGE_EXPLICIT_SET => 5
  | HK_IMAGE_OTHER k => k
  end.

(** [explicit_set] and [explicit_set_count]: a NULL array with a count, or an
    array of that many pointers, each possibly NULL. *)
Inductive image_selector : Type :=
  | Selector (kind : image_selector_kind) (extra : selector_extra) (set : selector_set)
with selector_set : Type :=
  | SetNull (count : Z)
  | SetArray (elems : list (option image_selector)).

Definition sel_kind (s : image_selector) : image_selector_kind := let '(Selector k _ _) := s in k.
Definition sel_extra (s : image_selector) : selector_extra := let '(Selector _ e _) := s in e.
Definition sel_set (s : image_selector) : selector_set := let '(Selector _ _ c) := s in c.

Definition zero_uuid : list Z := replicate 16 0.
Definition zero_selector : image_selector :=
  Selector HK_IMAGE_ANY_LOADED (SelectorExtra None zero_uuid 0) (SetNull 0).

Inductive hk_symbol_visibility : Type :=
  | HK_SYMBOL_VISIBILITY_ANY | HK_SYMBOL_VISIBILITY_EXPORTED_ONLY
  | HK_SYMBOL_VISIBILITY_PRIVATE_ALLOWED.

(** [name_convention] and [alias_policy] are enums the core only copies and
    encodes: their numeric values. *)
Record hk_symbol_target : Type := SymbolTarget {
  sy_name : option string;
  sy_name_convention : Z;
  sy_visibility : hk_symbol_visibility;
  sy_defining_image : image_selector;
  sy_caller_image_scope : image_selector;
  sy_alias_policy : Z;
  sy_interior_address_permitted : bool }.

#[export] Instance hk_symbol_target_eta : Eta hk_symbol_target := λ r,
  SymbolTarget (sy_name r) (sy_name_convention r) (sy_visibility r) (sy_defining_image r)
    (sy_caller_image_scope r) (sy_alias_policy r) (sy_interior_address_permitted r).

Record hk_address_target : Type := AddressTarget {
  ad_address : Z;
  ad_expected_image : image_selector;
  ad_expected_uuid : option (list Z);
  ad_expected_initial_bytes : bytes_view;
  ad_may_strip_pac_or_thumb_state : bool }.

#[export] Instance hk_address_target_eta : Eta hk_address_target := λ r,
  AddressTarget (ad_address r) (ad_expected_image r) (ad_expected_uuid r)
    (ad_expected_initial_bytes r) (ad_may_strip_pac_or_thumb_state r).

Inductive hk_availability : Type :=
  | HK_AVAILABILITY_REQUIRED_NOW | HK_AVAILABILITY_OPTIONAL_IF_PRESENT
  | HK_AVAILABILITY_DEFER_UNTIL_AVAILABLE.

#[export] Instance hk_availability_eq_dec : EqDecision hk_availability.
Proof. solve_decision. Defined.

Record hk_objc_target : Type := ObjcTarget {
  oc_cls : Z;
  oc_class_name : option string;
  oc_sel : Z;
  oc_selector_name : option string;
  oc_method_kind : Z;
  oc_inheritance_policy : Z;
  oc_availability : hk_availability }.

#[export] Instance hk_objc_target_eta : Eta hk_objc_target := λ r,
  ObjcTarget (oc_cls r) (oc_class_name r) (oc_sel r) (oc_selector_name r)
    (oc_method_kind r) (oc_inheritance_policy r) (oc_availability r).

Record hk_memory_target : Type := MemoryTarget {
  me_address : Z;
  me_address_is_image_relative : bool;
  me_base_image : image_selector;
  me_replacement_bytes : bytes_view;
  me_expected_bytes : bytes_view;
  me_expected_mask : bytes_view;
  me_size : Z;
  me_kind : Z }.

#[export] Instance hk_memory_target_eta : Eta hk_memory_target := λ r,
  MemoryTarget (me_address r) (me_address_is_image_relative r) (me_base_image r)
    (me_replacement_bytes r) (me_expected_bytes r) (me_expected_mask r) (me_size r) (me_kind r).

(** [target_kind] and the union member it selects. *)
Inductive hk_target : Type :=
  | TSymbol (t : hk_symbol_target)
  | TAddress (t : hk_address_target)
  | TObjc (t : hk_objc_target)
  | TMemory (t : hk_memory_target)
  | TSwift
  | TOther (kind : Z).

Definition target_kind (t : hk_target) : hk_target_kind :=
  match t with
  | TSymbol _ => HK_TARGET_FUNCTION_SYMBOL | TAddress _ => HK_TARGET_FUNCTION_ADDRESS
  | TObjc _ => HK_TARGET_OBJC_METHOD | TMemory _ => HK_TARGET_MEMORY_PATCH
  | TSwift => HK_TARGET_SWIFT_VTABLE | TOther k => HK_TARGET_OTHER k
  end.

(** ** Bit sets: effects, reachability, constraints *)

Definition HK_REACH_EXACT_IMAGE_SCOPE : Z := 2 ^ 5.

Definition HK_EFFECT_TARGET_TEXT_MUTATION : Z := 2 ^ 0.
Definition HK_EFFECT_IMPORT_MUTATION : Z := 2 ^ 1.
Definition HK_EFFECT_OBJC_METADATA_MUTATION : Z := 2 ^ 2.
Definition HK_EFFECT_SWIFT_VTABLE_MUTATION : Z := 2 ^ 3.
Definition HK_EFFECT_MEMORY_MUTATION : Z := 2 ^ 4.
Definition HK_EFFECT_EXECUTABLE_ALLOCATION : Z := 2 ^ 5.
Definition HK_EFFECT_STATIC_CONTINUATION_USE : Z := 2 ^ 6.
Definition HK_EFFECT_PROVIDER_ACTIVATION : Z := 2 ^ 7.
Definition HK_EFFECT_PROVIDER_IMAGE_LOAD : Z := 2 ^ 8.
Definition HK_EFFECT_CALLBACK_REGISTRATION : Z := 2 ^ 10.
Definition HK_EFFECT_THREAD_CREATION : Z := 2 ^ 11.
Definition HK_EFFECT_PRIVATE_SYMBOL_SCAN : Z := 2 ^ 12.
Definition HK_EFFECT_UNKNOWN_PROCESS_MUTATION : Z := 2 ^ 63.

Definition HK_FORBID_TARGET_TEXT_PATCH : Z := 2 ^ 0.
Definition HK_FORBID_IMPORT_SLOT_PATCH : Z := 2 ^ 1.
Definition HK_FORBID_OBJC_METADATA_CHANGE : Z := 2 ^ 2.
Definition HK_FORBID_SWIFT_VTABLE_CHANGE : Z := 2 ^ 3.
Definition HK_FORBID_DYNAMIC_EXECUTABLE_MEMORY : Z := 2 ^ 4.
Definition HK_FORBID_STATIC_CONTINUATION : Z := 2 ^ 5.
Definition HK_FORBID_PRIVATE_SYMBOL_SCAN : Z := 2 ^ 6.
Definition HK_FORBID_PROVIDER_ACTIVATION : Z := 2 ^ 7.
Definition HK_FORBID_PROVIDER_IMAGE_LOAD : Z := 2 ^ 8.
Definition HK_FORBID_CALLBACK_REGISTRATION : Z := 2 ^ 9.
Definition HK_FORBID_THREAD_CREATION : Z := 2 ^ 11.
Definition HK_FORBID_UNKNOWN_COMMIT_EFFECTS : Z := 2 ^ 13.

(** [x & ~mask] on [uint64_t]. *)
Definition without (x mask : Z) : Z := Z.land x (Z.lxor (2 ^ 64 - 1) mask).

(** ** Results *)

Inductive hk_original_requirement : Type :=
  | HK_ORIGINAL_NONE | HK_ORIGINAL_DIRECT_PREDECESSOR | HK_ORIGINAL_CALLABLE_CONTINUATION.

Inductive hk_continuation_policy : Type :=
  | HK_CONTINUATION_ANY | HK_CONTINUATION_NO_DYNAMIC_EXECUTABLE_MEMORY
  | HK_CONTINUATION_FORBIDDEN.

Inductive hk_install_context : Type :=
  | HK_INSTALL_CONTEXT_EARLY_PROCESS | HK_INSTALL_CONTEXT_MAIN_THREAD_SERIALIZED
  | HK_INSTALL_CONTEXT_RUNTIME_SERIALIZED | HK_INSTALL_CONTEXT_ARBITRARY_RUNTIME
  | HK_INSTALL_CONTEXT_OTHER (context : Z).

#[export] Instance hk_original_requirement_eq_dec : EqDecision hk_original_requirement.
Proof. solve_decision. Defined.
#[export] Instance hk_continuation_policy_eq_dec : EqDecision hk_continuation_policy.
Proof. solve_decision. Defined.
#[export] Instance hk_install_context_eq_dec : EqDecision hk_install_context.
Proof. solve_decision. Defined.

Definition hk_original_requirement_code (r : hk_original_requirement) : Z :=
  match r with
  | HK_ORIGINAL_NONE => 0 | HK_ORIGINAL_DIRECT_PREDECESSOR => 1
  | HK_ORIGINAL_CALLABLE_CONTINUATION => 2
  end.

(** The unsigned value; [HK_INSTALL_CONTEXT_OTHER] holds the others. *)
Definition hk_install_context_code (c : hk_install_context) : Z :=
  match c with
  | HK_INSTALL_CONTEXT_EARLY_PROCESS => 0 | HK_INSTALL_CONTEXT_MAIN_THREAD_SERIALIZED => 1
  | HK_INSTALL_CONTEXT_RUNTIME_SERIALIZED => 2 | HK_INSTALL_CONTEXT_ARBITRARY_RUNTIME => 3
  | HK_INSTALL_CONTEXT_OTHER c => c
  end.

Inductive hk_continuation_kind : Type :=
  | HK_CONTINUATION_KIND_NONE | HK_CONTINUATION_KIND_DIRECT_PREDECESSOR
  | HK_CONTINUATION_KIND_STATIC | HK_CONTINUATION_KIND_DYNAMIC
  | HK_CONTINUATION_KIND_PROVIDER_INTERNAL | HK_CONTINUATION_KIND_UNKNOWN.

(** [hk_continuation_info_t]: its header size (the core checks it), its kind
    and address; the remaining descriptive fields are copied as a block. *)
Record hk_continuation_info : Type := ContinuationInfo {
  ci_struct_size : Z;
  ci_kind : hk_continuation_kind;
  ci_address : Z;
  ci_description : list Z }.

#[export] Instance hk_continuation_kind_eq_dec : EqDecision hk_continuation_kind.
Proof. solve_decision. Defined.
#[export] Instance hk_continuation_info_eq_dec : EqDecision hk_continuation_info.
Proof. solve_decision. Defined.

Definition SIZEOF_CONTINUATION_INFO : Z := 88.

(** All bytes zero, and the same with the header filled in. *)
Definition zero_continuation : hk_continuation_info :=
  ContinuationInfo 0 HK_CONTINUATION_KIND_NONE 0 [].
Definition empty_continuation : hk_continuation_info :=
  ContinuationInfo SIZEOF_CONTINUATION_INFO HK_CONTINUATION_KIND_NONE 0 [].

Inductive hk_outcome : Type :=
  | HK_OUTCOME_UNANALYZED | HK_OUTCOME_NO_ROUTE | HK_OUTCOME_ANALYZED
  | HK_OUTCOME_PREPARED | HK_OUTCOME_PENDING | HK_OUTCOME_ACTIVE
  | HK_OUTCOME_ALREADY_ACTIVE | HK_OUTCOME_STALE_PLAN | HK_OUTCOME_CONFLICT
  | HK_OUTCOME_FAILED_SAFE | HK_OUTCOME_FAILED_PARTIAL | HK_OUTCOME_FAILED_UNKNOWN
  | HK_OUTCOME_COMPENSATED | HK_OUTCOME_INVALIDATED.

#[export] Instance hk_outcome_eq_dec : EqDecision hk_outcome.
Proof. solve_decision. Defined.

Inductive hk_mutation_state : Type :=
  | HK_MUTATION_NONE | HK_MUTATION_COMPLETE | HK_MUTATION_PARTIAL | HK_MUTATION_UNKNOWN.

#[export] Instance hk_mutation_state_eq_dec : EqDecision hk_mutation_state.
Proof. solve_decision. Defined.

(** [hk_hook_result_t].  Its string views always carry [strlen] of a static
    string, so they are the strings ([None] for NULL, 0). *)
Record hk_hook_result : Type := HookResult {
  r_runtime_owner_id : hk_id;
  r_plan_id : hk_id;
  r_request_id : hk_id;
  r_installed_id : hk_id;
  r_image_generation : Z;
  r_installed_generation : Z;
  r_outcome : hk_outcome;
  r_mutation : hk_mutation_state;
  r_achieved_reach : Z;
  r_unmet_preferred_reach : Z;
  r_declared_prepare_effects : Z;
  r_observed_prepare_effects : Z;
  r_declared_commit_effects : Z;
  r_observed_commit_effects : Z;
  r_continuation : hk_continuation_info;
  r_original_available : bool;
  r_verified : bool;
  r_retryable : bool;
  r_currently_valid : bool;
  r_matched_locations : Z;
  r_modified_locations : Z;
  r_diagnostic_engine_id : option string;
  r_error_domain : option string;
  r_error_code : Z;
  r_error_message : option string;
  r_artifact_count : Z }.

#[export] Instance hk_hook_result_eta : Eta hk_hook_result := λ r,
  HookResult (r_runtime_owner_id r) (r_plan_id r) (r_request_id r) (r_installed_id r)
    (r_image_generation r) (r_installed_generation r) (r_outcome r) (r_mutation r)
    (r_achieved_reach r) (r_unmet_preferred_reach r) (r_declared_prepare_effects r)
    (r_observed_prepare_effects r) (r_declared_commit_effects r) (r_observed_commit_effects r)
    (r_continuation r) (r_original_available r) (r_verified r) (r_retryable r)
    (r_currently_valid r) (r_matched_locations r) (r_modified_locations r)
    (r_diagnostic_engine_id r) (r_error_domain r) (r_error_code r) (r_error_message r)
    (r_artifact_count r).

(** What [memset] leaves: every enum's first constructor. *)
Definition zero_result : hk_hook_result :=
  HookResult zero_id zero_id zero_id zero_id 0 0 HK_OUTCOME_UNANALYZED HK_MUTATION_NONE
    0 0 0 0 0 0 zero_continuation false false false false 0 0 None None 0 None 0.

Definition hk_hook_result_refused_cleanly (r : option hk_hook_result) : bool :=
  match r with
  | None => false
  | Some r =>
      bool_decide (r_mutation r = HK_MUTATION_NONE) &&
      (bool_decide (r_outcome r = HK_OUTCOME_NO_ROUTE) ||
       bool_decide (r_outcome r = HK_OUTCOME_FAILED_SAFE))
  end.

(** ** Hook and domain specifications *)

Inductive hk_operation_role : Type := HK_OPERATION_OPTIONAL | HK_OPERATION_MANDATORY.

#[export] Instance hk_operation_role_eq_dec : EqDecision hk_operation_role.
Proof. solve_decision. Defined.

Record hk_domain_spec : Type := DomainSpec {
  ds_struct_size : Z;
  ds_stable_domain_id : option string;
  ds_domain_order : Z;
  ds_require_all_mandatory_prepared : bool;
  ds_prefer_reversible_before_irreversible : bool;
  ds_compensation_policy : Z }.

#[export] Instance hk_domain_spec_eta : Eta hk_domain_spec := λ r,
  DomainSpec (ds_struct_size r) (ds_stable_domain_id r) (ds_domain_order r)
    (ds_require_all_mandatory_prepared r) (ds_prefer_reversible_before_irreversible r)
    (ds_compensation_policy r).

Definition SIZEOF_DOMAIN_SPEC : Z := 32.
Definition SIZEOF_HOOK_SPEC : Z := 264.
Definition SIZEOF_PLAN_CONFIG : Z := 16.

(** [domain] and the [commit_after] elements are addresses of the plan's
    domains and hooks; [commit_after] is NULL with a count, or an array. *)
Inductive commit_after_list : Type :=
  | AfterNull (count : Z)
  | After (hooks : list Z).

Record hk_hook_spec : Type := HookSpec {
  hs_struct_size : Z;
  hs_stable_hook_id : option string;
  hs_target : hk_target;
  hs_replacement : Z;
  hs_required_reach : Z;
  hs_preferred_reach : Z;
  hs_original_requirement : hk_original_requirement;
  hs_continuation_policy : hk_continuation_policy;
  hs_constraints : Z;
  hs_availability : hk_availability;
  hs_role : hk_operation_role;
  hs_domain : Z;
  hs_commit_order : Z;
  hs_commit_after : commit_after_list }.

#[export] Instance hk_hook_spec_eta : Eta hk_hook_spec := λ r,
  HookSpec (hs_struct_size r) (hs_stable_hook_id r) (hs_target r) (hs_replacement r)
    (hs_required_reach r) (hs_preferred_reach r) (hs_original_requirement r)
    (hs_continuation_policy r) (hs_constraints r) (hs_availability r) (hs_role r)
    (hs_domain r) (hs_commit_order r) (hs_commit_after r).

(** The elements the loops bounded by [commit_after_count] visit. *)
Definition commit_after (spec : hk_hook_spec) : list Z :=
  match hs_commit_after spec with AfterNull _ => [] | After l => l end.
Definition commit_after_count (spec : hk_hook_spec) : Z :=
  match hs_commit_after spec with AfterNull n => n | After l => Z.of_nat (length l) end.

Inductive hk_plan_state : Type :=
  | HK_PLAN_DRAFT | HK_PLAN_ANALYZED | HK_PLAN_PREPARING | HK_PLAN_PREPARED
  | HK_PLAN_COMMITTING | HK_PLAN_COMMITTED | HK_PLAN_PARTIAL | HK_PLAN_FAILED
  | HK_PLAN_INVALIDATED | HK_PLAN_DISCARDED.

#[export] Instance hk_plan_state_eq_dec : EqDecision hk_plan_state.
Proof. solve_decision. Defined.
