(* ===== verification/Arm64.v ===== *)
(** * AArch64 instruction relocation (src/native/hk_arm64.c)

    The encoder and the relocator of the inline engines, the ISA fragment
    they rely on, and the proof that a relocated instruction does what the
    original did.  A [uint32_t] instruction and a [uint64_t] address are [Z]s
    of that width. *)

From stdpp Require Import base list numbers.
From S2P Require Import Prelude.

(** ** Encoders *)
Module Enc.

Definition A64_NOP : Z := 0xD503201F.
Definition A64_SCRATCH_JUMP : Z := 16.
Definition A64_SCRATCH_LOAD : Z := 17.
Definition HK_A64_MAX_RELOC_BYTES : Z := 24.
Definition HK_A64_MAX_BRANCH_BYTES : Z := 16.

Definition a64_b (delta : Z) : Z :=
  Z.lor 0x14000000 (Z.land (Z.shiftr delta 2) 0x03FFFFFF).

Definition a64_ldr_lit64 (rt delta : Z) : Z :=
  Z.lor (Z.lor 0x58000000 (Z.shiftl (Z.land (Z.shiftr delta 2) 0x7FFFF) 5))
        (Z.land rt 31).

Definition a64_br (rn : Z) : Z := Z.lor 0xD61F0000 (Z.shiftl (Z.land rn 31) 5).
Definition a64_blr (rn : Z) : Z := Z.lor 0xD63F0000 (Z.shiftl (Z.land rn 31) 5).

(** [sign_extend]: unsigned 64-bit arithmetic, then a bit copy to [int64_t]. *)
Definition sign_extend (value bits : Z) : Z :=
  let mask := if 64 <=? bits then 2 ^ 64 - 1 else u64 (Z.shiftl 1 bits - 1) in
  let v := Z.land value mask in
  let sign := Z.shiftl 1 (bits - 1) in
  let mag := u64 (Z.lxor v sign - sign) in
  let extended :=
    if Z.land mag sign =? 0 then Z.land mag mask
    else Z.lor mag (Z.lxor (2 ^ 64 - 1) mask) in
  s64 extended.

Definition branch_target (pc offset_words : Z) : Z := u64 (s64 pc + offset_words * 4).

Definition a64_set_imm19 (insn delta : Z) : Z :=
  Z.lor (Z.land insn (Z.lxor (2 ^ 32 - 1) (Z.shiftl 0x7FFFF 5)))
        (Z.shiftl (Z.land (Z.shiftr delta 2) 0x7FFFF) 5).

Definition a64_set_imm14 (insn delta : Z) : Z :=
  Z.lor (Z.land insn (Z.lxor (2 ^ 32 - 1) (Z.shiftl 0x3FFF 5)))
        (Z.shiftl (Z.land (Z.shiftr delta 2) 0x3FFF) 5).

(** [memcpy(&dst[i], &value, 8)] into an array of words, little-endian. *)
Definition quad (value : Z) : list Z := [bits value 0 32; bits value 32 32].

Definition emit_abs_jump (target : Z) : list Z :=
  let scratch := if Z.land (Z.shiftr target 2) 1 =? 0
                 then A64_SCRATCH_JUMP else A64_SCRATCH_LOAD in
  [a64_ldr_lit64 scratch 8; a64_br scratch] ++ quad target.

Definition emit_load_const (rd value : Z) : list Z :=
  [a64_ldr_lit64 rd 8; a64_b 12] ++ quad value.

End Enc.
Import Enc.

(** ** The instruction tests the engines run on a target's prologue *)

Definition masked (insn mask value : Z) : bool := Z.land insn mask =? value.

Definition hk_arm64_is_terminator (insn : Z) : bool :=
  if masked insn 0xFFFFFC1F 0xD65F0000 then true
  else if masked insn 0xFFFFFC1F 0xD61F0000 then true
  else if masked insn 0xFC000000 0x14000000 then true
  else false.

Definition hk_arm64_insn_is_trap (insn : Z) : bool :=
  if masked insn 0xFFE0001F 0xD4200000 then true
  else if masked insn 0xFFE0001F 0xD4400000 then true
  else if masked insn 0xFFFF0000 0 then true
  else false.

Definition is_authenticated_terminator (insn : Z) : bool :=
  if insn =? 0xD65F0BFF then true
  else if insn =? 0xD65F0FFF then true
  else if masked insn 0xFFFFFC00 0xD71F0800 then true
  else if masked insn 0xFFFFFC00 0xD71F0C00 then true
  else if masked insn 0xFFFFFC1F 0xD61F081F then true
  else if masked insn 0xFFFFFC1F 0xD61F0C1F then true
  else false.

(** A window is [len] bytes at [win] (NULL is [None]): the complete words of
    it and the byte length.  [count = len / 4] words are inspected. *)
Definition hk_arm64_has_early_terminator (win : option (list Z)) (len : nat) : bool :=
  match win with
  | None => false
  | Some insns =>
      if (len <? 4)%nat then false
      else existsb (λ insn, hk_arm64_is_terminator insn || is_authenticated_terminator insn)
             (take (len / 4) insns)
  end.

Definition hk_arm64_has_aarch64_literal_load (win : option (list Z)) (len : nat) : bool :=
  match win with
  | None => false
  | Some insns =>
      if (len <? 4)%nat then false
      else existsb (λ insn, masked insn 0x3B000000 0x18000000
                            || masked insn 0x1F000000 0x10000000)
             (take (len / 4) insns)
  end.

(** [(int64_t)to - (int64_t)from] is computed without overflow in C for the
    addresses of one half of the address space. *)
Definition hk_arm64_branch_size (from to : Z) : Z :=
  let delta := s64 to - s64 from in
  if (- 2 ^ 27 <=? delta) && (delta <? 2 ^ 27) then 4 else HK_A64_MAX_BRANCH_BYTES.

(** The words written and the byte count returned. *)
Definition hk_arm64_emit_branch (buf_addr dest : Z) : list Z * Z :=
  if hk_arm64_branch_size buf_addr dest =? 4
  then ([a64_b (s64 dest - s64 buf_addr)], 4)
  else (emit_abs_jump dest, 16).

(** ** Relocation *)
Module Reloc.

(** One instruction: the words emitted, [None] for the C code's [return 0].
    The C function dispatches on five shapes in order; each is one definition. *)
Definition is_adr (insn : Z) : bool := masked insn 0x1F000000 0x10000000.
Definition is_b_bl (insn : Z) : bool := masked insn 0x7C000000 0x14000000.
Definition is_b_cond (insn : Z) : bool := masked insn 0xFF000010 0x54000000.
Definition is_cbz (insn : Z) : bool := masked insn 0x7E000000 0x34000000.
Definition is_tbz (insn : Z) : bool := masked insn 0x7E000000 0x36000000.
Definition is_load_literal (insn : Z) : bool := masked insn 0x3B000000 0x18000000.
Definition bit31 (insn : Z) : bool := negb (Z.land insn 0x80000000 =? 0).

Definition adr_target (insn pc : Z) : Z :=
  let immlo := Z.land (Z.shiftr insn 29) 3 in
  let immhi := Z.land (Z.shiftr insn 5) 0x7FFFF in
  let imm := sign_extend (Z.lor (Z.shiftl immhi 2) immlo) 21 in
  if bit31 insn
  then u64 (Z.land pc (Z.lxor (2 ^ 64 - 1) 0xFFF) + u64 (Z.shiftl (u64 imm) 12))
  else u64 (pc + u64 imm).

Definition in_patch (target patch_start patch_end : Z) : bool :=
  (patch_start <=? target) && (target <? patch_end).

Definition relocate_b_bl (insn pc patch_start patch_end : Z) : option (list Z) :=
  let target := branch_target pc (sign_extend (Z.land insn 0x03FFFFFF) 26) in
  if in_patch target patch_start patch_end then None
  else if negb (bit31 insn) then Some (emit_abs_jump target)
  else Some ([a64_ldr_lit64 A64_SCRATCH_JUMP 12; a64_blr A64_SCRATCH_JUMP; a64_b 12]
             ++ quad target).

(** The conditional forms: target and the instruction retargeted at [+8]. *)
Definition conditional_of (insn pc : Z) : option (Z * Z) :=
  if is_b_cond insn then
    Some (branch_target pc (sign_extend (Z.land (Z.shiftr insn 5) 0x7FFFF) 19),
          a64_set_imm19 insn 8)
  else if is_cbz insn then
    Some (branch_target pc (sign_extend (Z.land (Z.shiftr insn 5) 0x7FFFF) 19),
          a64_set_imm19 insn 8)
  else if is_tbz insn then
    Some (branch_target pc (sign_extend (Z.land (Z.shiftr insn 5) 0x3FFF) 14),
          a64_set_imm14 insn 8)
  else None.

(** [opc]/[v] to the register-offset load, [None] where C returns 0. *)
Definition load_opcode (v opc : Z) : option Z :=
  if v =? 0 then
    if opc =? 0 then Some 0xB9400000
    else if opc =? 1 then Some 0xF9400000
    else if opc =? 2 then Some 0xB9800000
    else None
  else
    if opc =? 0 then Some 0xBD400000
    else if opc =? 1 then Some 0xFD400000
    else if opc =? 2 then Some 0x3DC00000
    else None.

Definition relocate_load_literal (insn pc : Z) : option (list Z) :=
  let opc := Z.shiftr insn 30 in
  let v := Z.land (Z.shiftr insn 26) 1 in
  let rt := Z.land insn 31 in
  let target := branch_target pc (sign_extend (Z.land (Z.shiftr insn 5) 0x7FFFF) 19) in
  if (opc =? 3) && (v =? 0) then Some [A64_NOP]
  else
    match load_opcode v opc with
    | None => None
    | Some load =>
        Some (emit_load_const A64_SCRATCH_LOAD target
              ++ [Z.lor (Z.lor load (Z.shiftl A64_SCRATCH_LOAD 5)) rt])
    end.

Definition relocate_one (insn pc patch_start patch_end : Z) : option (list Z) :=
  if is_adr insn then Some (emit_load_const (Z.land insn 31) (adr_target insn pc))
  else if is_b_bl insn then relocate_b_bl insn pc patch_start patch_end
  else
    match conditional_of insn pc with
    | Some (target, retargeted) =>
        if in_patch target patch_start patch_end then None
        else Some ([retargeted; a64_b 20] ++ emit_abs_jump target)
    | None =>
        if is_load_literal insn then relocate_load_literal insn pc
        else Some [insn]
    end.

(** The loop of [hk_arm64_relocate]: [i] counts the instructions done,
    [written] the bytes emitted; [None] is the early [return 0]. *)
Fixpoint relocate_loop (insns : list Z) (src_addr count i written dst_capacity : Z)
    : option (list Z) :=
  match insns with
  | [] => Some []
  | insn :: rest =>
      if dst_capacity <? written + HK_A64_MAX_RELOC_BYTES then None
      else
        match relocate_one insn (u64 (src_addr + i * 4)) src_addr
                (u64 (src_addr + count * 4)) with
        | None => None
        | Some out =>
            match relocate_loop rest src_addr count (i + 1)
                    (written + 4 * Z.of_nat (length out)) dst_capacity with
            | None => None
            | Some more => Some (out ++ more)
            end
        end
  end.

(** Words written to [dst] and the byte count returned; 0 means refused (what
    is in [dst] is then unspecified, and no caller reads it).  [src] and
    [dst_present] are the two pointers, [count] is the length of [src]. *)
Definition hk_arm64_relocate (src : option (list Z)) (src_addr : Z)
    (dst_present : bool) (dst_capacity : Z) : list Z * Z :=
  match src with
  | None => ([], 0)
  | Some insns =>
      if negb dst_present || (Z.of_nat (length insns) =? 0) then ([], 0)
      else
        match relocate_loop insns src_addr (Z.of_nat (length insns)) 0 0 dst_capacity with
        | None => ([], 0)
        | Some out => (out, 4 * Z.of_nat (length out))
        end
  end.

End Reloc.
Import Reloc.

(** ** The ISA fragment the relocator relies on

    An abstract specification, independent of the C masks: instructions are
    decoded from the bit fields of the architecture manual and executed on a
    small machine.  What is neither PC-relative nor emitted by the relocator
    is [IOther]. *)
Module Isa.

Inductive instr : Type :=
  | IAdr (page : bool) (rd imm : Z)
  | IB (link : bool) (imm : Z)
  | IBCond (cond imm : Z)
  | ICbz (sf op rt imm : Z)
  | ITbz (bitno op rt imm : Z)
  | ILdrLit (v opc rt imm : Z)
  | ILdrReg (v opc rt rn : Z)
  | IBr (rn : Z)
  | IBlr (rn : Z)
  | INop
  | IOther (insn : Z).

#[export] Instance instr_eq_dec : EqDecision instr.
Proof. solve_decision. Defined.

(** The value of an [n]-bit two's-complement field. *)
Definition signed (n x : Z) : Z := if x <? 2 ^ (n - 1) then x else x - 2 ^ n.

(** LDR (immediate, unsigned offset 0): the six forms the relocator emits.
    Base register 31 is SP, which no emitted load uses. *)
Definition decode_ldr_reg (insn : Z) : option (Z * Z) :=
  let top := bits insn 10 22 in
  if bits insn 5 5 =? 31 then None
  else if top =? 0x2E5000 then Some (0, 0)
  else if top =? 0x3E5000 then Some (0, 1)
  else if top =? 0x2E6000 then Some (0, 2)
  else if top =? 0x2F5000 then Some (1, 0)
  else if top =? 0x3F5000 then Some (1, 1)
  else if top =? 0x0F7000 then Some (1, 2)
  else None.

Definition decode (insn : Z) : instr :=
  if bits insn 24 5 =? 0x10 then
    IAdr (bits insn 31 1 =? 1) (bits insn 0 5)
      (signed 21 (bits insn 5 19 * 4 + bits insn 29 2))
  else if bits insn 26 5 =? 0x05 then
    IB (bits insn 31 1 =? 1) (signed 26 (bits insn 0 26))
  else if (bits insn 24 8 =? 0x54) && (bits insn 4 1 =? 0) then
    IBCond (bits insn 0 4) (signed 19 (bits insn 5 19))
  else if bits insn 25 6 =? 0x1A then
    ICbz (bits insn 31 1) (bits insn 24 1) (bits insn 0 5) (signed 19 (bits insn 5 19))
  else if bits insn 25 6 =? 0x1B then
    ITbz (bits insn 31 1 * 32 + bits insn 19 5) (bits insn 24 1) (bits insn 0 5)
      (signed 14 (bits insn 5 14))
  else if (bits insn 27 3 =? 0x3) && (bits insn 24 2 =? 0) then
    ILdrLit (bits insn 26 1) (bits insn 30 2) (bits insn 0 5) (signed 19 (bits insn 5 19))
  else
    match decode_ldr_reg insn with
    | Some (v, opc) => ILdrReg v opc (bits insn 0 5) (bits insn 5 5)
    | None =>
        if (bits insn 10 22 =? 0x3587C0) && (bits insn 0 5 =? 0) then IBr (bits insn 5 5)
        else if (bits insn 10 22 =? 0x358FC0) && (bits insn 0 5 =? 0) then IBlr (bits insn 5 5)
        else if insn =? 0xD503201F then INop
        else IOther insn
    end.

Definition pc_relative (i : instr) : bool :=
  match i with
  | IAdr _ _ _ | IB _ _ | IBCond _ _ | ICbz _ _ _ _ | ITbz _ _ _ _ | ILdrLit _ _ _ _ => true
  | _ => false
  end.

(** Where a direct branch at [pc] goes. *)
Definition branch_dest (i : instr) (pc : Z) : option Z :=
  match i with
  | IB _ imm | IBCond _ imm | ICbz _ _ _ imm | ITbz _ _ _ imm => Some (u64 (pc + 4 * imm))
  | _ => None
  end.

(** An instruction with its offset replaced by [+8], for the conditionals. *)
Definition retargeted (i : instr) : instr :=
  match i with
  | IBCond cond _ => IBCond cond 2
  | ICbz sf op rt _ => ICbz sf op rt 2
  | ITbz bitno op rt _ => ITbz bitno op rt 2
  | _ => i
  end.

Section Machine.
Context {R : Type}.

(** General registers (31 reads as zero), 32-bit memory words by byte address,
    the rest (flags, SIMD) and the program counter. *)
Record mstate : Type := MState {
  ms_reg : Z → Z;
  ms_mem : Z → Z;
  ms_rest : R;
  ms_pc : Z }.

#[export] Instance mstate_eta : Eta mstate := λ s,
  MState (ms_reg s) (ms_mem s) (ms_rest s) (ms_pc s).

(** The parts of the architecture the relocator does not look into. *)
Context (cond_holds : Z → R → bool).
Context (simd_load : Z → Z → Z → (Z → Z) → R → R).
Context (exec_other : Z → mstate → option mstate).

Definition get_reg (s : mstate) (r : Z) : Z := if r =? 31 then 0 else ms_reg s r.

Definition set_reg (r v : Z) (s : mstate) : mstate :=
  s <| ms_reg := λ r', if (r' =? r) && negb (r =? 31) then v else ms_reg s r' |>.

Definition goto (pc : Z) (s : mstate) : mstate := s <| ms_pc := pc |>.
Definition next (s : mstate) : mstate := goto (u64 (ms_pc s + 4)) s.

Definition read64 (mem : Z → Z) (a : Z) : Z := mem a + 2 ^ 32 * mem (a + 4).

(** The value an integer load of kind [opc] writes. *)
Definition int_load (opc : Z) (mem : Z → Z) (a : Z) : Z :=
  if opc =? 0 then mem a
  else if opc =? 1 then read64 mem a
  else u64 (signed 32 (mem a)).

Definition exec_load (v opc rt a : Z) (s : mstate) : mstate :=
  if v =? 0 then set_reg rt (int_load opc (ms_mem s) a) s
  else s <| ms_rest := simd_load opc rt a (ms_mem s) (ms_rest s) |>.

Definition cbz_taken (sf op rt : Z) (s : mstate) : bool :=
  let v := if sf =? 1 then get_reg s rt else bits (get_reg s rt) 0 32 in
  if op =? 0 then v =? 0 else negb (v =? 0).

Definition tbz_taken (bitno op rt : Z) (s : mstate) : bool :=
  if op =? 0 then negb (Z.testbit (get_reg s rt) bitno)
  else Z.testbit (get_reg s rt) bitno.

Definition branch_to (imm : Z) (s : mstate) : Z := u64 (ms_pc s + 4 * imm).

Definition branch_if (taken : bool) (imm : Z) (s : mstate) : mstate :=
  if taken then goto (branch_to imm s) s else next s.

Definition exec (i : instr) (s : mstate) : option mstate :=
  match i with
  | IAdr page rd imm =>
      let target :=
        if page then u64 (ms_pc s - ms_pc s mod 4096 + 4096 * imm)
        else u64 (ms_pc s + imm) in
      Some (next (set_reg rd target s))
  | IB false imm => Some (goto (branch_to imm s) s)
  | IB true imm => Some (goto (branch_to imm s) (set_reg 30 (u64 (ms_pc s + 4)) s))
  | IBCond cond imm => Some (branch_if (cond_holds cond (ms_rest s)) imm s)
  | ICbz sf op rt imm => Some (branch_if (cbz_taken sf op rt s) imm s)
  | ITbz bitno op rt imm => Some (branch_if (tbz_taken bitno op rt s) imm s)
  | ILdrLit v opc rt imm =>
      if opc =? 3 then if v =? 0 then Some (next s) else None
      else Some (next (exec_load v opc rt (branch_to imm s) s))
  | ILdrReg v opc rt rn => Some (next (exec_load v opc rt (get_reg s rn) s))
  | IBr rn => Some (goto (get_reg s rn) s)
  | IBlr rn => Some (goto (get_reg s rn) (set_reg 30 (u64 (ms_pc s + 4)) s))
  | INop => Some (next s)
  | IOther insn => exec_other insn s
  end.

Definition step (s : mstate) : option mstate := exec (decode (ms_mem s (ms_pc s))) s.

Fixpoint steps (n : nat) (s : mstate) : option mstate :=
  match n with
  | O => Some s
  | S n => match step s with Some s' => steps n s' | None => None end
  end.

(** [ws] is what memory holds from [q] on. *)
Definition laid_out (mem : Z → Z) (q : Z) (ws : list Z) : Prop :=
  ∀ i w, ws !! i = Some w → mem (q + 4 * Z.of_nat i) = w.

(** [s1] is the state after the original instruction at [pc], [s2] the state
    after its [len]-byte relocation at [q]: memory and the rest agree, so does
    every register but the scratch pair, control is at the same address or
    past the relocated bytes where the original fell through, and a link
    register that named the next instruction names the word past the relocated
    bytes or one that branches there. *)
Record relocated_exit (pc q len : Z) (s1 s2 : mstate) : Prop := {
  re_mem : ms_mem s2 = ms_mem s1;
  re_rest : ms_rest s2 = ms_rest s1;
  re_reg : ∀ r, r ≠ 16 → r ≠ 17 → r ≠ 30 → ms_reg s2 r = ms_reg s1 r;
  re_pc : ms_pc s2 = ms_pc s1 ∨ ms_pc s1 = u64 (pc + 4) ∧ ms_pc s2 = u64 (q + len);
  re_link :
    ms_reg s2 30 = ms_reg s1 30 ∨
    ms_reg s1 30 = u64 (pc + 4) ∧
      (ms_reg s2 30 = u64 (q + len) ∨
       step (goto (ms_reg s2 30) s2) = Some (goto (u64 (q + len)) s2)) }.

End Machine.
Arguments mstate : clear implicits.
Arguments decode : simpl never.
Arguments step {R} _ _ _ _ : simpl never.
End Isa.
Import Isa.

(** ** Arithmetic of the encoders *)

Lemma lxor_sign v b :
  0 <= b → 0 <= v < 2 ^ (b + 1) →
  Z.lxor v (2 ^ b) = if v <? 2 ^ b then v + 2 ^ b else v - 2 ^ b.
Proof.
  intros Hb Hv. rewrite Z.pow_add_r in Hv by lia.
  assert (Hlow : ∀ r, 0 <= r < 2 ^ b → Z.lxor r (2 ^ b) = r + 2 ^ b).
  { intros r Hr. symmetry. apply Z.add_nocarry_lxor.
    apply Z.bits_inj'. intros i Hi. rewrite Z.land_spec, Z.bits_0, Z.pow2_bits_eqb by lia.
    destruct (Z.eqb_spec b i) as [<-|]; [|by rewrite andb_false_r].
    rewrite andb_true_r. rewrite <- (Z.mod_small r (2 ^ b)) by lia.
    apply Z.mod_pow2_bits_high; lia. }
  destruct (Z.ltb_spec v (2 ^ b)); [apply Hlow; lia|].
  replace v with ((v - 2 ^ b) + 2 ^ b) at 1 by lia.
  rewrite <- Hlow by lia. by rewrite Z.lxor_assoc, Z.lxor_nilpotent, Z.lxor_0_r.
Qed.

Lemma testbit_sign v b :
  0 <= b → 0 <= v < 2 ^ (b + 1) → Z.testbit v b = negb (v <? 2 ^ b).
Proof.
  intros Hb Hv. rewrite Z.pow_add_r in Hv by lia.
  rewrite Z.testbit_eqb by lia.
  assert (Hp : 0 < 2 ^ b) by (apply Z.pow_pos_nonneg; lia).
  destruct (Z.ltb_spec v (2 ^ b)).
  - by rewrite Z.div_small by lia.
  - replace (v / 2 ^ b) with 1; [done|].
    apply Z.div_unique with (v - 2 ^ b); lia.
Qed.

Lemma land_pow2 x b : 0 <= b → (Z.land x (2 ^ b) =? 0) = negb (Z.testbit x b).
Proof.
  intros Hb. destruct (Z.testbit x b) eqn:E; simpl.
  - apply Z.eqb_neq. intros H. apply (f_equal (λ z, Z.testbit z b)) in H.
    by rewrite Z.land_spec, Z.pow2_bits_true, E, Z.bits_0 in H by lia.
  - apply Z.eqb_eq, Z.bits_inj'. intros i Hi.
    rewrite Z.land_spec, Z.pow2_bits_eqb, Z.bits_0 by lia.
    destruct (Z.eqb_spec b i) as [<-|]; [by rewrite E|by rewrite andb_false_r].
Qed.

(** [sign_extend] reads the low [b] bits as a two's-complement value. *)
Lemma sign_extend_spec v b :
  1 <= b <= 63 → sign_extend v b = signed b (v mod 2 ^ b).
Proof.
  intros Hb. unfold sign_extend.
  assert (E64 : (64 <=? b) = false) by lia. rewrite E64. clear E64.
  rewrite !Z.shiftl_1_l.
  assert (Hpb : 2 ^ b <= 2 ^ 63) by (apply Z.pow_le_mono_r; lia).
  assert (Hp : 2 ^ b = 2 * 2 ^ (b - 1)).
  { rewrite <- Z.pow_succ_r by lia. f_equal. lia. }
  assert (Hpos : 0 < 2 ^ (b - 1)) by (apply Z.pow_pos_nonneg; lia).
  assert (Hmask : u64 (2 ^ b - 1) = Z.ones b).
  { rewrite Z.ones_equiv, u64_small by (unfold is_u64; lia). lia. }
  rewrite Hmask, Z.land_ones by lia.
  pose proof (Z.mod_pos_bound v (2 ^ b) ltac:(lia)) as Hv.
  set (w := v mod 2 ^ b) in *. clearbody w.
  rewrite lxor_sign by (replace (b - 1 + 1) with b by lia; lia).
  unfold signed. destruct (Z.ltb_spec w (2 ^ (b - 1))).
  - replace (w + 2 ^ (b - 1) - 2 ^ (b - 1)) with w by lia.
    rewrite u64_small by (unfold is_u64; lia).
    rewrite land_pow2, testbit_sign by (try (replace (b - 1 + 1) with b by lia); lia).
    assert (E : (w <? 2 ^ (b - 1)) = true) by lia. rewrite E. simpl.
    rewrite Z.land_ones, Z.mod_small by lia.
    unfold s64. rewrite u64_small by (unfold is_u64; lia).
    assert (E' : (w <? 2 ^ 63) = true) by lia. by rewrite E'.
  - set (mag := u64 (w - 2 ^ (b - 1) - 2 ^ (b - 1))).
    assert (Hmag : mag = w + (2 ^ 64 - 2 ^ b)).
    { unfold mag, u64. symmetry. apply Z.mod_unique with (-1); lia. }
    assert (Hhi : Z.lxor (2 ^ 64 - 1) (Z.ones b) = 2 ^ 64 - 2 ^ b).
    { replace (2 ^ 64 - 2 ^ b) with (Z.shiftl (Z.ones (64 - b)) b).
      - replace (2 ^ 64 - 1) with (Z.ones 64) by done.
        apply Z.bits_inj'. intros i Hi.
        rewrite Z.lxor_spec, Z.shiftl_spec, !Z.testbit_ones by lia.
        destruct (Z.leb_spec 0 i), (Z.ltb_spec i 64), (Z.ltb_spec i b), (Z.leb_spec 0 (i - b)), (Z.ltb_spec (i - b) (64 - b)); simpl; lia.
      - rewrite Z.shiftl_mul_pow2, Z.ones_equiv by lia.
        replace 64 with ((64 - b) + b) at 2 by lia. rewrite Z.pow_add_r by lia. lia. }
    assert (Hdisj : Z.land w (2 ^ 64 - 2 ^ b) = 0).
    { rewrite <- Hhi. apply Z.bits_inj'. intros i Hi.
      rewrite Z.land_spec, Z.lxor_spec, Z.bits_0.
      replace (2 ^ 64 - 1) with (Z.ones 64) by done. rewrite !Z.testbit_ones by lia.
      destruct (Z.ltb_spec i b).
      - assert (E1 : (0 <=? i) && (i <? 64) = true) by lia.
        assert (E2 : (0 <=? i) && true = true) by lia.
        rewrite E1, E2. by rewrite andb_false_r.
      - rewrite <- (Z.mod_small w (2 ^ b)) by lia.
        by rewrite Z.mod_pow2_bits_high by lia. }
    assert (Hor : mag = Z.lor w (2 ^ 64 - 2 ^ b)).
    { rewrite Hmag, Z.add_nocarry_lxor by done. by apply Z.lxor_lor. }
    rewrite land_pow2, Hhi by lia.
    rewrite Hor at 1. rewrite Z.lor_spec.
    rewrite testbit_sign by (try (replace (b - 1 + 1) with b by lia); lia).
    assert (E : (w <? 2 ^ (b - 1)) = false) by lia. rewrite E. simpl.
    rewrite Hor, <- Z.lor_assoc, Z.lor_diag, <- Hor.
    unfold s64. rewrite u64_small by (unfold is_u64; lia).
    assert (E' : (mag <? 2 ^ 63) = false) by lia. rewrite E'. lia.
Qed.

(** ** The C tests and the decoder agree *)

Lemma masked_field insn lo n v mask value :
  0 <= lo → 0 <= n → mask = Z.shiftl (Z.ones n) lo → value = Z.shiftl v lo →
  masked insn mask value = (bits insn lo n =? v).
Proof.
  intros Hlo Hn -> ->. unfold masked. apply eq_true_iff_eq.
  rewrite !Z.eqb_eq. by apply bits_mask.
Qed.

(** A mask made of two disjoint fields tests both of them. *)
Lemma masked_split insn m1 m2 v1 v2 :
  Z.land m1 m2 = 0 → Z.land v1 m1 = v1 → Z.land v2 m2 = v2 →
  masked insn (Z.lor m1 m2) (Z.lor v1 v2) = masked insn m1 v1 && masked insn m2 v2.
Proof.
  intros Hm H1 H2. unfold masked. apply eq_true_iff_eq.
  rewrite andb_true_iff, !Z.eqb_eq, Z.land_lor_distr_r.
  assert (Hm' : Z.land m2 m1 = 0) by (by rewrite Z.land_comm).
  split; [|by intros [-> ->]]. intros H.
  assert (E : ∀ a b c, Z.land a b = 0 → Z.land c a = c → Z.land c b = 0).
  { intros a b c Hab <-. by rewrite <- Z.land_assoc, Hab, Z.land_0_r. }
  split.
  - apply (f_equal (λ z, Z.land z m1)) in H.
    rewrite !Z.land_lor_distr_l, <- !Z.land_assoc, Z.land_diag, Hm', Z.land_0_r in H.
    by rewrite Z.lor_0_r, H1, (E m2 m1 v2), Z.lor_0_r in H.
  - apply (f_equal (λ z, Z.land z m2)) in H.
    rewrite !Z.land_lor_distr_l, <- !Z.land_assoc, Z.land_diag, Hm, Z.land_0_r in H.
    by rewrite Z.lor_0_l, H2, (E m1 m2 v1), Z.lor_0_l in H.
Qed.

Lemma is_adr_bits insn : is_adr insn = (bits insn 24 5 =? 0x10).
Proof. by apply masked_field. Qed.

Lemma is_b_bl_bits insn : is_b_bl insn = (bits insn 26 5 =? 0x05).
Proof. by apply masked_field. Qed.

Lemma is_b_cond_bits insn :
  is_b_cond insn = (bits insn 24 8 =? 0x54) && (bits insn 4 1 =? 0).
Proof.
  transitivity (masked insn 0xFF000000 0x54000000 && masked insn 0x10 0);
    [by apply (masked_split insn 0xFF000000 0x10 0x54000000 0)|].
  by rewrite (masked_field insn 24 8 0x54), (masked_field insn 4 1 0).
Qed.

Lemma is_cbz_bits insn : is_cbz insn = (bits insn 25 6 =? 0x1A).
Proof. by apply masked_field. Qed.

Lemma is_tbz_bits insn : is_tbz insn = (bits insn 25 6 =? 0x1B).
Proof. by apply masked_field. Qed.

Lemma is_load_literal_bits insn :
  is_load_literal insn = (bits insn 27 3 =? 0x3) && (bits insn 24 2 =? 0).
Proof.
  transitivity (masked insn 0x38000000 0x18000000 && masked insn 0x3000000 0);
    [by apply (masked_split insn 0x38000000 0x3000000 0x18000000 0)|].
  by rewrite (masked_field insn 27 3 3), (masked_field insn 24 2 0).
Qed.

Lemma bit31_bits insn : bit31 insn = (bits insn 31 1 =? 1).
Proof.
  unfold bit31. change 0x80000000 with (2 ^ 31). rewrite land_pow2, negb_involutive by lia.
  unfold bits. rewrite Z.land_ones, Z.pow_1_r, <- Z.bit0_mod by lia.
  rewrite Z.shiftr_spec, Z.add_0_l by lia. by destruct (Z.testbit insn 31).
Qed.

(** The C targets are the architecture's. *)
Lemma branch_target_field pc insn lo n mask :
  1 <= n <= 63 → mask = Z.ones n →
  branch_target pc (sign_extend (Z.land (Z.shiftr insn lo) mask) n) =
  u64 (pc + 4 * signed n (bits insn lo n)).
Proof.
  intros Hn ->. unfold branch_target. fold (bits insn lo n).
  rewrite sign_extend_spec, Z.mod_small by (try apply bits_range; lia).
  unfold u64. rewrite <- (Zplus_mod_idemp_l (s64 pc)). fold (u64 (s64 pc)).
  rewrite u64_s64. unfold u64. rewrite Zplus_mod_idemp_l. f_equal. lia.
Qed.

Lemma b_target pc insn :
  branch_target pc (sign_extend (Z.land insn 0x03FFFFFF) 26) =
  u64 (pc + 4 * signed 26 (bits insn 0 26)).
Proof. rewrite <- (branch_target_field pc insn 0 26 0x03FFFFFF) by done. by rewrite Z.shiftr_0_r. Qed.

Lemma land_page pc : is_u64 pc → Z.land pc (Z.lxor (2 ^ 64 - 1) 0xFFF) = pc - pc mod 4096.
Proof.
  intros Hpc. transitivity (Z.shiftl (Z.shiftr pc 12) 12).
  - apply Z.bits_inj'. intros i Hi.
    change (2 ^ 64 - 1) with (Z.ones 64). change 0xFFF with (Z.ones 12).
    rewrite Z.land_spec, Z.lxor_spec, !Z.testbit_ones, Z.shiftl_spec by lia.
    destruct (Z.ltb_spec i 12).
    + rewrite (Z.testbit_neg_r _ (i - 12)) by lia.
      replace (i <? 64) with true by lia. replace (0 <=? i) with true by lia.
      by rewrite andb_false_r.
    + rewrite Z.shiftr_spec by lia. replace (i - 12 + 12) with i by lia.
      replace (0 <=? i) with true by lia.
      destruct (Z.ltb_spec i 64); [by rewrite andb_true_r|].
      rewrite <- (Z.mod_small pc (2 ^ 64)) by done.
      by rewrite Z.mod_pow2_bits_high by lia.
  - rewrite Z.shiftl_mul_pow2, Z.shiftr_div_pow2 by lia. change (2 ^ 12) with 4096.
    pose proof (Z.div_mod pc 4096 ltac:(lia)). lia.
Qed.

Lemma adr_target_spec insn pc :
  is_u64 pc →
  adr_target insn pc =
  let imm := signed 21 (bits insn 5 19 * 4 + bits insn 29 2) in
  if bits insn 31 1 =? 1 then u64 (pc - pc mod 4096 + 4096 * imm) else u64 (pc + imm).
Proof.
  intros Hpc. unfold adr_target. rewrite bit31_bits.
  change (Z.land (Z.shiftr insn 29) 3) with (bits insn 29 2).
  change (Z.land (Z.shiftr insn 5) 0x7FFFF) with (bits insn 5 19). cbv zeta.
  pose proof (bits_range insn 29 2 ltac:(lia)). pose proof (bits_range insn 5 19 ltac:(lia)).
  assert (Hlor : Z.lor (Z.shiftl (bits insn 5 19) 2) (bits insn 29 2)
                 = bits insn 5 19 * 4 + bits insn 29 2).
  { rewrite lor_shiftl_low by lia. done. }
  rewrite Hlor, sign_extend_spec by lia.
  rewrite (Z.mod_small (_ * 4 + _)) by lia.
  set (imm := signed 21 _). cbv zeta. destruct (bits insn 31 1 =? 1).
  - assert (Hpage : Z.land pc (Z.lxor (2 ^ 64 - 1) 0xFFF) = pc - pc mod 4096).
    { by apply land_page. }
    rewrite Hpage. unfold u64. rewrite Zplus_mod_idemp_r.
    rewrite Z.shiftl_mul_pow2 by lia. rewrite <- Zplus_mod_idemp_r, Zmult_mod_idemp_l, Zplus_mod_idemp_r.
    f_equal. lia.
  - unfold u64. by rewrite Zplus_mod_idemp_r.
Qed.

(** ** What the emitted words decode to *)

Lemma forall_reg (P : Z → Prop) `{!∀ r, Decision (P r)} :
  forallb (λ r, bool_decide (P r)) (seqZ 0 32) = true → ∀ r, 0 <= r < 32 → P r.
Proof.
  intros Hall r Hr. rewrite forallb_forall in Hall.
  apply (bool_decide_eq_true_1 (P r)), Hall.
  rewrite <- list_elem_of_In, elem_of_seqZ. lia.
Qed.

Lemma decode_ldr_lit64 rd : 0 <= rd < 32 → decode (a64_ldr_lit64 rd 8) = ILdrLit 0 1 rd 2.
Proof. revert rd. apply (forall_reg (λ rd, decode (a64_ldr_lit64 rd 8) = _)). by vm_compute. Qed.

Lemma decode_load_reg v opc load rt :
  0 <= rt < 32 → load_opcode v opc = Some load → (v = 0 ∨ v = 1) →
  decode (Z.lor (Z.lor load (Z.shiftl A64_SCRATCH_LOAD 5)) rt) = ILdrReg v opc rt 17.
Proof.
  intros Hrt Hload Hv. unfold load_opcode in Hload.
  destruct Hv as [-> | ->]; simpl in Hload;
    repeat case_match; simplify_eq/=;
    repeat match goal with H : (_ =? _) = true |- _ => apply Z.eqb_eq in H as -> end;
    revert rt Hrt; apply (forall_reg (λ rt, decode (Z.lor _ rt) = _)); by vm_compute.
Qed.

Lemma quad_value v : is_u64 v → bits v 0 32 + 2 ^ 32 * bits v 32 32 = v.
Proof.
  intros Hv. unfold bits. rewrite !Z.land_ones, Z.shiftr_0_r, Z.shiftr_div_pow2 by lia.
  rewrite (Z.mod_small (v / 2 ^ 32)).
  - pose proof (Z.div_mod v (2 ^ 32) ltac:(lia)). lia.
  - split; [apply Z.div_pos; destruct Hv; lia|].
    apply Z.div_lt_upper_bound; destruct Hv; lia.
Qed.

(** Fields of a word in which one field was replaced. *)
Lemma bits_land x lo n : 0 <= lo → 0 <= n →
  bits x lo n = Z.shiftr (Z.land x (Z.shiftl (Z.ones n) lo)) lo.
Proof.
  intros Hlo Hn. unfold bits. by rewrite Z.shiftr_land, Z.shiftr_shiftl_l, Z.sub_diag, Z.shiftl_0_r.
Qed.

Lemma bits_insert_other x m c lo n k : 0 <= lo → 0 <= n →
  k = Z.shiftl (Z.ones n) lo → Z.land m k = k → Z.land c k = 0 →
  bits (Z.lor (Z.land x m) c) lo n = bits x lo n.
Proof.
  intros Hlo Hn -> Hm Hc. by rewrite !bits_land, land_insert, Hm, Hc, Z.lor_0_r.
Qed.

Lemma bits_insert_same x m c lo n k : 0 <= lo → 0 <= n →
  k = Z.shiftl (Z.ones n) lo → Z.land m k = 0 →
  bits (Z.lor (Z.land x m) c) lo n = bits c lo n.
Proof.
  intros Hlo Hn -> Hm. by rewrite !bits_land, land_insert, Hm, Z.land_0_r, Z.lor_0_l.
Qed.

Ltac bits_retarget :=
  repeat match goal with
  | |- context [bits (Z.lor (Z.land ?x ?m) ?c) ?lo ?n] =>
      first
        [ rewrite (bits_insert_other x m c lo n (Z.shiftl (Z.ones n) lo)) by done
        | rewrite (bits_insert_same x m c lo n (Z.shiftl (Z.ones n) lo)) by done ]
  end.

(** The conditional shapes: their decoding, target and retargeted word. *)
Lemma conditional_of_spec insn pc target re :
  conditional_of insn pc = Some (target, re) → is_adr insn = false → is_b_bl insn = false →
  decode re = retargeted (decode insn) ∧
  match decode insn with
  | IBCond _ imm | ICbz _ _ _ imm | ITbz _ _ _ imm => target = u64 (pc + 4 * imm)
  | _ => False
  end.
Proof.
  unfold conditional_of, decode. rewrite is_adr_bits, is_b_bl_bits, is_b_cond_bits, is_cbz_bits, is_tbz_bits.
  intros H Hadr Hb. rewrite Hadr, Hb.
  assert (E19 : ∀ i, bits (a64_set_imm19 i 8) 5 19 = 2).
  { intros i. unfold a64_set_imm19. by bits_retarget. }
  assert (E14 : ∀ i, bits (a64_set_imm14 i 8) 5 14 = 2).
  { intros i. unfold a64_set_imm14. by bits_retarget. }
  destruct ((bits insn 24 8 =? 0x54) && (bits insn 4 1 =? 0)) eqn:E1;
    [|destruct (bits insn 25 6 =? 0x1A) eqn:E2;
      [|destruct (bits insn 25 6 =? 0x1B) eqn:E3; [|done]]];
    injection H as <- <-;
    (split; [|by apply branch_target_field]); unfold retargeted;
    rewrite ?E19, ?E14; unfold a64_set_imm19, a64_set_imm14; bits_retarget;
    rewrite ?Hadr, ?Hb, ?E1, ?E2, ?E3; done.
Qed.

Section Simulation.
Context {R : Type}.
Context (cond_holds : Z → R → bool).
Context (simd_load : Z → Z → Z → (Z → Z) → R → R).
Context (exec_other : Z → mstate R → option (mstate R)).

Abbreviation step := (step cond_holds simd_load exec_other).
Abbreviation steps := (steps cond_holds simd_load exec_other).
Abbreviation exec := (exec cond_holds simd_load exec_other).
Abbreviation relocated_exit := (relocated_exit cond_holds simd_load exec_other).

Implicit Types s : mstate R.

Lemma step_at s w i : ms_mem s (ms_pc s) = w → decode w = i → step s = exec i s.
Proof. intros <- <-. unfold Isa.step. reflexivity. Qed.

Lemma steps_S n s s' : step s = Some s' → steps (S n) s = steps n s'.
Proof. intros H. cbn [Isa.steps]. rewrite H. reflexivity. Qed.

Lemma steps_snoc n s s' : steps n s = Some s' → steps (S n) s = step s'.
Proof.
  revert s. induction n as [|n IH]; intros s H.
  - injection H as <-. cbn [Isa.steps]. by destruct (step s).
  - cbn [Isa.steps] in H. destruct (step s) as [s1|] eqn:E; [|done].
    rewrite (steps_S _ _ _ E). by apply IH.
Qed.

Lemma get_set_reg r v s : r ≠ 31 → get_reg (set_reg r v s) r = v.
Proof. intros Hr. unfold get_reg. simpl. by replace (r =? 31) with false by lia; rewrite Z.eqb_refl. Qed.

Lemma laid_out_app mem q ws ws' :
  laid_out mem q (ws ++ ws') →
  laid_out mem q ws ∧ laid_out mem (q + 4 * Z.of_nat (length ws)) ws'.
Proof.
  intros H. split; intros i w Hi.
  - apply H. by rewrite lookup_app_l by (by eapply lookup_lt_Some).
  - replace (q + 4 * Z.of_nat (length ws) + 4 * Z.of_nat i)
      with (q + 4 * Z.of_nat (length ws + i)) by lia.
    apply H. rewrite lookup_app_r by lia. by replace (length ws + i - length ws)%nat with i by lia.
Qed.

Lemma laid_out_quad mem q v : is_u64 v → laid_out mem q (quad v) → read64 mem q = v.
Proof.
  intros Hv H. unfold read64.
  pose proof (H 0%nat _ eq_refl) as H0. pose proof (H 1%nat _ eq_refl) as H1.
  change (4 * Z.of_nat 0) with 0 in H0.
  change (4 * Z.of_nat 1) with 4 in H1. rewrite Z.add_0_r in H0. rewrite H0, H1. by apply quad_value.
Qed.

(** [LDR Xt, #8] followed, two words on, by a literal. *)
Lemma step_ldr_lit s rd w v :
  0 <= rd < 32 → 0 <= ms_pc s → ms_pc s + 16 <= 2 ^ 64 → is_u64 v →
  laid_out (ms_mem s) (ms_pc s) ([a64_ldr_lit64 rd 8; w] ++ quad v) →
  step s = Some (goto (ms_pc s + 4) (set_reg rd v s)).
Proof.
  intros Hrd Hpc Hpc' Hv H. apply laid_out_app in H as [H1 H2].
  pose proof (H1 0%nat _ eq_refl) as H0. rewrite Z.add_0_r in H0.
  rewrite (step_at _ _ _ H0 (decode_ldr_lit64 rd Hrd)).
  simpl. unfold next, exec_load, branch_to, int_load. simpl. rewrite !u64_small by (unfold is_u64; lia).
  simpl in H2. replace (4 * 2) with 8 by lia. by rewrite (laid_out_quad _ _ v).
Qed.

Lemma run_abs_jump s target :
  0 <= ms_pc s → ms_pc s + 16 <= 2 ^ 64 → is_u64 target →
  laid_out (ms_mem s) (ms_pc s) (emit_abs_jump target) →
  ∃ scratch, (scratch = 16 ∨ scratch = 17) ∧
    steps 2 s = Some (goto target (set_reg scratch target s)).
Proof.
  intros Hpc Hpc' Ht H. unfold emit_abs_jump in H.
  set (scratch := if _ =? 0 then _ else _) in H.
  assert (Hs : scratch = 16 ∨ scratch = 17).
  { unfold scratch. destruct (_ =? 0); [by left|by right]. }
  exists scratch. split; [done|]. clearbody scratch.
  pose proof (laid_out_app _ _ _ _ H) as [H1 _].
  rewrite (steps_S _ _ _ (step_ldr_lit s scratch _ target ltac:(lia) Hpc Hpc' Ht H)).
  pose proof (H1 1%nat _ eq_refl) as Hbr.
  assert (Hdec : decode (a64_br scratch) = IBr scratch) by (by destruct Hs as [-> | ->]).
  rewrite (steps_S 0 _ (goto target (set_reg scratch target s))); [reflexivity|].
  rewrite (step_at (goto (ms_pc s + 4) (set_reg scratch target s)) _ _ Hbr Hdec).
  unfold goto. simpl. by destruct Hs as [-> | ->].
Qed.
Lemma run_load_const s rd v :
  0 <= rd < 32 → 0 <= ms_pc s → ms_pc s + 16 <= 2 ^ 64 → is_u64 v →
  laid_out (ms_mem s) (ms_pc s) (emit_load_const rd v) →
  steps 2 s = Some (goto (u64 (ms_pc s + 16)) (set_reg rd v s)).
Proof.
  intros Hrd Hpc Hpc' Hv H. unfold emit_load_const in H.
  rewrite (steps_S _ _ _ (step_ldr_lit s rd _ v Hrd Hpc Hpc' Hv H)).
  apply laid_out_app in H as [H1 _]. pose proof (H1 1%nat _ eq_refl) as Hb.
  rewrite (steps_S 0 _ (goto (u64 (ms_pc s + 16)) (set_reg rd v s))); [reflexivity|].
  assert (Hdec : decode (a64_b 12) = IB false 3) by (by vm_compute).
  rewrite (step_at (goto (ms_pc s + 4) (set_reg rd v s)) _ _ Hb Hdec).
  unfold exec, branch_to, goto. simpl. do 2 f_equal. f_equal. lia.
Qed.

Ltac reg_cases :=
  repeat match goal with
  | |- context [?a =? ?b] => destruct (Z.eqb_spec a b); subst; simpl
  end; try done; try lia.

Lemma sim_load_const s rd v q :
  0 <= rd < 32 → 0 <= q → q + 24 <= 2 ^ 64 → is_u64 v →
  laid_out (ms_mem s) q (emit_load_const rd v) →
  ∃ n s2, steps n (goto q s) = Some s2 ∧
    relocated_exit (ms_pc s) q 16 (next (set_reg rd v s)) s2.
Proof.
  intros Hrd Hq Hq' Hv H. exists 2%nat. eexists. split.
  - exact (run_load_const (goto q s) rd v Hrd Hq ltac:(simpl; lia) Hv H).
  - split; simpl; [done|done|done|by right|by left].
Qed.

Lemma sim_abs_jump s target q :
  0 <= q → q + 24 <= 2 ^ 64 → is_u64 target →
  laid_out (ms_mem s) q (emit_abs_jump target) →
  ∃ n s2, steps n (goto q s) = Some s2 ∧
    relocated_exit (ms_pc s) q 16 (goto target s) s2.
Proof.
  intros Hq Hq' Ht H. exists 2%nat.
  destruct (run_abs_jump (goto q s) target Hq ltac:(simpl; lia) Ht H) as (scratch & Hs & Hrun).
  eexists. split; [exact Hrun|]. split; simpl; [done|done| |by left|left].
  - intros r H16 H17 _. by destruct Hs as [-> | ->]; reg_cases.
  - by destruct Hs as [-> | ->].
Qed.

Lemma sim_bl s target q :
  0 <= q → q + 24 <= 2 ^ 64 → is_u64 target →
  laid_out (ms_mem s) q
    ([a64_ldr_lit64 A64_SCRATCH_JUMP 12; a64_blr A64_SCRATCH_JUMP; a64_b 12] ++ quad target) →
  ∃ n s2, steps n (goto q s) = Some s2 ∧
    relocated_exit (ms_pc s) q 20
      (goto target (set_reg 30 (u64 (ms_pc s + 4)) s)) s2.
Proof.
  intros Hq Hq' Ht H. apply laid_out_app in H as [H1 H2].
  pose proof (H1 0%nat _ eq_refl) as W0. pose proof (H1 1%nat _ eq_refl) as W1.
  pose proof (H1 2%nat _ eq_refl) as W2. rewrite Z.add_0_r in W0.
  change (4 * Z.of_nat 1) with 4 in W1. change (4 * Z.of_nat 2) with 8 in W2.
  assert (D0 : decode (a64_ldr_lit64 A64_SCRATCH_JUMP 12) = ILdrLit 0 1 16 3) by (by vm_compute).
  assert (D1 : decode (a64_blr A64_SCRATCH_JUMP) = IBlr 16) by (by vm_compute).
  assert (D2 : decode (a64_b 12) = IB false 3) by (by vm_compute).
  set (sa := goto (q + 4) (set_reg 16 target s)).
  assert (Sa : step (goto q s) = Some sa).
  { rewrite (step_at (goto q s) _ _ W0 D0).
    unfold sa, exec, next, exec_load, branch_to, int_load. simpl.
    rewrite !u64_small by (unfold is_u64; lia).
    rewrite (laid_out_quad _ _ target) by done. done. }
  set (sb := goto target (set_reg 30 (q + 8) sa)).
  assert (Sb : step sa = Some sb).
  { rewrite (step_at sa _ _ W1 D1). unfold sb, sa, exec. simpl.
    rewrite u64_small by (unfold is_u64; lia). do 3 f_equal. lia. }
  assert (Sl : step (goto (q + 8) sb) = Some (goto (u64 (q + 20)) sb)).
  { rewrite (step_at (goto (q + 8) sb) _ _ W2 D2).
    unfold exec, branch_to, goto. simpl. do 2 f_equal. f_equal. lia. }
  exists 2%nat, sb. split.
  - by rewrite (steps_S _ _ _ Sa), (steps_S _ _ _ Sb).
  - split; [done|done| |by left|right; split; [done|by right]].
    intros r ? ? ?. unfold sb, sa. simpl. reg_cases.
Qed.

(** A conditional: the retargeted test skips the [B #20] to the absolute jump. *)
Lemma sim_cond s re target imm taken q :
  target = u64 (ms_pc s + 4 * imm) →
  (∀ s', ms_reg s' = ms_reg s → ms_rest s' = ms_rest s →
     exec (decode re) s' = Some (branch_if taken 2 s')) →
  0 <= q → q + 24 <= 2 ^ 64 →
  laid_out (ms_mem s) q ([re; a64_b 20] ++ emit_abs_jump target) →
  ∃ n s2, steps n (goto q s) = Some s2 ∧
    relocated_exit (ms_pc s) q 24 (branch_if taken imm s) s2.
Proof.
  intros -> Hre Hq Hq' H. apply laid_out_app in H as [H1 H2].
  pose proof (H1 0%nat _ eq_refl) as W0. pose proof (H1 1%nat _ eq_refl) as W1.
  rewrite Z.add_0_r in W0. change (4 * Z.of_nat 1) with 4 in W1.
  change (4 * Z.of_nat (length _)) with 8 in H2.
  assert (S0 : step (goto q s) = Some (branch_if taken 2 (goto q s))).
  { rewrite (step_at (goto q s) _ _ W0 eq_refl). by apply Hre. }
  destruct taken; unfold branch_if in *.
  - destruct (run_abs_jump (goto (q + 8) s) (u64 (ms_pc s + 4 * imm))) as (scratch & Hs & Hrun);
      simpl; try done; try lia; [apply u64_range|].
    exists 3%nat. eexists. split.
    { rewrite (steps_S _ _ _ S0). unfold branch_to. simpl (ms_pc _).
      rewrite (u64_small (q + 4 * 2)) by (unfold is_u64; lia).
      replace (q + 4 * 2) with (q + 8) by lia. exact Hrun. }
    split; simpl; [done|done| |by left|left].
    + intros r ? ? ?. by destruct Hs as [-> | ->]; reg_cases.
    + by destruct Hs as [-> | ->].
  - assert (D : decode (a64_b 20) = IB false 5) by (by vm_compute).
    assert (S1 : step (goto (q + 4) s) = Some (goto (u64 (q + 24)) s)).
    { rewrite (step_at (goto (q + 4) s) _ _ W1 D). unfold exec, branch_to, goto. simpl.
      do 2 f_equal. f_equal. lia. }
    exists 2%nat. eexists. split.
    { rewrite (steps_S _ _ _ S0). unfold next. simpl (ms_pc _).
      rewrite (u64_small (q + 4)) by (unfold is_u64; lia).
      exact (steps_S 0 _ _ S1). }
    split; simpl; [done|done|done|by right|by left].
Qed.

Lemma sim_load s v opc rt load target q :
  0 <= rt < 32 → (v = 0 ∨ v = 1) → load_opcode v opc = Some load →
  0 <= q → q + 24 <= 2 ^ 64 → is_u64 target →
  laid_out (ms_mem s) q
    (emit_load_const A64_SCRATCH_LOAD target
     ++ [Z.lor (Z.lor load (Z.shiftl A64_SCRATCH_LOAD 5)) rt]) →
  ∃ n s2, steps n (goto q s) = Some s2 ∧
    relocated_exit (ms_pc s) q 20 (next (exec_load simd_load v opc rt target s)) s2.
Proof.
  intros Hrt Hv Hload Hq Hq' Ht H. apply laid_out_app in H as [H1 H2].
  change (4 * Z.of_nat (length _)) with 16 in H2.
  pose proof (run_load_const (goto q s) A64_SCRATCH_LOAD target ltac:(done) Hq
                ltac:(simpl; lia) Ht H1) as Hrun.
  simpl (ms_pc _) in Hrun. rewrite (u64_small (q + 16)) in Hrun by (unfold is_u64; lia).
  pose proof (H2 0%nat _ eq_refl) as W. rewrite Z.add_0_r in W.
  set (sa := goto (q + 16) (set_reg A64_SCRATCH_LOAD target (goto q s))) in *.
  pose proof (step_at sa _ _ W (decode_load_reg v opc load rt Hrt Hload Hv)) as Sa.
  exists 3%nat, (next (exec_load simd_load v opc rt (get_reg sa 17) sa)). split.
  { rewrite (steps_snoc 2 _ _ Hrun), Sa. reflexivity. }
  unfold next, exec_load, sa, get_reg, goto. simpl.
  replace (q + 16 + 4) with (q + 20) by lia.
  destruct Hv as [-> | ->]; simpl; split; simpl; try reflexivity;
    solve [right; split; [done|f_equal; lia] | left; reg_cases | intros r ? ? ?; reg_cases].
Qed.

Lemma sim_nop s q :
  0 <= q → q + 24 <= 2 ^ 64 → laid_out (ms_mem s) q [A64_NOP] →
  ∃ n s2, steps n (goto q s) = Some s2 ∧ relocated_exit (ms_pc s) q 4 (next s) s2.
Proof.
  intros Hq Hq' H. pose proof (H 0%nat _ eq_refl) as W. rewrite Z.add_0_r in W.
  assert (D : decode A64_NOP = INop) by (by vm_compute).
  exists 1%nat. eexists. split; [exact (steps_S 0 _ _ (step_at (goto q s) _ _ W D))|].
  split; simpl; [done|done|done|by right|by left].
Qed.

Lemma load_literal_fields insn :
  is_u32 insn → Z.shiftr insn 30 = bits insn 30 2 ∧
  Z.land (Z.shiftr insn 26) 1 = bits insn 26 1 ∧ Z.land insn 31 = bits insn 0 5 ∧
  (bits insn 26 1 = 0 ∨ bits insn 26 1 = 1).
Proof.
  intros Hi. repeat split.
  - unfold bits. rewrite Z.land_ones, Z.shiftr_div_pow2 by lia. symmetry. apply Z.mod_small.
    split; [apply Z.div_pos; destruct Hi; lia|]. apply Z.div_lt_upper_bound; destruct Hi; lia.
  - pose proof (bits_range insn 26 1 ltac:(lia)). lia.
Qed.

(** The same for an instruction executed from any memory: what is at the
    program counter may have been overwritten since. *)
Lemma exec_relocated s s1 insn out q patch_start patch_end :
  is_u32 insn → is_u64 (ms_pc s) → 0 <= q → q + 24 <= 2 ^ 64 →
  pc_relative (decode insn) = true →
  relocate_one insn (ms_pc s) patch_start patch_end = Some out →
  laid_out (ms_mem s) q out →
  exec (decode insn) s = Some s1 →
  ∃ n s2, steps n (goto q s) = Some s2 ∧
    relocated_exit (ms_pc s) q (4 * Z.of_nat (length out)) s1 s2.
Proof.
  intros Hi Hpc Hq Hq' Hrel Hout Hlay Hstep.
  unfold relocate_one in Hout. destruct (is_adr insn) eqn:Eadr.
  { (* ADR / ADRP *)
    rewrite is_adr_bits in Eadr. unfold decode in Hstep. rewrite Eadr in Hstep.
    injection Hout as <-. (cbn [Isa.exec] in Hstep; apply (inj Some) in Hstep as <-).
    rewrite adr_target_spec in Hlay by exact Hpc. cbv zeta in Hlay.
    change (Z.land insn 31) with (bits insn 0 5) in Hlay.
    refine (sim_load_const s _ _ q (bits_range insn 0 5 ltac:(lia)) Hq Hq' _ Hlay).
    destruct (bits insn 31 1 =? 1); apply u64_range. }
  destruct (is_b_bl insn) eqn:Eb.
  { (* B / BL *)
    rewrite is_adr_bits in Eadr. rewrite is_b_bl_bits in Eb.
    unfold decode in Hstep. rewrite Eadr, Eb in Hstep.
    unfold relocate_b_bl in Hout. rewrite bit31_bits in Hout.
    rewrite b_target in Hout.
    destruct (in_patch _ _ _); [done|]. destruct (bits insn 31 1 =? 1); simpl in Hout;
      injection Hout as <-; (cbn [Isa.exec] in Hstep; apply (inj Some) in Hstep as <-).
    - exact (sim_bl s _ q Hq Hq' (u64_range _) Hlay).
    - exact (sim_abs_jump s _ q Hq Hq' (u64_range _) Hlay). }
  destruct (conditional_of insn (ms_pc s)) as [[target re]|] eqn:Ec.
  { (* B.cond, CBZ, TBZ *)
    destruct (in_patch _ _ _); [done|]. injection Hout as <-.
    destruct (conditional_of_spec _ _ _ _ Ec Eadr Eb) as [Hre Ht].
    destruct (decode insn) eqn:Ed; try done; (cbn [Isa.exec] in Hstep; apply (inj Some) in Hstep as <-).
    all: refine (sim_cond s re target _ _ q Ht _ Hq Hq' Hlay).
    all: intros s' Hr Hrest; rewrite Hre; simpl; unfold cbz_taken, tbz_taken, get_reg; by rewrite ?Hr, ?Hrest. }
  destruct (is_load_literal insn) eqn:El.
  { (* load literal *)
    assert (Hdec : decode insn = ILdrLit (bits insn 26 1) (bits insn 30 2) (bits insn 0 5)
                                   (signed 19 (bits insn 5 19))).
    { rewrite is_adr_bits in Eadr. rewrite is_b_bl_bits in Eb. rewrite is_load_literal_bits in El.
      unfold conditional_of in Ec. rewrite is_b_cond_bits, is_cbz_bits, is_tbz_bits in Ec.
      unfold decode. rewrite Eadr, Eb, El.
      destruct ((bits insn 24 8 =? 0x54) && _); [done|].
      destruct (bits insn 25 6 =? 0x1A); [done|]. by destruct (bits insn 25 6 =? 0x1B). }
    rewrite Hdec in Hstep. unfold relocate_load_literal in Hout.
    destruct (load_literal_fields insn Hi) as (E30 & E26 & E0 & Hv).
    rewrite E30, E26, E0 in Hout. rewrite (branch_target_field _ _ 5 19) in Hout by done.
    destruct (bits insn 30 2 =? 3) eqn:E3; [destruct (bits insn 26 1 =? 0) eqn:E0'|]; cbn [andb] in Hout.
    - injection Hout as <-. cbn [Isa.exec] in Hstep. rewrite E3, E0' in Hstep. (cbn [Isa.exec] in Hstep; apply (inj Some) in Hstep as <-).
      exact (sim_nop s q Hq Hq' Hlay).
    - cbn [Isa.exec] in Hstep. by rewrite E3, E0' in Hstep.
    - cbn [Isa.exec] in Hstep. rewrite E3 in Hstep. (cbn [Isa.exec] in Hstep; apply (inj Some) in Hstep as <-).
      destruct (load_opcode _ _) as [load|] eqn:Eo; [|discriminate]. apply (inj Some) in Hout as <-.
      exact (sim_load s _ _ _ load _ q (bits_range insn 0 5 ltac:(lia)) Hv Eo Hq Hq' (u64_range _) Hlay). }
  (* verbatim: not PC-relative *)
  exfalso. rewrite is_adr_bits in Eadr. rewrite is_b_bl_bits in Eb. rewrite is_load_literal_bits in El.
  unfold conditional_of in Ec. rewrite is_b_cond_bits, is_cbz_bits, is_tbz_bits in Ec.
  unfold decode in Hrel. rewrite Eadr, Eb, El in Hrel.
  repeat case_match; done.
Qed.

(** An instruction outside the PC-relative set: it falls through, and what it
    does does not depend on where it is. *)
Definition position_independent (w : Z) : Prop :=
  ∀ s s1 q, exec_other w s = Some s1 →
    ms_pc s1 = u64 (ms_pc s + 4) ∧ exec_other w (goto q s) = Some (goto (u64 (q + 4)) s1).

Lemma relocate_verbatim insn pc ps pe out :
  pc_relative (decode insn) = false → relocate_one insn pc ps pe = Some out → out = [insn].
Proof.
  intros Hrel. unfold relocate_one, conditional_of.
  rewrite is_adr_bits, is_b_bl_bits, is_load_literal_bits, is_b_cond_bits, is_cbz_bits, is_tbz_bits.
  unfold decode in Hrel.
  destruct (bits insn 24 5 =? 0x10); [discriminate Hrel|].
  destruct (bits insn 26 5 =? 0x05); [discriminate Hrel|].
  destruct ((bits insn 24 8 =? 0x54) && _); [discriminate Hrel|].
  destruct (bits insn 25 6 =? 0x1A); [discriminate Hrel|].
  destruct (bits insn 25 6 =? 0x1B); [discriminate Hrel|].
  destruct ((bits insn 27 3 =? 0x3) && _); [discriminate Hrel|]. by intros [= <-].
Qed.

(** Every instruction the relocator accepts, PC-relative or not. *)
Lemma exec_moved s s1 insn out q patch_start patch_end :
  is_u32 insn → is_u64 (ms_pc s) → 0 <= q → q + 24 <= 2 ^ 64 →
  (∀ w, decode insn = IOther w → position_independent w) →
  relocate_one insn (ms_pc s) patch_start patch_end = Some out →
  laid_out (ms_mem s) q out →
  exec (decode insn) s = Some s1 →
  ∃ n s2, steps n (goto q s) = Some s2 ∧
    relocated_exit (ms_pc s) q (4 * Z.of_nat (length out)) s1 s2.
Proof.
  intros Hi Hpc Hq Hq' Hother Hout Hlay Hexec.
  destruct (pc_relative (decode insn)) eqn:Hrel; [by eapply exec_relocated|].
  pose proof (relocate_verbatim _ _ _ _ _ Hrel Hout) as ->.
  pose proof (Hlay 0%nat _ eq_refl) as W. rewrite Z.add_0_r in W.
  assert (Hone : ∀ s2, exec (decode insn) (goto q s) = Some s2 → steps 1 (goto q s) = Some s2).
  { intros s2 H. apply (steps_S 0). by rewrite (step_at (goto q s) _ _ W eq_refl). }
  exists 1%nat. destruct (decode insn) as [| | | | | |v opc rt rn|rn|rn| |w]; try discriminate Hrel;
    cbn [Isa.exec] in *.
  - injection Hexec as <-. eexists. split; [by apply Hone|]. unfold next, exec_load.
    split; destruct (v =? 0); simpl; try done; auto.
  - injection Hexec as <-. eexists. split; [by apply Hone|]. split; simpl; auto.
  - injection Hexec as <-. eexists. split; [by apply Hone|]. split; simpl; auto.
    intros r _ _ H30. destruct (Z.eqb_spec r 30); [done|]. done.
  - injection Hexec as <-. eexists. split; [by apply Hone|]. split; simpl; auto.
  - destruct (Hother w eq_refl s s1 q Hexec) as [Hp Hx].
    eexists. split; [by apply Hone|]. split; simpl; auto.
Qed.

(** C9.  A PC-relative instruction that [relocate_one] accepts does, from the
    relocated words at any address [q], what it did at [pc]: some number of
    machine steps of the emitted code reach a state that agrees with the
    state after the original in memory, flags and every register but x16/x17,
    and continues at the original's successor (or past the emitted bytes where
    the original fell through; a BL's link register names a word that
    branches past the emitted bytes). *)
Theorem relocate_one_simulates s s1 insn out q patch_start patch_end :
  is_u32 insn → is_u64 (ms_pc s) → 0 <= q → q + 24 <= 2 ^ 64 →
  ms_mem s (ms_pc s) = insn → pc_relative (decode insn) = true →
  relocate_one insn (ms_pc s) patch_start patch_end = Some out →
  laid_out (ms_mem s) q out →
  step s = Some s1 →
  ∃ n s2, steps n (goto q s) = Some s2 ∧
    relocated_exit (ms_pc s) q (4 * Z.of_nat (length out)) s1 s2.
Proof.
  intros Hi Hpc Hq Hq' Hmem Hrel Hout Hlay Hstep.
  rewrite (step_at s insn _ Hmem eq_refl) in Hstep.
  by apply (exec_relocated s s1 insn out q patch_start patch_end).
Qed.

Lemma signed_bits n x :
  1 <= n → - 2 ^ (n - 1) <= x < 2 ^ (n - 1) → signed n (bits x 0 n) = x.
Proof.
  intros Hn Hx. unfold signed, bits. rewrite Z.shiftr_0_r, Z.land_ones by lia.
  assert (Hp : 2 ^ n = 2 * 2 ^ (n - 1)) by (rewrite <- Z.pow_succ_r by lia; f_equal; lia).
  destruct (Z.leb_spec 0 x).
  - rewrite Z.mod_small by lia. destruct (Z.ltb_spec x (2 ^ (n - 1))); lia.
  - assert (E : x mod 2 ^ n = x + 2 ^ n).
    { symmetry. apply Z.mod_unique with (-1); lia. }
    rewrite E. destruct (Z.ltb_spec (x + 2 ^ n) (2 ^ (n - 1))); lia.
Qed.

Lemma decode_b delta :
  decode (a64_b delta) = IB false (signed 26 (bits (Z.shiftr delta 2) 0 26)).
Proof.
  unfold a64_b. change 0x03FFFFFF with (Z.ones 26). set (x := Z.shiftr delta 2).
  assert (Hx : Z.land x (Z.ones 26) = bits x 0 26) by (unfold bits; by rewrite Z.shiftr_0_r).
  rewrite Hx. pose proof (bits_range x 0 26 ltac:(lia)) as Hr. clear Hx.
  set (imm := bits x 0 26) in *. clearbody imm.
  change 0x14000000 with (Z.shiftl 5 26). rewrite lor_shiftl_low by lia.
  assert (B : ∀ lo n, 0 <= lo → 0 <= n →
    bits (5 * 2 ^ 26 + imm) lo n = ((5 * 2 ^ 26 + imm) / 2 ^ lo) mod 2 ^ n).
  { intros. unfold bits. by rewrite Z.land_ones, Z.shiftr_div_pow2. }
  assert (E24 : (bits (5 * 2 ^ 26 + imm) 24 5 =? 0x10) = false).
  { rewrite B by lia. apply Z.eqb_neq.
    replace (5 * 2 ^ 26 + imm) with (20 * 2 ^ 24 + imm) by lia.
    rewrite Z.div_add_l by lia.
    assert (0 <= imm / 2 ^ 24 < 4).
    { split; [apply Z.div_pos; lia|apply Z.div_lt_upper_bound; lia]. }
    rewrite Z.mod_small by lia. lia. }
  assert (E26 : bits (5 * 2 ^ 26 + imm) 26 5 = 5).
  { rewrite B, Z.div_add_l, (Z.div_small imm) by lia. done. }
  assert (E31 : bits (5 * 2 ^ 26 + imm) 31 1 = 0).
  { rewrite B, (Z.div_small _ (2 ^ 31)) by lia. done. }
  assert (E0 : bits (5 * 2 ^ 26 + imm) 0 26 = imm).
  { rewrite B, Z.div_1_r by lia. rewrite Z.add_comm, Z.mod_add, Z.mod_small by lia. done. }
  unfold decode. by rewrite E24, E26, E31, E0.
Qed.

Lemma branch_runs s dest ws n :
  is_u64 (ms_pc s) → ms_pc s + 16 <= 2 ^ 64 → is_u64 dest →
  ms_pc s mod 4 = 0 → dest mod 4 = 0 →
  hk_arm64_emit_branch (ms_pc s) dest = (ws, n) →
  laid_out (ms_mem s) (ms_pc s) ws →
  n = 4 * Z.of_nat (length ws) ∧
  ∃ k s', steps k s = Some s' ∧ ms_pc s' = dest ∧ ms_mem s' = ms_mem s ∧
    ms_rest s' = ms_rest s ∧
    (∀ r, n = 4 ∨ (r ≠ 16 ∧ r ≠ 17) → ms_reg s' r = ms_reg s r).
Proof.
  intros Hpc Hpc' Hd Ha Hda H Hlay. unfold hk_arm64_emit_branch, hk_arm64_branch_size in H.
  destruct (_ && _) eqn:Hrange; simpl in H; injection H as <- <-; (split; [done|]).
  - pose proof (Hlay 0%nat _ eq_refl) as W. rewrite Z.add_0_r in W.
    exists 1%nat, (goto dest s). split; [|repeat split; reflexivity].
    apply (steps_S 0). rewrite (step_at s _ _ W (decode_b _)). cbn [Isa.exec].
    unfold branch_to. do 2 f_equal.
    apply andb_true_iff in Hrange as [H1 H2].
    apply Z.leb_le in H1. apply Z.ltb_lt in H2.
    destruct (s64_congr dest) as [k1 E1]. destruct (s64_congr (ms_pc s)) as [k2 E2].
    set (delta := s64 dest - s64 (ms_pc s)) in *.
    assert (Hdelta : delta = 4 * Z.shiftr delta 2).
    { rewrite Z.shiftr_div_pow2 by lia. change (2 ^ 2) with 4.
      pose proof (Z.div_mod delta 4 ltac:(lia)). pose proof (Z.div_mod dest 4 ltac:(lia)).
      pose proof (Z.div_mod (ms_pc s) 4 ltac:(lia)).
      assert (delta mod 4 = 0); [|lia].
      replace delta with ((dest / 4 - ms_pc s / 4 + (k1 - k2) * 2 ^ 62) * 4) by (unfold delta; lia).
      apply Z.mod_mul. lia. }
    rewrite signed_bits by lia. rewrite <- Hdelta.
    replace (ms_pc s + delta) with (dest + (k1 - k2) * 2 ^ 64) by (unfold delta; lia).
    by rewrite u64_add_multiple.
  - destruct (run_abs_jump s dest ltac:(destruct Hpc; lia) Hpc' Hd Hlay) as (scratch & Hs & Hrun).
    exists 2%nat, (goto dest (set_reg scratch dest s)).
    split; [exact Hrun|]. split; [done|]. split; [done|]. split; [done|].
    intros r [?|[H16 H17]]; [done|]. simpl. by destruct Hs as [-> | ->]; reg_cases.
Qed.

(** The branch [hk_arm64_emit_branch] writes at [buf_addr] takes the
    machine to [dest], as one B when the two are within +/-128MB and through
    the 16-byte absolute jump otherwise; the byte count is the size of what
    was written and the one-word form touches no register. *)
Theorem emit_branch_reaches s dest ws n :
  is_u64 (ms_pc s) → ms_pc s + 16 <= 2 ^ 64 → is_u64 dest →
  ms_pc s mod 4 = 0 → dest mod 4 = 0 →
  hk_arm64_emit_branch (ms_pc s) dest = (ws, n) →
  laid_out (ms_mem s) (ms_pc s) ws →
  n = 4 * Z.of_nat (length ws) ∧
  ∃ k s', steps k s = Some s' ∧ ms_pc s' = dest ∧ ms_mem s' = ms_mem s ∧
    ms_rest s' = ms_rest s ∧
    (∀ r, n = 4 ∨ (r ≠ 16 ∧ r ≠ 17) → ms_reg s' r = ms_reg s r).
Proof. apply branch_runs. Qed.
End Simulation.

(** ** The relocated window *)

Lemma relocate_one_length insn pc ps pe out :
  relocate_one insn pc ps pe = Some out → 1 <= Z.of_nat (length out) <= 6.
Proof.
  unfold relocate_one, relocate_b_bl, relocate_load_literal. intros H.
  destruct (is_adr insn); [apply (inj Some) in H as <-; cbn; lia|].
  destruct (is_b_bl insn).
  { destruct (in_patch _ _ _); [done|].
    destruct (negb _); apply (inj Some) in H as <-; cbn; lia. }
  destruct (conditional_of insn pc) as [[t re]|].
  { destruct (in_patch _ _ _); [done|]. apply (inj Some) in H as <-. cbn. lia. }
  destruct (is_load_literal insn); [|apply (inj Some) in H as <-; cbn; lia].
  destruct (_ && _); [apply (inj Some) in H as <-; cbn; lia|].
  destruct (load_opcode _ _); [|done]. apply (inj Some) in H as <-. cbn. lia.
Qed.

(** A direct branch is refused exactly when it lands in the window. *)
Lemma relocate_one_branch insn pc ps pe :
  match branch_dest (decode insn) pc with
  | Some t => relocate_one insn pc ps pe = None ↔ ps <= t < pe
  | None =>
      relocate_one insn pc ps pe = None ↔
      is_load_literal insn = true ∧ is_adr insn = false ∧ is_b_bl insn = false ∧
      conditional_of insn pc = None ∧ relocate_load_literal insn pc = None
  end.
Proof.
  assert (P : ∀ t, in_patch t ps pe = true ↔ ps <= t < pe).
  { intros t. unfold in_patch. rewrite andb_true_iff, Z.leb_le, Z.ltb_lt. done. }
  unfold relocate_one. destruct (is_adr insn) eqn:Ea.
  { rewrite is_adr_bits in Ea. unfold decode. rewrite Ea. cbn [branch_dest].
    split; [discriminate|intros (_ & ? & _); discriminate]. }
  destruct (is_b_bl insn) eqn:Eb.
  { rewrite is_adr_bits in Ea. rewrite is_b_bl_bits in Eb. unfold decode. rewrite Ea, Eb.
    unfold branch_dest, relocate_b_bl. rewrite b_target, <- P.
    destruct (in_patch _ _ _); [done|]. by destruct (negb _). }
  destruct (conditional_of insn pc) as [[t re]|] eqn:Ec.
  { destruct (conditional_of_spec _ _ _ _ Ec Ea Eb) as [_ Ht].
    destruct (decode insn); try done; simpl; subst t; rewrite <- P; by destruct (in_patch _ _ _). }
  assert (Hd : branch_dest (decode insn) pc = None).
  { rewrite is_adr_bits in Ea. rewrite is_b_bl_bits in Eb.
    unfold conditional_of in Ec. rewrite is_b_cond_bits, is_cbz_bits, is_tbz_bits in Ec.
    unfold decode. rewrite Ea, Eb.
    destruct ((bits insn 24 8 =? 0x54) && _); [done|].
    destruct (bits insn 25 6 =? 0x1A); [done|]. destruct (bits insn 25 6 =? 0x1B); [done|].
    destruct ((bits insn 27 3 =? 3) && _); [done|]. by repeat case_match. }
  rewrite Hd. destruct (is_load_literal insn).
  - split; [intros H; repeat split; exact H|intros (_ & _ & _ & _ & H); exact H].
  - split; [discriminate|intros (? & _); discriminate].
Qed.

Definition window_pc (src_addr : Z) (i : nat) : Z := u64 (src_addr + Z.of_nat i * 4).

Lemma relocate_loop_spec insns a count i written cap out :
  relocate_loop insns a count (Z.of_nat i) written cap = Some out →
  ∃ outs, out = concat outs ∧ length outs = length insns ∧
    (insns ≠ [] → written + 4 * Z.of_nat (length out) <= cap) ∧
    ∀ j insn, insns !! j = Some insn → ∃ o, outs !! j = Some o ∧
      relocate_one insn (window_pc a (i + j)) a (u64 (a + count * 4)) = Some o.
Proof.
  revert i written out. induction insns as [|insn rest IH]; intros i written out H; simpl in H.
  { injection H as <-. by exists []. }
  destruct (Z.ltb_spec cap (written + HK_A64_MAX_RELOC_BYTES)) as [|Hcap]; [done|].
  destruct (relocate_one insn _ _ _) as [o|] eqn:Eo; [|done].
  destruct (relocate_loop rest _ _ _ _ _) as [more|] eqn:Em; [|done]. injection H as <-.
  replace (Z.of_nat i + 1) with (Z.of_nat (S i)) in Em by lia.
  destruct (IH _ _ _ Em) as (outs & -> & Hlen & Hbound & Hall).
  pose proof (relocate_one_length _ _ _ _ _ Eo). unfold HK_A64_MAX_RELOC_BYTES in Hcap.
  exists (o :: outs). simpl. rewrite Hlen. split; [done|]. split; [done|]. split.
  - intros _. rewrite length_app. destruct rest as [|r rest].
    + apply nil_length_inv in Hlen as ->. simpl. lia.
    + specialize (Hbound ltac:(done)). lia.
  - intros [|j] x Hj; simpl in Hj.
    + injection Hj as ->. exists o. split; [done|]. unfold window_pc. by rewrite Nat.add_0_r.
    + destruct (Hall j x Hj) as (o' & ? & ?). exists o'. split; [done|].
      by replace (i + S j)%nat with (S i + j)%nat by lia.
Qed.

(** What a nonzero result of [hk_arm64_relocate] says of the loop's outputs. *)
Lemma relocate_accepts insns a cap out n :
  hk_arm64_relocate (Some insns) a true cap = (out, n) → n ≠ 0 →
  n = 4 * Z.of_nat (length out) ∧ n <= cap ∧
  ∃ outs, out = concat outs ∧ length outs = length insns ∧
    ∀ i insn, insns !! i = Some insn → ∃ o, outs !! i = Some o ∧
      relocate_one insn (window_pc a i) a (u64 (a + Z.of_nat (length insns) * 4)) = Some o.
Proof.
  unfold hk_arm64_relocate. intros H Hn. destruct insns as [|x insns]; [simpl in H; congruence|].
  simpl (_ || _) in H. destruct (relocate_loop _ _ _ _ _ _) as [out'|] eqn:E; [|congruence].
  injection H as <- <-. split; [done|].
  destruct (relocate_loop_spec _ _ _ 0 _ _ _ E) as (outs & Ho & Hl & Hb & Hall).
  split; [specialize (Hb ltac:(done)); lia|]. by exists outs.
Qed.

(** A nonzero result of [hk_arm64_relocate] is the byte length of what was
    written, fits the destination, and what was written is the concatenation,
    in order, of the relocations of every instruction of the window at its own
    address. *)
Lemma relocate_window insns a cap out n :
  hk_arm64_relocate (Some insns) a true cap = (out, n) → n ≠ 0 →
  n = 4 * Z.of_nat (length out) ∧ n <= cap ∧
  ∃ outs, out = concat outs ∧ length outs = length insns ∧
    ∀ i insn, insns !! i = Some insn → ∃ o, outs !! i = Some o ∧
      relocate_one insn (window_pc a i) a (u64 (a + Z.of_nat (length insns) * 4)) = Some o.
Proof. apply relocate_accepts. Qed.

(** An accepted window holds no direct branch back into the bytes the
    patch overwrites. *)
Theorem relocate_no_branch_into_window insns a cap out n i insn t :
  hk_arm64_relocate (Some insns) a true cap = (out, n) → n ≠ 0 →
  insns !! i = Some insn → branch_dest (decode insn) (window_pc a i) = Some t →
  ¬ a <= t < u64 (a + Z.of_nat (length insns) * 4).
Proof.
  intros H Hn Hi Hb Hin.
  destruct (relocate_accepts _ _ _ _ _ H Hn) as (_ & _ & outs & _ & _ & Hall).
  destruct (Hall _ _ Hi) as (o & _ & Ho).
  pose proof (relocate_one_branch insn (window_pc a i) a (u64 (a + Z.of_nat (length insns) * 4))) as Hspec.
  rewrite Hb in Hspec. apply Hspec in Hin. congruence.
Qed.

Lemma relocate_loop_complete insns a count i written cap :
  written + 24 * Z.of_nat (length insns) <= cap →
  relocate_loop insns a count (Z.of_nat i) written cap = None ↔
  ∃ j insn, insns !! j = Some insn ∧
    relocate_one insn (window_pc a (i + j)) a (u64 (a + count * 4)) = None.
Proof.
  revert i written. induction insns as [|insn rest IH]; intros i written Hcap; cbn [relocate_loop].
  { split; [done|]. by intros (j & insn & ? & _). }
  cbn [length] in Hcap. unfold HK_A64_MAX_RELOC_BYTES.
  replace (cap <? written + 24) with false by lia.
  fold (window_pc a i). replace (Z.of_nat i + 1) with (Z.of_nat (S i)) by lia.
  destruct (relocate_one insn (window_pc a i) _ _) as [o|] eqn:Eo.
  - pose proof (relocate_one_length _ _ _ _ _ Eo) as Hl.
    specialize (IH (S i) (written + 4 * Z.of_nat (length o)) ltac:(lia)).
    transitivity (relocate_loop rest a count (Z.of_nat (S i))
                    (written + 4 * Z.of_nat (length o)) cap = None).
    { by destruct (relocate_loop rest _ _ _ _ _). }
    rewrite IH. split.
    + intros (j & x & Hj & Hx). exists (S j), x. split; [exact Hj|].
      by replace (i + S j)%nat with (S i + j)%nat by lia.
    + intros ([|j] & x & Hj & Hx); cbn in Hj.
      * apply (inj Some) in Hj as <-. rewrite Nat.add_0_r in Hx. congruence.
      * exists j, x. split; [exact Hj|]. by replace (S i + j)%nat with (i + S j)%nat by lia.
  - split; [|done]. intros _. exists 0%nat, insn. split; [done|]. by rewrite Nat.add_0_r.
Qed.

Lemma load_opcode_none v opc :
  v = 0 ∨ v = 1 → 0 <= opc < 4 → (opc =? 3) && (v =? 0) = false →
  load_opcode v opc = None ↔ v = 1 ∧ opc = 3.
Proof.
  intros Hv Ho.
  assert (opc = 0 ∨ opc = 1 ∨ opc = 2 ∨ opc = 3) as [-> | [-> | [-> | ->]]] by lia;
    destruct Hv as [-> | ->]; vm_compute; intros H; split; try done; by intros [? ?].
Qed.

(** A refused instruction that is not a branch is the unallocated load. *)
Lemma relocate_one_unallocated insn pc ps pe :
  is_u32 insn → branch_dest (decode insn) pc = None →
  relocate_one insn pc ps pe = None ↔ ∃ rt imm, decode insn = ILdrLit 1 3 rt imm.
Proof.
  intros Hi Hb. pose proof (relocate_one_branch insn pc ps pe) as H. rewrite Hb in H. rewrite H. clear H.
  rewrite is_adr_bits, is_b_bl_bits, is_load_literal_bits.
  unfold conditional_of. rewrite is_b_cond_bits, is_cbz_bits, is_tbz_bits.
  unfold relocate_load_literal. destruct (load_literal_fields insn Hi) as (-> & -> & -> & Hv).
  pose proof (bits_range insn 30 2 ltac:(lia)) as Ho. change (2 ^ 2) with 4 in Ho.
  pose proof (load_opcode_none _ _ Hv Ho) as Hn.
  unfold decode in *.
  destruct (bits insn 24 5 =? 16); [split; [intros (_ & ? & _); discriminate|intros (? & ? & ?); discriminate]|].
  destruct (bits insn 26 5 =? 5); [discriminate|].
  destruct (_ && (bits insn 4 1 =? 0)); [discriminate|].
  destruct (bits insn 25 6 =? 26); [discriminate|]. destruct (bits insn 25 6 =? 27); [discriminate|].
  destruct (_ && (bits insn 24 2 =? 0)).
  - destruct (_ && (bits insn 26 1 =? 0)) eqn:E.
    { split; [intros (_ & _ & _ & _ & ?); discriminate|].
      intros (rt & imm & Heq). injection Heq as H1 H2 _ _. by rewrite H1, H2 in E. }
    specialize (Hn eq_refl). split.
    + intros (_ & _ & _ & _ & Hl). destruct (load_opcode _ _); [discriminate|].
      destruct (proj1 Hn eq_refl) as [-> ->]. by eexists _, _.
    + intros (rt & imm & Heq). injection Heq as H1 H2 _ _. rewrite (proj2 Hn (conj H1 H2)). done.
  - split; [intros (? & _); discriminate|]. intros (rt & imm & Heq). by repeat case_match.
Qed.

(** Given room for 24 bytes an instruction, [hk_arm64_relocate] refuses a
    window exactly when it holds a direct branch back into the bytes the patch
    overwrites or the unallocated SIMD literal load: nothing else is lost. *)
Theorem relocate_refuses_iff insns a cap :
  insns ≠ [] → Forall is_u32 insns → 24 * Z.of_nat (length insns) <= cap →
  (hk_arm64_relocate (Some insns) a true cap).2 = 0 ↔
  ∃ i insn, insns !! i = Some insn ∧
    ((∃ t, branch_dest (decode insn) (window_pc a i) = Some t ∧
           a <= t < u64 (a + Z.of_nat (length insns) * 4)) ∨
     (∃ rt imm, decode insn = ILdrLit 1 3 rt imm)).
Proof.
  intros Hne Hall Hcap.
  pose proof (relocate_loop_complete insns a (Z.of_nat (length insns)) 0 0 cap ltac:(lia)) as Hloop.
  assert (Hiff : ∀ i insn, insns !! i = Some insn →
    relocate_one insn (window_pc a i) a (u64 (a + Z.of_nat (length insns) * 4)) = None ↔
    ((∃ t, branch_dest (decode insn) (window_pc a i) = Some t ∧
           a <= t < u64 (a + Z.of_nat (length insns) * 4)) ∨
     (∃ rt imm, decode insn = ILdrLit 1 3 rt imm))).
  { intros i insn Hi. pose proof (Forall_lookup_1 _ _ _ _ Hall Hi) as Hu.
    destruct (branch_dest (decode insn) (window_pc a i)) as [t|] eqn:Eb.
    - pose proof (relocate_one_branch insn (window_pc a i) a
        (u64 (a + Z.of_nat (length insns) * 4))) as H. rewrite Eb in H. rewrite H. split.
      + intros Ht. left. by exists t.
      + intros [(t' & Ht & Hr)|(rt & imm & Hd)]; [by apply (inj Some) in Ht as ->|].
        by rewrite Hd in Eb.
    - rewrite (relocate_one_unallocated _ _ _ _ Hu Eb). split; [by right|].
      intros [(t & Ht & _)|H]; [done|exact H]. }
  transitivity (relocate_loop insns a (Z.of_nat (length insns)) 0 0 cap = None).
  { unfold hk_arm64_relocate. destruct insns as [|x rest]; [done|].
    cbn [orb negb]. replace (Z.of_nat (length (x :: rest)) =? 0) with false by reflexivity.
    destruct (relocate_loop (x :: rest) _ _ _ _ _) as [out|] eqn:E; cbn [snd]; [|done].
    destruct (relocate_loop_spec _ _ _ 0 _ _ _ E) as (outs & -> & Hl & _ & Hs).
    destruct (Hs 0%nat x eq_refl) as (o & Ho & Hx). pose proof (relocate_one_length _ _ _ _ _ Hx).
    split; [|done]. intros Hz. exfalso. destruct outs as [|o' outs]; [done|].
    apply (inj Some) in Ho as ->. cbn [concat] in Hz. rewrite length_app in Hz. lia. }
  rewrite Hloop. split; intros (i & insn & Hi & H); exists i, insn; (split; [done|]);
    by apply Hiff.
Qed.

(** ** Witnesses: a CBZ and its relocation, and a far branch *)

(** Memory holding [ws] at [q] and [other] elsewhere. *)
Definition mem_at (q : Z) (ws : list Z) (other : Z → Z) (a : Z) : Z :=
  if (q <=? a) && (a <? q + 4 * Z.of_nat (length ws)) then
    default 0 (ws !! Z.to_nat ((a - q) / 4))
  else other a.

Lemma laid_out_mem_at q ws other : laid_out (mem_at q ws other) q ws.
Proof.
  intros i w Hi. apply lookup_lt_Some in Hi as Hl. unfold mem_at.
  replace (q <=? q + 4 * Z.of_nat i) with true by lia.
  replace (q + 4 * Z.of_nat i <? q + 4 * Z.of_nat (length ws)) with true by lia.
  cbn [andb]. replace (q + 4 * Z.of_nat i - q) with (Z.of_nat i * 4) by lia.
  rewrite Z.div_mul, Nat2Z.id, Hi by lia. done.
Qed.

Definition demo_cbz : Z := 0xB4000803.
Definition demo_state (insn q : Z) (ws : list Z) : mstate unit :=
  MState (λ _, 0) (mem_at q ws (λ _, insn)) () 0x4000.

Lemma relocate_one_simulates_witness :
  let out := default [] (relocate_one demo_cbz 0x4000 0x4000 0x4010) in
  let s := demo_state demo_cbz 0x10000 out in
  ∃ s1 n s2,
    step (λ _ _, true) (λ _ _ _ _ r, r) (λ _ _, None) s = Some s1 ∧
    steps (λ _ _, true) (λ _ _ _ _ r, r) (λ _ _, None) n (goto 0x10000 s) = Some s2 ∧
    relocated_exit (λ _ _, true) (λ _ _ _ _ r, r) (λ _ _, None) 0x4000 0x10000
      (4 * Z.of_nat (length out)) s1 s2.
Proof.
  intros out s. eexists.
  destruct (relocate_one_simulates (λ _ _, true) (λ _ _ _ _ r, r) (λ _ _, None) s
    (goto 0x4100 s) demo_cbz out 0x10000 0x4000 0x4010) as (n & s2 & H1 & H2).
  - by split.
  - by split.
  - done.
  - done.
  - reflexivity.
  - reflexivity.
  - reflexivity.
  - apply laid_out_mem_at.
  - reflexivity.
  - exists n, s2. split; [|split; [exact H1|exact H2]]. reflexivity.
Defined.

Lemma emit_branch_reaches_witness :
  let r := hk_arm64_emit_branch 0x4000 0x180000000 in
  let s := demo_state 0 0x4000 r.1 in
  r.2 = 16 ∧ ∃ k s', steps (λ _ _, true) (λ _ _ _ _ r, r) (λ _ _, None) k s = Some s' ∧
    ms_pc s' = 0x180000000.
Proof.
  intros r s. split; [reflexivity|].
  destruct (emit_branch_reaches (λ _ _, true) (λ _ _ _ _ r, r) (λ _ _, None) s
    0x180000000 r.1 r.2) as (_ & k & s' & H1 & H2 & _).
  - by split.
  - done.
  - by split.
  - reflexivity.
  - reflexivity.
  - reflexivity.
  - apply laid_out_mem_at.
  - exists k, s'. split; [exact H1|exact H2].
Defined.

(** BL, CBZ, ADRP, NOP: a window of four instructions. *)
Definition demo_window : list Z := [0x94001000; 0xB4000803; 0x90000001; 0xD503201F].

Lemma relocate_no_branch_into_window_witness :
  ¬ 0x4000 <= 0x4104 < 0x4010.
Proof.
  refine (relocate_no_branch_into_window demo_window 0x4000 96 
            (hk_arm64_relocate (Some demo_window) 0x4000 true 96).1 64 1 0xB4000803 0x4104
            _ _ _ _); done.
Defined.

(** A branch to itself cannot be relocated. *)
Lemma relocate_refuses_iff_witness :
  (hk_arm64_relocate (Some [0xD503201F; 0x14000000]) 0x4000 true 48).2 = 0.
Proof.
  apply (relocate_refuses_iff [0xD503201F; 0x14000000] 0x4000 48).
  - done.
  - by repeat (constructor; [by split|]).
  - done.
  - exists 1%nat, 0x14000000. split; [reflexivity|]. left. exists 0x4004.
    split; [reflexivity|split; [done|reflexivity]].
Defined.
