(* ===== verification/Ownership.v ===== *)
(** * Target ownership (src/core/HKOwnership.c)

    The canonical byte key of a hook's target and the process-lifetime ledger
    of who owns which key.  [Build] is the C key builder, allocation failures
    included; [Canonical] is what it promises: the key as a pure function of
    the target, equal for two targets exactly when they are the same one. *)

From stdpp Require Import base list strings gmap numbers sorting.
From S2P Require Import Prelude Types.

(** ** Little-endian fields *)

Fixpoint le_bytes (n : nat) (v : Z) : list Z :=
  match n with
  | O => []
  | S n => v mod 256 :: le_bytes n (v / 256)
  end.

Definition string_bytes (s : string) : list Z :=
  (λ a, Z.of_N (Ascii.N_of_ascii a)) <$> String.list_ascii_of_string s.

(** ** Ordering of child keys *)

(** [memcmp] over the common length. *)
Fixpoint memcmp (a b : list Z) : Z :=
  match a, b with
  | x :: a, y :: b => if x =? y then memcmp a b else if x <? y then -1 else 1
  | _, _ => 0
  end.

Definition key_blob_compare (a b : list Z) : Z :=
  let result := memcmp a b in
  if negb (result =? 0) then result
  else if (length b <? length a)%nat then 1
  else if (length a <? length b)%nat then -1 else 0.

Definition key_blob_le (a b : list Z) : Prop := key_blob_compare a b <= 0.

#[export] Instance key_blob_le_dec a b : Decision (key_blob_le a b).
Proof. unfold key_blob_le. apply _. Defined.

(** [qsort] with [key_blob_compare]; equal keys are equal byte strings, so the
    sorted array does not depend on the algorithm. *)
Definition sort_blobs (blobs : list (list Z)) : list (list Z) :=
  merge_sort key_blob_le blobs.

(** The compaction loop: [last] is [children[unique_count - 1]]. *)
Fixpoint unique_blobs (last : option (list Z)) (blobs : list (list Z)) : list (list Z) :=
  match blobs with
  | [] => []
  | b :: rest =>
      match last with
      | Some l =>
          if key_blob_compare l b =? 0 then unique_blobs last rest
          else b :: unique_blobs (Some b) rest
      | None => b :: unique_blobs (Some b) rest
      end
  end.

Definition HK_OWNERSHIP_MAX_IMAGE_SELECTOR_DEPTH : Z := 32.

(** ** The key builder *)
Module Build.

(** [hk_key_builder_t] over the allocator. *)
Record builder : Type := Builder {
  kb_heap : heap;
  kb_data : list Z;
  kb_capacity : Z }.

#[export] Instance builder_eta : Eta builder := λ b,
  Builder (kb_heap b) (kb_data b) (kb_capacity b).

Definition size (l : list Z) : Z := Z.of_nat (length l).

Definition put_bytes (data : list Z) : M builder bool := λ b,
  (true, b <| kb_data := kb_data b ++ data |>).

Definition key_append (data : list Z) : M builder bool := λ b,
  if SIZE_MAX - size (kb_data b) <? size data then (false, b)
  else
    let needed := size (kb_data b) + size data in
    if kb_capacity b <? needed then
      let capacity :=
        grow_capacity 65 (if kb_capacity b =? 0 then 64 else kb_capacity b) needed in
      let '(grown, h) := alloc (kb_heap b) in
      if grown then put_bytes data (b <| kb_heap := h |> <| kb_capacity := capacity |>)
      else (false, b <| kb_heap := h |>)
    else put_bytes data b.

Definition key_u8 (value : bool) : M builder bool := key_append [Z.b2z value].
Definition key_u32 (value : Z) : M builder bool := key_append (le_bytes 4 value).
Definition key_u64 (value : Z) : M builder bool := key_append (le_bytes 8 value).

(** [a && b] on calls: the second is not made when the first fails. *)
Definition and_then (a b : M builder bool) : M builder bool :=
  ok <- a ;; if ok then b else ret false.

Definition key_string (value : option string) : M builder bool :=
  match value with
  | None => key_u64 (2 ^ 64 - 1)
  | Some s => and_then (key_u64 (Z.of_nat (String.length s))) (key_append (string_bytes s))
  end.

(** The growing array of child keys. *)
Record blobs : Type := Blobs {
  bl_heap : heap;
  bl_items : list (list Z);
  bl_capacity : Z }.

#[export] Instance blobs_eta : Eta blobs := λ b,
  Blobs (bl_heap b) (bl_items b) (bl_capacity b).

Definition SIZEOF_KEY_BLOB : Z := 16.

Definition key_blob_append (key : list Z) : M blobs bool := λ b,
  let add b := (true, b <| bl_items := bl_items b ++ [key] |>) in
  if Z.of_nat (length (bl_items b)) =? bl_capacity b then
    let grown := if bl_capacity b =? 0 then 4 else u64 (bl_capacity b * 2) in
    if (grown <? bl_capacity b) || (SIZE_MAX / SIZEOF_KEY_BLOB <? grown) then (false, b)
    else
      let '(resized, h) := alloc (bl_heap b) in
      if resized then add (b <| bl_heap := h |> <| bl_capacity := grown |>)
      else (false, b <| bl_heap := h |>)
  else add b.

(** The kinds [key_selector] encodes without descending. *)
Definition key_selector_leaf (kind : image_selector_kind) (extra : selector_extra)
    : M builder bool :=
  let code := key_u32 (image_selector_kind_code kind) in
  match kind with
  | HK_IMAGE_EXACT_PATH => and_then code (key_string (se_path extra))
  | HK_IMAGE_EXACT_UUID => and_then code (key_append (se_uuid extra))
  | HK_IMAGE_EXACT_HEADER => and_then code (key_u64 (se_header extra))
  | _ => code
  end.

(** A key built from an empty builder on the heap of [b]. *)
Definition run_builder {A} (m : M builder A) : M blobs (A * list Z) := λ b,
  let '(a, kb) := m (Builder (bl_heap b) [] 0) in
  ((a, kb_data kb), b <| bl_heap := kb_heap kb |>).

(** The loop over [explicit_set]. *)
Section Collect.
Context (collect : image_selector → M blobs bool).
Fixpoint collect_children (elems : list (option image_selector)) : M blobs bool :=
  match elems with
  | [] => ret true
  | None :: _ => ret false
  | Some child :: rest => ok <- collect child ;; if ok then collect_children rest else ret false
  end.
End Collect.

(** [key_selector_collect]: sets are flattened, anything else adds its key. *)
Fixpoint key_selector_collect (s : image_selector) (depth : Z) {struct s} : M blobs bool :=
  let '(Selector kind extra set) := s in
  if HK_OWNERSHIP_MAX_IMAGE_SELECTOR_DEPTH <? depth then ret false
  else
    match kind with
    | HK_IMAGE_EXPLICIT_SET =>
        match set with
        | SetNull count => ret (negb (0 <? count))
        | SetArray elems =>
            collect_children (λ child, key_selector_collect child (depth + 1)) elems
        end
    | _ =>
        built <- run_builder (key_selector_leaf kind extra) ;;
        if built.1 then key_blob_append built.2 else ret false
    end.

Fixpoint key_children (children : list (list Z)) : M builder bool :=
  match children with
  | [] => ret true
  | child :: rest =>
      and_then (key_u64 (size child)) (and_then (key_append child) (key_children rest))
  end.

Definition key_selector (selector : option image_selector) (depth : Z) : M builder bool :=
  match selector with
  | None => ret false
  | Some s =>
      if HK_OWNERSHIP_MAX_IMAGE_SELECTOR_DEPTH <? depth then ret false
      else
        match sel_kind s with
        | HK_IMAGE_EXPLICIT_SET => λ b,
            let '(ok, bl) := key_selector_collect s depth (Blobs (kb_heap b) [] 0) in
            let b := b <| kb_heap := bl_heap bl |> in
            if ok then
              let children := unique_blobs None (sort_blobs (bl_items bl)) in
              and_then (key_u32 (image_selector_kind_code HK_IMAGE_EXPLICIT_SET))
                (and_then (key_u64 (Z.of_nat (length children))) (key_children children)) b
            else (false, b)
        | kind => key_selector_leaf kind (sel_extra s)
        end
  end.

Section Target.
(** The pointer-authentication intrinsic behind [hk_pac_strip_code]. *)
Context (pac_strip_code : Z → Z).

Definition key_target (spec : option hk_hook_spec) : M builder bool :=
  match spec with
  | None => ret false
  | Some spec =>
      and_then (key_u32 (hk_target_kind_code (target_kind (hs_target spec))))
        match hs_target spec with
        | TSymbol t =>
            and_then (key_string (sy_name t))
            (and_then (key_u32 (sy_name_convention t))
            (and_then (key_u32 (sy_alias_policy t))
            (and_then (key_u8 (sy_interior_address_permitted t))
            (and_then (key_selector (Some (sy_defining_image t)) 0)
                      (key_selector (Some (sy_caller_image_scope t)) 0)))))
        | TAddress t =>
            key_u64 (if ad_may_strip_pac_or_thumb_state t
                     then pac_strip_code (ad_address t) else ad_address t)
        | TObjc t =>
            and_then (key_u8 (negb (oc_cls t =? 0)))
            (and_then (if negb (oc_cls t =? 0) then key_u64 (oc_cls t)
                       else key_string (oc_class_name t))
            (and_then (key_u8 (negb (oc_sel t =? 0)))
            (and_then (if negb (oc_sel t =? 0) then key_u64 (oc_sel t)
                       else key_string (oc_selector_name t))
                      (key_u32 (oc_method_kind t)))))
        | TMemory t =>
            and_then (key_u64 (me_address t))
            (and_then (key_u8 (me_address_is_image_relative t))
            (and_then (key_u64 (me_size t))
              (if negb (me_address_is_image_relative t) then ret true
               else key_selector (Some (me_base_image t)) 0)))
        | TSwift | TOther _ => ret true
        end
  end.

(** [None] is the C [false]. *)
Definition hk_ownership_target_key_copy (spec : option hk_hook_spec)
    : M heap (option (list Z)) := λ h,
  let '(ok, b) := key_target spec (Builder h [] 0) in
  (if ok then Some (kb_data b) else None, kb_heap b).

End Target.
End Build.

(** ** The ownership ledger *)
Module Ledger.

Record record : Type := Record_ {
  o_key : list Z;
  o_engine_id : option string;
  o_head_replacement : Z;
  o_predecessor : Z }.

#[export] Instance record_eta : Eta record := λ r,
  Record_ (o_key r) (o_engine_id r) (o_head_replacement r) (o_predecessor r).

(** [hk_ownership_state_t]; absent means all zero. *)
Record state : Type := State {
  os_present : bool;
  os_head_replacement : Z;
  os_predecessor : Z;
  os_engine_id : option string }.

Definition find_record (key : list Z) (records : list record) : option record :=
  snd <$> list_find (λ r, o_key r = key) records.

Definition hk_ownership_lookup_locked (key : list Z) (records : list record) : state :=
  match find_record key records with
  | Some r => State true (o_head_replacement r) (o_predecessor r) (o_engine_id r)
  | None => State false 0 0 None
  end.

(** The first record of the key is updated in place. *)
Fixpoint update_record (key : list Z) (replacement predecessor : Z) (records : list record)
    : list record :=
  match records with
  | [] => []
  | r :: rest =>
      if decide (o_key r = key) then
        r <| o_head_replacement := replacement |> <| o_predecessor := predecessor |> :: rest
      else r :: update_record key replacement predecessor rest
  end.

Definition hk_ownership_record_locked (key : list Z) (engine_id : option string)
    (replacement predecessor : Z) : M (heap * list record) bool := λ '(h, records),
  match find_record key records with
  | Some _ => (true, (h, update_record key replacement predecessor records))
  | None =>
      let '(ok, h) := alloc h in
      if negb ok then (false, (h, records))
      else
        let '(ok, h) := alloc h in
        if negb ok then (false, (h, records))
        else
          let '(ok, h) :=
            match engine_id with Some _ => alloc h | None => (true, h) end in
          if negb ok then (false, (h, records))
          else (true, (h, Record_ key engine_id replacement predecessor :: records))
  end.

End Ledger.

(** ** What a key stands for *)
Module Canonical.

(** What a selector that is not a set selects by. *)
Inductive leaf : Type :=
  | LAny | LMain
  | LPath (path : option string)
  | LUuid (uuid : list Z)
  | LHeader (header : Z)
  | LOther (kind : Z).

#[export] Instance leaf_eq_dec : EqDecision leaf.
Proof. solve_decision. Defined.

Definition leaf_of (kind : image_selector_kind) (extra : selector_extra) : leaf :=
  match kind with
  | HK_IMAGE_ANY_LOADED => LAny
  | HK_IMAGE_MAIN_EXECUTABLE => LMain
  | HK_IMAGE_EXACT_PATH => LPath (se_path extra)
  | HK_IMAGE_EXACT_UUID => LUuid (se_uuid extra)
  | HK_IMAGE_EXACT_HEADER => LHeader (se_header extra)
  | HK_IMAGE_EXPLICIT_SET => LOther 5
  | HK_IMAGE_OTHER k => LOther k
  end.

Section Children.
Context (child_leaves : image_selector → option (list leaf)).
Fixpoint children_leaves (elems : list (option image_selector)) : option (list leaf) :=
  match elems with
  | [] => Some []
  | None :: _ => None
  | Some child :: rest => l ← child_leaves child; r ← children_leaves rest; Some (l ++ r)
  end.
End Children.

(** The leaves of a selector in order, nested sets flattened; [None] where a
    pointer is NULL or the nesting exceeds the cap. *)
Fixpoint leaves (s : image_selector) (depth : Z) {struct s} : option (list leaf) :=
  let '(Selector kind extra set) := s in
  if HK_OWNERSHIP_MAX_IMAGE_SELECTOR_DEPTH <? depth then None
  else
    match kind with
    | HK_IMAGE_EXPLICIT_SET =>
        match set with
        | SetNull count => if 0 <? count then None else Some []
        | SetArray elems =>
            children_leaves (λ child, leaves child (depth + 1)) elems
        end
    | _ => Some [leaf_of kind extra]
    end.

(** A selector as the key sees it: one leaf, or the set of its leaves. *)
Inductive view : Type :=
  | VLeaf (l : leaf)
  | VSet (ls : list leaf).

Definition selector_view (s : image_selector) : option view :=
  match sel_kind s with
  | HK_IMAGE_EXPLICIT_SET => VSet <$> leaves s 0
  | kind => Some (VLeaf (leaf_of kind (sel_extra s)))
  end.

Definition same_view (v1 v2 : view) : Prop :=
  match v1, v2 with
  | VLeaf l1, VLeaf l2 => l1 = l2
  | VSet ls1, VSet ls2 => ∀ l, l ∈ ls1 ↔ l ∈ ls2
  | _, _ => False
  end.

(** The fields of a target that identify it. *)
Inductive identity : Type :=
  | IdSymbol (name : option string) (convention alias : Z) (interior : bool)
      (defining caller : view)
  | IdAddress (address : Z)
  | IdObjc (cls : Z + option string) (sel : Z + option string) (method_kind : Z)
  | IdMemory (address size : Z) (base : option view)
  | IdOther (kind : Z).

Definition same_identity (i1 i2 : identity) : Prop :=
  match i1, i2 with
  | IdSymbol n1 c1 a1 p1 d1 s1, IdSymbol n2 c2 a2 p2 d2 s2 =>
      n1 = n2 ∧ c1 = c2 ∧ a1 = a2 ∧ p1 = p2 ∧ same_view d1 d2 ∧ same_view s1 s2
  | IdAddress a1, IdAddress a2 => a1 = a2
  | IdObjc c1 s1 k1, IdObjc c2 s2 k2 => c1 = c2 ∧ s1 = s2 ∧ k1 = k2
  | IdMemory a1 n1 b1, IdMemory a2 n2 b2 => a1 = a2 ∧ n1 = n2 ∧
      match b1, b2 with
      | Some v1, Some v2 => same_view v1 v2
      | None, None => True
      | _, _ => False
      end
  | IdOther k1, IdOther k2 => k1 = k2
  | _, _ => False
  end.

Definition pointer_or_name (p : Z) (name : option string) : Z + option string :=
  if p =? 0 then inr name else inl p.

Definition target_identity (pac_strip_code : Z → Z) (t : hk_target) : option identity :=
  match t with
  | TSymbol t =>
      d ← selector_view (sy_defining_image t);
      c ← selector_view (sy_caller_image_scope t);
      Some (IdSymbol (sy_name t) (sy_name_convention t) (sy_alias_policy t)
              (sy_interior_address_permitted t) d c)
  | TAddress t =>
      Some (IdAddress (if ad_may_strip_pac_or_thumb_state t
                       then pac_strip_code (ad_address t) else ad_address t))
  | TObjc t =>
      Some (IdObjc (pointer_or_name (oc_cls t) (oc_class_name t))
              (pointer_or_name (oc_sel t) (oc_selector_name t)) (oc_method_kind t))
  | TMemory t =>
      if me_address_is_image_relative t then
        v ← selector_view (me_base_image t); Some (IdMemory (me_address t) (me_size t) (Some v))
      else Some (IdMemory (me_address t) (me_size t) None)
  | TSwift => Some (IdOther 4)
  | TOther k => Some (IdOther k)
  end.

(** *** The bytes of each *)

Definition u32_key (v : Z) : list Z := le_bytes 4 v.
Definition u64_key (v : Z) : list Z := le_bytes 8 v.

Arguments u32_key : simpl never.
Arguments u64_key : simpl never.

Definition string_key (s : option string) : list Z :=
  match s with
  | None => u64_key (2 ^ 64 - 1)
  | Some s => u64_key (Z.of_nat (String.length s)) ++ string_bytes s
  end.

Definition leaf_key (l : leaf) : list Z :=
  match l with
  | LAny => u32_key 0
  | LMain => u32_key 1
  | LPath p => u32_key 2 ++ string_key p
  | LUuid u => u32_key 3 ++ u
  | LHeader h => u32_key 4 ++ u64_key h
  | LOther k => u32_key k
  end.

Definition blobs_key (blobs : list (list Z)) : list Z :=
  u64_key (Z.of_nat (length blobs)) ++
  concat ((λ b, u64_key (Z.of_nat (length b)) ++ b) <$> blobs).

Definition view_key (v : view) : list Z :=
  match v with
  | VLeaf l => leaf_key l
  | VSet ls => u32_key 5 ++ blobs_key (unique_blobs None (sort_blobs (leaf_key <$> ls)))
  end.

Definition pointer_or_name_key (c : Z + option string) : list Z :=
  match c with inl p => 1 :: u64_key p | inr name => 0 :: string_key name end.

Definition identity_key (i : identity) : list Z :=
  match i with
  | IdSymbol name convention alias interior defining caller =>
      u32_key 0 ++ string_key name ++ u32_key convention ++ u32_key alias ++
      Z.b2z interior :: view_key defining ++ view_key caller
  | IdAddress a => u32_key 1 ++ u64_key a
  | IdObjc cls sel kind =>
      u32_key 2 ++ pointer_or_name_key cls ++ pointer_or_name_key sel ++ u32_key kind
  | IdMemory a n base =>
      u32_key 3 ++ u64_key a ++
      match base with
      | None => 0 :: u64_key n
      | Some v => 1 :: u64_key n ++ view_key v
      end
  | IdOther k => u32_key k
  end.

(** *** Values of the widths the C types have *)

Definition is_byte (z : Z) : Prop := 0 <= z < 256.
Definition wf_string (s : option string) : Prop :=
  match s with Some s => Z.of_nat (String.length s) < 2 ^ 64 - 1 | None => True end.

Definition wf_leaf (l : leaf) : Prop :=
  match l with
  | LAny | LMain => True
  | LPath p => wf_string p
  | LUuid u => length u = 16%nat
  | LHeader h => is_u64 h
  | LOther k => 6 <= k < 2 ^ 32
  end.

Definition wf_view (v : view) : Prop :=
  match v with
  | VLeaf l => wf_leaf l
  | VSet ls => Forall wf_leaf ls ∧ Z.of_nat (length ls) < 2 ^ 64 ∧
      Forall (λ l, Z.of_nat (length (leaf_key l)) < 2 ^ 64) ls
  end.

Definition wf_pointer_or_name (c : Z + option string) : Prop :=
  match c with inl p => is_u64 p | inr n => wf_string n end.

Definition wf_identity (i : identity) : Prop :=
  match i with
  | IdSymbol n c a _ d s => wf_string n ∧ is_u32 c ∧ is_u32 a ∧ wf_view d ∧ wf_view s
  | IdAddress a => is_u64 a
  | IdObjc c s k => wf_pointer_or_name c ∧ wf_pointer_or_name s ∧ is_u32 k
  | IdMemory a n b => is_u64 a ∧ is_u64 n ∧ match b with Some v => wf_view v | None => True end
  | IdOther k => 4 <= k < 2 ^ 32
  end.

End Canonical.

(** ** Byte strings: order and self-delimiting fields *)
Section Blobs.

Lemma key_blob_compare_cons x a y b :
  key_blob_compare (x :: a) (y :: b) =
  if x =? y then key_blob_compare a b else if x <? y then -1 else 1.
Proof.
  unfold key_blob_compare. cbn [memcmp length]. destruct (Z.eqb_spec x y); [done|].
  by destruct (x <? y).
Qed.

Lemma key_blob_compare_nil_l b : key_blob_compare [] b = if decide (b = []) then 0 else -1.
Proof. by destruct b. Qed.
Lemma key_blob_compare_nil_r a : key_blob_compare a [] = if decide (a = []) then 0 else 1.
Proof. by destruct a. Qed.

Lemma key_blob_compare_0 a b : key_blob_compare a b = 0 ↔ a = b.
Proof.
  revert b. induction a as [|x a IH]; intros [|y b]; try done.
  rewrite key_blob_compare_cons. destruct (Z.eqb_spec x y) as [->|Hn].
  - rewrite IH. split; [by intros ->|by intros [= ->]].
  - destruct (x <? y); split; try done; congruence.
Qed.

Lemma key_blob_compare_opp a b : key_blob_compare b a = - key_blob_compare a b.
Proof.
  revert b. induction a as [|x a IH]; intros [|y b]; try done.
  rewrite !key_blob_compare_cons, (Z.eqb_sym y x). destruct (Z.eqb_spec x y); [done|].
  destruct (Z.ltb_spec x y), (Z.ltb_spec y x); lia.
Qed.

Lemma key_blob_compare_trans a b c :
  key_blob_compare a b <= 0 → key_blob_compare b c <= 0 → key_blob_compare a c <= 0.
Proof.
  revert b c. induction a as [|x a IH]; intros [|y b] [|z c]; try done.
  rewrite !key_blob_compare_cons.
  destruct (Z.eqb_spec x y), (Z.eqb_spec y z), (Z.eqb_spec x z),
    (Z.ltb_spec x y), (Z.ltb_spec y z), (Z.ltb_spec x z); try lia.
  apply IH.
Qed.

#[local] Instance key_blob_le_trans : Transitive key_blob_le.
Proof. intros a b c. apply key_blob_compare_trans. Qed.

#[local] Instance key_blob_le_total : Total key_blob_le.
Proof. intros a b. unfold key_blob_le. rewrite (key_blob_compare_opp a b). lia. Qed.

#[local] Instance key_blob_le_antisym : AntiSymm (=) key_blob_le.
Proof.
  intros a b. unfold key_blob_le. rewrite (key_blob_compare_opp a b). intros ? ?.
  apply key_blob_compare_0. lia.
Qed.

Lemma unique_blobs_sorted x l :
  StronglySorted key_blob_le (x :: l) →
  let u := x :: unique_blobs (Some x) l in
  (∀ b, b ∈ u ↔ b ∈ x :: l) ∧ NoDup u ∧ StronglySorted key_blob_le u.
Proof.
  revert x. induction l as [|y l IH]; intros x Hs; cbn [unique_blobs].
  { split_and!; [done|apply NoDup_singleton|done]. }
  inversion Hs as [|?? Hs' Hx]; subst. inversion Hx as [|?? Hxy Hxl]; subst.
  inversion Hs' as [|?? Hsl Hyl]; subst.
  destruct (Z.eqb_spec (key_blob_compare x y) 0) as [E|E].
  - apply key_blob_compare_0 in E as <-. destruct (IH x) as (H1 & H2 & H3); [done|].
    split_and!; [|done..]. intros b. rewrite (H1 b), !elem_of_cons. tauto.
  - destruct (IH y Hs') as (H1 & H2 & H3).
    assert (Hle : ∀ b, b ∈ y :: unique_blobs (Some y) l → key_blob_le x b).
    { intros b. rewrite H1, elem_of_cons. intros [->|Hb]; [done|].
      rewrite Forall_forall in Hxl. by apply Hxl. }
    split_and!.
    + intros b. rewrite (elem_of_cons _ b x), (H1 b), (elem_of_cons _ b x). done.
    + apply NoDup_cons. split; [|done]. rewrite H1, elem_of_cons. intros [->|Hb].
      * apply E. by apply key_blob_compare_0.
      * rewrite Forall_forall in Hyl. specialize (Hyl _ Hb).
        apply E, key_blob_compare_0. by apply (anti_symm key_blob_le).
    + constructor; [done|]. by apply Forall_forall.
Qed.

Definition canonical_blobs (l : list (list Z)) : list (list Z) :=
  unique_blobs None (sort_blobs l).

Lemma canonical_blobs_spec l :
  (∀ b, b ∈ canonical_blobs l ↔ b ∈ l) ∧ NoDup (canonical_blobs l) ∧
  StronglySorted key_blob_le (canonical_blobs l).
Proof.
  unfold canonical_blobs, sort_blobs.
  pose proof (merge_sort_Permutation key_blob_le l) as Hp.
  pose proof (StronglySorted_merge_sort key_blob_le l) as Hs.
  destruct (merge_sort key_blob_le l) as [|x s]; cbn [unique_blobs].
  - apply Permutation_nil in Hp as ->. split_and!; [done|constructor|constructor].
  - destruct (unique_blobs_sorted x s Hs) as (H1 & H2 & H3). split_and!; [|done..].
    intros b. rewrite (H1 b). by rewrite Hp.
Qed.

(** The canonical array is a function of the set of keys. *)
Lemma canonical_blobs_ext l1 l2 :
  (∀ b, b ∈ l1 ↔ b ∈ l2) → canonical_blobs l1 = canonical_blobs l2.
Proof.
  intros H. destruct (canonical_blobs_spec l1) as (E1 & N1 & S1).
  destruct (canonical_blobs_spec l2) as (E2 & N2 & S2).
  apply (StronglySorted_unique key_blob_le); [done..|].
  apply NoDup_Permutation; [done..|]. intros b. by rewrite E1, E2.
Qed.
End Blobs.

Lemma length_le_bytes n v : length (le_bytes n v) = n.
Proof. revert v. induction n; intros v; cbn; [done|]. by rewrite IHn. Qed.

Lemma le_bytes_inj n v w :
  0 <= v < 256 ^ Z.of_nat n → 0 <= w < 256 ^ Z.of_nat n → le_bytes n v = le_bytes n w → v = w.
Proof.
  revert v w. induction n as [|n IH]; intros v w; [cbn; lia|].
  rewrite Nat2Z.inj_succ, Z.pow_succ_r by lia. intros Hv Hw H. cbn in H.
  injection H as H1 H2. apply IH in H2.
  - rewrite (Z.div_mod v 256), (Z.div_mod w 256) by lia. lia.
  - split; [apply Z.div_pos; lia|apply Z.div_lt_upper_bound; lia].
  - split; [apply Z.div_pos; lia|apply Z.div_lt_upper_bound; lia].
Qed.

Lemma app_split {A} (a b r s : list A) : length a = length b → a ++ r = b ++ s → a = b ∧ r = s.
Proof. intros Hl H. by apply app_inj_1 in H. Qed.

Lemma u32_key_split v w r s :
  is_u32 v → is_u32 w → Canonical.u32_key v ++ r = Canonical.u32_key w ++ s → v = w ∧ r = s.
Proof.
  intros Hv Hw H. apply app_split in H as [H ->]; [|exact (eq_trans (length_le_bytes _ _) (eq_sym (length_le_bytes _ _)))].
  split; [|done]. by apply le_bytes_inj in H.
Qed.

Lemma u64_key_split v w r s :
  is_u64 v → is_u64 w → Canonical.u64_key v ++ r = Canonical.u64_key w ++ s → v = w ∧ r = s.
Proof.
  intros Hv Hw H. apply app_split in H as [H ->]; [|exact (eq_trans (length_le_bytes _ _) (eq_sym (length_le_bytes _ _)))].
  split; [|done]. by apply le_bytes_inj in H.
Qed.

Lemma length_string_bytes s : length (string_bytes s) = String.length s.
Proof. unfold string_bytes. rewrite length_fmap. induction s; cbn; [done|]. by rewrite IHs. Qed.

Lemma string_bytes_inj s t : string_bytes s = string_bytes t → s = t.
Proof.
  revert t. induction s as [|a s IH]; intros [|b t]; try done.
  unfold string_bytes. cbn. intros H. injection H as H1 H2.
  apply (inj Z.of_N) in H1. f_equal; [|by apply IH].
  apply (f_equal Ascii.ascii_of_N) in H1. by rewrite !Ascii.ascii_N_embedding in H1.
Qed.

Import Canonical.

Lemma string_key_split s t r q :
  wf_string s → wf_string t → string_key s ++ r = string_key t ++ q → s = t ∧ r = q.
Proof.
  destruct s as [s|], t as [t|]; cbn; rewrite <- ?app_assoc; intros Hs Ht H;
    apply u64_key_split in H as [E H]; try (unfold is_u64; lia).
  - apply app_split in H as [H ->]; [|rewrite !length_string_bytes; lia].
    by apply string_bytes_inj in H as ->.
  - done.
Qed.

Lemma leaf_key_split l m r q :
  wf_leaf l → wf_leaf m → leaf_key l ++ r = leaf_key m ++ q → l = m ∧ r = q.
Proof.
  intros Hl Hm H.
  destruct l, m; cbn in Hl, Hm; cbn [leaf_key] in H; rewrite <- ?app_assoc in H;
    apply u32_key_split in H as [E H]; try (unfold is_u32; lia); try lia.
  - done.
  - done.
  - by apply string_key_split in H as [-> ->].
  - apply app_split in H as [-> ->]; [done|by rewrite Hl, Hm].
  - by apply u64_key_split in H as [-> ->].
  - by subst.
Qed.

Lemma leaf_key_inj l m : wf_leaf l → wf_leaf m → leaf_key l = leaf_key m → l = m.
Proof.
  intros Hl Hm H. apply (f_equal (λ k, k ++ [])) in H. by apply leaf_key_split in H as [-> _].
Qed.

Lemma blobs_key_split bs cs r q :
  Z.of_nat (length bs) < 2 ^ 64 → Z.of_nat (length cs) < 2 ^ 64 →
  Forall (λ b, Z.of_nat (length b) < 2 ^ 64) bs → Forall (λ b, Z.of_nat (length b) < 2 ^ 64) cs →
  blobs_key bs ++ r = blobs_key cs ++ q → bs = cs ∧ r = q.
Proof.
  intros Hb Hc Fb Fc H. unfold blobs_key in H. rewrite <- !app_assoc in H.
  apply u64_key_split in H as [E H]; [|unfold is_u64; lia..].
  apply (inj Z.of_nat) in E. clear Hb Hc. revert cs E Fc H.
  induction bs as [|b bs IH]; intros [|c cs] E Fc H; try done.
  cbn in H. rewrite <- !app_assoc in H. inversion Fb; inversion Fc; subst.
  apply u64_key_split in H as [El H]; [|unfold is_u64; lia..].
  apply app_split in H as [-> H]; [|lia]. injection E as E.
  by apply IH in H as [-> ->].
Qed.

Lemma view_key_VSet ls : view_key (VSet ls) = u32_key 5 ++ blobs_key (canonical_blobs (leaf_key <$> ls)).
Proof. done. Qed.

Lemma elem_of_leaf_keys ls m :
  Forall wf_leaf ls → wf_leaf m → leaf_key m ∈ leaf_key <$> ls ↔ m ∈ ls.
Proof.
  intros Hl Hm. rewrite list_elem_of_fmap. split; [|intros H; by exists m].
  intros (l & E & H). rewrite Forall_forall in Hl.
  apply leaf_key_inj in E as ->; [done|done|by apply Hl].
Qed.

Lemma elem_of_canonical_blobs l b : b ∈ canonical_blobs l ↔ b ∈ l.
Proof. apply (proj1 (canonical_blobs_spec l)). Qed.

Lemma canonical_blobs_length l : (length (canonical_blobs l) ≤ length l)%nat.
Proof.
  destruct (canonical_blobs_spec l) as (E & N & _).
  apply submseteq_length, NoDup_submseteq; [done|]. intros b. by rewrite E.
Qed.

Lemma view_key_split v w r q :
  wf_view v → wf_view w → view_key v ++ r = view_key w ++ q → same_view v w ∧ r = q.
Proof.
  intros Hv Hw H. destruct v as [l|ls], w as [m|ms].
  - by apply leaf_key_split in H as [-> ->].
  - exfalso. rewrite view_key_VSet in H. cbn [view_key] in H.
    cbn in Hv. destruct l; cbn in Hv; cbn [leaf_key] in H; rewrite <- ?app_assoc in H;
      apply u32_key_split in H as [E H]; unfold is_u32; lia.
  - exfalso. rewrite view_key_VSet in H. cbn [view_key] in H.
    cbn in Hw. destruct m; cbn in Hw; cbn [leaf_key] in H; rewrite <- ?app_assoc in H;
      apply u32_key_split in H as [E H]; unfold is_u32; lia.
  - destruct Hv as (Fl & Nl & Ll), Hw as (Fm & Nm & Lm).
    rewrite !view_key_VSet, <- !app_assoc in H.
    apply u32_key_split in H as [_ H]; [|by split..].
    assert (Hf : ∀ ls, Forall (λ l, Z.of_nat (length (leaf_key l)) < 2 ^ 64) ls →
      Forall (λ b, Z.of_nat (length b) < 2 ^ 64) (canonical_blobs (leaf_key <$> ls))).
    { intros ks Hk. apply Forall_forall. intros b Hb.
      rewrite elem_of_canonical_blobs in Hb.
      apply list_elem_of_fmap in Hb as (k & -> & Hk'). by apply (proj1 (Forall_forall _ _) Hk). }
    apply blobs_key_split in H as [E ->].
    + split; [|done]. intros l.
      assert (Hin : ∀ k, k ∈ leaf_key <$> ls ↔ k ∈ leaf_key <$> ms).
      { intros k. rewrite <- !(elem_of_canonical_blobs (leaf_key <$> _)). by rewrite E. }
      split; intros Hl.
      * apply (elem_of_leaf_keys ms l Fm); [by apply (proj1 (Forall_forall _ _) Fl)|].
        apply Hin. apply list_elem_of_fmap. by exists l.
      * apply (elem_of_leaf_keys ls l Fl); [by apply (proj1 (Forall_forall _ _) Fm)|].
        apply Hin. apply list_elem_of_fmap. by exists l.
    + pose proof (canonical_blobs_length (leaf_key <$> ls)). rewrite length_fmap in *. lia.
    + pose proof (canonical_blobs_length (leaf_key <$> ms)). rewrite length_fmap in *. lia.
    + by apply Hf.
    + by apply Hf.
Qed.

Lemma view_key_ext v w : same_view v w → view_key v = view_key w.
Proof.
  destruct v as [l|ls], w as [m|ms]; cbn [same_view]; try done; [by intros ->|].
  intros H. rewrite !view_key_VSet. do 2 f_equal. apply canonical_blobs_ext.
  intros b. rewrite !list_elem_of_fmap. split; intros (l & ? & ?); exists l; (split; [done|by apply H]).
Qed.

Lemma cons_split {A} (x y : A) r q : x :: r = y :: q → x = y ∧ r = q.
Proof. by intros [= -> ->]. Qed.

Lemma pointer_or_name_split c d r q :
  wf_pointer_or_name c → wf_pointer_or_name d →
  pointer_or_name_key c ++ r = pointer_or_name_key d ++ q → c = d ∧ r = q.
Proof.
  destruct c as [p|n], d as [p'|n']; cbn; intros Hc Hd H;
    apply cons_split in H as [E H]; try done.
  - by apply u64_key_split in H as [-> ->].
  - by apply string_key_split in H as [-> ->].
Qed.

Lemma identity_key_inj i j :
  wf_identity i → wf_identity j → identity_key i = identity_key j → same_identity i j.
Proof.
  intros Hi Hj H. apply (f_equal (λ k, k ++ [])) in H.
  destruct i, j; cbn in Hi, Hj; cbn [identity_key same_identity] in H |- *;
    rewrite <- ?app_assoc in H; try (rewrite <- ?app_comm_cons in H);
    apply u32_key_split in H as [E H]; try (unfold is_u32; lia); try lia.
  - destruct Hi as (Hn & Hc & Ha & Hd & Hs), Hj as (Hn' & Hc' & Ha' & Hd' & Hs').
    apply string_key_split in H as [-> H]; [|done..].
    apply u32_key_split in H as [-> H]; [|done..].
    apply u32_key_split in H as [-> H]; [|done..].
    rewrite <- ?app_comm_cons, <- ?app_assoc in H. apply cons_split in H as [Hb H].
    apply view_key_split in H as [Hv H]; [|done..].
    apply view_key_split in H as [Hw _]; [|done..].
    split_and!; try done. by destruct interior, interior0.
  - by apply u64_key_split in H as [-> _].
  - destruct Hi as (Hc & Hs & Hk), Hj as (Hc' & Hs' & Hk').
    apply pointer_or_name_split in H as [-> H]; [|done..].
    apply pointer_or_name_split in H as [-> H]; [|done..].
    by apply u32_key_split in H as [-> _].
  - destruct Hi as (Ha & Hn & Hb), Hj as (Ha' & Hn' & Hb').
    apply u64_key_split in H as [-> H]; [|done..].
    destruct base as [v|], base0 as [w|]; cbn in H; rewrite <- ?app_assoc in H;
      apply cons_split in H as [E' H]; try done; apply u64_key_split in H as [-> H]; try done.
    by apply view_key_split in H as [? _].
Qed.

Lemma identity_key_ext i j : same_identity i j → identity_key i = identity_key j.
Proof.
  destruct i, j; cbn [same_identity identity_key]; try done.
  - intros (-> & -> & -> & -> & Hd & Hc). by rewrite (view_key_ext _ _ Hd), (view_key_ext _ _ Hc).
  - by intros ->.
  - by intros (-> & -> & ->).
  - intros (-> & -> & Hb). destruct base, base0; try done. by rewrite (view_key_ext _ _ Hb).
  - by intros ->.
Qed.

(** ** The builder computes the canonical key *)
Import Build.

(** When [m] succeeds it has appended [k]; with [None] it never succeeds. *)
Definition builds (m : M builder bool) (k : option (list Z)) : Prop :=
  ∀ b, (m b).1 = true → match k with
                        | Some k => kb_data (m b).2 = kb_data b ++ k
                        | None => False
                        end.

Lemma builds_append data : builds (key_append data) (Some data).
Proof.
  intros b. unfold key_append. destruct (_ <? size data); [done|].
  destruct (kb_capacity b <? _); [|done]. by destruct (alloc (kb_heap b)) as [[] h].
Qed.

Lemma builds_and_then m n k l :
  builds m (Some k) → builds n l → builds (and_then m n) (app k <$> l).
Proof.
  intros Hm Hn b. unfold and_then, bind. specialize (Hm b). destruct (m b) as [[] b1]; [|done].
  cbn in Hm. specialize (Hm eq_refl). intros H. specialize (Hn b1 H).
  destruct l as [l|]; [|done]. cbn. by rewrite Hn, Hm, <- app_assoc.
Qed.

Lemma builds_and_then_some m n k l :
  builds m (Some k) → builds n (Some l) → builds (and_then m n) (Some (k ++ l)).
Proof. apply builds_and_then. Qed.

Lemma builds_ret : builds (ret true) (Some []).
Proof. intros b _. cbn. by rewrite app_nil_r. Qed.

Create HintDb builds.
#[export] Hint Resolve builds_append builds_and_then_some builds_ret : builds.

Lemma builds_string s : builds (key_string s) (Some (string_key s)).
Proof. destruct s; cbn; unfold key_u64; auto with builds. Qed.

Lemma builds_leaf kind extra :
  kind ≠ HK_IMAGE_EXPLICIT_SET →
  builds (key_selector_leaf kind extra) (Some (leaf_key (leaf_of kind extra))).
Proof.
  intros Hk. pose proof builds_string.
  destruct kind; cbn; unfold key_u32, key_u64; auto with builds; congruence.
Qed.

Lemma builds_children cs :
  builds (key_children cs) (Some (concat ((λ b, u64_key (Z.of_nat (length b)) ++ b) <$> cs))).
Proof.
  induction cs as [|c cs IH]; cbn; [apply builds_ret|]. rewrite <- app_assoc.
  unfold key_u64. auto with builds.
Qed.

(** What a successful collection leaves in the array. *)
Definition collects (m : M blobs bool) (ls : option (list leaf)) : Prop :=
  ∀ b, (m b).1 = true → match ls with
                        | Some ls => bl_items (m b).2 = bl_items b ++ (leaf_key <$> ls)
                        | None => False
                        end.

Lemma key_blob_append_items key b :
  (key_blob_append key b).1 = true →
  bl_items (key_blob_append key b).2 = bl_items b ++ [key].
Proof.
  unfold key_blob_append. destruct (_ =? bl_capacity b); [|done].
  destruct (_ || _); [done|]. by destruct (alloc (bl_heap b)) as [[] h].
Qed.

Lemma collects_leaf kind extra :
  kind ≠ HK_IMAGE_EXPLICIT_SET →
  collects (built <- run_builder (key_selector_leaf kind extra) ;;
            if built.1 then key_blob_append built.2 else ret false)
           (Some [leaf_of kind extra]).
Proof.
  intros Hk b. pose proof (builds_leaf kind extra Hk (Builder (bl_heap b) [] 0)) as Hl.
  unfold bind, run_builder. destruct (key_selector_leaf _ _ _) as [[] kb]; [|done].
  cbn in Hl |- *. specialize (Hl eq_refl). intros H. rewrite (key_blob_append_items _ _ H).
  cbn. by rewrite Hl.
Qed.

Lemma collects_selector s depth : collects (key_selector_collect s depth) (leaves s depth).
Proof.
  revert s depth. fix IH 1. intros [kind extra set] depth.
  cbn [key_selector_collect leaves].
  destruct (_ <? depth); [done|].
  destruct kind; try (by apply collects_leaf).
  destruct set as [count|elems].
  { intros b. unfold ret. cbn. destruct (0 <? count); [done|]. cbn. by rewrite app_nil_r. }
  induction elems as [|[child|] rest IHrest]; cbn [collect_children children_leaves].
  - intros b _. cbn. by rewrite app_nil_r.
  - intros b. unfold bind. pose proof (IH child (depth + 1) b) as Hc. clear IH.
    destruct (key_selector_collect child (depth + 1) b) as [[] b1]; [|done].
    cbn [fst snd] in Hc. specialize (Hc eq_refl).
    destruct (leaves child (depth + 1)) as [l|]; [|done].
    intros H. specialize (IHrest b1 H). cbn [mbind option_bind].
    destruct (children_leaves _ rest) as [ls|]; [|done]. cbn [mbind option_bind].
    by rewrite IHrest, Hc, fmap_app, <- app_assoc.
  - done.
Qed.

Lemma builds_set children :
  builds (and_then (key_u32 (image_selector_kind_code HK_IMAGE_EXPLICIT_SET))
            (and_then (key_u64 (Z.of_nat (length children))) (key_children children)))
    (Some (u32_key 5 ++ blobs_key children)).
Proof. pose proof (builds_children children). unfold key_u32, key_u64, blobs_key. auto with builds. Qed.

Lemma builds_selector s :
  builds (key_selector (Some s) 0) (view_key <$> selector_view s).
Proof.
  unfold key_selector. change (HK_OWNERSHIP_MAX_IMAGE_SELECTOR_DEPTH <? 0) with false.
  cbv iota. unfold selector_view.
  destruct (sel_kind s) eqn:Ek; try (by apply (builds_leaf _ (sel_extra s))).
  intros b. pose proof (collects_selector s 0 (Blobs (kb_heap b) [] 0)) as Hc.
  destruct (key_selector_collect s 0 _) as [[] bl]; [|done].
  cbn [fst snd bl_items] in Hc. specialize (Hc eq_refl).
  destruct (leaves s 0) as [ls|]; [|done]. cbn [app] in Hc. cbn [fmap option_fmap option_map].
  rewrite Hc. rewrite view_key_VSet. fold (canonical_blobs (leaf_key <$> ls)).
  intros H. by rewrite (builds_set _ _ H).
Qed.

Lemma builds_pointer_or_name p name :
  builds (and_then (key_u8 (negb (p =? 0)))
            (if negb (p =? 0) then key_u64 p else key_string name))
    (Some (pointer_or_name_key (pointer_or_name p name))).
Proof.
  unfold key_u8, key_u64, pointer_or_name. pose proof (builds_string name).
  destruct (p =? 0); cbn [negb pointer_or_name_key].
  - apply (builds_and_then_some _ _ [0]); auto with builds.
  - apply (builds_and_then_some _ _ [1]); unfold u64_key; auto with builds.
Qed.

Definition app_opt (k l : option (list Z)) : option (list Z) := k ← k; app k <$> l.

Lemma builds_seq m n k l : builds m k → builds n l → builds (and_then m n) (app_opt k l).
Proof.
  destruct k as [k|]; [apply builds_and_then|].
  intros Hm _ b. unfold and_then, bind. specialize (Hm b).
  destruct (m b) as [[] b1]; [by destruct (Hm eq_refl)|done].
Qed.

Lemma builds_eq m k l : builds m k → k = l → builds m l.
Proof. by intros ? <-. Qed.

Lemma and_then_assoc a b c s : and_then (and_then a b) c s = and_then a (and_then b c) s.
Proof. unfold and_then, bind. destruct (a s) as [[] s1]; [|done]. by destruct (b s1) as [[] s2]. Qed.

Lemma builds_assoc a b c k : builds (and_then (and_then a b) c) k → builds (and_then a (and_then b c)) k.
Proof. intros H s. rewrite <- and_then_assoc. apply H. Qed.

#[export] Hint Resolve builds_seq builds_string builds_selector builds_pointer_or_name : builds.

Section Keys.
Context (pac_strip_code : Z → Z).

Lemma builds_target spec :
  builds (key_target pac_strip_code (Some spec))
    (identity_key <$> target_identity pac_strip_code (hs_target spec)).
Proof.
  unfold key_target. destruct (hs_target spec) as [t|t|t|t| |k];
    cbn [target_kind hk_target_kind_code target_identity].
  - eapply builds_eq.
    { repeat (eapply builds_seq; [first [apply builds_append|apply builds_string|apply builds_selector]|]).
      apply builds_selector. }
    destruct (selector_view (sy_defining_image t)), (selector_view (sy_caller_image_scope t)); done.
  - eapply builds_eq; [by apply builds_seq; apply builds_append|done].
  - eapply builds_eq.
    { eapply builds_seq; [apply builds_append|]. apply builds_assoc.
      eapply builds_seq; [apply builds_pointer_or_name|]. apply builds_assoc.
      eapply builds_seq; [apply builds_pointer_or_name|apply builds_append]. }
    done.
  - destruct (me_address_is_image_relative t); cbn [negb].
    + eapply builds_eq.
      { repeat (eapply builds_seq; [apply builds_append|]). apply builds_selector. }
      destruct (selector_view (me_base_image t)); [|done]. cbn. by rewrite <- ?app_assoc.
    + eapply builds_eq.
      { repeat (eapply builds_seq; [apply builds_append|]). apply builds_ret. }
      done.
  - eapply builds_eq; [by apply builds_seq; [apply builds_append|apply builds_ret]|]. done.
  - eapply builds_eq; [by apply builds_seq; [apply builds_append|apply builds_ret]|]. done.
Qed.

Lemma target_key_built spec h k h' :
  hk_ownership_target_key_copy pac_strip_code (Some spec) h = (Some k, h') →
  ∃ i, target_identity pac_strip_code (hs_target spec) = Some i ∧ k = identity_key i.
Proof.
  unfold hk_ownership_target_key_copy. intros H.
  pose proof (builds_target spec (Builder h [] 0)) as Hb.
  destruct (key_target _ _ _) as [[] b]; [|done]. injection H as <- <-.
  cbn [fst snd kb_data] in Hb. specialize (Hb eq_refl).
  destruct (target_identity _ _) as [i|]; [|done]. exists i. split; [done|]. exact Hb.
Qed.

(** C8.  The ownership key identifies the target: whatever allocations fail on
    the way, a key that is built is the canonical encoding of the identity of
    the target, and two hooks get the same bytes exactly when their targets
    are the same one (image sets compared as sets of their flattened members).
    A target whose selectors are malformed gets no key. *)
Theorem target_key_identifies spec1 spec2 h1 h2 k1 k2 h1' h2' :
  hk_ownership_target_key_copy pac_strip_code (Some spec1) h1 = (Some k1, h1') →
  hk_ownership_target_key_copy pac_strip_code (Some spec2) h2 = (Some k2, h2') →
  ∃ i1 i2,
    target_identity pac_strip_code (hs_target spec1) = Some i1 ∧
    target_identity pac_strip_code (hs_target spec2) = Some i2 ∧
    (wf_identity i1 → wf_identity i2 → k1 = k2 ↔ same_identity i1 i2).
Proof.
  intros H1 H2. apply target_key_built in H1 as (i1 & E1 & ->).
  apply target_key_built in H2 as (i2 & E2 & ->). exists i1, i2. split_and!; [done..|].
  intros W1 W2. split; [by apply identity_key_inj|apply identity_key_ext].
Qed.
End Keys.

(** Two spellings of one explicit set: nested and repeated against flat. *)
Definition demo_path (p : string) : option image_selector :=
  Some (Selector HK_IMAGE_EXACT_PATH (SelectorExtra (Some p) zero_uuid 0) (SetNull 0)).
Definition demo_set (elems : list (option image_selector)) : image_selector :=
  Selector HK_IMAGE_EXPLICIT_SET (SelectorExtra None zero_uuid 0) (SetArray elems).
Definition demo_memory (base : image_selector) : hk_hook_spec :=
  HookSpec SIZEOF_HOOK_SPEC (Some "h")
    (TMemory (MemoryTarget 0x40 true base (Bytes [1]) (Bytes [0]) (BytesNull 0) 1 0))
    0x9000 0 0 HK_ORIGINAL_NONE HK_CONTINUATION_ANY 0 HK_AVAILABILITY_REQUIRED_NOW
    HK_OPERATION_OPTIONAL 0 0 (AfterNull 0).
Definition demo_nested : hk_hook_spec :=
  demo_memory (demo_set [demo_path "/b"; Some (demo_set [demo_path "/a"; demo_path "/b"])]).
Definition demo_flat : hk_hook_spec := demo_memory (demo_set [demo_path "/a"; demo_path "/b"]).
Definition demo_heap : heap := Heap (λ _, false) 0 0x1000.

Lemma target_key_identifies_witness :
  ∃ k, (hk_ownership_target_key_copy (λ a, a) (Some demo_nested) demo_heap).1 = Some k ∧
       (hk_ownership_target_key_copy (λ a, a) (Some demo_flat) demo_heap).1 = Some k.
Proof.
  destruct (hk_ownership_target_key_copy (λ a, a) (Some demo_nested) demo_heap)
    as [[k1|] h1] eqn:E1; [|vm_compute in E1; discriminate].
  destruct (hk_ownership_target_key_copy (λ a, a) (Some demo_flat) demo_heap)
    as [[k2|] h2] eqn:E2; [|vm_compute in E2; discriminate].
  destruct (target_key_identifies (λ a, a) demo_nested demo_flat _ _ _ _ _ _ E1 E2)
    as (i1 & i2 & I1 & I2 & H).
  exists k1. split; [done|]. cbn [fst]. f_equal. symmetry.
  vm_compute in I1, I2. injection I1 as <-. injection I2 as <-.
  apply H.
  - cbn. unfold is_u64. split_and!; try lia. 
    all: repeat (constructor; [reflexivity|]); constructor.
  - cbn. unfold is_u64. split_and!; try lia.
    all: repeat (constructor; [reflexivity|]); constructor.
  - cbn. split_and!; [done|done|]. intros l. rewrite !elem_of_cons. tauto.
Defined.

(** ** The ledger *)
Import Ledger.

Lemma find_record_cons k r rs :
  find_record k (r :: rs) = if decide (o_key r = k) then Some r else find_record k rs.
Proof.
  unfold find_record. cbn [list_find]. destruct (decide (o_key r = k)); [done|].
  by destruct (list_find _ rs) as [[]|].
Qed.

Lemma find_update k k' r p rs :
  find_record k' (update_record k r p rs) =
  if decide (k' = k)
  then (λ x, x <| o_head_replacement := r |> <| o_predecessor := p |>) <$> find_record k rs
  else find_record k' rs.
Proof.
  induction rs as [|x rs IH]; cbn [update_record]; [by case_decide|].
  destruct (decide (o_key x = k)) as [<-|Hx]; rewrite !find_record_cons.
  - cbn [set_field o_key]. repeat case_decide; try done; congruence.
  - rewrite IH. repeat case_decide; try done; congruence.
Qed.

(** The record a successful call leaves for its key. *)
Lemma record_locked_head key engine r p h rs h' rs' :
  hk_ownership_record_locked key engine r p (h, rs) = (true, (h', rs')) →
  ∃ x, find_record key rs' = Some x ∧ o_head_replacement x = r ∧ o_predecessor x = p.
Proof.
  unfold hk_ownership_record_locked. destruct (find_record key rs) as [x|] eqn:E.
  { intros [= _ <-]. rewrite find_update, decide_True, E by done. by eexists. }
  destruct (alloc h) as [[] h1]; cbn [negb]; [|done].
  destruct (alloc h1) as [[] h2]; cbn [negb]; [|done].
  destruct (match engine with Some _ => _ | None => _ end) as [[] h3]; cbn [negb]; [|done].
  intros [= _ <-]. rewrite find_record_cons, decide_True by done. by eexists.
Qed.

(** Recording an owner: on success the key's state is the new head and
    predecessor under the engine that owned the key first (or the given one
    for a new key), every other key's state is unchanged, and a failure (only
    possible for a new key) leaves the whole ledger unchanged. *)
Theorem ownership_record_spec key engine r p h rs :
  let '(ok, (h', rs')) := hk_ownership_record_locked key engine r p (h, rs) in
  if ok then
    hk_ownership_lookup_locked key rs' =
      State true r p (if os_present (hk_ownership_lookup_locked key rs)
                      then os_engine_id (hk_ownership_lookup_locked key rs) else engine) ∧
    ∀ key', key' ≠ key →
      hk_ownership_lookup_locked key' rs' = hk_ownership_lookup_locked key' rs
  else rs' = rs ∧ os_present (hk_ownership_lookup_locked key rs) = false.
Proof.
  unfold hk_ownership_record_locked, hk_ownership_lookup_locked.
  destruct (find_record key rs) as [x|] eqn:E.
  { split; [by rewrite find_update, decide_True, E by done|].
    intros key' Hk. by rewrite find_update, decide_False. }
  assert (Hnew : ∀ x, o_key x = key → find_record key (x :: rs) = Some x ∧
    ∀ key', key' ≠ key → find_record key' (x :: rs) = find_record key' rs).
  { intros x <-. split; [by rewrite find_record_cons, decide_True|].
    intros key' Hk. by rewrite find_record_cons, decide_False. }
  destruct (Hnew (Record_ key engine r p) eq_refl) as [H1 H2].
  destruct (alloc h) as [[] h1]; cbn [negb]; [|done].
  destruct (alloc h1) as [[] h2]; cbn [negb]; [|done].
  destruct engine as [e|].
  - destruct (alloc h2) as [[] h3]; cbn [negb]; [|done]. rewrite H1. split; [done|].
    intros key' Hk. by rewrite H2.
  - cbn [negb]. rewrite H1. split; [done|]. intros key' Hk. by rewrite H2.
Qed.
