(* ===== verification/ImageCatalog.v ===== *)
(** * The image catalog and the image-scope checks
    (src/core/HKImageCatalog.c, src/core/HKImageScope.c)

    The catalog is the ordered list of loaded images a runtime knows, with a
    generation that every addition bumps.  Selector matching folds a visitor
    over the matching entries; the scope checks are two such visitors. *)

From stdpp Require Import base list strings gmap numbers.
From S2P Require Import Prelude Types Ownership.

(** ** The catalog *)

Record hk_image_entry : Type := ImageEntry {
  ie_path : option string;
  ie_uuid : option (list Z);
  ie_header : Z;
  ie_slide : Z;
  ie_is_main_executable : bool }.

#[export] Instance hk_image_entry_eq_dec : EqDecision hk_image_entry.
Proof. solve_decision. Defined.

Record hk_image_catalog : Type := ImageCatalog {
  ic_entries : list hk_image_entry;
  ic_capacity : Z;
  ic_generation : Z }.

#[export] Instance hk_image_catalog_eta : Eta hk_image_catalog := λ c,
  ImageCatalog (ic_entries c) (ic_capacity c) (ic_generation c).

Definition hk_image_catalog_create : M heap (option hk_image_catalog) :=
  ok <- alloc ;; ret (if ok then Some (ImageCatalog [] 0 0) else None).

(** [None] arguments are NULL; the catalog after the call, and its result. *)
Definition hk_image_catalog_add_entry (catalog : option hk_image_catalog)
    (entry : option hk_image_entry) : M heap (bool * option hk_image_catalog) :=
  match catalog, entry with
  | Some c, Some e =>
      owned <- (match ie_path e with Some _ => alloc | None => ret true end) ;;
      if negb owned then ret (false, catalog)
      else
        let full := Z.of_nat (length (ic_entries c)) =? ic_capacity c in
        let new_capacity := if ic_capacity c =? 0 then 8 else ic_capacity c * 2 in
        grown <- (if full then alloc else ret true) ;;
        if negb grown then ret (false, catalog)
        else
          ret (true, Some (ImageCatalog (ic_entries c ++ [e])
                             (if full then new_capacity else ic_capacity c)
                             (u64 (ic_generation c + 1))))
  | _, _ => ret (false, catalog)
  end.

Definition hk_image_catalog_count (catalog : option hk_image_catalog) : Z :=
  match catalog with Some c => Z.of_nat (length (ic_entries c)) | None => 0 end.

Definition hk_image_catalog_generation (catalog : option hk_image_catalog) : Z :=
  match catalog with Some c => ic_generation c | None => 0 end.

(** The arms of the switch that do not descend. *)
Definition entry_matches_leaf (e : hk_image_entry) (kind : image_selector_kind)
    (extra : selector_extra) : bool :=
  match kind with
  | HK_IMAGE_ANY_LOADED => true
  | HK_IMAGE_MAIN_EXECUTABLE => ie_is_main_executable e
  | HK_IMAGE_EXACT_PATH =>
      match ie_path e, se_path extra with
      | Some p, Some q => bool_decide (p = q)
      | _, _ => false
      end
  | HK_IMAGE_EXACT_UUID =>
      match ie_uuid e with Some u => bool_decide (u = se_uuid extra) | None => false end
  | HK_IMAGE_EXACT_HEADER =>
      negb (ie_header e =? 0) && (ie_header e =? se_header extra)
  | HK_IMAGE_EXPLICIT_SET | HK_IMAGE_OTHER _ => false
  end.

Section AnyChild.
Context (child_matches : image_selector → bool).
Fixpoint any_child (elems : list (option image_selector)) : bool :=
  match elems with
  | [] => false
  | Some sub :: rest => if child_matches sub then true else any_child rest
  | None :: rest => any_child rest
  end.
End AnyChild.

(** A set with a NULL array and a nonzero count, which C would read through, is
    refused when a hook is added; here it matches nothing. *)
Fixpoint entry_matches_selector (e : hk_image_entry) (sel : image_selector) {struct sel} : bool :=
  let '(Selector kind extra set) := sel in
  match kind with
  | HK_IMAGE_EXPLICIT_SET =>
      match set with
      | SetNull _ => false
      | SetArray elems => any_child (entry_matches_selector e) elems
      end
  | _ => entry_matches_leaf e kind extra
  end.

(** The visitor's context is the state; it returns whether to go on. *)
Fixpoint catalog_match_loop {C} (selector : image_selector)
    (visit : nat → hk_image_entry → M C bool) (i : nat) (entries : list hk_image_entry)
    : M C Z :=
  match entries with
  | [] => ret 0
  | e :: rest =>
      if entry_matches_selector e selector then
        go_on <- visit i e ;;
        if go_on then
          visited <- catalog_match_loop selector visit (S i) rest ;; ret (1 + visited)
        else ret 1
      else catalog_match_loop selector visit (S i) rest
  end.

Definition hk_image_catalog_match {C} (catalog : option hk_image_catalog)
    (selector : option image_selector) (visit : option (nat → hk_image_entry → M C bool))
    : M C Z :=
  match catalog, selector, visit with
  | Some c, Some s, Some v => catalog_match_loop s v 0 (ic_entries c)
  | _, _, _ => ret 0
  end.

(** ** Scope checks *)
Module Scope.

Inductive status : Type :=
  | HK_IMAGE_SCOPE_OK | HK_IMAGE_SCOPE_NO_CATALOG | HK_IMAGE_SCOPE_NO_MATCH
  | HK_IMAGE_SCOPE_UUID_MISMATCH | HK_IMAGE_SCOPE_ADDRESS_OUTSIDE
  | HK_IMAGE_SCOPE_UNREADABLE_IMAGE.

#[export] Instance status_eq_dec : EqDecision status.
Proof. solve_decision. Defined.

Record scope_ctx : Type := ScopeCtx {
  sc_saw_entry : bool;
  sc_saw_uuid_match : bool;
  sc_saw_unreadable : bool;
  sc_contained : bool }.

#[export] Instance scope_ctx_eta : Eta scope_ctx := λ c,
  ScopeCtx (sc_saw_entry c) (sc_saw_uuid_match c) (sc_saw_unreadable c) (sc_contained c).

(** [expect_uuid] with [expected_uuid]. *)
Definition uuid_ok (expected : option (list Z)) (e : hk_image_entry) : bool :=
  match expected with
  | None => true
  | Some u => match ie_uuid e with Some v => bool_decide (v = u) | None => false end
  end.

Section Check.
(** What the Mach-O reader derives from the entry's header in memory and its
    slide: the [start, end) span, or [None] where the header cannot be read. *)
Context (image_span : hk_image_entry → option (Z * Z)).

Definition scope_visit (expected : option (list Z)) (address : Z)
    (_ : nat) (e : hk_image_entry) : M scope_ctx bool :=
  modify (λ c, c <| sc_saw_entry := true |>) ;;;
  if negb (uuid_ok expected e) then ret true
  else
    modify (λ c, c <| sc_saw_uuid_match := true |>) ;;;
    if ie_header e =? 0 then modify (λ c, c <| sc_saw_unreadable := true |>) ;;; ret true
    else
      match image_span e with
      | None => modify (λ c, c <| sc_saw_unreadable := true |>) ;;; ret true
      | Some (start, stop) =>
          if (start <=? address) && (address <? stop)
          then modify (λ c, c <| sc_contained := true |>) ;;; ret false
          else ret true
      end.

(** [expect_uuid && !expected_uuid] is [expect_uuid = true] with [None]. *)
Definition hk_image_scope_check (catalog : option hk_image_catalog)
    (selector : option image_selector) (expect_uuid : bool) (expected_uuid : option (list Z))
    (address : Z) : status :=
  match selector with
  | None => HK_IMAGE_SCOPE_OK
  | Some s =>
      if expect_uuid && bool_decide (expected_uuid = None) then HK_IMAGE_SCOPE_OK
      else if bool_decide (catalog = None) || (hk_image_catalog_count catalog =? 0)
      then HK_IMAGE_SCOPE_NO_CATALOG
      else
        let expected := if expect_uuid then expected_uuid else None in
        let '(_, ctx) := hk_image_catalog_match catalog (Some s)
                           (Some (scope_visit expected address))
                           (ScopeCtx false false false false) in
        if sc_contained ctx then HK_IMAGE_SCOPE_OK
        else if negb (sc_saw_entry ctx) then HK_IMAGE_SCOPE_NO_MATCH
        else if negb (sc_saw_uuid_match ctx) then HK_IMAGE_SCOPE_UUID_MISMATCH
        else if sc_saw_unreadable ctx then HK_IMAGE_SCOPE_UNREADABLE_IMAGE
        else HK_IMAGE_SCOPE_ADDRESS_OUTSIDE
  end.
End Check.

Record header_ctx : Type := HeaderCtx {
  hc_saw_entry : bool;
  hc_saw_uuid_match : bool;
  hc_matched : bool }.

#[export] Instance header_ctx_eta : Eta header_ctx := λ c,
  HeaderCtx (hc_saw_entry c) (hc_saw_uuid_match c) (hc_matched c).

Definition header_visit (expected : option (list Z)) (header : Z)
    (_ : nat) (e : hk_image_entry) : M header_ctx bool :=
  modify (λ c, c <| hc_saw_entry := true |>) ;;;
  if negb (uuid_ok expected e) then ret true
  else
    modify (λ c, c <| hc_saw_uuid_match := true |>) ;;;
    if ie_header e =? header then modify (λ c, c <| hc_matched := true |>) ;;; ret false
    else ret true.

Definition hk_image_scope_check_header (catalog : option hk_image_catalog)
    (selector : option image_selector) (expect_uuid : bool) (expected_uuid : option (list Z))
    (header : Z) : status :=
  match selector with
  | None => HK_IMAGE_SCOPE_OK
  | Some s =>
      if expect_uuid && bool_decide (expected_uuid = None) then HK_IMAGE_SCOPE_OK
      else if bool_decide (catalog = None) || (hk_image_catalog_count catalog =? 0)
      then HK_IMAGE_SCOPE_NO_CATALOG
      else
        let expected := if expect_uuid then expected_uuid else None in
        let '(_, ctx) := hk_image_catalog_match catalog (Some s)
                           (Some (header_visit expected header))
                           (HeaderCtx false false false) in
        if hc_matched ctx then HK_IMAGE_SCOPE_OK
        else if negb (hc_saw_entry ctx) then HK_IMAGE_SCOPE_NO_MATCH
        else if negb (hc_saw_uuid_match ctx) then HK_IMAGE_SCOPE_UUID_MISMATCH
        else HK_IMAGE_SCOPE_NO_MATCH
  end.

End Scope.

(** ** Matching *)
Import Canonical.

Definition leaf_matches (e : hk_image_entry) (l : leaf) : bool :=
  match l with
  | LAny => true
  | LMain => ie_is_main_executable e
  | LPath p => match ie_path e, p with Some p, Some q => bool_decide (p = q) | _, _ => false end
  | LUuid u => match ie_uuid e with Some v => bool_decide (v = u) | None => false end
  | LHeader h => negb (ie_header e =? 0) && (ie_header e =? h)
  | LOther _ => false
  end.

Definition view_matches (e : hk_image_entry) (v : view) : bool :=
  match v with VLeaf l => leaf_matches e l | VSet ls => existsb (leaf_matches e) ls end.

Lemma entry_matches_leaf_of e kind extra :
  kind ≠ HK_IMAGE_EXPLICIT_SET →
  entry_matches_leaf e kind extra = leaf_matches e (leaf_of kind extra).
Proof. by destruct kind. Qed.

Lemma entry_matches_leaves e s depth ls :
  leaves s depth = Some ls → entry_matches_selector e s = existsb (leaf_matches e) ls.
Proof.
  revert s depth ls. fix IH 1. intros [kind extra set] depth ls.
  cbn [leaves entry_matches_selector]. destruct (_ <? depth); [done|].
  destruct kind; try (intros [= <-]; cbn [existsb]; rewrite orb_false_r; by apply entry_matches_leaf_of).
  destruct set as [count|elems]; [by destruct (0 <? count); intros [= <-]|].
  revert ls. induction elems as [|[child|] rest IHrest]; intros ls;
    cbn [children_leaves any_child]; [by intros [= <-]| |done].
  destruct (leaves child (depth + 1)) as [l|] eqn:El; [|done].
  destruct (children_leaves _ rest) as [r|]; [|done]. intros [= <-].
  rewrite existsb_app, (IH _ _ _ El). clear IH.
  by destruct (existsb _ l); [|apply IHrest].
Qed.

Lemma entry_matches_view e s v :
  selector_view s = Some v → entry_matches_selector e s = view_matches e v.
Proof.
  destruct s as [kind extra set]. unfold selector_view. cbn [sel_kind sel_extra].
  destruct kind; try (intros H; injection H as <-; by apply entry_matches_leaf_of).
  destruct (leaves _ 0) as [ls|] eqn:El; [|done]. intros H. injection H as <-.
  by eapply entry_matches_leaves.
Qed.

Lemma same_view_matches e v w : same_view v w → view_matches e v = view_matches e w.
Proof.
  destruct v as [l|ls], w as [m|ms]; cbn; try done; [by intros ->|]. intros H.
  apply eq_true_iff_eq. rewrite !existsb_exists. split; intros (l & Hl & Hm); exists l;
    (split; [|done]); apply list_elem_of_In, H, list_elem_of_In; done.
Qed.

(** The loop is a fold of the visitor over the matching entries. *)
Lemma catalog_match_ext {C} s t (visit : nat → hk_image_entry → M C bool) i entries c :
  (∀ e, entry_matches_selector e s = entry_matches_selector e t) →
  catalog_match_loop s visit i entries c = catalog_match_loop t visit i entries c.
Proof.
  intros H. revert i c. induction entries as [|e rest IH]; intros i c; [done|].
  cbn. rewrite <- H. destruct (entry_matches_selector e s); [|apply IH].
  unfold bind. destruct (visit i e c) as [[] c']; [|done]. by rewrite IH.
Qed.

(**  Ownership and matching agree: two image-relative memory targets with
    the same ownership key have base selectors that select the same images of
    every catalog, for every visitor. *)
Theorem same_key_same_images {C} strip spec1 spec2 t1 t2 h1 h2 k h1' h2'
    catalog (visit : nat → hk_image_entry → M C bool) c :
  hs_target spec1 = TMemory t1 → hs_target spec2 = TMemory t2 →
  me_address_is_image_relative t1 = true → me_address_is_image_relative t2 = true →
  Build.hk_ownership_target_key_copy strip (Some spec1) h1 = (Some k, h1') →
  Build.hk_ownership_target_key_copy strip (Some spec2) h2 = (Some k, h2') →
  (∀ i, target_identity strip (hs_target spec1) = Some i → wf_identity i) →
  (∀ i, target_identity strip (hs_target spec2) = Some i → wf_identity i) →
  hk_image_catalog_match catalog (Some (me_base_image t1)) (Some visit) c =
  hk_image_catalog_match catalog (Some (me_base_image t2)) (Some visit) c.
Proof.
  intros T1 T2 R1 R2 H1 H2 W1 W2.
  apply target_key_built in H1 as (i1 & E1 & K1). apply target_key_built in H2 as (i2 & E2 & K2).
  pose proof (identity_key_inj _ _ (W1 _ E1) (W2 _ E2) (eq_trans (eq_sym K1) K2)) as Hs.
  rewrite T1 in E1. rewrite T2 in E2. cbn in E1, E2. rewrite R1 in E1. rewrite R2 in E2.
  destruct (selector_view (me_base_image t1)) as [v1|] eqn:V1; [|done].
  destruct (selector_view (me_base_image t2)) as [v2|] eqn:V2; [|done].
  injection E1 as <-. injection E2 as <-. destruct Hs as (_ & _ & Hs).
  destruct catalog as [cat|]; [|done]. apply catalog_match_ext. intros e.
  rewrite (entry_matches_view _ _ _ V1), (entry_matches_view _ _ _ V2). by apply same_view_matches.
Qed.

(** ** What the scope checks decide *)
Import Scope.

Section ScopeSpec.
Context (image_span : hk_image_entry → option (Z * Z)).

Definition span_of (e : hk_image_entry) : option (Z * Z) :=
  if ie_header e =? 0 then None else image_span e.

Definition contains (address : Z) (e : hk_image_entry) : bool :=
  match span_of e with
  | Some (start, stop) => (start <=? address) && (address <? stop)
  | None => false
  end.

Definition unreadable (e : hk_image_entry) : bool := bool_decide (span_of e = None).

(** The verdict as a function of the matching entries and, among them, the
    entries of the expected build. *)
Definition scope_verdict (address : Z) (matching build : list hk_image_entry) : status :=
  if existsb (contains address) build then HK_IMAGE_SCOPE_OK
  else match matching, build with
       | [], _ => HK_IMAGE_SCOPE_NO_MATCH
       | _, [] => HK_IMAGE_SCOPE_UUID_MISMATCH
       | _, _ => if existsb unreadable build then HK_IMAGE_SCOPE_UNREADABLE_IMAGE
                 else HK_IMAGE_SCOPE_ADDRESS_OUTSIDE
       end.

Definition matching (s : image_selector) (entries : list hk_image_entry) : list hk_image_entry :=
  filter (λ e, entry_matches_selector e s) entries.

Lemma matching_cons s e rest :
  matching s (e :: rest) =
  if entry_matches_selector e s then e :: matching s rest else matching s rest.
Proof. unfold matching. rewrite filter_cons. by destruct (entry_matches_selector e s). Qed.

Definition of_build (expected : option (list Z)) (l : list hk_image_entry) : list hk_image_entry :=
  filter (λ e, uuid_ok expected e) l.

Lemma of_build_cons expected e rest :
  of_build expected (e :: rest) =
  if uuid_ok expected e then e :: of_build expected rest else of_build expected rest.
Proof. unfold of_build. rewrite filter_cons. by destruct (uuid_ok expected e). Qed.

Lemma scope_visit_eq expected address i e c :
  scope_visit image_span expected address i e c =
  let c1 := c <| sc_saw_entry := true |> in
  let c2 := c1 <| sc_saw_uuid_match := true |> in
  if uuid_ok expected e then
    if contains address e then (false, c2 <| sc_contained := true |>)
    else (true, if unreadable e then c2 <| sc_saw_unreadable := true |> else c2)
  else (true, c1).
Proof.
  unfold scope_visit, bind, modify, ret, contains, unreadable, span_of. cbv zeta.
  destruct (uuid_ok expected e); [|done]. cbn [negb].
  destruct (ie_header e =? 0); [done|]. destruct (image_span e) as [[start stop]|]; [|done].
  by destruct (_ && _).
Qed.

Lemma scope_loop_spec s expected address i entries c :
  sc_contained c = false →
  let m := matching s entries in
  let b := of_build expected m in
  let c' := (catalog_match_loop s (scope_visit image_span expected address) i entries c).2 in
  sc_contained c' = existsb (contains address) b ∧
  (sc_contained c' = false →
     sc_saw_entry c' = sc_saw_entry c || negb (bool_decide (m = [])) ∧
     sc_saw_uuid_match c' = sc_saw_uuid_match c || negb (bool_decide (b = [])) ∧
     sc_saw_unreadable c' = sc_saw_unreadable c || existsb unreadable b).
Proof.
  revert i c. induction entries as [|e rest IH]; intros i c Hc; cbn zeta.
  { cbn. by rewrite !orb_false_r. }
  rewrite matching_cons. cbn [catalog_match_loop].
  destruct (entry_matches_selector e s) eqn:Em; [|by apply IH].
  unfold bind. rewrite scope_visit_eq, of_build_cons. cbv zeta.
  destruct (uuid_ok expected e); [destruct (contains address e) eqn:Ec|].
  - cbn. by rewrite Ec.
  - set (c2 := if unreadable e then _ else _).
    assert (H2 : sc_contained c2 = false) by (unfold c2; by destruct (unreadable e)).
    specialize (IH (S i) c2 H2). cbn zeta in IH.
    destruct (catalog_match_loop _ _ (S i) rest c2) as [v c']. cbn [fst snd ret] in IH |- *.
    destruct IH as [I1 I2]. cbn [existsb]. rewrite Ec. split; [done|]. intros Hf.
    destruct (I2 Hf) as (-> & -> & ->). unfold c2.
    destruct (unreadable e); cbn; by rewrite ?orb_true_r.
  - match goal with |- context [catalog_match_loop s _ (S i) rest ?c1] =>
      specialize (IH (S i) c1 Hc) end. cbn zeta in IH.
    destruct (catalog_match_loop _ _ (S i) rest _) as [v c']. cbn [fst snd ret] in IH |- *.
    destruct IH as [I1 I2]. split; [done|]. intros Hf.
    destruct (I2 Hf) as (-> & -> & ->). cbn. by rewrite ?orb_true_r.
Qed.

(** C12.  The scope check walks and stops early, but decides as the declarative
    verdict does: OK exactly when some matching image of the expected build
    contains the address, and otherwise how far the check got. *)
Theorem scope_check_verdict catalog s expect_uuid expected address :
  (expect_uuid = true → expected ≠ None) → ic_entries catalog ≠ [] →
  let m := matching s (ic_entries catalog) in
  hk_image_scope_check image_span (Some catalog) (Some s) expect_uuid expected address =
  scope_verdict address m (of_build (if expect_uuid then expected else None) m).
Proof.
  intros Hu Hne. cbv zeta. unfold hk_image_scope_check.
  replace (expect_uuid && bool_decide (expected = None)) with false
    by (destruct expect_uuid; [cbn; rewrite bool_decide_false by auto|]; done).
  replace (bool_decide (Some catalog = None) || _) with false
    by (rewrite (bool_decide_false (Some catalog = None)) by done; cbn;
        by destruct (ic_entries catalog)).
  cbn [hk_image_catalog_match].
  set (ex := if expect_uuid then expected else None).
  pose proof (scope_loop_spec s ex address 0 (ic_entries catalog) (ScopeCtx false false false false) eq_refl) as H.
  cbn zeta in H. destruct (catalog_match_loop _ _ _ _ _) as [v c']. cbn [snd] in H.
  destruct H as [H1 H2]. unfold scope_verdict. rewrite H1 in H2 |- *.
  destruct (existsb (contains address) _); [done|].
  destruct (H2 eq_refl) as (-> & -> & ->). cbn [sc_saw_entry sc_saw_uuid_match sc_saw_unreadable orb].
  destruct (matching s (ic_entries catalog)) as [|e m]; [done|].
  destruct (of_build ex (e :: m)); [done|]. done.
Qed.
End ScopeSpec.

(** ** Witnesses *)

Definition demo_image (path : string) (header : Z) : hk_image_entry :=
  ImageEntry (Some path) None header 0 false.
Definition demo_catalog : hk_image_catalog :=
  ImageCatalog [demo_image "/a" 0x1000; demo_image "/b" 0; demo_image "/c" 0x3000] 8 3.

Lemma same_key_same_images_witness :
  hk_image_catalog_match (Some demo_catalog)
    (Some (demo_set [demo_path "/b"; Some (demo_set [demo_path "/a"; demo_path "/b"])]))
    (Some (λ i _ l, (true, l ++ [i]))) [] =
  hk_image_catalog_match (Some demo_catalog)
    (Some (demo_set [demo_path "/a"; demo_path "/b"])) (Some (λ i _ l, (true, l ++ [i]))) [].
Proof.
  destruct (Build.hk_ownership_target_key_copy (λ a, a) (Some demo_nested) demo_heap)
    as [[k|] h1] eqn:E1; [|vm_compute in E1; discriminate].
  destruct (Build.hk_ownership_target_key_copy (λ a, a) (Some demo_flat) demo_heap)
    as [[k2|] h2] eqn:E2; [|vm_compute in E2; discriminate].
  assert (k2 = k) as -> by (vm_compute in E1, E2; congruence).
  apply (same_key_same_images (λ a, a) demo_nested demo_flat _ _ _ _ _ _ _ _ _ []
           eq_refl eq_refl eq_refl eq_refl E1 E2).
  - intros i Hi. vm_compute in Hi. injection Hi as <-. cbn. unfold is_u64. split_and!; try lia.
    all: repeat (constructor; [reflexivity|]); constructor.
  - intros i Hi. vm_compute in Hi. injection Hi as <-. cbn. unfold is_u64. split_and!; try lia.
    all: repeat (constructor; [reflexivity|]); constructor.
Defined.

Lemma scope_check_verdict_witness :
  hk_image_scope_check (λ e, Some (ie_header e, ie_header e + 0x100)) (Some demo_catalog)
    (Some (demo_set [demo_path "/a"; demo_path "/b"])) false None 0x1080 = HK_IMAGE_SCOPE_OK ∧
  hk_image_scope_check (λ e, Some (ie_header e, ie_header e + 0x100)) (Some demo_catalog)
    (Some (demo_set [demo_path "/a"; demo_path "/b"])) false None 0x3080 =
  HK_IMAGE_SCOPE_UNREADABLE_IMAGE.
Proof.
  split; rewrite scope_check_verdict; try done; by vm_compute.
Defined.
