(* ===== verification/Artifacts.v ===== *)
(** * Identifiers, artifacts, reports and installed records
    (src/core/HKIDs.c, HKArtifactLedger.c, HKReport.c, HKInstalled.c)

    What a commit leaves behind: the append-only artifact ledger engines record
    into through a sink, its immutable snapshots, the report that owns one, and
    the process-lifetime record of an installed hook. *)

From stdpp Require Import base list strings gmap numbers.
From S2P Require Import Prelude Types.

(** ** HKIDs.c *)

(** [g_nonce] once initialised, [g_counter], and what
    [hk_compute_process_nonce] would read from the environment. *)
Record ids : Type := Ids {
  ids_nonce : option Z;
  ids_counter : Z;
  ids_entropy : Z }.

#[export] Instance ids_eta : Eta ids := λ i, Ids (ids_nonce i) (ids_counter i) (ids_entropy i).

Definition hk_id_generate : M ids hk_id := λ i,
  let nonce := default (ids_entropy i) (ids_nonce i) in
  (Id nonce (u64 (ids_counter i + 1)),
   i <| ids_nonce := Some nonce |> <| ids_counter := u64 (ids_counter i + 1) |>).

(** ** Artifacts *)

Inductive hk_artifact_kind : Type :=
  | HK_ARTIFACT_IMPORT_SLOT | HK_ARTIFACT_TARGET_TEXT_PATCH | HK_ARTIFACT_MEMORY_PATCH
  | HK_ARTIFACT_TRAMPOLINE | HK_ARTIFACT_STATIC_CONTINUATION
  | HK_ARTIFACT_DYNAMIC_EXECUTABLE_ALLOCATION | HK_ARTIFACT_BRANCH_ISLAND
  | HK_ARTIFACT_OBJC_METHOD_CHANGE | HK_ARTIFACT_SWIFT_VTABLE_CHANGE
  | HK_ARTIFACT_ORIGINAL_POINTER | HK_ARTIFACT_LOADED_PROVIDER_IMAGE
  | HK_ARTIFACT_PROVIDER_ACTIVATION | HK_ARTIFACT_IMAGE_CALLBACK
  | HK_ARTIFACT_LATE_IMAGE_APPLICATION | HK_ARTIFACT_MEMORY_PROTECTION_TRANSITION
  | HK_ARTIFACT_FILE_MAPPING | HK_ARTIFACT_THREAD_CREATION
  | HK_ARTIFACT_UNKNOWN_PROCESS_MUTATION.

Inductive hk_artifact_state : Type :=
  | HK_ARTIFACT_PLANNED | HK_ARTIFACT_PREPARED | HK_ARTIFACT_PENDING
  | HK_ARTIFACT_COMMITTED | HK_ARTIFACT_VERIFIED | HK_ARTIFACT_LATE_APPLIED
  | HK_ARTIFACT_PARTIALLY_APPLIED | HK_ARTIFACT_COMPENSATED | HK_ARTIFACT_ROLLED_BACK
  | HK_ARTIFACT_INVALIDATED | HK_ARTIFACT_DISCARDED | HK_ARTIFACT_OBSERVED_EXISTING.

Inductive byte_representation : Type :=
  | HK_BYTE_STORAGE_NONE | HK_BYTE_STORAGE_INLINE | HK_BYTE_STORAGE_HASH
  | HK_BYTE_STORAGE_INLINE_AND_HASH.

Record hk_byte_storage : Type := ByteStorage {
  bs_representation : byte_representation;
  bs_inline_bytes : bytes_view;
  bs_sha256 : list Z;
  bs_length : Z }.

#[export] Instance hk_byte_storage_eta : Eta hk_byte_storage := λ b,
  ByteStorage (bs_representation b) (bs_inline_bytes b) (bs_sha256 b) (bs_length b).

(** [a_facts] are the scalar fields the ledger copies without looking at:
    addresses, protections, mapping, generations, image identity but its path,
    the reversibility and inspection flags. *)
Record hk_artifact : Type := Artifact {
  a_artifact_id : hk_id;
  a_runtime_owner_id : hk_id;
  a_plan_id : hk_id;
  a_request_id : hk_id;
  a_installed_id : hk_id;
  a_kind : hk_artifact_kind;
  a_state : hk_artifact_state;
  a_effects : Z;
  a_engine_id : string_view;
  a_mechanism_id : string_view;
  a_image_path : option string;
  a_original_bytes : hk_byte_storage;
  a_expected_bytes : hk_byte_storage;
  a_expected_mask : hk_byte_storage;
  a_current_bytes : hk_byte_storage;
  a_verified : bool;
  a_facts : list Z }.

#[export] Instance hk_artifact_eta : Eta hk_artifact := λ a,
  Artifact (a_artifact_id a) (a_runtime_owner_id a) (a_plan_id a) (a_request_id a)
    (a_installed_id a) (a_kind a) (a_state a) (a_effects a) (a_engine_id a)
    (a_mechanism_id a) (a_image_path a) (a_original_bytes a) (a_expected_bytes a)
    (a_expected_mask a) (a_current_bytes a) (a_verified a) (a_facts a).

Definition hk_artifact_is_import_slot (a : option hk_artifact) : bool :=
  match a with
  | Some a => match a_kind a with HK_ARTIFACT_IMPORT_SLOT => true | _ => false end
  | None => false
  end.

(** *** [owned_copy] *)

Definition view_of (s : option string) : string_view :=
  match s with Some s => View s | None => ViewNull 0 end.

(** The sizing loop over the three strings. *)
Fixpoint strings_total (views : list string_view) (total : Z) : option Z :=
  match views with
  | [] => Some total
  | ViewNull length :: rest => if length =? 0 then strings_total rest total else None
  | View s :: rest =>
      let length := Z.of_nat (String.length s) in
      if (length =? SIZE_MAX) || (SIZE_MAX - total <? length + 1) then None
      else strings_total rest (total + (length + 1))
  end.

Definition inline_size (b : hk_byte_storage) : Z :=
  match bs_representation b with
  | HK_BYTE_STORAGE_INLINE | HK_BYTE_STORAGE_INLINE_AND_HASH =>
      match bs_inline_bytes b with BytesNull n => n | Bytes l => Z.of_nat (length l) end
  | _ => 0
  end.

(** An inline view of size 0 gets a NULL pointer. *)
Definition clear_empty (b : hk_byte_storage) : hk_byte_storage :=
  match bs_representation b with
  | HK_BYTE_STORAGE_INLINE | HK_BYTE_STORAGE_INLINE_AND_HASH =>
      if inline_size b =? 0 then b <| bs_inline_bytes := BytesNull 0 |> else b
  | _ => b
  end.

(** The sizing loop over the four byte views. *)
Fixpoint bytes_total (storages : list hk_byte_storage) (total : Z) : option Z :=
  match storages with
  | [] => Some total
  | b :: rest =>
      let size := inline_size b in
      let missing := match bs_inline_bytes b with BytesNull _ => true | Bytes _ => false end in
      if (negb (size =? 0) && missing) || (SIZE_MAX - total <? size) then None
      else bytes_total rest (total + size)
  end.

(** The deep copy: the same value in storage of its own, [None] for [false]. *)
Definition owned_copy (a : hk_artifact) : M heap (option hk_artifact) :=
  match strings_total [a_engine_id a; a_mechanism_id a; view_of (a_image_path a)] 0 with
  | None => ret None
  | Some total =>
      match bytes_total [a_original_bytes a; a_expected_bytes a; a_expected_mask a;
                         a_current_bytes a] total with
      | None => ret None
      | Some total =>
          let copy :=
            a <| a_original_bytes := clear_empty (a_original_bytes a) |>
              <| a_expected_bytes := clear_empty (a_expected_bytes a) |>
              <| a_expected_mask := clear_empty (a_expected_mask a) |>
              <| a_current_bytes := clear_empty (a_current_bytes a) |> in
          if total =? 0 then ret (Some copy)
          else payload <- alloc ;; ret (if payload then Some copy else None)
      end
  end.

(** ** The ledger *)

Record hk_artifact_ledger : Type := ArtifactLedger {
  lg_items : list hk_artifact;
  lg_capacity : Z }.

#[export] Instance hk_artifact_ledger_eta : Eta hk_artifact_ledger := λ l,
  ArtifactLedger (lg_items l) (lg_capacity l).

Definition lg_count (l : hk_artifact_ledger) : Z := Z.of_nat (length (lg_items l)).

(** The new capacity, [None] where [realloc] fails. *)
Definition ensure_capacity (capacity needed : Z) : M heap (option Z) :=
  if needed <=? capacity then ret (Some capacity)
  else
    grown <- alloc ;;
    ret (if grown
         then Some (grow_capacity 65 (if capacity =? 0 then 4 else capacity) needed)
         else None).

Definition hk_artifact_ledger_create : M heap (option hk_artifact_ledger) :=
  ok <- alloc ;; ret (if ok then Some (ArtifactLedger [] 0) else None).

Definition hk_artifact_ledger_count (ledger : option hk_artifact_ledger) : Z :=
  match ledger with Some l => lg_count l | None => 0 end.

Definition hk_artifact_ledger_append (ledger : option hk_artifact_ledger)
    (artifact : option hk_artifact) : M heap (bool * option hk_artifact_ledger) :=
  match ledger, artifact with
  | Some l, Some a =>
      owned <- owned_copy a ;;
      match owned with
      | None => ret (false, ledger)
      | Some owned =>
          capacity <- ensure_capacity (lg_capacity l) (lg_count l + 1) ;;
          match capacity with
          | None => ret (false, ledger)
          | Some c => ret (true, Some (ArtifactLedger (lg_items l ++ [owned]) c))
          end
      end
  | _, _ => ret (false, ledger)
  end.

(** The copies of a list of artifacts; on a failure the C code releases the
    ones made and the count stays as it was. *)
Fixpoint copy_all (source : list hk_artifact) : M heap (option (list hk_artifact)) :=
  match source with
  | [] => ret (Some [])
  | a :: rest =>
      owned <- owned_copy a ;;
      match owned with
      | None => ret None
      | Some o => more <- copy_all rest ;; ret (cons o <$> more)
      end
  end.

Definition hk_artifact_ledger_append_ledger (ledger source : option hk_artifact_ledger)
    : M heap (bool * option hk_artifact_ledger) :=
  match ledger, source with
  | Some l, Some s =>
      if lg_count s =? 0 then ret (true, ledger)
      else if SIZE_MAX - lg_count l <? lg_count s then ret (false, ledger)
      else
        capacity <- ensure_capacity (lg_capacity l) (lg_count l + lg_count s) ;;
        match capacity with
        | None => ret (false, ledger)
        | Some c =>
            copies <- copy_all (lg_items s) ;;
            match copies with
            | None => ret (false, Some (l <| lg_capacity := c |>))
            | Some copies => ret (true, Some (ArtifactLedger (lg_items l ++ copies) c))
            end
        end
  | _, _ => ret (false, ledger)
  end.

(** The loop of the two marking functions over [start, start + count). *)
Definition mark_range (mark : hk_artifact → hk_artifact) (start count : Z)
    (items : list hk_artifact) : list hk_artifact :=
  imap (λ i a, if (start <=? Z.of_nat i) && (Z.of_nat i <? start + count) then mark a else a)
    items.

Definition hk_artifact_ledger_mark (mark : hk_artifact → hk_artifact)
    (ledger : option hk_artifact_ledger) (start count : Z) : bool * option hk_artifact_ledger :=
  match ledger with
  | None => (false, ledger)
  | Some l =>
      if (lg_count l <? start) || (lg_count l - start <? count) then (false, ledger)
      else (true, Some (l <| lg_items := mark_range mark start count (lg_items l) |>))
  end.

Definition set_verified (a : hk_artifact) : hk_artifact :=
  a <| a_state := HK_ARTIFACT_VERIFIED |> <| a_verified := true |>.
Definition set_compensated (a : hk_artifact) : hk_artifact :=
  a <| a_state := HK_ARTIFACT_COMPENSATED |> <| a_verified := false |>.

Definition hk_artifact_ledger_mark_verified := hk_artifact_ledger_mark set_verified.
Definition hk_artifact_ledger_mark_compensated := hk_artifact_ledger_mark set_compensated.

(** *** Snapshots *)

Definition hk_artifact_snapshot_from_ledger (ledger : option hk_artifact_ledger)
    : M heap (hk_status * option (list hk_artifact)) :=
  snapshot <- alloc ;;
  if negb snapshot then ret (HK_STATUS_OUT_OF_MEMORY, None)
  else
    let items := match ledger with Some l => lg_items l | None => [] end in
    match items with
    | [] => ret (HK_STATUS_OK, Some [])
    | _ =>
        array <- alloc ;;
        if negb array then ret (HK_STATUS_OUT_OF_MEMORY, None)
        else
          copies <- copy_all items ;;
          ret (match copies with
               | Some c => (HK_STATUS_OK, Some c)
               | None => (HK_STATUS_OUT_OF_MEMORY, None)
               end)
    end.

Definition hk_artifact_snapshot_count (snapshot : option (list hk_artifact)) : Z :=
  match snapshot with Some s => Z.of_nat (length s) | None => 0 end.

Definition hk_artifact_snapshot_copy_at (snapshot : option (list hk_artifact)) (index : Z)
    : hk_status * option hk_artifact :=
  match snapshot with
  | None => (HK_STATUS_INVALID_ARGUMENT, None)
  | Some s =>
      if Z.of_nat (length s) <=? index then (HK_STATUS_INVALID_ARGUMENT, None)
      else (HK_STATUS_OK, s !! Z.to_nat index)
  end.

(** *** The process-wide ledger: NULL until something is appended *)

Definition hk_artifact_process_append_ledger (process source : option hk_artifact_ledger)
    : M heap (bool * option hk_artifact_ledger) :=
  match source with
  | None => ret (false, process)
  | Some _ =>
      process <- (match process with None => hk_artifact_ledger_create | Some _ => ret process end) ;;
      match process with
      | None => ret (false, None)
      | Some _ => hk_artifact_ledger_append_ledger process source
      end
  end.

(** ** The sink an engine records through *)

Record hk_artifact_sink : Type := Sink {
  sk_plan_id : hk_id;
  sk_runtime_owner_id : hk_id;
  sk_request_id : hk_id;
  sk_published_original : Z;
  sk_continuation : option hk_continuation_info;
  sk_require_predecessor_match : bool;
  sk_required_predecessor : Z;
  sk_record_failed : bool;
  sk_observed_effects : Z }.

#[export] Instance hk_artifact_sink_eta : Eta hk_artifact_sink := λ s,
  Sink (sk_plan_id s) (sk_runtime_owner_id s) (sk_request_id s) (sk_published_original s)
    (sk_continuation s) (sk_require_predecessor_match s) (sk_required_predecessor s)
    (sk_record_failed s) (sk_observed_effects s).

(** The allocator, the id generator, the ledger the sink points at and the
    sink. *)
Record sink_state : Type := SinkState {
  ss_heap : heap;
  ss_ids : ids;
  ss_ledger : option hk_artifact_ledger;
  ss_sink : hk_artifact_sink }.

#[export] Instance sink_state_eta : Eta sink_state := λ s,
  SinkState (ss_heap s) (ss_ids s) (ss_ledger s) (ss_sink s).

Definition ss_fail : M sink_state unit :=
  modify (λ s, s <| ss_sink := ss_sink s <| sk_record_failed := true |> |>).

Definition hk_artifact_sink_record (artifact : option hk_artifact) : M sink_state bool := λ s,
  match artifact, ss_ledger s with
  | Some a, Some _ =>
      let sink := ss_sink s in
      let s := s <| ss_sink := sink <| sk_observed_effects :=
                      Z.lor (sk_observed_effects sink) (a_effects a) |> |> in
      let '(id, i) := hk_id_generate (ss_ids s) in
      let stamped :=
        a <| a_artifact_id := id |> <| a_plan_id := sk_plan_id sink |>
          <| a_request_id := sk_request_id sink |>
          <| a_runtime_owner_id := sk_runtime_owner_id sink |> in
      let '((ok, ledger), h) := hk_artifact_ledger_append (ss_ledger s) (Some stamped) (ss_heap s) in
      let s := s <| ss_heap := h |> <| ss_ids := i |> <| ss_ledger := ledger |> in
      if ok then (true, s) else (ss_fail ;;; ret false) s
  | _, _ => (ss_fail ;;; ret false) s
  end.

(** ** HKReport.c *)

Record hk_report : Type := Report {
  rp_id : hk_id;
  rp_results : list hk_hook_result;
  rp_artifacts : option hk_artifact_ledger }.

#[export] Instance hk_report_eta : Eta hk_report := λ r,
  Report (rp_id r) (rp_results r) (rp_artifacts r).

Definition hk_report_create (results : list hk_hook_result) : M (heap * ids) (option hk_report) :=
  λ '(h, i),
  let '(ok, h) := alloc h in
  if negb ok then (None, (h, i))
  else
    let '(id, i) := hk_id_generate i in
    let '(artifacts, h) := hk_artifact_ledger_create h in
    match artifacts with
    | None => (None, (h, i))
    | Some _ =>
        let '(ok, h) := match results with [] => (true, h) | _ => alloc h end in
        if negb ok then (None, (h, i)) else (Some (Report id results artifacts), (h, i))
    end.

Definition hk_report_adopt_artifact_ledger (report : option hk_report)
    (ledger : option hk_artifact_ledger) : option hk_report :=
  (λ r, r <| rp_artifacts := ledger |>) <$> report.

Definition hk_report_copy_artifacts (report : option hk_report)
    : M heap (hk_status * option (list hk_artifact)) :=
  match report with
  | None => ret (HK_STATUS_INVALID_ARGUMENT, None)
  | Some r => hk_artifact_snapshot_from_ledger (rp_artifacts r)
  end.

(** ** HKInstalled.c *)

(** [slot.original] is written once, at creation. *)
Record hk_installed_hook : Type := InstalledHook {
  in_address : Z;
  in_installed_id : hk_id;
  in_has_original : bool;
  in_slot_original : Z;
  in_result : hk_hook_result }.

#[export] Instance hk_installed_hook_eta : Eta hk_installed_hook := λ i,
  InstalledHook (in_address i) (in_installed_id i) (in_has_original i)
    (in_slot_original i) (in_result i).

(** The registry is the list from its head; the new record goes in front. *)
Definition hk_installed_record_create (installed_id : hk_id) (original_or_null : Z)
    (result : option hk_hook_result)
    : M (heap * list hk_installed_hook) (option hk_installed_hook) := λ '(h, registry),
  match result with
  | None => (None, (h, registry))
  | Some result =>
      let '(address, h) := alloc_object h in
      if address =? 0 then (None, (h, registry))
      else
        let record := InstalledHook address installed_id (negb (original_or_null =? 0))
                        original_or_null result in
        (Some record, (h, record :: registry))
  end.

Definition hk_original_slot_load (slot : option hk_installed_hook) : Z :=
  match slot with Some i => in_slot_original i | None => 0 end.

Definition hk_installed_hook_copy_result (installed : option hk_installed_hook)
    : hk_status * option hk_hook_result :=
  match installed with
  | Some i => (HK_STATUS_OK, Some (in_result i))
  | None => (HK_STATUS_INVALID_ARGUMENT, None)
  end.

(** ** Identifiers are unique *)

Fixpoint generate (n : nat) : M ids (list hk_id) :=
  match n with
  | O => ret []
  | S n => id <- hk_id_generate ;; more <- generate n ;; ret (id :: more)
  end.

Lemma generate_S n i :
  (generate (S n) i).1 = (hk_id_generate i).1 :: (generate n (hk_id_generate i).2).1.
Proof.
  cbn [generate]. unfold bind. destruct (hk_id_generate i) as [id i']. cbn [fst snd].
  by destruct (generate n i').
Qed.

Lemma hk_id_generate_low i :
  0 <= ids_counter i → ids_counter i + 1 < 2 ^ 64 →
  id_low (hk_id_generate i).1 = ids_counter i + 1 ∧ ids_counter (hk_id_generate i).2 = ids_counter i + 1.
Proof. intros H0 Hn. split; apply u64_small; unfold is_u64; lia. Qed.

Lemma generate_low n i id :
  0 <= ids_counter i → ids_counter i + Z.of_nat n < 2 ^ 64 →
  id ∈ (generate n i).1 → ids_counter i < id_low id.
Proof.
  revert i. induction n as [|n IH]; intros i H0 Hn Hid; [by apply not_elem_of_nil in Hid|].
  rewrite generate_S in Hid. destruct (hk_id_generate_low i) as [Hl Hc]; [lia..|].
  apply elem_of_cons in Hid as [->|Hid]; [lia|].
  apply IH in Hid; lia.
Qed.

(** Identifiers generated one after another, from any point of the process
    and until the 64-bit counter wraps, are pairwise distinct and none is the
    zero identifier that stands for "no ID". *)
Theorem ids_unique n i :
  0 <= ids_counter i → ids_counter i + Z.of_nat n < 2 ^ 64 →
  NoDup (generate n i).1 ∧ zero_id ∉ (generate n i).1.
Proof.
  intros H0 Hn. split.
  - revert i H0 Hn. induction n as [|n IH]; intros i H0 Hn; [constructor|].
    rewrite generate_S. destruct (hk_id_generate_low i) as [Hl Hc]; [lia..|].
    constructor; [|apply IH; lia]. intros Hin. apply generate_low in Hin; lia.
  - intros Hin. apply generate_low in Hin; [cbn in Hin; lia|lia..].
Qed.

Lemma ids_unique_witness : NoDup (generate 3 (Ids None 0 7)).1.
Proof. apply (ids_unique 3 (Ids None 0 7)); done. Defined.

(** ** Copies *)

(** The artifacts [owned_copy] can store, and the value it stores. *)
Definition storable (a : hk_artifact) : Prop :=
  ∃ total total', strings_total [a_engine_id a; a_mechanism_id a; view_of (a_image_path a)] 0 = Some total ∧
    bytes_total [a_original_bytes a; a_expected_bytes a; a_expected_mask a; a_current_bytes a] total
      = Some total'.

Definition owned_value (a : hk_artifact) : hk_artifact :=
  a <| a_original_bytes := clear_empty (a_original_bytes a) |>
    <| a_expected_bytes := clear_empty (a_expected_bytes a) |>
    <| a_expected_mask := clear_empty (a_expected_mask a) |>
    <| a_current_bytes := clear_empty (a_current_bytes a) |>.

Lemma owned_copy_spec a h :
  match owned_copy a h with
  | (Some o, h') => o = owned_value a ∧ storable a
  | (None, h') => storable a → ¬ heap_ok h
  end ∧ (heap_ok h → heap_ok (owned_copy a h).2).
Proof.
  unfold owned_copy, storable. destruct (strings_total _ 0) as [t|].
  2:{ split; [|done]. by intros (t & t' & ? & _). }
  destruct (bytes_total _ t) as [t'|] eqn:Eb.
  2:{ split; [|done]. intros (u & u' & [= <-] & Hu). congruence. }
  destruct (t' =? 0); [split; [split; [done|by exists t, t']|done]|]. unfold bind, alloc.
  destruct (h_fails h (h_tick h)) eqn:Ef; cbn; (split; [|done]).
  - intros _ H. by rewrite H in Ef.
  - split; [done|by exists t, t'].
Qed.

Lemma owned_copy_heap a h : heap_ok h → heap_ok (owned_copy a h).2.
Proof. apply owned_copy_spec. Qed.

Lemma clear_empty_idemp b : clear_empty (clear_empty b) = clear_empty b.
Proof.
  unfold clear_empty at 2 3. destruct (bs_representation b) eqn:Er;
    try (unfold clear_empty; by rewrite Er).
  all: destruct (inline_size b =? 0) eqn:E; unfold clear_empty;
    [unfold inline_size; cbn; by rewrite Er|by rewrite Er, E].
Qed.

Lemma owned_value_idemp a : owned_value (owned_value a) = owned_value a.
Proof. unfold owned_value. cbn. by rewrite !clear_empty_idemp. Qed.

Lemma copy_all_spec src h :
  match copy_all src h with
  | (Some os, _) => os = owned_value <$> src ∧ Forall storable src
  | (None, _) => Forall storable src → ¬ heap_ok h
  end ∧ (heap_ok h → heap_ok (copy_all src h).2).
Proof.
  revert h. induction src as [|a src IH]; intros h; cbn [copy_all]; [done|].
  unfold bind. pose proof (owned_copy_spec a h) as Ha.
  destruct (owned_copy a h) as [[o|] h1]; cbn in Ha.
  - destruct Ha as [[-> Hs] Hh]. specialize (IH h1).
    destruct (copy_all src h1) as [[os|] h2]; cbn in IH |- *.
    + destruct IH as [[-> Hf] Hh2]. split; [split; [done|by constructor]|].
      intros Hok. by apply Hh2, Hh.
    + destruct IH as [Hn Hh2]. split; [|intros Hok; by apply Hh2, Hh].
      intros Hf Hok. inversion Hf; subst. by apply Hn; [|apply Hh].
  - destruct Ha as [Hn Hh]. cbn. split; [|done]. intros Hf. inversion Hf; subst. by apply Hn.
Qed.

Lemma ensure_capacity_spec capacity needed h :
  0 <= capacity → needed <= SIZE_MAX →
  match ensure_capacity capacity needed h with
  | (Some c, _) => needed <= c ∧ capacity <= c
  | (None, _) => ¬ heap_ok h
  end ∧ (heap_ok h → heap_ok (ensure_capacity capacity needed h).2).
Proof.
  intros Hc Hn. unfold ensure_capacity. destruct (Z.leb_spec needed capacity); [cbn; lia || auto with lia|].
  unfold bind, alloc. destruct (h_fails h (h_tick h)) eqn:Ef; cbn; split; try done.
  - intros H'. by rewrite H' in Ef.
  - set (c := if capacity =? 0 then 4 else capacity).
    assert (Hc' : 0 < c) by (unfold c; destruct (Z.eqb_spec capacity 0); lia).
    assert (needed <= grow_capacity 65 c needed); [|lia].
    apply grow_capacity_enough; [done| |done]. change (Z.of_nat 65) with 65. lia.
Qed.

(** ** The ledger only grows, atomically *)

Definition ledger_wf (l : hk_artifact_ledger) : Prop := 0 <= lg_count l <= lg_capacity l.

Lemma ledger_append_spec l a h :
  ledger_wf l → lg_count l < SIZE_MAX →
  let '((ok, l'), h') := hk_artifact_ledger_append (Some l) (Some a) h in
  ∃ m, l' = Some m ∧ ledger_wf m ∧
    lg_items m = lg_items l ++ (if ok : bool then [owned_value a] else []) ∧
    (heap_ok h → heap_ok h' ∧ (storable a → ok = true)).
Proof.
  intros Hwf Hmax. unfold hk_artifact_ledger_append, bind.
  pose proof (owned_copy_spec a h) as Ha. destruct (owned_copy a h) as [[o|] h1]; cbn in Ha.
  - destruct Ha as [[-> Hs] Hh]. unfold ledger_wf in Hwf.
    pose proof (ensure_capacity_spec (lg_capacity l) (lg_count l + 1) h1 ltac:(lia) ltac:(lia)) as He.
    destruct (ensure_capacity _ _ h1) as [[c|] h2]; cbn in He |- *.
    + eexists. split; [done|]. unfold ledger_wf, lg_count in *. cbn. rewrite length_app. cbn.
      split; [lia|]. split; [done|]. intros Hok. split; [apply He; auto|done].
    + exists l. rewrite app_nil_r. split_and!; try done. intros Hok.
      destruct He as [He _]. by destruct (He (Hh Hok)).
  - exists l. rewrite app_nil_r. split_and!; try done. intros Hok. destruct Ha as [Ha Hh].
    split; [by apply Hh|]. intros Hs. by destruct (Ha Hs Hok).
Qed.

(** Appending one ledger to another is all or nothing: it adds an owned
    copy of every artifact of the source, in order, or leaves the artifacts as
    they were; the capacity always covers the count, and it can only fail on
    the allocator or on an artifact no copy can be made of. *)
Theorem append_ledger_atomic l s h :
  ledger_wf l → ledger_wf s → lg_count l + lg_count s <= SIZE_MAX →
  let '((ok, l'), h') := hk_artifact_ledger_append_ledger (Some l) (Some s) h in
  ∃ m, l' = Some m ∧ ledger_wf m ∧
    lg_items m = lg_items l ++ (if ok then owned_value <$> lg_items s else []) ∧
    (heap_ok h → Forall storable (lg_items s) → ok = true).
Proof.
  intros Hl Hs Hmax. unfold hk_artifact_ledger_append_ledger. unfold ledger_wf in *.
  destruct (Z.eqb_spec (lg_count s) 0) as [E|E].
  { exists l. split_and!; try done; [lia|lia|].
    unfold lg_count in E. destruct (lg_items s); [by rewrite app_nil_r|cbn in E; lia]. }
  replace (SIZE_MAX - lg_count l <? lg_count s) with false by lia. unfold bind.
  pose proof (ensure_capacity_spec (lg_capacity l) (lg_count l + lg_count s) h ltac:(lia) ltac:(lia)) as He.
  destruct (ensure_capacity _ _ h) as [[c|] h1]; cbn in He.
  - destruct He as [He Hh]. pose proof (copy_all_spec (lg_items s) h1) as Hc.
    destruct (copy_all (lg_items s) h1) as [[os|] h2]; cbn in Hc |- *.
    + destruct Hc as [[-> _] _]. eexists. split; [done|].
      unfold lg_count in *. cbn. rewrite length_app, length_fmap. split_and!; try done; lia.
    + eexists. split; [done|]. unfold lg_count in *. cbn. rewrite app_nil_r.
      split_and!; try done; [lia|lia|]. intros Hok Hf. destruct Hc as [Hc _]. by destruct (Hc Hf (Hh Hok)).
  - exists l. rewrite app_nil_r. split_and!; try done; [lia|lia|]. intros Hok. destruct He as [He _].
    by destruct (He Hok).
Qed.

(** ** Marking *)

Lemma mark_range_lookup mark start count items i :
  mark_range mark start count items !! i =
  (λ a, if (start <=? Z.of_nat i) && (Z.of_nat i <? start + count) then mark a else a)
    <$> items !! i.
Proof. unfold mark_range. by rewrite list_lookup_imap. Qed.

Lemma mark_range_length mark start count items :
  length (mark_range mark start count items) = length items.
Proof. apply length_imap. Qed.

(** [mark_verified] and [mark_compensated] touch exactly the artifacts of
    the range they are given: those become VERIFIED and verified, respectively
    COMPENSATED and not verified, all others and the count stay, and a range
    that is not within the ledger is refused with nothing changed. *)
Lemma ledger_mark_range (verified : bool) l start count :
  0 <= start → 0 <= count →
  let mark := if verified then hk_artifact_ledger_mark_verified
              else hk_artifact_ledger_mark_compensated in
  let '(ok, l') := mark (Some l) start count in
  ok = (start + count <=? lg_count l) ∧
  ∃ m, l' = Some m ∧ length (lg_items m) = length (lg_items l) ∧
    ∀ i a, lg_items l !! i = Some a → ∃ b, lg_items m !! i = Some b ∧
      if ok && (start <=? Z.of_nat i) && (Z.of_nat i <? start + count) then
        a_verified b = verified ∧
        a_state b = (if verified then HK_ARTIFACT_VERIFIED else HK_ARTIFACT_COMPENSATED)
      else b = a.
Proof.
  intros Hs Hc mark.
  assert (E : mark (Some l) start count =
    hk_artifact_ledger_mark (if verified then set_verified else set_compensated) (Some l) start count)
    by (by destruct verified).
  rewrite E. unfold hk_artifact_ledger_mark.
  destruct ((lg_count l <? start) || (lg_count l - start <? count)) eqn:Er.
  - split; [symmetry; lia|]. exists l. split_and!; [done..|]. intros i a Ha. by exists a.
  - split; [symmetry; lia|]. eexists. split; [done|]. cbn [lg_items set_field].
    split; [apply mark_range_length|]. intros i a Ha.
    rewrite mark_range_lookup, Ha. cbn [fmap option_fmap option_map andb].
    eexists. split; [done|]. destruct (_ && _); [by destruct verified|done].
Qed.

(** ** The sink *)

(** Recording through the sink: on success the ledger gains one artifact,
    the engine's facts with a fresh identifier and the sink's plan, request and
    runtime identities; on failure the ledger's artifacts are unchanged and
    [record_failed] says so.  Either way the artifact's effects are observed,
    and nothing else of the sink changes. *)
Theorem sink_record_spec a l s :
  ss_ledger s = Some l → ledger_wf l → lg_count l < SIZE_MAX →
  let '(ok, s') := hk_artifact_sink_record (Some a) s in
  ∃ m, ss_ledger s' = Some m ∧ ledger_wf m ∧
    ss_sink s' = ss_sink s
      <| sk_observed_effects := Z.lor (sk_observed_effects (ss_sink s)) (a_effects a) |>
      <| sk_record_failed := negb ok || sk_record_failed (ss_sink s) |> ∧
    if ok then
      lg_items m = lg_items l ++
        [owned_value a <| a_artifact_id := (hk_id_generate (ss_ids s)).1 |>
                       <| a_plan_id := sk_plan_id (ss_sink s) |>
                       <| a_request_id := sk_request_id (ss_sink s) |>
                       <| a_runtime_owner_id := sk_runtime_owner_id (ss_sink s) |>]
    else lg_items m = lg_items l.
Proof.
  intros Hl Hwf Hmax. unfold hk_artifact_sink_record. rewrite Hl. cbn [ss_ledger ss_ids ss_heap set_field].
  destruct (hk_id_generate (ss_ids s)) as [id i] eqn:Eid. cbn [ss_ledger ss_heap]. rewrite Hl.
  match goal with |- context [hk_artifact_ledger_append (Some l) (Some ?st) ?h] =>
    pose proof (ledger_append_spec l st h Hwf Hmax) as Ha;
    destruct (hk_artifact_ledger_append (Some l) (Some st) h) as [[ok l'] h'] end.
  destruct Ha as (m & -> & Hm & Hi & _). destruct ok.
  - exists m. split_and!; [done|done|by destruct (ss_sink s)|]. rewrite Hi. done.
  - exists m. unfold bind, ss_fail, modify, ret. cbn. rewrite app_nil_r in Hi.
    split_and!; [done|done|by destruct (ss_sink s)|done].
Qed.

(** ** Snapshots *)

Definition owned (a : hk_artifact) : Prop := owned_value a = a.

Lemma owned_owned_value a : owned (owned_value a).
Proof. apply owned_value_idemp. Qed.

Lemma snapshot_ok l h snap h' :
  hk_artifact_snapshot_from_ledger (Some l) h = ((HK_STATUS_OK, snap), h') →
  snap = Some (owned_value <$> lg_items l).
Proof.
  unfold hk_artifact_snapshot_from_ledger, bind. intros H.
  destruct (alloc h) as [[] h1]; [cbn [negb] in H|done].
  destruct (lg_items l) as [|x xs]; [by injection H as <- _|].
  destruct (alloc h1) as [[] h2]; [cbn [negb] in H|done].
  pose proof (copy_all_spec (x :: xs) h2) as Hc.
  destruct (copy_all (x :: xs) h2) as [[os|] h3]; [|done].
  destruct Hc as [[-> _] _]. by injection H as <- _.
Qed.

(** What an engine records is what a reader of the report gets: after a
    successful append, a successful snapshot of the ledger holds at that
    position the owned copy of the artifact, reading past the end is refused,
    and the snapshot of a ledger of owned artifacts is exactly its contents. *)
Theorem append_snapshot_roundtrip l a h1 l' h1' h2 snap h2' :
  ledger_wf l → lg_count l < SIZE_MAX → Forall owned (lg_items l) →
  hk_artifact_ledger_append (Some l) (Some a) h1 = ((true, l'), h1') →
  hk_artifact_snapshot_from_ledger l' h2 = ((HK_STATUS_OK, snap), h2') →
  snap = Some (lg_items l ++ [owned_value a]) ∧
  hk_artifact_snapshot_copy_at snap (lg_count l) = (HK_STATUS_OK, Some (owned_value a)) ∧
  hk_artifact_snapshot_copy_at snap (lg_count l + 1) = (HK_STATUS_INVALID_ARGUMENT, None).
Proof.
  intros Hwf Hmax Ho Ha Hs. pose proof (ledger_append_spec l a h1 Hwf Hmax) as H.
  rewrite Ha in H. destruct H as (m & -> & Hm & Hi & _).
  assert (Hsnap : snap = Some (lg_items l ++ [owned_value a])).
  { rewrite (snapshot_ok _ _ _ _ Hs), Hi, fmap_app. cbn. rewrite owned_value_idemp. do 2 f_equal.
    clear -Ho. induction Ho as [|y ys Hy _ IH]; cbn; [done|]. by rewrite Hy, IH. }
  rewrite Hsnap. split; [done|]. unfold hk_artifact_snapshot_copy_at, lg_count. rewrite length_app. cbn [length].
  split.
  - destruct (Z.leb_spec (Z.of_nat (length (lg_items l) + 1)) (Z.of_nat (length (lg_items l))));
      [lia|]. rewrite Nat2Z.id. f_equal. by apply list_lookup_middle.
  - destruct (Z.leb_spec (Z.of_nat (length (lg_items l) + 1)) (Z.of_nat (length (lg_items l)) + 1));
      [done|lia].
Qed.

(** ** Witnesses *)

Definition demo_storage : hk_byte_storage :=
  ByteStorage HK_BYTE_STORAGE_INLINE (Bytes [0x1F; 0x20; 0x03; 0xD5]) [] 4.
Definition demo_artifact : hk_artifact :=
  Artifact zero_id zero_id zero_id zero_id zero_id HK_ARTIFACT_MEMORY_PATCH
    HK_ARTIFACT_COMMITTED 16 (View "hookkit.memory") (ViewNull 0) (Some "/usr/lib/a")
    demo_storage demo_storage (ByteStorage HK_BYTE_STORAGE_NONE (BytesNull 0) [] 0)
    demo_storage false [0x4000].
Definition demo_memory_heap : heap := Heap (λ _, false) 0 0x1000.
Definition demo_ledger : hk_artifact_ledger := ArtifactLedger [demo_artifact] 4.

Lemma append_ledger_atomic_witness :
  ∃ m, (hk_artifact_ledger_append_ledger (Some demo_ledger) (Some demo_ledger)
          demo_memory_heap).1 = (true, Some m) ∧ length (lg_items m) = 2%nat.
Proof.
  pose proof (append_ledger_atomic demo_ledger demo_ledger demo_memory_heap
    ltac:(by split) ltac:(by split) ltac:(done)) as H.
  destruct (hk_artifact_ledger_append_ledger _ _ _) as [[ok l'] h'] eqn:E.
  assert (ok = true) as -> by (vm_compute in E; congruence).
  destruct H as (m & -> & _ & Hi & _). exists m. split; [done|]. by rewrite Hi.
Defined.

Definition demo_sink_state : sink_state :=
  SinkState demo_memory_heap (Ids None 0 7) (Some demo_ledger)
    (Sink (Id 1 1) (Id 1 2) (Id 1 3) 0 None false 0 false 0).

Lemma sink_record_spec_witness :
  (hk_artifact_sink_record (Some demo_artifact) demo_sink_state).1 = true ∧
  sk_observed_effects (ss_sink (hk_artifact_sink_record (Some demo_artifact) demo_sink_state).2) = 16.
Proof.
  pose proof (sink_record_spec demo_artifact demo_ledger demo_sink_state
    ltac:(done) ltac:(by split) ltac:(done)) as H.
  destruct (hk_artifact_sink_record (Some demo_artifact) demo_sink_state) as [ok s'] eqn:E.
  assert (ok = true) as -> by (vm_compute in E; congruence).
  destruct H as (m & _ & _ & Hs & _). split; [done|]. cbn [fst snd]. by rewrite Hs.
Defined.

Lemma append_snapshot_roundtrip_witness :
  ∃ snap, hk_artifact_snapshot_copy_at snap 1 = (HK_STATUS_OK, Some (owned_value demo_artifact)).
Proof.
  destruct (hk_artifact_ledger_append (Some demo_ledger) (Some demo_artifact) demo_memory_heap)
    as [[ok l'] h1] eqn:E1.
  assert (ok = true) as -> by (vm_compute in E1; congruence).
  destruct (hk_artifact_snapshot_from_ledger l' demo_memory_heap) as [[st snap] h2] eqn:E2.
  assert (st = HK_STATUS_OK) as ->.
  { vm_compute in E1. injection E1 as <- _. vm_compute in E2. congruence. }
  exists snap.
  apply (append_snapshot_roundtrip demo_ledger demo_artifact _ _ _ _ _ _
           ltac:(by split) ltac:(done) ltac:(by repeat constructor) E1 E2).
Defined.
