(* ===== verification/Engine.v ===== *)
(** * The engine seam (src/core/HKEngineInternal.h)

    Engine descriptors, the eligibility tests the route search applies to them,
    and the vtable through which the core calls an engine. *)

From stdpp Require Import base list strings gmap numbers.
From S2P Require Import Prelude Types Artifacts.

(** ** Descriptors *)

Definition HK_ORIGINAL_REQ_BIT (r : hk_original_requirement) : Z :=
  Z.shiftl 1 (hk_original_requirement_code r).
Definition HK_TARGET_KIND_BIT (k : hk_target_kind) : Z := u32 (Z.shiftl 1 (hk_target_kind_code k)).
Definition HK_INSTALL_CONTEXT_BIT (c : hk_install_context) : Z :=
  u32 (Z.shiftl 1 (hk_install_context_code c)).

(** [c_engine_id] is the one string of the descriptor the core reads. *)
Record hk_engine_capabilities : Type := Capabilities {
  c_engine_id : option string;
  c_backend_group : option string;
  c_display_name : option string;
  c_target_kinds : Z;
  c_exact_image_scope_targets : Z;
  c_install_contexts : Z;
  c_architectures : Z;
  c_certified_architectures : Z;
  c_minimum_ios_version : Z;
  c_achievable_reach : Z;
  c_original_requirements : Z;
  c_prepare_effects : Z;
  c_commit_effects : Z;
  c_native_grouping : bool;
  c_supports_compensation : bool;
  c_chainable_target_kinds : Z }.

#[export] Instance hk_engine_capabilities_eta : Eta hk_engine_capabilities := λ c,
  Capabilities (c_engine_id c) (c_backend_group c) (c_display_name c) (c_target_kinds c)
    (c_exact_image_scope_targets c) (c_install_contexts c) (c_architectures c)
    (c_certified_architectures c) (c_minimum_ios_version c) (c_achievable_reach c)
    (c_original_requirements c) (c_prepare_effects c) (c_commit_effects c)
    (c_native_grouping c) (c_supports_compensation c) (c_chainable_target_kinds c).

Definition hk_effect_forbid_bit (effect : Z) : Z :=
  if effect =? HK_EFFECT_TARGET_TEXT_MUTATION then HK_FORBID_TARGET_TEXT_PATCH
  else if effect =? HK_EFFECT_IMPORT_MUTATION then HK_FORBID_IMPORT_SLOT_PATCH
  else if effect =? HK_EFFECT_OBJC_METADATA_MUTATION then HK_FORBID_OBJC_METADATA_CHANGE
  else if effect =? HK_EFFECT_SWIFT_VTABLE_MUTATION then HK_FORBID_SWIFT_VTABLE_CHANGE
  else if effect =? HK_EFFECT_EXECUTABLE_ALLOCATION then HK_FORBID_DYNAMIC_EXECUTABLE_MEMORY
  else if effect =? HK_EFFECT_STATIC_CONTINUATION_USE then HK_FORBID_STATIC_CONTINUATION
  else if effect =? HK_EFFECT_PRIVATE_SYMBOL_SCAN then HK_FORBID_PRIVATE_SYMBOL_SCAN
  else if effect =? HK_EFFECT_PROVIDER_ACTIVATION then HK_FORBID_PROVIDER_ACTIVATION
  else if effect =? HK_EFFECT_PROVIDER_IMAGE_LOAD then HK_FORBID_PROVIDER_IMAGE_LOAD
  else if effect =? HK_EFFECT_CALLBACK_REGISTRATION then HK_FORBID_CALLBACK_REGISTRATION
  else if effect =? HK_EFFECT_THREAD_CREATION then HK_FORBID_THREAD_CREATION
  else if effect =? HK_EFFECT_UNKNOWN_PROCESS_MUTATION then HK_FORBID_UNKNOWN_COMMIT_EFFECTS
  else 0.

Definition hk_effective_constraints (constraints : Z) (policy : hk_continuation_policy) : Z :=
  if decide (policy = HK_CONTINUATION_NO_DYNAMIC_EXECUTABLE_MEMORY)
  then Z.lor constraints HK_FORBID_DYNAMIC_EXECUTABLE_MEMORY
  else constraints.

(** The inner loop: one phase's effects, bit by bit. *)
Fixpoint phase_allowed (n : nat) (bit : Z) (effects constraints : Z) : bool :=
  match n with
  | O => true
  | S n =>
      let effect := Z.shiftl 1 bit in
      if Z.land effects effect =? 0 then phase_allowed n (bit + 1) effects constraints
      else
        let forbid := hk_effect_forbid_bit effect in
        if negb (forbid =? 0) && negb (Z.land constraints forbid =? 0) then false
        else phase_allowed n (bit + 1) effects constraints
  end.

Definition hk_engine_eligible_minimal_full (caps : hk_engine_capabilities)
    (kind : hk_target_kind) (required_reach : Z) (original : hk_original_requirement)
    (effective_constraints : Z) : bool :=
  if Z.land (c_target_kinds caps) (HK_TARGET_KIND_BIT kind) =? 0 then false
  else if negb (without required_reach (c_achievable_reach caps) =? 0) then false
  else if negb (c_original_requirements caps =? 0) &&
          (Z.land (c_original_requirements caps) (HK_ORIGINAL_REQ_BIT original) =? 0) then false
  else if negb (effective_constraints =? 0) then
    phase_allowed 64 0 (c_prepare_effects caps) effective_constraints &&
    phase_allowed 64 0 (c_commit_effects caps) effective_constraints
  else true.

Definition hk_engine_supports_install_context (caps : option hk_engine_capabilities)
    (context : hk_install_context) : bool :=
  match caps with
  | None => true
  | Some c =>
      if c_install_contexts c =? 0 then true
      else if hk_install_context_code HK_INSTALL_CONTEXT_ARBITRARY_RUNTIME <?
              hk_install_context_code context then false
      else negb (Z.land (c_install_contexts c) (HK_INSTALL_CONTEXT_BIT context) =? 0)
  end.

Definition hk_engine_supports_platform (caps : option hk_engine_capabilities)
    (architecture ios_version : Z) (testing_registration : bool) : bool :=
  if testing_registration || (architecture =? 0) then true
  else
    match caps with
    | None => false
    | Some c =>
        if (c_architectures c =? 0) ||
           (Z.land (c_architectures c) architecture =? 0) ||
           (Z.land (c_certified_architectures c) architecture =? 0) then false
        else (c_minimum_ios_version c =? 0) ||
             (negb (ios_version =? 0) && (c_minimum_ios_version c <=? ios_version))
    end.

Definition hk_engine_eligible_minimal (caps : hk_engine_capabilities) (kind : hk_target_kind)
    (required_reach : Z) : bool :=
  hk_engine_eligible_minimal_full caps kind required_reach HK_ORIGINAL_NONE 0.

(** ** The vtable *)

Inductive hk_prepare_result : Type :=
  HK_PREPARE_OK | HK_PREPARE_FAILED | HK_PREPARE_NOT_APPLICABLE.
Inductive hk_verify_result : Type := HK_VERIFY_UNAVAILABLE | HK_VERIFY_OK | HK_VERIFY_FAILED.

#[export] Instance hk_prepare_result_eq_dec : EqDecision hk_prepare_result.
Proof. solve_decision. Defined.
#[export] Instance hk_verify_result_eq_dec : EqDecision hk_verify_result.
Proof. solve_decision. Defined.

Record hk_prepare_diag : Type := PrepareDiag {
  pd_error_code : Z;
  pd_error_message : option string;
  pd_observed_effects : Z }.

#[export] Instance hk_prepare_diag_eta : Eta hk_prepare_diag := λ d,
  PrepareDiag (pd_error_code d) (pd_error_message d) (pd_observed_effects d).

Record hk_verify_diag : Type := VerifyDiag {
  vd_error_code : Z;
  vd_error_message : option string }.

#[export] Instance hk_verify_diag_eta : Eta hk_verify_diag := λ d,
  VerifyDiag (vd_error_code d) (vd_error_message d).

Definition no_prepare_diag : hk_prepare_diag := PrepareDiag 0 None 0.
Definition no_verify_diag : hk_verify_diag := VerifyDiag 0 None.

Record hk_engine_analysis : Type := EngineAnalysis {
  ea_eligible : bool;
  ea_achieved_reach : Z;
  ea_required_prepare_effects : Z;
  ea_required_commit_effects : Z;
  ea_route_rank : Z }.

(** What a commit callback did with its sink and returned: the artifacts it
    recorded in order (every engine of the repository ignores the result of
    [hk_artifact_sink_record]), the original it published, the continuation it
    described, and the mutation state. *)
Record commit_reply : Type := CommitReply {
  cr_artifacts : list hk_artifact;
  cr_published_original : option Z;
  cr_continuation : option hk_continuation_info;
  cr_mutation : hk_mutation_state }.

(** [hk_engine_operation_t] but for the [spec] and [sink] pointers, which the
    grouped callbacks get beside it.  A grouped callback answers with the final
    contents of each cell of the array; only the commit uses the sinks. *)
Record hk_engine_operation : Type := EngineOperation {
  op_prepared : Z;
  op_prepare_result : hk_prepare_result;
  op_prepare_diag : hk_prepare_diag;
  op_mutation : hk_mutation_state;
  op_verify_result : hk_verify_result;
  op_verify_diag : hk_verify_diag;
  op_revalidated : bool;
  op_compensated : bool }.

#[export] Instance hk_engine_operation_eta : Eta hk_engine_operation := λ o,
  EngineOperation (op_prepared o) (op_prepare_result o) (op_prepare_diag o) (op_mutation o)
    (op_verify_result o) (op_verify_diag o) (op_revalidated o) (op_compensated o).

(** The engine's side of the process: an arbitrary state [E] its callbacks read
    and change.  A callback is absent when its pointer is NULL (or, for the
    later entry points, when [struct_size] does not cover it).  [describe],
    [discover] and [analyze_operation] do not change [E]: the header requires
    them to be free of side effects. *)
Record hk_engine_vtable {E : Type} : Type := Vtable {
  vt_address : Z;
  vt_abi_version : Z;
  vt_struct_size : Z;
  vt_describe : hk_engine_capabilities;
  vt_discover : option (Z → E → bool * bool);
  vt_analyze_operation : option (Z → hk_hook_spec → E → bool * hk_engine_analysis);
  vt_prepare_one : option (hk_hook_spec → M E bool);
  vt_commit_one : option (hk_hook_spec → hk_artifact_sink → M E commit_reply);
  vt_verify_one : option (hk_hook_spec → M E (hk_verify_result * hk_verify_diag));
  vt_prepare_one_ctx : option (Z → hk_hook_spec → M E (bool * Z));
  vt_commit_one_ctx : option (Z → hk_hook_spec → Z → hk_artifact_sink → M E commit_reply);
  vt_release_prepared : option (Z → Z → M E unit);
  vt_verify_one_ctx : option (Z → hk_hook_spec → Z → M E (hk_verify_result * hk_verify_diag));
  vt_prepare_one_ctx_status :
    option (Z → hk_hook_spec → M E (hk_prepare_result * Z * hk_prepare_diag));
  vt_prepare_group_ctx :
    option (Z → list (hk_hook_spec * hk_engine_operation) →
            M E (bool * (nat → hk_engine_operation)));
  vt_revalidate_group_ctx :
    option (Z → list (hk_hook_spec * hk_engine_operation) →
            M E (bool * (nat → hk_engine_operation)));
  vt_commit_group_ctx :
    option (Z → list (hk_hook_spec * hk_engine_operation * hk_artifact_sink) →
            M E (bool * (nat → hk_engine_operation * commit_reply)));
  vt_verify_group_ctx :
    option (Z → list (hk_hook_spec * hk_engine_operation) →
            M E (bool * (nat → hk_engine_operation)));
  vt_compensate_group_ctx :
    option (Z → list (hk_hook_spec * hk_engine_operation) →
            M E (bool * (nat → hk_engine_operation)));
  vt_inspect_continuation :
    option (Z → hk_hook_spec → Z →
            M E (hk_verify_result * hk_continuation_info * hk_verify_diag)) }.
Arguments hk_engine_vtable : clear implicits.

(** [hk_engine_vtable_has_field]: whether [struct_size] covers the field. *)
Definition hk_engine_vtable_has_field {E} (vt : option (hk_engine_vtable E))
    (offset field_size : Z) : bool :=
  match vt with
  | None => false
  | Some v =>
      (vt_struct_size v =? 0) ||
      ((offset <=? vt_struct_size v) && (field_size <=? vt_struct_size v - offset))
  end.

(** Offsets on a 64-bit target: two words of header, then pointers. *)
Definition OFFSET_discover : Z := 16.
Definition OFFSET_analyze_operation : Z := 24.
Definition OFFSET_inspect_continuation : Z := 136.
Definition SIZEOF_POINTER : Z := 8.

(** ** What the eligibility test decides *)

Lemma testbit_one i : Z.testbit 1 i = (i =? 0).
Proof. destruct i as [|[]|]; done. Qed.

Lemma land_single_bit x n : 0 <= n → (Z.land x (Z.shiftl 1 n) =? 0) = negb (Z.testbit x n).
Proof.
  intros Hn. destruct (Z.testbit x n) eqn:Hx; cbn.
  - apply Z.eqb_neq. intros H. apply (f_equal (λ z, Z.testbit z n)) in H.
    by rewrite Z.land_spec, Z.shiftl_spec, Z.sub_diag, Z.bits_0, Hx in H by lia.
  - apply Z.eqb_eq, Z.bits_inj'. intros i Hi.
    rewrite Z.land_spec, Z.bits_0, Z.shiftl_spec, testbit_one by lia.
    destruct (Z.eqb_spec (i - n) 0); [|by rewrite andb_false_r].
    by replace i with n by lia; rewrite Hx.
Qed.

(** A constraint set forbids an effect bit. *)
Definition forbids (constraints bit : Z) : bool :=
  let forbid := hk_effect_forbid_bit (Z.shiftl 1 bit) in
  negb (forbid =? 0) && negb (Z.land constraints forbid =? 0).

Lemma phase_allowed_spec n bit effects constraints :
  0 <= bit →
  phase_allowed n bit effects constraints = true ↔
  ∀ i, bit <= i < bit + Z.of_nat n → Z.testbit effects i = true → forbids constraints i = false.
Proof.
  revert bit. induction n as [|n IH]; intros bit Hb; cbn [phase_allowed]; [split; [lia|done]|].
  rewrite land_single_bit by done. specialize (IH (bit + 1) ltac:(lia)).
  assert (Hsplit : (∀ i, bit <= i < bit + Z.of_nat (S n) → Z.testbit effects i = true →
                         forbids constraints i = false) ↔
    (Z.testbit effects bit = true → forbids constraints bit = false) ∧
    (∀ i, bit + 1 <= i < bit + 1 + Z.of_nat n → Z.testbit effects i = true →
          forbids constraints i = false)).
  { split.
    - intros H. split; [apply H; lia|intros i Hi; apply H; lia].
    - intros [H0 H1] i Hi Ht. destruct (decide (i = bit)) as [->|]; [by apply H0|apply H1; [lia|done]]. }
  rewrite Hsplit, <- IH. unfold forbids.
  destruct (Z.testbit effects bit); cbn [negb]; [|by split; [intros; split|intros [_ ?]]].
  destruct (_ && _); split; try done; [by intros [H _]; discriminate H|by intros [_ ?]].
Qed.

(** The eligibility test is its specification: the engine handles the
    target kind, reaches everything required, offers the original asked for
    (an engine that declares none offers all), and neither phase has an effect
    the request's constraints forbid. *)
Theorem eligible_minimal_full_iff caps kind required original constraints :
  hk_engine_eligible_minimal_full caps kind required original constraints = true ↔
  Z.land (c_target_kinds caps) (HK_TARGET_KIND_BIT kind) ≠ 0 ∧
  without required (c_achievable_reach caps) = 0 ∧
  (c_original_requirements caps = 0 ∨
   Z.testbit (c_original_requirements caps) (hk_original_requirement_code original) = true) ∧
  ∀ i, 0 <= i < 64 →
    Z.testbit (c_prepare_effects caps) i = true ∨ Z.testbit (c_commit_effects caps) i = true →
    forbids constraints i = false.
Proof.
  unfold hk_engine_eligible_minimal_full, HK_ORIGINAL_REQ_BIT.
  rewrite land_single_bit by (destruct original; cbn; lia).
  destruct (Z.eqb_spec (Z.land (c_target_kinds caps) (HK_TARGET_KIND_BIT kind)) 0) as [E1|E1]; [naive_solver|].
  destruct (Z.eqb_spec (without required (c_achievable_reach caps)) 0) as [E2|E2]; cbn [negb]; [|naive_solver].
  assert (Hphases : (if negb (constraints =? 0) then
      phase_allowed 64 0 (c_prepare_effects caps) constraints &&
      phase_allowed 64 0 (c_commit_effects caps) constraints else true) = true ↔
    ∀ i, 0 <= i < 64 →
      Z.testbit (c_prepare_effects caps) i = true ∨ Z.testbit (c_commit_effects caps) i = true →
      forbids constraints i = false).
  { destruct (Z.eqb_spec constraints 0) as [->|Hc]; cbn [negb].
    - split; [|done]. intros _ i _ _. unfold forbids. by rewrite Z.land_0_l, andb_false_r.
    - rewrite andb_true_iff, !phase_allowed_spec by lia. change (0 + Z.of_nat 64) with 64. naive_solver. }
  destruct (Z.eqb_spec (c_original_requirements caps) 0) as [E3|E3]; cbn [negb andb].
  - rewrite Hphases. tauto.
  - destruct (Z.testbit (c_original_requirements caps) _); cbn [negb]; [rewrite Hphases; tauto|].
    split; [done|]. intros (_ & _ & [?|?] & _); done.
Qed.
