(* ===== verification/Plan.v ===== *)
(** * Plans: state and construction (src/core/HKPlanInternal.h,
    src/core/HKRuntimeInternal.h, src/core/HKPlan.c up to hk_plan_add_hook)

    The process as the core sees it, and the operations that build a plan:
    creation, domains, hooks with their deep-copied targets.  The lifecycle that
    follows is in Analyze.v, Prepare.v, Commit.v and Pending.v. *)

From stdpp Require Import base list strings gmap numbers.
From S2P Require Import Prelude Types Ownership ImageCatalog Artifacts Engine.

Section Plan.
Context {E : Type}.

(** ** Data *)

(** [struct hk_domain], with its address. *)
Record hk_domain : Type := Domain {
  d_address : Z;
  d_domain_id : hk_id;
  d_spec : hk_domain_spec }.

(** [struct hk_hook], with its address.  The owned_* buffers are the storage
    of what [h_spec] holds by value; [h_prepared_continuation] is [None] while
    [has_prepared_continuation] is false. *)
Record hk_hook : Type := Hook {
  h_address : Z;
  h_hook_id : hk_id;
  h_spec : hk_hook_spec;
  h_target_key : option (list Z);
  h_matched_engine : option (hk_engine_vtable E);
  h_matched_engine_ctx : Z;
  h_prepared_state : Z;
  h_prepared_continuation : option hk_continuation_info;
  h_installed : option hk_installed_hook;
  h_result : hk_hook_result }.

#[export] Instance hk_hook_eta : Eta hk_hook := λ h,
  Hook (h_address h) (h_hook_id h) (h_spec h) (h_target_key h) (h_matched_engine h)
    (h_matched_engine_ctx h) (h_prepared_state h) (h_prepared_continuation h) (h_installed h)
    (h_result h).

(** [struct hk_plan]; [plan->runtime] is the runtime of the state below. *)
Record hk_plan : Type := Plan {
  pl_plan_id : hk_id;
  pl_debug_label : option string;
  pl_state : hk_plan_state;
  pl_domains : list hk_domain;
  pl_domain_capacity : Z;
  pl_hooks : list hk_hook;
  pl_hook_capacity : Z }.

#[export] Instance hk_plan_eta : Eta hk_plan := λ p,
  Plan (pl_plan_id p) (pl_debug_label p) (pl_state p) (pl_domains p) (pl_domain_capacity p)
    (pl_hooks p) (pl_hook_capacity p).

(** [engines[i]], [engine_ctxs[i]], [engine_testing[i]]. *)
Record engine_slot : Type := EngineSlot {
  es_vtable : hk_engine_vtable E;
  es_ctx : Z;
  es_testing : bool }.

(** The part of [struct hk_runtime] a plan reads and changes. *)
Record hk_runtime : Type := Runtime {
  rt_owner_id : hk_id;
  rt_install_context : hk_install_context;
  rt_platform_architecture : Z;
  rt_platform_ios_version : Z;
  rt_engines : list engine_slot;
  rt_catalog : option hk_image_catalog;
  rt_pending : list hk_hook;
  rt_pending_capacity : Z;
  rt_artifacts : option hk_artifact_ledger }.

#[export] Instance hk_runtime_eta : Eta hk_runtime := λ r,
  Runtime (rt_owner_id r) (rt_install_context r) (rt_platform_architecture r)
    (rt_platform_ios_version r) (rt_engines r) (rt_catalog r) (rt_pending r)
    (rt_pending_capacity r) (rt_artifacts r).

(** What engines were asked to do, oldest first: a ghost record. *)
Inductive event : Type :=
  | EvPrepared (engine ctx prepared : Z)
  | EvReleased (engine ctx prepared : Z)
  | EvCommit (hook : Z).

(** The variables of the lifecycle call that is running. *)
Record locals : Type := Locals {
  l_results : list hk_hook_result;
  l_ledger : option hk_artifact_ledger;
  l_gate_ok : list bool;
  l_prepare_failed : list bool;
  l_attempted : Z;
  l_prepared : Z;
  l_active : Z;
  l_failed : Z }.

#[export] Instance locals_eta : Eta locals := λ l,
  Locals (l_results l) (l_ledger l) (l_gate_ok l) (l_prepare_failed l) (l_attempted l)
    (l_prepared l) (l_active l) (l_failed l).

Definition no_locals : locals := Locals [] None [] [] 0 0 0 0.

(** The process: allocator, identifiers, the process-lifetime ledgers and
    registry, the engines' state, a runtime, a plan of it. *)
Record sys : Type := Sys {
  s_heap : heap;
  s_ids : ids;
  s_owners : list Ledger.record;
  s_process : option hk_artifact_ledger;
  s_installed : list hk_installed_hook;
  s_engine : E;
  s_trace : list event;
  s_runtime : hk_runtime;
  s_plan : hk_plan;
  s_locals : locals }.

#[export] Instance sys_eta : Eta sys := λ s,
  Sys (s_heap s) (s_ids s) (s_owners s) (s_process s) (s_installed s) (s_engine s)
    (s_trace s) (s_runtime s) (s_plan s) (s_locals s).

(** Computations on one component. *)
Definition on_heap {A} (m : M heap A) : M sys A := zoom s_heap (λ h s, s <| s_heap := h |>) m.
Definition on_ids {A} (m : M ids A) : M sys A := zoom s_ids (λ i s, s <| s_ids := i |>) m.
Definition on_engine {A} (m : M E A) : M sys A := zoom s_engine (λ e s, s <| s_engine := e |>) m.
Definition on_locals (f : locals → locals) : M sys unit :=
  modify (λ s, s <| s_locals := f (s_locals s) |>).
Definition on_plan (f : hk_plan → hk_plan) : M sys unit :=
  modify (λ s, s <| s_plan := f (s_plan s) |>).
Definition on_runtime (f : hk_runtime → hk_runtime) : M sys unit :=
  modify (λ s, s <| s_runtime := f (s_runtime s) |>).
Definition trace (e : event) : M sys unit := modify (λ s, s <| s_trace := s_trace s ++ [e] |>).

Definition catalog_generation : M sys Z :=
  gets (λ s, hk_image_catalog_generation (rt_catalog (s_runtime s))).

(** ** Deep copies *)

(** [hk_strdup_checked]: whether the copy was made. *)
Definition hk_strdup_checked (s : option string) : M heap bool :=
  match s with None => ret true | Some _ => alloc end.

(** [hk_bytes_dup_checked]: the copy, [None] for [false]. *)
Definition hk_bytes_dup_checked (src : bytes_view) : M heap (option bytes_view) :=
  match src with
  | BytesNull _ | Bytes [] => ret (Some (BytesNull 0))
  | Bytes data => ok <- alloc ;; ret (if ok then Some (Bytes data) else None)
  end.

Definition HK_MAX_IMAGE_SELECTOR_DEPTH : Z := 32.

(** The loop over the children of a set. *)
Section CopyChildren.
Context (copy_child : image_selector → M heap (hk_status * option image_selector)).
Fixpoint copy_children (elems : list (option image_selector))
    : M heap (hk_status * list (option image_selector)) :=
  match elems with
  | [] => ret (HK_STATUS_OK, [])
  | None :: _ => ret (HK_STATUS_INVALID_ARGUMENT, [])
  | Some child :: rest =>
      copied <- copy_child child ;;
      match copied with
      | (HK_STATUS_OK, copy) =>
          more <- copy_children rest ;; ret (more.1, copy :: more.2)
      | (status, _) => ret (status, [])
      end
  end.
End CopyChildren.

Fixpoint hk_image_selector_copy_owned (src : image_selector) (depth : Z) {struct src}
    : M heap (hk_status * option image_selector) :=
  let '(Selector kind extra set) := src in
  if HK_MAX_IMAGE_SELECTOR_DEPTH <? depth then ret (HK_STATUS_INVALID_ARGUMENT, None)
  else
    owned <- alloc ;;
    if negb owned then ret (HK_STATUS_OUT_OF_MEMORY, None)
    else
      path <- hk_strdup_checked (se_path extra) ;;
      if negb path then ret (HK_STATUS_OUT_OF_MEMORY, None)
      else
        match kind with
        | HK_IMAGE_EXPLICIT_SET =>
            match set with
            | SetNull count =>
                if 0 <? count then ret (HK_STATUS_INVALID_ARGUMENT, None)
                else ret (HK_STATUS_OK, Some (Selector kind extra (SetNull 0)))
            | SetArray [] => ret (HK_STATUS_OK, Some (Selector kind extra (SetNull 0)))
            | SetArray elems =>
                if SIZE_MAX / 8 <? Z.of_nat (length elems)
                then ret (HK_STATUS_INVALID_ARGUMENT, None)
                else
                  children <- alloc ;;
                  views <- alloc ;;
                  if negb children || negb views then ret (HK_STATUS_OUT_OF_MEMORY, None)
                  else
                    copied <- copy_children
                      (λ child, hk_image_selector_copy_owned child (depth + 1)) elems ;;
                    match copied with
                    | (HK_STATUS_OK, copies) =>
                        ret (HK_STATUS_OK, Some (Selector kind extra (SetArray copies)))
                    | (status, _) => ret (status, None)
                    end
            end
        | _ => ret (HK_STATUS_OK, Some (Selector kind extra (SetNull 0)))
        end.

Definition hk_image_selector_copy (src : image_selector)
    : M heap (hk_status * option image_selector) := hk_image_selector_copy_owned src 0.

(** Continue with the copy of a selector, or stop with its status. *)
Definition with_selector {A} (src : image_selector)
    (k : image_selector → M heap (hk_status * option A)) : M heap (hk_status * option A) :=
  copied <- hk_image_selector_copy src ;;
  match copied with
  | (HK_STATUS_OK, Some copy) => k copy
  | (HK_STATUS_OK, None) => ret (HK_STATUS_INTERNAL_ERROR, None)
  | (status, _) => ret (status, None)
  end.

Definition with_string {A} (src : option string) (k : M heap (hk_status * option A))
    : M heap (hk_status * option A) :=
  ok <- hk_strdup_checked src ;; if ok then k else ret (HK_STATUS_OUT_OF_MEMORY, None).

Definition with_bytes {A} (src : bytes_view) (k : bytes_view → M heap (hk_status * option A))
    : M heap (hk_status * option A) :=
  copied <- hk_bytes_dup_checked src ;;
  match copied with Some copy => k copy | None => ret (HK_STATUS_OUT_OF_MEMORY, None) end.

(** [hk_hook_copy_target]: the target the hook owns. *)
Definition hk_hook_copy_target (target : hk_target) : M heap (hk_status * option hk_target) :=
  match target with
  | TSymbol src =>
      with_string (sy_name src)
        (with_selector (sy_defining_image src) (λ defining,
         with_selector (sy_caller_image_scope src) (λ caller,
           ret (HK_STATUS_OK, Some (TSymbol
             (src <| sy_defining_image := defining |> <| sy_caller_image_scope := caller |>))))))
  | TAddress src =>
      with_selector (ad_expected_image src) (λ image,
        with_bytes (ad_expected_initial_bytes src) (λ bytes,
          ret (HK_STATUS_OK, Some (TAddress
            (src <| ad_expected_image := image |> <| ad_expected_initial_bytes := bytes |>)))))
  | TObjc src =>
      with_string (oc_class_name src)
        (with_string (oc_selector_name src) (ret (HK_STATUS_OK, Some (TObjc src))))
  | TMemory src =>
      let with_base (k : image_selector → M heap (hk_status * option hk_target)) :=
        if me_address_is_image_relative src then with_selector (me_base_image src) k
        else k zero_selector in
      with_base (λ base,
        with_bytes (me_replacement_bytes src) (λ replacement,
        with_bytes (me_expected_bytes src) (λ expected,
        with_bytes (me_expected_mask src) (λ mask,
          ret (HK_STATUS_OK, Some (TMemory
            (src <| me_base_image := base |> <| me_replacement_bytes := replacement |>
                 <| me_expected_bytes := expected |> <| me_expected_mask := mask |>)))))))
  | TSwift | TOther _ => ret (HK_STATUS_UNAVAILABLE, None)
  end.

(** ** Creating a plan *)

(** [hk_plan_config_t]: [struct_size] and the label. *)
Definition hk_plan_create (runtime out : bool) (config : option (Z * option string))
    : M sys hk_status :=
  if negb runtime || negb out then ret HK_STATUS_INVALID_ARGUMENT
  else if match config with Some (size, _) => size <? SIZEOF_PLAN_CONFIG | None => false end
  then ret HK_STATUS_INVALID_ARGUMENT
  else
    plan <- on_heap alloc ;;
    if negb plan then ret HK_STATUS_OUT_OF_MEMORY
    else
      id <- on_ids hk_id_generate ;;
      let label := match config with Some (_, l) => l | None => None end in
      copied <- on_heap (hk_strdup_checked label) ;;
      if negb copied then ret HK_STATUS_OUT_OF_MEMORY
      else
        on_plan (λ _, Plan id label HK_PLAN_DRAFT [] 0 [] 0) ;;;
        ret HK_STATUS_OK.

Definition hk_plan_state_of (plan : option hk_plan) : hk_plan_state :=
  match plan with Some p => pl_state p | None => HK_PLAN_DISCARDED end.

(** The doubling of the two pointer arrays: the new capacity. *)
Definition grow_array (count capacity : Z) : M heap (option Z) :=
  if count =? capacity then
    ok <- alloc ;; ret (if ok then Some (if capacity =? 0 then 4 else capacity * 2) else None)
  else ret (Some capacity).

Definition hk_plan_define_domain (plan out : bool) (spec : option hk_domain_spec)
    : M sys (hk_status * Z) :=
  p <- gets s_plan ;;
  match spec with
  | None => ret (HK_STATUS_INVALID_ARGUMENT, 0)
  | Some spec =>
      if negb plan || negb out then ret (HK_STATUS_INVALID_ARGUMENT, 0)
      else if negb (bool_decide (pl_state p = HK_PLAN_DRAFT)) then ret (HK_STATUS_INVALID_STATE, 0)
      else if ds_struct_size spec <? SIZEOF_DOMAIN_SPEC then ret (HK_STATUS_INVALID_ARGUMENT, 0)
      else if bool_decide (ds_stable_domain_id spec = None)
      then ret (HK_STATUS_INVALID_ARGUMENT, 0)
      else if existsb (λ d, bool_decide (ds_stable_domain_id (d_spec d) = ds_stable_domain_id spec))
                (pl_domains p)
      then ret (HK_STATUS_INVALID_ARGUMENT, 0)
      else
        address <- on_heap alloc_object ;;
        if address =? 0 then ret (HK_STATUS_OUT_OF_MEMORY, 0)
        else
          copied <- on_heap alloc ;;
          if negb copied then ret (HK_STATUS_OUT_OF_MEMORY, 0)
          else
            id <- on_ids hk_id_generate ;;
            let domain := Domain address id (spec <| ds_struct_size := SIZEOF_DOMAIN_SPEC |>) in
            grown <- on_heap (grow_array (Z.of_nat (length (pl_domains p))) (pl_domain_capacity p)) ;;
            match grown with
            | None => ret (HK_STATUS_OUT_OF_MEMORY, 0)
            | Some capacity =>
                on_plan (λ p, p <| pl_domains := pl_domains p ++ [domain] |>
                                <| pl_domain_capacity := capacity |>) ;;;
                ret (HK_STATUS_OK, address)
            end
  end.

(** ** Adding a hook *)

Definition hk_hooks_target_equal (left right : hk_hook) : bool :=
  match h_target_key left, h_target_key right with
  | Some k, Some l => bool_decide (k = l)
  | _, _ => false
  end.

(** The checks before the hook is allocated, in order. *)
Definition add_hook_rejects (p : hk_plan) (spec : hk_hook_spec) : bool :=
  (hs_struct_size spec <? SIZEOF_HOOK_SPEC) ||
  bool_decide (hs_stable_hook_id spec = None) ||
  match hs_target spec with
  | TMemory t => match me_expected_bytes t with BytesNull _ => true | Bytes _ => false end
  | _ => false
  end ||
  (bool_decide (hs_original_requirement spec = HK_ORIGINAL_CALLABLE_CONTINUATION) &&
   bool_decide (hs_continuation_policy spec = HK_CONTINUATION_FORBIDDEN)) ||
  existsb (λ h, bool_decide (hs_stable_hook_id (h_spec h) = hs_stable_hook_id spec)) (pl_hooks p) ||
  (negb (hs_domain spec =? 0) &&
   negb (existsb (λ d, d_address d =? hs_domain spec) (pl_domains p))) ||
  match hs_commit_after spec with AfterNull n => 0 <? n | After _ => false end ||
  existsb (λ a, (a =? 0) || negb (existsb (λ h, h_address h =? a) (pl_hooks p)))
    (commit_after spec).

Section AddHook.
Context (pac_strip_code : Z → Z).

(** [release]: a hook that fails half-built has no prepared state to release. *)
Definition hk_plan_add_hook_impl (plan out : bool) (spec : option hk_hook_spec)
    : M sys (hk_status * Z) :=
  p <- gets s_plan ;;
  match spec with
  | None => ret (HK_STATUS_INVALID_ARGUMENT, 0)
  | Some spec =>
      if negb plan || negb out then ret (HK_STATUS_INVALID_ARGUMENT, 0)
      else if negb (bool_decide (pl_state p = HK_PLAN_DRAFT)) then ret (HK_STATUS_INVALID_STATE, 0)
      else if add_hook_rejects p spec then ret (HK_STATUS_INVALID_ARGUMENT, 0)
      else
        address <- on_heap alloc_object ;;
        if address =? 0 then ret (HK_STATUS_OUT_OF_MEMORY, 0)
        else
          named <- on_heap (hk_strdup_checked (hs_stable_hook_id spec)) ;;
          if negb named then ret (HK_STATUS_OUT_OF_MEMORY, 0)
          else
            copied <- on_heap (hk_hook_copy_target (hs_target spec)) ;;
            match copied with
            | (HK_STATUS_OK, Some target) =>
                let spec := spec <| hs_struct_size := SIZEOF_HOOK_SPEC |>
                                 <| hs_target := target |> in
                key <- on_heap (Build.hk_ownership_target_key_copy pac_strip_code (Some spec)) ;;
                match key with
                | None => ret (HK_STATUS_OUT_OF_MEMORY, 0)
                | Some key =>
                    let hook := Hook address zero_id spec (Some key) None 0 0 None None zero_result in
                    if existsb (λ h, hk_hooks_target_equal h hook) (pl_hooks p)
                    then ret (HK_STATUS_INVALID_ARGUMENT, 0)
                    else
                      after <- on_heap (if 0 <? commit_after_count spec then alloc else ret true) ;;
                      if negb after then ret (HK_STATUS_OUT_OF_MEMORY, 0)
                      else
                        id <- on_ids hk_id_generate ;;
                        let hook := hook <| h_hook_id := id |>
                          <| h_result := zero_result <| r_request_id := id |> |> in
                        grown <- on_heap (grow_array (Z.of_nat (length (pl_hooks p)))
                                            (pl_hook_capacity p)) ;;
                        match grown with
                        | None => ret (HK_STATUS_OUT_OF_MEMORY, 0)
                        | Some capacity =>
                            on_plan (λ p, p <| pl_hooks := pl_hooks p ++ [hook] |>
                                            <| pl_hook_capacity := capacity |>) ;;;
                            ret (HK_STATUS_OK, address)
                        end
                end
            | (HK_STATUS_OK, None) => ret (HK_STATUS_INTERNAL_ERROR, 0)
            | (status, _) => ret (status, 0)
            end
  end.

Definition hk_plan_add_hook := hk_plan_add_hook_impl.

End AddHook.

(** Accessors. *)
Definition hk_hook_copy_result (hook : option hk_hook) : hk_status * option hk_hook_result :=
  match hook with
  | Some h => (HK_STATUS_OK, Some (h_result h))
  | None => (HK_STATUS_INVALID_ARGUMENT, None)
  end.

Definition hk_hook_installed_handle (hook : option hk_hook) : option hk_installed_hook :=
  hook ≫= h_installed.

Definition hk_hook_original_slot (hook : option hk_hook) : option hk_installed_hook :=
  match hook ≫= h_installed with
  | Some i => if in_has_original i then Some i else None
  | None => None
  end.

End Plan.
Arguments hk_hook : clear implicits.
Arguments hk_plan : clear implicits.
Arguments engine_slot : clear implicits.
Arguments hk_runtime : clear implicits.
Arguments sys : clear implicits.
