(* ===== verification/Memory.v ===== *)
(** * Readable memory

    What the resolvers are given: memory they may read, and addresses into
    it.  A read of an address nobody granted is undefined behaviour in C; here
    the computation has no result.  That a computation [runs] is therefore the
    absence of out-of-bounds reads, together with what its result satisfies. *)

From stdpp Require Import base list numbers option.
From S2P Require Import Prelude.

(** The bytes that may be read, by address. *)
Definition memory : Type := Z → option Z.

Section Reads.
Context (mem : memory).

(** The [n] bytes at [a], least significant first: [memcpy] into an integer
    on the little-endian machines the code runs on. *)
Fixpoint read_le (n : nat) (a : Z) : option Z :=
  match n with
  | O => Some 0
  | S n => b ← mem a; rest ← read_le n (a + 1); Some (b + 256 * rest)
  end.

Definition read_u8 (a : Z) : option Z := mem a.
Definition read_u16 (a : Z) : option Z := read_le 2 a.
Definition read_u32 (a : Z) : option Z := read_le 4 a.
Definition read_u64 (a : Z) : option Z := read_le 8 a.

(** [memcpy] of [n] bytes *)
Fixpoint read_bytes (n : nat) (a : Z) : option (list Z) :=
  match n with
  | O => Some []
  | S n => b ← mem a; rest ← read_bytes n (a + 1); Some (b :: rest)
  end.

(** [size] bytes at [base] may be read, and are bytes. *)
Definition readable (base size : Z) : Prop :=
  ∀ i : Z, 0 <= i < size → ∃ b : Z, mem (base + i) = Some b ∧ 0 <= b < 256.

(** The bytes [l] are stored at [base]. *)
Definition holds (base : Z) (l : list Z) : Prop :=
  ∀ i b, l !! i = Some b → mem (base + Z.of_nat i) = Some b.
End Reads.

(** The memory that holds exactly [l], from [base] on. *)
Definition memory_of (base : Z) (l : list Z) : memory := λ a,
  if a <? base then None else l !! Z.to_nat (a - base).

(** The field of a C string: the bytes up to the first NUL, or all of them. *)
Fixpoint until_nul (l : list Z) : list Z :=
  match l with
  | [] => []
  | c :: l => if c =? 0 then [] else c :: until_nul l
  end.

(** A C string without its terminator. *)
Definition cstring (l : list Z) : Prop := Forall (λ c, 0 < c < 256) l.

(** ** Computations that may fault *)

Definition runs {A} (m : option A) (Q : A → Prop) : Prop :=
  match m with Some v => Q v | None => False end.

Section Runs.
Context {A B : Type}.
Implicit Types (m : option A) (Q : A → Prop).

Lemma runs_ret (v : A) Q : Q v → runs (Some v) Q.
Proof. done. Qed.

Lemma runs_conseq m Q Q' : runs m Q → (∀ v, Q v → Q' v) → runs m Q'.
Proof. destruct m; cbn; auto. Qed.

Lemma runs_bind m (k : A → option B) R (Q : B → Prop) :
  runs m R → (∀ v, R v → runs (k v) Q) → runs (m ≫= k) Q.
Proof. destruct m; cbn; [auto|done]. Qed.

Lemma runs_if (b : bool) m1 m2 Q :
  (b = true → runs m1 Q) → (b = false → runs m2 Q) → runs (if b then m1 else m2) Q.
Proof. destruct b; auto. Qed.

Lemma runs_some m Q : runs m Q ↔ ∃ v, m = Some v ∧ Q v.
Proof.
  destruct m as [v|]; cbn; split; [by exists v|by intros (? & [= <-] & ?)|done|by intros (? & ? & _)].
Qed.

Lemma runs_and m Q Q' : runs m Q → runs m Q' → runs m (λ v, Q v ∧ Q' v).
Proof. destruct m; cbn; auto. Qed.
End Runs.

(** A disjunction of words is a word. *)
Lemma lor_below a b n : 0 <= n → 0 <= a < 2 ^ n → 0 <= b < 2 ^ n → 0 <= Z.lor a b < 2 ^ n.
Proof.
  intros Hn Ha Hb. split; [apply Z.lor_nonneg; lia|].
  rewrite <- (Z.mod_small a (2 ^ n)), <- (Z.mod_small b (2 ^ n)) by done.
  rewrite <- !Z.land_ones, <- Z.land_lor_distr_l, Z.land_ones by done.
  apply Z.mod_pos_bound. lia.
Qed.

(** ** Computations that may also refuse

    A function that returns a status and fills an out-parameter when the
    status is OK: [inl] is the other status. *)

Abbreviation checked E A := (option (sum E A)).

Definition check_bind {E A B} (m : checked E A) (k : A → checked E B) : checked E B :=
  match m with
  | None => None
  | Some (inl e) => Some (inl e)
  | Some (inr a) => k a
  end.

Definition refuse {E A} (e : E) : checked E A := Some (inl e).
Definition accept {E A} (a : A) : checked E A := Some (inr a).

Notation "x <~ m ;; k" := (check_bind m (λ x, k))
  (at level 100, m at next level, right associativity) : monad_scope.
(** A result that, where there is one, satisfies [Q]. *)
Definition accepted {E A} (Q : A → Prop) (r : E + A) : Prop :=
  match r with inl _ => True | inr a => Q a end.

Lemma runs_check {E A B} (m : checked E A) (k : A → checked E B) R (Q : B → Prop) :
  runs m (accepted R) → (∀ a, R a → runs (k a) (accepted Q)) →
  runs (check_bind m k) (accepted Q).
Proof. destruct m as [[e|a]|]; cbn; auto. Qed.

Lemma runs_checked {E A} (m : checked E A) (Q Q' : A → Prop) :
  runs m (accepted Q) → (∀ a, Q a → Q' a) → runs m (accepted Q').
Proof. destruct m as [[e|a]|]; cbn; auto. Qed.

(** ** Reads inside a readable region *)

Section Region.
Context {mem : memory}.

Lemma readable_sub base size off n :
  readable mem base size → 0 <= off → off + n <= size → readable mem (base + off) n.
Proof.
  intros H Hoff Hn i Hi. destruct (H (off + i) ltac:(lia)) as (b & Hb & Hrange).
  exists b. by rewrite <- Z.add_assoc.
Qed.

Lemma runs_read_le n a :
  readable mem a (Z.of_nat n) → runs (read_le mem n a) (λ v, 0 <= v < 2 ^ (8 * Z.of_nat n)).
Proof.
  revert a. induction n as [|n IH]; intros a H; [cbn; lia|]. cbn [read_le].
  destruct (H 0 ltac:(lia)) as (b & Hb & Hrange). rewrite Z.add_0_r in Hb. rewrite Hb. cbn.
  eapply runs_bind; [apply (IH (a + 1))|].
  - eapply readable_sub; [exact H|lia|lia].
  - intros v Hv. cbn beta in Hv. apply runs_ret.
    rewrite Nat2Z.inj_succ, Z.mul_succ_r, Z.pow_add_r by lia. lia.
Qed.

Lemma runs_at n base size off :
  readable mem base size → 0 <= off → off + Z.of_nat n <= size →
  runs (read_le mem n (base + off)) (λ v, 0 <= v < 2 ^ (8 * Z.of_nat n)).
Proof. intros. apply runs_read_le. by eapply readable_sub. Qed.

Lemma runs_u8 base size off :
  readable mem base size → 0 <= off → off < size →
  runs (read_u8 mem (base + off)) (λ v, 0 <= v < 256).
Proof.
  intros H Hoff Hlt. destruct (H off ltac:(lia)) as (b & Hb & Hrange).
  unfold read_u8. by rewrite Hb.
Qed.

Lemma runs_u16 base size off :
  readable mem base size → 0 <= off → off + 2 <= size →
  runs (read_u16 mem (base + off)) (λ v, 0 <= v < 2 ^ 16).
Proof. intros. by eapply runs_at. Qed.

Lemma runs_u32 base size off :
  readable mem base size → 0 <= off → off + 4 <= size →
  runs (read_u32 mem (base + off)) is_u32.
Proof. intros. by eapply runs_at. Qed.

Lemma runs_u64 base size off :
  readable mem base size → 0 <= off → off + 8 <= size →
  runs (read_u64 mem (base + off)) is_u64.
Proof. intros. by eapply runs_at. Qed.

Lemma runs_bytes n base size off :
  readable mem base size → 0 <= off → off + Z.of_nat n <= size →
  runs (read_bytes mem n (base + off))
    (λ l, length l = n ∧ Forall (λ b, 0 <= b < 256) l).
Proof.
  revert off. induction n as [|n IH]; intros off H Hoff Hn; [cbn; done|]. cbn [read_bytes].
  eapply runs_bind; [eapply runs_u8; [done..|lia]|]. intros b Hb.
  rewrite <- Z.add_assoc. eapply runs_bind; [apply IH; [done|lia..]|].
  intros l [Hl HF]. split; [cbn; by rewrite Hl|by constructor].
Qed.
End Region.

(** ** Stored bytes *)

Lemma holds_app mem base l1 l2 :
  holds mem base (l1 ++ l2) ↔ holds mem base l1 ∧ holds mem (base + Z.of_nat (length l1)) l2.
Proof.
  split.
  - intros H. split.
    + intros i b Hi. apply H. by apply lookup_app_l_Some.
    + intros i b Hi. rewrite <- Z.add_assoc, <- Nat2Z.inj_add. apply H.
      rewrite lookup_app_r by lia. rewrite <- Hi. f_equal. lia.
  - intros [H1 H2] i b Hi. apply lookup_app_Some in Hi as [Hi|[Hlen Hi]]; [by apply H1|].
    specialize (H2 _ _ Hi). rewrite <- H2. f_equal. lia.
Qed.

Lemma holds_cons mem base x l :
  holds mem base (x :: l) ↔ mem base = Some x ∧ holds mem (base + 1) l.
Proof.
  rewrite (holds_app mem base [x] l). cbn [length Z.of_nat]. split; intros [H1 H2]; split; try done.
  - specialize (H1 0%nat x eq_refl). by rewrite Z.add_0_r in H1.
  - intros [|i] b Hi; [|done]. injection Hi as <-. by rewrite Z.add_0_r.
Qed.

Lemma holds_memory_of base l : holds (memory_of base l) base l.
Proof.
  intros i b Hi. unfold memory_of. destruct (Z.ltb_spec (base + Z.of_nat i) base); [lia|].
  rewrite <- Hi. f_equal. lia.
Qed.

Lemma readable_memory_of base l :
  Forall (λ b, 0 <= b < 256) l → readable (memory_of base l) base (Z.of_nat (length l)).
Proof.
  intros HF i Hi. destruct (lookup_lt_is_Some_2 l (Z.to_nat i) ltac:(lia)) as [b Hb].
  exists b. split.
  - rewrite <- (Z2Nat.id i) by lia. by apply holds_memory_of.
  - by eapply Forall_lookup_1 in HF.
Qed.

(** [holds], by evaluation. *)
Fixpoint holdsb (mem : memory) (base : Z) (l : list Z) : bool :=
  match l with
  | [] => true
  | x :: l => bool_decide (mem base = Some x) && holdsb mem (base + 1) l
  end.

Lemma holdsb_holds mem base l : holdsb mem base l = true → holds mem base l.
Proof.
  revert base. induction l as [|x l IH]; intros base H; [done|].
  apply andb_true_iff in H as [Hx%bool_decide_eq_true H]. apply holds_cons. auto.
Qed.

Lemma until_nul_terminated s rest : cstring s → until_nul (s ++ 0 :: rest) = s.
Proof.
  induction 1 as [|c s Hc Hs IH]; [done|]. cbn. destruct (Z.eqb_spec c 0); [lia|]. by rewrite IH.
Qed.

Arguments read_le : simpl never.
Arguments read_bytes : simpl never.
