(* ===== verification/Faults.v ===== *)
(** * Computations that read memory which may not be mapped

    A read outside what is mapped has no result, and neither has what it is part
    of; everything else threads the state as [M] does. *)

From stdpp Require Import base numbers option.
From S2P Require Import Prelude Memory.

(** Total memory, where it is mapped. *)
Definition mapped_memory (mapped : Z → bool) (mem : Z → Z) : memory := λ a,
  if mapped a then Some (mem a) else None.

Definition F (S A : Type) : Type := S → option (A * S).

Section Monad.
Context {S : Type}.

Definition fret {A} (a : A) : F S A := λ s, Some (a, s).
Definition fbind {A B} (m : F S A) (k : A → F S B) : F S B := λ s, '(a, s) ← m s; k a s.

(** A computation that cannot fault. *)
Definition lift {A} (m : M S A) : F S A := λ s, Some (m s).

(** A read, of the state's memory. *)
Definition fetch {A} (f : S → option A) : F S A := λ s, a ← f s; Some (a, s).

(** Comes back, with [Q] of the answer and the state. *)
Definition returns {A} (m : F S A) (s : S) (Q : A → S → Prop) : Prop :=
  runs (m s) (λ r, Q r.1 r.2).

Lemma returns_ret {A} (a : A) s (Q : A → S → Prop) : Q a s → returns (fret a) s Q.
Proof. done. Qed.

Lemma returns_bind {A B} (m : F S A) (k : A → F S B) s (R : A → S → Prop) (Q : B → S → Prop) :
  returns m s R → (∀ a s', R a s' → returns (k a) s' Q) → returns (fbind m k) s Q.
Proof.
  intros Hm Hk. unfold returns, fbind in *. eapply runs_bind; [exact Hm|]. intros [a s'] H. by apply Hk.
Qed.

Lemma returns_conseq {A} (m : F S A) s (R Q : A → S → Prop) :
  returns m s R → (∀ a s', R a s' → Q a s') → returns m s Q.
Proof. intros Hm H. eapply runs_conseq; [exact Hm|]. intros [a s']. apply H. Qed.

Lemma returns_lift {A} (m : M S A) s (Q : A → S → Prop) : Q (m s).1 (m s).2 → returns (lift m) s Q.
Proof. done. Qed.

Lemma returns_fetch {A} (f : S → option A) s (Q : A → S → Prop) :
  runs (f s) (λ a, Q a s) → returns (fetch f) s Q.
Proof. intros H. unfold returns, fetch. eapply runs_bind; [exact H|]. by intros a Ha. Qed.

Lemma returns_some {A} (m : F S A) s (Q : A → S → Prop) :
  returns m s Q → ∃ a s', m s = Some (a, s') ∧ Q a s'.
Proof. intros ([a s'] & E & H)%runs_some. by exists a, s'. Qed.
End Monad.

Notation "x <-- m ;; k" := (fbind m (λ x, k))
  (at level 100, m at next level, right associativity) : monad_scope.
