(* ===== verification/ExportTrie.v ===== *)
(** * HKExportTrie.c: walking a Mach-O export trie

    The ULEB128 reader, the terminal decoder and the walk, over a memory whose
    bytes are arbitrary; then what a trie laid out in memory means, and that
    the walk finds it. *)

From stdpp Require Import base list numbers option.
From S2P Require Import Prelude Memory.

Inductive hk_export_status : Type :=
  | HK_EXPORT_OK | HK_EXPORT_NOT_FOUND | HK_EXPORT_MALFORMED
  | HK_EXPORT_INVALID_ARGUMENT | HK_EXPORT_UNSUPPORTED_KIND.

#[export] Instance hk_export_status_eq_dec : EqDecision hk_export_status.
Proof. solve_decision. Defined.

Record hk_export_symbol : Type := ExportSymbol {
  es_flags : Z;
  es_address : Z;
  es_other : Z;
  es_is_weak : bool;
  es_is_thread_local : bool;
  es_is_absolute : bool;
  es_is_reexport : bool;
  es_is_stub_and_resolver : bool }.

#[export] Instance hk_export_symbol_eta : Eta hk_export_symbol := λ r,
  ExportSymbol (es_flags r) (es_address r) (es_other r) (es_is_weak r) (es_is_thread_local r)
    (es_is_absolute r) (es_is_reexport r) (es_is_stub_and_resolver r).

Definition HK_EXPORT_FLAGS_KIND_MASK : Z := 0x03.
Definition HK_EXPORT_FLAGS_KIND_THREAD_LOCAL : Z := 0x01.
Definition HK_EXPORT_FLAGS_KIND_ABSOLUTE : Z := 0x02.
Definition HK_EXPORT_FLAGS_WEAK_DEFINITION : Z := 0x04.
Definition HK_EXPORT_FLAGS_REEXPORT : Z := 0x08.
Definition HK_EXPORT_FLAGS_STUB_AND_RESOLVER : Z := 0x10.
Definition HK_EXPORT_TRIE_MAX_DEPTH : nat := 128.

Section Code.
Context (mem : memory).

(** The loop of [hk_export_read_uleb128].  [budget] is how many more bytes an
    encoding may have: [bytes_read] is [10 - budget]. *)
Fixpoint uleb_loop (budget : nat) (buffer size offset result shift : Z) : option (Z * option Z) :=
  if size <=? offset then Some (offset, None)
  else
    match budget with
    | O => Some (offset, None)
    | S budget =>
        byte ← read_u8 mem (buffer + offset);
        let offset := offset + 1 in
        let chunk := Z.land byte 0x7f in
        if (shift =? 63) && (1 <? chunk) then Some (offset, None)
        else
          let result := if shift <? 64 then Z.lor result (u64 (Z.shiftl chunk shift)) else result in
          if negb (shift <? 64) && negb (chunk =? 0) then Some (offset, None)
          else if Z.land byte 0x80 =? 0 then Some (offset, Some result)
          else uleb_loop budget buffer size offset result (shift + 7)
    end.

(** The new offset, and the value where the function returns true. *)
Definition hk_export_read_uleb128 (buffer size offset : Z) : option (Z * option Z) :=
  if buffer =? 0 then Some (offset, None) else uleb_loop 10 buffer size offset 0 0.

Definition no_symbol : hk_export_symbol :=
  ExportSymbol 0 0 0 false false false false false.

(** The status, and [*out] where it has been written. *)
Definition decode_terminal (trie offset terminal_end : Z)
    : option (hk_export_status * option hk_export_symbol) :=
  '(offset, flags) ← hk_export_read_uleb128 trie terminal_end offset;
  match flags with
  | None => Some (HK_EXPORT_MALFORMED, None)
  | Some flags =>
      let kind := Z.land flags HK_EXPORT_FLAGS_KIND_MASK in
      let out := no_symbol
        <| es_flags := flags |>
        <| es_is_weak := negb (Z.land flags HK_EXPORT_FLAGS_WEAK_DEFINITION =? 0) |>
        <| es_is_thread_local := kind =? HK_EXPORT_FLAGS_KIND_THREAD_LOCAL |>
        <| es_is_absolute := kind =? HK_EXPORT_FLAGS_KIND_ABSOLUTE |> in
      if negb (Z.land flags HK_EXPORT_FLAGS_REEXPORT =? 0) then
        let out := out <| es_is_reexport := true |> in
        '(offset, ordinal) ← hk_export_read_uleb128 trie terminal_end offset;
        match ordinal with
        | None => Some (HK_EXPORT_MALFORMED, Some out)
        | Some ordinal => Some (HK_EXPORT_UNSUPPORTED_KIND, Some (out <| es_other := ordinal |>))
        end
      else if negb (Z.land flags HK_EXPORT_FLAGS_STUB_AND_RESOLVER =? 0) then
        let out := out <| es_is_stub_and_resolver := true |> in
        '(offset, stub) ← hk_export_read_uleb128 trie terminal_end offset;
        match stub with
        | None => Some (HK_EXPORT_MALFORMED, Some out)
        | Some stub =>
            '(offset, resolver) ← hk_export_read_uleb128 trie terminal_end offset;
            match resolver with
            | None => Some (HK_EXPORT_MALFORMED, Some out)
            | Some resolver =>
                Some (HK_EXPORT_OK, Some (out <| es_address := stub |> <| es_other := resolver |>))
            end
        end
      else
        '(offset, address) ← hk_export_read_uleb128 trie terminal_end offset;
        match address with
        | None => Some (HK_EXPORT_MALFORMED, Some out)
        | Some address => Some (HK_EXPORT_OK, Some (out <| es_address := address |>))
        end
  end.

(** [while (p < size && trie[p] != '\0') p++]: the bytes passed, which are
    the edge string, and where the scan stops.  [fuel] is [size - p]. *)
Fixpoint scan_edge (fuel : nat) (trie size p : Z) : option (list Z * Z) :=
  match fuel with
  | O => Some ([], p)
  | S fuel =>
      if size <=? p then Some ([], p)
      else
        c ← read_u8 mem (trie + p);
        if c =? 0 then Some ([], p)
        else '(edge, stop) ← scan_edge fuel trie size (p + 1); Some (c :: edge, stop)
  end.

(** [strncmp(remaining, edge, strlen(edge)) == 0], and [remaining + strlen(edge)] *)
Fixpoint strip_edge (edge remaining : list Z) : option (list Z) :=
  match edge, remaining with
  | [], _ => Some remaining
  | c :: edge, d :: remaining => if c =? d then strip_edge edge remaining else None
  | _ :: _, [] => None
  end.

Inductive descent : Type :=
  | DescentMalformed
  | NoEdge
  | Descend (node : Z) (remaining : list Z).

(** The loop over the children of a node. *)
Fixpoint children_loop (count : nat) (trie size p : Z) (remaining : list Z) : option descent :=
  match count with
  | O => Some NoEdge
  | S count =>
      '(edge, p) ← scan_edge (Z.to_nat (size - p)) trie size p;
      if size <=? p then Some DescentMalformed
      else
        let p := p + 1 in
        '(p, child_offset) ← hk_export_read_uleb128 trie size p;
        match child_offset with
        | None => Some DescentMalformed
        | Some child_offset =>
            match strip_edge edge remaining with
            | Some remaining => Some (Descend child_offset remaining)
            | None => children_loop count trie size p remaining
            end
        end
  end.

(** The walk.  [depth] counts the nodes still allowed. *)
Fixpoint walk_loop (depth : nat) (trie size node : Z) (remaining : list Z)
    : option (hk_export_status * option hk_export_symbol) :=
  match depth with
  | O => Some (HK_EXPORT_MALFORMED, None)
  | S depth =>
      if size <=? node then Some (HK_EXPORT_MALFORMED, None)
      else
        '(p, terminal_size) ← hk_export_read_uleb128 trie size node;
        match terminal_size with
        | None => Some (HK_EXPORT_MALFORMED, None)
        | Some terminal_size =>
            if size - p <? terminal_size then Some (HK_EXPORT_MALFORMED, None)
            else if bool_decide (remaining = []) && (0 <? terminal_size) then
              decode_terminal trie p (p + terminal_size)
            else
              let p := p + terminal_size in
              if size <=? p then Some (HK_EXPORT_MALFORMED, None)
              else
                child_count ← read_u8 mem (trie + p);
                found ← children_loop (Z.to_nat child_count) trie size (p + 1) remaining;
                match found with
                | DescentMalformed => Some (HK_EXPORT_MALFORMED, None)
                | NoEdge => Some (HK_EXPORT_NOT_FOUND, None)
                | Descend node remaining => walk_loop depth trie size node remaining
                end
        end
  end.

(** [name] is the C string, [None] for NULL. *)
Definition hk_export_trie_find (trie_base size : Z) (name : option (list Z))
    : option (hk_export_status * option hk_export_symbol) :=
  match name with
  | None => Some (HK_EXPORT_INVALID_ARGUMENT, None)
  | Some name =>
      if (trie_base =? 0) || (size =? 0) then Some (HK_EXPORT_INVALID_ARGUMENT, None)
      else walk_loop (S HK_EXPORT_TRIE_MAX_DEPTH) trie_base size 0 name
  end.
End Code.

(** ** Every read is inside the trie *)

Section Bounds.
Context {mem : memory} (base size : Z).
Hypothesis Hread : readable mem base size.

Lemma runs_uleb_loop budget limit offset result shift :
  limit <= size → 0 <= offset → 0 <= result < 2 ^ 64 →
  runs (uleb_loop mem budget base limit offset result shift) (λ r,
    offset <= r.1 ∧ ∀ v, r.2 = Some v → offset < r.1 <= limit ∧ is_u64 v).
Proof.
  intros Hl. revert offset result shift. induction budget as [|budget IH]; intros offset result shift Hoff Hres.
  all: cbn [uleb_loop]; destruct (Z.leb_spec limit offset); [cbn; split; [lia|done]|].
  - cbn. split; [lia|done].
  - eapply runs_bind; [eapply runs_u8; [done|lia|lia]|]. intros byte Hbyte. cbv zeta.
    destruct (_ && _); [cbn; split; [lia|done]|].
    set (result' := if shift <? 64 then _ else _).
    assert (Hres' : 0 <= result' < 2 ^ 64).
    { subst result'. destruct (shift <? 64); [|done]. pose proof (u64_range (Z.shiftl (Z.land byte 127) shift)).
      apply lor_below; lia. }
    destruct (_ && _); [cbn; split; [lia|done]|].
    destruct (_ =? 0).
    + cbn. split; [lia|]. intros v [= <-]. split; [lia|done].
    + eapply runs_conseq; [apply IH; [lia|done]|]. cbv beta. intros r [Hr1 Hr2]. split; [lia|].
      intros v Hv. specialize (Hr2 v Hv). destruct Hr2. split; [lia|done].
Qed.

Lemma runs_uleb limit offset :
  limit <= size → 0 <= offset →
  runs (hk_export_read_uleb128 mem base limit offset) (λ r,
    offset <= r.1 ∧ ∀ v, r.2 = Some v → offset < r.1 <= limit ∧ is_u64 v).
Proof.
  intros. unfold hk_export_read_uleb128. destruct (base =? 0); [cbn; split; [lia|done]|].
  apply runs_uleb_loop; [done..|lia].
Qed.

(** An answer with a symbol has written one; without one it wrote nothing. *)
Definition answered (r : hk_export_status * option hk_export_symbol) : Prop :=
  match r.1 with
  | HK_EXPORT_OK | HK_EXPORT_UNSUPPORTED_KIND => ∃ s, r.2 = Some s ∧ is_u64 (es_address s)
  | HK_EXPORT_NOT_FOUND | HK_EXPORT_INVALID_ARGUMENT => r.2 = None
  | HK_EXPORT_MALFORMED => True
  end.

Lemma runs_decode_terminal offset terminal_end :
  terminal_end <= size → 0 <= offset →
  runs (decode_terminal mem base offset terminal_end) answered.
Proof.
  intros Hend Hoff. unfold decode_terminal.
  eapply runs_bind; [by apply runs_uleb|]. intros [o1 [flags|]] [Ho1 Hf]; [|done]. cbn [fst] in Ho1.
  cbv zeta. destruct (negb _).
  { eapply runs_bind; [apply runs_uleb; lia|]. intros [? [?|]] _; [|done]. by eexists. }
  destruct (negb _).
  - eapply runs_bind; [apply runs_uleb; lia|]. intros [o2 [stub|]] [Ho2 Hstub]; [|done].
    cbn [fst] in Ho2. destruct (Hstub stub eq_refl) as [_ ?].
    eapply runs_bind; [apply runs_uleb; lia|]. intros [? [?|]] _; [|done]. by eexists.
  - eapply runs_bind; [apply runs_uleb; lia|]. intros [? [address|]] [_ Ha]; [|done].
    destruct (Ha address eq_refl) as [_ ?]. by eexists.
Qed.

Lemma runs_scan_edge fuel p :
  0 <= p → runs (scan_edge mem fuel base size p) (λ r, p <= r.2).
Proof.
  revert p. induction fuel as [|fuel IH]; intros p Hp; cbn [scan_edge]; [cbn; lia|].
  destruct (Z.leb_spec size p); [cbn; lia|].
  eapply runs_bind; [eapply runs_u8; [done|lia|lia]|]. intros c _.
  destruct (c =? 0); [cbn; lia|].
  eapply runs_bind; [apply IH; lia|]. intros [edge stop] Hs. cbn in *. lia.
Qed.

Lemma runs_children_loop count p remaining :
  0 <= p → runs (children_loop mem count base size p remaining) (λ r,
    ∀ node rest, r = Descend node rest → 0 <= node).
Proof.
  revert p. induction count as [|count IH]; intros p Hp; cbn [children_loop]; [done|].
  eapply runs_bind; [by apply runs_scan_edge|]. intros [edge stop] Hs. cbn in Hs.
  destruct (size <=? stop); [done|]. cbv zeta.
  eapply runs_bind; [apply runs_uleb; lia|]. intros [p' [child|]] [Hp' Hc]; [|done].
  cbn [fst snd] in *. destruct (Hc child eq_refl) as [_ Hchild].
  destruct (strip_edge edge remaining) as [rest|]; [|apply IH; lia].
  intros node rest' [= <- _]. apply Hchild.
Qed.

Lemma runs_walk_loop depth node remaining :
  0 <= node → runs (walk_loop mem depth base size node remaining) answered.
Proof.
  revert node remaining. induction depth as [|depth IH]; intros node remaining Hn; cbn [walk_loop]; [done|].
  destruct (Z.leb_spec size node); [done|].
  eapply runs_bind; [by apply runs_uleb|]. intros [p [terminal|]] [Hp Ht]; [|done]. cbn [fst snd] in *.
  destruct (Ht terminal eq_refl) as [Hp' Hterm].
  destruct (Z.ltb_spec (size - p) terminal); [done|].
  destruct (_ && _); [apply runs_decode_terminal; lia|]. cbv zeta.
  destruct (Z.leb_spec size (p + terminal)); [done|]. destruct Hterm.
  eapply runs_bind; [eapply runs_u8; [done|lia|lia]|]. intros count _.
  eapply runs_bind; [apply runs_children_loop; lia|]. intros [| |node' rest] Hd; [done..|].
  apply IH. by eapply Hd.
Qed.

Lemma runs_trie_find name : runs (hk_export_trie_find mem base size name) answered.
Proof.
  unfold hk_export_trie_find. destruct name as [name|]; [|done].
  destruct (_ || _); [done|]. apply runs_walk_loop. lia.
Qed.
End Bounds.

(** ** Encoding *)

(** The shortest ULEB128 encoding of a 64-bit value. *)
Fixpoint uleb_encode_loop (fuel : nat) (v : Z) : list Z :=
  match fuel with
  | O => [v]
  | S fuel => if v <? 128 then [v] else v mod 128 + 128 :: uleb_encode_loop fuel (v / 128)
  end.

Definition uleb_encode (v : Z) : list Z := uleb_encode_loop 9 v.

Section Encode.
Context {mem : memory}.

Lemma uleb_low_bits v : 0 <= v < 128 →
  Z.land v 0x7f = v ∧ Z.land v 0x80 = 0 ∧ Z.land (v + 128) 0x7f = v ∧ Z.land (v + 128) 0x80 = 128.
Proof.
  intros Hv. assert (Hall : forallb (λ n, let v := Z.of_nat n in
    (Z.land v 0x7f =? v) && (Z.land v 0x80 =? 0) && (Z.land (v + 128) 0x7f =? v) &&
    (Z.land (v + 128) 0x80 =? 128)) (seq 0 128) = true) by (vm_compute; reflexivity).
  rewrite forallb_forall in Hall. specialize (Hall (Z.to_nat v)).
  rewrite in_seq, Z2Nat.id, !andb_true_iff, !Z.eqb_eq in Hall by lia.
  destruct Hall as [[[? ?] ?] ?]; [lia|done].
Qed.

(** A chunk placed above the bits collected so far. *)
Lemma uleb_chunk c s result :
  0 <= s → 0 <= c → c * 2 ^ s < 2 ^ 64 → 0 <= result < 2 ^ s →
  Z.lor result (u64 (Z.shiftl c s)) = c * 2 ^ s + result.
Proof.
  intros Hs Hc Hlt Hres. rewrite u64_small, Z.lor_comm.
  - by apply lor_shiftl_low.
  - unfold is_u64. rewrite Z.shiftl_mul_pow2 by done. nia.
Qed.

Lemma shift_step k : 2 ^ (7 * Z.of_nat (S k)) = 128 * 2 ^ (7 * Z.of_nat k).
Proof. rewrite Nat2Z.inj_succ, Z.mul_succ_r, Z.pow_add_r by lia. lia. Qed.

(** The loop, at shift [7 k], adds the encoded value above the bits it has. *)
Lemma uleb_loop_encode fuel k v base size offset result :
  fuel = (9 - k)%nat → (k <= 9)%nat → 0 <= v → v * 2 ^ (7 * Z.of_nat k) < 2 ^ 64 →
  0 <= result < 2 ^ (7 * Z.of_nat k) →
  holds mem (base + offset) (uleb_encode_loop fuel v) →
  offset + Z.of_nat (length (uleb_encode_loop fuel v)) <= size →
  uleb_loop mem (S fuel) base size offset result (7 * Z.of_nat k) =
    Some (offset + Z.of_nat (length (uleb_encode_loop fuel v)),
          Some (v * 2 ^ (7 * Z.of_nat k) + result)).
Proof.
  revert k v offset result. induction fuel as [|fuel IH];
    intros k v offset result Hfuel Hk Hv Hlt Hres Hh Hs; cbn [uleb_encode_loop] in *.
  - assert (k = 9%nat) as -> by lia. change (7 * Z.of_nat 9) with 63 in *.
    assert (v < 2) by lia. destruct (uleb_low_bits v ltac:(lia)) as (Hc & Ht & _).
    apply holds_cons in Hh as [Hh _]. cbn [uleb_loop length] in *.
    destruct (Z.leb_spec size offset); [lia|]. unfold read_u8. rewrite Hh. cbn -[Z.lor Z.land u64 Z.shiftl Z.pow].
    rewrite Hc, Ht. destruct (Z.ltb_spec 1 v); [lia|]. cbn -[Z.lor Z.land u64 Z.shiftl Z.pow].
    by rewrite uleb_chunk by lia.
  - assert (Hsmall : (7 * Z.of_nat k <? 64) = true) by (apply Z.ltb_lt; lia).
    assert (Hne : (7 * Z.of_nat k =? 63) = false) by (apply Z.eqb_neq; lia).
    remember (S fuel) as next eqn:Hnext. cbn [uleb_loop].
    destruct (Z.ltb_spec v 128) as [Hv7|Hv7].
    all: cbn [length] in Hs; apply holds_cons in Hh as [Hh Hrest].
    all: destruct (Z.leb_spec size offset); [lia|]; unfold read_u8; rewrite Hh; cbn [mbind option_bind].
    all: cbv zeta; rewrite Hne, Hsmall; cbn [andb negb].
    + destruct (uleb_low_bits v ltac:(lia)) as (-> & -> & _). cbn [length Z.eqb].
      by rewrite uleb_chunk by lia.
    + pose proof (Z.mod_pos_bound v 128 ltac:(lia)). pose proof (Z.div_mod v 128 ltac:(lia)).
      destruct (uleb_low_bits (v mod 128) ltac:(lia)) as (_ & _ & -> & ->). cbn [Z.eqb].
      rewrite uleb_chunk by nia.
      replace (7 * Z.of_nat k + 7) with (7 * Z.of_nat (S k)) by lia.
      subst next. rewrite (IH (S k) (v / 128)); rewrite ?shift_step; try lia; try nia.
      * cbn [length]. do 2 f_equal; [lia|]. f_equal. nia.
      * by replace (base + (offset + 1)) with (base + offset + 1) by lia.
Qed.

Lemma read_uleb_encode v base size offset :
  base ≠ 0 → is_u64 v → holds mem (base + offset) (uleb_encode v) →
  offset + Z.of_nat (length (uleb_encode v)) <= size →
  hk_export_read_uleb128 mem base size offset =
    Some (offset + Z.of_nat (length (uleb_encode v)), Some v).
Proof.
  intros Hb [Hv Hlt] Hh Hs. unfold hk_export_read_uleb128.
  rewrite (proj2 (Z.eqb_neq base 0) Hb).
  transitivity (Some (offset + Z.of_nat (length (uleb_encode v)),
                      Some (v * 2 ^ (7 * Z.of_nat 0) + 0))).
  - apply (uleb_loop_encode 9 0); first [done|lia].
  - do 3 f_equal. change (2 ^ (7 * Z.of_nat 0)) with 1. lia.
Qed.
End Encode.

(** ** Tries in memory *)

(** What a terminal node may carry. *)
Inductive export : Type :=
  | Regular (flags address : Z)
  | Reexport (flags ordinal : Z) (imported : list Z)
  | StubAndResolver (flags stub resolver : Z).

Definition export_flags (e : export) : Z :=
  match e with Regular f _ | Reexport f _ _ | StubAndResolver f _ _ => f end.

Definition terminal_bytes (e : export) : list Z :=
  uleb_encode (export_flags e) ++
  match e with
  | Regular _ address => uleb_encode address
  | Reexport _ ordinal imported => uleb_encode ordinal ++ imported ++ [0]
  | StubAndResolver _ stub resolver => uleb_encode stub ++ uleb_encode resolver
  end.

Definition has_flag (e : export) (flag : Z) : bool := negb (Z.land (export_flags e) flag =? 0).

Definition export_wf (e : export) : Prop :=
  is_u64 (export_flags e) ∧
  match e with
  | Regular _ address =>
      is_u64 address ∧ has_flag e HK_EXPORT_FLAGS_REEXPORT = false ∧
      has_flag e HK_EXPORT_FLAGS_STUB_AND_RESOLVER = false
  | Reexport _ ordinal imported => is_u64 ordinal ∧ has_flag e HK_EXPORT_FLAGS_REEXPORT = true
  | StubAndResolver _ stub resolver =>
      is_u64 stub ∧ is_u64 resolver ∧ has_flag e HK_EXPORT_FLAGS_REEXPORT = false ∧
      has_flag e HK_EXPORT_FLAGS_STUB_AND_RESOLVER = true
  end.

(** What the lookup reports of it. *)
Definition reported (e : export) : hk_export_status * hk_export_symbol :=
  let symbol address other reexport stub :=
    ExportSymbol (export_flags e) address other (has_flag e HK_EXPORT_FLAGS_WEAK_DEFINITION)
      (Z.land (export_flags e) HK_EXPORT_FLAGS_KIND_MASK =? HK_EXPORT_FLAGS_KIND_THREAD_LOCAL)
      (Z.land (export_flags e) HK_EXPORT_FLAGS_KIND_MASK =? HK_EXPORT_FLAGS_KIND_ABSOLUTE)
      reexport stub in
  match e with
  | Regular _ address => (HK_EXPORT_OK, symbol address 0 false false)
  | Reexport _ ordinal _ => (HK_EXPORT_UNSUPPORTED_KIND, symbol 0 ordinal true false)
  | StubAndResolver _ stub resolver => (HK_EXPORT_OK, symbol stub resolver false true)
  end.

#[warnings="-register-all"]
Inductive trie : Type := Node (terminal : option export) (edges : list (list Z * trie)).

(** [defines t name e]: the trie gives [name] the export [e]. *)
Inductive defines : trie → list Z → export → Prop :=
  | defines_here e edges : defines (Node (Some e) edges) [] e
  | defines_below terminal edges edge child rest e :
      (edge, child) ∈ edges → defines child rest e →
      defines (Node terminal edges) (edge ++ rest) e.

(** Edges are non-empty C strings, no one a prefix of another, at most 255. *)
#[warnings="-register-all"]
Inductive trie_wf : trie → Prop :=
  | Node_wf terminal edges :
      (∀ e, terminal = Some e → export_wf e) →
      (length edges < 256)%nat →
      (∀ edge child, (edge, child) ∈ edges → edge ≠ [] ∧ cstring edge ∧ trie_wf child) →
      (∀ i j edge edge' t t' more, edges !! i = Some (edge, t) → edges !! j = Some (edge', t') →
         edge' = edge ++ more → i = j) →
      trie_wf (Node terminal edges).

Definition terminal_block (terminal : option export) : list Z :=
  match terminal with Some e => terminal_bytes e | None => [] end.

Definition edge_block (edge : list Z) (offset : Z) : list Z := edge ++ 0 :: uleb_encode offset.

Definition node_bytes (terminal : option export) (children : list (list Z * Z)) : list Z :=
  uleb_encode (Z.of_nat (length (terminal_block terminal))) ++ terminal_block terminal ++
  Z.of_nat (length children) :: concat ((λ c, edge_block c.1 c.2) <$> children).

Section Layout.
Context (mem : memory) (base size : Z).

(** The node for [t] stands at offset [off], its children where it says. *)
Inductive laid : Z → trie → Prop :=
  | laid_node off terminal edges offsets :
      0 <= off →
      length offsets = length edges →
      let children := zip (fst <$> edges) offsets in
      holds mem (base + off) (node_bytes terminal children) →
      off + Z.of_nat (length (node_bytes terminal children)) <= size →
      (∀ i edge child offset, edges !! i = Some (edge, child) → offsets !! i = Some offset →
         laid offset child) →
      laid off (Node terminal edges).

Hypothesis Hbase : base ≠ 0.
Hypothesis Hsize : is_u64 size.

Lemma strip_edge_spec edge remaining rest :
  strip_edge edge remaining = Some rest ↔ remaining = edge ++ rest.
Proof.
  revert remaining. induction edge as [|c edge IH]; intros [|d remaining]; cbn.
  1-3: clear; naive_solver.
  destruct (Z.eqb_spec c d) as [->|Hne]; [rewrite IH|]; clear IH; naive_solver.
Qed.

Lemma scan_edge_at edge fuel p more :
  cstring edge → (length edge < fuel)%nat → holds mem (base + p) (edge ++ 0 :: more) →
  p + Z.of_nat (length edge) < size →
  scan_edge mem fuel base size p = Some (edge, p + Z.of_nat (length edge)).
Proof.
  intros Hc. revert fuel p. induction Hc as [|c edge Hc _ IH]; intros [|fuel] p Hf Hh Hs;
    cbn [length scan_edge app] in *; try lia.
  all: apply holds_cons in Hh as [Hb Hh]; destruct (Z.leb_spec size p); [lia|].
  all: unfold read_u8; rewrite Hb; cbn [mbind option_bind].
  - cbn. by rewrite Z.add_0_r.
  - destruct (Z.eqb_spec c 0); [lia|].
    rewrite (IH fuel (p + 1)); [|lia| |lia].
    + cbn. do 2 f_equal. lia.
    + by rewrite Z.add_assoc.
Qed.

(** The first edge that matches, on the children as a list. *)
Fixpoint first_match (children : list (list Z * Z)) (remaining : list Z) : descent :=
  match children with
  | [] => NoEdge
  | (edge, offset) :: children =>
      match strip_edge edge remaining with
      | Some rest => Descend offset rest
      | None => first_match children remaining
      end
  end.

Lemma children_loop_at children p remaining :
  0 <= p →
  Forall (λ c, cstring c.1 ∧ is_u64 c.2) children →
  holds mem (base + p) (concat ((λ c, edge_block c.1 c.2) <$> children)) →
  p + Z.of_nat (length (concat ((λ c, edge_block c.1 c.2) <$> children))) <= size →
  children_loop mem (length children) base size p remaining =
    Some (first_match children remaining).
Proof.
  intros Hp HF. revert p Hp. induction HF as [|[edge offset] children [Hc Ho] HF IH]; intros p Hp Hh Hs; [done|].
  cbn [fmap list_fmap concat length children_loop first_match fst snd] in *. unfold edge_block in Hh at 1, Hs at 1.
  rewrite <- app_assoc in Hh, Hs. cbn [app] in Hh, Hs. rewrite !length_app in Hs. cbn [length] in Hs.
  rewrite length_app in Hs.
  rewrite (scan_edge_at edge (Z.to_nat (size - p)) p _ Hc ltac:(lia) Hh) by lia. cbn [mbind option_bind].
  apply holds_app in Hh as [_ Hh]. apply holds_cons in Hh as [_ Hh]. apply holds_app in Hh as [Hu Hh].
  destruct (Z.leb_spec size (p + Z.of_nat (length edge))); [lia|]. cbv zeta.
  rewrite (read_uleb_encode offset); [|done|done| |lia].
  2: { by rewrite !Z.add_assoc. }
  cbn [mbind option_bind]. destruct (strip_edge edge remaining); [done|].
  apply IH; [lia| |lia].
  by rewrite !Z.add_assoc.
Qed.

Lemma decode_terminal_at e p :
  export_wf e → holds mem (base + p) (terminal_bytes e) →
  decode_terminal mem base p (p + Z.of_nat (length (terminal_bytes e))) =
    Some ((reported e).1, Some (reported e).2).
Proof.
  intros [Hf Hwf]. unfold terminal_bytes. rewrite holds_app, length_app, Nat2Z.inj_add.
  intros [Hflags Hh]. unfold decode_terminal.
  rewrite (read_uleb_encode (export_flags e)) by (done || lia). cbn [mbind option_bind].
  rewrite <- Z.add_assoc in Hh.
  destruct e as [flags address|flags ordinal imported|flags stub resolver];
    unfold has_flag in Hwf; cbn [export_flags] in *.
  - destruct Hwf as (Ha & Hr & Hs). rewrite Hr, Hs.
    rewrite (read_uleb_encode address) by (done || lia). done.
  - destruct Hwf as (Ho & Hr). rewrite Hr. rewrite length_app.
    apply holds_app in Hh as [Hh _].
    rewrite (read_uleb_encode ordinal) by (done || lia). done.
  - destruct Hwf as (Hstub & Hres & Hr & Hs). rewrite Hr, Hs. rewrite length_app.
    apply holds_app in Hh as [Hh Hh']. rewrite <- !Z.add_assoc in Hh'.
    rewrite (read_uleb_encode stub) by (done || lia). cbn [mbind option_bind].
    rewrite (read_uleb_encode resolver) by (rewrite <- ?Z.add_assoc; done || lia). done.
Qed.

(** One node of the walk. *)
Definition node_step (depth : nat) (terminal : option export) (children : list (list Z * Z))
    (remaining : list Z) : option (hk_export_status * option hk_export_symbol) :=
  match remaining, terminal with
  | [], Some e => Some ((reported e).1, Some (reported e).2)
  | _, _ =>
      match first_match children remaining with
      | DescentMalformed => Some (HK_EXPORT_MALFORMED, None)
      | NoEdge => Some (HK_EXPORT_NOT_FOUND, None)
      | Descend node rest => walk_loop mem depth base size node rest
      end
  end.

Lemma terminal_bytes_nonempty e : (0 < length (terminal_bytes e))%nat.
Proof.
  unfold terminal_bytes, uleb_encode. rewrite length_app. cbn [uleb_encode_loop].
  destruct (_ <? _); cbn [length]; lia.
Qed.

Lemma walk_node depth off terminal children remaining :
  0 <= off →
  (∀ e, terminal = Some e → export_wf e) →
  (length children < 256)%nat →
  Forall (λ c, cstring c.1 ∧ is_u64 c.2) children →
  holds mem (base + off) (node_bytes terminal children) →
  off + Z.of_nat (length (node_bytes terminal children)) <= size →
  walk_loop mem (S depth) base size off remaining = node_step depth terminal children remaining.
Proof.
  intros Hoff Hwf Hcount HF Hh Hs. unfold node_bytes in *.
  set (t := terminal_block terminal) in *. rewrite !length_app in Hs. cbn [length] in Hs.
  apply holds_app in Hh as [Hsz Hh]. apply holds_app in Hh as [Ht Hh].
  apply holds_cons in Hh as [Hn Hh]. unfold is_u64 in Hsize.
  cbn [walk_loop]. destruct (Z.leb_spec size off); [lia|].
  rewrite (read_uleb_encode (Z.of_nat (length t))) by (done || unfold is_u64; lia).
  cbn [mbind option_bind]. destruct (Z.ltb_spec (size - (off + Z.of_nat (length
    (uleb_encode (Z.of_nat (length t)))))) (Z.of_nat (length t))); [lia|].
  set (q := off + Z.of_nat (length (uleb_encode (Z.of_nat (length t))))) in *.
  replace (base + off + _) with (base + q) in Ht by (unfold q; lia).
  replace (base + off + _ + _) with (base + (q + Z.of_nat (length t))) in Hn by (unfold q; lia).
  replace (base + off + _ + _ + 1) with (base + (q + Z.of_nat (length t) + 1)) in Hh
    by (unfold q; lia).
  unfold node_step. destruct (bool_decide (remaining = []) && (0 <? Z.of_nat (length t))) eqn:Hend.
  { apply andb_true_iff in Hend as [->%bool_decide_eq_true Hlt]. apply Z.ltb_lt in Hlt.
    destruct terminal as [e|]; [|done]. apply decode_terminal_at; [by apply Hwf|done]. }
  destruct (Z.leb_spec size (q + Z.of_nat (length t))); [lia|].
  unfold read_u8. rewrite Hn. cbn [mbind option_bind].
  rewrite Nat2Z.id, children_loop_at; [|lia|done|done|unfold q; lia].
  cbn [mbind option_bind]. destruct remaining as [|c remaining]; [|done].
  destruct terminal as [e|]; [|done]. exfalso. pose proof (terminal_bytes_nonempty e).
  rewrite bool_decide_true in Hend by done. apply Z.ltb_ge in Hend.
  change (terminal_bytes e) with t in *. lia.
Qed.

Lemma first_match_spec edges offsets remaining :
  length offsets = length edges →
  match first_match (zip (fst <$> edges) offsets) remaining with
  | DescentMalformed => False
  | NoEdge => ∀ edge (child : trie), (edge, child) ∈ edges → strip_edge edge remaining = None
  | Descend offset rest => ∃ i edge child,
      edges !! i = Some (edge, child) ∧ offsets !! i = Some offset ∧ remaining = edge ++ rest
  end.
Proof.
  revert offsets. induction edges as [|[edge child] edges IH]; intros [|offset offsets] Hlen;
    try discriminate Hlen; cbn [fmap list_fmap zip zip_with first_match fst].
  { intros edge child Hin. by apply elem_of_nil in Hin. }
  injection Hlen as Hlen. destruct (strip_edge edge remaining) as [rest|] eqn:Hstrip.
  { apply strip_edge_spec in Hstrip. by exists 0%nat, edge, child. }
  specialize (IH offsets Hlen). unfold zip in IH.
  destruct (first_match _ remaining) as [| |offset' rest]; [done| |].
  - intros edge' child' [[= -> ->]|Hin]%elem_of_cons; [done|by eapply IH].
  - destruct IH as (i & edge' & child' & H). by exists (S i), edge', child'.
Qed.

Lemma node_encoding (k : Z) : (0 < length (uleb_encode k))%nat.
Proof. unfold uleb_encode. cbn [uleb_encode_loop]. destruct (_ <? _); cbn [length]; lia. Qed.

Lemma node_bytes_nonempty terminal children : (0 < length (node_bytes terminal children))%nat.
Proof.
  unfold node_bytes. rewrite length_app.
  pose proof (node_encoding (Z.of_nat (length (terminal_block terminal)))). lia.
Qed.

(** A walk step at a laid-out, well-formed node. *)
Lemma walk_laid depth off terminal edges remaining :
  laid off (Node terminal edges) → trie_wf (Node terminal edges) →
  ∃ offsets, length offsets = length edges ∧
    (∀ i edge child offset, edges !! i = Some (edge, child) → offsets !! i = Some offset →
       laid offset child) ∧
    walk_loop mem (S depth) base size off remaining =
      node_step depth terminal (zip (fst <$> edges) offsets) remaining.
Proof.
  intros Hlaid Hwf. inversion Hlaid as [? ? ? offsets Hoff Hlen children Hh Hs Hchildren]; subst.
  inversion Hwf as [? ? Hterm Hcount Hedges _]; subst.
  exists offsets. split; [done|]. split; [done|].
  apply walk_node; [done|done| | |done|done].
  - rewrite length_zip_with, length_fmap. lia.
  - apply Forall_lookup_2. intros i [edge offset] Hi.
    apply lookup_zip_Some in Hi as [Hi Ho]. apply list_lookup_fmap_Some in Hi as ([edge' child] & -> & Hi).
    cbn [fst snd]. split; [by apply (Hedges edge' child), (list_elem_of_lookup_2 _ i)|].
    specialize (Hchildren i edge' child offset Hi Ho). inversion Hchildren as [? ? ? offs Hoff' _ ch _ Hs' _]; subst.
    pose proof (node_bytes_nonempty terminal0 ch). unfold is_u64 in *. lia.
Qed.

(** Two edges that both begin the rest of a name are the same edge. *)
Lemma same_edge terminal edges i j edge edge' child child' rest rest' :
  trie_wf (Node terminal edges) → edges !! i = Some (edge, child) →
  edges !! j = Some (edge', child') → edge ++ rest = edge' ++ rest' → i = j.
Proof.
  intros Hwf Hi Hj Heq. inversion Hwf as [? ? _ _ _ Hfree]; subst.
  apply app_eq_inv in Heq as [(k & -> & _)|(k & -> & _)].
  - symmetry. by eapply Hfree.
  - by eapply Hfree.
Qed.

Lemma walk_defined depth off t name e :
  laid off t → trie_wf t → defines t name e → (length name < depth)%nat →
  walk_loop mem depth base size off name = Some ((reported e).1, Some (reported e).2).
Proof.
  intros Hlaid Hwf Hdef. revert off depth Hlaid Hwf.
  induction Hdef as [e edges|terminal edges edge child rest e Hin Hdef IH];
    intros off [|depth] Hlaid Hwf Hlen; try lia.
  { by destruct (walk_laid depth off _ _ [] Hlaid Hwf) as (offsets & _ & _ & ->). }
  destruct (walk_laid depth off _ _ (edge ++ rest) Hlaid Hwf) as (offsets & Hol & Hch & ->).
  apply list_elem_of_lookup_1 in Hin as [i Hi].
  inversion Hwf as [? ? _ _ Hedges _]; subst.
  destruct (Hedges edge child (list_elem_of_lookup_2 _ _ _ Hi)) as (Hne & _ & Hwfc).
  pose proof (first_match_spec edges offsets (edge ++ rest) Hol) as Hm.
  assert (Hstep : node_step depth terminal (zip (fst <$> edges) offsets) (edge ++ rest) =
    match first_match (zip (fst <$> edges) offsets) (edge ++ rest) with
    | DescentMalformed => Some (HK_EXPORT_MALFORMED, None)
    | NoEdge => Some (HK_EXPORT_NOT_FOUND, None)
    | Descend node rest => walk_loop mem depth base size node rest
    end) by (unfold node_step; by destruct edge).
  rewrite Hstep. destruct (first_match _ _) as [| |offset rest']; [done| |].
  - specialize (Hm edge child (list_elem_of_lookup_2 _ _ _ Hi)).
    by rewrite (proj2 (strip_edge_spec edge (edge ++ rest) rest)) in Hm.
  - destruct Hm as (j & edge' & child' & Hj & Ho & Heq).
    assert (i = j) as -> by (by eapply same_edge).
    rewrite Hi in Hj. injection Hj as <- <-. apply app_inv_head in Heq as <-.
    apply IH; [by eapply Hch|done|]. rewrite length_app in Hlen.
    destruct edge; [done|]. cbn [length] in Hlen. lia.
Qed.

Lemma walk_undefined depth off t name :
  laid off t → trie_wf t → (∀ e, ¬ defines t name e) → (length name < depth)%nat →
  walk_loop mem depth base size off name = Some (HK_EXPORT_NOT_FOUND, None).
Proof.
  revert off t name. induction depth as [|depth IH]; intros off [terminal edges] name Hlaid Hwf Hundef Hlen; [lia|].
  destruct (walk_laid depth off _ _ name Hlaid Hwf) as (offsets & Hol & Hch & ->).
  pose proof (first_match_spec edges offsets name Hol) as Hm.
  assert (Hstep : node_step depth terminal (zip (fst <$> edges) offsets) name =
    match first_match (zip (fst <$> edges) offsets) name with
    | DescentMalformed => Some (HK_EXPORT_MALFORMED, None)
    | NoEdge => Some (HK_EXPORT_NOT_FOUND, None)
    | Descend node rest => walk_loop mem depth base size node rest
    end).
  { unfold node_step. destruct name; [|done]. destruct terminal as [e|]; [|done].
    destruct (Hundef e). constructor. }
  rewrite Hstep. destruct (first_match _ _) as [| |offset rest]; [done..|].
  destruct Hm as (i & edge & child & Hi & Ho & ->).
  inversion Hwf as [? ? _ _ Hedges _]; subst.
  destruct (Hedges edge child (list_elem_of_lookup_2 _ _ _ Hi)) as (Hne & _ & Hwfc).
  apply (IH offset child rest); [by eapply Hch|done| |].
  - intros e He. apply (Hundef e). econstructor; [by eapply list_elem_of_lookup_2|done].
  - rewrite length_app in Hlen. destruct edge; [done|]. cbn [length] in Hlen. lia.
Qed.
End Layout.

Section Found.
Context {mem : memory} {trie_base size : Z} {t : trie} {name : list Z}.
Context (Hbase : trie_base ≠ 0) (Hsize : is_u64 size) (Hnz : size ≠ 0).
Context (Hlaid : laid mem trie_base size 0 t) (Hwf : trie_wf t).
Context (Hlen : (length name <= HK_EXPORT_TRIE_MAX_DEPTH)%nat).

Lemma trie_find_walk :
  hk_export_trie_find mem trie_base size (Some name) =
    walk_loop mem (S HK_EXPORT_TRIE_MAX_DEPTH) trie_base size 0 name.
Proof.
  unfold hk_export_trie_find.
  by rewrite (proj2 (Z.eqb_neq _ 0) Hbase), (proj2 (Z.eqb_neq _ 0) Hnz).
Qed.

Lemma trie_find_defined e :
  defines t name e →
  hk_export_trie_find mem trie_base size (Some name) = Some ((reported e).1, Some (reported e).2).
Proof.
  intros He. rewrite trie_find_walk. apply (walk_defined _ _ _ Hbase Hsize _ _ t); [done..|lia].
Qed.

Lemma trie_find_undefined :
  (∀ e, ¬ defines t name e) →
  hk_export_trie_find mem trie_base size (Some name) = Some (HK_EXPORT_NOT_FOUND, None).
Proof.
  intros H. rewrite trie_find_walk. apply (walk_undefined _ _ _ Hbase Hsize _ _ t); [done..|lia].
Qed.
End Found.

(** ** The theorems *)

(** Whatever bytes a trie consists of, looking up a name reads none outside
    it and comes to an answer: OK and UNSUPPORTED_KIND with a symbol whose
    address is a 64-bit value, NOT_FOUND and INVALID_ARGUMENT with nothing
    written.  A trie that points back into itself is no exception. *)
Theorem trie_find_total (mem : memory) (trie_base size : Z) (name : option (list Z)) :
  readable mem trie_base size →
  ∃ r, hk_export_trie_find mem trie_base size name = Some r ∧ answered r.
Proof. intros H. apply runs_some. by apply runs_trie_find. Qed.

(** Every 64-bit value survives ULEB128: reading its encoding, wherever it
    stands in a buffer that holds all of it, returns the value and leaves the
    offset behind its last byte. *)
Theorem uleb128_roundtrip (mem : memory) (buffer size offset v : Z) :
  buffer ≠ 0 → is_u64 v →
  holds mem (buffer + offset) (uleb_encode v) →
  offset + Z.of_nat (length (uleb_encode v)) <= size →
  hk_export_read_uleb128 mem buffer size offset =
    Some (offset + Z.of_nat (length (uleb_encode v)), Some v).
Proof. apply read_uleb_encode. Qed.

(** C38.  The walk is the lookup of the trie.  In a well-formed trie laid out in
    memory, a name the trie defines gets exactly its export, re-exports
    reported as such, and a name it does not define is NOT_FOUND.  Names of up
    to 128 characters fit the depth cap, because every edge consumes one. *)
Theorem trie_find_correct (mem : memory) (trie_base size : Z) (t : trie) (name : list Z) :
  trie_base ≠ 0 → is_u64 size → size ≠ 0 →
  laid mem trie_base size 0 t → trie_wf t →
  (length name <= HK_EXPORT_TRIE_MAX_DEPTH)%nat →
  (∀ e, defines t name e →
     hk_export_trie_find mem trie_base size (Some name) =
       Some ((reported e).1, Some (reported e).2)) ∧
  ((∀ e, ¬ defines t name e) →
     hk_export_trie_find mem trie_base size (Some name) = Some (HK_EXPORT_NOT_FOUND, None)).
Proof.
  intros Hb Hs Hz Hlaid Hwf Hlen. split.
  - intros e He. by apply (trie_find_defined Hb Hs Hz Hlaid Hwf Hlen).
  - by apply (trie_find_undefined Hb Hs Hz Hlaid Hwf Hlen).
Qed.

(** ** The theorems on a small trie *)

(** [_a] at 0x4000, [_ab] re-exported from library 2. *)
Definition demo_trie : trie :=
  Node None [([95; 97], Node (Some (Regular 0 0x4000))
                          [([98], Node (Some (Reexport 8 2 [])) [])])].

Definition demo_trie_bytes : list Z :=
  node_bytes None [([95; 97], 6)] ++ node_bytes (Some (Regular 0 0x4000)) [([98], 15)] ++
  node_bytes (Some (Reexport 8 2 [])) [].

Definition demo_trie_base : Z := 0x1000.
Definition demo_trie_size : Z := Z.of_nat (length demo_trie_bytes).
Definition demo_trie_memory : memory := memory_of demo_trie_base demo_trie_bytes.

Lemma demo_trie_laid : laid demo_trie_memory demo_trie_base demo_trie_size 0 demo_trie.
Proof.
  apply (laid_node _ _ _ _ _ _ [6]); [lia|done|by apply holdsb_holds|by vm_compute|].
  intros [|i] edge child offset [= <- <-] [= <-].
  apply (laid_node _ _ _ _ _ _ [15]); [lia|done|by apply holdsb_holds|by vm_compute|].
  intros [|i] edge child offset [= <- <-] [= <-].
  apply (laid_node _ _ _ _ _ _ []); [lia|done|by apply holdsb_holds|by vm_compute|].
  intros i edge child offset [=].
Qed.

Lemma trie_wf_single terminal edge child :
  (∀ e, terminal = Some e → export_wf e) → edge ≠ [] → cstring edge → trie_wf child →
  trie_wf (Node terminal [(edge, child)]).
Proof.
  intros Ht He Hc Hwf. constructor; [done|cbn; lia| |].
  - by intros edge' child' [= -> ->]%list_elem_of_singleton.
  - intros [|i] [|j] edge1 edge2 t1 t2 more; cbn; naive_solver.
Qed.

Lemma demo_trie_wf : trie_wf demo_trie.
Proof.
  apply trie_wf_single; [done|done|repeat constructor; lia|].
  apply trie_wf_single; [|done|repeat constructor; lia|].
  { intros e [= <-]. repeat split; cbn; lia. }
  constructor; [|cbn; lia| |].
  - intros e [= <-]. repeat split; cbn; lia.
  - intros edge child Hin. by apply elem_of_nil in Hin.
  - intros i j edge edge' t t' more [=].
Qed.

Lemma trie_find_total_witness :
  ∃ r, hk_export_trie_find demo_trie_memory demo_trie_base demo_trie_size (Some [95; 98]) = Some r ∧
       answered r.
Proof.
  apply (trie_find_total demo_trie_memory demo_trie_base demo_trie_size (Some [95; 98])).
  apply readable_memory_of. apply (bool_decide_unpack (Forall _ _)). vm_compute. exact I.
Defined.

Lemma uleb128_roundtrip_witness :
  hk_export_read_uleb128 (memory_of 16 (uleb_encode (2 ^ 64 - 1))) 16 10 0 =
    Some (10, Some (2 ^ 64 - 1)).
Proof.
  apply (uleb128_roundtrip (memory_of 16 (uleb_encode (2 ^ 64 - 1))) 16 10 0 (2 ^ 64 - 1)).
  - lia.
  - unfold is_u64. lia.
  - by apply holdsb_holds.
  - by vm_compute.
Defined.

Lemma trie_find_correct_witness :
  hk_export_trie_find demo_trie_memory demo_trie_base demo_trie_size (Some [95; 97; 98]) =
    Some (HK_EXPORT_UNSUPPORTED_KIND, Some (ExportSymbol 8 0 2 false false false true false)).
Proof.
  apply (proj1 (trie_find_correct demo_trie_memory demo_trie_base demo_trie_size demo_trie
    [95; 97; 98] ltac:(done) ltac:(by vm_compute) ltac:(done) demo_trie_laid demo_trie_wf
    ltac:(by apply Nat.leb_le)) (Reexport 8 2 [])).
  apply (defines_below _ _ [95; 97] (Node (Some (Regular 0 0x4000))
    [([98], Node (Some (Reexport 8 2 [])) [])]) [98]); [by left|].
  apply (defines_below _ _ [98] (Node (Some (Reexport 8 2 [])) []) []); [by left|]. constructor.
Defined.
