(* ===== verification/SymbolTable.v ===== *)
(** * HKSymbolTable.c: searching a Mach-O symbol table

    The bounded string comparison, the name conventions, the filters and the
    search; then that the search returns the first entry that qualifies. *)

From stdpp Require Import base list numbers option.
From S2P Require Import Prelude Types Memory.

Record hk_macho_nlist64 : Type := Nlist64 {
  n_strx : Z;
  n_type : Z;
  n_sect : Z;
  n_desc : Z;
  n_value : Z }.

Definition SIZEOF_NLIST64 : Z := 16.

Definition HK_N_STAB : Z := 0xe0.
Definition HK_N_TYPE : Z := 0x0e.
Definition HK_N_EXT : Z := 0x01.
Definition HK_N_SECT : Z := 0xe.

(** [hk_symbol_name_convention_t], as numbered. *)
Definition HK_SYMBOL_NAME_C : Z := 0.
Definition HK_SYMBOL_NAME_MACHO_EXACT : Z := 1.

(** Pointers are addresses; 0 is NULL. *)
Record hk_symbol_table_view : Type := SymbolTableView {
  sv_nlist : Z;
  sv_nlist_count : Z;
  sv_strings : Z;
  sv_strings_size : Z }.

(** [name] is the C string, [None] for NULL. *)
Record hk_symbol_query : Type := SymbolQuery {
  sq_name : option (list Z);
  sq_convention : Z;
  sq_visibility : hk_symbol_visibility }.

Record hk_symbol_match : Type := SymbolMatch {
  sm_n_value : Z;
  sm_n_sect : Z;
  sm_n_type : Z;
  sm_index : Z }.

Section Code.
Context (mem : memory).

(** The loop of [bounded_string_equals], at [offset + i]. *)
Fixpoint equals_from (strings strings_size pos : Z) (name : list Z) : option bool :=
  if strings_size <=? pos then Some false
  else
    table_char ← read_u8 mem (strings + pos);
    match name with
    | [] => Some (table_char =? 0)
    | c :: name =>
        if negb (table_char =? c) then Some false
        else if table_char =? 0 then Some true
        else equals_from strings strings_size (pos + 1) name
    end.

Definition bounded_string_equals (strings strings_size offset : Z) (name : list Z) : option bool :=
  if strings_size <=? offset then Some false else equals_from strings strings_size offset name.

Definition name_matches (strings strings_size offset : Z) (name : list Z) (convention : Z)
    : option bool :=
  same ← bounded_string_equals strings strings_size offset name;
  if same : bool then Some true
  else if convention =? HK_SYMBOL_NAME_MACHO_EXACT then Some false
  else if offset <? strings_size then
    first ← read_u8 mem (strings + offset);
    if first =? 95 then bounded_string_equals strings strings_size (offset + 1) name
    else Some false
  else Some false.

Definition visibility_permits (n_type : Z) (visibility : hk_symbol_visibility) : bool :=
  match visibility with
  | HK_SYMBOL_VISIBILITY_EXPORTED_ONLY => negb (Z.land n_type HK_N_EXT =? 0)
  | _ => true
  end.

(** [view->nlist[i]] *)
Definition nlist_at (nlist i : Z) : option hk_macho_nlist64 :=
  let sym := nlist + i * SIZEOF_NLIST64 in
  strx ← read_u32 mem sym;
  type ← read_u8 mem (sym + 4);
  sect ← read_u8 mem (sym + 5);
  desc ← read_u16 mem (sym + 6);
  value ← read_u64 mem (sym + 8);
  Some (Nlist64 strx type sect desc value).

(** The tests of one entry that [continue] the loop, the name apart. *)
Definition entry_permitted (sym : hk_macho_nlist64) (visibility : hk_symbol_visibility) : bool :=
  (Z.land (n_type sym) HK_N_STAB =? 0) &&
  negb (negb (Z.land (n_type sym) HK_N_TYPE =? HK_N_SECT) || (n_value sym =? 0)) &&
  negb (n_strx sym =? 0) &&
  visibility_permits (n_type sym) visibility.

(** The loop over the entries from [i]; [count] entries are left. *)
Fixpoint find_loop (count : nat) (view : hk_symbol_table_view) (query : hk_symbol_query)
    (name : list Z) (i : Z) : option (option hk_symbol_match) :=
  match count with
  | O => Some None
  | S count =>
      sym ← nlist_at (sv_nlist view) i;
      if negb (entry_permitted sym (sq_visibility query))
      then find_loop count view query name (i + 1)
      else
        matched ← name_matches (sv_strings view) (sv_strings_size view) (n_strx sym) name
                    (sq_convention query);
        if matched : bool
        then Some (Some (SymbolMatch (n_value sym) (n_sect sym) (n_type sym) i))
        else find_loop count view query name (i + 1)
  end.

(** [None] is the false that leaves [*out_match] alone. *)
Definition hk_symbol_table_find (view : hk_symbol_table_view) (query : hk_symbol_query)
    : option (option hk_symbol_match) :=
  if (sv_nlist view =? 0) || (sv_strings view =? 0) || (sv_strings_size view =? 0) then Some None
  else
    match sq_name query with
    | None | Some [] => Some None
    | Some name => find_loop (Z.to_nat (sv_nlist_count view)) view query name 0
    end.
End Code.

(** ** What it means *)

(** The C string [s] stands at [offset] of a string table, terminator included. *)
Definition string_at (mem : memory) (strings strings_size offset : Z) (s : list Z) : Prop :=
  holds mem (strings + offset) (s ++ [0]) ∧ offset + Z.of_nat (length s) < strings_size.

(** Entry [i] is a defined, visible symbol whose name is the query's, or the
    query's with the linker's underscore where the convention has one. *)
Definition qualifies (mem : memory) (view : hk_symbol_table_view) (query : hk_symbol_query)
    (name : list Z) (i : Z) (sym : hk_macho_nlist64) : Prop :=
  nlist_at mem (sv_nlist view) i = Some sym ∧
  entry_permitted sym (sq_visibility query) = true ∧
  (string_at mem (sv_strings view) (sv_strings_size view) (n_strx sym) name ∨
   sq_convention query ≠ HK_SYMBOL_NAME_MACHO_EXACT ∧
   string_at mem (sv_strings view) (sv_strings_size view) (n_strx sym) (95 :: name)).

(** The tables a view points to may be read. *)
Definition view_readable (mem : memory) (view : hk_symbol_table_view) : Prop :=
  readable mem (sv_nlist view) (sv_nlist_count view * SIZEOF_NLIST64) ∧
  readable mem (sv_strings view) (sv_strings_size view).

Section Meaning.
Context {mem : memory}.

Lemma string_at_cons strings size pos c name :
  string_at mem strings size pos (c :: name) ↔
  mem (strings + pos) = Some c ∧ string_at mem strings size (pos + 1) name.
Proof.
  unfold string_at. cbn [app length]. rewrite holds_cons, Z.add_assoc.
  split; [intros [[??] ?]|intros [? [??]]]; (repeat split; [done..|lia]).
Qed.

Lemma equals_from_spec strings size pos name :
  readable mem strings size → 0 <= pos → cstring name →
  runs (equals_from mem strings size pos name) (λ b, b = true ↔ string_at mem strings size pos name).
Proof.
  intros Hr Hpos Hc. revert pos Hpos. induction Hc as [|c name Hc Hcs IH]; intros pos Hpos.
  all: cbn [equals_from]; destruct (Z.leb_spec size pos);
    [cbn; unfold string_at; cbn [length]; split; [done|lia]|].
  all: destruct (Hr pos ltac:(lia)) as (t & Ht & Hrange); unfold read_u8; rewrite Ht;
    cbn [mbind option_bind].
  - cbn [runs]. unfold string_at. cbn [app length]. rewrite holds_cons, Ht.
    rewrite Z.eqb_eq. split; [intros ->; split; [split; [done|intros i b [=]]|lia]|].
    by intros [[[= ->] _] _].
  - destruct (Z.eqb_spec t c) as [->|Hne]; cbn [negb].
    2: { cbn. split; [done|]. intros [Hh _]%string_at_cons. congruence. }
    destruct (Z.eqb_spec c 0); [lia|].
    eapply runs_conseq; [apply IH; lia|]. cbn beta. intros b ->. rewrite string_at_cons.
    split; [done|by intros [_ ?]].
Qed.

Lemma bounded_string_equals_spec strings size pos name :
  readable mem strings size → 0 <= pos → cstring name →
  runs (bounded_string_equals mem strings size pos name)
    (λ b, b = true ↔ string_at mem strings size pos name).
Proof.
  intros Hr Hpos Hc. unfold bounded_string_equals. destruct (Z.leb_spec size pos).
  - cbn. split; [done|]. intros [_ Hs]. lia.
  - by apply equals_from_spec.
Qed.

Lemma name_matches_spec strings size offset name convention :
  readable mem strings size → 0 <= offset → cstring name →
  runs (name_matches mem strings size offset name convention) (λ b, b = true ↔
    string_at mem strings size offset name ∨
    convention ≠ HK_SYMBOL_NAME_MACHO_EXACT ∧ string_at mem strings size offset (95 :: name)).
Proof.
  intros Hr Hoff Hc. unfold name_matches.
  eapply runs_bind; [by apply bounded_string_equals_spec|]. intros [|] Hs; cbn beta in Hs.
  { cbn. split; [|done]. intros _. left. by apply Hs. }
  assert (Hno : ¬ string_at mem strings size offset name) by (intros H; by apply Hs in H).
  destruct (Z.eqb_spec convention HK_SYMBOL_NAME_MACHO_EXACT) as [->|Hconv].
  { cbn. split; [done|]. by intros [?|[? _]]. }
  destruct (Z.ltb_spec offset size) as [Hlt|Hge].
  2: { cbn. split; [done|]. intros [H|[_ [_ H]]]; [done|cbn [length] in H; lia]. }
  destruct (Hr offset ltac:(lia)) as (t & Ht & _). unfold read_u8. rewrite Ht. cbn [mbind option_bind].
  destruct (Z.eqb_spec t 95) as [->|Hne].
  - eapply runs_conseq; [apply bounded_string_equals_spec; [done|lia|done]|].
    cbn beta. intros b ->. rewrite (string_at_cons _ _ offset). 
    split; [intros H; right; auto|by intros [H|[_ [_ H]]]].
  - cbn. split; [done|]. intros [H|[_ H]]; [done|]. apply string_at_cons in H as [H _]. congruence.
Qed.

Lemma runs_nlist_at nlist count i :
  readable mem nlist (count * SIZEOF_NLIST64) → 0 <= i < count →
  runs (nlist_at mem nlist i) (λ sym, is_u32 (n_strx sym) ∧ is_u64 (n_value sym) ∧
    0 <= n_type sym < 256 ∧ 0 <= n_sect sym < 256).
Proof.
  unfold SIZEOF_NLIST64. intros Hr Hi. unfold nlist_at, SIZEOF_NLIST64.
  eapply runs_bind; [eapply runs_u32; [done|lia..]|]. intros strx Hstrx.
  rewrite <- !Z.add_assoc.
  eapply runs_bind; [eapply runs_u8; [done|lia..]|]. intros type Htype.
  eapply runs_bind; [eapply runs_u8; [done|lia..]|]. intros sect Hsect.
  eapply runs_bind; [eapply runs_u16; [done|lia..]|]. intros desc _.
  eapply runs_bind; [eapply runs_u64; [done|lia..]|]. intros value Hvalue.
  done.
Qed.

Lemma find_loop_spec count view query name i :
  view_readable mem view → cstring name → 0 <= i → i + Z.of_nat count = sv_nlist_count view →
  runs (find_loop mem count view query name i) (λ r,
    match r with
    | Some m => i <= sm_index m < sv_nlist_count view ∧
        (∃ sym, qualifies mem view query name (sm_index m) sym ∧
          m = SymbolMatch (n_value sym) (n_sect sym) (n_type sym) (sm_index m) ∧
          is_u64 (n_value sym)) ∧
        ∀ j sym, i <= j < sm_index m → ¬ qualifies mem view query name j sym
    | None => ∀ j sym, i <= j < sv_nlist_count view → ¬ qualifies mem view query name j sym
    end).
Proof.
  intros [Hn Hstr] Hc. revert i. induction count as [|count IH]; intros i Hi Hcount; cbn [find_loop].
  { cbn. intros j sym Hj. lia. }
  pose proof (runs_nlist_at _ _ i Hn ltac:(lia)) as Hsym.
  apply runs_some in Hsym as (sym & Hat & Hstrx & Hval & _). rewrite Hat. cbn [mbind option_bind].
  assert (Hskip : (∀ s, ¬ qualifies mem view query name i s) →
    runs (find_loop mem count view query name (i + 1)) (λ r,
    match r with
    | Some m => i <= sm_index m < sv_nlist_count view ∧
        (∃ sym, qualifies mem view query name (sm_index m) sym ∧
          m = SymbolMatch (n_value sym) (n_sect sym) (n_type sym) (sm_index m) ∧
          is_u64 (n_value sym)) ∧
        ∀ j sym, i <= j < sm_index m → ¬ qualifies mem view query name j sym
    | None => ∀ j sym, i <= j < sv_nlist_count view → ¬ qualifies mem view query name j sym
    end)).
  { intros Hno. eapply runs_conseq; [apply IH; lia|]. cbn beta. intros [m|].
    - intros (Hm & Hq & Hall). split; [lia|]. split; [done|]. intros j s Hj.
      destruct (Z.eq_dec j i) as [->|]; [apply Hno|apply Hall; lia].
    - intros Hall j s Hj. destruct (Z.eq_dec j i) as [->|]; [apply Hno|apply Hall; lia]. }
  destruct (entry_permitted sym (sq_visibility query)) eqn:Hp; cbn [negb].
  2: { apply Hskip. intros s (Hs & Hp' & _). rewrite Hat in Hs. congruence. }
  eapply runs_bind; [apply name_matches_spec; [done|unfold is_u32 in Hstrx; lia|done]|].
  intros [|] Hmatch; cbn beta in Hmatch.
  - cbn. split; [lia|]. split; [|intros; lia]. exists sym. split; [|done].
    split; [done|]. split; [done|]. by apply Hmatch.
  - apply Hskip. intros s (Hs & _ & Hs'). rewrite Hat in Hs. injection Hs as <-.
    by apply Hmatch in Hs'.
Qed.
End Meaning.

(** The search returns the first entry that qualifies.  Over tables of
    arbitrary bytes it reads only inside them; a match is at an index that
    qualifies, reports that entry's fields, and no earlier entry qualifies; no
    match means that none does. *)
Theorem symbol_find_first (mem : memory) (view : hk_symbol_table_view) (query : hk_symbol_query)
    (name : list Z) :
  view_readable mem view → sq_name query = Some name → cstring name → name ≠ [] →
  sv_nlist view ≠ 0 → sv_strings view ≠ 0 → 0 < sv_strings_size view → 0 <= sv_nlist_count view →
  ∃ r, hk_symbol_table_find mem view query = Some r ∧
    match r with
    | Some m => 0 <= sm_index m < sv_nlist_count view ∧
        (∃ sym, qualifies mem view query name (sm_index m) sym ∧
          m = SymbolMatch (n_value sym) (n_sect sym) (n_type sym) (sm_index m) ∧
          is_u64 (n_value sym)) ∧
        ∀ j sym, 0 <= j < sm_index m → ¬ qualifies mem view query name j sym
    | None => ∀ j sym, 0 <= j < sv_nlist_count view → ¬ qualifies mem view query name j sym
    end.
Proof.
  intros Hv Hq Hc Hne Hn Hs Hsize Hcount. apply runs_some. unfold hk_symbol_table_find.
  rewrite (proj2 (Z.eqb_neq _ 0) Hn), (proj2 (Z.eqb_neq _ 0) Hs).
  rewrite (proj2 (Z.eqb_neq (sv_strings_size view) 0)) by lia. cbn [orb]. rewrite Hq.
  destruct name; [done|]. apply find_loop_spec; [done..|lia|lia].
Qed.

(** A table with an undefined entry and [_ok] at 0x4000. *)
Definition demo_symbols : list Z :=
  [1; 0; 0; 0;  0x01; 0; 0; 0;  0; 0; 0; 0; 0; 0; 0; 0;
   1; 0; 0; 0;  0x0f; 1; 0; 0;  0; 0x40; 0; 0; 0; 0; 0; 0;
   0; 95; 111; 107; 0].

Definition demo_symbol_memory : memory := memory_of 0x1000 demo_symbols.
Definition demo_view : hk_symbol_table_view := SymbolTableView 0x1000 2 0x1020 5.
Definition demo_query : hk_symbol_query :=
  SymbolQuery (Some [111; 107]) HK_SYMBOL_NAME_C HK_SYMBOL_VISIBILITY_ANY.

Lemma demo_view_readable : view_readable demo_symbol_memory demo_view.
Proof.
  assert (Hr : readable demo_symbol_memory 0x1000 37).
  { apply (readable_memory_of 0x1000 demo_symbols).
    apply (bool_decide_unpack (Forall _ _)). vm_compute. exact I. }
  split; [by apply (readable_sub 0x1000 37 0)|by apply (readable_sub 0x1000 37 32)].
Qed.

Lemma symbol_find_first_witness :
  hk_symbol_table_find demo_symbol_memory demo_view demo_query =
    Some (Some (SymbolMatch 0x4000 1 0x0f 1)) ∧
  ¬ ∃ sym, qualifies demo_symbol_memory demo_view demo_query [111; 107] 0 sym.
Proof.
  destruct (symbol_find_first demo_symbol_memory demo_view demo_query [111; 107]
    demo_view_readable eq_refl ltac:(repeat constructor; lia) ltac:(done) ltac:(done) ltac:(done)
    ltac:(done) ltac:(done)) as (r & Hr & Hfirst).
  assert (Hrun : hk_symbol_table_find demo_symbol_memory demo_view demo_query =
    Some (Some (SymbolMatch 0x4000 1 0x0f 1))) by (vm_compute; reflexivity).
  rewrite Hrun in Hr. injection Hr as <-. split; [exact Hrun|].
  destruct Hfirst as (_ & _ & Hfirst). intros [sym Hsym]. by apply (Hfirst 0 sym).
Defined.
