(* ===== verification/MachO.v ===== *)
(** * HKMachO.c: parsing a Mach-O container

    The header checks, the slice selection, the load-command iteration with
    its visitors, and the lookups built on it: symbol table, segments,
    sections, indirect symbols, export trie and chained fixups, each for the
    file layout and the loaded layout.  Images are arbitrary bytes. *)

From stdpp Require Import base list strings numbers option.
From S2P Require Import Prelude Types Ownership Memory SymbolTable.

Inductive hk_macho_status : Type :=
  | HK_MACHO_OK | HK_MACHO_TOO_SMALL | HK_MACHO_NOT_MACHO | HK_MACHO_FAT_UNSUPPORTED
  | HK_MACHO_BYTE_ORDER_UNSUPPORTED | HK_MACHO_NOT_64_BIT | HK_MACHO_MALFORMED
  | HK_MACHO_NOT_FOUND.

#[export] Instance hk_macho_status_eq_dec : EqDecision hk_macho_status.
Proof. solve_decision. Defined.

Definition HK_MH_MAGIC_64 : Z := 0xfeedfacf.
Definition HK_MH_CIGAM_64 : Z := 0xcffaedfe.
Definition HK_MH_MAGIC : Z := 0xfeedface.
Definition HK_MH_CIGAM : Z := 0xcefaedfe.
Definition HK_FAT_MAGIC : Z := 0xcafebabe.
Definition HK_FAT_CIGAM : Z := 0xbebafeca.
Definition HK_FAT_MAGIC_64 : Z := 0xcafebabf.

Definition HK_LC_SYMTAB : Z := 0x02.
Definition HK_LC_DYSYMTAB : Z := 0x0b.
Definition HK_LC_SEGMENT_64 : Z := 0x19.
Definition HK_LC_UUID : Z := 0x1b.
Definition HK_LC_DYLD_INFO : Z := 0x22.
Definition HK_LC_DYLD_INFO_ONLY : Z := 0x80000022.
Definition HK_LC_DYLD_EXPORTS_TRIE : Z := 0x80000033.
Definition HK_LC_DYLD_CHAINED_FIXUPS : Z := 0x80000034.

Definition HK_MACHO_HEADER_64_SIZE : Z := 32.
Definition HK_LOAD_COMMAND_SIZE : Z := 8.
Definition HK_SYMTAB_COMMAND_SIZE : Z := 24.
Definition HK_SEGMENT_COMMAND_64_SIZE : Z := 72.
Definition HK_SECTION_64_SIZE : Z := 80.
Definition HK_LINKEDIT_DATA_CMD_SIZE : Z := 16.
Definition HK_DYLD_INFO_COMMAND_SIZE : Z := 48.
Definition HK_DYSYMTAB_COMMAND_SIZE : Z := 80.

Definition HK_S_ATTR_PURE_INSTRUCTIONS : Z := 0x80000000.
Definition HK_S_ATTR_SOME_INSTRUCTIONS : Z := 0x00000400.

Definition UINT64_MAX : Z := 2 ^ 64 - 1.

Record hk_macho_header : Type := MachoHeader {
  mh_magic : Z;
  mh_cputype : Z;
  mh_cpusubtype : Z;
  mh_filetype : Z;
  mh_ncmds : Z;
  mh_sizeofcmds : Z;
  mh_flags : Z }.

(** Names are the C strings their fields hold. *)
Record hk_macho_segment : Type := MachoSegment {
  sg_segname : list Z;
  sg_vmaddr : Z;
  sg_vmsize : Z;
  sg_fileoff : Z;
  sg_filesize : Z;
  sg_maxprot : Z;
  sg_initprot : Z;
  sg_nsects : Z;
  sg_flags : Z;
  sg_command_offset : Z;
  sg_cmdsize : Z }.

Record hk_macho_section : Type := MachoSection {
  sc_sectname : list Z;
  sc_segname : list Z;
  sc_addr : Z;
  sc_size : Z;
  sc_offset : Z;
  sc_flags : Z;
  sc_reserved1 : Z;
  sc_reserved2 : Z }.

(** What a visitor returns: whether to go on, and its context. *)
Abbreviation visited C := (option (prod bool C)).

Section Code.
Context (mem : memory).

Definition read_be32 (p : Z) : option Z :=
  b0 ← read_u8 mem p; b1 ← read_u8 mem (p + 1); b2 ← read_u8 mem (p + 2);
  b3 ← read_u8 mem (p + 3);
  Some (Z.lor (Z.lor (Z.lor (Z.shiftl b0 24) (Z.shiftl b1 16)) (Z.shiftl b2 8)) b3).

Definition read_be64 (p : Z) : option Z :=
  high ← read_be32 p; low ← read_be32 (p + 4); Some (Z.lor (Z.shiftl high 32) low).

(** [switch (magic)]: the status of a magic that is not accepted. *)
Definition magic_status (magic : Z) : hk_macho_status :=
  if magic =? HK_MH_MAGIC_64 then HK_MACHO_OK
  else if magic =? HK_MH_CIGAM_64 then HK_MACHO_BYTE_ORDER_UNSUPPORTED
  else if (magic =? HK_MH_MAGIC) || (magic =? HK_MH_CIGAM) then HK_MACHO_NOT_64_BIT
  else if (magic =? HK_FAT_MAGIC) || (magic =? HK_FAT_CIGAM) then HK_MACHO_FAT_UNSUPPORTED
  else HK_MACHO_NOT_MACHO.

Definition hk_macho_peek_header (image size : Z) : checked hk_macho_status hk_macho_header :=
  if image =? 0 then refuse HK_MACHO_NOT_MACHO
  else if size <? 4 then refuse HK_MACHO_TOO_SMALL
  else
    magic ← read_u32 mem image;
    match magic_status magic with
    | HK_MACHO_OK =>
        if size <? HK_MACHO_HEADER_64_SIZE then refuse HK_MACHO_TOO_SMALL
        else
          cputype ← read_u32 mem (image + 4); cpusubtype ← read_u32 mem (image + 8);
          filetype ← read_u32 mem (image + 12); ncmds ← read_u32 mem (image + 16);
          sizeofcmds ← read_u32 mem (image + 20); flags ← read_u32 mem (image + 24);
          accept (MachoHeader magic cputype cpusubtype filetype ncmds sizeofcmds flags)
    | status => refuse status
    end.

(** The header a MALFORMED call leaves in [*out_header] has no reader. *)
Definition hk_macho_read_header (image size : Z) : checked hk_macho_status hk_macho_header :=
  header <~ hk_macho_peek_header image size ;;
  if size - HK_MACHO_HEADER_64_SIZE <? mh_sizeofcmds header then refuse HK_MACHO_MALFORMED
  else accept header.

(** One entry of the fat table: the slice it names, where it is the wanted one. *)
Definition select_arch (base file_size arch : Z) (fat64 : bool) (cputype cpusubtype : Z)
    : option (option (hk_macho_status + Z * Z)) :=
  type ← read_be32 arch; subtype ← read_be32 (arch + 4);
  if negb (type =? cputype) || negb (subtype =? cpusubtype) then Some None
  else
    offset ← (if fat64 then read_be64 (arch + 8) else read_be32 (arch + 8));
    size ← (if fat64 then read_be64 (arch + 16) else read_be32 (arch + 12));
    if (file_size <? offset) || (file_size - offset <? size) || (SIZE_MAX <? size)
    then Some (Some (inl HK_MACHO_MALFORMED))
    else
      selected ← hk_macho_read_header (base + offset) size;
      match selected with
      | inl _ => Some (Some (inl HK_MACHO_MALFORMED))
      | inr h =>
          if negb (mh_cputype h =? cputype) || negb (mh_cpusubtype h =? cpusubtype)
          then Some (Some (inl HK_MACHO_MALFORMED))
          else Some (Some (inr (base + offset, size)))
      end.

Fixpoint select_loop (count : nat) (base file_size : Z) (fat64 : bool) (stride i : Z)
    (cputype cpusubtype : Z) : checked hk_macho_status (Z * Z) :=
  match count with
  | O => refuse HK_MACHO_NOT_FOUND
  | S count =>
      found ← select_arch base file_size (base + 8 + i * stride) fat64 cputype cpusubtype;
      match found with
      | Some r => Some r
      | None => select_loop count base file_size fat64 stride (i + 1) cputype cpusubtype
      end
  end.

(** The slice and its size. *)
Definition hk_macho_select_slice (file file_size cputype cpusubtype : Z)
    : checked hk_macho_status (Z * Z) :=
  if (file =? 0) || (file_size <? 4) then refuse HK_MACHO_TOO_SMALL
  else
    thin ← hk_macho_read_header file file_size;
    match thin with
    | inr h =>
        if negb (mh_cputype h =? cputype) || negb (mh_cpusubtype h =? cpusubtype)
        then refuse HK_MACHO_NOT_FOUND
        else accept (file, file_size)
    | inl thin_status =>
        magic ← read_be32 file;
        let fat64 := magic =? HK_FAT_MAGIC_64 in
        if negb (magic =? HK_FAT_MAGIC) && negb fat64 then refuse thin_status
        else if file_size <? 8 then refuse HK_MACHO_MALFORMED
        else
          count ← read_be32 (file + 4);
          let stride := if fat64 then 32 else 20 in
          if file_size - 8 <? count * stride then refuse HK_MACHO_MALFORMED
          else select_loop (Z.to_nat count) file file_size fat64 stride 0 cputype cpusubtype
    end.

(** ** Load commands *)

Section Iterate.
Context {C : Type} (visit : C → Z → Z → Z → visited C).

(** [visit] sees the command, its offset and its size. *)
Fixpoint commands_loop (ncmds : nat) (base offset end_ : Z) (ctx : C)
    : option (hk_macho_status * C) :=
  match ncmds with
  | O => Some (HK_MACHO_OK, ctx)
  | S ncmds =>
      if end_ - offset <? HK_LOAD_COMMAND_SIZE then Some (HK_MACHO_MALFORMED, ctx)
      else
        cmd ← read_u32 mem (base + offset);
        cmdsize ← read_u32 mem (base + (offset + 4));
        if (cmdsize <? HK_LOAD_COMMAND_SIZE) || negb (cmdsize mod 8 =? 0)
        then Some (HK_MACHO_MALFORMED, ctx)
        else if end_ - offset <? cmdsize then Some (HK_MACHO_MALFORMED, ctx)
        else
          '(go_on, ctx) ← visit ctx cmd offset cmdsize;
          if go_on : bool then commands_loop ncmds base (offset + cmdsize) end_ ctx
          else Some (HK_MACHO_OK, ctx)
  end.

Definition hk_macho_iterate_load_commands (image size : Z) (ctx : C)
    : option (hk_macho_status * C) :=
  header ← hk_macho_read_header image size;
  match header with
  | inl status => Some (status, ctx)
  | inr h =>
      commands_loop (Z.to_nat (mh_ncmds h)) image HK_MACHO_HEADER_64_SIZE
        (HK_MACHO_HEADER_64_SIZE + mh_sizeofcmds h) ctx
  end.
End Iterate.

Definition find_lc_visit (wanted : Z) (found : option (Z * Z)) (cmd offset cmdsize : Z)
    : visited (option (Z * Z)) :=
  if cmd =? wanted then Some (false, Some (offset, cmdsize)) else Some (true, found).

(** The offset and the size of the command. *)
Definition hk_macho_find_load_command (image size cmd : Z) : checked hk_macho_status (Z * Z) :=
  '(status, found) ← hk_macho_iterate_load_commands (find_lc_visit cmd) image size None;
  match status, found with
  | HK_MACHO_OK, Some f => accept f
  | HK_MACHO_OK, None => refuse HK_MACHO_NOT_FOUND
  | status, _ => refuse status
  end.

Definition hk_macho_copy_uuid (image size : Z) : checked hk_macho_status (list Z) :=
  found <~ hk_macho_find_load_command image size HK_LC_UUID ;;
  let '(offset, cmdsize) := found in
  if cmdsize <? 24 then refuse HK_MACHO_MALFORMED
  else uuid ← read_bytes mem 16 (image + (offset + 8)); accept uuid.

Definition hk_macho_find_symtab_view (image size : Z)
    : checked hk_macho_status hk_symbol_table_view :=
  found <~ hk_macho_find_load_command image size HK_LC_SYMTAB ;;
  let '(offset, cmdsize) := found in
  if cmdsize <? HK_SYMTAB_COMMAND_SIZE then refuse HK_MACHO_MALFORMED
  else
    symoff ← read_u32 mem (image + (offset + 8)); nsyms ← read_u32 mem (image + (offset + 12));
    stroff ← read_u32 mem (image + (offset + 16)); strsize ← read_u32 mem (image + (offset + 20));
    let nlist_bytes := nsyms * SIZEOF_NLIST64 in
    if (size <? symoff) || (size - symoff <? nlist_bytes) then refuse HK_MACHO_MALFORMED
    else if (size <? stroff) || (size - stroff <? strsize) then refuse HK_MACHO_MALFORMED
    else if negb (u64 (image + symoff) mod 8 =? 0) then refuse HK_MACHO_MALFORMED
    else accept (SymbolTableView (image + symoff) nsyms (image + stroff) strsize).

(** ** Segments *)

Definition read_segment (base offset cmdsize : Z) : option (option hk_macho_segment) :=
  if cmdsize <? HK_SEGMENT_COMMAND_64_SIZE then Some None
  else
    segname ← read_bytes mem 16 (base + (offset + 8));
    vmaddr ← read_u64 mem (base + (offset + 24)); vmsize ← read_u64 mem (base + (offset + 32));
    fileoff ← read_u64 mem (base + (offset + 40)); filesize ← read_u64 mem (base + (offset + 48));
    maxprot ← read_u32 mem (base + (offset + 56)); initprot ← read_u32 mem (base + (offset + 60));
    nsects ← read_u32 mem (base + (offset + 64)); flags ← read_u32 mem (base + (offset + 68));
    Some (Some (MachoSegment (until_nul segname) vmaddr vmsize fileoff filesize maxprot initprot
                  nsects flags offset cmdsize)).

Definition sections_fit (seg : hk_macho_segment) : bool :=
  HK_SEGMENT_COMMAND_64_SIZE + sg_nsects seg * HK_SECTION_64_SIZE <=? sg_cmdsize seg.

(** [segments_ctx_t], the base and the callback apart. *)
Record segments_ctx (C : Type) : Type := SegmentsCtx {
  ss_ctx : C; ss_index : Z; ss_malformed : bool }.
Arguments SegmentsCtx {C} _ _ _.
Arguments ss_ctx {C} _.
Arguments ss_index {C} _.
Arguments ss_malformed {C} _.

Section Segments.
Context {C : Type} (visit : C → Z → hk_macho_segment → visited C).

Definition segments_visit (base : Z) (s : segments_ctx C) (cmd offset cmdsize : Z)
    : visited (segments_ctx C) :=
  if negb (cmd =? HK_LC_SEGMENT_64) then Some (true, s)
  else
    seg ← read_segment base offset cmdsize;
    match seg with
    | None => Some (false, SegmentsCtx (ss_ctx s) (ss_index s) true)
    | Some seg =>
        '(go_on, ctx) ← visit (ss_ctx s) (ss_index s) seg;
        Some (go_on, SegmentsCtx ctx (u32 (ss_index s + 1)) (ss_malformed s))
    end.

Definition hk_macho_iterate_segments (image size : Z) (ctx : C) : option (hk_macho_status * C) :=
  if image =? 0 then Some (HK_MACHO_NOT_MACHO, ctx)
  else
    '(status, s) ← hk_macho_iterate_load_commands (segments_visit image) image size
                      (SegmentsCtx ctx 0 false);
    Some (match status with
          | HK_MACHO_OK => if ss_malformed s then HK_MACHO_MALFORMED else HK_MACHO_OK
          | status => status
          end, ss_ctx s).
End Segments.

(** [find_segment_ctx_t]: the match, and [malformed]. *)
Definition find_segment_visit (base : Z) (wanted : list Z) (f : option hk_macho_segment * bool)
    (cmd offset cmdsize : Z) : visited (option hk_macho_segment * bool) :=
  if negb (cmd =? HK_LC_SEGMENT_64) then Some (true, f)
  else
    seg ← read_segment base offset cmdsize;
    match seg with
    | None => Some (false, (f.1, true))
    | Some seg =>
        if bool_decide (sg_segname seg = wanted) then Some (false, (Some seg, f.2))
        else Some (true, f)
    end.

Definition hk_macho_find_segment (image size : Z) (segname : list Z)
    : checked hk_macho_status hk_macho_segment :=
  if image =? 0 then refuse HK_MACHO_NOT_MACHO
  else
    '(status, f) ← hk_macho_iterate_load_commands (find_segment_visit image segname) image size
                      (None, false);
    let f : option hk_macho_segment * bool := f in
    match status with
    | HK_MACHO_OK =>
        if f.2 then refuse HK_MACHO_MALFORMED
        else match f.1 with Some seg => accept seg | None => refuse HK_MACHO_NOT_FOUND end
    | status => refuse status
    end.

(** ** Sections *)

Definition read_section (base offset : Z) : option hk_macho_section :=
  sectname ← read_bytes mem 16 (base + offset);
  segname ← read_bytes mem 16 (base + (offset + 16));
  addr ← read_u64 mem (base + (offset + 32)); size ← read_u64 mem (base + (offset + 40));
  file_offset ← read_u32 mem (base + (offset + 48)); flags ← read_u32 mem (base + (offset + 64));
  reserved1 ← read_u32 mem (base + (offset + 68)); reserved2 ← read_u32 mem (base + (offset + 72));
  Some (MachoSection (until_nul sectname) (until_nul segname) addr size file_offset flags
          reserved1 reserved2).

Record sections_ctx (C : Type) : Type := SectionsCtx {
  cs_ctx : C; cs_running : Z; cs_malformed : bool; cs_stopped : bool }.
Arguments SectionsCtx {C} _ _ _ _.
Arguments cs_ctx {C} _.
Arguments cs_running {C} _.
Arguments cs_malformed {C} _.
Arguments cs_stopped {C} _.

Section Sections.
Context {C : Type} (visit : C → Z → hk_macho_section → visited C).

(** The loop over a segment's sections: whether all were visited, and the
    callback's context. *)
Fixpoint sections_loop (count : nat) (base offset running i : Z) (ctx : C) : visited C :=
  match count with
  | O => Some (true, ctx)
  | S count =>
      section ← read_section base (offset + HK_SEGMENT_COMMAND_64_SIZE + i * HK_SECTION_64_SIZE);
      let n_sect := u32 (running + i + 1) in
      if 0xff <? n_sect then Some (false, ctx)
      else
        '(go_on, ctx) ← visit ctx n_sect section;
        if go_on : bool then sections_loop count base offset running (i + 1) ctx
        else Some (false, ctx)
  end.

Definition sections_visit (base : Z) (s : sections_ctx C) (cmd offset cmdsize : Z)
    : visited (sections_ctx C) :=
  if negb (cmd =? HK_LC_SEGMENT_64) then Some (true, s)
  else
    seg ← read_segment base offset cmdsize;
    match seg with
    | Some seg =>
        if sections_fit seg then
          '(all, ctx) ← sections_loop (Z.to_nat (sg_nsects seg)) base offset (cs_running s) 0 (cs_ctx s);
          if all : bool
          then Some (true, SectionsCtx ctx (u32 (cs_running s + sg_nsects seg))
                             (cs_malformed s) (cs_stopped s))
          else Some (false, SectionsCtx ctx (cs_running s) (cs_malformed s) true)
        else Some (false, SectionsCtx (cs_ctx s) (cs_running s) true (cs_stopped s))
    | None => Some (false, SectionsCtx (cs_ctx s) (cs_running s) true (cs_stopped s))
    end.

Definition hk_macho_iterate_sections (image size : Z) (ctx : C) : option (hk_macho_status * C) :=
  if image =? 0 then Some (HK_MACHO_NOT_MACHO, ctx)
  else
    '(status, s) ← hk_macho_iterate_load_commands (sections_visit image) image size
                      (SectionsCtx ctx 0 false false);
    Some (match status with
          | HK_MACHO_OK => if cs_malformed s then HK_MACHO_MALFORMED else HK_MACHO_OK
          | status => status
          end, cs_ctx s).
End Sections.

Definition section_lookup_visit (wanted : Z) (found : option hk_macho_section) (n_sect : Z)
    (section : hk_macho_section) : visited (option hk_macho_section) :=
  if n_sect =? wanted then Some (false, Some section) else Some (true, found).

Definition hk_macho_section_info (image size n_sect : Z)
    : checked hk_macho_status hk_macho_section :=
  if image =? 0 then refuse HK_MACHO_NOT_MACHO
  else if n_sect =? 0 then refuse HK_MACHO_NOT_FOUND
  else
    '(status, found) ← hk_macho_iterate_sections (section_lookup_visit n_sect) image size None;
    match status, found with
    | HK_MACHO_OK, Some section => accept section
    | HK_MACHO_OK, None => refuse HK_MACHO_NOT_FOUND
    | status, _ => refuse status
    end.

Definition hk_macho_section_flags (image size n_sect : Z) : checked hk_macho_status Z :=
  section <~ hk_macho_section_info image size n_sect ;; accept (sc_flags section).

Definition hk_macho_section_is_code (section_flags : Z) : bool :=
  negb (Z.land section_flags (Z.lor HK_S_ATTR_PURE_INSTRUCTIONS HK_S_ATTR_SOME_INSTRUCTIONS) =? 0).

(** The context is [code], once found. *)
Definition address_section_visit (slide address : Z) (found : option bool) (_ : Z)
    (section : hk_macho_section) : visited (option bool) :=
  if (UINT64_MAX - sc_addr section <? sc_size section) || (UINT64_MAX - slide <? sc_addr section)
  then Some (true, found)
  else
    let start := sc_addr section + slide in
    let end64 := sc_addr section + sc_size section in
    if UINT64_MAX - slide <? end64 then Some (true, found)
    else
      let end_ := end64 + slide in
      if (start <=? address) && (address <? end_)
      then Some (false, Some (hk_macho_section_is_code (sc_flags section)))
      else Some (true, found).

Definition hk_macho_runtime_address_is_code (header header_region_size slide address : Z)
    : checked hk_macho_status bool :=
  if header =? 0 then refuse HK_MACHO_NOT_MACHO
  else
    '(status, found) ← hk_macho_iterate_sections (address_section_visit slide address)
                         header header_region_size None;
    match status, found with
    | HK_MACHO_OK, Some code => accept code
    | HK_MACHO_OK, None => refuse HK_MACHO_NOT_FOUND
    | status, _ => refuse status
    end.

(** ** Tables a load command locates *)

(** [dysymtab_ctx_t] and its likes: the file range, and [malformed]. *)
Definition file_range : Type := option (Z * Z) * bool.

Definition dysymtab_visit (base : Z) (d : file_range) (cmd offset cmdsize : Z)
    : visited file_range :=
  if negb (cmd =? HK_LC_DYSYMTAB) then Some (true, d)
  else if cmdsize <? HK_DYSYMTAB_COMMAND_SIZE then Some (false, (d.1, true))
  else
    off ← read_u32 mem (base + (offset + 56)); count ← read_u32 mem (base + (offset + 60));
    Some (false, (Some (off, count), d.2)).

(** After the iteration: a malformed command, nothing (or an empty range), or
    the range. *)
Definition range_result (r : hk_macho_status * file_range) : checked hk_macho_status (Z * Z) :=
  let '(status, d) := r in
  match status with
  | HK_MACHO_OK =>
      if d.2 then refuse HK_MACHO_MALFORMED
      else
        match d.1 with
        | Some (off, count) => if count =? 0 then refuse HK_MACHO_NOT_FOUND else accept (off, count)
        | None => refuse HK_MACHO_NOT_FOUND
        end
  | status => refuse status
  end.

Definition hk_macho_find_indirect_symbols (image size : Z) : checked hk_macho_status (Z * Z) :=
  if image =? 0 then refuse HK_MACHO_NOT_MACHO
  else
    r ← hk_macho_iterate_load_commands (dysymtab_visit image) image size (None, false);
    range_result r.

Definition export_trie_visit (base : Z) (e : file_range) (cmd offset cmdsize : Z)
    : visited file_range :=
  if cmd =? HK_LC_DYLD_EXPORTS_TRIE then
    if cmdsize <? HK_LINKEDIT_DATA_CMD_SIZE then Some (false, (e.1, true))
    else
      off ← read_u32 mem (base + (offset + 8)); len ← read_u32 mem (base + (offset + 12));
      Some (false, (Some (off, len), e.2))
  else if ((cmd =? HK_LC_DYLD_INFO) || (cmd =? HK_LC_DYLD_INFO_ONLY)) && bool_decide (e.1 = None)
  then
    if cmdsize <? HK_DYLD_INFO_COMMAND_SIZE then Some (false, (e.1, true))
    else
      off ← read_u32 mem (base + (offset + 40)); len ← read_u32 mem (base + (offset + 44));
      Some (true, (Some (off, len), e.2))
  else Some (true, e).

Definition export_trie_file_range (image size : Z) : checked hk_macho_status (Z * Z) :=
  r ← hk_macho_iterate_load_commands (export_trie_visit image) image size (None, false);
  range_result r.

(** The offset in the image, and the size. *)
Definition hk_macho_find_export_trie (image size : Z) : checked hk_macho_status (Z * Z) :=
  if image =? 0 then refuse HK_MACHO_NOT_MACHO
  else
    range <~ export_trie_file_range image size ;;
    let '(off, len) := range in
    if (size <? off) || (size - off <? len) then refuse HK_MACHO_MALFORMED else accept (off, len).

Definition linkedit_data_visit (base : Z) (d : file_range) (cmd offset cmdsize : Z)
    : visited file_range :=
  if negb (cmd =? HK_LC_DYLD_CHAINED_FIXUPS) then Some (true, d)
  else if cmdsize <? HK_LINKEDIT_DATA_CMD_SIZE then Some (false, (d.1, true))
  else
    off ← read_u32 mem (base + (offset + 8)); len ← read_u32 mem (base + (offset + 12));
    Some (false, (Some (off, len), d.2)).

Definition chained_fixups_file_range (image size : Z) : checked hk_macho_status (Z * Z) :=
  r ← hk_macho_iterate_load_commands (linkedit_data_visit image) image size (None, false);
  range_result r.

Definition hk_macho_find_chained_fixups (image size : Z) : checked hk_macho_status (Z * Z) :=
  if image =? 0 then refuse HK_MACHO_NOT_MACHO
  else
    range <~ chained_fixups_file_range image size ;;
    let '(off, len) := range in
    if (size <? off) || (size - off <? len) then refuse HK_MACHO_MALFORMED else accept (off, len).

(** ** Loaded images *)

Definition LINKEDIT : list Z := string_bytes "__LINKEDIT".
Definition PAGEZERO : list Z := string_bytes "__PAGEZERO".

Record linkedit_map : Type := LinkeditMap { lk_base : Z; lk_file_start : Z; lk_file_end : Z }.

Definition linkedit_mapping (header region_size slide : Z) : checked hk_macho_status linkedit_map :=
  seg <~ hk_macho_find_segment header region_size LINKEDIT ;;
  if UINT64_MAX - sg_fileoff seg <? sg_filesize seg then refuse HK_MACHO_MALFORMED
  else if sg_vmaddr seg <? sg_fileoff seg then refuse HK_MACHO_MALFORMED
  else accept (LinkeditMap (u64 (slide + (sg_vmaddr seg - sg_fileoff seg)))
                 (sg_fileoff seg) (sg_fileoff seg + sg_filesize seg)).

Definition within_linkedit (offset length : Z) (m : linkedit_map) : bool :=
  if (offset <? lk_file_start m) || (lk_file_end m <? offset) then false
  else length <=? lk_file_end m - offset.

(** [span_acc_t]: the least start and the greatest end, once there is one. *)
Definition span_visit (acc : option (Z * Z)) (_ : Z) (seg : hk_macho_segment)
    : visited (option (Z * Z)) :=
  if sg_vmsize seg =? 0 then Some (true, acc)
  else if bool_decide (sg_segname seg = PAGEZERO) then Some (true, acc)
  else
    let end_ := u64 (sg_vmaddr seg + sg_vmsize seg) in
    if end_ <? sg_vmaddr seg then Some (true, acc)
    else
      match acc with
      | None => Some (true, Some (sg_vmaddr seg, end_))
      | Some (low, high) =>
          Some (true, Some (if sg_vmaddr seg <? low then sg_vmaddr seg else low,
                            if high <? end_ then end_ else high))
      end.

Definition hk_macho_image_span_for_loaded_image (header header_region_size slide : Z)
    : checked hk_macho_status (Z * Z) :=
  if header =? 0 then refuse HK_MACHO_NOT_MACHO
  else
    '(status, acc) ← hk_macho_iterate_segments span_visit header header_region_size None;
    match status, acc with
    | HK_MACHO_OK, Some (low, high) => accept (u64 (low + slide), u64 (high + slide))
    | HK_MACHO_OK, None => refuse HK_MACHO_NOT_FOUND
    | status, _ => refuse status
    end.

Definition hk_macho_symtab_view_for_loaded_image (header header_region_size slide : Z)
    : checked hk_macho_status hk_symbol_table_view :=
  if header =? 0 then refuse HK_MACHO_NOT_MACHO
  else
    m <~ linkedit_mapping header header_region_size slide ;;
    found <~ hk_macho_find_load_command header header_region_size HK_LC_SYMTAB ;;
    let '(offset, cmdsize) := found in
    if cmdsize <? HK_SYMTAB_COMMAND_SIZE then refuse HK_MACHO_MALFORMED
    else
      symoff ← read_u32 mem (header + (offset + 8)); nsyms ← read_u32 mem (header + (offset + 12));
      stroff ← read_u32 mem (header + (offset + 16));
      strsize ← read_u32 mem (header + (offset + 20));
      if negb (within_linkedit symoff (nsyms * SIZEOF_NLIST64) m) then refuse HK_MACHO_MALFORMED
      else if negb (within_linkedit stroff strsize m) then refuse HK_MACHO_MALFORMED
      else
        let nlist_addr := u64 (lk_base m + symoff) in
        if negb (nlist_addr mod 8 =? 0) then refuse HK_MACHO_MALFORMED
        else accept (SymbolTableView nlist_addr nsyms (u64 (lk_base m + stroff)) strsize).

(** The two loaded-image lookups that differ in their load command only. *)
Definition loaded_range (header header_region_size slide : Z)
    (file_range : checked hk_macho_status (Z * Z)) : checked hk_macho_status (Z * Z) :=
  if header =? 0 then refuse HK_MACHO_NOT_MACHO
  else
    range <~ file_range ;;
    let '(off, len) := range in
    m <~ linkedit_mapping header header_region_size slide ;;
    if negb (within_linkedit off len m) then refuse HK_MACHO_MALFORMED
    else accept (u64 (lk_base m + off), len).

Definition hk_macho_export_trie_for_loaded_image (header header_region_size slide : Z)
    : checked hk_macho_status (Z * Z) :=
  loaded_range header header_region_size slide
    (export_trie_file_range header header_region_size).

Definition hk_macho_chained_fixups_for_loaded_image (header header_region_size slide : Z)
    : checked hk_macho_status (Z * Z) :=
  loaded_range header header_region_size slide
    (chained_fixups_file_range header header_region_size).
End Code.
