(* ===== verification/Demo.v ===== *)
(** * A concrete process and a small Mach-O image

    The inputs at which theorems that have hypotheses are applied: one engine with
    every per-hook callback, a runtime that registers it and plans of memory
    patches over them; and one __TEXT segment with a symbol-pointer section, a
    symbol table with [_ok], an export trie and an indirect symbol table.  Nothing
    here models code. *)

From stdpp Require Import base list strings gmap numbers.
From S2P Require Import Prelude Types Ownership ImageCatalog Artifacts Engine Plan Memory ExportTrie MachO.

Module Demo.

Definition capabilities : hk_engine_capabilities :=
  Capabilities (Some "hookkit.demo") None None 127 0 0 0 0 0 63 0 16 17 false true 127.

(** Preparing hands out a pointer, committing records one artifact and publishes
    an original, verification succeeds. *)
Definition engine : hk_engine_vtable unit :=
  Vtable unit 0x9000 1 0 capabilities
    (Some (λ _ _, (true, true)))
    (Some (λ _ _ _, (true, EngineAnalysis true 63 16 17 10)))
    None None None
    None
    (Some (λ _ _ _ _, ret (CommitReply [demo_artifact] (Some 0x5000) None HK_MUTATION_COMPLETE)))
    (Some (λ _ _, ret tt))
    (Some (λ _ _ _, ret (HK_VERIFY_OK, no_verify_diag)))
    (Some (λ _ _, ret (HK_PREPARE_OK, 0x7000, no_prepare_diag)))
    None None None None None None.

Definition patch (address : Z) : hk_target :=
  TMemory (MemoryTarget address false zero_selector (Bytes [0x1F; 0x20; 0x03; 0xD5])
             (Bytes [0xC0; 0x03; 0x5F; 0xD6]) (BytesNull 0) 4 0).

Definition spec (name : string) (address domain order : Z) (after : list Z) : hk_hook_spec :=
  HookSpec SIZEOF_HOOK_SPEC (Some name) (patch address) 0x6000 0 0 HK_ORIGINAL_NONE
    HK_CONTINUATION_ANY 0 HK_AVAILABILITY_REQUIRED_NOW HK_OPERATION_MANDATORY domain order
    (After after).

(** A hook at an address, in a lifecycle outcome. *)
Definition hook (a : Z) (s : hk_hook_spec) (key : list Z) (outcome : hk_outcome) : hk_hook unit :=
  Hook a (Id a 1) s (Some key) (Some engine) 1 0 None None (zero_result <| r_outcome := outcome |>).

Definition domain_spec (name : string) : hk_domain_spec :=
  DomainSpec SIZEOF_DOMAIN_SPEC (Some name) 0 true false 0.
Definition domain (a : Z) (name : string) : hk_domain := Domain a (Id a 2) (domain_spec name).

(** Three hooks: the last depends on the first, the second has a higher commit
    order than the last. *)
Definition hooks (outcome : hk_outcome) : list (hk_hook unit) :=
  [ hook 0x100 (spec "first" 0x4000 0 0 []) [1] outcome;
    hook 0x120 (spec "second" 0x4010 0x200 9 []) [2] outcome;
    hook 0x140 (spec "third" 0x4020 0x200 1 [0x100]) [3] outcome ].

Definition plan (state : hk_plan_state) (outcome : hk_outcome) : hk_plan unit :=
  Plan (Id 7 7) (Some "demo") state [domain 0x200 "core"] 4 (hooks outcome) 4.

Definition memory : heap := Heap (λ _, false) 0 0x1000.

Definition runtime : hk_runtime unit :=
  Runtime (Id 8 8) HK_INSTALL_CONTEXT_EARLY_PROCESS 0 0 [EngineSlot engine 1 true] None [] 0
    (Some (ArtifactLedger [] 0)).

Definition process (state : hk_plan_state) (outcome : hk_outcome) : sys unit :=
  Sys memory (Ids None 0 7) [] None [] tt [] runtime (plan state outcome) no_locals.

End Demo.

Module DemoImage.

Definition le32 (v : Z) : list Z := le_bytes 4 v.
Definition le64 (v : Z) : list Z := le_bytes 8 v.
Definition field16 (s : string) : list Z :=
  take 16 (string_bytes s ++ replicate 16 0).

Definition section : list Z :=
  field16 "__got" ++ field16 "__DATA" ++ le64 0x8000 ++ le64 8 ++ le32 0 ++ le32 3 ++
  le32 0 ++ le32 0 ++ le32 6 ++ le32 0 ++ le32 0 ++ le32 0.

Definition segment : list Z :=
  le32 0x19 ++ le32 152 ++ field16 "__TEXT" ++ le64 0x4000 ++ le64 0x8000 ++ le64 0 ++ le64 0x400 ++
  le32 5 ++ le32 5 ++ le32 1 ++ le32 0 ++ section.

Definition symtab : list Z :=
  le32 0x02 ++ le32 24 ++ le32 352 ++ le32 1 ++ le32 368 ++ le32 5.

Definition exports : list Z := le32 0x80000033 ++ le32 16 ++ le32 376 ++ le32 11.

Definition dysymtab : list Z :=
  le32 0x0b ++ le32 80 ++ replicate 48 0 ++ le32 400 ++ le32 1 ++ replicate 16 0.

Definition header : list Z :=
  le32 0xfeedfacf ++ le32 0x0100000c ++ le32 0 ++ le32 6 ++ le32 4 ++ le32 272 ++ le32 0 ++ le32 0.

(** [_ok] at 0x4010, in section 1 *)
Definition nlists : list Z := le32 1 ++ [0x0f; 1; 0; 0] ++ le64 0x4010.
Definition strings : list Z := [0; 95; 111; 107; 0; 0; 0; 0].

(** The trie: [_ok] at offset 0x10 of the image. *)
Definition trie : list Z :=
  node_bytes None [([95; 111; 107], 7)] ++ node_bytes (Some (Regular 0 0x10)) [].

Definition image : list Z :=
  header ++ segment ++ symtab ++ exports ++ dysymtab ++
  replicate (352 - 304) 0 ++ nlists ++ strings ++ take 24 (trie ++ replicate 24 0) ++ le32 0.

Definition base : Z := 0x10000.
Definition size : Z := Z.of_nat (length image).
Definition memory : Memory.memory := memory_of base image.

Lemma readable : Memory.readable memory base size.
Proof.
  apply readable_memory_of. apply (bool_decide_unpack (Forall _ _)). vm_compute. exact I.
Qed.
End DemoImage.
