(* ===== verification/Dispatch.v ===== *)
(** * Reaching an engine (src/core/HKPlan.c: the per-hook dispatch)

    Release, prepare, commit and verify of one hook, the effect checks at the
    two boundaries, and the roll-up of one commit attempt.  Plans and the
    deferred-hook queue both go through these. *)

From stdpp Require Import base list strings gmap numbers.
From S2P Require Import Prelude Types Ownership ImageCatalog Artifacts Engine Plan.

Section Dispatch.
Context {E : Type}.
Local Abbreviation hook := (hk_hook E).
Local Abbreviation sys := (sys E).

Definition engine_address (h : hook) : Z :=
  match h_matched_engine h with Some v => vt_address v | None => 0 end.

(** [hk_hook_release_prepared] *)
Definition hk_hook_release_prepared (h : hook) : M sys hook :=
  if h_prepared_state h =? 0 then ret h
  else
    (match h_matched_engine h with
     | Some v =>
         match vt_release_prepared v with
         | Some release =>
             on_engine (release (h_matched_engine_ctx h) (h_prepared_state h)) ;;;
             trace (EvReleased (vt_address v) (h_matched_engine_ctx h) (h_prepared_state h))
         | None => ret tt
         end
     | None => ret tt
     end) ;;;
    let r := h_result h in
    let r := if bool_decide (r_mutation r = HK_MUTATION_NONE)
             then r <| r_continuation := empty_continuation |>
                    <| r_original_available := false |> <| r_currently_valid := false |>
             else r in
    ret (h <| h_prepared_state := 0 |> <| h_result := r |> <| h_prepared_continuation := None |>).

(** [hk_hook_inspect_prepared_continuation]: the hook, the result, the
    diagnostic. *)
Definition hk_hook_inspect_prepared_continuation (h : hook) (diag : hk_prepare_diag)
    : M sys (hook * hk_prepare_result * hk_prepare_diag) :=
  let inspect :=
    v ← h_matched_engine h;
    if hk_engine_vtable_has_field (Some v) OFFSET_inspect_continuation SIZEOF_POINTER
    then vt_inspect_continuation v else None in
  match inspect with
  | None => ret (h, HK_PREPARE_OK, diag)
  | Some inspect =>
      reply <- on_engine (inspect (h_matched_engine_ctx h) (h_spec h) (h_prepared_state h)) ;;
      let '(result, info, d) := reply in
      let failed (d : hk_verify_diag) : M sys (hook * hk_prepare_result * hk_prepare_diag) :=
        h <- hk_hook_release_prepared h ;;
        ret (h, HK_PREPARE_FAILED,
             diag <| pd_error_code := if negb (vd_error_code d =? 0) then vd_error_code d
                                      else hk_status_code HK_STATUS_INTERNAL_ERROR |>
                  <| pd_error_message :=
                       Some (default "engine could not inspect its prepared continuation"
                               (vd_error_message d)) |>) in
      match result with
      | HK_VERIFY_UNAVAILABLE => ret (h, HK_PREPARE_OK, diag)
      | HK_VERIFY_OK =>
          if ci_struct_size info <? SIZEOF_CONTINUATION_INFO then
            failed (VerifyDiag (hk_status_code HK_STATUS_INTERNAL_ERROR)
                      (Some "engine returned a truncated continuation description"))
          else ret (h <| h_prepared_continuation := Some info |>, HK_PREPARE_OK, diag)
      | HK_VERIFY_FAILED => failed d
      end
  end.

(** What an engine's preparation produced, retained by the hook only when it
    succeeded. *)
Definition retain_prepared (h : hook) (ok : bool) (prepared : Z) : M sys hook :=
  let prepared := if ok then prepared else 0 in
  when (negb (prepared =? 0))
    (trace (EvPrepared (engine_address h) (h_matched_engine_ctx h) prepared)) ;;;
  ret (h <| h_prepared_state := prepared |>).

(** [hk_hook_dispatch_prepare]: the richest entry point the engine has. *)
Definition hk_hook_dispatch_prepare (h : hook)
    : M sys (hook * hk_prepare_result * hk_prepare_diag) :=
  let status_of (ok : bool) := if ok then HK_PREPARE_OK else HK_PREPARE_FAILED in
  let inspect_if_ok (h : hook) (result : hk_prepare_result) (diag : hk_prepare_diag)
      : M sys (hook * hk_prepare_result * hk_prepare_diag) :=
    if bool_decide (result = HK_PREPARE_OK)
    then hk_hook_inspect_prepared_continuation h diag else ret (h, result, diag) in
  match h_matched_engine h with
  | None => ret (h, HK_PREPARE_FAILED, no_prepare_diag)
  | Some v =>
      match vt_prepare_one_ctx_status v, vt_prepare_one_ctx v, vt_prepare_one v with
      | Some prepare, _, _ =>
          reply <- on_engine (prepare (h_matched_engine_ctx h) (h_spec h)) ;;
          let '(result, prepared, diag) := reply in
          h <- retain_prepared h (bool_decide (result = HK_PREPARE_OK)) prepared ;;
          inspect_if_ok h result diag
      | None, Some prepare, _ =>
          reply <- on_engine (prepare (h_matched_engine_ctx h) (h_spec h)) ;;
          let '(ok, prepared) := reply in
          h <- retain_prepared h ok prepared ;;
          inspect_if_ok h (status_of ok) no_prepare_diag
      | None, None, Some prepare =>
          ok <- on_engine (prepare (h_spec h)) ;;
          inspect_if_ok h (status_of ok) no_prepare_diag
      | None, None, None => ret (h, HK_PREPARE_FAILED, no_prepare_diag)
      end
  end.

(** [hk_hook_validate_prepare_effects] *)
Definition hk_hook_validate_prepare_effects (h : hook) (result : hk_prepare_result)
    (diag : hk_prepare_diag) : M sys (hook * hk_prepare_result * hk_prepare_diag) :=
  match h_matched_engine h with
  | None => ret (h, result, diag)
  | Some v =>
      if pd_observed_effects diag =? 0 then ret (h, result, diag)
      else if without (pd_observed_effects diag) (c_prepare_effects (vt_describe v)) =? 0
      then ret (h, result, diag)
      else
        h <- (if bool_decide (result = HK_PREPARE_OK) then hk_hook_release_prepared h else ret h) ;;
        ret (h, HK_PREPARE_FAILED,
             diag <| pd_error_code := hk_status_code HK_STATUS_INTERNAL_ERROR |>
                  <| pd_error_message :=
                       Some "engine produced an undeclared preparation effect" |>)
  end.

(** The core's own diagnostics. *)
Definition core_error (code : hk_status) (message : string) (out : hk_hook_result)
    : hk_hook_result :=
  out <| r_error_domain := Some "core" |> <| r_error_code := hk_status_code code |>
      <| r_error_message := Some message |>.

(** [hk_hook_validate_commit_effects] *)
Definition hk_hook_validate_commit_effects (h : hook) (sink : hk_artifact_sink)
    (out : hk_hook_result) : bool * hk_hook_result :=
  match h_matched_engine h with
  | None => (true, out)
  | Some v =>
      if sk_observed_effects sink =? 0 then (true, out)
      else if without (sk_observed_effects sink) (c_commit_effects (vt_describe v)) =? 0
      then (true, out)
      else (false, core_error HK_STATUS_INTERNAL_ERROR
                     "engine produced an undeclared commit effect" out)
  end.

(** What a commit callback does with its sink. *)
Definition apply_reply (reply : commit_reply) : M sink_state unit :=
  for_each (cr_artifacts reply) (λ a, hk_artifact_sink_record (Some a) ;;; ret tt) ;;;
  modify (λ s, s <| ss_sink :=
    let k := ss_sink s in
    let k := match cr_published_original reply with
             | Some p => k <| sk_published_original := p |> | None => k end in
    match cr_continuation reply with
    | Some c => k <| sk_continuation := Some c |> | None => k end |>).

(** Run on the process, against the given ledger and sink. *)
Definition with_sink (reply : commit_reply) (ledger : option hk_artifact_ledger)
    (sink : hk_artifact_sink) : M sys (option hk_artifact_ledger * hk_artifact_sink) := λ s,
  let '(_, t) := apply_reply reply (SinkState (s_heap s) (s_ids s) ledger sink) in
  ((ss_ledger t, ss_sink t), s <| s_heap := ss_heap t |> <| s_ids := ss_ids t |>).

(** [hk_hook_dispatch_commit], recording into the running call's ledger. *)
Definition hk_hook_dispatch_commit (h : hook) (sink : hk_artifact_sink)
    : M sys (hk_mutation_state * hk_artifact_sink) :=
  let run (callback : M E commit_reply) : M sys (hk_mutation_state * hk_artifact_sink) :=
    trace (EvCommit (h_address h)) ;;;
    reply <- on_engine callback ;;
    ledger <- gets (λ s, l_ledger (s_locals s)) ;;
    recorded <- with_sink reply ledger sink ;;
    on_locals (λ l, l <| l_ledger := recorded.1 |>) ;;;
    ret (cr_mutation reply, recorded.2) in
  match h_matched_engine h with
  | None => ret (HK_MUTATION_UNKNOWN, sink)
  | Some v =>
      match vt_commit_one_ctx v, vt_commit_one v with
      | Some commit, _ =>
          run (commit (h_matched_engine_ctx h) (h_spec h) (h_prepared_state h) sink)
      | None, Some commit => run (commit (h_spec h) sink)
      | None, None => ret (HK_MUTATION_UNKNOWN, sink)
      end
  end.

(** [hk_hook_dispatch_verify] *)
Definition hk_hook_dispatch_verify (h : hook) : M sys (hk_verify_result * hk_verify_diag) :=
  match h_matched_engine h with
  | None => ret (HK_VERIFY_UNAVAILABLE, no_verify_diag)
  | Some v =>
      match vt_verify_one_ctx v, vt_verify_one v with
      | Some verify, _ =>
          on_engine (verify (h_matched_engine_ctx h) (h_spec h) (h_prepared_state h))
      | None, Some verify => on_engine (verify (h_spec h))
      | None, None => ret (HK_VERIFY_UNAVAILABLE, no_verify_diag)
      end
  end.

Definition ledger_count : M sys Z :=
  gets (λ s, hk_artifact_ledger_count (l_ledger (s_locals s))).

(** [hk_hook_apply_verification] *)
Definition hk_hook_apply_verification (h : hook) (artifact_start : Z)
    (mutation : hk_mutation_state) (out : hk_hook_result)
    (group_operation : option hk_engine_operation)
    : M sys (hk_mutation_state * hk_hook_result) :=
  let out := out <| r_verified := false |> in
  match mutation, h_matched_engine h with
  | HK_MUTATION_COMPLETE, Some v =>
      answer <- (match group_operation with
                 | Some op => ret (op_verify_result op, op_verify_diag op)
                 | None => hk_hook_dispatch_verify h
                 end) ;;
      let '(result, diag) := answer in
      let failed (diag : hk_verify_diag) : M sys (hk_mutation_state * hk_hook_result) :=
        ret (HK_MUTATION_UNKNOWN,
             out <| r_error_code := if negb (vd_error_code diag =? 0) then vd_error_code diag
                                    else hk_status_code HK_STATUS_INTERNAL_ERROR |>
                 <| r_error_domain := Some (default "engine" (c_engine_id (vt_describe v))) |>
                 <| r_error_message :=
                      Some (default "post-commit verification failed" (vd_error_message diag)) |>) in
      match result with
      | HK_VERIFY_UNAVAILABLE => ret (mutation, out)
      | HK_VERIFY_OK =>
          count <- ledger_count ;;
          ledger <- gets (λ s, l_ledger (s_locals s)) ;;
          let '(ok, marked) :=
            hk_artifact_ledger_mark_verified ledger artifact_start (count - artifact_start) in
          on_locals (λ l, l <| l_ledger := marked |>) ;;;
          if ok then ret (mutation, out <| r_verified := true |>)
          else failed (VerifyDiag (hk_status_code HK_STATUS_INTERNAL_ERROR)
                         (Some "could not mark verified artifacts"))
      | HK_VERIFY_FAILED => failed diag
      end
  | _, _ => ret (mutation, out)
  end.

(** ** The ownership ledger of the process *)

Definition ownership_lookup (h : hook) : M sys Ledger.state :=
  gets (λ s, Ledger.hk_ownership_lookup_locked (default [] (h_target_key h)) (s_owners s)).

Definition ownership_record (h : hook) (engine_id : option string) (predecessor : Z)
    : M sys bool := λ s,
  let '(ok, (heap, owners)) :=
    Ledger.hk_ownership_record_locked (default [] (h_target_key h)) engine_id
      (hs_replacement (h_spec h)) predecessor (s_heap s, s_owners s) in
  (ok, s <| s_heap := heap |> <| s_owners := owners |>).

(** Two engine ids are the same: both absent, or equal strings. *)
Definition hk_engine_ids_equal (left right : option string) : bool := bool_decide (left = right).

Definition hk_plan_set_ownership_error (out : hk_hook_result) (outcome : hk_outcome)
    (message : string) : hk_hook_result :=
  core_error HK_STATUS_INVALID_STATE message
    (out <| r_outcome := outcome |> <| r_mutation := HK_MUTATION_NONE |>
         <| r_retryable := false |> <| r_currently_valid := true |>).

(** An owner that this engine may not chain after. *)
Definition ownership_conflict (h : hook) (caps : hk_engine_capabilities)
    (ownership : Ledger.state) : bool :=
  Ledger.os_present ownership &&
  ((Z.land (c_chainable_target_kinds caps)
      (HK_TARGET_KIND_BIT (target_kind (hs_target (h_spec h)))) =? 0) ||
   negb (hk_engine_ids_equal (c_engine_id caps) (Ledger.os_engine_id ownership))).

(** ** The registry of installed hooks *)

Definition installed_create (id : hk_id) (original : Z) (out : hk_hook_result)
    : M sys (option hk_installed_hook) := λ s,
  let '(record, (heap, registry)) :=
    hk_installed_record_create id original (Some out) (s_heap s, s_installed s) in
  (record, s <| s_heap := heap |> <| s_installed := registry |>).

(** An active hook whose engine published an original gets a process-lifetime
    record; without one it does not claim the original. *)
Definition publish_original (h : hook) (original : Z) (out : hk_hook_result)
    : M sys (hook * hk_hook_result) :=
  if original =? 0 then ret (h, out)
  else
    id <- on_ids hk_id_generate ;;
    let out := out <| r_installed_id := id |> <| r_original_available := true |> in
    record <- installed_create id original out ;;
    match record with
    | Some r => ret (h <| h_installed := Some r |>, out)
    | None => ret (h, out <| r_installed_id := zero_id |> <| r_original_available := false |>)
    end.

(** ** The roll-up of a commit attempt *)

(** The demotions between the callback and the verification, as
    [hk_plan_finish_commit_attempt] opens. *)
Definition demote_unrecorded (sink : hk_artifact_sink) (mutation : hk_mutation_state)
    : hk_mutation_state :=
  if sk_record_failed sink && bool_decide (mutation = HK_MUTATION_COMPLETE)
  then HK_MUTATION_UNKNOWN else mutation.

(** The result fields a commit attempt fills in before verification. *)
Definition attempt_result (sink : hk_artifact_sink) (mutation : hk_mutation_state)
    (artifact_count generation : Z) (out : hk_hook_result) : hk_hook_result :=
  let out := out <| r_mutation := mutation |> in
  let out := match sk_continuation sink with
             | Some c => out <| r_continuation := c |> | None => out end in
  let out := out <| r_observed_commit_effects := sk_observed_effects sink |>
                 <| r_artifact_count := artifact_count |> in
  let out := if 0 <? artifact_count
             then out <| r_matched_locations := u32 artifact_count |>
                      <| r_modified_locations :=
                           if bool_decide (mutation = HK_MUTATION_NONE) then 0
                           else u32 artifact_count |>
             else out in
  out <| r_installed_generation := generation |>.

Definition outcome_of (mutation : hk_mutation_state) : hk_outcome :=
  match mutation with
  | HK_MUTATION_COMPLETE => HK_OUTCOME_ACTIVE
  | HK_MUTATION_NONE => HK_OUTCOME_FAILED_SAFE
  | HK_MUTATION_PARTIAL => HK_OUTCOME_FAILED_PARTIAL
  | HK_MUTATION_UNKNOWN => HK_OUTCOME_FAILED_UNKNOWN
  end.

Definition count_failed : M sys unit := on_locals (λ l, l <| l_failed := l_failed l + 1 |>).
Definition count_active : M sys unit := on_locals (λ l, l <| l_active := l_active l + 1 |>).
Definition count_attempted : M sys unit :=
  on_locals (λ l, l <| l_attempted := l_attempted l + 1 |>).
Definition count_prepared : M sys unit := on_locals (λ l, l <| l_prepared := l_prepared l + 1 |>).

(** [hk_plan_finish_commit_attempt]: the hook with its result; [owner] is the
    engine id when the attempt records ownership (the one-hook path). *)
Definition hk_plan_finish_commit_attempt (h : hook) (out : hk_hook_result)
    (artifact_start : Z) (mutation : hk_mutation_state) (sink : hk_artifact_sink)
    (group_operation : option hk_engine_operation) (owner : option (option string))
    (compensated : bool) : M sys hook :=
  let mutation := demote_unrecorded sink mutation in
  let '(effects_ok, out) := hk_hook_validate_commit_effects h sink out in
  let mutation := if effects_ok then mutation else HK_MUTATION_UNKNOWN in
  count <- ledger_count ;;
  generation <- catalog_generation ;;
  let out := attempt_result sink mutation (count - artifact_start) generation out in
  verified <- hk_hook_apply_verification h artifact_start mutation out group_operation ;;
  let '(mutation, out) := verified in
  let out := out <| r_mutation := mutation |> in
  owned <- (match owner, mutation with
            | Some engine_id, HK_MUTATION_COMPLETE =>
                ownership_record h engine_id (sk_published_original sink)
            | _, _ => ret true
            end) ;;
  let mutation := if owned then mutation else HK_MUTATION_UNKNOWN in
  let out := if owned then out
             else core_error HK_STATUS_OUT_OF_MEMORY "could not record target ownership"
                    (out <| r_mutation := HK_MUTATION_UNKNOWN |>) in
  if compensated then
    count_failed ;;;
    ret (h <| h_result := out <| r_outcome := HK_OUTCOME_COMPENSATED |> |>)
  else
    let out := out <| r_outcome := outcome_of mutation |> in
    match mutation with
    | HK_MUTATION_COMPLETE =>
        count_active ;;;
        published <- publish_original h (sk_published_original sink) out ;;
        ret (published.1 <| h_result := published.2 |>)
    | _ => count_failed ;;; ret (h <| h_result := out |>)
    end.

End Dispatch.
