(* ===== verification/Analyze.v ===== *)
(** * Analysis (src/core/HKPlan.c: hk_hook_analyze_one, hk_plan_analyze)

    The route search: which registered engine, if any, a hook is given to. *)

From stdpp Require Import base list strings gmap numbers.
From S2P Require Import Prelude Types ImageCatalog Artifacts Engine Plan Dispatch.

(** [__builtin_popcountll] *)
Fixpoint popcount (n : nat) (value : Z) : Z :=
  match n with
  | O => 0
  | S n => value mod 2 + popcount n (value / 2)
  end.
Definition hk_bit_count64 (value : Z) : Z := popcount 64 value.

Section Analyze.
Context {E : Type}.
Local Abbreviation hook := (hk_hook E).
Local Abbreviation runtime := (hk_runtime E).
Local Abbreviation sys := (sys E).

(** [hk_engine_effective_reach] *)
Definition hk_engine_effective_reach (rt : runtime) (h : hook) (caps : hk_engine_capabilities)
    : Z :=
  let reach := c_achievable_reach caps in
  if Z.land reach HK_REACH_EXACT_IMAGE_SCOPE =? 0 then reach
  else
    let kind := target_kind (hs_target (h_spec h)) in
    let supported := negb (Z.land (c_exact_image_scope_targets caps) (HK_TARGET_KIND_BIT kind) =? 0) in
    let supported :=
      if bool_decide (rt_catalog rt = None) || (hk_image_catalog_count (rt_catalog rt) =? 0)
      then false else supported in
    let supported :=
      match hs_target (h_spec h) with
      | TMemory t => if me_address_is_image_relative t then supported else false
      | _ => supported
      end in
    let supported :=
      match kind with
      | HK_TARGET_FUNCTION_ADDRESS | HK_TARGET_MEMORY_PATCH => supported
      | HK_TARGET_FUNCTION_SYMBOL =>
          if Z.land (c_exact_image_scope_targets caps)
               (HK_TARGET_KIND_BIT HK_TARGET_FUNCTION_SYMBOL) =? 0 then false else supported
      | _ => false
      end in
    if supported then reach else without reach HK_REACH_EXACT_IMAGE_SCOPE.

(** [hk_engine_honors_symbol_defining_scope] *)
Definition hk_engine_honors_symbol_defining_scope (h : hook) (caps : hk_engine_capabilities)
    : bool :=
  match hs_target (h_spec h) with
  | TSymbol t =>
      match sel_kind (sy_defining_image t) with
      | HK_IMAGE_ANY_LOADED => true
      | _ => negb (Z.land (c_exact_image_scope_targets caps)
                     (HK_TARGET_KIND_BIT HK_TARGET_FUNCTION_SYMBOL) =? 0)
      end
  | _ => true
  end.

(** Whether the engine's discovery, if it has one, answers available. *)
Definition discovered (slot : engine_slot E) (e : E) : bool :=
  let v := es_vtable slot in
  match vt_discover v with
  | Some discover =>
      if hk_engine_vtable_has_field (Some v) OFFSET_discover SIZEOF_POINTER then
        let '(ok, available) := discover (es_ctx slot) e in ok && available
      else true
  | None => true
  end.

(** The engine's own analysis of the request, if it has one: the effective
    reach narrowed by it and its rank, [None] where the candidate is skipped. *)
Definition refined (slot : engine_slot E) (h : hook) (e : E) (reach : Z) : option (Z * Z) :=
  let v := es_vtable slot in
  let caps := vt_describe v in
  match vt_analyze_operation v with
  | Some analyze =>
      if hk_engine_vtable_has_field (Some v) OFFSET_analyze_operation SIZEOF_POINTER then
        let '(ok, a) := analyze (es_ctx slot) (h_spec h) e in
        if negb ok || negb (ea_eligible a) then None
        else if negb (without (ea_required_prepare_effects a) (c_prepare_effects caps) =? 0) ||
                negb (without (ea_required_commit_effects a) (c_commit_effects caps) =? 0) then None
        else
          Some (if ea_achieved_reach a =? 0 then reach else Z.land reach (ea_achieved_reach a),
                ea_route_rank a)
      else Some (reach, 0)
  | None => Some (reach, 0)
  end.

(** The last test of a candidate. *)
Definition acceptable (rt : runtime) (slot : engine_slot E) (h : hook) (reach : Z) : bool :=
  let caps := vt_describe (es_vtable slot) in
  let spec := h_spec h in
  hk_engine_eligible_minimal_full caps (target_kind (hs_target spec)) (hs_required_reach spec)
    (hs_original_requirement spec)
    (hk_effective_constraints (hs_constraints spec) (hs_continuation_policy spec)) &&
  (without (hs_required_reach spec) reach =? 0) &&
  hk_engine_honors_symbol_defining_scope h caps &&
  hk_engine_supports_install_context (Some caps) (rt_install_context rt) &&
  hk_engine_supports_platform (Some caps) (rt_platform_architecture rt)
    (rt_platform_ios_version rt) (es_testing slot).

(** One pass of the loop body up to the comparison: the candidate's preferred
    reach count, rank and effective reach, or [None] for [continue]. *)
Record route : Type := Route {
  ro_slot : engine_slot E;
  ro_preferred : Z;
  ro_rank : Z;
  ro_reach : Z }.

Definition candidate (rt : runtime) (h : hook) (e : E) (slot : engine_slot E) : option route :=
  let reach := hk_engine_effective_reach rt h (vt_describe (es_vtable slot)) in
  if negb (discovered slot e) then None
  else
    match refined slot h e reach with
    | None => None
    | Some (reach, rank) =>
        if acceptable rt slot h reach then
          Some (Route slot (hk_bit_count64 (Z.land reach (hs_preferred_reach (h_spec h)))) rank reach)
        else None
    end.

(** The comparison: a later candidate replaces the best only when better. *)
Definition better (r best : route) : bool :=
  (ro_preferred best <? ro_preferred r) ||
  ((ro_preferred r =? ro_preferred best) && (ro_rank best <? ro_rank r)).

Fixpoint best_route (rt : runtime) (h : hook) (e : E) (slots : list (engine_slot E))
    (best : option route) : option route :=
  match slots with
  | [] => best
  | slot :: rest =>
      best_route rt h e rest
        match candidate rt h e slot, best with
        | None, _ => best
        | Some r, None => Some r
        | Some r, Some b => if better r b then Some r else best
        end
  end.

(** The defaults every result starts from. *)
Definition analysis_defaults (plan_id owner_id : hk_id) (generation : Z) (h : hook)
    : hk_hook_result :=
  zero_result <| r_request_id := h_hook_id h |> <| r_plan_id := plan_id |>
    <| r_runtime_owner_id := owner_id |> <| r_continuation := empty_continuation |>
    <| r_currently_valid := true |> <| r_image_generation := generation |>.

(** [hk_hook_analyze_one]: the hook with its match and its result. *)
Definition hk_hook_analyze_one (plan_id : hk_id) (rt : runtime) (e : E) (h : hook) : hook :=
  let out := analysis_defaults plan_id (rt_owner_id rt)
               (hk_image_catalog_generation (rt_catalog rt)) h in
  match best_route rt h e (rt_engines rt) None with
  | Some r =>
      let caps := vt_describe (es_vtable (ro_slot r)) in
      let out :=
        out <| r_outcome := HK_OUTCOME_ANALYZED |> <| r_achieved_reach := ro_reach r |>
            <| r_unmet_preferred_reach := without (hs_preferred_reach (h_spec h)) (ro_reach r) |>
            <| r_retryable := false |> <| r_diagnostic_engine_id := c_engine_id caps |>
            <| r_declared_prepare_effects := c_prepare_effects caps |>
            <| r_declared_commit_effects := c_commit_effects caps |> in
      h <| h_matched_engine := Some (es_vtable (ro_slot r)) |>
        <| h_matched_engine_ctx := es_ctx (ro_slot r) |> <| h_result := out |>
  | None =>
      let out :=
        out <| r_outcome := HK_OUTCOME_NO_ROUTE |> <| r_achieved_reach := 0 |>
            <| r_unmet_preferred_reach := hs_preferred_reach (h_spec h) |>
            <| r_retryable := true |> <| r_diagnostic_engine_id := None |> in
      h <| h_matched_engine := None |> <| h_matched_engine_ctx := 0 |> <| h_result := out |>
  end.

(** The report built from results, on the process. *)
Definition report_create (results : list hk_hook_result) : M sys (option hk_report) := λ s,
  let '(r, (h, i)) := hk_report_create results (s_heap s, s_ids s) in
  (r, s <| s_heap := h |> <| s_ids := i |>).

(** [hk_plan_analyze]; the report is what [*out_report] would get. *)
Definition hk_plan_analyze (plan : bool) : M sys (hk_status * option hk_report) :=
  p <- gets s_plan ;;
  if negb plan then ret (HK_STATUS_INVALID_ARGUMENT, None)
  else if negb (bool_decide (pl_state p = HK_PLAN_DRAFT)) then ret (HK_STATUS_INVALID_STATE, None)
  else
    buffer <- on_heap (match pl_hooks p with [] => ret true | _ => alloc end) ;;
    if negb buffer then ret (HK_STATUS_OUT_OF_MEMORY, None)
    else
      rt <- gets s_runtime ;;
      e <- gets s_engine ;;
      let hooks := hk_hook_analyze_one (pl_plan_id p) rt e <$> pl_hooks p in
      on_plan (λ p, p <| pl_hooks := hooks |>) ;;;
      report <- report_create (h_result <$> hooks) ;;
      match report with
      | None => ret (HK_STATUS_OUT_OF_MEMORY, None)
      | Some r =>
          on_plan (λ p, p <| pl_state := HK_PLAN_ANALYZED |>) ;;;
          ret (HK_STATUS_OK, Some r)
      end.

(** ** The search finds the best route *)

(** [r] comes from the slot at [i]. *)
Definition routes (rt : runtime) (h : hook) (e : E) : list (option route) :=
  candidate rt h e <$> rt_engines rt.

(** What the search promises: the candidate at index [i] is chosen when it is
    at least as good as every candidate and better than every earlier one. *)
Definition is_best (cands : list (option route)) (i : nat) (r : route) : Prop :=
  cands !! i = Some (Some r) ∧
  ∀ j r', cands !! j = Some (Some r') →
    better r' r = false ∧ ((j < i)%nat → better r r' = true).

Lemma better_irrefl a : better a a = false.
Proof. unfold better. lia. Qed.
Definition best_of (cands : list (option route)) (best : option route) : option route :=
  fold_left (λ best c, match c, best with
                       | None, _ => best
                       | Some r, None => Some r
                       | Some r, Some b => if better r b then Some r else best
                       end) cands best.

Lemma best_route_fold rt h e slots best :
  best_route rt h e slots best = best_of (candidate rt h e <$> slots) best.
Proof. revert best. induction slots as [|s rest IH]; intros best; cbn; [done|]. apply IH. Qed.

Lemma best_of_snoc cands c best :
  best_of (cands ++ [c]) best =
  match c, best_of cands best with
  | None, b => b
  | Some r, None => Some r
  | Some r, Some b => if better r b then Some r else Some b
  end.
Proof.
  unfold best_of. rewrite fold_left_app. cbn.
  destruct c; [|done]. by destruct (fold_left _ _ _).
Qed.

Lemma best_of_spec cands :
  match best_of cands None with
  | Some r => ∃ i, is_best cands i r
  | None => ∀ j r, cands !! j ≠ Some (Some r)
  end.
Proof.
  induction cands as [|c cands IH] using rev_ind; [done|].
  rewrite best_of_snoc. assert (Hlast : (cands ++ [c]) !! length cands = Some c) by by apply list_lookup_middle.
  assert (Hold : ∀ j x, (cands ++ [c]) !! j = Some x → cands !! j = Some x ∨ (j = length cands ∧ x = c)).
  { intros j x Hj. apply lookup_app_Some in Hj as [Hj|[Hlen Hj]]; [by left|right].
    apply list_lookup_singleton_Some in Hj as [Hz ->]. split; [lia|done]. }
  destruct (best_of cands None) as [b|].
  - destruct IH as (i & Hi & Hb). pose proof (lookup_lt_Some _ _ _ Hi) as Hlt.
    destruct c as [r|]; [destruct (better r b) eqn:Eb|].
    + exists (length cands). split; [done|]. intros j r' Hj.
      apply Hold in Hj as [Hj|[-> [= ->]]]; [|split; [apply better_irrefl|lia]].
      destruct (Hb j r' Hj) as [H1 _]. assert (better r r' = true) by (unfold better in *; lia).
      split; [unfold better in *; lia|done].
    + exists i. split; [by rewrite lookup_app_l|]. intros j r' Hj.
      apply Hold in Hj as [Hj|[-> [= ->]]]; [by apply Hb|]. split; [done|lia].
    + exists i. split; [by rewrite lookup_app_l|]. intros j r' Hj.
      apply Hold in Hj as [Hj|[-> ?]]; [by apply Hb|done].
  - destruct c as [r|].
    + exists (length cands). split; [done|]. intros j r' Hj.
      apply Hold in Hj as [Hj|[-> [= ->]]]; [by apply IH in Hj|]. split; [apply better_irrefl|lia].
    + intros j r' Hj. apply Hold in Hj as [Hj|[-> ?]]; [by apply IH in Hj|done].
Qed.


End Analyze.
