(* ===== verification/Prepare.v ===== *)
(** * Preparation (src/core/HKPlan.c: hk_plan_prepare and its helpers)

    Every hook with a route is prepared, one at a time or in a grouped wave;
    a domain that requires all its mandatory members is refused as a whole. *)

From stdpp Require Import base list strings gmap numbers.
From S2P Require Import Prelude Types Ownership ImageCatalog Artifacts Engine Plan Dispatch.
From S2P Require Import Analyze.

Section Prepare.
Context {E : Type}.
Local Abbreviation hook := (hk_hook E).
Local Abbreviation sys := (sys E).

(** ** Hooks and results by index *)

Definition get_hook (i : nat) : M sys (option hook) := gets (λ s, pl_hooks (s_plan s) !! i).

Definition put_hook (i : nat) (h : hook) : M sys unit :=
  on_plan (λ p, p <| pl_hooks := <[i := h]> (pl_hooks p) |>).

Definition put_result (i : nat) (r : hk_hook_result) : M sys unit :=
  on_locals (λ l, l <| l_results := <[i := r]> (l_results l) |>).

(** [hook->result = *out] for the hook and its slot in the results. *)
Definition settle (i : nat) (h : hook) : M sys unit := put_hook i h ;;; put_result i (h_result h).

Definition no_domain (h : hook) : bool := hs_domain (h_spec h) =? 0.

Definition find_domain (p : hk_plan E) (address : Z) : option hk_domain :=
  snd <$> list_find (λ d, d_address d = address) (pl_domains p).

(** [hk_plan_domain_index], [None] for [SIZE_MAX]. *)
Definition hk_plan_domain_index (p : hk_plan E) (address : Z) : option nat :=
  if address =? 0 then None
  else fst <$> list_find (λ d, d_address d = address) (pl_domains p).

(** ** Domain gates *)

Definition hk_domain_mandatory_gate_satisfied (p : hk_plan E) (d : hk_domain) : bool :=
  if negb (ds_require_all_mandatory_prepared (d_spec d)) then true
  else
    forallb (λ h : hook,
      negb ((hs_domain (h_spec h) =? d_address d) &&
            bool_decide (hs_role (h_spec h) = HK_OPERATION_MANDATORY) &&
            negb (bool_decide (r_outcome (h_result h) = HK_OUTCOME_ANALYZED)))) (pl_hooks p).

(** What a released member of a failed domain reports. *)
Definition domain_refusal (out : hk_hook_result) : hk_hook_result :=
  core_error HK_STATUS_INVALID_STATE "mandatory domain preparation failed"
    (out <| r_outcome := HK_OUTCOME_FAILED_SAFE |> <| r_mutation := HK_MUTATION_NONE |>
         <| r_retryable := false |> <| r_currently_valid := false |>).

(** [hk_release_prepared_domain_members]: how many were released. *)
Fixpoint release_members (domain : Z) (idx : list nat) : M sys Z :=
  match idx with
  | [] => ret 0
  | i :: rest =>
      found <- get_hook i ;;
      match found with
      | Some h =>
          if negb (hs_domain (h_spec h) =? domain) ||
             negb (bool_decide (r_outcome (h_result h) = HK_OUTCOME_PREPARED))
          then release_members domain rest
          else
            h <- hk_hook_release_prepared h ;;
            settle i (h <| h_result := domain_refusal (h_result h) |>) ;;;
            released <- release_members domain rest ;;
            ret (1 + released)
      | None => release_members domain rest
      end
  end.

Definition hook_indices : M sys (list nat) :=
  gets (λ s, seq 0 (length (pl_hooks (s_plan s)))).

Definition hk_release_prepared_domain_members (domain : Z) : M sys Z :=
  idx <- hook_indices ;; release_members domain idx.

(** The failure of a mandatory member whose domain's gate had held: the domain
    has failed, and the members already prepared are released. *)
Definition fail_domain (h : hook) : M sys unit :=
  p <- gets s_plan ;;
  l <- gets s_locals ;;
  match hk_plan_domain_index p (hs_domain (h_spec h)), find_domain p (hs_domain (h_spec h)) with
  | Some d, Some domain =>
      if default false (l_gate_ok l !! d) &&
         ds_require_all_mandatory_prepared (d_spec domain) &&
         bool_decide (hs_role (h_spec h) = HK_OPERATION_MANDATORY)
      then
        on_locals (λ l, l <| l_prepare_failed := <[d := true]> (l_prepare_failed l) |>) ;;;
        released <- hk_release_prepared_domain_members (hs_domain (h_spec h)) ;;
        on_locals (λ l, l <| l_prepared := u64 (l_prepared l - released) |>
                          <| l_failed := l_failed l + released |>)
      else ret tt
  | _, _ => ret tt
  end.

(** ** One attempt's roll-up *)

(** The availability that decides what an absent target means. *)
Definition hook_availability (h : hook) : hk_availability :=
  match hs_target (h_spec h) with
  | TObjc t => oc_availability t
  | _ => hs_availability (h_spec h)
  end.

(** The diagnostic an attempt carries into its result. *)
Definition carry_prepare_diag (h : hook) (diag : hk_prepare_diag) (out : hk_hook_result)
    : hk_hook_result :=
  let out := out <| r_observed_prepare_effects := pd_observed_effects diag |> in
  if negb (bool_decide (pd_error_message diag = None)) || negb (pd_error_code diag =? 0) then
    let out := out <| r_error_code := pd_error_code diag |> in
    let out := match pd_error_message diag with
               | Some m => out <| r_error_message := Some m |> | None => out end in
    match h_matched_engine h with
    | Some v => match c_engine_id (vt_describe v) with
                | Some id => out <| r_error_domain := Some id |> | None => out end
    | None => out
    end
  else out.

(** The outcome of a preparation, on a result that carries the diagnostic. *)
Definition prepare_outcome (h : hook) (result : hk_prepare_result) (out : hk_hook_result)
    : hk_hook_result :=
  match result with
  | HK_PREPARE_OK =>
      let out := out <| r_outcome := HK_OUTCOME_PREPARED |> in
      match h_prepared_continuation h with
      | Some c => out <| r_continuation := c |> | None => out end
  | HK_PREPARE_NOT_APPLICABLE =>
      let out := out <| r_retryable := true |> <| r_currently_valid := false |> in
      if decide (hook_availability h = HK_AVAILABILITY_DEFER_UNTIL_AVAILABLE)
      then out <| r_outcome := HK_OUTCOME_PENDING |>
      else out <| r_outcome := HK_OUTCOME_NO_ROUTE |>
  | HK_PREPARE_FAILED => out <| r_outcome := HK_OUTCOME_FAILED_SAFE |>
  end.

(** [hk_plan_record_prepare_attempt].  [out] is the result slot as the caller
    seeded it; [gated] is whether domain gates are consulted (the grouped path
    passes none). *)
Definition hk_plan_record_prepare_attempt (i : nat) (h : hook) (result : hk_prepare_result)
    (diag : hk_prepare_diag) (out : hk_hook_result) (gated : bool) : M sys unit :=
  checked <- hk_hook_validate_prepare_effects h result diag ;;
  let '(h, result, diag) := checked in
  h <- (if bool_decide (result = HK_PREPARE_OK) then ret h else hk_hook_release_prepared h) ;;
  let out := prepare_outcome h result (carry_prepare_diag h diag out) in
  match result with
  | HK_PREPARE_OK => count_prepared
  | HK_PREPARE_FAILED => count_failed
  | HK_PREPARE_NOT_APPLICABLE => ret tt
  end ;;;
  let h := h <| h_result := out |> in
  settle i h ;;;
  when (gated && bool_decide (result = HK_PREPARE_FAILED)) (fail_domain h).

(** ** Grouped preparation *)

Definition same_engine (a b : hook) : bool :=
  match h_matched_engine a, h_matched_engine b with
  | Some v, Some w => (vt_address v =? vt_address w) && (h_matched_engine_ctx a =? h_matched_engine_ctx b)
  | _, _ => false
  end.

(** How many of the following hooks join the wave. *)
Fixpoint wave_length (first : hook) (generation : Z) (rest : list hook) : nat :=
  match rest with
  | [] => 0
  | h :: rest =>
      if negb (bool_decide (r_outcome (h_result h) = HK_OUTCOME_ANALYZED)) ||
         negb (no_domain h) || negb (same_engine first h) ||
         negb (r_image_generation (h_result h) =? generation)
      then 0
      else S (wave_length first generation rest)
  end.

Definition hk_plan_prepare_group_count (p : hk_plan E) (generation : Z) (start : nat) : nat :=
  match drop start (pl_hooks p) with
  | [] => 0
  | first :: rest =>
      if negb (bool_decide (r_outcome (h_result first) = HK_OUTCOME_ANALYZED)) ||
         negb (no_domain first) then 0
      else
        match h_matched_engine first with
        | Some v =>
            if bool_decide (is_Some (vt_prepare_group_ctx v)) && c_native_grouping (vt_describe v) then
              let count := S (wave_length first generation rest) in
              if (1 <? count)%nat then count else 0
            else 0
        | None => 0
        end
  end.

Definition fresh_prepare_operation : hk_engine_operation :=
  EngineOperation 0 HK_PREPARE_FAILED no_prepare_diag HK_MUTATION_NONE
    HK_VERIFY_UNAVAILABLE no_verify_diag false false.

(** The first loop: seed the results, release what an earlier attempt left. *)
Fixpoint open_prepare_group (idx : list nat) : M sys (list (hk_hook_spec * hk_engine_operation)) :=
  match idx with
  | [] => ret []
  | i :: rest =>
      found <- get_hook i ;;
      match found with
      | Some h =>
          put_result i (h_result h) ;;;
          count_attempted ;;;
          h <- hk_hook_release_prepared h ;;
          put_hook i h ;;;
          more <- open_prepare_group rest ;;
          ret ((h_spec h, fresh_prepare_operation) :: more)
      | None => open_prepare_group rest
      end
  end.

(** The second loop: one operation of the answered group. *)
Definition close_prepare_operation (accepted : bool) (i : nat) (op : hk_engine_operation)
    : M sys unit :=
  found <- get_hook i ;;
  l <- gets s_locals ;;
  match found with
  | Some h =>
      let result := if accepted then op_prepare_result op else HK_PREPARE_FAILED in
      let prepared := if accepted then op_prepared op else 0 in
      let out := default (h_result h) (l_results l !! i) in
      when (negb (prepared =? 0))
        (trace (EvPrepared (engine_address h) (h_matched_engine_ctx h) prepared)) ;;;
      let h := h <| h_prepared_state := prepared |> in
      inspected <- (if bool_decide (result = HK_PREPARE_OK)
                    then hk_hook_inspect_prepared_continuation h (op_prepare_diag op)
                    else ret (h, result, op_prepare_diag op)) ;;
      let '(h, result, diag) := inspected in
      hk_plan_record_prepare_attempt i h result diag out false
  | None => ret tt
  end.

Definition hk_plan_prepare_group (start count : nat) : M sys hk_status :=
  operations <- on_heap alloc ;;
  if negb operations then ret HK_STATUS_OUT_OF_MEMORY
  else
    first <- get_hook start ;;
    match first ≫= h_matched_engine, (v ← first ≫= h_matched_engine; vt_prepare_group_ctx v) with
    | Some v, Some prepare_group =>
        let idx := seq start count in
        ops <- open_prepare_group idx ;;
        reply <- on_engine (prepare_group (default 0 (h_matched_engine_ctx <$> first)) ops) ;;
        for_each (seq 0 count) (λ offset,
          close_prepare_operation reply.1 (start + offset) (reply.2 offset)) ;;;
        ret HK_STATUS_OK
    | _, _ => ret HK_STATUS_OK
    end.

(** ** The lifecycle call *)

(** The body of the loop for a hook that is not part of a wave. *)
Definition prepare_one (i : nat) (h : hook) : M sys unit :=
  generation <- catalog_generation ;;
  if negb (r_image_generation (h_result h) =? generation) then
    let out := h_result h <| r_outcome := HK_OUTCOME_STALE_PLAN |> <| r_retryable := true |>
                          <| r_currently_valid := false |> in
    count_failed ;;;
    let h := h <| h_result := out |> in
    settle i h ;;;
    fail_domain h
  else
    count_attempted ;;;
    p <- gets s_plan ;;
    l <- gets s_locals ;;
    let gate_blocked :=
      match hk_plan_domain_index p (hs_domain (h_spec h)) with
      | Some d => negb (default false (l_gate_ok l !! d)) || default false (l_prepare_failed l !! d)
      | None => false
      end in
    if gate_blocked then
      count_failed ;;;
      settle i (h <| h_result := h_result h <| r_outcome := HK_OUTCOME_FAILED_SAFE |> |>)
    else
      let out := h_result h in
      h <- hk_hook_release_prepared h ;;
      attempt <- hk_hook_dispatch_prepare h ;;
      let '(h, result, diag) := attempt in
      hk_plan_record_prepare_attempt i h result diag out true.

(** The loop; [skip] is what [i += group_count - 1] passes over.  The status is
    that of a grouped preparation that could not be set up. *)
Fixpoint prepare_loop (idx : list nat) (skip : nat) : M sys hk_status :=
  match idx with
  | [] => ret HK_STATUS_OK
  | i :: rest =>
      match skip with
      | S skip => prepare_loop rest skip
      | O =>
          found <- get_hook i ;;
          match found with
          | None => prepare_loop rest 0
          | Some h =>
              put_result i (h_result h) ;;;
              if negb (bool_decide (r_outcome (h_result h) = HK_OUTCOME_ANALYZED))
              then prepare_loop rest 0
              else
                p <- gets s_plan ;;
                generation <- catalog_generation ;;
                let count := hk_plan_prepare_group_count p generation i in
                if (1 <? count)%nat then
                  status <- hk_plan_prepare_group i count ;;
                  match status with
                  | HK_STATUS_OK => prepare_loop rest (count - 1)
                  | _ => ret status
                  end
                else prepare_one i h ;;; prepare_loop rest 0
          end
      end
  end.

(** The state the plan is left in. *)
Definition prepared_plan_state (l : locals) : hk_plan_state :=
  if l_failed l =? 0 then HK_PLAN_PREPARED
  else if (l_prepared l =? 0) && (0 <? l_attempted l) then HK_PLAN_FAILED
  else HK_PLAN_PARTIAL.

Definition hk_plan_prepare (plan : bool) : M sys (hk_status * option hk_report) :=
  p <- gets s_plan ;;
  if negb plan then ret (HK_STATUS_INVALID_ARGUMENT, None)
  else if negb (bool_decide (pl_state p = HK_PLAN_ANALYZED)) then ret (HK_STATUS_INVALID_STATE, None)
  else
    buffer <- on_heap (match pl_hooks p with [] => ret true | _ => alloc end) ;;
    if negb buffer then ret (HK_STATUS_OUT_OF_MEMORY, None)
    else
      gate <- on_heap (match pl_domains p with [] => ret true | _ => alloc end) ;;
      if negb gate then ret (HK_STATUS_OUT_OF_MEMORY, None)
      else
        failed <- on_heap (match pl_domains p with [] => ret true | _ => alloc end) ;;
        if negb failed then ret (HK_STATUS_OUT_OF_MEMORY, None)
        else
          on_locals (λ _, no_locals
            <| l_results := replicate (length (pl_hooks p)) zero_result |>
            <| l_gate_ok := hk_domain_mandatory_gate_satisfied p <$> pl_domains p |>
            <| l_prepare_failed := replicate (length (pl_domains p)) false |>) ;;;
          idx <- hook_indices ;;
          status <- prepare_loop idx 0 ;;
          match status with
          | HK_STATUS_OK =>
              l <- gets s_locals ;;
              report <- report_create (l_results l) ;;
              match report with
              | None => ret (HK_STATUS_OUT_OF_MEMORY, None)
              | Some r =>
                  on_plan (λ p, p <| pl_state := prepared_plan_state l |>) ;;;
                  ret (HK_STATUS_OK, Some r)
              end
          | _ => ret (status, None)
          end.

End Prepare.
