(* ===== verification/Commit.v ===== *)
(** * Commit (src/core/HKPlan.c: hk_plan_commit and its helpers)

    The order prepared hooks are committed in, the gates in front of the engine,
    the one-hook and the grouped attempt. *)

From stdpp Require Import base list strings gmap numbers.
From S2P Require Import Prelude Types Ownership ImageCatalog Artifacts Engine Plan Dispatch.
From S2P Require Import Analyze Prepare.

Section Commit.
Context {E : Type}.
Local Abbreviation hook := (hk_hook E).
Local Abbreviation plan := (hk_plan E).
Local Abbreviation sys := (sys E).

(** ** Commit order *)

Definition is_prepared (h : hook) : bool :=
  bool_decide (r_outcome (h_result h) = HK_OUTCOME_PREPARED).

(** [hk_plan_hook_index], [None] for [hook_count]. *)
Definition hk_plan_hook_index (p : plan) (address : Z) : option nat :=
  fst <$> list_find (λ h : hook, h_address h = address) (pl_hooks p).

Definition hk_commit_dependencies_processed (p : plan) (h : hook) (processed : list bool) : bool :=
  forallb (λ a, match hk_plan_hook_index p a with
                | Some d => default false (processed !! d)
                | None => false
                end) (commit_after (h_spec h)).

Definition hk_hook_domain_order (p : plan) (h : hook) : Z :=
  match find_domain p (hs_domain (h_spec h)) with
  | Some d => if no_domain h then 0 else ds_domain_order (d_spec d)
  | None => 0
  end.

Definition hk_commit_order_before (p : plan) (left : hook) (left_index : nat)
    (right : hook) (right_index : nat) : bool :=
  let left_domain := hk_hook_domain_order p left in
  let right_domain := hk_hook_domain_order p right in
  if negb (left_domain =? right_domain) then left_domain <? right_domain
  else if negb (hs_commit_order (h_spec left) =? hs_commit_order (h_spec right))
  then hs_commit_order (h_spec left) <? hs_commit_order (h_spec right)
  else (left_index <? right_index)%nat.

(** The counting loop: whether one key and no dependency is all there is. *)
Fixpoint simple_order (p : plan) (key : option (Z * Z)) (hooks : list hook) : bool :=
  match hooks with
  | [] => true
  | h :: rest =>
      if is_prepared h then
        let this := (hk_hook_domain_order p h, hs_commit_order (h_spec h)) in
        if negb (commit_after_count (h_spec h) =? 0) then false
        else
          match key with
          | None => simple_order p (Some this) rest
          | Some k => if bool_decide (k = this) then simple_order p key rest else false
          end
      else simple_order p key rest
  end.

(** The prepared hooks in the order they were added. *)
Fixpoint prepared_from (i : nat) (hooks : list hook) : list nat :=
  match hooks with
  | [] => []
  | h :: rest => if is_prepared h then i :: prepared_from (S i) rest else prepared_from (S i) rest
  end.

Definition prepared_indices (p : plan) : list nat := prepared_from 0 (pl_hooks p).

(** One selection of the topological loop. *)
Fixpoint select_next (p : plan) (processed : list bool) (i : nat) (hooks : list hook)
    (best : option (nat * hook)) : option (nat * hook) :=
  match hooks with
  | [] => best
  | h :: rest =>
      select_next p processed (S i) rest
        (if default false (processed !! i) || negb (is_prepared h) ||
            negb (hk_commit_dependencies_processed p h processed) then best
         else match best with
              | None => Some (i, h)
              | Some (b, bh) => if hk_commit_order_before p h i bh b then Some (i, h) else best
              end)
  end.

(** The [step] loop: [None] where no candidate is left to select. *)
Fixpoint select_all (p : plan) (steps : nat) (processed : list bool) : option (list nat) :=
  match steps with
  | O => Some []
  | S steps =>
      match select_next p processed 0 (pl_hooks p) None with
      | None => None
      | Some (best, _) => cons best <$> select_all p steps (<[best := true]> processed)
      end
  end.

(** [hk_build_commit_order]: the order, [None] for [false]. *)
Definition hk_build_commit_order (p : plan) : M heap (option (list nat)) :=
  match pl_hooks p with
  | [] => ret (Some [])
  | _ =>
      order <- alloc ;;
      if negb order then ret None
      else if simple_order p None (pl_hooks p) then ret (Some (prepared_indices p))
      else
        processed <- alloc ;;
        ret (if processed
             then select_all p (length (prepared_indices p))
                    ((λ h, negb (is_prepared h)) <$> pl_hooks p)
             else None)
  end.

(** ** Domain preflight *)

Definition find_hook (p : plan) (address : Z) : option hook :=
  snd <$> list_find (λ h : hook, h_address h = address) (pl_hooks p).

Definition dependency_active (p : plan) (address : Z) : bool :=
  match find_hook p address with
  | Some d => bool_decide (r_outcome (h_result d) = HK_OUTCOME_ACTIVE)
  | None => false
  end.

Definition hk_commit_dependency_ready_for_domain (p : plan) (h : hook) (domain : Z) : bool :=
  forallb (λ a, dependency_active p a ||
                match find_hook p a with
                | Some d => (hs_domain (h_spec d) =? domain) && is_prepared d
                | None => false
                end) (commit_after (h_spec h)).

Definition hk_domain_commit_preflight (p : plan) (generation domain : Z) : bool :=
  forallb (λ h : hook,
    negb (hs_domain (h_spec h) =? domain) ||
    negb (bool_decide (hs_role (h_spec h) = HK_OPERATION_MANDATORY)) ||
    (is_prepared h && (r_image_generation (h_result h) =? generation) &&
     hk_commit_dependency_ready_for_domain p h domain)) (pl_hooks p).

(** What a prepared member of a refused domain reports. *)
Definition preflight_refusal (generation : Z) (out : hk_hook_result) : hk_hook_result :=
  let out := out <| r_mutation := HK_MUTATION_NONE |> in
  if negb (r_image_generation out =? generation) then
    core_error HK_STATUS_INVALID_STATE "mandatory domain member became stale"
      (out <| r_outcome := HK_OUTCOME_STALE_PLAN |> <| r_retryable := true |>
           <| r_currently_valid := false |>)
  else
    core_error HK_STATUS_INVALID_STATE "mandatory domain preflight did not pass"
      (out <| r_outcome := HK_OUTCOME_FAILED_SAFE |> <| r_retryable := false |>
           <| r_currently_valid := true |>).

(** [hk_mark_domain_commit_preflight_failed]: how many were marked. *)
Fixpoint mark_members (generation domain : Z) (idx : list nat) : M sys Z :=
  match idx with
  | [] => ret 0
  | i :: rest =>
      found <- get_hook i ;;
      match found with
      | Some h =>
          if negb (hs_domain (h_spec h) =? domain) || negb (is_prepared h)
          then mark_members generation domain rest
          else
            settle i (h <| h_result := preflight_refusal generation (h_result h) |>) ;;;
            marked <- mark_members generation domain rest ;;
            ret (1 + marked)
      | None => mark_members generation domain rest
      end
  end.

Definition hk_mark_domain_commit_preflight_failed (domain : Z) : M sys Z :=
  generation <- catalog_generation ;;
  idx <- hook_indices ;;
  mark_members generation domain idx.

(** ** Grouped commit *)

Definition hook_owned (owners : list Ledger.record) (h : hook) : bool :=
  Ledger.os_present (Ledger.hk_ownership_lookup_locked (default [] (h_target_key h)) owners).

(** The hooks after the first that join; [wave] is those already in it. *)
Fixpoint commit_wave_length (owners : list Ledger.record) (generation : Z) (first : hook)
    (wave rest : list hook) : nat :=
  match rest with
  | [] => 0
  | h :: rest =>
      if negb (is_prepared h) || negb (no_domain h) ||
         negb (commit_after_count (h_spec h) =? 0) || negb (same_engine first h) ||
         negb (r_image_generation (h_result h) =? generation) ||
         existsb (λ w, hk_hooks_target_equal w h) wave || hook_owned owners h
      then 0
      else S (commit_wave_length owners generation first (wave ++ [h]) rest)
  end.

(** The hooks an order names. *)
Definition ordered_hooks (p : plan) (order : list nat) : list hook :=
  omap (λ i, pl_hooks p !! i) order.

Definition hk_plan_commit_group_count (p : plan) (owners : list Ledger.record)
    (generation : Z) (order : list nat) : nat :=
  match ordered_hooks p order with
  | [] => 0
  | first :: rest =>
      if negb (is_prepared first) || negb (no_domain first) ||
         negb (commit_after_count (h_spec first) =? 0) then 0
      else
        match h_matched_engine first with
        | Some v =>
            if bool_decide (is_Some (vt_commit_group_ctx v)) && c_native_grouping (vt_describe v) &&
               negb (hook_owned owners first) then
              let count := S (commit_wave_length owners generation first [first] rest) in
              if (1 <? count)%nat then count else 0
            else 0
        | None => 0
        end
  end.

(** [operations[offset]], [sinks[offset]], [operation_ledgers[offset]] and
    [artifact_starts[offset]] of the hook at [gc_index]. *)
Record group_cell : Type := GroupCell {
  gc_index : nat;
  gc_spec : hk_hook_spec;
  gc_op : hk_engine_operation;
  gc_sink : hk_artifact_sink;
  gc_ledger : option hk_artifact_ledger;
  gc_start : Z }.

#[local] Instance group_cell_eta : Eta group_cell := λ c,
  GroupCell (gc_index c) (gc_spec c) (gc_op c) (gc_sink c) (gc_ledger c) (gc_start c).

(** A sink for one hook of the running plan. *)
Definition hook_sink (p : plan) (rt : hk_runtime E) (h : hook) (ownership : Ledger.state)
    : hk_artifact_sink :=
  Sink (pl_plan_id p) (rt_owner_id rt) (h_hook_id h) 0 (h_prepared_continuation h)
    (Ledger.os_present ownership) (Ledger.os_head_replacement ownership) false 0.

Definition unowned : Ledger.state := Ledger.State false 0 0 None.

(** The first loop; [None] where an operation's ledger cannot be created. *)
Fixpoint open_commit_group (revalidates : bool) (idx : list nat) : M sys (option (list group_cell)) :=
  match idx with
  | [] => ret (Some [])
  | i :: rest =>
      found <- get_hook i ;;
      match found with
      | Some h =>
          put_result i (h_result h) ;;;
          count_attempted ;;;
          ledger <- on_heap hk_artifact_ledger_create ;;
          match ledger with
          | None => ret None
          | Some l =>
              p <- gets s_plan ;;
              rt <- gets s_runtime ;;
              let op := EngineOperation (h_prepared_state h) HK_PREPARE_OK no_prepare_diag
                          HK_MUTATION_UNKNOWN HK_VERIFY_FAILED no_verify_diag
                          (negb revalidates) false in
              more <- open_commit_group revalidates rest ;;
              ret (cons (GroupCell i (h_spec h) op (hook_sink p rt h unowned) (Some l) 0) <$> more)
          end
      | None => open_commit_group revalidates rest
      end
  end.

Definition set_ops (ops : nat → hk_engine_operation) (cells : list group_cell) : list group_cell :=
  imap (λ i c, c <| gc_op := ops i |>) cells.

Definition map_ops (f : hk_engine_operation → hk_engine_operation) (cells : list group_cell)
    : list group_cell := (λ c, c <| gc_op := f (gc_op c) |>) <$> cells.

Definition group_args (cells : list group_cell) : list (hk_hook_spec * hk_engine_operation) :=
  (λ c, (gc_spec c, gc_op c)) <$> cells.

(** The sinks' side of a grouped commit: each operation's recordings go to its
    own ledger. *)
Fixpoint record_replies (replies : nat → hk_engine_operation * commit_reply) (i : nat)
    (cells : list group_cell) : M sys (list group_cell) :=
  match cells with
  | [] => ret []
  | c :: rest =>
      recorded <- with_sink (replies i).2 (gc_ledger c) (gc_sink c) ;;
      more <- record_replies replies (S i) rest ;;
      ret (c <| gc_op := (replies i).1 |> <| gc_ledger := recorded.1 |>
             <| gc_sink := recorded.2 |> :: more)
  end.

(** A diagnostic for every hook of the group. *)
Definition group_error (code : hk_status) (message : string) (cells : list group_cell)
    : M sys unit :=
  for_each cells (λ c,
    on_locals (λ l, l <| l_results := alter (core_error code message) (gc_index c) (l_results l) |>)).

Definition group_revalidate (v : hk_engine_vtable E) (ctx : Z) (cells : list group_cell)
    : M sys (bool * list group_cell) :=
  match vt_revalidate_group_ctx v with
  | None => ret (true, cells)
  | Some revalidate =>
      reply <- on_engine (revalidate ctx (group_args cells)) ;;
      let cells := set_ops reply.2 cells in
      ret (reply.1 && forallb (λ c, op_revalidated (gc_op c)) cells, cells)
  end.

(** The commit callback and the diagnostics of a refusal before or in it. *)
Definition group_mutate (v : hk_engine_vtable E) (ctx : Z) (revalidation_ok : bool)
    (cells : list group_cell) : M sys (bool * list group_cell) :=
  if negb revalidation_ok then
    group_error HK_STATUS_INVALID_STATE "group revalidation failed" cells ;;;
    ret (false, map_ops (λ o, o <| op_mutation := HK_MUTATION_NONE |>) cells)
  else
    match vt_commit_group_ctx v with
    | None => ret (false, cells)
    | Some commit =>
        for_each cells (λ c,
          found <- get_hook (gc_index c) ;;
          match found with Some h => trace (EvCommit (h_address h)) | None => ret tt end) ;;;
        reply <- on_engine (commit ctx ((λ c, (gc_spec c, gc_op c, gc_sink c)) <$> cells)) ;;
        cells <- record_replies reply.2 0 cells ;;
        if reply.1 : bool then ret (true, cells)
        else
          group_error HK_STATUS_INTERNAL_ERROR "group commit callback failed" cells ;;;
          ret (false, map_ops (λ o, o <| op_mutation := HK_MUTATION_UNKNOWN |>) cells)
    end.

(** Grouped verification: whether it ran. *)
Definition group_verify (v : hk_engine_vtable E) (ctx : Z) (commit_ok : bool)
    (cells : list group_cell) : M sys (bool * list group_cell) :=
  match vt_verify_group_ctx v with
  | Some verify =>
      if commit_ok then
        reply <- on_engine (verify ctx (group_args cells)) ;;
        let cells := set_ops reply.2 cells in
        ret (true, if reply.1 : bool then cells
                   else map_ops (λ o, o <| op_verify_result := HK_VERIFY_FAILED |>
                                        <| op_verify_diag := no_verify_diag |>) cells)
      else ret (false, cells)
  | None => ret (false, cells)
  end.

Definition needs_compensation (revalidation_ok commit_ok grouped_verification : bool)
    (cells : list group_cell) : bool :=
  if commit_ok then
    existsb (λ c,
      let op := gc_op c in
      bool_decide (op_mutation op = HK_MUTATION_PARTIAL) ||
      bool_decide (op_mutation op = HK_MUTATION_UNKNOWN) ||
      (grouped_verification && bool_decide (op_mutation op = HK_MUTATION_COMPLETE) &&
       negb (bool_decide (op_verify_result op = HK_VERIFY_OK)))) cells
  else revalidation_ok.

Definition group_compensate (v : hk_engine_vtable E) (ctx : Z) (needed : bool)
    (cells : list group_cell) : M sys (list group_cell) :=
  match vt_compensate_group_ctx v with
  | Some compensate =>
      if needed && c_supports_compensation (vt_describe v) then
        reply <- on_engine (compensate ctx (group_args cells)) ;;
        let cells := set_ops reply.2 cells in
        ret (if reply.1 : bool then cells
             else map_ops (λ o, o <| op_compensated := false |>) cells)
      else ret cells
  | None => ret cells
  end.

(** The demotions and the ownership record of one operation. *)
Definition group_own (engine_id : option string) (c : group_cell) : M sys group_cell :=
  found <- get_hook (gc_index c) ;;
  l <- gets s_locals ;;
  match found with
  | None => ret c
  | Some h =>
      let out := default (h_result h) (l_results l !! gc_index c) in
      let mutation := demote_unrecorded (gc_sink c) (op_mutation (gc_op c)) in
      let '(mutation, out) :=
        if bool_decide (mutation = HK_MUTATION_COMPLETE) then
          let '(ok, out) := hk_hook_validate_commit_effects h (gc_sink c) out in
          (if ok then mutation else HK_MUTATION_UNKNOWN, out)
        else (mutation, out) in
      owned <- (if bool_decide (mutation = HK_MUTATION_COMPLETE) && negb (op_compensated (gc_op c))
                then ownership_record h engine_id (sk_published_original (gc_sink c))
                else ret true) ;;
      let mutation := if owned then mutation else HK_MUTATION_UNKNOWN in
      let out := if owned then out
                 else core_error HK_STATUS_OUT_OF_MEMORY "could not record target ownership" out in
      put_result (gc_index c) out ;;;
      ret (c <| gc_op := gc_op c <| op_mutation := mutation |> |>)
  end.

Fixpoint map_cells (f : group_cell → M sys group_cell) (cells : list group_cell)
    : M sys (list group_cell) :=
  match cells with
  | [] => ret []
  | c :: rest => c <- f c ;; rest <- map_cells f rest ;; ret (c :: rest)
  end.

(** Moving one operation's artifacts to the plan's ledger. *)
Definition group_collect (c : group_cell) : M sys group_cell :=
  start <- ledger_count ;;
  ledger <- gets (λ s, l_ledger (s_locals s)) ;;
  appended <- on_heap (hk_artifact_ledger_append_ledger ledger (gc_ledger c)) ;;
  on_locals (λ l, l <| l_ledger := appended.2 |>) ;;;
  let sink := if appended.1 : bool then gc_sink c else gc_sink c <| sk_record_failed := true |> in
  let op := if sk_record_failed sink then gc_op c <| op_compensated := false |> else gc_op c in
  ret (c <| gc_start := start |> <| gc_sink := sink |> <| gc_op := op |>).

Definition group_finish (grouped_verification : bool) (c : group_cell) : M sys unit :=
  found <- get_hook (gc_index c) ;;
  l <- gets s_locals ;;
  match found with
  | None => ret tt
  | Some h =>
      let out := default (h_result h) (l_results l !! gc_index c) in
      h <- hk_plan_finish_commit_attempt h out (gc_start c) (op_mutation (gc_op c)) (gc_sink c)
             (if grouped_verification then Some (gc_op c) else None) None
             (op_compensated (gc_op c)) ;;
      settle (gc_index c) h
  end.

Definition group_mark_compensated (c : group_cell) : M sys unit :=
  when (op_compensated (gc_op c) &&
        negb (bool_decide (op_mutation (gc_op c) = HK_MUTATION_NONE)) &&
        negb (sk_record_failed (gc_sink c)))
    (ledger <- gets (λ s, l_ledger (s_locals s)) ;;
     on_locals (λ l, l <| l_ledger :=
       (hk_artifact_ledger_mark_compensated ledger (gc_start c)
          (hk_artifact_ledger_count (gc_ledger c))).2 |>)).

(** [hk_plan_commit_group] on the hooks [idx] of the order. *)
Definition hk_plan_commit_group (idx : list nat) : M sys hk_status :=
  operations <- on_heap alloc ;;
  sinks <- on_heap alloc ;;
  starts <- on_heap alloc ;;
  ledgers <- on_heap alloc ;;
  if negb (operations && sinks && starts && ledgers) then ret HK_STATUS_OUT_OF_MEMORY
  else
    first <- (match idx with i :: _ => get_hook i | [] => ret None end) ;;
    match first ≫= h_matched_engine with
    | None => ret HK_STATUS_OK
    | Some v =>
        let ctx := default 0 (h_matched_engine_ctx <$> first) in
        opened <- open_commit_group (bool_decide (is_Some (vt_revalidate_group_ctx v))) idx ;;
        match opened with
        | None => ret HK_STATUS_OUT_OF_MEMORY
        | Some cells =>
            revalidated <- group_revalidate v ctx cells ;;
            mutated <- group_mutate v ctx revalidated.1 revalidated.2 ;;
            verified <- group_verify v ctx mutated.1 mutated.2 ;;
            cells <- group_compensate v ctx
                       (needs_compensation revalidated.1 mutated.1 verified.1 verified.2)
                       verified.2 ;;
            cells <- map_cells (group_own (c_engine_id (vt_describe v))) cells ;;
            cells <- map_cells group_collect cells ;;
            for_each cells (group_finish verified.1) ;;;
            for_each cells group_mark_compensated ;;;
            ret HK_STATUS_OK
        end
    end.

(** ** One hook *)

(** The engine commits, the core classifies; the ownership lock is held. *)
Definition commit_dispatch (i : nat) (h : hook) (ownership : Ledger.state) : M sys unit :=
  p <- gets s_plan ;;
  rt <- gets s_runtime ;;
  start <- ledger_count ;;
  done <- hk_hook_dispatch_commit h (hook_sink p rt h ownership) ;;
  let '(mutation, sink) := done in
  let out := h_result h in
  let mutation := demote_unrecorded sink mutation in
  let '(mutation, out) :=
    if bool_decide (mutation = HK_MUTATION_COMPLETE) then
      let '(ok, out) := hk_hook_validate_commit_effects h sink out in
      (if ok then mutation else HK_MUTATION_UNKNOWN, out)
    else (mutation, out) in
  let '(mutation, out) :=
    if bool_decide (mutation = HK_MUTATION_COMPLETE) && Ledger.os_present ownership &&
       negb (sk_published_original sink =? Ledger.os_head_replacement ownership)
    then (HK_MUTATION_UNKNOWN,
          core_error HK_STATUS_INVALID_STATE "engine did not publish the owned predecessor" out)
    else (mutation, out) in
  h <- hk_plan_finish_commit_attempt h out start mutation sink None
         (c_engine_id ∘ vt_describe <$> h_matched_engine h) false ;;
  settle i h.

(** The domain of [h] has already been entered by an earlier hook of the order. *)
Definition domain_seen (p : plan) (before : list nat) (h : hook) : bool :=
  existsb (λ b : hook, hs_domain (h_spec b) =? hs_domain (h_spec h)) (ordered_hooks p before).

(** The body of the commit loop for a hook that is not part of a wave. *)
Definition commit_one (before : list nat) (i : nat) (h : hook) : M sys unit :=
  p <- gets s_plan ;;
  generation <- catalog_generation ;;
  if negb (no_domain h) && negb (domain_seen p before h) &&
     negb (hk_domain_commit_preflight p generation (hs_domain (h_spec h))) then
    blocked <- hk_mark_domain_commit_preflight_failed (hs_domain (h_spec h)) ;;
    on_locals (λ l, l <| l_attempted := l_attempted l + blocked |>
                      <| l_failed := l_failed l + blocked |>)
  else if negb (r_image_generation (h_result h) =? generation) then
    count_failed ;;;
    settle i (h <| h_result := h_result h <| r_outcome := HK_OUTCOME_STALE_PLAN |>
                                          <| r_retryable := true |>
                                          <| r_currently_valid := false |> |>)
  else
    count_attempted ;;;
    if negb (forallb (dependency_active p) (commit_after (h_spec h))) then
      count_failed ;;;
      settle i (h <| h_result :=
        core_error HK_STATUS_INVALID_STATE "commit dependency did not become active"
          (h_result h <| r_outcome := HK_OUTCOME_FAILED_SAFE |>
                      <| r_mutation := HK_MUTATION_NONE |> <| r_retryable := false |>
                      <| r_currently_valid := true |>) |>)
    else
      ownership <- ownership_lookup h ;;
      if match h_matched_engine h with
         | Some v => ownership_conflict h (vt_describe v) ownership
         | None => false
         end
      then
        count_failed ;;;
        settle i (h <| h_result :=
          hk_plan_set_ownership_error (h_result h) HK_OUTCOME_CONFLICT
            "existing target ownership is not chainable by this engine" |>)
      else commit_dispatch i h ownership.

(** ** The lifecycle call *)

(** [before] is the part of the order done, latest last. *)
Fixpoint commit_loop (before order : list nat) (skip : nat) : M sys hk_status :=
  match order with
  | [] => ret HK_STATUS_OK
  | i :: rest =>
      match skip with
      | S skip => commit_loop (before ++ [i]) rest skip
      | O =>
          found <- get_hook i ;;
          match found with
          | None => commit_loop (before ++ [i]) rest 0
          | Some h =>
              put_result i (h_result h) ;;;
              if negb (is_prepared h) then commit_loop (before ++ [i]) rest 0
              else
                p <- gets s_plan ;;
                owners <- gets s_owners ;;
                generation <- catalog_generation ;;
                let count := hk_plan_commit_group_count p owners generation (i :: rest) in
                if (1 <? count)%nat then
                  status <- hk_plan_commit_group (take count (i :: rest)) ;;
                  match status with
                  | HK_STATUS_OK => commit_loop (before ++ [i]) rest (count - 1)
                  | _ => ret status
                  end
                else commit_one before i h ;;; commit_loop (before ++ [i]) rest 0
          end
      end
  end.

Definition committed_plan_state (l : locals) : hk_plan_state :=
  if l_failed l =? 0 then HK_PLAN_COMMITTED
  else if (l_active l =? 0) && (0 <? l_attempted l) then HK_PLAN_FAILED
  else HK_PLAN_PARTIAL.

(** [hk_runtime_append_artifacts] and the process-wide append, whose failures
    the callers ignore. *)
Definition publish_artifacts : M sys unit :=
  ledger <- gets (λ s, l_ledger (s_locals s)) ;;
  rt <- gets s_runtime ;;
  appended <- on_heap (hk_artifact_ledger_append_ledger (rt_artifacts rt) ledger) ;;
  on_runtime (λ rt, rt <| rt_artifacts := appended.2 |>) ;;;
  process <- gets s_process ;;
  appended <- on_heap (hk_artifact_process_append_ledger process ledger) ;;
  modify (λ s, s <| s_process := appended.2 |>).

Definition hk_plan_commit (plan : bool) : M sys (hk_status * option hk_report) :=
  p <- gets s_plan ;;
  if negb plan then ret (HK_STATUS_INVALID_ARGUMENT, None)
  else if negb (bool_decide (pl_state p = HK_PLAN_PREPARED)) &&
          negb (bool_decide (pl_state p = HK_PLAN_PARTIAL))
  then ret (HK_STATUS_INVALID_STATE, None)
  else
    buffer <- on_heap (match pl_hooks p with [] => ret true | _ => alloc end) ;;
    if negb buffer then ret (HK_STATUS_OUT_OF_MEMORY, None)
    else
      ledger <- on_heap hk_artifact_ledger_create ;;
      match ledger with
      | None => ret (HK_STATUS_OUT_OF_MEMORY, None)
      | Some _ =>
          order <- on_heap (hk_build_commit_order p) ;;
          match order with
          | None => ret (HK_STATUS_OUT_OF_MEMORY, None)
          | Some order =>
              on_locals (λ _, no_locals <| l_results := h_result <$> pl_hooks p |>
                                        <| l_ledger := ledger |>) ;;;
              status <- commit_loop [] order 0 ;;
              match status with
              | HK_STATUS_OK =>
                  l <- gets s_locals ;;
                  report <- report_create (l_results l) ;;
                  match report with
                  | None => ret (HK_STATUS_OUT_OF_MEMORY, None)
                  | Some r =>
                      publish_artifacts ;;;
                      on_plan (λ p, p <| pl_state := committed_plan_state l |>) ;;;
                      ret (HK_STATUS_OK, hk_report_adopt_artifact_ledger (Some r) (l_ledger l))
                  end
              | _ => ret (status, None)
              end
          end
      end.

End Commit.
