(* ===== verification/Pending.v ===== *)
(** * Deferred hooks (src/core/HKPlan.c: hk_plan_release and the pending queue)

    A plan that is released hands the hooks still waiting for their target to
    the runtime, which retries them on drain through the same dispatch. *)

From stdpp Require Import base list strings gmap numbers.
From S2P Require Import Prelude Types Ownership ImageCatalog Artifacts Engine Plan Dispatch.
From S2P Require Import Analyze Prepare Commit.

Section Pending.
Context {E : Type}.
Local Abbreviation hook := (hk_hook E).
Local Abbreviation sys := (sys E).

(** [hk_hook_free]: what it does besides freeing memory. *)
Definition hk_hook_free (h : hook) : M sys unit := hk_hook_release_prepared h ;;; ret tt.

(** [hk_runtime_adopt_pending_hook] *)
Definition hk_runtime_adopt_pending_hook (runtime : bool) (h : option hook) : M sys bool :=
  rt <- gets s_runtime ;;
  match h with
  | None => ret false
  | Some h =>
      if negb runtime then ret false
      else
        grown <- on_heap (grow_array (Z.of_nat (length (rt_pending rt))) (rt_pending_capacity rt)) ;;
        match grown with
        | None => ret false
        | Some capacity =>
            on_runtime (λ rt, rt <| rt_pending := rt_pending rt ++ [h] |>
                                 <| rt_pending_capacity := capacity |>) ;;;
            ret true
        end
  end.

(** [hk_plan_release] *)
Definition hk_plan_release : M sys unit :=
  p <- gets s_plan ;;
  for_each (pl_hooks p) (λ h : hook,
    adopted <- (if bool_decide (r_outcome (h_result h) = HK_OUTCOME_PENDING)
                then hk_runtime_adopt_pending_hook true (Some h) else ret false) ;;
    if adopted : bool then ret tt else hk_hook_free h) ;;;
  on_plan (λ p, p <| pl_hooks := [] |> <| pl_domains := [] |> <| pl_state := HK_PLAN_DISCARDED |>).

(** [hk_runtime_free_pending_hooks] *)
Definition hk_runtime_free_pending_hooks : M sys unit :=
  rt <- gets s_runtime ;;
  for_each (rt_pending rt) hk_hook_free ;;;
  on_runtime (λ rt, rt <| rt_pending := [] |> <| rt_pending_capacity := 0 |>).

(** The commit half of a retry, on a prepared hook. *)
Definition drain_commit (h : hook) (out : hk_hook_result) (ownership : Ledger.state) : M sys hook :=
  rt <- gets s_runtime ;;
  start <- ledger_count ;;
  let sink := Sink (r_plan_id (h_result h)) (rt_owner_id rt) (h_hook_id h) 0 None
                (Ledger.os_present ownership) (Ledger.os_head_replacement ownership) false 0 in
  done <- hk_hook_dispatch_commit h sink ;;
  let '(mutation, sink) := done in
  let mutation := demote_unrecorded sink mutation in
  let '(mutation, out) :=
    if bool_decide (mutation = HK_MUTATION_COMPLETE) then
      let '(ok, out) := hk_hook_validate_commit_effects h sink out in
      (if ok then mutation else HK_MUTATION_UNKNOWN, out)
    else (mutation, out) in
  let '(mutation, out) :=
    if bool_decide (mutation = HK_MUTATION_COMPLETE) && Ledger.os_present ownership &&
       negb (sk_published_original sink =? Ledger.os_head_replacement ownership)
    then (HK_MUTATION_UNKNOWN,
          core_error HK_STATUS_INVALID_STATE "engine did not publish the owned predecessor" out)
    else (mutation, out) in
  let mutation := demote_unrecorded sink mutation in
  let '(ok, out) := hk_hook_validate_commit_effects h sink out in
  let mutation := if ok then mutation else HK_MUTATION_UNKNOWN in
  count <- ledger_count ;;
  generation <- catalog_generation ;;
  let out := attempt_result sink mutation (count - start) generation out in
  verified <- hk_hook_apply_verification h start mutation out None ;;
  let '(mutation, out) := verified in
  let out := out <| r_mutation := mutation |> in
  owned <- (match mutation with
            | HK_MUTATION_COMPLETE =>
                ownership_record h (h_matched_engine h ≫= λ v, c_engine_id (vt_describe v))
                  (sk_published_original sink)
            | _ => ret true
            end) ;;
  let mutation := if owned then mutation else HK_MUTATION_UNKNOWN in
  let out := if owned then out
             else core_error HK_STATUS_OUT_OF_MEMORY "could not record target ownership"
                    (out <| r_mutation := HK_MUTATION_UNKNOWN |>) in
  let out := out <| r_outcome := outcome_of mutation |> in
  match mutation with
  | HK_MUTATION_COMPLETE =>
      published <- publish_original h (sk_published_original sink) out ;;
      ret (published.1 <| h_result := published.2 |>)
  | _ => ret (h <| h_result := out |>)
  end.

(** The diagnostic a retry carries into its result. *)
Definition carry_drain_diag (diag : hk_prepare_diag) (out : hk_hook_result) : hk_hook_result :=
  let out := out <| r_observed_prepare_effects := pd_observed_effects diag |> in
  if negb (bool_decide (pd_error_message diag = None)) || negb (pd_error_code diag =? 0) then
    let out := out <| r_error_code := pd_error_code diag |> in
    match pd_error_message diag with
    | Some m => out <| r_error_message := Some m |> | None => out end
  else out.

(** One retry: the result it reports, and the hook where it stays queued. *)
Definition drain_one (h : hook) : M sys (hk_hook_result * option hook) :=
  let out := h_result h in
  attempt <- hk_hook_dispatch_prepare h ;;
  let '(h, result, diag) := attempt in
  checked <- hk_hook_validate_prepare_effects h result diag ;;
  let '(h, result, diag) := checked in
  let out := carry_drain_diag diag out in
  match result with
  | HK_PREPARE_NOT_APPLICABLE =>
      let out := out <| r_outcome := HK_OUTCOME_PENDING |> <| r_retryable := true |>
                     <| r_currently_valid := false |> in
      ret (out, Some (h <| h_result := out |>))
  | HK_PREPARE_FAILED =>
      let out := out <| r_outcome := HK_OUTCOME_FAILED_SAFE |> <| r_retryable := false |> in
      hk_hook_free (h <| h_result := out |>) ;;;
      ret (out, None)
  | HK_PREPARE_OK =>
      ownership <- ownership_lookup h ;;
      if match h_matched_engine h with
         | Some v => ownership_conflict h (vt_describe v) ownership
         | None => false
         end
      then
        let out := hk_plan_set_ownership_error out HK_OUTCOME_CONFLICT
                     "existing target ownership is not chainable by this engine" in
        hk_hook_free (h <| h_result := out |>) ;;;
        ret (out, None)
      else
        h <- drain_commit h out ownership ;;
        hk_hook_free h ;;;
        ret (h_result h, None)
  end.

(** The loop: all results in queue order, and the hooks kept. *)
Fixpoint drain_loop (queue : list hook) : M sys (list hk_hook_result * list hook) :=
  match queue with
  | [] => ret ([], [])
  | h :: rest =>
      one <- drain_one h ;;
      more <- drain_loop rest ;;
      ret (one.1 :: more.1, match one.2 with Some h => [h] | None => [] end ++ more.2)
  end.

Definition hk_runtime_drain_pending (runtime : bool) : M sys (hk_status * option hk_report) :=
  rt <- gets s_runtime ;;
  if negb runtime then ret (HK_STATUS_INVALID_ARGUMENT, None)
  else
    match rt_pending rt with
    | [] => ret (HK_STATUS_OK, None)
    | queue =>
        buffer <- on_heap alloc ;;
        if negb buffer then ret (HK_STATUS_OUT_OF_MEMORY, None)
        else
          ledger <- on_heap hk_artifact_ledger_create ;;
          match ledger with
          | None => ret (HK_STATUS_OUT_OF_MEMORY, None)
          | Some _ =>
              on_locals (λ _, no_locals <| l_ledger := ledger |>) ;;;
              drained <- drain_loop queue ;;
              on_runtime (λ rt, rt <| rt_pending := drained.2 |>) ;;;
              l <- gets s_locals ;;
              report <- report_create drained.1 ;;
              match report with
              | None => ret (HK_STATUS_OUT_OF_MEMORY, None)
              | Some r =>
                  publish_artifacts ;;;
                  ret (HK_STATUS_OK, hk_report_adopt_artifact_ledger (Some r) (l_ledger l))
              end
          end
    end.

End Pending.
