(* ===== verification/PrepareSafety.v ===== *)
(** * Analysis and preparation mutate nothing

    What every per-hook and per-plan step before commit preserves, proved once
    for any property of the process that does not look at what those steps may
    change, and its consequences. *)

From stdpp Require Import base list strings gmap numbers.
From S2P Require Import Prelude Types Ownership ImageCatalog Artifacts Engine Plan Dispatch.
From S2P Require Import Analyze Prepare.

(** A property of the process that survives everything analysis and preparation
    are allowed to do. *)
Class PrepareStable {E} (I : sys E → Prop) : Prop := {
  ps_heap s h : I s → I (s <| s_heap := h |>);
  ps_ids s i : I s → I (s <| s_ids := i |>);
  ps_engine s e : I s → I (s <| s_engine := e |>);
  ps_locals s l : I s → I (s <| s_locals := l |>);
  ps_plan s p : I s → I (s <| s_plan := p |>);
  ps_prepared s v c p : I s → I (s <| s_trace := s_trace s ++ [EvPrepared v c p] |>);
  ps_released s v c p : I s → I (s <| s_trace := s_trace s ++ [EvReleased v c p] |>) }.

(** Decompose a computation down to steps a hint knows. *)
Ltac stable :=
  repeat first
    [ progress intros
    | solve [eauto with stable nocore]
    | match goal with
      | |- triple _ (bind _ _) _ => eapply triple_bind; [stable|cbn beta; intros]
      | |- triple _ (ret _) _ => apply triple_ret; intros; assumption
      | |- triple _ (gets _) _ => apply triple_gets; intros; assumption
      | |- triple _ (when ?b _) _ => apply triple_when; intros; try assumption
      | |- triple _ (for_each _ _) _ => apply triple_for_each
      | |- triple _ (let '(_, _) := ?p in _) _ => destruct p
      | |- triple _ (match ?x with _ => _ end) _ => destruct x
      | |- triple _ ((match ?x with _ => _ end) _) _ => destruct x
      end ].

Create HintDb stable.

Section Stable.
Context {E : Type} (I : sys E → Prop) `{!PrepareStable I}.

Lemma stable_heap {A} (m : M heap A) : triple I (on_heap m) (λ _, I).
Proof. apply triple_zoom. intros s H. by apply ps_heap. Qed.
Lemma stable_ids {A} (m : M ids A) : triple I (on_ids m) (λ _, I).
Proof. apply triple_zoom. intros s H. by apply ps_ids. Qed.
Lemma stable_engine {A} (m : M E A) : triple I (on_engine m) (λ _, I).
Proof. apply triple_zoom. intros s H. by apply ps_engine. Qed.
Lemma stable_locals f : triple I (on_locals f) (λ _, I).
Proof. apply triple_modify. intros s H. by apply ps_locals. Qed.
Lemma stable_plan f : triple I (on_plan f) (λ _, I).
Proof. apply triple_modify. intros s H. by apply ps_plan. Qed.
Lemma stable_prepared v c p : triple I (trace (EvPrepared v c p)) (λ _, I).
Proof. apply triple_modify. intros s H. by apply ps_prepared. Qed.
Lemma stable_released v c p : triple I (trace (EvReleased v c p)) (λ _, I).
Proof. apply triple_modify. intros s H. by apply ps_released. Qed.
Lemma stable_gets {A} (f : sys E → A) : triple I (gets f) (λ _, I).
Proof. by apply triple_gets. Qed.
Lemma stable_ret {A} (a : A) : triple I (ret a) (λ _, I).
Proof. by apply triple_ret. Qed.
Lemma stable_report r : triple I (report_create r) (λ _, I).
Proof.
  intros s H. unfold report_create. destruct (hk_report_create _ _) as [? [h i]]. 
  exact (ps_ids (s <| s_heap := h |>) i (ps_heap s h H)).
Qed.
#[local] Hint Resolve stable_heap stable_ids stable_engine stable_locals stable_plan
  stable_prepared stable_released stable_gets stable_ret stable_report : stable.

Lemma stable_release h : triple I (hk_hook_release_prepared h) (λ _, I).
Proof. unfold hk_hook_release_prepared. stable. Qed.
#[local] Hint Resolve stable_release : stable.

Lemma stable_inspect h d : triple I (hk_hook_inspect_prepared_continuation h d) (λ _, I).
Proof. unfold hk_hook_inspect_prepared_continuation. stable. Qed.
#[local] Hint Resolve stable_inspect : stable.

Lemma stable_retain h ok p : triple I (retain_prepared h ok p) (λ _, I).
Proof. unfold retain_prepared. stable. Qed.
#[local] Hint Resolve stable_retain : stable.

Lemma stable_dispatch h : triple I (hk_hook_dispatch_prepare h) (λ _, I).
Proof. unfold hk_hook_dispatch_prepare. cbv zeta. stable. Qed.

Lemma stable_validate h r d : triple I (hk_hook_validate_prepare_effects h r d) (λ _, I).
Proof. unfold hk_hook_validate_prepare_effects. stable. Qed.
#[local] Hint Resolve stable_dispatch stable_validate : stable.

Lemma stable_settle i h : triple I (settle i h) (λ _, I).
Proof. unfold settle, put_hook, put_result. stable. Qed.
#[local] Hint Resolve stable_settle : stable.

Lemma stable_release_members d idx : triple I (release_members d idx) (λ _, I).
Proof. induction idx as [|i idx IH]; cbn [release_members]; unfold get_hook; stable. Qed.
#[local] Hint Resolve stable_release_members : stable.

Lemma stable_fail_domain h : triple I (fail_domain h) (λ _, I).
Proof. unfold fail_domain, hk_release_prepared_domain_members, hook_indices. stable. Qed.
#[local] Hint Resolve stable_fail_domain : stable.

Lemma stable_record i h r d out g :
  triple I (hk_plan_record_prepare_attempt i h r d out g) (λ _, I).
Proof. unfold hk_plan_record_prepare_attempt, count_prepared, count_failed. cbv zeta. stable. Qed.
#[local] Hint Resolve stable_record : stable.

Lemma stable_open idx : triple I (open_prepare_group idx) (λ _, I).
Proof.
  induction idx as [|i idx IH]; cbn [open_prepare_group];
    unfold get_hook, put_hook, put_result, count_attempted; stable.
Qed.
#[local] Hint Resolve stable_open : stable.

Lemma stable_close a i op : triple I (close_prepare_operation a i op) (λ _, I).
Proof. unfold close_prepare_operation, get_hook. cbv zeta. stable. Qed.
#[local] Hint Resolve stable_close : stable.

Lemma stable_group i n : triple I (hk_plan_prepare_group i n) (λ _, I).
Proof. unfold hk_plan_prepare_group, get_hook. cbv zeta. stable. Qed.
#[local] Hint Resolve stable_group : stable.

Lemma stable_prepare_one i h : triple I (prepare_one i h) (λ _, I).
Proof.
  unfold prepare_one, catalog_generation, count_failed, count_attempted. cbv zeta. stable.
Qed.
#[local] Hint Resolve stable_prepare_one : stable.

Lemma stable_loop idx n : triple I (prepare_loop idx n) (λ _, I).
Proof.
  revert n. induction idx as [|i idx IH]; intros n; cbn [prepare_loop];
    unfold get_hook, put_result, catalog_generation; stable.
Qed.
#[local] Hint Resolve stable_loop : stable.

Lemma stable_prepare plan : triple I (hk_plan_prepare plan) (λ _, I).
Proof. unfold hk_plan_prepare, hook_indices. stable. Qed.

Lemma stable_analyze plan : triple I (hk_plan_analyze plan) (λ _, I).
Proof. unfold hk_plan_analyze. cbv zeta. stable. Qed.

End Stable.

(** ** Consequences *)

Definition is_commit (e : event) : bool := match e with EvCommit _ => true | _ => false end.
Definition commits (t : list event) : list event := filter is_commit t.

(** Nothing a mutation would show in has changed since [s0]. *)
Record untouched {E} (s0 s : sys E) : Prop := {
  un_commits : commits (s_trace s) = commits (s_trace s0);
  un_owners : s_owners s = s_owners s0;
  un_installed : s_installed s = s_installed s0;
  un_process : s_process s = s_process s0;
  un_runtime : s_runtime s = s_runtime s0 }.

Lemma untouched_stable {E} (s0 : sys E) : PrepareStable (untouched s0).
Proof.
  split; intros; destruct H; constructor; try done; unfold commits in *; cbn [s_trace set_field];
    rewrite list.filter_app, un_commits0; cbn; by rewrite app_nil_r.
Qed.

(** C6.  Before commit no target is mutated: whatever the engines do and
    whichever way it ends, preparing a plan invokes no commit callback and
    leaves the ownership ledger, the registry of installed hooks, both artifact
    ledgers and the runtime as they were. *)
Theorem prepare_mutates_nothing {E} (plan : bool) (s : sys E) :
  untouched s (hk_plan_prepare plan s).2.
Proof.
  pose proof (untouched_stable s). by apply (stable_prepare (untouched s) plan s).
Qed.

(** Analysis has no side effect: it leaves the engines' state, their call
    record and everything process-wide unchanged, and of the plan it changes
    only, on success, its state to ANALYZED and its hooks to the hooks analysed
    in place; a plan that is not a draft is refused unchanged. *)
Lemma analyze_side_effect_free {E} (plan : bool) (s : sys E) :
  let '((status, report), s') := hk_plan_analyze plan s in
  s_engine s' = s_engine s ∧ s_trace s' = s_trace s ∧ untouched s s' ∧
  pl_domains (s_plan s') = pl_domains (s_plan s) ∧
  (pl_hooks (s_plan s') = pl_hooks (s_plan s) ∨
   pl_hooks (s_plan s') =
     hk_hook_analyze_one (pl_plan_id (s_plan s)) (s_runtime s) (s_engine s) <$> pl_hooks (s_plan s)) ∧
  match status with
  | HK_STATUS_OK =>
      pl_state (s_plan s) = HK_PLAN_DRAFT ∧ pl_state (s_plan s') = HK_PLAN_ANALYZED ∧
      ∃ r, report = Some r ∧ rp_results r = h_result <$> pl_hooks (s_plan s') ∧
      pl_hooks (s_plan s') =
        hk_hook_analyze_one (pl_plan_id (s_plan s)) (s_runtime s) (s_engine s) <$> pl_hooks (s_plan s)
  | _ => pl_state (s_plan s') = pl_state (s_plan s) ∧ report = None
  end ∧
  (pl_state (s_plan s) ≠ HK_PLAN_DRAFT → s' = s).
Proof.
  unfold hk_plan_analyze, bind, gets, ret. cbn beta iota.
  destruct plan; cbn [negb]; [|split_and!; try done; by left].
  destruct (bool_decide _) eqn:Ed; cbn [negb].
  2:{ split_and!; try done; by left. }
  apply bool_decide_eq_true in Ed.
  assert (Hbuf : ∃ b h, on_heap (match pl_hooks (s_plan s) with [] => λ s, (true, s) | _ => alloc end) s
                        = (b, s <| s_heap := h |>)).
  { unfold on_heap, zoom. destruct (pl_hooks (s_plan s)); [|destruct (alloc (s_heap s)) as [b hp]];
      eexists _, _; try reflexivity. }
  destruct Hbuf as (b & h & ->). destruct b; cbn [negb].
  2:{ split_and!; try done; by left. }
  unfold on_plan, modify, report_create. cbn [s_heap s_ids s_runtime s_engine s_plan set_field].
  match goal with |- context [hk_report_create ?l ?hi] =>
    destruct (hk_report_create l hi) as [[r|] [h2 i2]] eqn:Er end.
  - split_and!; try done; [by right|]. exists r. split_and!; try done.
    unfold hk_report_create in Er. cbn in Er.
    repeat match goal with
    | H : context [match ?x with _ => _ end] |- _ => destruct x eqn:?; try discriminate
    end; by inversion Er.
  - split_and!; try done. by right.
Qed.
