(* ===== verification/CommitOrder.v ===== *)
(** * The commit order (src/core/HKPlan.c: hk_build_commit_order)

    The topological selection finds, for every plan the public interface can
    build, an order of exactly the prepared hooks that respects dependencies and
    is the least one by domain order, commit order and position; the fast path
    agrees with it. *)

From stdpp Require Import base list strings gmap numbers sorting.
From S2P Require Import Prelude Types Engine Plan Demo Dispatch Prepare Commit.

Section CommitOrder.
Context {E : Type}.
Implicit Types p : hk_plan E.
Implicit Types h : hk_hook E.
Implicit Types hooks : list (hk_hook E).

(** Dependencies name hooks added earlier, each address one hook. *)
Record order_wf p : Prop := {
  ow_addresses : NoDup (h_address <$> pl_hooks p);
  ow_after i h a : pl_hooks p !! i = Some h → a ∈ commit_after (h_spec h) →
    ∃ j d, (j < i)%nat ∧ pl_hooks p !! j = Some d ∧ h_address d = a }.

Lemma commit_after_empty spec : commit_after_count spec = 0 → commit_after spec = [].
Proof.
  unfold commit_after_count, commit_after. destruct (hs_commit_after spec) as [|l]; [done|].
  destruct l; [done|cbn; lia].
Qed.

Lemma hook_index_of p j d :
  order_wf p → pl_hooks p !! j = Some d → hk_plan_hook_index p (h_address d) = Some j.
Proof.
  intros W Hj. unfold hk_plan_hook_index.
  destruct (list_find _ (pl_hooks p)) as [[k x]|] eqn:Ef.
  - apply list_find_Some in Ef as (Hk & Ha & _). cbn. f_equal.
    apply (NoDup_lookup (h_address <$> pl_hooks p) k j (h_address d)); [apply W|..];
      rewrite list_lookup_fmap; [by rewrite Hk; cbn; rewrite Ha|by rewrite Hj].
  - exfalso. apply list_find_None in Ef. rewrite Forall_lookup in Ef. by apply (Ef _ _ Hj).
Qed.

(** ** The key order *)

Definition key_of p i h : Z * Z * Z :=
  (hk_hook_domain_order p h, hs_commit_order (h_spec h), Z.of_nat i).

Definition key_lt (a b : Z * Z * Z) : Prop :=
  let '(a1, a2, a3) := a in let '(b1, b2, b3) := b in
  a1 < b1 ∨ (a1 = b1 ∧ (a2 < b2 ∨ (a2 = b2 ∧ a3 < b3))).

Lemma commit_order_before_key p l i r j :
  hk_commit_order_before p l i r j = true ↔ key_lt (key_of p i l) (key_of p j r).
Proof.
  unfold hk_commit_order_before, key_lt, key_of.
  destruct (Z.eqb_spec (hk_hook_domain_order p l) (hk_hook_domain_order p r)); cbn [negb].
  - destruct (Z.eqb_spec (hs_commit_order (h_spec l)) (hs_commit_order (h_spec r))); cbn [negb].
    + rewrite Nat.ltb_lt. lia.
    + rewrite Z.ltb_lt. lia.
  - rewrite Z.ltb_lt. lia.
Qed.

(** ** One selection *)

Definition ready p (processed : list bool) i h : bool :=
  negb (default false (processed !! i) || negb (is_prepared h) ||
        negb (hk_commit_dependencies_processed p h processed)).

Lemma select_next_best p processed i hooks best :
  (∀ j h, drop i (pl_hooks p) !! j = Some h ↔ hooks !! j = Some h) →
  match best with
  | Some (b, bh) => pl_hooks p !! b = Some bh ∧ ready p processed b bh = true ∧
      ∀ j h, (j < i)%nat → pl_hooks p !! j = Some h → ready p processed j h = true →
        j = b ∨ key_lt (key_of p b bh) (key_of p j h)
  | None => ∀ j h, (j < i)%nat → pl_hooks p !! j = Some h → ready p processed j h = false
  end →
  match select_next p processed i hooks best with
  | Some (b, bh) => pl_hooks p !! b = Some bh ∧ ready p processed b bh = true ∧
      ∀ j h, pl_hooks p !! j = Some h → ready p processed j h = true →
        j = b ∨ key_lt (key_of p b bh) (key_of p j h)
  | None => ∀ j h, pl_hooks p !! j = Some h → ready p processed j h = false
  end.
Proof.
  revert i best. induction hooks as [|h rest IH]; intros i best Hd Hb; cbn [select_next].
  { assert (Hlen : ∀ j x, pl_hooks p !! j = Some x → (j < i)%nat).
    { intros j x Hj. destruct (decide (j < i)%nat) as [|Hge]; [done|]. exfalso.
      assert (Hx : drop i (pl_hooks p) !! (j - i)%nat = Some x).
      { rewrite lookup_drop. by replace (i + (j - i))%nat with j by lia. }
      apply Hd in Hx. by rewrite lookup_nil in Hx. }
    destruct best as [[b bh]|]; [destruct Hb as (H1 & H2 & H3); split_and!; eauto|eauto]. }
  assert (Hi : pl_hooks p !! i = Some h).
  { specialize (proj2 (Hd 0%nat h) eq_refl). by rewrite lookup_drop, Nat.add_0_r. }
  assert (Hd' : ∀ j x, drop (S i) (pl_hooks p) !! j = Some x ↔ rest !! j = Some x).
  { intros j x. rewrite <- (Hd (S j) x), !lookup_drop. by replace (i + S j)%nat with (S i + j)%nat by lia. }
  apply IH; [done|]. clear IH Hd.
  change (default false (processed !! i) || negb (is_prepared h) ||
          negb (hk_commit_dependencies_processed p h processed))
    with (default false (processed !! i) || negb (is_prepared h) ||
          negb (hk_commit_dependencies_processed p h processed)).
  pose proof (eq_refl (ready p processed i h)) as Hr. unfold ready in Hr at 2.
  destruct (default false (processed !! i) || _ || _); cbn [negb] in Hr.
  - destruct best as [[b bh]|].
    + destruct Hb as (H1 & H2 & H3). split_and!; [done..|]. intros j x Hj Hx Hrx.
      destruct (decide (j = i)) as [->|]; [congruence|]. apply H3; [lia|done..].
    + intros j x Hj Hx. destruct (decide (j = i)) as [->|]; [congruence|]. apply Hb; [lia|done].
  - destruct best as [[b bh]|].
    + destruct Hb as (H1 & H2 & H3).
      destruct (hk_commit_order_before p h i bh b) eqn:Eb.
      * apply commit_order_before_key in Eb. split_and!; [done..|]. intros j x Hj Hx Hrx.
        destruct (decide (j = i)) as [->|]; [by left|]. right.
        destruct (H3 j x ltac:(lia) Hx Hrx) as [->|Hlt].
        -- congruence.
        -- unfold key_lt, key_of in *. lia.
      * assert (Hn : ¬ key_lt (key_of p i h) (key_of p b bh)) by (by rewrite <- commit_order_before_key, Eb).
        split_and!; [done..|]. intros j x Hj Hx Hrx.
        destruct (decide (j = i)) as [->|]; [|apply H3; [lia|done..]].
        rewrite Hi in Hx. injection Hx as <-. destruct (decide (i = b)) as [|Hne]; [by left|right].
        unfold key_lt, key_of in *. lia.
    + split_and!; [done..|]. intros j x Hj Hx Hrx. destruct (decide (j = i)) as [->|]; [by left|].
      exfalso. rewrite (Hb j x ltac:(lia) Hx) in Hrx. done.
Qed.

Lemma select_next_spec p processed :
  match select_next p processed 0 (pl_hooks p) None with
  | Some (b, bh) => pl_hooks p !! b = Some bh ∧ ready p processed b bh = true ∧
      ∀ j h, pl_hooks p !! j = Some h → ready p processed j h = true →
        j = b ∨ key_lt (key_of p b bh) (key_of p j h)
  | None => ∀ j h, pl_hooks p !! j = Some h → ready p processed j h = false
  end.
Proof. apply select_next_best; [intros j h; by rewrite drop_0|intros j h ?; lia]. Qed.

(** ** All selections *)

Lemma prepared_from_spec i hooks j :
  j ∈ prepared_from i hooks ↔ ∃ k h, j = (i + k)%nat ∧ hooks !! k = Some h ∧ is_prepared h = true.
Proof.
  revert i. induction hooks as [|h rest IH]; intros i; cbn [prepared_from].
  { split; [by intros ?%not_elem_of_nil|by intros (k & h & _ & ? & _)]. }
  assert (Hrest : j ∈ prepared_from (S i) rest ↔
    ∃ k x, j = (i + S k)%nat ∧ rest !! k = Some x ∧ is_prepared x = true).
  { rewrite IH. split; intros (k & x & -> & ?); exists k, x; (split; [lia|done]). }
  destruct (is_prepared h) eqn:Eh.
  - rewrite elem_of_cons, Hrest. split.
    + intros [->|(k & x & ? & ? & ?)]; [exists 0%nat, h; split; [lia|done]|by exists (S k), x].
    + intros ([|k] & x & -> & Hk & Hx); [left; lia|right; by exists k, x].
  - rewrite Hrest. split.
    + intros (k & x & ? & ? & ?). by exists (S k), x.
    + intros ([|k] & x & -> & Hk & Hx); [cbn in Hk; congruence|by exists k, x].
Qed.

Lemma elem_of_prepared_indices p j :
  j ∈ prepared_indices p ↔ ∃ h, pl_hooks p !! j = Some h ∧ is_prepared h = true.
Proof.
  unfold prepared_indices. rewrite prepared_from_spec. split.
  - intros (k & h & -> & ? & ?). by exists h.
  - intros (h & ? & ?). by exists j, h.
Qed.

Lemma prepared_from_sorted i hooks : StronglySorted lt (prepared_from i hooks).
Proof.
  revert i. induction hooks as [|h rest IH]; intros i; cbn [prepared_from]; [constructor|].
  destruct (is_prepared h); [|apply IH]. constructor; [apply IH|]. apply Forall_forall.
  intros j (k & x & -> & _)%prepared_from_spec. lia.
Qed.

Lemma sorted_lt_NoDup (l : list nat) : StronglySorted lt l → NoDup l.
Proof.
  induction 1 as [|x l _ IH Hx]; constructor; [|done]. intros Hin.
  rewrite Forall_forall in Hx. specialize (Hx _ Hin). lia.
Qed.

(** [processed] marks what is settled: hooks not prepared, and those done. *)
Record processed_inv p (dn : list nat) (processed : list bool) : Prop := {
  pi_length : length processed = length (pl_hooks p);
  pi_spec j h : pl_hooks p !! j = Some h →
    processed !! j = Some ((negb (is_prepared h)) || (bool_decide (j ∈ dn))) }.

Lemma processed_inv_start p : processed_inv p [] ((λ h, negb (is_prepared h)) <$> pl_hooks p).
Proof.
  split; [by rewrite length_fmap|]. intros j h Hj. rewrite list_lookup_fmap, Hj. cbn.
  rewrite bool_decide_false by apply not_elem_of_nil. by rewrite orb_false_r.
Qed.

Lemma processed_inv_step p dn processed b :
  (b < length (pl_hooks p))%nat → processed_inv p dn processed →
  processed_inv p (dn ++ [b]) (<[b := true]> processed).
Proof.
  intros Hb [Hl Hs]. split; [by rewrite length_insert|]. intros j h Hj.
  destruct (decide (b = j)) as [->|Hne].
  - rewrite list_lookup_insert_eq by lia. f_equal.
    rewrite bool_decide_true by (apply elem_of_app; right; by left). by rewrite orb_true_r.
  - rewrite list_lookup_insert_ne by done. rewrite (Hs j h Hj). do 2 f_equal.
    apply bool_decide_ext. rewrite elem_of_app, list_elem_of_singleton. naive_solver.
Qed.

(** The dependencies of hook [i] that take part in the order come earlier. *)
Definition dependencies_done p (dn : list nat) h : Prop :=
  ∀ a j d, a ∈ commit_after (h_spec h) → pl_hooks p !! j = Some d → h_address d = a →
    is_prepared d = true → j ∈ dn.

Lemma ready_spec p dn processed i h :
  order_wf p → processed_inv p dn processed → pl_hooks p !! i = Some h →
  ready p processed i h = true ↔
  is_prepared h = true ∧ i ∉ dn ∧ dependencies_done p dn h.
Proof.
  intros W [Hl Hs] Hi.
  assert (Hdeps : hk_commit_dependencies_processed p h processed = true ↔ dependencies_done p dn h).
  { unfold hk_commit_dependencies_processed, dependencies_done. rewrite forallb_forall. split.
    - intros H a j d Ha Hj <- Hp. specialize (H _ (proj1 (list_elem_of_In _ _) Ha)). cbn in H.
      rewrite (hook_index_of p j d W Hj), (Hs j d Hj), Hp in H. cbn in H. by apply bool_decide_eq_true in H.
    - intros H a Ha%list_elem_of_In. destruct (ow_after _ W _ _ _ Hi Ha) as (j & d & _ & Hj & <-).
      rewrite (hook_index_of p j d W Hj), (Hs j d Hj). cbn.
      destruct (is_prepared d) eqn:Ep; [|done]. apply bool_decide_eq_true. by apply (H (h_address d) j d). }
  unfold ready. rewrite (Hs i h Hi). cbn [from_option id].
  destruct (is_prepared h), (decide (i ∈ dn)) as [Hd|Hd];
    [rewrite bool_decide_true by done|rewrite bool_decide_false by done|..]; cbn [negb orb];
    rewrite ?negb_true_iff, ?negb_false_iff; naive_solver.
Qed.

(** What an order of the remaining hooks promises after [dn]. *)
Fixpoint least_order p (dn order : list nat) : Prop :=
  match order with
  | [] => True
  | i :: rest =>
      (∃ h, pl_hooks p !! i = Some h ∧ is_prepared h = true ∧ i ∉ dn ∧ dependencies_done p dn h ∧
        ∀ j x, pl_hooks p !! j = Some x → is_prepared x = true → j ∉ dn → dependencies_done p dn x →
          j = i ∨ key_lt (key_of p i h) (key_of p j x)) ∧
      least_order p (dn ++ [i]) rest
  end.

Lemma exists_ready p dn r :
  order_wf p → prepared_indices p ≡ₚ dn ++ r → r ≠ [] →
  ∃ i h, pl_hooks p !! i = Some h ∧ is_prepared h = true ∧ i ∉ dn ∧ dependencies_done p dn h.
Proof.
  intros W Hp Hr.
  (* the least index that is not done *)
  assert (Hex : ∃ i, i ∈ r ∧ ∀ j, j ∈ r → (i ≤ j)%nat).
  { clear Hp. induction r as [|x r IH]; [done|]. destruct r as [|y r].
    - exists x. split; [by left|]. intros j ->%list_elem_of_singleton. done.
    - destruct IH as (i & Hi & Hmin); [done|]. destruct (decide (x ≤ i)%nat).
      + exists x. split; [by left|]. intros j [->|Hj]%elem_of_cons; [done|]. specialize (Hmin j Hj). lia.
      + exists i. split; [by right|]. intros j [->|Hj]%elem_of_cons; [lia|by apply Hmin]. }
  destruct Hex as (i & Hi & Hmin).
  pose proof (sorted_lt_NoDup _ (prepared_from_sorted 0 (pl_hooks p))) as Hnd.
  fold (prepared_indices p) in Hnd. rewrite Hp in Hnd. apply NoDup_app in Hnd as (_ & Hdisj & _).
  assert (Hin : i ∈ prepared_indices p) by (rewrite Hp; apply elem_of_app; right; first [done|by left]).
  apply elem_of_prepared_indices in Hin as (h & Hh & Hph). exists i, h. split_and!; [done..| |].
  - intros Hd. by apply (Hdisj i).
  - intros a j d Ha Hj <- Hpd. destruct (ow_after _ W _ _ _ Hh Ha) as (j' & d' & Hlt & Hj' & Had).
    assert (j' = j) as ->.
    { pose proof (hook_index_of p j' d' W Hj') as H1. rewrite Had, (hook_index_of p j d W Hj) in H1. congruence. }
    assert (Hjin : j ∈ dn ++ r) by (rewrite <- Hp; apply elem_of_prepared_indices; by exists d).
    apply elem_of_app in Hjin as [?|Hjr]; [done|]. specialize (Hmin j Hjr). lia.
Qed.

Lemma select_all_spec p dn processed r n :
  order_wf p → processed_inv p dn processed → prepared_indices p ≡ₚ dn ++ r → n = length r →
  ∃ order, select_all p n processed = Some order ∧ order ≡ₚ r ∧ least_order p dn order.
Proof.
  intros W. revert dn processed r. induction n as [|n IH]; intros dn processed r Hinv Hp Hn.
  { destruct r; [|done]. by exists []. }
  cbn [select_all]. pose proof (select_next_spec p processed) as Hs.
  destruct (select_next _ _ _ _ _) as [[b bh]|].
  - destruct Hs as (Hb & Hready & Hmin). apply (ready_spec p dn processed b bh W Hinv Hb) in Hready as (H1 & H2 & H3).
    assert (Hbr : b ∈ r).
    { assert (Hin : b ∈ dn ++ r) by (rewrite <- Hp; apply elem_of_prepared_indices; by exists bh).
      by apply elem_of_app in Hin as [?|?]. }
    apply list_elem_of_split in Hbr as (r1 & r2 & ->).
    destruct (IH (dn ++ [b]) (<[b := true]> processed) (r1 ++ r2)) as (order & Ho & Hperm & Hl).
    + apply processed_inv_step; [by apply lookup_lt_Some in Hb|done].
    + rewrite Hp, <- app_assoc. f_equiv. cbn. by rewrite Permutation_middle.
    + rewrite !length_app in *. cbn in Hn. lia.
    + exists (b :: order). rewrite Ho. split; [done|]. split.
      * rewrite Hperm. by rewrite Permutation_middle.
      * split; [|done]. exists bh. split_and!; [done..|]. intros j x Hj Hpx Hnd Hdep.
        apply (Hmin j x Hj). by apply (ready_spec p dn processed j x W Hinv Hj).
  - exfalso. destruct (exists_ready p dn r W Hp) as (i & h & Hi & H1 & H2 & H3); [by destruct r|].
    specialize (Hs i h Hi). rewrite (proj2 (ready_spec p dn processed i h W Hinv Hi)) in Hs; done.
Qed.

(** An order that is least at every step is unique. *)
Lemma least_order_unique p dn o1 o2 :
  length o1 = length o2 → least_order p dn o1 → least_order p dn o2 → o1 = o2.
Proof.
  revert dn o2. induction o1 as [|i o1 IH]; intros dn [|j o2] Hl H1 H2;
    [reflexivity|discriminate Hl|discriminate Hl|].
  destruct H1 as [(h & Hi & A1 & A2 & A3 & Am) H1], H2 as [(x & Hj & B1 & B2 & B3 & Bm) H2].
  assert (i = j) as ->.
  { destruct (Am j x Hj B1 B2 B3) as [->|Hlt]; [done|].
    destruct (Bm i h Hi A1 A2 A3) as [->|Hgt]; [done|]. unfold key_lt, key_of in *. lia. }
  f_equal. injection Hl as Hl. by apply (IH (dn ++ [j])).
Qed.

(** The fast path's order is the least one. *)
Lemma simple_order_spec p key hooks :
  simple_order p key hooks = true →
  ∃ k, (∀ k', key = Some k' → k' = k) ∧
    ∀ h, h ∈ hooks → is_prepared h = true →
      commit_after_count (h_spec h) = 0 ∧ (hk_hook_domain_order p h, hs_commit_order (h_spec h)) = k.
Proof.
  revert key. induction hooks as [|h rest IH]; intros key H; cbn [simple_order] in H.
  { exists (default (0, 0) key). split; [by intros k' ->|]. intros h Hin. by apply not_elem_of_nil in Hin. }
  destruct (is_prepared h) eqn:Eh.
  - destruct (Z.eqb_spec (commit_after_count (h_spec h)) 0) as [E0|]; [cbn [negb] in H|done].
    assert (Hk : ∃ k, simple_order p (Some k) rest = true ∧ (∀ k', key = Some k' → k' = k) ∧
      (hk_hook_domain_order p h, hs_commit_order (h_spec h)) = k).
    { destruct key as [k|]; [destruct (bool_decide _) eqn:Eb; [|done]; apply bool_decide_eq_true in Eb|];
        eexists; split_and!; try exact H; try done; by intros k' [= ->]. }
    destruct Hk as (k & Hrest & Hkey & Hh). destruct (IH _ Hrest) as (k2 & Hk2 & Hall).
    rewrite (Hk2 k eq_refl) in *. exists k2. split; [done|].
    intros x [->|Hx]%elem_of_cons Hpx; [done|by apply Hall].
  - destruct (IH _ H) as (k & Hk & Hall). exists k. split; [done|].
    intros x [->|Hx]%elem_of_cons Hpx; [congruence|by apply Hall].
Qed.

Lemma simple_least p :
  order_wf p → simple_order p None (pl_hooks p) = true →
  ∀ r dn, prepared_indices p = dn ++ r → least_order p dn r.
Proof.
  intros W Hs. destruct (simple_order_spec _ _ _ Hs) as (k & _ & Hall).
  induction r as [|i r IH]; intros dn Hp; cbn [least_order]; [done|].
  split; [|apply IH; by rewrite <- app_assoc].
  assert (Hi : i ∈ prepared_indices p) by (rewrite Hp; apply elem_of_app; right; first [done|by left]).
  apply elem_of_prepared_indices in Hi as (h & Hh & Hph). exists h.
  assert (Hempty : ∀ j x, pl_hooks p !! j = Some x → is_prepared x = true → commit_after (h_spec x) = []).
  { intros j x Hj Hx. apply commit_after_empty.
    apply (Hall x); [by eapply list_elem_of_lookup_2|done]. }
  pose proof (prepared_from_sorted 0 (pl_hooks p)) as Hsort. fold (prepared_indices p) in Hsort.
  pose proof (sorted_lt_NoDup _ Hsort) as Hnd. rewrite Hp in Hsort, Hnd.
  apply NoDup_app in Hnd as (_ & Hdisj & Hndr). split_and!; try done.
  - intros Hd. apply (Hdisj i); [done|by left].
  - intros a j d Ha. by rewrite (Hempty i h Hh Hph) in Ha; apply not_elem_of_nil in Ha.
  - intros j x Hj Hpx Hnj _.
    assert (Hjr : j ∈ i :: r).
    { assert (Hin : j ∈ dn ++ i :: r) by (rewrite <- Hp; apply elem_of_prepared_indices; by exists x).
      by apply elem_of_app in Hin as [?|?]. }
    apply elem_of_cons in Hjr as [->|Hjr]; [by left|right].
    assert (Hlt : (i < j)%nat).
    { apply StronglySorted_app_1_r in Hsort. inversion Hsort as [|?? _ Hf]; subst.
      by apply (proj1 (Forall_forall _ _) Hf). }
    destruct (Hall h ltac:(by eapply list_elem_of_lookup_2) Hph) as [_ K1].
    destruct (Hall x ltac:(by eapply list_elem_of_lookup_2) Hpx) as [_ K2].
    unfold key_lt, key_of. rewrite <- K2 in K1. injection K1 as -> ->. lia.
Qed.

(** Whatever the allocator does, an order that is returned is one of exactly the
    prepared hooks. *)
Lemma build_order_perm p hp order hp' :
  order_wf p → hk_build_commit_order p hp = (Some order, hp') → order ≡ₚ prepared_indices p.
Proof.
  intros W. unfold hk_build_commit_order. destruct (pl_hooks p) as [|h0 hs] eqn:Eh.
  { intros [= <- _]. unfold prepared_indices. by rewrite Eh. }
  rewrite <- Eh. unfold bind. destruct (alloc hp) as [[] h1]; cbn [negb]; [|done].
  destruct (simple_order p None (pl_hooks p)); [by intros [= <- _]|].
  destruct (alloc h1) as [[] h2]; [|done]. unfold ret. intros [= Hs _].
  destruct (select_all_spec p [] _ (prepared_indices p) _ W (processed_inv_start p) ltac:(done) eq_refl)
    as (o & Ho & Hperm & _). congruence.
Qed.

(** C7.  The commit order.  For a plan whose dependencies name earlier hooks
    (every plan the public interface builds), with memory, an order is always
    found: it is a permutation of the prepared hooks in which each comes after
    all its prepared dependencies, and at every step the least hook by domain
    order, commit order and position among those whose dependencies are done. *)
Theorem commit_order_least p hp :
  order_wf p → heap_ok hp →
  ∃ order hp', hk_build_commit_order p hp = (Some order, hp') ∧
    order ≡ₚ prepared_indices p ∧ least_order p [] order.
Proof.
  intros W Hok. unfold hk_build_commit_order.
  destruct (pl_hooks p) as [|h0 hs] eqn:Eh.
  { exists [], hp. unfold prepared_indices. by rewrite Eh. }
  unfold bind, alloc. rewrite Hok. cbn [negb]. rewrite <- Eh.
  destruct (simple_order p None (pl_hooks p)) eqn:Es.
  - eexists _, _. split; [done|]. split; [done|]. by apply (simple_least p W Es _ []).
  - destruct (select_all_spec p [] _ (prepared_indices p) _ W (processed_inv_start p) ltac:(done) eq_refl)
      as (order & Ho & Hperm & Hl).
    unfold ret. cbn [h_fails h_tick set_field]. rewrite Hok. cbn [negb]. rewrite Ho. by eexists _, _.
Qed.

(** The fast path is the general one: where every prepared hook has one
    key and no dependency, the topological selection gives the add order the
    fast path writes directly. *)
Theorem commit_order_fast_path p :
  order_wf p → simple_order p None (pl_hooks p) = true →
  select_all p (length (prepared_indices p)) ((λ h, negb (is_prepared h)) <$> pl_hooks p) =
  Some (prepared_indices p).
Proof.
  intros W Hs.
  destruct (select_all_spec p [] _ (prepared_indices p) _ W (processed_inv_start p) ltac:(done) eq_refl)
    as (order & -> & Hperm & Hl). f_equal.
  apply (least_order_unique p []); [by apply Permutation_length|done|].
  by apply (simple_least p W Hs _ []).
Qed.

End CommitOrder.

(** ** At concrete plans *)

Lemma demo_order_wf outcome state : order_wf (Demo.plan state outcome).
Proof.
  split; [by apply (bool_decide_unpack (NoDup _)); vm_compute|].
  intros [|[|[|i]]] h a Hi Ha; try done; injection Hi as <-; cbn in Ha;
    try by apply not_elem_of_nil in Ha.
  apply list_elem_of_singleton in Ha as ->. exists 0%nat. eexists. split_and!; [lia|done|done].
Qed.

Lemma commit_order_least_witness :
  ∃ hp', hk_build_commit_order (Demo.plan HK_PLAN_PREPARED HK_OUTCOME_PREPARED) Demo.memory =
         (Some [0; 2; 1]%nat, hp') ∧
         least_order (Demo.plan HK_PLAN_PREPARED HK_OUTCOME_PREPARED) [] [0; 2; 1]%nat.
Proof.
  destruct (commit_order_least (Demo.plan HK_PLAN_PREPARED HK_OUTCOME_PREPARED) Demo.memory
    (demo_order_wf _ _) ltac:(done)) as (order & hp' & Heq & _ & Hl).
  exists hp'. assert (order = [0; 2; 1]%nat) as -> by (vm_compute in Heq; congruence). by split.
Defined.

Definition demo_flat_plan : hk_plan unit :=
  Demo.plan HK_PLAN_PREPARED HK_OUTCOME_PREPARED
    <| pl_hooks := [ Demo.hook 0x100 (Demo.spec "a" 0x4000 0 0 []) [1] HK_OUTCOME_PREPARED;
                     Demo.hook 0x120 (Demo.spec "b" 0x4010 0 0 []) [2] HK_OUTCOME_NO_ROUTE;
                     Demo.hook 0x140 (Demo.spec "c" 0x4020 0 0 []) [3] HK_OUTCOME_PREPARED ] |>.

Lemma commit_order_fast_path_witness :
  select_all demo_flat_plan 2 [false; true; false] = Some [0; 2]%nat.
Proof.
  refine (commit_order_fast_path demo_flat_plan _ _); [|done].
  split; [by apply (bool_decide_unpack (NoDup _)); vm_compute|].
  intros [|[|[|i]]] h a Hi Ha; try done; injection Hi as <-; by apply not_elem_of_nil in Ha.
Defined.
