(* ===== verification/CommitSafety.v ===== *)
(** * What may be mutated, and what may be claimed

    The gates in front of an engine's commit callback, and what must have
    happened before a hook is reported ACTIVE or verified. *)

From stdpp Require Import base strings gmap numbers list.
From S2P Require Import Prelude Types Ownership ImageCatalog Artifacts Engine Plan Demo.
From S2P Require Import Dispatch Analyze Prepare PrepareSafety Commit.

Section Safety.
Context {E : Type}.
Local Abbreviation hook := (hk_hook E).
Local Abbreviation sys := (sys E).
Implicit Types (h : hook) (s : sys) (out : hk_hook_result).

(** ** Verification *)

Definition ledger_items (ledger : option hk_artifact_ledger) : list hk_artifact :=
  match ledger with Some l => lg_items l | None => [] end.

Definition plan_ledger s : list hk_artifact :=
  ledger_items (l_ledger (s_locals s)).

(** Every artifact recorded from [start] on is marked verified. *)
Definition verified_from (start : Z) s : Prop :=
  ∀ i a, start <= Z.of_nat i → plan_ledger s !! i = Some a → a_verified a = true.

(** The fields verification may not touch. *)
Record same_account out out' : Prop := {
  sc_observed : r_observed_commit_effects out' = r_observed_commit_effects out;
  sc_count : r_artifact_count out' = r_artifact_count out;
  sc_mutation : r_mutation out' = r_mutation out }.

Lemma ledger_count_plan s : 0 <= hk_artifact_ledger_count (l_ledger (s_locals s)) ∧
  hk_artifact_ledger_count (l_ledger (s_locals s)) = Z.of_nat (length (plan_ledger s)).
Proof. unfold plan_ledger. destruct (l_ledger _); cbn; [unfold lg_count; lia|done]. Qed.

Lemma mark_verified_items ledger start ok marked :
  0 <= start →
  hk_artifact_ledger_mark_verified ledger start (hk_artifact_ledger_count ledger - start) = (ok, marked) →
  length (ledger_items marked) = length (ledger_items ledger) ∧
  (ok = true → ∀ i a, start <= Z.of_nat i → ledger_items marked !! i = Some a → a_verified a = true).
Proof.
  intros Hs. unfold hk_artifact_ledger_mark_verified, hk_artifact_ledger_mark.
  destruct ledger as [l|]; [|by intros [= <- <-]].
  destruct (_ || _); [by intros [= <- <-]|]. intros [= <- <-]. cbn [ledger_items lg_items set_field].
  split; [by rewrite mark_range_length|]. intros _ i a Hi Ha.
  rewrite mark_range_lookup in Ha. destruct (lg_items l !! i) as [b|] eqn:Eb; [|done].
  apply lookup_lt_Some in Eb. cbn [fmap option_fmap option_map hk_artifact_ledger_count] in Ha.
  injection Ha as <-.
  replace ((start <=? Z.of_nat i) && (Z.of_nat i <? start + (lg_count l - start))) with true;
    [done|]. symmetry. unfold lg_count. lia.
Qed.

Lemma on_engine_run {A} (m : M E A) s :
  on_engine m s = ((m (s_engine s)).1, s <| s_engine := (m (s_engine s)).2 |>).
Proof. unfold on_engine, zoom. by destruct (m (s_engine s)). Qed.

Lemma same_engine_state s : s = s <| s_engine := s_engine s |>.
Proof. by destruct s. Qed.

Lemma dispatch_verify_engine h s :
  ∃ result diag e, hk_hook_dispatch_verify h s = ((result, diag), s <| s_engine := e |>).
Proof.
  assert (Hno : ∃ result diag e, (HK_VERIFY_UNAVAILABLE, no_verify_diag, s) =
    ((result, diag), s <| s_engine := e |>)).
  { eexists _, _, (s_engine s). by rewrite <- same_engine_state. }
  unfold hk_hook_dispatch_verify. destruct (h_matched_engine h) as [v|]; [|exact Hno].
  destruct (vt_verify_one_ctx v) as [f|]; [|destruct (vt_verify_one v) as [f|]; [|exact Hno]];
    rewrite on_engine_run.
  all: match goal with |- ∃ _ _ _, (?p.1, _) = _ => destruct p as [[r d] e] end; by exists r, d, e.
Qed.

Lemma verification_spec h start m out g s :
  0 <= start →
  let '((m', out'), s') := hk_hook_apply_verification h start m out g s in
  same_account out out' ∧ r_original_available out' = r_original_available out ∧
  length (plan_ledger s') = length (plan_ledger s) ∧
  (m' = HK_MUTATION_COMPLETE → m = HK_MUTATION_COMPLETE) ∧
  (r_verified out' = true → m' = HK_MUTATION_COMPLETE ∧ verified_from start s' ∧
     ∀ op, g = Some op → op_verify_result op = HK_VERIFY_OK).
Proof.
  intros Hs. unfold hk_hook_apply_verification.
  destruct m; try (by split_and!). destruct (h_matched_engine h) as [v|]; [|by split_and!].
  assert (Ha : ∃ result diag e,
    (match g with
     | Some op => ret (op_verify_result op, op_verify_diag op)
     | None => hk_hook_dispatch_verify h
     end) s = ((result, diag), s <| s_engine := e |>) ∧
    ∀ op, g = Some op → op_verify_result op = result).
  { destruct g as [op|]; [eexists _, _, (s_engine s); split; [by destruct s|by intros ? [= <-]]|].
    destruct (dispatch_verify_engine h s) as (r & d & e & He). by exists r, d, e. }
  destruct Ha as (result & diag & e & Ha & Hg). unfold bind at 1. rewrite Ha.
  destruct result; [by split_and!| |by split_and!].
  unfold ledger_count, on_locals, bind, gets, modify. cbn beta iota.
  match goal with |- context [hk_artifact_ledger_mark_verified ?l ?i ?n] =>
    destruct (hk_artifact_ledger_mark_verified l i n) as [ok marked] eqn:Em end.
  apply (mark_verified_items (l_ledger (s_locals s))) in Em as [Hlen Hver]; [|done].
  destruct ok; split_and!; try done. intros _. split_and!; [done| |done].
  intros i a. by apply Hver.
Qed.

(** ** The claims of a commit *)

(** Every effect the engine's artifacts had is one its descriptor declares. *)
Definition effects_declared h (sink : hk_artifact_sink) : Prop :=
  ∀ v, h_matched_engine h = Some v →
    without (sk_observed_effects sink) (c_commit_effects (vt_describe v)) = 0.

Lemma validate_effects h sink out ok out' :
  hk_hook_validate_commit_effects h sink out = (ok, out') →
  (ok = true → effects_declared h sink).
Proof.
  unfold hk_hook_validate_commit_effects, effects_declared.
  destruct (h_matched_engine h) as [v|]; [|done]. intros H -> v' [= <-].
  destruct (Z.eqb_spec (sk_observed_effects sink) 0) as [->|]; [done|].
  by destruct (Z.eqb_spec (without (sk_observed_effects sink) (c_commit_effects (vt_describe v))) 0).
Qed.

(** The process-wide ledger names the hook's replacement as the target's head. *)
Definition owned_by h (predecessor : Z) (owners : list Ledger.record) : Prop :=
  ∃ x, Ledger.find_record (default [] (h_target_key h)) owners = Some x ∧
    Ledger.o_head_replacement x = hs_replacement (h_spec h) ∧ Ledger.o_predecessor x = predecessor.

Lemma ownership_record_run h id predecessor s :
  let '(ok, s') := ownership_record h id predecessor s in
  (ok = true → owned_by h predecessor (s_owners s')) ∧
  s_locals s' = s_locals s.
Proof.
  unfold ownership_record.
  destruct (Ledger.hk_ownership_record_locked _ _ _ _ _) as [ok [hp owners]] eqn:Er.
  split; [|done]. intros ->. by eapply record_locked_head.
Qed.

Lemma installed_record_registered id original out hp registry record hp' registry' :
  hk_installed_record_create id original (Some out) (hp, registry) = (Some record, (hp', registry')) →
  record ∈ registry'.
Proof.
  unfold hk_installed_record_create. destruct (alloc_object hp) as [a h1].
  destruct (a =? 0); [done|]. intros [= -> _ <-]. by left.
Qed.

(** The one-hook path records its ownership before it reports. *)
Lemma claim_ownership h (sink : hk_artifact_sink) owner m s :
  ∃ owned s', (match owner, m with
     | Some engine_id, HK_MUTATION_COMPLETE =>
         ownership_record h engine_id (sk_published_original sink)
     | _, _ => ret true
     end) s = (owned, s') ∧ s_locals s' = s_locals s ∧
    (owned = true → m = HK_MUTATION_COMPLETE → owner ≠ None →
     owned_by h (sk_published_original sink) (s_owners s')).
Proof.
  destruct owner as [id|]; [|by exists true, s]. destruct m; try (by exists true, s).
  pose proof (ownership_record_run h id (sk_published_original sink) s) as Hr.
  destruct (ownership_record h id (sk_published_original sink) s) as [owned s'].
  destruct Hr as [H1 H2]. exists owned, s'. split_and!; auto.
Qed.

(** Publishing touches neither the ledgers nor the rest of the result, and an
    original is advertised only with a record the process keeps. *)
Lemma publish_original_spec h original out s :
  let '((h', out'), s') := publish_original h original out s in
  same_account out out' ∧ r_outcome out' = r_outcome out ∧
  r_verified out' = r_verified out ∧
  s_locals s' = s_locals s ∧ s_owners s' = s_owners s ∧
  (original = 0 → r_original_available out' = r_original_available out) ∧
  (original ≠ 0 → r_original_available out' = true →
   ∃ record, h_installed h' = Some record ∧ record ∈ s_installed s').
Proof.
  unfold publish_original. destruct (Z.eqb_spec original 0) as [->|Hne]; [by split_and!|].
  unfold bind, on_ids, zoom. destruct (hk_id_generate (s_ids s)) as [id i].
  unfold installed_create. cbn [s_heap s_installed set_field].
  destruct (hk_installed_record_create _ _ _ _) as [[record|] [hp registry]] eqn:Er;
    split_and!; try done.
  intros _ _. exists record. split; [done|]. by eapply installed_record_registered.
Qed.

(** The end of an attempt, once its mutation state [m] is final. *)
Definition finish_tail h out (m : hk_mutation_state) (sink : hk_artifact_sink) (compensated : bool)
    : M sys hook :=
  if compensated then
    count_failed ;;;
    ret (h <| h_result := out <| r_outcome := HK_OUTCOME_COMPENSATED |> |>)
  else
    let out := out <| r_outcome := outcome_of m |> in
    match m with
    | HK_MUTATION_COMPLETE =>
        count_active ;;;
        published <- publish_original h (sk_published_original sink) out ;;
        ret (published.1 <| h_result := published.2 |>)
    | _ => count_failed ;;; ret (h <| h_result := out |>)
    end.

Lemma finish_tail_spec h out m sink compensated s :
  r_mutation out = m → r_original_available out = false →
  let '(h', s') := finish_tail h out m sink compensated s in
  let r := h_result h' in
  (r_outcome r = HK_OUTCOME_ACTIVE ↔ m = HK_MUTATION_COMPLETE ∧ compensated = false) ∧
  same_account out r ∧ r_verified r = r_verified out ∧
  plan_ledger s' = plan_ledger s ∧ s_owners s' = s_owners s ∧
  (r_original_available r = true →
     ∃ record, h_installed h' = Some record ∧ record ∈ s_installed s').
Proof.
  intros Hm Ho. unfold finish_tail. destruct compensated.
  { split_and!; try done; [by split; [|intros []]|cbn; by rewrite Ho]. }
  destruct m; try (by split_and!; try done; [by split; [|intros []]|cbn; rewrite Ho]).
  unfold bind, count_active, on_locals, modify. cbn beta iota.
  match goal with |- context [publish_original h ?o ?r ?t] =>
    pose proof (publish_original_spec h o r t) as Hp; destruct (publish_original h o r t) as [[h' out'] s'] end.
  destruct Hp as (Ha & Hout & Hv & Hl & Ho' & Hz & Hi). cbn [ret fst snd h_result set_field].
  split_and!; try done.
  - by destruct Ha.
  - unfold plan_ledger. by rewrite Hl.
  - cbn [h_installed set_field]. destruct (decide (sk_published_original sink = 0)) as [E0|Hne];
      [rewrite (Hz E0); cbn; congruence|by apply Hi].
Qed.


(** ** The gates in front of an engine *)

(** Nothing an engine does, or the process remembers of it, has changed. *)
Record engine_untouched (s s' : sys) : Prop := {
  eu_engine : s_engine s' = s_engine s;
  eu_trace : s_trace s' = s_trace s;
  eu_owners : s_owners s' = s_owners s;
  eu_installed : s_installed s' = s_installed s;
  eu_process : s_process s' = s_process s;
  eu_ledger : l_ledger (s_locals s') = l_ledger (s_locals s) }.

(** What must hold of a hook for its engine to be asked to commit it. *)
Record may_commit (s : sys) (before : list nat) h : Prop := {
  mc_current : r_image_generation (h_result h) =
    hk_image_catalog_generation (rt_catalog (s_runtime s));
  mc_after a : a ∈ commit_after (h_spec h) → dependency_active (s_plan s) a = true;
  mc_domain : no_domain h = true ∨ domain_seen (s_plan s) before h = true ∨
    hk_domain_commit_preflight (s_plan s)
      (hk_image_catalog_generation (rt_catalog (s_runtime s))) (hs_domain (h_spec h)) = true;
  mc_owner v : h_matched_engine h = Some v →
    ownership_conflict h (vt_describe v)
      (Ledger.hk_ownership_lookup_locked (default [] (h_target_key h)) (s_owners s)) = false }.

Section Trace.
Context (t : list event).
Local Abbreviation kept m := (triple (λ s, s_trace s = t) m (λ _ s, s_trace s = t)).

Lemma trace_heap {A} (m : M heap A) : kept (on_heap m).
Proof. by apply triple_zoom. Qed.
Lemma trace_ids {A} (m : M ids A) : kept (on_ids m).
Proof. by apply triple_zoom. Qed.
Lemma trace_engine {A} (m : M E A) : kept (on_engine m).
Proof. by apply triple_zoom. Qed.
Lemma trace_gets {A} (f : sys → A) : kept (gets f).
Proof. by apply triple_gets. Qed.
Lemma trace_locals f : kept (on_locals f).
Proof. by apply triple_modify. Qed.
Lemma trace_plan f : kept (on_plan f).
Proof. by apply triple_modify. Qed.
Lemma trace_own h e p : kept (ownership_record h e p).
Proof.
  intros s Hs. unfold ownership_record. by destruct (Ledger.hk_ownership_record_locked _ _ _ _ _) as [? [? ?]].
Qed.
Lemma trace_installed i o r : kept (installed_create i o r).
Proof.
  intros s Hs. unfold installed_create. by destruct (hk_installed_record_create _ _ _ _) as [? [? ?]].
Qed.
Lemma trace_sink r l k : kept (with_sink r l k).
Proof. intros s Hs. unfold with_sink. by destruct (apply_reply _ _). Qed.
#[local] Hint Resolve trace_heap trace_ids trace_engine trace_gets trace_locals trace_plan trace_own
  trace_installed trace_sink : stable.

Lemma trace_finish h out start mutation sink g owner compensated :
  kept (hk_plan_finish_commit_attempt h out start mutation sink g owner compensated).
Proof.
  unfold hk_plan_finish_commit_attempt, hk_hook_apply_verification, hk_hook_dispatch_verify,
    publish_original, ledger_count, catalog_generation, count_failed, count_active. cbv zeta. stable.
Qed.
Lemma trace_settle i h : kept (settle i h).
Proof. unfold settle, put_hook, put_result. stable. Qed.
End Trace.

Lemma dispatch_commit_run h sink s :
  hk_hook_dispatch_commit h sink s = ((HK_MUTATION_UNKNOWN, sink), s) ∨
  ∃ r s', hk_hook_dispatch_commit h sink s = (r, s') ∧
    s_trace s' = s_trace s ++ [EvCommit (h_address h)].
Proof.
  assert (Hrun : ∀ callback : M E commit_reply,
    triple (λ s1, s1 = s)
      (trace (EvCommit (h_address h)) ;;;
       reply <- on_engine callback ;;
       ledger <- gets (λ s, l_ledger (s_locals s)) ;;
       recorded <- with_sink reply ledger sink ;;
       on_locals (λ l, l <| l_ledger := recorded.1 |>) ;;;
       ret (cr_mutation reply, recorded.2))
      (λ _ s', s_trace s' = s_trace s ++ [EvCommit (h_address h)])).
  { intros callback. eapply (triple_bind _ _ _ (λ _ s', s_trace s' = s_trace s ++ [EvCommit (h_address h)])).
    { apply triple_modify. by intros s1 ->. }
    intros []. eapply triple_bind; [apply trace_engine|intros reply].
    apply (triple_bind _ _ _ _ _ (trace_gets _ _)). intros ledger.
    eapply triple_bind; [apply trace_sink|intros r].
    eapply triple_bind; [apply trace_locals|intros []]. by apply triple_ret. }
  unfold hk_hook_dispatch_commit. cbv zeta.
  destruct (h_matched_engine h) as [v|]; [|by left].
  destruct (vt_commit_one_ctx v) as [f|].
  { right. eexists _, _. split; [apply surjective_pairing|]. by apply Hrun. }
  destruct (vt_commit_one v) as [f|]; [|by left].
  right. eexists _, _. split; [apply surjective_pairing|]. by apply Hrun.
Qed.

(** An engine without a commit callback changes nothing. *)
Lemma finish_unknown h out start sink owner s :
  let '(h', s') := hk_plan_finish_commit_attempt h out start HK_MUTATION_UNKNOWN sink None owner false s in
  engine_untouched s s' ∧ s_plan s' = s_plan s.
Proof.
  unfold hk_plan_finish_commit_attempt, demote_unrecorded. cbv zeta.
  rewrite andb_false_r. destruct (hk_hook_validate_commit_effects h sink out) as [ok out1].
  replace (if ok then HK_MUTATION_UNKNOWN else HK_MUTATION_UNKNOWN) with HK_MUTATION_UNKNOWN by (by destruct ok).
  unfold bind at 1, ledger_count, gets at 1. unfold bind at 1, catalog_generation, gets at 1.
  unfold bind at 1, hk_hook_apply_verification, ret at 1. cbv zeta. by destruct owner.
Qed.

Lemma dispatch_guarded i h s :
  let s' := (commit_dispatch i h (Ledger.hk_ownership_lookup_locked (default [] (h_target_key h))
               (s_owners s)) s).2 in
  engine_untouched s s' ∨ s_trace s' = s_trace s ++ [EvCommit (h_address h)].
Proof.
  set (o := Ledger.hk_ownership_lookup_locked _ _). cbv zeta.
  remember (commit_dispatch i h o s).2 as s' eqn:Hs'. unfold commit_dispatch, ledger_count in Hs'.
  unfold bind, gets in Hs'. set (sink := hook_sink _ _ _ _) in Hs'.
  destruct (dispatch_commit_run h sink s) as [Hd|([m k] & s1 & Hd & Ht)]; rewrite Hd in Hs'.
  - left. unfold demote_unrecorded in Hs'. rewrite andb_false_r in Hs'.
    repeat (rewrite bool_decide_false in Hs' by done; cbn [andb] in Hs'; cbv beta iota zeta in Hs').
    match type of Hs' with context [hk_plan_finish_commit_attempt h ?x ?st _ sink _ ?w _ s] =>
      pose proof (finish_unknown h x st sink w s) as Hf;
      destruct (hk_plan_finish_commit_attempt h x st HK_MUTATION_UNKNOWN sink None w false s) as [h' s1]
    end.
    subst s'. destruct Hf as [[] Hp]. by constructor.
  - right. rewrite <- Ht, Hs'. cbv beta iota zeta.
    repeat match goal with
    | |- context [let '(_, _) := (if ?b then ?x else ?y) in _] =>
        destruct (if b then x else y) as [? ?]; cbv beta iota zeta
    end.
    match goal with |- context [hk_plan_finish_commit_attempt h ?x ?st ?m ?sk ?g ?w ?c s1] =>
      pose proof (trace_finish _ h x st m sk g w c s1 eq_refl) as Hf;
      destruct (hk_plan_finish_commit_attempt h x st m sk g w c s1) as [h' s2] end.
    exact Hf.
Qed.

Lemma untouched_settle s i h :
  triple (engine_untouched s) (settle i h) (λ _, engine_untouched s).
Proof. intros s1 []. by constructor. Qed.

Lemma untouched_members s generation domain idx :
  triple (engine_untouched s) (mark_members generation domain idx) (λ _, engine_untouched s).
Proof.
  induction idx as [|i idx IH]; cbn [mark_members]; [by apply triple_ret|].
  eapply triple_bind; [by apply (triple_gets _ _ (λ _, engine_untouched s))|]. intros [h|]; [|done].
  destruct (_ || _); [done|]. eapply triple_bind; [apply untouched_settle|]. intros [].
  eapply triple_bind; [exact IH|]. intros n. by apply triple_ret.
Qed.

Lemma untouched_refusal s domain :
  engine_untouched s
    ((blocked <- hk_mark_domain_commit_preflight_failed domain ;;
      on_locals (λ l, l <| l_attempted := l_attempted l + blocked |>
                        <| l_failed := l_failed l + blocked |>)) s).2.
Proof.
  apply (triple_bind (engine_untouched s) _ _ (λ _, engine_untouched s) (λ _, engine_untouched s)); [| |done].
  - unfold hk_mark_domain_commit_preflight_failed, catalog_generation, hook_indices.
    do 2 (eapply triple_bind; [by apply (triple_gets _ _ (λ _, engine_untouched s))|intros ?]).
    apply untouched_members.
  - intros n s1 []. by constructor.
Qed.

(** C10.  The gates of a commit.  Trying a prepared hook either leaves the
    engines' state and everything the process remembers of them untouched, or
    invokes one commit callback, for this hook, and then the hook was analysed
    against the current image generation, every hook it must come after is
    ACTIVE, its domain (when this is the domain's first hook) has passed its
    preflight, and the target is unowned or its owner may be chained by the
    same engine. *)
Theorem commit_one_guarded before i h s :
  let s' := (commit_one before i h s).2 in
  engine_untouched s s' ∨
  (s_trace s' = s_trace s ++ [EvCommit (h_address h)] ∧ may_commit s before h).
Proof.
  cbv zeta. remember (commit_one before i h s).2 as s' eqn:Hs'.
  unfold commit_one, catalog_generation in Hs'.
  unfold bind at 1, gets at 1 in Hs'. unfold bind at 1, gets at 1 in Hs'.
  set (generation := hk_image_catalog_generation _) in Hs'.
  destruct (negb (no_domain h) && _ && _) eqn:Ed in Hs'.
  { left. subst s'. apply untouched_refusal. }
  destruct (negb (_ =? _)) eqn:Eg in Hs'; [left; by subst s'|].
  apply negb_false_iff, Z.eqb_eq in Eg. unfold bind at 1 in Hs'.
  destruct (negb (forallb _ _)) eqn:Ea in Hs'; [left; by subst s'|].
  unfold ownership_lookup, bind at 1, gets, count_attempted, on_locals, modify in Hs'.
  cbv beta iota zeta in Hs'.
  match type of Hs' with context [if ?b then _ else commit_dispatch _ _ _] =>
    destruct b eqn:Eo in Hs' end; [left; by subst s'|].
  match type of Hs' with _ = (commit_dispatch i h ?o ?t).2 =>
    pose proof (dispatch_guarded i h t) as [Hu|Ht] end.
  - left. rewrite Hs'. destruct Hu. by constructor.
  - right. rewrite Hs'. split; [exact Ht|]. constructor; [exact Eg| | |].
    + intros a Ha. apply negb_false_iff in Ea. rewrite forallb_forall in Ea.
      by apply Ea, list_elem_of_In.
    + destruct (no_domain h); [by left|right]. destruct (domain_seen _ _ _); [by left|right].
      by apply negb_false_iff in Ed.
    + intros v Hv. by rewrite Hv in Eo.
Qed.

End Safety.

(** ** At a concrete hook *)

Definition demo_hook : hk_hook unit :=
  Demo.hook 0x100 (Demo.spec "first" 0x4000 0 0 []) [1] HK_OUTCOME_PREPARED.
Definition demo_sink : hk_artifact_sink := Sink zero_id zero_id zero_id 0x5000 None false 0 false 16.
Definition demo_committing : sys unit :=
  Demo.process HK_PLAN_PREPARED HK_OUTCOME_PREPARED
    <| s_locals := no_locals <| l_ledger := Some demo_ledger |> |>.
Local Abbreviation demo_attempt :=
  (hk_plan_finish_commit_attempt demo_hook (h_result demo_hook) 0 HK_MUTATION_COMPLETE demo_sink None
     (Some (Some "hookkit.demo")) false demo_committing).

