(* ===== verification/CommitVerdict.v ===== *)
(** * What a commit reports is what happened

    Every prepared hook is settled exactly once, the counters count what the
    hooks show, the report repeats the hooks' results, and the state the plan is
    left in is the verdict on them. *)

From stdpp Require Import base strings gmap numbers sorting list.
From S2P Require Import Prelude Types Ownership ImageCatalog Artifacts Engine Plan Demo.
From S2P Require Import Dispatch Analyze Prepare PrepareSafety Commit CommitOrder.

(** ** Counting hooks *)
Section Tally.
Context {A : Type} (P : A → bool).

Fixpoint tally (l : list A) : Z :=
  match l with [] => 0 | x :: l => Z.b2z (P x) + tally l end.

Lemma tally_insert l i x y :
  l !! i = Some x → tally (<[i := y]> l) = tally l - Z.b2z (P x) + Z.b2z (P y).
Proof.
  revert i. induction l as [|z l IH]; intros [|i] Hi; simpl in *; try done.
  - injection Hi as ->. lia.
  - rewrite (IH i Hi). lia.
Qed.

Lemma tally_nonneg l : 0 <= tally l.
Proof. induction l as [|x l IH]; cbn; [done|]. destruct (P x); cbn; lia. Qed.

Lemma tally_zero l : tally l = 0 ↔ ∀ i x, l !! i = Some x → P x = false.
Proof.
  induction l as [|z l IH]; cbn; [done|]. pose proof (tally_nonneg l). split.
  - intros H0 [|i] x Hi; cbn in Hi; [injection Hi as <-|].
    + destruct (P z); cbn in *; [lia|done].
    + assert (H1 : tally l = 0) by (destruct (P z); cbn in *; lia). by apply (proj1 IH H1 i).
  - intros H1. rewrite (H1 0%nat z eq_refl). cbn. apply IH. intros i x Hi. by apply (H1 (S i)).
Qed.
End Tally.

Section Verdict.
Context {E : Type}.
Local Abbreviation hook := (hk_hook E).
Local Abbreviation sys := (sys E).
Implicit Types (h : hook) (s : sys) (X : list nat).

Definition outcome h : hk_outcome := r_outcome (h_result h).
Definition is_active h : bool := bool_decide (outcome h = HK_OUTCOME_ACTIVE).
(** What a final outcome says of the mutation. *)
Definition honest (r : hk_hook_result) : Prop :=
  match r_outcome r with
  | HK_OUTCOME_ACTIVE => r_mutation r = HK_MUTATION_COMPLETE
  | HK_OUTCOME_FAILED_SAFE => r_mutation r = HK_MUTATION_NONE
  | HK_OUTCOME_FAILED_PARTIAL => r_mutation r = HK_MUTATION_PARTIAL
  | HK_OUTCOME_FAILED_UNKNOWN => r_mutation r = HK_MUTATION_UNKNOWN
  | HK_OUTCOME_NO_ROUTE => r_mutation r = HK_MUTATION_NONE
  | _ => True
  end.
Definition is_settled h : bool := negb (is_active h) && negb (is_prepared h).

(** What no step of a commit changes about a hook. *)
Record same_hook (h h' : hook) : Prop := {
  sh_address : h_address h' = h_address h;
  sh_id : h_hook_id h' = h_hook_id h;
  sh_spec : h_spec h' = h_spec h;
  sh_key : h_target_key h' = h_target_key h }.

Lemma same_hook_refl h : same_hook h h.
Proof. done. Qed.
Lemma same_hook_result h r : same_hook h (h <| h_result := r |>).
Proof. done. Qed.

Lemma triple_pure {A} (P : sys → Prop) (φ : Prop) (m : M sys A) Q :
  (φ → triple P m Q) → triple (λ s, P s ∧ φ) m Q.
Proof. intros H s [Hs Hφ]. by apply H. Qed.

(** *** Steps that settle no hook

    [s] differs from [s0] in neither the plan nor the results of hooks outside
    [X]; the counters have gone up by [a] and [f]. *)
Record same_as X (s0 : sys) (a f : Z) (s : sys) : Prop := {
  sa_plan : s_plan s = s_plan s0;
  sa_active : l_active (s_locals s) = l_active (s_locals s0) + a;
  sa_failed : l_failed (s_locals s) = l_failed (s_locals s0) + f;
  sa_length : length (l_results (s_locals s)) = length (l_results (s_locals s0));
  sa_results i : i ∉ X → l_results (s_locals s) !! i = l_results (s_locals s0) !! i }.

Lemma same_as_refl X s : same_as X s 0 0 s.
Proof. constructor; try done; lia. Qed.

Section Kept.
Context X (s0 : sys) (a f : Z).
Local Abbreviation kept m := (triple (same_as X s0 a f) m (λ _, same_as X s0 a f)).

Ltac unchanged := intros s []; constructor; done.

Lemma kept_heap {A} (m : M heap A) : kept (on_heap m).
Proof. apply triple_zoom. unchanged. Qed.
Lemma kept_ids {A} (m : M ids A) : kept (on_ids m).
Proof. apply triple_zoom. unchanged. Qed.
Lemma kept_engine {A} (m : M E A) : kept (on_engine m).
Proof. apply triple_zoom. unchanged. Qed.
Lemma kept_trace e : kept (trace (E := E) e).
Proof. apply triple_modify. unchanged. Qed.
Lemma kept_gets {A} (g : sys → A) : kept (gets g).
Proof. by apply triple_gets. Qed.
Lemma kept_ret {A} (x : A) : kept (ret x).
Proof. by apply triple_ret. Qed.
Lemma kept_own h e p : kept (ownership_record h e p).
Proof.
  intros s Hs. unfold ownership_record. destruct (Ledger.hk_ownership_record_locked _ _ _ _ _) as [? [? ?]].
  destruct Hs. by constructor.
Qed.
Lemma kept_installed i o r : kept (installed_create (E := E) i o r).
Proof.
  intros s Hs. unfold installed_create. destruct (hk_installed_record_create _ _ _ _) as [? [? ?]].
  destruct Hs. by constructor.
Qed.
Lemma kept_sink r l k : kept (with_sink (E := E) r l k).
Proof.
  intros s Hs. unfold with_sink. destruct (apply_reply _ _) as [? ?]. destruct Hs. by constructor.
Qed.
Lemma kept_locals g :
  (∀ l, l_active (g l) = l_active l) → (∀ l, l_failed (g l) = l_failed l) →
  (∀ l, length (l_results (g l)) = length (l_results l)) →
  (∀ l i, i ∉ X → l_results (g l) !! i = l_results l !! i) → kept (on_locals (E := E) g).
Proof.
  intros Ha Hf Hl Hr. apply triple_modify. intros s []. constructor; cbn [s_plan s_locals set_field].
  - done.
  - by rewrite Ha.
  - by rewrite Hf.
  - by rewrite Hl.
  - intros i Hi. rewrite Hr by done. auto.
Qed.
Lemma kept_ledger g : kept (on_locals (E := E) (λ l, l <| l_ledger := g l |>)).
Proof. by apply kept_locals. Qed.
Lemma kept_attempted : kept (count_attempted (E := E)).
Proof. by apply kept_locals. Qed.
Lemma kept_put i r : i ∈ X → kept (put_result (E := E) i r).
Proof.
  intros Hi. apply kept_locals; [done|done| |]; intros l; cbn [l_results set_field].
  - apply length_insert.
  - intros j Hj. apply list_lookup_insert_ne. by intros ->.
Qed.
Lemma kept_alter i g :
  i ∈ X → kept (on_locals (E := E) (λ l, l <| l_results := alter g i (l_results l) |>)).
Proof.
  intros Hi. apply kept_locals; [done|done| |]; intros l; cbn [l_results set_field].
  - apply length_alter.
  - intros j Hj. apply list_lookup_alter_ne. by intros ->.
Qed.
End Kept.

#[local] Hint Resolve kept_heap kept_ids kept_engine kept_trace kept_gets kept_ret kept_own
  kept_installed kept_sink kept_ledger kept_attempted kept_put kept_alter : stable.


Lemma counted_active X s0 a f :
  triple (same_as X s0 a f) (count_active (E := E)) (λ _, same_as X s0 (a + 1) f).
Proof. apply triple_modify. intros s []. constructor; try done. cbn. lia. Qed.
Lemma counted_failed X s0 a f :
  triple (same_as X s0 a f) (count_failed (E := E)) (λ _, same_as X s0 a (f + 1)).
Proof. apply triple_modify. intros s []. constructor; try done. cbn. lia. Qed.

(** *** One attempt *)

Lemma kept_dispatch X s0 a f h sink :
  triple (same_as X s0 a f) (hk_hook_dispatch_commit h sink) (λ _, same_as X s0 a f).
Proof. unfold hk_hook_dispatch_commit. cbv zeta. stable. Qed.
Lemma kept_verify X s0 a f h start m out g :
  triple (same_as X s0 a f) (hk_hook_apply_verification h start m out g) (λ _, same_as X s0 a f).
Proof. unfold hk_hook_apply_verification, hk_hook_dispatch_verify, ledger_count. cbv zeta. stable. Qed.
#[local] Hint Resolve kept_dispatch kept_verify : stable.

Lemma kept_publish X s0 a f h original out :
  triple (same_as X s0 a f) (publish_original h original out)
    (λ r s, same_hook h r.1 ∧ (r_outcome r.2 = r_outcome out ∧ r_mutation r.2 = r_mutation out) ∧
              same_as X s0 a f s).
Proof.
  unfold publish_original. destruct (_ =? _); [by apply triple_ret|].
  eapply triple_bind; [apply kept_ids|]. intros id.
  eapply triple_bind; [apply kept_installed|]. intros [r|]; by apply triple_ret.
Qed.

(** A hook that has been tried: it is not PREPARED any more, its outcome is
    honest, and exactly one counter went up. *)
Definition tried X (s0 : sys) h h' s : Prop :=
  same_hook h h' ∧ is_prepared h' = false ∧ honest (h_result h') ∧
  same_as X s0 (Z.b2z (is_active h')) (Z.b2z (negb (is_active h'))) s.

Lemma tried_failed X s0 h out :
  r_outcome out ≠ HK_OUTCOME_PREPARED → r_outcome out ≠ HK_OUTCOME_ACTIVE → honest out →
  triple (same_as X s0 0 0) (count_failed ;;; ret (h <| h_result := out |>)) (tried X s0 h).
Proof.
  intros Hp Ha Hh. eapply triple_bind; [apply counted_failed|]. intros []. apply triple_ret. intros s Hs.
  unfold tried, is_active, is_prepared, outcome. cbn [h_result set_field].
  by rewrite !bool_decide_false.
Qed.

Lemma finish_tried X s0 h out start mutation sink g owner compensated :
  triple (same_as X s0 0 0)
    (hk_plan_finish_commit_attempt h out start mutation sink g owner compensated) (tried X s0 h).
Proof.
  unfold hk_plan_finish_commit_attempt. cbv zeta.
  destruct (hk_hook_validate_commit_effects _ _ _) as [ok out1].
  do 2 (eapply triple_bind; [apply kept_gets|intros ?]).
  eapply triple_bind; [apply kept_verify|]. intros [m out2].
  eapply triple_bind; [stable|]. intros owned.
  destruct compensated; [by apply tried_failed|].
  assert (Hm : r_mutation (if owned then out2 <| r_mutation := m |>
      else core_error HK_STATUS_OUT_OF_MEMORY "could not record target ownership"
             (out2 <| r_mutation := HK_MUTATION_UNKNOWN |>)) = if owned then m else HK_MUTATION_UNKNOWN)
    by (by destruct owned).
  destruct (if owned then m else HK_MUTATION_UNKNOWN); try (by apply tried_failed).
  eapply triple_bind; [apply counted_active|]. intros [].
  eapply triple_bind; [apply kept_publish|]. intros [h' out3]. apply triple_ret. cbn [fst snd].
  intros s (Hsame & [Ho Hmu] & Hs). unfold tried, is_active, is_prepared, honest, outcome.
  cbn [h_result set_field]. rewrite Ho, Hmu. cbn [r_outcome r_mutation set_field outcome_of].
  split_and!; [by destruct Hsame|done|exact Hm|exact Hs].
Qed.


(** *** The invariant of the loop

    [hooks0] are the hooks the commit started with; [X] those whose result slot
    is being worked on, [k] the failures not yet counted, [D] the hooks done. *)
Record verdict_inv (hooks0 : list hook) X (k : Z) (D : list nat) s : Prop := {
  vi_rel : Forall2 (λ h0 h, same_hook h0 h ∧
                           (is_prepared h0 = true ∧ (is_prepared h = false → honest (h_result h)) ∨ h = h0))
             hooks0 (pl_hooks (s_plan s));
  vi_active : l_active (s_locals s) =
    tally is_active (pl_hooks (s_plan s)) - tally is_active hooks0;
  vi_failed : l_failed (s_locals s) + k =
    tally is_settled (pl_hooks (s_plan s)) - tally is_settled hooks0;
  vi_length : length (l_results (s_locals s)) = length (pl_hooks (s_plan s));
  vi_results i : i ∉ X →
    l_results (s_locals s) !! i = h_result <$> pl_hooks (s_plan s) !! i;
  vi_done i h : i ∈ D → pl_hooks (s_plan s) !! i = Some h → is_prepared h = false }.

Lemma inv_same hooks0 X k D s0 s :
  verdict_inv hooks0 X k D s0 → same_as X s0 0 0 s → verdict_inv hooks0 X k D s.
Proof.
  intros [] []. constructor; rewrite ?sa_plan0; try done; try lia.
  intros i Hi. rewrite sa_results0 by done. auto.
Qed.

Lemma inv_weaken hooks0 X X' k D D' s :
  verdict_inv hooks0 X k D s → (∀ i, i ∉ X' → i ∉ X) → (∀ i, i ∈ D' → i ∈ D) →
  verdict_inv hooks0 X' k D' s.
Proof. intros [] HX HD. constructor; auto. intros i h Hi. apply vi_done0. auto. Qed.

Lemma prepared_class h :
  is_prepared h = true → is_active h = false ∧ is_settled h = false.
Proof.
  unfold is_settled, is_active, is_prepared, outcome. intros ->%bool_decide_eq_true. done.
Qed.

Lemma unprepared_class h : is_prepared h = false → is_settled h = negb (is_active h).
Proof. unfold is_settled. intros ->. by rewrite andb_true_r. Qed.

Lemma inv_settle hooks0 X X' k k' D s0 i h h' f s :
  verdict_inv hooks0 X k D s0 → pl_hooks (s_plan s0) !! i = Some h → is_prepared h = true →
  same_hook h h' → is_prepared h' = false → honest (h_result h') →
  same_as X s0 (Z.b2z (is_active h')) f s →
  f + k' - k = Z.b2z (negb (is_active h')) → (∀ j, j ∉ X' → j ≠ i → j ∉ X) →
  verdict_inv hooks0 X' k' (i :: D) (settle i h' s).2.
Proof.
  intros [] Hi Hp Hsame Hp' Hh' [] Hf HX. pose proof (prepared_class h Hp) as [Ha Hs].
  pose proof (unprepared_class h' Hp') as Hs'.
  assert (Hlt := lookup_lt_Some _ _ _ Hi).
  unfold settle, put_hook, put_result, on_plan, on_locals, modify, bind.
  constructor; cbn [fst snd s_plan s_locals pl_hooks l_results l_active l_failed set_field];
    rewrite ?sa_plan0.
  - rewrite <- (list_insert_id hooks0 i (default h (hooks0 !! i))).
    2:{ pose proof (Forall2_lookup_r _ _ _ _ _ vi_rel0 Hi) as (x & -> & _). done. }
    apply Forall2_insert; [done|]. destruct (Forall2_lookup_r _ _ _ _ _ vi_rel0 Hi) as (x & -> & Hx & Hpx).
    cbn. destruct Hx, Hsame. split; [constructor; congruence|]. left.
    split; [|done]. destruct Hpx as [[]|<-]; done.
  - rewrite (tally_insert _ _ _ h) by done. rewrite Ha. cbn [Z.b2z]. lia.
  - rewrite (tally_insert _ _ _ h) by done. rewrite Hs, Hs'. cbn [Z.b2z]. lia.
  - rewrite !length_insert. congruence.
  - intros j Hj. destruct (decide (j = i)) as [->|Hne].
    + rewrite !list_lookup_insert_eq by lia. done.
    + rewrite !list_lookup_insert_ne by done. rewrite sa_results0 by auto. apply vi_results0. auto.
  - intros j x [->|Hj]%elem_of_cons Hx.
    + rewrite list_lookup_insert_eq in Hx by lia. by injection Hx as <-.
    + destruct (decide (j = i)) as [->|Hne].
      * rewrite list_lookup_insert_eq in Hx by lia. by injection Hx as <-.
      * rewrite list_lookup_insert_ne in Hx by done. by apply (vi_done0 j).
Qed.


(** Before hook [i], which is [h], is tried. *)
Definition at_hook hooks0 X k D i h s : Prop :=
  verdict_inv hooks0 X k D s ∧ pl_hooks (s_plan s) !! i = Some h ∧ is_prepared h = true.

Lemma triple_start {A} X (P : sys → Prop) (m : M sys A) Q :
  (∀ s0, P s0 → triple (same_as X s0 0 0) m Q) → triple P m Q.
Proof. intros H s Hs. apply (H s Hs), same_as_refl. Qed.

Lemma settle_tried hooks0 X X' k D s0 i h h' :
  at_hook hooks0 X k D i h s0 → (∀ j, j ∉ X' → j ≠ i → j ∉ X) →
  triple (tried X s0 h h') (settle i h') (λ _, verdict_inv hooks0 X' k (i :: D)).
Proof.
  intros (Hinv & Hi & Hp) HX s (Hsame & Hp' & Hh & Hs).
  eapply inv_settle; try eassumption. by replace (_ + k - k) with (Z.b2z (negb (is_active h'))) by lia.
Qed.

Lemma settle_failed hooks0 k D s0 i h out :
  at_hook hooks0 [] k D i h s0 → r_outcome out ≠ HK_OUTCOME_PREPARED →
  r_outcome out ≠ HK_OUTCOME_ACTIVE → honest out →
  triple (same_as [] s0 0 0) (count_failed ;;; settle i (h <| h_result := out |>))
    (λ _, verdict_inv hooks0 [] k (i :: D)).
Proof.
  intros Hat Hp Ha Hh s Hs. pose proof (tried_failed [] s0 h out Hp Ha Hh s Hs) as Ht.
  by apply (settle_tried hooks0 [] [] k D s0 i h _ Hat ltac:(done) _ Ht).
Qed.

(** A domain refused at its boundary. *)
Definition domain_done (domain : Z) (idx : list nat) s : Prop :=
  ∀ i h, i ∈ idx → pl_hooks (s_plan s) !! i = Some h → hs_domain (h_spec h) = domain →
    is_prepared h = false.

Lemma inv_mark hooks0 X k D i s :
  verdict_inv hooks0 X k D s →
  (∀ h, pl_hooks (s_plan s) !! i = Some h → is_prepared h = false) →
  verdict_inv hooks0 X k (i :: D) s.
Proof. intros [] Hi. constructor; try done. intros j y [->|Hj]%elem_of_cons Hy; [auto|by apply (vi_done0 j)]. Qed.

Lemma inv_domain hooks0 X X' k k' D D' s s' i h' :
  verdict_inv hooks0 X k D s → verdict_inv hooks0 X' k' D' s' →
  pl_hooks (s_plan s') !! i = Some h' →
  ∃ h, pl_hooks (s_plan s) !! i = Some h ∧ h_spec h = h_spec h'.
Proof.
  intros [H _ _ _ _ _] [H' _ _ _ _ _] Hi.
  destruct (Forall2_lookup_r _ _ _ _ _ H' Hi) as (x & Hx & [] & _).
  destruct (Forall2_lookup_l _ _ _ _ _ H Hx) as (h & Hh & [] & _). exists h. split; [done|congruence].
Qed.

Lemma domain_done_cons domain i idx hooks0 X k D s :
  verdict_inv hooks0 X k (i :: D) s → domain_done domain idx s → domain_done domain (i :: idx) s.
Proof.
  intros Hs H j y [->|Hj]%elem_of_cons Hy Hd; [|by apply (H j)].
  apply (vi_done _ _ _ _ _ Hs i); [by left|done].
Qed.

Lemma mark_members_inv hooks0 generation domain idx k D :
  triple (verdict_inv hooks0 [] k D) (mark_members generation domain idx)
    (λ n s, verdict_inv hooks0 [] (k + n) D s ∧ domain_done domain idx s).
Proof.
  revert k D. induction idx as [|i idx IH]; intros k D; cbn [mark_members].
  { apply triple_ret. intros s Hs. rewrite Z.add_0_r. split; [done|]. by intros ? ? ?%not_elem_of_nil. }
  assert (Hout : triple (λ s, verdict_inv hooks0 [] k D s ∧
        ∀ h, pl_hooks (s_plan s) !! i = Some h → hs_domain (h_spec h) ≠ domain)
      (mark_members generation domain idx)
      (λ n s, verdict_inv hooks0 [] (k + n) D s ∧ domain_done domain (i :: idx) s)).
  { intros s [Hs Hd]. destruct (IH k D s Hs) as [H1 H2]. split; [done|].
    intros j y [->|Hj]%elem_of_cons Hy Hdy; [|by apply (H2 j)]. exfalso.
    destruct (inv_domain _ _ _ _ _ _ _ _ _ _ _ Hs H1 Hy) as (h & Hh & He).
    apply (Hd h Hh). by rewrite He. }
  assert (Hin : ∀ k', triple (verdict_inv hooks0 [] k' (i :: D)) (mark_members generation domain idx)
      (λ n s, verdict_inv hooks0 [] (k' + n) D s ∧ domain_done domain (i :: idx) s)).
  { intros k' s Hs. destruct (IH k' (i :: D) s Hs) as [H1 H2]. split; [|by eapply domain_done_cons].
    eapply inv_weaken; [exact H1|done|]. intros j Hj. by right. }
  intros s Hs. unfold get_hook, bind, gets.
  destruct (pl_hooks (s_plan s) !! i) as [h|] eqn:Eh; [|apply (Hout s); split; [done|congruence]].
  destruct (Z.eqb_spec (hs_domain (h_spec h)) domain) as [Ed|Ed]; cbn [negb orb].
  2:{ apply (Hout s). split; [done|]. intros y Hy. by assert (y = h) as -> by congruence. }
  destruct (is_prepared h) eqn:Ep; cbn [negb].
  2:{ apply (Hin k s). apply inv_mark; [done|]. congruence. }
  pose proof (Hin (k + 1) (settle i (h <| h_result := preflight_refusal generation (h_result h) |>) s).2)
    as H. unfold ret.
  destruct (settle _ _ s) as [[] s'] eqn:Es. cbn [snd] in H.
  destruct (mark_members generation domain idx s') as [n s2]. cbn [fst snd] in H |- *.
  rewrite Z.add_assoc. apply H. change s' with (tt, s').2. rewrite <- Es.
  assert (Hr : is_active (h <| h_result := preflight_refusal generation (h_result h) |>) = false ∧
               is_prepared (h <| h_result := preflight_refusal generation (h_result h) |>) = false ∧
               honest (preflight_refusal generation (h_result h)))
    by (unfold preflight_refusal; by destruct (negb _)).
  destruct Hr as (Ha & Hp & Hh). eapply (inv_settle _ [] [] k (k + 1) D s i h _ 0);
    rewrite ?Ha; try done; [apply same_as_refl|cbn; lia].
Qed.

(** *** One hook *)

Lemma triple_get {A B} (P : sys → Prop) (g : sys → A) (k : A → M sys B) Q :
  (∀ x, triple P (k x) Q) → triple P (bind (gets g) k) Q.
Proof. intros H. eapply (triple_bind _ _ _ (λ _, P)); [by apply triple_gets|exact H]. Qed.

Lemma refuse_domain_inv hooks0 D i h :
  triple (at_hook hooks0 [] 0 D i h)
    (blocked <- hk_mark_domain_commit_preflight_failed (hs_domain (h_spec h)) ;;
     on_locals (λ l, l <| l_attempted := l_attempted l + blocked |>
                       <| l_failed := l_failed l + blocked |>))
    (λ _, verdict_inv hooks0 [] 0 (i :: D)).
Proof.
  eapply (triple_bind _ _ _ (λ n s, verdict_inv hooks0 [] n (i :: D) s)).
  - intros s (Hs & Hi & Hp). unfold hk_mark_domain_commit_preflight_failed, catalog_generation,
      hook_indices, bind, gets.
    match goal with |- context [mark_members ?g ?d ?l] =>
      destruct (mark_members_inv hooks0 g d l 0 D s Hs) as [H1 H2] end.
    apply inv_mark; [done|]. intros h' Hh'.
    destruct (inv_domain _ _ _ _ _ _ _ _ _ _ _ Hs H1 Hh') as (x & Hx & Hxs).
    assert (x = h) as -> by congruence. apply (H2 i h'); [|done|by rewrite <- Hxs].
    apply elem_of_seq. apply lookup_lt_Some in Hi. lia.
  - intros n s []. constructor; try done. cbn [s_locals l_failed set_field on_locals modify snd].
    cbn. lia.
Qed.

Lemma kept_ownership X s0 a f h :
  triple (same_as X s0 a f) (ownership_lookup h) (λ _, same_as X s0 a f).
Proof. apply kept_gets. Qed.

Lemma commit_dispatch_inv hooks0 D s0 i h ownership :
  at_hook hooks0 [] 0 D i h s0 →
  triple (same_as [] s0 0 0) (commit_dispatch i h ownership) (λ _, verdict_inv hooks0 [] 0 (i :: D)).
Proof.
  intros Hat. unfold commit_dispatch, ledger_count. do 3 (apply triple_get; intros ?).
  eapply triple_bind; [apply kept_dispatch|]. intros [m sink]. cbv zeta.
  destruct (if bool_decide _ then _ else _) as [m1 out1].
  destruct (if bool_decide _ && _ && _ then _ else _) as [m2 out2].
  eapply triple_bind; [apply finish_tried|]. intros h'. by apply settle_tried with (X := []) (s0 := s0).
Qed.

Lemma commit_one_inv hooks0 D before i h :
  triple (at_hook hooks0 [] 0 D i h) (commit_one before i h) (λ _, verdict_inv hooks0 [] 0 (i :: D)).
Proof.
  unfold commit_one, catalog_generation. do 2 (apply triple_get; intros ?).
  destruct (negb (no_domain h) && _ && _); [apply refuse_domain_inv|].
  apply (triple_start []). intros s0 Hat.
  destruct (negb (_ =? _)); [by apply settle_failed|].
  eapply triple_bind; [apply kept_attempted|]. intros [].
  destruct (negb (forallb _ _)); [by apply settle_failed|].
  eapply triple_bind; [apply kept_ownership|]. intros ownership.
  destruct (match h_matched_engine h with Some _ => _ | None => _ end); [by apply settle_failed|].
  by apply commit_dispatch_inv.
Qed.

(** *** A group *)
Implicit Types cells : list (@group_cell).

Definition cell_indices cells : list nat := gc_index <$> cells.

(** Nothing settled yet, and the cells still stand for [idx]. *)
Definition in_group X (s0 : sys) idx cells s : Prop :=
  same_as X s0 0 0 s ∧ cell_indices cells = idx.

Lemma cell_indices_set ops cells : cell_indices (set_ops ops cells) = cell_indices cells.
Proof.
  unfold cell_indices, set_ops. apply list_eq. intros i.
  rewrite !list_lookup_fmap, list_lookup_imap. by destruct (cells !! i).
Qed.
Lemma cell_indices_map f cells : cell_indices (map_ops f cells) = cell_indices cells.
Proof. unfold cell_indices, map_ops. rewrite <- list_fmap_compose. by apply list_fmap_ext. Qed.
Create Rewrite HintDb cells.
#[local] Hint Rewrite cell_indices_set cell_indices_map : cells.

(** Finish a step of the group: the state is kept, the indices are those of
    the cells it started from. *)
Ltac kept_cells :=
  repeat first
    [ progress intros
    | match goal with
      | |- triple _ (ret _) _ => apply triple_ret; intros; split; [assumption|];
          cbn [fst snd]; repeat case_match; autorewrite with cells; done
      | |- triple _ (bind _ _) _ => eapply triple_bind; [solve [stable]|cbn beta zeta; intros]
      | |- triple _ (if ?b then _ else _) _ => destruct b
      | |- triple _ (match ?x with _ => _ end) _ => destruct x
      end ].

Section Group.
Context X (s0 : sys).
Local Abbreviation group_kept m idx :=
  (triple (same_as X s0 0 0) m (λ r, in_group X s0 idx r.2)).

Lemma group_error_kept code message cells :
  (∀ i, i ∈ cell_indices cells → i ∈ X) →
  triple (same_as X s0 0 0) (group_error (E := E) code message cells) (λ _, same_as X s0 0 0).
Proof.
  intros HX. apply triple_for_each. intros c Hc. apply kept_alter, HX, list_elem_of_fmap_2, Hc.
Qed.

Lemma open_group_kept rv idx :
  (∀ i, i ∈ idx → i ∈ X ∧ is_Some (pl_hooks (s_plan s0) !! i)) →
  triple (same_as X s0 0 0) (open_commit_group rv idx)
    (λ r s, same_as X s0 0 0 s ∧ ∀ cells, r = Some cells → cell_indices cells = idx).
Proof.
  induction idx as [|i idx IH]; intros HX; cbn [open_commit_group].
  { apply triple_ret. intros s Hs. split; [done|]. by intros cells [= <-]. }
  assert (HX' : ∀ j, j ∈ idx → j ∈ X ∧ is_Some (pl_hooks (s_plan s0) !! j)) by (intros j Hj; apply HX; by right).
  destruct (HX i ltac:(by left)) as [HiX [h Hi]]. specialize (IH HX').
  eapply (triple_bind _ _ _ (λ r s, same_as X s0 0 0 s ∧ r = Some h)).
  { apply triple_gets. intros s Hs. split; [done|]. by rewrite (sa_plan _ _ _ _ _ Hs). }
  intros found. apply triple_pure. intros ->.
  eapply triple_bind; [by apply kept_put|intros []].
  eapply triple_bind; [apply kept_attempted|intros []].
  eapply triple_bind; [apply kept_heap|intros [l|]; [|by apply triple_ret]].
  do 2 (apply triple_get; intros ?). cbv zeta.
  eapply triple_bind; [apply IH|]. intros [more|]; apply triple_ret; intros s [Hs Hc]; (split; [done|]).
  - intros cells [= <-]. unfold cell_indices. cbn. f_equal. by apply Hc.
  - done.
Qed.

Lemma revalidate_kept v ctx cells : group_kept (group_revalidate v ctx cells) (cell_indices cells).
Proof. unfold group_revalidate. kept_cells. Qed.
Lemma verify_kept v ctx ok cells : group_kept (group_verify v ctx ok cells) (cell_indices cells).
Proof. unfold group_verify. kept_cells. Qed.

Lemma compensate_kept v ctx needed cells :
  triple (same_as X s0 0 0) (group_compensate v ctx needed cells)
    (λ r, in_group X s0 (cell_indices cells) r).
Proof. unfold group_compensate. kept_cells. Qed.

Lemma record_replies_kept replies i cells :
  triple (same_as X s0 0 0) (record_replies (E := E) replies i cells)
    (λ r, in_group X s0 (cell_indices cells) r).
Proof.
  revert i. induction cells as [|c cells IH]; intros i; cbn [record_replies]; [kept_cells|].
  eapply triple_bind; [apply kept_sink|intros recorded].
  eapply triple_bind; [apply IH|intros more]. apply triple_ret. intros s [Hs Hc].
  split; [done|]. unfold cell_indices in *. cbn. by f_equal.
Qed.

Lemma mutate_kept v ctx ok cells :
  (∀ i, i ∈ cell_indices cells → i ∈ X) →
  group_kept (group_mutate v ctx ok cells) (cell_indices cells).
Proof.
  intros HX. unfold group_mutate. destruct ok; cbn [negb].
  2:{ eapply triple_bind; [by apply group_error_kept|intros []; kept_cells]. }
  destruct (vt_commit_group_ctx v) as [commit|]; [|kept_cells].
  eapply triple_bind.
  { apply triple_for_each. intros c _. unfold get_hook. apply triple_get.
    intros [h|]; [apply kept_trace|apply kept_ret]. }
  intros []. eapply triple_bind; [apply kept_engine|intros reply].
  eapply triple_bind; [apply record_replies_kept|intros cells'].
  assert (H : triple (same_as X s0 0 0) (if reply.1 : bool then ret (true, cells') else
      group_error HK_STATUS_INTERNAL_ERROR "group commit callback failed" cells' ;;;
      ret (false, map_ops (λ o, o <| op_mutation := HK_MUTATION_UNKNOWN |>) cells'))
    (λ r s, cell_indices cells' = cell_indices cells → in_group X s0 (cell_indices cells) r.2 s)).
  { destruct reply.1; [by apply triple_ret|].
    destruct (decide (cell_indices cells' = cell_indices cells)) as [Heq|]; [|by intros ? ? ?].
    eapply triple_bind; [apply group_error_kept; by rewrite Heq|intros []].
    apply triple_ret. intros s Hs _. split; [done|]. cbn [snd]. by autorewrite with cells. }
  intros s [Hs Hc]. by apply H.
Qed.

Lemma own_kept engine_id c :
  gc_index c ∈ X →
  triple (same_as X s0 0 0) (group_own (E := E) engine_id c)
    (λ c' s, same_as X s0 0 0 s ∧ gc_index c' = gc_index c).
Proof.
  intros HX. unfold group_own, get_hook. do 2 (apply triple_get; intros ?).
  destruct x as [h|]; [|by apply triple_ret]. cbv zeta.
  destruct (if bool_decide _ then _ else _) as [m out].
  eapply triple_bind; [stable|intros owned].
  eapply triple_bind; [by apply kept_put|intros []]. by apply triple_ret.
Qed.

Lemma collect_kept c :
  triple (same_as X s0 0 0) (group_collect (E := E) c)
    (λ c' s, same_as X s0 0 0 s ∧ gc_index c' = gc_index c).
Proof.
  unfold group_collect, ledger_count. do 2 (apply triple_get; intros ?).
  eapply triple_bind; [apply kept_heap|intros r].
  eapply triple_bind; [apply kept_ledger|intros []]. by apply triple_ret.
Qed.

Lemma map_cells_kept f cells :
  (∀ c, gc_index c ∈ cell_indices cells → triple (same_as X s0 0 0) (f c)
     (λ c' s, same_as X s0 0 0 s ∧ gc_index c' = gc_index c)) →
  triple (same_as X s0 0 0) (map_cells (E := E) f cells) (λ r, in_group X s0 (cell_indices cells) r).
Proof.
  induction cells as [|c cells IH]; intros Hf; cbn [map_cells]; [kept_cells|].
  eapply triple_bind; [apply Hf; by left|]. intros c' s [Hs Hc].
  assert (H : triple (same_as X s0 0 0) (rest <- map_cells f cells ;; ret (c' :: rest))
    (λ r, in_group X s0 (cell_indices (c :: cells)) r)).
  { eapply triple_bind; [apply IH; intros x Hx; apply Hf; by right|intros rest].
    apply triple_ret. intros s1 [Hs1 Hc1]. split; [done|]. unfold cell_indices in *. cbn. by f_equal. }
  by apply H.
Qed.
End Group.

(** The hooks of [idx] are still prepared. *)
Definition untried (idx : list nat) s : Prop :=
  ∀ i, i ∈ idx → ∃ h, pl_hooks (s_plan s) !! i = Some h ∧ is_prepared h = true.

Lemma finish_one_inv hooks0 D gv c rest :
  NoDup (gc_index c :: rest) →
  triple (λ s, verdict_inv hooks0 (gc_index c :: rest) 0 D s ∧ untried (gc_index c :: rest) s)
    (group_finish gv c)
    (λ _ s, verdict_inv hooks0 rest 0 (gc_index c :: D) s ∧ untried rest s).
Proof.
  intros [Hnew Hrest]%NoDup_cons s0 [Hinv Hun].
  destruct (Hun (gc_index c) ltac:(by left)) as (h & Hh & Hp).
  unfold group_finish, get_hook, bind, gets. rewrite Hh.
  match goal with |- context [hk_plan_finish_commit_attempt h ?o ?st ?m ?k ?g ?w ?q] =>
    pose proof (finish_tried (gc_index c :: rest) s0 h o st m k g w q s0 (same_as_refl _ s0)) as Ht;
    destruct (hk_plan_finish_commit_attempt h o st m k g w q s0) as [h' s]
  end. cbn [fst snd] in Ht. split.
  - eapply (settle_tried hooks0 (gc_index c :: rest) rest 0 D s0 _ h h'); [by split| |exact Ht].
    intros j Hj Hne. by rewrite not_elem_of_cons.
  - destruct Ht as (_ & _ & _ & Hs). intros i Hi. destruct (Hun i ltac:(by right)) as (x & Hx & Hpx).
    exists x. split; [|done].
    match goal with |- pl_hooks (s_plan ?t) !! _ = _ =>
      change (pl_hooks (s_plan t)) with (<[gc_index c := h']> (pl_hooks (s_plan s))) end.
    rewrite (sa_plan _ _ _ _ _ Hs).
    rewrite list_lookup_insert_ne; [done|]. intros Heq. by rewrite Heq in Hnew.
Qed.

Lemma finish_all_inv hooks0 D gv cells :
  NoDup (cell_indices cells) →
  triple (λ s, verdict_inv hooks0 (cell_indices cells) 0 D s ∧ untried (cell_indices cells) s)
    (for_each cells (group_finish gv))
    (λ _, verdict_inv hooks0 [] 0 (reverse (cell_indices cells) ++ D)).
Proof.
  revert D. induction cells as [|c cells IH]; intros D Hnd; cbn [for_each].
  { apply triple_ret. by intros s [Hs _]. }
  eapply triple_bind; [by apply finish_one_inv|]. intros [].
  eapply triple_conseq; [apply IH; by apply NoDup_cons in Hnd as [_ ?]|intros s Hs; exact Hs|].
  intros [] s Hs. unfold cell_indices in *. by rewrite fmap_cons, reverse_cons, <- app_assoc.
Qed.

Lemma compensated_kept X s0 c :
  triple (same_as X s0 0 0) (group_mark_compensated (E := E) c) (λ _, same_as X s0 0 0).
Proof.
  unfold group_mark_compensated. apply triple_when; [intros _|done]. apply triple_get; intros ?.
  apply kept_ledger.
Qed.

(** The group, up to its roll-up: the cells stand for [idx] and nothing is
    settled. *)
Lemma commit_group_inv hooks0 D idx first v :
  NoDup idx → h_matched_engine first = Some v →
  triple (λ s, verdict_inv hooks0 [] 0 D s ∧ untried idx s ∧
               (∃ i rest, idx = i :: rest ∧ pl_hooks (s_plan s) !! i = Some first))
    (hk_plan_commit_group idx)
    (λ st s, st = HK_STATUS_OK → verdict_inv hooks0 [] 0 (reverse idx ++ D) s).
Proof.
  intros Hnd Hv. apply (triple_start idx). intros s0 (Hinv & Hun & i & rest & Hidx & Hfirst).
  unfold hk_plan_commit_group. do 4 (eapply triple_bind; [apply kept_heap|intros ?]).
  destruct (negb _); [by apply triple_ret|].
  eapply (triple_bind _ _ _ (λ r s, same_as idx s0 0 0 s ∧ r = Some first)).
  { rewrite Hidx. apply triple_gets. intros s Hs. split; [done|]. by rewrite (sa_plan _ _ _ _ _ Hs). }
  intros found. apply triple_pure. intros ->. cbn [mbind option_bind]. rewrite Hv. cbv zeta.
  eapply triple_bind.
  { apply open_group_kept. intros j Hj. split; [done|]. destruct (Hun j Hj) as (x & -> & _). done. }
  intros [cells|]; [|apply triple_ret; by intros s []].
  eapply (triple_conseq _ (λ s, same_as idx s0 0 0 s ∧ cell_indices cells = idx));
    [|intros s [Hs Hc]; split; [done|by apply Hc]|intros ? ? H; exact H].
  apply triple_pure. intros Hc.
  eapply triple_bind; [apply revalidate_kept|intros revalidated]. apply triple_pure. intros Hc1.
  eapply triple_bind; [apply mutate_kept; by rewrite Hc1, Hc|intros mutated].
  apply triple_pure. intros Hc2.
  eapply triple_bind; [apply verify_kept|intros verified]. apply triple_pure. intros Hc3.
  eapply triple_bind; [apply compensate_kept|intros cells4]. apply triple_pure. intros Hc4.
  eapply triple_bind.
  { apply map_cells_kept. intros c Hin. apply own_kept. by rewrite <- Hc, <- Hc1, <- Hc2, <- Hc3, <- Hc4. }
  intros cells5. apply triple_pure. intros Hc5.
  eapply triple_bind; [apply map_cells_kept; intros c _; apply collect_kept|intros cells6].
  apply triple_pure. intros Hc6.
  assert (Hall : cell_indices cells6 = idx) by congruence.
  eapply (triple_bind _ _ _ (λ _, verdict_inv hooks0 [] 0 (reverse idx ++ D))).
  { eapply triple_conseq; [apply (finish_all_inv hooks0 D verified.1 cells6); by rewrite Hall| |].
    - intros s Hs. rewrite Hall. split.
      + eapply inv_same; [|exact Hs]. eapply inv_weaken; [exact Hinv| |done].
        intros j _. apply not_elem_of_nil.
      + intros j Hj. rewrite (sa_plan _ _ _ _ _ Hs). by apply Hun.
    - intros [] s Hs. by rewrite <- Hall. }
  intros []. eapply (triple_bind _ _ _ (λ _, verdict_inv hooks0 [] 0 (reverse idx ++ D))).
  { apply triple_for_each. intros c _. apply (triple_start []). intros s1 Hs1.
    eapply triple_conseq; [apply compensated_kept|done|]. intros [] s Hs. by eapply inv_same. }
  intros []. by apply triple_ret.
Qed.

(** *** The loop *)

Definition in_range (p : hk_plan E) (order : list nat) : Prop :=
  ∀ i, i ∈ order → is_Some (pl_hooks p !! i).

Definition all_prepared (p : hk_plan E) (idx : list nat) : Prop :=
  ∀ i, i ∈ idx → ∃ h, pl_hooks p !! i = Some h ∧ is_prepared h = true.

Lemma in_range_cons p i order :
  in_range p (i :: order) → ∃ h, pl_hooks p !! i = Some h ∧ in_range p order ∧
    ordered_hooks p (i :: order) = h :: ordered_hooks p order.
Proof.
  intros H. destruct (H i ltac:(by left)) as [h Hi]. exists h. split_and!; [done| |].
  - intros j Hj. apply H. by right.
  - unfold ordered_hooks. cbn. by rewrite Hi.
Qed.

Lemma all_prepared_cons p i idx h :
  pl_hooks p !! i = Some h → is_prepared h = true → all_prepared p idx → all_prepared p (i :: idx).
Proof. intros Hi Hp H j [->|Hj]%elem_of_cons; [by exists h|by apply H]. Qed.

Lemma wave_prepared p owners generation first wave order :
  in_range p order →
  all_prepared p (take (commit_wave_length owners generation first wave (ordered_hooks p order)) order).
Proof.
  revert wave. induction order as [|i order IH]; intros wave Hr.
  { rewrite take_nil. by intros ? ?%not_elem_of_nil. }
  destruct (in_range_cons p i order Hr) as (h & Hi & Hr' & ->). cbn [commit_wave_length].
  destruct (is_prepared h) eqn:Ep; cbn [negb orb]; [|by intros ? ?%not_elem_of_nil].
  destruct (_ || _); [by intros ? ?%not_elem_of_nil|]. cbn [take].
  apply (all_prepared_cons _ _ _ h); [done..|]. by apply IH.
Qed.

Lemma group_count_spec p owners generation i rest h :
  in_range p (i :: rest) → pl_hooks p !! i = Some h →
  let n := hk_plan_commit_group_count p owners generation (i :: rest) in
  (1 <? n)%nat = true →
  (∃ v, h_matched_engine h = Some v) ∧ all_prepared p (take n (i :: rest)).
Proof.
  intros Hr Hi. destruct (in_range_cons p i rest Hr) as (h' & Hi' & Hr' & Ho).
  assert (h' = h) as -> by congruence. unfold hk_plan_commit_group_count. rewrite Ho.
  destruct (is_prepared h) eqn:Ep; cbn [negb orb]; [|done].
  destruct (_ || _); [done|]. destruct (h_matched_engine h) as [v|]; [|done].
  destruct (_ && _); [|done]. destruct (1 <? S _)%nat eqn:En; [|done]. intros _.
  split; [by exists v|]. cbn [take]. apply (all_prepared_cons _ _ _ h); [done..|]. by apply wave_prepared.
Qed.

Lemma inv_in_range hooks0 X k D s order :
  verdict_inv hooks0 X k D s → (∀ i, i ∈ order → is_Some (hooks0 !! i)) → in_range (s_plan s) order.
Proof.
  intros [H _ _ _ _ _] Hr i Hi. destruct (Hr i Hi) as [x Hx].
  destruct (Forall2_lookup_l _ _ _ _ _ H Hx) as (h & Hh & _). by exists h.
Qed.

(** Every hook of the order is done, whatever [D] says. *)
Definition loop_post hooks0 (D order : list nat) (st : hk_status) s : Prop :=
  st = HK_STATUS_OK →
  ∃ D', verdict_inv hooks0 [] 0 D' s ∧ ∀ i, i ∈ D ∨ i ∈ order → i ∈ D'.

Lemma loop_post_cons hooks0 D D1 i rest st s :
  loop_post hooks0 D1 rest st s → (∀ j, j ∈ D ∨ j = i → j ∈ D1) → loop_post hooks0 D (i :: rest) st s.
Proof.
  intros H HD Hst. destruct (H Hst) as (D' & Hinv & HD'). exists D'. split; [done|].
  intros j. rewrite elem_of_cons. intros [Hj|[->|Hj]]; apply HD'; auto.
Qed.

Lemma nodup_take {A} n (l : list A) : NoDup l → NoDup (take n l).
Proof. rewrite <- (take_drop n l) at 1. by intros (H & _ & _)%NoDup_app. Qed.

Lemma inv_put hooks0 k D s i h :
  verdict_inv hooks0 [] k D s → pl_hooks (s_plan s) !! i = Some h →
  verdict_inv hooks0 [] k D (put_result i (h_result h) s).2.
Proof.
  intros [] Hi. unfold put_result, on_locals, modify.
  constructor; cbn [snd s_plan s_locals l_results l_active l_failed set_field]; try done.
  - by rewrite length_insert.
  - intros j Hj. destruct (decide (j = i)) as [->|Hne].
    + rewrite list_lookup_insert_eq by (rewrite vi_length0; by eapply lookup_lt_Some). by rewrite Hi.
    + rewrite list_lookup_insert_ne by done. by apply vi_results0.
Qed.

Lemma commit_loop_inv hooks0 order before skip D :
  NoDup order → (∀ i, i ∈ order → is_Some (hooks0 !! i)) → (∀ i, i ∈ take skip order → i ∈ D) →
  triple (verdict_inv hooks0 [] 0 D) (commit_loop before order skip) (loop_post hooks0 D order).
Proof.
  revert before skip D. induction order as [|i rest IH]; intros before skip D Hnd Hr Hskip;
    cbn [commit_loop].
  { apply triple_ret. intros s Hs _. exists D. split; [done|]. by intros j [Hj|?%not_elem_of_nil]. }
  apply NoDup_cons in Hnd as [Hni Hnd].
  assert (Hr' : ∀ j, j ∈ rest → is_Some (hooks0 !! j)) by (intros j Hj; apply Hr; by right).
  destruct skip as [|skip].
  2:{ eapply triple_conseq; [apply (IH _ skip D); try done|done|].
      - intros j Hj. apply Hskip. by right.
      - intros st s H. eapply loop_post_cons; [exact H|]. intros j [Hj| ->]; [done|].
        apply Hskip. by left. }
  apply (triple_start []). intros s0 Hs0.
  pose proof (inv_in_range _ _ _ _ _ _ Hs0 Hr) as Hrange.
  destruct (Hrange i ltac:(by left)) as [h Hi].
  eapply (triple_bind _ _ _ (λ r s, same_as [] s0 0 0 s ∧ r = Some h)).
  { apply triple_gets. intros s Hs. split; [done|]. by rewrite (sa_plan _ _ _ _ _ Hs). }
  intros found. apply triple_pure. intros ->.
  eapply (triple_bind _ _ _ (λ _ s, verdict_inv hooks0 [] 0 D s ∧ s_plan s = s_plan s0)).
  { intros s Hs. split; [|exact (sa_plan _ _ _ _ _ Hs)]. apply inv_put.
    - by eapply inv_same.
    - by rewrite (sa_plan _ _ _ _ _ Hs). }
  intros []. destruct (is_prepared h) eqn:Ep; cbn [negb].
  2:{ eapply (triple_conseq _ (verdict_inv hooks0 [] 0 (i :: D))).
      - apply (IH _ 0%nat (i :: D)); try done. intros j ?%not_elem_of_nil. done.
      - intros s [Hs Hp]. apply inv_mark; [done|]. rewrite Hp. congruence.
      - intros st s H. eapply loop_post_cons; [exact H|]. intros j. rewrite elem_of_cons. tauto. }
  eapply (triple_bind _ _ _ (λ p s, (verdict_inv hooks0 [] 0 D s ∧ s_plan s = s_plan s0) ∧ p = s_plan s0)).
  { apply triple_gets. by intros s [Hs Hp]. }
  intros p. apply triple_pure. intros ->. do 2 (apply triple_get; intros ?). cbv zeta.
  destruct (1 <? hk_plan_commit_group_count _ _ _ _)%nat eqn:Ec.
  - destruct (group_count_spec _ _ _ _ _ _ Hrange Hi Ec) as [[v Hv] Hall].
    destruct (hk_plan_commit_group_count _ _ _ _) as [|n] eqn:En; [done|]. cbn [take] in Hall |- *.
    eapply triple_bind.
    { eapply triple_conseq; [apply (commit_group_inv hooks0 D (i :: take n rest) h v)| |].
      - by apply (nodup_take (S n) (i :: rest)), NoDup_cons.
      - done.
      - intros s [Hs Hp]. split_and!; [done|unfold untried; by rewrite Hp|].
        exists i, (take n rest). by rewrite Hp.
      - intros st s H. exact H. }
    intros st. destruct st; try (apply triple_ret; done).
    cbn [Nat.sub]. rewrite Nat.sub_0_r.
    eapply (triple_conseq _ (verdict_inv hooks0 [] 0 (reverse (i :: take n rest) ++ D))).
    + apply (IH _ n (reverse (i :: take n rest) ++ D)); try done.
      intros j Hj. apply elem_of_app. left. rewrite elem_of_reverse. by right.
    + intros s H. by apply H.
    + intros st s H. eapply loop_post_cons; [exact H|].
      intros j Hj. rewrite elem_of_app, elem_of_reverse, elem_of_cons. tauto.
  - eapply (triple_bind _ _ _ (λ _, verdict_inv hooks0 [] 0 (i :: D))).
    { eapply triple_conseq; [apply (commit_one_inv hooks0 D before i h)| |done].
      intros s [Hs Hp]. by rewrite <- Hp in Hi. }
    intros []. eapply triple_conseq; [apply (IH _ 0%nat (i :: D)); try done| |].
    + intros j ?%not_elem_of_nil. done.
    + intros s H. exact H.
    + intros st s H. eapply loop_post_cons; [exact H|]. intros j. rewrite elem_of_cons. tauto.
Qed.

(** *** The whole call *)

Lemma kept_report X s0 a f r :
  triple (same_as X s0 a f) (report_create (E := E) r) (λ _, same_as X s0 a f).
Proof.
  intros s []. unfold report_create. destruct (hk_report_create _ _) as [? [? ?]]. by constructor.
Qed.

Lemma report_results (l : list hk_hook_result) s r :
  (report_create (E := E) l s).1 = Some r → rp_results r = l.
Proof.
  unfold report_create. destruct (hk_report_create l _) as [[r'|] [h i]] eqn:Hr; [|done].
  cbn [fst]. intros [= <-]. unfold hk_report_create in Hr.
  destruct (alloc (s_heap s)) as [ok h1]. destruct ok; cbn [negb] in Hr; [|done].
  destruct (hk_id_generate (s_ids s)) as [id i1].
  destruct (hk_artifact_ledger_create h1) as [[a|] h2]; [|done].
  destruct (match l with [] => (true, h2) | _ => alloc h2 end) as [ok h3].
  destruct ok; cbn [negb] in Hr; [|done]. by injection Hr as <- _ _.
Qed.

Lemma kept_publish_artifacts X s0 a f :
  triple (same_as X s0 a f) (publish_artifacts (E := E)) (λ _, same_as X s0 a f).
Proof.
  unfold publish_artifacts. do 2 (apply triple_get; intros ?).
  eapply triple_bind; [apply kept_heap|intros r].
  eapply (triple_bind _ _ _ (λ _, same_as X s0 a f)); [apply triple_modify; intros s []; by constructor|intros []].
  apply triple_get; intros ?. eapply triple_bind; [apply kept_heap|intros r'].
  apply triple_modify. intros s []; by constructor.
Qed.

(** The verdict: [hooks0] before, [hooks] after, the report and the state. *)
Record verdict (hooks0 hooks : list hook) (report : option hk_report) (state : hk_plan_state)
    : Prop := {
  ve_hooks : Forall2 (λ h0 h, same_hook h0 h ∧ is_prepared h = false ∧
                              (is_prepared h0 = true → honest (h_result h)) ∧
                              (is_prepared h0 = false → h = h0)) hooks0 hooks;
  ve_report : ∃ r, report = Some r ∧ rp_results r = h_result <$> hooks;
  ve_state : state = HK_PLAN_COMMITTED ∨ state = HK_PLAN_PARTIAL ∨ state = HK_PLAN_FAILED;
  ve_committed : state = HK_PLAN_COMMITTED ↔
    ∀ i h0 h, hooks0 !! i = Some h0 → hooks !! i = Some h → is_prepared h0 = true →
      is_active h = true;
  ve_failed : state = HK_PLAN_FAILED →
    ∀ i h0 h, hooks0 !! i = Some h0 → hooks !! i = Some h → is_prepared h0 = true →
      is_active h = false }.

(** A counter's change counts the pairs of a prepared hook and what became of it. *)
Definition became (P : hook → bool) (hs : hook * hook) : bool := is_prepared hs.1 && P hs.2.

Lemma tally_change P hooks0 hooks :
  (∀ h, is_prepared h = true → P h = false) →
  Forall2 (λ h0 h, is_prepared h0 = false → h = h0) hooks0 hooks →
  tally P hooks - tally P hooks0 = tally (became P) (zip hooks0 hooks).
Proof.
  intros HP. induction 1 as [|h0 h hooks0 hooks Heq _ IH]; [done|]. cbn.
  unfold became at 1. cbn [fst snd]. destruct (is_prepared h0) eqn:Ep; cbn [andb Z.b2z].
  - rewrite (HP h0 Ep). cbn. lia.
  - rewrite Heq by done. lia.
Qed.

Lemma became_none P hooks0 hooks :
  length hooks0 = length hooks →
  tally (became P) (zip hooks0 hooks) = 0 ↔
  ∀ i h0 h, hooks0 !! i = Some h0 → hooks !! i = Some h → is_prepared h0 = true → P h = false.
Proof.
  intros Hlen. rewrite tally_zero. unfold became. split.
  - intros H i h0 h H0 Hh Hp. specialize (H i (h0, h)). rewrite lookup_zip_with_Some in H.
    cbn in H. rewrite Hp in H. apply H. by exists h0, h.
  - intros H i [h0 h] (x & y & [= -> ->] & Hx & Hy)%lookup_zip_with_Some. cbn.
    destruct (is_prepared x) eqn:Ep; [|done]. by apply (H i x y).
Qed.

Lemma verdict_of hooks0 D s report :
  verdict_inv hooks0 [] 0 D s → (∀ i h, hooks0 !! i = Some h → is_prepared h = true → i ∈ D) →
  (∃ r, report = Some r ∧ rp_results r = l_results (s_locals s)) →
  verdict hooks0 (pl_hooks (s_plan s)) report (committed_plan_state (s_locals s)).
Proof.
  intros [] HD (r & Hr & Hres). set (hooks := pl_hooks (s_plan s)) in *.
  assert (Hf : Forall2 (λ h0 h, same_hook h0 h ∧ is_prepared h = false ∧
                                (is_prepared h0 = true → honest (h_result h)) ∧
                                (is_prepared h0 = false → h = h0)) hooks0 hooks).
  { apply Forall2_same_length_lookup. split; [by eapply Forall2_length|].
    intros i h0 h H0 Hh. destruct (Forall2_lookup_lr _ _ _ _ _ _ vi_rel0 H0 Hh) as [Hs Hc].
    destruct Hc as [[Hp Hho]| ->].
    - assert (Hp' : is_prepared h = false) by (by apply (vi_done0 i); [eapply HD|]).
      split_and!; [done|done|by intros _; apply Hho|congruence].
    - assert (Hp' : is_prepared h0 = false).
      { destruct (is_prepared h0) eqn:Ep; [|done]. rewrite <- Ep. by apply (vi_done0 i); [eapply HD|]. }
      split_and!; [done|done|congruence|done]. }
  assert (Hu : Forall2 (λ h0 h, is_prepared h0 = false → h = h0) hooks0 hooks)
    by (eapply Forall2_impl; [exact Hf|naive_solver]).
  assert (Hlen := Forall2_length _ _ _ Hf).
  rewrite (tally_change is_active) in vi_active0 by (done || apply prepared_class).
  rewrite (tally_change is_settled), Z.add_0_r in vi_failed0 by (done || apply prepared_class).
  pose proof (became_none is_active hooks0 hooks Hlen) as Ha.
  pose proof (became_none is_settled hooks0 hooks Hlen) as Hs.
  assert (Hclass : ∀ i h, hooks !! i = Some h → is_settled h = negb (is_active h)).
  { intros i h Hh. destruct (Forall2_lookup_r _ _ _ _ _ Hf Hh) as (x & _ & _ & Hp & _).
    by apply unprepared_class. }
  assert (Hcommitted : l_failed (s_locals s) = 0 ↔ ∀ i h0 h, hooks0 !! i = Some h0 →
    hooks !! i = Some h → is_prepared h0 = true → is_active h = true).
  { rewrite vi_failed0, Hs. split; intros H i h0 h H0 Hh Hp; specialize (H i h0 h H0 Hh Hp);
      pose proof (Hclass i h Hh); destruct (is_active h); cbn in *; congruence. }
  constructor; [done| | | |].
  - exists r. split; [done|]. rewrite Hres. apply list_eq. intros i. rewrite list_lookup_fmap.
    apply vi_results0, not_elem_of_nil.
  - unfold committed_plan_state. repeat case_match; auto.
  - rewrite <- Hcommitted. unfold committed_plan_state. destruct (Z.eqb_spec (l_failed (s_locals s)) 0);
      repeat case_match; (split; [congruence|done]).
  - unfold committed_plan_state. destruct (l_failed _ =? 0); [done|].
    destruct (Z.eqb_spec (l_active (s_locals s)) 0) as [H0|]; cbn [andb]; [|done]. intros _.
    apply Ha. congruence.
Qed.

Lemma prepared_in_order (p : hk_plan E) order i h :
  order ≡ₚ prepared_indices p → pl_hooks p !! i = Some h → is_prepared h = true → i ∈ order.
Proof. intros Hperm Hi Hp. rewrite Hperm. apply elem_of_prepared_indices. by exists h. Qed.

Lemma order_in_range (p : hk_plan E) order :
  order ≡ₚ prepared_indices p → ∀ i, i ∈ order → is_Some (pl_hooks p !! i).
Proof. intros Hperm i Hi. rewrite Hperm in Hi. by apply elem_of_prepared_indices in Hi as (h & -> & _). Qed.

Lemma order_nodup (p : hk_plan E) order : order ≡ₚ prepared_indices p → NoDup order.
Proof. intros Hperm. rewrite Hperm. apply sorted_lt_NoDup, prepared_from_sorted. Qed.

(** The lifecycle call after the order is known. *)
Lemma commit_run_verdict (s : sys) order ledger :
  order ≡ₚ prepared_indices (s_plan s) →
  triple (λ s1, s_plan s1 = s_plan s)
    (on_locals (λ _, no_locals <| l_results := h_result <$> pl_hooks (s_plan s) |>
                               <| l_ledger := ledger |>) ;;;
     status <- commit_loop [] order 0 ;;
     match status with
     | HK_STATUS_OK =>
         l <- gets s_locals ;;
         report <- report_create (l_results l) ;;
         match report with
         | None => ret (HK_STATUS_OUT_OF_MEMORY, None)
         | Some r =>
             publish_artifacts ;;;
             on_plan (λ p, p <| pl_state := committed_plan_state l |>) ;;;
             ret (HK_STATUS_OK, hk_report_adopt_artifact_ledger (Some r) (l_ledger l))
         end
     | _ => ret (status, None)
     end)
    (λ r s', r.1 = HK_STATUS_OK →
       verdict (pl_hooks (s_plan s)) (pl_hooks (s_plan s')) r.2 (pl_state (s_plan s'))).
Proof.
  intros Hperm. set (hooks0 := pl_hooks (s_plan s)).
  eapply (triple_bind _ _ _ (λ _, verdict_inv hooks0 [] 0 [])).
  { intros s1 Hp. unfold on_locals, modify.
    constructor; cbn [snd s_plan s_locals l_active l_failed l_results set_field no_locals];
      rewrite ?Hp; fold hooks0; try lia.
    - apply Forall_Forall2_diag, Forall_forall. intros h _. split; [done|by right].
    - by rewrite length_fmap.
    - intros i _. by rewrite list_lookup_fmap.
    - by intros i h ?%not_elem_of_nil. }
  intros []. eapply triple_bind.
  { apply (commit_loop_inv hooks0 order [] 0 []); [by eapply order_nodup|by apply order_in_range|].
    by intros i ?%not_elem_of_nil. }
  intros status. destruct status; try (apply triple_ret; done).
  apply (triple_start []). intros s0 (D & Hinv & HD); [done|].
  assert (HP : ∀ i h, hooks0 !! i = Some h → is_prepared h = true → i ∈ D).
  { intros i h Hi Hp. apply HD. right. by eapply prepared_in_order. }
  intros s1 Hs1. pose proof (inv_same _ _ _ _ _ _ Hinv Hs1) as Hinv1. clear Hinv.
  unfold bind, gets.
  pose proof (report_results (l_results (s_locals s1)) s1) as Hres.
  pose proof (kept_report [] s1 0 0 (l_results (s_locals s1)) s1 (same_as_refl _ _)) as Hs2.
  destruct (report_create _ s1) as [[r|] s2]; cbn [fst snd] in Hres, Hs2 |- *; [|done].
  pose proof (kept_publish_artifacts [] s1 0 0 s2 Hs2) as Hs3.
  destruct (publish_artifacts s2) as [[] s3]. cbn [fst snd] in Hs3 |- *. intros _.
  cbn [on_plan modify ret fst snd s_plan pl_hooks pl_state set_field].
  change (verdict hooks0 (pl_hooks (s_plan s3))
    (hk_report_adopt_artifact_ledger (Some r) (l_ledger (s_locals s1))) (committed_plan_state (s_locals s1))).
  rewrite (sa_plan _ _ _ _ _ Hs3). eapply verdict_of; [exact Hinv1|exact HP|].
  eexists. split; [done|]. cbn. by apply Hres.
Qed.

(** The whole call, from [s]. *)
Lemma commit_settles (s : sys) :
  order_wf (s_plan s) →
  triple (λ s1, s1 = s) (hk_plan_commit true) (λ r s', r.1 = HK_STATUS_OK →
    (pl_state (s_plan s) = HK_PLAN_PREPARED ∨ pl_state (s_plan s) = HK_PLAN_PARTIAL) ∧
    verdict (pl_hooks (s_plan s)) (pl_hooks (s_plan s')) r.2 (pl_state (s_plan s'))).
Proof.
  intros W. unfold hk_plan_commit.
  eapply (triple_bind _ _ _ (λ p s1, same_as [] s 0 0 s1 ∧ p = s_plan s)).
  { intros s1 ->. split; [apply same_as_refl|done]. }
  intros p. apply triple_pure. intros ->. cbn [negb].
  destruct (negb (bool_decide (pl_state (s_plan s) = HK_PLAN_PREPARED)) &&
            negb (bool_decide (pl_state (s_plan s) = HK_PLAN_PARTIAL))) eqn:Est; [by apply triple_ret|].
  assert (Hst : pl_state (s_plan s) = HK_PLAN_PREPARED ∨ pl_state (s_plan s) = HK_PLAN_PARTIAL).
  { apply andb_false_iff in Est as [Hb|Hb]; apply negb_false_iff, bool_decide_eq_true in Hb; auto. }
  eapply triple_bind; [apply kept_heap|intros buffer]. destruct (negb buffer); [by apply triple_ret|].
  eapply triple_bind; [apply kept_heap|intros [l|]; [|by apply triple_ret]].
  eapply (triple_bind _ _ _ (λ r s1, same_as [] s 0 0 s1 ∧ ∀ order, r = Some order → order ≡ₚ prepared_indices (s_plan s))).
  { intros s1 Hs. split; [by apply kept_heap|]. intros order. unfold on_heap, zoom.
    destruct (hk_build_commit_order (s_plan s) (s_heap s1)) as [r h] eqn:Eo. cbn. intros ->.
    by eapply build_order_perm. }
  intros [order|]; [|by apply triple_ret].
  intros s1 [Hs Hperm]. pose proof (commit_run_verdict s order (Some l) (Hperm _ eq_refl) s1 (sa_plan _ _ _ _ _ Hs)) as H.
  intros Hok. split; [done|]. by apply H.
Qed.

(** C2.  The verdict of a commit.  When committing a plan returns OK, every hook
    that was prepared has been settled, with an outcome that is honest about the
    mutation (ACTIVE is a complete one, FAILED_SAFE none), and every other hook is
    untouched; the report repeats the hooks' results; the plan is COMMITTED exactly when every
    prepared hook became ACTIVE, FAILED only when none did, and otherwise
    PARTIAL.  It returns OK only from PREPARED or PARTIAL, and any other status
    comes without a report. *)
Theorem commit_verdict (s : sys) :
  order_wf (s_plan s) →
  let '((status, report), s') := hk_plan_commit true s in
  match status with
  | HK_STATUS_OK =>
      (pl_state (s_plan s) = HK_PLAN_PREPARED ∨ pl_state (s_plan s) = HK_PLAN_PARTIAL) ∧
      verdict (pl_hooks (s_plan s)) (pl_hooks (s_plan s')) report (pl_state (s_plan s'))
  | _ => True
  end.
Proof.
  intros W. pose proof (commit_settles s W s eq_refl) as H.
  by destruct (hk_plan_commit true s) as [[[] report] s']; try done; apply H.
Qed.
End Verdict.

Definition demo_process : sys unit := Demo.process HK_PLAN_PREPARED HK_OUTCOME_PREPARED.

Lemma commit_verdict_witness :
  ∃ report s', hk_plan_commit true demo_process = ((HK_STATUS_OK, report), s') ∧
    pl_state (s_plan s') = HK_PLAN_COMMITTED ∧
    Forall (λ h, is_active h = true) (pl_hooks (s_plan s')).
Proof.
  pose proof (commit_verdict demo_process (demo_order_wf _ _)) as H.
  assert (Hok : (hk_plan_commit true demo_process).1.1 = HK_STATUS_OK) by (vm_compute; reflexivity).
  assert (Hst : pl_state (s_plan (hk_plan_commit true demo_process).2) = HK_PLAN_COMMITTED)
    by (vm_compute; reflexivity).
  destruct (hk_plan_commit true demo_process) as [[st report] s'].
  cbn [fst snd] in Hok, Hst. rewrite Hok in H |- *. destruct H as [_ []].
  exists report, s'. split_and!; [done|done|].
  apply Forall_lookup. intros i h Hh.
  destruct (Forall2_lookup_r _ _ _ _ _ ve_hooks0 Hh) as (h0 & H0 & _).
  apply (proj1 ve_committed0 Hst i h0 h H0 Hh).
  by destruct i as [|[|[|i]]]; try done; injection H0 as <-.
Defined.
