(* ===== verification/PrepareKeeps.v ===== *)
(** * What analysis and preparation keep of the hooks

    A hook keeps its address, identifier, specification and target key until it
    is committed, and no result says that anything was mutated, in its mutation
    state or in its outcome. *)

From stdpp Require Import base strings gmap numbers list.
From S2P Require Import Prelude Types Ownership ImageCatalog Artifacts Engine Plan Dispatch.
From S2P Require Import Analyze Prepare PrepareSafety Commit CommitVerdict.

Section Keeps.
Context {E : Type}.
Local Abbreviation hook := (hk_hook E).
Local Abbreviation sys := (sys E).
Implicit Types (h : hook) (s : sys).

Definition unmutated (r : hk_hook_result) : Prop := r_mutation r = HK_MUTATION_NONE ∧ honest r.

(** The same account of the mutation. *)
Definition same_verdict (r r' : hk_hook_result) : Prop :=
  r_mutation r' = r_mutation r ∧ r_outcome r' = r_outcome r.

Lemma unmutated_same r r' : unmutated r → same_verdict r r' → unmutated r'.
Proof. intros [Hm Hh] [E1 E2]. unfold unmutated, honest in *. rewrite E1, E2. done. Qed.

(** One step of a hook's preparation. *)
Definition stepped h h' : Prop :=
  same_hook h h' ∧ same_verdict (h_result h) (h_result h').

Lemma stepped_refl h : stepped h h.
Proof. done. Qed.
Lemma same_hook_trans h1 h2 h3 : same_hook h1 h2 → same_hook h2 h3 → same_hook h1 h3.
Proof. intros [] []. constructor; congruence. Qed.
Lemma stepped_trans h1 h2 h3 : stepped h1 h2 → stepped h2 h3 → stepped h1 h3.
Proof. intros [H1 [E1 F1]] [H2 [E2 F2]]. split; [by eapply same_hook_trans|]. split; congruence. Qed.

(** The hooks are those of [hooks0], and nothing says it was mutated. *)
Definition alike h0 h : Prop := same_hook h0 h ∧ unmutated (h_result h).
Definition quiet (hooks0 : list hook) s : Prop :=
  Forall2 alike hooks0 (pl_hooks (s_plan s)) ∧ Forall unmutated (l_results (s_locals s)).

Section Quiet.
Context (hooks0 : list hook).
Local Abbreviation kept m := (triple (quiet hooks0) m (λ _, quiet hooks0)).
Local Abbreviation steps h m := (triple (quiet hooks0) m (λ h' s, stepped h h' ∧ quiet hooks0 s)).

Lemma triple_given {A} (φ : Prop) (m : M sys A) Q :
  (φ → triple (quiet hooks0) m Q) → triple (λ s, φ ∧ quiet hooks0 s) m Q.
Proof. intros H s [Hφ Hs]. by apply H. Qed.

(** The hook may go to index [i]. *)
Definition fits (i : nat) h : Prop :=
  unmutated (h_result h) ∧ ∀ h0, hooks0 !! i = Some h0 → same_hook h0 h.

Lemma fits_stepped i h h' : fits i h → stepped h h' → fits i h'.
Proof.
  intros [Hm Hs] [Hsame Heq]. split; [by eapply unmutated_same|].
  intros h0 H0. by eapply same_hook_trans; [apply Hs|].
Qed.

Lemma fits_result i h r : fits i h → unmutated r → fits i (h <| h_result := r |>).
Proof. intros [_ Hs] Hr. split; [done|]. intros h0 H0. by destruct (Hs h0 H0). Qed.

Lemma quiet_heap {A} (m : M heap A) : kept (on_heap m).
Proof. by apply triple_zoom. Qed.
Lemma quiet_ids {A} (m : M ids A) : kept (on_ids m).
Proof. by apply triple_zoom. Qed.
Lemma quiet_engine {A} (m : M E A) : kept (on_engine m).
Proof. by apply triple_zoom. Qed.
Lemma quiet_trace e : kept (trace (E := E) e).
Proof. by apply triple_modify. Qed.
Lemma quiet_gets {A} (f : sys → A) : kept (gets f).
Proof. by apply triple_gets. Qed.
Lemma kept_return {A} (a : A) : kept (ret a).
Proof. by apply triple_ret. Qed.
Lemma quiet_locals g : (∀ l, l_results (g l) = l_results l) → kept (on_locals (E := E) g).
Proof. intros Hg. apply triple_modify. intros s [Hh Hr]. split; [done|]. cbn. by rewrite Hg. Qed.
Lemma quiet_state st : kept (on_plan (E := E) (λ p, p <| pl_state := st |>)).
Proof. by apply triple_modify. Qed.
#[local] Hint Resolve quiet_heap quiet_ids quiet_engine quiet_trace quiet_gets kept_return quiet_state : stable.

Lemma quiet_report r : kept (report_create (E := E) r).
Proof. intros s H. unfold report_create. by destruct (hk_report_create _ _) as [? [? ?]]. Qed.
#[local] Hint Resolve quiet_report : stable.

Lemma put_hook_quiet i h : fits i h → kept (put_hook i h).
Proof.
  intros [Hm Hs]. apply triple_modify. intros s [Hh Hr]. split; [|done]. cbn.
  destruct (hooks0 !! i) as [h0|] eqn:E0.
  - rewrite <- (list_insert_id hooks0 i h0) by done. apply Forall2_insert; [done|]. split; [by apply Hs|done].
  - rewrite list_insert_ge; [done|]. rewrite <- (Forall2_length _ _ _ Hh). by apply lookup_ge_None.
Qed.
Lemma put_result_quiet i r : unmutated r → kept (put_result (E := E) i r).
Proof. intros Hr. apply triple_modify. intros s [Hh Hl]. split; [done|]. by apply Forall_insert. Qed.
Lemma settle_quiet i h : fits i h → kept (settle i h).
Proof.
  intros H. eapply triple_bind; [by apply put_hook_quiet|intros []]. by apply put_result_quiet, H.
Qed.

(** Reading a hook. *)
Lemma get_hook_quiet i :
  triple (quiet hooks0) (get_hook i) (λ found s, (∀ h, found = Some h → fits i h) ∧ quiet hooks0 s).
Proof.
  apply triple_gets. intros s [Hh Hr]. split; [|done]. intros h Hi.
  destruct (Forall2_lookup_r _ _ _ _ _ Hh Hi) as (h0 & H0 & Hs & Hm). split; [done|]. congruence.
Qed.

Lemma with_hook {A} i (k : option hook → M sys A) Q :
  (∀ found, (∀ h, found = Some h → fits i h) → triple (quiet hooks0) (k found) Q) →
  triple (quiet hooks0) (bind (get_hook i) k) Q.
Proof.
  intros H. eapply triple_bind; [apply get_hook_quiet|]. intros found s [Hf Hs]. by apply H.
Qed.

Lemma with_step {A} h m (k : hook → M sys A) Q :
  steps h m → (∀ h', stepped h h' → triple (quiet hooks0) (k h') Q) →
  triple (quiet hooks0) (bind m k) Q.
Proof. intros Hm H. eapply triple_bind; [exact Hm|]. intros h' s [Hh Hs]. by apply H. Qed.

(** *** One hook *)

Lemma release_steps h : steps h (hk_hook_release_prepared h).
Proof.
  unfold hk_hook_release_prepared. destruct (_ =? 0); [by apply triple_ret|].
  eapply triple_bind.
  { destruct (h_matched_engine h) as [v|]; [|apply kept_return].
    destruct (vt_release_prepared v) as [f|]; [|apply kept_return].
    eapply triple_bind; [apply quiet_engine|intros []]. apply quiet_trace. }
  intros []. apply triple_ret. intros s Hs. split; [|done]. split; [done|].
  cbn. by case_bool_decide.
Qed.

(** The hook of an attempt, beside the result and the diagnostic. *)
Local Abbreviation attempts h m := (triple (quiet hooks0) m (λ r s, stepped h r.1.1 ∧ quiet hooks0 s)).

Lemma inspect_steps h d : attempts h (hk_hook_inspect_prepared_continuation h d).
Proof.
  unfold hk_hook_inspect_prepared_continuation.
  destruct (v ← h_matched_engine h; _) as [f|]; [|by apply triple_ret].
  eapply triple_bind; [apply quiet_engine|]. intros [[r info] dv]. cbv zeta.
  assert (Hf : ∀ code message, attempts h
    (h <- hk_hook_release_prepared h ;;
     ret (h, HK_PREPARE_FAILED, d <| pd_error_code := code |> <| pd_error_message := message |>))).
  { intros code message. eapply with_step; [apply release_steps|]. intros h' Hh'. by apply triple_ret. }
  destruct r; [by apply triple_ret| |apply Hf]. destruct (_ <? _); [apply Hf|by apply triple_ret].
Qed.

Lemma retain_steps h ok p : steps h (retain_prepared h ok p).
Proof.
  unfold retain_prepared. eapply triple_bind; [apply triple_when; [intros _; apply quiet_trace|done]|].
  intros []. by apply triple_ret.
Qed.

Lemma validate_steps h r d : attempts h (hk_hook_validate_prepare_effects h r d).
Proof.
  unfold hk_hook_validate_prepare_effects. destruct (h_matched_engine h) as [v|]; [|by apply triple_ret].
  destruct (_ =? 0); [by apply triple_ret|]. destruct (_ =? 0); [by apply triple_ret|].
  eapply (with_step h).
  { case_bool_decide; [apply release_steps|by apply triple_ret]. }
  intros h' Hh'. by apply triple_ret.
Qed.

Lemma inspect_after h h' (b : bool) r d :
  stepped h h' →
  attempts h (if b then hk_hook_inspect_prepared_continuation h' d else ret (h', r, d)).
Proof.
  intros Hh. destruct b; [|by apply triple_ret].
  eapply triple_conseq; [apply inspect_steps|done|]. intros a s [Ha Hs].
  split; [by eapply stepped_trans|done].
Qed.

Lemma dispatch_steps h : attempts h (hk_hook_dispatch_prepare h).
Proof.
  unfold hk_hook_dispatch_prepare. cbv zeta.
  destruct (h_matched_engine h) as [v|]; [|by apply triple_ret].
  destruct (vt_prepare_one_ctx_status v) as [f|].
  { eapply triple_bind; [apply quiet_engine|]. intros [[r p] d].
    eapply with_step; [apply retain_steps|]. intros h' Hh'. by apply inspect_after. }
  destruct (vt_prepare_one_ctx v) as [f|].
  { eapply triple_bind; [apply quiet_engine|]. intros [ok p].
    eapply with_step; [apply retain_steps|]. intros h' Hh'. by apply inspect_after. }
  destruct (vt_prepare_one v) as [f|]; [|by apply triple_ret].
  eapply triple_bind; [apply quiet_engine|]. intros ok. by apply inspect_after.
Qed.

(** *** Rolling an attempt up *)

Lemma quiet_count f : (∀ l, l_results (f l) = l_results l) → kept (on_locals (E := E) f).
Proof. apply quiet_locals. Qed.

Lemma members_quiet d idx : kept (release_members d idx).
Proof.
  induction idx as [|i idx IH]; cbn [release_members]; [apply kept_return|].
  apply with_hook. intros [h|] Hf; [|exact IH]. destruct (_ || _); [exact IH|].
  eapply with_step; [apply release_steps|]. intros h' Hh'.
  eapply triple_bind.
  { apply settle_quiet, fits_result; [by eapply fits_stepped; [apply Hf|]|done]. }
  intros []. eapply triple_bind; [exact IH|]. intros n. apply kept_return.
Qed.

Lemma fail_domain_quiet h : kept (fail_domain h).
Proof.
  unfold fail_domain. do 2 (eapply triple_bind; [apply quiet_gets|intros ?]).
  destruct (hk_plan_domain_index _ _); [|apply kept_return]. destruct (find_domain _ _); [|apply kept_return].
  destruct (_ && _ && _); [|apply kept_return].
  eapply triple_bind; [by apply quiet_count|intros []].
  eapply triple_bind; [|intros ?; by apply quiet_count].
  unfold hk_release_prepared_domain_members, hook_indices.
  eapply triple_bind; [apply quiet_gets|intros idx]. apply members_quiet.
Qed.

Lemma prepared_unmutated h r d out :
  unmutated out → unmutated (prepare_outcome h r (carry_prepare_diag h d out)).
Proof.
  intros [Hm _]. unfold unmutated, prepare_outcome, carry_prepare_diag in *. cbv zeta.
  repeat case_match; split; done.
Qed.

Lemma record_quiet i h r d out g :
  fits i h → unmutated out → kept (hk_plan_record_prepare_attempt i h r d out g).
Proof.
  intros Hf Ho. unfold hk_plan_record_prepare_attempt.
  eapply triple_bind; [apply validate_steps|]. intros [[h1 r1] d1]. apply triple_given. intros Hh. cbn [fst] in Hh.
  eapply (with_step h1).
  { destruct (bool_decide _); [by apply triple_ret|apply release_steps]. }
  intros h2 Hh2. cbv zeta.
  eapply triple_bind; [destruct r1; try apply kept_return; by apply quiet_count|intros []].
  eapply triple_bind.
  { apply settle_quiet, fits_result; [|by apply prepared_unmutated].
    eapply fits_stepped; [exact Hf|by eapply stepped_trans]. }
  intros []. apply triple_when; [intros _; apply fail_domain_quiet|done].
Qed.

(** *** Waves *)

Lemma open_quiet idx : kept (open_prepare_group idx).
Proof.
  induction idx as [|i idx IH]; cbn [open_prepare_group]; [apply kept_return|].
  apply with_hook. intros [h|] Hf; [|exact IH]. specialize (Hf h eq_refl).
  eapply triple_bind; [by apply put_result_quiet, Hf|intros []].
  eapply triple_bind; [by apply quiet_count|intros []].
  eapply with_step; [apply release_steps|]. intros h' Hh'.
  eapply triple_bind; [by apply put_hook_quiet, (fits_stepped i h)|intros []].
  eapply triple_bind; [exact IH|intros more]. apply kept_return.
Qed.

Lemma close_quiet a i op : kept (close_prepare_operation a i op).
Proof.
  unfold close_prepare_operation. apply with_hook. intros found Hf.
  eapply (triple_bind _ _ _ (λ l s, Forall unmutated (l_results l) ∧ quiet hooks0 s)).
  { apply triple_gets. intros s Hs. split; [apply Hs|done]. }
  intros l. apply triple_given. intros Hl. destruct found as [h|]; [|apply kept_return]. specialize (Hf h eq_refl).
  cbv zeta. set (out := default (h_result h) _).
  assert (Ho : unmutated out).
  { unfold out. destruct (l_results l !! i) as [r|] eqn:Er; [|apply Hf]. by eapply Forall_lookup. }
  eapply triple_bind; [apply triple_when; [intros _; apply quiet_trace|done]|intros []].
  eapply triple_bind; [by eapply (inspect_after h)|]. intros [[h1 r1] d1]. apply triple_given. intros Hh.
  by apply record_quiet; [eapply fits_stepped|].
Qed.

Lemma group_quiet i n : kept (hk_plan_prepare_group i n).
Proof.
  unfold hk_plan_prepare_group. eapply triple_bind; [apply quiet_heap|intros []]; cbn [negb]; [|apply kept_return].
  apply with_hook. intros first _. destruct (first ≫= h_matched_engine) as [v|]; [|apply kept_return].
  destruct (mbind _ _) as [f|]; [|apply kept_return]. cbv zeta.
  eapply triple_bind; [apply open_quiet|intros ops].
  eapply triple_bind; [apply quiet_engine|intros reply].
  eapply triple_bind; [apply triple_for_each; intros x _; apply close_quiet|intros []]. apply kept_return.
Qed.

(** *** The call *)

Lemma prepare_one_quiet i h : fits i h → kept (prepare_one i h).
Proof.
  intros Hf. unfold prepare_one. eapply triple_bind; [apply quiet_gets|intros generation].
  destruct (negb _).
  { cbv zeta. eapply triple_bind; [by apply quiet_count|intros []].
    eapply triple_bind; [apply settle_quiet, fits_result; [done|split; [apply Hf|done || apply Hf]]|intros []; apply fail_domain_quiet]. }
  eapply triple_bind; [by apply quiet_count|intros []].
  do 2 (eapply triple_bind; [apply quiet_gets|intros ?]). cbv zeta.
  match goal with |- triple _ (if ?b then _ else _) _ => destruct b end.
  { eapply triple_bind; [by apply quiet_count|intros []]. apply settle_quiet, fits_result; [done|split; [apply Hf|done || apply Hf]]. }
  eapply with_step; [apply release_steps|]. intros h1 Hh1.
  eapply triple_bind; [apply dispatch_steps|]. intros [[h2 r] d]. apply triple_given. intros Hh2.
  apply record_quiet; [|apply Hf]. eapply fits_stepped; [exact Hf|]. by eapply stepped_trans.
Qed.

Lemma loop_quiet idx n : kept (prepare_loop idx n).
Proof.
  revert n. induction idx as [|i idx IH]; intros n; cbn [prepare_loop]; [apply kept_return|].
  destruct n as [|n]; [|apply IH]. apply with_hook. intros [h|] Hf; [|apply IH]. specialize (Hf h eq_refl).
  eapply triple_bind; [by apply put_result_quiet, Hf|intros []].
  destruct (negb _); [apply IH|]. do 2 (eapply triple_bind; [apply quiet_gets|intros ?]). cbv zeta.
  destruct (1 <? _)%nat.
  - eapply triple_bind; [apply group_quiet|intros []]; (apply IH || apply kept_return).
  - eapply triple_bind; [by apply prepare_one_quiet|intros []; apply IH].
Qed.
End Quiet.

Lemma triple_weaken {A} (R : A → sys → Prop) (P : sys → Prop) (m : M sys A) Q :
  triple P m R → (∀ a s, R a s → Q a s) → triple P m Q.
Proof. intros Hm H s Hs. by apply H, Hm. Qed.

(** Preparing keeps the hooks: their identity, and that nothing was mutated. *)
Lemma prepare_keeps plan hooks0 :
  triple (λ s, Forall2 alike hooks0 (pl_hooks (s_plan s))) (hk_plan_prepare plan)
    (λ _ s, Forall2 alike hooks0 (pl_hooks (s_plan s))).
Proof.
  set (I := λ s, Forall2 alike hooks0 (pl_hooks (s_plan s))).
  assert (Hheap : ∀ A (m : M heap A), triple I (on_heap m) (λ _, I)) by (intros A m; by apply triple_zoom).
  assert (Hret : ∀ A (a : A), triple I (ret a) (λ _, I)) by (intros A a; by apply triple_ret).
  unfold hk_plan_prepare. eapply triple_bind; [by apply (triple_gets _ _ (λ _, I))|intros p].
  destruct plan; cbn [negb]; [|apply Hret]. destruct (negb _); [apply Hret|].
  do 3 (eapply triple_bind; [apply Hheap|intros []]; cbn [negb]; [|apply Hret]).
  eapply (triple_bind _ _ _ (λ _, quiet hooks0)).
  { apply triple_modify. intros s Hs. split; [done|]. cbn. by apply Forall_replicate. }
  intros []. apply (triple_weaken (λ _, quiet hooks0)); [|by intros ? s []].
  eapply triple_bind; [apply quiet_gets|intros idx].
  eapply triple_bind; [apply loop_quiet|intros status]. destruct status; try apply kept_return.
  eapply triple_bind; [apply quiet_gets|intros l].
  eapply triple_bind; [apply quiet_report|intros [r|]]; [|apply kept_return].
  eapply triple_bind; [apply quiet_state|intros []]. apply kept_return.
Qed.

Lemma analyze_alike id rt e h0 h : alike h0 h → alike h0 (hk_hook_analyze_one id rt e h).
Proof.
  intros [[] Hm]. unfold hk_hook_analyze_one. by destruct (best_route rt h e (rt_engines rt) None).
Qed.

(** So does analysis. *)
Lemma analyze_keeps plan hooks0 :
  triple (λ s, Forall2 alike hooks0 (pl_hooks (s_plan s))) (hk_plan_analyze plan)
    (λ _ s, Forall2 alike hooks0 (pl_hooks (s_plan s))).
Proof.
  set (I := λ s, Forall2 alike hooks0 (pl_hooks (s_plan s))).
  assert (Hheap : ∀ A (m : M heap A), triple I (on_heap m) (λ _, I)) by (intros A m; by apply triple_zoom).
  assert (Hret : ∀ A (a : A), triple I (ret a) (λ _, I)) by (intros A a; by apply triple_ret).
  unfold hk_plan_analyze.
  eapply (triple_bind _ _ _ (λ p s, I s ∧ Forall2 alike hooks0 (pl_hooks p))); [by apply triple_gets|].
  intros p.
  apply triple_pure. intros Hp. destruct plan; cbn [negb]; [|apply Hret]. destruct (negb _); [apply Hret|].
  eapply triple_bind; [apply Hheap|intros []]; cbn [negb]; [|apply Hret].
  eapply triple_bind; [by apply (triple_gets _ _ (λ _, I))|intros rt].
  eapply triple_bind; [by apply (triple_gets _ _ (λ _, I))|intros e]. cbv zeta.
  eapply triple_bind.
  { apply (triple_modify _ _ (λ _, I)). intros s Hs. unfold I. cbn. apply Forall2_fmap_r.
    eapply Forall2_impl; [exact Hp|]. intros h0 h Hh. by apply analyze_alike. }
  intros []. eapply (triple_bind _ _ _ (λ _, I)); [|intros [r|]; [|apply Hret]].
  - intros s Hs. unfold report_create. destruct (hk_report_create _ _) as [? [? ?]]. exact Hs.
  - eapply triple_bind; [by apply (triple_modify _ _ (λ _, I))|intros []; apply Hret].
Qed.
End Keeps.
