(* ===== verification/PlanWf.v ===== *)
(** * Well-formed plans

    The invariant of a plan under construction and that every public operation
    on a draft preserves it: distinct addresses, names and target keys, domain
    references and dependencies that resolve, arrays within their capacity. *)

From stdpp Require Import base strings gmap numbers list sorting.
From S2P Require Import Prelude Types Ownership Artifacts Engine Plan Demo Dispatch Prepare.
From S2P Require Import Commit CommitOrder.

(** ** Allocations that hand out no address *)

Definition keeps_next {A} (m : M heap A) : Prop := ∀ h, h_next (m h).2 = h_next h.

Create HintDb next.

Lemma keeps_next_ret {A} (a : A) : keeps_next (ret a).
Proof. done. Qed.
Lemma keeps_next_alloc : keeps_next alloc.
Proof. done. Qed.
Lemma keeps_next_bind {A B} (m : M heap A) (k : A → M heap B) :
  keeps_next m → (∀ a, keeps_next (k a)) → keeps_next (bind m k).
Proof.
  intros Hm Hk h. unfold bind. specialize (Hm h). destruct (m h) as [a h1]. rewrite (Hk a h1). exact Hm.
Qed.
#[export] Hint Resolve keeps_next_ret keeps_next_alloc : next.

Ltac next :=
  repeat first
    [ progress intros
    | solve [eauto with next nocore]
    | match goal with
      | |- keeps_next (bind _ _) => apply keeps_next_bind
      | |- keeps_next (let '(_, _) := ?p in _) => destruct p
      | |- keeps_next (match ?x with _ => _ end) => destruct x
      end ].

Lemma keeps_next_strdup s : keeps_next (hk_strdup_checked s).
Proof. unfold hk_strdup_checked. next. Qed.
Lemma keeps_next_bytes b : keeps_next (hk_bytes_dup_checked b).
Proof. unfold hk_bytes_dup_checked. next. Qed.
Lemma keeps_next_grow n c : keeps_next (grow_array n c).
Proof. unfold grow_array. next. Qed.
#[export] Hint Resolve keeps_next_strdup keeps_next_bytes keeps_next_grow : next.

Lemma keeps_next_selector s depth : keeps_next (hk_image_selector_copy_owned s depth).
Proof.
  revert s depth. fix IH 1. intros [kind extra set] depth. cbn [hk_image_selector_copy_owned].
  destruct (_ <? depth); [next|].
  apply keeps_next_bind; [next|]. intros owned. destruct (negb owned); [next|].
  apply keeps_next_bind; [next|]. intros path. destruct (negb path); [next|].
  destruct kind; try (clear IH; next; fail).
  destruct set as [count|elems]; [clear IH; next|].
  assert (Hc : keeps_next (copy_children (λ c, hk_image_selector_copy_owned c (depth + 1)) elems)).
  { induction elems as [|[c|] rest IHr]; cbn [copy_children]; [done| |done].
    apply keeps_next_bind; [apply IH|]. clear IH. next. }
  clear IH. destruct elems as [|e elems]; next.
Qed.
#[export] Hint Resolve keeps_next_selector : next.

Lemma keeps_next_with_selector {A} s (k : image_selector → M heap (hk_status * option A)) :
  (∀ c, keeps_next (k c)) → keeps_next (with_selector s k).
Proof. intros Hk. unfold with_selector, hk_image_selector_copy. next. Qed.
Lemma keeps_next_with_string {A} s (k : M heap (hk_status * option A)) :
  keeps_next k → keeps_next (with_string s k).
Proof. intros Hk. unfold with_string. next. Qed.
Lemma keeps_next_with_bytes {A} s (k : bytes_view → M heap (hk_status * option A)) :
  (∀ c, keeps_next (k c)) → keeps_next (with_bytes s k).
Proof. intros Hk. unfold with_bytes. next. Qed.

Lemma keeps_next_target t : keeps_next (hk_hook_copy_target t).
Proof.
  destruct t as [t|t|t|t| |k]; cbn [hk_hook_copy_target]; try (next; fail).
  4: destruct (me_address_is_image_relative t).
  all: repeat first [apply keeps_next_with_selector; intros|apply keeps_next_with_string
    |apply keeps_next_with_bytes; intros|apply keeps_next_ret].
Qed.
#[export] Hint Resolve keeps_next_target : next.

(** *** The key builder *)
Import Build.

Definition builder_next {A} (m : M builder A) : Prop :=
  ∀ b, h_next (kb_heap (m b).2) = h_next (kb_heap b).

Lemma builder_next_append d : builder_next (key_append d).
Proof.
  intros b. unfold key_append, put_bytes. destruct (_ <? size d); [done|].
  destruct (kb_capacity b <? _); [|done]. unfold alloc. by destruct (h_fails _ _).
Qed.
Lemma builder_next_ret {A} (a : A) : builder_next (ret a).
Proof. done. Qed.
Lemma builder_next_and_then m n : builder_next m → builder_next n → builder_next (and_then m n).
Proof.
  intros Hm Hn b. unfold and_then, bind. specialize (Hm b). destruct (m b) as [[] b1]; [|done].
  rewrite (Hn b1). exact Hm.
Qed.
#[local] Hint Resolve builder_next_append builder_next_ret builder_next_and_then : next.

Lemma builder_next_string s : builder_next (key_string s).
Proof. unfold key_string, key_u64. destruct s; eauto with next. Qed.
#[local] Hint Resolve builder_next_string : next.

Lemma builder_next_leaf k x : builder_next (key_selector_leaf k x).
Proof. unfold key_selector_leaf, key_u32, key_u64. destruct k; eauto with next. Qed.
#[local] Hint Resolve builder_next_leaf : next.

Lemma builder_next_children cs : builder_next (key_children cs).
Proof. induction cs; cbn [key_children]; unfold key_u64; eauto with next. Qed.
#[local] Hint Resolve builder_next_children : next.

Definition blobs_next {A} (m : M blobs A) : Prop :=
  ∀ b, h_next (bl_heap (m b).2) = h_next (bl_heap b).

Lemma blobs_next_leaf k x :
  blobs_next (built <- run_builder (key_selector_leaf k x) ;;
              if built.1 then key_blob_append built.2 else ret false).
Proof.
  intros b. unfold bind, run_builder.
  pose proof (builder_next_leaf k x (Builder (bl_heap b) [] 0)) as H.
  destruct (key_selector_leaf k x _) as [[] kb]; cbn [fst snd] in *; [|exact H].
  unfold key_blob_append. cbn [bl_items bl_capacity bl_heap set_field].
  destruct (_ =? bl_capacity b); [|exact H]. destruct (_ || _); [exact H|].
  unfold alloc. by destruct (h_fails _ _).
Qed.

Lemma blobs_next_collect s depth : blobs_next (key_selector_collect s depth).
Proof.
  revert s depth. fix IH 1. intros [kind extra set] depth. cbn [key_selector_collect].
  destruct (_ <? depth); [done|]. destruct kind; try (apply blobs_next_leaf).
  destruct set as [count|elems]; [done|].
  induction elems as [|[c|] rest IHr]; cbn [collect_children]; [done| |done].
  intros b. unfold bind. specialize (IH c (depth + 1) b). 
  destruct (key_selector_collect c (depth + 1) b) as [[] b1]; [|exact IH].
  rewrite (IHr b1). exact IH.
Qed.

Lemma builder_next_selector s depth : builder_next (key_selector s depth).
Proof.
  destruct s as [s|]; [|done]. unfold key_selector. destruct (_ <? depth); [done|].
  destruct (sel_kind s); try apply builder_next_leaf.
  intros b. pose proof (blobs_next_collect s depth (Blobs (kb_heap b) [] 0)) as H.
  destruct (key_selector_collect s depth _) as [[] bl]; [|exact H].
  match goal with |- context [and_then ?m ?n ?b1] =>
    assert (Hb : builder_next (and_then m n)) by (unfold key_u32, key_u64; eauto with next);
    rewrite (Hb b1) end.
  exact H.
Qed.
#[local] Hint Resolve builder_next_selector : next.

Lemma keeps_next_key strip spec : keeps_next (hk_ownership_target_key_copy strip spec).
Proof.
  intros h. unfold hk_ownership_target_key_copy.
  assert (Hb : builder_next (key_target strip spec)).
  { destruct spec as [spec|]; [|done]. unfold key_target, key_u8, key_u32, key_u64.
    destruct (hs_target spec) as [t|t|t|t| |k];
      repeat first [apply builder_next_and_then|apply builder_next_append|apply builder_next_string
        |apply builder_next_selector|apply builder_next_ret|case_match]. }
  specialize (Hb (Builder h [] 0)). by destruct (key_target strip spec _).
Qed.
#[export] Hint Resolve keeps_next_key : next.

Lemma nodup_snoc {A B} (f : A → B) l x : NoDup (f <$> l) → f x ∉ f <$> l → NoDup (f <$> l ++ [x]).
Proof.
  intros Hl Hx. rewrite fmap_app. apply NoDup_app. split_and!; [done| |apply NoDup_singleton].
  intros b Hb ->%list_elem_of_singleton. done.
Qed.

(** ** The invariant *)
Section Wf.
Context {E : Type}.
Implicit Types p : hk_plan E.

(** [next] is the next address the allocator gives out. *)
Record plan_wf p (next : Z) : Prop := {
  pw_order : order_wf p;
  pw_hook_addresses h : h ∈ pl_hooks p → 0 < h_address h < next;
  pw_domain_addresses d : d ∈ pl_domains p → 0 < d_address d < next;
  pw_domains : NoDup (d_address <$> pl_domains p);
  pw_domain_names : NoDup (ds_stable_domain_id ∘ d_spec <$> pl_domains p);
  pw_domain_refs h : h ∈ pl_hooks p → hs_domain (h_spec h) ≠ 0 →
    ∃ d, d ∈ pl_domains p ∧ d_address d = hs_domain (h_spec h);
  pw_names : NoDup (hs_stable_hook_id ∘ h_spec <$> pl_hooks p);
  pw_keyed h : h ∈ pl_hooks p → is_Some (h_target_key h);
  pw_keys : NoDup (h_target_key <$> pl_hooks p);
  pw_next : 0 < next }.

Lemma order_wf_snoc p h cap :
  order_wf p → h_address h ∉ h_address <$> pl_hooks p →
  (∀ a, a ∈ commit_after (h_spec h) → ∃ d, d ∈ pl_hooks p ∧ h_address d = a) →
  order_wf (p <| pl_hooks := pl_hooks p ++ [h] |> <| pl_hook_capacity := cap |>).
Proof.
  intros [Ha Hd] Hnew Hafter. split; cbn [pl_hooks set_field].
  - by apply nodup_snoc.
  - intros i x a Hi Hax. apply lookup_app_Some in Hi as [Hi|[Hlen Hi]].
    + destruct (Hd i x a Hi Hax) as (j & d & Hlt & Hj & Had). exists j, d. split_and!; [done| |done].
      by apply lookup_app_l_Some.
    + apply list_lookup_singleton_Some in Hi as [Hz <-].
      destruct (Hafter a Hax) as (d & Hin & Had). apply list_elem_of_lookup in Hin as [j Hj].
      exists j, d. pose proof (lookup_lt_Some _ _ _ Hj). split_and!; [lia|by apply lookup_app_l_Some|done].
Qed.

Lemma plan_wf_next p n m : plan_wf p n → n <= m → plan_wf p m.
Proof.
  intros [] Hle. split; try done; [|by intros d Hd; specialize (pw_domain_addresses0 d Hd); lia|lia].
  intros h Hh. specialize (pw_hook_addresses0 h Hh). lia.
Qed.

(** What the checks of [hk_plan_add_hook] establish. *)
Lemma add_hook_accepts p spec :
  add_hook_rejects p spec = false →
  is_Some (hs_stable_hook_id spec) ∧
  hs_stable_hook_id spec ∉ (hs_stable_hook_id ∘ h_spec <$> pl_hooks p) ∧
  (hs_domain spec ≠ 0 → ∃ d, d ∈ pl_domains p ∧ d_address d = hs_domain spec) ∧
  (∀ a, a ∈ commit_after spec → a ≠ 0 ∧ ∃ h, h ∈ pl_hooks p ∧ h_address h = a) ∧
  ¬ (hs_original_requirement spec = HK_ORIGINAL_CALLABLE_CONTINUATION ∧
     hs_continuation_policy spec = HK_CONTINUATION_FORBIDDEN).
Proof.
  unfold add_hook_rejects. rewrite !orb_false_iff.
  intros (((((((_ & Hname) & _) & Hcont) & Hdup) & Hdom) & _) & Hafter). split_and!.
  - apply bool_decide_eq_false in Hname. by apply not_eq_None_Some.
  - intros Hin. apply list_elem_of_fmap in Hin as (h & Hh & Hin). apply not_true_iff_false in Hdup.
    apply Hdup. apply existsb_exists. exists h. split; [by apply list_elem_of_In|].
    by apply bool_decide_eq_true.
  - intros Hne. apply andb_false_iff in Hdom as [Hz|Hf].
    + apply negb_false_iff, Z.eqb_eq in Hz. done.
    + apply negb_false_iff, existsb_exists in Hf as (d & Hd & Heq). exists d.
      split; [by apply list_elem_of_In|by apply Z.eqb_eq].
  - intros a Ha. apply not_true_iff_false in Hafter.
    assert (Hok : ¬ ((a =? 0) || negb (existsb (λ h : hk_hook E, h_address h =? a) (pl_hooks p))) = true).
    { intros Hbad. apply Hafter, existsb_exists. exists a. split; [by apply list_elem_of_In|done]. }
    apply not_true_iff_false, orb_false_iff in Hok as [Hz Hf]. split; [by apply Z.eqb_neq|].
    apply negb_false_iff, existsb_exists in Hf as (d & Hd & Heq). exists d.
    split; [by apply list_elem_of_In|by apply Z.eqb_eq].
  - intros [H1 H2]. apply andb_false_iff in Hcont as [Hc|Hc]; by apply bool_decide_eq_false in Hc.
Qed.

(** The plan, and the allocator's next address. *)
Definition at_plan p (n : Z) (s : sys E) : Prop := s_plan s = p ∧ h_next (s_heap s) = n.

Lemma at_plan_heap {A} (m : M heap A) p n :
  keeps_next m → triple (at_plan p n) (on_heap m) (λ _, at_plan p n).
Proof.
  intros Hm. apply triple_zoom. intros s [Hp Hn]. split; [done|]. cbn [s_heap set_field]. by rewrite Hm.
Qed.

Lemma at_plan_ids {A} (m : M ids A) p n : triple (at_plan p n) (on_ids m) (λ _, at_plan p n).
Proof. apply triple_zoom. by intros s [Hp Hn]. Qed.

Lemma at_plan_object p n :
  0 < n → triple (at_plan p n) (on_heap alloc_object)
            (λ a s, if decide (a = 0) then at_plan p n s else a = n ∧ at_plan p (n + 1) s).
Proof.
  intros Hn. apply triple_zoom. intros s [Hp Hnx]. unfold alloc_object.
  destruct (h_fails _ _); cbn; [done|]. rewrite Hnx. case_decide; [lia|done].
Qed.

(** What a construction call promises: with OK the plan satisfies [Q] of the
    address returned; otherwise it is what it was. *)
Definition construction_post p (n : Z) (Q : Z → hk_plan E → Prop) (r : hk_status * Z) (s : sys E) : Prop :=
  match r.1 with
  | HK_STATUS_OK => n < h_next (s_heap s) ∧ r.2 = n ∧ Q r.2 (s_plan s)
  | _ => n <= h_next (s_heap s) ∧ s_plan s = p
  end.

Lemma construction_fails p n m Q st a :
  n <= m → st ≠ HK_STATUS_OK →
  triple (at_plan p m) (ret (st, a)) (construction_post p n Q).
Proof.
  intros Hle Hst. apply triple_ret. intros s [Hp Hm]. unfold construction_post. cbn.
  destruct st; try done; (split; [lia|done]).
Qed.

Lemma triple_heap_then {A B} p n (m : M heap A) (k : A → M (sys E) B) Q :
  keeps_next m → (∀ a, triple (at_plan p n) (k a) Q) → triple (at_plan p n) (bind (on_heap m) k) Q.
Proof. intros Hm Hk. eapply triple_bind; [by apply at_plan_heap|done]. Qed.

(** The hook [hk_plan_add_hook] appends. *)
Record added_hook p (spec : hk_hook_spec) (a : Z) (h : hk_hook E) : Prop := {
  ah_address : h_address h = a;
  ah_domain : hs_domain (h_spec h) = hs_domain spec;
  ah_after : commit_after (h_spec h) = commit_after spec;
  ah_name : hs_stable_hook_id (h_spec h) = hs_stable_hook_id spec;
  ah_key : is_Some (h_target_key h);
  ah_new : ∀ x, x ∈ pl_hooks p → h_target_key x ≠ h_target_key h;
  ah_result : r_outcome (h_result h) = HK_OUTCOME_UNANALYZED }.

Lemma triple_plan_then {A} p n (k : hk_plan E → M (sys E) A) Q :
  triple (at_plan p n) (k p) Q → triple (at_plan p n) (bind (gets s_plan) k) Q.
Proof. intros H s Hs. unfold bind, gets. destruct Hs as [Hp Hn]. rewrite Hp. by apply H. Qed.

Lemma triple_object_then {A} p n (k : Z → M (sys E) A) Q :
  0 < n → triple (at_plan p n) (k 0) Q → triple (at_plan p (n + 1)) (k n) Q →
  triple (at_plan p n) (bind (on_heap alloc_object) k) Q.
Proof.
  intros Hn H0 H1. eapply triple_bind; [by apply at_plan_object|]. intros a s Hs.
  case_decide; subst; [by apply H0|]. destruct Hs as [-> Hs]. by apply H1.
Qed.

(** Walk down the allocations; the goals left are the final updates. *)
Ltac construct :=
  repeat match goal with
  | |- triple _ (bind (on_heap alloc_object) _) _ => apply triple_object_then; [done| |]
  | |- triple _ (bind (on_heap _) _) _ => apply triple_heap_then; [by next|intros ?]
  | |- triple _ (bind (on_ids _) _) _ => eapply triple_bind; [apply at_plan_ids|intros ?]
  | |- triple _ (ret (_, _)) (construction_post _ _ _) => apply construction_fails; [lia|done]
  | |- triple _ (if ?b then _ else _) _ => destruct b eqn:?
  | |- triple _ (let '(_, _) := ?x in _) _ => destruct x
  | |- triple _ (match ?x with _ => _ end) _ => destruct x eqn:?
  end.

Lemma add_hook_triple strip p n plan out spec :
  0 < n →
  triple (at_plan p n) (hk_plan_add_hook_impl strip plan out (Some spec))
    (construction_post p n (λ a p', pl_state p = HK_PLAN_DRAFT ∧ add_hook_rejects p spec = false ∧
       ∃ h cap, added_hook p spec a h ∧
         p' = p <| pl_hooks := pl_hooks p ++ [h] |> <| pl_hook_capacity := cap |>)).
Proof.
  intros Hn. unfold hk_plan_add_hook_impl. apply triple_plan_then. construct; [done|].
  match goal with Heq : existsb _ _ = false |- _ => rename Heq into Hnew end.
  intros s [Hp Hs]. unfold bind, on_plan, modify, ret, construction_post.
  cbn [fst snd s_plan s_heap set_field]. rewrite Hp, Hs. split_and!; [lia|done| |done|].
  { match goal with Hb : negb (bool_decide (pl_state _ = _)) = false |- _ =>
      by apply negb_false_iff, bool_decide_eq_true in Hb end. }
  eexists _, _. split; [|reflexivity]. split; cbn; try done.
  intros x Hx Heq. apply not_true_iff_false in Hnew. apply Hnew, existsb_exists. exists x.
  split; [by apply list_elem_of_In|]. unfold hk_hooks_target_equal. rewrite Heq. cbn.
  by apply bool_decide_eq_true.
Qed.

(** C37.  Adding a hook keeps the plan well-formed.  It succeeds only on a draft
    and only past every check; then the plan is the old one with one hook more,
    at a fresh address, with an unused name, a target no other hook of the plan
    has, a domain of the plan and dependencies on earlier hooks of it.  On any
    other status, whatever failed, the plan is unchanged. *)
Theorem add_hook_preserves_wf strip plan out spec (s : sys E) :
  plan_wf (s_plan s) (h_next (s_heap s)) →
  let '((status, address), s') := hk_plan_add_hook strip plan out (Some spec) s in
  plan_wf (s_plan s') (h_next (s_heap s')) ∧
  match status with
  | HK_STATUS_OK =>
      pl_state (s_plan s) = HK_PLAN_DRAFT ∧
      ∃ h cap, added_hook (s_plan s) spec address h ∧
        s_plan s' = s_plan s <| pl_hooks := pl_hooks (s_plan s) ++ [h] |> <| pl_hook_capacity := cap |>
  | _ => s_plan s' = s_plan s
  end.
Proof.
  intros W. pose proof (add_hook_triple strip (s_plan s) (h_next (s_heap s)) plan out spec
    (pw_next _ _ W) s (conj eq_refl eq_refl)) as H.
  unfold hk_plan_add_hook. destruct (hk_plan_add_hook_impl _ _ _ _ s) as [[st a] s'].
  unfold construction_post in H. cbn [fst snd] in H. destruct st;
    try (destruct H as [Hle ->]; split; [by eapply plan_wf_next|done]).
  destruct H as (Hlt & -> & Hd & Hacc & h & cap & Hadd & Hp). split; [|by split; [done|exists h, cap]].
  rewrite Hp. destruct W, Hadd. apply add_hook_accepts in Hacc as (_ & Hname & Hdom & Hafter & _).
  assert (Hfresh : h_address h ∉ h_address <$> pl_hooks (s_plan s)).
  { rewrite ah_address0. intros (x & Hx & Hin)%list_elem_of_fmap.
    specialize (pw_hook_addresses0 x Hin). lia. }
  split; cbn [pl_hooks pl_domains set_field]; try done.
  - apply order_wf_snoc; [done..|]. intros b Hb. rewrite ah_after0 in Hb. by apply Hafter.
  - intros x [Hx| ->%list_elem_of_singleton]%elem_of_app; [specialize (pw_hook_addresses0 x Hx)|]; lia.
  - intros d Hin. specialize (pw_domain_addresses0 d Hin). lia.
  - intros x [Hx| ->%list_elem_of_singleton]%elem_of_app; [by apply pw_domain_refs0|].
    rewrite ah_domain0. apply Hdom.
  - apply nodup_snoc; [done|]. cbn. by rewrite ah_name0.
  - intros x [Hx| ->%list_elem_of_singleton]%elem_of_app; [by apply pw_keyed0|done].
  - apply nodup_snoc; [done|]. intros (x & Hk & Hx)%list_elem_of_fmap. by apply (ah_new0 x Hx).
  - lia.
Qed.

Lemma define_domain_triple p n plan out spec :
  0 < n →
  triple (at_plan p n) (hk_plan_define_domain plan out (Some spec))
    (construction_post p n (λ a p', pl_state p = HK_PLAN_DRAFT ∧ ∃ d cap,
       d_address d = a ∧ ds_stable_domain_id (d_spec d) = ds_stable_domain_id spec ∧
       ds_stable_domain_id spec ∉ (ds_stable_domain_id ∘ d_spec <$> pl_domains p) ∧
       p' = p <| pl_domains := pl_domains p ++ [d] |> <| pl_domain_capacity := cap |>)).
Proof.
  intros Hn. unfold hk_plan_define_domain. apply triple_plan_then. construct; [done|].
  match goal with Heq : existsb _ _ = false |- _ => rename Heq into Hnew end.
  intros s [Hp Hs]. unfold bind, on_plan, modify, ret, construction_post.
  cbn [fst snd s_plan s_heap set_field]. rewrite Hp, Hs. split; [lia|]. split; [done|]. split.
  { match goal with Hb : negb (bool_decide (pl_state _ = _)) = false |- _ =>
      by apply negb_false_iff, bool_decide_eq_true in Hb end. }
  eexists _, _. split_and!; [| | |reflexivity]; [done|done|].
  intros (x & Heq & Hx)%list_elem_of_fmap. apply not_true_iff_false in Hnew.
  apply Hnew, existsb_exists. exists x. split; [by apply list_elem_of_In|]. by apply bool_decide_eq_true.
Qed.

(** Defining a domain keeps the plan well-formed: OK adds one domain with
    a fresh address and an unused name to a draft and nothing else; any other
    status leaves the plan unchanged. *)
Lemma define_domain_preserves_wf plan out spec (s : sys E) :
  plan_wf (s_plan s) (h_next (s_heap s)) →
  let '((status, address), s') := hk_plan_define_domain plan out (Some spec) s in
  plan_wf (s_plan s') (h_next (s_heap s')) ∧
  match status with
  | HK_STATUS_OK =>
      pl_state (s_plan s) = HK_PLAN_DRAFT ∧
      ∃ d cap, d_address d = address ∧
        ds_stable_domain_id (d_spec d) = ds_stable_domain_id spec ∧
        s_plan s' = s_plan s <| pl_domains := pl_domains (s_plan s) ++ [d] |> <| pl_domain_capacity := cap |>
  | _ => s_plan s' = s_plan s
  end.
Proof.
  intros W. pose proof (define_domain_triple (s_plan s) (h_next (s_heap s)) plan out spec
    (pw_next _ _ W) s (conj eq_refl eq_refl)) as H.
  destruct (hk_plan_define_domain _ _ _ s) as [[st a] s'].
  unfold construction_post in H. cbn [fst snd] in H. destruct st;
    try (destruct H as [Hle ->]; split; [by eapply plan_wf_next|done]).
  destruct H as (Hlt & -> & Hd & d & cap & Had & Hname & Hnew & Hp).
  split; [|by split; [done|exists d, cap]].
  rewrite Hp. destruct W.
  assert (Hfresh : d_address d ∉ d_address <$> pl_domains (s_plan s)).
  { rewrite Had. intros (x & Hx & Hin)%list_elem_of_fmap.
    specialize (pw_domain_addresses0 x Hin). lia. }
  split; cbn [pl_hooks pl_domains set_field]; try done.
  - by destruct pw_order0.
  - intros h Hin. specialize (pw_hook_addresses0 h Hin). lia.
  - intros x [Hx| ->%list_elem_of_singleton]%elem_of_app; [specialize (pw_domain_addresses0 x Hx)|]; lia.
  - by apply nodup_snoc.
  - apply nodup_snoc; [done|]. cbn. by rewrite Hname.
  - intros h Hin Hnz. destruct (pw_domain_refs0 h Hin Hnz) as (x & Hx & Hxa). exists x.
    split; [apply elem_of_app; by left|done].
  - lia.
Qed.
End Wf.

(** ** At a concrete plan *)

Lemma demo_plan_wf : plan_wf (Demo.plan HK_PLAN_DRAFT HK_OUTCOME_UNANALYZED) 0x1000.
Proof.
  split; [apply demo_order_wf| | | | | | | | |]; try lia.
  all: try by apply (bool_decide_unpack (NoDup _)); vm_compute.
  all: intros x Hx; repeat (apply elem_of_cons in Hx as [->|Hx]; [try by cbn; lia|]);
    try by apply not_elem_of_nil in Hx.
  all: try (intros; eexists; split; [by left|done]).
  all: by eexists.
Qed.

Lemma add_hook_preserves_wf_witness :
  ∃ a s', hk_plan_add_hook id true true
            (Some (Demo.spec "fourth" 0x4040 0x200 0 [0x140]))
            (Demo.process HK_PLAN_DRAFT HK_OUTCOME_UNANALYZED) = ((HK_STATUS_OK, a), s') ∧
          plan_wf (s_plan s') (h_next (s_heap s')).
Proof.
  pose proof (add_hook_preserves_wf id true true (Demo.spec "fourth" 0x4040 0x200 0 [0x140])
    (Demo.process HK_PLAN_DRAFT HK_OUTCOME_UNANALYZED) demo_plan_wf) as H.
  destruct (hk_plan_add_hook id true true _ _) as [[st a] s'] eqn:Eq.
  assert (st = HK_STATUS_OK) as -> by (vm_compute in Eq; congruence).
  exists a, s'. split; [done|apply H].
Defined.
