(* ===== verification/MachOBounds.v ===== *)
(** * The Mach-O parser stays inside the image

    A rule for the iterations, with an invariant of the visitor's context, and
    from it: every lookup over arbitrary bytes comes to an answer, and what it
    locates lies where it must. *)

From stdpp Require Import base list strings numbers option.
From S2P Require Import Prelude Types Ownership Memory SymbolTable MachO.

Section Bounds.
Context {mem : memory} {image size : Z}.
Hypothesis Hread : readable mem image size.

(** Reading a field at a known offset. *)
Ltac field :=
  eapply runs_bind;
  [ lazymatch goal with
    | |- runs (read_u32 _ _) _ => eapply runs_u32
    | |- runs (read_u64 _ _) _ => eapply runs_u64
    | |- runs (read_u8 _ _) _ => eapply runs_u8
    | |- runs (read_bytes _ _ _) _ => eapply runs_bytes
    end; [exact Hread|lia..]
  | let v := fresh "v" in let Hv := fresh "Hv" in intros v Hv; cbn beta in Hv ].

Lemma runs_peek_header :
  runs (hk_macho_peek_header mem image size) (accepted (λ h,
    HK_MACHO_HEADER_64_SIZE <= size ∧ image ≠ 0 ∧ is_u32 (mh_ncmds h) ∧ is_u32 (mh_sizeofcmds h))).
Proof.
  unfold hk_macho_peek_header. destruct (Z.eqb_spec image 0); [done|].
  destruct (Z.ltb_spec size 4); [done|].
  rewrite <- (Z.add_0_r image) at 1. field.
  destruct (magic_status v); try done.
  unfold HK_MACHO_HEADER_64_SIZE. destruct (Z.ltb_spec size 32); [done|].
  do 6 field. cbn. auto.
Qed.

Lemma runs_read_header :
  runs (hk_macho_read_header mem image size) (accepted (λ h,
    HK_MACHO_HEADER_64_SIZE + mh_sizeofcmds h <= size ∧ image ≠ 0 ∧
    is_u32 (mh_ncmds h) ∧ is_u32 (mh_sizeofcmds h))).
Proof.
  unfold hk_macho_read_header. eapply runs_check; [apply runs_peek_header|].
  intros h (Hs & Hi & Hn & Hc). destruct (Z.ltb_spec (size - HK_MACHO_HEADER_64_SIZE) (mh_sizeofcmds h));
    [done|]. cbn. split; [lia|done].
Qed.

Section Iterate.
Context {C : Type} (visit : C → Z → Z → Z → visited C) (I : C → Prop).

(** What a visitor may rely on, and must keep. *)
Definition visitor_ok : Prop := ∀ ctx cmd offset cmdsize,
  I ctx → HK_MACHO_HEADER_64_SIZE <= offset → HK_LOAD_COMMAND_SIZE <= cmdsize →
  offset + cmdsize <= size → is_u32 cmd → is_u32 cmdsize →
  runs (visit ctx cmd offset cmdsize) (λ r, I r.2).

Hypothesis Hvisit : visitor_ok.

Lemma runs_commands_loop n offset end_ ctx :
  HK_MACHO_HEADER_64_SIZE <= offset → end_ <= size → I ctx →
  runs (commands_loop mem visit n image offset end_ ctx) (λ r, I r.2).
Proof.
  revert offset ctx. unfold HK_MACHO_HEADER_64_SIZE in *.
  induction n as [|n IH]; intros offset ctx Hoff Hend Hctx; cbn [commands_loop]; [done|].
  unfold HK_LOAD_COMMAND_SIZE in *. destruct (Z.ltb_spec (end_ - offset) 8); [done|].
  do 2 field. destruct (_ || _) eqn:Hsz; [done|].
  apply orb_false_iff in Hsz as [Hsz%Z.ltb_ge _].
  destruct (Z.ltb_spec (end_ - offset) v0); [done|].
  eapply runs_bind; [apply Hvisit; unfold HK_MACHO_HEADER_64_SIZE, HK_LOAD_COMMAND_SIZE; done || lia|].
  intros [[|] ctx'] Hctx'; [apply IH; [lia|done..]|done].
Qed.

Lemma runs_iterate ctx :
  I ctx → runs (hk_macho_iterate_load_commands mem visit image size ctx) (λ r, I r.2).
Proof.
  intros Hctx. unfold hk_macho_iterate_load_commands.
  eapply runs_bind; [apply runs_read_header|]. intros [status|h] Hh; [done|].
  destruct Hh as (Hs & _). apply runs_commands_loop; [done|lia|done].
Qed.
End Iterate.

(** A command inside the image, large enough for [least] bytes. *)
Definition command_in (least : Z) (c : Z * Z) : Prop :=
  HK_MACHO_HEADER_64_SIZE <= c.1 ∧ c.1 + c.2 <= size ∧ least <= c.2.

Lemma runs_find_load_command cmd :
  runs (hk_macho_find_load_command mem image size cmd) (accepted (command_in HK_LOAD_COMMAND_SIZE)).
Proof.
  unfold hk_macho_find_load_command. eapply runs_bind.
  - apply (runs_iterate _ (λ f, match f with Some c => command_in HK_LOAD_COMMAND_SIZE c | None => True end)); [|done].
    intros f c offset cmdsize Hf Hoff Hsz Hend _ _. unfold find_lc_visit.
    destruct (c =? cmd); cbn; [by split_and!|done].
  - intros [status [c|]] Hc; by destruct status.
Qed.

Lemma runs_copy_uuid :
  runs (hk_macho_copy_uuid mem image size) (accepted (λ uuid, length uuid = 16%nat)).
Proof.
  unfold hk_macho_copy_uuid. eapply runs_check; [apply runs_find_load_command|].
  intros [offset cmdsize] (Hoff & Hend & _). cbn [fst snd] in *. unfold HK_MACHO_HEADER_64_SIZE in *.
  destruct (Z.ltb_spec cmdsize 24); [done|]. field. by destruct Hv.
Qed.

(** A view of tables inside the image, the entries aligned. *)
Definition view_in (v : hk_symbol_table_view) : Prop :=
  (∃ symoff stroff, sv_nlist v = image + symoff ∧ sv_strings v = image + stroff ∧
     0 <= symoff ∧ symoff + sv_nlist_count v * SIZEOF_NLIST64 <= size ∧
     0 <= stroff ∧ stroff + sv_strings_size v <= size) ∧
  is_u32 (sv_nlist_count v) ∧ is_u32 (sv_strings_size v) ∧ u64 (sv_nlist v) mod 8 = 0.

Lemma view_in_readable v : view_in v → view_readable mem v.
Proof.
  intros [(symoff & stroff & Hn & Hs & ? & ? & ? & ?) _].
  split; [rewrite Hn|rewrite Hs]; by eapply readable_sub.
Qed.

Lemma runs_find_symtab_view :
  runs (hk_macho_find_symtab_view mem image size) (accepted view_in).
Proof.
  unfold hk_macho_find_symtab_view. eapply runs_check; [apply runs_find_load_command|].
  intros [offset cmdsize] (Hoff & Hend & _). cbn [fst snd] in *.
  unfold HK_SYMTAB_COMMAND_SIZE, HK_MACHO_HEADER_64_SIZE in *.
  destruct (Z.ltb_spec cmdsize 24); [done|]. do 4 field. cbv zeta.
  destruct ((size <? v) || (size - v <? v0 * SIZEOF_NLIST64)) eqn:Hsym; [done|].
  destruct ((size <? v1) || (size - v1 <? v2)) eqn:Hstr; [done|].
  destruct (Z.eqb_spec (u64 (image + v) mod 8) 0); cbn [negb]; [|done].
  apply orb_false_iff in Hsym as [?%Z.ltb_ge ?%Z.ltb_ge], Hstr as [?%Z.ltb_ge ?%Z.ltb_ge].
  unfold is_u32 in *. split; [|done]. exists v, v1. cbn. split_and!; (done || lia).
Qed.

(** *** Segments and sections *)

Definition segment_ok (seg : hk_macho_segment) : Prop :=
  is_u64 (sg_vmaddr seg) ∧ is_u64 (sg_vmsize seg) ∧ is_u64 (sg_fileoff seg) ∧
  is_u64 (sg_filesize seg) ∧ is_u32 (sg_nsects seg).

Lemma runs_read_segment offset cmdsize :
  HK_MACHO_HEADER_64_SIZE <= offset → offset + cmdsize <= size →
  runs (read_segment mem image offset cmdsize) (λ r, ∀ seg, r = Some seg →
    segment_ok seg ∧ sg_command_offset seg = offset ∧ sg_cmdsize seg = cmdsize).
Proof.
  intros Hoff Hend. unfold read_segment, HK_SEGMENT_COMMAND_64_SIZE, HK_MACHO_HEADER_64_SIZE in *.
  destruct (Z.ltb_spec cmdsize 72); [done|]. do 9 field.
  apply runs_ret. intros seg [= <-]. by split_and!.
Qed.

Section Segments.
Context {C : Type} (visit : C → Z → hk_macho_segment → visited C) (I : C → Prop).
Hypothesis Hvisit : ∀ ctx i seg, I ctx → segment_ok seg → runs (visit ctx i seg) (λ r, I r.2).

Lemma runs_iterate_segments ctx :
  I ctx → runs (hk_macho_iterate_segments mem visit image size ctx) (λ r, I r.2).
Proof.
  intros Hctx. unfold hk_macho_iterate_segments. destruct (image =? 0); [done|].
  eapply runs_bind; [apply (runs_iterate _ (λ s, I (ss_ctx _ s))); [|done]|by intros [status s] Hs].
  intros s cmd offset cmdsize Hs Hoff _ Hend _ _. unfold segments_visit.
  destruct (negb _); [done|].
  eapply runs_bind; [by apply runs_read_segment|]. intros [seg|] Hseg; [|done].
  destruct (Hseg seg eq_refl) as [Hok _].
  eapply runs_bind; [by apply Hvisit|]. by intros [go ctx'] H.
Qed.
End Segments.

Lemma runs_find_segment name :
  runs (hk_macho_find_segment mem image size name) (accepted (λ seg, segment_ok seg ∧ sg_segname seg = name)).
Proof.
  unfold hk_macho_find_segment. destruct (image =? 0); [done|]. eapply runs_bind.
  - apply (runs_iterate _ (λ f, ∀ seg, f.1 = Some seg → segment_ok seg ∧ sg_segname seg = name)); [|done].
    intros f cmd offset cmdsize Hf Hoff _ Hend _ _. unfold find_segment_visit.
    destruct (negb _); [done|].
    eapply runs_bind; [by apply runs_read_segment|]. intros [seg|] Hseg; [|done].
    case_bool_decide; [|done]. cbn. intros seg' [= <-]. by destruct (Hseg seg eq_refl).
  - intros [status [[seg|] malformed]] Hf; destruct status; try done; destruct malformed; try done.
    by apply Hf.
Qed.

Definition section_ok (s : hk_macho_section) : Prop :=
  is_u64 (sc_addr s) ∧ is_u64 (sc_size s) ∧ is_u32 (sc_offset s) ∧ is_u32 (sc_flags s) ∧
  is_u32 (sc_reserved1 s) ∧ is_u32 (sc_reserved2 s).

Lemma runs_read_section offset :
  0 <= offset → offset + HK_SECTION_64_SIZE <= size →
  runs (read_section mem image offset) section_ok.
Proof.
  unfold HK_SECTION_64_SIZE. intros Hoff Hend. unfold read_section. do 8 field. by split_and!.
Qed.

Section Sections.
Context {C : Type} (visit : C → Z → hk_macho_section → visited C) (I : C → Prop).
Hypothesis Hvisit : ∀ ctx n s,
  I ctx → 0 <= n <= 255 → section_ok s → runs (visit ctx n s) (λ r, I r.2).

Lemma runs_sections_loop count offset running i ctx :
  HK_MACHO_HEADER_64_SIZE <= offset → 0 <= i →
  offset + HK_SEGMENT_COMMAND_64_SIZE + (i + Z.of_nat count) * HK_SECTION_64_SIZE <= size → I ctx →
  runs (sections_loop mem visit count image offset running i ctx) (λ r, I r.2).
Proof.
  unfold HK_MACHO_HEADER_64_SIZE, HK_SEGMENT_COMMAND_64_SIZE, HK_SECTION_64_SIZE.
  intros Hoff. revert i ctx. induction count as [|count IH]; intros i ctx Hi Hend Hctx;
    cbn [sections_loop]; [done|].
  unfold HK_SEGMENT_COMMAND_64_SIZE, HK_SECTION_64_SIZE in *.
  eapply runs_bind; [apply runs_read_section; unfold HK_SECTION_64_SIZE; lia|].
  intros section Hs. cbv zeta. pose proof (u32_range (running + i + 1)).
  destruct (Z.ltb_spec 255 (u32 (running + i + 1))); [done|].
  eapply runs_bind; [apply Hvisit; [done|lia|done]|].
  intros [[|] ctx'] Hctx'; [apply IH; [lia|lia|done]|done].
Qed.

Lemma runs_iterate_sections ctx :
  I ctx → runs (hk_macho_iterate_sections mem visit image size ctx) (λ r, I r.2).
Proof.
  intros Hctx. unfold hk_macho_iterate_sections. destruct (image =? 0); [done|].
  eapply runs_bind; [apply (runs_iterate _ (λ s, I (cs_ctx _ s))); [|done]|by intros [status s] Hs].
  intros s cmd offset cmdsize Hs Hoff _ Hend _ _. unfold sections_visit.
  destruct (negb _); [done|].
  eapply runs_bind; [by apply runs_read_segment|]. intros [seg|] Hseg; [|done].
  destruct (Hseg seg eq_refl) as ((_ & _ & _ & _ & Hn) & _ & Hsz).
  unfold sections_fit. destruct (Z.leb_spec (HK_SEGMENT_COMMAND_64_SIZE + sg_nsects seg * HK_SECTION_64_SIZE)
    (sg_cmdsize seg)) as [Hfit|]; [|done]. unfold is_u32 in Hn.
  eapply runs_bind; [apply runs_sections_loop; [done|lia| |done]|].
  - rewrite Z2Nat.id by lia. lia.
  - by intros [[|] ctx'] H.
Qed.
End Sections.

Lemma runs_section_info n : runs (hk_macho_section_info mem image size n) (accepted section_ok).
Proof.
  unfold hk_macho_section_info. destruct (image =? 0); [done|]. destruct (n =? 0); [done|].
  eapply runs_bind; [apply (runs_iterate_sections _ (λ f, ∀ s, f = Some s → section_ok s)); [|done]|].
  - intros f m s Hf _ Hs. unfold section_lookup_visit. destruct (m =? n); [|done].
    cbn. by intros s' [= <-].
  - intros [status [s|]] Hf; destruct status; try done. by apply Hf.
Qed.

Lemma runs_address_is_code slide address :
  runs (hk_macho_runtime_address_is_code mem image size slide address) (λ _, True).
Proof.
  unfold hk_macho_runtime_address_is_code. destruct (image =? 0); [done|].
  eapply runs_bind; [apply (runs_iterate_sections _ (λ _, True)); [|done]|].
  - intros f m s _ _ _. unfold address_section_visit. destruct (_ || _); [done|]. cbv zeta.
    destruct (_ <? _); [done|]. by destruct (_ && _).
  - intros [status [c|]] _; by destruct status.
Qed.

(** *** File ranges *)

Definition range_u32 (d : file_range) : Prop :=
  ∀ off len, d.1 = Some (off, len) → is_u32 off ∧ is_u32 len.

Lemma runs_range_result (m : option (hk_macho_status * file_range)) :
  runs m (λ r, range_u32 r.2) →
  runs (m ≫= range_result) (accepted (λ r, is_u32 r.1 ∧ is_u32 r.2 ∧ r.2 ≠ 0)).
Proof.
  intros H. eapply runs_bind; [exact H|]. intros [status [[[off len]|] malformed]] Hd; cbn;
    destruct status; try done; destruct malformed; try done.
  cbn in Hd. destruct (Hd off len eq_refl). destruct (Z.eqb_spec len 0); [done|]. by split_and!.
Qed.

(** The visitors of one load command that carries a range. *)
Ltac range_visitor :=
  apply runs_iterate; [|done];
  let Hd := fresh "Hd" in let Hoff := fresh "Hoff" in let Hend := fresh "Hend" in
  intros d cmd offset cmdsize Hd Hoff _ Hend _ _;
  unfold HK_DYSYMTAB_COMMAND_SIZE, HK_LINKEDIT_DATA_CMD_SIZE, HK_DYLD_INFO_COMMAND_SIZE,
    HK_MACHO_HEADER_64_SIZE in *.

Ltac range_command :=
  match goal with |- context [?cmdsize <? ?least] =>
    destruct (Z.ltb_spec cmdsize least); [done|];
    do 2 field; cbn; intros ? ? [= <- <-]; done
  end.

Lemma runs_find_indirect_symbols :
  runs (hk_macho_find_indirect_symbols mem image size)
    (accepted (λ r, is_u32 r.1 ∧ is_u32 r.2 ∧ r.2 ≠ 0)).
Proof.
  unfold hk_macho_find_indirect_symbols. destruct (image =? 0); [done|].
  apply runs_range_result. range_visitor. unfold dysymtab_visit. destruct (negb _); [done|].
  unfold HK_DYSYMTAB_COMMAND_SIZE. range_command.
Qed.

Lemma runs_export_trie_range :
  runs (export_trie_file_range mem image size)
    (accepted (λ r, is_u32 r.1 ∧ is_u32 r.2 ∧ r.2 ≠ 0)).
Proof.
  unfold export_trie_file_range. apply runs_range_result. range_visitor. unfold export_trie_visit.
  unfold HK_LINKEDIT_DATA_CMD_SIZE, HK_DYLD_INFO_COMMAND_SIZE.
  destruct (_ =? _); [range_command|]. destruct (_ && _); [range_command|done].
Qed.

Lemma runs_chained_fixups_range :
  runs (chained_fixups_file_range mem image size)
    (accepted (λ r, is_u32 r.1 ∧ is_u32 r.2 ∧ r.2 ≠ 0)).
Proof.
  unfold chained_fixups_file_range. apply runs_range_result. range_visitor.
  unfold linkedit_data_visit. destruct (negb _); [done|].
  unfold HK_LINKEDIT_DATA_CMD_SIZE. range_command.
Qed.

(** A non-empty range of the image. *)
Definition range_in (r : Z * Z) : Prop := 0 <= r.1 ∧ 0 < r.2 ∧ r.1 + r.2 <= size.

Lemma runs_located range :
  runs range (accepted (λ r, is_u32 r.1 ∧ is_u32 r.2 ∧ r.2 ≠ 0)) →
  runs (range <~ range ;; let '(off, len) := range in
        if (size <? off) || (size - off <? len) then refuse HK_MACHO_MALFORMED else accept (off, len))
    (accepted range_in).
Proof.
  intros H. eapply runs_check; [exact H|]. intros [off len] (Ho & Hl & Hne). cbn [fst snd] in *.
  destruct (_ || _) eqn:Hb; [done|]. apply orb_false_iff in Hb as [?%Z.ltb_ge ?%Z.ltb_ge].
  unfold is_u32 in *. cbn. unfold range_in. cbn. lia.
Qed.

Lemma runs_find_export_trie :
  runs (hk_macho_find_export_trie mem image size) (accepted range_in).
Proof.
  unfold hk_macho_find_export_trie. destruct (image =? 0); [done|].
  apply runs_located, runs_export_trie_range.
Qed.

Lemma runs_find_chained_fixups :
  runs (hk_macho_find_chained_fixups mem image size) (accepted range_in).
Proof.
  unfold hk_macho_find_chained_fixups. destruct (image =? 0); [done|].
  apply runs_located, runs_chained_fixups_range.
Qed.
End Bounds.
