(* ===== verification/DyldImages.v ===== *)
(** * The catalog of a process (populate of src/core/HKImageCatalog.c)

    The images dyld lists are parsed in memory, the header and the load commands
    of each, and added in dyld's order.  What dyld answers is a parameter. *)

From stdpp Require Import base list strings numbers option sorting.
From S2P Require Import Prelude Types ImageCatalog Memory Faults MachO MachOBounds.

(** [_dyld_get_image_header], [_name] and [_vmaddr_slide] of one index; 0 is NULL. *)
Record dyld_image : Type := DyldImage { di_header : Z; di_path : option string; di_slide : Z }.

Definition HK_MH_EXECUTE : Z := 2.

Section Populate.
Context (mem : memory).

(** The identifier among the load commands, if there is one. *)
Definition uuid_of (header command_size : Z) : option (option (list Z)) :=
  found ← hk_macho_find_load_command mem header command_size HK_LC_UUID;
  match found with
  | inr (uuid_offset, uuid_cmd_size) =>
      if 24 <=? uuid_cmd_size
      then uuid ← read_bytes mem 16 (header + (uuid_offset + 8)); Some (Some uuid)
      else Some None
  | inl _ => Some None
  end.

Fixpoint populate_loop (images : list dyld_image) (all_added : bool) (catalog : hk_image_catalog)
    : F heap (bool * hk_image_catalog) :=
  match images with
  | [] => fret (all_added, catalog)
  | i :: images =>
      let header := di_header i in
      match di_path i with
      | None => populate_loop images false catalog
      | Some path =>
          if header =? 0 then populate_loop images false catalog
          else
            parsed <-- fetch (λ _, hk_macho_peek_header mem header HK_MACHO_HEADER_64_SIZE) ;;
            match parsed with
            | inl _ => populate_loop images false catalog
            | inr h =>
                uuid <-- fetch (λ _, uuid_of header (HK_MACHO_HEADER_64_SIZE + mh_sizeofcmds h)) ;;
                let entry := ImageEntry (Some path) uuid header (di_slide i)
                               (mh_filetype h =? HK_MH_EXECUTE) in
                answer <-- lift (hk_image_catalog_add_entry (Some catalog) (Some entry)) ;;
                match answer with
                | (true, Some catalog) => populate_loop images all_added catalog
                | (_, _) => fret (false, catalog)
                end
            end
      end
  end.

Definition hk_image_catalog_populate_from_dyld (images : list dyld_image) (catalog : option hk_image_catalog)
    : F heap (bool * option hk_image_catalog) :=
  match catalog with
  | None => fret (false, None)
  | Some c => r <-- populate_loop images true c ;; fret (r.1, Some r.2)
  end.

(** ** What it lists *)

(** The entry of an image, where it is one this build understands. *)
Definition listed_entry (i : dyld_image) : option hk_image_entry :=
  match di_path i, hk_macho_peek_header mem (di_header i) HK_MACHO_HEADER_64_SIZE with
  | Some path, Some (inr h) =>
      Some (ImageEntry (Some path)
        (match hk_macho_copy_uuid mem (di_header i) (HK_MACHO_HEADER_64_SIZE + mh_sizeofcmds h) with
         | Some (inr uuid) => Some uuid | _ => None end)
        (di_header i) (di_slide i) (mh_filetype h =? HK_MH_EXECUTE))
  | _, _ => None
  end.

(** A mapped image: its header, and the commands that announces, may be read. *)
Definition image_mapped (i : dyld_image) : Prop :=
  di_header i ≠ 0 → readable mem (di_header i) HK_MACHO_HEADER_64_SIZE ∧
    ∀ h, hk_macho_peek_header mem (di_header i) HK_MACHO_HEADER_64_SIZE = Some (inr h) →
      readable mem (di_header i) (HK_MACHO_HEADER_64_SIZE + mh_sizeofcmds h).

(** The lookup the loop makes is the one of the parser. *)
Lemma uuid_of_copy header size : readable mem header size →
  uuid_of header size = Some (match hk_macho_copy_uuid mem header size with
                              | Some (inr uuid) => Some uuid | _ => None end).
Proof.
  intros Hr. unfold uuid_of, hk_macho_copy_uuid.
  pose proof (runs_find_load_command Hr HK_LC_UUID) as Hf.
  destruct (hk_macho_find_load_command _ _ _ _) as [[st|[offset cmdsize]]|]; [done| |done].
  destruct Hf as (H1 & H2 & _). cbn in H1, H2 |- *. unfold HK_MACHO_HEADER_64_SIZE in *.
  destruct (Z.leb_spec 24 cmdsize), (Z.ltb_spec cmdsize 24); [lia| |done|lia].
  pose proof (runs_bytes 16 header size (offset + 8) Hr ltac:(lia) ltac:(lia)) as Hb.
  by destruct (read_bytes mem 16 _).
Qed.

(** What the loop has done to a catalog. *)
Definition populated (images : list dyld_image) (c c' : hk_image_catalog) (ok : bool) (h : heap) : Prop :=
  ∃ l, ic_entries c' = ic_entries c ++ l ∧ l `prefix_of` omap listed_entry images ∧
    (ok = true → l = omap listed_entry images ∧ Forall (λ i, is_Some (listed_entry i)) images) ∧
    (heap_ok h → l = omap listed_entry images ∧
       (Forall (λ i, is_Some (listed_entry i)) images → ok = true)).

Lemma add_entry_spec c e h :
  let '((ok, c'), h') := hk_image_catalog_add_entry (Some c) (Some e) h in
  (heap_ok h → heap_ok h' ∧ ok = true) ∧
  ∃ c1, c' = Some c1 ∧ ic_entries c1 = ic_entries c ++ (if ok then [e] else []).
Proof.
  unfold hk_image_catalog_add_entry, bind. cbn [ie_path].
  assert (Ha : ∀ h, let '(ok, h') := alloc h in heap_ok h → heap_ok h' ∧ ok = true).
  { intros h0. unfold alloc. intros H. split; [exact H|]. by rewrite H. }
  destruct (match ie_path e with Some _ => alloc | None => ret true end h) as [owned h1] eqn:Eo.
  assert (Ho : heap_ok h → heap_ok h1 ∧ owned = true).
  { destruct (ie_path e); [specialize (Ha h); by rewrite Eo in Ha|by injection Eo as <- <-]. }
  destruct owned; cbn [negb]; [|split; [by intros [_ ?]%Ho|by exists c; rewrite app_nil_r]].
  destruct ((if _ : bool then alloc else ret true) h1) as [grown h2] eqn:Eg.
  assert (Hg : heap_ok h1 → heap_ok h2 ∧ grown = true).
  { destruct (Z.of_nat (length (ic_entries c)) =? ic_capacity c); [specialize (Ha h1); by rewrite Eg in Ha|by injection Eg as <- <-]. }
  destruct grown; cbn [negb].
  - split; [by intros [[? _]%Hg _]%Ho|]. by eexists.
  - split; [by intros [[? ?]%Hg _]%Ho|]. by exists c; rewrite app_nil_r.
Qed.

Lemma populated_skip i images c c' ok h :
  listed_entry i = None → populated images c c' ok h → populated (i :: images) c c' false h.
Proof.
  intros Hn (l & He & Hp & _ & Hh). exists l. cbn [omap list_omap]. rewrite Hn.
  split_and!; [done..|]. intros Hok. destruct (Hh Hok) as [-> _]. split; [done|].
  intros [[e Hentry] _]%Forall_cons. by rewrite Hn in Hentry.
Qed.

Lemma populate_loop_spec images all_added c h :
  Forall image_mapped images →
  returns (populate_loop images all_added c) h (λ r h',
    ∃ ok, r.1 = all_added && ok ∧ populated images c r.2 ok h).
Proof.
  intros Hm. revert all_added c h.
  induction Hm as [|i images Hi Hm IH]; intros all_added c h; cbn [populate_loop].
  { apply returns_ret. exists true. split; [by rewrite andb_true_r|]. exists []. by rewrite app_nil_r. }
  assert (Hskip : listed_entry i = None → returns (populate_loop images false c) h (λ r h',
    ∃ ok, r.1 = all_added && ok ∧ populated (i :: images) c r.2 ok h)).
  { intros Hn. eapply returns_conseq; [apply IH|]. intros r h' (ok & E & Hp). exists false.
    split; [by rewrite E, andb_false_r|]. by eapply populated_skip. }
  destruct (di_path i) as [path|] eqn:Epath; [|apply Hskip; unfold listed_entry; by rewrite Epath].
  destruct (Z.eqb_spec (di_header i) 0) as [E0|Hh0].
  { apply Hskip. unfold listed_entry. by rewrite Epath, E0. }
  destruct (Hi Hh0) as [Hr Hcmds].
  eapply returns_bind with (R := λ p h', h' = h ∧
    hk_macho_peek_header mem (di_header i) HK_MACHO_HEADER_64_SIZE = Some p).
  { apply returns_fetch. pose proof (runs_peek_header Hr) as Hp. by destruct (hk_macho_peek_header _ _ _). }
  intros p h' [-> Ep]. destruct p as [st|hd]; [apply Hskip; unfold listed_entry; by rewrite Epath, Ep|].
  specialize (Hcmds hd Ep).
  eapply returns_bind with (R := λ u h', h' = h ∧ uuid_of (di_header i) (HK_MACHO_HEADER_64_SIZE + mh_sizeofcmds hd) = Some u).
  { apply returns_fetch. by rewrite uuid_of_copy. }
  intros u h' [-> Eu]. rewrite uuid_of_copy in Eu by done. injection Eu as Eu. subst u.
  set (e := ImageEntry (Some path) _ _ _ _).
  assert (He : listed_entry i = Some e) by (unfold listed_entry; by rewrite Epath, Ep).
  eapply returns_bind with (R := λ a h', (a, h') = hk_image_catalog_add_entry (Some c) (Some e) h).
  { apply returns_lift. by destruct (hk_image_catalog_add_entry _ _ _). }
  intros [ok c'] h1 Ea. pose proof (add_entry_spec c e h) as Hs. rewrite <- Ea in Hs.
  destruct Hs as [Hheap (c1 & -> & Hc1)]. destruct ok.
  - eapply returns_conseq; [apply IH|]. intros r h2 (ok & E & l & Hl & Hp & Hok & Hh). exists ok. split; [done|].
    exists (e :: l). cbn [omap list_omap]. rewrite He, Hl, Hc1, <- app_assoc. split_and!; [done|by apply prefix_cons|..].
    + intros Et. destruct (Hok Et) as [-> Hall]. split; [done|]. constructor; [by rewrite He|done].
    + intros Hk. destruct (Hheap Hk) as [Hk1 _]. destruct (Hh Hk1) as [-> Hall]. split; [done|].
      intros [_ H]%Forall_cons. by apply Hall.
  - apply returns_ret. exists false. split; [by rewrite andb_false_r|]. exists []. rewrite app_nil_r. split_and!; [done|apply prefix_nil|done|].
    by intros [_ ?]%Hheap.
Qed.
End Populate.
