(* ===== verification/MachOSpec.v ===== *)
(** * What the Mach-O lookups return

    Where everything a lookup locates lies, the slice a fat file yields, and
    the span of a loaded image as the hull of its segments. *)

From stdpp Require Import base list strings numbers option.
From S2P Require Import Prelude Types Ownership Memory SymbolTable MachO MachOBounds Demo.

(** ** Slices *)

Section Slices.
Context {mem : memory} {file file_size : Z}.
Hypothesis Hread : readable mem file file_size.

Lemma runs_be32 off :
  0 <= off → off + 4 <= file_size → runs (read_be32 mem (file + off)) is_u32.
Proof.
  intros Hoff Hend. unfold read_be32. rewrite <- !Z.add_assoc.
  do 4 (eapply runs_bind; [eapply runs_u8; [exact Hread|lia..]|]; intros ? ?; cbn beta in *).
  apply runs_ret. unfold is_u32.
  assert (Hshift : ∀ b k, 0 <= b < 256 → 0 <= k <= 24 → 0 <= Z.shiftl b k < 2 ^ 32).
  { intros b k Hb Hk. rewrite Z.shiftl_mul_pow2 by lia.
    pose proof (Z.pow_le_mono_r 2 k 24 ltac:(lia) ltac:(lia)).
    pose proof (Z.pow_pos_nonneg 2 k ltac:(lia) ltac:(lia)). nia. }
  repeat apply lor_below; try lia; apply Hshift; lia.
Qed.

Lemma runs_be64 off :
  0 <= off → off + 8 <= file_size → runs (read_be64 mem (file + off)) is_u64.
Proof.
  intros Hoff Hend. unfold read_be64.
  eapply runs_bind; [apply runs_be32; lia|]. intros high Hhigh.
  rewrite <- Z.add_assoc. eapply runs_bind; [apply runs_be32; lia|]. intros low Hlow.
  apply runs_ret. unfold is_u64, is_u32 in *. apply lor_below; [lia| |lia].
  rewrite Z.shiftl_mul_pow2 by lia. lia.
Qed.

(** A slice: part of the file, with an accepted header of the architecture. *)
Definition slice_ok (cputype cpusubtype : Z) (s : Z * Z) : Prop :=
  file <= s.1 ∧ 0 <= s.2 ∧ s.1 + s.2 <= file + file_size ∧
  ∃ h, hk_macho_read_header mem s.1 s.2 = Some (inr h) ∧
    mh_cputype h = cputype ∧ mh_cpusubtype h = cpusubtype.

Lemma runs_select_arch arch fat64 cputype cpusubtype :
  0 <= arch → arch + (if fat64 : bool then 32 else 20) <= file_size →
  runs (select_arch mem file file_size (file + arch) fat64 cputype cpusubtype)
    (λ r, ∀ found, r = Some found → accepted (slice_ok cputype cpusubtype) found).
Proof.
  intros Ha Hend. unfold select_arch. rewrite <- !Z.add_assoc.
  assert (Hend20 : arch + 20 <= file_size) by (destruct fat64; lia).
  eapply runs_bind; [apply runs_be32; lia|]. intros type _.
  eapply runs_bind; [apply runs_be32; lia|]. intros subtype _.
  destruct (_ || _); [done|].
  eapply runs_bind with (R := is_u64).
  { destruct fat64; [apply runs_be64; lia|].
    eapply runs_conseq; [apply runs_be32; lia|]. unfold is_u32, is_u64. lia. }
  intros offset Hoff.
  eapply runs_bind with (R := is_u64).
  { destruct fat64; [apply runs_be64; lia|].
    eapply runs_conseq; [apply runs_be32; lia|]. unfold is_u32, is_u64. lia. }
  intros size Hsize. unfold is_u64 in *.
  destruct (_ || _) eqn:Hb; [by intros found [= <-]|].
  rewrite !orb_false_iff, !Z.ltb_ge in Hb. destruct Hb as [[Hb1 Hb2] _].
  assert (Hsub : readable mem (file + offset) size) by (eapply readable_sub; [exact Hread|lia..]).
  pose proof (runs_read_header Hsub) as Hh. apply runs_some in Hh as (selected & Hsel & _).
  rewrite Hsel. cbn [mbind option_bind]. destruct selected as [status|h]; [by intros found [= <-]|].
  destruct (_ || _) eqn:Htype; [by intros found [= <-]|]. intros found [= <-].
  rewrite orb_false_iff, !negb_false_iff, !Z.eqb_eq in Htype. destruct Htype.
  cbn [accepted]. split_and!; cbn [fst snd]; [lia..|]. by exists h.
Qed.

Lemma runs_select_slice cputype cpusubtype :
  runs (hk_macho_select_slice mem file file_size cputype cpusubtype)
    (accepted (slice_ok cputype cpusubtype)).
Proof.
  unfold hk_macho_select_slice. destruct (_ || _) eqn:Hnull; [done|].
  rewrite orb_false_iff, Z.ltb_ge in Hnull. destruct Hnull as [_ H4].
  pose proof (runs_read_header Hread) as Hh. apply runs_some in Hh as (thin & Hthin & _).
  rewrite Hthin. cbn [mbind option_bind]. destruct thin as [thin_status|h].
  - rewrite <- (Z.add_0_r file) at 1. eapply runs_bind; [apply runs_be32; lia|]. intros magic _. cbv zeta.
    set (fat64 := magic =? HK_FAT_MAGIC_64). destruct (_ && _); [done|].
    destruct (Z.ltb_spec file_size 8); [done|].
    eapply runs_bind; [apply runs_be32; lia|]. intros count Hcount. unfold is_u32 in Hcount.
    match goal with |- context [?a <? ?b] => destruct (Z.ltb_spec a b) as [|Hfit]; [done|] end.
    assert (Hloop : ∀ n i, 0 <= i → i + Z.of_nat n <= count →
      runs (select_loop mem n file file_size fat64 (if fat64 then 32 else 20) i cputype cpusubtype)
        (accepted (slice_ok cputype cpusubtype))); [|apply Hloop; [lia|rewrite Z2Nat.id by lia; lia]].
    intros n. induction n as [|n IH]; intros i Hi Hn; cbn [select_loop]; [done|].
    rewrite <- Z.add_assoc.
    eapply runs_bind; [apply runs_select_arch; destruct fat64; nia|].
    intros [found|] Hfound; [by apply (Hfound found)|]. apply IH; lia.
  - destruct (_ || _) eqn:Htype; [done|].
    rewrite orb_false_iff, !negb_false_iff, !Z.eqb_eq in Htype. destruct Htype.
    apply runs_ret. cbn. unfold slice_ok. cbn [fst snd]. split_and!; [lia..|]. by exists h.
Qed.
End Slices.

(** ** Iterations that differ in their visitor only *)

Section Simulation.
Context (mem : memory) {C D : Type} (R : C → D → Prop).

Definition same_step (a : visited C) (b : visited D) : Prop :=
  match a, b with
  | Some (go, c), Some (go', d) => go = go' ∧ R c d
  | None, None => True
  | _, _ => False
  end.

Definition same_end {S} (a : option (S * C)) (b : option (S * D)) : Prop :=
  match a, b with
  | Some (s, c), Some (s', d) => s = s' ∧ R c d
  | None, None => True
  | _, _ => False
  end.

Lemma iterate_sim (v : C → Z → Z → Z → visited C) (w : D → Z → Z → Z → visited D) image size c d :
  (∀ c d cmd offset cmdsize, R c d → same_step (v c cmd offset cmdsize) (w d cmd offset cmdsize)) →
  R c d →
  same_end (hk_macho_iterate_load_commands mem v image size c)
    (hk_macho_iterate_load_commands mem w image size d).
Proof.
  intros Hstep Hcd. unfold hk_macho_iterate_load_commands.
  destruct (hk_macho_read_header mem image size) as [[status|h]|]; cbn [mbind option_bind]; [done| |done].
  generalize (Z.to_nat (mh_ncmds h)) as n, HK_MACHO_HEADER_64_SIZE at 1 3 as offset.
  intros n. revert c d Hcd.
  induction n as [|n IH]; intros c d Hcd offset; cbn [commands_loop]; [done|].
  destruct (_ <? _); [done|]. destruct (read_u32 mem (image + offset)) as [cmd|]; [|done].
  cbn [mbind option_bind]. destruct (read_u32 mem (image + (offset + 4))) as [cmdsize|]; [|done].
  cbn [mbind option_bind]. destruct (_ || _); [done|]. destruct (_ <? _); [done|].
  specialize (Hstep c d cmd offset cmdsize Hcd). unfold same_step in Hstep.
  destruct (v c cmd offset cmdsize) as [[go c']|], (w d cmd offset cmdsize) as [[go' d']|]; try done.
  destruct Hstep as [<- Hcd']. cbn [mbind option_bind]. destruct go; [by apply IH|done].
Qed.
End Simulation.

(** Two visitors of segments, in step, end in step. *)
Lemma iterate_segments_sim mem {C D} (R : C → D → Prop) (v : C → Z → hk_macho_segment → visited C)
    (w : D → Z → hk_macho_segment → visited D) image size c d :
  (∀ c d i seg, R c d → same_step R (v c i seg) (w d i seg)) → R c d →
  same_end R (hk_macho_iterate_segments mem v image size c)
    (hk_macho_iterate_segments mem w image size d).
Proof.
  intros Hstep Hcd. unfold hk_macho_iterate_segments. destruct (image =? 0); [done|].
  set (S s t := R (ss_ctx _ s) (ss_ctx _ t) ∧ ss_index _ s = ss_index _ t ∧
    ss_malformed _ s = ss_malformed _ t).
  assert (Hsim : same_end S
    (hk_macho_iterate_load_commands mem (segments_visit mem v image) image size (SegmentsCtx _ c 0 false))
    (hk_macho_iterate_load_commands mem (segments_visit mem w image) image size (SegmentsCtx _ d 0 false))).
  { apply iterate_sim; [|done]. intros s t cmd offset cmdsize (Hs & Hi & Hm). unfold segments_visit.
    destruct (negb _); [done|]. destruct (read_segment mem image offset cmdsize) as [[seg|]|];
      cbn [mbind option_bind]; [|done|done].
    specialize (Hstep (ss_ctx _ s) (ss_ctx _ t) (ss_index _ s) seg Hs). rewrite <- Hi, Hm.
    unfold same_step in Hstep. destruct (v _ _ seg) as [[go c']|], (w _ _ seg) as [[go' d']|]; try done.
    destruct Hstep as [<- Hcd']. done. }
  unfold same_end in *.
  destruct (hk_macho_iterate_load_commands mem (segments_visit mem v image) _ _ _) as [[s x]|],
    (hk_macho_iterate_load_commands mem (segments_visit mem w image) _ _ _) as [[t y]|]; try done.
  destruct Hsim as (<- & Hs & _ & Hm). cbn [mbind option_bind]. rewrite Hm. split; [done|exact Hs].
Qed.

(** ** The span of a loaded image *)

(** Every segment, in load-command order. *)
Definition collect (segs : list hk_macho_segment) (_ : Z) (seg : hk_macho_segment)
    : visited (list hk_macho_segment) := Some (true, segs ++ [seg]).

(** A segment that maps bytes: not empty, not __PAGEZERO, not wrapping. *)
Definition mappable (seg : hk_macho_segment) : Prop :=
  sg_vmsize seg ≠ 0 ∧ sg_segname seg ≠ PAGEZERO ∧
  sg_vmaddr seg <= u64 (sg_vmaddr seg + sg_vmsize seg).

Definition segment_end (seg : hk_macho_segment) : Z := u64 (sg_vmaddr seg + sg_vmsize seg).

(** The least interval around the mappable segments. *)
Definition hull (segs : list hk_macho_segment) (acc : option (Z * Z)) : Prop :=
  match acc with
  | None => ∀ seg, seg ∈ segs → ¬ mappable seg
  | Some (low, high) =>
      (∃ seg, seg ∈ segs ∧ mappable seg ∧ sg_vmaddr seg = low) ∧
      (∃ seg, seg ∈ segs ∧ mappable seg ∧ segment_end seg = high) ∧
      ∀ seg, seg ∈ segs → mappable seg → low <= sg_vmaddr seg ∧ segment_end seg <= high
  end.

(** A segment that maps nothing does not move the hull. *)
Lemma hull_skip segs seg acc : hull segs acc → ¬ mappable seg → hull (segs ++ [seg]) acc.
Proof.
  intros Hh Hno. destruct acc as [[low high]|]; cbn in *.
  - destruct Hh as ((s & Hs & Hl) & (t & Ht & Hr) & Hall).
    split; [exists s; rewrite elem_of_app; auto|]. split; [exists t; rewrite elem_of_app; auto|].
    intros r [Hr'| ->%list_elem_of_singleton]%elem_of_app Hm; [by apply Hall|done].
  - intros s [Hs| ->%list_elem_of_singleton]%elem_of_app; [by apply Hh|done].
Qed.

Lemma span_visit_hull segs acc i seg :
  hull segs acc → ∃ acc', span_visit acc i seg = Some (true, acc') ∧ hull (segs ++ [seg]) acc'.
Proof.
  intros Hh. unfold span_visit.
  destruct (Z.eqb_spec (sg_vmsize seg) 0) as [Hz|Hz].
  { exists acc. split; [done|]. apply hull_skip; [done|]. by intros [? _]. }
  case_bool_decide as Hname.
  { exists acc. split; [done|]. apply hull_skip; [done|]. by intros (_ & ? & _). }
  cbv zeta. destruct (Z.ltb_spec (u64 (sg_vmaddr seg + sg_vmsize seg)) (sg_vmaddr seg)) as [Hwrap|Hfit].
  { exists acc. split; [done|]. apply hull_skip; [done|]. intros (_ & _ & ?). lia. }
  assert (Hm : mappable seg) by (by split_and!).
  assert (Hlast : seg ∈ segs ++ [seg]) by (apply elem_of_app; right; by left).
  fold (segment_end seg). destruct acc as [[low high]|]; cbn in Hh.
  - destruct Hh as ((s & Hs & Hms & Hl) & (t & Ht & Hmt & Hr) & Hall). eexists. split; [done|].
    cbn. split; [|split].
    + destruct (Z.ltb_spec (sg_vmaddr seg) low); [by exists seg|exists s; rewrite elem_of_app; auto].
    + destruct (Z.ltb_spec high (segment_end seg)); [by exists seg|exists t; rewrite elem_of_app; auto].
    + intros r [Hin| ->%list_elem_of_singleton]%elem_of_app Hmr.
      * destruct (Hall r Hin Hmr). destruct (_ <? low) eqn:?, (high <? _) eqn:?; lia.
      * destruct (Z.ltb_spec (sg_vmaddr seg) low), (Z.ltb_spec high (segment_end seg)); lia.
  - eexists. split; [done|]. cbn. split; [by exists seg|]. split; [by exists seg|].
    intros r [Hin| ->%list_elem_of_singleton]%elem_of_app Hmr; [by destruct (Hh r Hin)|lia].
Qed.

(**  The span reported for a loaded image is the hull of its mappable
    segments, moved by the slide: with [__PAGEZERO], empty and wrapping
    segments left out, it begins where the lowest segment begins and ends where
    the highest ends, and every mappable segment lies inside.  An image
    without one is NOT_FOUND; the statuses of the iteration pass through. *)
Theorem image_span_is_hull (mem : memory) (header region slide : Z) :
  header ≠ 0 → readable mem header region →
  ∃ status segs,
    hk_macho_iterate_segments mem collect header region [] = Some (status, segs) ∧
    ∃ acc, hull segs acc ∧
    hk_macho_image_span_for_loaded_image mem header region slide =
      Some match status, acc with
           | HK_MACHO_OK, Some (low, high) => inr (u64 (low + slide), u64 (high + slide))
           | HK_MACHO_OK, None => inl HK_MACHO_NOT_FOUND
           | status, _ => inl status
           end.
Proof.
  intros Hh Hread. unfold hk_macho_image_span_for_loaded_image.
  rewrite (proj2 (Z.eqb_neq header 0) Hh).
  pose proof (runs_iterate_segments Hread collect (λ _, True) (λ _ _ _ _ _, I) [] I) as Hrun.
  apply runs_some in Hrun as ([status segs] & Hcollect & _). exists status, segs. split; [done|].
  pose proof (iterate_segments_sim mem (λ segs acc, hull segs acc) collect span_visit header region
    [] None) as Hsim.
  rewrite Hcollect in Hsim. unfold same_end in Hsim.
  destruct (hk_macho_iterate_segments mem span_visit header region None) as [[status' acc]|].
  - destruct Hsim as [<- Hhull].
    + intros l acc' i seg Hl. destruct (span_visit_hull l acc' i seg Hl) as (acc'' & -> & H). done.
    + intros seg Hin. by apply elem_of_nil in Hin.
    + exists acc. split; [done|]. destruct acc as [[low high]|]; by destruct status.
  - exfalso. apply Hsim.
    + intros l acc' i seg Hl. destruct (span_visit_hull l acc' i seg Hl) as (acc'' & -> & H). done.
    + intros seg Hin. by apply elem_of_nil in Hin.
Qed.

(** C39.  Over any bytes the lookups of the file layout answer, reading nothing
    outside the image, and what they accept lies where it must: a slice inside
    the file and itself a readable Mach-O header of the architecture asked
    for; symbol and string tables inside the image, the entries aligned; export
    trie and chained fixups non-empty ranges of the image. *)
Theorem lookups_stay_inside (mem : memory) (image size cputype cpusubtype : Z) :
  readable mem image size →
  (∃ r, hk_macho_select_slice mem image size cputype cpusubtype = Some r ∧
    accepted (@slice_ok mem image size cputype cpusubtype) r) ∧
  (∃ r, hk_macho_copy_uuid mem image size = Some r ∧ accepted (λ u, length u = 16%nat) r) ∧
  (∃ r, hk_macho_find_symtab_view mem image size = Some r ∧ accepted (@view_in image size) r) ∧
  (∃ r, hk_macho_find_export_trie mem image size = Some r ∧ accepted (@range_in size) r) ∧
  (∃ r, hk_macho_find_chained_fixups mem image size = Some r ∧ accepted (@range_in size) r).
Proof.
  intros Hread. split_and!; apply runs_some.
  - by apply runs_select_slice.
  - by apply runs_copy_uuid.
  - by apply runs_find_symtab_view.
  - by apply runs_find_export_trie.
  - by apply runs_find_chained_fixups.
Qed.

(** ** The theorems on the small image *)

Lemma lookups_stay_inside_witness :
  (∃ r, hk_macho_find_symtab_view DemoImage.memory DemoImage.base DemoImage.size = Some r ∧
    accepted (@view_in DemoImage.base DemoImage.size) r) ∧
  (∃ r, hk_macho_find_export_trie DemoImage.memory DemoImage.base DemoImage.size = Some r ∧
    accepted (@range_in DemoImage.size) r).
Proof.
  destruct (lookups_stay_inside DemoImage.memory DemoImage.base DemoImage.size 0x0100000c 0
    DemoImage.readable) as (_ & _ & Hview & Htrie & _).
  exact (conj Hview Htrie).
Defined.

Lemma image_span_is_hull_witness :
  ∃ status segs,
    hk_macho_iterate_segments DemoImage.memory collect DemoImage.base DemoImage.size [] =
      Some (status, segs) ∧
    ∃ acc, hull segs acc ∧
    hk_macho_image_span_for_loaded_image DemoImage.memory DemoImage.base DemoImage.size 0x1000 =
      Some match status, acc with
           | HK_MACHO_OK, Some (low, high) => inr (u64 (low + 0x1000), u64 (high + 0x1000))
           | HK_MACHO_OK, None => inl HK_MACHO_NOT_FOUND
           | status, _ => inl status
           end.
Proof.
  apply (image_span_is_hull DemoImage.memory DemoImage.base DemoImage.size 0x1000);
    [done|exact DemoImage.readable].
Defined.
