(* ===== verification/SymbolResolve.v ===== *)
(** * HKSymbolResolve.c: which source answers for a symbol

    The candidate names, the export trie and the symbol table tried in the
    order the visibility asks for, and the collection of both sources from a
    file image or a loaded image. *)

From stdpp Require Import base list strings numbers option.
From S2P Require Import Prelude Types Ownership Memory ExportTrie SymbolTable MachO.

Inductive hk_resolve_status : Type :=
  | HK_RESOLVE_OK | HK_RESOLVE_NOT_FOUND | HK_RESOLVE_INVALID_ARGUMENT
  | HK_RESOLVE_NAME_TOO_LONG | HK_RESOLVE_MALFORMED_IMAGE | HK_RESOLVE_UNSUPPORTED.

#[export] Instance hk_resolve_status_eq_dec : EqDecision hk_resolve_status.
Proof. solve_decision. Defined.

Inductive hk_resolve_source : Type :=
  | HK_RESOLVE_SOURCE_NONE | HK_RESOLVE_SOURCE_EXPORT_TRIE | HK_RESOLVE_SOURCE_SYMBOL_TABLE.

Definition HK_RESOLVE_MAX_NAME : Z := 1024.

Record hk_symbol_sources : Type := SymbolSources {
  so_symbol_table : hk_symbol_table_view;
  so_export_trie : Z;
  so_export_trie_size : Z;
  so_header_address : Z;
  so_slide : Z }.

#[export] Instance hk_symbol_sources_eta : Eta hk_symbol_sources := λ r,
  SymbolSources (so_symbol_table r) (so_export_trie r) (so_export_trie_size r)
    (so_header_address r) (so_slide r).

Record hk_symbol_resolution : Type := SymbolResolution {
  sr_address : Z;
  sr_source : hk_resolve_source;
  sr_raw_value : Z;
  sr_n_sect : Z;
  sr_export_flags : Z;
  sr_is_weak : bool }.

(** What [memset] leaves. *)
Definition no_resolution : hk_symbol_resolution :=
  SymbolResolution 0 HK_RESOLVE_SOURCE_NONE 0 0 0 false.
Definition no_view : hk_symbol_table_view := SymbolTableView 0 0 0 0.
Definition no_sources : hk_symbol_sources := SymbolSources no_view 0 0 0 0.

(** The names of [hk_symbol_candidates_t], in order. *)
Definition hk_symbol_build_candidates (name : option (list Z)) (convention : Z)
    : hk_resolve_status + list (list Z) :=
  match name with
  | None => inl HK_RESOLVE_INVALID_ARGUMENT
  | Some name =>
      let length := Z.of_nat (length name) in
      if length =? 0 then inl HK_RESOLVE_INVALID_ARGUMENT
      else if HK_RESOLVE_MAX_NAME <? length then inl HK_RESOLVE_NAME_TOO_LONG
      else if negb (convention =? HK_SYMBOL_NAME_MACHO_EXACT) then inr [name; 95 :: name]
      else inr [name]
  end.

(** What [try_export_trie] and [try_symbol_table] put in [*out_status] and
    [*out] when they return true; [None] is false. *)
Definition tried : Type := option (hk_resolve_status * hk_symbol_resolution).

Section Code.
Context (mem : memory).

Fixpoint try_export_trie_loop (sources : hk_symbol_sources) (out : hk_symbol_resolution)
    (candidates : list (list Z)) : option tried :=
  match candidates with
  | [] => Some None
  | name :: candidates =>
      '(status, symbol) ← hk_export_trie_find mem (so_export_trie sources)
                            (so_export_trie_size sources) (Some name);
      match status, symbol with
      | HK_EXPORT_OK, Some symbol =>
          Some (Some (HK_RESOLVE_OK,
            SymbolResolution (u64 (so_header_address sources + es_address symbol))
              HK_RESOLVE_SOURCE_EXPORT_TRIE (es_address symbol) 0 (es_flags symbol)
              (es_is_weak symbol)))
      | HK_EXPORT_UNSUPPORTED_KIND, Some symbol =>
          Some (Some (HK_RESOLVE_UNSUPPORTED,
            SymbolResolution 0 HK_RESOLVE_SOURCE_EXPORT_TRIE 0 0 (es_flags symbol)
              (es_is_weak symbol)))
      | HK_EXPORT_OK, None | HK_EXPORT_UNSUPPORTED_KIND, None => None
      | HK_EXPORT_MALFORMED, _ => Some (Some (HK_RESOLVE_MALFORMED_IMAGE, out))
      | HK_EXPORT_NOT_FOUND, _ | HK_EXPORT_INVALID_ARGUMENT, _ =>
          try_export_trie_loop sources out candidates
      end
  end.

Definition has_export_trie (sources : hk_symbol_sources) : bool :=
  negb ((so_export_trie sources =? 0) || (so_export_trie_size sources =? 0)).

Definition try_export_trie (sources : hk_symbol_sources) (candidates : list (list Z))
    (out : hk_symbol_resolution) : option tried :=
  if negb (has_export_trie sources) then Some None
  else try_export_trie_loop sources out candidates.

Fixpoint try_symbol_table_loop (sources : hk_symbol_sources) (visibility : hk_symbol_visibility)
    (candidates : list (list Z)) : option tried :=
  match candidates with
  | [] => Some None
  | name :: candidates =>
      found ← hk_symbol_table_find mem (so_symbol_table sources)
                (SymbolQuery (Some name) HK_SYMBOL_NAME_MACHO_EXACT visibility);
      match found with
      | Some m =>
          Some (Some (HK_RESOLVE_OK,
            SymbolResolution (u64 (sm_n_value m + so_slide sources))
              HK_RESOLVE_SOURCE_SYMBOL_TABLE (sm_n_value m) (sm_n_sect m) 0 false))
      | None => try_symbol_table_loop sources visibility candidates
      end
  end.

Definition try_symbol_table (sources : hk_symbol_sources) (candidates : list (list Z))
    (visibility : hk_symbol_visibility) : option tried :=
  if (sv_nlist (so_symbol_table sources) =? 0) || (sv_nlist_count (so_symbol_table sources) =? 0)
  then Some None
  else try_symbol_table_loop sources visibility candidates.

(** [if (try_first) return; if (try_second) return; return NOT_FOUND] *)
Definition or_else (first second : option tried) : option tried :=
  r ← first; match r with Some found => Some (Some found) | None => second end.

Definition resolved (t : option tried)
    : option (hk_resolve_status * option hk_symbol_resolution) :=
  r ← t;
  match r with
  | Some (status, out) => Some (status, Some out)
  | None => Some (HK_RESOLVE_NOT_FOUND, Some no_resolution)
  end.

(** The status, and [*out_resolution] once it has been cleared. *)
Definition hk_resolve_symbol (sources : hk_symbol_sources) (name : option (list Z))
    (convention : Z) (visibility : hk_symbol_visibility)
    : option (hk_resolve_status * option hk_symbol_resolution) :=
  match hk_symbol_build_candidates name convention with
  | inl status => Some (status, None)
  | inr candidates =>
      let trie := try_export_trie sources candidates no_resolution in
      resolved
        match visibility with
        | HK_SYMBOL_VISIBILITY_EXPORTED_ONLY =>
            if has_export_trie sources then trie
            else try_symbol_table sources candidates HK_SYMBOL_VISIBILITY_EXPORTED_ONLY
        | HK_SYMBOL_VISIBILITY_PRIVATE_ALLOWED =>
            or_else (try_symbol_table sources candidates HK_SYMBOL_VISIBILITY_ANY) trie
        | HK_SYMBOL_VISIBILITY_ANY =>
            or_else trie (try_symbol_table sources candidates HK_SYMBOL_VISIBILITY_ANY)
        end
  end.

(** A lookup that may find nothing: [inl] is MALFORMED_IMAGE. *)
Definition optional {A} (r : hk_macho_status + A) : hk_resolve_status + option A :=
  match r with
  | inr a => inr (Some a)
  | inl HK_MACHO_NOT_FOUND => inr None
  | inl _ => inl HK_RESOLVE_MALFORMED_IMAGE
  end.

Definition TEXT : list Z := string_bytes "__TEXT".

Definition hk_symbol_sources_from_file_image (image size : Z)
    : checked hk_resolve_status hk_symbol_sources :=
  if image =? 0 then refuse HK_RESOLVE_INVALID_ARGUMENT
  else
    let sources := no_sources <| so_header_address := image |> in
    text ← hk_macho_find_segment mem image size TEXT;
    match optional text with
    | inl status => refuse status
    | inr text =>
        let slide := match text with Some seg => u64 (image - sg_vmaddr seg) | None => image end in
        let sources := sources <| so_slide := slide |> in
        view ← hk_macho_find_symtab_view mem image size;
        match optional view with
        | inl status => refuse status
        | inr view =>
            let sources := sources <| so_symbol_table := default no_view view |> in
            trie ← hk_macho_find_export_trie mem image size;
            match optional trie with
            | inl status => refuse status
            | inr None => accept sources
            | inr (Some (off, len)) =>
                accept (sources <| so_export_trie := image + off |> <| so_export_trie_size := len |>)
            end
        end
    end.

Definition hk_symbol_sources_from_loaded_image (header header_region_size slide : Z)
    : checked hk_resolve_status hk_symbol_sources :=
  if header =? 0 then refuse HK_RESOLVE_INVALID_ARGUMENT
  else
    let sources := no_sources <| so_header_address := header |> <| so_slide := slide |> in
    view ← hk_macho_symtab_view_for_loaded_image mem header header_region_size slide;
    match optional view with
    | inl status => refuse status
    | inr view =>
        let sources := sources <| so_symbol_table := default no_view view |> in
        trie ← hk_macho_export_trie_for_loaded_image mem header header_region_size slide;
        match optional trie with
        | inl status => refuse status
        | inr None => accept sources
        | inr (Some (address, len)) =>
            accept (sources <| so_export_trie := address |> <| so_export_trie_size := len |>)
        end
    end.

(** [native] is [hk_native_find_loaded_cache_symbol] where it is compiled in:
    the address and the raw value it finds. *)
Definition hk_resolve_loaded_image_symbol
    (native : option (Z → Z → list Z → option (Z * Z)))
    (header header_region_size slide : Z) (name : option (list Z)) (convention : Z)
    (visibility : hk_symbol_visibility)
    : option (hk_resolve_status * option hk_symbol_resolution) :=
  match name with
  | None => Some (HK_RESOLVE_INVALID_ARGUMENT, None)
  | Some n =>
      if header =? 0 then Some (HK_RESOLVE_INVALID_ARGUMENT, None)
      else
        sources ← hk_symbol_sources_from_loaded_image header header_region_size slide;
        match sources with
        | inl status => Some (status, None)
        | inr sources =>
            '(status, out) ← hk_resolve_symbol sources name convention visibility;
            if negb (bool_decide (status = HK_RESOLVE_NOT_FOUND)) ||
               match visibility with HK_SYMBOL_VISIBILITY_EXPORTED_ONLY => true | _ => false end ||
               (convention =? HK_SYMBOL_NAME_MACHO_EXACT)
            then Some (status, out)
            else
              match native with
              | None => Some (status, out)
              | Some native =>
                  match native header (s64 slide) n with
                  | Some (address, raw_value) =>
                      Some (HK_RESOLVE_OK,
                        Some (SymbolResolution address HK_RESOLVE_SOURCE_SYMBOL_TABLE raw_value 0 0
                                false))
                  | None => Some (status, out)
                  end
              end
        end
  end.
End Code.
