(* ===== verification/ImportSlots.v ===== *)
(** * HKImportSlots.c: the import slots of the indirect symbol table

    The tables of an image in either layout, the walk over its symbol-pointer
    sections with the three range checks, and the search for a name. *)

From stdpp Require Import base list strings numbers option.
From S2P Require Import Prelude Types Ownership Memory SymbolTable MachO SymbolResolve.

Inductive hk_import_status : Type :=
  | HK_IMPORT_OK | HK_IMPORT_NOT_FOUND | HK_IMPORT_INVALID_ARGUMENT | HK_IMPORT_MALFORMED
  | HK_IMPORT_NAME_TOO_LONG.

Definition HK_IMPORT_POINTER_SIZE : Z := 8.
Definition HK_INDIRECT_SYMBOL_LOCAL : Z := 0x80000000.
Definition HK_INDIRECT_SYMBOL_ABS : Z := 0x40000000.
Definition HK_SECTION_TYPE : Z := 0x000000ff.
Definition HK_S_NON_LAZY_SYMBOL_POINTERS : Z := 0x00000006.
Definition HK_S_LAZY_SYMBOL_POINTERS : Z := 0x00000007.

Record hk_import_tables : Type := ImportTables {
  it_indirect_symbols : Z;
  it_indirect_count : Z;
  it_symbols : hk_symbol_table_view }.

(** [symbol_name] is the address of the C string. *)
Record hk_import_slot : Type := ImportSlot {
  im_n_sect : Z;
  im_sectname : list Z;
  im_slot_index : Z;
  im_slot_vmaddr : Z;
  im_symtab_index : Z;
  im_symbol_name : Z;
  im_is_lazy : bool }.

Section Code.
Context (mem : memory).

(** The loop of [bounded_string]: whether a NUL comes before the end.
    [fuel] is [strings_size - i]. *)
Fixpoint terminated (fuel : nat) (strings strings_size i : Z) : option bool :=
  match fuel with
  | O => Some false
  | S fuel =>
      if strings_size <=? i then Some false
      else
        c ← read_u8 mem (strings + i);
        if c =? 0 then Some true else terminated fuel strings strings_size (i + 1)
  end.

(** The address of the string; [None] is NULL. *)
Definition bounded_string (strings strings_size offset : Z) : option (option Z) :=
  if strings_size <=? offset then Some None
  else
    found ← terminated (Z.to_nat (strings_size - offset)) strings strings_size offset;
    Some (if found : bool then Some (strings + offset) else None).

(** [strcmp(s, name) == 0] *)
Fixpoint strcmp_equal (s : Z) (name : list Z) : option bool :=
  c ← read_u8 mem s;
  match name with
  | [] => Some (c =? 0)
  | d :: name => if c =? d then strcmp_equal (s + 1) name else Some false
  end.

Fixpoint matches_any (s : Z) (candidates : list (list Z)) : option bool :=
  match candidates with
  | [] => Some false
  | name :: candidates =>
      same ← strcmp_equal s name;
      if same : bool then Some true else matches_any s candidates
  end.

Definition no_tables : hk_import_tables := ImportTables 0 0 no_view.

Definition hk_import_tables_from_file_image (image size : Z)
    : checked hk_import_status hk_import_tables :=
  if image =? 0 then refuse HK_IMPORT_INVALID_ARGUMENT
  else
    view ← hk_macho_find_symtab_view mem image size;
    match optional view with
    | inl _ => refuse HK_IMPORT_MALFORMED
    | inr view =>
        let symbols := default no_view view in
        range ← hk_macho_find_indirect_symbols mem image size;
        match range with
        | inl HK_MACHO_NOT_FOUND => accept (ImportTables 0 0 symbols)
        | inl _ => refuse HK_IMPORT_MALFORMED
        | inr (offset, count) =>
            let bytes := count * 4 in
            if (size <? offset) || (size - offset <? bytes) then refuse HK_IMPORT_MALFORMED
            else accept (ImportTables (image + offset) count symbols)
        end
    end.

Definition hk_import_tables_from_loaded_image (header header_region_size slide : Z)
    : checked hk_import_status hk_import_tables :=
  if header =? 0 then refuse HK_IMPORT_INVALID_ARGUMENT
  else
    view ← hk_macho_symtab_view_for_loaded_image mem header header_region_size slide;
    match optional view with
    | inl _ => refuse HK_IMPORT_MALFORMED
    | inr view =>
        let symbols := default no_view view in
        range ← hk_macho_find_indirect_symbols mem header header_region_size;
        match range with
        | inl HK_MACHO_NOT_FOUND => accept (ImportTables 0 0 symbols)
        | inl _ => refuse HK_IMPORT_MALFORMED
        | inr (offset, count) =>
            linkedit ← hk_macho_find_segment mem header header_region_size LINKEDIT;
            match linkedit with
            | inl HK_MACHO_NOT_FOUND => accept (ImportTables 0 0 symbols)
            | inl _ => refuse HK_IMPORT_MALFORMED
            | inr seg =>
                if (UINT64_MAX - sg_fileoff seg <? sg_filesize seg) ||
                   (sg_vmaddr seg <? sg_fileoff seg)
                then refuse HK_IMPORT_MALFORMED
                else
                  let le_start := sg_fileoff seg in
                  let le_end := sg_fileoff seg + sg_filesize seg in
                  let bytes := count * 4 in
                  if (offset <? le_start) || (le_end <? offset) || (le_end - offset <? bytes)
                  then refuse HK_IMPORT_MALFORMED
                  else
                    let linkedit_base := u64 (slide + (sg_vmaddr seg - sg_fileoff seg)) in
                    accept (ImportTables (u64 (linkedit_base + offset)) count symbols)
            end
        end
    end.

Section Iterate.
Context {C : Type} (visit : C → hk_import_slot → visited C).

(** [slots_ctx_t]: the callback's context, [malformed] and [stopped]. *)
Record slots_ctx : Type := SlotsCtx {
  sl_ctx : C; sl_malformed : bool; sl_stopped : bool }.

(** The loop over the slots of one section, [count] of them left. *)
Fixpoint slots_loop (count : nat) (tables : hk_import_tables) (n_sect : Z)
    (section : hk_macho_section) (lazy : bool) (i : Z) (s : slots_ctx) : visited slots_ctx :=
  let malformed := Some (false, SlotsCtx (sl_ctx s) true (sl_stopped s)) in
  match count with
  | O => Some (true, s)
  | S count =>
      entry ← read_u32 mem (it_indirect_symbols tables + (sc_reserved1 section + i) * 4);
      if negb (Z.land entry (Z.lor HK_INDIRECT_SYMBOL_LOCAL HK_INDIRECT_SYMBOL_ABS) =? 0)
      then slots_loop count tables n_sect section lazy (i + 1) s
      else if sv_nlist_count (it_symbols tables) <=? entry then malformed
      else
        sym ← nlist_at mem (sv_nlist (it_symbols tables)) entry;
        name ← bounded_string (sv_strings (it_symbols tables))
                 (sv_strings_size (it_symbols tables)) (n_strx sym);
        match name with
        | None => malformed
        | Some name =>
            let slot := ImportSlot n_sect (sc_sectname section) (u32 i)
              (u64 (sc_addr section + i * HK_IMPORT_POINTER_SIZE)) entry name lazy in
            '(go_on, ctx) ← visit (sl_ctx s) slot;
            if go_on : bool
            then slots_loop count tables n_sect section lazy (i + 1)
                   (SlotsCtx ctx (sl_malformed s) (sl_stopped s))
            else Some (false, SlotsCtx ctx (sl_malformed s) true)
        end
  end.

Definition slots_visit_section (tables : hk_import_tables) (s : slots_ctx) (n_sect : Z)
    (section : hk_macho_section) : visited slots_ctx :=
  let type := Z.land (sc_flags section) HK_SECTION_TYPE in
  let lazy := type =? HK_S_LAZY_SYMBOL_POINTERS in
  let malformed := Some (false, SlotsCtx (sl_ctx s) true (sl_stopped s)) in
  if negb (type =? HK_S_NON_LAZY_SYMBOL_POINTERS) && negb lazy then Some (true, s)
  else if negb (sc_size section mod HK_IMPORT_POINTER_SIZE =? 0) then malformed
  else
    let slot_count := sc_size section / HK_IMPORT_POINTER_SIZE in
    if it_indirect_count tables <? u64 (sc_reserved1 section + slot_count) then malformed
    else slots_loop (Z.to_nat slot_count) tables n_sect section lazy 0 s.

Definition hk_import_slots_iterate (image image_size : Z) (tables : hk_import_tables) (ctx : C)
    : option (hk_import_status * C) :=
  if image =? 0 then Some (HK_IMPORT_INVALID_ARGUMENT, ctx)
  else if (it_indirect_symbols tables =? 0) || (it_indirect_count tables =? 0) ||
          (sv_nlist (it_symbols tables) =? 0) || (sv_strings (it_symbols tables) =? 0)
  then Some (HK_IMPORT_OK, ctx)
  else
    '(status, s) ← hk_macho_iterate_sections mem (slots_visit_section tables) image image_size
                      (SlotsCtx ctx false false);
    Some (match status with
          | HK_MACHO_OK => if sl_malformed s then HK_IMPORT_MALFORMED else HK_IMPORT_OK
          | _ => HK_IMPORT_MALFORMED
          end, sl_ctx s).
End Iterate.

Definition find_visit (candidates : list (list Z)) (found : option hk_import_slot)
    (slot : hk_import_slot) : visited (option hk_import_slot) :=
  same ← matches_any (im_symbol_name slot) candidates;
  if same : bool then Some (false, Some slot) else Some (true, found).

Definition hk_import_slots_find (image image_size : Z) (tables : hk_import_tables)
    (name : option (list Z)) (convention : Z) : checked hk_import_status hk_import_slot :=
  match name with
  | None => refuse HK_IMPORT_INVALID_ARGUMENT
  | Some _ =>
      if image =? 0 then refuse HK_IMPORT_INVALID_ARGUMENT
      else
        match hk_symbol_build_candidates name convention with
        | inl HK_RESOLVE_NAME_TOO_LONG => refuse HK_IMPORT_NAME_TOO_LONG
        | inl _ => refuse HK_IMPORT_INVALID_ARGUMENT
        | inr candidates =>
            '(status, found) ← hk_import_slots_iterate (find_visit candidates) image image_size
                                 tables None;
            match status, found with
            | HK_IMPORT_OK, Some slot => accept slot
            | HK_IMPORT_OK, None => refuse HK_IMPORT_NOT_FOUND
            | status, _ => refuse status
            end
        end
  end.
End Code.
