(* ===== verification/ChainedFixups.v ===== *)
(** * HKChainedFixups.c: LC_DYLD_CHAINED_FIXUPS

    The header, the imports and their names, the pointer formats, and the walk
    over the chains of every segment, in the mapped layout or the file's. *)

From stdpp Require Import base list strings numbers option.
From S2P Require Import Prelude Types Memory SymbolTable MachO SymbolResolve ImportSlots.

Inductive hk_chained_status : Type :=
  | HK_CHAINED_OK | HK_CHAINED_NOT_FOUND | HK_CHAINED_INVALID_ARGUMENT | HK_CHAINED_MALFORMED
  | HK_CHAINED_UNSUPPORTED_VERSION | HK_CHAINED_UNSUPPORTED_FORMAT | HK_CHAINED_NAME_TOO_LONG.

#[export] Instance hk_chained_status_eq_dec : EqDecision hk_chained_status.
Proof. solve_decision. Defined.

Definition HK_CHAINED_HEADER_SIZE : Z := 28.
Definition HK_CHAINED_IMPORT : Z := 1.
Definition HK_CHAINED_IMPORT_ADDEND : Z := 2.
Definition HK_CHAINED_IMPORT_ADDEND64 : Z := 3.
Definition HK_CHAINED_IMPORT_SIZE : Z := 4.
Definition HK_CHAINED_IMPORT_ADDEND_SIZE : Z := 8.
Definition HK_CHAINED_IMPORT_ADDEND64_SIZE : Z := 16.
Definition HK_CHAINED_SYMBOLS_UNCOMPRESSED : Z := 0.
Definition HK_CHAINED_PTR_ARM64E : Z := 1.
Definition HK_CHAINED_PTR_64 : Z := 2.
Definition HK_CHAINED_PTR_64_OFFSET : Z := 6.
Definition HK_CHAINED_PTR_ARM64E_USERLAND : Z := 9.
Definition HK_CHAINED_PTR_ARM64E_USERLAND24 : Z := 12.
Definition HK_CHAINED_PTR_START_NONE : Z := 0xFFFF.
Definition HK_CHAINED_PTR_START_MULTI : Z := 0x8000.
Definition HK_CHAINED_PTR_START_LAST : Z := 0x8000.
Definition HK_CHAINED_STARTS_IN_SEGMENT_HEADER : Z := 22.

Record hk_chained_fixups : Type := ChainedFixups {
  cf_blob : Z;
  cf_size : Z;
  cf_fixups_version : Z;
  cf_starts_offset : Z;
  cf_imports_offset : Z;
  cf_symbols_offset : Z;
  cf_imports_count : Z;
  cf_imports_format : Z;
  cf_symbols_format : Z;
  cf_import_entry_size : Z;
  cf_symbols_size : Z }.

(** [symbol_name] is the address of the C string. *)
Record hk_chained_import : Type := ChainedImport {
  ci_index : Z;
  ci_lib_ordinal : Z;
  ci_weak_import : bool;
  ci_symbol_name : Z;
  ci_addend : Z }.

Record hk_chained_bind : Type := ChainedBind {
  cb_slot_image_offset : Z;
  cb_import_ordinal : Z;
  cb_segment_index : Z;
  cb_pointer_format : Z;
  cb_is_auth : bool;
  cb_key : Z;
  cb_diversity : Z;
  cb_address_diversity : bool;
  cb_addend : Z }.

Record hk_chained_segment_mapping : Type := SegmentMapping {
  cm_image_offset : Z;
  cm_file_offset : Z;
  cm_file_size : Z }.

Definition import_entry_size (format : Z) : Z :=
  if format =? HK_CHAINED_IMPORT then HK_CHAINED_IMPORT_SIZE
  else if format =? HK_CHAINED_IMPORT_ADDEND then HK_CHAINED_IMPORT_ADDEND_SIZE
  else if format =? HK_CHAINED_IMPORT_ADDEND64 then HK_CHAINED_IMPORT_ADDEND64_SIZE
  else 0.

(** A [bits]-bit two's-complement value. *)
Definition narrow (value bits : Z) : Z :=
  let v := value mod 2 ^ bits in if v <? 2 ^ (bits - 1) then v else v - 2 ^ bits.

(** [0] is a format that is not decoded. *)
Definition format_stride (pointer_format : Z) : Z :=
  if (pointer_format =? HK_CHAINED_PTR_ARM64E) ||
     (pointer_format =? HK_CHAINED_PTR_ARM64E_USERLAND) ||
     (pointer_format =? HK_CHAINED_PTR_ARM64E_USERLAND24) then 8
  else if (pointer_format =? HK_CHAINED_PTR_64) || (pointer_format =? HK_CHAINED_PTR_64_OFFSET)
  then 4
  else 0.

Definition format_is_arm64e (pointer_format : Z) : bool :=
  (pointer_format =? HK_CHAINED_PTR_ARM64E) ||
  (pointer_format =? HK_CHAINED_PTR_ARM64E_USERLAND) ||
  (pointer_format =? HK_CHAINED_PTR_ARM64E_USERLAND24).

Record chained_ptr : Type := ChainedPtr {
  cp_is_bind : bool;
  cp_is_auth : bool;
  cp_ordinal : Z;
  cp_next : Z;
  cp_key : Z;
  cp_diversity : Z;
  cp_address_diversity : bool;
  cp_addend : Z }.

Definition sign_extend (value bits : Z) : Z :=
  let sign := 2 ^ (bits - 1) in s64 (u64 (Z.lxor value sign - sign)).

Definition bit (raw n : Z) : bool := negb (Z.land (Z.shiftr raw n) 1 =? 0).

Definition decode_pointer (raw pointer_format : Z) : chained_ptr :=
  if format_is_arm64e pointer_format then
    let is_auth := bit raw 63 in
    let is_bind := bit raw 62 in
    let next := Z.land (Z.shiftr raw 51) 0x7FF in
    let ordinal := if pointer_format =? HK_CHAINED_PTR_ARM64E_USERLAND24
                   then Z.land raw 0xFFFFFF else Z.land raw 0xFFFF in
    if is_bind && is_auth then
      ChainedPtr is_bind is_auth ordinal next (Z.land (Z.shiftr raw 49) 0x3)
        (Z.land (Z.shiftr raw 32) 0xFFFF) (bit raw 48) 0
    else if is_bind then
      ChainedPtr is_bind is_auth ordinal next 0 0 false
        (sign_extend (Z.land (Z.shiftr raw 32) 0x7FFFF) 19)
    else ChainedPtr is_bind is_auth ordinal next 0 0 false 0
  else
    let is_bind := bit raw 63 in
    let next := Z.land (Z.shiftr raw 51) 0xFFF in
    let ordinal := Z.land raw 0xFFFFFF in
    ChainedPtr is_bind false ordinal next 0 0 false
      (if is_bind then Z.land (Z.shiftr raw 24) 0xFF else 0).

Section Code.
Context (mem : memory).

(** [pool_string]: the same bounded scan as [bounded_string]. *)
Definition pool_string (pool pool_size offset : Z) : option (option Z) :=
  if pool_size <=? offset then Some None
  else
    found ← terminated mem (Z.to_nat (pool_size - offset)) pool pool_size offset;
    Some (if found : bool then Some (pool + offset) else None).

Definition hk_chained_fixups_parse (blob size : Z) : checked hk_chained_status hk_chained_fixups :=
  if blob =? 0 then refuse HK_CHAINED_INVALID_ARGUMENT
  else if size <? HK_CHAINED_HEADER_SIZE then refuse HK_CHAINED_MALFORMED
  else
    version ← read_u32 mem (blob + 0); starts ← read_u32 mem (blob + 4);
    imports ← read_u32 mem (blob + 8); symbols ← read_u32 mem (blob + 12);
    count ← read_u32 mem (blob + 16); format ← read_u32 mem (blob + 20);
    symbols_format ← read_u32 mem (blob + 24);
    if negb (version =? 0) then refuse HK_CHAINED_UNSUPPORTED_VERSION
    else if negb (symbols_format =? HK_CHAINED_SYMBOLS_UNCOMPRESSED)
    then refuse HK_CHAINED_UNSUPPORTED_FORMAT
    else
      let entry_size := import_entry_size format in
      if (0 <? count) && (entry_size =? 0) then refuse HK_CHAINED_UNSUPPORTED_FORMAT
      else if (size <? starts) || (size <? imports) || (size <? symbols)
      then refuse HK_CHAINED_MALFORMED
      else if size - imports <? count * entry_size then refuse HK_CHAINED_MALFORMED
      else accept (ChainedFixups blob size version starts imports symbols count format
                     symbols_format entry_size (size - symbols)).

(** The fields of an import word: ordinal, weak flag, name offset, addend. *)
Definition import_fields (format entry : Z) : checked hk_chained_status (Z * bool * Z * Z) :=
  if (format =? HK_CHAINED_IMPORT) || (format =? HK_CHAINED_IMPORT_ADDEND) then
    word ← read_u32 mem entry;
    addend ← (if format =? HK_CHAINED_IMPORT_ADDEND
              then a ← read_u32 mem (entry + 4); Some (narrow a 32) else Some 0);
    accept (narrow (Z.land word 0xff) 8, bit word 8, Z.land (Z.shiftr word 9) 0x7fffff, addend)
  else if format =? HK_CHAINED_IMPORT_ADDEND64 then
    word ← read_u64 mem entry;
    addend ← read_u64 mem (entry + 8);
    accept (narrow (Z.land word 0xffff) 16, bit word 16, Z.land (Z.shiftr word 32) 0xffffffff,
            s64 addend)
  else refuse HK_CHAINED_UNSUPPORTED_FORMAT.

Definition hk_chained_import_at (fixups : hk_chained_fixups) (index : Z)
    : checked hk_chained_status hk_chained_import :=
  if cf_blob fixups =? 0 then refuse HK_CHAINED_INVALID_ARGUMENT
  else if cf_imports_count fixups <=? index then refuse HK_CHAINED_NOT_FOUND
  else
    let entry := cf_blob fixups + (cf_imports_offset fixups + index * cf_import_entry_size fixups) in
    fields <~ import_fields (cf_imports_format fixups) entry ;;
    let '(lib_ordinal, weak, name_offset, addend) := fields in
    name ← pool_string (cf_blob fixups + cf_symbols_offset fixups) (cf_symbols_size fixups)
             name_offset;
    match name with
    | None => refuse HK_CHAINED_MALFORMED
    | Some name => accept (ChainedImport index lib_ordinal weak name addend)
    end.

(** The loop over the imports from [i], [count] of them left. *)
Fixpoint imports_find_loop (count : nat) (fixups : hk_chained_fixups)
    (candidates : list (list Z)) (i : Z) : checked hk_chained_status hk_chained_import :=
  match count with
  | O => refuse HK_CHAINED_NOT_FOUND
  | S count =>
      import <~ hk_chained_import_at fixups i ;;
      same ← matches_any mem (ci_symbol_name import) candidates;
      if same : bool then accept import else imports_find_loop count fixups candidates (i + 1)
  end.

Definition hk_chained_imports_find (fixups : hk_chained_fixups) (name : option (list Z))
    (convention : Z) : checked hk_chained_status hk_chained_import :=
  match hk_symbol_build_candidates name convention with
  | inl HK_RESOLVE_NAME_TOO_LONG => refuse HK_CHAINED_NAME_TOO_LONG
  | inl _ => refuse HK_CHAINED_INVALID_ARGUMENT
  | inr candidates =>
      imports_find_loop (Z.to_nat (cf_imports_count fixups)) fixups candidates 0
  end.

(** ** Traversal *)

(** [chain_ctx_t], the visitor, its context and [stopped] apart. *)
Record chain_ctx : Type := ChainCtx {
  ch_storage : Z;
  ch_storage_size : Z;
  ch_storage_segment_start : Z;
  ch_storage_segment_size : Z;
  ch_pointer_format : Z;
  ch_stride : Z;
  ch_segment_start : Z;
  ch_segment_end : Z;
  ch_segment_index : Z }.

Section Traversal.
Context {C : Type} (visit : C → hk_chained_bind → visited C).

(** The status, whether the visitor stopped, and its context. *)
Definition walked : Type := hk_chained_status * bool * C.

Definition bind_of (c : chain_ctx) (offset : Z) (ptr : chained_ptr) : hk_chained_bind :=
  ChainedBind offset (cp_ordinal ptr) (ch_segment_index c) (ch_pointer_format c) (cp_is_auth ptr)
    (cp_key ptr) (cp_diversity ptr) (cp_address_diversity ptr) (cp_addend ptr).

(** [walk_chain].  Running out of [fuel] has no result. *)
Fixpoint walk_chain (fuel : nat) (c : chain_ctx) (offset : Z) (ctx : C) : option walked :=
  match fuel with
  | O => None
  | S fuel =>
      if (offset <? ch_segment_start c) || (ch_segment_end c <? offset) ||
         (ch_segment_end c - offset <? 8)
      then Some (HK_CHAINED_MALFORMED, false, ctx)
      else
        let within_segment := offset - ch_segment_start c in
        if (ch_storage_segment_size c <? within_segment + 8) ||
           (ch_storage_size c <? ch_storage_segment_start c) ||
           (ch_storage_size c - ch_storage_segment_start c <? within_segment + 8)
        then Some (HK_CHAINED_MALFORMED, false, ctx)
        else
          raw ← read_u64 mem (ch_storage c + (ch_storage_segment_start c + within_segment));
          let ptr := decode_pointer raw (ch_pointer_format c) in
          '(go_on, ctx) ← (if cp_is_bind ptr then visit ctx (bind_of c offset ptr)
                           else Some (true, ctx));
          if negb go_on then Some (HK_CHAINED_OK, true, ctx)
          else if cp_next ptr =? 0 then Some (HK_CHAINED_OK, false, ctx)
          else
            let advanced := u64 (offset + cp_next ptr * ch_stride c) in
            if advanced <=? offset then Some (HK_CHAINED_MALFORMED, false, ctx)
            else walk_chain fuel c advanced ctx
  end.

(** A chain has at most one entry per stride of its segment. *)
Definition chain_fuel (c : chain_ctx) : nat :=
  S (Z.to_nat (ch_segment_end c - ch_segment_start c)).

(** The overflow list of a page, from [index]. *)
Fixpoint walk_multi (fuel : nat) (c : chain_ctx) (page_start starts_extent page_base index : Z)
    (ctx : C) : option walked :=
  match fuel with
  | O => None
  | S fuel =>
      let entry_off := index * 2 in
      if starts_extent <? entry_off + 2 then Some (HK_CHAINED_MALFORMED, false, ctx)
      else
        entry ← read_u16 mem (page_start + entry_off);
        let offset_in_page := Z.land entry (Z.lxor 0xFFFF HK_CHAINED_PTR_START_LAST) in
        '(status, stopped, ctx) ← walk_chain (chain_fuel c) c (u64 (page_base + offset_in_page)) ctx;
        if negb (bool_decide (status = HK_CHAINED_OK)) || stopped
        then Some (status, stopped, ctx)
        else if negb (Z.land entry HK_CHAINED_PTR_START_LAST =? 0)
        then Some (HK_CHAINED_OK, false, ctx)
        else walk_multi fuel c page_start starts_extent page_base (index + 1) ctx
  end.

(** The loop over the pages from [page], [count] of them left. *)
Fixpoint walk_pages (count : nat) (c : chain_ctx) (page_start starts_extent segment_off page_size
    page : Z) (ctx : C) : option walked :=
  match count with
  | O => Some (HK_CHAINED_OK, false, ctx)
  | S count =>
      start ← read_u16 mem (page_start + page * 2);
      if start =? HK_CHAINED_PTR_START_NONE
      then walk_pages count c page_start starts_extent segment_off page_size (page + 1) ctx
      else
        let page_base := u64 (segment_off + page * page_size) in
        '(status, stopped, ctx) ←
          (if negb (Z.land start HK_CHAINED_PTR_START_MULTI =? 0)
           then walk_multi (S (Z.to_nat starts_extent)) c page_start starts_extent page_base
                  (Z.land start (Z.lxor 0xFFFFFFFF HK_CHAINED_PTR_START_MULTI)) ctx
           else walk_chain (chain_fuel c) c (u64 (page_base + start)) ctx);
        if negb (bool_decide (status = HK_CHAINED_OK)) || stopped
        then Some (status, stopped, ctx)
        else walk_pages count c page_start starts_extent segment_off page_size (page + 1) ctx
  end.

Definition walk_segment (fixups : hk_chained_fixups) (storage storage_size : Z)
    (mapping : option hk_chained_segment_mapping) (seg_info_offset segment_index : Z) (ctx : C)
    : option walked :=
  let blob_size := cf_size fixups in
  let malformed := Some (HK_CHAINED_MALFORMED, false, ctx) in
  if (blob_size <? seg_info_offset) ||
     (blob_size - seg_info_offset <? HK_CHAINED_STARTS_IN_SEGMENT_HEADER)
  then malformed
  else
    let seg := cf_blob fixups + seg_info_offset in
    declared_size ← read_u32 mem (seg + 0); page_size ← read_u16 mem (seg + 4);
    ptr_format ← read_u16 mem (seg + 6); segment_off ← read_u64 mem (seg + 8);
    page_count ← read_u16 mem (seg + 20);
    if page_size =? 0 then malformed
    else
      let stride := format_stride ptr_format in
      if stride =? 0 then Some (HK_CHAINED_UNSUPPORTED_FORMAT, false, ctx)
      else
        let available := blob_size - seg_info_offset - HK_CHAINED_STARTS_IN_SEGMENT_HEADER in
        if declared_size <? HK_CHAINED_STARTS_IN_SEGMENT_HEADER then malformed
        else
          let starts_extent := declared_size - HK_CHAINED_STARTS_IN_SEGMENT_HEADER in
          if available <? starts_extent then malformed
          else if starts_extent <? page_count * 2 then malformed
          else if match mapping with
                  | Some m => negb (cm_image_offset m =? segment_off)
                  | None => false
                  end
          then malformed
          else
            let segment_span := page_count * page_size in
            if UINT64_MAX - segment_off <? segment_span then malformed
            else
              let c := ChainCtx storage storage_size
                match mapping with Some m => cm_file_offset m | None => segment_off end
                match mapping with
                | Some m => cm_file_size m
                | None => storage_size -
                    (if segment_off <=? storage_size then segment_off else storage_size)
                end
                ptr_format stride segment_off (segment_off + segment_span) segment_index in
              walk_pages (Z.to_nat page_count) c (seg + HK_CHAINED_STARTS_IN_SEGMENT_HEADER)
                starts_extent segment_off page_size 0 ctx.

(** The loop over the segments from [i], [count] of them left. *)
Fixpoint segments_loop (count : nat) (fixups : hk_chained_fixups) (storage storage_size : Z)
    (segments : option (list hk_chained_segment_mapping)) (i : Z) (ctx : C)
    : option (hk_chained_status * C) :=
  match count with
  | O => Some (HK_CHAINED_OK, ctx)
  | S count =>
      let starts := cf_starts_offset fixups in
      seg_info_offset ← read_u32 mem (cf_blob fixups + (starts + 4 + i * 4));
      if seg_info_offset =? 0
      then segments_loop count fixups storage storage_size segments (i + 1) ctx
      else if match segments with Some l => Z.of_nat (length l) <=? i | None => false end
      then Some (HK_CHAINED_MALFORMED, ctx)
      else if cf_size fixups - starts <? seg_info_offset then Some (HK_CHAINED_MALFORMED, ctx)
      else
        '(status, stopped, ctx) ←
          walk_segment fixups storage storage_size
            match segments with Some l => l !! Z.to_nat i | None => None end
            (starts + seg_info_offset) i ctx;
        if negb (bool_decide (status = HK_CHAINED_OK)) then Some (status, ctx)
        else if stopped : bool then Some (HK_CHAINED_OK, ctx)
        else segments_loop count fixups storage storage_size segments (i + 1) ctx
  end.

(** [segments] is the array and its length, [None] for NULL. *)
Definition iterate_binds (fixups : hk_chained_fixups) (storage_base storage_size : Z)
    (segments : option (list hk_chained_segment_mapping)) (ctx : C)
    : option (hk_chained_status * C) :=
  if (cf_blob fixups =? 0) || (storage_base =? 0) ||
     match segments with Some [] => true | _ => false end
  then Some (HK_CHAINED_INVALID_ARGUMENT, ctx)
  else
    let starts := cf_starts_offset fixups in
    if (cf_size fixups <? starts) || (cf_size fixups - starts <? 4)
    then Some (HK_CHAINED_MALFORMED, ctx)
    else
      seg_count ← read_u32 mem (cf_blob fixups + starts);
      if cf_size fixups - starts - 4 <? seg_count * 4 then Some (HK_CHAINED_MALFORMED, ctx)
      else segments_loop (Z.to_nat seg_count) fixups storage_base storage_size segments 0 ctx.

Definition hk_chained_fixups_iterate_binds (fixups : hk_chained_fixups)
    (image_base image_size : Z) (ctx : C) : option (hk_chained_status * C) :=
  iterate_binds fixups image_base image_size None ctx.

Definition hk_chained_fixups_iterate_file_binds (fixups : hk_chained_fixups)
    (file_base file_size : Z) (segments : option (list hk_chained_segment_mapping)) (ctx : C)
    : option (hk_chained_status * C) :=
  match segments with
  | None => Some (HK_CHAINED_INVALID_ARGUMENT, ctx)
  | Some _ => iterate_binds fixups file_base file_size segments ctx
  end.
End Traversal.
End Code.
