(* ===== verification/WalkInvariants.v ===== *)
(** * What a visitor keeps, a walk keeps

    The traversals of the resolvers over memory of any kind: an invariant of the
    visitor's context holds whenever the traversal comes back.  That they do come
    back over readable memory is shown with each of them. *)

From stdpp Require Import base list numbers option.
From S2P Require Import Prelude Memory ExportTrie SymbolTable SymbolResolve MachO ImportSlots ChainedFixups.

(** If it has a result, the result satisfies [Q]. *)
Definition ends {A} (m : option A) (Q : A → Prop) : Prop :=
  match m with Some v => Q v | None => True end.

Lemma ends_value {A} (m : option A) (Q : A → Prop) v : ends m Q → m = Some v → Q v.
Proof. by intros H ->. Qed.

Lemma ends_bind {A B} (m : option A) (k : A → option B) R (Q : B → Prop) :
  ends m R → (∀ v, R v → ends (k v) Q) → ends (m ≫= k) Q.
Proof. destruct m as [a|]; cbn; [auto|done]. Qed.

(** A read of which nothing needs to be known. *)
Lemma ends_after {A B} (m : option A) (k : A → option B) (Q : B → Prop) :
  (∀ v, ends (k v) Q) → ends (m ≫= k) Q.
Proof. destruct m as [a|]; cbn; [auto|done]. Qed.

Lemma ends_conseq {A} (m : option A) (Q Q' : A → Prop) : ends m Q → (∀ v, Q v → Q' v) → ends m Q'.
Proof. destruct m; cbn; auto. Qed.

(** The tests behind a visit: each ends the walk, or goes on with it. *)
Ltac walks :=
  cbv zeta;
  repeat match goal with |- ends (if ?b then _ else _) _ => destruct b; [done|] end;
  repeat match goal with |- ends (if ?b then _ else _) _ => destruct b end;
  auto.

Section Chains.
Context (mem : memory) {C : Type} (visit : C → hk_chained_bind → visited C) (I : C → Prop).
Hypothesis Hvisit : ∀ ctx b, I ctx → ends (visit ctx b) (λ r, I r.2).

Lemma ends_walk_chain fuel c offset ctx :
  I ctx → ends (walk_chain mem visit fuel c offset ctx) (λ r, I r.2).
Proof.
  revert offset ctx. induction fuel as [|fuel IH]; intros offset ctx Hctx; cbn [walk_chain]; [done|].
  destruct (_ || _ || _); [done|]. cbv zeta. destruct (_ || _ || _); [done|].
  apply ends_after. intros raw. eapply ends_bind with (R := λ r, I r.2).
  { destruct (cp_is_bind _); [by apply Hvisit|done]. }
  intros [go ctx'] Hctx'. walks.
Qed.

Lemma ends_walk_multi fuel c page_start extent page_base index ctx :
  I ctx → ends (walk_multi mem visit fuel c page_start extent page_base index ctx) (λ r, I r.2).
Proof.
  revert index ctx. induction fuel as [|fuel IH]; intros index ctx Hctx; cbn [walk_multi]; [done|].
  cbv zeta. destruct (_ <? _); [done|]. apply ends_after. intros entry.
  eapply ends_bind; [by apply ends_walk_chain|]. intros [[status stopped] ctx'] Hctx'. walks.
Qed.

Lemma ends_walk_pages count c page_start extent segment_off page_size page ctx :
  I ctx → ends (walk_pages mem visit count c page_start extent segment_off page_size page ctx) (λ r, I r.2).
Proof.
  revert page ctx. induction count as [|count IH]; intros page ctx Hctx; cbn [walk_pages]; [done|].
  apply ends_after. intros start. destruct (_ =? _); [by apply IH|]. cbv zeta.
  eapply ends_bind with (R := λ r, I r.2).
  { destruct (negb _); [by apply ends_walk_multi|by apply ends_walk_chain]. }
  intros [[status stopped] ctx'] Hctx'. walks.
Qed.

Lemma ends_walk_segment f storage size mapping off index ctx :
  I ctx → ends (walk_segment mem visit f storage size mapping off index ctx) (λ r, I r.2).
Proof.
  intros Hctx. unfold walk_segment. cbv zeta. destruct (_ || _); [done|].
  do 5 (apply ends_after; intros ?). do 7 (match goal with |- ends (if ?b then _ else _) _ => destruct b; [done|] end). by apply ends_walk_pages.
Qed.

Lemma ends_segments_loop count f storage size segments i ctx :
  I ctx → ends (segments_loop mem visit count f storage size segments i ctx) (λ r, I r.2).
Proof.
  revert i ctx. induction count as [|count IH]; intros i ctx Hctx; cbn [segments_loop]; [done|].
  cbv zeta. apply ends_after. intros off. destruct (_ =? _); [by apply IH|].
  match goal with |- ends (if ?b then _ else _) _ => destruct b; [done|] end. destruct (_ <? _); [done|].
  eapply ends_bind; [by apply ends_walk_segment|]. intros [[status stopped] ctx'] Hctx'. walks.
Qed.

Lemma ends_file_binds f storage size segments ctx :
  I ctx → ends (hk_chained_fixups_iterate_file_binds mem visit f storage size segments ctx) (λ r, I r.2).
Proof.
  intros Hctx. unfold hk_chained_fixups_iterate_file_binds, iterate_binds. cbv zeta.
  destruct segments as [l|]; [|done]. destruct (_ || _); [done|]. destruct (_ || _); [done|].
  apply ends_after. intros count. destruct (_ <? _); [done|]. by apply ends_segments_loop.
Qed.
End Chains.

Section Commands.
Context (mem : memory) {C : Type} (visit : C → Z → Z → Z → visited C) (I : C → Prop).
Hypothesis Hvisit : ∀ ctx cmd offset cmdsize, I ctx → ends (visit ctx cmd offset cmdsize) (λ r, I r.2).

Lemma ends_commands_loop n base offset stop ctx :
  I ctx → ends (commands_loop mem visit n base offset stop ctx) (λ r, I r.2).
Proof.
  revert offset ctx. induction n as [|n IH]; intros offset ctx Hctx; cbn [commands_loop]; [done|].
  destruct (_ <? _); [done|]. do 2 (apply ends_after; intros ?). destruct (_ || _); [done|].
  destruct (_ <? _); [done|]. eapply ends_bind; [by apply Hvisit|]. intros [go ctx'] Hctx'. walks.
Qed.

Lemma ends_iterate image size ctx :
  I ctx → ends (hk_macho_iterate_load_commands mem visit image size ctx) (λ r, I r.2).
Proof.
  intros Hctx. unfold hk_macho_iterate_load_commands. apply ends_after. intros [status|h]; [done|].
  by apply ends_commands_loop.
Qed.
End Commands.

Section Slots.
Context (mem : memory) {C : Type} (visit : C → hk_import_slot → visited C) (I : C → Prop).
Hypothesis Hvisit : ∀ ctx s, I ctx → ends (visit ctx s) (λ r, I r.2).

Lemma ends_slots_loop count tables n section lazy i s :
  I (sl_ctx s) → ends (slots_loop mem visit count tables n section lazy i s) (λ r, I (sl_ctx r.2)).
Proof.
  revert i s. induction count as [|count IH]; intros i s Hs; cbn [slots_loop]; [done|]. cbv zeta.
  apply ends_after. intros entry. destruct (negb _); [by apply IH|]. destruct (_ <=? _); [done|].
  do 2 (apply ends_after; intros ?). match goal with |- ends (match ?o with _ => _ end) _ => destruct o; [|done] end.
  eapply ends_bind; [by apply Hvisit|]. intros [go ctx'] Hctx'. destruct go; [by apply IH|done].
Qed.

Lemma ends_slots_section tables s n section :
  I (sl_ctx s) → ends (slots_visit_section mem visit tables s n section) (λ r, I (sl_ctx r.2)).
Proof.
  intros Hs. unfold slots_visit_section. cbv zeta. destruct (_ && _); [done|]. destruct (negb _); [done|].
  destruct (_ <? _); [done|]. by apply ends_slots_loop.
Qed.
End Slots.

Section Sections.
Context (mem : memory) {C : Type} (visit : C → Z → hk_macho_section → visited C) (I : C → Prop).
Hypothesis Hvisit : ∀ ctx n s, I ctx → ends (visit ctx n s) (λ r, I r.2).

Lemma ends_sections_loop count base offset running i ctx :
  I ctx → ends (sections_loop mem visit count base offset running i ctx) (λ r, I r.2).
Proof.
  revert i ctx. induction count as [|count IH]; intros i ctx Hctx; cbn [sections_loop]; [done|].
  apply ends_after. intros section. cbv zeta. destruct (_ <? _); [done|].
  eapply ends_bind; [by apply Hvisit|]. intros [go ctx'] Hctx'. destruct go; [by apply IH|done].
Qed.

Lemma ends_iterate_sections image size ctx :
  I ctx → ends (hk_macho_iterate_sections mem visit image size ctx) (λ r, I r.2).
Proof.
  intros Hctx. unfold hk_macho_iterate_sections. destruct (_ =? _); [done|].
  eapply ends_bind; [apply (ends_iterate _ _ (λ s, I (cs_ctx C s))); [|done]|by intros [status s] Hs].
  intros s cmd offset cmdsize Hs. unfold sections_visit. destruct (negb _); [done|]. apply ends_after.
  intros [seg|]; [|done]. destruct (sections_fit seg); [|done].
  eapply ends_bind; [by apply ends_sections_loop|]. intros [all ctx'] Hctx'. by destruct all.
Qed.
End Sections.

Lemma ends_slots_iterate mem {C} (visit : C → hk_import_slot → visited C) (I : C → Prop) image size tables ctx :
  (∀ ctx s, I ctx → ends (visit ctx s) (λ r, I r.2)) → I ctx →
  ends (hk_import_slots_iterate mem visit image size tables ctx) (λ r, I r.2).
Proof.
  intros Hvisit Hctx. unfold hk_import_slots_iterate. destruct (_ =? _); [done|]. destruct (_ || _); [done|].
  eapply ends_bind; [apply (ends_iterate_sections _ _ (λ s, I (sl_ctx s))); [|done]|by intros [status s] Hs].
  intros s n section Hs. by apply ends_slots_section.
Qed.
