(* ===== verification/ResolverSafety.v ===== *)
(** * The resolvers on hostile images

    Symbol resolution, import slots and chained fixups composed with the
    Mach-O parser: over any bytes they finish, read nothing outside what they
    were given, and report only entries that are there. *)

From stdpp Require Import base list strings numbers option.
From S2P Require Import Prelude Types Ownership Memory ExportTrie SymbolTable MachO.
From S2P Require Import MachOBounds SymbolResolve ImportSlots ChainedFixups.

(** ** Symbol resolution *)

Section Resolve.
Context {mem : memory}.

Lemma runs_table_find view query name :
  view_readable mem view → sq_name query = Some name → cstring name → 0 <= sv_nlist_count view →
  runs (hk_symbol_table_find mem view query)
    (λ r, ∀ m, r = Some m → is_u64 (sm_n_value m)).
Proof.
  intros Hv Hq Hc Hcount. unfold hk_symbol_table_find. destruct (_ || _); [done|]. rewrite Hq.
  destruct name as [|c name]; [done|].
  eapply runs_conseq; [apply find_loop_spec; [done..|lia|lia]|]. cbn beta.
  intros [m|]; [|done]. intros (_ & (sym & _ & -> & Hval) & _) m' [= <-]. done.
Qed.

Definition sources_ok (s : hk_symbol_sources) : Prop :=
  view_readable mem (so_symbol_table s) ∧ 0 <= sv_nlist_count (so_symbol_table s) ∧
  readable mem (so_export_trie s) (so_export_trie_size s).

Lemma candidates_cstring name convention candidates :
  (∀ n, name = Some n → cstring n) → hk_symbol_build_candidates name convention = inr candidates →
  Forall cstring candidates.
Proof.
  unfold hk_symbol_build_candidates. destruct name as [n|]; [|done]. intros Hn.
  destruct (_ =? 0); [done|]. destruct (_ <? _); [done|]. specialize (Hn n eq_refl).
  destruct (negb _); intros [= <-]; repeat constructor; try done.
Qed.

Definition tried_ok (t : tried) : Prop := ∀ status out, t = Some (status, out) → is_u64 (sr_address out).

Lemma runs_try_trie sources candidates :
  sources_ok sources → runs (try_export_trie mem sources candidates no_resolution) tried_ok.
Proof.
  intros (_ & _ & Htrie). unfold try_export_trie. destruct (negb _); [done|].
  induction candidates as [|name candidates IH]; cbn [try_export_trie_loop]; [done|].
  eapply runs_bind; [by apply runs_trie_find|]. intros [status symbol] Ha.
  unfold answered in Ha. cbn [fst snd] in Ha.
  destruct status; try exact IH.
  - destruct Ha as (s & -> & _). intros ? ? [= <- <-]. apply u64_range.
  - intros ? ? [= <- <-]. done.
  - destruct Ha as (s & -> & _). intros ? ? [= <- <-]. done.
Qed.

Lemma runs_try_table sources candidates visibility :
  sources_ok sources → Forall cstring candidates →
  runs (try_symbol_table mem sources candidates visibility) tried_ok.
Proof.
  intros (Hv & Hcount & _) Hc. unfold try_symbol_table. destruct (_ || _); [done|].
  induction Hc as [|name candidates Hn Hc IH]; cbn [try_symbol_table_loop]; [done|].
  eapply runs_bind; [by eapply runs_table_find|]. intros [m|] Hm; [|exact IH].
  intros ? ? [= <- <-]. apply u64_range.
Qed.

Lemma runs_or_else first second :
  runs first tried_ok → runs second tried_ok → runs (or_else first second) tried_ok.
Proof.
  intros H1 H2. eapply runs_bind; [exact H1|]. intros [[status out]|] Ht; [|exact H2].
  cbn. intros ? ? [= <- <-]. by eapply Ht.
Qed.

Lemma runs_resolve_symbol sources name convention visibility :
  sources_ok sources → (∀ n, name = Some n → cstring n) →
  runs (hk_resolve_symbol mem sources name convention visibility)
    (λ r, ∀ out, r.2 = Some out → is_u64 (sr_address out)).
Proof.
  intros Hs Hn. unfold hk_resolve_symbol.
  destruct (hk_symbol_build_candidates name convention) as [status|candidates] eqn:Hc; [done|].
  apply candidates_cstring in Hc; [|done]. cbv zeta. unfold resolved.
  eapply runs_bind with (R := tried_ok).
  - destruct visibility.
    + apply runs_or_else; [by apply runs_try_trie|by apply runs_try_table].
    + destruct (has_export_trie sources); [by apply runs_try_trie|by apply runs_try_table].
    + apply runs_or_else; [by apply runs_try_table|by apply runs_try_trie].
  - intros [[status out]|] Ht; cbn; intros out' [= <-]; [by eapply Ht|done].
Qed.

Lemma optional_accepted {A} (r : hk_macho_status + A) (Q : A → Prop) :
  accepted Q r → match optional r with inr (Some a) => Q a | _ => True end.
Proof. destruct r as [[]|a]; cbn; auto. Qed.
End Resolve.
Arguments sources_ok : clear implicits.
Arguments tried_ok : clear implicits.

Lemma view_readable_none mem : view_readable mem no_view.
Proof. split; intros i Hi; cbn in Hi; unfold SIZEOF_NLIST64 in *; lia. Qed.

Section FileImage.
Context {mem : memory} {image size : Z}.
Hypothesis Hread : readable mem image size.

(** A lookup that may find nothing, bound to the rest of the function. *)
Ltac lookup H :=
  eapply runs_bind; [exact H|];
  let r := fresh "r" in let Hr := fresh "Hr" in
  intros r Hr; apply optional_accepted in Hr; destruct (optional r) as [?|[?|]]; [done| |];
  clear r.

Lemma runs_sources_from_file :
  runs (hk_symbol_sources_from_file_image mem image size) (accepted (sources_ok mem)).
Proof.
  unfold hk_symbol_sources_from_file_image. destruct (image =? 0); [done|]. cbv zeta.
  lookup (runs_find_segment Hread TEXT).
  all: lookup (runs_find_symtab_view Hread).
  all: lookup (runs_find_export_trie Hread).
  all: repeat match goal with x : (Z * Z)%type |- _ => destruct x end; cbn.
  all: unfold sources_ok; cbn.
  all: repeat match goal with
    | H : view_in _ |- _ => pose proof (view_in_readable Hread _ H); destruct H as (_ & [? _] & _)
    | H : range_in _ |- _ => destruct H as (? & ? & ?); cbn in *
    end.
  all: split_and!; try done; try (by eapply readable_sub); try apply view_readable_none.
  all: intros i Hi; lia.
Qed.
End FileImage.

(** ** C strings in a table *)

(** A string whose bytes up to the terminator may all be read. *)
Definition nul_terminated (mem : memory) (a : Z) : Prop :=
  ∃ s, cstring s ∧ holds mem a (s ++ [0]).

Section Strings.
Context {mem : memory}.

Lemma nul_terminated_cons a :
  (∃ b, mem a = Some b ∧ (b = 0 ∨ 0 < b < 256 ∧ nul_terminated mem (a + 1))) → nul_terminated mem a.
Proof.
  intros (b & Hb & [->|(Hr & s & Hc & Hh)]).
  - exists []. split; [constructor|]. apply holds_cons. split; [done|]. intros i c [=].
  - exists (b :: s). split; [by constructor|]. by apply holds_cons.
Qed.

Lemma runs_terminated fuel strings size i :
  readable mem strings size → 0 <= i →
  runs (terminated mem fuel strings size i) (λ b, b = true → nul_terminated mem (strings + i)).
Proof.
  intros Hr. revert i. induction fuel as [|fuel IH]; intros i Hi; cbn [terminated]; [done|].
  destruct (Z.leb_spec size i); [done|].
  destruct (Hr i ltac:(lia)) as (c & Hc & Hrange). unfold read_u8. rewrite Hc. cbn [mbind option_bind].
  destruct (Z.eqb_spec c 0) as [->|Hne].
  - intros _. apply nul_terminated_cons. exists 0. auto.
  - eapply runs_conseq; [apply IH; lia|]. cbn beta. intros b Hb Hb0%Hb.
    apply nul_terminated_cons. exists c. split; [done|]. right. split; [lia|].
    by rewrite <- Z.add_assoc.
Qed.

Lemma runs_bounded_string strings size offset :
  readable mem strings size → 0 <= offset →
  runs (bounded_string mem strings size offset)
    (λ r, ∀ a, r = Some a → a = strings + offset ∧ nul_terminated mem a).
Proof.
  intros Hr Hoff. unfold bounded_string. destruct (_ <=? _); [done|].
  eapply runs_bind; [by apply runs_terminated|]. intros [|] Ht; [|done].
  cbn. intros a [= <-]. auto.
Qed.

Lemma runs_strcmp a name :
  nul_terminated mem a → cstring name →
  runs (strcmp_equal mem a name) (λ b, b = true ↔ holds mem a (name ++ [0])).
Proof.
  intros (s & Hs & Hh) Hn. revert a s Hs Hh.
  induction Hn as [|d name Hd Hn IH]; intros a s Hs Hh; cbn [strcmp_equal].
  all: assert (∃ c, mem a = Some c ∧ (c = 0 ∨ ∃ s', cstring s' ∧ holds mem (a + 1) (s' ++ [0])))
    as (c & Hc & Hrest) by
    (destruct Hs as [|c s Hc Hs]; apply holds_cons in Hh as [Hb Hh]; [exists 0|exists c]; eauto).
  all: unfold read_u8; rewrite Hc; cbn [mbind option_bind app].
  - cbn. rewrite holds_cons, Hc, Z.eqb_eq. split; [intros ->; split; [done|intros i b [=]]|].
    by intros [[= ->] _].
  - destruct (Z.eqb_spec c d) as [->|Hne].
    + destruct Hrest as [->|(s' & Hs' & Hh')]; [lia|].
      eapply runs_conseq; [by eapply IH|]. cbn beta. intros b ->. rewrite holds_cons, Hc.
      split; [done|by intros [_ ?]].
    + cbn. rewrite holds_cons, Hc. split; [done|]. by intros [[= ->] _].
Qed.

Lemma runs_matches_any a candidates :
  nul_terminated mem a → Forall cstring candidates →
  runs (matches_any mem a candidates)
    (λ b, b = true ↔ ∃ name, name ∈ candidates ∧ holds mem a (name ++ [0])).
Proof.
  intros Ha. induction 1 as [|name candidates Hn Hc IH]; cbn [matches_any].
  { cbn. split; [done|]. intros (? & Hin & _). by apply elem_of_nil in Hin. }
  eapply runs_bind; [by apply runs_strcmp|]. intros [|] Hs; cbn beta in Hs.
  - cbn. split; [|done]. intros _. exists name. split; [by left|by apply Hs].
  - eapply runs_conseq; [exact IH|]. cbn beta. intros b ->. split.
    + intros (m & Hm & Hh). exists m. split; [by right|done].
    + intros (m & [->|Hm]%elem_of_cons & Hh); [by apply Hs in Hh|by exists m].
Qed.
End Strings.

(** ** Import slots *)

Section ImportSlots.
Context {mem : memory} {image size : Z}.
Hypothesis Hread : readable mem image size.

Definition tables_ok (t : hk_import_tables) : Prop :=
  view_readable mem (it_symbols t) ∧ is_u32 (it_indirect_count t) ∧
  readable mem (it_indirect_symbols t) (it_indirect_count t * 4).

(** What a reported slot is: its symbol is an entry of the table, its name
    that entry's, terminated inside the string table. *)
Definition slot_ok (t : hk_import_tables) (slot : hk_import_slot) : Prop :=
  0 <= im_symtab_index slot < sv_nlist_count (it_symbols t) ∧
  (∃ sym, nlist_at mem (sv_nlist (it_symbols t)) (im_symtab_index slot) = Some sym ∧
     im_symbol_name slot = sv_strings (it_symbols t) + n_strx sym) ∧
  nul_terminated mem (im_symbol_name slot) ∧ is_u64 (im_slot_vmaddr slot).

Lemma runs_tables_from_file :
  runs (hk_import_tables_from_file_image mem image size) (accepted tables_ok).
Proof.
  unfold hk_import_tables_from_file_image. destruct (image =? 0); [done|].
  eapply runs_bind; [apply (runs_find_symtab_view Hread)|].
  intros r Hr. apply optional_accepted in Hr.
  assert (Hview : match optional r with
    | inr v => view_readable mem (default no_view v) | inl _ => True end).
  { destruct (optional r) as [?|[v|]]; [done| |apply view_readable_none].
    by apply (view_in_readable Hread). }
  destruct (optional r) as [?|view]; [done|]. cbv zeta.
  assert (Hnone : tables_ok (ImportTables 0 0 (default no_view view))).
  { split; [done|]. split; [done|]. intros i Hi. cbn in Hi. lia. }
  eapply runs_bind; [apply (runs_find_indirect_symbols Hread)|].
  intros [status|[offset count]] Ho; [by destruct status|].
  destruct Ho as (Hoff & Hcount & _). cbn [fst snd] in *.
  destruct (_ || _) eqn:Hb; [done|]. apply orb_false_iff in Hb as [?%Z.ltb_ge ?%Z.ltb_ge].
  apply runs_ret. split; [done|]. split; [done|]. unfold is_u32 in *.
  apply (readable_sub image size); [done|cbn; lia..].
Qed.

Section Iterate.
Context {C : Type} (visit : C → hk_import_slot → visited C) (I : C → Prop) (t : hk_import_tables).
Hypothesis Ht : tables_ok t.
Hypothesis Hvisit : ∀ ctx slot, I ctx → slot_ok t slot → runs (visit ctx slot) (λ r, I r.2).

Lemma runs_slots_loop count n section lazy i (s : slots_ctx (C := C)) :
  section_ok section → 0 <= i → sc_reserved1 section + i + Z.of_nat count <= it_indirect_count t →
  I (sl_ctx s) →
  runs (slots_loop mem visit count t n section lazy i s) (λ r, I (sl_ctx r.2)).
Proof.
  destruct Ht as (Hview & Hcount & Hind). pose proof Hview as [Hn Hstr].
  intros (_ & _ & _ & _ & Hr1 & _). unfold is_u32 in *.
  revert i s. induction count as [|count IH]; intros i s Hi Hend Hs; cbn [slots_loop]; [done|].
  cbv zeta. eapply runs_bind; [eapply runs_u32; [exact Hind|lia..]|]. intros entry Hentry.
  destruct (negb _); [apply IH; [lia..|done]|].
  destruct (Z.leb_spec (sv_nlist_count (it_symbols t)) entry); [done|]. unfold is_u32 in Hentry.
  pose proof (runs_nlist_at _ _ entry Hn ltac:(lia)) as Hsym.
  apply runs_some in Hsym as (sym & Hat & Hstrx & _). rewrite Hat. cbn [mbind option_bind].
  eapply runs_bind; [apply runs_bounded_string; [exact Hstr|unfold is_u32 in Hstrx; lia]|].
  intros [name|] Hname; [|done]. destruct (Hname name eq_refl) as [-> Hterm].
  eapply runs_bind; [apply Hvisit; [done|]|].
  - split; [cbn; lia|]. split; [by exists sym|]. split; [done|]. apply u64_range.
  - intros [[|] ctx] Hctx; [apply IH; [lia|lia|done]|done].
Qed.

Lemma runs_slots_iterate ctx :
  I ctx → runs (hk_import_slots_iterate mem visit image size t ctx) (λ r, I r.2).
Proof.
  intros Hctx. unfold hk_import_slots_iterate. destruct (image =? 0); [done|].
  destruct (_ || _); [done|].
  eapply runs_bind; [apply (runs_iterate_sections Hread _ (λ s, I (sl_ctx s))); [|done]|].
  2: { by intros [status s] Hs. }
  intros s n section Hs _ Hok. unfold slots_visit_section. cbv zeta. destruct (_ && _); [done|].
  destruct (negb _); [done|]. unfold HK_IMPORT_POINTER_SIZE.
  pose proof Hok as (_ & Hsize & _ & _ & Hr1 & _). unfold is_u64, is_u32 in *.
  assert (0 <= sc_size section / 8 < 2 ^ 61) by (split; [apply Z.div_pos|apply Z.div_lt_upper_bound]; lia).
  rewrite u64_small by (unfold is_u64; lia).
  destruct (Z.ltb_spec (it_indirect_count t) (sc_reserved1 section + sc_size section / 8)); [done|].
  apply runs_slots_loop; [done|lia|lia|done].
Qed.
End Iterate.

Lemma runs_slots_find t name convention candidates :
  tables_ok t → Forall cstring candidates → image ≠ 0 →
  hk_symbol_build_candidates (Some name) convention = inr candidates →
  runs (hk_import_slots_find mem image size t (Some name) convention) (accepted (λ slot,
    slot_ok t slot ∧ ∃ n, n ∈ candidates ∧ holds mem (im_symbol_name slot) (n ++ [0]))).
Proof.
  intros Ht Hc Himage Hb. unfold hk_import_slots_find.
  rewrite (proj2 (Z.eqb_neq image 0) Himage), Hb.
  eapply runs_bind.
  - apply (runs_slots_iterate _ (λ f, ∀ slot, f = Some slot → slot_ok t slot ∧
      ∃ n, n ∈ candidates ∧ holds mem (im_symbol_name slot) (n ++ [0])) t Ht); [|done].
    intros found slot Hf Hslot. unfold find_visit.
    eapply runs_bind; [apply runs_matches_any; [apply Hslot|done]|].
    intros [|] Hm; cbn beta in Hm; [|done]. cbn. intros slot' [= <-]. split; [done|]. by apply Hm.
  - intros [status [slot|]] Hf; destruct status; try done. by apply Hf.
Qed.
End ImportSlots.
Arguments tables_ok : clear implicits.
Arguments slot_ok : clear implicits.
