(* ===== verification/FixupsSafety.v ===== *)
(** * Chained fixups: the walk ends, inside what it was given

    Parsing, the imports and the traversal over arbitrary bytes, the rule for
    visitors, and the pointer formats as inverses of an encoder. *)

From stdpp Require Import base list strings numbers option.
From S2P Require Import Prelude Types Memory SymbolTable MachO SymbolResolve.
From S2P Require Import ImportSlots ChainedFixups ResolverSafety.

Section Fixups.
Context {mem : memory}.

(** What a parsed header guarantees of its blob. *)
Definition fixups_ok (f : hk_chained_fixups) : Prop :=
  readable mem (cf_blob f) (cf_size f) ∧
  (0 <= cf_starts_offset f ∧ 0 <= cf_imports_offset f ∧ 0 <= cf_symbols_offset f) ∧
  is_u32 (cf_imports_count f) ∧
  cf_imports_offset f + cf_imports_count f * cf_import_entry_size f <= cf_size f ∧
  cf_import_entry_size f = import_entry_size (cf_imports_format f) ∧
  cf_symbols_offset f + cf_symbols_size f = cf_size f.

Lemma runs_parse blob size :
  readable mem blob size →
  runs (hk_chained_fixups_parse mem blob size) (accepted (λ f,
    fixups_ok f ∧ cf_blob f = blob ∧ cf_size f = size)).
Proof.
  intros Hr. unfold hk_chained_fixups_parse. destruct (blob =? 0); [done|].
  unfold HK_CHAINED_HEADER_SIZE. destruct (Z.ltb_spec size 28); [done|].
  do 7 (eapply runs_bind; [eapply runs_u32; [exact Hr|lia..]|]; intros ? ?).
  destruct (negb _); [done|]. destruct (negb _); [done|]. cbv zeta.
  destruct (_ && _); [done|]. destruct (_ || _) eqn:Hb; [done|].
  rewrite !orb_false_iff, !Z.ltb_ge in Hb. destruct Hb as [[? ?] ?].
  match goal with |- context [?a <? ?b] => destruct (Z.ltb_spec a b); [done|] end.
  apply runs_ret. unfold is_u32 in *. split; [|done]. split; [done|]. cbn. split_and!; (done || lia).
Qed.

Lemma runs_import_fields format entry size off :
  readable mem entry size → off = import_entry_size format → off <= size →
  runs (import_fields mem format entry) (accepted (λ r, 0 <= r.1.2 < 2 ^ 32)).
Proof.
  unfold import_entry_size, HK_CHAINED_IMPORT_SIZE, HK_CHAINED_IMPORT_ADDEND_SIZE,
    HK_CHAINED_IMPORT_ADDEND64_SIZE, import_fields.
  intros Hr Hoff Hs.
  destruct (Z.eqb_spec format HK_CHAINED_IMPORT) as [->|Hne]; cbn [orb].
  { rewrite <- (Z.add_0_r entry) at 1. eapply runs_bind; [eapply runs_u32; [exact Hr|lia..]|].
    intros word Hw. cbn [HK_CHAINED_IMPORT HK_CHAINED_IMPORT_ADDEND Z.eqb Pos.eqb mbind option_bind].
    apply runs_ret. cbn [accepted fst snd]. change 0x7fffff with (Z.ones 23).
    pose proof (bits_range word 9 23 ltac:(lia)). unfold bits in *. lia. }
  destruct (Z.eqb_spec format HK_CHAINED_IMPORT_ADDEND) as [->|Hne2].
  { rewrite <- (Z.add_0_r entry) at 1. eapply runs_bind; [eapply runs_u32; [exact Hr|lia..]|].
    intros word Hw. eapply runs_bind with (R := λ _, True).
    { eapply runs_bind; [eapply runs_u32; [exact Hr|lia..]|]. done. }
    intros addend _. apply runs_ret. cbn [accepted fst snd]. change 0x7fffff with (Z.ones 23).
    pose proof (bits_range word 9 23 ltac:(lia)). unfold bits in *. lia. }
  destruct (format =? HK_CHAINED_IMPORT_ADDEND64); [|done].
  rewrite <- (Z.add_0_r entry) at 1. eapply runs_bind; [eapply runs_u64; [exact Hr|lia..]|].
  intros word Hw. eapply runs_bind; [eapply runs_u64; [exact Hr|lia..]|]. intros addend _.
  apply runs_ret. cbn [accepted fst snd]. change 0xffffffff with (Z.ones 32).
  pose proof (bits_range word 32 32 ltac:(lia)). unfold bits in *. lia.
Qed.

Lemma runs_import_at f index :
  fixups_ok f → 0 <= index →
  runs (hk_chained_import_at mem f index) (accepted (λ i,
    ci_index i = index ∧ index < cf_imports_count f ∧ nul_terminated mem (ci_symbol_name i))).
Proof.
  intros (Hr & (Hst & Him & Hsy) & Hcount & Hend & Hentry & Hpool) Hi.
  unfold hk_chained_import_at. destruct (_ =? 0); [done|].
  destruct (Z.leb_spec (cf_imports_count f) index); [done|]. cbv zeta.
  assert (0 <= cf_import_entry_size f).
  { rewrite Hentry. unfold import_entry_size. repeat destruct (_ =? _); by vm_compute. }
  eapply runs_check.
  - eapply runs_import_fields; [|exact Hentry|reflexivity].
    eapply readable_sub; [exact Hr|nia|nia].
  - intros [[[ordinal weak] name_offset] addend] Hname. cbn [fst snd] in Hname.
    eapply runs_bind; [apply (runs_bounded_string (cf_blob f + cf_symbols_offset f) (cf_symbols_size f));
      [eapply readable_sub; [exact Hr|lia|lia]|lia]|].
    intros [name|] Hterm; [|done]. apply runs_ret. cbn. split_and!; [done..|].
    by apply (Hterm name).
Qed.

Lemma runs_imports_find f name convention candidates :
  fixups_ok f → Forall cstring candidates →
  hk_symbol_build_candidates (Some name) convention = inr candidates →
  runs (hk_chained_imports_find mem f (Some name) convention) (accepted (λ i,
    0 <= ci_index i < cf_imports_count f ∧
    ∃ n, n ∈ candidates ∧ holds mem (ci_symbol_name i) (n ++ [0]))).
Proof.
  intros Hf Hc Hb. unfold hk_chained_imports_find. rewrite Hb.
  assert (Hloop : ∀ count i, 0 <= i → runs (imports_find_loop mem count f candidates i) (accepted (λ i,
    0 <= ci_index i < cf_imports_count f ∧
    ∃ n, n ∈ candidates ∧ holds mem (ci_symbol_name i) (n ++ [0])))); [|apply Hloop; lia].
  intros count. induction count as [|count IH]; intros i Hi; cbn [imports_find_loop]; [done|].
  eapply runs_check; [by apply runs_import_at|]. intros import (Hidx & Hlt & Hterm).
  eapply runs_bind; [by apply runs_matches_any|]. intros [|] Hm; cbn beta in Hm.
  - apply runs_ret. cbn. split; [lia|by apply Hm].
  - apply IH. lia.
Qed.

(** *** The walk *)

Section Walk.
Context {C : Type} (visit : C → hk_chained_bind → visited C) (I : C → Prop).

(** A chain as it may be walked: its segment in a 64-bit address space, its
    storage readable. *)
Definition chain_ok (c : chain_ctx) : Prop :=
  readable mem (ch_storage c) (ch_storage_size c) ∧ 0 < ch_stride c ∧
  0 <= ch_segment_start c ∧ ch_segment_end c < 2 ^ 64 ∧ 0 <= ch_storage_segment_start c.

(** What the visitor learns of a bind: its slot lies in its segment, and in
    the part of the storage that holds the segment. *)
Definition bind_ok (c : chain_ctx) (b : hk_chained_bind) : Prop :=
  ch_segment_start c <= cb_slot_image_offset b ∧
  cb_slot_image_offset b + 8 <= ch_segment_end c ∧
  ch_storage_segment_start c + (cb_slot_image_offset b - ch_segment_start c) + 8 <= ch_storage_size c ∧
  cb_segment_index b = ch_segment_index c ∧ cb_pointer_format b = ch_pointer_format c ∧
  0 <= cb_import_ordinal b.

Lemma cp_next_nonneg raw format : 0 <= cp_next (decode_pointer raw format).
Proof.
  unfold decode_pointer. destruct (format_is_arm64e format); cbv zeta.
  - destruct (_ && _); [|destruct (bit raw 62)]; cbn [cp_next]; apply Z.land_nonneg; lia.
  - cbn [cp_next]. apply Z.land_nonneg. lia.
Qed.

Lemma cp_ordinal_nonneg raw format : 0 <= cp_ordinal (decode_pointer raw format).
Proof.
  unfold decode_pointer. destruct (format_is_arm64e format); cbv zeta.
  - destruct (_ && _); [|destruct (bit raw 62)]; cbn [cp_ordinal]; destruct (_ =? _);
      apply Z.land_nonneg; lia.
  - cbn [cp_ordinal]. apply Z.land_nonneg. lia.
Qed.

Lemma runs_walk_chain c fuel offset ctx :
  chain_ok c → (∀ ctx b, I ctx → bind_ok c b → runs (visit ctx b) (λ r, I r.2)) →
  (0 < fuel)%nat →
  (ch_segment_start c <= offset → ch_segment_end c - offset < Z.of_nat fuel) → I ctx →
  runs (walk_chain mem visit fuel c offset ctx) (λ r, I r.2).
Proof.
  intros (Hr & Hstride & Hstart & Hend & Hstore) Hvisit.
  revert offset ctx. induction fuel as [|fuel IH]; intros offset ctx Hpos Hfuel Hctx; [lia|].
  cbn [walk_chain]. destruct ((offset <? ch_segment_start c) || _ || _) eqn:H1; [done|].
  rewrite !orb_false_iff, !Z.ltb_ge in H1. destruct H1 as [[Hlo Hhi] H8]. cbv zeta.
  match goal with |- context [if ?b then _ else _] => destruct b eqn:H2; [done|] end.
  rewrite !orb_false_iff, !Z.ltb_ge in H2. destruct H2 as [[Hseg Hst] Hroom].
  eapply runs_bind; [eapply runs_u64; [exact Hr|lia..]|]. intros raw _.
  set (ptr := decode_pointer raw (ch_pointer_format c)).
  eapply runs_bind with (R := λ r, I r.2).
  { destruct (cp_is_bind ptr); [|done]. apply Hvisit; [done|].
    pose proof (cp_ordinal_nonneg raw (ch_pointer_format c)). split_and!; cbn; (done || lia). }
  intros [go ctx'] Hctx'. destruct (negb go); [done|].
  destruct (Z.eqb_spec (cp_next ptr) 0); [done|].
  destruct (Z.leb_spec (u64 (offset + cp_next ptr * ch_stride c)) offset); [done|].
  apply IH; [|lia|done]. specialize (Hfuel Hlo). lia.
Qed.

Lemma chain_fuel_enough c offset :
  ch_segment_start c <= offset → ch_segment_end c - offset < Z.of_nat (chain_fuel c).
Proof. unfold chain_fuel. lia. Qed.

Lemma runs_walk_multi c fuel page_start starts_extent page_base index ctx :
  chain_ok c → (∀ ctx b, I ctx → bind_ok c b → runs (visit ctx b) (λ r, I r.2)) →
  readable mem page_start starts_extent → 0 <= index → (0 < fuel)%nat →
  starts_extent - index < Z.of_nat fuel → I ctx →
  runs (walk_multi mem visit fuel c page_start starts_extent page_base index ctx) (λ r, I r.2).
Proof.
  intros Hc Hvisit Hr. revert index ctx.
  induction fuel as [|fuel IH]; intros index ctx Hi Hpos Hfuel Hctx; [lia|]. cbn [walk_multi]. cbv zeta.
  destruct (Z.ltb_spec starts_extent (index * 2 + 2)); [done|].
  eapply runs_bind; [eapply runs_u16; [exact Hr|lia..]|]. intros entry _.
  eapply runs_bind; [apply runs_walk_chain; [done|done|unfold chain_fuel; lia|apply chain_fuel_enough|done]|].
  intros [[status stopped] ctx'] Hctx'. destruct (_ || _); [done|]. destruct (negb _); [done|].
  apply IH; [lia..|done].
Qed.

Lemma runs_walk_pages c count page_start starts_extent segment_off page_size page ctx :
  chain_ok c → (∀ ctx b, I ctx → bind_ok c b → runs (visit ctx b) (λ r, I r.2)) →
  readable mem page_start starts_extent → 0 <= page →
  (page + Z.of_nat count) * 2 <= starts_extent → I ctx →
  runs (walk_pages mem visit count c page_start starts_extent segment_off page_size page ctx)
    (λ r, I r.2).
Proof.
  intros Hc Hvisit Hr. revert page ctx.
  induction count as [|count IH]; intros page ctx Hp Hend Hctx; cbn [walk_pages]; [done|].
  eapply runs_bind; [eapply runs_u16; [exact Hr|lia..]|]. intros start Hs. cbn beta in Hs.
  destruct (start =? _); [apply IH; [lia..|done]|]. cbv zeta.
  eapply runs_bind with (R := λ r, I r.2).
  { destruct (negb _).
    - assert (0 <= Z.land start (Z.lxor 0xFFFFFFFF HK_CHAINED_PTR_START_MULTI))
        by (apply Z.land_nonneg; lia).
      apply runs_walk_multi; (done || lia).
    - apply runs_walk_chain; [done|done|unfold chain_fuel; lia|apply chain_fuel_enough|done]. }
  intros [[status stopped] ctx'] Hctx'. destruct (_ || _); [done|]. apply IH; [lia..|done].
Qed.
End Walk.

Definition bind_in (mapped : bool) (storage_size : Z) (b : hk_chained_bind) : Prop :=
  0 <= cb_slot_image_offset b ∧
  (mapped = true → cb_slot_image_offset b + 8 <= storage_size) ∧
  0 <= cb_import_ordinal b.

Section Iterate.
Context {C : Type} (visit : C → hk_chained_bind → visited C) (I : C → Prop).
Context (f : hk_chained_fixups) (storage storage_size : Z)
  (segments : option (list hk_chained_segment_mapping)).
Hypothesis Hf : fixups_ok f.
Hypothesis Hstorage : readable mem storage storage_size.
Hypothesis Hsegments : ∀ l m, segments = Some l → m ∈ l → 0 <= cm_file_offset m.
Hypothesis Hvisit : ∀ ctx b,
  I ctx → bind_in (bool_decide (segments = None)) storage_size b → runs (visit ctx b) (λ r, I r.2).

Lemma format_stride_nonneg format : 0 <= format_stride format.
Proof. unfold format_stride. repeat destruct (_ || _); lia. Qed.

Lemma runs_walk_segment mapping seg_info_offset segment_index ctx :
  0 <= seg_info_offset →
  (∀ m, mapping = Some m → 0 <= cm_file_offset m) →
  (mapping = None → segments = None) → (segments = None → mapping = None) → I ctx →
  runs (walk_segment mem visit f storage storage_size mapping seg_info_offset segment_index ctx)
    (λ r, I r.2).
Proof.
  intros Hoff Hmap Hm1 Hm2 Hctx. destruct Hf as (Hr & _). unfold walk_segment. cbv zeta.
  unfold HK_CHAINED_STARTS_IN_SEGMENT_HEADER.
  destruct (_ || _) eqn:H1; [done|]. rewrite orb_false_iff, !Z.ltb_ge in H1. destruct H1 as [_ H22].
  assert (Hseg : readable mem (cf_blob f + seg_info_offset) (cf_size f - seg_info_offset))
    by (eapply readable_sub; [exact Hr|lia|lia]).
  eapply runs_bind; [eapply runs_u32; [exact Hseg|lia..]|]. intros declared Hdeclared.
  eapply runs_bind; [eapply runs_u16; [exact Hseg|lia..]|]. intros page_size Hpage.
  eapply runs_bind; [eapply runs_u16; [exact Hseg|lia..]|]. intros format _.
  eapply runs_bind; [eapply runs_u64; [exact Hseg|lia..]|]. intros segment_off Hso.
  eapply runs_bind; [eapply runs_u16; [exact Hseg|lia..]|]. intros page_count Hpc.
  destruct (page_size =? 0); [done|].
  pose proof (format_stride_nonneg format).
  destruct (Z.eqb_spec (format_stride format) 0); [done|].
  destruct (Z.ltb_spec declared 22); [done|].
  destruct (Z.ltb_spec (cf_size f - seg_info_offset - 22) (declared - 22)); [done|].
  destruct (Z.ltb_spec (declared - 22) (page_count * 2)); [done|].
  match goal with |- context [if ?b then _ else _] => destruct b eqn:Hmm; [done|] end.
  destruct (Z.ltb_spec (UINT64_MAX - segment_off) (page_count * page_size)); [done|].
  unfold UINT64_MAX, is_u64 in *.
  apply runs_walk_pages; [| | |lia|rewrite Z2Nat.id by lia; lia|done].
  - split_and!; cbn; [done|lia..|]. destruct mapping as [m|]; [by apply Hmap|lia].
  - intros ctx' b Hctx' (Hlo & Hhi & Hroom & _ & _ & Hord). cbn in Hlo, Hhi, Hroom. apply Hvisit; [done|].
    split; [lia|]. split; [|done]. intros Hmapped%bool_decide_eq_true. rewrite Hm2 in Hroom by done. lia.
  - eapply readable_sub; [exact Hseg|lia|lia].
Qed.

Lemma runs_segments_loop count i ctx :
  0 <= i → cf_starts_offset f + 4 + (i + Z.of_nat count) * 4 <= cf_size f → I ctx →
  runs (segments_loop mem visit count f storage storage_size segments i ctx) (λ r, I r.2).
Proof.
  pose proof Hf as (Hr & (Hst & _) & _). revert i ctx.
  induction count as [|count IH]; intros i ctx Hi Hend Hctx; cbn [segments_loop]; [done|]. cbv zeta.
  eapply runs_bind; [eapply runs_u32; [exact Hr|lia..]|]. intros seg_info Hsi.
  destruct (seg_info =? 0); [apply IH; [lia..|done]|].
  match goal with |- context [if ?b then _ else _] => destruct b eqn:Hlen; [done|] end.
  destruct (Z.ltb_spec (cf_size f - cf_starts_offset f) seg_info); [done|]. unfold is_u32 in Hsi.
  eapply runs_bind; [apply runs_walk_segment; [lia| | | |done]|].
  - destruct segments as [l|] eqn:Hl; [|done]. intros m Hm.
    eapply Hsegments; [done|by eapply list_elem_of_lookup_2].
  - destruct segments as [l|]; [|done]. intros Hnone%lookup_ge_None_1. apply Z.leb_gt in Hlen. lia.
  - by intros ->.
  - intros [[status stopped] ctx'] Hctx'. destruct (negb _); [done|].
    destruct stopped; [done|]. apply IH; [lia..|done].
Qed.

Lemma runs_iterate_binds ctx :
  I ctx → runs (iterate_binds mem visit f storage storage_size segments ctx) (λ r, I r.2).
Proof.
  intros Hctx. unfold iterate_binds. destruct (_ || _); [done|]. cbv zeta.
  pose proof Hf as (Hr & (Hst & _) & _).
  destruct (_ || _) eqn:H1; [done|]. rewrite orb_false_iff, !Z.ltb_ge in H1. destruct H1.
  eapply runs_bind; [eapply runs_u32; [exact Hr|lia..]|]. intros seg_count Hsc. unfold is_u32 in Hsc.
  destruct (Z.ltb_spec (cf_size f - cf_starts_offset f - 4) (seg_count * 4)); [done|].
  apply runs_segments_loop; [lia|rewrite Z2Nat.id by lia; lia|done].
Qed.
End Iterate.
End Fixups.
Arguments fixups_ok : clear implicits.
