(* ===== verification/ResolverSpec.v ===== *)
(** * What the resolvers return

    The theorems on symbol resolution, import slots and chained fixups, each
    applied to a small image. *)

From stdpp Require Import base list strings numbers option.
From S2P Require Import Prelude Types Ownership Memory ExportTrie SymbolTable MachO.
From S2P Require Import MachOBounds MachOSpec SymbolResolve ImportSlots ChainedFixups.
From S2P Require Import ResolverSafety FixupsSafety Demo.

(** ** Symbol resolution *)

(** A file image's sources, and the symbol in them. *)
Definition resolve_file_image (mem : memory) (image size : Z) (name : option (list Z))
    (convention : Z) (visibility : hk_symbol_visibility)
    : checked hk_resolve_status (hk_resolve_status * option hk_symbol_resolution) :=
  sources <~ hk_symbol_sources_from_file_image mem image size ;;
  r ← hk_resolve_symbol mem sources name convention visibility; accept r.

(** Resolving a symbol in a file image, whatever its bytes: collecting the
    sources and searching the trie and the table they point to reads only the
    image, ends, and an address it reports is a 64-bit value. *)
Theorem resolve_hostile_image (mem : memory) (image size : Z) (name : option (list Z))
    (convention : Z) (visibility : hk_symbol_visibility) :
  readable mem image size → (∀ n, name = Some n → cstring n) →
  ∃ r, resolve_file_image mem image size name convention visibility = Some r ∧
    accepted (λ o, ∀ out, o.2 = Some out → is_u64 (sr_address out)) r.
Proof.
  intros Hread Hn. apply runs_some. eapply runs_check; [by apply runs_sources_from_file|].
  intros sources Hs. eapply runs_bind; [by apply runs_resolve_symbol|]. intros r Hr. exact Hr.
Qed.

(** The export of the first candidate that has one. *)
Fixpoint exported (t : trie) (candidates : list (list Z)) (e : export) : Prop :=
  match candidates with
  | [] => False
  | name :: candidates =>
      defines t name e ∨ ((∀ e', ¬ defines t name e') ∧ exported t candidates e)
  end.

(** What a resolution from the trie reports. *)
Definition resolution_of (header : Z) (e : export) : hk_resolve_status * hk_symbol_resolution :=
  let weak := has_flag e HK_EXPORT_FLAGS_WEAK_DEFINITION in
  match e with
  | Regular flags offset | StubAndResolver flags offset _ =>
      (HK_RESOLVE_OK, SymbolResolution (u64 (header + offset)) HK_RESOLVE_SOURCE_EXPORT_TRIE
                        offset 0 flags weak)
  | Reexport flags _ _ =>
      (HK_RESOLVE_UNSUPPORTED, SymbolResolution 0 HK_RESOLVE_SOURCE_EXPORT_TRIE 0 0 flags weak)
  end.

Definition spellings (name : list Z) (convention : Z) : list (list Z) :=
  if convention =? HK_SYMBOL_NAME_MACHO_EXACT then [name] else [name; 95 :: name].

Lemma build_candidates_spellings name convention :
  (0 < length name)%nat → Z.of_nat (length name) <= HK_RESOLVE_MAX_NAME →
  hk_symbol_build_candidates (Some name) convention = inr (spellings name convention).
Proof.
  intros Hpos Hmax. unfold hk_symbol_build_candidates, spellings.
  destruct (Z.eqb_spec (Z.of_nat (length name)) 0); [lia|].
  destruct (Z.ltb_spec HK_RESOLVE_MAX_NAME (Z.of_nat (length name))); [lia|].
  by destruct (convention =? HK_SYMBOL_NAME_MACHO_EXACT).
Qed.

Lemma length_spellings name convention s :
  s ∈ spellings name convention → (length s <= S (length name))%nat.
Proof.
  unfold spellings. destruct (_ =? _).
  - intros ->%list_elem_of_singleton. lia.
  - intros [->|[->|Hn]%elem_of_cons]%elem_of_cons; [lia|cbn; lia|by apply elem_of_nil in Hn].
Qed.

Section Trie.
Context {mem : memory} {sources : hk_symbol_sources} {t : trie}.
Context (Htrie : so_export_trie sources ≠ 0) (Hsize : is_u64 (so_export_trie_size sources))
  (Hnz : so_export_trie_size sources ≠ 0).
Context (Hlaid : laid mem (so_export_trie sources) (so_export_trie_size sources) 0 t)
  (Hwf : trie_wf t).

Lemma try_trie_exported out candidates e :
  (∀ s, s ∈ candidates → (length s <= HK_EXPORT_TRIE_MAX_DEPTH)%nat) →
  exported t candidates e →
  try_export_trie_loop mem sources out candidates =
    Some (Some (resolution_of (so_header_address sources) e)).
Proof.
  induction candidates as [|name candidates IH]; intros Hlen He; [done|].
  cbn [try_export_trie_loop]. assert (Hl : (length name <= HK_EXPORT_TRIE_MAX_DEPTH)%nat)
    by (apply Hlen; by left).
  destruct He as [He|[Hno He]].
  - rewrite (trie_find_defined Htrie Hsize Hnz Hlaid Hwf Hl e He). by destruct e.
  - rewrite (trie_find_undefined Htrie Hsize Hnz Hlaid Hwf Hl Hno). apply IH; [|done].
    intros s Hs. apply Hlen. by right.
Qed.

Lemma try_trie_unexported out candidates :
  (∀ s, s ∈ candidates → (length s <= HK_EXPORT_TRIE_MAX_DEPTH)%nat) →
  (∀ name e, name ∈ candidates → ¬ defines t name e) →
  try_export_trie_loop mem sources out candidates = Some None.
Proof.
  induction candidates as [|name candidates IH]; intros Hlen Hno; [done|].
  cbn [try_export_trie_loop]. assert (Hl : (length name <= HK_EXPORT_TRIE_MAX_DEPTH)%nat)
    by (apply Hlen; by left).
  rewrite (trie_find_undefined Htrie Hsize Hnz Hlaid Hwf Hl).
  - apply IH; intros; [apply Hlen|apply Hno]; by right.
  - intros e. apply Hno. by left.
Qed.

Lemma has_trie : has_export_trie sources = true.
Proof.
  unfold has_export_trie. by rewrite (proj2 (Z.eqb_neq _ 0) Htrie), (proj2 (Z.eqb_neq _ 0) Hnz).
Qed.
End Trie.

(** An exported symbol is what the trie exports.  With a well-formed trie
    among the sources, EXPORTED_ONLY resolves a name to the export of the first
    of its spellings the trie defines (the name itself, then, unless the name
    is exact, the underscored one), at the header's address plus the export's
    offset; a re-export is UNSUPPORTED; and a name with no such spelling is
    NOT_FOUND whatever the symbol table holds. *)
Theorem resolve_exported_correct (mem : memory) (sources : hk_symbol_sources) (t : trie)
    (name : list Z) (convention : Z) :
  so_export_trie sources ≠ 0 → is_u64 (so_export_trie_size sources) →
  so_export_trie_size sources ≠ 0 →
  laid mem (so_export_trie sources) (so_export_trie_size sources) 0 t → trie_wf t →
  (0 < length name < HK_EXPORT_TRIE_MAX_DEPTH)%nat →
  (∀ e, exported t (spellings name convention) e →
     hk_resolve_symbol mem sources (Some name) convention HK_SYMBOL_VISIBILITY_EXPORTED_ONLY =
       Some ((resolution_of (so_header_address sources) e).1,
             Some (resolution_of (so_header_address sources) e).2)) ∧
  ((∀ s e, s ∈ spellings name convention → ¬ defines t s e) →
     hk_resolve_symbol mem sources (Some name) convention HK_SYMBOL_VISIBILITY_EXPORTED_ONLY =
       Some (HK_RESOLVE_NOT_FOUND, Some no_resolution)).
Proof.
  intros Ht Hs Hz Hlaid Hwf Hlen. unfold HK_EXPORT_TRIE_MAX_DEPTH in Hlen.
  assert (Hspell : ∀ s, s ∈ spellings name convention → (length s <= HK_EXPORT_TRIE_MAX_DEPTH)%nat).
  { intros s Hin%length_spellings. unfold HK_EXPORT_TRIE_MAX_DEPTH. lia. }
  unfold hk_resolve_symbol.
  rewrite build_candidates_spellings by (unfold HK_RESOLVE_MAX_NAME; lia).
  cbv zeta. unfold try_export_trie. rewrite (has_trie Ht Hz). cbn [negb].
  split.
  - intros e He. rewrite (try_trie_exported Ht Hs Hz Hlaid Hwf _ _ e Hspell He).
    cbn [resolved mbind option_bind]. by destruct (resolution_of _ e).
  - intros Hno. by rewrite (try_trie_unexported Ht Hs Hz Hlaid Hwf _ _ Hspell Hno).
Qed.

(** ** Import slots *)

(** A file image's import tables, and the slot of a symbol in them. *)
Definition find_import_slot (mem : memory) (image size : Z) (name : list Z) (convention : Z)
    : checked hk_import_status (hk_import_tables * hk_import_slot) :=
  tables <~ hk_import_tables_from_file_image mem image size ;;
  slot <~ hk_import_slots_find mem image size tables (Some name) convention ;;
  accept (tables, slot).

(** Looking for an import slot, whatever the image's bytes: the walk reads
    only the image and ends, and the slot it accepts is the slot of a symbol
    that is there, an entry of the symbol table whose name, terminated inside
    the string table, is one of the spellings of the name. *)
Theorem import_slot_hostile_image (mem : memory) (image size : Z) (name : list Z) (convention : Z) :
  readable mem image size → image ≠ 0 → cstring name → (0 < length name)%nat →
  Z.of_nat (length name) <= HK_RESOLVE_MAX_NAME →
  ∃ r, find_import_slot mem image size name convention = Some r ∧
    accepted (λ o, slot_ok mem o.1 o.2 ∧
      ∃ s, s ∈ spellings name convention ∧ holds mem (im_symbol_name o.2) (s ++ [0])) r.
Proof.
  intros Hread Himage Hc Hpos Hmax. apply runs_some.
  pose proof (build_candidates_spellings name convention Hpos Hmax) as Hb.
  eapply runs_check; [by apply runs_tables_from_file|]. intros tables Ht.
  eapply runs_check; [apply runs_slots_find; [done|done| |done|done]|].
  - eapply candidates_cstring; [|exact Hb]. by intros n [= <-].
  - intros slot Hslot. exact Hslot.
Qed.

(** ** Chained fixups *)

(** Parsing a payload and walking its chains over a mapped image. *)
Definition walk_mapped_binds {C} (mem : memory) (visit : C → hk_chained_bind → visited C)
    (blob blob_size image image_size : Z) (ctx : C) : checked hk_chained_status (hk_chained_status * C) :=
  fixups <~ hk_chained_fixups_parse mem blob blob_size ;;
  r ← hk_chained_fixups_iterate_binds mem visit fixups image image_size ctx; accept r.

(** C40.  The walk over the chains ends, whatever payload and image contain, and
    reads only those two; and every bind site it hands to the visitor is an
    eight-byte slot inside the image.  The visitor may be any that returns on
    such sites and keeps its invariant. *)
Theorem chained_binds_hostile_image {C} (mem : memory) (visit : C → hk_chained_bind → visited C)
    (I : C → Prop) (blob blob_size image image_size : Z) (ctx : C) :
  readable mem blob blob_size → readable mem image image_size →
  (∀ ctx b, I ctx → 0 <= cb_slot_image_offset b → cb_slot_image_offset b + 8 <= image_size →
     ∃ r, visit ctx b = Some r ∧ I r.2) →
  I ctx →
  ∃ r, walk_mapped_binds mem visit blob blob_size image image_size ctx = Some r ∧
    accepted (λ o, I o.2) r.
Proof.
  intros Hblob Himage Hvisit Hctx. apply runs_some.
  eapply runs_check; [by apply runs_parse|]. intros f (Hf & _).
  eapply runs_bind; [apply (runs_iterate_binds visit I f image image_size None Hf Himage); [done| |done]|].
  - intros c b Hc (Hlo & Hhi & _). apply runs_some. apply Hvisit; [done..|]. by apply Hhi.
  - intros r Hr. exact Hr.
Qed.

(** The pointer word of a bind, as the linker packs it. *)
Definition encode_bind (b : chained_ptr) (format : Z) : Z :=
  if format_is_arm64e format then
    cp_ordinal b + Z.shiftl (cp_next b) 51 + Z.shiftl 1 62 +
    (if cp_is_auth b
     then Z.shiftl 1 63 + Z.shiftl (cp_diversity b) 32 +
          Z.shiftl (Z.b2z (cp_address_diversity b)) 48 + Z.shiftl (cp_key b) 49
     else Z.shiftl (cp_addend b mod 2 ^ 19) 32)
  else cp_ordinal b + Z.shiftl (cp_addend b) 24 + Z.shiftl (cp_next b) 51 + Z.shiftl 1 63.

(** The binds a format can carry. *)
Definition bind_fits (b : chained_ptr) (format : Z) : Prop :=
  cp_is_bind b = true ∧
  if format_is_arm64e format then
    0 <= cp_ordinal b < (if format =? HK_CHAINED_PTR_ARM64E_USERLAND24 then 2 ^ 24 else 2 ^ 16) ∧
    0 <= cp_next b < 2 ^ 11 ∧
    (if cp_is_auth b
     then 0 <= cp_key b < 4 ∧ 0 <= cp_diversity b < 2 ^ 16 ∧ cp_addend b = 0
     else cp_key b = 0 ∧ cp_diversity b = 0 ∧ cp_address_diversity b = false ∧
          - 2 ^ 18 <= cp_addend b < 2 ^ 18)
  else
    0 <= cp_ordinal b < 2 ^ 24 ∧ 0 <= cp_next b < 2 ^ 12 ∧ cp_is_auth b = false ∧
    cp_key b = 0 ∧ cp_diversity b = 0 ∧ cp_address_diversity b = false ∧ 0 <= cp_addend b < 2 ^ 8.

(** A field of a packed word. *)
Lemma packed_field x lo n low v high :
  0 <= lo → 0 <= n → x = low + v * 2 ^ lo + high * 2 ^ (lo + n) → 0 <= low < 2 ^ lo → 0 <= v < 2 ^ n →
  Z.land (Z.shiftr x lo) (Z.ones n) = v.
Proof.
  intros Hlo Hn -> Hlow Hv. rewrite Z.land_ones, Z.shiftr_div_pow2 by done.
  rewrite Z.pow_add_r by done.
  replace (low + v * 2 ^ lo + high * (2 ^ lo * 2 ^ n)) with (low + (v + high * 2 ^ n) * 2 ^ lo) by ring.
  rewrite Z.div_add, Z.div_small by lia. rewrite Z.add_0_l, Z.mod_add by lia. by apply Z.mod_small.
Qed.

Lemma packed_low x n v high :
  0 <= n → x = v + high * 2 ^ n → 0 <= v < 2 ^ n → Z.land x (Z.ones n) = v.
Proof.
  intros Hn Hx Hv. rewrite <- (Z.shiftr_0_r x). apply (packed_field x 0 n 0 v high); rewrite ?Z.pow_0_r, ?Z.add_0_l; (done || lia).
Qed.

Lemma packed_bit x lo low (b : bool) high :
  0 <= lo → x = low + Z.b2z b * 2 ^ lo + high * 2 ^ (lo + 1) → 0 <= low < 2 ^ lo → bit x lo = b.
Proof.
  intros Hlo Hx Hlow. unfold bit. change 1 with (Z.ones 1) at 1.
  rewrite (packed_field x lo 1 low (Z.b2z b) high); [by destruct b|done|lia|done|done|destruct b; cbn; lia].
Qed.

Lemma sign_extend_19 a : - 2 ^ 18 <= a < 2 ^ 18 → sign_extend (a mod 2 ^ 19) 19 = a.
Proof.
  intros Ha. unfold sign_extend. change (19 - 1) with 18.
  assert (Hx : Z.lxor (a mod 2 ^ 19) (2 ^ 18) = a + 2 ^ 18).
  { assert (Hbound : 0 <= a + 2 ^ 18 < 2 ^ 19) by lia.
    assert (Hm : a mod 2 ^ 19 = if a <? 0 then a + 2 ^ 19 else a).
    { destruct (Z.ltb_spec a 0); [rewrite <- (Z.mod_add a 1) by lia|]; apply Z.mod_small; lia. }
    rewrite Hm. destruct (Z.ltb_spec a 0).
    - replace (a + 2 ^ 19) with (Z.lxor (a + 2 ^ 18) (2 ^ 18)).
      + by rewrite Z.lxor_assoc, Z.lxor_nilpotent, Z.lxor_0_r.
      + rewrite Z.lxor_comm. replace (2 ^ 18) with (Z.shiftl 1 18) at 1 by done.
        rewrite <- Z.add_nocarry_lxor; [change (Z.shiftl 1 18) with (2 ^ 18); lia|].
        apply Z.bits_inj'. intros i Hi. rewrite Z.land_spec, Z.shiftl_spec, Z.bits_0 by lia.
        destruct (Z.lt_ge_cases i 18); [by rewrite Z.testbit_neg_r by lia|].
        rewrite <- (Z.mod_small (a + 2 ^ 18) (2 ^ 18)) by lia.
        by rewrite Z.mod_pow2_bits_high, andb_false_r by lia.
    - rewrite Z.lxor_comm. replace (2 ^ 18) with (Z.shiftl 1 18) at 1 by done.
      rewrite <- Z.add_nocarry_lxor; [change (Z.shiftl 1 18) with (2 ^ 18); lia|].
      apply Z.bits_inj'. intros i Hi. rewrite Z.land_spec, Z.shiftl_spec, Z.bits_0 by lia.
      destruct (Z.lt_ge_cases i 18); [by rewrite Z.testbit_neg_r by lia|].
      rewrite <- (Z.mod_small a (2 ^ 18)) by lia.
      by rewrite Z.mod_pow2_bits_high, andb_false_r by lia. }
  rewrite Hx. replace (a + 2 ^ 18 - 2 ^ 18) with a by lia.
  unfold s64. rewrite u64_u64. unfold u64. destruct (Z.lt_ge_cases a 0).
  - rewrite <- (Z.mod_add a 1), Z.mod_small by lia.
    destruct (Z.ltb_spec (a + 1 * 2 ^ 64) (2 ^ 63)); lia.
  - rewrite Z.mod_small by lia. destruct (Z.ltb_spec a (2 ^ 63)); lia.
Qed.

Lemma decode_arm64e b format :
  format_is_arm64e format = true → bind_fits b format →
  decode_pointer (encode_bind b format) format = b.
Proof.
  intros Hf [Hbind Hfits]. rewrite Hf in Hfits.
  set (raw := encode_bind b format).
  destruct b as [is_bind is_auth ordinal next key diversity ad addend]. cbn in Hbind. subst is_bind.
  cbn [cp_ordinal cp_next cp_key cp_diversity cp_address_diversity cp_addend cp_is_auth] in Hfits.
  destruct Hfits as (Hord & Hnext & Hrest).
  assert (Hord24 : 0 <= ordinal < 2 ^ 24) by (destruct (format =? _); lia).
  set (mid := if is_auth then diversity + Z.b2z ad * 2 ^ 16 + key * 2 ^ 17 else addend mod 2 ^ 19).
  assert (Hmid : 0 <= mid < 2 ^ 19).
  { unfold mid. destruct is_auth; [destruct ad; cbn; lia|apply Z.mod_pos_bound; lia]. }
  assert (Hraw : raw = ordinal + mid * 2 ^ 32 + next * 2 ^ 51 + 1 * 2 ^ 62 + Z.b2z is_auth * 2 ^ 63).
  { unfold raw, encode_bind, mid. rewrite Hf. cbn. rewrite !Z.shiftl_mul_pow2 by lia.
    destruct is_auth; cbn [Z.b2z]; lia. }
  unfold decode_pointer. rewrite Hf. cbv zeta.
  rewrite (packed_bit raw 63 (ordinal + mid * 2 ^ 32 + next * 2 ^ 51 + 2 ^ 62) is_auth 0) by lia.
  rewrite (packed_bit raw 62 (ordinal + mid * 2 ^ 32 + next * 2 ^ 51) true (Z.b2z is_auth)) by (cbn [Z.b2z]; lia).
  change 0x7FF with (Z.ones 11).
  rewrite (packed_field raw 51 11 (ordinal + mid * 2 ^ 32) next (1 + Z.b2z is_auth * 2)) by lia.
  assert (Hordinal : (if format =? HK_CHAINED_PTR_ARM64E_USERLAND24
    then Z.land raw 0xFFFFFF else Z.land raw 0xFFFF) = ordinal).
  { change 0xFFFFFF with (Z.ones 24). change 0xFFFF with (Z.ones 16). destruct (format =? _).
    - apply (packed_low raw 24 ordinal (mid * 2 ^ 8 + next * 2 ^ 27 + 2 ^ 38 + Z.b2z is_auth * 2 ^ 39)); lia.
    - apply (packed_low raw 16 ordinal (mid * 2 ^ 16 + next * 2 ^ 35 + 2 ^ 46 + Z.b2z is_auth * 2 ^ 47)); lia. }
  rewrite Hordinal. destruct is_auth; cbn [andb].
  - destruct Hrest as (Hkey & Hdiv & ->).
    change 0xFFFF with (Z.ones 16). change 0x3 with (Z.ones 2). unfold mid in Hraw. cbn [Z.b2z] in Hraw.
    rewrite (packed_field raw 32 16 ordinal diversity
      (Z.b2z ad + key * 2 + next * 2 ^ 3 + 2 ^ 14 + 2 ^ 15)) by lia.
    rewrite (packed_bit raw 48 (ordinal + diversity * 2 ^ 32) ad (key + next * 2 ^ 2 + 2 ^ 13 + 2 ^ 14)) by lia.
    rewrite (packed_field raw 49 2 (ordinal + diversity * 2 ^ 32 + Z.b2z ad * 2 ^ 48) key
      (next + 2 ^ 11 + 2 ^ 12)) by (destruct ad; cbn [Z.b2z] in *; lia).
    done.
  - destruct Hrest as (-> & -> & -> & Ha). unfold mid in *. cbn [Z.b2z] in Hraw.
    change 0x7FFFF with (Z.ones 19).
    rewrite (packed_field raw 32 19 ordinal (addend mod 2 ^ 19) (next + 2 ^ 11)) by lia.
    by rewrite sign_extend_19.
Qed.

Lemma decode_plain b format :
  format_is_arm64e format = false → bind_fits b format →
  decode_pointer (encode_bind b format) format = b.
Proof.
  intros Hf [Hbind Hfits]. rewrite Hf in Hfits.
  set (raw := encode_bind b format).
  destruct b as [is_bind is_auth ordinal next key diversity ad addend]. cbn in Hbind. subst is_bind.
  cbn in Hfits. destruct Hfits as (Hord & Hnext & -> & -> & -> & -> & Ha).
  assert (Hraw : raw = ordinal + addend * 2 ^ 24 + next * 2 ^ 51 + 1 * 2 ^ 63).
  { unfold raw, encode_bind. rewrite Hf. cbn. by rewrite !Z.shiftl_mul_pow2 by lia. }
  unfold decode_pointer. rewrite Hf. cbv zeta.
  rewrite (packed_bit raw 63 (ordinal + addend * 2 ^ 24 + next * 2 ^ 51) true 0) by (cbn [Z.b2z]; lia).
  change 0xFFF with (Z.ones 12). change 0xFFFFFF with (Z.ones 24). change 0xFF with (Z.ones 8).
  rewrite (packed_field raw 51 12 (ordinal + addend * 2 ^ 24) next 1) by lia.
  rewrite (packed_low raw 24 ordinal (addend + next * 2 ^ 27 + 2 ^ 39)) by lia.
  by rewrite (packed_field raw 24 8 ordinal addend (next * 2 ^ 19 + 2 ^ 31)) by lia.
Qed.

(** Decoding inverts the linker's packing: in each pointer format, a bind
    that fits the format's fields is decoded from its packed word field by
    field, authentication, signed addend and link included. *)
Theorem decode_pointer_roundtrip (b : chained_ptr) (format : Z) :
  bind_fits b format → decode_pointer (encode_bind b format) format = b.
Proof.
  intros H. destruct (format_is_arm64e format) eqn:Hf; [by apply decode_arm64e|by apply decode_plain].
Qed.

(** ** The theorems on the small image *)

Definition demo_name : list Z := [111; 107].

Lemma demo_name_cstring : cstring demo_name.
Proof. repeat constructor; lia. Qed.

Lemma resolve_hostile_image_witness :
  ∃ r, resolve_file_image DemoImage.memory DemoImage.base DemoImage.size (Some demo_name)
      HK_SYMBOL_NAME_C HK_SYMBOL_VISIBILITY_PRIVATE_ALLOWED = Some r ∧
    accepted (λ o, ∀ out, o.2 = Some out → is_u64 (sr_address out)) r.
Proof.
  apply (resolve_hostile_image DemoImage.memory DemoImage.base DemoImage.size (Some demo_name)
    HK_SYMBOL_NAME_C HK_SYMBOL_VISIBILITY_PRIVATE_ALLOWED DemoImage.readable).
  intros n [= <-]. exact demo_name_cstring.
Defined.

(** The small trie among the sources of a header at 0x10000. *)
Definition demo_sources : hk_symbol_sources :=
  SymbolSources no_view demo_trie_base demo_trie_size 0x10000 0.

Lemma resolve_exported_correct_witness :
  hk_resolve_symbol demo_trie_memory demo_sources (Some [97]) HK_SYMBOL_NAME_C
      HK_SYMBOL_VISIBILITY_EXPORTED_ONLY =
    Some (HK_RESOLVE_OK,
      Some (SymbolResolution 0x14000 HK_RESOLVE_SOURCE_EXPORT_TRIE 0x4000 0 0 false)).
Proof.
  apply (proj1 (resolve_exported_correct demo_trie_memory demo_sources demo_trie [97]
    HK_SYMBOL_NAME_C ltac:(done) ltac:(by vm_compute) ltac:(done) demo_trie_laid demo_trie_wf
    ltac:(split; by apply Nat.ltb_lt)) (Regular 0 0x4000)).
  right. split.
  - intros e He. inversion He as [|terminal edges edge child rest e' Hin]; subst.
    apply list_elem_of_singleton in Hin. injection Hin as Hedge _.
    match goal with H : _ ++ _ = [97] |- _ => by rewrite Hedge in H end.
  - left. apply (defines_below None [([95; 97], Node (Some (Regular 0 0x4000))
      [([98], Node (Some (Reexport 8 2 [])) [])])] [95; 97] (Node (Some (Regular 0 0x4000))
      [([98], Node (Some (Reexport 8 2 [])) [])]) []); [by left|constructor].
Defined.

Lemma import_slot_hostile_image_witness :
  ∃ r, find_import_slot DemoImage.memory DemoImage.base DemoImage.size demo_name HK_SYMBOL_NAME_C =
      Some r ∧
    accepted (λ o, slot_ok DemoImage.memory o.1 o.2 ∧
      ∃ s, s ∈ spellings demo_name HK_SYMBOL_NAME_C ∧
        holds DemoImage.memory (im_symbol_name o.2) (s ++ [0])) r.
Proof.
  apply (import_slot_hostile_image DemoImage.memory DemoImage.base DemoImage.size demo_name
    HK_SYMBOL_NAME_C DemoImage.readable); [done|exact demo_name_cstring|cbn; lia|by vm_compute].
Defined.

(** A payload with one segment of one page, a bind at 0x8 and a last one after
    it, over an image of two words. *)
Definition demo_fixups : list Z :=
  le_bytes 4 0 ++ le_bytes 4 28 ++ le_bytes 4 60 ++ le_bytes 4 60 ++ le_bytes 4 0 ++ le_bytes 4 1 ++
  le_bytes 4 0 ++
  le_bytes 4 1 ++ le_bytes 4 8 ++
  le_bytes 4 24 ++ le_bytes 2 24 ++ le_bytes 2 6 ++ le_bytes 8 0 ++ le_bytes 4 0 ++ le_bytes 2 1 ++
  le_bytes 2 8.

Definition demo_words : list Z :=
  le_bytes 8 0 ++
  le_bytes 8 (encode_bind (ChainedPtr true false 3 2 0 0 false 0) HK_CHAINED_PTR_64_OFFSET) ++
  le_bytes 8 (encode_bind (ChainedPtr true false 4 0 0 0 false 1) HK_CHAINED_PTR_64_OFFSET).

Definition demo_fixups_memory : memory := memory_of 0x1000 (demo_fixups ++ demo_words).

Definition demo_collect (l : list hk_chained_bind) (b : hk_chained_bind)
    : visited (list hk_chained_bind) := Some (true, l ++ [b]).

Lemma demo_fixups_walk :
  walk_mapped_binds demo_fixups_memory demo_collect 0x1000 60 0x103c 24 [] =
    Some (inr (HK_CHAINED_OK,
      [ChainedBind 8 3 0 6 false 0 0 false 0; ChainedBind 16 4 0 6 false 0 0 false 1])).
Proof. vm_compute. reflexivity. Qed.

Lemma chained_binds_hostile_image_witness :
  ∃ r, walk_mapped_binds demo_fixups_memory demo_collect 0x1000 60 0x103c 24 [] = Some r ∧
    accepted (λ o, Forall (λ b, cb_slot_image_offset b + 8 <= 24) o.2) r.
Proof.
  assert (Hr : readable demo_fixups_memory 0x1000 84).
  { apply (readable_memory_of 0x1000 (demo_fixups ++ demo_words)).
    apply (bool_decide_unpack (Forall _ _)). vm_compute. exact I. }
  apply (chained_binds_hostile_image demo_fixups_memory demo_collect
    (Forall (λ b, cb_slot_image_offset b + 8 <= 24)) 0x1000 60 0x103c 24 []).
  - by apply (readable_sub 0x1000 84 0).
  - by apply (readable_sub 0x1000 84 60).
  - intros l b Hl _ Hb. exists (true, l ++ [b]). split; [done|]. by apply Forall_app_2; [|constructor].
  - constructor.
Defined.

Lemma decode_pointer_roundtrip_witness :
  decode_pointer (encode_bind (ChainedPtr true true 7 2 3 0x1234 true 0) HK_CHAINED_PTR_ARM64E)
    HK_CHAINED_PTR_ARM64E = ChainedPtr true true 7 2 3 0x1234 true 0.
Proof.
  apply (decode_pointer_roundtrip (ChainedPtr true true 7 2 3 0x1234 true 0) HK_CHAINED_PTR_ARM64E).
  unfold bind_fits. cbn. lia.
Defined.
