(* ===== verification/Device.v ===== *)
(** * The memory the engines patch (the seams of src/engines/*.h)

    Byte memory with the words the processor fetches from it, the store behind
    the engines' write seam, and the artifact records the engines fill in.  The
    engines read their target with a plain [memcpy]; its bytes are mapped, or
    the process faults there, so memory is total here. *)

From stdpp Require Import base list strings gmap numbers option.
From S2P Require Import Prelude Types Artifacts Memory Arm64.
Import Enc Isa.

(** ** Bytes and words *)

Definition bytes_at (mem : Z → Z) (a : Z) (n : nat) : list Z :=
  (λ i, mem (a + Z.of_nat i)) <$> seq 0 n.

(** [memcpy((void * )a, l, n)]. *)
Definition store (a : Z) (l : list Z) (mem : Z → Z) : Z → Z := λ x,
  if a <=? x then default (mem x) (l !! Z.to_nat (x - a)) else mem x.

Definition word_at (mem : Z → Z) (a : Z) : Z :=
  mem a + 2 ^ 8 * mem (a + 1) + 2 ^ 16 * mem (a + 2) + 2 ^ 24 * mem (a + 3).

(** A byte array read as [uint32_t], and the reverse. *)
Fixpoint words_of (l : list Z) : list Z :=
  match l with
  | b0 :: b1 :: b2 :: b3 :: rest =>
      (b0 + 2 ^ 8 * b1 + 2 ^ 16 * b2 + 2 ^ 24 * b3) :: words_of rest
  | _ => []
  end.

Definition bytes_of_word (w : Z) : list Z :=
  [bits w 0 8; bits w 8 8; bits w 16 8; bits w 24 8].

Definition bytes_of_words (ws : list Z) : list Z := flat_map bytes_of_word ws.

Definition byte_memory (mem : Z → Z) : Prop := ∀ a, 0 <= mem a < 256.

(** ** The write seam *)

(** Memory, and whatever else the registered seams keep behind their context
    pointer. *)
Record device {X : Type} : Type := Device { d_mem : Z → Z; d_ctx : X }.
Arguments device : clear implicits.
Arguments Device {X} _ _.

#[export] Instance device_eta {X} : Eta (device X) := λ d, Device (d_mem d) (d_ctx d).

(** [hk_mempatch_write_fn], [hk_inline_write_fn], [hk_reloc_write_fn]. *)
Definition writer (X : Type) : Type := Z → list Z → M (device X) hk_mutation_state.

(** What the headers ask of a writer: NONE proves no write, COMPLETE that the
    bytes are there and nothing else moved, PARTIAL that only the patched range
    may have; UNKNOWN promises nothing. *)
Record writer_contract {X} (write : writer X) : Prop := {
  wc_none : ∀ a l d, is_u64 a → is_u64 (Z.of_nat (length l)) →
    (write a l d).1 = HK_MUTATION_NONE → d_mem (write a l d).2 = d_mem d;
  wc_complete : ∀ a l d, is_u64 a → is_u64 (Z.of_nat (length l)) →
    (write a l d).1 = HK_MUTATION_COMPLETE → d_mem (write a l d).2 = store a l (d_mem d);
  wc_partial : ∀ a l d x, is_u64 a → is_u64 (Z.of_nat (length l)) →
    (write a l d).1 = HK_MUTATION_PARTIAL →
    ¬ a <= x < a + Z.of_nat (length l) → d_mem (write a l d).2 x = d_mem d x }.

(** [memcmp(address, captured, n) == 0] *)
Definition still_holds (mem : Z → Z) (a : Z) (l : list Z) : bool :=
  bool_decide (bytes_at mem a (length l) = l).

(** What is done to a writer's answer other than NONE before it is reported. *)
Definition reported_mutation (m : hk_mutation_state) : hk_mutation_state :=
  match m with HK_MUTATION_COMPLETE | HK_MUTATION_PARTIAL => m | _ => HK_MUTATION_UNKNOWN end.

(** ** Artifact records

    The scalar fields an engine may set; it starts from a zeroed structure. *)

Inductive hk_mapping_kind : Type :=
  | HK_MAPPING_NONE | HK_MAPPING_IMAGE_TEXT | HK_MAPPING_IMAGE_DATA | HK_MAPPING_SHARED_CACHE
  | HK_MAPPING_STATIC_HOOKKIT_SECTION | HK_MAPPING_ANONYMOUS | HK_MAPPING_PROVIDER_OWNED
  | HK_MAPPING_UNKNOWN.

#[export] Instance hk_mapping_kind_eq_dec : EqDecision hk_mapping_kind.
Proof. solve_decision. Defined.

Definition hk_mapping_kind_code (k : hk_mapping_kind) : Z :=
  match k with
  | HK_MAPPING_NONE => 0 | HK_MAPPING_IMAGE_TEXT => 1 | HK_MAPPING_IMAGE_DATA => 2
  | HK_MAPPING_SHARED_CACHE => 3 | HK_MAPPING_STATIC_HOOKKIT_SECTION => 4
  | HK_MAPPING_ANONYMOUS => 5 | HK_MAPPING_PROVIDER_OWNED => 6 | HK_MAPPING_UNKNOWN => 7
  end.

(** [mp_protection] is read, write, execute. *)
Record hk_artifact_mapping : Type := ArtifactMapping {
  mp_mapping_id : hk_id;
  mp_kind : hk_mapping_kind;
  mp_base : Z;
  mp_size : Z;
  mp_protection : bool * bool * bool }.

#[export] Instance hk_artifact_mapping_eta : Eta hk_artifact_mapping := λ m,
  ArtifactMapping (mp_mapping_id m) (mp_kind m) (mp_base m) (mp_size m) (mp_protection m).

Definition zero_mapping : hk_artifact_mapping :=
  ArtifactMapping zero_id HK_MAPPING_NONE 0 0 (false, false, false).

Record artifact_facts : Type := ArtifactFacts {
  af_address : Z;
  af_size : Z;
  af_original_pointer : Z;
  af_replacement_pointer : Z;
  af_import_slot_address : Z;
  af_continuation_address : Z;
  af_jump_back_destination : Z;
  af_current_protection : bool * bool * bool;
  af_mapping : hk_artifact_mapping;
  af_mechanically_reversible : bool;
  af_safe_to_reverse_after_activation : bool }.

#[export] Instance artifact_facts_eta : Eta artifact_facts := λ f,
  ArtifactFacts (af_address f) (af_size f) (af_original_pointer f) (af_replacement_pointer f)
    (af_import_slot_address f) (af_continuation_address f) (af_jump_back_destination f)
    (af_current_protection f) (af_mapping f) (af_mechanically_reversible f)
    (af_safe_to_reverse_after_activation f).

Definition facts_at (address size : Z) : artifact_facts :=
  ArtifactFacts address size 0 0 0 0 0 (false, false, false) zero_mapping false false.

Definition protection_bits (p : bool * bool * bool) : list Z :=
  let '(r, w, x) := p in [Z.b2z r; Z.b2z w; Z.b2z x].

Definition mapping_fields (m : hk_artifact_mapping) : list Z :=
  [id_high (mp_mapping_id m); id_low (mp_mapping_id m); hk_mapping_kind_code (mp_kind m);
   mp_base m; mp_size m] ++ protection_bits (mp_protection m).

Definition facts_fields (f : artifact_facts) : list Z :=
  [af_address f; af_size f; af_original_pointer f; af_replacement_pointer f;
   af_import_slot_address f; af_continuation_address f; af_jump_back_destination f]
  ++ protection_bits (af_current_protection f) ++ mapping_fields (af_mapping f)
  ++ [Z.b2z (af_mechanically_reversible f); Z.b2z (af_safe_to_reverse_after_activation f)].

Definition no_bytes : hk_byte_storage :=
  ByteStorage HK_BYTE_STORAGE_NONE (BytesNull 0) (replicate 32 0) 0.
Definition inline_bytes (l : list Z) : hk_byte_storage :=
  ByteStorage HK_BYTE_STORAGE_INLINE (Bytes l) (replicate 32 0) (Z.of_nat (length l)).

(** A record an engine hands to its sink. *)
Definition engine_artifact (engine : string) (kind : hk_artifact_kind)
    (state : hk_artifact_state) (effects : Z) (original : hk_byte_storage)
    (facts : artifact_facts) : hk_artifact :=
  Artifact zero_id zero_id zero_id zero_id zero_id kind state effects (View engine) (ViewNull 0)
    None original no_bytes no_bytes no_bytes false (facts_fields facts).

Definition artifact_address (a : hk_artifact) : Z := default 0 (a_facts a !! 0%nat).

(** The bytes the record holds of what was there before. *)
Definition artifact_original (a : hk_artifact) : list Z :=
  match bs_inline_bytes (a_original_bytes a) with Bytes l => l | BytesNull _ => [] end.

(** Putting them back. *)
Definition reversed (a : hk_artifact) (mem : Z → Z) : Z → Z :=
  store (artifact_address a) (artifact_original a) mem.

Definition applied_state (m : hk_mutation_state) : hk_artifact_state :=
  if bool_decide (m = HK_MUTATION_COMPLETE) then HK_ARTIFACT_COMMITTED
  else HK_ARTIFACT_PARTIALLY_APPLIED.

(** ** Lemmas on memory *)

Lemma length_bytes_at mem a n : length (bytes_at mem a n) = n.
Proof. unfold bytes_at. by rewrite length_fmap, length_seq. Qed.

Lemma lookup_bytes_at mem a n i : (i < n)%nat → bytes_at mem a n !! i = Some (mem (a + Z.of_nat i)).
Proof. intros H. unfold bytes_at. by rewrite list_lookup_fmap, lookup_seq_lt. Qed.

Lemma bytes_at_ext mem mem' a n :
  (∀ x, a <= x < a + Z.of_nat n → mem x = mem' x) → bytes_at mem a n = bytes_at mem' a n.
Proof.
  intros H. apply list_eq_same_length with n; rewrite ?length_bytes_at; [done|done|].
  intros i x y Hi. rewrite !lookup_bytes_at by done. intros [= <-] [= <-]. apply H. lia.
Qed.

Lemma store_at mem a l i b : l !! i = Some b → store a l mem (a + Z.of_nat i) = b.
Proof.
  intros H. unfold store. rewrite (proj2 (Z.leb_le a (a + Z.of_nat i))) by lia.
  replace (Z.to_nat (a + Z.of_nat i - a)) with i by lia. by rewrite H.
Qed.

Lemma store_outside mem a l x :
  ¬ a <= x < a + Z.of_nat (length l) → store a l mem x = mem x.
Proof.
  intros H. unfold store. destruct (Z.leb_spec a x); [|done].
  by rewrite lookup_ge_None_2 by lia.
Qed.

Lemma bytes_at_store mem a l : bytes_at (store a l mem) a (length l) = l.
Proof.
  apply list_eq_same_length with (length l); rewrite ?length_bytes_at; [done|done|].
  intros i x y Hi. rewrite lookup_bytes_at by done. intros [= <-] Hy. by apply store_at.
Qed.

Lemma still_holds_spec mem a l :
  still_holds mem a l = true ↔ bytes_at mem a (length l) = l.
Proof. unfold still_holds. by rewrite bool_decide_eq_true. Qed.

(** Writing over a region and putting the captured bytes back. *)
Lemma store_back mem a l : 
  ∀ m', (∀ x, ¬ a <= x < a + Z.of_nat (length l) → m' x = mem x) →
  bytes_at mem a (length l) = l → ∀ x, store a l m' x = mem x.
Proof.
  intros m' Hm Hl x. destruct (decide (a <= x < a + Z.of_nat (length l))) as [Hx|Hx].
  - destruct (lookup_lt_is_Some_2 l (Z.to_nat (x - a))) as [b Hb]; [lia|].
    replace x with (a + Z.of_nat (Z.to_nat (x - a))) by lia. rewrite (store_at _ _ _ _ b Hb).
    rewrite <- Hl in Hb. rewrite lookup_bytes_at in Hb by lia. by injection Hb as ->.
  - rewrite store_outside by done. by apply Hm.
Qed.

Lemma length_bytes_of_words ws : length (bytes_of_words ws) = (4 * length ws)%nat.
Proof. induction ws as [|w ws IH]; [done|]. cbn [bytes_of_words flat_map]. rewrite length_app. fold (bytes_of_words ws). rewrite IH. simpl. lia. Qed.

Lemma bytes_of_words_app ws ws' : bytes_of_words (ws ++ ws') = bytes_of_words ws ++ bytes_of_words ws'.
Proof. apply flat_map_app. Qed.

Lemma bytes_at_add mem a n m :
  bytes_at mem a (n + m) = bytes_at mem a n ++ bytes_at mem (a + Z.of_nat n) m.
Proof.
  unfold bytes_at. rewrite seq_app, fmap_app. f_equal.
  replace (seq (0 + n) m) with (Nat.add n <$> seq 0 m) by (rewrite fmap_add_seq; f_equal; lia).
  rewrite <- list_fmap_compose. apply list_fmap_ext. intros i x _. unfold compose. f_equal. lia.
Qed.

(** The second half of what is stored. *)
Lemma bytes_of_words_second mem q ws ws' :
  bytes_at mem q (4 * length (ws ++ ws')) = bytes_of_words (ws ++ ws') →
  bytes_at mem (q + 4 * Z.of_nat (length ws)) (4 * length ws') = bytes_of_words ws'.
Proof.
  rewrite length_app, Nat.mul_add_distr_l, bytes_at_add, bytes_of_words_app. intros H.
  apply app_inj_1 in H as [_ H]; [|by rewrite length_bytes_at, length_bytes_of_words].
  by replace (q + 4 * Z.of_nat (length ws)) with (q + Z.of_nat (4 * length ws)) by lia.
Qed.

Lemma bits_byte w lo : 0 <= lo → bits w lo 8 = w / 2 ^ lo mod 256.
Proof.
  intros H. unfold bits. rewrite Z.land_ones, Z.shiftr_div_pow2 by lia. done.
Qed.

Lemma word_bytes w : is_u32 w →
  bits w 0 8 + 2 ^ 8 * bits w 8 8 + 2 ^ 16 * bits w 16 8 + 2 ^ 24 * bits w 24 8 = w.
Proof.
  intros [H0 H1]. rewrite !bits_byte by lia. change (2 ^ 0) with 1. rewrite Z.div_1_r.
  pose proof (Z.div_mod w 256 ltac:(lia)) as E0.
  pose proof (Z.div_mod (w / 256) 256 ltac:(lia)) as E1.
  pose proof (Z.div_mod (w / 256 / 256) 256 ltac:(lia)) as E2.
  change (2 ^ 8) with 256. change (2 ^ 16) with (256 * 256).
  change (2 ^ 24) with (256 * 256 * 256) in *. rewrite <- !Z.div_div by lia.
  rewrite (Z.mod_small (w / 256 / 256 / 256)); [lia|].
  split; [repeat apply Z.div_pos; lia|]. repeat apply Z.div_lt_upper_bound; lia.
Qed.

Lemma words_of_bytes ws : Forall is_u32 ws → words_of (bytes_of_words ws) = ws.
Proof.
  induction 1 as [|w ws Hw _ IH]; [done|].
  cbn [bytes_of_words flat_map bytes_of_word app words_of]. fold (bytes_of_words ws).
  by rewrite IH, word_bytes.
Qed.

Lemma fmap_seq_S {A} (f : nat → A) n : f <$> seq 0 (S n) = f 0%nat :: ((λ i, f (S i)) <$> seq 0 n).
Proof. cbn [seq]. rewrite <- fmap_S_seq, fmap_cons. f_equal. by rewrite <- list_fmap_compose. Qed.

Lemma bytes_at_S mem a n : bytes_at mem a (S n) = mem a :: bytes_at mem (a + 1) n.
Proof.
  unfold bytes_at. rewrite fmap_seq_S. f_equal; [f_equal; lia|].
  apply list_fmap_ext. intros i x _. f_equal. lia.
Qed.

Lemma words_of_memory mem a n : words_of (bytes_at mem a (4 * n)) =
  (λ i, word_at mem (a + 4 * Z.of_nat i)) <$> seq 0 n.
Proof.
  revert a. induction n as [|n IH]; intros a; [done|].
  replace (4 * S n)%nat with (S (S (S (S (4 * n))))) by lia.
  rewrite !bytes_at_S, fmap_seq_S. cbn [words_of]. f_equal.
  - unfold word_at. replace (a + 4 * Z.of_nat 0) with a by lia.
    by replace (a + 1 + 1 + 1) with (a + 3) by lia; replace (a + 1 + 1) with (a + 2) by lia.
  - replace (a + 1 + 1 + 1 + 1) with (a + 4) by lia. rewrite IH.
    apply list_fmap_ext. intros i x _. f_equal. lia.
Qed.

(** What the processor fetches where words were stored. *)
Lemma laid_out_bytes mem q ws :
  Forall is_u32 ws → bytes_at mem q (4 * length ws) = bytes_of_words ws →
  laid_out (word_at mem) q ws.
Proof.
  intros Hws H i w Hi. apply (f_equal words_of) in H.
  rewrite words_of_memory, words_of_bytes in H by done.
  rewrite <- H, list_lookup_fmap in Hi.
  apply fmap_Some in Hi as (j & Hj & ->). apply lookup_seq in Hj as [-> _]. done.
Qed.

Lemma laid_out_ext mem mem' q ws :
  (∀ i, (i < length ws)%nat → mem (q + 4 * Z.of_nat i) = mem' (q + 4 * Z.of_nat i)) →
  laid_out mem q ws → laid_out mem' q ws.
Proof. intros H Hl i w Hi. rewrite <- H by by eapply lookup_lt_Some. by apply Hl. Qed.

Lemma word_at_ext mem mem' a :
  (∀ x, a <= x < a + 4 → mem x = mem' x) → word_at mem a = word_at mem' a.
Proof. intros H. unfold word_at. by rewrite !H by lia. Qed.

Lemma word_at_u32 mem a : byte_memory mem → is_u32 (word_at mem a).
Proof.
  intros H. unfold word_at, is_u32. pose proof (H a). pose proof (H (a + 1)).
  pose proof (H (a + 2)). pose proof (H (a + 3)). lia.
Qed.

(** ** The guarded write *)

Section Guarded.
Context {X : Type}.

(** The revalidation and the call of the write seam the three text and memory
    engines share. *)
Definition guarded_write (write : writer X) (address : Z) (original patch : list Z)
    : M (device X) hk_mutation_state := λ d,
  if still_holds (d_mem d) address original then write address patch d
  else (HK_MUTATION_NONE, d).

Lemma guarded_write_spec write address original patch d m d' :
  writer_contract write → is_u64 address → is_u64 (Z.of_nat (length original)) →
  length patch = length original →
  guarded_write write address original patch d = (m, d') →
  (m = HK_MUTATION_NONE → d_mem d' = d_mem d) ∧
  (m ≠ HK_MUTATION_NONE → bytes_at (d_mem d) address (length original) = original) ∧
  (m = HK_MUTATION_COMPLETE → d_mem d' = store address patch (d_mem d)) ∧
  (m ≠ HK_MUTATION_NONE → m ≠ HK_MUTATION_UNKNOWN →
     ∀ x, store address original (d_mem d') x = d_mem d x).
Proof.
  intros [Hn Hc Hp] Ha Hl Hlen. rewrite <- Hlen in Hl. unfold guarded_write. destruct (still_holds _ _ _) eqn:E.
  - intros H. apply still_holds_spec in E.
    specialize (Hn address patch d Ha Hl). specialize (Hc address patch d Ha Hl).
    pose proof (λ x, Hp address patch d x Ha Hl) as Hp'. rewrite H in *. simpl in *.
    split_and!; try done. intros Hm Hu. apply store_back; [|done]. intros x Hx.
    rewrite <- Hlen in Hx. destruct m; try done; [|by apply Hp'].
    rewrite Hc by done. by apply store_outside.
  - by intros [= <- <-].
Qed.
End Guarded.

(** What a commit that answers [m] must have done: nothing at all on NONE;
    otherwise the region still held the captured bytes and the last of the
    records ([before] are the others) holds them, which puts memory back exactly
    unless the outcome is UNKNOWN; COMPLETE means the patch is in place and
    nothing else moved. *)
Definition honest_commit (address : Z) (captured patch : list Z) (mem mem' : Z → Z)
    (before : list hk_artifact) (m : hk_mutation_state) (artifacts : list hk_artifact) : Prop :=
  match m with
  | HK_MUTATION_NONE => artifacts = [] ∧ mem' = mem
  | _ =>
      bytes_at mem address (length captured) = captured ∧
      (∃ a, artifacts = before ++ [a] ∧ a_state a = applied_state m ∧
         artifact_address a = address ∧ artifact_original a = captured ∧
         (m ≠ HK_MUTATION_UNKNOWN → ∀ x, reversed a mem' x = mem x)) ∧
      (m = HK_MUTATION_COMPLETE → mem' = store address patch mem)
  end.

Lemma guarded_commit_honest {X} (write : writer X) address captured patch d m d' before art :
  writer_contract write → is_u64 address → is_u64 (Z.of_nat (length captured)) →
  length patch = length captured →
  (∀ m, a_state (art m) = applied_state m ∧ artifact_address (art m) = address ∧
        artifact_original (art m) = captured) →
  guarded_write write address captured patch d = (m, d') →
  if bool_decide (m = HK_MUTATION_NONE)
  then honest_commit address captured patch (d_mem d) (d_mem d') before HK_MUTATION_NONE []
  else reported_mutation m ≠ HK_MUTATION_NONE ∧
       honest_commit address captured patch (d_mem d) (d_mem d') before (reported_mutation m)
         (before ++ [art (reported_mutation m)]).
Proof.
  intros Hc Had Hl Hlen Hart H.
  destruct (guarded_write_spec _ _ _ _ _ _ _ Hc Had Hl Hlen H) as (Hn & Hheld & Hdone & Hback).
  destruct (bool_decide_reflect (m = HK_MUTATION_NONE)) as [->|Hm].
  { split; [done|by apply Hn]. }
  assert (Ha : ∃ a, before ++ [art (reported_mutation m)] = before ++ [a] ∧
    a_state a = applied_state (reported_mutation m) ∧
    artifact_address a = address ∧ artifact_original a = captured ∧
    (reported_mutation m ≠ HK_MUTATION_UNKNOWN → ∀ x, reversed a (d_mem d') x = d_mem d x)).
  { exists (art (reported_mutation m)). destruct (Hart (reported_mutation m)) as (Hs & Hadr & Ho).
    do 4 (split; [done|]). intros Hu. unfold reversed. rewrite Hadr, Ho. apply Hback; [done|].
    by destruct m. }
  split; [by destruct m|]. destruct m; try done; (split; [by apply Hheld|]; split; [exact Ha|]); done || auto.
Qed.

(** A writer that stores and reports it. *)
Definition plain_writer : writer unit := λ a l d,
  (HK_MUTATION_COMPLETE, d <| d_mem := store a l (d_mem d) |>).

Lemma plain_writer_contract : writer_contract plain_writer.
Proof. by split. Qed.
