(* ===== verification/PatchCode.v ===== *)
(** * Emitted code in memory

    The words the encoders of src/native/hk_arm64.c produce are machine words,
    so the bytes the engines store are fetched back as the instructions they
    encode: a stored branch arrives, a stored relocated window does what the
    window did. *)

From stdpp Require Import base list numbers option.
From S2P Require Import Prelude Memory Arm64 Device.
Import Enc Reloc Isa.

(** ** Encoded words are 32 bits wide *)

Create HintDb u32_words.

Lemma u32_lor a b : is_u32 a → is_u32 b → is_u32 (Z.lor a b).
Proof. intros Ha Hb. by apply lor_below. Qed.

Lemma land_le x m : 0 <= m → 0 <= Z.land x m <= m.
Proof.
  intros Hm. split; [apply Z.land_nonneg; by right|].
  assert (H : Z.land x m = m - Z.ldiff m x).
  { rewrite Z.sub_nocarry_ldiff.
    - apply Z.bits_inj'. intros i Hi. rewrite !Z.ldiff_spec, Z.land_spec.
      by destruct (Z.testbit m i), (Z.testbit x i).
    - apply Z.bits_inj'. intros i Hi. rewrite !Z.ldiff_spec, Z.bits_0.
      by destruct (Z.testbit m i), (Z.testbit x i). }
  assert (0 <= Z.ldiff m x) by (apply Z.ldiff_nonneg; by left). lia.
Qed.

Lemma u32_land x m : is_u32 m → is_u32 (Z.land x m).
Proof. intros [? ?]. pose proof (land_le x m). unfold is_u32. lia. Qed.

Lemma u32_shiftl_land x m k : 0 <= m → 0 <= k → m * 2 ^ k < 2 ^ 32 → is_u32 (Z.shiftl (Z.land x m) k).
Proof.
  intros Hm Hk H. rewrite Z.shiftl_mul_pow2 by done. pose proof (land_le x m Hm).
  pose proof (Z.pow_pos_nonneg 2 k). unfold is_u32. nia.
Qed.

Lemma u32_bits x lo : is_u32 (bits x lo 32).
Proof. pose proof (bits_range x lo 32). unfold is_u32. lia. Qed.

Ltac u32_word :=
  lazymatch goal with
  | |- is_u32 (Z.lor _ _) => apply u32_lor; u32_word
  | |- is_u32 (Z.shiftl (Z.land _ _) _) => apply u32_shiftl_land; [done|done|done]
  | |- is_u32 (Z.land _ _) => apply u32_land; done
  | |- is_u32 (bits _ _ 32) => apply u32_bits
  | |- _ => done
  end.

Lemma u32_a64_b delta : is_u32 (a64_b delta).
Proof. unfold a64_b. u32_word. Qed.
Lemma u32_ldr_lit64 rt delta : is_u32 (a64_ldr_lit64 rt delta).
Proof. unfold a64_ldr_lit64. u32_word. Qed.
Lemma u32_br rn : is_u32 (a64_br rn).
Proof. unfold a64_br. u32_word. Qed.
Lemma u32_blr rn : is_u32 (a64_blr rn).
Proof. unfold a64_blr. u32_word. Qed.
Lemma u32_imm19 insn delta : is_u32 (a64_set_imm19 insn delta).
Proof. unfold a64_set_imm19. u32_word. Qed.
Lemma u32_imm14 insn delta : is_u32 (a64_set_imm14 insn delta).
Proof. unfold a64_set_imm14. u32_word. Qed.
#[export] Hint Resolve u32_a64_b u32_ldr_lit64 u32_br u32_blr u32_imm19 u32_imm14 u32_bits : u32_words.

Ltac u32_list := unfold quad; repeat (constructor; [solve [eauto with u32_words]|]); try constructor.

Lemma abs_jump_words target : Forall is_u32 (emit_abs_jump target).
Proof. unfold emit_abs_jump. simpl. u32_list. Qed.
Lemma load_const_words rd v : Forall is_u32 (emit_load_const rd v).
Proof. unfold emit_load_const. simpl. u32_list. Qed.

Lemma emit_branch_words a dest : Forall is_u32 (hk_arm64_emit_branch a dest).1.
Proof.
  unfold hk_arm64_emit_branch. destruct (_ =? 4); simpl; [u32_list|apply abs_jump_words].
Qed.

Lemma relocate_one_words insn pc ps pe out : is_u32 insn →
  relocate_one insn pc ps pe = Some out → Forall is_u32 out.
Proof.
  intros Hi. unfold relocate_one. destruct (is_adr insn).
  { intros [= <-]. apply load_const_words. }
  destruct (is_b_bl insn).
  { unfold relocate_b_bl. destruct (in_patch _ _ _); [done|].
    destruct (negb _); intros [= <-]; [apply abs_jump_words|]. simpl. u32_list. }
  destruct (conditional_of insn pc) as [[t re]|] eqn:Ec.
  { destruct (in_patch _ _ _); [done|]. intros [= <-].
    assert (is_u32 re).
    { unfold conditional_of in Ec. repeat case_match; simplify_eq; auto with u32_words. }
    constructor; [done|]. constructor; [apply u32_a64_b|apply abs_jump_words]. }
  destruct (is_load_literal insn); [|intros [= <-]; constructor; [done|constructor]].
  unfold relocate_load_literal. destruct (_ && _); [intros [= <-]; constructor; [done|constructor]|].
  destruct (load_opcode _ _) as [load|] eqn:El; [|done]. intros [= <-].
  do 4 (constructor; [eauto with u32_words|]). constructor; [|constructor].
  apply u32_lor; [apply u32_lor; [|done]|apply u32_land; done].
  unfold load_opcode in El. repeat case_match; simplify_eq; done.
Qed.

(** ** The branch *)

Lemma emit_branch_length a dest ws n :
  hk_arm64_emit_branch a dest = (ws, n) →
  n = hk_arm64_branch_size a dest ∧ n = 4 * Z.of_nat (length ws) ∧ (n = 4 ∨ n = 16).
Proof.
  unfold hk_arm64_emit_branch, hk_arm64_branch_size.
  destruct (_ && _); simpl; intros [= <- <-]; split_and!; auto.
Qed.

Section Machine.
Context {R : Type}.
Context (cond_holds : Z → R → bool).
Context (simd_load : Z → Z → Z → (Z → Z) → R → R).
Context (exec_other : Z → mstate R → option (mstate R)).
Local Abbreviation steps := (steps cond_holds simd_load exec_other).
Implicit Types s : mstate R.

(** The processor fetches, from [n] bytes at [a], what is in memory there. *)
Definition fetches (mem : Z → Z) (a n : Z) (s : mstate R) : Prop :=
  ∀ x, a <= x < a + n → ms_mem s x = word_at mem x.

(** Control arrives at [dest] with nothing but the scratch pair changed. *)
Definition arrives (dest : Z) s s' : Prop :=
  (∃ k, steps k s = Some s') ∧ ms_pc s' = dest ∧ ms_mem s' = ms_mem s ∧
  ms_rest s' = ms_rest s ∧ ∀ r, r ≠ 16 → r ≠ 17 → ms_reg s' r = ms_reg s r.

Lemma steps_app j k s s' : steps j s = Some s' → steps (j + k) s = steps k s'.
Proof.
  revert s. induction j as [|j IH]; intros s; cbn [Isa.steps Nat.add]; [by intros [= ->]|].
  destruct (step _ _ _ s); [apply IH|done].
Qed.

Lemma arrives_trans d1 d2 s1 s2 s3 : arrives d1 s1 s2 → arrives d2 s2 s3 → arrives d2 s1 s3.
Proof.
  intros ([j Hj] & _ & Hm & Hr & Hg) ([k Hk] & Hp & Hm' & Hr' & Hg').
  split; [exists (j + k)%nat; by rewrite (steps_app _ _ _ _ Hj)|].
  split_and!; [done|by rewrite Hm'|by rewrite Hr'|]. intros r H16 H17. by rewrite Hg', Hg.
Qed.

Lemma fetches_words mem q ws s n : Forall is_u32 ws →
  bytes_at mem q (4 * length ws) = bytes_of_words ws →
  fetches mem q n s → 4 * Z.of_nat (length ws) <= n → laid_out (ms_mem s) q ws.
Proof.
  intros Hw Hb Hf Hn. apply (laid_out_ext (word_at mem)); [|by apply laid_out_bytes].
  intros i Hi. symmetry. apply Hf. lia.
Qed.

(** A branch whose bytes are in memory at [a]. *)
Lemma stored_branch_arrives mem a dest n s :
  is_u64 a → a + 16 <= 2 ^ 64 → is_u64 dest → a mod 4 = 0 → dest mod 4 = 0 →
  let patch := (hk_arm64_emit_branch a dest).1 in
  bytes_at mem a (4 * length patch) = bytes_of_words patch →
  4 * Z.of_nat (length patch) <= n → fetches mem a n s → ms_pc s = a →
  ∃ s', arrives dest s s'.
Proof.
  intros Ha Ha' Hd Ham Hdm patch Hb Hn Hf Hpc. subst a.
  pose proof (emit_branch_words (ms_pc s) dest) as Hw.
  unfold patch in *. destruct (hk_arm64_emit_branch (ms_pc s) dest) as [ws k] eqn:E.
  simpl in *. destruct (branch_runs cond_holds simd_load exec_other s dest ws k Ha Ha' Hd Ham Hdm E)
    as (_ & j & s' & Hs & Hp & Hm & Hr & Hg); [by eapply fetches_words|].
  exists s'. split; [by exists j|]. split_and!; [done|done|done|]. intros r H16 H17. apply Hg. by right.
Qed.

(** *** The relocated window, stored and followed by a branch back *)

Local Abbreviation exec := (exec cond_holds simd_load exec_other).
Local Abbreviation relocated_exit := (relocated_exit cond_holds simd_load exec_other).

(** From the state [s], the code at [body + off i] has the effect instruction
    [i] of the window has at [a + 4 * i], and goes on where that one did: at
    the same address, or at [body + off (i + 1)] where it fell through. *)
Definition replays (insns : list Z) (a body : Z) (off : nat → Z) (s : mstate R) : Prop :=
  ∀ i insn s1, insns !! i = Some insn →
    (∀ w, decode insn = IOther w → position_independent exec_other w) →
    exec (decode insn) (goto (window_pc a i) s) = Some s1 →
    ∃ k s2, steps k (goto (body + off i) s) = Some s2 ∧
      relocated_exit (window_pc a i) (body + off i) (off (S i) - off i) s1 s2.

Lemma laid_out_concat mem q outs i o :
  laid_out mem q (concat outs) → outs !! i = Some o →
  laid_out mem (q + 4 * Z.of_nat (length (concat (take i outs)))) o.
Proof.
  intros H Ho. rewrite <- (take_drop_middle outs i o Ho), concat_app in H. cbn [concat] in H.
  apply laid_out_app in H as [_ H]. by apply laid_out_app in H as [H _].
Qed.

Lemma relocated_window_replays mem a insns cap out n body back :
  Forall is_u32 insns → hk_arm64_relocate (Some insns) a true cap = (out, n) → n ≠ 0 →
  0 <= body → body + n + 24 <= 2 ^ 64 → Forall is_u32 back →
  bytes_at mem body (4 * length (out ++ back)) = bytes_of_words (out ++ back) →
  n = 4 * Z.of_nat (length out) ∧
  ∃ off, off 0%nat = 0 ∧ off (length insns) = n ∧ (∀ i, 0 <= off i <= n) ∧
    ∀ size s, n <= size → fetches mem body size s → replays insns a body off s.
Proof.
  intros Hu Hrel Hn Hb Hw Hback Hbytes.
  destruct (relocate_accepts _ _ _ _ _ Hrel Hn) as (Hlen & _ & outs & -> & Hl & Hone).
  split; [done|]. set (off i := 4 * Z.of_nat (length (concat (take i outs)))).
  assert (Houts : Forall is_u32 (concat outs)).
  { apply Forall_concat, Forall_lookup. intros i o Ho.
    destruct (lookup_lt_is_Some_2 insns i) as [insn Hi].
    { rewrite <- Hl. by eapply lookup_lt_Some. }
    destruct (Hone _ _ Hi) as (o' & Ho' & Hr). simplify_eq.
    eapply relocate_one_words; [|exact Hr]. by eapply (proj1 (Forall_lookup _ _) Hu). }
  assert (Hall : Forall is_u32 (concat outs ++ back)) by by apply Forall_app.
  pose proof (laid_out_bytes _ _ _ Hall Hbytes) as Hlay. apply laid_out_app in Hlay as [Hlay _].
  assert (Hstep : ∀ i o, outs !! i = Some o → off (S i) = off i + 4 * Z.of_nat (length o)).
  { intros i o Ho. unfold off. rewrite (take_S_r _ _ _ Ho), concat_app, length_app. simpl.
    rewrite app_nil_r. lia. }
  assert (Hoff : ∀ i, 0 <= off i <= n).
  { intros i. unfold off. pose proof (take_drop i outs) as Htd.
    apply (f_equal (λ l, length (concat l))) in Htd. rewrite concat_app, length_app in Htd. lia. }
  exists off. split; [done|]. split; [unfold off; rewrite <- Hl, firstn_all; lia|]. split; [done|].
  intros size s Hsize Hf i insn s1 Hi Hother Hexec.
  destruct (Hone _ _ Hi) as (o & Ho & Hr). pose proof (Hoff i). pose proof (Hoff (S i)) as HS.
  rewrite (Hstep _ _ Ho) in *.
  destruct (exec_moved cond_holds simd_load exec_other (goto (window_pc a i) s) s1 insn o
              (body + off i) a (u64 (a + Z.of_nat (length insns) * 4))) as (k & s2 & Hk & Hx).
  - by eapply (proj1 (Forall_lookup _ _) Hu).
  - apply u64_range.
  - lia.
  - lia.
  - exact Hother.
  - exact Hr.
  - apply (laid_out_ext (word_at mem)); [|by apply laid_out_concat].
    intros j Hj. symmetry. apply Hf. lia.
  - exact Hexec.
  - exists k, s2. split; [exact Hk|].
    by replace (off i + 4 * Z.of_nat (length o) - off i) with (4 * Z.of_nat (length o)) by lia.
Qed.
End Machine.
