(* ===== verification/EngineWorld.v ===== *)
(** * What the built-in engines share (src/engines/*Vtable.c)

    The process memory an adapter works in (the device it patches, its
    allocator, the prepared objects the core hands back by pointer), the
    descriptor constants, and the image-scope refusal the adapters make before
    they read a target. *)

From stdpp Require Import base list strings gmap numbers option.
From S2P Require Import Prelude Types ImageCatalog Artifacts Engine Device.

(** ** The world of one engine *)

Record engine_world {X P : Type} : Type := EngineWorld {
  ew_device : device X;
  ew_heap : heap;
  ew_ids : ids;
  ew_objects : gmap Z P }.
Arguments engine_world : clear implicits.
Arguments EngineWorld {X P} _ _ _ _.

#[export] Instance engine_world_eta {X P} : Eta (engine_world X P) := λ w,
  EngineWorld (ew_device w) (ew_heap w) (ew_ids w) (ew_objects w).

Section World.
Context {X P : Type}.
Local Abbreviation world := (engine_world X P).

Definition on_device {A} (m : M (device X) A) : M world A :=
  zoom ew_device (λ d w, w <| ew_device := d |>) m.

(** [malloc(sizeof *p)], what is stored there, and [free]; 0 is NULL. *)
Definition malloc_object : M world Z :=
  zoom ew_heap (λ h w, w <| ew_heap := h |>) alloc_object.
Definition put_object (p : Z) (o : P) : M world unit :=
  modify (λ w, w <| ew_objects := <[p := o]> (ew_objects w) |>).
Definition get_object (p : Z) : M world (option P) :=
  gets (λ w, if p =? 0 then None else ew_objects w !! p).
Definition free_object (p : Z) : M world unit :=
  modify (λ w, w <| ew_objects := delete p (ew_objects w) |>).
End World.

(** ** Descriptors *)

Definition HK_ENGINE_ARCHITECTURES : Z := Z.lor (2 ^ 0) (2 ^ 1).
Definition HK_ENGINE_IOS_VERSION (major minor patch : Z) : Z :=
  u32 (major * 10000 + minor * 100 + patch).
Definition HK_ORIGINAL_REQ_ALL : Z :=
  Z.lor (HK_ORIGINAL_REQ_BIT HK_ORIGINAL_NONE)
    (Z.lor (HK_ORIGINAL_REQ_BIT HK_ORIGINAL_DIRECT_PREDECESSOR)
       (HK_ORIGINAL_REQ_BIT HK_ORIGINAL_CALLABLE_CONTINUATION)).
Definition HK_REACH_ENTRYPOINT : Z := 2 ^ 2.
Definition HK_REACH_EXACT_MEMORY : Z := 2 ^ 11.

(** A [Capabilities] with the fields every built-in text or memory engine sets
    the same way. *)
Definition builtin_capabilities (engine_id : string) (kind : hk_target_kind)
    (reach originals prepare_effects commit_effects : Z) : hk_engine_capabilities :=
  Capabilities (Some engine_id) (Some "HookKit") (Some "HookKit")
    (HK_TARGET_KIND_BIT kind) (HK_TARGET_KIND_BIT kind) 0
    HK_ENGINE_ARCHITECTURES HK_ENGINE_ARCHITECTURES (HK_ENGINE_IOS_VERSION 15 0 0)
    (Z.lor reach HK_REACH_EXACT_IMAGE_SCOPE) originals
    prepare_effects commit_effects false false 0.

(** ** Refusals *)

Definition refused_with (code : Z) (message : string) : hk_prepare_diag :=
  PrepareDiag code (Some message) 0.

Definition scope_code (s : Scope.status) : Z :=
  match s with
  | Scope.HK_IMAGE_SCOPE_OK => 0 | Scope.HK_IMAGE_SCOPE_NO_CATALOG => 1
  | Scope.HK_IMAGE_SCOPE_NO_MATCH => 2 | Scope.HK_IMAGE_SCOPE_UUID_MISMATCH => 3
  | Scope.HK_IMAGE_SCOPE_ADDRESS_OUTSIDE => 4 | Scope.HK_IMAGE_SCOPE_UNREADABLE_IMAGE => 5
  end.

Definition hk_image_scope_describe (s : Scope.status) : string :=
  match s with
  | Scope.HK_IMAGE_SCOPE_OK => "address is inside the expected image"
  | Scope.HK_IMAGE_SCOPE_NO_CATALOG =>
      "image scope not checked: no image catalog is available"
  | Scope.HK_IMAGE_SCOPE_NO_MATCH => "the image the request named is not loaded"
  | Scope.HK_IMAGE_SCOPE_UUID_MISMATCH =>
      "the image is loaded but is a different build than the request expected"
  | Scope.HK_IMAGE_SCOPE_ADDRESS_OUTSIDE =>
      "the address is not inside the image the request named"
  | Scope.HK_IMAGE_SCOPE_UNREADABLE_IMAGE =>
      "a matching image's header could not be parsed to bound it"
  end.

(** A check that had nothing to look at is a skip, not a refusal. *)
Definition scope_refuses (s : Scope.status) : bool :=
  match s with
  | Scope.HK_IMAGE_SCOPE_OK | Scope.HK_IMAGE_SCOPE_NO_CATALOG => false
  | _ => true
  end.
