(* ===== verification/Runtime.v ===== *)
(** * The runtime handle (src/core/HKRuntime.c)

    Creation, the engine registry, the enumeration of backends and the explicit
    choice of backends by a list of names.  The built-in vtables, what dyld
    lists and the platform probes are parameters. *)

From stdpp Require Import base list strings gmap numbers option.
From Stdlib Require Ascii String.
From S2P Require Import Prelude Types Ownership ImageCatalog Artifacts Engine Memory Faults DyldImages EngineWorld Plan Analyze.

Definition HK_RUNTIME_MAX_ENGINES : Z := 16.
Definition HK_BACKEND_UNRANKED : Z := 2 ^ 30.
Definition SIZEOF_RUNTIME_CONFIG : Z := 48.

(** ** Characters *)

Definition code (c : Ascii.ascii) : Z := Z.of_N (Ascii.N_of_ascii c).

(** [a >= 'A' && a <= 'Z' ? a + 32 : a] *)
Definition lower (c : Ascii.ascii) : Z :=
  if (65 <=? code c) && (code c <=? 90) then code c + 32 else code c.

Definition is_digit (c : Ascii.ascii) : bool := (48 <=? code c) && (code c <=? 57).
(** [isspace] in the C locale. *)
Definition is_space (c : Ascii.ascii) : bool :=
  (code c =? 32) || ((9 <=? code c) && (code c <=? 13)).
(** Between two tokens of a list. *)
Definition is_separator (c : Ascii.ascii) : bool :=
  (code c =? 44) || (code c =? 32) || (code c =? 9).

(** ** The version of the system *)

Definition ULONG_MAX : Z := 2 ^ 64 - 1.

(** The digits at the front, their value from [acc], and what follows. *)
Fixpoint digits (s : string) (acc : Z) : Z * string :=
  match s with
  | String.String c rest => if is_digit c then digits rest (acc * 10 + (code c - 48)) else (acc, s)
  | String.EmptyString => (acc, s)
  end.

Fixpoint skip_spaces (s : string) : string :=
  match s with
  | String.String c rest => if is_space c then skip_spaces rest else s
  | String.EmptyString => s
  end.

Definition skip_sign (s : string) : bool * string :=
  match s with
  | String.String c rest =>
      if code c =? 45 then (true, rest) else if code c =? 43 then (false, rest) else (false, s)
  | String.EmptyString => (false, s)
  end.

(** [strtoul(value, &end, 10)]: the value and what [end] points at, [None] where
    no conversion could be performed ([end == value]). *)
Definition strtoul (value : string) : option (Z * string) :=
  let '(negative, s) := skip_sign (skip_spaces value) in
  match s with
  | String.String c _ =>
      if is_digit c then
        let '(n, rest) := digits s 0 in
        Some (if ULONG_MAX <? n then ULONG_MAX else if negative then u64 (- n) else n, rest)
      else None
  | String.EmptyString => None
  end.

(** A component behind a dot: [None] refuses, and a missing one is 0. *)
Definition version_part (s : string) : option (Z * string) :=
  match s with
  | String.String c rest =>
      if code c =? 46 then
        match strtoul rest with
        | Some (n, rest) => if 99 <? n then None else Some (n, rest)
        | None => None
        end
      else Some (0, s)
  | String.EmptyString => Some (0, s)
  end.

Definition hk_runtime_parse_ios_version (value : option string) : Z :=
  match value with
  | None | Some String.EmptyString => 0
  | Some value =>
      match strtoul value with
      | None => 0
      | Some (major, rest) =>
          if (2 ^ 32 - 1) / 10000 <? major then 0
          else
            match version_part rest with
            | None => 0
            | Some (minor, rest) =>
                match version_part rest with
                | Some (patch, String.EmptyString) => HK_ENGINE_IOS_VERSION major minor patch
                | _ => 0
                end
            end
      end
  end.

(** ** Names of backends *)

Fixpoint hk_ci_span_eq (text id : string) : bool :=
  match text, id with
  | String.EmptyString, String.EmptyString => true
  | String.String a text, String.String b id => (lower a =? lower b) && hk_ci_span_eq text id
  | _, _ => false
  end.

Definition provider_prefix : string := "provider-".

Definition hk_backend_span_matches (tok : string) (id : option string) : bool :=
  match id with
  | None => false
  | Some id =>
      hk_ci_span_eq tok id ||
      (hk_ci_span_eq tok "native" && hk_ci_span_eq id "HookKit") ||
      (String.prefix provider_prefix id &&
       hk_ci_span_eq tok (String.substring (String.length provider_prefix)
                            (String.length id - String.length provider_prefix) id))
  end.

Fixpoint skip_separators (s : string) : string :=
  match s with
  | String.String c rest => if is_separator c then skip_separators rest else s
  | String.EmptyString => s
  end.

(** Up to the next separator, and the rest from there. *)
Fixpoint take_token (s : string) : string * string :=
  match s with
  | String.String c rest =>
      if is_separator c then (String.EmptyString, s)
      else let '(tok, rest) := take_token rest in (String.String c tok, rest)
  | String.EmptyString => (String.EmptyString, String.EmptyString)
  end.

(** The loop from [p], [idx] tokens in. *)
Fixpoint token_loop (fuel : nat) (p : string) (idx : Z) (id : string) : Z :=
  match fuel with
  | O => -1
  | S fuel =>
      match skip_separators p with
      | String.EmptyString => -1
      | start =>
          let '(tok, p) := take_token start in
          if negb (Z.of_nat (String.length tok) =? 0) && hk_backend_span_matches tok (Some id)
          then idx
          else token_loop fuel p (idx + 1) id
      end
  end.

Definition hk_backend_token_index (list id : option string) : Z :=
  match list, id with
  | Some list, Some id => token_loop (S (String.length list)) list 0 id
  | _, _ => -1
  end.

(** [group && group[0] ? group : engine_id] *)
Definition hk_engine_group_token (caps : hk_engine_capabilities) : option string :=
  match c_backend_group caps with
  | Some (String.String _ _) => c_backend_group caps
  | _ => c_engine_id caps
  end.

Section Runtime.
Context {E : Type}.
Local Abbreviation runtime := (hk_runtime E).
Local Abbreviation slot := (engine_slot E).

Definition slot_caps (s : slot) : hk_engine_capabilities := vt_describe (es_vtable s).

Definition hk_engine_token_rank (s : slot) (list : option string) : Z :=
  let caps := slot_caps s in
  match c_engine_id caps with
  | None => -1
  | Some _ =>
      let a := hk_backend_token_index list (hk_engine_group_token caps) in
      let b := hk_backend_token_index list (c_engine_id caps) in
      if a <? 0 then b else if b <? 0 then a else Z.min a b
  end.

(** ** The choice of backends *)

(** Where element [x] lands when it moves left past greater keys; [l] is the sorted
    part, last element first. *)
Fixpoint shift_in (l : list (Z * Z)) (x : Z * Z) : list (Z * Z) :=
  match l with
  | y :: rest => if x.1 <? y.1 then y :: shift_in rest x else x :: l
  | [] => [x]
  end.

(** The insertion sort of [keys] and [idx_order], as pairs. *)
Definition insertion_sort (l : list (Z * Z)) : list (Z * Z) := rev (foldl shift_in [] l).

Definition engine_key (order : option string) (s : slot) (i : Z) : Z :=
  let rank := match order with Some _ => hk_engine_token_rank s order | None => -1 end in
  if 0 <=? rank then rank else HK_BACKEND_UNRANKED + i.

(** The keys of the engines from index [i] that are not dropped. *)
Fixpoint kept_keys (engines : list slot) (drop : list bool) (order : option string) (i : Z)
    : list (Z * Z) :=
  match engines, drop with
  | s :: engines, d :: drop =>
      if d : bool then kept_keys engines drop order (i + 1)
      else (engine_key order s i, i) :: kept_keys engines drop order (i + 1)
  | _, _ => []
  end.

Definition hk_runtime_retain_ordered_engines (rt : runtime) (drop : list bool)
    (order : option string) : runtime :=
  let sorted := insertion_sort (kept_keys (rt_engines rt) drop order 0) in
  rt <| rt_engines := omap (λ ki, rt_engines rt !! Z.to_nat ki.2) sorted |>.

Definition dropped (backend_ids : string) (s : slot) : bool :=
  match c_engine_id (slot_caps s) with
  | None => true
  | Some id => negb (bool_decide (id = "objc"%string)) && (hk_engine_token_rank s (Some backend_ids) <? 0)
  end.

Definition hk_runtime_apply_backend_override (rt : runtime) (backend_ids : option string) : runtime :=
  match backend_ids with
  | None => rt
  | Some ids =>
      if Z.of_nat (length (rt_engines rt)) =? 0 then rt
      else hk_runtime_retain_ordered_engines rt (dropped ids <$> rt_engines rt) (Some ids)
  end.

(** ** The registry *)

(** The header of a vtable this build understands: up to [describe]. *)
Definition vtable_header_ok (v : hk_engine_vtable E) : bool :=
  ((vt_abi_version v =? 0) && (vt_struct_size v =? 0)) ||
  ((vt_abi_version v =? 1) && (OFFSET_discover <=? vt_struct_size v)).

Definition hk_runtime_register_engine (rt : runtime) (vtable : option (hk_engine_vtable E))
    (engine_ctx : Z) (testing_registration : bool) : bool * runtime :=
  match vtable with
  | None => (false, rt)
  | Some v =>
      if negb (vtable_header_ok v) || (HK_RUNTIME_MAX_ENGINES <=? Z.of_nat (length (rt_engines rt)))
      then (false, rt)
      else (true, rt <| rt_engines := rt_engines rt ++ [EngineSlot v engine_ctx testing_registration] |>)
  end.

Definition hk_runtime_register_engine_with_context (rt : runtime) (vtable : option (hk_engine_vtable E))
    (engine_ctx : Z) : bool * runtime := hk_runtime_register_engine rt vtable engine_ctx false.
Definition hk_runtime_register_engine_for_testing (rt : runtime) (vtable : option (hk_engine_vtable E))
    : bool * runtime := hk_runtime_register_engine rt vtable 0 true.

(** ** Enumeration *)

Definition enumerable (rt : runtime) (e : E) (s : slot) : bool :=
  match c_engine_id (slot_caps s) with
  | None | Some String.EmptyString => false
  | Some _ =>
      hk_engine_supports_platform (Some (slot_caps s)) (rt_platform_architecture rt)
        (rt_platform_ios_version rt) (es_testing s) && discovered s e
  end.

Definition slot_group (s : slot) : string := default EmptyString (hk_engine_group_token (slot_caps s)).
Definition slot_label (s : slot) : string := default (slot_group s) (c_display_name (slot_caps s)).

(** The enumerator gets the group and its label, and answers whether to go on. *)
Fixpoint enumerate_slots {C} (rt : runtime) (e : E) (slots : list slot) (seen : list string)
    (enumerator : string → string → C → bool * C) (c : C) : C :=
  match slots with
  | [] => c
  | s :: slots =>
      if negb (enumerable rt e s) || bool_decide (slot_group s ∈ seen)
      then enumerate_slots rt e slots seen enumerator c
      else
        let '(more, c) := enumerator (slot_group s) (slot_label s) c in
        if more : bool then enumerate_slots rt e slots (seen ++ [slot_group s]) enumerator c else c
  end.

Definition hk_runtime_enumerate_backends {C} (rt : option runtime) (e : E)
    (enumerator : option (string → string → C → bool * C)) (c : C) : hk_status * C :=
  match rt, enumerator with
  | Some rt, Some enumerator => (HK_STATUS_OK, enumerate_slots rt e (rt_engines rt) [] enumerator c)
  | _, _ => (HK_STATUS_INVALID_ARGUMENT, c)
  end.

(** ** Artifacts and identity *)

Definition hk_runtime_owner_id (rt : option runtime) : hk_id :=
  match rt with Some rt => rt_owner_id rt | None => zero_id end.

Definition hk_runtime_append_artifacts (rt : option runtime) (source : option hk_artifact_ledger)
    : M heap (bool * option runtime) :=
  match rt with
  | Some r =>
      match rt_artifacts r, source with
      | Some ledger, Some _ =>
          answer <- hk_artifact_ledger_append_ledger (Some ledger) source ;;
          let '(ok, ledger) := answer in
          ret (ok, Some (r <| rt_artifacts := ledger |>))
      | _, _ => ret (false, rt)
      end
  | None => ret (false, None)
  end.

Definition hk_runtime_copy_artifacts (rt : option runtime) (out : bool)
    : M heap (hk_status * option (list hk_artifact)) :=
  match rt with
  | Some rt => if out then hk_artifact_snapshot_from_ledger (rt_artifacts rt)
               else ret (HK_STATUS_INVALID_ARGUMENT, None)
  | None => ret (HK_STATUS_INVALID_ARGUMENT, None)
  end.

(** ** Creation *)

(** The built-in engines of an iOS build with their contexts; [None] where the
    build leaves one out, [pb_native] is [hk_native_supported()]. *)
Record platform_build : Type := PlatformBuild {
  pb_architecture : Z;
  pb_ios_version : Z;
  pb_native : bool;
  pb_objc : hk_engine_vtable E * Z;
  pb_rebind : hk_engine_vtable E * Z;
  pb_memory : hk_engine_vtable E * Z;
  pb_dobby : option (hk_engine_vtable E * Z);
  pb_gum : option (hk_engine_vtable E * Z);
  pb_ellekit : option (hk_engine_vtable E * Z);
  pb_inline : hk_engine_vtable E * Z;
  pb_reloc : hk_engine_vtable E * Z;
  pb_static : hk_engine_vtable E * Z;
  pb_substitute : option (hk_engine_vtable E * Z) }.

(** Registration in order; what a registration answers is ignored. *)
Definition register_all (engines : list (hk_engine_vtable E * Z)) (rt : runtime) : runtime :=
  foldl (λ rt vc, (hk_runtime_register_engine_with_context rt (Some vc.1) vc.2).2) rt engines.

(** All but the first. *)
Definition built_ins (b : platform_build) : list (hk_engine_vtable E * Z) :=
  (if pb_native b
   then [pb_rebind b; pb_memory b] ++ option_list (pb_dobby b) ++ option_list (pb_gum b) ++
        option_list (pb_ellekit b) ++ [pb_inline b; pb_reloc b; pb_static b]
   else []) ++
  option_list (pb_substitute b).

(** What dyld answers, and the memory its images are in. *)
Context (images : list dyld_image) (mem : memory).

Definition hk_runtime_register_platform_engines (b : platform_build) (rt : runtime) : F heap runtime :=
  let rt := register_all [pb_objc b] rt in
  answer <-- hk_image_catalog_populate_from_dyld mem images (rt_catalog rt) ;;
  fret (register_all (built_ins b) (rt <| rt_catalog := answer.2 |>)).

(** An operation on the allocator of the process. *)
Definition faulty_heap {A} (m : F heap A) : F (sys E) A := λ s,
  '(a, h) ← m (s_heap s); Some (a, s <| s_heap := h |>).

(** The configuration is its [struct_size] and its install context; [out] whether
    there is somewhere to put the runtime. *)
Definition hk_runtime_create_impl (b : platform_build) (config : option (Z * hk_install_context))
    (backend_override : option string) (out : bool) : F (sys E) (hk_status * option runtime) :=
  if negb out then fret (HK_STATUS_INVALID_ARGUMENT, None)
  else if match config with Some (size, _) => size <? SIZEOF_RUNTIME_CONFIG | None => false end
  then fret (HK_STATUS_INVALID_ARGUMENT, None)
  else
    runtime <-- lift (on_heap alloc) ;;
    if negb runtime then fret (HK_STATUS_OUT_OF_MEMORY, None)
    else
      owner <-- lift (on_ids hk_id_generate) ;;
      artifacts <-- lift (on_heap hk_artifact_ledger_create) ;;
      match artifacts with
      | None => fret (HK_STATUS_OUT_OF_MEMORY, None)
      | Some _ =>
          catalog <-- lift (on_heap hk_image_catalog_create) ;;
          match catalog with
          | None => fret (HK_STATUS_OUT_OF_MEMORY, None)
          | Some _ =>
              let rt := Runtime owner
                (match config with Some (_, c) => c | None => HK_INSTALL_CONTEXT_EARLY_PROCESS end)
                (pb_architecture b) (pb_ios_version b) [] catalog [] 0 artifacts in
              rt <-- faulty_heap (hk_runtime_register_platform_engines b rt) ;;
              fret (HK_STATUS_OK, Some (hk_runtime_apply_backend_override rt backend_override))
          end
      end.

Definition hk_runtime_create (b : platform_build) (config : option (Z * hk_install_context)) (out : bool) :=
  hk_runtime_create_impl b config None out.
Definition hk_runtime_create_with_backend_override (b : platform_build)
    (config : option (Z * hk_install_context)) (backend_ids : option string) (out : bool) :=
  hk_runtime_create_impl b config backend_ids out.

(** [pthread_once] over the runtime's cell: [None] before the first call. *)
Definition hk_shared_runtime (b : platform_build) (shared : option (option runtime))
    : F (sys E) (option (option runtime) * option runtime) :=
  match shared with
  | Some rt => fret (shared, rt)
  | None =>
      answer <-- hk_runtime_create b (Some (SIZEOF_RUNTIME_CONFIG, HK_INSTALL_CONTEXT_EARLY_PROCESS)) true ;;
      fret (Some answer.2, answer.2)
  end.
End Runtime.
