(* ===== verification/RuntimeSpec.v ===== *)
(** * What the runtime promises of its engines

    A list of backend names keeps the engines it names, in the order it names
    them; every backend that is enumerated can be chosen by its own name; a new
    runtime has the built-in engines in order and the images dyld lists. *)

From stdpp Require Import base list strings gmap numbers option sorting.
From Stdlib Require Ascii String.
From S2P Require Import Prelude Types Ownership ImageCatalog Artifacts Engine Memory Faults MachO MachOBounds DyldImages EngineWorld Plan Demo Analyze Runtime.

(** ** Tokens *)

(** A string split at each separator, and the fields that are not empty. *)
Fixpoint fields (s : string) : list string :=
  match s with
  | String.EmptyString => [EmptyString]
  | String.String c rest =>
      if is_separator c then EmptyString :: fields rest
      else match fields rest with f :: fs => String.String c f :: fs | [] => [] end
  end.
Definition tokens (s : string) : list string := filter (λ f, f ≠ EmptyString) (fields s).

Lemma fields_cons s : ∃ f fs, fields s = f :: fs.
Proof.
  induction s as [|c s (f & fs & IH)]; [by eexists _, _|]. cbn. rewrite IH. destruct (is_separator c); by eexists _, _.
Qed.

Lemma tokens_separator c s : is_separator c = true → tokens (String.String c s) = tokens s.
Proof. intros H. unfold tokens. cbn [fields]. rewrite H. by rewrite filter_cons_False by naive_solver. Qed.

Lemma skip_separators_tokens s : tokens (skip_separators s) = tokens s.
Proof.
  induction s as [|c s IH]; [done|]. cbn [skip_separators]. destruct (is_separator c) eqn:E; [|done].
  by rewrite tokens_separator.
Qed.

Lemma skip_separators_length s : (String.length (skip_separators s) <= String.length s)%nat.
Proof. induction s as [|c s IH]; [done|]. cbn. destruct (is_separator c); cbn; lia. Qed.

Lemma skip_separators_head s c rest : skip_separators s = String.String c rest → is_separator c = false.
Proof.
  induction s as [|c' s IH]; [done|]. cbn. destruct (is_separator c') eqn:E; [done|]. by intros [= <- _].
Qed.

(** The first field, and the fields of what follows it. *)
Lemma take_token_fields s : let '(tok, rest) := take_token s in
  (rest = EmptyString ∧ fields s = [tok]) ∨
  (∃ c r, rest = String.String c r ∧ is_separator c = true ∧ fields s = tok :: fields r).
Proof.
  induction s as [|c s IH]; [by left|]. cbn [take_token fields]. destruct (is_separator c) eqn:E.
  { right. by exists c, s. }
  destruct (take_token s) as [tok rest]. destruct IH as [[-> ->]|(c' & r & -> & Hc & ->)]; [by left|].
  right. by exists c', r.
Qed.

Lemma take_token_spec c s : is_separator c = false →
  let '(tok, rest) := take_token (String.String c s) in
  tok ≠ EmptyString ∧ tokens (String.String c s) = tok :: tokens rest ∧
  (String.length rest <= String.length s)%nat.
Proof.
  intros Hc. pose proof (take_token_fields (String.String c s)) as H.
  assert (Hlen : ∀ s, (String.length (take_token s).2 <= String.length s)%nat).
  { clear. induction s as [|c s IH]; [done|]. cbn. destruct (is_separator c); cbn; [done|].
    destruct (take_token s); cbn in *. lia. }
  cbn [take_token] in *. rewrite Hc in *. specialize (Hlen s). destruct (take_token s) as [tok rest]. cbn in Hlen.
  unfold tokens. destruct H as [[-> ->]|(c' & r & -> & Hc' & ->)].
  - split_and!; [done|done|lia].
  - rewrite filter_cons_True by done. cbn [fields]. rewrite Hc', filter_cons_False by naive_solver. by split_and!.
Qed.

(** The position of the first element that passes, as the code answers it. *)
Definition first_index {A} (P : A → bool) (l : list A) : option Z :=
  (λ r, Z.of_nat r.1) <$> list_find P l.

Lemma first_index_cons {A} (P : A → bool) x l :
  first_index P (x :: l) = if P x then Some 0 else Z.succ <$> first_index P l.
Proof.
  unfold first_index. cbn [list_find]. destruct (P x); case_decide as Hd; try done.
  destruct (list_find P l) as [[i y]|]; [|done]. cbn. f_equal. lia.
Qed.

Lemma token_loop_spec fuel p idx id : (String.length p < fuel)%nat →
  token_loop fuel p idx id =
    default (-1) (Z.add idx <$> first_index (λ t, hk_backend_span_matches t (Some id)) (tokens p)).
Proof.
  revert p idx. induction fuel as [|fuel IH]; intros p idx Hf; [lia|]. cbn [token_loop].
  rewrite <- skip_separators_tokens. pose proof (skip_separators_length p) as Hlen.
  destruct (skip_separators p) as [|c s] eqn:Es; [done|]. apply skip_separators_head in Es.
  pose proof (take_token_spec c s Es) as Ht. destruct (take_token (String.String c s)) as [tok rest].
  destruct Ht as (Hne & -> & Hrest). rewrite first_index_cons.
  destruct (Z.eqb_spec (Z.of_nat (String.length tok)) 0) as [E|_]; [by destruct tok|]. cbn [negb andb].
  destruct (hk_backend_span_matches tok (Some id)).
  - cbn. lia.
  - cbn in Hlen. rewrite IH by lia. destruct (first_index _ (tokens rest)); cbn; [lia|done].
Qed.

Lemma token_index_spec ids id :
  hk_backend_token_index (Some ids) (Some id) =
    default (-1) (first_index (λ t, hk_backend_span_matches t (Some id)) (tokens ids)).
Proof.
  cbn [hk_backend_token_index]. rewrite token_loop_spec by lia. by destruct (first_index _ _).
Qed.

Lemma first_index_or {A} (P Q : A → bool) l :
  first_index (λ x, P x || Q x) l =
    match first_index P l, first_index Q l with
    | Some a, Some b => Some (Z.min a b) | Some a, None => Some a | None, b => b
    end.
Proof.
  induction l as [|x l IH]; [done|]. rewrite !first_index_cons.
  assert (Hpos : ∀ R : A → bool, ∀ k, first_index R l = Some k → 0 <= k).
  { intros R k. unfold first_index. destruct (list_find R l) as [[i y]|]; cbn; [intros [= <-]; lia|done]. }
  destruct (P x), (Q x); cbn [orb].
  - done.
  - destruct (first_index Q l) eqn:E; cbn; [|done]. apply Hpos in E. f_equal. lia.
  - destruct (first_index P l) eqn:E; cbn; [|done]. apply Hpos in E. f_equal. lia.
  - rewrite IH. destruct (first_index P l), (first_index Q l); cbn; try done. f_equal. lia.
Qed.

(** ** The sort *)

(** Smaller key first, equal keys in the order they had. *)
Definition precedes (x y : Z * Z) : Prop := x.1 < y.1 ∨ (x.1 = y.1 ∧ x.2 < y.2).

Lemma shift_in_perm l x : shift_in l x ≡ₚ x :: l.
Proof.
  induction l as [|y l IH]; [done|]. cbn. destruct (x.1 <? y.1); [|done]. rewrite IH. apply perm_swap.
Qed.

Lemma shift_in_sorted l x : StronglySorted (flip precedes) l → Forall (λ y, y.2 < x.2) l →
  StronglySorted (flip precedes) (shift_in l x).
Proof.
  induction 1 as [|y l Hs IH Hy]; intros Hx; [by repeat constructor|]. apply Forall_cons in Hx as [Hxy Hx].
  cbn. destruct (Z.ltb_spec x.1 y.1).
  - constructor; [by apply IH|]. rewrite shift_in_perm. constructor; [by left|done].
  - constructor; [by constructor|]. constructor; [unfold flip, precedes; lia|].
    rewrite Forall_forall in Hy, Hx |- *. intros z Hz. specialize (Hy z Hz). specialize (Hx z Hz).
    unfold flip, precedes in *. lia.
Qed.

Lemma foldl_shift_in l acc : StronglySorted (flip precedes) acc →
  StronglySorted (λ x y : Z * Z, x.2 < y.2) l → Forall (λ x, Forall (λ y, y.2 < x.2) acc) l →
  StronglySorted (flip precedes) (foldl shift_in acc l) ∧ foldl shift_in acc l ≡ₚ l ++ acc.
Proof.
  intros Ha Hl. revert acc Ha. induction Hl as [|x l Hl IH Hx]; intros acc Ha Hacc; [done|].
  apply Forall_cons in Hacc as [Hx0 Hacc]. cbn. destruct (IH (shift_in acc x)) as [H1 H2].
  - by apply shift_in_sorted.
  - rewrite Forall_forall in Hacc, Hx |- *. intros z Hz. rewrite shift_in_perm. constructor; [by apply Hx|by apply Hacc].
  - split; [done|]. rewrite H2, shift_in_perm. by rewrite Permutation_middle.
Qed.

Lemma StronglySorted_snoc {A} (R : A → A → Prop) l x :
  StronglySorted R l → Forall (λ y, R y x) l → StronglySorted R (l ++ [x]).
Proof.
  induction 1 as [|y l Hs IH Hy]; intros Hx; [by repeat constructor|]. apply Forall_cons in Hx as [Hyx Hx].
  cbn. constructor; [by apply IH|]. apply Forall_app. split; [done|]. by constructor.
Qed.

Lemma StronglySorted_rev {A} (R : A → A → Prop) l :
  StronglySorted (flip R) l → StronglySorted R (rev l).
Proof.
  induction 1 as [|x l Hs IH Hx]; cbn; [constructor|]. apply StronglySorted_snoc; [done|].
  rewrite Forall_forall in Hx |- *. intros y Hy. apply Hx. apply list_elem_of_In. apply in_rev. by apply list_elem_of_In.
Qed.

Lemma insertion_sort_spec l : StronglySorted (λ x y : Z * Z, x.2 < y.2) l →
  StronglySorted precedes (insertion_sort l) ∧ insertion_sort l ≡ₚ l.
Proof.
  intros Hl. destruct (foldl_shift_in l [] ltac:(constructor) Hl) as [H1 H2].
  { rewrite Forall_forall. intros. constructor. }
  unfold insertion_sort. split; [by apply StronglySorted_rev|].
  rewrite <- Permutation_rev, H2. by rewrite app_nil_r.
Qed.

(** ** The choice of backends *)

Section Choice.
Context {E : Type}.
Local Abbreviation slot := (engine_slot E).

Lemma kept_keys_spec (engines : list slot) drop order i :
  length drop = length engines →
  StronglySorted (λ x y : Z * Z, x.2 < y.2) (kept_keys engines drop order i) ∧
  ∀ k j, (k, j) ∈ kept_keys engines drop order i ↔
    i <= j ∧ ∃ s, engines !! Z.to_nat (j - i) = Some s ∧ drop !! Z.to_nat (j - i) = Some false ∧
      k = engine_key order s j.
Proof.
  revert drop i. induction engines as [|s engines IH]; intros [|dr drop] i Hl; try done.
  { split; [constructor|]. intros k j. cbn. rewrite elem_of_nil. split; [done|]. by intros (_ & s & H & _). }
  injection Hl as Hl. specialize (IH drop (i + 1) Hl) as [Hs Hm].
  assert (Hstep : ∀ k j, (k, j) ∈ kept_keys engines drop order (i + 1) ↔
    i < j ∧ ∃ s0, (s :: engines) !! Z.to_nat (j - i) = Some s0 ∧ (dr :: drop) !! Z.to_nat (j - i) = Some false ∧
      k = engine_key order s0 j).
  { intros k j. rewrite Hm. destruct (decide (i < j)); [|split; [lia|by intros []]].
    replace (Z.to_nat (j - i)) with (S (Z.to_nat (j - (i + 1)))) by lia. cbn.
    split; intros [? H']; (split; [lia|exact H']). }
  cbn [kept_keys]. destruct dr.
  - split; [done|]. intros k j. rewrite Hstep. split; [intros [? H]; split; [lia|done]|].
    intros [Hij (s0 & H1 & H2 & H3)]. destruct (decide (i = j)) as [->|]; [|split; [lia|by exists s0]].
    rewrite Z.sub_diag in H2. done.
  - split.
    + constructor; [done|]. rewrite Forall_forall. intros [k j] Hkj. apply Hstep in Hkj. cbn. lia.
    + intros k j. rewrite elem_of_cons, Hstep. split.
      * intros [[= -> ->]|[? H]]; [|split; [lia|done]]. split; [lia|]. exists s. by rewrite Z.sub_diag.
      * intros [Hij (s0 & H1 & H2 & H3)]. destruct (decide (i = j)) as [->|]; [|right; split; [lia|by exists s0]].
        left. rewrite Z.sub_diag in H1. injection H1 as ->. by rewrite H3.
Qed.

(** A token names an engine by its group or by its own identifier. *)
Definition names (tok : string) (s : slot) : bool :=
  bool_decide (is_Some (c_engine_id (slot_caps s))) &&
  (hk_backend_span_matches tok (hk_engine_group_token (slot_caps s)) ||
   hk_backend_span_matches tok (c_engine_id (slot_caps s))).

Definition chosen (ids : string) (s : slot) : Prop :=
  c_engine_id (slot_caps s) = Some "objc"%string ∨ ∃ tok, tok ∈ tokens ids ∧ names tok s = true.

(** What an engine is sorted by: the first token that names it, or its old place
    behind every named one. *)
Definition place (ids : string) (s : slot) (i : Z) : Z :=
  default (HK_BACKEND_UNRANKED + i) (first_index (λ tok, names tok s) (tokens ids)).

Lemma first_index_nonneg {A} (P : A → bool) l k : first_index P l = Some k → 0 <= k.
Proof. unfold first_index. destruct (list_find P l) as [[i y]|]; cbn; [intros [= <-]; lia|done]. Qed.

Lemma first_index_none {A} (P : A → bool) l : first_index P l = None ↔ ∀ x, x ∈ l → P x = false.
Proof.
  induction l as [|x l IH]; [split; [|done]; by intros _ x ?%elem_of_nil|].
  rewrite first_index_cons. setoid_rewrite elem_of_cons. destruct (P x) eqn:Ex.
  - split; [done|]. intros H. specialize (H x ltac:(by left)). by rewrite Ex in H.
  - destruct (first_index P l); cbn.
    + split; [done|]. intros H. destruct IH as [_ IH]. discriminate IH. intros y Hy. apply H. by right.
    + destruct IH as [IH _]. split; [|done]. intros _ y [->|Hy]; [done|by apply IH].
Qed.

Lemma token_rank_spec ids s :
  hk_engine_token_rank s (Some ids) = default (-1) (first_index (λ tok, names tok s) (tokens ids)).
Proof.
  unfold hk_engine_token_rank. destruct (c_engine_id (slot_caps s)) as [id|] eqn:Eid.
  2: { replace (first_index _ _) with (@None Z); [done|]. symmetry. apply first_index_none. intros tok _.
       unfold names. by rewrite Eid. }
  assert (Hg : ∃ g, hk_engine_group_token (slot_caps s) = Some g).
  { unfold hk_engine_group_token. rewrite Eid. destruct (c_backend_group (slot_caps s)) as [[|]|]; by eexists. }
  destruct Hg as [g Hg]. rewrite Hg, !token_index_spec.
  replace (first_index (λ tok, names tok s) (tokens ids)) with
    (first_index (λ t, hk_backend_span_matches t (Some g) || hk_backend_span_matches t (Some id)) (tokens ids)).
  2: { unfold names. rewrite Hg, Eid. done. }
  rewrite first_index_or.
  destruct (first_index _ (tokens ids)) as [a|] eqn:Ea in |- *; destruct (first_index _ (tokens ids)) as [b|] eqn:Eb in |- *; cbn;
    try (apply first_index_nonneg in Ea); try (apply first_index_nonneg in Eb); try done.
  - destruct (Z.ltb_spec a 0), (Z.ltb_spec b 0); try lia.
  - by destruct (Z.ltb_spec a 0); [lia|].
Qed.

Lemma engine_key_place ids s i : engine_key (Some ids) s i = place ids s i.
Proof.
  unfold engine_key, place. rewrite token_rank_spec. destruct (first_index _ _) as [k|] eqn:Ek; cbn; [|done].
  apply first_index_nonneg in Ek. by destruct (Z.leb_spec 0 k); [|lia].
Qed.

Lemma dropped_chosen ids s : dropped ids s = false ↔ chosen ids s.
Proof.
  unfold dropped, chosen. rewrite token_rank_spec.
  assert (Hr : (default (-1) (first_index (λ tok, names tok s) (tokens ids)) <? 0) = false ↔
    ∃ tok, tok ∈ tokens ids ∧ names tok s = true).
  { destruct (first_index _ _) as [k|] eqn:Ek; cbn.
    - pose proof (first_index_nonneg _ _ _ Ek). split; [intros _|by intros _; apply Z.ltb_ge].
      unfold first_index in Ek. destruct (list_find _ _) as [[n tok]|] eqn:Ef; [|done].
      apply list_find_Some in Ef as (Hl & Hp & _). exists tok. split; [by eapply list_elem_of_lookup_2|].
      by destruct (names tok s).
    - split; [done|]. intros (tok & Ht & Hn). pose proof (proj1 (first_index_none _ _) Ek tok Ht) as Hf. cbn in Hf. by rewrite Hf in Hn. }
  destruct (c_engine_id (slot_caps s)) as [id|] eqn:Eid.
  - destruct (bool_decide_reflect (id = "objc"%string)) as [->|Hne]; cbn [negb andb]; [naive_solver|].
    rewrite Hr. naive_solver.
  - split; [done|]. intros [?|(tok & _ & Hn)]; [done|]. unfold names in Hn. by rewrite Eid in Hn.
Qed.

Lemma omap_lookups (engines : list slot) (l : list (Z * Z)) :
  (∀ x, x ∈ l → is_Some (engines !! Z.to_nat x.2)) →
  (λ i, engines !! Z.to_nat i) <$> (snd <$> l) = Some <$> omap (λ ki, engines !! Z.to_nat ki.2) l.
Proof.
  induction l as [|x l IH]; intros H; [done|]. cbn.
  destruct (H x ltac:(by left)) as [s Hs]. rewrite Hs. cbn. f_equal. apply IH. intros y Hy. apply H. by right.
Qed.

Lemma sorted_snd (R : Z * Z → Z * Z → Prop) (S : Z → Z → Prop) (l : list (Z * Z)) :
  (∀ x y, x ∈ l → y ∈ l → R x y → S x.2 y.2) → StronglySorted R l → StronglySorted S (snd <$> l).
Proof.
  intros HS. induction 1 as [|x l Hs IH Hx]; cbn; [constructor|]. constructor.
  - apply IH. intros a b Ha Hb. apply HS; by right.
  - rewrite Forall_forall in Hx. rewrite Forall_forall. intros j (y & -> & Hy)%list_elem_of_fmap. apply HS; [by left|by right|by apply Hx].
Qed.

(** The engines that are left, with the places they come from. *)
Definition kept_in_order (rt rt' : hk_runtime E) (ids : string) : Prop :=
  ∃ order : list Z,
    (λ i, rt_engines rt !! Z.to_nat i) <$> order = Some <$> rt_engines rt' ∧
    (∀ i, i ∈ order ↔ 0 <= i ∧ ∃ s, rt_engines rt !! Z.to_nat i = Some s ∧ chosen ids s) ∧
    StronglySorted (λ i j, ∃ s t, rt_engines rt !! Z.to_nat i = Some s ∧ rt_engines rt !! Z.to_nat j = Some t ∧
      (place ids s i < place ids t j ∨ (place ids s i = place ids t j ∧ i < j))) order ∧
    rt' = rt <| rt_engines := rt_engines rt' |>.

Lemma override_order (rt : hk_runtime E) ids :
  kept_in_order rt (hk_runtime_apply_backend_override rt (Some ids)) ids.
Proof.
  unfold kept_in_order, hk_runtime_apply_backend_override.
  destruct (Z.eqb_spec (Z.of_nat (length (rt_engines rt))) 0) as [E0|_].
  { exists []. destruct (rt_engines rt) as [|s l] eqn:Ee; [|done]. split_and!; [done| |constructor|by rewrite <- Ee; destruct rt].
    intros i. rewrite elem_of_nil. split; [done|]. by intros (_ & s & Hs & _). }
  unfold hk_runtime_retain_ordered_engines. set (keys := kept_keys _ _ _ _).
  destruct (kept_keys_spec (rt_engines rt) (dropped ids <$> rt_engines rt) (Some ids) 0) as [Hsort Hmem];
    [by rewrite length_fmap|]. fold keys in Hsort, Hmem.
  destruct (insertion_sort_spec keys Hsort) as [Hsorted Hperm].
  assert (Hkey : ∀ k i, (k, i) ∈ insertion_sort keys ↔
    0 <= i ∧ ∃ s, rt_engines rt !! Z.to_nat i = Some s ∧ chosen ids s ∧ k = place ids s i).
  { intros k i. rewrite Hperm, Hmem, Z.sub_0_r. split; intros [Hi (s & Hs & Hr)]; (split; [done|]); exists s.
    - destruct Hr as [Hd ->]. rewrite list_lookup_fmap, Hs in Hd. injection Hd as Hd%dropped_chosen.
      by rewrite engine_key_place.
    - destruct Hr as [Hc ->]. rewrite list_lookup_fmap, Hs, engine_key_place. cbn.
      by rewrite (proj2 (dropped_chosen ids s) Hc). }
  exists (snd <$> insertion_sort keys). cbn [rt_engines set_field]. split_and!.
  - apply omap_lookups. intros [k i] Hx. apply Hkey in Hx as (_ & s & Hs & _). by exists s.
  - intros i. rewrite list_elem_of_fmap. split.
    + intros ([k j] & -> & Hx). apply Hkey in Hx as (Hi & s & Hs & Hc & _). split; [done|]. by exists s.
    + intros (Hi & s & Hs & Hc). exists (place ids s i, i). split; [done|]. apply Hkey. split; [done|]. by exists s.
  - apply (sorted_snd precedes); [|done]. intros [k i] [k' j] Hx Hy Hp.
    apply Hkey in Hx as (_ & s & Hs & _ & ->). apply Hkey in Hy as (_ & t & Ht & _ & ->). by exists s, t.
  - by destruct rt.
Qed.
(** C24. An explicit list of backends leaves exactly the engines it names (by
    group or by identifier, the provider prefix and case apart) and the
    Objective-C engine, each once: sorted by the first token that names them,
    engines one token names in the order they had, the one no token names last.
    Nothing else of the runtime changes. *)
Theorem override_selects (rt : hk_runtime E) ids :
  let rt' := hk_runtime_apply_backend_override rt (Some ids) in
  ∃ order : list Z,
    (λ i, rt_engines rt !! Z.to_nat i) <$> order = Some <$> rt_engines rt' ∧
    (∀ i, i ∈ order ↔ 0 <= i ∧ ∃ s, rt_engines rt !! Z.to_nat i = Some s ∧ chosen ids s) ∧
    StronglySorted (λ i j, ∃ s t, rt_engines rt !! Z.to_nat i = Some s ∧ rt_engines rt !! Z.to_nat j = Some t ∧
      (place ids s i < place ids t j ∨ (place ids s i = place ids t j ∧ i < j))) order ∧
    rt' = rt <| rt_engines := rt_engines rt' |>.
Proof. exact (override_order rt ids). Qed.

Lemma override_members (rt : hk_runtime E) ids s :
  s ∈ rt_engines (hk_runtime_apply_backend_override rt (Some ids)) ↔ s ∈ rt_engines rt ∧ chosen ids s.
Proof.
  destruct (override_order rt ids) as (order & Hl & Hm & _ & _).
  assert (Hs : s ∈ rt_engines (hk_runtime_apply_backend_override rt (Some ids)) ↔
    ∃ i, i ∈ order ∧ rt_engines rt !! Z.to_nat i = Some s).
  { transitivity (Some s ∈ Some <$> rt_engines (hk_runtime_apply_backend_override rt (Some ids))).
    - rewrite list_elem_of_fmap. naive_solver.
    - rewrite <- Hl, list_elem_of_fmap. naive_solver. }
  rewrite Hs. setoid_rewrite Hm. split.
  - intros (i & (Hi & t & Ht & Hc) & Hl'). rewrite Ht in Hl'. injection Hl' as <-. split; [|done].
    by eapply list_elem_of_lookup_2.
  - intros [(n & Hn)%list_elem_of_lookup Hc]. exists (Z.of_nat n). rewrite Nat2Z.id. split; [|done].
    split; [lia|]. by exists s.
Qed.

(** ** Enumeration *)

Definition collect (group label : string) (acc : list (string * string)) : bool * list (string * string) :=
  (true, acc ++ [(group, label)]).

Lemma enumerate_collect (rt : hk_runtime E) e slots seen acc :
  ∃ l, enumerate_slots rt e slots seen collect acc = acc ++ l ∧ NoDup (fst <$> l) ∧
    ∀ g, g ∈ fst <$> l ↔ g ∉ seen ∧ ∃ s, s ∈ slots ∧ enumerable rt e s = true ∧ slot_group s = g.
Proof.
  revert seen acc. induction slots as [|s slots IH]; intros seen acc; cbn [enumerate_slots].
  { exists []. rewrite app_nil_r. split_and!; [done|constructor|]. intros g. cbn. rewrite elem_of_nil.
    split; [done|]. by intros (_ & s & Hs%elem_of_nil & _). }
  destruct (enumerable rt e s) eqn:Es; cbn [negb orb].
  - destruct (bool_decide_reflect (slot_group s ∈ seen)) as [Hin|Hnot].
    + destruct (IH seen acc) as (l & -> & Hd & Hm). exists l. split_and!; [done..|]. intros g. rewrite Hm.
      setoid_rewrite elem_of_cons. split; [naive_solver|]. intros (Hg & t & [->|Ht] & He & Hgr); [by subst|naive_solver].
    + cbn [collect]. destruct (IH (seen ++ [slot_group s]) (acc ++ [(slot_group s, slot_label s)])) as (l & -> & Hd & Hm).
      exists ((slot_group s, slot_label s) :: l). rewrite <- app_assoc. split; [done|]. rewrite fmap_cons. split.
      * apply NoDup_cons. split; [|done]. rewrite Hm. cbn. intros [H _]. apply H, elem_of_app. right. by left.
      * intros g. rewrite elem_of_cons, Hm, elem_of_app, list_elem_of_singleton. setoid_rewrite elem_of_cons. cbn.
        destruct (decide (g = slot_group s)) as [->|Hne]; [|naive_solver]. split; [|by left].
        intros _. split; [done|]. exists s. by split; [left|].
  - destruct (IH seen acc) as (l & -> & Hd & Hm). exists l. split_and!; [done..|]. intros g. rewrite Hm.
    setoid_rewrite elem_of_cons. split; [naive_solver|]. intros (Hg & t & [->|Ht] & He & Hgr); [by rewrite Es in He|naive_solver].
Qed.

(** A name a list of names can hold. *)
Fixpoint plain (s : string) : bool :=
  match s with String.EmptyString => true | String.String c rest => negb (is_separator c) && plain rest end.

Lemma tokens_plain g : plain g = true → g ≠ EmptyString → tokens g = [g].
Proof.
  intros Hp Hne. unfold tokens. assert (Hf : fields g = [g]).
  { clear Hne. induction g as [|c g IH]; [done|]. cbn in Hp |- *. apply andb_true_iff in Hp as [Hc Hg].
    apply negb_true_iff in Hc. by rewrite Hc, IH. }
  rewrite Hf. by rewrite filter_cons_True.
Qed.

Lemma ci_span_eq_refl s : hk_ci_span_eq s s = true.
Proof. induction s as [|c s IH]; [done|]. cbn. by rewrite Z.eqb_refl. Qed.

Lemma enumerable_names (rt : hk_runtime E) e s :
  enumerable rt e s = true → slot_group s ≠ EmptyString ∧ names (slot_group s) s = true.
Proof.
  unfold enumerable, slot_group, names. intros H.
  destruct (c_engine_id (slot_caps s)) as [[|c id]|] eqn:Eid; try done.
  assert (Hg : ∃ g, hk_engine_group_token (slot_caps s) = Some g ∧ g ≠ EmptyString).
  { unfold hk_engine_group_token. rewrite Eid. destruct (c_backend_group (slot_caps s)) as [[|]|]; by eexists. }
  destruct Hg as (g & -> & Hne). cbn. split; [done|]. unfold hk_backend_span_matches. by rewrite ci_span_eq_refl.
Qed.

(** Enumeration calls back once for each group that has an engine this
    platform supports and that can be discovered, and for no other; and every
    group it hands out (a name without separators) may be handed back as it is:
    choosing it keeps every engine of the group, and otherwise only engines that
    this name names and the Objective-C one. *)
Theorem backends_selectable (rt : hk_runtime E) e :
  let listed := fst <$> (hk_runtime_enumerate_backends (Some rt) e (Some collect) []).2 in
  NoDup listed ∧
  (∀ g, g ∈ listed ↔ ∃ s, s ∈ rt_engines rt ∧ enumerable rt e s = true ∧ slot_group s = g) ∧
  ∀ g, g ∈ listed → plain g = true →
    let kept := rt_engines (hk_runtime_apply_backend_override rt (Some g)) in
    (∃ s, s ∈ kept ∧ slot_group s = g) ∧
    (∀ s, s ∈ rt_engines rt → enumerable rt e s = true → slot_group s = g → s ∈ kept) ∧
    ∀ s, s ∈ kept → s ∈ rt_engines rt ∧
      (c_engine_id (slot_caps s) = Some "objc"%string ∨ names g s = true).
Proof.
  intros listed. destruct (enumerate_collect rt e (rt_engines rt) [] []) as (l & El & Hd & Hm).
  assert (Hl : listed = fst <$> l) by (unfold listed, hk_runtime_enumerate_backends; by rewrite El).
  rewrite Hl. clear listed Hl El.
  assert (Hm' : ∀ g, g ∈ fst <$> l ↔ ∃ s, s ∈ rt_engines rt ∧ enumerable rt e s = true ∧ slot_group s = g).
  { intros g. rewrite Hm. split; [by intros [_ ?]|]. intros H. split; [|done]. by intros ?%elem_of_nil. }
  split_and!; [done|done|]. intros g Hg Hp. apply Hm' in Hg as (s & Hs & He & Hgr).
  assert (Htok : tokens g = [g]).
  { apply tokens_plain; [done|]. rewrite <- Hgr. by eapply enumerable_names. }
  assert (Hkeep : ∀ s, s ∈ rt_engines rt → enumerable rt e s = true → slot_group s = g →
    s ∈ rt_engines (hk_runtime_apply_backend_override rt (Some g))).
  { intros t Ht Het Hgt. apply override_members. split; [done|]. right. exists g. rewrite Htok.
    split; [by left|]. rewrite <- Hgt. by eapply enumerable_names. }
  split_and!; [by exists s; split; [apply Hkeep|]|done|].
  intros t Ht. apply override_members in Ht as [Ht Hc]. split; [done|].
  destruct Hc as [|(tok & Hin & Hn)]; [by left|right]. rewrite Htok in Hin. by apply list_elem_of_singleton in Hin as ->.
Qed.
End Choice.

(** ** Creation *)

Section Creation.
Context {E : Type} (images : list dyld_image) (mem : memory).
Local Abbreviation runtime := (hk_runtime E).

Definition built_in_slot (vc : hk_engine_vtable E * Z) : engine_slot E := EngineSlot vc.1 vc.2 false.
Definition usable (engines : list (hk_engine_vtable E * Z)) : list (engine_slot E) :=
  built_in_slot <$> filter (λ vc, vtable_header_ok vc.1 = true) engines.

Lemma usable_cons vc engines :
  usable (vc :: engines) = (if vtable_header_ok vc.1 then [built_in_slot vc] else []) ++ usable engines.
Proof.
  unfold usable. destruct (vtable_header_ok vc.1) eqn:Ev.
  - by rewrite filter_cons_True.
  - by rewrite filter_cons_False by (by rewrite Ev).
Qed.

Lemma register_all_engines engines (rt : runtime) :
  Z.of_nat (length (rt_engines rt) + length engines) <= HK_RUNTIME_MAX_ENGINES →
  register_all engines rt = rt <| rt_engines := rt_engines rt ++ usable engines |>.
Proof.
  unfold register_all. revert rt. induction engines as [|vc engines IH]; intros rt Hn; cbn [foldl].
  { destruct rt; cbn. by rewrite app_nil_r. }
  unfold hk_runtime_register_engine_with_context at 2, hk_runtime_register_engine. unfold usable. cbn in Hn.
  destruct (vtable_header_ok vc.1) eqn:Ev; cbn [negb orb].
  - rewrite filter_cons_True by done. rewrite (proj2 (Z.leb_gt _ _)) by lia. cbn [snd]. rewrite IH.
    + destruct rt; cbn. rewrite <- app_assoc. done.
    + cbn. rewrite length_app. cbn. lia.
  - rewrite filter_cons_False by (by rewrite Ev). cbn [snd]. apply IH. lia.
Qed.

Lemma built_ins_few (b : platform_build (E := E)) : (length (built_ins b) <= 9)%nat.
Proof.
  unfold built_ins. rewrite !length_app. destruct (pb_native b), (pb_dobby b), (pb_gum b), (pb_ellekit b), (pb_substitute b); cbn; lia.
Qed.

(** The runtime before a choice of backends. *)
Definition fresh_runtime (b : platform_build (E := E)) (config : option (Z * hk_install_context)) (owner : hk_id)
    (artifacts : option hk_artifact_ledger) (rt : runtime) : Prop :=
  rt_owner_id rt = owner ∧
  rt_install_context rt = (match config with Some (_, c) => c | None => HK_INSTALL_CONTEXT_EARLY_PROCESS end) ∧
  rt_platform_architecture rt = pb_architecture b ∧ rt_platform_ios_version rt = pb_ios_version b ∧
  rt_engines rt = usable (pb_objc b :: built_ins b) ∧ rt_pending rt = [] ∧ rt_artifacts rt = artifacts ∧
  ∃ c, rt_catalog rt = Some c ∧ ic_entries c `prefix_of` omap (listed_entry mem) images.

Lemma alloc_heap_ok h : let '(ok, h') := alloc h in heap_ok h → heap_ok h' ∧ ok = true.
Proof. unfold alloc. intros H. split; [exact H|]. by rewrite H. Qed.

Lemma register_platform_spec (b : platform_build (E := E)) (rt : runtime) c h :
  Forall (image_mapped mem) images → rt_engines rt = [] → rt_catalog rt = Some c → ic_entries c = [] →
  returns (hk_runtime_register_platform_engines images mem b rt) h (λ rt' _, ∃ c',
    rt' = rt <| rt_engines := usable (pb_objc b :: built_ins b) |> <| rt_catalog := Some c' |> ∧
    ic_entries c' `prefix_of` omap (listed_entry mem) images ∧
    (heap_ok h → ic_entries c' = omap (listed_entry mem) images)).
Proof.
  intros Hm He Hc Hn. unfold hk_runtime_register_platform_engines. cbv zeta.
  rewrite register_all_engines by (rewrite He; done). cbn [rt_catalog set_field]. rewrite Hc.
  eapply returns_bind.
  { cbn [hk_image_catalog_populate_from_dyld]. eapply returns_bind; [by apply populate_loop_spec|].
    intros [ok c'] h' (ok' & _ & l & Hl & Hp & _ & Hh). apply returns_ret. cbn [fst snd] in *.
    rewrite Hn, app_nil_l in Hl. subst l.
    exact (ex_intro _ c' (conj eq_refl (conj Hp (λ H, proj1 (Hh H)))) :
      (λ (r : bool * option hk_image_catalog) (_ : heap), ∃ c', r.2 = Some c' ∧
         ic_entries c' `prefix_of` omap (listed_entry mem) images ∧
         (heap_ok h → ic_entries c' = omap (listed_entry mem) images)) (ok, Some c') h'). }
  intros r h' (c' & -> & Hp & Hh). apply returns_ret. exists c'. split; [|done].
  rewrite register_all_engines.
  - destruct rt; cbn in He |- *. subst. by destruct (decide _).
  - pose proof (built_ins_few b). pose proof (usable_cons (pb_objc b) []) as Hu. cbn in Hu |- *.
    rewrite He, app_nil_l, Hu, app_nil_r. unfold HK_RUNTIME_MAX_ENGINES. destruct (vtable_header_ok _); cbn; lia.
Qed.

(** C25. Creating a runtime comes back whatever dyld lists.  It refuses as an
    invalid argument exactly a missing result cell or a configuration that is too
    small, and is out of memory only when an allocation failed.  Otherwise the
    runtime has the next identifier, the caller's install context, every
    built-in engine of the build with a header it understands, in order and none
    squeezed out, an empty ledger, and the images dyld lists, in dyld's order
    (all of them, when memory suffices), with the backends chosen from it. *)
Theorem runtime_created (b : platform_build (E := E)) config override out (s : sys E) :
  Forall (image_mapped mem) images →
  returns (hk_runtime_create_impl images mem b config override out) s (λ r s',
    let bad := out = false ∨ ∃ size c, config = Some (size, c) ∧ size < SIZEOF_RUNTIME_CONFIG in
    match r with
    | (HK_STATUS_OK, Some rt) => ¬ bad ∧
        ∃ rt0 artifacts, fresh_runtime b config (hk_id_generate (s_ids s)).1 artifacts rt0 ∧
          lg_items <$> artifacts = Some [] ∧ rt = hk_runtime_apply_backend_override rt0 override ∧
          (heap_ok (s_heap s) → ic_entries <$> rt_catalog rt0 = Some (omap (listed_entry mem) images))
    | (HK_STATUS_INVALID_ARGUMENT, None) => bad ∧ s' = s
    | (HK_STATUS_OUT_OF_MEMORY, None) => ¬ bad ∧ ¬ heap_ok (s_heap s)
    | _ => False
    end).
Proof.
  intros Hm. unfold hk_runtime_create_impl.
  destruct out; cbn [negb]; [|apply returns_ret; by split; [left|]].
  destruct (match config with Some (size, _) => size <? SIZEOF_RUNTIME_CONFIG | None => false end) eqn:Ec.
  { apply returns_ret. destruct config as [[size c]|]; [|done]. apply Z.ltb_lt in Ec. split; [|done]. right. by exists size, c. }
  assert (Hgood : ¬ (true = false ∨ ∃ size c, config = Some (size, c) ∧ size < SIZEOF_RUNTIME_CONFIG)).
  { intros [?|(size & c & -> & Hlt)]; [done|]. apply Z.ltb_ge in Ec. lia. }
  eapply returns_bind with (R := λ ok s1, s_ids s1 = s_ids s ∧ (heap_ok (s_heap s) → heap_ok (s_heap s1) ∧ ok = true)).
  { apply returns_lift. unfold on_heap, zoom. pose proof (alloc_heap_ok (s_heap s)) as Ha. by destruct (alloc (s_heap s)). }
  intros [|] s1 [Hids Hh1]; cbn [negb]; [|apply returns_ret; split; [done|]; by intros [_ ?]%Hh1].
  eapply returns_bind with (R := λ id s2, id = (hk_id_generate (s_ids s)).1 ∧ s_heap s2 = s_heap s1).
  { apply returns_lift. unfold on_ids, zoom. rewrite Hids. by destruct (hk_id_generate (s_ids s)). }
  intros owner s2 [-> Hs2]. rewrite <- Hs2 in Hh1.
  eapply returns_bind with (R := λ l s3, (heap_ok (s_heap s2) → heap_ok (s_heap s3) ∧ is_Some l) ∧
    (is_Some l → lg_items <$> l = Some [])).
  { apply returns_lift. unfold on_heap, zoom, hk_artifact_ledger_create, bind.
    pose proof (alloc_heap_ok (s_heap s2)) as Ha. destruct (alloc (s_heap s2)) as [[|] h]; cbn.
    - split; [|done]. intros H. split; [by apply Ha|]. by eexists.
    - split; [|by intros []]. by intros [_ ?]%Ha. }
  intros artifacts s3 [Hh3 Hart]. destruct artifacts as [ledger|]; cbn.
  2: { apply returns_ret. split; [done|]. intros H. apply Hh1 in H as [H _]. apply Hh3 in H as [_ []]. done. }
  eapply returns_bind with (R := λ c s4, (heap_ok (s_heap s3) → heap_ok (s_heap s4) ∧ is_Some c) ∧
    (is_Some c → ic_entries <$> c = Some [])).
  { apply returns_lift. unfold on_heap, zoom, hk_image_catalog_create, bind.
    pose proof (alloc_heap_ok (s_heap s3)) as Ha. destruct (alloc (s_heap s3)) as [[|] h]; cbn.
    - split; [|done]. intros H. split; [by apply Ha|]. by eexists.
    - split; [|by intros []]. by intros [_ ?]%Ha. }
  intros catalog s4 [Hh4 Hcat]. destruct catalog as [c|].
  2: { apply returns_ret. split; [done|]. intros H. apply Hh1 in H as [H _]. apply Hh3 in H as [H _].
       apply Hh4 in H as [_ []]. done. }
  specialize (Hcat ltac:(by eexists)). injection Hcat as Hcat. specialize (Hart ltac:(by eexists)).
  set (rt := Runtime _ _ _ _ _ _ _ _ _).
  eapply returns_bind with (R := λ rt' _, ∃ c',
    rt' = rt <| rt_engines := usable (pb_objc b :: built_ins b) |> <| rt_catalog := Some c' |> ∧
    ic_entries c' `prefix_of` omap (listed_entry mem) images ∧
    (heap_ok (s_heap s4) → ic_entries c' = omap (listed_entry mem) images)).
  { pose proof (register_platform_spec b rt c (s_heap s4) Hm eq_refl eq_refl Hcat) as Hr.
    unfold returns, faulty_heap in *. by destruct (hk_runtime_register_platform_engines _ _ _ _ _) as [[a h]|]. }
  intros rt' s5 (c' & -> & Hp & Hall). apply returns_ret. split; [done|].
  eexists _, (Some ledger). split; [|split; [done|split; [done|]]].
  - split_and!; try done. by exists c'.
  - intros H. cbn. f_equal. apply Hall. apply Hh1 in H as [H _]. apply Hh3 in H as [H _]. by apply Hh4 in H as [H _].
Qed.
End Creation.

(** A build with every engine, in the process of the demonstration image. *)
Definition demo_build : platform_build (E := unit) :=
  let vc := (Demo.engine, 1) in
  PlatformBuild 1 150000 true vc vc vc (Some vc) (Some vc) (Some vc) vc vc vc (Some vc).
Definition demo_images : list dyld_image := [DyldImage DemoImage.base (Some "libok.dylib"%string) 0x4000].

Lemma demo_fits : 0 + 304 <= DemoImage.size.
Proof. by vm_compute. Qed.

Lemma demo_images_mapped : Forall (image_mapped DemoImage.memory) demo_images.
Proof.
  pose proof demo_fits as Hs. repeat constructor; cbn [di_header].
  - apply (readable_sub DemoImage.base DemoImage.size 0 32 DemoImage.readable); lia.
  - intros h Hh. assert (Hc : mh_sizeofcmds h = 272).
    { assert (E : match hk_macho_peek_header DemoImage.memory DemoImage.base HK_MACHO_HEADER_64_SIZE with
                  | Some (inr h) => mh_sizeofcmds h | _ => 0 end = 272) by (vm_compute; reflexivity).
      by rewrite Hh in E. }
    rewrite Hc. apply (readable_sub DemoImage.base DemoImage.size 0 304 DemoImage.readable); lia.
Qed.

Lemma runtime_created_witness : ∃ status rt s',
  hk_runtime_create_impl demo_images DemoImage.memory demo_build (Some (48, HK_INSTALL_CONTEXT_EARLY_PROCESS))
    (Some "hookkit.demo"%string) true (Demo.process HK_PLAN_DRAFT HK_OUTCOME_UNANALYZED) = Some (status, rt, s').
Proof.
  pose proof (runtime_created demo_images DemoImage.memory demo_build (Some (48, HK_INSTALL_CONTEXT_EARLY_PROCESS))
    (Some "hookkit.demo"%string) true (Demo.process HK_PLAN_DRAFT HK_OUTCOME_UNANALYZED) demo_images_mapped) as H.
  apply returns_some in H as ([status rt] & s' & E & _). by exists status, rt, s'.
Defined.
