(* ===== verification/StaticPool.v ===== *)
(** * The fixed trampoline pool (src/engines/HKStaticPool.c)

    A bitmap over at most 64 equal slots of a region that was executable before
    the process ran a hook. *)

From stdpp Require Import base list strings gmap numbers option.
From S2P Require Import Prelude Types Artifacts Engine.

Definition HK_STATIC_POOL_MAX_SLOTS : Z := 64.

Record hk_static_pool : Type := StaticPool {
  sp_base : Z;
  sp_slot_size : Z;
  sp_slot_count : Z;
  sp_used : Z }.

#[export] Instance hk_static_pool_eta : Eta hk_static_pool := λ p,
  StaticPool (sp_base p) (sp_slot_size p) (sp_slot_count p) (sp_used p).

(** [None] is a [false] return; the pool is then as it was. *)
Definition hk_static_pool_init (pool_present : bool) (base slot_size slot_count : Z)
    : option hk_static_pool :=
  if negb pool_present || (base =? 0) || (slot_size =? 0) || (slot_count =? 0) ||
     (HK_STATIC_POOL_MAX_SLOTS <? slot_count) then None
  else if SIZE_MAX / slot_count <? slot_size then None
  else Some (StaticPool base slot_size slot_count 0).

(** [pool->used & (1ull << i)] *)
Definition slot_used (used i : Z) : bool := negb (Z.land used (Z.shiftl 1 i) =? 0).

Definition slot_address (p : hk_static_pool) (i : Z) : Z :=
  u64 (sp_base p + i * sp_slot_size p).

Definition slot_distance (p : hk_static_pool) (near i : Z) : Z :=
  let addr := slot_address p i in
  if near <? addr then addr - near else near - addr.

(** The scan from slot [i] with [n] slots to go; [sp_slot_count] as [best] is
    "none yet". *)
Fixpoint claim_scan (p : hk_static_pool) (near : Z) (n : nat) (i best best_distance : Z) : Z :=
  match n with
  | O => best
  | S n =>
      if slot_used (sp_used p) i then claim_scan p near n (i + 1) best best_distance
      else
        let distance := slot_distance p near i in
        if (best =? sp_slot_count p) || (distance <? best_distance)
        then claim_scan p near n (i + 1) i distance
        else claim_scan p near n (i + 1) best best_distance
  end.

Definition hk_static_pool_claim (pool : option hk_static_pool) (size near : Z)
    : Z * option hk_static_pool :=
  match pool with
  | None => (0, None)
  | Some p =>
      if (size =? 0) || (sp_slot_size p <? size) then (0, pool)
      else
        let best := claim_scan p near (Z.to_nat (sp_slot_count p)) 0 (sp_slot_count p) 0 in
        if best =? sp_slot_count p then (0, pool)
        else (slot_address p best,
              Some (p <| sp_used := Z.lor (sp_used p) (Z.shiftl 1 best) |>))
  end.

Definition hk_static_pool_release (pool : option hk_static_pool) (slot : Z)
    : option hk_static_pool :=
  match pool with
  | None => None
  | Some p =>
      if slot <? sp_base p then pool
      else
        let offset := slot - sp_base p in
        if negb (offset mod sp_slot_size p =? 0) then pool
        else
          let index := offset / sp_slot_size p in
          if sp_slot_count p <=? index then pool
          else Some (p <| sp_used := without (sp_used p) (Z.shiftl 1 index) |>)
  end.

Fixpoint count_free (used : Z) (n : nat) (i : Z) : Z :=
  match n with
  | O => 0
  | S n => (if slot_used used i then 0 else 1) + count_free used n (i + 1)
  end.

Definition hk_static_pool_free_count (pool : option hk_static_pool) : Z :=
  match pool with
  | None => 0
  | Some p => count_free (sp_used p) (Z.to_nat (sp_slot_count p)) 0
  end.

Definition hk_static_pool_contains (pool : option hk_static_pool) (addr : Z) : bool :=
  match pool with
  | None => false
  | Some p =>
      if sp_base p =? 0 then false
      else (sp_base p <=? addr) && (addr <? u64 (sp_base p + u64 (sp_slot_size p * sp_slot_count p)))
  end.

(** ** What the pool promises *)

(** The slots do not wrap the address space and the bitmap names slots only.
    [hk_static_pool_init] checks that the size of the region does not overflow,
    not where it starts. *)
Record pool_wf (p : hk_static_pool) : Prop := {
  pw_base : 0 < sp_base p;
  pw_size : 0 < sp_slot_size p;
  pw_count : 0 < sp_slot_count p <= HK_STATIC_POOL_MAX_SLOTS;
  pw_region : sp_base p + sp_slot_count p * sp_slot_size p < 2 ^ 64;
  pw_used : ∀ i, sp_slot_count p <= i → Z.testbit (sp_used p) i = false;
  pw_word : is_u64 (sp_used p) }.

Definition slot_free (p : hk_static_pool) (i : Z) : Prop :=
  0 <= i < sp_slot_count p ∧ Z.testbit (sp_used p) i = false.

(** Slot [k] is the nearest free one of the first [n], the earliest of those. *)
Definition nearest (p : hk_static_pool) (near n k : Z) : Prop :=
  slot_free p k ∧ k < n ∧
  ∀ j, slot_free p j → j < n →
    slot_distance p near k <= slot_distance p near j ∧
    (j < k → slot_distance p near k < slot_distance p near j).

Lemma slot_used_spec used i : 0 <= i → slot_used used i = Z.testbit used i.
Proof. intros H. unfold slot_used. rewrite land_single_bit by done. apply negb_involutive. Qed.

Lemma slot_address_small p i : pool_wf p → 0 <= i < sp_slot_count p →
  slot_address p i = sp_base p + i * sp_slot_size p ∧
  sp_base p + i * sp_slot_size p + sp_slot_size p <= sp_base p + sp_slot_count p * sp_slot_size p.
Proof.
  intros [Hb Hs Hc Hr _ _] Hi. unfold slot_address. split; [|nia].
  apply u64_small. unfold is_u64. nia.
Qed.

Lemma claim_scan_spec p near n i best distance :
  0 <= i → i + Z.of_nat n = sp_slot_count p →
  (best = sp_slot_count p ∧ ∀ j, slot_free p j → i <= j) ∨
  (nearest p near i best ∧ distance = slot_distance p near best) →
  let k := claim_scan p near n i best distance in
  (k = sp_slot_count p ∧ ∀ j, ¬ slot_free p j) ∨ nearest p near (sp_slot_count p) k.
Proof.
  revert i best distance. induction n as [|n IH]; intros i best distance Hi Hn Hbest;
    cbn [claim_scan].
  { replace i with (sp_slot_count p) in Hbest by lia.
    destruct Hbest as [[-> H]|[H _]]; [left|by right].
    split; [done|]. intros j Hj. pose proof (H j Hj). destruct Hj as [? _]. lia. }
  rewrite slot_used_spec by done.
  assert (Hnext : ∀ j, slot_free p j → j < i + 1 → j < i ∨ j = i) by lia.
  destruct (Z.testbit (sp_used p) i) eqn:Eu.
  - assert (Hni : ¬ slot_free p i) by (intros [_ ?]; congruence).
    apply IH; [lia|lia|]. destruct Hbest as [[-> H]|[(Hf & Hlt & H) ->]]; [left|right].
    + split; [done|]. intros j Hj. pose proof (H j Hj).
      destruct (decide (j = i)) as [->|]; [done|lia].
    + split; [|done]. split_and!; [done|lia|]. intros j Hj Hji.
      destruct (Hnext j Hj Hji) as [| ->]; [by apply H|done].
  - assert (Hfi : slot_free p i) by (split; [lia|done]).
    destruct (_ || _) eqn:Eb.
    + apply IH; [lia|lia|]. right. split; [|done]. split_and!; [done|lia|].
      intros j Hj Hji. destruct (Hnext j Hj Hji) as [Hlt| ->]; [|lia].
      destruct Hbest as [[-> H]|[(Hf & Hlt' & H) ->]]; [pose proof (H j Hj); lia|].
      apply orb_true_iff in Eb as [Eb|Eb]; [apply Z.eqb_eq in Eb; lia|].
      apply Z.ltb_lt in Eb. destruct (H j Hj Hlt). lia.
    + apply orb_false_iff in Eb as [Eb Ed]. apply Z.eqb_neq in Eb. apply Z.ltb_ge in Ed.
      destruct Hbest as [[-> _]|[(Hf & Hlt & H) ->]]; [done|].
      apply IH; [lia|lia|]. right. split; [|done]. split_and!; [done|lia|].
      intros j Hj Hji. destruct (Hnext j Hj Hji) as [| ->]; [by apply H|]. split; lia.
Qed.

Lemma count_free_ext used used' n i :
  (∀ j, i <= j < i + Z.of_nat n → slot_used used j = slot_used used' j) →
  count_free used n i = count_free used' n i.
Proof.
  revert i. induction n as [|n IH]; intros i H; cbn [count_free]; [done|].
  rewrite H by lia. f_equal. apply IH. intros j Hj. apply H. lia.
Qed.

Lemma count_free_claim used used' n i k :
  i <= k < i + Z.of_nat n → slot_used used k = false → slot_used used' k = true →
  (∀ j, j ≠ k → 0 <= j → slot_used used j = slot_used used' j) → 0 <= i →
  count_free used n i = count_free used' n i + 1.
Proof.
  revert i. induction n as [|n IH]; intros i Hk H0 H1 H Hi; cbn [count_free]; [lia|].
  destruct (decide (i = k)) as [->|Hne].
  - rewrite H0, H1. rewrite (count_free_ext used used'); [lia|].
    intros j Hj. apply H; lia.
  - rewrite (H i) by lia. rewrite (IH (i + 1)) by (done || lia). lia.
Qed.

Lemma testbit_claimed used k j : 0 <= k → 0 <= j →
  Z.testbit (Z.lor used (Z.shiftl 1 k)) j = Z.testbit used j || (j =? k).
Proof.
  intros Hk Hj. rewrite Z.lor_spec, Z.shiftl_spec, testbit_one by done.
  f_equal. destruct (Z.eqb_spec (j - k) 0), (Z.eqb_spec j k); lia || done.
Qed.

Lemma testbit_without used k j : 0 <= k → 0 <= j < 64 →
  Z.testbit (without used (Z.shiftl 1 k)) j = Z.testbit used j && negb (j =? k).
Proof.
  intros Hk Hj. unfold without. rewrite Z.land_spec, Z.lxor_spec, Z.shiftl_spec, testbit_one by lia.
  replace (2 ^ 64 - 1) with (Z.ones 64) by done. rewrite Z.ones_spec_low by lia.
  destruct (Z.eqb_spec (j - k) 0), (Z.eqb_spec j k); try lia; done.
Qed.

Lemma testbit_word x j : is_u64 x → 64 <= j → Z.testbit x j = false.
Proof.
  intros Hx Hj. rewrite <- (Z.mod_small x (2 ^ 64)) by done. by rewrite Z.mod_pow2_bits_high by lia.
Qed.

Lemma word_ext x y : is_u64 x → (∀ j, 64 <= j → Z.testbit y j = false) →
  (∀ j, 0 <= j < 64 → Z.testbit x j = Z.testbit y j) → x = y.
Proof.
  intros Hx Hy H. apply Z.bits_inj'. intros j Hj. destruct (Z.ltb_spec j 64) as [Hlt|Hge].
  - apply H. lia.
  - by rewrite testbit_word, Hy.
Qed.

Lemma claimed_word used k : is_u64 used → 0 <= k < 64 → is_u64 (Z.lor used (Z.shiftl 1 k)).
Proof.
  intros Hu Hk. unfold is_u64.
  assert (0 <= Z.lor used (Z.shiftl 1 k)).
  { apply Z.lor_nonneg. split; [apply Hu|]. apply Z.shiftl_nonneg. lia. }
  split; [done|]. apply Z.log2_lt_cancel. destruct (decide (Z.lor used (Z.shiftl 1 k) = 0)) as [->|].
  { by vm_compute. }
  rewrite Z.log2_pow2 by lia. apply Z.log2_lt_pow2; [lia|].
  destruct (Z.lt_ge_cases (Z.lor used (Z.shiftl 1 k)) (2 ^ 64)) as [|Hge]; [done|exfalso].
  pose proof (Z.bit_log2 (Z.lor used (Z.shiftl 1 k)) ltac:(lia)) as Hb.
  assert (64 <= Z.log2 (Z.lor used (Z.shiftl 1 k))).
  { rewrite <- (Z.log2_pow2 64) by lia. by apply Z.log2_le_mono. }
  rewrite testbit_claimed, testbit_word in Hb by (lia || done).
  apply Z.eqb_eq in Hb. lia.
Qed.

Lemma claimed_wf p k : pool_wf p → slot_free p k →
  pool_wf (p <| sp_used := Z.lor (sp_used p) (Z.shiftl 1 k) |>).
Proof.
  intros [Hb Hs Hc Hr Hu Hw] [Hk _]. unfold set_field, HK_STATIC_POOL_MAX_SLOTS in *.
  split; simpl; try done.
  - intros i Hi. rewrite testbit_claimed, Hu by lia. simpl in *. lia.
  - apply claimed_word; [done|lia].
Qed.


(** Handing back a slot clears its bit. *)
Lemma release_slot p k : pool_wf p → 0 <= k < sp_slot_count p →
  hk_static_pool_release (Some p) (slot_address p k) =
    Some (p <| sp_used := without (sp_used p) (Z.shiftl 1 k) |>).
Proof.
  intros Hwf Hk. pose proof (slot_address_small p k Hwf Hk) as [Ha _].
  destruct Hwf as [Hb Hs Hc Hr Hused Hw]. unfold hk_static_pool_release.
  rewrite Ha. replace (sp_base p + k * sp_slot_size p - sp_base p) with (k * sp_slot_size p) by lia.
  rewrite (proj2 (Z.ltb_ge _ _)) by nia. rewrite Z.mod_mul, Z.div_mul by lia. simpl.
  by rewrite (proj2 (Z.leb_gt _ _)) by lia.
Qed.

Lemma released_wf p k : pool_wf p → 0 <= k < sp_slot_count p →
  pool_wf (p <| sp_used := without (sp_used p) (Z.shiftl 1 k) |>).
Proof.
  intros [Hb Hs Hc Hr Hu Hw] Hk. unfold set_field, HK_STATIC_POOL_MAX_SLOTS in *.
  assert (Hbits : ∀ i, Z.testbit (sp_used p) i = false →
    Z.testbit (without (sp_used p) (Z.shiftl 1 k)) i = false).
  { intros i Hi. unfold without. by rewrite Z.land_spec, Hi. }
  split; simpl; try done; [by auto|].
  unfold is_u64, without. rewrite Z.land_comm. destruct Hw as [H0 H1]. split.
  - apply Z.land_nonneg. by right.
  - destruct (decide (Z.land (Z.lxor (2 ^ 64 - 1) (Z.shiftl 1 k)) (sp_used p) = 0)) as [->|Hne]; [done|].
    assert (Hn : 0 <= Z.land (Z.lxor (2 ^ 64 - 1) (Z.shiftl 1 k)) (sp_used p)) by (apply Z.land_nonneg; by right).
    apply Z.log2_lt_cancel. rewrite Z.log2_pow2 by lia.
    destruct (Z.lt_ge_cases (Z.log2 (Z.land (Z.lxor (2 ^ 64 - 1) (Z.shiftl 1 k)) (sp_used p))) 64); [done|].
    pose proof (Z.bit_log2 (Z.land (Z.lxor (2 ^ 64 - 1) (Z.shiftl 1 k)) (sp_used p)) ltac:(lia)) as Hbit.
    rewrite Z.land_comm in Hbit at 1. unfold without in Hbits.
    rewrite Hbits in Hbit; [done|]. by apply testbit_word.
Qed.

(** Claiming and handing a slot back. *)
Lemma release_claimed p k : pool_wf p → slot_free p k →
  hk_static_pool_release (Some (p <| sp_used := Z.lor (sp_used p) (Z.shiftl 1 k) |>))
    (slot_address p k) = Some p.
Proof.
  intros Hwf Hf. pose proof (claimed_wf p k Hwf Hf) as Hwf'. destruct Hf as [Hk Hu].
  etransitivity; [exact (release_slot _ k Hwf' Hk)|].
  pose proof (pw_word p Hwf) as Hw. pose proof (pw_count p Hwf) as Hc.
  unfold HK_STATIC_POOL_MAX_SLOTS in Hc. unfold set_field. simpl.
  f_equal. destruct p as [b sz c u]. simpl in *. f_equal. symmetry. apply word_ext; [done| |].
  - intros j Hj. unfold without. rewrite Z.land_spec, testbit_claimed by lia.
    rewrite testbit_word by done. destruct (Z.eqb_spec j k); [lia|done].
  - intros j Hj. rewrite testbit_without, testbit_claimed by lia.
    destruct (Z.eqb_spec j k) as [->|]; [by rewrite Hu|]. by rewrite orb_false_r, andb_true_r.
Qed.

Lemma claimed_free p k : pool_wf p → slot_free p k → ∀ i,
  slot_free (p <| sp_used := Z.lor (sp_used p) (Z.shiftl 1 k) |>) i ↔ slot_free p i ∧ i ≠ k.
Proof.
  intros Hwf [Hk Hu] i. unfold slot_free, set_field. simpl. split.
  - intros [Hi H]. rewrite testbit_claimed in H by lia. apply orb_false_iff in H as [? ?%Z.eqb_neq]. done.
  - intros [[Hi H] Hne]. split; [done|]. rewrite testbit_claimed, H by lia. simpl. lia.
Qed.

(** What a claim does, whatever its size. *)
Lemma claim_cases p size near : pool_wf p →
  (hk_static_pool_claim (Some p) size near = (0, Some p) ∧
   (0 < size <= sp_slot_size p → ∀ i, ¬ slot_free p i)) ∨
  ∃ k, nearest p near (sp_slot_count p) k ∧
    hk_static_pool_claim (Some p) size near =
      (slot_address p k, Some (p <| sp_used := Z.lor (sp_used p) (Z.shiftl 1 k) |>)).
Proof.
  intros Hwf. unfold hk_static_pool_claim.
  destruct (Z.eqb_spec size 0); [left; split; [done|lia]|].
  destruct (Z.ltb_spec (sp_slot_size p) size); [left; split; [done|lia]|]. simpl.
  pose proof (pw_count p Hwf) as Hc.
  pose proof (claim_scan_spec p near (Z.to_nat (sp_slot_count p)) 0 (sp_slot_count p) 0
                ltac:(lia) ltac:(lia)) as Hscan.
  set (k := claim_scan _ _ _ _ _ _) in *. cbv zeta in Hscan.
  destruct Hscan as [[-> Hnone]|Hnear].
  { left. split; [done|]. intros j [? _]. lia. }
  { rewrite Z.eqb_refl. by left. }
  pose proof Hnear as ((Hk & Hu) & _ & _). destruct (Z.eqb_spec k (sp_slot_count p)); [lia|].
  right. by exists k.
Qed.

Lemma slot_address_nonzero p k : pool_wf p → slot_free p k → slot_address p k ≠ 0.
Proof.
  intros Hwf [Hk _]. destruct (slot_address_small p k Hwf Hk) as [-> _]. destruct Hwf. nia.
Qed.

Lemma contains_slot p k x : pool_wf p → 0 <= k < sp_slot_count p →
  slot_address p k <= x < slot_address p k + sp_slot_size p →
  hk_static_pool_contains (Some p) x = true.
Proof.
  intros Hwf Hk. destruct (slot_address_small p k Hwf Hk) as [-> Hend]. intros Hx.
  unfold hk_static_pool_contains. destruct Hwf.
  destruct (Z.eqb_spec (sp_base p) 0); [lia|].
  rewrite (u64_small (sp_slot_size p * _)), u64_small by (unfold is_u64; nia).
  apply andb_true_iff. rewrite Z.leb_le, Z.ltb_lt. nia.
Qed.

(** A claim takes the free slot nearest to the hint, the earliest of equally
    near ones, and marks it and no other; it refuses only an unusable size or
    an exhausted pool, and then changes nothing.  The slot lies in the region,
    a whole slot away from every other slot in use; the pool stays
    well-formed with one free slot less, and giving the slot back restores it
    exactly. *)
Theorem static_pool_claim_spec p size near a pool' :
  pool_wf p → 0 < size <= sp_slot_size p →
  hk_static_pool_claim (Some p) size near = (a, pool') →
  (a = 0 ∧ pool' = Some p ∧ ∀ i, ¬ slot_free p i) ∨
  ∃ k p', a = slot_address p k ∧ a ≠ 0 ∧ pool' = Some p' ∧ pool_wf p' ∧
    nearest p near (sp_slot_count p) k ∧
    (∀ i, slot_free p' i ↔ slot_free p i ∧ i ≠ k) ∧
    (∀ i, 0 <= i < sp_slot_count p → i ≠ k → sp_slot_size p <= Z.abs (slot_address p i - a)) ∧
    (∀ x, a <= x < a + sp_slot_size p →
       hk_static_pool_contains (Some p) x = true) ∧
    hk_static_pool_free_count (Some p) = hk_static_pool_free_count pool' + 1 ∧
    hk_static_pool_release pool' a = Some p.
Proof.
  intros Hwf Hsize. destruct (claim_cases p size near Hwf) as [[-> Hnone]|(k & Hnear & ->)].
  { intros [= <- <-]. left. split_and!; [done|done|by apply Hnone]. }
  pose proof Hnear as ((Hk & Hu) & _ & _).
  intros [= <- <-]. right. exists k, (p <| sp_used := Z.lor (sp_used p) (Z.shiftl 1 k) |>).
  pose proof (slot_address_small p k Hwf Hk) as [Ha Hend].
  split; [done|]. split; [by apply slot_address_nonzero|]. split; [done|].
  split; [by apply claimed_wf|]. split; [done|]. split; [by apply claimed_free|].
  split; [|split; [|split; [|by apply release_claimed]]].
  - intros i Hi Hne. destruct (slot_address_small p i Hwf Hi) as [-> _]. rewrite Ha.
    destruct (pw_size p Hwf). nia.
  - intros x. by apply contains_slot.
  - unfold hk_static_pool_free_count, set_field. simpl. apply (count_free_claim _ _ _ _ k); [lia| | | |lia].
    + rewrite slot_used_spec by lia. done.
    + rewrite slot_used_spec, testbit_claimed by lia. rewrite Z.eqb_refl. apply orb_true_r.
    + intros j Hne Hj. rewrite !slot_used_spec, testbit_claimed by lia.
      destruct (Z.eqb_spec j k); [done|]. by rewrite orb_false_r.
Qed.

(** A released slot is free again, and no other changes; what is not a slot of
    the pool is ignored. *)
Lemma release_spec p slot : pool_wf p →
  ∃ p', hk_static_pool_release (Some p) slot = Some p' ∧
    ∀ i, slot_free p' i ↔ slot_free p i ∨ 0 <= i < sp_slot_count p ∧ slot = slot_address p i.
Proof.
  intros Hwf. pose proof (pw_size p Hwf) as Hs. pose proof (pw_count p Hwf) as Hc.
  unfold HK_STATIC_POOL_MAX_SLOTS in Hc.
  assert (Hno : (∀ i, 0 <= i < sp_slot_count p → slot ≠ slot_address p i) →
    ∀ i, slot_free p i ↔ slot_free p i ∨ 0 <= i < sp_slot_count p ∧ slot = slot_address p i).
  { intros H i. split; [by left|]. intros [?|[Hi ?]]; [done|]. by destruct (H i). }
  unfold hk_static_pool_release. destruct (Z.ltb_spec slot (sp_base p)).
  { exists p. split; [done|]. apply Hno. intros i Hi ->.
    destruct (slot_address_small p i Hwf Hi). nia. }
  set (off := slot - sp_base p).
  pose proof (Z.div_mod off (sp_slot_size p) ltac:(lia)) as Hdiv.
  destruct (Z.eqb_spec (off mod sp_slot_size p) 0) as [Hm|Hm]; simpl.
  2: { exists p. split; [done|]. apply Hno. intros i Hi ->. destruct (slot_address_small p i Hwf Hi) as [Ha _].
       apply Hm. unfold off. rewrite Ha.
       replace (sp_base p + i * sp_slot_size p - sp_base p) with (i * sp_slot_size p) by lia.
       by apply Z.mod_mul; lia. }
  set (k := off / sp_slot_size p) in *.
  assert (Hk : 0 <= k) by (apply Z.div_pos; lia).
  assert (Hslot : ∀ i, 0 <= i < sp_slot_count p → slot = slot_address p i ↔ i = k).
  { intros i Hi. destruct (slot_address_small p i Hwf Hi) as [-> _]. unfold off in *. split; nia. }
  destruct (Z.leb_spec (sp_slot_count p) k).
  { exists p. split; [done|]. apply Hno. intros i Hi H'. apply Hslot in H'; lia. }
  eexists. split; [done|]. intros i. unfold slot_free, set_field. simpl. split.
  - intros [Hi H']. rewrite testbit_without in H' by lia.
    destruct (Z.eqb_spec i k) as [->|]; [right; split; [done|by apply Hslot]|].
    left. by rewrite andb_true_r in H'.
  - intros [[Hi H']|[Hi H']]; split; try done; rewrite testbit_without by lia.
    + by rewrite H'.
    + apply Hslot in H' as ->; [|done]. rewrite Z.eqb_refl. apply andb_false_r.
Qed.

Definition demo_pool : hk_static_pool := StaticPool 0x100000 0x100 8 0x13.

Lemma static_pool_claim_spec_witness :
  (hk_static_pool_claim (Some demo_pool) 128 0x100480).1 = 0x100500 ∧
  hk_static_pool_release (hk_static_pool_claim (Some demo_pool) 128 0x100480).2 0x100500 = Some demo_pool.
Proof.
  split; [reflexivity|].
  destruct (static_pool_claim_spec demo_pool 128 0x100480 0x100500
              (hk_static_pool_claim (Some demo_pool) 128 0x100480).2)
    as [H|(k & p' & _ & _ & _ & _ & _ & _ & _ & _ & _ & H)]; [| |reflexivity| |exact H].
  - split; simpl; [lia|lia|unfold HK_STATIC_POOL_MAX_SLOTS; lia|lia| |unfold is_u64; lia].
    intros i Hi. apply (Z.bits_above_log2 0x13); [lia|]. change (Z.log2 0x13) with 4. lia.
  - simpl. lia.
  - destruct H as [H _]. discriminate H.
Defined.
