(* ===== verification/MemoryEngine.v ===== *)
(** * The memory-patch engine (src/engines/HKMemoryEngine.c, HKMemoryVtable.c)

    Capture a region at preparation, write over it at commit only while it
    still holds what was captured, and the adapter that presents the two to the
    plan lifecycle. *)

From stdpp Require Import base list strings gmap numbers option.
From S2P Require Import Prelude Types ImageCatalog Artifacts Engine Device EngineWorld.

Definition HK_MEMPATCH_MAX : Z := 256.

Inductive hk_mempatch_status : Type :=
  | HK_MEMPATCH_OK | HK_MEMPATCH_INVALID_ARGUMENT | HK_MEMPATCH_TOO_LARGE
  | HK_MEMPATCH_PRECONDITION_FAILED.

Definition hk_mempatch_status_code (s : hk_mempatch_status) : Z :=
  match s with
  | HK_MEMPATCH_OK => 0 | HK_MEMPATCH_INVALID_ARGUMENT => 1 | HK_MEMPATCH_TOO_LARGE => 2
  | HK_MEMPATCH_PRECONDITION_FAILED => 3
  end.

(** [original] holds the [size] bytes read; the rest of the array is zero and
    never looked at. *)
Record hk_mempatch_plan : Type := MempatchPlan {
  mm_original : list Z;
  mm_size : Z;
  mm_captured : bool }.

(** Byte by byte under the mask; a NULL mask compares every bit. *)
Fixpoint masked_equal (current expected : list Z) (mask : option (list Z)) : bool :=
  match current, expected with
  | c :: current, e :: expected =>
      let m := match mask with Some (m :: _) => m | _ => 0xff end in
      if negb (Z.land c m =? Z.land e m) then false
      else masked_equal current expected (tail <$> mask)
  | _, _ => true
  end.

Definition view_data (v : bytes_view) : option (list Z) :=
  match v with Bytes l => Some l | BytesNull _ => None end.

(** The status, and what is in [*out_plan] if it was written. *)
Definition hk_mempatch_prepare (mem : Z → Z) (address size : Z) (expected mask : bytes_view)
    : hk_mempatch_status * option hk_mempatch_plan :=
  if (address =? 0) || (size =? 0) then (HK_MEMPATCH_INVALID_ARGUMENT, None)
  else if HK_MEMPATCH_MAX <? size then (HK_MEMPATCH_TOO_LARGE, None)
  else
    let original := bytes_at mem address (Z.to_nat size) in
    match expected with
    | BytesNull _ => (HK_MEMPATCH_OK, Some (MempatchPlan original size true))
    | Bytes e =>
        let mask_mismatch :=
          match mask with Bytes m => negb (Z.of_nat (length m) =? size) | BytesNull _ => false end in
        if negb (Z.of_nat (length e) =? size) || mask_mismatch
        then (HK_MEMPATCH_INVALID_ARGUMENT, None)
        else if negb (masked_equal original e (view_data mask))
        then (HK_MEMPATCH_PRECONDITION_FAILED, Some (MempatchPlan original size false))
        else (HK_MEMPATCH_OK, Some (MempatchPlan original size true))
    end.

Definition mempatch_artifact (address : Z) (plan : hk_mempatch_plan) (m : hk_mutation_state)
    : hk_artifact :=
  engine_artifact "memory" HK_ARTIFACT_MEMORY_PATCH (applied_state m)
    HK_EFFECT_MEMORY_MUTATION (inline_bytes (mm_original plan))
    (facts_at address (mm_size plan)
       <| af_mechanically_reversible := true |>
       <| af_safe_to_reverse_after_activation := bool_decide (m = HK_MUTATION_COMPLETE) |>).

Section Commit.
Context {X : Type}.

(** The mutation state and the records handed to the sink. *)
Definition hk_mempatch_commit (address : Z) (plan : option hk_mempatch_plan)
    (replacement : bytes_view) (write : option (writer X)) (sink : bool)
    : M (device X) (hk_mutation_state * list hk_artifact) :=
  match plan, write, replacement with
  | Some plan, Some write, Bytes data =>
      if negb (mm_captured plan) || (address =? 0) then ret (HK_MUTATION_NONE, [])
      else if negb (Z.of_nat (length data) =? mm_size plan) then ret (HK_MUTATION_NONE, [])
      else
        mutation <- guarded_write write address (mm_original plan) data ;;
        if bool_decide (mutation = HK_MUTATION_NONE) then ret (HK_MUTATION_NONE, [])
        else
          let mutation := reported_mutation mutation in
          ret (mutation, if sink then [mempatch_artifact address plan mutation] else [])
  | _, _, _ => ret (HK_MUTATION_NONE, [])
  end.
End Commit.

(** ** The adapter *)

(** [prepared_patch_t] *)
Record prepared_patch : Type := PreparedPatch {
  pp_plan : hk_mempatch_plan;
  pp_address : Z }.

Record hk_memory_engine_ctx {X : Type} : Type := MemoryEngineCtx {
  mc_image_base : Z;
  mc_write : option (writer X);
  mc_catalog : option hk_image_catalog }.
Arguments hk_memory_engine_ctx : clear implicits.
Arguments MemoryEngineCtx {X} _ _ _.

Definition HK_MEMORY_DIAG_IMAGE_SCOPE_BASE : Z := 100.

Definition resolve_address {X} (ctx : hk_memory_engine_ctx X) (mem : hk_memory_target) : Z :=
  if me_address_is_image_relative mem then u64 (mc_image_base ctx + me_address mem)
  else me_address mem.

Definition memory_describe : hk_engine_capabilities :=
  builtin_capabilities "memory" HK_TARGET_MEMORY_PATCH HK_REACH_EXACT_MEMORY 0
    0 HK_EFFECT_MEMORY_MUTATION.

Definition memory_classify (st : hk_mempatch_status) : hk_prepare_result * hk_prepare_diag :=
  let failed message := (HK_PREPARE_FAILED, refused_with (hk_mempatch_status_code st) message) in
  match st with
  | HK_MEMPATCH_OK => (HK_PREPARE_OK, no_prepare_diag)
  | HK_MEMPATCH_PRECONDITION_FAILED =>
      failed "the region does not hold the bytes the request expected"
  | HK_MEMPATCH_TOO_LARGE => failed "the region is larger than the engine can capture"
  | HK_MEMPATCH_INVALID_ARGUMENT => failed "invalid memory-patch target"
  end.

Section Adapter.
Context {X : Type}.
(** What is behind an engine context pointer (0 is NULL), and the Mach-O
    reader's image span. *)
Context (ctx_at : Z → option (hk_memory_engine_ctx X)).
Context (image_span : hk_image_entry → option (Z * Z)).

Local Abbreviation world := (engine_world X prepared_patch).

Definition memory_prepare_one_ctx_status (engine_ctx : Z) (spec : hk_hook_spec)
    : M world (hk_prepare_result * Z * hk_prepare_diag) :=
  let failed diag := ret (HK_PREPARE_FAILED, 0, diag) in
  match ctx_at engine_ctx, hs_target spec with
  | Some ctx, TMemory mem =>
      let address := resolve_address ctx mem in
      let scope := Scope.hk_image_scope_check image_span (mc_catalog ctx)
                     (Some (me_base_image mem)) false None address in
      if me_address_is_image_relative mem && scope_refuses scope then
        failed (refused_with (HK_MEMORY_DIAG_IMAGE_SCOPE_BASE + scope_code scope)
                  (hk_image_scope_describe scope))
      else
        p <- malloc_object ;;
        if p =? 0 then failed (refused_with 0 "out of memory")
        else
          d <- gets ew_device ;;
          let '(st, plan) := hk_mempatch_prepare (d_mem d) address (me_size mem)
                               (me_expected_bytes mem) (me_expected_mask mem) in
          let '(result, diag) := memory_classify st in
          match result, plan with
          | HK_PREPARE_OK, Some plan =>
              put_object p (PreparedPatch plan address) ;;; ret (HK_PREPARE_OK, p, diag)
          | _, _ => ret (result, 0, diag)
          end
  | _, _ =>
      failed (refused_with 0 "memory engine invoked without a writer or with a non-memory target")
  end.

(** The union member another kind of target would have left there. *)
Definition replacement_of (spec : hk_hook_spec) : bytes_view :=
  match hs_target spec with TMemory mem => me_replacement_bytes mem | _ => BytesNull 0 end.

Definition memory_commit_one_ctx (engine_ctx : Z) (spec : hk_hook_spec) (prepared : Z)
    (sink : hk_artifact_sink) : M world commit_reply :=
  object <- get_object prepared ;;
  match ctx_at engine_ctx, object with
  | Some ctx, Some p =>
      reply <- on_device (hk_mempatch_commit (pp_address p) (Some (pp_plan p))
                            (replacement_of spec) (mc_write ctx) true) ;;
      ret (CommitReply reply.2 None None reply.1)
  | _, _ => ret (CommitReply [] None None HK_MUTATION_NONE)
  end.

Definition memory_verify_one_ctx (engine_ctx : Z) (spec : hk_hook_spec) (prepared : Z)
    : M world (hk_verify_result * hk_verify_diag) :=
  object <- get_object prepared ;;
  match object, hs_target spec, replacement_of spec with
  | Some p, TMemory _, Bytes data =>
      d <- gets ew_device ;;
      if bool_decide (bytes_at (d_mem d) (pp_address p) (Z.to_nat (mm_size (pp_plan p))) =
                      take (Z.to_nat (mm_size (pp_plan p))) data)
      then ret (HK_VERIFY_OK, no_verify_diag)
      else ret (HK_VERIFY_FAILED,
                VerifyDiag 0 (Some "memory patch readback does not match the replacement"))
  | _, _, _ =>
      ret (HK_VERIFY_FAILED,
           VerifyDiag 0 (Some "memory verification received an invalid prepared patch"))
  end.

Definition memory_release_prepared (engine_ctx prepared : Z) : M world unit :=
  free_object prepared.

Definition hk_memory_vtable (address struct_size : Z) : hk_engine_vtable world :=
  Vtable world address 1 struct_size memory_describe None None None None None None
    (Some memory_commit_one_ctx) (Some memory_release_prepared) (Some memory_verify_one_ctx)
    (Some memory_prepare_one_ctx_status) None None None None None None.
End Adapter.

(** ** What the engine promises *)

(** The mask bits byte [i] is compared under. *)
Definition mask_at (mask : option (list Z)) (i : nat) : Z :=
  default 0xff (m ← mask; m !! i).

Lemma masked_equal_spec current expected mask :
  length current = length expected →
  (∀ m, mask = Some m → length m = length expected) →
  masked_equal current expected mask = true ↔
  ∀ i c e, current !! i = Some c → expected !! i = Some e →
    Z.land c (mask_at mask i) = Z.land e (mask_at mask i).
Proof.
  revert expected mask. induction current as [|c current IH]; intros [|e expected] mask Hlen Hm;
    try discriminate; cbn [masked_equal].
  { split; [|done]. intros _ i ? ? H. discriminate H. }
  injection Hlen as Hlen.
  assert (Hhd : (match mask with Some (m :: _) => m | _ => 0xff end) = mask_at mask 0).
  { unfold mask_at. destruct mask as [[|m0 m]|]; done. }
  assert (Htl : ∀ i, mask_at (tail <$> mask) i = mask_at mask (S i)).
  { intros i. unfold mask_at. destruct mask as [[|m0 m]|]; done. }
  assert (Hm' : ∀ m, tail <$> mask = Some m → length m = length expected).
  { intros m. destruct mask as [m1|]; [|done]. intros [= <-]. specialize (Hm _ eq_refl).
    destruct m1; simpl in *; lia. }
  rewrite Hhd. destruct (Z.eqb_spec (Z.land c (mask_at mask 0)) (Z.land e (mask_at mask 0))) as [E|E].
  - simpl. rewrite IH by done. split; intros H.
    + intros [|i] c' e' Hc He; [injection Hc as <-; injection He as <-; done|].
      rewrite <- Htl. by apply (H i).
    + intros i c' e' Hc He. rewrite Htl. by apply (H (S i)).
  - simpl. split; [done|]. intros H. destruct E. by apply (H 0%nat).
Qed.

(** The precondition the request states about the region. *)
Definition expectation_met (captured : list Z) (expected mask : bytes_view) : Prop :=
  ∀ e, expected = Bytes e →
    length e = length captured ∧
    (∀ m, mask = Bytes m → length m = length captured) ∧
    ∀ i c b, captured !! i = Some c → e !! i = Some b →
      Z.land c (mask_at (view_data mask) i) = Z.land b (mask_at (view_data mask) i).

Lemma mempatch_prepare_spec mem address size expected mask :
  0 <= size →
  (∃ plan, hk_mempatch_prepare mem address size expected mask = (HK_MEMPATCH_OK, Some plan)) ↔
  address ≠ 0 ∧ 1 <= size <= HK_MEMPATCH_MAX ∧
  expectation_met (bytes_at mem address (Z.to_nat size)) expected mask.
Proof.
  intros Hs. unfold hk_mempatch_prepare, expectation_met.
  destruct (Z.eqb_spec address 0), (Z.eqb_spec size 0); simpl;
    try (split; [intros [? ?]; discriminate|lia]).
  destruct (Z.ltb_spec HK_MEMPATCH_MAX size) as [|Hle]; [split; [intros [? ?]; discriminate|lia]|].
  rewrite length_bytes_at. destruct expected as [k|e].
  { split; [|by eexists]. intros _. split_and!; [done|lia|done|]. intros e. discriminate. }
  split.
  - intros [plan H]. split_and!; [done|lia|done|]. intros e' [= <-].
    destruct (Z.eqb_spec (Z.of_nat (length e)) size) as [He|]; simpl in H; [|discriminate].
    assert (Hm : ∀ m, mask = Bytes m → Z.of_nat (length m) = size).
    { intros m ->. by destruct (Z.eqb_spec (Z.of_nat (length m)) size); [|discriminate]. }
    split; [lia|]. split; [intros m ->; specialize (Hm _ eq_refl); lia|].
    destruct (match mask with BytesNull _ => false | Bytes _ => _ end); [discriminate|].
    destruct (masked_equal _ _ _) eqn:E; [|discriminate].
    apply masked_equal_spec; [rewrite length_bytes_at; lia| |done].
    intros m. destruct mask; [done|]. intros [= <-]. specialize (Hm _ eq_refl). lia.
  - intros (_ & _ & H'). specialize (H' e eq_refl) as (He & Hm & H').
    destruct (Z.eqb_spec (Z.of_nat (length e)) size); [|lia].
    assert ((match mask with BytesNull _ => false | Bytes m => negb (Z.of_nat (length m) =? size) end) = false) as ->.
    { destruct mask as [|m]; [done|]. specialize (Hm _ eq_refl). apply negb_false_iff, Z.eqb_eq. lia. }
    simpl. apply masked_equal_spec in H'; [by rewrite H'; eexists|rewrite length_bytes_at; lia|].
    intros m. destruct mask; [done|]. intros [= <-]. specialize (Hm _ eq_refl). lia.
Qed.

Lemma mempatch_prepare_plan mem address size expected mask plan :
  hk_mempatch_prepare mem address size expected mask = (HK_MEMPATCH_OK, plan) →
  plan = Some (MempatchPlan (bytes_at mem address (Z.to_nat size)) size true).
Proof. unfold hk_mempatch_prepare. repeat case_match; by intros [= <-]. Qed.

Section Lifecycle.
Context {X : Type} (ctx_at : Z → option (hk_memory_engine_ctx X)).
Context (image_span : hk_image_entry → option (Z * Z)).
Local Abbreviation world := (engine_world X prepared_patch).

(** The bytes of the process. *)
Local Abbreviation memory_of w := (d_mem (ew_device w)).

Lemma memory_prepare_ok engine_ctx spec ctx mem w p diag w1 :
  ctx_at engine_ctx = Some ctx → hs_target spec = TMemory mem → 0 <= me_size mem →
  memory_prepare_one_ctx_status ctx_at image_span engine_ctx spec w = ((HK_PREPARE_OK, p, diag), w1) →
  let address := resolve_address ctx mem in
  let captured := bytes_at (memory_of w) address (Z.to_nat (me_size mem)) in
  p ≠ 0 ∧ ew_device w1 = ew_device w ∧ address ≠ 0 ∧
  1 <= me_size mem <= HK_MEMPATCH_MAX ∧
  expectation_met captured (me_expected_bytes mem) (me_expected_mask mem) ∧
  ew_objects w1 !! p = Some (PreparedPatch (MempatchPlan captured (me_size mem) true) address).
Proof.
  intros Hctx Ht Hsize. unfold memory_prepare_one_ctx_status. rewrite Hctx, Ht.
  set (address := resolve_address ctx mem). cbv zeta. unfold ret.
  destruct (me_address_is_image_relative mem && _); [intros H; discriminate H|].
  unfold bind, malloc_object, zoom, gets. destruct (alloc_object (ew_heap w)) as [q h].
  destruct (Z.eqb_spec q 0); [intros H; discriminate H|]. unfold set_field; simpl.
  destruct (hk_mempatch_prepare _ _ _ _ _) as [st plan] eqn:E.
  destruct st; simpl; try (intros H; discriminate H).
  pose proof (mempatch_prepare_plan _ _ _ _ _ _ E) as ->.
  unfold put_object, modify, ret, set_field. simpl. intros [= <- <- <-]. simpl.
  destruct (proj1 (mempatch_prepare_spec _ _ _ _ _ Hsize) (ex_intro _ _ E)) as (? & ? & ?).
  rewrite lookup_insert. by destruct (decide (q = q)).
Qed.

(** C15.  A memory patch from preparation to verification, whatever happens to
    the process in between.  Preparation changes no memory and accepts a
    region of at most 256 bytes that holds what the request expects under its
    mask.  Commit writes only while the region still holds the captured bytes;
    when it answers NONE nothing is written or recorded; otherwise it records
    one artifact, and writing that artifact's original bytes back restores the
    memory of before the commit exactly (unless the writer itself answered
    UNKNOWN); COMPLETE means the replacement is in
    place and verification says so. *)
Theorem memory_patch_lifecycle engine_ctx spec ctx mem data write w p diag w1 w2 sink reply w3 :
  ctx_at engine_ctx = Some ctx → mc_write ctx = Some write → writer_contract write →
  hs_target spec = TMemory mem → me_replacement_bytes mem = Bytes data → 0 <= me_size mem →
  memory_prepare_one_ctx_status ctx_at image_span engine_ctx spec w = ((HK_PREPARE_OK, p, diag), w1) →
  ew_objects w2 !! p = ew_objects w1 !! p →
  memory_commit_one_ctx ctx_at engine_ctx spec p sink w2 = (reply, w3) →
  let address := resolve_address ctx mem in
  let captured := bytes_at (memory_of w) address (Z.to_nat (me_size mem)) in
  is_u64 address →
  ew_device w1 = ew_device w ∧ 1 <= me_size mem <= HK_MEMPATCH_MAX ∧
  expectation_met captured (me_expected_bytes mem) (me_expected_mask mem) ∧
  honest_commit address captured data (memory_of w2) (memory_of w3) []
    (cr_mutation reply) (cr_artifacts reply) ∧
  (cr_mutation reply = HK_MUTATION_COMPLETE →
     length data = length captured ∧
     (memory_verify_one_ctx engine_ctx spec p w3).1 = (HK_VERIFY_OK, no_verify_diag)).
Proof.
  intros Hctx Hwr Hcontract Ht Hdata Hsize Hprep Hobj Hcommit. cbv zeta. intros Hau. revert Hcommit.
  destruct (memory_prepare_ok _ _ _ _ _ _ _ _ Hctx Ht Hsize Hprep) as (Hp & Hdev & Ha & Hs & He & Ho).
  rewrite Ho in Hobj. clear Hprep Ho.
  set (address := resolve_address ctx mem) in *. set (captured := bytes_at (memory_of w) _ _) in *.
  unfold memory_commit_one_ctx, get_object, bind, gets.
  rewrite (proj2 (Z.eqb_neq p 0) Hp), Hobj, Hctx, Hwr.
  unfold replacement_of. rewrite Ht, Hdata. unfold on_device, zoom, hk_mempatch_commit. simpl.
  rewrite (proj2 (Z.eqb_neq address 0) Ha).
  destruct (Z.eqb_spec (Z.of_nat (length data)) (me_size mem)) as [Hlen|]; simpl.
  2: { intros [= <- <-]. by repeat (split; [done|]). }
  assert (Hcap : length captured = Z.to_nat (me_size mem)) by apply length_bytes_at.
  assert (Hl : length data = length captured) by lia.
  assert (Hcu : is_u64 (Z.of_nat (length captured))).
  { unfold is_u64, HK_MEMPATCH_MAX in *. lia. }
  unfold bind. destruct (guarded_write _ _ _ _ _) as [m d'] eqn:Eg.
  pose proof (guarded_commit_honest write address captured data (ew_device w2) m d' []
    (mempatch_artifact address (MempatchPlan captured (me_size mem) true)) Hcontract Hau
    Hcu Hl ltac:(done) Eg) as Hh.
  destruct (bool_decide_reflect (m = HK_MUTATION_NONE)) as [->|Hm].
  { unfold ret, set_field. intros [= <- <-]. simpl. by repeat (split; [done|]). }
  destruct Hh as [_ Hh]. unfold ret, set_field. intros [= <- <-]. simpl.
  split; [done|]. split; [done|]. split; [done|]. split; [exact Hh|].
  intros Hc. split; [done|]. rewrite Hc in Hh. destruct Hh as (_ & _ & Hdone).
  unfold memory_verify_one_ctx, get_object, bind, gets. simpl.
  rewrite (proj2 (Z.eqb_neq p 0) Hp), Hobj, Ht. unfold replacement_of. rewrite Ht, Hdata. simpl.
  rewrite (Hdone eq_refl). replace (Z.to_nat (me_size mem)) with (length data) by lia.
  rewrite bytes_at_store, firstn_all. by rewrite bool_decide_eq_true_2.
Qed.
End Lifecycle.

(** ** Witnesses *)

Definition demo_heap : heap := Heap (λ _, false) 0 0x1000.
Definition demo_world {P} (mem : Z → Z) : engine_world unit P :=
  EngineWorld (Device mem tt) demo_heap (Ids None 0 7) ∅.

Definition demo_memory_ctx (_ : Z) : option (hk_memory_engine_ctx unit) :=
  Some (MemoryEngineCtx 0 (Some plain_writer) None).
Definition demo_memory_target : hk_memory_target :=
  MemoryTarget 0x4000 false zero_selector (Bytes [1; 2; 3; 4]) (Bytes [0x55; 0xF0; 0x55; 0x55])
    (Bytes [0xFF; 0x0F; 0xFF; 0xFF]) 4 0.
Definition demo_memory_spec (t : hk_target) : hk_hook_spec :=
  HookSpec SIZEOF_HOOK_SPEC (Some "patch") t 0x6000 0 0 HK_ORIGINAL_NONE
    HK_CONTINUATION_ANY 0 HK_AVAILABILITY_REQUIRED_NOW HK_OPERATION_MANDATORY 0 0 (After []).
Definition demo_memory : Z → Z := λ a, if a =? 0x4001 then 0x50 else 0x55.
Definition demo_sink : hk_artifact_sink := Sink zero_id zero_id zero_id 0 None false 0 false 0.

Lemma memory_patch_lifecycle_witness :
  let prepare := memory_prepare_one_ctx_status demo_memory_ctx (λ _, None) 0
                   (demo_memory_spec (TMemory demo_memory_target)) (demo_world demo_memory) in
  let commit := memory_commit_one_ctx demo_memory_ctx 0
                  (demo_memory_spec (TMemory demo_memory_target)) prepare.1.1.2 demo_sink prepare.2 in
  cr_mutation commit.1 = HK_MUTATION_COMPLETE ∧
  d_mem (ew_device commit.2) = store 0x4000 [1; 2; 3; 4] demo_memory.
Proof.
  intros prepare commit. split; [reflexivity|].
  destruct (memory_patch_lifecycle demo_memory_ctx (λ _, None) 0
              (demo_memory_spec (TMemory demo_memory_target))
              (MemoryEngineCtx 0 (Some plain_writer) None) demo_memory_target [1; 2; 3; 4]
              plain_writer (demo_world demo_memory) prepare.1.1.2 prepare.1.2 prepare.2 prepare.2
              demo_sink commit.1 commit.2) as (_ & _ & _ & H & _);
    [reflexivity|reflexivity|apply plain_writer_contract|reflexivity|reflexivity|done
    |reflexivity|reflexivity|reflexivity|vm_compute; split; congruence|].
  destruct H as (_ & _ & H). exact (H eq_refl).
Defined.
