(* ===== verification/InlineEngine.v ===== *)
(** * The terminal inline engine (src/engines/HKInlineEngine.c, HKInlineVtable.c)

    Overwrite a function's entry with a branch to the replacement, and keep
    nothing of what was there but its bytes. *)

From stdpp Require Import base list strings gmap numbers option.
From S2P Require Import Prelude Types ImageCatalog Artifacts Engine Memory Arm64 Device PatchCode EngineWorld MemoryEngine.
Import Enc Reloc Isa.

Definition HK_INLINE_MAX_PATCH : Z := HK_A64_MAX_BRANCH_BYTES.

Inductive hk_inline_status : Type :=
  | HK_INLINE_OK | HK_INLINE_INVALID_ARGUMENT | HK_INLINE_MISALIGNED
  | HK_INLINE_TARGET_TOO_SHORT | HK_INLINE_TRAP_STUB | HK_INLINE_PRECONDITION_FAILED
  | HK_INLINE_NEEDS_CONTINUATION.

Definition hk_inline_status_code (s : hk_inline_status) : Z :=
  match s with
  | HK_INLINE_OK => 0 | HK_INLINE_INVALID_ARGUMENT => 1 | HK_INLINE_MISALIGNED => 2
  | HK_INLINE_TARGET_TOO_SHORT => 3 | HK_INLINE_TRAP_STUB => 4
  | HK_INLINE_PRECONDITION_FAILED => 5 | HK_INLINE_NEEDS_CONTINUATION => 6
  end.

(** [il_size] bytes of both arrays; what follows is zero and not looked at. *)
Record hk_inline_plan : Type := InlinePlan {
  il_address : Z;
  il_original : list Z;
  il_patch : list Z;
  il_size : Z;
  il_captured : bool }.

(** [expected_initial_bytes] with a size that cannot be a pinned prologue. *)
Definition bad_expectation (expected : bytes_view) (max : Z) : bool :=
  match expected with
  | BytesNull _ => false
  | Bytes e => (Z.of_nat (length e) =? 0) || (max <? Z.of_nat (length e))
  end.

(** The comparison of the common prefix. *)
Definition prologue_differs (original : list Z) (expected : bytes_view) (size : Z) : bool :=
  match expected with
  | BytesNull _ => false
  | Bytes e =>
      let n := Z.to_nat (if Z.of_nat (length e) <? size then Z.of_nat (length e) else size) in
      negb (bool_decide (take n original = take n e))
  end.

Definition first_word (l : list Z) : Z := default 0 (words_of l !! 0%nat).

(** The plan of an accepted target; on a refusal nothing reads it. *)
Definition hk_inline_prepare (mem : Z → Z) (target replacement : Z)
    (original_requirement : hk_original_requirement) (expected : bytes_view)
    : hk_inline_status * option hk_inline_plan :=
  if (target =? 0) || (replacement =? 0) then (HK_INLINE_INVALID_ARGUMENT, None)
  else if bad_expectation expected HK_INLINE_MAX_PATCH then (HK_INLINE_INVALID_ARGUMENT, None)
  else if negb (bool_decide (original_requirement = HK_ORIGINAL_NONE))
  then (HK_INLINE_NEEDS_CONTINUATION, None)
  else if negb (Z.land target 3 =? 0) then (HK_INLINE_MISALIGNED, None)
  else
    let size := hk_arm64_branch_size target replacement in
    if (size =? 0) || (HK_INLINE_MAX_PATCH <? size) then (HK_INLINE_INVALID_ARGUMENT, None)
    else
      let original := bytes_at mem target (Z.to_nat size) in
      if prologue_differs original expected size then (HK_INLINE_PRECONDITION_FAILED, None)
      else if hk_arm64_insn_is_trap (first_word original) then (HK_INLINE_TRAP_STUB, None)
      else if (4 <? size) &&
              hk_arm64_has_early_terminator (Some (words_of original)) (Z.to_nat (size - 4))
      then (HK_INLINE_TARGET_TOO_SHORT, None)
      else
        let '(patch, written) := hk_arm64_emit_branch target replacement in
        if negb (written =? size) then (HK_INLINE_INVALID_ARGUMENT, None)
        else (HK_INLINE_OK, Some (InlinePlan target original (bytes_of_words patch) size true)).

Definition inline_artifact (plan : hk_inline_plan) (m : hk_mutation_state) : hk_artifact :=
  engine_artifact "inline-terminal" HK_ARTIFACT_TARGET_TEXT_PATCH (applied_state m)
    HK_EFFECT_TARGET_TEXT_MUTATION (inline_bytes (il_original plan))
    (facts_at (il_address plan) (il_size plan)
       <| af_mechanically_reversible := true |>
       <| af_safe_to_reverse_after_activation := bool_decide (m = HK_MUTATION_COMPLETE) |>).

Definition hk_inline_commit {X} (plan : option hk_inline_plan) (write : option (writer X))
    (sink : bool) : M (device X) (hk_mutation_state * list hk_artifact) :=
  match plan, write with
  | Some plan, Some write =>
      if negb (il_captured plan) || (il_address plan =? 0) || (il_size plan =? 0) ||
         (HK_INLINE_MAX_PATCH <? il_size plan) then ret (HK_MUTATION_NONE, [])
      else
        mutation <- guarded_write write (il_address plan) (il_original plan) (il_patch plan) ;;
        if bool_decide (mutation = HK_MUTATION_NONE) then ret (HK_MUTATION_NONE, [])
        else
          let mutation := reported_mutation mutation in
          ret (mutation, if sink then [inline_artifact plan mutation] else [])
  | _, _ => ret (HK_MUTATION_NONE, [])
  end.

(** ** The adapter *)

Record hk_inline_engine_ctx {X : Type} : Type := InlineEngineCtx {
  ic_write : option (writer X);
  ic_catalog : option hk_image_catalog;
  ic_allow_non_atomic_entry_patch : bool }.
Arguments hk_inline_engine_ctx : clear implicits.
Arguments InlineEngineCtx {X} _ _ _.

Definition HK_INLINE_DIAG_IMAGE_SCOPE_BASE : Z := 100.
Definition HK_INLINE_DIAG_NON_ATOMIC_PATCH : Z := 200.

Definition inline_describe : hk_engine_capabilities :=
  builtin_capabilities "inline-terminal" HK_TARGET_FUNCTION_ADDRESS HK_REACH_ENTRYPOINT
    (HK_ORIGINAL_REQ_BIT HK_ORIGINAL_NONE) 0 HK_EFFECT_TARGET_TEXT_MUTATION.

Definition inline_classify (st : hk_inline_status) : hk_prepare_result * hk_prepare_diag :=
  let failed message := (HK_PREPARE_FAILED, refused_with (hk_inline_status_code st) message) in
  match st with
  | HK_INLINE_OK => (HK_PREPARE_OK, no_prepare_diag)
  | HK_INLINE_MISALIGNED =>
      failed "target is not 4-byte aligned, so it is not an A64 entry point"
  | HK_INLINE_TARGET_TOO_SHORT =>
      failed "function ends inside the overwrite window; the patch would run past it"
  | HK_INLINE_TRAP_STUB =>
      failed "entry is a trap stub (BRK/HLT/UDF); there is no original to replace"
  | HK_INLINE_PRECONDITION_FAILED =>
      failed "prologue does not match the bytes the request pinned"
  | HK_INLINE_NEEDS_CONTINUATION =>
      failed "terminal inline cannot provide an original; use a relocating engine"
  | HK_INLINE_INVALID_ARGUMENT => failed "invalid inline target"
  end.

Definition non_atomic_message : string :=
  "entry patch would not be a single aligned store; a thread could enter the function part-patched".

Section Adapter.
Context {X : Type}.
Context (ctx_at : Z → option (hk_inline_engine_ctx X)).
Context (image_span : hk_image_entry → option (Z * Z)).
(** [hk_pac_strip_code]: the identity, or the compiler's intrinsic on arm64e. *)
Context (strip : Z → Z).

Local Abbreviation world := (engine_world X hk_inline_plan).

(** Where the request points once its signature is off, if it lets us. *)
Definition entry_address (addr : hk_address_target) : Z :=
  if ad_may_strip_pac_or_thumb_state addr then strip (ad_address addr) else ad_address addr.

Definition address_scope (catalog : option hk_image_catalog) (addr : hk_address_target)
    : Scope.status :=
  Scope.hk_image_scope_check image_span catalog (Some (ad_expected_image addr))
    (bool_decide (ad_expected_uuid addr ≠ None)) (ad_expected_uuid addr) (entry_address addr).

Definition inline_prepare_one_ctx_status (engine_ctx : Z) (spec : hk_hook_spec)
    : M world (hk_prepare_result * Z * hk_prepare_diag) :=
  let failed diag := ret (HK_PREPARE_FAILED, 0, diag) in
  match ctx_at engine_ctx, hs_target spec with
  | Some ctx, TAddress addr =>
      let scope := address_scope (ic_catalog ctx) addr in
      if scope_refuses scope then
        failed (refused_with (HK_INLINE_DIAG_IMAGE_SCOPE_BASE + scope_code scope)
                  (hk_image_scope_describe scope))
      else
        p <- malloc_object ;;
        if p =? 0 then failed (refused_with 0 "out of memory")
        else
          d <- gets ew_device ;;
          let '(st, plan) :=
            hk_inline_prepare (d_mem d) (entry_address addr) (strip (hs_replacement spec))
              (hs_original_requirement spec) (ad_expected_initial_bytes addr) in
          let '(result, diag) := inline_classify st in
          match result, plan with
          | HK_PREPARE_OK, Some plan =>
              if negb (il_size plan =? 4) && negb (ic_allow_non_atomic_entry_patch ctx)
              then failed (refused_with HK_INLINE_DIAG_NON_ATOMIC_PATCH non_atomic_message)
              else put_object p plan ;;; ret (HK_PREPARE_OK, p, diag)
          | _, _ => ret (result, 0, diag)
          end
  | _, _ =>
      failed (refused_with 0 "inline engine invoked without a writer or with a non-address target")
  end.

Definition inline_commit_one_ctx (engine_ctx : Z) (spec : hk_hook_spec) (prepared : Z)
    (sink : hk_artifact_sink) : M world commit_reply :=
  object <- get_object prepared ;;
  match ctx_at engine_ctx, object with
  | Some ctx, Some plan =>
      reply <- on_device (hk_inline_commit (Some plan) (ic_write ctx) true) ;;
      ret (CommitReply reply.2 None None reply.1)
  | _, _ => ret (CommitReply [] None None HK_MUTATION_NONE)
  end.

Definition inline_verify_one_ctx (engine_ctx : Z) (spec : hk_hook_spec) (prepared : Z)
    : M world (hk_verify_result * hk_verify_diag) :=
  object <- get_object prepared ;;
  match object with
  | Some plan =>
      d <- gets ew_device ;;
      if still_holds (d_mem d) (il_address plan) (il_patch plan)
      then ret (HK_VERIFY_OK, no_verify_diag)
      else ret (HK_VERIFY_FAILED,
                VerifyDiag 0 (Some "inline patch readback does not match the emitted branch"))
  | None =>
      ret (HK_VERIFY_FAILED, VerifyDiag 0 (Some "inline verification received no prepared plan"))
  end.

Definition inline_release_prepared (engine_ctx prepared : Z) : M world unit :=
  free_object prepared.

Definition hk_inline_vtable (address struct_size : Z) : hk_engine_vtable world :=
  Vtable world address 1 struct_size inline_describe None None None None None None
    (Some inline_commit_one_ctx) (Some inline_release_prepared) (Some inline_verify_one_ctx)
    (Some inline_prepare_one_ctx_status) None None None None None None.
End Adapter.

(** ** What the engine promises *)

(** The prologue the request pinned, as far as the patch reaches. *)
Definition pinned (captured : list Z) (expected : bytes_view) : Prop :=
  ∀ e, expected = Bytes e → take (length e) captured = take (length captured) e.

Lemma prologue_pinned captured expected :
  prologue_differs captured expected (Z.of_nat (length captured)) = false →
  pinned captured expected.
Proof.
  unfold prologue_differs, pinned. intros H e ->. apply negb_false_iff, bool_decide_eq_true in H.
  destruct (Z.ltb_spec (Z.of_nat (length e)) (Z.of_nat (length captured))).
  - rewrite Nat2Z.id in H. rewrite H. rewrite !take_ge by lia. done.
  - rewrite Nat2Z.id in H. by rewrite <- H, !take_ge by lia.
Qed.

(** An instruction that ends the function. *)
Definition ends_function (insn : Z) : bool :=
  hk_arm64_is_terminator insn || is_authenticated_terminator insn.

Lemma no_early_terminator ws n :
  hk_arm64_has_early_terminator (Some ws) (4 * n) = false →
  ∀ i insn, (i < n)%nat → ws !! i = Some insn → ends_function insn = false.
Proof.
  unfold hk_arm64_has_early_terminator. intros H i insn Hi Hw.
  destruct (Nat.ltb_spec (4 * n) 4); [lia|].
  replace (4 * n / 4)%nat with n in H by (rewrite Nat.mul_comm, Nat.div_mul; lia).
  apply not_true_iff_false. intros He. apply not_true_iff_false in H. apply H.
  apply existsb_exists. exists insn. split; [|exact He].
  apply list_elem_of_In. apply list_elem_of_lookup. exists i. by rewrite lookup_take_lt.
Qed.

Lemma lookup_words_of_memory mem a n i : (i < n)%nat →
  words_of (bytes_at mem a (4 * n)) !! i = Some (word_at mem (a + 4 * Z.of_nat i)).
Proof. intros H. rewrite words_of_memory, list_lookup_fmap. by rewrite lookup_seq_lt. Qed.

(** What preparation makes sure of and writes down. *)
Record inline_prepared (mem : Z → Z) (target replacement : Z) (plan : hk_inline_plan) : Prop := {
  ip_address : il_address plan = target;
  ip_nonzero : target ≠ 0;
  ip_size : il_size plan = hk_arm64_branch_size target replacement;
  ip_window : il_size plan = 4 ∨ il_size plan = 16;
  ip_captured : il_captured plan = true;
  ip_original : il_original plan = bytes_at mem target (Z.to_nat (il_size plan));
  ip_patch : il_patch plan = bytes_of_words (hk_arm64_emit_branch target replacement).1;
  ip_aligned : target mod 4 = 0;
  ip_trap : hk_arm64_insn_is_trap (word_at mem target) = false;
  ip_inside : ∀ i, 4 * (Z.of_nat i + 1) < il_size plan →
    ends_function (word_at mem (target + 4 * Z.of_nat i)) = false }.

Lemma land3_aligned x : Z.land x 3 = 0 → x mod 4 = 0.
Proof. change 3 with (Z.ones 2). by rewrite Z.land_ones by lia. Qed.

Lemma inline_prepare_spec mem target replacement requirement expected plan :
  hk_inline_prepare mem target replacement requirement expected = (HK_INLINE_OK, plan) →
  ∃ pl, plan = Some pl ∧ inline_prepared mem target replacement pl ∧
    requirement = HK_ORIGINAL_NONE ∧ replacement ≠ 0 ∧ pinned (il_original pl) expected.
Proof.
  unfold hk_inline_prepare.
  destruct (Z.eqb_spec target 0) as [|Ht0], (Z.eqb_spec replacement 0) as [|Hr0]; simpl;
    try (intros H; discriminate H).
  destruct (bad_expectation _ _); [intros H; discriminate H|].
  destruct (bool_decide_reflect (requirement = HK_ORIGINAL_NONE)); [|intros H; discriminate H]. simpl.
  destruct (Z.eqb_spec (Z.land target 3) 0) as [Hal|]; [|intros H; discriminate H]. simpl.
  destruct (hk_arm64_emit_branch target replacement) as [patch written] eqn:Ee.
  destruct (emit_branch_length _ _ _ _ Ee) as (Hsz & Hlen & Hcases). rewrite <- Hsz.
  destruct (_ || _); [intros H; discriminate H|].
  destruct (prologue_differs _ _ _) eqn:Ep; [intros H; discriminate H|].
  destruct (hk_arm64_insn_is_trap _) eqn:Et; [intros H; discriminate H|].
  destruct (_ && _) eqn:Es; [intros H; discriminate H|].
  rewrite Z.eqb_refl. simpl. intros [= <-]. eexists. split; [done|].
  assert (Hw : ∃ n, (0 < n)%nat ∧ Z.to_nat written = (4 * n)%nat ∧ written = 4 * Z.of_nat n).
  { destruct Hcases as [-> | ->]; [exists 1%nat|exists 4%nat]; lia. }
  destruct Hw as (n & Hn & Hnat & HZ). rewrite Hnat in *.
  split; [|split; [done|split; [done|]]].
  - split; simpl; try done.
    + by rewrite Hnat.
    + by rewrite Ee.
    + by apply land3_aligned.
    + unfold first_word in Et. rewrite lookup_words_of_memory in Et by done. simpl in Et.
      by rewrite Z.add_0_r in Et.
    + intros i Hi. apply andb_false_iff in Es as [Es|Es]; [apply Z.ltb_ge in Es; lia|].
      replace (Z.to_nat (written - 4)) with (4 * (n - 1))%nat in Es by lia.
      apply (no_early_terminator _ _ Es i); [lia|]. apply lookup_words_of_memory. lia.
  - cbn [il_original]. apply prologue_pinned. rewrite length_bytes_at.
    by replace (Z.of_nat (4 * n)) with written by lia.
Qed.

Lemma length_inline_patch mem target replacement plan :
  inline_prepared mem target replacement plan →
  length (il_patch plan) = length (il_original plan) ∧
  length (il_patch plan) = (4 * length (hk_arm64_emit_branch target replacement).1)%nat ∧
  Z.of_nat (length (il_patch plan)) = il_size plan.
Proof.
  intros [_ _ Hs _ _ Ho Hp _ _ _]. rewrite Ho, Hp, length_bytes_at, length_bytes_of_words.
  destruct (hk_arm64_emit_branch target replacement) as [ws n] eqn:E.
  destruct (emit_branch_length _ _ _ _ E) as (Hn & Hl & _). simpl in *. lia.
Qed.

Section Lifecycle.
Context {X R : Type} (ctx_at : Z → option (hk_inline_engine_ctx X)).
Context (image_span : hk_image_entry → option (Z * Z)) (strip : Z → Z).
Context (cond_holds : Z → R → bool) (simd_load : Z → Z → Z → (Z → Z) → R → R).
Context (exec_other : Z → mstate R → option (mstate R)).
Local Abbreviation memory_of w := (d_mem (ew_device w)).
Local Abbreviation arrives := (arrives cond_holds simd_load exec_other).

Lemma inline_prepare_ok engine_ctx spec ctx addr w p diag w1 :
  ctx_at engine_ctx = Some ctx → hs_target spec = TAddress addr →
  inline_prepare_one_ctx_status ctx_at image_span strip engine_ctx spec w =
    ((HK_PREPARE_OK, p, diag), w1) →
  ∃ plan, p ≠ 0 ∧ ew_device w1 = ew_device w ∧ ew_objects w1 !! p = Some plan ∧
    inline_prepared (memory_of w) (entry_address strip addr) (strip (hs_replacement spec)) plan ∧
    hs_original_requirement spec = HK_ORIGINAL_NONE ∧
    pinned (il_original plan) (ad_expected_initial_bytes addr) ∧
    scope_refuses (address_scope image_span strip (ic_catalog ctx) addr) = false ∧
    (il_size plan = 4 ∨ ic_allow_non_atomic_entry_patch ctx = true).
Proof.
  intros Hctx Ht. unfold inline_prepare_one_ctx_status. rewrite Hctx, Ht. cbv zeta. unfold ret.
  destruct (scope_refuses _) eqn:Esc; [intros H; discriminate H|].
  unfold bind, malloc_object, zoom, gets. destruct (alloc_object (ew_heap w)) as [q h].
  destruct (Z.eqb_spec q 0) as [|Hq]; [intros H; discriminate H|].
  destruct (hk_inline_prepare _ _ _ _ _) as [st plan] eqn:E. unfold set_field in *; simpl in *.
  destruct st; simpl; try (intros H; discriminate H).
  destruct (inline_prepare_spec _ _ _ _ _ _ E) as (pl & -> & Hpl & Hreq & _ & Hpin).
  destruct (negb (il_size pl =? 4) && _) eqn:Ea; [intros H; discriminate H|].
  unfold put_object, modify, set_field. simpl. intros [= <- <- <-]. exists pl. simpl.
  rewrite lookup_insert. destruct (decide (q = q)); [|done]. split_and!; try done.
  apply andb_false_iff in Ea as [Ea%negb_false_iff%Z.eqb_eq|Ea%negb_false_iff]; auto.
Qed.

(** C16.  A terminal hook from preparation to the replacement running, whatever
    happens to the process in between.  Preparation changes no memory, demands
    that no original was asked for, and accepts only an aligned entry that is
    not a trap, holds the pinned prologue and does not end before the last
    instruction the patch covers; the patch is one word unless the context
    allows more.  Commit writes only over the captured bytes, leaves nothing
    behind when it answers NONE, and otherwise records how to put the entry
    back.  After COMPLETE the readback verifies, and a call of the target
    arrives at the replacement with memory, flags and every register but
    x16/x17 untouched. *)
Theorem inline_hook_lifecycle engine_ctx spec ctx addr write w p diag w1 w2 sink reply w3 :
  ctx_at engine_ctx = Some ctx → ic_write ctx = Some write → writer_contract write →
  hs_target spec = TAddress addr →
  let target := entry_address strip addr in
  let replacement := strip (hs_replacement spec) in
  let size := hk_arm64_branch_size target replacement in
  let captured := bytes_at (memory_of w) target (Z.to_nat size) in
  is_u64 target → target + 16 <= 2 ^ 64 → is_u64 replacement → replacement mod 4 = 0 →
  inline_prepare_one_ctx_status ctx_at image_span strip engine_ctx spec w =
    ((HK_PREPARE_OK, p, diag), w1) →
  ew_objects w2 !! p = ew_objects w1 !! p →
  inline_commit_one_ctx ctx_at engine_ctx spec p sink w2 = (reply, w3) →
  ew_device w1 = ew_device w ∧ hs_original_requirement spec = HK_ORIGINAL_NONE ∧
  target mod 4 = 0 ∧ hk_arm64_insn_is_trap (word_at (memory_of w) target) = false ∧
  pinned captured (ad_expected_initial_bytes addr) ∧
  (∀ i, 4 * (Z.of_nat i + 1) < size →
     ends_function (word_at (memory_of w) (target + 4 * Z.of_nat i)) = false) ∧
  (size = 4 ∨ ic_allow_non_atomic_entry_patch ctx = true) ∧
  honest_commit target captured (bytes_of_words (hk_arm64_emit_branch target replacement).1)
    (memory_of w2) (memory_of w3) [] (cr_mutation reply) (cr_artifacts reply) ∧
  (cr_mutation reply = HK_MUTATION_COMPLETE →
     (inline_verify_one_ctx engine_ctx spec p w3).1 = (HK_VERIFY_OK, no_verify_diag) ∧
     ∀ s, ms_pc s = target → fetches (memory_of w3) target size s →
       ∃ s', arrives replacement s s').
Proof.
  intros Hctx Hwr Hcontract Ht target replacement size captured Htu Htw Hru Hrm Hprep Hobj.
  destruct (inline_prepare_ok _ _ _ _ _ _ _ _ Hctx Ht Hprep)
    as (plan & Hp & Hdev & Ho & Hpl & Hreq & Hpin & _ & Hatomic).
  fold target replacement in Hpl. rewrite Ho in Hobj. clear Hprep Ho.
  destruct (length_inline_patch _ _ _ _ Hpl) as (Hlen & Hlen4 & HlenZ).
  destruct Hpl as [Ha H0 Hs Hwin Hcap Hor Hpa Hal Htrap Hin]. fold size in Hs.
  rewrite Hs in Hor, Hatomic, Hin. fold captured in Hor.
  unfold inline_commit_one_ctx, get_object, bind, gets.
  rewrite (proj2 (Z.eqb_neq p 0) Hp), Hobj, Hctx, Hwr.
  unfold on_device, zoom, hk_inline_commit. rewrite Hcap, Ha, (proj2 (Z.eqb_neq target 0) H0).
  replace ((negb true || false || (il_size plan =? 0) || (HK_INLINE_MAX_PATCH <? il_size plan)))
    with false by (unfold HK_INLINE_MAX_PATCH, HK_A64_MAX_BRANCH_BYTES;
                   destruct Hwin as [-> | ->]; reflexivity).
  assert (Hcu : is_u64 (Z.of_nat (length captured))).
  { rewrite <- Hor, <- Hlen, HlenZ. unfold is_u64. lia. }
  rewrite Hor in *. unfold bind. destruct (guarded_write _ _ _ _ _) as [m d'] eqn:Eg.
  pose proof (guarded_commit_honest write target captured (il_patch plan) (ew_device w2) m d' []
    (inline_artifact plan) Hcontract Htu Hcu Hlen) as Hh. rewrite <- Hpa.
  specialize (Hh ltac:(intros m'; unfold artifact_original; simpl; by rewrite Hor) Eg).
  destruct (bool_decide_reflect (m = HK_MUTATION_NONE)) as [->|Hm].
  { unfold ret, set_field. intros [= <- <-]. simpl. by repeat (split; [done|]). }
  destruct Hh as [_ Hh]. unfold ret, set_field. intros [= <- <-]. simpl.
  do 7 (split; [done|]). split; [exact Hh|].
  intros Hc. rewrite Hc in Hh. destruct Hh as (_ & _ & Hdone). specialize (Hdone eq_refl). split.
  - unfold inline_verify_one_ctx, get_object, bind, gets. simpl.
    rewrite (proj2 (Z.eqb_neq p 0) Hp), Hobj, Ha. unfold still_holds. simpl.
    by rewrite Hdone, bytes_at_store, bool_decide_eq_true_2.
  - intros s Hpc Hf. apply (stored_branch_arrives _ _ _ (d_mem d') target replacement size); try done.
    + rewrite <- Hlen4, <- Hpa, Hdone. apply bytes_at_store.
    + rewrite <- Hs. lia.
Qed.
End Lifecycle.

(** ** Witness: a page of NOPs, a replacement in reach of a B. *)

Definition demo_nops : Z → Z := λ a, default 0 ([0x1F; 0x20; 0x03; 0xD5] !! Z.to_nat (a mod 4)).
Definition demo_entry (address : Z) : hk_target :=
  TAddress (AddressTarget address zero_selector None (Bytes [0x1F; 0x20; 0x03; 0xD5]) true).
Definition demo_inline_ctx (_ : Z) : option (hk_inline_engine_ctx unit) :=
  Some (InlineEngineCtx (Some plain_writer) None false).

Lemma inline_hook_lifecycle_witness :
  let spec := demo_memory_spec (demo_entry 0x4000) in
  let prepare := inline_prepare_one_ctx_status demo_inline_ctx (λ _, None) id 0 spec
                   (demo_world demo_nops) in
  let commit := inline_commit_one_ctx demo_inline_ctx 0 spec prepare.1.1.2 demo_sink prepare.2 in
  cr_mutation commit.1 = HK_MUTATION_COMPLETE ∧
  (inline_verify_one_ctx 0 spec prepare.1.1.2 commit.2).1 = (HK_VERIFY_OK, no_verify_diag).
Proof.
  intros spec prepare commit. split; [reflexivity|].
  destruct (inline_hook_lifecycle demo_inline_ctx (λ _, None) id (λ _ (_ : unit), true)
              (λ _ _ _ _ r, r) (λ _ _, None) 0 spec (InlineEngineCtx (Some plain_writer) None false)
              (AddressTarget 0x4000 zero_selector None (Bytes [0x1F; 0x20; 0x03; 0xD5]) true)
              plain_writer (demo_world demo_nops) prepare.1.1.2 prepare.1.2 prepare.2 prepare.2
              demo_sink commit.1 commit.2) as (_ & _ & _ & _ & _ & _ & _ & _ & H);
    [reflexivity|reflexivity|apply plain_writer_contract|reflexivity|vm_compute; split; congruence
    |done|vm_compute; split; congruence|done|reflexivity|reflexivity|reflexivity|].
  exact (proj1 (H eq_refl)).
Defined.
