(* ===== verification/RelocEngine.v ===== *)
(** * The relocating inline engine
    (src/engines/HKRelocInlineEngine.c, HKRelocInlineVtable.c)

    Prepare builds and seals a trampoline page, a thunk to the replacement and
    the relocated prologue with a jump back; commit revalidates the entry and
    patches it. *)

From stdpp Require Import base list strings gmap numbers option.
From S2P Require Import Prelude Types ImageCatalog Artifacts Engine Memory Arm64 Device PatchCode EngineWorld MemoryEngine InlineEngine.
Import Enc Reloc Isa.

Definition HK_RELOC_THUNK_BYTES : Z := HK_A64_MAX_BRANCH_BYTES.
Definition HK_RELOC_MAX_DISPLACED : Z := 4.
Definition HK_RELOC_BODY_BYTES : Z :=
  HK_RELOC_MAX_DISPLACED * HK_A64_MAX_RELOC_BYTES + HK_A64_MAX_BRANCH_BYTES.
Definition HK_RELOC_PAGE_BYTES : Z := HK_RELOC_THUNK_BYTES + HK_RELOC_BODY_BYTES.
Definition HK_RELOC_MAX_PATCH : Z := HK_A64_MAX_BRANCH_BYTES.

Inductive hk_reloc_status : Type :=
  | HK_RELOC_OK | HK_RELOC_INVALID_ARGUMENT | HK_RELOC_MISALIGNED | HK_RELOC_TARGET_TOO_SHORT
  | HK_RELOC_TRAP_STUB | HK_RELOC_PRECONDITION_FAILED | HK_RELOC_UNRELOCATABLE
  | HK_RELOC_NO_TRAMPOLINE.

#[export] Instance hk_reloc_status_eq_dec : EqDecision hk_reloc_status.
Proof. solve_decision. Defined.

Definition hk_reloc_status_code (s : hk_reloc_status) : Z :=
  match s with
  | HK_RELOC_OK => 0 | HK_RELOC_INVALID_ARGUMENT => 1 | HK_RELOC_MISALIGNED => 2
  | HK_RELOC_TARGET_TOO_SHORT => 3 | HK_RELOC_TRAP_STUB => 4 | HK_RELOC_PRECONDITION_FAILED => 5
  | HK_RELOC_UNRELOCATABLE => 6 | HK_RELOC_NO_TRAMPOLINE => 7
  end.

(** [rl_patch_size] bytes of the two arrays. *)
Record hk_reloc_plan : Type := RelocPlan {
  rl_address : Z;
  rl_replacement : Z;
  rl_trampoline : Z;
  rl_trampoline_size : Z;
  rl_mapping : hk_artifact_mapping;
  rl_original_entry : Z;
  rl_original : list Z;
  rl_patch : list Z;
  rl_patch_size : Z;
  rl_displaced_count : Z;
  rl_atomic_entry_patch : bool;
  rl_captured : bool;
  rl_activated : bool }.

#[export] Instance hk_reloc_plan_eta : Eta hk_reloc_plan := λ p,
  RelocPlan (rl_address p) (rl_replacement p) (rl_trampoline p) (rl_trampoline_size p)
    (rl_mapping p) (rl_original_entry p) (rl_original p) (rl_patch p) (rl_patch_size p)
    (rl_displaced_count p) (rl_atomic_entry_patch p) (rl_captured p) (rl_activated p).

(** ** The seams *)

Section Seams.
Context {X : Type}.
Definition reloc_alloc : Type := Z → Z → M (device X) (Z * hk_artifact_mapping).
Definition reloc_seal : Type := Z → Z → M (device X) bool.
Definition reloc_free : Type := Z → Z → M (device X) unit.
End Seams.
Arguments reloc_alloc : clear implicits.
Arguments reloc_seal : clear implicits.
Arguments reloc_free : clear implicits.

Section Engine.
Context {X : Type}.
Local Abbreviation world := (engine_world X hk_reloc_plan).

Definition on_ids {A} (m : M ids A) : M world A := zoom ew_ids (λ i w, w <| ew_ids := i |>) m.

Definition memcpy_to (address : Z) (bytes : list Z) : M (device X) unit :=
  modify (λ d, d <| d_mem := store address bytes (d_mem d) |>).

Definition reloc_release_and_fail (free_page : option (reloc_free X)) (page : Z)
    (status : hk_reloc_status) : M world (hk_reloc_status * option hk_reloc_plan) :=
  (match free_page with
   | Some free_page => when (negb (page =? 0)) (on_device (free_page page HK_RELOC_PAGE_BYTES))
   | None => ret tt
   end) ;;;
  ret (status, None).

(** The page the seam handed back cannot be used. *)
Definition bad_page (page : Z) (m : hk_artifact_mapping) : bool :=
  (page =? 0) || negb (Z.land page 3 =? 0) ||
  (negb (bool_decide (mp_kind m = HK_MAPPING_STATIC_HOOKKIT_SECTION)) &&
   negb (bool_decide (mp_kind m = HK_MAPPING_ANONYMOUS))) ||
  (mp_base m =? 0) || (page <? mp_base m) || (mp_size m <? HK_RELOC_PAGE_BYTES) ||
  (SIZE_MAX - mp_base m <? mp_size m) ||
  (mp_size m - HK_RELOC_PAGE_BYTES <? page - mp_base m).

(** [patch_size], [branch_dest] and [atomic_entry_patch]. *)
Definition entry_form (target replacement overwrite_size page : Z) : Z * Z * bool :=
  if negb (overwrite_size =? 0) then (overwrite_size, 0, false)
  else if hk_arm64_branch_size target page =? 4 then (4, page, true)
  else
    let patch_size := hk_arm64_branch_size target replacement in
    (patch_size, replacement, patch_size =? 4).

(** The two writes into the page: the thunk (unless there is no replacement to
    jump to) and the body; [false] when a branch does not fit. *)
Definition build_page (continuation_only : bool) (page replacement : Z) (body : list Z)
    : M (device X) bool :=
  ok <- (if continuation_only then ret true
         else
           let '(thunk, thunk_len) := hk_arm64_emit_branch page replacement in
           if (thunk_len =? 0) || (HK_RELOC_THUNK_BYTES <? thunk_len) then ret false
           else memcpy_to page (bytes_of_words thunk) ;;; ret true) ;;
  if ok then memcpy_to (u64 (page + HK_RELOC_THUNK_BYTES)) (bytes_of_words body) ;;; ret true
  else ret false.

(** Everything between reading the target and the plan: [captured] is what was
    read of it. *)
Definition reloc_build (target replacement : Z) (continuation_only : bool)
    (expected : bytes_view) (seal : reloc_seal X) (free_page : option (reloc_free X))
    (page : Z) (mapping : hk_artifact_mapping) (patch_size branch_dest : Z) (atomic : bool)
    (captured : list Z) : M world (hk_reloc_status * option hk_reloc_plan) :=
  let fail := reloc_release_and_fail free_page page in
  let body_addr := u64 (page + HK_RELOC_THUNK_BYTES) in
  let displaced := patch_size / 4 in
  if prologue_differs captured expected patch_size then fail HK_RELOC_PRECONDITION_FAILED
  else if hk_arm64_insn_is_trap (first_word captured) then fail HK_RELOC_TRAP_STUB
  else if hk_arm64_has_early_terminator (Some (words_of captured)) (Z.to_nat patch_size)
  then fail HK_RELOC_TARGET_TOO_SHORT
  else
    let '(relocated, n) := hk_arm64_relocate (Some (words_of captured)) target true
                             HK_RELOC_BODY_BYTES in
    if n =? 0 then fail HK_RELOC_UNRELOCATABLE
    else
      let resume := u64 (target + patch_size) in
      let '(back, back_len) := hk_arm64_emit_branch (u64 (body_addr + n)) resume in
      if (back_len =? 0) || (HK_RELOC_BODY_BYTES <? n + back_len) then fail HK_RELOC_UNRELOCATABLE
      else
        built <- on_device (build_page continuation_only page replacement (relocated ++ back)) ;;
        if negb built then fail HK_RELOC_UNRELOCATABLE
        else
          sealed <- on_device (seal page HK_RELOC_PAGE_BYTES) ;;
          if negb sealed then fail HK_RELOC_NO_TRAMPOLINE
          else
            let '(patch, written) :=
              if continuation_only then ([], patch_size)
              else hk_arm64_emit_branch target branch_dest in
            if negb (written =? patch_size) then fail HK_RELOC_INVALID_ARGUMENT
            else
              id <- on_ids hk_id_generate ;;
              let mapping := mapping <| mp_mapping_id := id |>
                                     <| mp_protection := (true, false, true) |> in
              ret (HK_RELOC_OK,
                   Some (RelocPlan target replacement page HK_RELOC_PAGE_BYTES mapping body_addr
                           captured
                           (if continuation_only then replicate (Z.to_nat patch_size) 0
                            else bytes_of_words patch)
                           patch_size displaced atomic true false)).

(** The plan of an accepted target; on a refusal nothing reads it. *)
Definition reloc_prepare (target replacement overwrite_size : Z) (expected : bytes_view)
    (alloc : option (reloc_alloc X)) (seal : option (reloc_seal X))
    (free_page : option (reloc_free X)) : M world (hk_reloc_status * option hk_reloc_plan) :=
  let continuation_only := negb (overwrite_size =? 0) in
  match alloc, seal with
  | Some alloc, Some seal =>
      if (target =? 0) || (negb continuation_only && (replacement =? 0)) ||
         (continuation_only &&
          ((HK_RELOC_MAX_PATCH <? overwrite_size) || negb (Z.land overwrite_size 3 =? 0)))
      then ret (HK_RELOC_INVALID_ARGUMENT, None)
      else if bad_expectation expected HK_RELOC_MAX_PATCH
      then ret (HK_RELOC_INVALID_ARGUMENT, None)
      else if negb (Z.land target 3 =? 0) then ret (HK_RELOC_MISALIGNED, None)
      else
        answer <- on_device (alloc HK_RELOC_PAGE_BYTES target) ;;
        let '(page, mapping) := answer in
        if bad_page page mapping
        then reloc_release_and_fail free_page page HK_RELOC_NO_TRAMPOLINE
        else
          let '(patch_size, branch_dest, atomic) :=
            entry_form target replacement overwrite_size page in
          let displaced := patch_size / 4 in
          if (patch_size =? 0) || (HK_RELOC_MAX_PATCH <? patch_size) ||
             (displaced =? 0) || (HK_RELOC_MAX_DISPLACED <? displaced)
          then reloc_release_and_fail free_page page HK_RELOC_INVALID_ARGUMENT
          else
            d <- gets ew_device ;;
            reloc_build target replacement continuation_only expected seal free_page page mapping
              patch_size branch_dest atomic (bytes_at (d_mem d) target (Z.to_nat patch_size))
  | _, _ => ret (HK_RELOC_INVALID_ARGUMENT, None)
  end.

Definition hk_reloc_prepare (target replacement : Z) :=
  reloc_prepare target replacement 0.
Definition hk_reloc_prepare_continuation (target overwrite_size : Z) :=
  reloc_prepare target 0 overwrite_size.

(** [hk_pac_strip_code] and [hk_pac_sign_key] with the instruction key. *)
Context (strip sign : Z → Z).
Definition hk_pac_make_callable (value : Z) : Z :=
  if value =? 0 then 0 else sign (strip value).

Definition is_static (m : hk_artifact_mapping) : bool :=
  bool_decide (mp_kind m = HK_MAPPING_STATIC_HOOKKIT_SECTION).

Definition hk_reloc_describe_continuation (plan : hk_reloc_plan) : hk_continuation_info :=
  if negb (rl_captured plan) then empty_continuation
  else
    let m := rl_mapping plan in
    ContinuationInfo SIZEOF_CONTINUATION_INFO
      (if is_static m then HK_CONTINUATION_KIND_STATIC else HK_CONTINUATION_KIND_DYNAMIC)
      (hk_pac_make_callable (rl_original_entry plan))
      [u64 (rl_address plan + rl_patch_size plan);
       id_high (mp_mapping_id m); id_low (mp_mapping_id m); hk_mapping_kind_code (mp_kind m);
       mp_base m; mp_size m; 5; Z.b2z (negb (is_static m)); rl_displaced_count plan;
       1; 0; 0; 1].

Definition trampoline_artifact (plan : hk_reloc_plan) : hk_artifact :=
  let m := rl_mapping plan in
  engine_artifact "inline-relocating"
    (if is_static m then HK_ARTIFACT_STATIC_CONTINUATION else HK_ARTIFACT_TRAMPOLINE)
    HK_ARTIFACT_COMMITTED
    (if is_static m then HK_EFFECT_STATIC_CONTINUATION_USE else HK_EFFECT_EXECUTABLE_ALLOCATION)
    no_bytes
    (facts_at (rl_trampoline plan) (rl_trampoline_size plan)
       <| af_continuation_address := hk_pac_make_callable (rl_original_entry plan) |>
       <| af_jump_back_destination := u64 (rl_address plan + rl_patch_size plan) |>
       <| af_mapping := m |> <| af_current_protection := (true, false, true) |>).

Definition entry_artifact (plan : hk_reloc_plan) (m : hk_mutation_state) : hk_artifact :=
  engine_artifact "inline-relocating" HK_ARTIFACT_TARGET_TEXT_PATCH (applied_state m)
    HK_EFFECT_TARGET_TEXT_MUTATION (inline_bytes (rl_original plan))
    (facts_at (rl_address plan) (rl_patch_size plan)
       <| af_original_pointer := hk_pac_make_callable (rl_original_entry plan) |>
       <| af_replacement_pointer := rl_replacement plan |>
       <| af_mechanically_reversible := true |>
       <| af_safe_to_reverse_after_activation := bool_decide (m = HK_MUTATION_COMPLETE) |>).

(** The mutation state, the records for the sink and the plan as it is left. *)
Definition hk_reloc_commit (plan : hk_reloc_plan) (write : option (writer X))
    (free_page : option (reloc_free X)) (sink : bool)
    : M (device X) (hk_mutation_state * list hk_artifact * hk_reloc_plan) :=
  if rl_activated plan then ret (HK_MUTATION_UNKNOWN, [], plan)
  else
    match write with
    | None => ret (HK_MUTATION_NONE, [], plan)
    | Some write =>
        if negb (rl_captured plan) || (rl_address plan =? 0) || (rl_patch_size plan =? 0) ||
           (HK_RELOC_MAX_PATCH <? rl_patch_size plan)
        then ret (HK_MUTATION_NONE, [], plan)
        else
          mutation <- guarded_write write (rl_address plan) (rl_original plan) (rl_patch plan) ;;
          if bool_decide (mutation = HK_MUTATION_NONE) then
            match free_page with
            | Some free_page =>
                if rl_trampoline plan =? 0 then ret (HK_MUTATION_NONE, [], plan)
                else
                  free_page (rl_trampoline plan) (rl_trampoline_size plan) ;;;
                  ret (HK_MUTATION_NONE, [],
                       plan <| rl_captured := false |> <| rl_trampoline := 0 |>
                            <| rl_trampoline_size := 0 |> <| rl_original_entry := 0 |>
                            <| rl_mapping := zero_mapping |>)
            | None =>
                ret (HK_MUTATION_NONE,
                     if sink && negb (rl_trampoline plan =? 0) then [trampoline_artifact plan] else [],
                     plan)
            end
          else
            let mutation := reported_mutation mutation in
            ret (mutation,
                 if sink then [trampoline_artifact plan; entry_artifact plan mutation] else [],
                 plan <| rl_activated := true |>)
    end.
End Engine.

(** ** The adapter *)

Record hk_reloc_engine_ctx {X : Type} : Type := RelocEngineCtx {
  rc_alloc : option (reloc_alloc X);
  rc_seal : option (reloc_seal X);
  rc_free_page : option (reloc_free X);
  rc_write : option (writer X);
  rc_catalog : option hk_image_catalog;
  rc_allow_non_atomic_entry_patch : bool }.
Arguments hk_reloc_engine_ctx : clear implicits.
Arguments RelocEngineCtx {X} _ _ _ _ _ _.

Definition HK_RELOC_DIAG_IMAGE_SCOPE_BASE : Z := 100.
Definition HK_RELOC_DIAG_NON_ATOMIC_PATCH : Z := 200.

Definition reloc_describe : hk_engine_capabilities :=
  builtin_capabilities "inline-relocating" HK_TARGET_FUNCTION_ADDRESS HK_REACH_ENTRYPOINT
    HK_ORIGINAL_REQ_ALL
    (Z.lor HK_EFFECT_EXECUTABLE_ALLOCATION HK_EFFECT_STATIC_CONTINUATION_USE)
    (Z.lor (Z.lor HK_EFFECT_TARGET_TEXT_MUTATION HK_EFFECT_EXECUTABLE_ALLOCATION)
       HK_EFFECT_STATIC_CONTINUATION_USE).

Definition static_describe : hk_engine_capabilities :=
  builtin_capabilities "inline-static" HK_TARGET_FUNCTION_ADDRESS HK_REACH_ENTRYPOINT
    HK_ORIGINAL_REQ_ALL HK_EFFECT_STATIC_CONTINUATION_USE
    (Z.lor HK_EFFECT_TARGET_TEXT_MUTATION HK_EFFECT_STATIC_CONTINUATION_USE).

Definition reloc_classify (st : hk_reloc_status) : hk_prepare_result * hk_prepare_diag :=
  let failed message := (HK_PREPARE_FAILED, refused_with (hk_reloc_status_code st) message) in
  match st with
  | HK_RELOC_OK => (HK_PREPARE_OK, no_prepare_diag)
  | HK_RELOC_MISALIGNED =>
      failed "target is not 4-byte aligned, so it is not an A64 entry point"
  | HK_RELOC_TARGET_TOO_SHORT =>
      failed "a displaced instruction ends the function; the relocated copy would never reach the jump back"
  | HK_RELOC_TRAP_STUB =>
      failed "entry is a trap stub (BRK/HLT/UDF); there is no original to preserve"
  | HK_RELOC_PRECONDITION_FAILED =>
      failed "prologue does not match the bytes the request pinned"
  | HK_RELOC_UNRELOCATABLE =>
      failed "a displaced instruction cannot be rewritten to run from a new address"
  | HK_RELOC_NO_TRAMPOLINE =>
      failed "could not obtain or seal an executable page for the trampoline"
  | HK_RELOC_INVALID_ARGUMENT => failed "invalid relocating-inline target"
  end.

Section Adapter.
Context {X : Type}.
Context (ctx_at : Z → option (hk_reloc_engine_ctx X)).
Context (image_span : hk_image_entry → option (Z * Z)).
Context (strip sign : Z → Z).
Local Abbreviation world := (engine_world X hk_reloc_plan).

Definition free_trampoline (ctx : hk_reloc_engine_ctx X) (plan : hk_reloc_plan) : M world unit :=
  match rc_free_page ctx with
  | Some free_page =>
      when (negb (rl_trampoline plan =? 0))
        (on_device (free_page (rl_trampoline plan) (rl_trampoline_size plan)))
  | None => ret tt
  end.

Definition reloc_prepare_one_ctx_status (engine_ctx : Z) (spec : hk_hook_spec)
    : M world (hk_prepare_result * Z * hk_prepare_diag) :=
  let failed diag := ret (HK_PREPARE_FAILED, 0, diag) in
  match ctx_at engine_ctx, hs_target spec with
  | Some ctx, TAddress addr =>
      let scope := address_scope image_span strip (rc_catalog ctx) addr in
      if scope_refuses scope then
        failed (refused_with (HK_RELOC_DIAG_IMAGE_SCOPE_BASE + scope_code scope)
                  (hk_image_scope_describe scope))
      else
        p <- malloc_object ;;
        if p =? 0 then failed (refused_with 0 "out of memory")
        else
          answer <- hk_reloc_prepare (entry_address strip addr) (strip (hs_replacement spec))
                      (ad_expected_initial_bytes addr)
                      (rc_alloc ctx) (rc_seal ctx) (rc_free_page ctx) ;;
          let '(st, plan) := answer in
          let '(result, diag) := reloc_classify st in
          match result, plan with
          | HK_PREPARE_OK, Some plan =>
              if negb (rl_atomic_entry_patch plan) && negb (rc_allow_non_atomic_entry_patch ctx)
              then
                free_trampoline ctx plan ;;;
                failed (refused_with HK_RELOC_DIAG_NON_ATOMIC_PATCH non_atomic_message)
              else
                put_object p (plan <| rl_replacement := hs_replacement spec |>) ;;;
                ret (HK_PREPARE_OK, p,
                     diag <| pd_observed_effects :=
                       if is_static (rl_mapping plan) then HK_EFFECT_STATIC_CONTINUATION_USE
                       else HK_EFFECT_EXECUTABLE_ALLOCATION |>)
          | _, _ => ret (result, 0, diag)
          end
  | _, _ =>
      failed (refused_with 0
                "relocating inline engine invoked without seams or with a non-address target")
  end.

Definition reloc_inspect_continuation (engine_ctx : Z) (spec : hk_hook_spec) (prepared : Z)
    : M world (hk_verify_result * hk_continuation_info * hk_verify_diag) :=
  object <- get_object prepared ;;
  match ctx_at engine_ctx, object, hs_target spec with
  | Some _, Some plan, TAddress _ =>
      ret (HK_VERIFY_OK, hk_reloc_describe_continuation strip sign plan, no_verify_diag)
  | _, _, _ =>
      ret (HK_VERIFY_FAILED, zero_continuation,
           VerifyDiag (hk_status_code HK_STATUS_INVALID_ARGUMENT)
             (Some "relocating-inline continuation inspection received invalid state"))
  end.

Definition reloc_commit_one_ctx (engine_ctx : Z) (spec : hk_hook_spec) (prepared : Z)
    (sink : hk_artifact_sink) : M world commit_reply :=
  object <- get_object prepared ;;
  match ctx_at engine_ctx, object with
  | Some ctx, Some plan =>
      reply <- on_device (hk_reloc_commit strip sign plan (rc_write ctx) (rc_free_page ctx) true) ;;
      let '(state, artifacts, plan) := reply in
      put_object prepared plan ;;;
      ret (CommitReply artifacts
             (if bool_decide (state = HK_MUTATION_COMPLETE)
              then Some (hk_pac_make_callable strip sign (rl_original_entry plan)) else None)
             (Some (hk_reloc_describe_continuation strip sign plan)) state)
  | _, _ => ret (CommitReply [] None None HK_MUTATION_NONE)
  end.

Definition reloc_verify_one_ctx (engine_ctx : Z) (spec : hk_hook_spec) (prepared : Z)
    : M world (hk_verify_result * hk_verify_diag) :=
  object <- get_object prepared ;;
  match object with
  | Some plan =>
      d <- gets ew_device ;;
      if still_holds (d_mem d) (rl_address plan) (rl_patch plan)
      then ret (HK_VERIFY_OK, no_verify_diag)
      else ret (HK_VERIFY_FAILED,
                VerifyDiag 0 (Some "relocating-inline readback does not match the emitted branch"))
  | None =>
      ret (HK_VERIFY_FAILED,
           VerifyDiag 0 (Some "relocating-inline verification received no prepared plan"))
  end.

Definition reloc_release_prepared (engine_ctx prepared : Z) : M world unit :=
  object <- get_object prepared ;;
  (match ctx_at engine_ctx, object with
   | Some ctx, Some plan => when (negb (rl_activated plan)) (free_trampoline ctx plan)
   | _, _ => ret tt
   end) ;;;
  free_object prepared.

(** One set of callbacks behind two descriptions. *)
Definition reloc_vtable (describe : hk_engine_capabilities) (address struct_size : Z)
    : hk_engine_vtable world :=
  Vtable world address 1 struct_size describe None None None None None None
    (Some reloc_commit_one_ctx) (Some reloc_release_prepared) (Some reloc_verify_one_ctx)
    (Some reloc_prepare_one_ctx_status) None None None None None (Some reloc_inspect_continuation).

Definition hk_reloc_inline_vtable := reloc_vtable reloc_describe.
Definition hk_static_inline_vtable := reloc_vtable static_describe.
End Adapter.
