(* ===== verification/RelocSpec.v ===== *)
(** * What the relocating engine promises

    The page it builds replays the displaced prologue and jumps back; the entry
    it patches leads to the replacement; until the entry may have been
    published the page goes back where it came from. *)

From stdpp Require Import base list strings gmap numbers option.
From S2P Require Import Prelude Types ImageCatalog Artifacts Engine Memory Arm64 Device PatchCode EngineWorld MemoryEngine InlineEngine RelocEngine.
Import Enc Reloc Isa.

(** The seams touch nothing but the page they hand out, seal or take back, and
    sealing changes protections, not bytes. *)
Record page_contract {X} (alloc : reloc_alloc X) (seal : reloc_seal X) : Prop := {
  pc_words : ∀ size near d, let r := alloc size near d in is_u64 r.1.1 ∧ is_u64 (mp_base r.1.2);
  pc_alloc : ∀ size near d x, let r := alloc size near d in
    ¬ r.1.1 <= x < r.1.1 + size → d_mem r.2 x = d_mem d x;
  pc_seal : ∀ page size d, d_mem (seal page size d).2 = d_mem d }.

(** What a successful preparation has read, written and left alone. *)
Record reloc_prepared (mem mem' : Z → Z) (target replacement overwrite_size : Z)
    (plan : hk_reloc_plan) : Prop := {
  rp_address : rl_address plan = target;
  rp_nonzero : target ≠ 0;
  rp_aligned : target mod 4 = 0;
  rp_displaced : 1 <= rl_displaced_count plan <= HK_RELOC_MAX_DISPLACED;
  rp_size : rl_patch_size plan = 4 * rl_displaced_count plan;
  rp_captured : rl_captured plan = true;
  rp_inactive : rl_activated plan = false;
  rp_trampoline_size : rl_trampoline_size plan = HK_RELOC_PAGE_BYTES;
  rp_page : 0 < rl_trampoline plan ∧ rl_trampoline plan + HK_RELOC_PAGE_BYTES < 2 ^ 64;
  rp_page_aligned : rl_trampoline plan mod 4 = 0;
  rp_entry : rl_original_entry plan = rl_trampoline plan + HK_RELOC_THUNK_BYTES;
  rp_original : rl_original plan = bytes_at mem target (Z.to_nat (rl_patch_size plan));
  rp_trap : hk_arm64_insn_is_trap (word_at mem target) = false;
  rp_no_end : ∀ i, 4 * Z.of_nat i < rl_patch_size plan →
    ends_function (word_at mem (target + 4 * Z.of_nat i)) = false;
  rp_frame : ∀ x,
    ¬ rl_trampoline plan <= x < rl_trampoline plan + HK_RELOC_PAGE_BYTES → mem' x = mem x;
  rp_body : ∃ relocated n,
    hk_arm64_relocate (Some (words_of (rl_original plan))) target true HK_RELOC_BODY_BYTES =
      (relocated, n) ∧ n ≠ 0 ∧
    let back := (hk_arm64_emit_branch (rl_original_entry plan + n)
                   (u64 (target + rl_patch_size plan))).1 in
    n + 4 * Z.of_nat (length back) <= HK_RELOC_BODY_BYTES ∧
    bytes_at mem' (rl_original_entry plan) (4 * length (relocated ++ back)) =
      bytes_of_words (relocated ++ back);
  rp_thunk : overwrite_size = 0 →
    let thunk := (hk_arm64_emit_branch (rl_trampoline plan) replacement).1 in
    bytes_at mem' (rl_trampoline plan) (4 * length thunk) = bytes_of_words thunk;
  rp_patch : if decide (overwrite_size = 0) then
    ∃ dest, (dest = rl_trampoline plan ∨ dest = replacement) ∧
      rl_patch_size plan = hk_arm64_branch_size target dest ∧
      rl_patch plan = bytes_of_words (hk_arm64_emit_branch target dest).1 ∧
      rl_atomic_entry_patch plan = (rl_patch_size plan =? 4)
    else rl_patch_size plan = overwrite_size }.

Lemma reloc_sizes : HK_RELOC_THUNK_BYTES = 16 ∧ HK_RELOC_BODY_BYTES = 112 ∧
  HK_RELOC_PAGE_BYTES = 128 ∧ HK_RELOC_MAX_PATCH = 16 ∧ HK_RELOC_MAX_DISPLACED = 4.
Proof. done. Qed.

(** Linear arithmetic over the layout of the page. *)
Ltac page_lia := pose proof reloc_sizes; unfold is_u64 in *; lia.

Lemma store_bytes_other mem a l b n :
  a + Z.of_nat (length l) <= b ∨ b + Z.of_nat n <= a → bytes_at (store a l mem) b n = bytes_at mem b n.
Proof. intros H. apply bytes_at_ext. intros x Hx. apply store_outside. lia. Qed.

Section Prepare.
Context {X : Type}.
Local Abbreviation world := (engine_world X hk_reloc_plan).
Local Abbreviation memory_of w := (d_mem (ew_device w)).

Lemma release_and_fail_status (free_page : option (reloc_free X)) page st (w : world) :
  (reloc_release_and_fail free_page page st w).1 = (st, None).
Proof.
  unfold reloc_release_and_fail, bind. destruct free_page as [f|]; [|done].
  by destruct (when _ _ w).
Qed.

(** A refusal is not an acceptance. *)
Ltac refused :=
  let H := fresh in
  intros H; exfalso; apply (f_equal fst) in H; rewrite release_and_fail_status in H; discriminate H.

(** A usable page, as numbers. *)
Lemma bad_page_false page m :
  bad_page page m = false → is_u64 page → is_u64 (mp_base m) →
  0 < page ∧ page mod 4 = 0 ∧ page + HK_RELOC_PAGE_BYTES < 2 ^ 64.
Proof.
  unfold bad_page, is_u64, SIZE_MAX. intros H Hp Hb.
  apply orb_false_iff in H as [H H8]. apply orb_false_iff in H as [H H7].
  apply orb_false_iff in H as [H H6]. apply orb_false_iff in H as [H H5].
  apply orb_false_iff in H as [H H4]. apply orb_false_iff in H as [H H3].
  apply orb_false_iff in H as [H1 H2]. apply negb_false_iff, Z.eqb_eq, land3_aligned in H2. lia.
Qed.

(** The memory [build_page] leaves. *)
Definition page_built (continuation_only : bool) (page replacement : Z) (body : list Z)
    (mem : Z → Z) : Z → Z :=
  store (u64 (page + HK_RELOC_THUNK_BYTES)) (bytes_of_words body)
    (if continuation_only then mem
     else store page (bytes_of_words (hk_arm64_emit_branch page replacement).1) mem).

Lemma build_page_spec continuation_only page replacement body (d : device X) :
  let r := build_page continuation_only page replacement body d in
  r.1 = true ∧ d_mem r.2 = page_built continuation_only page replacement body (d_mem d).
Proof.
  unfold build_page, page_built, bind, memcpy_to, modify, ret, set_field.
  destruct continuation_only; [done|].
  destruct (hk_arm64_emit_branch page replacement) as [ws n] eqn:E.
  destruct (emit_branch_length _ _ _ _ E) as (_ & _ & [-> | ->]); done.
Qed.

Lemma reloc_build_spec target replacement continuation_only expected seal free_page page mapping
    patch_size dest atomic captured (w : world) plan w' :
  (∀ page size d, d_mem (seal page size d).2 = d_mem d) →
  reloc_build target replacement continuation_only expected seal free_page page mapping
    patch_size dest atomic captured w = ((HK_RELOC_OK, plan), w') →
  prologue_differs captured expected patch_size = false ∧
  hk_arm64_insn_is_trap (first_word captured) = false ∧
  hk_arm64_has_early_terminator (Some (words_of captured)) (Z.to_nat patch_size) = false ∧
  ∃ relocated n back m,
    hk_arm64_relocate (Some (words_of captured)) target true HK_RELOC_BODY_BYTES = (relocated, n) ∧
    n ≠ 0 ∧
    back = (hk_arm64_emit_branch (u64 (u64 (page + HK_RELOC_THUNK_BYTES) + n))
              (u64 (target + patch_size))).1 ∧
    n + 4 * Z.of_nat (length back) <= HK_RELOC_BODY_BYTES ∧
    memory_of w' = page_built continuation_only page replacement (relocated ++ back) (memory_of w) ∧
    (continuation_only = false → (hk_arm64_emit_branch target dest).2 = patch_size) ∧
    mp_kind m = mp_kind mapping ∧
    plan = Some (RelocPlan target replacement page HK_RELOC_PAGE_BYTES m
                   (u64 (page + HK_RELOC_THUNK_BYTES)) captured
                   (if continuation_only then replicate (Z.to_nat patch_size) 0
                    else bytes_of_words (hk_arm64_emit_branch target dest).1)
                   patch_size (patch_size / 4) atomic true false).
Proof.
  intros Hseal. unfold reloc_build. cbv zeta.
  destruct (prologue_differs _ _ _); [refused|].
  destruct (hk_arm64_insn_is_trap _); [refused|].
  destruct (hk_arm64_has_early_terminator _ _); [refused|].
  destruct (hk_arm64_relocate _ _ _ _) as [relocated n] eqn:Er.
  destruct (Z.eqb_spec n 0) as [|Hn]; [refused|].
  destruct (hk_arm64_emit_branch (u64 (_ + n)) _) as [back back_len] eqn:Eb.
  destruct (emit_branch_length _ _ _ _ Eb) as (_ & Hbl & _).
  destruct (back_len =? 0) eqn:E0; cbn [orb]; [refused|].
  destruct (Z.ltb_spec HK_RELOC_BODY_BYTES (n + back_len)) as [|Hfit]; [refused|].
  unfold bind at 1, on_device, zoom.
  destruct (build_page_spec continuation_only page replacement (relocated ++ back) (ew_device w)) as [Hok Hmem].
  destruct (build_page _ _ _ _ _) as [built d1]. simpl in Hok, Hmem. subst built. simpl (negb true).
  unfold bind at 1. simpl (ew_device _).
  specialize (Hseal page HK_RELOC_PAGE_BYTES d1).
  destruct (seal page HK_RELOC_PAGE_BYTES d1) as [sealed d2]. simpl in Hseal.
  destruct sealed; simpl (negb _); [|refused].
  destruct (if continuation_only then _ else _) as [patch written] eqn:Ep.
  destruct (Z.eqb_spec written patch_size) as [Hw|]; simpl (negb _); [|refused].
  unfold bind, on_ids, zoom. destruct (hk_id_generate _) as [id ids'].
  unfold ret. intros [= <- <-]. simpl.
  do 3 (split; [done|]). exists relocated, n, back,
    (mapping <| mp_mapping_id := id |> <| mp_protection := (true, false, true) |>). do 2 (split; [done|]).
  split; [by rewrite Eb|]. split; [lia|]. split; [by rewrite Hseal|].
  split; [intros ->; by rewrite Ep|].
  destruct continuation_only; [done|by rewrite Ep].
Qed.

Lemma entry_form_spec target replacement overwrite_size page patch_size dest atomic :
  entry_form target replacement overwrite_size page = (patch_size, dest, atomic) →
  if decide (overwrite_size = 0) then
    (dest = page ∨ dest = replacement) ∧ patch_size = hk_arm64_branch_size target dest ∧
    atomic = (patch_size =? 4)
  else patch_size = overwrite_size.
Proof.
  unfold entry_form. destruct (decide (overwrite_size = 0)) as [->|Hne].
  - rewrite Z.eqb_refl. simpl. destruct (Z.eqb_spec (hk_arm64_branch_size target page) 4) as [E|].
    + intros [= <- <- <-]. rewrite E. auto.
    + intros [= <- <- <-]. auto.
  - rewrite (proj2 (Z.eqb_neq _ _) Hne). by intros [= <- _ _].
Qed.

Lemma branch_size_cases a b : hk_arm64_branch_size a b = 4 ∨ hk_arm64_branch_size a b = 16.
Proof. unfold hk_arm64_branch_size. destruct (_ && _); auto. Qed.

(** The page lies apart from the code it is built for. *)
Definition apart (page target : Z) : Prop :=
  page + HK_RELOC_PAGE_BYTES <= target ∨ target + HK_RELOC_MAX_PATCH <= page.

Lemma page_built_frame continuation_only page replacement relocated back n mem x :
  0 < page → page + HK_RELOC_PAGE_BYTES < 2 ^ 64 →
  n = 4 * Z.of_nat (length relocated) → n + 4 * Z.of_nat (length back) <= HK_RELOC_BODY_BYTES →
  ¬ page <= x < page + HK_RELOC_PAGE_BYTES →
  page_built continuation_only page replacement (relocated ++ back) mem x = mem x.
Proof.
  unfold page_built. intros Hp Hb -> Hfit Hx. rewrite u64_small by page_lia.
  rewrite store_outside by (rewrite length_bytes_of_words, length_app; page_lia).
  destruct continuation_only; [done|]. destruct (hk_arm64_emit_branch page replacement) as [ws k] eqn:E.
  destruct (emit_branch_length _ _ _ _ E) as (_ & Hk & Hc). simpl.
  rewrite store_outside; [done|]. rewrite length_bytes_of_words. page_lia.
Qed.

Lemma page_built_body continuation_only page replacement body mem :
  0 < page → page + HK_RELOC_PAGE_BYTES < 2 ^ 64 →
  bytes_at (page_built continuation_only page replacement body mem) (page + HK_RELOC_THUNK_BYTES)
    (4 * length body) = bytes_of_words body.
Proof.
  intros Hp Hb. unfold page_built.
  rewrite u64_small by page_lia.
  rewrite <- length_bytes_of_words. apply bytes_at_store.
Qed.

Lemma page_built_thunk page replacement body mem :
  0 < page → page + HK_RELOC_PAGE_BYTES < 2 ^ 64 →
  let thunk := (hk_arm64_emit_branch page replacement).1 in
  bytes_at (page_built false page replacement body mem) page (4 * length thunk) =
    bytes_of_words thunk.
Proof.
  intros Hp Hb thunk. unfold page_built.
  rewrite u64_small by page_lia.
  rewrite store_bytes_other.
  - rewrite <- length_bytes_of_words. apply bytes_at_store.
  - right. unfold thunk. destruct (hk_arm64_emit_branch page replacement) as [ws k] eqn:E.
    destruct (emit_branch_length _ _ _ _ E) as (_ & Hk & Hc). simpl in *. page_lia.
Qed.

Lemma reloc_prepare_spec target replacement overwrite_size expected alloc seal free_page
    (w : world) plan w' :
  page_contract alloc seal → 0 <= overwrite_size →
  reloc_prepare target replacement overwrite_size expected (Some alloc) (Some seal) free_page w =
    ((HK_RELOC_OK, plan), w') →
  ∃ pl, plan = Some pl ∧
    (apart (rl_trampoline pl) target →
     reloc_prepared (memory_of w) (memory_of w') target replacement overwrite_size pl ∧
     pinned (rl_original pl) expected).
Proof.
  intros [Hwords Halloc Hseal] Hov. unfold reloc_prepare.
  destruct (Z.eqb_spec target 0) as [|Ht0]; cbn [orb]; [intros H; discriminate H|].
  destruct (_ || _) eqn:Earg; [intros H; discriminate H|].
  destruct (bad_expectation _ _); [intros H; discriminate H|].
  destruct (Z.eqb_spec (Z.land target 3) 0) as [Hal|]; [|intros H; discriminate H]. cbn [negb].
  unfold bind at 1, on_device, zoom.
  specialize (Hwords HK_RELOC_PAGE_BYTES target (ew_device w)).
  specialize (Halloc HK_RELOC_PAGE_BYTES target (ew_device w)).
  destruct (alloc HK_RELOC_PAGE_BYTES target (ew_device w)) as [[page mapping] d1].
  simpl in Hwords, Halloc. destruct (bad_page page mapping) eqn:Ebad; [refused|].
  destruct Hwords as [Hwp Hwb]. destruct (bad_page_false _ _ Ebad Hwp Hwb) as (Hp & Hpal & Hpend).
  destruct (entry_form _ _ _ _) as [[patch_size dest] atomic] eqn:Eform. cbv zeta.
  pose proof (entry_form_spec _ _ _ _ _ _ _ Eform) as Hform.
  assert (Hcases : 1 <= patch_size / 4 <= 4 ∧ patch_size = 4 * (patch_size / 4)).
  { destruct (decide (overwrite_size = 0)) as [->|Hne].
    - destruct Hform as (_ & -> & _). destruct (branch_size_cases target dest) as [-> | ->]; done.
    - subst patch_size. rewrite (proj2 (Z.eqb_neq _ _) Hne) in Earg.
      apply orb_false_iff in Earg as [_ Earg]. cbn [negb andb] in Earg.
      apply orb_false_iff in Earg as [E16 Ea]. apply negb_false_iff, Z.eqb_eq, land3_aligned in Ea.
      apply Z.ltb_ge in E16. pose proof (Z.div_mod overwrite_size 4 ltac:(lia)). page_lia. }
  destruct (_ || _) eqn:Esz in |- *; [refused|].
  destruct Hcases as [Hd Hps].
  unfold bind, gets. simpl (ew_device _). intros H.
  apply reloc_build_spec in H as (Epro & Etrap & Eterm & relocated & n & back & m & Hrel & Hn &
    Hback & Hfit & Hmem & Hwritten & _ & ->); [|done].
  simpl (memory_of _) in Hmem. eexists. split; [done|].
  cbn [rl_trampoline rl_original]. intros Hapart.
  assert (Hcap : bytes_at (d_mem d1) target (Z.to_nat patch_size) =
                 bytes_at (memory_of w) target (Z.to_nat patch_size)).
  { apply bytes_at_ext. intros x Hx. apply Halloc. unfold apart in Hapart. page_lia. }
  rewrite Hcap in *.
  set (k := Z.to_nat (patch_size / 4)). assert (Hk : Z.to_nat patch_size = (4 * k)%nat) by lia.
  pose proof Hrel as Hrel'. apply relocate_accepts in Hrel' as (Hlen & _ & _); [|done].
  rewrite (u64_small (page + _)) in * by page_lia.
  assert (Hbl : 0 <= n) by lia. rewrite (u64_small (page + _ + n)) in Hback by page_lia.
  split.
  2: { apply prologue_pinned. rewrite length_bytes_at. by replace (Z.of_nat (Z.to_nat patch_size)) with patch_size by lia. }
  split; simpl; try done; try page_lia.
  - by apply land3_aligned.
  - unfold first_word in Etrap. rewrite Hk, lookup_words_of_memory in Etrap by lia. simpl in Etrap.
    by rewrite Z.add_0_r in Etrap.
  - intros i Hi. rewrite Hk in Eterm. apply (no_early_terminator _ _ Eterm i); [lia|].
    apply lookup_words_of_memory. lia.
  - intros x Hx. rewrite Hmem, (page_built_frame _ _ _ _ _ n); try done. by apply Halloc.
  - exists relocated, n. split; [done|]. split; [done|]. rewrite <- Hback. split; [done|].
    rewrite Hmem. by apply page_built_body.
  - intros ->. rewrite Hmem. by apply page_built_thunk.
  - destruct (decide (overwrite_size = 0)) as [->|]; [|done]. destruct Hform as (Hd' & Hs & Ha).
    exists dest. by split_and!.
Qed.
End Prepare.

Section Machine.
Context {R : Type}.
Context (cond_holds : Z → R → bool) (simd_load : Z → Z → Z → (Z → Z) → R → R).
Context (exec_other : Z → mstate R → option (mstate R)).
Local Abbreviation arrives := (arrives cond_holds simd_load exec_other).
Local Abbreviation replays := (replays cond_holds simd_load exec_other).
Context (mem mem' : Z → Z) (target replacement overwrite_size : Z) (plan : hk_reloc_plan).
Context (Hprep : reloc_prepared mem mem' target replacement overwrite_size plan).
Context (Htarget : is_u64 target) (Hpage : rl_trampoline plan + 4096 <= 2 ^ 64).

(** Memory later on, with the page as it was left. *)
Context (now : Z → Z).
Context (Hnow : ∀ x, rl_trampoline plan <= x < rl_trampoline plan + HK_RELOC_PAGE_BYTES →
  now x = mem' x).

Lemma page_bytes_now a n l :
  rl_trampoline plan <= a → a + Z.of_nat n <= rl_trampoline plan + HK_RELOC_PAGE_BYTES →
  bytes_at mem' a n = l → bytes_at now a n = l.
Proof. intros Ha Hn <-. apply bytes_at_ext. intros x Hx. apply Hnow. lia. Qed.

Lemma fetches_part a n b m s : a <= b → b + m <= a + n → fetches (R:=R) now a n s → fetches now b m s.
Proof. intros Hb Hm H x Hx. apply H. lia. Qed.

(** The continuation: the displaced prologue, then the rest of the function. *)
Lemma prepared_replays : byte_memory mem →
  ∃ off, off 0%nat = 0 ∧ ∀ s, fetches now (rl_trampoline plan) HK_RELOC_PAGE_BYTES s →
    replays (words_of (rl_original plan)) target (rl_original_entry plan) off s ∧
    ∃ s', arrives (u64 (target + rl_patch_size plan))
            (goto (rl_original_entry plan + off (Z.to_nat (rl_displaced_count plan))) s) s'.
Proof.
  intros Hbytes. destruct Hprep as [_ _ Hal Hd Hs _ _ _ [Hp Hpend] Hpal He Ho _ _ _ Hbody _ _].
  destruct Hbody as (relocated & n & Hrel & Hn & Hfit & Hb).
  set (back := (hk_arm64_emit_branch (rl_original_entry plan + n) _).1) in *.
  set (k := Z.to_nat (rl_displaced_count plan)).
  assert (Hk : Z.to_nat (rl_patch_size plan) = (4 * k)%nat) by lia.
  assert (Hu : Forall is_u32 (words_of (rl_original plan))).
  { rewrite Ho, Hk, words_of_memory. apply Forall_fmap, Forall_true. intros i. by apply word_at_u32. }
  assert (Hlenw : length (words_of (rl_original plan)) = k).
  { by rewrite Ho, Hk, words_of_memory, length_fmap, length_seq. }
  pose proof (relocate_accepts _ _ _ _ _ Hrel Hn) as (Hlen & _ & _).
  apply page_bytes_now in Hb; [|page_lia|rewrite length_app; page_lia].
  destruct (relocated_window_replays cond_holds simd_load exec_other now target _ _ relocated n
              (rl_original_entry plan) back Hu Hrel Hn) as (_ & off & H0 & Hend & _ & Hreplay);
    [page_lia|page_lia|apply emit_branch_words|exact Hb|].
  exists off. split; [done|]. intros s Hf. split.
  { apply (Hreplay HK_RELOC_BODY_BYTES); [page_lia|]. eapply fetches_part; [| |exact Hf]; page_lia. }
  rewrite Hlenw in Hend. rewrite Hend.
  apply bytes_of_words_second in Hb. rewrite <- Hlen in Hb.
  apply (stored_branch_arrives _ _ _ now (rl_original_entry plan + n) _ (HK_RELOC_BODY_BYTES - n)).
  - page_lia.
  - page_lia.
  - apply u64_range.
  - rewrite He, Hlen. replace (_ + _ + _) with (rl_trampoline plan + (4 + Z.of_nat (length relocated)) * 4) by page_lia.
    by rewrite Z.mod_add.
  - unfold u64. rewrite Hs, Z.mod_mod_divide by by exists (2 ^ 62).
    replace (target + 4 * rl_displaced_count plan) with (target + rl_displaced_count plan * 4) by lia.
    by rewrite Z.mod_add.
  - exact Hb.
  - fold back. lia.
  - eapply fetches_part; [| |exact Hf]; page_lia.
  - done.
Qed.

(** The patched entry: to the replacement, through the thunk or not. *)
Lemma prepared_entry_arrives s : overwrite_size = 0 →
  is_u64 replacement → replacement mod 4 = 0 → target + 16 <= 2 ^ 64 →
  bytes_at now target (Z.to_nat (rl_patch_size plan)) = rl_patch plan →
  fetches now target (rl_patch_size plan) s →
  fetches now (rl_trampoline plan) HK_RELOC_PAGE_BYTES s → ms_pc s = target →
  ∃ s', arrives replacement s s'.
Proof.
  intros -> Hru Hrm Htend Hpatch Hft Hfp Hpc.
  destruct Hprep as [_ _ Hal Hd Hs _ _ _ [Hp Hpend] Hpal He Ho _ _ _ _ Hthunk Hform].
  destruct (decide (0 = 0)) as [_|]; [|done]. destruct Hform as (dest & Hdest & Hsize & Hpa & _).
  specialize (Hthunk eq_refl).
  assert (Hlen : Z.to_nat (rl_patch_size plan) = (4 * length (hk_arm64_emit_branch target dest).1)%nat).
  { destruct (hk_arm64_emit_branch target dest) as [ws n] eqn:E.
    destruct (emit_branch_length _ _ _ _ E) as (H1 & H2 & _). simpl. lia. }
  assert (Hdu : is_u64 dest ∧ dest mod 4 = 0) by (destruct Hdest as [-> | ->]; [split; page_lia|done]).
  destruct Hdu as [Hdu Hdm].
  destruct (stored_branch_arrives cond_holds simd_load exec_other now target dest (rl_patch_size plan) s)
    as [s1 H1]; try done; [by rewrite <- Hlen, Hpatch|lia|].
  destruct Hdest as [-> | ->]; [|by exists s1].
  set (thunk := (hk_arm64_emit_branch (rl_trampoline plan) replacement).1) in *.
  assert (Htl : 4 * Z.of_nat (length thunk) <= 16).
  { unfold thunk. destruct (hk_arm64_emit_branch _ replacement) as [ws n] eqn:E.
    destruct (emit_branch_length _ _ _ _ E) as (_ & H2 & Hc). simpl. lia. }
  destruct (stored_branch_arrives cond_holds simd_load exec_other now (rl_trampoline plan) replacement 16 s1)
    as [s2 H2]; try done; try page_lia.
  - fold thunk. apply page_bytes_now; [page_lia|page_lia|done].
  - destruct H1 as (_ & _ & Hm & _). intros x Hx. rewrite Hm. apply Hfp. page_lia.
  - apply H1.
  - exists s2. by eapply arrives_trans.
Qed.
End Machine.

(** C14.  A prepared trampoline is the original function.  Preparation (of a hook,
    or of a bare continuation over a given window) writes nothing outside the
    page it was handed; it accepts only a pinned prologue none of whose
    displaced instructions is a trap at the entry or ends the function.  From
    then on, wherever memory stands later and as long as the page is as it was
    left, the code at [original_entry] has, instruction by instruction and from
    any state, the effect of the displaced instructions at their old addresses
    (same memory and flags, same registers but x16/x17, going on where they
    went), and past the last of them it arrives at the first instruction the
    patch does not cover. *)
Theorem reloc_original_replays {X R} (cond_holds : Z → R → bool)
    (simd_load : Z → Z → Z → (Z → Z) → R → R) (exec_other : Z → mstate R → option (mstate R))
    target replacement overwrite_size expected alloc seal free_page
    (w : engine_world X hk_reloc_plan) plan w' :
  page_contract alloc seal → 0 <= overwrite_size →
  byte_memory (d_mem (ew_device w)) →
  reloc_prepare target replacement overwrite_size expected (Some alloc) (Some seal) free_page w =
    ((HK_RELOC_OK, plan), w') →
  ∃ pl, plan = Some pl ∧
    let page := rl_trampoline pl in
    let captured := bytes_at (d_mem (ew_device w)) target (Z.to_nat (rl_patch_size pl)) in
    (apart page target → page + 4096 <= 2 ^ 64 →
     rl_original pl = captured ∧ pinned captured expected ∧
     (∀ x, ¬ page <= x < page + HK_RELOC_PAGE_BYTES →
        d_mem (ew_device w') x = d_mem (ew_device w) x) ∧
     hk_arm64_insn_is_trap (word_at (d_mem (ew_device w)) target) = false ∧
     (∀ i, 4 * Z.of_nat i < rl_patch_size pl →
        ends_function (word_at (d_mem (ew_device w)) (target + 4 * Z.of_nat i)) = false) ∧
     ∀ now, (∀ x, page <= x < page + HK_RELOC_PAGE_BYTES → now x = d_mem (ew_device w') x) →
       ∃ off, off 0%nat = 0 ∧ ∀ s, fetches now page HK_RELOC_PAGE_BYTES s →
         replays cond_holds simd_load exec_other (words_of captured) target
           (rl_original_entry pl) off s ∧
         ∃ s', arrives cond_holds simd_load exec_other (u64 (target + rl_patch_size pl))
                 (goto (rl_original_entry pl + off (Z.to_nat (rl_displaced_count pl))) s) s').
Proof.
  intros Hc Hov Hb H.
  destruct (reloc_prepare_spec _ _ _ _ _ _ _ _ _ _ Hc Hov H) as (pl & -> & Hpl).
  exists pl. split; [done|]. intros page captured Hapart Hend.
  destruct (Hpl Hapart) as [Hp Hpin]. pose proof (rp_original _ _ _ _ _ _ Hp) as Ho. fold captured in Ho.
  split; [done|]. split; [by rewrite <- Ho|]. split; [apply Hp|]. split; [apply Hp|].
  split; [apply Hp|]. intros now Hnow. rewrite <- Ho.
  by apply (prepared_replays cond_holds simd_load exec_other _ _ _ _ _ _ Hp Hend now Hnow).
Qed.

(** ** The adapter *)

Section Adapter.
Context {X R : Type} (ctx_at : Z → option (hk_reloc_engine_ctx X)).
Context (image_span : hk_image_entry → option (Z * Z)) (strip sign : Z → Z).
Context (cond_holds : Z → R → bool) (simd_load : Z → Z → Z → (Z → Z) → R → R).
Context (exec_other : Z → mstate R → option (mstate R)).
Local Abbreviation memory_of w := (d_mem (ew_device w)).
Local Abbreviation arrives := (arrives cond_holds simd_load exec_other).

Lemma reloc_prepared_renamed mem mem' target replacement ov plan r :
  reloc_prepared mem mem' target replacement ov plan →
  reloc_prepared mem mem' target replacement ov (plan <| rl_replacement := r |>).
Proof. intros []. by split. Qed.

Lemma reloc_prepare_ok engine_ctx spec ctx addr alloc seal (w : engine_world X hk_reloc_plan) p diag w1 :
  ctx_at engine_ctx = Some ctx → hs_target spec = TAddress addr →
  rc_alloc ctx = Some alloc → rc_seal ctx = Some seal → page_contract alloc seal →
  reloc_prepare_one_ctx_status ctx_at image_span strip engine_ctx spec w =
    ((HK_PREPARE_OK, p, diag), w1) →
  let target := entry_address strip addr in
  ∃ plan, p ≠ 0 ∧ ew_objects w1 !! p = Some plan ∧ rl_replacement plan = hs_replacement spec ∧
    (apart (rl_trampoline plan) target →
     reloc_prepared (memory_of w) (memory_of w1) target (strip (hs_replacement spec)) 0 plan ∧
     pinned (rl_original plan) (ad_expected_initial_bytes addr)) ∧
    (rl_atomic_entry_patch plan = true ∨ rc_allow_non_atomic_entry_patch ctx = true).
Proof.
  intros Hctx Ht Ha Hs Hc. unfold reloc_prepare_one_ctx_status. rewrite Hctx, Ht. cbv zeta.
  destruct (scope_refuses _); [intros H; discriminate H|].
  unfold bind at 1, malloc_object, zoom. destruct (alloc_object (ew_heap w)) as [q h].
  destruct (Z.eqb_spec q 0) as [|Hq]; [intros H; discriminate H|]. rewrite Ha, Hs.
  unfold bind at 1, hk_reloc_prepare.
  destruct (reloc_prepare _ _ _ _ _ _ _ _) as [[st plan] wp] eqn:E.
  destruct st; simpl; try (intros H; discriminate H).
  destruct (reloc_prepare_spec _ _ _ _ _ _ _ _ _ _ Hc ltac:(done) E) as (pl & -> & Hpl).
  destruct (negb (rl_atomic_entry_patch pl) && _) eqn:Eat.
  { unfold bind, ret. destruct (free_trampoline _ _ _). intros H; discriminate H. }
  unfold bind, put_object, modify, ret, set_field. simpl. intros [= <- <- <-].
  exists (pl <| rl_replacement := hs_replacement spec |>). simpl. rewrite lookup_insert.
  destruct (decide (q = q)); [|done]. split_and!; try done.
  - intros Hapart. destruct (Hpl Hapart) as [Hp Hpin]. split; [by apply reloc_prepared_renamed|done].
  - apply andb_false_iff in Eat as [Eat%negb_false_iff|Eat%negb_false_iff]; auto.
Qed.

Lemma length_reloc_patch mem mem' target replacement plan :
  reloc_prepared mem mem' target replacement 0 plan →
  length (rl_patch plan) = length (rl_original plan) ∧
  Z.of_nat (length (rl_patch plan)) = rl_patch_size plan ∧
  rl_patch_size plan = 4 * rl_displaced_count plan ∧ 1 <= rl_displaced_count plan <= 4.
Proof.
  intros Hp. pose proof (rp_patch _ _ _ _ _ _ Hp) as H. destruct (decide (0 = 0)); [|done].
  destruct H as (dest & _ & Hs & -> & _). rewrite (rp_original _ _ _ _ _ _ Hp), length_bytes_at.
  rewrite length_bytes_of_words. destruct (hk_arm64_emit_branch target dest) as [ws n] eqn:E.
  destruct (emit_branch_length _ _ _ _ E) as (Hn & Hl & _). simpl.
  pose proof (rp_displaced _ _ _ _ _ _ Hp). pose proof (rp_size _ _ _ _ _ _ Hp). page_lia.
Qed.

(** The commit of a plan that preparation has just filled in. *)
Lemma reloc_commit_spec mem mem' target replacement plan write free_page (d : device X) :
  reloc_prepared mem mem' target replacement 0 plan → is_u64 target → writer_contract write →
  (∀ f, free_page = Some f → ∀ page size d x, ¬ page <= x < page + size →
     d_mem (f page size d).2 x = d_mem d x) →
  let '((m, artifacts, plan'), d') := hk_reloc_commit strip sign plan (Some write) free_page true d in
  if decide (m = HK_MUTATION_NONE) then
    (∀ x, ¬ rl_trampoline plan <= x < rl_trampoline plan + HK_RELOC_PAGE_BYTES →
       d_mem d' x = d_mem d x) ∧
    (is_Some free_page → artifacts = [] ∧
       hk_reloc_describe_continuation strip sign plan' = empty_continuation)
  else
    honest_commit target (rl_original plan) (rl_patch plan) (d_mem d) (d_mem d')
      [trampoline_artifact strip sign plan] m artifacts ∧
    plan' = plan <| rl_activated := true |>.
Proof.
  intros Hp Htu Hw Hfree. destruct (length_reloc_patch _ _ _ _ _ Hp) as (Hlen & HlenZ & Hs & Hd).
  destruct Hp as [Ha H0 _ _ _ Hc Hin Hts [Hpos _] _ _ _ _ _ _ _ _ _].
  unfold hk_reloc_commit. rewrite Hin, Hc, Ha, (proj2 (Z.eqb_neq _ _) H0).
  rewrite (proj2 (Z.eqb_neq (rl_patch_size plan) 0)) by page_lia.
  rewrite (proj2 (Z.ltb_ge HK_RELOC_MAX_PATCH (rl_patch_size plan))) by page_lia. cbn [negb orb].
  assert (Hcu : is_u64 (Z.of_nat (length (rl_original plan)))) by (unfold is_u64; lia).
  unfold bind at 1. destruct (guarded_write _ _ _ _ _) as [m d1] eqn:Eg.
  pose proof (guarded_commit_honest write target _ _ d m d1 [trampoline_artifact strip sign plan]
    (entry_artifact strip sign plan) Hw Htu Hcu Hlen) as Hh.
  specialize (Hh ltac:(intros m'; unfold artifact_address; simpl; by rewrite Ha) Eg).
  destruct (bool_decide_reflect (m = HK_MUTATION_NONE)) as [->|Hm].
  - destruct Hh as [_ Hmem]. destruct free_page as [f|].
    + rewrite (proj2 (Z.eqb_neq (rl_trampoline plan) 0)) by lia.
      specialize (Hfree f eq_refl (rl_trampoline plan) (rl_trampoline_size plan) d1).
      unfold bind. destruct (f _ _ d1) as [[] d2]. unfold ret. destruct (decide _); [|done].
      simpl in Hfree. rewrite Hts in Hfree. split; [|done].
      intros x Hx. rewrite Hfree by done. by rewrite Hmem.
    + unfold ret. destruct (decide _); [|done]. rewrite Hmem. split; [done|]. by intros [].
  - destruct Hh as [Hnone Hh]. unfold ret. destruct (decide _); [done|]. split; [exact Hh|done].
Qed.

(** C13.  A relocating hook from preparation to the replacement running, whatever
    happens to the process in between.  Preparation leaves everything outside
    its page alone, and plans a one-word patch unless the context allows more.
    A commit that answers NONE writes nothing outside the page, and (with a
    free seam) records nothing, publishes nothing and no longer advertises the
    reclaimed page.  Any other answer means the entry still held the captured
    bytes; it records the page, then the patch with the bytes that put the
    entry back.  After COMPLETE the original is published, the readback
    verifies, and a call of the target, directly or through the thunk, arrives
    at the replacement with memory, flags and every register but x16/x17
    untouched. *)
Theorem reloc_hook_lifecycle engine_ctx spec ctx addr alloc seal write
    (w : engine_world X hk_reloc_plan) p diag w1 w2 sink reply w3 :
  ctx_at engine_ctx = Some ctx → hs_target spec = TAddress addr →
  rc_alloc ctx = Some alloc → rc_seal ctx = Some seal → rc_write ctx = Some write →
  page_contract alloc seal → writer_contract write →
  (∀ f, rc_free_page ctx = Some f → ∀ page size d x, ¬ page <= x < page + size →
     d_mem (f page size d).2 x = d_mem d x) →
  let target := entry_address strip addr in
  let replacement := strip (hs_replacement spec) in
  is_u64 target → target + 16 <= 2 ^ 64 → is_u64 replacement → replacement mod 4 = 0 →
  reloc_prepare_one_ctx_status ctx_at image_span strip engine_ctx spec w =
    ((HK_PREPARE_OK, p, diag), w1) →
  ew_objects w2 !! p = ew_objects w1 !! p →
  reloc_commit_one_ctx ctx_at strip sign engine_ctx spec p sink w2 = (reply, w3) →
  ∃ plan, ew_objects w1 !! p = Some plan ∧ let page := rl_trampoline plan in
  (apart page target → page + 4096 <= 2 ^ 64 →
    (∀ x, ¬ page <= x < page + HK_RELOC_PAGE_BYTES → memory_of w1 x = memory_of w x) ∧
    (rl_patch_size plan = 4 ∨ rc_allow_non_atomic_entry_patch ctx = true) ∧
    if decide (cr_mutation reply = HK_MUTATION_NONE) then
      (∀ x, ¬ page <= x < page + HK_RELOC_PAGE_BYTES → memory_of w3 x = memory_of w2 x) ∧
      cr_published_original reply = None ∧
      (is_Some (rc_free_page ctx) →
         cr_artifacts reply = [] ∧ cr_continuation reply = Some empty_continuation)
    else
      honest_commit target (bytes_at (memory_of w) target (Z.to_nat (rl_patch_size plan)))
        (rl_patch plan) (memory_of w2) (memory_of w3)
        [trampoline_artifact strip sign plan] (cr_mutation reply) (cr_artifacts reply) ∧
      (cr_mutation reply = HK_MUTATION_COMPLETE →
         cr_published_original reply =
           Some (hk_pac_make_callable strip sign (rl_original_entry plan)) ∧
         (reloc_verify_one_ctx engine_ctx spec p w3).1 = (HK_VERIFY_OK, no_verify_diag) ∧
         ((∀ x, page <= x < page + HK_RELOC_PAGE_BYTES → memory_of w2 x = memory_of w1 x) →
          ∀ s, ms_pc s = target → fetches (memory_of w3) target (rl_patch_size plan) s →
            fetches (memory_of w3) page HK_RELOC_PAGE_BYTES s → ∃ s', arrives replacement s s'))).
Proof.
  intros Hctx Ht Ha Hs Hwr Hc Hw Hfree target replacement Htu Htw Hru Hrm Hprep Hobj Hcommit.
  destruct (reloc_prepare_ok _ _ _ _ _ _ _ _ _ _ Hctx Ht Ha Hs Hc Hprep)
    as (plan & Hp & Ho & _ & Hpl & Hatomic).
  exists plan. split; [done|]. intros page Hapart Hend. destruct (Hpl Hapart) as [Hpr _].
  fold target replacement in Hpr. rewrite Ho in Hobj. clear Hprep Ho Hpl.
  destruct (length_reloc_patch _ _ _ _ _ Hpr) as (Hlen & HlenZ & Hsize & Hd).
  split; [apply Hpr|]. split.
  { destruct Hatomic as [Hat|]; [left|by right]. pose proof (rp_patch _ _ _ _ _ _ Hpr) as H.
    destruct (decide (0 = 0)); [|done]. destruct H as (_ & _ & _ & _ & H). rewrite H in Hat.
    by apply Z.eqb_eq. }
  revert Hcommit. unfold reloc_commit_one_ctx, get_object, bind at 1, gets.
  rewrite (proj2 (Z.eqb_neq p 0) Hp), Hobj, Hctx, Hwr. unfold bind at 1, on_device, zoom.
  pose proof (reloc_commit_spec _ _ _ _ _ write (rc_free_page ctx) (ew_device w2) Hpr Htu Hw Hfree) as Hspec.
  destruct (hk_reloc_commit _ _ _ _ _ _ _) as [[[m artifacts] plan'] d'].
  unfold bind, put_object, modify, ret, set_field. simpl. intros [= <- <-].
  destruct (decide (m = HK_MUTATION_NONE)) as [->|Hm]; cbn [cr_mutation].
  { simpl. destruct Hspec as [Hframe Hf]. split; [done|]. split; [done|].
    intros Hfs. destruct (Hf Hfs) as [-> ->]. done. }
  destruct (decide (m = HK_MUTATION_NONE)); [done|]. destruct Hspec as [Hh ->].
  rewrite <- (rp_original _ _ _ _ _ _ Hpr). split; [exact Hh|]. intros ->.
  split; [done|]. destruct Hh as (_ & _ & Hdone). specialize (Hdone eq_refl). split.
  - unfold reloc_verify_one_ctx, get_object, bind, gets. simpl.
    rewrite (proj2 (Z.eqb_neq p 0) Hp), lookup_insert. destruct (decide (p = p)); [|done]. simpl.
    rewrite (rp_address _ _ _ _ _ _ Hpr). unfold still_holds.
    by rewrite Hdone, bytes_at_store, bool_decide_eq_true_2.
  - intros Hkept s Hpc Hft Hfp. simpl in Hft, Hfp.
    apply (prepared_entry_arrives cond_holds simd_load exec_other _ _ _ _ _ _ Hpr Htu Hend (d_mem d')); try done.
    + intros x Hx. rewrite Hdone, store_outside; [by apply Hkept|]. unfold apart in Hapart.
      fold page in Hx. page_lia.
    + rewrite Hdone. replace (Z.to_nat (rl_patch_size plan)) with (length (rl_patch plan)) by lia.
      apply bytes_at_store.
Qed.
End Adapter.

(** ** Witnesses: one near page, a prologue of NOPs. *)

Definition demo_alloc : reloc_alloc unit := λ _ _,
  ret (0x10000, zero_mapping <| mp_kind := HK_MAPPING_ANONYMOUS |>
                             <| mp_base := 0x10000 |> <| mp_size := 0x1000 |>).
Definition demo_seal : reloc_seal unit := λ _ _, ret true.
Definition demo_free : reloc_free unit := λ _ _, ret tt.
Definition demo_reloc_ctx (_ : Z) : option (hk_reloc_engine_ctx unit) :=
  Some (RelocEngineCtx (Some demo_alloc) (Some demo_seal) (Some demo_free) (Some plain_writer) None false).

Lemma demo_pages : page_contract demo_alloc demo_seal.
Proof. by split. Qed.

Lemma demo_nops_bytes : byte_memory demo_nops.
Proof.
  intros a. unfold demo_nops. pose proof (Z.mod_pos_bound a 4 ltac:(lia)).
  assert (a mod 4 = 0 ∨ a mod 4 = 1 ∨ a mod 4 = 2 ∨ a mod 4 = 3) as [-> | [-> | [-> | ->]]]
    by lia; simpl; lia.
Qed.

Lemma reloc_original_replays_witness :
  let w := demo_world demo_nops in
  let r := reloc_prepare 0x4000 0x8000 0 (BytesNull 0) (Some demo_alloc) (Some demo_seal) None w in
  r.1.1 = HK_RELOC_OK ∧
  ∃ pl, r.1.2 = Some pl ∧ rl_original pl = [0x1F; 0x20; 0x03; 0xD5] ∧
    hk_arm64_insn_is_trap (word_at demo_nops 0x4000) = false.
Proof.
  intros w r. split; [reflexivity|].
  destruct (reloc_original_replays (λ _ (_ : unit), true) (λ _ _ _ _ r, r) (λ _ _, None)
              0x4000 0x8000 0 (BytesNull 0) demo_alloc demo_seal None w r.1.2 r.2 demo_pages ltac:(lia)
              demo_nops_bytes eq_refl) as (pl & Hpl & H).
  exists pl. split; [exact Hpl|]. vm_compute in Hpl. injection Hpl as <-.
  destruct (H ltac:(right; vm_compute; congruence) ltac:(vm_compute; congruence)) as (_ & _ & _ & Ht & _).
  split; [reflexivity|exact Ht].
Defined.

Lemma reloc_hook_lifecycle_witness :
  let spec := demo_memory_spec (demo_entry 0x4000) in
  let prepare := reloc_prepare_one_ctx_status demo_reloc_ctx (λ _, None) id 0 spec (demo_world demo_nops) in
  let commit := reloc_commit_one_ctx demo_reloc_ctx id id 0 spec prepare.1.1.2 demo_sink prepare.2 in
  cr_mutation commit.1 = HK_MUTATION_COMPLETE ∧
  (reloc_verify_one_ctx 0 spec prepare.1.1.2 commit.2).1 = (HK_VERIFY_OK, no_verify_diag).
Proof.
  intros spec prepare commit. split; [reflexivity|].
  destruct (reloc_hook_lifecycle demo_reloc_ctx (λ _, None) id id (λ _ (_ : unit), true)
              (λ _ _ _ _ r, r) (λ _ _, None) 0 spec
              (RelocEngineCtx (Some demo_alloc) (Some demo_seal) (Some demo_free) (Some plain_writer) None false)
              (AddressTarget 0x4000 zero_selector None (Bytes [0x1F; 0x20; 0x03; 0xD5]) true)
              demo_alloc demo_seal plain_writer (demo_world demo_nops) prepare.1.1.2 prepare.1.2
              prepare.2 prepare.2 demo_sink commit.1 commit.2) as (plan & Hpl & H);
    [reflexivity|reflexivity|reflexivity|reflexivity|reflexivity|exact demo_pages
    |apply plain_writer_contract|by intros f [= <-]|vm_compute; split; congruence
    |vm_compute; congruence|vm_compute; split; congruence|reflexivity|reflexivity|reflexivity
    |reflexivity|].
  vm_compute in Hpl. injection Hpl as <-.
  destruct (H ltac:(right; vm_compute; congruence) ltac:(vm_compute; congruence)) as (_ & _ & H').
  exact (proj1 (proj2 (proj2 H' eq_refl))).
Defined.
