(* ===== verification/NativeMemory.v ===== *)
(** * The device-side memory layer (src/native/hk_native.c)

    The writer behind the engines' write seam and the page operations behind
    their trampoline seams, over the Mach virtual-memory calls, which are a
    parameter.  One thread: the write lock is not modelled. *)

From Stdlib Require Import FunctionalExtensionality.
From stdpp Require Import base list strings gmap numbers option.
From S2P Require Import Prelude Types Artifacts Arm64 Device.

(** ** Protections *)

Definition VM_PROT_READ : Z := 1.
Definition VM_PROT_WRITE : Z := 2.
Definition VM_PROT_EXECUTE : Z := 4.
Definition VM_PROT_COPY : Z := 16.

(** [vm_region_64]'s answer for a query address: the start of the first region
    at or above it, its size and its protection. *)
Record vm_region_info : Type := VmRegion {
  vr_start : Z;
  vr_size : Z;
  vr_protection : Z }.

(** The five calls the layer makes.  Memory that is not mapped is taken to read
    as zero, so that mapping zero-filled pages is no change. *)
Record vm_calls {K : Type} : Type := VmCalls {
  vm_region_64 : device K → Z → option vm_region_info;
  vm_protect : Z → Z → Z → M (device K) bool;
  vm_allocate : option Z → Z → M (device K) (option Z);
  vm_deallocate : Z → Z → M (device K) unit;
  vm_remap : Z → Z → Z → M (device K) bool }.
Arguments vm_calls : clear implicits.

(** A byte some region maps. *)
Definition covered {K} (vm : vm_calls K) (d : device K) (x : Z) : Prop :=
  ∃ q r, vm_region_64 vm d q = Some r ∧ vr_start r <= x < vr_start r + vr_size r.

(** What the kernel documents of them.  Regions lie inside the address space;
    changing a protection moves no byte and unmaps nothing; a new mapping is
    zero-filled and overlaps nothing mapped; unmapping loses the bytes of the
    range; a successful overwriting remap makes the destination read as the
    source, a failed one promises nothing. *)
Record vm_laws {K} (vm : vm_calls K) : Prop := {
  vl_region : ∀ d q r, vm_region_64 vm d q = Some r →
    0 <= vr_start r ∧ 0 <= vr_size r ∧ vr_start r + vr_size r < 2 ^ 64 ∧
    q < vr_start r + vr_size r;
  vl_protect : ∀ start size prot d, d_mem (vm_protect vm start size prot d).2 = d_mem d;
  vl_protect_covered : ∀ start size prot d x,
    covered vm d x → covered vm (vm_protect vm start size prot d).2 x;
  vl_allocate : ∀ where_ size d, d_mem (vm_allocate vm where_ size d).2 = d_mem d;
  vl_allocated : ∀ where_ size d a, (vm_allocate vm where_ size d).1 = Some a →
    ∀ x, a <= x < a + size → d_mem d x = 0 ∧ ¬ covered vm d x;
  vl_deallocate : ∀ start size d x, d_mem (vm_deallocate vm start size d).2 x =
    if (start <=? x) && (x <? start + size) then 0 else d_mem d x;
  vl_remap : ∀ dest size src d, (vm_remap vm dest size src d).1 = true →
    ∀ x, d_mem (vm_remap vm dest size src d).2 x =
      if (dest <=? x) && (x <? dest + size) then d_mem d (src + (x - dest)) else d_mem d x }.

(** The thread's memo of one region it has walked. *)
Record memo_region : Type := MemoRegion {
  mr_base : Z;
  mr_end : Z;
  mr_protection : Z }.

Section Native.
Context {K : Type} (vm : vm_calls K).
(** [getpagesize()], a power of two. *)
Context (page_size : Z).

Definition align_down (a : Z) : Z := Z.land a (Z.lxor (2 ^ 64 - 1) (page_size - 1)).

(** Page-rounded bounds, [None] for an empty or wrapping range. *)
Definition hk_range_bounds (addr len : Z) : option (Z * Z) :=
  if (addr =? 0) || (len =? 0) then None
  else
    let last := u64 (addr + len) in
    if last <? addr then None
    else
      let rounded := u64 (last + (page_size - 1)) in
      if rounded <? last then None
      else Some (align_down addr, align_down rounded).

(** *** The region walks

    Every region has at least one byte, so the length of the range is fuel
    enough. *)

Fixpoint protection_walk (fuel : nat) (d : device K) (start stop : Z) (first : option Z)
    : option (option Z) :=
  match fuel with
  | O => Some first
  | S fuel =>
      if start <? stop then
        match vm_region_64 vm d start with
        | None => None
        | Some r =>
            if (start <? vr_start r) || (vr_size r =? 0) then None
            else
              match first with
              | Some p => if vr_protection r =? p
                          then protection_walk fuel d (u64 (vr_start r + vr_size r)) stop first
                          else None
              | None => protection_walk fuel d (u64 (vr_start r + vr_size r)) stop
                          (Some (vr_protection r))
              end
        end
      else Some first
  end.

(** The uniform protection of the range, [None] for [false]. *)
Definition hk_range_protection (d : device K) (start stop : Z) : option Z :=
  match protection_walk (Z.to_nat (stop - start)) d start stop None with
  | Some (Some p) => Some p
  | _ => None
  end.

(** *** The writer *)

Definition memory_copy (dst : Z) (bytes : list Z) : M (device K) unit :=
  modify (λ d, d <| d_mem := store dst bytes (d_mem d) |>).

(** The fallback: patch a private copy and map it over the target. *)
Definition write_by_remap (dst : Z) (src : list Z) (start len restore : Z)
    : M (device K) hk_mutation_state :=
  tmp <- vm_allocate vm None len ;;
  match tmp with
  | None => ret HK_MUTATION_NONE
  | Some tmp =>
      d <- gets id ;;
      memory_copy tmp (bytes_at (d_mem d) start (Z.to_nat len)) ;;;
      memory_copy (tmp + (dst - start)) src ;;;
      sealed <- vm_protect vm tmp len restore ;;
      if negb sealed then vm_deallocate vm tmp len ;;; ret HK_MUTATION_NONE
      else
        mapped <- vm_remap vm start len tmp ;;
        vm_deallocate vm tmp len ;;;
        ret (if mapped : bool then HK_MUTATION_COMPLETE else HK_MUTATION_UNKNOWN)
  end.

Definition hk_write_locked (dst : Z) (src : list Z) : M (device K) hk_mutation_state :=
  match hk_range_bounds dst (Z.of_nat (length src)) with
  | None => ret HK_MUTATION_NONE
  | Some (start, stop) =>
      let len := stop - start in
      restore <- gets (λ d, hk_range_protection d start stop) ;;
      match restore with
      | None => ret HK_MUTATION_NONE
      | Some restore =>
          writable <- vm_protect vm start len
                        (Z.lor (Z.lor VM_PROT_READ VM_PROT_WRITE) VM_PROT_COPY) ;;
          if (writable : bool) then
            memory_copy dst src ;;;
            restored <- vm_protect vm start len restore ;;
            ret (if (restored : bool) then HK_MUTATION_COMPLETE else HK_MUTATION_UNKNOWN)
          else write_by_remap dst src start len restore
      end
  end.

(** *** The probes *)

Fixpoint protected_walk (fuel : nat) (d : device K) (start stop required : Z)
    (memo : option memo_region) : bool * option memo_region :=
  match fuel with
  | O => (true, memo)
  | S fuel =>
      if start <? stop then
        match vm_region_64 vm d start with
        | None => (false, None)
        | Some r =>
            if (start <? vr_start r) || (vr_size r =? 0) ||
               negb (Z.land (vr_protection r) required =? required)
            then (false, None)
            else
              let finish := u64 (vr_start r + vr_size r) in
              protected_walk fuel d finish stop required
                (if stop <=? finish then Some (MemoRegion (vr_start r) finish (vr_protection r))
                 else memo)
        end
      else (true, memo)
  end.

Definition hk_range_all_protected (d : device K) (memo : option memo_region)
    (start stop required : Z) : bool * option memo_region :=
  match memo with
  | Some m =>
      if (mr_base m <=? start) && (stop <=? mr_end m) &&
         (Z.land (mr_protection m) required =? required)
      then (true, memo)
      else protected_walk (Z.to_nat (stop - start)) d start stop required memo
  | None => protected_walk (Z.to_nat (stop - start)) d start stop required memo
  end.

(** Process memory as the layer sees it, with the memo. *)
Local Abbreviation native := (device K * option memo_region)%type.

Definition on_vm {A} (m : M (device K) A) : M native A := zoom fst (λ d s, (d, s.2)) m.
Definition drop_memo : M native unit := modify (λ s, (s.1, None)).

Definition range_probe (required addr len : Z) : M native bool := λ s,
  match hk_range_bounds addr len with
  | None => (false, s)
  | Some (start, stop) =>
      let '(ok, memo) := hk_range_all_protected s.1 s.2 start stop required in
      (ok, (s.1, memo))
  end.

Definition hk_native_range_readable := range_probe VM_PROT_READ.
Definition hk_native_range_executable := range_probe VM_PROT_EXECUTE.

Definition hk_write (dst : Z) (src : list Z) : M native hk_mutation_state :=
  mutation <- on_vm (hk_write_locked dst src) ;; drop_memo ;;; ret mutation.

(** *** Trampoline pages *)

(** The search from [probe] up to [limit], 128MB above the anchor, for a hole of
    [size] bytes, a page.  Regions are whole pages, so each step moves up by at
    least one. *)
Fixpoint map_near_walk (fuel : nat) (probe limit size : Z) : M (device K) (option Z) :=
  match fuel with
  | O => ret None
  | S fuel =>
      if negb (probe =? 0) && (probe <? u64 (probe + size)) && (u64 (probe + size) <=? limit) then
        region <- gets (λ d, vm_region_64 vm d probe) ;;
        let hole := match region with None => true | Some r => u64 (probe + size) <=? vr_start r end in
        if hole then
          addr <- vm_allocate vm (Some probe) size ;;
          match addr with
          | Some a => ret (Some a)
          | None => map_near_walk fuel (u64 (probe + size)) limit size
          end
        else
          match region with
          | Some r => map_near_walk fuel (u64 (vr_start r + vr_size r)) limit size
          | None => ret None
          end
      else ret None
  end.

Definition tramp_map_near (anchor size : Z) : M (device K) Z :=
  let probe := Z.land (u64 (anchor + size - 1)) (Z.lxor (2 ^ 64 - 1) (size - 1)) in
  let limit := u64 (anchor + 2 ^ 27) in
  near <- map_near_walk (Z.to_nat (2 ^ 27 / size + 2)) probe limit size ;;
  match near with
  | Some a => ret a
  | None =>
      addr <- vm_allocate vm None size ;;
      ret (default 0 addr)
  end.

Definition hk_native_reloc_alloc (size near : Z) : M (device K) Z :=
  if (size =? 0) || (page_size <? size) then ret 0 else tramp_map_near near page_size.

Definition hk_native_reloc_seal (page : Z) : M (device K) bool :=
  if page =? 0 then ret false
  else vm_protect vm page page_size (Z.lor VM_PROT_READ VM_PROT_EXECUTE).

Definition hk_native_reloc_free (page : Z) : M (device K) unit :=
  when (negb (page =? 0)) (vm_deallocate vm page page_size).

Definition hk_native_reloc_unprotect (page : Z) : M (device K) bool :=
  if page =? 0 then ret false
  else vm_protect vm page page_size (Z.lor (Z.lor VM_PROT_READ VM_PROT_WRITE) VM_PROT_COPY).

(** *** The entry points *)

Context (strip : Z → Z).

(** [same] says that the caller passed the target itself as the data. *)
Definition hk_native_patch_memory (target : Z) (data : option (list Z)) (same : bool)
    : M native hk_mutation_state :=
  match data with
  | None => ret HK_MUTATION_NONE
  | Some data =>
      if (target =? 0) || (Z.of_nat (length data) =? 0) || same then ret HK_MUTATION_NONE
      else hk_write (strip target) data
  end.

Definition patch_pointer_locked (slot value start len : Z) (restore : Z)
    : M (device K) hk_mutation_state :=
  writable <- vm_protect vm start len
                (Z.lor (Z.lor VM_PROT_READ VM_PROT_WRITE) VM_PROT_COPY) ;;
  if negb writable then ret HK_MUTATION_NONE
  else
    memory_copy slot (bytes_of_words (Enc.quad value)) ;;;
    restored <- vm_protect vm start len restore ;;
    ret (if (restored : bool) then HK_MUTATION_COMPLETE else HK_MUTATION_UNKNOWN).

Definition hk_native_patch_pointer (slot value : Z) : M native hk_mutation_state :=
  if (slot =? 0) || negb (Z.land slot 7 =? 0) then ret HK_MUTATION_NONE
  else
    match hk_range_bounds slot 8 with
    | None => ret HK_MUTATION_NONE
    | Some (start, stop) =>
        restore <- gets (λ s, hk_range_protection s.1 start stop) ;;
        match restore with
        | None => ret HK_MUTATION_NONE
        | Some restore =>
            mutation <- on_vm (patch_pointer_locked slot value start (stop - start) restore) ;;
            drop_memo ;;; ret mutation
        end
    end.

(** [hk_platform_write_memory] of src/core/HKRuntime.c: the writer the runtime
    registers its text and memory engines with.  The engines' data are buffers
    of their own, never the target. *)
Definition hk_platform_write_memory : writer (K * option memo_region) := λ address data d,
  let '(mutation, (d', memo)) :=
    hk_native_patch_memory address (Some data) false (Device (d_mem d) (d_ctx d).1, (d_ctx d).2) in
  (mutation, Device (d_mem d') (d_ctx d', memo)).
End Native.

(** ** The bounds *)

Lemma land_align x k : is_u64 x → 0 <= k < 64 →
  Z.land x (Z.lxor (2 ^ 64 - 1) (2 ^ k - 1)) = x - x mod 2 ^ k.
Proof.
  intros Hx Hk. transitivity (Z.shiftl (Z.shiftr x k) k).
  - apply Z.bits_inj'. intros i Hi.
    replace (2 ^ 64 - 1) with (Z.ones 64) by done.
    replace (2 ^ k - 1) with (Z.ones k) by (rewrite Z.ones_equiv; lia).
    rewrite Z.land_spec, Z.lxor_spec, !Z.testbit_ones, Z.shiftl_spec by lia.
    rewrite (proj2 (Z.leb_le 0 i)) by lia. simpl.
    destruct (Z.ltb_spec i k).
    + rewrite (Z.testbit_neg_r _ (i - k)) by lia.
      rewrite (proj2 (Z.ltb_lt i 64)) by lia. by rewrite andb_false_r.
    + rewrite Z.shiftr_spec by lia. replace (i - k + k) with i by lia.
      destruct (Z.ltb_spec i 64); [by rewrite andb_true_r|].
      rewrite <- (Z.mod_small x (2 ^ 64)) by done. by rewrite Z.mod_pow2_bits_high by lia.
  - rewrite Z.shiftl_mul_pow2, Z.shiftr_div_pow2 by lia.
    pose proof (Z.div_mod x (2 ^ k) ltac:(pose proof (Z.pow_pos_nonneg 2 k); lia)). lia.
Qed.

Lemma align_down_spec page k x : page = 2 ^ k → 0 <= k < 64 → is_u64 x →
  align_down page x mod page = 0 ∧ align_down page x <= x < align_down page x + page ∧
  0 <= align_down page x.
Proof.
  intros -> Hk Hx. unfold align_down. rewrite land_align by done.
  assert (Hp : 0 < 2 ^ k) by (apply Z.pow_pos_nonneg; lia).
  pose proof (Z.mod_pos_bound x (2 ^ k) Hp). pose proof (Z.div_mod x (2 ^ k) ltac:(lia)) as Hd.
  destruct Hx as [H0 _]. pose proof (Z.div_pos x (2 ^ k) H0 Hp).
  split; [|nia]. replace (x - x mod 2 ^ k) with (x / 2 ^ k * 2 ^ k) by lia. apply Z.mod_mul. lia.
Qed.

Lemma range_bounds_spec page k addr len start stop :
  page = 2 ^ k → 0 <= k < 64 → is_u64 addr → is_u64 len →
  hk_range_bounds page addr len = Some (start, stop) →
  start mod page = 0 ∧ stop mod page = 0 ∧ 0 <= start ∧ start <= addr ∧
  addr + len <= stop ∧ stop < 2 ^ 64 ∧ addr ≠ 0 ∧ 0 < len.
Proof.
  intros Hpage Hk Ha Hl. unfold hk_range_bounds.
  assert (Hp : 0 < page) by (subst page; apply Z.pow_pos_nonneg; lia).
  assert (Hp' : page <= 2 ^ 63) by (subst page; apply Z.pow_le_mono_r; lia).
  destruct (Z.eqb_spec addr 0), (Z.eqb_spec len 0); simpl; try done.
  assert (Hadd : ∀ a b, is_u64 a → 0 <= b < 2 ^ 64 → a <= u64 (a + b) → u64 (a + b) = a + b).
  { intros a b [Ha0 Ha1] Hb. unfold u64. destruct (Z.lt_ge_cases (a + b) (2 ^ 64)).
    - intros _. apply Z.mod_small. lia.
    - replace (a + b) with (a + b - 2 ^ 64 + 1 * 2 ^ 64) at 1 by lia.
      rewrite Z.mod_add, Z.mod_small by lia. lia. }
  destruct (Z.ltb_spec (u64 (addr + len)) addr) as [|H1]; [done|].
  apply Hadd in H1; [|done|done]. pose proof (u64_range (addr + len)) as Hr. rewrite H1 in *.
  destruct (Z.ltb_spec (u64 (addr + len + (page - 1))) (addr + len)) as [|H2]; [done|].
  pose proof (u64_range (addr + len + (page - 1))) as Hr2.
  apply Hadd in H2; [|done|lia]. rewrite H2 in *. intros [= <- <-].
  destruct (align_down_spec page k addr Hpage Hk Ha) as (? & ? & ?).
  destruct (align_down_spec page k (addr + len + (page - 1)) Hpage Hk Hr2) as (? & ? & ?).
  split_and!; try done; try lia. destruct Hl. lia.
Qed.

(** ** The walk *)

Section Walk.
Context {K : Type} (vm : vm_calls K) (laws : vm_laws vm).

(** A uniform protection is only reported for a range that is mapped
    throughout. *)
Lemma protection_walk_covers fuel d start stop first found :
  stop - start <= Z.of_nat fuel → protection_walk vm fuel d start stop first = Some found →
  ∀ x, start <= x < stop → covered vm d x.
Proof.
  revert start first. induction fuel as [|fuel IH]; intros start first Hf H x Hx; [lia|].
  cbn [protection_walk] in H. rewrite (proj2 (Z.ltb_lt start stop)) in H by lia.
  destruct (vm_region_64 vm d start) as [r|] eqn:Er; [|done].
  destruct (vl_region vm laws d start r Er) as (H0 & Hs & Hend & Hq).
  destruct (Z.ltb_spec start (vr_start r)), (Z.eqb_spec (vr_size r) 0); simpl in H; try done.
  assert (Hnext : ∃ f, protection_walk vm fuel d (u64 (vr_start r + vr_size r)) stop f = Some found).
  { destruct first as [p|]; [destruct (vr_protection r =? p); [|done]|]; by eexists. }
  destruct Hnext as [f Hnext]. rewrite u64_small in Hnext by (unfold is_u64; lia).
  destruct (decide (x < vr_start r + vr_size r)).
  - exists start, r. split; [done|lia].
  - eapply IH; [|exact Hnext|]; lia.
Qed.

Lemma range_protection_covers d start stop p :
  hk_range_protection vm d start stop = Some p → ∀ x, start <= x < stop → covered vm d x.
Proof.
  unfold hk_range_protection. destruct (protection_walk _ _ _ _ _ _) as [[q|]|] eqn:E; try done.
  intros _ x Hx. eapply (protection_walk_covers _ _ _ _ _ _); [|exact E|done]. lia.
Qed.
End Walk.

(** ** The writer keeps the engines' contract *)

Section Writer.
Context {K : Type} (vm : vm_calls K) (laws : vm_laws vm).
Context (page_size k : Z) (Hpage : page_size = 2 ^ k) (Hk : 0 <= k < 64).

(** What a write of [src] at [dst] may have done to memory. *)
Definition written (dst : Z) (src : list Z) (mem mem' : Z → Z) (m : hk_mutation_state) : Prop :=
  match m with
  | HK_MUTATION_NONE => mem' = mem
  | HK_MUTATION_COMPLETE => mem' = store dst src mem
  | HK_MUTATION_PARTIAL => False
  | HK_MUTATION_UNKNOWN => True
  end.

(** The private copy, patched, read at the target's addresses. *)
Lemma patched_copy mem dst src start len tmp x :
  start <= dst → dst + Z.of_nat (length src) <= start + len →
  let copied := store tmp (bytes_at mem start (Z.to_nat len)) mem in
  let patched := store (tmp + (dst - start)) src copied in
  (start <= x < start + len → patched (tmp + (x - start)) = store dst src mem x) ∧
  (¬ tmp <= x < tmp + len → patched x = mem x).
Proof.
  intros Hs He copied patched. split; intros Hx.
  - unfold patched. destruct (decide (dst <= x < dst + Z.of_nat (length src))) as [Hin|Hout].
    + destruct (lookup_lt_is_Some_2 src (Z.to_nat (x - dst))) as [b Hb]; [lia|].
      replace (tmp + (x - start)) with (tmp + (dst - start) + Z.of_nat (Z.to_nat (x - dst))) by lia.
      rewrite (store_at _ _ _ _ b Hb).
      replace x with (dst + Z.of_nat (Z.to_nat (x - dst))) by lia. by rewrite (store_at _ _ _ _ b Hb).
    + rewrite !store_outside by lia. unfold copied.
      replace (tmp + (x - start)) with (tmp + Z.of_nat (Z.to_nat (x - start))) by lia.
      apply store_at. rewrite lookup_bytes_at by lia. do 2 f_equal. lia.
  - unfold patched, copied. rewrite store_outside by lia.
    apply store_outside. rewrite length_bytes_at. lia.
Qed.

Lemma write_by_remap_spec dst src start len restore d :
  start <= dst → dst + Z.of_nat (length src) <= start + len → 0 <= len →
  (∀ x, start <= x < start + len → covered vm d x) →
  let '(m, d') := write_by_remap vm dst src start len restore d in
  written dst src (d_mem d) (d_mem d') m.
Proof.
  intros Hs He Hlen Hcov. unfold write_by_remap, bind at 1.
  pose proof (vl_allocate vm laws None len d) as Hmem.
  pose proof (vl_allocated vm laws None len d) as Hzero.
  destruct (vm_allocate vm None len d) as [[tmp|] d1]; simpl in Hmem, Hzero; [|exact Hmem].
  specialize (Hzero tmp eq_refl). unfold bind at 1, gets. simpl. rewrite Hmem.
  unfold bind at 1, memory_copy at 1, modify. simpl.
  unfold bind at 1, memory_copy at 1, modify. simpl. rewrite Hmem. unfold bind at 1.
  destruct (patched_copy (d_mem d) dst src start len tmp 0 Hs He) as [_ _].
  pose proof (λ x, patched_copy (d_mem d) dst src start len tmp x Hs He) as Hcopy. cbv zeta in Hcopy.
  set (patched := store (tmp + (dst - start)) src _) in *.
  match goal with |- context [vm_protect vm tmp len restore ?s] => set (d2 := s) end.
  pose proof (vl_protect vm laws tmp len restore d2) as Hprot.
  destruct (vm_protect vm tmp len restore d2) as [sealed d3]. simpl in Hprot.
  change (d_mem d2) with patched in Hprot. destruct sealed; simpl.
  - unfold bind at 1. pose proof (vl_remap vm laws start len tmp d3) as Hremap.
    destruct (vm_remap vm start len tmp d3) as [mapped d4]. simpl in Hremap. unfold bind.
    pose proof (vl_deallocate vm laws tmp len d4) as Hfree.
    destruct (vm_deallocate vm tmp len d4) as [[] d5]. simpl in *.
    destruct mapped; simpl; [|done]. apply functional_extensionality. intros x.
    rewrite Hfree. destruct ((tmp <=? x) && (x <? tmp + len)) eqn:Et.
    + assert (Hx : tmp <= x < tmp + len) by lia. destruct (Hzero x Hx) as [Hz Hnc].
      rewrite store_outside; [done|]. intros Hd. apply Hnc, Hcov. lia.
    + assert (Hx : ¬ tmp <= x < tmp + len) by lia. rewrite (Hremap eq_refl), !Hprot.
      destruct ((start <=? x) && (x <? start + len)) eqn:Es.
      * apply Hcopy. lia.
      * rewrite (proj2 (Hcopy x)) by done. rewrite store_outside; [done|lia].
  - unfold bind. pose proof (vl_deallocate vm laws tmp len d3) as Hfree.
    destruct (vm_deallocate vm tmp len d3) as [[] d4]. simpl in *.
    apply functional_extensionality. intros x. rewrite Hfree, Hprot.
    destruct ((tmp <=? x) && (x <? tmp + len)) eqn:Et; [symmetry; apply Hzero; lia|].
    apply Hcopy. lia.
Qed.

Lemma write_locked_spec dst src d :
  is_u64 dst → is_u64 (Z.of_nat (length src)) →
  let '(m, d') := hk_write_locked vm page_size dst src d in
  written dst src (d_mem d) (d_mem d') m.
Proof.
  intros Hd Hl. unfold hk_write_locked.
  destruct (hk_range_bounds page_size dst _) as [[start stop]|] eqn:Eb; [|done].
  destruct (range_bounds_spec _ _ _ _ _ _ Hpage Hk Hd Hl Eb) as (_ & _ & H0 & Hs & He & _ & _ & _).
  unfold bind at 1, gets. destruct (hk_range_protection vm d start stop) as [restore|] eqn:Ep; [|done].
  pose proof (range_protection_covers vm laws d start stop restore Ep) as Hcov. unfold bind at 1.
  set (prot := Z.lor _ _).
  pose proof (vl_protect vm laws start (stop - start) prot d) as Hprot.
  pose proof (vl_protect_covered vm laws start (stop - start) prot d) as Hkeep.
  destruct (vm_protect vm start (stop - start) prot d) as [writable d1]. simpl in Hprot, Hkeep.
  destruct writable.
  - unfold bind at 1, memory_copy, modify, bind. simpl.
    match goal with |- context [vm_protect vm start (stop - start) restore ?s] => set (d2 := s) end.
    pose proof (vl_protect vm laws start (stop - start) restore d2) as Hprot2.
    destruct (vm_protect vm start (stop - start) restore d2) as [restored d3]. simpl in *.
    destruct restored; simpl; [|done]. rewrite Hprot2. simpl. by rewrite Hprot.
  - rewrite <- Hprot. apply write_by_remap_spec; try lia.
    intros x Hx. apply Hkeep, Hcov. lia.
Qed.

(** C30.  The writer the runtime registers its text and memory engines with keeps
    the contract those engines are proved against, given what the kernel
    documents of its calls.  NONE means not one byte changed, the private copy
    of the remap path included; COMPLETE that memory is the old memory with
    exactly the new bytes over it, whether the page was opened in place or
    replaced; it never answers PARTIAL.  The probes' memo is dropped by every
    attempt that got as far as the kernel. *)
Theorem platform_writer_contract strip :
  (∀ a, strip a = a) →
  (∀ a l d m memo, 0 < a → l ≠ [] →
     hk_native_patch_memory vm page_size strip a (Some l) false (d, memo) = m → m.2.2 = None) ∧
  writer_contract (hk_platform_write_memory vm page_size strip).
Proof.
  intros Hstrip. split.
  - intros a l d m memo Ha Hl. unfold hk_native_patch_memory.
    rewrite (proj2 (Z.eqb_neq a 0)) by lia.
    destruct l as [|b l]; [done|]. rewrite (proj2 (Z.eqb_neq (Z.of_nat (length (b :: l))) 0)) by (simpl; lia).
    simpl. unfold hk_write, bind, on_vm, zoom, drop_memo, modify. simpl.
    destruct (hk_write_locked _ _ _ _ _) as [m' d']. by intros <-.
  - assert (H : ∀ a l d, is_u64 a → is_u64 (Z.of_nat (length l)) →
      let '(m, d') := hk_platform_write_memory vm page_size strip a l d in
      written a l (d_mem d) (d_mem d') m).
    { intros a l d Ha Hl. unfold hk_platform_write_memory, hk_native_patch_memory.
      destruct (_ || _); [done|]. rewrite Hstrip. unfold hk_write, bind, on_vm, zoom, drop_memo, modify.
      simpl. pose proof (write_locked_spec a l (Device (d_mem d) (d_ctx d).1) Ha Hl) as H.
      destruct (hk_write_locked _ _ _ _ _) as [m' d']. exact H. }
    split; intros a l d; [| |intros x]; intros Ha Hl; specialize (H a l d Ha Hl);
      destruct (hk_platform_write_memory _ _ _ _ _ _) as [m' d']; simpl; by intros ->.
Qed.
End Writer.

(** ** Witness: a kernel that refuses to open the lower half for writing, so
    that the patch goes through a private copy. *)

Definition demo_zero (d : device unit) (a size : Z) : bool :=
  forallb (λ b, b =? 0) (bytes_at (d_mem d) a (Z.to_nat size)).

Definition demo_vm : vm_calls unit := VmCalls unit
  (λ _ q, if q <? 2 ^ 32 then Some (VmRegion 0 (2 ^ 32) 5) else None)
  (λ start _ _, ret (2 ^ 32 <=? start))
  (λ _ size d, (if demo_zero d (2 ^ 40) size then Some (2 ^ 40) else None, d))
  (λ start size, modify (λ d, d <| d_mem := λ x,
     if (start <=? x) && (x <? start + size) then 0 else d_mem d x |>))
  (λ dest size src d, (true, d <| d_mem := λ x,
     if (dest <=? x) && (x <? dest + size) then d_mem d (src + (x - dest)) else d_mem d x |>)).

Lemma demo_vm_laws : vm_laws demo_vm.
Proof.
  split; simpl; try done.
  - intros d q r. destruct (Z.ltb_spec q (2 ^ 32)); [|done]. intros [= <-]. simpl. lia.
  - intros _ size d a. destruct (demo_zero d (2 ^ 40) size) eqn:E; [|done]. intros [= <-] x Hx.
    unfold demo_zero in E. rewrite forallb_forall in E. split.
    + apply Z.eqb_eq, E, list_elem_of_In, list_elem_of_lookup. exists (Z.to_nat (x - 2 ^ 40)).
      rewrite lookup_bytes_at by lia. do 2 f_equal. lia.
    + intros (q & r & Hq & Hr). simpl in Hq. destruct (q <? 2 ^ 32); [|done].
      injection Hq as <-. simpl in Hr. lia.
Qed.

Lemma platform_writer_contract_witness :
  let write := hk_platform_write_memory demo_vm (2 ^ 2) id in
  let d := Device (λ a, if a =? 0x1001 then 7 else 0) (tt, None) in
  (write 0x1000 [1; 2; 3] d).1 = HK_MUTATION_COMPLETE ∧
  d_mem (write 0x1000 [1; 2; 3] d).2 = store 0x1000 [1; 2; 3] (d_mem d).
Proof.
  intros write d. split; [reflexivity|].
  destruct (platform_writer_contract demo_vm demo_vm_laws (2 ^ 2) 2 eq_refl ltac:(lia) id
              (λ _, eq_refl)) as [_ H].
  apply (wc_complete _ H); [unfold is_u64; lia|unfold is_u64; simpl; lia|reflexivity].
Defined.
