(* ===== verification/RelocPages.v ===== *)
(** * Trampoline pages are neither leaked nor given back twice

    The page seams of src/engines/HKRelocInlineEngine.h as an interface, the
    engine's accounting proved against it, and the pool-only seams of
    src/core/HKRuntime.c as an implementation. *)

From stdpp Require Import base list strings gmap numbers option sets.
From S2P Require Import Prelude Types ImageCatalog Artifacts Engine Memory Arm64 Device PatchCode EngineWorld MemoryEngine InlineEngine RelocEngine RelocSpec StaticPool NativeMemory.
Import Enc Reloc Isa.

(** ** The interface

    [held x] are the pages handed out and not given back, where the seams'
    state [x] is in order; the seams keep it so. *)
Class PageLedger {X} (held : X → option (gset Z)) (alloc : reloc_alloc X) (seal : reloc_seal X)
    (free_page : reloc_free X) (write : writer X) : Prop := {
  pl_alloc : ∀ size near d S, held (d_ctx d) = Some S →
    let r := alloc size near d in
    if decide (r.1.1 = 0) then held (d_ctx r.2) = Some S
    else r.1.1 ∉ S ∧ held (d_ctx r.2) = Some ({[r.1.1]} ∪ S);
  pl_seal : ∀ page size d S, held (d_ctx d) = Some S →
    held (d_ctx (seal page size d).2) = Some S;
  pl_free : ∀ page size d S, held (d_ctx d) = Some S → page ∈ S →
    held (d_ctx (free_page page size d).2) = Some (S ∖ {[page]});
  pl_write : ∀ a l d S, held (d_ctx d) = Some S → held (d_ctx (write a l d).2) = Some S }.

Section Accounting.
Context {X : Type} (held : X → option (gset Z)) (alloc : reloc_alloc X) (seal : reloc_seal X).
Context (free_page : reloc_free X) (write : writer X).
Context {Hledger : PageLedger held alloc seal free_page write}.
Local Abbreviation world := (engine_world X hk_reloc_plan).
Local Abbreviation pages w := (held (d_ctx (ew_device w))).

Lemma release_and_fail_held page st (w : world) S :
  pages w = Some ({[page]} ∪ S) → page ∉ S → page ≠ 0 → st ≠ HK_RELOC_OK →
  let '((st', _), w') := reloc_release_and_fail (Some free_page) page st w in
  st' ≠ HK_RELOC_OK ∧ pages w' = Some S ∧ ew_objects w' = ew_objects w.
Proof.
  intros HS Hin Hp Hst. unfold reloc_release_and_fail, bind. rewrite (proj2 (Z.eqb_neq page 0) Hp). simpl.
  unfold on_device, zoom.
  pose proof (pl_free page HK_RELOC_PAGE_BYTES (ew_device w) _ HS ltac:(set_solver)) as H.
  destruct (free_page _ _ _) as [[] d]. unfold ret, set_field. simpl in *.
  split; [done|]. split; [|done]. rewrite H. f_equal. set_solver.
Qed.

(** Two writes into the page keep the books. *)
Lemma build_page_held continuation_only page replacement body (d : device X) :
  d_ctx (build_page continuation_only page replacement body d).2 = d_ctx d.
Proof.
  unfold build_page, bind, memcpy_to, modify, ret, set_field. destruct continuation_only; [done|].
  destruct (hk_arm64_emit_branch page replacement) as [ws n]. by destruct (_ || _).
Qed.

(** A plan on [page] whose commit gets past the guards. *)
Record committable (page : Z) (plan : hk_reloc_plan) : Prop := {
  cm_trampoline : rl_trampoline plan = page;
  cm_captured : rl_captured plan = true;
  cm_activated : rl_activated plan = false;
  cm_address : rl_address plan ≠ 0;
  cm_size : rl_patch_size plan ≠ 0 ∧ rl_patch_size plan <= HK_RELOC_MAX_PATCH }.

Lemma reloc_build_held target replacement continuation_only expected page mapping patch_size dest
    atomic captured (w : world) S :
  pages w = Some ({[page]} ∪ S) → page ∉ S → page ≠ 0 → target ≠ 0 → patch_size ≠ 0 → patch_size <= HK_RELOC_MAX_PATCH →
  let '((st, plan), w') :=
    reloc_build target replacement continuation_only expected seal (Some free_page) page mapping
      patch_size dest atomic captured w in
  ew_objects w' = ew_objects w ∧
  if decide (st = HK_RELOC_OK)
  then pages w' = pages w ∧ ∃ pl, plan = Some pl ∧ committable page pl
  else pages w' = Some S.
Proof.
  intros HS Hin Hp Ht0 Hs0 Hs1. unfold reloc_build. cbv zeta.
  assert (Hfail : ∀ st (w1 : world), st ≠ HK_RELOC_OK → ew_objects w1 = ew_objects w →
    pages w1 = pages w →
    let '((st', plan), w') := reloc_release_and_fail (Some free_page) page st w1 in
    ew_objects w' = ew_objects w ∧
    if decide (st' = HK_RELOC_OK)
    then pages w' = pages w ∧ ∃ pl, plan = Some pl ∧ committable page pl
    else pages w' = Some S).
  { intros st w1 Hst Ho Hh. rewrite HS in Hh.
    pose proof (release_and_fail_held page st w1 S Hh Hin Hp Hst) as H.
    destruct (reloc_release_and_fail _ _ _ _) as [[st' pl] w']. destruct H as (Hst' & Hh' & Ho').
    destruct (decide _); [done|]. by rewrite Ho'. }
  destruct (prologue_differs _ _ _); [by apply Hfail|].
  destruct (hk_arm64_insn_is_trap _); [by apply Hfail|].
  destruct (hk_arm64_has_early_terminator _ _); [by apply Hfail|].
  destruct (hk_arm64_relocate _ _ _ _) as [relocated n].
  destruct (n =? 0); [by apply Hfail|].
  destruct (hk_arm64_emit_branch (u64 (_ + n)) _) as [back back_len].
  destruct (_ || _); [by apply Hfail|]. unfold bind at 1, on_device, zoom.
  pose proof (build_page_held continuation_only page replacement (relocated ++ back) (ew_device w)) as Hb.
  destruct (build_page _ _ _ _ _) as [built d1]. simpl in Hb.
  destruct built; simpl (negb _); [|apply Hfail; [done|done|by simpl; rewrite Hb]].
  unfold bind at 1. simpl (ew_device _).
  pose proof (pl_seal page HK_RELOC_PAGE_BYTES d1 _ ltac:(rewrite Hb; exact HS)) as Hs.
  destruct (seal page HK_RELOC_PAGE_BYTES d1) as [sealed d2]. simpl in Hs. rewrite <- HS in Hs.
  destruct sealed; simpl (negb _); [|by apply Hfail].
  destruct (if continuation_only then _ else _) as [patch written].
  destruct (negb _); [by apply Hfail|].
  unfold bind, on_ids, zoom. destruct (hk_id_generate _) as [id ids']. unfold ret. simpl.
  split; [done|]. split; [done|]. eexists. split; [done|]. by split.
Qed.

Lemma reloc_prepare_held target replacement overwrite_size expected (w : world) S :
  pages w = Some S →
  let '((st, plan), w') :=
    reloc_prepare target replacement overwrite_size expected (Some alloc) (Some seal)
      (Some free_page) w in
  ew_objects w' = ew_objects w ∧
  if decide (st = HK_RELOC_OK)
  then ∃ page pl, plan = Some pl ∧ committable page pl ∧ page ≠ 0 ∧ page ∉ S ∧
         pages w' = Some ({[page]} ∪ S)
  else pages w' = Some S.
Proof.
  intros HS. unfold reloc_prepare. destruct (Z.eqb_spec target 0) as [|Ht0]; [done|].
  destruct (_ || _) eqn:E1 in |- *; [done|].
  destruct (bad_expectation _ _); [done|]. destruct (Z.land target 3 =? 0); cbn [negb]; [|done].
  unfold bind at 1, on_device, zoom.
  pose proof (pl_alloc HK_RELOC_PAGE_BYTES target (ew_device w) S HS) as Ha.
  destruct (alloc HK_RELOC_PAGE_BYTES target (ew_device w)) as [[page mapping] d1]. simpl in Ha.
  set (w1 := w <| ew_device := d1 |>).
  destruct (decide (page = 0)) as [->|Hp].
  { simpl (bad_page 0 mapping). simpl. unfold reloc_release_and_fail, bind, ret, set_field. simpl. done. }
  destruct Ha as [Hnew Hheld].
  assert (Hfail : ∀ st, st ≠ HK_RELOC_OK →
    let '((st', plan), w') := reloc_release_and_fail (Some free_page) page st w1 in
    ew_objects w' = ew_objects w ∧
    if decide (st' = HK_RELOC_OK)
    then ∃ page pl, plan = Some pl ∧ committable page pl ∧ page ≠ 0 ∧ page ∉ S ∧
           pages w' = Some ({[page]} ∪ S)
    else pages w' = Some S).
  { intros st Hst. pose proof (release_and_fail_held page st w1 S Hheld Hnew Hp Hst) as H.
    destruct (reloc_release_and_fail _ _ _ _) as [[st' pl] w']. destruct H as (Hst' & Hh' & Ho').
    destruct (decide _); [done|]. by rewrite Ho'. }
  destruct (bad_page page mapping); [by apply Hfail|].
  destruct (entry_form _ _ _ _) as [[patch_size dest] atomic].
  destruct (Z.eqb_spec patch_size 0) as [|Hs0]; [by apply Hfail|].
  destruct (Z.ltb_spec HK_RELOC_MAX_PATCH patch_size) as [|Hs1]; [by apply Hfail|]. cbn [orb].
  destruct (_ || _) in |- *; [by apply Hfail|]. unfold bind, gets.
  pose proof (reloc_build_held target replacement (negb (overwrite_size =? 0)) expected page mapping
    patch_size dest atomic (bytes_at (d_mem (ew_device w1)) target (Z.to_nat patch_size)) w1 S Hheld Hnew Hp Ht0 Hs0 Hs1) as H.
  destruct (reloc_build _ _ _ _ _ _ _ _ _ _ _ _ _) as [[st plan] w']. destruct H as [Ho H].
  split; [done|]. destruct (decide (st = HK_RELOC_OK)).
  - destruct H as (Hh & pl & -> & Hc). exists page, pl. do 4 (split; [done|]). by rewrite Hh.
  - done.
Qed.

(** ** The adapter *)

Context (ctx_at : Z → option (hk_reloc_engine_ctx X)) (image_span : hk_image_entry → option (Z * Z)).
Context (strip sign : Z → Z).
Context (engine_ctx : Z) (ctx : hk_reloc_engine_ctx X) (Hctx : ctx_at engine_ctx = Some ctx).
Context (Halloc : rc_alloc ctx = Some alloc) (Hseal : rc_seal ctx = Some seal).
Context (Hfree : rc_free_page ctx = Some free_page) (Hwrite : rc_write ctx = Some write).

Lemma free_trampoline_held plan (w : world) S :
  pages w = Some S → rl_trampoline plan = 0 ∨ rl_trampoline plan ∈ S →
  let '(_, w') := free_trampoline ctx plan w in
  ew_objects w' = ew_objects w ∧
  pages w' = Some (if decide (rl_trampoline plan = 0) then S else S ∖ {[rl_trampoline plan]}).
Proof.
  intros HS Hin. unfold free_trampoline. rewrite Hfree. destruct (decide _) as [->|Hp]; [done|].
  destruct Hin as [|Hin]; [done|].
  rewrite (proj2 (Z.eqb_neq _ _) Hp). simpl. unfold on_device, zoom.
  pose proof (pl_free (rl_trampoline plan) (rl_trampoline_size plan) (ew_device w) S HS Hin) as H.
  by destruct (free_page _ _ _) as [[] d].
Qed.

Lemma prepare_ctx_held spec (w : world) S :
  pages w = Some S →
  let '((result, p, _), w') :=
    reloc_prepare_one_ctx_status ctx_at image_span strip engine_ctx spec w in
  if decide (result = HK_PREPARE_OK) then
    ∃ page pl, p ≠ 0 ∧ ew_objects w' !! p = Some pl ∧ committable page pl ∧ page ≠ 0 ∧
      page ∉ S ∧ pages w' = Some ({[page]} ∪ S)
  else pages w' = Some S.
Proof.
  intros HS. unfold reloc_prepare_one_ctx_status. rewrite Hctx.
  destruct (hs_target spec) as [|addr| | | |]; try done.
  destruct (scope_refuses _); [done|]. unfold bind at 1, malloc_object, zoom.
  destruct (alloc_object (ew_heap w)) as [q h]. destruct (Z.eqb_spec q 0) as [|Hq]; [done|].
  rewrite Halloc, Hseal, Hfree. unfold bind at 1, hk_reloc_prepare.
  set (w0 := w <| ew_heap := h |>).
  pose proof (reloc_prepare_held (entry_address strip addr) (strip (hs_replacement spec)) 0
    (ad_expected_initial_bytes addr) w0 S HS) as H.
  destruct (reloc_prepare _ _ _ _ _ _ _ _) as [[st plan] w1]. destruct H as [_ H].
  destruct st; simpl in *; try done.
  destruct H as (page & pl & -> & Hc & Hp & Hnew & Hh).
  destruct (negb (rl_atomic_entry_patch pl) && _).
  - unfold bind. pose proof (free_trampoline_held pl w1 _ Hh
      ltac:(right; rewrite (cm_trampoline _ _ Hc); set_solver)) as Hf.
    destruct (free_trampoline _ _ _) as [[] w2]. destruct Hf as [_ Hf]. unfold ret. simpl.
    rewrite Hf, (cm_trampoline _ _ Hc). destruct (decide (page = 0)); [done|]. f_equal. set_solver.
  - unfold bind, put_object, modify, ret, set_field. simpl.
    exists page, (pl <| rl_replacement := hs_replacement spec |>). split; [done|].
    rewrite lookup_insert. destruct (decide (q = q)); [|done].
    split; [done|]. split; [by destruct Hc|done].
Qed.

Lemma commit_held page plan d S :
  held (d_ctx d) = Some S → page ∈ S → committable page plan → page ≠ 0 →
  let '((m, _, plan'), d') := hk_reloc_commit strip sign plan (Some write) (Some free_page) true d in
  if decide (m = HK_MUTATION_NONE)
  then held (d_ctx d') = Some (S ∖ {[page]}) ∧ rl_trampoline plan' = 0
  else held (d_ctx d') = Some S ∧ rl_activated plan' = true.
Proof.
  intros HS Hin [Ht Hc Ha Had [Hs0 Hs1]] Hp. unfold hk_reloc_commit.
  rewrite Ha, Hc, (proj2 (Z.eqb_neq _ _) Had), (proj2 (Z.eqb_neq _ _) Hs0), (proj2 (Z.ltb_ge _ _) Hs1).
  simpl. unfold bind at 1.
  assert (Hg : held (d_ctx (guarded_write write (rl_address plan) (rl_original plan) (rl_patch plan) d).2)
               = Some S).
  { unfold guarded_write. destruct (still_holds _ _ _); [by apply pl_write|done]. }
  destruct (guarded_write _ _ _ _ _) as [m d1]. simpl in Hg.
  destruct (bool_decide_reflect (m = HK_MUTATION_NONE)) as [->|Hm].
  - rewrite Ht, (proj2 (Z.eqb_neq _ _) Hp). unfold bind.
    pose proof (pl_free page (rl_trampoline_size plan) d1 S Hg Hin) as Hf.
    destruct (free_page _ _ d1) as [[] d2]. unfold ret. destruct (decide _); [|done].
    simpl in *. done.
  - unfold ret. destruct (decide _) as [E|_]; [by destruct m|]. done.
Qed.

Lemma release_prepared_held p (v : world) plan S : p ≠ 0 → ew_objects v !! p = Some plan →
  pages v = Some S → rl_trampoline plan = 0 ∨ rl_trampoline plan ∈ S →
  pages (reloc_release_prepared ctx_at engine_ctx p v).2 =
    Some (if rl_activated plan then S
          else if decide (rl_trampoline plan = 0) then S else S ∖ {[rl_trampoline plan]}).
Proof.
  intros Hp Hv HS Hin. unfold reloc_release_prepared, get_object, bind at 1, gets.
  rewrite (proj2 (Z.eqb_neq _ _) Hp), Hv, Hctx. unfold bind.
  destruct (rl_activated plan); [done|]. simpl.
  pose proof (free_trampoline_held plan v S HS Hin) as Hf.
  destruct (free_trampoline ctx plan v) as [[] v']. destruct Hf as [_ Hf].
  unfold free_object, modify, set_field. simpl. exact Hf.
Qed.

(** Against any page seams that keep books, the engine neither leaks a
    trampoline page nor gives one back twice.  A refused preparation, whatever
    the reason, holds what was held before; an accepted one holds exactly one
    page more, new to the books.  Releasing the preparation unused gives that
    page back.  A commit that answers NONE gives it back at once, any other
    answer keeps it for good, and in both cases the release that follows
    changes nothing more. *)
Theorem reloc_page_accounting spec sink (w : world) S :
  pages w = Some S →
  let '((result, p, _), w1) :=
    reloc_prepare_one_ctx_status ctx_at image_span strip engine_ctx spec w in
  if decide (result = HK_PREPARE_OK) then
    ∃ page, page ∉ S ∧ pages w1 = Some ({[page]} ∪ S) ∧
    ∀ (w2 : world) S2, ew_objects w2 !! p = ew_objects w1 !! p → pages w2 = Some S2 → page ∈ S2 →
      pages (reloc_release_prepared ctx_at engine_ctx p w2).2 = Some (S2 ∖ {[page]}) ∧
      let '(reply, w3) := reloc_commit_one_ctx ctx_at strip sign engine_ctx spec p sink w2 in
      pages w3 = Some (if decide (cr_mutation reply = HK_MUTATION_NONE) then S2 ∖ {[page]} else S2) ∧
      pages (reloc_release_prepared ctx_at engine_ctx p w3).2 = pages w3
  else pages w1 = Some S.
Proof.
  intros HS. pose proof (prepare_ctx_held spec w S HS) as H.
  destruct (reloc_prepare_one_ctx_status _ _ _ _ _ _) as [[[result p] diag] w1].
  destruct (decide (result = HK_PREPARE_OK)); [|done].
  destruct H as (page & pl & Hp & Hobj & Hc & Hpage & Hnew & Hh).
  exists page. split; [done|]. split; [done|]. intros w2 S2 Ho HS2 Hin. rewrite Hobj in Ho.
  split.
  { rewrite (release_prepared_held p w2 pl S2 Hp Ho HS2)
      by (right; by rewrite (cm_trampoline _ _ Hc)).
    rewrite (cm_activated _ _ Hc), (cm_trampoline _ _ Hc). by destruct (decide (page = 0)). }
  unfold reloc_commit_one_ctx, get_object, bind at 1, gets.
  rewrite (proj2 (Z.eqb_neq _ _) Hp), Ho, Hctx. unfold bind at 1, on_device, zoom.
  rewrite Hwrite, Hfree. pose proof (commit_held page pl (ew_device w2) S2 HS2 Hin Hc Hpage) as Hcommit.
  destruct (hk_reloc_commit _ _ _ _ _ _ _) as [[[m artifacts] plan'] d'].
  unfold bind, put_object, modify, ret, set_field. cbn [cr_mutation]. simpl.
  set (w3 := EngineWorld d' (ew_heap w2) (ew_ids w2) (<[p:=plan']> (ew_objects w2))).
  assert (Hobj' : ew_objects w3 !! p = Some plan').
  { simpl. rewrite lookup_insert. by destruct (decide (p = p)). }
  destruct (decide (m = HK_MUTATION_NONE)); destruct Hcommit as [Hheld Hplan]; (split; [exact Hheld|]).
  - rewrite (release_prepared_held p w3 plan' _ Hp Hobj' Hheld) by by left.
    rewrite Hplan. simpl. rewrite Hheld. by destruct (rl_activated plan'), (decide (0 = 0)).
  - unfold reloc_release_prepared, get_object, bind at 1, gets.
    rewrite (proj2 (Z.eqb_neq _ _) Hp), Hobj', Hctx. by rewrite Hplan.
Qed.
End Accounting.

(** ** Witness: a ledger of one page. *)

Definition demo_ledger_alloc : reloc_alloc (gset Z) := λ _ _ d,
  if decide (0x10000 ∈ d_ctx d) then ((0, zero_mapping), d)
  else ((0x10000, zero_mapping <| mp_kind := HK_MAPPING_ANONYMOUS |>
                               <| mp_base := 0x10000 |> <| mp_size := 0x1000 |>),
        Device (d_mem d) ({[0x10000]} ∪ d_ctx d)).
Definition demo_ledger_seal : reloc_seal (gset Z) := λ _ _, ret true.
Definition demo_ledger_free : reloc_free (gset Z) := λ page _ d,
  (tt, Device (d_mem d) (d_ctx d ∖ {[page]})).
Definition demo_ledger_write : writer (gset Z) := λ a l d,
  (HK_MUTATION_COMPLETE, Device (store a l (d_mem d)) (d_ctx d)).

#[local] Instance demo_ledger :
  PageLedger Some demo_ledger_alloc demo_ledger_seal demo_ledger_free demo_ledger_write.
Proof.
  split; simpl.
  - intros size near d S HS. injection HS as <-. unfold demo_ledger_alloc.
    destruct (decide (0x10000 ∈ d_ctx d)); simpl; [done|]. by split.
  - intros page size d S HS. by injection HS as <-.
  - intros page size d S HS _. by injection HS as <-.
  - intros a l d S HS. by injection HS as <-.
Qed.

Definition demo_ledger_ctx (_ : Z) : option (hk_reloc_engine_ctx (gset Z)) :=
  Some (RelocEngineCtx (Some demo_ledger_alloc) (Some demo_ledger_seal) (Some demo_ledger_free)
          (Some demo_ledger_write) None false).

Lemma reloc_page_accounting_witness :
  let spec := demo_memory_spec (demo_entry 0x4000) in
  let w := EngineWorld (Device demo_nops ∅) demo_heap (Ids None 0 7) ∅ in
  let r := reloc_prepare_one_ctx_status demo_ledger_ctx (λ _, None) id 0 spec w in
  r.1.1.1 = HK_PREPARE_OK ∧
  ∃ page, d_ctx (ew_device r.2) = {[page]} ∧
    d_ctx (ew_device (reloc_release_prepared demo_ledger_ctx 0 r.1.1.2 r.2).2) = ∅.
Proof.
  intros spec w r. split; [reflexivity|].
  pose proof (reloc_page_accounting Some demo_ledger_alloc demo_ledger_seal demo_ledger_free
    demo_ledger_write demo_ledger_ctx (λ _, None) id id 0 _ eq_refl eq_refl eq_refl eq_refl eq_refl
    spec demo_sink w ∅ eq_refl) as H.
  change (reloc_prepare_one_ctx_status demo_ledger_ctx (λ _, None) id 0 spec w) with r in H.
  assert (Hr : r.1.1.1 = HK_PREPARE_OK) by reflexivity.
  clearbody r. clear -H Hr. destruct r as [[[result p] diag] w1]. simpl in Hr. rewrite Hr in H. cbv beta iota zeta in H.
  destruct (decide (HK_PREPARE_OK = HK_PREPARE_OK)); [|done].
  destruct H as (page & _ & Hpages & H). rewrite union_empty_r_L in Hpages.
  exists page. split; [by injection Hpages|].
  destruct (H w1 {[page]} eq_refl Hpages) as [Hrel _]; [by apply elem_of_singleton|].
  rewrite difference_diag_L in Hrel. by injection Hrel.
Defined.
