(* ===== verification/ProviderEngine.v ===== *)
(** * The provider inline adapters (src/engines/HKProviderVtable.c)

    One lifecycle behind four audited vendors.  What a vendor supplies is a
    record of callbacks; a vendor that publishes its original too late gets a
    continuation HookKit relocates itself. *)

From stdpp Require Import base list strings gmap numbers option.
From S2P Require Import Prelude Types ImageCatalog Artifacts Engine Memory Arm64 Device PatchCode EngineWorld MemoryEngine InlineEngine RelocEngine.

Inductive hk_provider_kind : Type :=
  | HK_PROVIDER_DOBBY | HK_PROVIDER_GUM | HK_PROVIDER_ELLEKIT | HK_PROVIDER_SUBSTITUTE.

#[export] Instance hk_provider_kind_eq_dec : EqDecision hk_provider_kind.
Proof. solve_decision. Defined.

(** The callbacks over the process [X].  [discover], [validate], [verify] and
    [read] are read-only; [prepare] and [validate] get the diagnosis as it
    stands and leave it; [hook] gets what the original's cell holds ([None] where
    there is none) and answers its code with what the cell holds then. *)
Record hk_provider_engine_ctx {X : Type} : Type := ProviderEngineCtx {
  pv_kind : hk_provider_kind;
  pv_discover : option (device X → bool);
  pv_prepare : option (hk_prepare_diag → M (device X) (bool * hk_prepare_diag));
  pv_validate : option (hk_hook_spec → hk_prepare_diag → device X → bool * hk_prepare_diag);
  pv_hook : option (Z → Z → option Z → M (device X) (Z * Z));
  pv_verify : option (Z → Z → device X → bool);
  pv_read : option (Z → Z → device X → option (list Z));
  pv_max_overwrite_size : Z;
  pv_alloc : option (reloc_alloc X);
  pv_seal : option (reloc_seal X);
  pv_free_page : option (reloc_free X) }.
Arguments hk_provider_engine_ctx : clear implicits.
Arguments ProviderEngineCtx {X} _ _ _ _ _ _ _ _ _ _ _.

(** ** The four profiles *)

Record provider_profile : Type := ProviderProfile {
  pf_kind : hk_provider_kind;
  pf_engine_id : string;
  pf_mechanism_id : string;
  pf_backend_group : string;
  pf_display_name : string;
  pf_inspection_size : Z;
  pf_architectures : Z;
  pf_certified_architectures : Z;
  pf_minimum_ios_version : Z;
  pf_install_contexts : Z;
  pf_original_requirements : Z;
  pf_prepare_effects : Z;
  pf_commit_effects : Z;
  pf_activation_happens_at_commit : bool;
  pf_publishes_original_before_activation : bool }.

Definition HK_ENGINE_ARCHITECTURE_ARM64 : Z := 2 ^ 0.
Definition HK_ENGINE_ARCHITECTURE_ARM64E : Z := 2 ^ 1.
Definition HK_ENGINE_ARCHITECTURE_ARMV7 : Z := 2 ^ 2.
Definition HK_ENGINE_ARCHITECTURE_ARMV7S : Z := 2 ^ 3.

Definition bits_of (l : list Z) : Z := foldr Z.lor 0 l.

Definition HK_INSTALL_CONTEXT_ALL : Z := bits_of (HK_INSTALL_CONTEXT_BIT <$>
  [HK_INSTALL_CONTEXT_EARLY_PROCESS; HK_INSTALL_CONTEXT_MAIN_THREAD_SERIALIZED;
   HK_INSTALL_CONTEXT_RUNTIME_SERIALIZED; HK_INSTALL_CONTEXT_ARBITRARY_RUNTIME]).

Definition g_dobby_profile : provider_profile := {|
  pf_kind := HK_PROVIDER_DOBBY;
  pf_engine_id := "provider-dobby";
  pf_mechanism_id := "DobbyHook";
  pf_backend_group := "dobby";
  pf_display_name := "Dobby";
  pf_inspection_size := 16;
  pf_architectures := bits_of [HK_ENGINE_ARCHITECTURE_ARM64; HK_ENGINE_ARCHITECTURE_ARM64E];
  pf_certified_architectures := bits_of [HK_ENGINE_ARCHITECTURE_ARM64; HK_ENGINE_ARCHITECTURE_ARM64E];
  pf_minimum_ios_version := HK_ENGINE_IOS_VERSION 15 0 0;
  pf_install_contexts := bits_of (HK_INSTALL_CONTEXT_BIT <$>
    [HK_INSTALL_CONTEXT_EARLY_PROCESS; HK_INSTALL_CONTEXT_MAIN_THREAD_SERIALIZED]);
  pf_original_requirements := bits_of (HK_ORIGINAL_REQ_BIT <$>
    [HK_ORIGINAL_NONE; HK_ORIGINAL_CALLABLE_CONTINUATION]);
  pf_prepare_effects := 0;
  pf_commit_effects := bits_of [HK_EFFECT_TARGET_TEXT_MUTATION; HK_EFFECT_EXECUTABLE_ALLOCATION;
    HK_EFFECT_PROVIDER_ACTIVATION; HK_EFFECT_UNKNOWN_PROCESS_MUTATION];
  pf_activation_happens_at_commit := true;
  pf_publishes_original_before_activation := true |}.

Definition g_gum_profile : provider_profile := {|
  pf_kind := HK_PROVIDER_GUM;
  pf_engine_id := "provider-gum";
  pf_mechanism_id := "hkgum_hook_function";
  pf_backend_group := "gum";
  pf_display_name := "Frida Gum";
  pf_inspection_size := 4;
  pf_architectures := bits_of [HK_ENGINE_ARCHITECTURE_ARM64; HK_ENGINE_ARCHITECTURE_ARM64E];
  pf_certified_architectures := bits_of [HK_ENGINE_ARCHITECTURE_ARM64; HK_ENGINE_ARCHITECTURE_ARM64E];
  pf_minimum_ios_version := HK_ENGINE_IOS_VERSION 15 0 0;
  pf_install_contexts := HK_INSTALL_CONTEXT_ALL;
  pf_original_requirements := bits_of (HK_ORIGINAL_REQ_BIT <$>
    [HK_ORIGINAL_NONE; HK_ORIGINAL_CALLABLE_CONTINUATION]);
  pf_prepare_effects := bits_of [HK_EFFECT_PROVIDER_IMAGE_LOAD; HK_EFFECT_PROVIDER_ACTIVATION;
    HK_EFFECT_UNKNOWN_PROCESS_MUTATION];
  pf_commit_effects := bits_of [HK_EFFECT_TARGET_TEXT_MUTATION; HK_EFFECT_EXECUTABLE_ALLOCATION;
    HK_EFFECT_UNKNOWN_PROCESS_MUTATION];
  pf_activation_happens_at_commit := false;
  pf_publishes_original_before_activation := true |}.

Definition g_ellekit_profile : provider_profile := {|
  pf_kind := HK_PROVIDER_ELLEKIT;
  pf_engine_id := "provider-ellekit";
  pf_mechanism_id := "LHHookFunctions";
  pf_backend_group := "ellekit";
  pf_display_name := "ElleKit";
  pf_inspection_size := 4;
  pf_architectures := bits_of [HK_ENGINE_ARCHITECTURE_ARM64; HK_ENGINE_ARCHITECTURE_ARM64E];
  pf_certified_architectures := bits_of [HK_ENGINE_ARCHITECTURE_ARM64; HK_ENGINE_ARCHITECTURE_ARM64E];
  pf_minimum_ios_version := HK_ENGINE_IOS_VERSION 15 0 0;
  pf_install_contexts := bits_of (HK_INSTALL_CONTEXT_BIT <$>
    [HK_INSTALL_CONTEXT_EARLY_PROCESS; HK_INSTALL_CONTEXT_MAIN_THREAD_SERIALIZED]);
  pf_original_requirements := bits_of (HK_ORIGINAL_REQ_BIT <$>
    [HK_ORIGINAL_NONE; HK_ORIGINAL_CALLABLE_CONTINUATION]);
  pf_prepare_effects := bits_of [HK_EFFECT_PROVIDER_IMAGE_LOAD; HK_EFFECT_PROVIDER_ACTIVATION;
    HK_EFFECT_EXECUTABLE_ALLOCATION; HK_EFFECT_STATIC_CONTINUATION_USE;
    HK_EFFECT_UNKNOWN_PROCESS_MUTATION];
  pf_commit_effects := bits_of [HK_EFFECT_TARGET_TEXT_MUTATION; HK_EFFECT_EXECUTABLE_ALLOCATION;
    HK_EFFECT_STATIC_CONTINUATION_USE; HK_EFFECT_UNKNOWN_PROCESS_MUTATION];
  pf_activation_happens_at_commit := false;
  pf_publishes_original_before_activation := false |}.

Definition g_substitute_profile : provider_profile := {|
  pf_kind := HK_PROVIDER_SUBSTITUTE;
  pf_engine_id := "provider-substitute";
  pf_mechanism_id := "substitute_hook_functions/MSHookFunction";
  pf_backend_group := "substitute";
  pf_display_name := "Substitute";
  pf_inspection_size := 4;
  pf_architectures := bits_of [HK_ENGINE_ARCHITECTURE_ARMV7; HK_ENGINE_ARCHITECTURE_ARMV7S;
    HK_ENGINE_ARCHITECTURE_ARM64; HK_ENGINE_ARCHITECTURE_ARM64E];
  pf_certified_architectures := bits_of [HK_ENGINE_ARCHITECTURE_ARMV7; HK_ENGINE_ARCHITECTURE_ARMV7S;
    HK_ENGINE_ARCHITECTURE_ARM64; HK_ENGINE_ARCHITECTURE_ARM64E];
  pf_minimum_ios_version := HK_ENGINE_IOS_VERSION 9 0 0;
  pf_install_contexts := bits_of (HK_INSTALL_CONTEXT_BIT <$>
    [HK_INSTALL_CONTEXT_EARLY_PROCESS; HK_INSTALL_CONTEXT_MAIN_THREAD_SERIALIZED]);
  pf_original_requirements := bits_of (HK_ORIGINAL_REQ_BIT <$>
    [HK_ORIGINAL_NONE; HK_ORIGINAL_CALLABLE_CONTINUATION]);
  pf_prepare_effects := bits_of [HK_EFFECT_PROVIDER_IMAGE_LOAD; HK_EFFECT_PROVIDER_ACTIVATION;
    HK_EFFECT_UNKNOWN_PROCESS_MUTATION];
  pf_commit_effects := bits_of [HK_EFFECT_TARGET_TEXT_MUTATION; HK_EFFECT_EXECUTABLE_ALLOCATION;
    HK_EFFECT_UNKNOWN_PROCESS_MUTATION];
  pf_activation_happens_at_commit := false;
  pf_publishes_original_before_activation := true |}.

(** [pp_continuation] is there when [pp_hybrid] is; [pp_inspection_size] bytes of
    [pp_inspected] are used. *)
Record provider_prepared : Type := ProviderPrepared {
  pp_target : Z;
  pp_replacement : Z;
  pp_inspection_size : Z;
  pp_inspected : list Z;
  pp_hybrid : option hk_reloc_plan;
  pp_provider_called : bool }.

#[export] Instance provider_prepared_eta : Eta provider_prepared := λ p,
  ProviderPrepared (pp_target p) (pp_replacement p) (pp_inspection_size p) (pp_inspected p)
    (pp_hybrid p) (pp_provider_called p).

Definition provider_describe (profile : provider_profile) : hk_engine_capabilities :=
  Capabilities (Some (pf_engine_id profile)) (Some (pf_backend_group profile))
    (Some (pf_display_name profile))
    (HK_TARGET_KIND_BIT HK_TARGET_FUNCTION_ADDRESS) 0 (pf_install_contexts profile)
    (pf_architectures profile) (pf_certified_architectures profile) (pf_minimum_ios_version profile)
    HK_REACH_ENTRYPOINT (pf_original_requirements profile)
    (pf_prepare_effects profile) (pf_commit_effects profile) false false 0.

Section Adapter.
Context {X : Type}.
Context (ctx_at : Z → option (hk_provider_engine_ctx X)).
Context (strip sign : Z → Z).
Context (profile : provider_profile).
Local Abbreviation world := (engine_world X provider_prepared).
Local Abbreviation ctx_type := (hk_provider_engine_ctx X).

Definition provider_context (engine_ctx : Z) : option ctx_type :=
  match ctx_at engine_ctx with
  | Some ctx => if bool_decide (pv_kind ctx = pf_kind profile) then Some ctx else None
  | None => None
  end.

Definition provider_hybrid_available (ctx : ctx_type) : bool :=
  negb (pv_max_overwrite_size ctx =? 0) && (pv_max_overwrite_size ctx <=? HK_RELOC_MAX_PATCH) &&
  (Z.land (pv_max_overwrite_size ctx) 3 =? 0) &&
  bool_decide (is_Some (pv_alloc ctx)) && bool_decide (is_Some (pv_seal ctx)).

Definition provider_needs_hybrid (spec : hk_hook_spec) : bool :=
  negb (pf_publishes_original_before_activation profile) &&
  bool_decide (hs_original_requirement spec = HK_ORIGINAL_CALLABLE_CONTINUATION).

Definition provider_target_address (addr : hk_address_target) : Z := entry_address strip addr.

Definition original_offered (spec : hk_hook_spec) : bool :=
  negb (Z.land (pf_original_requirements profile)
          (HK_ORIGINAL_REQ_BIT (hs_original_requirement spec)) =? 0).

Definition expected_size (addr : hk_address_target) : Z :=
  match ad_expected_initial_bytes addr with BytesNull n => n | Bytes l => Z.of_nat (length l) end.

Definition canonical (spec : hk_hook_spec) (addr : hk_address_target) : hk_hook_spec :=
  spec <| hs_target := TAddress (addr <| ad_address := provider_target_address addr |>) |>.

(** ** Discovery and analysis *)

Definition provider_discover (engine_ctx : Z) (w : world) : bool * bool :=
  match provider_context engine_ctx with
  | None => (false, false)
  | Some ctx =>
      (true, match pv_discover ctx with None => true | Some discover => discover (ew_device w) end)
  end.

(** The window an adapter reads before and after. *)
Definition inspection_window (ctx : ctx_type) (spec : hk_hook_spec) : Z :=
  if provider_needs_hybrid spec then pv_max_overwrite_size ctx else pf_inspection_size profile.

(** The context, the target and the vendor's call of a request that makes sense. *)
Definition provider_request (engine_ctx : Z) (spec : hk_hook_spec) : option (ctx_type * hk_address_target) :=
  match provider_context engine_ctx, hs_target spec with
  | Some ctx, TAddress addr =>
      if (hs_replacement spec =? 0) || (provider_target_address addr =? 0) ||
         bool_decide (pv_hook ctx = None)
      then None else Some (ctx, addr)
  | _, _ => None
  end.

Definition provider_analyze (engine_ctx : Z) (spec : hk_hook_spec) (w : world)
    : bool * hk_engine_analysis :=
  let refused := EngineAnalysis false 0 0 0 0 in
  match provider_request engine_ctx spec with
  | None => (false, refused)
  | Some (ctx, addr) =>
      if negb (original_offered spec) ||
         negb (bool_decide (hs_continuation_policy spec = HK_CONTINUATION_ANY)) ||
         (provider_needs_hybrid spec && negb (provider_hybrid_available ctx)) ||
         (inspection_window ctx spec <? expected_size addr)
      then (true, refused)
      else if match pv_validate ctx with
              | None => true
              | Some validate => (validate (canonical spec addr) no_prepare_diag (ew_device w)).1
              end
      then (true, EngineAnalysis true HK_REACH_ENTRYPOINT (pf_prepare_effects profile)
                    (pf_commit_effects profile) 0)
      else (true, refused)
  end.

(** ** Preparation *)

(** [read], or a [memcpy]. *)
Definition read_entry (ctx : ctx_type) (target size : Z) (d : device X) : option (list Z) :=
  match pv_read ctx with
  | Some read => read target size d
  | None => Some (bytes_at (d_mem d) target (Z.to_nat size))
  end.

(** [hk_reloc_prepare_continuation], which uses no prepared object. *)
Definition prepare_continuation (ctx : ctx_type) (target : Z) (expected : bytes_view)
    : M world (hk_reloc_status * option hk_reloc_plan) :=
  zoom (λ w, EngineWorld (ew_device w) (ew_heap w) (ew_ids w) (∅ : gmap Z hk_reloc_plan))
    (λ v w, w <| ew_device := ew_device v |> <| ew_heap := ew_heap v |> <| ew_ids := ew_ids v |>)
    (hk_reloc_prepare_continuation target (pv_max_overwrite_size ctx) expected
       (pv_alloc ctx) (pv_seal ctx) (pv_free_page ctx)).

Definition with_message (message : string) (diag : hk_prepare_diag) : hk_prepare_diag :=
  diag <| pd_error_message := Some message |>.
Definition or_message (message : string) (diag : hk_prepare_diag) : hk_prepare_diag :=
  match pd_error_message diag with Some _ => diag | None => with_message message diag end.

Definition expected_holds (expected : bytes_view) (target : Z) (d : device X) : bool :=
  match expected with
  | BytesNull n => n =? 0
  | Bytes l => still_holds (d_mem d) target l
  end.

Definition free_continuation (ctx : ctx_type) (plan : hk_reloc_plan) : M world unit :=
  match pv_free_page ctx with
  | Some free_page => on_device (free_page (rl_trampoline plan) (rl_trampoline_size plan))
  | None => ret tt
  end.

Definition activate (ctx : ctx_type) (diag : hk_prepare_diag) : M world (bool * hk_prepare_diag) :=
  match pv_prepare ctx with None => ret (true, diag) | Some prepare => on_device (prepare diag) end.

(** What a refused activation leaves behind goes back. *)
Definition drop_continuation (ctx : ctx_type) (hybrid : option hk_reloc_plan) : M world unit :=
  match hybrid with Some plan => free_continuation ctx plan | None => ret tt end.

(** Everything after the checks of the request. *)
Definition provider_build (ctx : ctx_type) (spec : hk_hook_spec) (addr : hk_address_target)
    (diag : hk_prepare_diag) : M world (hk_prepare_result * Z * hk_prepare_diag) :=
  let failed diag := ret (HK_PREPARE_FAILED, 0, diag) in
  let target := provider_target_address addr in
  let size := inspection_window ctx spec in
  p <- malloc_object ;;
  if p =? 0 then failed (with_message "out of memory" diag)
  else
    d <- gets ew_device ;;
    match (if size =? 0 then Some [] else read_entry ctx target size d) with
    | None => failed (with_message "provider entry bytes are unreadable" diag)
    | Some inspected =>
        continuation <- (if provider_needs_hybrid spec
                         then prepare_continuation ctx target (ad_expected_initial_bytes addr)
                         else ret (HK_RELOC_OK, None)) ;;
        match continuation with
        | (HK_RELOC_OK, hybrid) =>
            activated <- activate ctx diag ;;
            let '(ok, diag) := activated in
            if negb ok then
              drop_continuation ctx hybrid ;;;
              failed (or_message "provider activation failed" diag)
            else
              put_object p (ProviderPrepared target (hs_replacement spec) size inspected hybrid false) ;;;
              ret (HK_PREPARE_OK, p,
                   match hybrid with
                   | Some plan => diag <| pd_observed_effects := Z.lor (pd_observed_effects diag)
                       (if is_static (rl_mapping plan) then HK_EFFECT_STATIC_CONTINUATION_USE
                        else HK_EFFECT_EXECUTABLE_ALLOCATION) |>
                   | None => diag
                   end)
        | (status, _) =>
            failed (with_message "HookKit cannot relocate the provider's overwrite window"
                      (diag <| pd_error_code := hk_reloc_status_code status |>))
        end
    end.

Definition provider_prepare (engine_ctx : Z) (spec : hk_hook_spec)
    : M world (hk_prepare_result * Z * hk_prepare_diag) :=
  let failed diag := ret (HK_PREPARE_FAILED, 0, diag) in
  match provider_request engine_ctx spec with
  | None => failed (with_message "provider adapter received invalid hook state" no_prepare_diag)
  | Some (ctx, addr) =>
      if negb (original_offered spec)
      then failed (with_message "provider cannot publish the requested original" no_prepare_diag)
      else if provider_needs_hybrid spec && negb (provider_hybrid_available ctx)
      then failed (with_message
             "provider has no audited overwrite bound for a HookKit continuation" no_prepare_diag)
      else if (HK_RELOC_MAX_PATCH <? inspection_window ctx spec) ||
              (inspection_window ctx spec <? expected_size addr)
      then failed (with_message
             "provider cannot revalidate a precondition larger than its inspected entry window"
             no_prepare_diag)
      else
        d <- gets ew_device ;;
        let '(valid, diag) := match pv_validate ctx with
                              | None => (true, no_prepare_diag)
                              | Some validate => validate (canonical spec addr) no_prepare_diag d
                              end in
        if negb valid then failed (or_message "provider preflight refused the target" diag)
        else if negb (expected_size addr =? 0) &&
                negb (expected_holds (ad_expected_initial_bytes addr) (provider_target_address addr) d)
        then failed (with_message "target does not match the request's expected entry bytes" diag)
        else provider_build ctx spec addr diag
  end.

(** ** Records *)

Definition provider_mapping (prepared : provider_prepared) : hk_artifact_mapping :=
  match pp_hybrid prepared with
  | Some plan => rl_mapping plan
  | None => zero_mapping <| mp_kind := HK_MAPPING_PROVIDER_OWNED |>
  end.

(** A record of this engine, with [fully_inspected] after the fields the others
    set. *)
Definition provider_artifact (mechanism : string) (kind : hk_artifact_kind) (effects : Z)
    (original : hk_byte_storage) (facts : artifact_facts) (fully_inspected : bool) : hk_artifact :=
  let a := engine_artifact (pf_engine_id profile) kind HK_ARTIFACT_COMMITTED effects original facts in
  a <| a_mechanism_id := View mechanism |> <| a_facts := a_facts a ++ [Z.b2z fully_inspected] |>.

Definition provider_record (kind : hk_artifact_kind) (effects : Z) (prepared : provider_prepared)
    (spec : hk_hook_spec) (original : Z) : hk_artifact :=
  let facts := facts_at (pp_target prepared) 0
                 <| af_replacement_pointer := hs_replacement spec |>
                 <| af_original_pointer := original |> in
  let record := provider_artifact (pf_mechanism_id profile) kind effects in
  match kind, pp_hybrid prepared with
  | HK_ARTIFACT_TARGET_TEXT_PATCH, Some plan =>
      record (inline_bytes (rl_original plan)) (facts <| af_size := rl_patch_size plan |>) false
  | HK_ARTIFACT_ORIGINAL_POINTER, hybrid =>
      record no_bytes (facts <| af_continuation_address := original |>
                             <| af_mapping := provider_mapping prepared |>)
        (bool_decide (is_Some hybrid))
  | _, _ => record no_bytes facts false
  end.

Definition callable (plan : hk_reloc_plan) : Z := hk_pac_make_callable strip sign (rl_original_entry plan).

Definition provider_record_hybrid_continuation (prepared : provider_prepared) : list hk_artifact :=
  match pp_hybrid prepared with
  | None => []
  | Some plan =>
      [provider_artifact "hookkit-provider-hybrid"
         (if is_static (rl_mapping plan) then HK_ARTIFACT_STATIC_CONTINUATION else HK_ARTIFACT_TRAMPOLINE)
         (if is_static (rl_mapping plan) then HK_EFFECT_STATIC_CONTINUATION_USE
          else HK_EFFECT_EXECUTABLE_ALLOCATION)
         no_bytes
         (facts_at (rl_trampoline plan) (rl_trampoline_size plan)
            <| af_continuation_address := callable plan |>
            <| af_jump_back_destination := u64 (pp_target prepared + rl_patch_size plan) |>
            <| af_mapping := rl_mapping plan |> <| af_current_protection := (true, false, true) |>)
         true]
  end.

Definition provider_record_unknown (prepared : provider_prepared) (spec : hk_hook_spec) : hk_artifact :=
  provider_record HK_ARTIFACT_UNKNOWN_PROCESS_MUTATION HK_EFFECT_UNKNOWN_PROCESS_MUTATION prepared spec 0.

Definition provider_fill_continuation (original : Z) : hk_continuation_info :=
  ContinuationInfo SIZEOF_CONTINUATION_INFO HK_CONTINUATION_KIND_DYNAMIC original
    [0; 0; 0; hk_mapping_kind_code HK_MAPPING_PROVIDER_OWNED; 0; 0; 0; 1; 0; 0; 0; 0; 0].

Definition provider_fill_hybrid_continuation (prepared : provider_prepared) : option hk_continuation_info :=
  hk_reloc_describe_continuation strip sign <$> pp_hybrid prepared.

(** ** Commit *)

(** The entry is still the one prepared. *)
Definition entry_revalidates (ctx : ctx_type) (prepared : provider_prepared) (d : device X) : bool :=
  (pp_inspection_size prepared =? 0) ||
  bool_decide (read_entry ctx (pp_target prepared) (pp_inspection_size prepared) d =
               Some (pp_inspected prepared)).

(** The guards before the entry is read again. *)
Definition commit_request (engine_ctx : Z) (spec : hk_hook_spec) (prepared : option provider_prepared)
    (sink : hk_artifact_sink) : option (ctx_type * provider_prepared) :=
  match provider_context engine_ctx, prepared, hs_target spec with
  | Some ctx, Some prepared, TAddress addr =>
      if negb (bool_decide (pv_hook ctx = None)) &&
         (pp_target prepared =? provider_target_address addr) &&
         (pp_replacement prepared =? hs_replacement spec) &&
         original_offered spec && negb (sk_require_predecessor_match sink)
      then Some (ctx, prepared) else None
  | _, _, _ => None
  end.

(** The records of a call that went well. *)
Definition success_artifacts (prepared : provider_prepared) (spec : hk_hook_spec) (original : Z)
    : list hk_artifact :=
  (if pf_activation_happens_at_commit profile
   then [provider_record HK_ARTIFACT_PROVIDER_ACTIVATION HK_EFFECT_PROVIDER_ACTIVATION prepared spec 0;
         provider_record_unknown prepared spec] else []) ++
  provider_record_hybrid_continuation prepared ++
  [provider_record HK_ARTIFACT_TARGET_TEXT_PATCH HK_EFFECT_TARGET_TEXT_MUTATION prepared spec original] ++
  (if original =? 0 then []
   else [provider_record HK_ARTIFACT_ORIGINAL_POINTER
           match pp_hybrid prepared with
           | Some plan => if is_static (rl_mapping plan) then HK_EFFECT_STATIC_CONTINUATION_USE
                          else HK_EFFECT_EXECUTABLE_ALLOCATION
           | None => HK_EFFECT_EXECUTABLE_ALLOCATION
           end prepared spec original]).

(** What the vendor is handed as the cell of the original, and whether it is the
    sink's. *)
Definition original_cell (prepared : provider_prepared) (publish : bool) (sink : hk_artifact_sink)
    : option Z :=
  if bool_decide (is_Some (pp_hybrid prepared)) || negb (pf_publishes_original_before_activation profile)
  then None else Some (if publish then sk_published_original sink else 0).

(** The vendor reported a failure, or left the cell empty. *)
Definition vendor_refused (code cell : Z) (out_original : option Z) : bool :=
  negb (code =? 0) || (bool_decide (is_Some out_original) && (cell =? 0)).

Definition provider_commit (engine_ctx : Z) (spec : hk_hook_spec) (p : Z) (sink : hk_artifact_sink)
    : M world commit_reply :=
  object <- get_object p ;;
  d <- gets ew_device ;;
  match commit_request engine_ctx spec object sink with
  | None => ret (CommitReply [] None None HK_MUTATION_NONE)
  | Some (ctx, prepared) =>
      match pv_hook ctx with
      | None => ret (CommitReply [] None None HK_MUTATION_NONE)
      | Some hook =>
          if negb (entry_revalidates ctx prepared d)
          then ret (CommitReply [] None None HK_MUTATION_NONE)
          else
            let hybrid := pp_hybrid prepared in
            let publish :=
              bool_decide (hs_original_requirement spec = HK_ORIGINAL_CALLABLE_CONTINUATION) &&
              (pf_publishes_original_before_activation profile || bool_decide (is_Some hybrid)) in
            let out_original := original_cell prepared publish sink in
            put_object p (prepared <| pp_provider_called := true |>) ;;;
            answer <- on_device (hook (pp_target prepared) (hs_replacement spec) out_original) ;;
            let '(code, cell) := answer in
            if vendor_refused code cell out_original then
              ret (CommitReply
                     (provider_record_hybrid_continuation prepared ++ [provider_record_unknown prepared spec])
                     match hybrid with
                     | Some plan => Some (callable plan)
                     | None => if publish && bool_decide (is_Some out_original) then Some cell else None
                     end
                     (provider_fill_hybrid_continuation prepared) HK_MUTATION_UNKNOWN)
            else
              let original := hk_pac_make_callable strip sign
                match hybrid with
                | Some plan => callable plan
                | None => if bool_decide (is_Some out_original) then cell else 0
                end in
              ret (CommitReply (success_artifacts prepared spec original)
                     (Some (if publish then original else 0))
                     match hybrid with
                     | Some _ => provider_fill_hybrid_continuation prepared
                     | None => if original =? 0 then None else Some (provider_fill_continuation original)
                     end
                     HK_MUTATION_COMPLETE)
      end
  end.

(** ** Verification, inspection, release *)

Definition provider_verify (engine_ctx : Z) (spec : hk_hook_spec) (p : Z)
    : M world (hk_verify_result * hk_verify_diag) :=
  object <- get_object p ;;
  d <- gets ew_device ;;
  let invalid := ret (HK_VERIFY_FAILED,
    VerifyDiag 0 (Some "provider verification received invalid prepared state")) in
  match provider_context engine_ctx, object, hs_target spec with
  | Some ctx, Some prepared, TAddress addr =>
      if negb (pp_target prepared =? provider_target_address addr) ||
         negb (pp_replacement prepared =? hs_replacement spec) then invalid
      else
        match pv_verify ctx with
        | None => ret (HK_VERIFY_UNAVAILABLE, no_verify_diag)
        | Some verify =>
            if verify (pp_target prepared) (hs_replacement spec) d
            then ret (HK_VERIFY_OK, no_verify_diag)
            else ret (HK_VERIFY_FAILED,
                      VerifyDiag 0 (Some "provider readback does not match replacement"))
        end
  | _, _, _ => invalid
  end.

Definition provider_inspect_continuation (engine_ctx : Z) (spec : hk_hook_spec) (p : Z)
    : M world (hk_verify_result * hk_continuation_info * hk_verify_diag) :=
  object <- get_object p ;;
  let invalid := ret (HK_VERIFY_FAILED, zero_continuation,
    VerifyDiag 0 (Some "provider continuation inspection received invalid prepared state")) in
  match ctx_at engine_ctx, object, hs_target spec with
  | Some _, Some prepared, TAddress addr =>
      if negb (pp_target prepared =? provider_target_address addr) then invalid
      else
        match pp_hybrid prepared with
        | None => ret (HK_VERIFY_UNAVAILABLE, zero_continuation, no_verify_diag)
        | Some plan => ret (HK_VERIFY_OK, hk_reloc_describe_continuation strip sign plan, no_verify_diag)
        end
  | _, _, _ => invalid
  end.

Definition provider_release (engine_ctx p : Z) : M world unit :=
  object <- get_object p ;;
  match ctx_at engine_ctx, object with
  | Some ctx, Some prepared =>
      match pp_hybrid prepared with
      | Some plan =>
          if negb (pp_provider_called prepared) && negb (rl_trampoline plan =? 0)
          then free_continuation ctx plan else ret tt
      | None => ret tt
      end
  | _, _ => ret tt
  end ;;;
  free_object p.

Definition provider_vtable (address struct_size : Z) : hk_engine_vtable world :=
  Vtable world address 1 struct_size (provider_describe profile) (Some provider_discover)
    (Some provider_analyze) None None None None (Some provider_commit) (Some provider_release)
    (Some provider_verify) (Some provider_prepare) None None None None None
    (Some provider_inspect_continuation).
End Adapter.

Definition hk_dobby_provider_vtable {X} ctx_at strip sign := provider_vtable (X := X) ctx_at strip sign g_dobby_profile.
Definition hk_gum_provider_vtable {X} ctx_at strip sign := provider_vtable (X := X) ctx_at strip sign g_gum_profile.
Definition hk_ellekit_provider_vtable {X} ctx_at strip sign := provider_vtable (X := X) ctx_at strip sign g_ellekit_profile.
Definition hk_substitute_provider_vtable {X} ctx_at strip sign := provider_vtable (X := X) ctx_at strip sign g_substitute_profile.
