(* ===== verification/ProviderSpec.v ===== *)
(** * What the provider adapters promise

    The vendor is called at most once, and only on an entry that is still the one
    prepared; what it answers decides what is recorded and published; a
    continuation HookKit builds for it is complete before the call, and its page
    is given back exactly while the vendor has not been called. *)

From stdpp Require Import base list strings gmap numbers option sets.
From S2P Require Import Prelude Types ImageCatalog Artifacts Engine Memory Arm64 Device PatchCode EngineWorld MemoryEngine InlineEngine RelocEngine RelocSpec StaticPool NativeMemory RelocPages ProviderEngine.
Import Enc Reloc Isa.

(** An accepted target has a plan. *)
Section Accepted.
Context {X : Type}.

Lemma release_and_fail_refuses free_page page st (w : engine_world X hk_reloc_plan) :
  st ≠ HK_RELOC_OK → (reloc_release_and_fail free_page page st w).1.1 = HK_RELOC_OK → False.
Proof. intros Hst. by rewrite release_and_fail_status. Qed.

Ltac refused := let H := fresh in intros H; exfalso; revert H; by apply release_and_fail_refuses.

Lemma reloc_build_some target replacement only expected seal free_page page mapping patch_size dest atomic
    captured (w : engine_world X hk_reloc_plan) :
  let r := reloc_build target replacement only expected seal free_page page mapping patch_size dest atomic captured w in
  r.1.1 = HK_RELOC_OK → is_Some r.1.2.
Proof.
  cbv zeta. unfold reloc_build. cbv zeta.
  destruct (prologue_differs _ _ _); [refused|].
  destruct (hk_arm64_insn_is_trap _); [refused|].
  destruct (hk_arm64_has_early_terminator _ _); [refused|].
  destruct (hk_arm64_relocate _ _ _ _) as [relocated n].
  destruct (n =? 0); [refused|].
  destruct (hk_arm64_emit_branch (u64 (_ + n)) _) as [back back_len].
  destruct (_ || _); [refused|]. unfold bind.
  destruct (on_device _ w) as [[] w1]; cbn [negb]; [|refused]. unfold bind.
  destruct (on_device _ w1) as [[] w2]; cbn [negb]; [|refused].
  destruct (if only then _ else _) as [patch written].
  destruct (negb _); [refused|]. destruct (on_ids _ w2) as [id w3]. intros _.
  by eexists.
Qed.

Lemma reloc_prepare_some target replacement overwrite_size expected alloc seal free_page
    (w : engine_world X hk_reloc_plan) :
  let r := reloc_prepare target replacement overwrite_size expected alloc seal free_page w in
  r.1.1 = HK_RELOC_OK → is_Some r.1.2 ∧ is_Some alloc ∧ is_Some seal.
Proof.
  cbv zeta. unfold reloc_prepare. destruct alloc as [alloc|], seal as [seal|]; try done.
  destruct (_ || _); [done|]. destruct (bad_expectation _ _); [done|]. destruct (negb _); [done|]. unfold bind.
  destruct (on_device _ w) as [[page mapping] w1].
  destruct (bad_page _ _); [refused|].
  destruct (entry_form _ _ _ _) as [[patch_size dest] atomic].
  destruct (_ || _) in |- *; [refused|]. unfold gets. intros H. split; [|done].
  by apply reloc_build_some in H.
Qed.
End Accepted.

Section Provider.
Context {X : Type} (ctx_at : Z → option (hk_provider_engine_ctx X)).
Context (strip sign : Z → Z) (profile : provider_profile).
Local Abbreviation world := (engine_world X provider_prepared).
Local Abbreviation memory_of w := (d_mem (ew_device w)).
Local Abbreviation target_of addr := (provider_target_address strip addr).

(** A prepared object: what it was prepared for, the entry it read, and its
    continuation, built on the memory of [before] and left in [built]. *)
Record prepared_for (ctx : hk_provider_engine_ctx X) (spec : hk_hook_spec) (addr : hk_address_target)
    (d : device X) (prepared : provider_prepared) : Prop := PreparedFor {
  pr_target : pp_target prepared = target_of addr;
  pr_replacement : pp_replacement prepared = hs_replacement spec;
  pr_size : pp_inspection_size prepared = inspection_window profile ctx spec;
  pr_entry : pp_inspection_size prepared = 0 ∨
    read_entry ctx (pp_target prepared) (pp_inspection_size prepared) d = Some (pp_inspected prepared);
  pr_hybrid : is_Some (pp_hybrid prepared) ↔ provider_needs_hybrid profile spec = true;
  pr_fresh : pp_provider_called prepared = false }.

Lemma provider_request_some engine_ctx spec ctx addr :
  provider_request ctx_at strip profile engine_ctx spec = Some (ctx, addr) →
  provider_context ctx_at profile engine_ctx = Some ctx ∧ hs_target spec = TAddress addr ∧
  hs_replacement spec ≠ 0 ∧ target_of addr ≠ 0 ∧ pv_hook ctx ≠ None.
Proof.
  unfold provider_request. destruct (provider_context _ _ _) as [c|]; [|done].
  destruct (hs_target spec) as [|a| | | |]; try done.
  destruct (_ || _) eqn:E; [done|]. intros [= -> ->].
  rewrite !orb_false_iff, !Z.eqb_neq, bool_decide_eq_false in E. by destruct E as [[? ?] ?].
Qed.

(** Where a preparation that answers OK has been. *)
Lemma provider_prepare_ok engine_ctx spec (w : world) p diag w1 :
  provider_prepare ctx_at strip profile engine_ctx spec w = ((HK_PREPARE_OK, p, diag), w1) →
  ∃ ctx addr, provider_request ctx_at strip profile engine_ctx spec = Some (ctx, addr) ∧
    original_offered profile spec = true ∧
    (provider_needs_hybrid profile spec = true → provider_hybrid_available ctx = true) ∧
    inspection_window profile ctx spec <= HK_RELOC_MAX_PATCH ∧
    expected_size addr <= inspection_window profile ctx spec ∧
    (expected_size addr ≠ 0 →
       expected_holds (ad_expected_initial_bytes addr) (target_of addr) (ew_device w) = true) ∧
    ∃ diag', provider_build strip profile ctx spec addr diag' w = ((HK_PREPARE_OK, p, diag), w1).
Proof.
  unfold provider_prepare. destruct (provider_request _ _ _ _ _) as [[ctx addr]|] eqn:Er; [|by intros [=]].
  destruct (original_offered profile spec) eqn:Eo; cbn [negb]; [|by intros [=]].
  destruct (provider_needs_hybrid profile spec && _) eqn:Eh; [by intros [=]|].
  destruct (_ || _) eqn:Es; [by intros [=]|]. unfold bind at 1, gets at 1.
  destruct (match pv_validate ctx with None => _ | Some _ => _ end) as [valid diag'].
  destruct valid; cbn [negb]; [|by intros [=]].
  destruct (negb (expected_size addr =? 0) && _) eqn:Ee; [by intros [=]|]. intros H.
  exists ctx, addr. rewrite !orb_false_iff, !Z.ltb_ge in Es. split_and!; [done|done| |lia|lia| |by exists diag'].
  - intros Hn. rewrite Hn in Eh. by apply negb_false_iff in Eh.
  - intros Hne. apply andb_false_iff in Ee as [Ee|Ee%negb_false_iff]; [|done].
    apply negb_false_iff, Z.eqb_eq in Ee. done.
Qed.

(** How the device got from the read entry to the prepared object. *)
Definition built_on (ctx : hk_provider_engine_ctx X) (addr : hk_address_target)
    (prepared : provider_prepared) (d d1 : device X) : Prop :=
  match pp_hybrid prepared with
  | None => d1 = d
  | Some plan => ∃ v v' : engine_world X hk_reloc_plan, ew_device v = d ∧ ew_device v' = d1 ∧
      hk_reloc_prepare_continuation (target_of addr) (pv_max_overwrite_size ctx)
        (ad_expected_initial_bytes addr) (pv_alloc ctx) (pv_seal ctx) (pv_free_page ctx) v =
        ((HK_RELOC_OK, Some plan), v')
  end.
Definition activated_on (ctx : hk_provider_engine_ctx X) (d1 d2 : device X) : Prop :=
  match pv_prepare ctx with None => d2 = d1 | Some f => ∃ diag, (f diag d1).1.1 = true ∧ d2 = (f diag d1).2 end.

Lemma provider_build_ok ctx spec addr diag0 (w : world) p diag w1 :
  provider_build strip profile ctx spec addr diag0 w = ((HK_PREPARE_OK, p, diag), w1) →
  ∃ prepared d1, p ≠ 0 ∧ ew_objects w1 !! p = Some prepared ∧
    prepared_for ctx spec addr (ew_device w) prepared ∧
    built_on ctx addr prepared (ew_device w) d1 ∧ activated_on ctx d1 (ew_device w1).
Proof.
  unfold provider_build. unfold bind at 1, malloc_object, zoom. destruct (alloc_object (ew_heap w)) as [q h].
  destruct (Z.eqb_spec q 0) as [|Hq]; [by intros [=]|]. unfold bind at 1, gets.
  set (size := inspection_window profile ctx spec). set (w0 := w <| ew_heap := h |>).
  destruct (if size =? 0 then _ else _) as [inspected|] eqn:Eread; [|by intros [=]].
  assert (Hread : size = 0 ∨ read_entry ctx (target_of addr) size (ew_device w) = Some inspected).
  { destruct (Z.eqb_spec size 0); [by left|by right]. }
  set (cont := if provider_needs_hybrid profile spec then _ else _).
  assert (Hcont : ∀ st hybrid w', cont w0 = ((st, hybrid), w') → st = HK_RELOC_OK →
    (is_Some hybrid ↔ provider_needs_hybrid profile spec = true) ∧
    ∀ i n b, built_on ctx addr (ProviderPrepared (target_of addr) (hs_replacement spec) i n hybrid b)
      (ew_device w) (ew_device w')).
  { intros st hybrid w' E ->. unfold cont in E. destruct (provider_needs_hybrid profile spec).
    - unfold prepare_continuation, zoom in E.
      destruct (hk_reloc_prepare_continuation _ _ _ _ _ _ _) as [r v'] eqn:Er. injection E as -> <-.
      pose proof (f_equal (λ r, r.1.1) Er) as Hok. apply reloc_prepare_some in Hok as [[plan Hplan] _].
      change (reloc_prepare _ _ _ _ _ _ _ _) with (hk_reloc_prepare_continuation (X := X) (target_of addr)
        (pv_max_overwrite_size ctx) (ad_expected_initial_bytes addr) (pv_alloc ctx) (pv_seal ctx) (pv_free_page ctx)
        (EngineWorld (ew_device w0) (ew_heap w0) (ew_ids w0) ∅)) in Hplan.
      rewrite Er in Hplan. cbn in Hplan. subst hybrid. split; [by split|]. intros i n b.
      exists (EngineWorld (ew_device w0) (ew_heap w0) (ew_ids w0) ∅), v'. by split_and!.
    - injection E as <- <-. split; [by split; [intros []|]|]. done. }
  unfold bind at 1. destruct (cont w0) as [[st hybrid] w2] eqn:Ec.
  destruct (decide (st = HK_RELOC_OK)) as [->|Hst]; [|by destruct st].
  destruct (Hcont _ _ _ eq_refl eq_refl) as [Hhyb Hbuilt]. unfold bind at 1.
  destruct (activate ctx diag0 w2) as [[ok diag1] w3] eqn:Ea.
  destruct ok; cbn [negb].
  2: { unfold bind. destruct (drop_continuation ctx hybrid w3). by intros [=]. }
  unfold bind, put_object, modify, ret, set_field. intros [= <- _ <-].
  exists (ProviderPrepared (target_of addr) (hs_replacement spec) size inspected hybrid false), (ew_device w2).
  cbn [ew_objects ew_device]. rewrite lookup_insert. destruct (decide (q = q)); [|done].
  split_and!; [done|done|by split|apply Hbuilt|].
  unfold activated_on, activate in *. destruct (pv_prepare ctx) as [f|]; [|by injection Ea as _ ->].
  exists diag0. unfold on_device, zoom in Ea. destruct (f diag0 (ew_device w2)) as [[ok d3] dd].
  injection Ea as -> -> <-. done.
Qed.

(** ** Commit *)

(** What the vendor is asked to hand back, and where the original comes from. *)
Definition publishes (spec : hk_hook_spec) : bool :=
  bool_decide (hs_original_requirement spec = HK_ORIGINAL_CALLABLE_CONTINUATION).
Definition original_source (prepared : provider_prepared) (cell : Z) : Z :=
  match pp_hybrid prepared with Some plan => callable strip sign plan | None => cell end.

(** The entry of [d] is the one that was prepared. *)
Definition entry_kept (ctx : hk_provider_engine_ctx X) (prepared : provider_prepared) (d : device X) : Prop :=
  pp_inspection_size prepared = 0 ∨
  read_entry ctx (pp_target prepared) (pp_inspection_size prepared) d = Some (pp_inspected prepared).

(** A commit that called the vendor: what it asked, what that answered, and what
    is reported of it. *)
Definition vendor_called (ctx : hk_provider_engine_ctx X) (spec : hk_hook_spec) (prepared : provider_prepared)
    (sink : hk_artifact_sink) (d d' : device X) (reply : commit_reply) : Prop :=
  ∃ hook code cell, pv_hook ctx = Some hook ∧ entry_kept ctx prepared d ∧
    let out := original_cell profile prepared (publishes spec) sink in
    hook (pp_target prepared) (hs_replacement spec) out d = ((code, cell), d') ∧
    if negb (vendor_refused code cell out) then
      cr_mutation reply = HK_MUTATION_COMPLETE ∧
      (∃ original, provider_record profile HK_ARTIFACT_TARGET_TEXT_PATCH HK_EFFECT_TARGET_TEXT_MUTATION
                     prepared spec original ∈ cr_artifacts reply) ∧
      cr_published_original reply =
        Some (if publishes spec then hk_pac_make_callable strip sign (original_source prepared cell) else 0)
    else
      cr_mutation reply = HK_MUTATION_UNKNOWN ∧
      provider_record_unknown profile prepared spec ∈ cr_artifacts reply.

Lemma provider_commit_spec engine_ctx ctx spec addr (w0 : device X) p prepared sink (w : world) :
  provider_request ctx_at strip profile engine_ctx spec = Some (ctx, addr) →
  prepared_for ctx spec addr w0 prepared → p ≠ 0 → ew_objects w !! p = Some prepared →
  let '(reply, w') := provider_commit ctx_at strip sign profile engine_ctx spec p sink w in
  if decide (cr_mutation reply = HK_MUTATION_NONE)
  then w' = w ∧ reply = CommitReply [] None None HK_MUTATION_NONE
  else vendor_called ctx spec prepared sink (ew_device w) (ew_device w') reply ∧
    ew_objects w' = <[p := prepared <| pp_provider_called := true |>]> (ew_objects w).
Proof.
  intros Hr Hp Hp0 Ho. apply provider_request_some in Hr as (Hctx & Ht & _ & _ & Hhook).
  unfold provider_commit, get_object, bind at 1, gets. rewrite (proj2 (Z.eqb_neq p 0) Hp0), Ho. unfold bind at 1.
  unfold commit_request. rewrite Hctx, Ht. destruct (pv_hook ctx) as [hook|] eqn:Eh; [|done].
  destruct (_ && _) in |- *; [|unfold ret; by destruct (decide _)]. rewrite Eh.
  destruct (entry_revalidates ctx prepared (ew_device w)) eqn:Ev; cbn [negb]; [|unfold ret; by destruct (decide _)].
  apply orb_true_iff in Ev. rewrite Z.eqb_eq, bool_decide_eq_true in Ev.
  cbv zeta. unfold bind at 1, put_object, modify. unfold bind at 1, on_device, zoom. cbn [ew_device set_field].
  assert (Hpub : publishes spec && (pf_publishes_original_before_activation profile ||
    bool_decide (is_Some (pp_hybrid prepared))) = publishes spec).
  { unfold publishes. destruct (bool_decide_reflect (hs_original_requirement spec = HK_ORIGINAL_CALLABLE_CONTINUATION)) as [E|]; [|done]. cbn.
    destruct (pf_publishes_original_before_activation profile) eqn:Epub; [done|]. cbn. apply bool_decide_eq_true_2.
    apply (pr_hybrid _ _ _ _ _ Hp). unfold provider_needs_hybrid. rewrite Epub. cbn. by apply bool_decide_eq_true_2. }
  unfold publishes at 1 in Hpub. rewrite Hpub.
  set (out := original_cell profile prepared (publishes spec) sink).
  destruct (hook (pp_target prepared) (hs_replacement spec) out (ew_device w)) as [[code cell] d'] eqn:Ec.
  unfold vendor_called. fold out. destruct (vendor_refused code cell out) eqn:Eref; unfold ret;
    cbn [cr_mutation]; (destruct (decide _); [done|]); (split; [|done]); exists hook, code, cell;
    (split; [done|]); (split; [done|]); (split; [exact Ec|]); rewrite Eref; cbn [negb].
  - split; [done|]. cbn [cr_artifacts]. apply list_elem_of_In, List.in_or_app. right. by left.
  - split; [done|]. cbn [cr_artifacts cr_published_original]. split.
    + eexists. unfold success_artifacts. rewrite !elem_of_app. right; right; left. by left.
    + f_equal. destruct (publishes spec) eqn:Epub; [|done]. f_equal. unfold original_source.
      destruct (pp_hybrid prepared) eqn:Ehy; [done|]. subst out. unfold original_cell. rewrite Ehy.
      destruct (pf_publishes_original_before_activation profile); [done|].
      exfalso. unfold publishes in Epub. rewrite Epub in Hpub. cbn in Hpub. done.
Qed.

(** ** The continuation of a hybrid *)

Context {R : Type} (cond_holds : Z → R → bool) (simd_load : Z → Z → Z → (Z → Z) → R → R).
Context (exec_other : Z → mstate R → option (mstate R)).

(** The code at the continuation's entry is the function: the window the vendor
    overwrites, as it was in [mem], then what follows it. *)
Definition continues (mem now : Z → Z) (target : Z) (plan : hk_reloc_plan) : Prop :=
  ∃ off, off 0%nat = 0 ∧ ∀ s, fetches now (rl_trampoline plan) HK_RELOC_PAGE_BYTES s →
    replays cond_holds simd_load exec_other
      (words_of (bytes_at mem target (Z.to_nat (rl_patch_size plan)))) target (rl_original_entry plan) off s ∧
    ∃ s', arrives cond_holds simd_load exec_other (u64 (target + rl_patch_size plan))
            (goto (rl_original_entry plan + off (Z.to_nat (rl_displaced_count plan))) s) s'.

(** Everything a hybrid's continuation promises of the memory it was built in. *)
Definition continuation_complete (ctx : hk_provider_engine_ctx X) (addr : hk_address_target)
    (d d1 : device X) (plan : hk_reloc_plan) : Prop :=
  ∀ alloc seal, pv_alloc ctx = Some alloc → pv_seal ctx = Some seal → page_contract alloc seal →
    0 <= pv_max_overwrite_size ctx → byte_memory (d_mem d) → is_u64 (target_of addr) →
    apart (rl_trampoline plan) (target_of addr) → rl_trampoline plan + 4096 <= 2 ^ 64 →
    rl_patch_size plan = pv_max_overwrite_size ctx ∧
    (∀ x, ¬ rl_trampoline plan <= x < rl_trampoline plan + HK_RELOC_PAGE_BYTES → d_mem d1 x = d_mem d x) ∧
    ∀ now, (∀ x, rl_trampoline plan <= x < rl_trampoline plan + HK_RELOC_PAGE_BYTES → now x = d_mem d1 x) →
      continues (d_mem d) now (target_of addr) plan.

Lemma hybrid_complete ctx addr prepared plan d d1 :
  pv_max_overwrite_size ctx ≠ 0 → built_on ctx addr prepared d d1 → pp_hybrid prepared = Some plan →
  continuation_complete ctx addr d d1 plan.
Proof.
  intros Hov Hb Hplan alloc seal Ha Hs Hc Hov0 Hbytes Htu Hapart Hend. unfold built_on in Hb. rewrite Hplan in Hb.
  destruct Hb as (v & v' & <- & <- & Hr). rewrite Ha, Hs in Hr.
  destruct (reloc_prepare_spec _ _ _ _ _ _ _ _ _ _ Hc Hov0 Hr) as (pl & [= <-] & Hpl).
  destruct (Hpl Hapart) as [Hp _]. pose proof (rp_patch _ _ _ _ _ _ Hp) as Hsize.
  destruct (decide (pv_max_overwrite_size ctx = 0)); [done|]. split_and!; [done|apply Hp|].
  intros now Hnow.
  destruct (prepared_replays cond_holds simd_load exec_other _ _ _ _ _ _ Hp Hend now Hnow Hbytes) as (off & H0 & H).
  exists off. split; [done|]. intros s Hf. rewrite <- (rp_original _ _ _ _ _ _ Hp). by apply H.
Qed.

End Provider.

(** ** Pages *)

Section Pages.
Context {X : Type} (held : X → option (gset Z)) (alloc : reloc_alloc X) (seal : reloc_seal X).
Context (free_page : reloc_free X) (write : writer X).
Context {Hledger : PageLedger held alloc seal free_page write}.
Context (ctx_at : Z → option (hk_provider_engine_ctx X)).
Context (strip sign : Z → Z) (profile : provider_profile).
Local Abbreviation world := (engine_world X provider_prepared).
Local Abbreviation pages w := (held (d_ctx (ew_device w))).

(** The context's page seams are these, and the vendor leaves their books alone. *)
Record keeps_books (ctx : hk_provider_engine_ctx X) : Prop := KeepsBooks {
  kb_alloc : pv_alloc ctx = Some alloc;
  kb_seal : pv_seal ctx = Some seal;
  kb_free : pv_free_page ctx = Some free_page;
  kb_prepare : ∀ f diag d, pv_prepare ctx = Some f → held (d_ctx (f diag d).2) = held (d_ctx d);
  kb_hook : ∀ f t r o d, pv_hook ctx = Some f → held (d_ctx (f t r o d).2) = held (d_ctx d) }.

(** The books with and without the page of a continuation. *)
Definition with_page (hybrid : option hk_reloc_plan) (S : gset Z) : gset Z :=
  match hybrid with Some plan => {[rl_trampoline plan]} ∪ S | None => S end.
Definition without_page (hybrid : option hk_reloc_plan) (S : gset Z) : gset Z :=
  match hybrid with Some plan => S ∖ {[rl_trampoline plan]} | None => S end.
Definition page_in (hybrid : option hk_reloc_plan) (S : gset Z) : Prop :=
  ∀ plan, hybrid = Some plan → rl_trampoline plan ∈ S ∧ rl_trampoline plan ≠ 0.
Definition page_new (hybrid : option hk_reloc_plan) (S : gset Z) : Prop :=
  ∀ plan, hybrid = Some plan → rl_trampoline plan ∉ S ∧ rl_trampoline plan ≠ 0.

Lemma drop_continuation_held ctx hybrid (w : world) S :
  keeps_books ctx → pages w = Some S → page_in hybrid S →
  pages (drop_continuation ctx hybrid w).2 = Some (without_page hybrid S).
Proof.
  intros Hk HS Hin. destruct hybrid as [plan|]; [|done]. destruct (Hin plan eq_refl) as [Hin' _].
  cbn [drop_continuation]. unfold free_continuation. rewrite (kb_free _ Hk). unfold on_device, zoom.
  pose proof (pl_free (rl_trampoline plan) (rl_trampoline_size plan) (ew_device w) S HS Hin') as Hf.
  by destruct (free_page _ _ _) as [[] d].
Qed.

Lemma prepare_continuation_held ctx target expected (w : world) S :
  keeps_books ctx → pages w = Some S →
  let '((st, hybrid), w') := prepare_continuation ctx target expected w in
  if decide (st = HK_RELOC_OK) then pages w' = Some (with_page hybrid S) ∧ page_new hybrid S
  else pages w' = Some S.
Proof.
  intros Hk HS. unfold prepare_continuation, zoom, hk_reloc_prepare_continuation.
  rewrite (kb_alloc _ Hk), (kb_seal _ Hk), (kb_free _ Hk).
  pose proof (reloc_prepare_held held alloc seal free_page write target 0 (pv_max_overwrite_size ctx) expected
    (EngineWorld (ew_device w) (ew_heap w) (ew_ids w) ∅) S HS) as H.
  destruct (reloc_prepare _ _ _ _ _ _ _ _) as [[st plan] w']. destruct H as [_ H]. cbn.
  destruct (decide (st = HK_RELOC_OK)); [|done]. destruct H as (page & pl & -> & Hc & Hp & Hnew & Hh).
  cbn. rewrite (cm_trampoline _ _ Hc). split; [done|]. intros ? [= <-]. by rewrite (cm_trampoline _ _ Hc).
Qed.

Lemma provider_build_held ctx spec addr diag0 (w : world) S :
  keeps_books ctx → pages w = Some S →
  let '((result, p, _), w1) := provider_build strip profile ctx spec addr diag0 w in
  if decide (result = HK_PREPARE_OK) then
    ∃ prepared, p ≠ 0 ∧ ew_objects w1 !! p = Some prepared ∧ pages w1 = Some (with_page (pp_hybrid prepared) S) ∧
      page_new (pp_hybrid prepared) S
  else pages w1 = Some S.
Proof.
  intros Hk HS. unfold provider_build. unfold bind at 1, malloc_object, zoom.
  destruct (alloc_object (ew_heap w)) as [q h]. destruct (Z.eqb_spec q 0); [done|]. unfold bind at 1, gets.
  destruct (if _ =? 0 then _ else _) as [inspected|]; [|done].
  set (w0 := w <| ew_heap := h |>). set (cont := if provider_needs_hybrid profile spec then _ else _).
  assert (Hcont : let '((st, hybrid), w') := cont w0 in
    if decide (st = HK_RELOC_OK) then pages w' = Some (with_page hybrid S) ∧ page_new hybrid S
    else pages w' = Some S).
  { unfold cont. destruct (provider_needs_hybrid profile spec); [by apply prepare_continuation_held|].
    cbn. by split. }
  unfold bind at 1. destruct (cont w0) as [[st hybrid] w1].
  destruct (decide (st = HK_RELOC_OK)) as [->|Hst]; [|by destruct st]. destruct Hcont as [H1 Hnew].
  unfold bind at 1.
  assert (Ha : pages (activate ctx diag0 w1).2 = pages w1).
  { unfold activate, on_device, zoom. pose proof (kb_prepare _ Hk) as Hprep. destruct (pv_prepare ctx) as [f|]; [|done].
    specialize (Hprep f diag0 (ew_device w1) eq_refl). by destruct (f diag0 (ew_device w1)). }
  destruct (activate ctx diag0 w1) as [[ok diag] w2]. cbn [fst snd] in Ha. rewrite H1 in Ha.
  destruct ok; cbn [negb].
  - unfold bind, put_object, modify, ret. cbn. eexists. rewrite lookup_insert.
    destruct (decide (q = q)); [|done]. by split_and!.
  - unfold bind. pose proof (drop_continuation_held ctx hybrid w2 _ Hk Ha) as Hd.
    destruct (drop_continuation ctx hybrid w2) as [[] w3]. cbn in Hd |- *. rewrite Hd.
    + f_equal. destruct hybrid as [plan|]; [|done]. destruct (Hnew plan eq_refl) as [Hn _]. cbn. set_solver.
    + intros plan ->. destruct (Hnew plan eq_refl) as [_ Hn]. split; [set_solver|done].
Qed.

Lemma provider_prepare_held engine_ctx ctx spec (w : world) S :
  provider_context ctx_at profile engine_ctx = Some ctx → keeps_books ctx → pages w = Some S →
  let '((result, p, _), w1) := provider_prepare ctx_at strip profile engine_ctx spec w in
  if decide (result = HK_PREPARE_OK) then
    ∃ prepared, p ≠ 0 ∧ ew_objects w1 !! p = Some prepared ∧ pages w1 = Some (with_page (pp_hybrid prepared) S) ∧
      page_new (pp_hybrid prepared) S
  else pages w1 = Some S.
Proof.
  intros Hctx Hk HS. unfold provider_prepare.
  destruct (provider_request _ _ _ _ _) as [[c addr]|] eqn:Er; [|done].
  apply provider_request_some in Er as (Hc & _). rewrite Hctx in Hc. injection Hc as <-.
  destruct (negb _); [done|]. destruct (_ && _) in |- *; [done|]. destruct (_ || _) in |- *; [done|].
  unfold bind at 1, gets. destruct (match pv_validate ctx with None => _ | Some _ => _ end) as [valid diag].
  destruct (negb valid); [done|]. destruct (_ && _) in |- *; [done|]. by apply provider_build_held.
Qed.

Lemma provider_release_held engine_ctx ctx p prepared (w : world) S :
  ctx_at engine_ctx = Some ctx → keeps_books ctx → p ≠ 0 → ew_objects w !! p = Some prepared →
  pages w = Some S → page_in (pp_hybrid prepared) S →
  pages (provider_release ctx_at engine_ctx p w).2 =
    Some (if pp_provider_called prepared then S else without_page (pp_hybrid prepared) S).
Proof.
  intros Hctx Hk Hp Ho HS Hin. unfold provider_release, get_object, bind at 1, gets.
  rewrite (proj2 (Z.eqb_neq p 0) Hp), Ho, Hctx. unfold bind.
  pose proof (drop_continuation_held ctx (pp_hybrid prepared) w S Hk HS Hin) as Hd.
  destruct (pp_hybrid prepared) as [plan|] eqn:Ehy.
  2: { destruct (pp_provider_called prepared); cbn; exact HS. }
  destruct (Hin plan eq_refl) as [_ Hn]. rewrite (proj2 (Z.eqb_neq _ _) Hn).
  destruct (pp_provider_called prepared); cbn [negb andb]; [exact HS|].
  cbn [drop_continuation] in Hd. destruct (free_continuation ctx plan w) as [[] w']. exact Hd.
Qed.

(** C36. A provider adapter neither leaks the page of a continuation nor gives one
    back twice, whatever page seams keep the books.  A refused preparation holds
    what was held before, even when the vendor's activation is what refused; an
    accepted one holds the continuation's page more, if it has one.  A commit
    never gives it back; the release that follows does exactly when the vendor
    was not called. *)
Theorem provider_page_accounting engine_ctx ctx spec sink (w : world) S :
  provider_context ctx_at profile engine_ctx = Some ctx → keeps_books ctx → pages w = Some S →
  let '((result, p, _), w1) := provider_prepare ctx_at strip profile engine_ctx spec w in
  if decide (result = HK_PREPARE_OK) then
    ∃ prepared, ew_objects w1 !! p = Some prepared ∧ pages w1 = Some (with_page (pp_hybrid prepared) S) ∧
      page_new (pp_hybrid prepared) S ∧
    ∀ (w2 : world) S2, ew_objects w2 !! p = Some prepared → pages w2 = Some S2 → page_in (pp_hybrid prepared) S2 →
      pages (provider_release ctx_at engine_ctx p w2).2 = Some (without_page (pp_hybrid prepared) S2) ∧
      let '(reply, w3) := provider_commit ctx_at strip sign profile engine_ctx spec p sink w2 in
      pages w3 = Some S2 ∧
      pages (provider_release ctx_at engine_ctx p w3).2 =
        Some (if decide (cr_mutation reply = HK_MUTATION_NONE) then without_page (pp_hybrid prepared) S2 else S2)
  else pages w1 = Some S.
Proof.
  intros Hctx Hk HS. pose proof (provider_prepare_held engine_ctx ctx spec w S Hctx Hk HS) as H.
  assert (Hat : ctx_at engine_ctx = Some ctx).
  { unfold provider_context in Hctx. destruct (ctx_at engine_ctx) as [c|]; [|done]. by case_bool_decide. }
  destruct (provider_prepare _ _ _ _ _ _) as [[[result p] diag] w1] eqn:Eprep.
  destruct (decide (result = HK_PREPARE_OK)) as [->|]; [|done]. destruct H as (prepared & Hp & Ho & Hh & Hnew).
  apply provider_prepare_ok in Eprep as (c & addr & Hr & _ & _ & _ & _ & _ & diag0 & Hb).
  apply provider_build_ok in Hb as (prepared' & d1 & _ & Ho' & Hfor & _). rewrite Ho in Ho'. injection Ho' as <-.
  exists prepared. split_and!; [done..|]. intros w2 S2 Ho2 HS2 Hin.
  pose proof (pr_fresh _ _ _ _ _ _ _ Hfor) as Hfresh. split.
  { rewrite (provider_release_held engine_ctx ctx p prepared w2 S2) by done. by rewrite Hfresh. }
  pose proof (provider_commit_spec ctx_at strip sign profile engine_ctx c spec addr _ p prepared sink w2 Hr Hfor Hp Ho2) as Hc.
  destruct (provider_commit _ _ _ _ _ _ _ _ _) as [reply w3].
  destruct (decide (cr_mutation reply = HK_MUTATION_NONE)).
  - destruct Hc as [-> _]. split; [done|].
    rewrite (provider_release_held engine_ctx ctx p prepared w2 S2) by done. by rewrite Hfresh.
  - destruct Hc as [(hook & code & cell & Hhook & _ & Hcall & _) Ho3].
    apply provider_request_some in Hr as (Hctx' & _). rewrite Hctx in Hctx'. injection Hctx' as <-.
    assert (Hp3 : pages w3 = Some S2).
    { rewrite <- HS2. pose proof (kb_hook _ Hk _ (pp_target prepared) (hs_replacement spec)
        (original_cell profile prepared (publishes spec) sink) (ew_device w2) Hhook) as Hh'.
      rewrite Hcall in Hh'. exact Hh'. }
    split; [done|].
    rewrite (provider_release_held engine_ctx ctx p (prepared <| pp_provider_called := true |>) w3 S2); try done.
    rewrite Ho3, lookup_insert. by destruct (decide (p = p)).
Qed.
End Pages.

(** ** Witnesses: an ElleKit that publishes nothing, over one page. *)

Definition demo_vendor_hook (t r : Z) (cell : option Z) : M (device (gset Z)) (Z * Z) :=
  modify (λ d, Device (store t [0; 0; 0; 0x14] (d_mem d)) (d_ctx d)) ;;; ret (0, 0).
Definition demo_provider : hk_provider_engine_ctx (gset Z) :=
  ProviderEngineCtx HK_PROVIDER_ELLEKIT None None None (Some demo_vendor_hook) None None 4
    (Some demo_ledger_alloc) (Some demo_ledger_seal) (Some demo_ledger_free).
Definition demo_provider_spec : hk_hook_spec :=
  demo_memory_spec (demo_entry 0x4000) <| hs_original_requirement := HK_ORIGINAL_CALLABLE_CONTINUATION |>.
Definition demo_provider_world : engine_world (gset Z) provider_prepared :=
  EngineWorld (Device demo_nops ∅) demo_heap (Ids None 0 7) ∅.
Local Abbreviation demo_prepare :=
  (provider_prepare (λ _, Some demo_provider) id g_ellekit_profile 0 demo_provider_spec demo_provider_world).


Lemma demo_keeps_books : keeps_books Some demo_ledger_alloc demo_ledger_seal demo_ledger_free demo_provider.
Proof. split; [done..|]. by intros f t r o d [= <-]. Qed.

#[local] Existing Instance demo_ledger.

Lemma provider_page_accounting_witness :
  demo_prepare.1.1.1 = HK_PREPARE_OK ∧
  ∃ page, d_ctx (ew_device demo_prepare.2) = {[page]} ∧
    d_ctx (ew_device (provider_release (λ _, Some demo_provider) 0 demo_prepare.1.1.2 demo_prepare.2).2) = ∅.
Proof.
  split; [reflexivity|].
  pose proof (provider_page_accounting Some demo_ledger_alloc demo_ledger_seal demo_ledger_free demo_ledger_write
    (λ _, Some demo_provider) id id g_ellekit_profile 0 demo_provider demo_provider_spec demo_sink
    demo_provider_world ∅ eq_refl demo_keeps_books eq_refl) as H.
  assert (Hr : demo_prepare.1.1.1 = HK_PREPARE_OK) by reflexivity.
  destruct demo_prepare as [[[result p] diag] w1] eqn:E. cbn in Hr. subst result.
  destruct (decide (HK_PREPARE_OK = HK_PREPARE_OK)); [|done].
  destruct H as (prepared & Ho & Hpages & Hnew & H).
  assert (Hhyb : is_Some (pp_hybrid prepared)).
  { apply (f_equal (λ r, pp_hybrid <$> ew_objects r.2 !! r.1.1.2)) in E. cbn [fst snd] in E. rewrite Ho in E.
    change (pp_hybrid <$> Some prepared) with (Some (pp_hybrid prepared)) in E.
    destruct (pp_hybrid prepared); [by eexists|]. exfalso. vm_compute in E. discriminate E. }
  destruct Hhyb as [plan Hplan]. rewrite Hplan in Hpages, Hnew, H.
  apply (inj Some) in Hpages. cbn in Hpages. rewrite union_empty_r_L in Hpages.
  exists (rl_trampoline plan). split; [done|].
  destruct (H w1 (d_ctx (ew_device w1)) Ho eq_refl) as [Hrel _].
  { intros ? [= <-]. rewrite Hpages. split; [by apply elem_of_singleton|]. by apply (Hnew plan). }
  apply (inj Some) in Hrel. cbn in Hrel |- *. rewrite Hpages, difference_diag_L in Hrel. exact Hrel.
Defined.
