(* ===== verification/Objc.v ===== *)
(** * The Objective-C method engine
    (src/engines/HKObjCEngine.c, HKObjCVtable.c)

    Class and method resolution, capture and replacement over the runtime seam:
    eight functions on a state of their own, any of which may be absent. *)

From stdpp Require Import base list strings gmap numbers option.
From S2P Require Import Prelude Types Artifacts Engine Device EngineWorld ProviderEngine.

Inductive hk_objc_status : Type :=
  | HK_OBJC_OK | HK_OBJC_INVALID_ARGUMENT | HK_OBJC_CLASS_NOT_FOUND | HK_OBJC_METHOD_NOT_FOUND
  | HK_OBJC_INHERITED_REFUSED | HK_OBJC_NO_IMPLEMENTATION | HK_OBJC_NOT_APPLICABLE
  | HK_OBJC_UNSUPPORTED_POLICY.

Definition hk_objc_status_code (s : hk_objc_status) : Z :=
  match s with
  | HK_OBJC_OK => 0 | HK_OBJC_INVALID_ARGUMENT => 1 | HK_OBJC_CLASS_NOT_FOUND => 2
  | HK_OBJC_METHOD_NOT_FOUND => 3 | HK_OBJC_INHERITED_REFUSED => 4
  | HK_OBJC_NO_IMPLEMENTATION => 5 | HK_OBJC_NOT_APPLICABLE => 6 | HK_OBJC_UNSUPPORTED_POLICY => 7
  end.

Definition HK_OBJC_CLASS_METHOD : Z := 1.
Definition HK_OBJC_LOCAL_METHOD_ONLY : Z := 0.
Definition HK_REACH_OBJC_DISPATCH : Z := 2 ^ 9.

Record hk_objc_plan : Type := ObjcPlan {
  op_cls : Z;
  op_sel : Z;
  op_method : Z;
  op_original_imp : Z;
  op_types : string;
  op_is_local : bool;
  op_captured : bool }.

(** ** The runtime seam *)

(** Classes, selectors, methods and implementations are pointers. *)
Record objc_calls {X : Type} : Type := ObjcCalls {
  get_class : string → M X Z;
  get_metaclass : Z → M X Z;
  get_superclass : Z → M X Z;
  register_selector : string → M X Z;
  get_instance_method : Z → Z → M X Z;
  method_get_imp : Z → M X Z;
  method_get_types : Z → M X (option string);
  replace_method : Z → Z → Z → string → M X Z }.
Arguments objc_calls : clear implicits.
Arguments ObjcCalls {X} _ _ _ _ _ _ _ _.

(** The same, each of which may be NULL. *)
Record hk_objc_runtime {X : Type} : Type := ObjcRuntime {
  or_get_class : option (string → M X Z);
  or_get_metaclass : option (Z → M X Z);
  or_get_superclass : option (Z → M X Z);
  or_register_selector : option (string → M X Z);
  or_get_instance_method : option (Z → Z → M X Z);
  or_method_get_imp : option (Z → M X Z);
  or_method_get_types : option (Z → M X (option string));
  or_replace_method : option (Z → Z → Z → string → M X Z) }.
Arguments hk_objc_runtime : clear implicits.
Arguments ObjcRuntime {X} _ _ _ _ _ _ _ _.

(** Every entry is there. *)
Definition runtime_complete {X} (rt : option (hk_objc_runtime X)) : option (objc_calls X) :=
  rt ← rt;
  c ← or_get_class rt; m ← or_get_metaclass rt; s ← or_get_superclass rt;
  r ← or_register_selector rt; g ← or_get_instance_method rt; i ← or_method_get_imp rt;
  t ← or_method_get_types rt; p ← or_replace_method rt;
  Some (ObjcCalls c m s r g i t p).

Section Engine.
Context {X : Type}.

(** ** The phases *)

Definition method_is_local (rt : objc_calls X) (cls sel method : Z) : M X bool :=
  super <- get_superclass rt cls ;;
  found <- get_instance_method rt super sel ;;
  ret (negb (found =? method)).

(** The class a target means, or why it has none. *)
Definition named_class (rt : objc_calls X) (target : hk_objc_target) : M X (hk_objc_status + Z) :=
  if negb (oc_cls target =? 0) then ret (inr (oc_cls target))
  else
    match oc_class_name target with
    | None => ret (inl HK_OBJC_INVALID_ARGUMENT)
    | Some name =>
        cls <- get_class rt name ;;
        ret (if cls =? 0 then inl HK_OBJC_CLASS_NOT_FOUND else inr cls)
    end.

(** An absent class or method of a conditional request. *)
Definition absent (target : hk_objc_target) (status : hk_objc_status) : hk_objc_status :=
  match status, oc_availability target with
  | (HK_OBJC_CLASS_NOT_FOUND | HK_OBJC_METHOD_NOT_FOUND),
    (HK_AVAILABILITY_OPTIONAL_IF_PRESENT | HK_AVAILABILITY_DEFER_UNTIL_AVAILABLE) =>
      HK_OBJC_NOT_APPLICABLE
  | _, _ => status
  end.

Definition hook_class (rt : objc_calls X) (target : hk_objc_target) : M X (hk_objc_status + Z) :=
  answer <- named_class rt target ;;
  match answer with
  | inl status => ret (inl (absent target status))
  | inr cls =>
      if oc_method_kind target =? HK_OBJC_CLASS_METHOD then
        cls <- get_metaclass rt cls ;;
        ret (if cls =? 0 then inl (absent target HK_OBJC_CLASS_NOT_FOUND) else inr cls)
      else ret (inr cls)
  end.

Definition hook_selector (rt : objc_calls X) (target : hk_objc_target) : M X (option Z) :=
  if negb (oc_sel target =? 0) then ret (Some (oc_sel target))
  else
    match oc_selector_name target with
    | None => ret None
    | Some name => sel <- register_selector rt name ;; ret (if sel =? 0 then None else Some sel)
    end.

(** Once the class and the selector are known. *)
Definition capture_method (rt : objc_calls X) (target : hk_objc_target) (cls sel : Z)
    : M X (hk_objc_status * option hk_objc_plan) :=
  method <- get_instance_method rt cls sel ;;
  if method =? 0 then ret (absent target HK_OBJC_METHOD_NOT_FOUND, None)
  else
    is_local <- method_is_local rt cls sel method ;;
    if negb is_local && (oc_inheritance_policy target =? HK_OBJC_LOCAL_METHOD_ONLY)
    then ret (HK_OBJC_INHERITED_REFUSED, None)
    else
      imp <- method_get_imp rt method ;;
      if imp =? 0 then ret (HK_OBJC_NO_IMPLEMENTATION, None)
      else
        types <- method_get_types rt method ;;
        ret (HK_OBJC_OK, Some (ObjcPlan cls sel method imp (default "@:@"%string types) is_local true)).

(** A plan is there exactly where the status is OK; otherwise it is zeroed. *)
Definition hk_objc_prepare (rt : option (hk_objc_runtime X)) (target : hk_objc_target)
    : M X (hk_objc_status * option hk_objc_plan) :=
  match runtime_complete rt with
  | None => ret (HK_OBJC_INVALID_ARGUMENT, None)
  | Some rt =>
      answer <- hook_class rt target ;;
      match answer with
      | inl status => ret (status, None)
      | inr cls =>
          sel <- hook_selector rt target ;;
          match sel with
          | None => ret (HK_OBJC_INVALID_ARGUMENT, None)
          | Some sel => capture_method rt target cls sel
          end
      end
  end.

Definition objc_artifact (is_local : bool) (original replacement : Z) : hk_artifact :=
  engine_artifact "objc" HK_ARTIFACT_OBJC_METHOD_CHANGE HK_ARTIFACT_COMMITTED
    HK_EFFECT_OBJC_METADATA_MUTATION no_bytes
    (facts_at 0 0 <| af_original_pointer := original |> <| af_replacement_pointer := replacement |>
       <| af_mechanically_reversible := is_local |>
       <| af_safe_to_reverse_after_activation := is_local |>).

(** The mutation, the last value stored through [out_original] and the artifact. *)
Definition hk_objc_commit (rt : option (hk_objc_runtime X)) (plan : option hk_objc_plan)
    (replacement : Z) (sink : option hk_artifact_sink)
    : M X (hk_mutation_state * option Z * list hk_artifact) :=
  let none := ret (HK_MUTATION_NONE, None, []) in
  match runtime_complete rt, plan with
  | Some rt, Some plan =>
      if negb (op_captured plan) || (replacement =? 0) then none
      else if match sink with
              | Some s => sk_require_predecessor_match s &&
                          negb (op_original_imp plan =? sk_required_predecessor s)
              | None => false
              end then none
      else
        method <- get_instance_method rt (op_cls plan) (op_sel plan) ;;
        if method =? 0 then none
        else
          imp <- method_get_imp rt method ;;
          if negb (imp =? op_original_imp plan) then none
          else
            replaced <- replace_method rt (op_cls plan) (op_sel plan) replacement (op_types plan) ;;
            let original := if replaced =? 0 then op_original_imp plan else replaced in
            ret (HK_MUTATION_COMPLETE, Some original,
                 match sink with Some _ => [objc_artifact (op_is_local plan) original replacement] | None => [] end)
  | _, _ => none
  end.

(** ** The adapter *)

Definition objc_architectures : Z :=
  bits_of [HK_ENGINE_ARCHITECTURE_ARMV7; HK_ENGINE_ARCHITECTURE_ARMV7S;
           HK_ENGINE_ARCHITECTURE_ARM64; HK_ENGINE_ARCHITECTURE_ARM64E].

Definition objc_describe : hk_engine_capabilities :=
  Capabilities (Some "objc"%string) (Some "HookKit"%string) (Some "HookKit"%string)
    (HK_TARGET_KIND_BIT HK_TARGET_OBJC_METHOD) 0
    (bits_of [HK_INSTALL_CONTEXT_BIT HK_INSTALL_CONTEXT_EARLY_PROCESS;
              HK_INSTALL_CONTEXT_BIT HK_INSTALL_CONTEXT_MAIN_THREAD_SERIALIZED;
              HK_INSTALL_CONTEXT_BIT HK_INSTALL_CONTEXT_RUNTIME_SERIALIZED])
    objc_architectures objc_architectures (HK_ENGINE_IOS_VERSION 9 0 0)
    HK_REACH_OBJC_DISPATCH 0 0 HK_EFFECT_OBJC_METADATA_MUTATION false false
    (HK_TARGET_KIND_BIT HK_TARGET_OBJC_METHOD).

Definition objc_classify (st : hk_objc_status) : hk_prepare_result * hk_prepare_diag :=
  let fail := λ message : string, (HK_PREPARE_FAILED, refused_with (hk_objc_status_code st) message) in
  match st with
  | HK_OBJC_NOT_APPLICABLE => (HK_PREPARE_NOT_APPLICABLE, no_prepare_diag)
  | HK_OBJC_CLASS_NOT_FOUND => fail "class not found"
  | HK_OBJC_METHOD_NOT_FOUND => fail "selector not found on the class or its ancestors"
  | HK_OBJC_INHERITED_REFUSED => fail "method is inherited and the request required a local method"
  | HK_OBJC_NO_IMPLEMENTATION => fail "method has no implementation to publish as the original"
  | HK_OBJC_UNSUPPORTED_POLICY => fail "unsupported Objective-C availability policy"
  | HK_OBJC_INVALID_ARGUMENT => fail "invalid objc target"
  | HK_OBJC_OK => (HK_PREPARE_OK, no_prepare_diag)
  end%string.

(** The contexts the engine may be registered with; the state of the Objective-C
    runtime is the device's. *)
Context (ctx_at : Z → option (hk_objc_runtime X)).
Local Abbreviation world := (engine_world X hk_objc_plan).

Definition on_runtime {A} (m : M X A) : M world A :=
  on_device (zoom d_ctx (λ x d, d <| d_ctx := x |>) m).

Definition objc_prepare_one_ctx_status (engine_ctx : Z) (spec : hk_hook_spec)
    : M world (hk_prepare_result * Z * hk_prepare_diag) :=
  match ctx_at engine_ctx, hs_target spec with
  | Some rt, TObjc target =>
      p <- malloc_object ;;
      if p =? 0 then ret (HK_PREPARE_FAILED, 0, refused_with 0 "out of memory")
      else
        answer <- on_runtime (hk_objc_prepare (Some rt) target) ;;
        let '(st, plan) := answer in
        let '(result, diag) := objc_classify st in
        match result, plan with
        | HK_PREPARE_OK, Some plan => put_object p plan ;;; ret (HK_PREPARE_OK, p, diag)
        | _, _ => ret (result, 0, diag)
        end
  | _, _ =>
      ret (HK_PREPARE_FAILED, 0,
           refused_with 0 "objc engine invoked without a runtime or with a non-objc target")
  end.

Definition objc_commit_one_ctx (engine_ctx : Z) (spec : hk_hook_spec) (prepared : Z)
    (sink : hk_artifact_sink) : M world commit_reply :=
  object <- get_object prepared ;;
  match ctx_at engine_ctx, object with
  | Some rt, Some plan =>
      answer <- on_runtime (hk_objc_commit (Some rt) (Some plan) (hs_replacement spec) (Some sink)) ;;
      let '(state, original, artifacts) := answer in
      ret (CommitReply artifacts
             (if bool_decide (state = HK_MUTATION_COMPLETE) then original else None) None state)
  | _, _ => ret (CommitReply [] None None HK_MUTATION_NONE)
  end.

Definition objc_verify_one_ctx (engine_ctx : Z) (spec : hk_hook_spec) (prepared : Z)
    : M world (hk_verify_result * hk_verify_diag) :=
  object <- get_object prepared ;;
  let failed := λ message : string, ret (HK_VERIFY_FAILED, VerifyDiag 0 (Some message)) in
  match rt ← ctx_at engine_ctx; g ← or_get_instance_method rt; i ← or_method_get_imp rt; Some (g, i),
        object, hs_target spec with
  | Some (get_instance_method, method_get_imp), Some plan, TObjc _ =>
      method <- on_runtime (get_instance_method (op_cls plan) (op_sel plan)) ;;
      if method =? 0 then failed "objc method readback does not match the replacement"%string
      else
        imp <- on_runtime (method_get_imp method) ;;
        if negb (imp =? hs_replacement spec)
        then failed "objc method readback does not match the replacement"%string
        else ret (HK_VERIFY_OK, no_verify_diag)
  | _, _, _ => failed "objc verification received an invalid prepared plan"%string
  end.

Definition objc_inspect_continuation (engine_ctx : Z) (spec : hk_hook_spec) (prepared : Z)
    : M world (hk_verify_result * hk_continuation_info * hk_verify_diag) :=
  object <- get_object prepared ;;
  let invalid := (HK_VERIFY_FAILED, zero_continuation,
    VerifyDiag (hk_status_code HK_STATUS_INVALID_ARGUMENT)
      (Some "objc continuation inspection received invalid prepared state"%string)) in
  match object, hs_target spec with
  | Some plan, TObjc _ =>
      ret (if negb (op_captured plan) || (op_original_imp plan =? 0) then invalid
           else
             (HK_VERIFY_OK,
              ContinuationInfo SIZEOF_CONTINUATION_INFO HK_CONTINUATION_KIND_DIRECT_PREDECESSOR
                (op_original_imp plan)
                [0; 0; 0; hk_mapping_kind_code HK_MAPPING_UNKNOWN; 0; 0; 0; 0; 0; 1;
                 Z.b2z (op_is_local plan); Z.b2z (op_is_local plan); 1],
              no_verify_diag))
  | _, _ => ret invalid
  end.

Definition objc_release_prepared (engine_ctx prepared : Z) : M world unit := free_object prepared.

Definition hk_objc_vtable (address struct_size : Z) : hk_engine_vtable world :=
  Vtable world address 1 struct_size objc_describe None None None None None None
    (Some objc_commit_one_ctx) (Some objc_release_prepared) (Some objc_verify_one_ctx)
    (Some objc_prepare_one_ctx_status) None None None None None (Some objc_inspect_continuation).
End Engine.
