(* ===== verification/ObjcSpec.v ===== *)
(** * What an Objective-C hook does to dispatch

    The documented behaviour of the Objective-C runtime, as laws over what it
    shows of its classes; and what preparation and commit make of it. *)

From stdpp Require Import base list strings gmap numbers option sorting.
From S2P Require Import Prelude Types Artifacts Engine Device EngineWorld MemoryEngine Objc.

(** ** The runtime's documented behaviour *)

(** What a state of the runtime shows: a class and its ancestors, nearest first
    (nothing for what is not a class), the methods each defines itself, and the
    implementation of a method. *)
Class ClassView (X : Type) : Type := {
  cv_chain : X → Z → list Z;
  cv_own : X → Z → Z → option Z;
  cv_imp : X → Z → Z }.

Section View.
Context `{ClassView X}.
Implicit Types x : X.

Definition same_view x x' : Prop :=
  (∀ c, cv_chain x' c = cv_chain x c) ∧ (∀ c s, cv_own x' c s = cv_own x c s) ∧
  (∀ m, cv_imp x' m = cv_imp x m).

#[export] Instance same_view_equivalence : Equivalence same_view.
Proof.
  split.
  - by intros x.
  - intros x y (A & B & C). by repeat split.
  - intros x y z (A & B & C) (A' & B' & C'). repeat split; intros; by rewrite ?A', ?B', ?C', ?A, ?B, ?C.
Qed.

(** The first definition on the way up, and the implementation a message to an
    instance of [c] runs; 0 if there is none. *)
Definition first_method x (s : Z) (chain : list Z) : option Z := head (omap (λ k, cv_own x k s) chain).
Definition find_method x (c s : Z) : option Z := first_method x s (cv_chain x c).
Definition dispatch x (c s : Z) : Z := from_option (cv_imp x) 0 (find_method x c s).

#[export] Instance find_method_proper : Proper (same_view ==> eq ==> eq ==> eq) find_method.
Proof.
  intros x x' (A & B & C) c ? <- s ? <-. unfold find_method, first_method. rewrite A.
  induction (cv_chain x c) as [|k l IH]; [done|]. cbn. rewrite B. by destruct (cv_own x k s).
Qed.

Lemma find_same x x' c s : same_view x x' → find_method x' c s = find_method x c s.
Proof. intros E. by rewrite (find_method_proper x x' E c c eq_refl s s eq_refl). Qed.

#[export] Instance dispatch_proper : Proper (same_view ==> eq ==> eq ==> eq) dispatch.
Proof.
  intros x x' E c ? <- s ? <-. unfold dispatch. rewrite (find_same x x') by done. destruct E as (_ & _ & C).
  destruct (find_method x c s); cbn; [symmetry; apply C|done].
Qed.

(** The part of a way up before [cls]. *)
Fixpoint before (cls : Z) (l : list Z) : list Z :=
  match l with [] => [] | k :: l => if k =? cls then [] else k :: before cls l end.

(** Whether [s] sent to an instance of [c] gets as far as [cls]: no class before
    it on the way up defines the selector. *)
Definition gets_to x (cls s : Z) (chain : list Z) : bool :=
  bool_decide (cls ∈ chain) && bool_decide (first_method x s (before cls chain) = None).
Definition reaches x (cls sel c s : Z) : bool :=
  bool_decide (s = sel) && gets_to x cls s (cv_chain x c).

#[export] Instance reaches_proper :
  Proper (same_view ==> eq ==> eq ==> eq ==> eq ==> eq) reaches.
Proof.
  intros x x' (A & B & C) cls ? <- sel ? <- c ? <- s ? <-. unfold reaches, gets_to. rewrite A. do 3 f_equal.
  assert (E : first_method x' s (before cls (cv_chain x c)) = first_method x s (before cls (cv_chain x c))).
  { unfold first_method. induction (before cls (cv_chain x c)) as [|k l IH]; [done|]. cbn. rewrite B. by destruct (cv_own x k s). }
  by rewrite E.
Qed.

Lemma first_method_cons x s k l :
  first_method x s (k :: l) = match cv_own x k s with Some m => Some m | None => first_method x s l end.
Proof. unfold first_method. cbn. by destruct (cv_own x k s). Qed.

Lemma gets_to_cons x cls s k l :
  gets_to x cls s (k :: l) = (k =? cls) || (bool_decide (cv_own x k s = None) && gets_to x cls s l).
Proof.
  unfold gets_to. cbn [before]. destruct (Z.eqb_spec k cls) as [->|Hne].
  { rewrite (bool_decide_eq_true_2 (cls ∈ _)) by (by left). by rewrite bool_decide_eq_true_2. }
  rewrite first_method_cons. cbn [orb].
  assert (E : bool_decide (cls ∈ k :: l) = bool_decide (cls ∈ l)).
  { apply bool_decide_ext. rewrite elem_of_cons. naive_solver. }
  rewrite E. destruct (cv_own x k s); [|by rewrite (bool_decide_eq_true_2 (None = None))].
  rewrite !(bool_decide_eq_false_2 (Some _ = None)) by done. by rewrite andb_false_r.
Qed.

(** One more definition: what gets to it finds it, all else finds what it found. *)
Lemma first_method_defined x x' cls sel m s l :
  cv_own x' cls sel = Some m → (∀ k t, (k, t) ≠ (cls, sel) → cv_own x' k t = cv_own x k t) →
  first_method x' s l = if bool_decide (s = sel) && gets_to x cls s l then Some m else first_method x s l.
Proof.
  intros Hm Ho. induction l as [|k l IH].
  { unfold gets_to. cbn. by rewrite andb_false_r. }
  rewrite !first_method_cons, IH, gets_to_cons. destruct (bool_decide_reflect (s = sel)) as [->|Hs]; cbn [andb].
  - destruct (Z.eqb_spec k cls) as [->|Hk]; [by rewrite Hm|]. rewrite (Ho k sel) by congruence. cbn [orb].
    by destruct (cv_own x k sel).
  - rewrite (Ho k s) by congruence. done.
Qed.

(** What a lookup finds is defined somewhere it gets to. *)
Lemma first_method_found x s l m : first_method x s l = Some m →
  ∃ k, cv_own x k s = Some m ∧ gets_to x k s l = true.
Proof.
  induction l as [|k l IH]; [done|]. rewrite first_method_cons. destruct (cv_own x k s) as [m'|] eqn:E.
  - intros [= ->]. exists k. split; [done|]. by rewrite gets_to_cons, Z.eqb_refl.
  - intros (j & Hj & Hg)%IH. exists j. split; [done|]. rewrite gets_to_cons, Hg, E.
    by rewrite bool_decide_eq_true_2, orb_true_r.
Qed.

Lemma gets_to_found x k s l m : cv_own x k s = Some m → gets_to x k s l = true → first_method x s l = Some m.
Proof.
  intros Hm. induction l as [|j l IH].
  { done. }
  rewrite gets_to_cons, first_method_cons. destruct (Z.eqb_spec j k) as [->|]; [by rewrite Hm|]. cbn [orb].
  intros [->%bool_decide_eq_true Hg]%andb_true_iff. by apply IH.
Qed.
End View.

(** A query shows nothing new. *)
Definition quiet `{ClassView X} {A} (m : M X A) : Prop := ∀ x, same_view x (m x).2.

(** What [class_replaceMethod] does to a class: the method it has gets the new
    implementation, or it gets a method of its own. *)
Definition replaced `{ClassView X} (x : X) (cls sel imp answer : Z) (x' : X) : Prop :=
  (∀ c, cv_chain x' c = cv_chain x c) ∧
  ∃ m, cv_own x' cls sel = Some m ∧ cv_imp x' m = imp ∧
    (∀ c s, (c, s) ≠ (cls, sel) → cv_own x' c s = cv_own x c s) ∧
    (∀ n, n ≠ m → cv_imp x' n = cv_imp x n) ∧
    match cv_own x cls sel with
    | Some own => m = own ∧ answer = cv_imp x own
    | None => answer = 0 ∧ ∀ c s, cv_own x c s ≠ Some m
    end.

Class ObjcLaws {X : Type} `{ClassView X} (rt : objc_calls X) : Prop := {
  ol_class : ∀ x c, cv_chain x c = [] ∨ cv_chain x c = c :: cv_chain x (get_superclass rt c x).1;
  ol_acyclic : ∀ x c, NoDup (cv_chain x c);
  ol_method : ∀ x c s m, cv_own x c s = Some m → m ≠ 0;
  ol_identity : ∀ x c s c' s' m, cv_own x c s = Some m → cv_own x c' s' = Some m → c = c' ∧ s = s';
  ol_find : ∀ x c s, (get_instance_method rt c s x).1 = default 0 (find_method x c s);
  ol_imp : ∀ x m, (method_get_imp rt m x).1 = cv_imp x m;
  ol_replace : ∀ x c s imp types, imp ≠ 0 → cv_chain x c ≠ [] →
    replaced x c s imp (replace_method rt c s imp types x).1 (replace_method rt c s imp types x).2;
  ol_quiet_class : ∀ name, quiet (get_class rt name);
  ol_quiet_meta : ∀ c, quiet (get_metaclass rt c);
  ol_quiet_super : ∀ c, quiet (get_superclass rt c);
  ol_quiet_selector : ∀ name, quiet (register_selector rt name);
  ol_quiet_find : ∀ c s, quiet (get_instance_method rt c s);
  ol_quiet_imp : ∀ m, quiet (method_get_imp rt m);
  ol_quiet_types : ∀ m, quiet (method_get_types rt m) }.

Create HintDb objc.
#[export] Hint Resolve ol_quiet_class ol_quiet_meta ol_quiet_super ol_quiet_selector ol_quiet_find
  ol_quiet_imp ol_quiet_types : objc.

(** ** The phases over such a runtime *)

Section Phases.
Context {X : Type} `{!ClassView X} (rt : objc_calls X) `{!ObjcLaws rt}.
Implicit Types x : X.

Lemma quiet_ret {A} (a : A) : quiet (X := X) (ret a).
Proof. by intros x. Qed.
Lemma quiet_bind {A B} (m : M X A) (k : A → M X B) : quiet m → (∀ a, quiet (k a)) → quiet (bind m k).
Proof.
  intros Hm Hk x. unfold bind. specialize (Hm x). destruct (m x) as [a x1]. specialize (Hk a x1).
  cbn in *. by etrans.
Qed.

Ltac quiet := repeat first
  [ apply quiet_ret | progress eauto with objc | apply quiet_bind; [|intros ?] | case_match
  | progress unfold hook_class, hook_selector, named_class, capture_method, method_is_local ].

Lemma quiet_hook_class target : quiet (hook_class rt target).
Proof. quiet. Qed.
Lemma quiet_hook_selector target : quiet (hook_selector rt target).
Proof. quiet. Qed.
Lemma quiet_capture target cls sel : quiet (capture_method rt target cls sel).
Proof. quiet. Qed.

(** Looking a method up from above a class that defines it finds another one. *)
Lemma local_iff x cls sel m : find_method x cls sel = Some m →
  negb (default 0 (find_method x (get_superclass rt cls x).1 sel) =? m) =
  bool_decide (is_Some (cv_own x cls sel)).
Proof.
  unfold find_method. intros Hm. destruct (ol_class x cls) as [E|E]; rewrite E in Hm; [done|].
  pose proof (ol_acyclic x cls) as Hd. rewrite E in Hd. apply NoDup_cons in Hd as [Hni _].
  set (up := cv_chain x _) in *. rewrite first_method_cons in Hm.
  destruct (cv_own x cls sel) as [own|] eqn:Eo.
  - injection Hm as ->. rewrite bool_decide_eq_true_2 by done. apply negb_true_iff, Z.eqb_neq.
    destruct (first_method x sel up) as [m'|] eqn:Ef; [|cbn; intros E0; by eapply ol_method, eq_sym].
    cbn. intros ->. apply first_method_found in Ef as (k & Hk & Hg).
    destruct (ol_identity x _ _ _ _ _ Hk Eo) as [-> _]. unfold gets_to in Hg.
    apply andb_true_iff in Hg as [Hg%bool_decide_eq_true _]. done.
  - rewrite Hm. cbn. by rewrite Z.eqb_refl.
Qed.

Lemma find_nonzero x c s m : find_method x c s = Some m → m ≠ 0.
Proof. intros (k & Hk & _)%first_method_found. by eapply ol_method. Qed.

(** The decision of a preparation, once the class and the selector are known. *)
Definition captures x (target : hk_objc_target) (cls sel : Z)
    (answer : hk_objc_status * option hk_objc_plan) : Prop :=
  let local := bool_decide (is_Some (cv_own x cls sel)) in
  let refused := negb local && (oc_inheritance_policy target =? HK_OBJC_LOCAL_METHOD_ONLY) in
  match find_method x cls sel with
  | None => answer = (absent target HK_OBJC_METHOD_NOT_FOUND, None)
  | Some m =>
      if refused then answer = (HK_OBJC_INHERITED_REFUSED, None)
      else if cv_imp x m =? 0 then answer = (HK_OBJC_NO_IMPLEMENTATION, None)
      else ∃ types, answer = (HK_OBJC_OK, Some (ObjcPlan cls sel m (cv_imp x m) types local true))
  end.

Lemma capture_spec x target cls sel : captures x target cls sel (capture_method rt target cls sel x).1.
Proof.
  unfold captures, capture_method, method_is_local, bind.
  pose proof (ol_quiet_find cls sel x) as V1. rewrite (surjective_pairing (get_instance_method rt cls sel x)), ol_find.
  destruct (get_instance_method rt cls sel x) as [? x1]. cbn in V1 |- *.
  destruct (find_method x cls sel) as [m|] eqn:Ef; cbn; [|done].
  rewrite (proj2 (Z.eqb_neq m 0)) by (by eapply find_nonzero).
  pose proof (ol_quiet_super cls x1) as V2. pose proof (local_iff x1 cls sel m) as El. rewrite (find_same x x1) in El by done. specialize (El Ef).
  destruct (get_superclass rt cls x1) as [super x2]. cbn in El, V2 |- *.
  pose proof (ol_quiet_find super sel x2) as V3.
  rewrite (surjective_pairing (get_instance_method rt super sel x2)), ol_find, (find_same x1 x2), El by done.
  destruct (get_instance_method rt super sel x2) as [? x3]. cbn in V3 |- *.
  assert (Eo : cv_own x1 cls sel = cv_own x cls sel) by (by destruct V1 as (_ & -> & _)). rewrite Eo.
  destruct (negb _ && _); [done|].
  pose proof (ol_quiet_imp m x3) as V4. rewrite (surjective_pairing (method_get_imp rt m x3)), ol_imp.
  assert (Ei : cv_imp x3 m = cv_imp x m).
  { destruct V1 as (_ & _ & V1), V2 as (_ & _ & V2), V3 as (_ & _ & V3). by rewrite V3, V2, V1. }
  rewrite Ei. destruct (cv_imp x m =? 0); [done|]. destruct (method_get_types rt m _) as [types ?]. by eexists.
Qed.

Lemma absent_fails target st : st ≠ HK_OBJC_OK → absent target st ≠ HK_OBJC_OK.
Proof. destruct target as [????? ? []], st; done. Qed.

(** A status is OK only with a plan. *)
Lemma prepare_plan runtime target x plan x' : runtime_complete runtime = Some rt →
  hk_objc_prepare runtime target x = ((HK_OBJC_OK, plan), x') → is_Some plan.
Proof.
  intros Hc. unfold hk_objc_prepare. rewrite Hc. unfold bind.
  destruct (hook_class rt target x) as [[st|cls] x1] eqn:Ec.
  - intros [= -> <- <-]. exfalso. revert Ec. unfold hook_class, named_class, bind, ret.
    pose proof (absent_fails target HK_OBJC_CLASS_NOT_FOUND ltac:(done)).
    pose proof (absent_fails target HK_OBJC_INVALID_ARGUMENT ltac:(done)).
    repeat (case_match; simplify_eq; try congruence).
  - destruct (hook_selector rt target x1) as [[sel|] x2]; [|done]. intros E.
    pose proof (capture_spec x2 target cls sel) as Hcap. rewrite E in Hcap. unfold captures in Hcap. cbn in Hcap.
    pose proof (absent_fails target HK_OBJC_METHOD_NOT_FOUND ltac:(done)).
    repeat case_match; try congruence. destruct Hcap as [? [= ->]]. by eexists.
Qed.

(** What a preparation that captured something has found. *)
Lemma objc_prepare_found runtime target x plan x' : runtime_complete runtime = Some rt →
  hk_objc_prepare runtime target x = ((HK_OBJC_OK, Some plan), x') →
  same_view x x' ∧ (hook_class rt target x).1 = inr (op_cls plan) ∧
  (∃ x1, same_view x x1 ∧ (hook_selector rt target x1).1 = Some (op_sel plan)) ∧
  captures x target (op_cls plan) (op_sel plan) (HK_OBJC_OK, Some plan).
Proof.
  intros Hc. unfold hk_objc_prepare. rewrite Hc. unfold bind.
  pose proof (quiet_hook_class target x) as V1. destruct (hook_class rt target x) as [[st|cls] x1]; [done|].
  pose proof (quiet_hook_selector target x1) as V2.
  destruct (hook_selector rt target x1) as [[sel|] x2] eqn:Es; [|done]. cbn in V1, V2 |- *. intros E.
  pose proof (quiet_capture target cls sel x2) as V3. pose proof (capture_spec x2 target cls sel) as Hcap.
  rewrite E in V3, Hcap. cbn in V3, Hcap.
  assert (Vx : same_view x x2) by (by etrans). unfold captures in Hcap |- *.
  rewrite (find_same x x2) in Hcap by done. destruct Vx as (A & B & C). rewrite B in Hcap.
  destruct (find_method x cls sel) as [m|] eqn:Ef; [|by destruct target as [????? ? []]].
  rewrite C in Hcap. destruct (negb _ && _) eqn:Er; [done|]. destruct (cv_imp x m =? 0) eqn:Ei; [done|].
  destruct Hcap as (types & [= ->]). cbn. split; [by etrans; [|exact V3]|]. split; [done|].
  split; [exists x1; by rewrite Es|]. rewrite Ef, Er, Ei. by eexists.
Qed.

Lemma captures_ok x target plan : captures x target (op_cls plan) (op_sel plan) (HK_OBJC_OK, Some plan) →
  op_captured plan = true ∧ op_original_imp plan ≠ 0 ∧
  op_original_imp plan = dispatch x (op_cls plan) (op_sel plan) ∧
  op_is_local plan = bool_decide (is_Some (cv_own x (op_cls plan) (op_sel plan))) ∧
  (op_is_local plan = true ∨ oc_inheritance_policy target ≠ HK_OBJC_LOCAL_METHOD_ONLY).
Proof.
  unfold captures, dispatch. destruct (find_method _ _ _) as [m|]; [|by destruct target as [????? ? []]].
  destruct (negb _ && _) eqn:Er; [done|]. destruct (Z.eqb_spec (cv_imp x m) 0); [done|].
  intros (types & [= E]). rewrite E. cbn. split_and!; try done.
  apply andb_false_iff in Er as [Er%negb_false_iff|Er%Z.eqb_neq]; auto.
Qed.

(** Whether a commit may go ahead. *)
Definition current x (plan : hk_objc_plan) (replacement : Z) (sink : hk_artifact_sink) : bool :=
  negb (replacement =? 0) && (dispatch x (op_cls plan) (op_sel plan) =? op_original_imp plan) &&
  negb (sk_require_predecessor_match sink && negb (op_original_imp plan =? sk_required_predecessor sink)).

Lemma replaced_answer x cls sel imp r x' : replaced x cls sel imp r x' → cv_chain x cls ≠ [] →
  dispatch x cls sel ≠ 0 → (if r =? 0 then dispatch x cls sel else r) = dispatch x cls sel.
Proof.
  intros (_ & m & _ & _ & _ & _ & Hm) Hch Hd. destruct (cv_own x cls sel) as [own|] eqn:Eo.
  - destruct Hm as [_ ->]. assert (E : dispatch x cls sel = cv_imp x own).
    { unfold dispatch, find_method. destruct (ol_class x cls) as [E|E]; [done|].
      rewrite E, first_method_cons, Eo. done. }
    rewrite <- E. by destruct (_ =? 0).
  - by destruct Hm as [-> _].
Qed.

Lemma commit_spec runtime plan replacement sink x : runtime_complete runtime = Some rt →
  op_captured plan = true → op_original_imp plan ≠ 0 →
  let r := hk_objc_commit runtime (Some plan) replacement (Some sink) x in
  if current x plan replacement sink
  then r.1 = (HK_MUTATION_COMPLETE, Some (op_original_imp plan),
              [objc_artifact (op_is_local plan) (op_original_imp plan) replacement]) ∧
       ∃ x1 answer, same_view x x1 ∧ replaced x1 (op_cls plan) (op_sel plan) replacement answer r.2
  else r.1 = (HK_MUTATION_NONE, None, []) ∧ same_view x r.2.
Proof.
  intros Hc Hcap H0 r. subst r. unfold hk_objc_commit, current. rewrite Hc, Hcap. cbn [negb orb].
  destruct (Z.eqb_spec replacement 0); cbn [negb andb]; [done|].
  destruct (sk_require_predecessor_match sink && _); cbn [negb andb]; [by rewrite andb_false_r|].
  rewrite andb_true_r. unfold bind. set (cls := op_cls plan). set (sel := op_sel plan).
  pose proof (ol_quiet_find cls sel x) as V1.
  rewrite (surjective_pairing (get_instance_method rt cls sel x)), ol_find.
  destruct (get_instance_method rt cls sel x) as [? x1]. cbn in V1 |- *. unfold dispatch.
  destruct (find_method x cls sel) as [m|] eqn:Ef; cbn; [|by destruct (op_original_imp plan)].
  rewrite (proj2 (Z.eqb_neq m 0)) by (by eapply find_nonzero).
  pose proof (ol_quiet_imp m x1) as V2. rewrite (surjective_pairing (method_get_imp rt m x1)), ol_imp.
  replace (cv_imp x1 m) with (cv_imp x m) by (symmetry; by destruct V1 as (_ & _ & C)).
  destruct (method_get_imp rt m x1) as [? x2]. cbn in V2 |- *.
  assert (V : same_view x x2) by (etrans; [|exact V2]; done).
  destruct (Z.eqb_spec (cv_imp x m) (op_original_imp plan)) as [Ei|]; cbn; [|done].
  assert (Hch : cv_chain x2 cls ≠ []).
  { intros E. unfold find_method in Ef. destruct V as (V & _). by rewrite <- V, E in Ef. }
  pose proof (ol_replace x2 cls sel replacement (op_types plan) ltac:(done) Hch) as Hr.
  destruct (replace_method rt cls sel replacement (op_types plan) x2) as [answer x3]. cbn in Hr |- *.
  assert (Ed : dispatch x2 cls sel = op_original_imp plan).
  { rewrite <- Ei. unfold dispatch. rewrite (find_same x x2), Ef by done. destruct V as (_ & _ & V). apply V. }
  pose proof (replaced_answer _ _ _ _ _ _ Hr Hch ltac:(by rewrite Ed)) as Ha. rewrite Ed in Ha. rewrite Ha.
  split; [done|]. by exists x2, answer.
Qed.

(** ** What a replacement does to dispatch *)

Lemma replaced_same x1 x cls sel imp r x' :
  same_view x x1 → replaced x1 cls sel imp r x' → replaced x cls sel imp r x'.
Proof.
  intros (A & B & C) (Hch & m & Hm & Hi & Ho & Hn & Hown). split; [intros c; by rewrite Hch, A|].
  exists m. split_and!; [done|done|intros; by rewrite Ho, B|intros; by rewrite Hn, C|].
  rewrite B in Hown. destruct (cv_own x cls sel); [by rewrite <- C|].
  destruct Hown as [-> H]. split; [done|]. intros. by rewrite <- B.
Qed.

(** Only the method that is replaced has its identity. *)
Lemma replaced_identity x cls sel imp r x' m : replaced x cls sel imp r x' → cv_own x' cls sel = Some m →
  ∀ k s, cv_own x k s = Some m → k = cls ∧ s = sel.
Proof.
  intros (_ & m' & Hm & _ & _ & _ & Hown) E k s Hk. rewrite E in Hm. injection Hm as <-.
  destruct (cv_own x cls sel) as [own|] eqn:Eo.
  - destruct Hown as [-> _]. by eapply ol_identity.
  - destruct Hown as [_ H]. by apply H in Hk.
Qed.

Lemma replaced_dispatch x cls sel imp r x' c s : replaced x cls sel imp r x' →
  dispatch x' c s = if reaches x cls sel c s then imp else dispatch x c s.
Proof.
  intros Hr. destruct Hr as (Hch & m & Hm & Hi & Ho & Hn & Hown) eqn:E. clear E.
  unfold dispatch, find_method, reaches. rewrite Hch.
  rewrite (first_method_defined x x' cls sel m) by done.
  destruct (bool_decide (s = sel) && gets_to x cls s (cv_chain x c)) eqn:Eg; [by cbn|].
  destruct (first_method x s (cv_chain x c)) as [m1|] eqn:Ef; [|done]. cbn. apply Hn. intros ->.
  apply first_method_found in Ef as (k & Hk & Hg).
  destruct (replaced_identity _ _ _ _ _ _ _ Hr Hm _ _ Hk) as [-> ->].
  rewrite Hg, bool_decide_eq_true_2 in Eg by done. done.
Qed.

(** From where a lookup gets to a class on, it is the lookup of that class. *)
Lemma gets_to_dispatch x cls s c : gets_to x cls s (cv_chain x c) = true →
  find_method x c s = find_method x cls s.
Proof.
  unfold find_method. remember (cv_chain x c) as l eqn:El. revert c El.
  induction l as [|k l IH]; intros c El; [done|].
  destruct (ol_class x c) as [E|E]; rewrite E in El; [done|]. injection El as -> El.
  rewrite gets_to_cons. destruct (Z.eqb_spec c cls) as [->|]; [by rewrite E, El|].
  cbn [orb]. intros [Hn%bool_decide_eq_true Hg]%andb_true_iff. rewrite first_method_cons, Hn.
  by eapply IH.
Qed.

Lemma gets_to_replaced x cls sel imp r x' s l : replaced x cls sel imp r x' →
  gets_to x' cls s l = gets_to x cls s l.
Proof.
  intros (_ & m & _ & _ & Ho & _). induction l as [|k l IH]; [done|].
  rewrite !gets_to_cons, IH. destruct (Z.eqb_spec k cls) as [->|]; [done|]. by rewrite Ho by congruence.
Qed.

(** Putting the predecessor back. *)
Lemma restored_view x cls sel imp r x' r' x'' :
  replaced x cls sel imp r x' → replaced x' cls sel (dispatch x cls sel) r' x'' → cv_chain x cls ≠ [] →
  (∀ c s, dispatch x'' c s = dispatch x c s) ∧ (same_view x x'' ↔ is_Some (cv_own x cls sel)).
Proof.
  intros H1 H2 Hcls. split.
  - intros c s. rewrite (replaced_dispatch _ _ _ _ _ _ _ _ H2), (replaced_dispatch _ _ _ _ _ _ _ _ H1).
    unfold reaches. rewrite (proj1 H1), (gets_to_replaced _ _ _ _ _ _ _ _ H1).
    destruct (bool_decide_reflect (s = sel)) as [->|]; [|done]. cbn.
    destruct (gets_to x cls sel (cv_chain x c)) eqn:Eg; [|done].
    unfold dispatch. by rewrite (gets_to_dispatch x cls sel c).
  - destruct H1 as (Hch1 & m & Hm & Hi & Ho & Hn & Hown), H2 as (Hch2 & n & Hn2 & Hi2 & Ho2 & Hn3 & Hown2).
    rewrite Hm in Hown2. destruct Hown2 as [-> _]. split.
    + intros (_ & B & _). specialize (B cls sel). rewrite Hn2 in B. rewrite <- B. by eexists.
    + intros [own Eo]. rewrite Eo in Hown. destruct Hown as [-> _]. split_and!.
      * intros c. by rewrite Hch2.
      * intros c s. destruct (decide ((c, s) = (cls, sel))) as [[= -> ->]|]; [by rewrite Hn2|].
        by rewrite Ho2, Ho.
      * intros k. destruct (decide (k = own)) as [->|]; [|by rewrite Hn3, Hn].
        rewrite Hi2. unfold dispatch, find_method. destruct (ol_class x cls) as [E|E]; [done|].
        by rewrite E, first_method_cons, Eo.
Qed.
End Phases.

(** ** The adapter *)

Lemma complete_fields {X} (runtime : hk_objc_runtime X) rt : runtime_complete (Some runtime) = Some rt →
  or_get_instance_method runtime = Some (get_instance_method rt) ∧
  or_method_get_imp runtime = Some (method_get_imp rt).
Proof. destruct runtime as [[] [] [] [] [] [] [] []]; cbn; try done. by intros [= <-]. Qed.

Section Adapter.
Context {X : Type} `{!ClassView X} (rt : objc_calls X) `{!ObjcLaws rt}.
Context (ctx_at : Z → option (hk_objc_runtime X)) (engine_ctx : Z) (runtime : hk_objc_runtime X).
Context (Hctx : ctx_at engine_ctx = Some runtime) (Hrt : runtime_complete (Some runtime) = Some rt).
Context (spec : hk_hook_spec) (target : hk_objc_target) (Htarget : hs_target spec = TObjc target).
Local Abbreviation world := (engine_world X hk_objc_plan).

(** The Objective-C runtime of the process. *)
Definition classes (w : world) : X := d_ctx (ew_device w).

Lemma objc_prepared w p diag w1 :
  objc_prepare_one_ctx_status ctx_at engine_ctx spec w = ((HK_PREPARE_OK, p, diag), w1) →
  p ≠ 0 ∧ ∃ plan x', ew_objects w1 !! p = Some plan ∧ classes w1 = x' ∧
    hk_objc_prepare (Some runtime) target (classes w) = ((HK_OBJC_OK, Some plan), x').
Proof.
  unfold objc_prepare_one_ctx_status. rewrite Hctx, Htarget. unfold bind, malloc_object, zoom.
  destruct (alloc_object (ew_heap w)) as [q h]. destruct (Z.eqb_spec q 0) as [|Hq]; [done|].
  unfold on_runtime, on_device, zoom, set_field, classes. cbn.
  destruct (hk_objc_prepare (Some runtime) target (d_ctx (ew_device w))) as [[st plan] x'] eqn:E. cbn.
  destruct st; cbn; try done. destruct (prepare_plan rt _ _ _ _ _ Hrt E) as [plan' ->]. rename plan' into plan. intros [= <- <- <-]. split; [done|].
  exists plan, x'. cbn. by rewrite lookup_insert, decide_True.
Qed.

Lemma objc_committed w p plan sink reply w' : p ≠ 0 → ew_objects w !! p = Some plan →
  op_captured plan = true → op_original_imp plan ≠ 0 →
  objc_commit_one_ctx ctx_at engine_ctx spec p sink w = (reply, w') →
  ew_objects w' = ew_objects w ∧
  if current (classes w) plan (hs_replacement spec) sink
  then reply = CommitReply [objc_artifact (op_is_local plan) (op_original_imp plan) (hs_replacement spec)]
                 (Some (op_original_imp plan)) None HK_MUTATION_COMPLETE ∧
       ∃ answer, replaced (classes w) (op_cls plan) (op_sel plan) (hs_replacement spec) answer (classes w')
  else reply = CommitReply [] None None HK_MUTATION_NONE ∧ same_view (classes w) (classes w').
Proof.
  intros Hp Ho Hcap H0. unfold objc_commit_one_ctx, bind, get_object, gets.
  rewrite (proj2 (Z.eqb_neq p 0)), Ho, Hctx by done. unfold on_runtime, on_device, zoom, set_field, classes. cbn.
  pose proof (commit_spec rt (Some runtime) plan (hs_replacement spec) sink (d_ctx (ew_device w)) Hrt Hcap H0) as Hc.
  destruct (hk_objc_commit _ _ _ _ _) as [[[m original] artifacts] x']. cbn in Hc |- *.
  intros [= <- <-]. cbn. split; [done|]. destruct (current _ _ _ _).
  - destruct Hc as ([= -> -> ->] & x1 & answer & V & Hr). split; [done|]. exists answer. by eapply replaced_same.
  - destruct Hc as ([= -> -> ->] & V). done.
Qed.

Lemma objc_verified w p plan : p ≠ 0 → ew_objects w !! p = Some plan →
  hs_replacement spec ≠ 0 → dispatch (classes w) (op_cls plan) (op_sel plan) = hs_replacement spec →
  (objc_verify_one_ctx ctx_at engine_ctx spec p w).1 = (HK_VERIFY_OK, no_verify_diag).
Proof.
  intros Hp Ho Hr Hdisp.
  destruct (complete_fields _ _ Hrt) as [Eg Ei]. unfold objc_verify_one_ctx, bind, get_object, gets.
  rewrite (proj2 (Z.eqb_neq p 0)), Ho, Hctx by done. cbn. rewrite Eg, Ei, Htarget. cbn.
  unfold on_runtime, on_device, zoom, set_field. cbn. unfold classes, dispatch in Hdisp.
  pose proof (ol_quiet_find (op_cls plan) (op_sel plan) (d_ctx (ew_device w))) as V1.
  rewrite (surjective_pairing (get_instance_method rt _ _ _)), ol_find.
  destruct (get_instance_method rt _ _ _) as [? x1]. cbn in V1 |- *.
  destruct (find_method (d_ctx (ew_device w)) _ _) as [m|] eqn:Ef; cbn in Hdisp |- *; [|congruence].
  rewrite (proj2 (Z.eqb_neq m 0)) by (by eapply (find_nonzero rt)).
  cbn [d_ctx ew_device]. rewrite (surjective_pairing (method_get_imp rt m x1)), ol_imp. cbn.
  destruct V1 as (_ & _ & V1). by rewrite V1, Hdisp, Z.eqb_refl.
Qed.

(** C22. An Objective-C hook from preparation to dispatch, over any runtime that
    behaves as documented and whatever happens in between.  Preparation changes
    no class; it captures the implementation that a message to the class (the
    metaclass, for a class method) runs, and accepts an inherited method only if
    the request allows one.  Commit goes through exactly when that is still what
    runs, and is the predecessor the caller demanded, if any.  Then a message
    runs the replacement exactly where its lookup gets to the class, every other
    message runs what it ran, the captured implementation is published and
    recorded, and the readback verifies; otherwise no class has changed. *)
Theorem objc_hook_lifecycle w p diag w1 w2 sink reply w3 :
  objc_prepare_one_ctx_status ctx_at engine_ctx spec w = ((HK_PREPARE_OK, p, diag), w1) →
  ew_objects w2 !! p = ew_objects w1 !! p →
  objc_commit_one_ctx ctx_at engine_ctx spec p sink w2 = (reply, w3) →
  ∃ cls sel,
    let local := bool_decide (is_Some (cv_own (classes w) cls sel)) in
    let original := dispatch (classes w) cls sel in
    let valid := hs_replacement spec ≠ 0 ∧ dispatch (classes w2) cls sel = original ∧
      (sk_require_predecessor_match sink = true → sk_required_predecessor sink = original) in
    same_view (classes w) (classes w1) ∧
    (hook_class rt target (classes w)).1 = inr cls ∧
    (∃ x, same_view (classes w) x ∧ (hook_selector rt target x).1 = Some sel) ∧
    original ≠ 0 ∧ (local = true ∨ oc_inheritance_policy target ≠ HK_OBJC_LOCAL_METHOD_ONLY) ∧
    ((valid ∧
      reply = CommitReply [objc_artifact local original (hs_replacement spec)] (Some original) None
                HK_MUTATION_COMPLETE ∧
      (∀ c s, dispatch (classes w3) c s =
         if reaches (classes w2) cls sel c s then hs_replacement spec else dispatch (classes w2) c s) ∧
      (objc_verify_one_ctx ctx_at engine_ctx spec p w3).1 = (HK_VERIFY_OK, no_verify_diag)) ∨
     (¬ valid ∧ reply = CommitReply [] None None HK_MUTATION_NONE ∧
      same_view (classes w2) (classes w3))).
Proof.
  intros Hp Hobj Hc. apply objc_prepared in Hp as (Hp & plan & x' & Ho & Hx & Hprep). rewrite Ho in Hobj.
  apply (objc_prepare_found rt) in Hprep as (V & Hcls & Hsel & Hcap); [|done].
  pose proof (captures_ok _ _ _ Hcap) as (Hcaptured & H0 & Hd & Hl & Hpol). clear Hcap.
  pose proof (objc_committed _ _ _ _ _ _ Hp Hobj Hcaptured H0 Hc) as [Hobj3 Hcommit].
  rewrite Hl in Hpol. rewrite Hd in H0. exists (op_cls plan), (op_sel plan). cbv zeta. rewrite Hx.
  split_and!; [done..|].
  destruct (current (classes w2) plan (hs_replacement spec) sink) eqn:Ecur; unfold current in Ecur; rewrite Hd in Ecur.
  - left. apply andb_true_iff in Ecur as [[Hr%negb_true_iff%Z.eqb_neq E%Z.eqb_eq]%andb_true_iff Hk].
    destruct Hcommit as [-> [answer Hrep]]. rewrite Hl, <- Hd. rewrite <- Hd in E, Hk.
    split; [|split; [done|split]].
    + split_and!; [done|done|]. intros Hreq. rewrite Hreq in Hk. cbn in Hk.
      symmetry. by apply negb_true_iff, negb_false_iff, Z.eqb_eq in Hk.
    + intros c s. by apply (replaced_dispatch rt _ _ _ _ answer).
    + assert (Hdisp : dispatch (classes w3) (op_cls plan) (op_sel plan) = hs_replacement spec).
      { rewrite (replaced_dispatch rt _ _ _ _ _ _ (op_cls plan) (op_sel plan) Hrep).
        assert (Hreach : reaches (classes w2) (op_cls plan) (op_sel plan) (op_cls plan) (op_sel plan) = true).
        { unfold reaches. rewrite bool_decide_eq_true_2 by done. cbn.
          destruct (ol_class (classes w2) (op_cls plan)) as [En|En]; [|by rewrite En, gets_to_cons, Z.eqb_refl].
          exfalso. apply H0. rewrite <- Hd, <- E. unfold dispatch, find_method. by rewrite En. }
        by rewrite Hreach. }
      apply (objc_verified _ _ plan); [done|by rewrite Hobj3|congruence|done].
  - right. split; [|exact Hcommit]. intros (Hr & E & Hk). rewrite E, Z.eqb_refl in Ecur.
    rewrite (proj2 (Z.eqb_neq _ 0)) in Ecur by done. cbn in Ecur.
    destruct (sk_require_predecessor_match sink); [|done]. rewrite Hk, Z.eqb_refl in Ecur by done. done.
Qed.

End Adapter.

(** ** A class table: a root class 1 and its subclass 2 *)

Module DemoClasses.
Local Abbreviation table := (gmap (Z * Z) Z).
Definition method_id (k : Z * Z) : Z := Zpos (encode k).
Definition chain (c : Z) : list Z := if c =? 1 then [1] else if c =? 2 then [2; 1] else [].
Definition imp (x : table) (m : Z) : Z :=
  match m with
  | Zpos p => match decode p with
              | Some k => if (encode k =? p)%positive then default 0 (x !! k) else 0
              | None => 0
              end
  | _ => 0
  end.

#[export] Instance view : ClassView table := {
  cv_chain := λ _, chain;
  cv_own := λ x c s, (λ _, method_id (c, s)) <$> x !! (c, s);
  cv_imp := imp }.

Definition calls : objc_calls table :=
  ObjcCalls (λ name, ret (if bool_decide (name = "Sub"%string) then 2 else 0)) (λ _, ret 0)
    (λ c, ret (if c =? 2 then 1 else 0)) (λ _, ret 7)
    (λ c s, gets (λ x, default 0 (find_method x c s))) (λ m, gets (λ x, imp x m)) (λ _, ret None)
    (λ c s i _ x, (default 0 (x !! (c, s)), <[(c, s) := i]> x)).
Definition seam : hk_objc_runtime table :=
  ObjcRuntime (Some (get_class calls)) (Some (get_metaclass calls)) (Some (get_superclass calls))
    (Some (register_selector calls)) (Some (get_instance_method calls)) (Some (method_get_imp calls))
    (Some (method_get_types calls)) (Some (replace_method calls)).

#[export] Instance method_id_inj : Inj (=) (=) method_id.
Proof. intros k k' [= E]. by apply (inj encode). Qed.

Lemma imp_id x k : imp x (method_id k) = default 0 (x !! k).
Proof. unfold imp, method_id. by rewrite decode_encode, Pos.eqb_refl. Qed.

Lemma own_some (x : table) c s m : cv_own x c s = Some m ↔ m = method_id (c, s) ∧ is_Some (x !! (c, s)).
Proof. cbn. destruct (x !! (c, s)); cbn; split; [by intros [= <-]|by intros [-> _]|done|by intros [_ []]]. Qed.

Lemma replace_replaced (x : table) c s i : replaced x c s i (default 0 (x !! (c, s))) (<[(c, s) := i]> x).
Proof.
  split; [done|]. exists (method_id (c, s)). split_and!.
  - apply own_some. split; [done|]. by rewrite lookup_insert, decide_True.
  - change (imp (<[(c, s) := i]> x) (method_id (c, s)) = i). by rewrite imp_id, lookup_insert, decide_True.
  - intros c' s' Hne. cbn. by rewrite lookup_insert_ne by congruence.
  - intros n Hn. cbn. unfold imp. destruct n as [|p|]; [done| |done]. destruct (decode p) as [k|]; [|done].
    destruct (Pos.eqb_spec (encode k) p) as [<-|]; [|done].
    rewrite lookup_insert_ne; [done|]. intros <-. by apply Hn.
  - cbn. destruct (x !! (c, s)) as [v|] eqn:E; cbn.
    + split; [done|]. change (v = imp x (method_id (c, s))). by rewrite imp_id, E.
    + split; [done|]. intros c' s' [H1 [? H2]]%own_some. apply (inj method_id) in H1 as [= -> ->]. congruence.
Qed.

#[export] Instance laws : ObjcLaws calls.
Proof.
  split; try (by intros); cbn.
  - intros x c. unfold chain. destruct (Z.eqb_spec c 1) as [->|]; [by right|].
    destruct (Z.eqb_spec c 2) as [->|]; [by right|by left].
  - intros x c. unfold chain. destruct (c =? 1), (c =? 2); repeat constructor; set_solver.
  - intros x c s m [-> _]%own_some. done.
  - intros x c s c' s' m [-> _]%own_some [E _]%own_some. by apply (inj method_id) in E as [= -> ->].
  - intros x c s i _ _ _. apply replace_replaced.
Qed.

(** The root has the method, the subclass inherits it. *)
Definition inherited : table := {[ (1, 7) := 0x5000 ]}.
Definition target : hk_objc_target :=
  ObjcTarget 0 (Some "Sub"%string) 0 (Some "run"%string) 0 1 HK_AVAILABILITY_REQUIRED_NOW.
Definition spec : hk_hook_spec := demo_memory_spec (TObjc target).
Definition process : engine_world table hk_objc_plan :=
  EngineWorld (Device (λ _, 0) inherited) (Heap (λ _, false) 0 0x1000) (Ids None 0 7) ∅.
Definition prepared := objc_prepare_one_ctx_status (λ _, Some seam) 1 spec process.
Definition committed := objc_commit_one_ctx (λ _, Some seam) 1 spec prepared.1.1.2 demo_sink prepared.2.
End DemoClasses.
Import DemoClasses.

Lemma objc_hook_lifecycle_witness :
  cr_mutation DemoClasses.committed.1 = HK_MUTATION_COMPLETE ∧
  ∃ cls, (hook_class DemoClasses.calls DemoClasses.target DemoClasses.inherited).1 = inr cls ∧
    dispatch DemoClasses.inherited cls 7 = 0x5000.
Proof.
  split; [reflexivity|].
  destruct (objc_hook_lifecycle DemoClasses.calls (λ _, Some DemoClasses.seam) 1 DemoClasses.seam eq_refl eq_refl
    DemoClasses.spec DemoClasses.target eq_refl DemoClasses.process DemoClasses.prepared.1.1.2
    DemoClasses.prepared.1.2 DemoClasses.prepared.2 DemoClasses.prepared.2 demo_sink DemoClasses.committed.1
    DemoClasses.committed.2 eq_refl eq_refl eq_refl) as (cls & sel & _ & Hcls & _).
  exists cls. split; [exact Hcls|]. injection Hcls as <-. reflexivity.
Defined.

