(* ===== verification/PlatformSeams.v ===== *)
(** * The seams the runtime registers its engines with
    (src/core/HKRuntime.c: the [hk_platform_] functions)

    Trampoline pages from the static pool of the image's own text, or from a
    near anonymous page, over the calls of hk_native.c; and the proof that the
    pool-only seams keep the contracts the relocating engine is proved
    against. *)

From stdpp Require Import base list strings gmap numbers option sets.
From S2P Require Import Prelude Types Artifacts Arm64 Engine Device EngineWorld StaticPool NativeMemory RelocEngine RelocSpec RelocPages.
Import Enc.

Definition HK_STATIC_TRAMP_PAGE : Z := 16384.
Definition HK_STATIC_TRAMP_SLOTS : Z := 8.

(** [hk_static_pool_setup]: the pool over the section at [section]. *)
Definition hk_static_pool_setup (section : Z) : hk_static_pool :=
  default (StaticPool 0 0 0 0)
    (hk_static_pool_init true section HK_STATIC_TRAMP_PAGE HK_STATIC_TRAMP_SLOTS).

Section Seams.
Context {K : Type} (vm : vm_calls K) (page_size : Z) (strip : Z → Z).

(** Behind the seams: the kernel with the probes' memo, and the process's one
    pool, set up. *)
Local Abbreviation native := (K * option memo_region)%type.
Local Abbreviation seams := (native * hk_static_pool)%type.

Definition on_kernel {A} (m : M (device K) A) : M (device seams) A :=
  zoom (λ d, Device (d_mem d) (d_ctx d).1.1)
       (λ d' d, Device (d_mem d') (d_ctx d', (d_ctx d).1.2, (d_ctx d).2)) m.

Definition on_native {A} (m : M (device native) A) : M (device seams) A :=
  zoom (λ d, Device (d_mem d) (d_ctx d).1) (λ d' d, Device (d_mem d') (d_ctx d', (d_ctx d).2)) m.

Definition on_pool {A} (f : hk_static_pool → A * hk_static_pool) : M (device seams) A := λ d,
  let '(a, p) := f (d_ctx d).2 in (a, Device (d_mem d) ((d_ctx d).1, p)).

Definition pool_claim (size near : Z) : M (device seams) Z :=
  on_pool (λ p, let '(slot, p') := hk_static_pool_claim (Some p) size near in (slot, default p p')).

Definition hk_static_pool_return (slot : Z) : M (device seams) unit :=
  on_pool (λ p, (tt, default p (hk_static_pool_release (Some p) slot))).

Definition hk_static_pool_take (size near : Z) (require_reach : bool) : M (device seams) Z :=
  slot <- pool_claim size near ;;
  if slot =? 0 then ret 0
  else if require_reach && negb (hk_arm64_branch_size near slot =? 4)
  then hk_static_pool_return slot ;;; ret 0
  else
    writable <- on_kernel (hk_native_reloc_unprotect vm page_size slot) ;;
    if (writable : bool) then ret slot else hk_static_pool_return slot ;;; ret 0.

Definition static_mapping (slot : Z) : hk_artifact_mapping :=
  zero_mapping <| mp_kind := HK_MAPPING_STATIC_HOOKKIT_SECTION |>
               <| mp_base := slot |> <| mp_size := HK_STATIC_TRAMP_PAGE |>.
Definition anonymous_mapping (page : Z) : hk_artifact_mapping :=
  zero_mapping <| mp_kind := HK_MAPPING_ANONYMOUS |>
               <| mp_base := page |> <| mp_size := page_size |>.

Definition hk_platform_reloc_alloc : reloc_alloc seams := λ size near,
  slot <- hk_static_pool_take size near true ;;
  if negb (slot =? 0) then ret (slot, static_mapping slot)
  else
    page <- on_kernel (hk_native_reloc_alloc vm page_size size near) ;;
    ret (page, if page =? 0 then zero_mapping else anonymous_mapping page).

Definition hk_platform_reloc_seal : reloc_seal seams := λ page _,
  on_kernel (hk_native_reloc_seal vm page_size page).

Definition hk_platform_reloc_free : reloc_free seams := λ page _,
  inside <- gets (λ d, hk_static_pool_contains (Some (d_ctx d).2) page) ;;
  if (inside : bool) then hk_static_pool_return page
  else on_kernel (hk_native_reloc_free vm page_size page).

Definition hk_platform_static_alloc : reloc_alloc seams := λ size near,
  slot <- hk_static_pool_take size near false ;;
  ret (slot, if slot =? 0 then zero_mapping else static_mapping slot).

Definition platform_reloc_write : writer seams := λ address data,
  on_native (hk_platform_write_memory vm page_size strip address data).

(** ** The pool's books *)

Definition pool_ok (p : hk_static_pool) : bool :=
  (0 <? sp_base p) && (0 <? sp_slot_size p) && (0 <? sp_slot_count p) &&
  (sp_slot_count p <=? HK_STATIC_POOL_MAX_SLOTS) &&
  (sp_base p + sp_slot_count p * sp_slot_size p <? 2 ^ 64) &&
  (0 <=? sp_used p) && (sp_used p <? 2 ^ sp_slot_count p).

Lemma pool_ok_wf p : pool_ok p = true ↔ pool_wf p.
Proof.
  unfold pool_ok. rewrite !andb_true_iff, !Z.ltb_lt, !Z.leb_le. split.
  - intros ((((((H1 & H2) & H3) & H4) & H5) & H6) & H7). split; try lia.
    + intros i Hi. destruct (decide (sp_used p = 0)) as [->|]; [apply Z.bits_0|].
      apply Z.bits_above_log2; [done|]. apply Z.log2_lt_pow2 in H7; lia.
    + unfold is_u64. assert (2 ^ sp_slot_count p <= 2 ^ 64); [|lia].
      apply Z.pow_le_mono_r; unfold HK_STATIC_POOL_MAX_SLOTS in *; lia.
  - intros [H1 H2 H3 H4 Hbits [H5 H6]]. split_and!; try lia.
    destruct (decide (sp_used p = 0)) as [->|]; [apply Z.pow_pos_nonneg; lia|].
    apply Z.log2_lt_pow2; [lia|]. destruct (Z.lt_ge_cases (Z.log2 (sp_used p)) (sp_slot_count p)); [done|].
    pose proof (Z.bit_log2 (sp_used p) ltac:(lia)) as Hb.
    rewrite Hbits in Hb by done. done.
Qed.

(** The addresses of the slots in use. *)
Definition slots_held (p : hk_static_pool) : gset Z :=
  list_to_set (slot_address p <$>
    filter (λ i, Z.testbit (sp_used p) i = true) (seqZ 0 (sp_slot_count p))).

Definition pool_held (x : seams) : option (gset Z) :=
  if pool_ok x.2 then Some (slots_held x.2) else None.

Lemma elem_of_slots p a : a ∈ slots_held p ↔
  ∃ i, a = slot_address p i ∧ 0 <= i < sp_slot_count p ∧ Z.testbit (sp_used p) i = true.
Proof.
  unfold slots_held. rewrite elem_of_list_to_set, list_elem_of_fmap. split.
  - intros (i & -> & Hi). apply list_elem_of_filter in Hi as [Hb Hi]. apply elem_of_seqZ in Hi.
    exists i. split_and!; [done|lia|lia|done].
  - intros (i & -> & Hi & Hb). exists i. split; [done|]. apply list_elem_of_filter. split; [done|].
    apply elem_of_seqZ. lia.
Qed.

Lemma held_claimed p k : pool_wf p → slot_free p k →
  let p' := p <| sp_used := Z.lor (sp_used p) (Z.shiftl 1 k) |> in
  slot_address p k ∉ slots_held p ∧ slots_held p' = {[slot_address p k]} ∪ slots_held p.
Proof.
  intros Hwf [Hk Hu] p'. pose proof (pw_size p Hwf) as Hs.
  assert (Hinj : ∀ i, 0 <= i < sp_slot_count p → slot_address p i = slot_address p k → i = k).
  { intros i Hi He. destruct (slot_address_small p i Hwf Hi) as [Ei _].
    destruct (slot_address_small p k Hwf Hk) as [Ek _]. nia. }
  split.
  - rewrite elem_of_slots. intros (i & He & Hi & Hb). rewrite (Hinj i Hi (eq_sym He)) in Hb. congruence.
  - apply set_eq. intros a. rewrite elem_of_union, elem_of_singleton, !elem_of_slots.
    unfold p', set_field, slot_address in *. simpl. split.
    + intros (i & -> & Hi & Hb). rewrite testbit_claimed in Hb by lia.
      destruct (Z.eqb_spec i k) as [->|]; [by left|right; exists i]. by rewrite orb_false_r in Hb.
    + intros [->|(i & -> & Hi & Hb)].
      * exists k. split; [done|]. split; [done|]. rewrite testbit_claimed, Z.eqb_refl by lia. apply orb_true_r.
      * exists i. split; [done|]. split; [done|]. rewrite testbit_claimed by lia. by rewrite Hb.
Qed.

Lemma held_released p slot : pool_wf p → slot ∈ slots_held p →
  ∃ p', hk_static_pool_release (Some p) slot = Some p' ∧ pool_wf p' ∧
    slots_held p' = slots_held p ∖ {[slot]}.
Proof.
  intros Hwf. rewrite elem_of_slots. intros (k & -> & Hk & Hb).
  pose proof (pw_size p Hwf) as Hs. pose proof (pw_count p Hwf) as Hc.
  unfold HK_STATIC_POOL_MAX_SLOTS in Hc.
  eexists. split; [by apply release_slot|]. split; [by apply released_wf|].
  apply set_eq. intros a. rewrite elem_of_difference, elem_of_singleton, !elem_of_slots.
  unfold set_field, slot_address in *. simpl. split.
  - intros (i & -> & Hi & Hbi). rewrite testbit_without in Hbi by lia.
    destruct (Z.eqb_spec i k) as [->|Hne]; [by rewrite andb_false_r in Hbi|].
    rewrite andb_true_r in Hbi. split; [by exists i|]. intros He. apply Hne.
    destruct (slot_address_small p i Hwf Hi) as [Ei _]. destruct (slot_address_small p k Hwf Hk) as [Ek _].
    unfold slot_address in *. nia.
  - intros [(i & -> & Hi & Hbi) Hne]. exists i. split; [done|]. split; [done|].
    rewrite testbit_without by lia. destruct (Z.eqb_spec i k) as [->|]; [done|]. by rewrite Hbi.
Qed.

Lemma pool_held_some x S : pool_held x = Some S ↔ pool_wf x.2 ∧ S = slots_held x.2.
Proof.
  unfold pool_held. rewrite <- pool_ok_wf. destruct (pool_ok x.2); split; try done.
  - by intros [= <-].
  - by intros [_ ->].
  - by intros [? _].
Qed.

Lemma pool_held_wf x : pool_wf x.2 → pool_held x = Some (slots_held x.2).
Proof. intros H. by apply pool_held_some. Qed.

Context (laws : vm_laws vm).

Lemma return_spec slot d p : hk_static_pool_release (Some (d_ctx d).2) slot = Some p →
  hk_static_pool_return slot d = (tt, Device (d_mem d) ((d_ctx d).1, p)).
Proof. intros H. unfold hk_static_pool_return, on_pool. by rewrite H. Qed.

(** Taking a slot moves no byte, and either leaves the pool alone or claims a
    free slot of it. *)
Lemma take_spec size near reach d : pool_wf (d_ctx d).2 →
  let '(slot, d') := hk_static_pool_take size near reach d in
  d_mem d' = d_mem d ∧
  ((slot = 0 ∧ (d_ctx d').2 = (d_ctx d).2) ∨
   ∃ k, slot_free (d_ctx d).2 k ∧ slot = slot_address (d_ctx d).2 k ∧ slot ≠ 0 ∧
     (d_ctx d').2 = (d_ctx d).2 <| sp_used := Z.lor (sp_used (d_ctx d).2) (Z.shiftl 1 k) |>).
Proof.
  intros Hwf. unfold hk_static_pool_take, bind at 1, pool_claim, on_pool.
  destruct (claim_cases (d_ctx d).2 size near Hwf) as [[-> _]|(k & (Hf & _ & _) & ->)].
  { split; [done|]. by left. }
  pose proof (slot_address_nonzero _ _ Hwf Hf) as Hne.
  pose proof (release_claimed _ _ Hwf Hf) as Hrel.
  remember ((d_ctx d).2 <| sp_used := Z.lor (sp_used (d_ctx d).2) (Z.shiftl 1 k) |>) as p' eqn:Hp'.
  cbv beta iota zeta. cbn [default from_option].
  rewrite (proj2 (Z.eqb_neq _ _) Hne).
  destruct (reach && _).
  { unfold bind. erewrite return_spec by exact Hrel. split; [reflexivity|]. left. by split. }
  unfold bind at 1, on_kernel, zoom, hk_native_reloc_unprotect.
  rewrite (proj2 (Z.eqb_neq _ _) Hne). cbn [d_mem d_ctx fst snd default from_option].
  set (prot := Z.lor _ _). set (d1 := Device (d_mem d) _).
  pose proof (vl_protect vm laws (slot_address (d_ctx d).2 k) page_size prot d1) as Hmem.
  destruct (vm_protect vm _ _ _ d1) as [ok d2]. simpl in Hmem. destruct ok; cbv beta iota zeta.
  - split; [exact Hmem|]. right. exists k. by rewrite <- Hp'.
  - unfold bind. erewrite return_spec by exact Hrel. split; [exact Hmem|]. left. by split.
Qed.

(** The pool-only seams and the writer that src/core/HKRuntime.c registers
    the static engine with keep, given what the kernel documents of its calls,
    the books the engine's page accounting is proved against: pages are the
    slots in use, none is handed out twice, and a failed protection change
    returns the slot. *)
Theorem static_seams_ledger :
  PageLedger pool_held hk_platform_static_alloc hk_platform_reloc_seal hk_platform_reloc_free
    platform_reloc_write.
Proof.
  split.
  - intros size near d S [Hwf ->]%pool_held_some. unfold hk_platform_static_alloc, bind.
    pose proof (take_spec size near false d Hwf) as H.
    destruct (hk_static_pool_take size near false d) as [slot d']. unfold ret. simpl.
    destruct H as [_ [[-> Hp]|(k & Hf & -> & Hne & Hp)]].
    + apply pool_held_some. by rewrite Hp.
    + destruct (decide _); [done|]. destruct (held_claimed _ _ Hwf Hf) as [Hnew Hset].
      split; [done|]. apply pool_held_some. rewrite Hp. split; [by apply claimed_wf|by rewrite Hset].
  - intros page size d S HS. unfold hk_platform_reloc_seal, on_kernel, zoom, hk_native_reloc_seal.
    destruct (page =? 0); [by destruct d as [m [[? ?] ?]]|].
    by destruct (vm_protect vm _ _ _ _) as [ok d'].
  - intros page size d S [Hwf ->]%pool_held_some Hin. pose proof Hin as (k & Hpage & Hk & Hb)%elem_of_slots.
    unfold hk_platform_reloc_free, bind, gets.
    rewrite (contains_slot (d_ctx d).2 k page Hwf Hk) by (rewrite Hpage; pose proof (pw_size _ Hwf); lia).
    unfold hk_static_pool_return, on_pool.
    destruct (held_released _ _ Hwf Hin) as (p' & -> & Hwf' & Hset). simpl.
    apply pool_held_some. split; [done|exact (eq_sym Hset)].
  - intros a l d S HS. unfold platform_reloc_write, on_native, zoom.
    by destruct (hk_platform_write_memory _ _ _ _ _ _) as [m d'].
Qed.

Lemma static_seams_pages : ∀ size near d, pool_wf (d_ctx d).2 →
  let r := hk_platform_static_alloc size near d in
  d_mem r.2 = d_mem d ∧ is_u64 r.1.1 ∧ is_u64 (mp_base r.1.2).
Proof.
  intros size near d Hwf. unfold hk_platform_static_alloc, bind.
  pose proof (take_spec size near false d Hwf) as H.
  destruct (hk_static_pool_take size near false d) as [slot d']. destruct H as [Hm H].
  unfold ret. simpl. split; [done|]. destruct H as [[-> _]|(k & Hf & -> & Hne & _)]; [done|].
  rewrite (proj2 (Z.eqb_neq _ _) Hne). simpl. by split; apply u64_range.
Qed.
End Seams.

(** ** Witness: a pool at 0x200000000 over the demonstration kernel. *)

Lemma static_seams_ledger_witness :
  let seams := Device (λ _, 0) ((tt, None), hk_static_pool_setup 0x200000000) in
  let r := hk_platform_static_alloc demo_vm 16384 128 0x1FFF00000 seams in
  r.1.1 = 0x200000000 ∧
  ∃ S, pool_held (d_ctx seams) = Some S ∧ pool_held (d_ctx r.2) = Some ({[0x200000000]} ∪ S).
Proof.
  intros seams r. split; [vm_compute; reflexivity|].
  exists (slots_held (hk_static_pool_setup 0x200000000)). split; [reflexivity|].
  pose proof (pl_alloc (PageLedger := static_seams_ledger demo_vm 16384 id demo_vm_laws) 128 0x1FFF00000 seams _ eq_refl) as H.
  exact (proj2 H).
Defined.
