(* ===== verification/PointerAuth.v ===== *)
(** * Pointer authentication (src/internal/HKPointerAuth.h)

    The three builds of the header: hardware intrinsics, the host's identity
    and the host tests' stand-in.  The engines' import slots are signed with
    the derived operations at the end. *)

From stdpp Require Import base numbers.
From S2P Require Import Prelude RelocEngine.

(** [hk_pac_key_t]: the fixups carry it as a two-bit number. *)
Definition HK_PAC_KEY_IA : Z := 0.
Definition HK_PAC_KEY_IB : Z := 1.
Definition HK_PAC_KEY_DA : Z := 2.
Definition HK_PAC_KEY_DB : Z := 3.

Record hk_pac_schema : Type := PacSchema {
  ps_authenticated : bool;
  ps_key : Z;
  ps_diversity : Z;
  ps_address_diversity : bool }.

#[export] Instance hk_pac_schema_eq_dec : EqDecision hk_pac_schema.
Proof. solve_decision. Defined.

(** What a build defines. *)
Class PacOps : Type := {
  hk_pac_blend : Z → Z → Z;
  hk_pac_strip_key : Z → Z → Z;
  hk_pac_sign_key : Z → Z → Z → Z }.

(** ** The builds *)

(** No pointer authentication. *)
Definition plain_pac : PacOps := {|
  hk_pac_blend := λ _ diversity, diversity;
  hk_pac_strip_key := λ value _, value;
  hk_pac_sign_key := λ value _ _, value |}.

(** [HK_PTRAUTH_TEST] *)
Definition HK_PAC_TEST_ADDRESS_MASK : Z := 0x0000FFFFFFFFFFFF.
Definition hk_pac_test_strip (value : Z) : Z := Z.land value HK_PAC_TEST_ADDRESS_MASK.
Definition hk_pac_test_sign (value key discriminator : Z) : Z :=
  let raw := hk_pac_test_strip value in
  let hash := Z.lxor (Z.lxor raw (u64 (discriminator * 0x9E3779B185EBCA87)))
                (u64 (key * 0xD6E8FEB86659FD93)) in
  let tag := Z.land (Z.lxor (Z.lxor (Z.shiftr hash 17) (Z.shiftr hash 41)) hash) 0xFFFF in
  let tag := if tag =? 0 then 1 else tag in
  Z.lor raw (u64 (Z.shiftl tag 48)).
Definition test_pac : PacOps := {|
  hk_pac_blend := λ address diversity,
    Z.lxor (Z.lxor address (u64 (Z.shiftl diversity 32))) diversity;
  hk_pac_strip_key := λ value _, hk_pac_test_strip value;
  hk_pac_sign_key := hk_pac_test_sign |}.

(** arm64e: the intrinsics of <ptrauth.h>, by hardware key. *)
Inductive ptrauth_key : Type :=
  | ptrauth_key_asia | ptrauth_key_asib | ptrauth_key_asda | ptrauth_key_asdb.

Definition hardware_key (key : Z) : ptrauth_key :=
  if key =? HK_PAC_KEY_IB then ptrauth_key_asib
  else if key =? HK_PAC_KEY_DA then ptrauth_key_asda
  else if key =? HK_PAC_KEY_DB then ptrauth_key_asdb
  else ptrauth_key_asia.

Definition hardware_pac (ptrauth_blend_discriminator : Z → Z → Z)
    (ptrauth_strip : Z → ptrauth_key → Z)
    (ptrauth_sign_unauthenticated : Z → ptrauth_key → Z → Z) : PacOps := {|
  hk_pac_blend := ptrauth_blend_discriminator;
  hk_pac_strip_key := λ value key, ptrauth_strip value (hardware_key key);
  hk_pac_sign_key := λ value key, ptrauth_sign_unauthenticated value (hardware_key key) |}.

(** ** The derived operations *)

Section Derived.
Context `{PacOps}.

Definition hk_pac_strip_code (value : Z) : Z := hk_pac_strip_key value HK_PAC_KEY_IA.

(** [RelocEngine.hk_pac_make_callable] over this build. *)
Definition pac_make_callable (value : Z) : Z :=
  hk_pac_make_callable hk_pac_strip_code (λ v, hk_pac_sign_key v HK_PAC_KEY_IA 0) value.

Definition hk_pac_slot_discriminator (schema : hk_pac_schema) (slot_address : Z) : Z :=
  if ps_address_diversity schema then hk_pac_blend slot_address (ps_diversity schema)
  else ps_diversity schema.

Definition hk_pac_strip_slot (value : Z) (schema : hk_pac_schema) : Z :=
  if ps_authenticated schema then hk_pac_strip_key value (ps_key schema) else value.

Definition hk_pac_sign_slot (value : Z) (schema : hk_pac_schema) (slot_address : Z) : Z :=
  let value := hk_pac_strip_code value in
  if ps_authenticated schema
  then hk_pac_sign_key value (ps_key schema) (hk_pac_slot_discriminator schema slot_address)
  else value.

Definition hk_pac_slot_matches (value : Z) (schema : hk_pac_schema) (slot_address : Z) : bool :=
  negb (ps_authenticated schema) ||
  (hk_pac_sign_slot (hk_pac_strip_slot value schema) schema slot_address =? value).
End Derived.

(** What the code relies on: stripping removes a signature and nothing else,
    and stays within a machine word. *)
Class PacLaws `(PacOps) : Prop := {
  pac_strip_idempotent : ∀ v, hk_pac_strip_code (hk_pac_strip_code v) = hk_pac_strip_code v;
  pac_strip_sign : ∀ v key discriminator, is_u64 v →
    hk_pac_strip_key (hk_pac_sign_key (hk_pac_strip_code v) key discriminator) key =
    hk_pac_strip_code v;
  pac_strip_range : ∀ v key, is_u64 v → is_u64 (hk_pac_strip_key v key);
  pac_sign_range : ∀ v key discriminator, is_u64 v → is_u64 (hk_pac_sign_key v key discriminator) }.

#[export] Instance plain_pac_laws : PacLaws plain_pac.
Proof. by split. Qed.

Lemma test_strip_mod v : hk_pac_test_strip v = v mod 2 ^ 48.
Proof. unfold hk_pac_test_strip. change HK_PAC_TEST_ADDRESS_MASK with (Z.ones 48). by apply Z.land_ones. Qed.

Lemma test_strip_signed raw tag : 0 <= raw < 2 ^ 48 → 0 <= tag →
  hk_pac_test_strip (Z.lor raw (u64 (Z.shiftl tag 48))) = raw.
Proof.
  intros Hr Ht. rewrite test_strip_mod. unfold u64.
  rewrite <- Z.land_ones, Z.land_lor_distr_l, !Z.land_ones by lia.
  rewrite (Z.mod_small raw) by done. rewrite Z.shiftl_mul_pow2 by lia.
  replace ((tag * 2 ^ 48) mod 2 ^ 64 mod 2 ^ 48) with 0; [apply Z.lor_0_r|].
  rewrite Z.mod_mod_divide by (by exists (2 ^ 16)). symmetry. by apply Z.mod_mul.
Qed.

#[export] Instance test_pac_laws : PacLaws test_pac.
Proof.
  assert (Hs : ∀ v, 0 <= hk_pac_test_strip v < 2 ^ 48)
    by (intros v; rewrite test_strip_mod; by apply Z.mod_pos_bound).
  split; simpl.
  - intros v. unfold hk_pac_strip_code. simpl. rewrite !test_strip_mod. by rewrite Z.mod_mod.
  - intros v key discriminator _. unfold hk_pac_strip_code. simpl. unfold hk_pac_test_sign. cbv zeta.
    pose proof (Hs v). rewrite test_strip_signed; [|by apply Hs|].
    + rewrite !test_strip_mod. by rewrite Z.mod_mod.
    + destruct (_ =? 0); [done|]. by apply Z.land_nonneg; right.
  - intros v key _. pose proof (Hs v). unfold is_u64. lia.
  - intros v key discriminator _. unfold hk_pac_test_sign. cbv zeta. pose proof (Hs v).
    set (tag := if _ =? 0 then _ else _). pose proof (u64_range (Z.shiftl tag 48)) as Hu. unfold is_u64 in *.
    split; [apply Z.lor_nonneg; lia|].
    assert (Hlt : 0 <= Z.lor (hk_pac_test_strip v) (u64 (Z.shiftl tag 48)) < 2 ^ 64); [|lia].
    rewrite <- (Z.mod_small (hk_pac_test_strip v) (2 ^ 64)), <- (Z.mod_small (u64 _) (2 ^ 64)) by lia.
    rewrite <- !Z.land_ones, <- Z.land_lor_distr_l, Z.land_ones by done. by apply Z.mod_pos_bound.
Qed.

(** ** A signed slot *)

Section Slots.
Context `{PacLaws}.

(** What is signed for a slot strips back and passes the slot's own check. *)
Lemma sign_slot_strip v schema a : is_u64 v →
  hk_pac_strip_slot (hk_pac_sign_slot v schema a) schema = hk_pac_strip_code v.
Proof.
  intros Hv. unfold hk_pac_strip_slot, hk_pac_sign_slot.
  destruct (ps_authenticated schema); [by apply pac_strip_sign|done].
Qed.

Lemma sign_slot_matches v schema a : is_u64 v →
  hk_pac_slot_matches (hk_pac_sign_slot v schema a) schema a = true.
Proof.
  intros Hv. unfold hk_pac_slot_matches. rewrite sign_slot_strip by done.
  apply orb_true_intro. right. apply Z.eqb_eq. unfold hk_pac_sign_slot. by rewrite pac_strip_idempotent.
Qed.

Lemma sign_slot_range v schema a : is_u64 v → is_u64 (hk_pac_sign_slot v schema a).
Proof.
  intros Hv. unfold hk_pac_sign_slot. pose proof (pac_strip_range v HK_PAC_KEY_IA Hv).
  destruct (ps_authenticated schema); [by apply pac_sign_range|done].
Qed.
End Slots.
