(* ===== verification/Swift.v ===== *)
(** * Swift vtable slots (src/native/hk_swift.c, src/engines/HKSwiftEngine.c)

    The class metadata is read where the kernel says it may be, validated, and
    one slot of the vtable is rewritten in two phases.  dladdr, the demangler and
    the Objective-C class lookup are parameters; what goes to stderr is not
    modelled. *)

From stdpp Require Import base list strings numbers option.
From Stdlib Require String.
From S2P Require Import Prelude Types Memory Faults Device NativeMemory PointerAuth.

(** ** The Swift ABI *)

Definition HK_SWIFT_METADATA_DATA_OFFSET : Z := 0x20.
Definition HK_SWIFT_METADATA_IS_SWIFT_BIT : Z := 0x2.
Definition HK_SWIFT_METADATA_DESCRIPTION_OFFSET : Z := 0x40.
Definition HK_SWIFT_DESC_KIND_MASK : Z := 0x1F.
Definition HK_SWIFT_DESC_KIND_CLASS : Z := 16.
Definition HK_SWIFT_DESC_IS_GENERIC : Z := 0x80.
Definition HK_SWIFT_DESC_METADATA_INIT_MASK : Z := 0x3.
Definition HK_SWIFT_DESC_CLASS_HAS_VTABLE : Z := 2 ^ 31.
Definition HK_SWIFT_DESC_CLASS_HAS_RESILIENT_SUPERCLASS : Z := 2 ^ 29.
Definition HK_SWIFT_DESC_VTABLE_OFFSET : Z := 0x2C.
Definition HK_SWIFT_DESC_VTABLE_SIZE : Z := 0x30.
Definition HK_SWIFT_DESC_METHODS : Z := 0x34.
Definition HK_SWIFT_METHOD_DESC_SIZE : Z := 8.
Definition HK_SWIFT_METHOD_IMPL_OFFSET : Z := 4.
Definition HK_SWIFT_METHOD_KIND_MASK : Z := 0x0F.
Definition HK_SWIFT_METHOD_IS_INSTANCE : Z := 0x10.
Definition HK_SWIFT_METHOD_IS_ASYNC : Z := 0x40.
Definition HK_SWIFT_METHOD_EXTRA_SHIFT : Z := 16.
Definition HK_SWIFT_VTABLE_ENTRY_SIZE : Z := 8.

Definition HK_SWIFT_ERR_UNSUPPORTED : Z := -1.
Definition HK_SWIFT_ERR_NOT_SWIFT : Z := -2.
Definition HK_SWIFT_ERR_NOT_CLASS_DESCRIPTOR : Z := -3.
Definition HK_SWIFT_ERR_NO_VTABLE : Z := -4.
Definition HK_SWIFT_ERR_UNSUPPORTED_LAYOUT : Z := -5.
Definition HK_SWIFT_ERR_NOT_FOUND : Z := -6.
Definition HK_SWIFT_ERR_AMBIGUOUS : Z := -7.
Definition HK_SWIFT_ERR_PAC_MISMATCH : Z := -8.
Definition HK_SWIFT_ERR_INVALID_INDEX : Z := -9.
Definition HK_SWIFT_ERR_ARG : Z := -10.
Definition HK_SWIFT_ERR_WRITE : Z := -11.
Definition HK_SWIFT_ERR_UNREADABLE : Z := -12.
Definition HK_SWIFT_ERR_STALE : Z := -13.

Record hk_swift_slot_plan : Type := SlotPlan {
  sp_slot : Z;
  sp_original : Z;
  sp_discriminator : Z;
  sp_prepared : bool }.

#[export] Instance hk_swift_slot_plan_eta : Eta hk_swift_slot_plan := λ p,
  SlotPlan (sp_slot p) (sp_original p) (sp_discriminator p) (sp_prepared p).

(** [hk_swift_errno] is the process's. *)
Record swift_state {K : Type} : Type := SwiftState {
  ss_native : device K * option memo_region;
  ss_heap : heap;
  ss_errno : Z }.
Arguments swift_state : clear implicits.
Arguments SwiftState {K} _ _ _.

#[export] Instance swift_state_eta {K} : Eta (swift_state K) := λ s,
  SwiftState (ss_native s) (ss_heap s) (ss_errno s).

Definition state_memory {K} (s : swift_state K) : Z → Z := d_mem (ss_native s).1.

Section Swift.
Context {K : Type} (vm : vm_calls K) (page_size : Z) `{PacOps}.
Context (mapped : Z → bool).
(** The symbol dladdr finds at an address, if it names one. *)
Context (symbol_at : Z → option string).
(** [hk_swift_demangle], NULL as [None]. *)
Context (hk_swift_demangle : option (string → option string)).
Local Abbreviation state := (swift_state K).

(** ** Primitives *)

Definition set_errno (code : Z) : F state unit := lift (modify (λ s, s <| ss_errno := code |>)).

(** [return false] *)
Definition fail {A} (code : Z) : F state (option A) := _ <-- set_errno code ;; fret None.

Definition on_native {A} (m : M (device K * option memo_region) A) : F state A :=
  lift (zoom ss_native (λ n s, s <| ss_native := n |>) m).
Definition readable_range (addr len : Z) : F state bool :=
  on_native (hk_native_range_readable vm page_size addr len).

Definition load32 (a : Z) : F state Z := fetch (λ s, read_u32 (mapped_memory mapped (state_memory s)) a).
Definition load64 (a : Z) : F state Z := fetch (λ s, read_u64 (mapped_memory mapped (state_memory s)) a).

Definition hk_strip_data (p : Z) : Z := hk_pac_strip_key p HK_PAC_KEY_DA.
Definition hk_sign_code (p disc : Z) : Z := hk_pac_sign_key p HK_PAC_KEY_IA disc.

(** An [int32_t]. *)
Definition s32 (v : Z) : Z := if v <? 2 ^ 31 then v else v - 2 ^ 32.

(** ** Resolving a class *)

(** The flags of a class descriptor, in the order they are refused. *)
Definition descriptor_refusal (flags : Z) : option Z :=
  if negb (Z.land flags HK_SWIFT_DESC_KIND_MASK =? HK_SWIFT_DESC_KIND_CLASS)
  then Some HK_SWIFT_ERR_NOT_CLASS_DESCRIPTOR
  else if Z.land flags HK_SWIFT_DESC_CLASS_HAS_VTABLE =? 0 then Some HK_SWIFT_ERR_NO_VTABLE
  else if negb (Z.land flags HK_SWIFT_DESC_IS_GENERIC =? 0) then Some HK_SWIFT_ERR_UNSUPPORTED_LAYOUT
  else if negb (Z.land flags HK_SWIFT_DESC_CLASS_HAS_RESILIENT_SUPERCLASS =? 0)
  then Some HK_SWIFT_ERR_UNSUPPORTED_LAYOUT
  else if negb (Z.land (Z.shiftr flags 16) HK_SWIFT_DESC_METADATA_INIT_MASK =? 0)
  then Some HK_SWIFT_ERR_UNSUPPORTED_LAYOUT
  else None.

(** The vtable, the method descriptors, and how many there are. *)
Definition hk_swift_resolve (cls : Z) : F state (option (Z * Z * Z)) :=
  if cls =? 0 then fail HK_SWIFT_ERR_ARG
  else
    ok <-- readable_range cls (HK_SWIFT_METADATA_DESCRIPTION_OFFSET + 8) ;;
    if negb ok then fail HK_SWIFT_ERR_UNREADABLE
    else
      data <-- load64 (cls + HK_SWIFT_METADATA_DATA_OFFSET) ;;
      if Z.land data HK_SWIFT_METADATA_IS_SWIFT_BIT =? 0 then fail HK_SWIFT_ERR_NOT_SWIFT
      else
        description_signed <-- load64 (cls + HK_SWIFT_METADATA_DESCRIPTION_OFFSET) ;;
        if description_signed =? 0 then fail HK_SWIFT_ERR_NOT_SWIFT
        else
          let descriptor := hk_strip_data description_signed in
          ok <-- readable_range descriptor HK_SWIFT_DESC_METHODS ;;
          if negb ok then fail HK_SWIFT_ERR_UNREADABLE
          else
            flags <-- load32 descriptor ;;
            match descriptor_refusal flags with
            | Some code => fail code
            | None =>
                vtable_offset <-- load32 (descriptor + HK_SWIFT_DESC_VTABLE_OFFSET) ;;
                vtable_size <-- load32 (descriptor + HK_SWIFT_DESC_VTABLE_SIZE) ;;
                let vtable := u64 (cls + vtable_offset * HK_SWIFT_VTABLE_ENTRY_SIZE) in
                let methods := u64 (descriptor + HK_SWIFT_DESC_METHODS) in
                ok <-- (if 0 <? vtable_size then
                          slots <-- readable_range vtable (vtable_size * 8) ;;
                          if slots : bool
                          then readable_range methods (vtable_size * HK_SWIFT_METHOD_DESC_SIZE)
                          else fret false
                        else fret true) ;;
                if negb ok then fail HK_SWIFT_ERR_UNREADABLE
                else fret (Some (vtable, methods, vtable_size))
            end.

(** ** Slots by name *)

Definition hk_swift_method_impl (method : Z) : F state Z :=
  let impl_field := method + HK_SWIFT_METHOD_IMPL_OFFSET in
  relative <-- load32 impl_field ;;
  fret (u64 (impl_field + s32 relative)).

(** [strstr(hay, needle) != NULL] *)
Definition contains (hay needle : string) : bool :=
  match String.index 0 needle hay with Some _ => true | None => false end.

Definition mangled_exact (name : string) : bool := String.prefix "$s" name || String.prefix "_$s" name.
Definition probe_of (name : string) : string :=
  if String.prefix "_$s" name then String.substring 1 (String.length name - 1) name else name.

(** Whether the symbol of a slot is the one [name] asks for. *)
Definition name_hit (name symbol : string) : bool :=
  if mangled_exact name then bool_decide (probe_of name = symbol)
  else
    match hk_swift_demangle with
    | None => false
    | Some demangle =>
        match demangle symbol with Some demangled => contains demangled name | None => false end
    end.

Definition slot_hit (name : string) (method : Z) : F state bool :=
  flags <-- load32 method ;;
  if negb (Z.land flags HK_SWIFT_METHOD_IS_ASYNC =? 0) then fret false
  else
    impl <-- hk_swift_method_impl method ;;
    if impl =? 0 then fret false
    else
      fret (match symbol_at impl with Some symbol => name_hit name symbol | None => false end).

(** The slots from [i] that match, [count] left. *)
Fixpoint matching_slots (count : nat) (name : string) (methods i : Z) : F state (list Z) :=
  match count with
  | O => fret []
  | S count =>
      hit <-- slot_hit name (methods + i * HK_SWIFT_METHOD_DESC_SIZE) ;;
      rest <-- matching_slots count name methods (i + 1) ;;
      fret (if hit : bool then i :: rest else rest)
  end.

Definition hk_swift_find_slot (cls : Z) (name : option string) : F state (option Z) :=
  _ <-- set_errno 0 ;;
  match name with
  | None | Some EmptyString => fail HK_SWIFT_ERR_ARG
  | Some name =>
      if cls =? 0 then fail HK_SWIFT_ERR_ARG
      else
        resolved <-- hk_swift_resolve cls ;;
        match resolved with
        | None => fret None
        | Some (_, methods, size) =>
            matched <-- lift (zoom ss_heap (λ h s, s <| ss_heap := h |>) alloc) ;;
            if negb matched then fail HK_SWIFT_ERR_ARG
            else
              hits <-- matching_slots (Z.to_nat size) name methods 0 ;;
              match hits with
              | [] => fail HK_SWIFT_ERR_NOT_FOUND
              | [i] => fret (Some i)
              | _ => fail HK_SWIFT_ERR_AMBIGUOUS
              end
        end
  end.

(** ** One slot in two phases *)

(** The refusal of a method's flags. *)
Definition method_refused (flags : Z) : bool :=
  negb (Z.land flags HK_SWIFT_METHOD_IS_ASYNC =? 0) ||
  negb (Z.land flags HK_SWIFT_METHOD_KIND_MASK =? 0) ||
  (Z.land flags HK_SWIFT_METHOD_IS_INSTANCE =? 0).

Definition hk_swift_prepare_slot (cls index : Z) : F state (option hk_swift_slot_plan) :=
  _ <-- set_errno 0 ;;
  if cls =? 0 then fail HK_SWIFT_ERR_ARG
  else
    resolved <-- hk_swift_resolve cls ;;
    match resolved with
    | None => fret None
    | Some (vtable, methods, size) =>
        if size <=? index then fail HK_SWIFT_ERR_INVALID_INDEX
        else
          flags <-- load32 (methods + index * HK_SWIFT_METHOD_DESC_SIZE) ;;
          if method_refused flags then fail HK_SWIFT_ERR_UNSUPPORTED_LAYOUT
          else
            let slot := vtable + index * 8 in
            let disc := hk_pac_blend slot (Z.shiftr flags HK_SWIFT_METHOD_EXTRA_SHIFT) in
            old <-- load64 slot ;;
            if negb (hk_sign_code (hk_pac_strip_code old) disc =? old)
            then fail HK_SWIFT_ERR_PAC_MISMATCH
            else fret (Some (SlotPlan slot old disc true))
    end.

(** Whether it went well, the plan as it is left, and the original as far as it
    has been published. *)
Definition hk_swift_commit_slot (plan : hk_swift_slot_plan) (replacement : Z)
    : F state (bool * hk_swift_slot_plan * option Z) :=
  let failed code plan original := _ <-- set_errno code ;; fret (false, plan, original) in
  _ <-- set_errno 0 ;;
  if negb (sp_prepared plan) || (sp_slot plan =? 0) || (replacement =? 0)
  then failed HK_SWIFT_ERR_ARG plan None
  else
    ok <-- readable_range (sp_slot plan) 8 ;;
    if negb ok then failed HK_SWIFT_ERR_UNREADABLE plan None
    else
      old <-- load64 (sp_slot plan) ;;
      if negb (old =? sp_original plan) then failed HK_SWIFT_ERR_STALE plan None
      else
        let original := Some (hk_sign_code (hk_pac_strip_code (sp_original plan)) 0) in
        let new_value := hk_sign_code (hk_pac_strip_code replacement) (sp_discriminator plan) in
        mutation <-- on_native (hk_native_patch_pointer vm page_size (sp_slot plan) new_value) ;;
        let plan := if bool_decide (mutation = HK_MUTATION_NONE) then plan
                    else plan <| sp_prepared := false |> in
        if negb (bool_decide (mutation = HK_MUTATION_COMPLETE))
        then failed HK_SWIFT_ERR_WRITE plan original
        else fret (true, plan, original).

Definition hk_swift_hook_slot (cls index replacement : Z) : F state (bool * option Z) :=
  plan <-- hk_swift_prepare_slot cls index ;;
  match plan with
  | None => fret (false, None)
  | Some plan =>
      r <-- hk_swift_commit_slot plan replacement ;;
      fret (r.1.1, r.2)
  end.
End Swift.

(** ** The request surface (HKSwiftEngine.c) *)

Inductive hk_swift_name_kind : Type :=
  | HK_SWIFT_NAME_MANGLED_EXACT | HK_SWIFT_NAME_DEMANGLED_SUBSTRING | HK_SWIFT_NAME_SLOT_INDEX.

Record hk_swift_target : Type := SwiftTarget {
  st_struct_size : Z;
  st_metadata : Z;
  st_class_name : option string;
  st_name_kind : hk_swift_name_kind;
  st_method_name : option string;
  st_slot_index : Z;
  st_require_unique : bool;
  st_availability : hk_availability }.

Definition SIZEOF_SWIFT_TARGET : Z := 56.

Definition hk_swift_target_init : hk_swift_target :=
  SwiftTarget SIZEOF_SWIFT_TARGET 0 None HK_SWIFT_NAME_MANGLED_EXACT None 0 true HK_AVAILABILITY_REQUIRED_NOW.

(** The class and the slot. *)
Record hk_swift_plan : Type := SwiftPlan { sq_cls : Z; sq_slot : hk_swift_slot_plan }.

#[export] Instance hk_swift_plan_eta : Eta hk_swift_plan := λ p, SwiftPlan (sq_cls p) (sq_slot p).

Section Requests.
Context {K : Type} (vm : vm_calls K) (page_size : Z) `{PacOps}.
Context (mapped : Z → bool) (symbol_at : Z → option string).
Context (hk_swift_demangle : option (string → option string)).
(** [hk_swift_supported()], and objc_getClass, 0 for NULL. *)
Context (hk_swift_supported : bool) (objc_getClass : string → Z).
Local Abbreviation state := (swift_state K).

Definition target_class (target : hk_swift_target) : Z :=
  if negb (st_metadata target =? 0) then st_metadata target
  else match st_class_name target with Some name => objc_getClass name | None => 0 end.

Definition target_index (cls : Z) (target : hk_swift_target) : F state (option Z) :=
  match st_name_kind target with
  | HK_SWIFT_NAME_SLOT_INDEX => fret (Some (st_slot_index target))
  | _ =>
      match st_method_name target with
      | None | Some EmptyString => fret None
      | Some name =>
          hk_swift_find_slot vm page_size mapped symbol_at hk_swift_demangle cls (Some name)
      end
  end.

(** The status and the plan; [None] is a NULL target. *)
Definition hk_swift_prepare (target : option hk_swift_target) : F state (hk_status * option hk_swift_plan) :=
  match target with
  | None => fret (HK_STATUS_INVALID_ARGUMENT, None)
  | Some target =>
      if st_struct_size target <? SIZEOF_SWIFT_TARGET then fret (HK_STATUS_INVALID_ARGUMENT, None)
      else if negb hk_swift_supported then fret (HK_STATUS_UNAVAILABLE, None)
      else
        let cls := target_class target in
        if cls =? 0 then fret (HK_STATUS_UNAVAILABLE, None)
        else
          index <-- target_index cls target ;;
          match index with
          | None => fret (HK_STATUS_UNAVAILABLE, None)
          | Some index =>
              plan <-- lift (zoom ss_heap (λ h s, s <| ss_heap := h |>) alloc) ;;
              if negb plan then fret (HK_STATUS_OUT_OF_MEMORY, None)
              else
                slot <-- hk_swift_prepare_slot vm page_size mapped cls index ;;
                fret (match slot with
                      | Some slot => (HK_STATUS_OK, Some (SwiftPlan cls slot))
                      | None => (HK_STATUS_INTERNAL_ERROR, None)
                      end)
          end
  end.

(** The status, the plan as it is left, and what [out_original] holds. *)
Definition hk_swift_commit (plan : option hk_swift_plan) (replacement : Z)
    : F state (hk_status * option hk_swift_plan * option Z) :=
  match plan with
  | None => fret (HK_STATUS_INVALID_ARGUMENT, None, None)
  | Some plan =>
      if replacement =? 0 then fret (HK_STATUS_INVALID_ARGUMENT, Some plan, None)
      else
        r <-- hk_swift_commit_slot vm page_size mapped (sq_slot plan) replacement ;;
        fret (if r.1.1 then HK_STATUS_OK else HK_STATUS_INTERNAL_ERROR,
              Some (plan <| sq_slot := r.1.2 |>), r.2)
  end.

Definition hk_swift_hook (target : option hk_swift_target) (replacement : Z)
    : F state (hk_status * option Z) :=
  if bool_decide (target = None) || (replacement =? 0) then fret (HK_STATUS_INVALID_ARGUMENT, None)
  else
    prepared <-- hk_swift_prepare target ;;
    match prepared.1 with
    | HK_STATUS_OK =>
        r <-- hk_swift_commit prepared.2 replacement ;; fret (r.1.1, r.2)
    | status => fret (status, None)
    end.

Definition hk_swift_last_error_code : F state Z := fetch (λ s, Some (ss_errno s)).
End Requests.
