(* ===== verification/BindWalk.v ===== *)
(** * The chain walk as a list of binds

    Reading more memory changes no answer, and walking the chains of a fixups
    payload with a visitor is visiting the list of its binds in order, up to
    the first one the visitor stops at. *)

From stdpp Require Import base list numbers option.
From S2P Require Import Prelude Memory ExportTrie SymbolTable SymbolResolve MachO ImportSlots ChainedFixups.

(** ** More memory *)

Definition mem_le (m m' : memory) : Prop := ∀ a v, m a = Some v → m' a = Some v.

#[export] Instance mem_le_preorder : PreOrder mem_le.
Proof. split; [by intros m a v|by intros m1 m2 m3 H1 H2 a v Hv; apply H2, H1]. Qed.

(** [o] has a result only if [o'] has the same. *)
Definition result_le {A} (o o' : option A) : Prop := ∀ v, o = Some v → o' = Some v.

Lemma result_le_refl {A} (o : option A) : result_le o o.
Proof. by intros v. Qed.

Lemma result_le_bind {A B} (o o' : option A) (k k' : A → option B) :
  result_le o o' → (∀ a, result_le (k a) (k' a)) → result_le (o ≫= k) (o' ≫= k').
Proof.
  intros Ho Hk v. destruct o as [a|]; [|done]. rewrite (Ho a) by done. cbn. apply Hk.
Qed.

Lemma result_le_check {E A B} (m m' : checked E A) (k k' : A → checked E B) :
  result_le m m' → (∀ a, result_le (k a) (k' a)) →
  result_le (check_bind m k) (check_bind m' k').
Proof.
  intros Hm Hk v. destruct m as [[e|a]|]; [| |done]; rewrite (Hm _ eq_refl); cbn; [done|apply Hk].
Qed.

Create HintDb more_memory.
#[export] Hint Resolve result_le_refl : more_memory.

(** Follows the structure of a computation, reads and called functions apart. *)
Ltac more_memory :=
  repeat first
    [ solve [auto 2 with more_memory]
    | progress cbv beta iota zeta
    | apply result_le_bind; [|intros ?]
    | apply result_le_check; [|intros ?]
    | match goal with |- result_le (match ?x with _ => _ end) _ => destruct x end
    | match goal with |- result_le (if ?x then _ else _) _ => destruct x end ].

Lemma lookup_mono (m m' : memory) a : mem_le m m' → result_le (m a) (m' a).
Proof. intros H v. apply H. Qed.
#[export] Hint Extern 3 (result_le (?m ?a) (?m' ?a)) => (apply lookup_mono; assumption) : more_memory.

Section Mono.
Context (m m' : memory) (Hm : mem_le m m').

Lemma read_le_mono n a : result_le (read_le m n a) (read_le m' n a).
Proof.
  revert a. induction n as [|n IH]; intros a; cbn [read_le]; more_memory.
Qed.

Lemma read_u8_mono a : result_le (read_u8 m a) (read_u8 m' a).
Proof. by apply lookup_mono. Qed.

Lemma read_bytes_mono n a : result_le (read_bytes m n a) (read_bytes m' n a).
Proof.
  revert a. induction n as [|n IH]; intros a; cbn [read_bytes]; more_memory.
Qed.
End Mono.
#[export] Hint Extern 2 (result_le (read_u8 _ _) _) => (apply read_u8_mono; assumption) : more_memory.
#[export] Hint Extern 2 (result_le (read_u16 _ _) _) => (apply read_le_mono; assumption) : more_memory.
#[export] Hint Extern 2 (result_le (read_u32 _ _) _) => (apply read_le_mono; assumption) : more_memory.
#[export] Hint Extern 2 (result_le (read_u64 _ _) _) => (apply read_le_mono; assumption) : more_memory.
#[export] Hint Extern 2 (result_le (read_bytes _ _ _) _) => (apply read_bytes_mono; assumption) : more_memory.

Section Code.
Context (m m' : memory) (Hm : mem_le m m').

Lemma terminated_mono fuel s n i : result_le (terminated m fuel s n i) (terminated m' fuel s n i).
Proof. revert i. induction fuel as [|fuel IH]; intros i; cbn [terminated]; more_memory. Qed.

Lemma strcmp_mono s name : result_le (strcmp_equal m s name) (strcmp_equal m' s name).
Proof. revert s. induction name as [|c name IH]; intros s; cbn [strcmp_equal]; more_memory. Qed.
Local Hint Resolve strcmp_mono : more_memory.

Lemma matches_any_mono a l : result_le (matches_any m a l) (matches_any m' a l).
Proof. induction l as [|c l IH]; cbn [matches_any]; more_memory. Qed.

Lemma pool_string_mono pool n off :
  result_le (pool_string m pool n off) (pool_string m' pool n off).
Proof. unfold pool_string. pose proof terminated_mono. more_memory. Qed.

Lemma import_at_mono f i :
  result_le (hk_chained_import_at m f i) (hk_chained_import_at m' f i).
Proof.
  unfold hk_chained_import_at, import_fields. pose proof pool_string_mono. more_memory.
Qed.
End Code.

(** ** The list of binds *)

(** Visiting [bs] in order: whether to go on, and the context. *)
Fixpoint visit_all {C} (visit : C → hk_chained_bind → visited C) (bs : list hk_chained_bind)
    (ctx : C) : visited C :=
  match bs with
  | [] => Some (true, ctx)
  | b :: bs =>
      '(go_on, ctx) ← visit ctx b;
      if go_on : bool then visit_all visit bs ctx else Some (false, ctx)
  end.

(** The visitor that only writes the binds down. *)
Definition collect_bind (l : list hk_chained_bind) (b : hk_chained_bind)
    : visited (list hk_chained_bind) := Some (true, l ++ [b]).

(** What a walk that meets [bs] and would end with [status] does with another
    visitor. *)
Definition visited_walk {C} (visit : C → hk_chained_bind → visited C) (bs : list hk_chained_bind)
    (status : hk_chained_status) (ctx : C) : option (hk_chained_status * bool * C) :=
  '(go_on, ctx) ← visit_all visit bs ctx;
  Some (if go_on : bool then (status, false, ctx) else (HK_CHAINED_OK, true, ctx)).

Lemma visit_all_app {C} (visit : C → hk_chained_bind → visited C) bs bs' ctx :
  visit_all visit (bs ++ bs') ctx =
  ('(go_on, ctx) ← visit_all visit bs ctx;
   if go_on : bool then visit_all visit bs' ctx else Some (false, ctx)).
Proof.
  revert ctx. induction bs as [|b bs IH]; intros ctx; [done|]. cbn [visit_all app].
  destruct (visit ctx b) as [[[] c]|]; cbn; [apply IH|done..].
Qed.

Section Walk.
Context {C : Type} (visit : C → hk_chained_bind → visited C).
Context (m m' : memory) (Hm : mem_le m m').

(** A walk [W], at every context, follows the list that the recording walk
    meets. *)
Definition follows (R : list hk_chained_bind → option (walked (C := list hk_chained_bind)))
    (W : C → option (walked (C := C))) : Prop :=
  ∀ l status stopped l', R l = Some (status, stopped, l') →
    stopped = false ∧ ∃ bs, l' = l ++ bs ∧ ∀ ctx, W ctx = visited_walk visit bs status ctx.

Lemma follows_end status :
  follows (λ l, Some (status, false, l)) (λ ctx, Some (status, false, ctx)).
Proof. intros l s b l' [= <- <- <-]. split; [done|]. exists []. by rewrite app_nil_r. Qed.

(** One walk after another, the second only where the first went well. *)
Lemma follows_then R W R' W' :
  follows R W → follows R' W' →
  follows
    (λ l, '(status, stopped, l) ← R l;
          if negb (bool_decide (status = HK_CHAINED_OK)) || stopped
          then Some (status, stopped, l) else R' l)
    (λ ctx, '(status, stopped, ctx) ← W ctx;
            if negb (bool_decide (status = HK_CHAINED_OK)) || stopped
            then Some (status, stopped, ctx) else W' ctx).
Proof.
  intros HR HR' l status stopped l' H. destruct (R l) as [[[s b] l1]|] eqn:E; [|done].
  destruct (HR l s b l1 E) as (-> & bs & -> & HW). cbn in H. rewrite orb_false_r in H.
  case_bool_decide as Hs; cbn in H.
  - subst s. destruct (HR' _ _ _ _ H) as (-> & bs' & -> & HW'). split; [done|].
    exists (bs ++ bs'). rewrite app_assoc. split; [done|]. intros ctx. rewrite HW. unfold visited_walk.
    rewrite visit_all_app. destruct (visit_all visit bs ctx) as [[[] c]|]; cbn; [|done..].
    by rewrite HW'.
  - injection H as <- <- <-. split; [done|]. exists bs. split; [done|]. intros ctx. rewrite HW.
    unfold visited_walk. destruct (visit_all visit bs ctx) as [[[] c]|]; cbn; [|done..].
    by rewrite bool_decide_eq_false_2.
Qed.

(** The same read before both. *)
Lemma follows_read {A} (o o' : option A) R W :
  result_le o o' → (∀ a, o = Some a → follows (R a) (W a)) →
  follows (λ l, a ← o; R a l) (λ ctx, a ← o'; W a ctx).
Proof.
  intros Ho HR l status stopped l' H. destruct o as [a|] eqn:E; [|done]. cbn in H.
  destruct (HR a eq_refl _ _ _ _ H) as (-> & bs & -> & HW). split; [done|]. exists bs. split; [done|].
  intros ctx. rewrite (Ho a eq_refl). apply HW.
Qed.

Lemma follows_bind b R W :
  follows R W → follows (λ l, R (l ++ [b])) (λ ctx, '(go_on, ctx) ← visit ctx b;
    if negb go_on then Some (HK_CHAINED_OK, true, ctx) else W ctx).
Proof.
  intros HR l status stopped l' H. destruct (HR _ _ _ _ H) as (-> & bs & -> & HW).
  split; [done|]. exists (b :: bs). rewrite <- app_assoc. split; [done|]. intros ctx.
  unfold visited_walk. cbn [visit_all]. destruct (visit ctx b) as [[[] c]|]; cbn; [|done..]. apply HW.
Qed.

Lemma walk_chain_follows fuel c offset :
  follows (walk_chain m collect_bind fuel c offset) (walk_chain m' visit fuel c offset).
Proof.
  revert offset. induction fuel as [|fuel IH]; intros offset; [by intros l ? ? ? [=]|].
  cbn [walk_chain]. destruct (_ || _); [apply follows_end|]. cbv zeta.
  destruct (_ || _); [apply follows_end|].
  apply follows_read; [more_memory|]. intros raw _. set (ptr := decode_pointer raw _).
  assert (Hnext : follows
    (λ l, if cp_next ptr =? 0 then Some (HK_CHAINED_OK, false, l)
          else if u64 (offset + cp_next ptr * ch_stride c) <=? offset
          then Some (HK_CHAINED_MALFORMED, false, l)
          else walk_chain m collect_bind fuel c (u64 (offset + cp_next ptr * ch_stride c)) l)
    (λ ctx, if cp_next ptr =? 0 then Some (HK_CHAINED_OK, false, ctx)
          else if u64 (offset + cp_next ptr * ch_stride c) <=? offset
          then Some (HK_CHAINED_MALFORMED, false, ctx)
          else walk_chain m' visit fuel c (u64 (offset + cp_next ptr * ch_stride c)) ctx)).
  { destruct (_ =? 0); [apply follows_end|]. destruct (_ <=? _); [apply follows_end|apply IH]. }
  destruct (cp_is_bind ptr).
  - by apply (follows_bind (bind_of c offset ptr)) in Hnext.
  - exact Hnext.
Qed.

Lemma walk_multi_follows fuel c page_start extent page_base index :
  follows (walk_multi m collect_bind fuel c page_start extent page_base index)
          (walk_multi m' visit fuel c page_start extent page_base index).
Proof.
  revert index. induction fuel as [|fuel IH]; intros index; [by intros l ? ? ? [=]|].
  cbn [walk_multi]. cbv zeta. destruct (_ <? _); [apply follows_end|].
  apply follows_read; [more_memory|]. intros entry _.
  apply follows_then; [apply walk_chain_follows|].
  destruct (negb _); [apply follows_end|apply IH].
Qed.

Lemma walk_pages_follows count c page_start extent segment_off page_size page :
  follows (walk_pages m collect_bind count c page_start extent segment_off page_size page)
          (walk_pages m' visit count c page_start extent segment_off page_size page).
Proof.
  revert page. induction count as [|count IH]; intros page; [apply follows_end|].
  cbn [walk_pages]. apply follows_read; [more_memory|]. intros start _.
  destruct (start =? _); [apply IH|]. cbv zeta.
  apply follows_then; [|apply IH].
  destruct (negb _); [apply walk_multi_follows|apply walk_chain_follows].
Qed.

Lemma walk_segment_follows f storage size mapping off index :
  follows (walk_segment m collect_bind f storage size mapping off index)
          (walk_segment m' visit f storage size mapping off index).
Proof.
  unfold walk_segment. cbv zeta. destruct (_ || _); [apply follows_end|].
  do 5 (apply follows_read; [more_memory|intros ? _]).
  repeat match goal with
  | |- follows (λ l, if ?b then _ else _) _ => destruct b; [apply follows_end|]
  end.
  apply walk_pages_follows.
Qed.

(** The status and the context alone, as the loop over the segments has them. *)
Definition whole_walk (bs : list hk_chained_bind) (status : hk_chained_status) (ctx : C)
    : option (hk_chained_status * C) :=
  '(go_on, ctx) ← visit_all visit bs ctx;
  Some (if go_on : bool then status else HK_CHAINED_OK, ctx).

Lemma segments_loop_follows count f storage size segments i l status l' :
  segments_loop m collect_bind count f storage size segments i l = Some (status, l') →
  ∃ bs, l' = l ++ bs ∧
    ∀ ctx, segments_loop m' visit count f storage size segments i ctx = whole_walk bs status ctx.
Proof.
  assert (Hend : ∀ s l, ∃ bs, l = l ++ bs ∧ ∀ ctx, Some (s, ctx) = whole_walk bs s ctx).
  { intros s k. exists []. by rewrite app_nil_r. }
  revert i l. induction count as [|count IH]; intros i l H; cbn [segments_loop] in *.
  { injection H as <- <-. apply Hend. }
  cbv zeta in *. destruct (read_u32 m _) as [info|] eqn:Ei; [|done].
  rewrite (read_le_mono m m' Hm 4 _ _ Ei : read_u32 m' _ = _). cbn in *.
  destruct (info =? 0); [by apply IH|].
  destruct (match segments with Some _ => _ | None => _ end); [injection H as <- <-; apply Hend|].
  destruct (_ <? info); [injection H as <- <-; apply Hend|].
  destruct (walk_segment m collect_bind _ _ _ _ _ _ _) as [[[s stopped] l1]|] eqn:Ew; [|done].
  apply walk_segment_follows in Ew as (-> & bs & -> & HW). cbn in H.
  case_bool_decide as Hs; cbn in H.
  - subst s. apply IH in H as (bs' & -> & HW'). exists (bs ++ bs'). rewrite app_assoc. split; [done|].
    intros ctx. rewrite HW. unfold whole_walk, visited_walk. rewrite visit_all_app.
    destruct (visit_all visit bs ctx) as [[[] c]|]; cbn; [|done..]. apply HW'.
  - injection H as <- <-. exists bs. split; [done|]. intros ctx. rewrite HW.
    unfold whole_walk, visited_walk. destruct (visit_all visit bs ctx) as [[[] c]|]; cbn; [|done..].
    by rewrite bool_decide_eq_false_2.
Qed.

Lemma iterate_binds_follows f storage size segments status bs :
  iterate_binds m collect_bind f storage size segments [] = Some (status, bs) →
  ∀ ctx, iterate_binds m' visit f storage size segments ctx = whole_walk bs status ctx.
Proof.
  unfold iterate_binds. destruct (_ || _); [by intros [= <- <-]|]. cbv zeta.
  destruct (_ || _); [by intros [= <- <-]|].
  destruct (read_u32 m _) as [count|] eqn:E; [|done]. rewrite (read_le_mono m m' Hm 4 _ _ E : read_u32 m' _ = _). cbn.
  destruct (_ <? _); [by intros [= <- <-]|].
  intros H. by apply segments_loop_follows in H as (bs' & -> & HW).
Qed.
End Walk.
