(* ===== verification/RebindEngine.v ===== *)
(** * The rebind engine: sites and commit (src/engines/HKRebindEngine.c)

    Import slots of one symbol in one image: what preparation records of each,
    the three callbacks that find them, and the writes of commit. *)

From stdpp Require Import base list strings numbers option.
From S2P Require Import Prelude Types Ownership Artifacts Arm64 Engine Device Memory SymbolTable SymbolResolve MachO ImportSlots ChainedFixups RelocEngine PointerAuth.

Definition HK_REBIND_MAX_SITES : Z := 32.

Inductive hk_rebind_status : Type :=
  | HK_REBIND_OK | HK_REBIND_NOT_FOUND | HK_REBIND_INVALID_ARGUMENT | HK_REBIND_MALFORMED_IMAGE
  | HK_REBIND_TOO_MANY_SITES | HK_REBIND_METADATA_UNAVAILABLE | HK_REBIND_PAC_MISMATCH
  | HK_REBIND_UNSUPPORTED_FORMAT | HK_REBIND_SCOPE_UNREPRESENTABLE.

#[export] Instance hk_rebind_status_eq_dec : EqDecision hk_rebind_status.
Proof. solve_decision. Defined.

Definition hk_rebind_status_code (s : hk_rebind_status) : Z :=
  match s with
  | HK_REBIND_OK => 0 | HK_REBIND_NOT_FOUND => 1 | HK_REBIND_INVALID_ARGUMENT => 2
  | HK_REBIND_MALFORMED_IMAGE => 3 | HK_REBIND_TOO_MANY_SITES => 4
  | HK_REBIND_METADATA_UNAVAILABLE => 5 | HK_REBIND_PAC_MISMATCH => 6
  | HK_REBIND_UNSUPPORTED_FORMAT => 7 | HK_REBIND_SCOPE_UNREPRESENTABLE => 8
  end.

Record hk_rebind_site : Type := RebindSite {
  rs_address : Z;
  rs_original : Z;
  rs_callable_original : Z;
  rs_addend : Z;
  rs_schema : hk_pac_schema;
  rs_weak_import : bool;
  rs_from_chained : bool;
  rs_from_cache : bool }.

(** [count] is the length of [rp_sites]. *)
Record hk_rebind_plan : Type := RebindPlan {
  rp_sites : list hk_rebind_site;
  rp_originals_agree : bool;
  rp_original : Z }.

#[export] Instance hk_rebind_plan_eta : Eta hk_rebind_plan := λ p,
  RebindPlan (rp_sites p) (rp_originals_agree p) (rp_original p).

Definition empty_rebind_plan : hk_rebind_plan := RebindPlan [] false 0.

(** ** Phase 1: recording a site *)

Inductive add_site_status : Type :=
  | ADD_SITE_OK | ADD_SITE_OVERFLOW | ADD_SITE_MALFORMED | ADD_SITE_PAC_MISMATCH.

#[export] Instance add_site_status_eq_dec : EqDecision add_site_status.
Proof. solve_decision. Defined.

(** [value] plus or minus an addend, [None] where that leaves the address space. *)
Definition checked_adjust (value addend : Z) (add : bool) : option Z :=
  let magnitude := if addend <? 0 then u64 (- (addend + 1)) + 1 else u64 addend in
  let increase := Bool.eqb (0 <=? addend) add in
  if increase then if 2 ^ 64 - 1 - value <? magnitude then None else Some (value + magnitude)
  else if value <? magnitude then None else Some (value - magnitude).

Definition INT64_MAX : Z := 2 ^ 63 - 1.
Definition INT64_MIN : Z := - 2 ^ 63.

(** The section name a linker gives an authenticated GOT. *)
Definition AUTH_GOT : list Z := string_bytes "__auth_got".

Definition no_schema : hk_pac_schema := PacSchema false 0 0 false.
Definition auth_got_schema : hk_pac_schema := PacSchema true HK_PAC_KEY_IA 0 true.

Section Sites.
Context `{PacOps} (mem : memory).

Definition hk_rebind_read_slot (address : Z) : option Z := read_u64 mem address.

Definition same_use (s : hk_rebind_site) (schema : hk_pac_schema) (addend : Z) : bool :=
  bool_decide (rs_schema s = schema) && (rs_addend s =? addend).

Definition site_at (address : Z) (sites : list hk_rebind_site) : option hk_rebind_site :=
  List.find (λ s, rs_address s =? address) sites.

Definition add_site (plan : hk_rebind_plan) (address : Z) (schema : hk_pac_schema) (addend : Z)
    (weak_import from_chained from_cache : bool) : option (add_site_status * hk_rebind_plan) :=
  match site_at address (rp_sites plan) with
  | Some existing =>
      Some (if same_use existing schema addend then ADD_SITE_OK else ADD_SITE_MALFORMED, plan)
  | None =>
      if HK_REBIND_MAX_SITES <=? Z.of_nat (length (rp_sites plan))
      then Some (ADD_SITE_OVERFLOW, plan)
      else
        old ← hk_rebind_read_slot address;
        if (old =? 0) && (negb weak_import || negb (addend =? 0))
        then Some (ADD_SITE_MALFORMED, plan)
        else if negb (old =? 0) && negb (hk_pac_slot_matches old schema address)
        then Some (ADD_SITE_PAC_MISMATCH, plan)
        else
          match checked_adjust (if old =? 0 then 0 else hk_pac_strip_slot old schema) addend false with
          | None => Some (ADD_SITE_MALFORMED, plan)
          | Some base =>
              Some (ADD_SITE_OK,
                plan <| rp_sites := rp_sites plan ++
                  [RebindSite address old (pac_make_callable base) addend schema weak_import
                     from_chained from_cache] |>)
          end
  end.

(** *** LC_DYSYMTAB

    The slot's address is unslid; the context is the plan and the error. *)
Definition dysymtab_slot_cb (candidates : list (list Z)) (slide : Z)
    (c : hk_rebind_plan * add_site_status) (slot : hk_import_slot)
    : visited (hk_rebind_plan * add_site_status) :=
  same ← matches_any mem (im_symbol_name slot) candidates;
  if negb same then Some (true, c)
  else
    let schema := if bool_decide (im_sectname slot = AUTH_GOT) then auth_got_schema else no_schema in
    '(status, plan) ← add_site c.1 (u64 (im_slot_vmaddr slot + slide)) schema 0 false false false;
    if bool_decide (status = ADD_SITE_OK) then Some (true, (plan, c.2))
    else Some (false, (plan, status)).

(** *** Chained fixups *)

Record chained_ctx : Type := ChainedCtx {
  cc_plan : hk_rebind_plan;
  cc_overflow : bool;
  cc_malformed : bool;
  cc_pac_mismatch : bool }.

#[export] Instance chained_ctx_eta : Eta chained_ctx := λ c,
  ChainedCtx (cc_plan c) (cc_overflow c) (cc_malformed c) (cc_pac_mismatch c).

Definition flag_error (c : chained_ctx) (status : add_site_status) : chained_ctx :=
  match status with
  | ADD_SITE_OK => c
  | ADD_SITE_OVERFLOW => c <| cc_overflow := true |>
  | ADD_SITE_MALFORMED => c <| cc_malformed := true |>
  | ADD_SITE_PAC_MISMATCH => c <| cc_pac_mismatch := true |>
  end.

Definition schema_of_bind (bind : hk_chained_bind) : hk_pac_schema :=
  PacSchema (cb_is_auth bind) (cb_key bind) (cb_diversity bind) (cb_address_diversity bind).

Definition addends_overflow (bind_addend import_addend : Z) : bool :=
  ((0 <? bind_addend) && (INT64_MAX - bind_addend <? import_addend)) ||
  ((bind_addend <? 0) && (import_addend <? INT64_MIN - bind_addend)).

(** The slot is an offset from the image's base. *)
Definition chained_bind_cb (fixups : hk_chained_fixups) (candidates : list (list Z))
    (image_base image_size : Z) (c : chained_ctx) (bind : hk_chained_bind) : visited chained_ctx :=
  import ← hk_chained_import_at mem fixups (cb_import_ordinal bind);
  match import with
  | inl _ => Some (false, c <| cc_malformed := true |>)
  | inr import =>
      same ← matches_any mem (ci_symbol_name import) candidates;
      if negb same then Some (true, c)
      else if (image_size <? cb_slot_image_offset bind) ||
              (image_size - cb_slot_image_offset bind <? 8)
      then Some (false, c <| cc_malformed := true |>)
      else if addends_overflow (cb_addend bind) (ci_addend import)
      then Some (false, c <| cc_malformed := true |>)
      else
        '(status, plan) ← add_site (cc_plan c) (u64 (image_base + cb_slot_image_offset bind))
                            (schema_of_bind bind) (ci_addend import + cb_addend bind)
                            (ci_weak_import import) true false;
        let c := flag_error (c <| cc_plan := plan |>) status in
        Some (bool_decide (status = ADD_SITE_OK), c)
  end.
End Sites.

(** *** Shared-cache uses *)

Record hk_cache_patch_site : Type := CachePatchSite {
  cs_address : Z;
  cs_schema : hk_pac_schema;
  cs_addend : Z;
  cs_weak_import : bool }.

Section CacheSites.
Context `{PacOps} (mem : memory).

Definition cache_patch_cb (c : chained_ctx) (site : hk_cache_patch_site) : visited chained_ctx :=
  '(status, plan) ← add_site mem (cc_plan c) (cs_address site) (cs_schema site) (cs_addend site)
                      (cs_weak_import site) false true;
  Some (bool_decide (status = ADD_SITE_OK), flag_error (c <| cc_plan := plan |>) status).
End CacheSites.

(** *** The verdict *)

Definition finalize_plan (plan : hk_rebind_plan) : hk_rebind_status * hk_rebind_plan :=
  match rp_sites plan with
  | [] => (HK_REBIND_NOT_FOUND, plan)
  | s :: rest =>
      let original := rs_callable_original s in
      (HK_REBIND_OK,
       plan <| rp_original := original |>
            <| rp_originals_agree := forallb (λ s, rs_callable_original s =? original) rest |>)
  end.

(** ** Phase 2: commit *)

(** [hk_rebind_write_fn] *)
Definition pointer_writer (X : Type) : Type := Z → Z → M (device X) hk_mutation_state.

(** The eight bytes of a pointer, least significant first. *)
Definition pointer_bytes (value : Z) : list Z := bytes_of_words (Enc.quad value).

(** A device all of whose memory may be read. *)
Definition whole (mem : Z → Z) : memory := λ a, Some (mem a).

(** [hk_rebind_read_slot] there. *)
Definition slot_value (mem : Z → Z) (address : Z) : Z :=
  default 0 (hk_rebind_read_slot (whole mem) address).

Section Commit.
Context `{PacOps} {X : Type}.

Definition hk_rebind_replacement_for_site (site : hk_rebind_site) (replacement : Z) : option Z :=
  adjusted ← checked_adjust (hk_pac_strip_code replacement) (rs_addend site) true;
  Some (hk_pac_sign_slot adjusted (rs_schema site) (rs_address site)).

(** [record_artifact] *)
Definition slot_artifact (site : hk_rebind_site) (replacement : Z) (m : hk_mutation_state)
    : hk_artifact :=
  engine_artifact "fishhook" HK_ARTIFACT_IMPORT_SLOT (applied_state m)
    HK_EFFECT_IMPORT_MUTATION no_bytes
    (facts_at (rs_address site) 0
       <| af_import_slot_address := rs_address site |>
       <| af_original_pointer := rs_original site |>
       <| af_replacement_pointer := replacement |>
       <| af_mechanically_reversible := true |>
       <| af_safe_to_reverse_after_activation := bool_decide (m = HK_MUTATION_COMPLETE) |>).

(** The replacements of all sites, [None] if one leaves the address space. *)
Fixpoint site_replacements (sites : list hk_rebind_site) (replacement : Z)
    : option (list (hk_rebind_site * Z)) :=
  match sites with
  | [] => Some []
  | s :: sites =>
      v ← hk_rebind_replacement_for_site s replacement;
      rest ← site_replacements sites replacement;
      Some ((s, v) :: rest)
  end.

(** What a failed or refused site makes of the whole commit. *)
Definition stopped_state (m : hk_mutation_state) (written : Z) : hk_mutation_state :=
  match m with
  | HK_MUTATION_NONE => if written =? 0 then HK_MUTATION_NONE else HK_MUTATION_PARTIAL
  | HK_MUTATION_PARTIAL => HK_MUTATION_PARTIAL
  | _ => HK_MUTATION_UNKNOWN
  end.

(** The loop over the sites: the state, the records and [out_written]. *)
Fixpoint commit_sites (write : pointer_writer X) (sites : list (hk_rebind_site * Z)) (written : Z)
    (records : list hk_artifact) : M (device X) (hk_mutation_state * list hk_artifact * Z) :=
  match sites with
  | [] => ret (HK_MUTATION_COMPLETE, records, written)
  | (s, v) :: sites =>
      current <- gets (λ d, slot_value (d_mem d) (rs_address s)) ;;
      if negb (current =? rs_original s)
      then ret (stopped_state HK_MUTATION_NONE written, records, written)
      else
        mutation <- write (rs_address s) v ;;
        let records := if bool_decide (mutation = HK_MUTATION_NONE) then records
                       else records ++ [slot_artifact s v mutation] in
        if negb (bool_decide (mutation = HK_MUTATION_COMPLETE))
        then ret (stopped_state mutation written, records, written)
        else commit_sites write sites (written + 1) records
  end.

(** [predecessor] is the sink's, where it requires one. *)
Definition hk_rebind_commit (write : option (pointer_writer X)) (plan : hk_rebind_plan)
    (replacement : Z) (predecessor : option Z)
    : M (device X) (hk_mutation_state * list hk_artifact * Z) :=
  match write with
  | None => ret (HK_MUTATION_NONE, [], 0)
  | Some write =>
      if Z.of_nat (length (rp_sites plan)) =? 0 then ret (HK_MUTATION_NONE, [], 0)
      else
        match site_replacements (rp_sites plan) replacement with
        | None => ret (HK_MUTATION_NONE, [], 0)
        | Some sites =>
            if match predecessor with
               | Some p => negb (forallb (λ s, rs_callable_original s =? p) (rp_sites plan))
               | None => false
               end
            then ret (HK_MUTATION_NONE, [], 0)
            else commit_sites write sites 0 []
        end
  end.
End Commit.
