(* ===== verification/RebindCommit.v ===== *)
(** * The writes of the rebind engine (commit of src/engines/HKRebindEngine.c)

    What a pointer writer promises, that the writer the runtime registers keeps
    it, and what a commit has therefore done when it returns. *)

From stdpp Require Import base list strings numbers option sorting.
From S2P Require Import Prelude Types Artifacts Arm64 Memory Engine Device NativeMemory PointerAuth RebindEngine.

(** ** A slot *)

Lemma length_pointer_bytes v : length (pointer_bytes v) = 8%nat.
Proof. done. Qed.

Lemma read_whole mem n a : read_le (whole mem) n a =
  Some (foldr (λ b rest, b + 256 * rest) 0 (bytes_at mem a n)).
Proof.
  revert a. induction n as [|n IH]; intros a; [done|].
  change (read_le (whole mem) (S n) a) with
    (whole mem a ≫= λ b, read_le (whole mem) n (a + 1) ≫= λ rest, Some (b + 256 * rest)).
  rewrite IH, bytes_at_S. done.
Qed.

Lemma slot_value_bytes mem a : slot_value mem a =
  foldr (λ b rest, b + 256 * rest) 0 (bytes_at mem a 8).
Proof. unfold slot_value, hk_rebind_read_slot, read_u64. by rewrite read_whole. Qed.

Lemma pointer_bytes_value v : is_u64 v →
  foldr (λ b rest, b + 256 * rest) 0 (pointer_bytes v) = v.
Proof.
  intros [H0 H1]. unfold pointer_bytes, Enc.quad.
  assert (Hlow : bits v 0 32 = v mod 2 ^ 32)
    by (unfold bits; rewrite Z.land_ones, Z.shiftr_div_pow2, Z.pow_0_r, Z.div_1_r by lia; done).
  assert (Hhigh : bits v 32 32 = v / 2 ^ 32).
  { unfold bits. rewrite Z.land_ones, Z.shiftr_div_pow2 by lia. apply Z.mod_small.
    split; [by apply Z.div_pos|]. apply Z.div_lt_upper_bound; lia. }
  pose proof (Z.mod_pos_bound v (2 ^ 32) ltac:(lia)) as Hm.
  assert (Hd : is_u32 (v / 2 ^ 32)).
  { split; [by apply Z.div_pos|]. apply Z.div_lt_upper_bound; lia. }
  cbn [bytes_of_words flat_map bytes_of_word app foldr].
  pose proof (word_bytes (bits v 0 32)) as E0. pose proof (word_bytes (bits v 32 32)) as E1.
  rewrite Hlow, Hhigh in *. specialize (E0 Hm). specialize (E1 Hd).
  pose proof (Z.div_mod v (2 ^ 32) ltac:(lia)). lia.
Qed.

Lemma slot_value_store mem a v : is_u64 v → slot_value (store a (pointer_bytes v) mem) a = v.
Proof.
  intros Hv. rewrite slot_value_bytes. change 8%nat with (length (pointer_bytes v)).
  rewrite bytes_at_store. by apply pointer_bytes_value.
Qed.

Lemma slot_value_ext mem mem' a : (∀ x, a <= x < a + 8 → mem x = mem' x) →
  slot_value mem a = slot_value mem' a.
Proof. intros H. rewrite !slot_value_bytes. f_equal. by apply bytes_at_ext. Qed.

(** Aligned slots are the same or apart. *)
Lemma slot_value_other mem a b v : a mod 8 = 0 → b mod 8 = 0 → a ≠ b →
  slot_value (store a (pointer_bytes v) mem) b = slot_value mem b.
Proof.
  intros Ha Hb Hne. apply slot_value_ext. intros x Hx. apply store_outside. rewrite length_pointer_bytes.
  pose proof (Z.div_mod a 8 ltac:(lia)). pose proof (Z.div_mod b 8 ltac:(lia)). lia.
Qed.

(** ** The contract of a pointer writer *)

Record pointer_contract {X} (write : pointer_writer X) : Prop := {
  pc_none : ∀ a v d, is_u64 a → is_u64 v →
    (write a v d).1 = HK_MUTATION_NONE → d_mem (write a v d).2 = d_mem d;
  pc_complete : ∀ a v d, is_u64 a → is_u64 v →
    (write a v d).1 = HK_MUTATION_COMPLETE → d_mem (write a v d).2 = store a (pointer_bytes v) (d_mem d);
  pc_partial : ∀ a v d x, is_u64 a → is_u64 v →
    (write a v d).1 = HK_MUTATION_PARTIAL → ¬ a <= x < a + 8 → d_mem (write a v d).2 x = d_mem d x;
  pc_aligned : ∀ a v d, is_u64 a → is_u64 v → (write a v d).1 ≠ HK_MUTATION_NONE → a mod 8 = 0 }.

(** [hk_platform_write_pointer] of src/core/HKRuntime.c *)
Section Platform.
Context {K : Type} (vm : vm_calls K) (page_size : Z).

Definition hk_platform_write_pointer : pointer_writer (K * option memo_region) := λ address value d,
  let '(mutation, (d', memo)) :=
    hk_native_patch_pointer vm page_size address value (Device (d_mem d) (d_ctx d).1, (d_ctx d).2) in
  (mutation, Device (d_mem d') (d_ctx d', memo)).

Lemma pointer_locked_spec (laws : vm_laws vm) slot value start len restore d :
  let '(m, d') := patch_pointer_locked vm slot value start len restore d in
  match m with
  | HK_MUTATION_NONE => d_mem d' = d_mem d
  | HK_MUTATION_COMPLETE => d_mem d' = store slot (pointer_bytes value) (d_mem d)
  | HK_MUTATION_PARTIAL => False
  | HK_MUTATION_UNKNOWN => True
  end.
Proof.
  unfold patch_pointer_locked, bind at 1. set (prot := Z.lor _ _).
  pose proof (vl_protect vm laws start len prot d) as Hprot.
  destruct (vm_protect vm start len prot d) as [writable d1]. simpl in Hprot.
  destruct writable; cbn [negb]; [|done]. unfold bind at 1, memory_copy, modify, bind. simpl.
  match goal with |- context [vm_protect vm start len restore ?s] => set (d2 := s) end.
  pose proof (vl_protect vm laws start len restore d2) as Hprot2.
  destruct (vm_protect vm start len restore d2) as [restored d3]. simpl in *.
  destruct restored; simpl; [|done]. rewrite Hprot2. simpl. by rewrite Hprot.
Qed.

Lemma native_patch_pointer_spec (laws : vm_laws vm) a v n :
  let '(m, n') := hk_native_patch_pointer vm page_size a v n in
  (m ≠ HK_MUTATION_NONE → a mod 8 = 0) ∧
  match m with
  | HK_MUTATION_NONE => d_mem n'.1 = d_mem n.1
  | HK_MUTATION_COMPLETE => d_mem n'.1 = store a (pointer_bytes v) (d_mem n.1)
  | HK_MUTATION_PARTIAL => False
  | HK_MUTATION_UNKNOWN => True
  end.
Proof.
  assert (Hland : Z.land a 7 = a mod 8) by (apply (Z.land_ones a 3); lia).
  unfold hk_native_patch_pointer. destruct ((a =? 0) || negb (Z.land a 7 =? 0)) eqn:Ea; [done|].
  apply orb_false_iff in Ea as [_ Ea%negb_false_iff%Z.eqb_eq].
  destruct (hk_range_bounds page_size a 8) as [[start stop]|]; [|done].
  unfold bind, gets, on_vm, zoom, drop_memo, modify. cbn [fst snd].
  destruct (hk_range_protection vm _ start stop) as [restore|]; [|done].
  pose proof (pointer_locked_spec laws a v start (stop - start) restore n.1) as Hs.
  destruct (patch_pointer_locked _ _ _ _ _ _ _) as [m d']. cbn in *. rewrite <- Hland. by destruct m.
Qed.

(** The writer the runtime registers the rebind engine with keeps the
    contract that engine's commit is proved against: NONE means that no byte
    changed, COMPLETE that the eight bytes of the slot are the new pointer and
    no other byte changed, PARTIAL is never answered, and a slot that a single
    store could not write whole, for it is not aligned, is always refused. *)
Theorem platform_pointer_contract (laws : vm_laws vm) : pointer_contract hk_platform_write_pointer.
Proof.
  assert (H : ∀ a v d, let '(m, d') := hk_platform_write_pointer a v d in
    (m ≠ HK_MUTATION_NONE → a mod 8 = 0) ∧
    match m with
    | HK_MUTATION_NONE => d_mem d' = d_mem d
    | HK_MUTATION_COMPLETE => d_mem d' = store a (pointer_bytes v) (d_mem d)
    | HK_MUTATION_PARTIAL => False
    | HK_MUTATION_UNKNOWN => True
    end).
  { intros a v d. unfold hk_platform_write_pointer.
    pose proof (native_patch_pointer_spec laws a v (Device (d_mem d) (d_ctx d).1, (d_ctx d).2)) as Hs.
    by destruct (hk_native_patch_pointer _ _ _ _ _) as [m [d' memo]]. }
  split; intros a v d; [| |intros x|]; intros _ _; specialize (H a v d);
    destruct (hk_platform_write_pointer a v d) as [m d']; cbn; destruct H as [Ha H];
    [by intros -> ..|exact Ha].
Qed.
End Platform.

(** ** A commit *)

Section Commit.
Context `{PacLaws} {X : Type} (write : pointer_writer X) (contract : pointer_contract write).

Definition in_slot (x : Z) (s : hk_rebind_site) : Prop := rs_address s <= x < rs_address s + 8.

(** What a loop over [sites] has done to memory, by the state it returns. *)
Definition sites_written (sites : list (hk_rebind_site * Z)) (mem mem' : Z → Z)
    (state : hk_mutation_state) : Prop :=
  (state ≠ HK_MUTATION_UNKNOWN → ∀ x, Forall (λ sv, ¬ in_slot x sv.1) sites → mem' x = mem x) ∧
  (state = HK_MUTATION_COMPLETE → Forall (λ sv, rs_address sv.1 mod 8 = 0 ∧
     slot_value mem (rs_address sv.1) = rs_original sv.1 ∧
     slot_value mem' (rs_address sv.1) = sv.2) sites).

Lemma stopped_none m written : 0 <= written →
  stopped_state m written = HK_MUTATION_NONE → m = HK_MUTATION_NONE ∧ written = 0.
Proof. destruct m; cbn; try done. destruct (Z.eqb_spec written 0); done. Qed.

Lemma stopped_incomplete m written : m ≠ HK_MUTATION_COMPLETE → stopped_state m written ≠ HK_MUTATION_COMPLETE.
Proof. destruct m; cbn; try done. by destruct (written =? 0). Qed.

Lemma aligned_apart s t x : rs_address s mod 8 = 0 → rs_address t mod 8 = 0 →
  rs_address s ≠ rs_address t → in_slot x s → ¬ in_slot x t.
Proof.
  unfold in_slot. intros Hs Ht Hne.
  pose proof (Z.div_mod (rs_address s) 8 ltac:(lia)). pose proof (Z.div_mod (rs_address t) 8 ltac:(lia)). lia.
Qed.

Lemma commit_sites_spec sites written records d :
  Forall (λ sv, is_u64 (rs_address sv.1) ∧ is_u64 sv.2) sites →
  NoDup ((λ sv, rs_address sv.1) <$> sites) → 0 <= written →
  let '(state, records', written', d') := commit_sites write sites written records d in
  sites_written sites (d_mem d) (d_mem d') state ∧
  match state with
  | HK_MUTATION_COMPLETE =>
      records' = records ++ ((λ sv, slot_artifact sv.1 sv.2 HK_MUTATION_COMPLETE) <$> sites) ∧
      written' = written + Z.of_nat (length sites)
  | HK_MUTATION_NONE => d_mem d' = d_mem d ∧ records' = records ∧ written = 0 ∧ written' = 0 ∧ sites ≠ []
  | _ => True
  end.
Proof.
  revert written records d. induction sites as [|[s v] sites IH]; intros written records d Hu Hd Hw;
    cbn [commit_sites].
  { unfold ret. split; [split; [done|by constructor]|]. rewrite app_nil_r. split; [done|]. cbn. lia. }
  apply Forall_cons in Hu as [[Ha Hv] Hu]. cbn [fst snd] in Ha, Hv. rewrite fmap_cons in Hd; apply NoDup_cons in Hd as [Hnot Hd].
  unfold bind at 1, gets at 1. cbn [fst].
  destruct (Z.eqb_spec (slot_value (d_mem d) (rs_address s)) (rs_original s)) as [Horig|Horig]; cbn [negb].
  2: { unfold ret. cbn [stopped_state]. destruct (Z.eqb_spec written 0) as [->|].
    - split; [split; [done|done]|done].
    - split; [by split|done]. }
  unfold bind at 1. pose proof (pc_none _ contract (rs_address s) v d Ha Hv) as Hnone.
  pose proof (pc_complete _ contract (rs_address s) v d Ha Hv) as Hcomplete.
  pose proof (λ x, pc_partial _ contract (rs_address s) v d x Ha Hv) as Hpartial.
  pose proof (pc_aligned _ contract (rs_address s) v d Ha Hv) as Haligned.
  destruct (write (rs_address s) v d) as [m d1]. cbn [fst snd] in *.
  destruct (decide (m = HK_MUTATION_COMPLETE)) as [->|Hm].
  - rewrite (bool_decide_eq_true_2 (HK_MUTATION_COMPLETE = _)) by done. cbn [negb].
    specialize (Hcomplete eq_refl). specialize (Haligned ltac:(done)).
    rewrite (bool_decide_eq_false_2 (HK_MUTATION_COMPLETE = HK_MUTATION_NONE)) by done.
    specialize (IH (written + 1) (records ++ [slot_artifact s v HK_MUTATION_COMPLETE]) d1 Hu Hd ltac:(lia)).
    destruct (commit_sites _ _ _ _ _) as [[[state records'] written'] d'].
    destruct IH as [[Hout Hslots] Hcase]. split; [split|].
    + intros Hst x Hx. apply Forall_cons in Hx as [Hxs Hx]. rewrite (Hout Hst x Hx), Hcomplete.
      apply store_outside. unfold in_slot in Hxs. cbn in Hxs |- *. lia.
    + intros ->. specialize (Hslots eq_refl). rewrite Forall_forall in Hslots. apply Forall_cons. split; cbn [fst snd].
      * split_and!; [done|done|].
        transitivity (slot_value (d_mem d1) (rs_address s)); [|rewrite Hcomplete; by apply slot_value_store].
        apply slot_value_ext. intros x Hx. apply Hout; [done|]. rewrite Forall_forall. intros sv Hsv.
        destruct (Hslots sv Hsv) as (Hal & _). eapply aligned_apart; [exact Haligned|done| |exact Hx].
        intros E. apply Hnot, list_elem_of_fmap. by exists sv.
      * apply Forall_forall. intros sv Hsv. destruct (Hslots sv Hsv) as (Hal & Ho & Hv'). split_and!; [done| |done].
        rewrite <- Ho, Hcomplete. symmetry. apply slot_value_other; [done|done|].
        intros E. apply Hnot, list_elem_of_fmap. by exists sv.
    + destruct state; try done; [lia|]. destruct Hcase as [-> ->]. rewrite <- app_assoc. split; [done|]. cbn. lia.
  - rewrite (bool_decide_eq_false_2 (m = HK_MUTATION_COMPLETE)) by done. cbn [negb]. unfold ret.
    split; [split|].
    + intros Hst x Hx. apply Forall_cons in Hx as [Hxs _]. destruct m; cbn in Hst |- *; try done.
      * by rewrite Hnone.
      * apply Hpartial; [done|]. unfold in_slot in Hxs. cbn in Hxs. lia.
    + intros E. by apply stopped_incomplete in E.
    + destruct (stopped_state m written) eqn:E; try done.
      * apply stopped_none in E as [-> ->]; [|done]. rewrite (bool_decide_eq_true_2 (_ = HK_MUTATION_NONE)) by done.
        by split_and!; [apply Hnone|..].
      * by apply stopped_incomplete in E.
Qed.

Lemma checked_adjust_range value addend add adjusted : is_u64 value →
  checked_adjust value addend add = Some adjusted → is_u64 adjusted.
Proof.
  intros [Hv0 Hv1]. unfold checked_adjust. cbv zeta.
  set (magnitude := if addend <? 0 then _ else _).
  assert (Hm : 0 <= magnitude).
  { subst magnitude. pose proof (u64_range (- (addend + 1))). pose proof (u64_range addend). unfold is_u64 in *.
    destruct (addend <? 0); lia. }
  destruct (Bool.eqb _ _).
  - destruct (Z.ltb_spec (2 ^ 64 - 1 - value) magnitude); [done|]. intros [= <-]. unfold is_u64. lia.
  - destruct (Z.ltb_spec value magnitude); [done|]. intros [= <-]. unfold is_u64. lia.
Qed.

(** The new value of a slot: signed for it, and the replacement plus the
    addend once stripped. *)
Definition redirects (replacement : Z) (s : hk_rebind_site) (v : Z) : Prop :=
  ∃ target, checked_adjust (hk_pac_strip_code replacement) (rs_addend s) true = Some target ∧
    hk_rebind_replacement_for_site s replacement = Some v ∧
    hk_pac_slot_matches v (rs_schema s) (rs_address s) = true ∧
    hk_pac_strip_slot v (rs_schema s) = hk_pac_strip_code target.

Lemma replacement_redirects replacement s v : is_u64 replacement →
  hk_rebind_replacement_for_site s replacement = Some v → is_u64 v ∧ redirects replacement s v.
Proof.
  intros Hr. unfold redirects, hk_rebind_replacement_for_site.
  pose proof (pac_strip_range replacement HK_PAC_KEY_IA Hr : is_u64 (hk_pac_strip_code replacement)) as Hs.
  destruct (checked_adjust _ _ _) as [target|] eqn:E; [|done]. apply (checked_adjust_range _ _ _ _ Hs) in E as Ht.
  cbn. intros [= <-]. split; [by apply sign_slot_range|]. exists target. split_and!; [done|done| |].
  - by apply sign_slot_matches.
  - by apply sign_slot_strip.
Qed.

Lemma site_replacements_spec replacement sites l : is_u64 replacement →
  site_replacements sites replacement = Some l →
  fst <$> l = sites ∧ Forall (λ sv, is_u64 sv.2 ∧ redirects replacement sv.1 sv.2) l.
Proof.
  intros Hr. revert l. induction sites as [|s sites IH]; intros l; cbn [site_replacements]; [by intros [= <-]|].
  destruct (hk_rebind_replacement_for_site s replacement) as [v|] eqn:Ev; [|done].
  cbn [mbind option_bind].
  destruct (site_replacements sites replacement) as [rest|] eqn:Er; [|done]. intros [= <-].
  destruct (IH rest eq_refl) as [E Hrest]. split; [cbn; by rewrite E|]. constructor; [|done].
  by apply replacement_redirects.
Qed.

(** Where every slot of [sites] leads after a commit. *)
Definition sites_redirected (replacement : Z) (sites : list hk_rebind_site) (mem mem' : Z → Z) : Prop :=
  Forall (λ s, rs_address s mod 8 = 0 ∧ slot_value mem (rs_address s) = rs_original s ∧
    redirects replacement s (slot_value mem' (rs_address s))) sites.

Lemma rebind_commit_effect plan replacement predecessor d :
  Forall (λ s, is_u64 (rs_address s)) (rp_sites plan) → NoDup (rs_address <$> rp_sites plan) →
  is_u64 replacement →
  let '(state, records, written, d') := hk_rebind_commit (Some write) plan replacement predecessor d in
  (state ≠ HK_MUTATION_UNKNOWN →
   ∀ x, Forall (λ s, ¬ in_slot x s) (rp_sites plan) → d_mem d' x = d_mem d x) ∧
  (state = HK_MUTATION_NONE → d_mem d' = d_mem d ∧ records = [] ∧ written = 0) ∧
  (state = HK_MUTATION_COMPLETE →
   sites_redirected replacement (rp_sites plan) (d_mem d) (d_mem d') ∧
   (∀ p, predecessor = Some p → Forall (λ s, rs_callable_original s = p) (rp_sites plan)) ∧
   records = (λ s, slot_artifact s (slot_value (d_mem d') (rs_address s)) HK_MUTATION_COMPLETE)
             <$> rp_sites plan ∧
   written = Z.of_nat (length (rp_sites plan)) ∧ 0 < written).
Proof.
  intros Ha Hd Hr. unfold hk_rebind_commit.
  assert (Hnone : ∀ P, (HK_MUTATION_NONE ≠ HK_MUTATION_UNKNOWN → ∀ x, P x → d_mem d x = d_mem d x) ∧
    (HK_MUTATION_NONE = HK_MUTATION_NONE → d_mem d = d_mem d ∧ ([] : list hk_artifact) = [] ∧ 0 = 0) ∧
    (∀ Q : Prop, HK_MUTATION_NONE = HK_MUTATION_COMPLETE → Q)) by done.
  destruct (Z.eqb_spec (Z.of_nat (length (rp_sites plan))) 0) as [Hn|Hn]; [by split_and!|].
  destruct (site_replacements (rp_sites plan) replacement) as [sites|] eqn:Es; [|by split_and!].
  destruct (site_replacements_spec _ _ _ Hr Es) as [E Hv].
  destruct (match predecessor with Some p => _ | None => false end) eqn:Ep; [by split_and!|].
  assert (Hall : Forall (λ sv, is_u64 (rs_address sv.1) ∧ is_u64 sv.2) sites).
  { rewrite <- E in Ha. rewrite Forall_fmap in Ha. rewrite Forall_forall in *. intros sv Hin.
    split; [by apply Ha|by apply Hv]. }
  assert (Hd' : NoDup ((λ sv, rs_address sv.1) <$> sites)).
  { rewrite <- E in Hd. by rewrite <- list_fmap_compose in Hd. }
  pose proof (commit_sites_spec sites 0 [] d Hall Hd' ltac:(lia)) as H'.
  destruct (commit_sites write sites 0 [] d) as [[[state records] written] d'].
  destruct H' as [[Hout Hslots] Hcase]. split_and!.
  - intros Hst x Hx. apply Hout; [done|]. rewrite <- E in Hx. by rewrite Forall_fmap in Hx.
  - intros ->. by destruct Hcase as (? & ? & _ & ? & _).
  - intros ->. specialize (Hslots eq_refl). destruct Hcase as [-> ->].
    assert (Hv' : Forall (λ sv, slot_value (d_mem d') (rs_address sv.1) = sv.2) sites)
      by (eapply Forall_impl; [exact Hslots|]; by intros ? (_ & _ & ?)).
    split_and!.
    + unfold sites_redirected. rewrite <- E, Forall_fmap. rewrite Forall_forall in *. intros sv Hin.
      destruct (Hslots sv Hin) as (Hal & Ho & Hnew). split_and!; [done|done|]. cbn. rewrite Hnew. by apply Hv.
    + intros p ->. apply negb_false_iff in Ep. rewrite forallb_forall in Ep. apply Forall_forall.
      intros s Hin. apply Z.eqb_eq, Ep, list_elem_of_In, Hin.
    + rewrite <- E, <- list_fmap_compose. apply list_fmap_ext. intros i sv Hi. unfold compose.
      rewrite Forall_forall in Hv'. by rewrite (Hv' sv) by (by eapply list_elem_of_lookup_2).
    + by rewrite <- E, length_fmap.
    + rewrite <- E, length_fmap in Hn. lia.
Qed.

(** What a commit of a rebinding has done, over any writer that keeps its
    contract.  Unless the state is UNKNOWN, no byte outside the slots of the
    plan changed.  NONE means that memory is as it was, nothing is recorded and
    no slot is counted.  COMPLETE means that every slot held what preparation
    had read of it and that every predecessor was the one required, and that
    every slot now holds a pointer that passes the authentication the image
    does of it and leads to the replacement plus the slot's addend; one
    record was made per slot, in order, each with its original and its new
    value. *)
Theorem rebind_commit_contract plan replacement predecessor d :
  Forall (λ s, is_u64 (rs_address s)) (rp_sites plan) → NoDup (rs_address <$> rp_sites plan) →
  is_u64 replacement →
  let '(state, records, written, d') := hk_rebind_commit (Some write) plan replacement predecessor d in
  (state ≠ HK_MUTATION_UNKNOWN →
   ∀ x, Forall (λ s, ¬ in_slot x s) (rp_sites plan) → d_mem d' x = d_mem d x) ∧
  (state = HK_MUTATION_NONE → d_mem d' = d_mem d ∧ records = [] ∧ written = 0) ∧
  (state = HK_MUTATION_COMPLETE →
   Forall (λ s, slot_value (d_mem d) (rs_address s) = rs_original s ∧
     redirects replacement s (slot_value (d_mem d') (rs_address s))) (rp_sites plan) ∧
   (∀ p, predecessor = Some p → Forall (λ s, rs_callable_original s = p) (rp_sites plan)) ∧
   records = (λ s, slot_artifact s (slot_value (d_mem d') (rs_address s)) HK_MUTATION_COMPLETE)
             <$> rp_sites plan ∧
   written = Z.of_nat (length (rp_sites plan)) ∧ 0 < written).
Proof.
  intros Ha Hd Hr. pose proof (rebind_commit_effect plan replacement predecessor d Ha Hd Hr) as H'.
  destruct (hk_rebind_commit _ _ _ _ _) as [[[state records] written] d'].
  destruct H' as (Hout & Hnone & Hcomplete). split_and!; [done|done|]. intros Hst.
  destruct (Hcomplete Hst) as (Hsites & Hpred & Hrec & Hw). split_and!; [|done|done|apply Hw..].
  eapply Forall_impl; [exact Hsites|]. by intros s (_ & Ho & Hnew).
Qed.
(** ** A commit that must go through *)

Lemma commit_sites_completes sites written records d :
  (∀ a v d, is_u64 a → is_u64 v → a mod 8 = 0 → (write a v d).1 = HK_MUTATION_COMPLETE) →
  Forall (λ sv, is_u64 (rs_address sv.1) ∧ is_u64 sv.2 ∧ rs_address sv.1 mod 8 = 0 ∧
    slot_value (d_mem d) (rs_address sv.1) = rs_original sv.1) sites →
  NoDup ((λ sv, rs_address sv.1) <$> sites) →
  (commit_sites write sites written records d).1.1.1 = HK_MUTATION_COMPLETE.
Proof.
  intros Hlive. revert written records d. induction sites as [|[s v] sites IH]; intros written records d Hs Hd; [done|].
  apply Forall_cons in Hs as [(Ha & Hv & Hal & Ho) Hs]. cbn [fst snd] in *.
  rewrite fmap_cons in Hd. apply NoDup_cons in Hd as [Hnot Hd].
  cbn [commit_sites]. unfold bind at 1, gets. rewrite Ho, Z.eqb_refl. cbn [negb]. unfold bind at 1.
  pose proof (Hlive (rs_address s) v d Ha Hv Hal) as Hm.
  pose proof (pc_complete _ contract (rs_address s) v d Ha Hv Hm) as Hmem.
  destruct (write (rs_address s) v d) as [m d1]. cbn [fst snd] in *. subst m.
  rewrite (bool_decide_eq_true_2 (HK_MUTATION_COMPLETE = HK_MUTATION_COMPLETE)) by done. cbn [negb].
  apply IH; [|done]. rewrite Forall_forall in *. intros sv Hin. destruct (Hs sv Hin) as (? & ? & Halv & Hov).
  split_and!; [done..|]. rewrite <- Hov, Hmem. apply slot_value_other; [done|done|].
  intros E. apply Hnot, list_elem_of_fmap. by exists sv.
Qed.

Lemma site_replacements_total replacement sites :
  Forall (λ s, checked_adjust (hk_pac_strip_code replacement) (rs_addend s) true ≠ None) sites →
  ∃ l, site_replacements sites replacement = Some l.
Proof.
  induction 1 as [|s sites Hs _ [l IH]]; [by exists []|]. cbn [site_replacements].
  unfold hk_rebind_replacement_for_site. destruct (checked_adjust _ _ _) as [t|]; [|done]. cbn. rewrite IH. by eexists.
Qed.

(** C21. A commit goes through when nothing stands in its way: with a writer
    that writes every aligned slot, where every slot still holds what preparation
    read of it, every addend stays inside the address space and every
    predecessor is the one required, the commit of a plan with slots reports
    COMPLETE. *)
Theorem rebind_commit_completes plan replacement predecessor d :
  (∀ a v d, is_u64 a → is_u64 v → a mod 8 = 0 → (write a v d).1 = HK_MUTATION_COMPLETE) →
  is_u64 replacement → rp_sites plan ≠ [] → NoDup (rs_address <$> rp_sites plan) →
  Forall (λ s, is_u64 (rs_address s) ∧ rs_address s mod 8 = 0 ∧
    slot_value (d_mem d) (rs_address s) = rs_original s ∧
    checked_adjust (hk_pac_strip_code replacement) (rs_addend s) true ≠ None ∧
    ∀ p, predecessor = Some p → rs_callable_original s = p) (rp_sites plan) →
  (hk_rebind_commit (Some write) plan replacement predecessor d).1.1.1 = HK_MUTATION_COMPLETE.
Proof.
  intros Hlive Hr Hne Hd Hs. unfold hk_rebind_commit.
  destruct (Z.eqb_spec (Z.of_nat (length (rp_sites plan))) 0); [by destruct (rp_sites plan)|].
  destruct (site_replacements_total replacement (rp_sites plan)) as [l El].
  { eapply Forall_impl; [exact Hs|]. by intros s (_ & _ & _ & ? & _). }
  rewrite El. destruct (site_replacements_spec _ _ _ Hr El) as [E Hv].
  destruct (match predecessor with Some p => _ | None => false end) eqn:Ep.
  { destruct predecessor as [p|]; [|done]. apply negb_true_iff in Ep.
    rewrite (proj2 (forallb_forall _ _)) in Ep; [done|]. intros s Hin%list_elem_of_In.
    rewrite Forall_forall in Hs. apply Z.eqb_eq. by apply (Hs s Hin). }
  apply commit_sites_completes; [exact Hlive| |].
  - rewrite <- E, Forall_fmap in Hs. rewrite Forall_forall in *. intros sv Hin.
    destruct (Hs sv Hin) as (? & ? & ? & _). by destruct (Hv sv Hin).
  - by rewrite <- E, <- list_fmap_compose in Hd.
Qed.
End Commit.

(** ** Witnesses: slots of the test build of pointer authentication *)

Definition demo_slot_writer : pointer_writer unit := λ a v d,
  if a mod 8 =? 0 then (HK_MUTATION_COMPLETE, d <| d_mem := store a (pointer_bytes v) (d_mem d) |>)
  else (HK_MUTATION_NONE, d).

Lemma demo_slot_writer_contract : pointer_contract demo_slot_writer.
Proof.
  split; intros a v d; [| |intros x|]; intros _ _; unfold demo_slot_writer;
    destruct (Z.eqb_spec (a mod 8) 0); by cbn.
Qed.

Definition demo_schema : hk_pac_schema := PacSchema true HK_PAC_KEY_IA 7 true.
Definition demo_import (a original addend : Z) (schema : hk_pac_schema) : hk_rebind_site :=
  RebindSite a original 0 addend schema false true false.

(** A plain slot at 0x1000 and an authenticated one at 0x1010, past an addend. *)
Definition demo_sites : list hk_rebind_site :=
  [demo_import 0x1000 0x4000 0 no_schema; demo_import 0x1010 0x4000 16 demo_schema].

Definition demo_slots : device unit :=
  Device (store 0x1010 (pointer_bytes 0x4000) (store 0x1000 (pointer_bytes 0x4000) (λ _, 0))) tt.

Lemma rebind_commit_contract_witness :
  let r := hk_rebind_commit (H := test_pac) (Some demo_slot_writer) (RebindPlan demo_sites true 0) 0x5000 None demo_slots in
  r.1.1.1 = HK_MUTATION_COMPLETE ∧ r.1.2 = 2 ∧
  Forall (λ s, redirects (H := test_pac) 0x5000 s (slot_value (d_mem r.2) (rs_address s))) demo_sites.
Proof.
  intros r. assert (Hstate : r.1.1.1 = HK_MUTATION_COMPLETE) by (vm_compute; reflexivity).
  pose proof (rebind_commit_contract (H := test_pac) demo_slot_writer demo_slot_writer_contract
    (RebindPlan demo_sites true 0) 0x5000 None demo_slots) as H.
  subst r. destruct (hk_rebind_commit _ _ _ _ _) as [[[state records] written] d'].
  cbn [fst snd] in *. subst state. destruct H as (_ & _ & H).
  - repeat constructor; cbn; lia.
  - apply (bool_decide_unpack (NoDup _)). vm_compute. exact I.
  - split; lia.
  - destruct (H eq_refl) as (Hslots & _ & _ & -> & _). split_and!; [done|done|].
    eapply Forall_impl; [exact Hslots|]. by intros s [_ ?].
Defined.

Lemma rebind_commit_completes_witness :
  (hk_rebind_commit (H := test_pac) (Some demo_slot_writer) (RebindPlan demo_sites true 0) 0x5000 None
    demo_slots).1.1.1 = HK_MUTATION_COMPLETE.
Proof.
  apply (rebind_commit_completes (H := test_pac) demo_slot_writer demo_slot_writer_contract
    (RebindPlan demo_sites true 0) 0x5000 None demo_slots).
  - intros a v d _ _ Ha. unfold demo_slot_writer. rewrite Ha. reflexivity.
  - split; lia.
  - discriminate.
  - apply (bool_decide_unpack (NoDup _)). vm_compute. exact I.
  - repeat constructor; cbn; try lia; try done; vm_compute; congruence.
Defined.

(** The kernel of NativeMemory.v, but one that opens every page. *)
Definition demo_open_vm : vm_calls unit :=
  VmCalls unit (vm_region_64 demo_vm) (λ _ _ _, ret true) (vm_allocate demo_vm)
    (vm_deallocate demo_vm) (vm_remap demo_vm).

Lemma demo_open_vm_laws : vm_laws demo_open_vm.
Proof. destruct demo_vm_laws. by split. Qed.

Lemma platform_pointer_contract_witness :
  let write := hk_platform_write_pointer demo_open_vm (2 ^ 2) in
  let d := Device (λ _, 0) (tt, None) in
  (write 0x1000 0x1234 d).1 = HK_MUTATION_COMPLETE ∧
  d_mem (write 0x1000 0x1234 d).2 = store 0x1000 (pointer_bytes 0x1234) (d_mem d) ∧
  (write 0x1004 0x1234 d).1 = HK_MUTATION_NONE.
Proof.
  intros write d. split; [reflexivity|]. split; [|reflexivity].
  apply (pc_complete _ (platform_pointer_contract demo_open_vm (2 ^ 2) demo_open_vm_laws));
    [split; lia|split; lia|reflexivity].
Defined.
