(* ===== verification/SwiftSafety.v ===== *)
(** * Swift slots: what the engine reads and writes

    Whatever the class pointer and the metadata, every read lies in a range the
    kernel has called readable, so that nothing faults; a slot is written only
    when every check passed, and only it is. *)

From stdpp Require Import base list strings numbers option sets list_numbers sorting.
From S2P Require Import Prelude Types Memory Faults Arm64 Device NativeMemory PointerAuth RebindEngine RebindCommit Swift.

(** ** The probe *)

Section Probe.
Context {K : Type} (vm : vm_calls K) (laws : vm_laws vm) (mapped : Z → bool).

(** What the kernel calls readable may be read. *)
Definition regions_mapped (d : device K) : Prop :=
  ∀ q r, vm_region_64 vm d q = Some r → Z.land (vr_protection r) VM_PROT_READ = VM_PROT_READ →
    ∀ x, vr_start r <= x < vr_start r + vr_size r → mapped x = true.

Definition memo_mapped (memo : option memo_region) : Prop :=
  ∀ m, memo = Some m → Z.land (mr_protection m) VM_PROT_READ = VM_PROT_READ →
    ∀ x, mr_base m <= x < mr_end m → mapped x = true.

Lemma protected_walk_mapped fuel d start stop memo :
  regions_mapped d → stop - start <= Z.of_nat fuel → memo_mapped memo →
  let '(ok, memo') := protected_walk vm fuel d start stop VM_PROT_READ memo in
  memo_mapped memo' ∧ (ok = true → ∀ x, start <= x < stop → mapped x = true).
Proof.
  intros Hd. revert start memo. induction fuel as [|fuel IH]; intros start memo Hf Hm; cbn [protected_walk].
  { split; [done|]. intros _ x Hx. lia. }
  destruct (Z.ltb_spec start stop); [|split; [done|intros _ x Hx; lia]].
  destruct (vm_region_64 vm d start) as [r|] eqn:Er; [|done].
  destruct (vl_region vm laws d start r Er) as (H0 & Hs & Hend & Hq).
  destruct (_ || _ || _) eqn:Et; [done|]. rewrite !orb_false_iff, negb_false_iff in Et.
  destruct Et as [[H1%Z.ltb_ge H2%Z.eqb_neq] Hp%Z.eqb_eq]. cbv zeta.
  rewrite u64_small by (unfold is_u64; lia).
  pose proof (Hd _ _ Er Hp) as Hr.
  specialize (IH (vr_start r + vr_size r)
    (if stop <=? vr_start r + vr_size r then Some (MemoRegion (vr_start r) (vr_start r + vr_size r) (vr_protection r)) else memo)
    ltac:(lia)).
  destruct (protected_walk _ _ _ _ _ _ _) as [ok memo']. destruct IH as [Hm' Hok].
  { destruct (_ <=? _); [|done]. intros m [= <-] _ x Hx. by apply Hr. }
  split; [done|]. intros Hok' x Hx. destruct (decide (x < vr_start r + vr_size r)); [apply Hr; lia|].
  apply Hok; [done|lia].
Qed.

Lemma all_protected_mapped d memo start stop :
  regions_mapped d → memo_mapped memo →
  let '(ok, memo') := hk_range_all_protected vm d memo start stop VM_PROT_READ in
  memo_mapped memo' ∧ (ok = true → ∀ x, start <= x < stop → mapped x = true).
Proof.
  intros Hd Hm. unfold hk_range_all_protected.
  pose proof (protected_walk_mapped (Z.to_nat (stop - start)) d start stop memo Hd ltac:(lia) Hm) as Hw.
  destruct memo as [m|]; [|exact Hw]. destruct (_ && _) eqn:E; [|exact Hw].
  rewrite !andb_true_iff, !Z.leb_le, Z.eqb_eq in E. destruct E as [[H1 H2] H3].
  split; [done|]. intros _ x Hx. apply (Hm m); [done|done|lia].
Qed.
End Probe.

(** A member of a list of constants. *)
Ltac listed := apply (bool_decide_unpack (_ ∈ _)); vm_compute; exact I.

(** ** Reading metadata *)

Section Reads.
Context {K : Type} (vm : vm_calls K) (laws : vm_laws vm) (page_size k : Z).
Context (Hpage : page_size = 2 ^ k) (Hk : 0 <= k < 64) (mapped : Z → bool).
Context {Pac : PacOps} {plaws : PacLaws Pac}.

(** Between two writes: the kernel's regions and memory are those of [d]. *)
Record reading (d : device K) (s : swift_state K) : Prop := Reading {
  rd_device : (ss_native s).1 = d;
  rd_memo : memo_mapped mapped (ss_native s).2 }.

Context (d : device K) (Hd : regions_mapped vm mapped d).
Hypothesis Hbytes : ∀ a, 0 <= d_mem d a < 256.

Definition metadata : memory := mapped_memory mapped (d_mem d).

Lemma reading_errno s code : reading d s → reading d (s <| ss_errno := code |>).
Proof. by intros [H1 H2]; split. Qed.

Lemma returns_fail {A} code s (Q : option A → swift_state K → Prop) :
  reading d s → (∀ s', reading d s' → ss_errno s' = code → Q None s') → returns (fail code) s Q.
Proof.
  intros Hs HQ. eapply returns_bind with (R := λ _ s', reading d s' ∧ ss_errno s' = code).
  - apply returns_lift. split; [by apply reading_errno|done].
  - intros _ s' [Hs' He]. apply returns_ret. by apply HQ.
Qed.

Lemma returns_range addr len s :
  reading d s → is_u64 addr → is_u64 len →
  returns (readable_range vm page_size addr len) s (λ ok s', reading d s' ∧ ss_errno s' = ss_errno s ∧
    (ok = true → readable metadata addr len ∧ 0 < addr ∧ addr + len < 2 ^ 64)).
Proof.
  intros [Hdev Hm] Ha Hl. unfold readable_range, on_native. apply returns_lift.
  unfold zoom, hk_native_range_readable, range_probe.
  destruct (hk_range_bounds page_size addr len) as [[start stop]|] eqn:Eb.
  2: { cbn. split_and!; [|done|done]. by destruct s. }
  destruct (range_bounds_spec _ _ _ _ _ _ Hpage Hk Ha Hl Eb) as (_ & _ & Hstart & Hs & He & Hstop & Hnz & _).
  pose proof (all_protected_mapped vm laws mapped (ss_native s).1 (ss_native s).2 start stop) as Hp.
  rewrite Hdev in Hp |- *. specialize (Hp Hd Hm).
  destruct (hk_range_all_protected vm d _ start stop _) as [ok memo]. destruct Hp as [Hm' Hok].
  cbn. split_and!; [by split|done|]. intros E. unfold is_u64 in *. split_and!; [|lia..].
  intros i Hi. exists (d_mem d (addr + i)). split; [|apply Hbytes]. unfold metadata, mapped_memory.
  by rewrite (Hok E) by lia.
Qed.

Lemma returns_load32 base size off s :
  reading d s → readable metadata base size → 0 <= off → off + 4 <= size →
  returns (load32 mapped (base + off)) s (λ v s', s' = s ∧ is_u32 v ∧ read_u32 metadata (base + off) = Some v).
Proof.
  intros [Hdev _] Hr Ho Hs. apply returns_fetch. unfold state_memory. rewrite Hdev. fold metadata.
  pose proof (runs_u32 base size off Hr Ho Hs) as Hv. destruct (read_u32 metadata (base + off)); [|done].
  by split_and!.
Qed.

Lemma returns_load64 base size off s :
  reading d s → readable metadata base size → 0 <= off → off + 8 <= size →
  returns (load64 mapped (base + off)) s (λ v s', s' = s ∧ is_u64 v ∧ read_u64 metadata (base + off) = Some v).
Proof.
  intros [Hdev _] Hr Ho Hs. apply returns_fetch. unfold state_memory. rewrite Hdev. fold metadata.
  pose proof (runs_u64 base size off Hr Ho Hs) as Hv. destruct (read_u64 metadata (base + off)); [|done].
  by split_and!.
Qed.

(** What the metadata of a supported class says, and that its arrays may be
    read. *)
Record swift_class (cls vtable methods size : Z) : Prop := SwiftClass {
  sk_swift : ∃ data, read_u64 metadata (cls + HK_SWIFT_METADATA_DATA_OFFSET) = Some data ∧
    Z.land data HK_SWIFT_METADATA_IS_SWIFT_BIT ≠ 0;
  sk_descriptor : ∃ signed flags offset,
    read_u64 metadata (cls + HK_SWIFT_METADATA_DESCRIPTION_OFFSET) = Some signed ∧ signed ≠ 0 ∧
    read_u32 metadata (hk_strip_data signed) = Some flags ∧ descriptor_refusal flags = None ∧
    read_u32 metadata (hk_strip_data signed + HK_SWIFT_DESC_VTABLE_OFFSET) = Some offset ∧
    read_u32 metadata (hk_strip_data signed + HK_SWIFT_DESC_VTABLE_SIZE) = Some size ∧
    vtable = u64 (cls + offset * HK_SWIFT_VTABLE_ENTRY_SIZE) ∧
    methods = u64 (hk_strip_data signed + HK_SWIFT_DESC_METHODS);
  sk_size : is_u32 size;
  sk_slots : 0 < size → readable metadata vtable (size * 8) ∧ 0 < vtable ∧ vtable + size * 8 < 2 ^ 64;
  sk_methods : 0 < size → readable metadata methods (size * HK_SWIFT_METHOD_DESC_SIZE) }.

Definition resolve_errors : list Z :=
  [HK_SWIFT_ERR_ARG; HK_SWIFT_ERR_UNREADABLE; HK_SWIFT_ERR_NOT_SWIFT; HK_SWIFT_ERR_NOT_CLASS_DESCRIPTOR;
   HK_SWIFT_ERR_NO_VTABLE; HK_SWIFT_ERR_UNSUPPORTED_LAYOUT].

Lemma descriptor_refusal_listed flags code : descriptor_refusal flags = Some code → code ∈ resolve_errors.
Proof.
  unfold descriptor_refusal.
  repeat match goal with |- context [if ?b then _ else _] => destruct b end; intros [= <-]; listed.
Qed.

Lemma returns_arrays vtable methods size s :
  reading d s → is_u64 vtable → is_u64 methods → is_u32 size →
  returns (if 0 <? size then
             fbind (readable_range vm page_size vtable (size * 8)) (λ slots : bool,
               if slots then readable_range vm page_size methods (size * HK_SWIFT_METHOD_DESC_SIZE)
               else fret false)
           else fret true) s (λ ok s', reading d s' ∧ (ok = true →
    (0 < size → readable metadata vtable (size * 8) ∧ 0 < vtable ∧ vtable + size * 8 < 2 ^ 64) ∧
    (0 < size → readable metadata methods (size * HK_SWIFT_METHOD_DESC_SIZE)))).
Proof.
  intros Hs Hv Hm [Hsz0 Hsz1]. destruct (Z.ltb_spec 0 size); [|apply returns_ret; split; [done|]; lia].
  eapply returns_bind; [apply returns_range; [done|done|unfold is_u64; lia]|].
  intros [|] s1 (Hs1 & _ & Hslots); [|by apply returns_ret].
  eapply returns_conseq; [apply returns_range; [done|done|unfold is_u64, HK_SWIFT_METHOD_DESC_SIZE; lia]|].
  intros ok s2 (Hs2 & _ & Hmethods). split; [done|]. intros Eok.
  destruct (Hmethods Eok) as (Hr & _ & _). split; intros _; [by apply Hslots|done].
Qed.

Lemma returns_resolve cls s :
  reading d s → is_u64 cls →
  returns (hk_swift_resolve vm page_size mapped cls) s (λ r s', reading d s' ∧
    match r with
    | Some (vtable, methods, size) => swift_class cls vtable methods size
    | None => ss_errno s' ∈ resolve_errors
    end).
Proof.
  intros Hs Hcls. unfold hk_swift_resolve.
  assert (Hfail : ∀ code s, reading d s → code ∈ resolve_errors →
    returns (fail (A := Z * Z * Z) code) s (λ r s', reading d s' ∧
      match r with
      | Some (vtable, methods, size) => swift_class cls vtable methods size
      | None => ss_errno s' ∈ resolve_errors
      end)).
  { intros code s0 Hs0 Hc. apply returns_fail; [done|]. intros s' Hs' ->. by split. }
  destruct (cls =? 0); [apply Hfail; [done|listed]|].
  eapply returns_bind; [apply returns_range; [done|done|by vm_compute]|].
  intros [|] s1 (Hs1 & _ & Hr1); cbn [negb]; [|apply Hfail; [done|listed]]. destruct (Hr1 eq_refl) as (Hread & Hc0 & Hc1).
  unfold HK_SWIFT_METADATA_DESCRIPTION_OFFSET in *.
  eapply returns_bind; [apply (returns_load64 cls 72 32 s1 Hs1 Hread); lia|]. intros data s2 (-> & _ & Edata).
  destruct (Z.eqb_spec (Z.land data HK_SWIFT_METADATA_IS_SWIFT_BIT) 0); [apply Hfail; [done|listed]|].
  eapply returns_bind; [apply (returns_load64 cls 72 64 s1 Hs1 Hread); lia|]. intros signed s2 (-> & Hsg & Esigned).
  destruct (Z.eqb_spec signed 0); [apply Hfail; [done|listed]|]. cbv zeta.
  pose proof (pac_strip_range signed HK_PAC_KEY_DA Hsg : is_u64 (hk_strip_data signed)) as Hdesc.
  set (descriptor := hk_strip_data signed) in *.
  eapply returns_bind; [apply returns_range; [done|done|by vm_compute]|].
  intros [|] s2 (Hs2 & _ & Hr2); cbn [negb]; [|apply Hfail; [done|listed]].
  destruct (Hr2 eq_refl) as (Hread2 & Hd0 & Hd1). unfold HK_SWIFT_DESC_METHODS in Hread2, Hd1.
  eapply returns_bind.
  { pose proof (returns_load32 descriptor 52 0 s2 Hs2 Hread2 ltac:(lia) ltac:(lia)) as Hl.
    rewrite Z.add_0_r in Hl. exact Hl. }
  intros flags s3 (-> & _ & Eflags). destruct (descriptor_refusal flags) as [code|] eqn:Eref.
  { apply Hfail; [done|by eapply descriptor_refusal_listed]. }
  eapply returns_bind; [apply (returns_load32 descriptor 52 44 s2 Hs2 Hread2); lia|].
  intros offset s3 (-> & _ & Eoffset).
  eapply returns_bind; [apply (returns_load32 descriptor 52 48 s2 Hs2 Hread2); lia|].
  intros size s3 (-> & Hsize & Esize).
  eapply returns_bind; [apply returns_arrays; [done|apply u64_range|apply u64_range|done]|].
  intros [|] s3 (Hs3 & Harr); cbn [negb]; [|apply Hfail; [done|listed]]. destruct (Harr eq_refl) as [Hslots Hmethods].
  apply returns_ret. split; [done|]. split; [by exists data| |done|done|done].
  by exists signed, flags, offset.
Qed.

(** *** Names *)

Section Names.
Context (symbol_at : Z → option string) (hk_swift_demangle : option (string → option string)).

(** Whether the method descriptor [i] is one the name asks for. *)
Definition slot_matches (name : string) (methods i : Z) : bool :=
  let method := methods + i * HK_SWIFT_METHOD_DESC_SIZE in
  match read_u32 metadata method, read_u32 metadata (method + HK_SWIFT_METHOD_IMPL_OFFSET) with
  | Some flags, Some relative =>
      let impl := u64 (method + HK_SWIFT_METHOD_IMPL_OFFSET + s32 relative) in
      (Z.land flags HK_SWIFT_METHOD_IS_ASYNC =? 0) && negb (impl =? 0) &&
      match symbol_at impl with Some symbol => name_hit hk_swift_demangle name symbol | None => false end
  | _, _ => false
  end.

Lemma returns_slot_hit name methods size i s :
  reading d s → readable metadata methods (size * HK_SWIFT_METHOD_DESC_SIZE) → 0 <= i < size →
  returns (slot_hit mapped symbol_at hk_swift_demangle name (methods + i * HK_SWIFT_METHOD_DESC_SIZE)) s
    (λ hit s', s' = s ∧ hit = slot_matches name methods i).
Proof.
  intros Hs Hr Hi. unfold slot_hit, hk_swift_method_impl, slot_matches, HK_SWIFT_METHOD_DESC_SIZE in *.
  change HK_SWIFT_METHOD_IMPL_OFFSET with 4 in *. cbv zeta.
  eapply returns_bind; [apply (returns_load32 methods (size * 8) (i * 8) s Hs Hr); lia|].
  intros flags s' (-> & _ & ->).
  pose proof (returns_load32 methods (size * 8) (i * 8 + 4) s Hs Hr ltac:(lia) ltac:(lia)) as Hl.
  rewrite Z.add_assoc in Hl.
  destruct (Z.eqb_spec (Z.land flags HK_SWIFT_METHOD_IS_ASYNC) 0) as [Ha|Ha]; cbn [negb andb].
  - eapply returns_bind.
    { eapply returns_bind; [exact Hl|]. intros relative s' (-> & _ & Er). apply returns_ret.
      exact (conj eq_refl (ex_intro _ relative (conj Er eq_refl)) :
        (λ impl s', s' = s ∧ ∃ relative, read_u32 metadata (methods + i * 8 + 4) = Some relative ∧
           impl = u64 (methods + i * 8 + 4 + s32 relative)) _ _). }
    intros impl s' (-> & relative & -> & ->). destruct (u64 _ =? 0); by apply returns_ret.
  - apply returns_ret. split; [done|]. by destruct (read_u32 metadata (methods + i * 8 + 4)).
Qed.

Lemma returns_matching name methods size count i s :
  reading d s → readable metadata methods (size * HK_SWIFT_METHOD_DESC_SIZE) → 0 <= i →
  i + Z.of_nat count <= size →
  returns (matching_slots mapped symbol_at hk_swift_demangle count name methods i) s
    (λ l s', s' = s ∧ l = List.filter (slot_matches name methods) (seqZ i (Z.of_nat count))).
Proof.
  intros Hs Hr. revert i. induction count as [|count IH]; intros i Hi Hc; cbn [matching_slots].
  { by apply returns_ret. }
  eapply returns_bind; [apply (returns_slot_hit name methods size i s Hs Hr); lia|]. intros hit s' (-> & ->).
  eapply returns_bind; [apply IH; lia|]. intros l s' (-> & ->). apply returns_ret. split; [done|].
  rewrite (seqZ_cons i) by lia. replace (Z.pred (Z.of_nat (S count))) with (Z.of_nat count) by lia.
  cbn [List.filter]. by rewrite Z.add_1_r.
Qed.

(** What a search by name answers. *)
Definition slot_found (cls : Z) (name : string) (i : Z) : Prop :=
  ∃ vtable methods size, swift_class cls vtable methods size ∧
    ∀ j, 0 <= j < size ∧ slot_matches name methods j = true ↔ j = i.
Definition slot_missing (cls : Z) (name : string) (code : Z) : Prop :=
  code ∈ resolve_errors ∨
  ∃ vtable methods size, swift_class cls vtable methods size ∧
    ((code = HK_SWIFT_ERR_NOT_FOUND ∧ ∀ j, 0 <= j < size → slot_matches name methods j = false) ∨
     (code = HK_SWIFT_ERR_AMBIGUOUS ∧ ∃ i j, i ≠ j ∧ 0 <= i < size ∧ 0 <= j < size ∧
        slot_matches name methods i = true ∧ slot_matches name methods j = true)).

Lemma elem_of_matches name methods size j :
  j ∈ List.filter (slot_matches name methods) (seqZ 0 size) ↔
  0 <= j < size ∧ slot_matches name methods j = true.
Proof. rewrite list_elem_of_In, filter_In, <- list_elem_of_In, elem_of_seqZ. by rewrite Z.add_0_l. Qed.

Lemma returns_find_slot cls name s :
  reading d s → is_u64 cls →
  returns (hk_swift_find_slot vm page_size mapped symbol_at hk_swift_demangle cls (Some name)) s
    (λ r s', reading d s' ∧
      match r with
      | Some i => is_u32 i ∧ slot_found cls name i
      | None => slot_missing cls name (ss_errno s')
      end).
Proof.
  intros Hs Hcls. unfold hk_swift_find_slot.
  assert (Hfail : ∀ code s, reading d s → slot_missing cls name code →
    returns (fail (A := Z) code) s (λ r s', reading d s' ∧
      match r with Some i => is_u32 i ∧ slot_found cls name i | None => slot_missing cls name (ss_errno s') end)).
  { intros code s0 Hs0 Hc. apply returns_fail; [done|]. intros s' Hs' ->. by split. }
  eapply returns_bind with (R := λ _ s', reading d s'); [apply returns_lift; by apply reading_errno|].
  intros _ s1 Hs1. destruct name as [|c name0]; [apply Hfail; [done|left; listed]|].
  set (name := String c name0) in *.
  destruct (cls =? 0); [apply Hfail; [done|left; listed]|].
  eapply returns_bind; [by apply returns_resolve|]. intros [[[vtable methods] size]|] s2 [Hs2 Hc];
    [|apply returns_ret; split; [done|by left]].
  eapply returns_bind with (R := λ _ s', reading d s').
  { apply returns_lift. unfold zoom. destruct (alloc (ss_heap s2)) as [b h]. by destruct Hs2; split. }
  intros [|] s3 Hs3; cbn [negb]; [|apply Hfail; [done|left; listed]].
  pose proof (sk_size _ _ _ _ Hc) as Hsize. unfold is_u32 in Hsize.
  eapply returns_bind with (R := λ l s', s' = s3 ∧ l = List.filter (slot_matches name methods) (seqZ 0 size)).
  { destruct (Z.ltb_spec 0 size) as [Hpos|].
    - pose proof (returns_matching name methods size (Z.to_nat size) 0 s3 Hs3 (sk_methods _ _ _ _ Hc Hpos)) as Hm.
      rewrite Z2Nat.id in Hm by lia. apply Hm; lia.
    - replace size with 0 by lia. by apply returns_ret. }
  intros l s4 (-> & El).
  assert (Hl : ∀ j, j ∈ l ↔ 0 <= j < size ∧ slot_matches name methods j = true)
    by (intros j; rewrite El; apply elem_of_matches).
  destruct l as [|i [|j l]].
  - apply Hfail; [done|]. right. exists vtable, methods, size. split; [done|]. left. split; [done|]. intros j Hj.
    destruct (slot_matches name methods j) eqn:E; [|done]. exfalso. by apply (not_elem_of_nil j), Hl.
  - apply returns_ret. split; [done|]. assert (Hi : i ∈ [i]) by (by left). apply Hl in Hi as [Hi1 Hi2].
    split; [unfold is_u32; lia|]. exists vtable, methods, size. split; [done|]. intros j.
    rewrite <- Hl. apply list_elem_of_singleton.
  - apply Hfail; [done|]. right. exists vtable, methods, size. split; [done|]. right. split; [done|].
    assert (Hij : i ≠ j).
    { assert (Hd' : NoDup (i :: j :: l)) by (rewrite El; apply NoDup_ListNoDup, List.NoDup_filter, NoDup_ListNoDup, NoDup_seqZ).
      apply NoDup_cons in Hd' as [Hnot _]. intros ->. apply Hnot. by left. }
    destruct (proj1 (Hl i) ltac:(by left)) as [Hi1 Hi2].
    destruct (proj1 (Hl j) ltac:(by right; left)) as [Hj1 Hj2]. by exists i, j.
Qed.
End Names.
End Reads.
