(* ===== verification/SwiftSpec.v ===== *)
(** * Swift slots: one slot in two phases

    What a prepared plan says of the class and of its slot, what a commit does to
    memory, and the public hook as the two together. *)

From stdpp Require Import base list strings numbers option sets list_numbers sorting.
From S2P Require Import Prelude Types Memory Faults Arm64 Device NativeMemory PointerAuth RebindEngine RebindCommit Swift SwiftSafety.

Section Slots.
Context {K : Type} (vm : vm_calls K) (laws : vm_laws vm) (page_size k : Z).
Context (Hpage : page_size = 2 ^ k) (Hk : 0 <= k < 64) (mapped : Z → bool).
Context {Pac : PacOps} {plaws : PacLaws Pac}.
Context (d : device K) (Hd : regions_mapped vm mapped d).
Hypothesis Hbytes : ∀ a, 0 <= d_mem d a < 256.
Local Abbreviation metadata := (metadata mapped d).
Local Abbreviation reading := (reading mapped d).
Local Abbreviation swift_class := (swift_class mapped d).

(** A plan prepared for the slot [index] of [cls]: a supported class and method,
    and what the slot holds is signed for it. *)
Definition plan_sound (cls index : Z) (plan : hk_swift_slot_plan) : Prop :=
  ∃ vtable methods size flags, swift_class cls vtable methods size ∧ 0 <= index < size ∧
    read_u32 metadata (methods + index * HK_SWIFT_METHOD_DESC_SIZE) = Some flags ∧
    method_refused flags = false ∧
    sp_slot plan = vtable + index * 8 ∧ 0 < sp_slot plan < 2 ^ 64 ∧ readable metadata (sp_slot plan) 8 ∧
    read_u64 metadata (sp_slot plan) = Some (sp_original plan) ∧
    sp_discriminator plan = hk_pac_blend (sp_slot plan) (Z.shiftr flags HK_SWIFT_METHOD_EXTRA_SHIFT) ∧
    hk_sign_code (hk_pac_strip_code (sp_original plan)) (sp_discriminator plan) = sp_original plan ∧
    sp_prepared plan = true.

Definition prepare_errors : list Z :=
  resolve_errors ++ [HK_SWIFT_ERR_INVALID_INDEX; HK_SWIFT_ERR_PAC_MISMATCH].

Lemma resolve_prepare_errors code : code ∈ resolve_errors → code ∈ prepare_errors.
Proof. intros H. apply list_elem_of_In, List.in_or_app. left. by apply list_elem_of_In. Qed.

Lemma returns_prepare_slot cls index s :
  reading s → is_u64 cls → 0 <= index →
  returns (hk_swift_prepare_slot vm page_size mapped cls index) s (λ r s', reading s' ∧
    match r with
    | Some plan => plan_sound cls index plan
    | None => ss_errno s' ∈ prepare_errors
    end).
Proof.
  intros Hs Hcls Hi. unfold hk_swift_prepare_slot.
  assert (Hfail : ∀ code s, reading s → code ∈ prepare_errors →
    returns (fail (A := hk_swift_slot_plan) code) s (λ r s', reading s' ∧
      match r with Some plan => plan_sound cls index plan | None => ss_errno s' ∈ prepare_errors end)).
  { intros code s0 Hs0 Hc. eapply returns_fail; [done|]. intros s' Hs' ->. by split. }
  eapply returns_bind with (R := λ _ s', reading s'); [apply returns_lift; by apply reading_errno|].
  intros _ s1 Hs1. destruct (cls =? 0); [apply Hfail; [done|listed]|].
  eapply returns_bind; [by eapply (returns_resolve vm laws page_size k)|]. intros [[[vtable methods] size]|] s2 [Hs2 Hc];
    [|apply returns_ret; split; [done|by apply resolve_prepare_errors]].
  destruct (Z.leb_spec size index); [apply Hfail; [done|listed]|].
  pose proof (sk_methods _ _ _ _ _ _ Hc ltac:(lia)) as Hm.
  destruct (sk_slots _ _ _ _ _ _ Hc ltac:(lia)) as (Hr & Hv0 & Hv1). unfold HK_SWIFT_METHOD_DESC_SIZE in *.
  eapply returns_bind; [eapply (returns_load32 mapped d methods (size * 8) (index * 8) s2 Hs2 Hm); lia|].
  intros flags s3 (-> & _ & Eflags). destruct (method_refused flags) eqn:Eref; [apply Hfail; [done|listed]|].
  cbv zeta. set (slot := vtable + index * 8).
  eapply returns_bind; [eapply (returns_load64 mapped d vtable (size * 8) (index * 8) s2 Hs2 Hr); lia|].
  intros old s3 (-> & _ & Eold). fold slot in Eold.
  destruct (Z.eqb_spec (hk_sign_code (hk_pac_strip_code old) (hk_pac_blend slot (Z.shiftr flags HK_SWIFT_METHOD_EXTRA_SHIFT))) old)
    as [Eold'|]; cbn [negb]; [|apply Hfail; [done|listed]].
  apply returns_ret. split; [done|]. exists vtable, methods, size, flags. cbn.
  split_and!; [done|lia|lia|exact Eflags|done|done|subst slot; lia|subst slot; lia| |done|done|done|done].
  eapply readable_sub; [exact Hr|subst slot; lia..].
Qed.

(** What a commit does to memory: the slot's eight bytes, or nothing. *)
Definition slot_committed (plan plan' : hk_swift_slot_plan) (replacement : Z) (original : option Z)
    (s' : swift_state K) : Prop :=
  state_memory s' =
    store (sp_slot plan)
      (pointer_bytes (hk_sign_code (hk_pac_strip_code replacement) (sp_discriminator plan))) (d_mem d) ∧
  sp_slot plan mod 8 = 0 ∧
  read_u64 metadata (sp_slot plan) = Some (sp_original plan) ∧
  original = Some (hk_sign_code (hk_pac_strip_code (sp_original plan)) 0) ∧
  sp_prepared plan' = false.

(** Nothing was written, or the store was tried and its outcome is not known. *)
Definition slot_refused (plan plan' : hk_swift_slot_plan) (original : option Z) (s' : swift_state K) : Prop :=
  ss_errno s' ∈ [HK_SWIFT_ERR_ARG; HK_SWIFT_ERR_UNREADABLE; HK_SWIFT_ERR_STALE; HK_SWIFT_ERR_WRITE] ∧
  (sp_prepared plan' = true → plan' = plan ∧ state_memory s' = d_mem d) ∧
  (ss_errno s' ≠ HK_SWIFT_ERR_WRITE → plan' = plan ∧ original = None ∧ state_memory s' = d_mem d).

Lemma returns_commit_slot plan replacement s :
  reading s → is_u64 (sp_slot plan) →
  returns (hk_swift_commit_slot vm page_size mapped plan replacement) s (λ r s',
    if r.1.1 then slot_committed plan r.1.2 replacement r.2 s' else slot_refused plan r.1.2 r.2 s').
Proof.
  intros Hs Hslot. unfold hk_swift_commit_slot.
  assert (Hfail : ∀ code s, reading s →
    code ∈ [HK_SWIFT_ERR_ARG; HK_SWIFT_ERR_UNREADABLE; HK_SWIFT_ERR_STALE; HK_SWIFT_ERR_WRITE] →
    returns (fbind (set_errno code) (λ _, fret (false, plan, None))) s (λ r s',
      if r.1.1 then slot_committed plan r.1.2 replacement r.2 s' else slot_refused plan r.1.2 r.2 s')).
  { intros code s0 [Hs0 _] Hc. eapply returns_bind with (R := λ _ s', s' = s0 <| ss_errno := code |>).
    - by apply returns_lift.
    - intros _ s' ->. apply returns_ret. split; [done|]. split; intros _; split_and!; try done; unfold state_memory;
        cbn; by rewrite Hs0. }
  eapply returns_bind with (R := λ _ s', reading s'); [apply returns_lift; by apply reading_errno|].
  intros _ s1 Hs1. destruct (_ || _ || _); [apply Hfail; [done|listed]|].
  eapply returns_bind; [by eapply (returns_range vm laws page_size k)|].
  intros [|] s2 (Hs2 & _ & Hr); cbn [negb]; [|apply Hfail; [done|listed]]. destruct (Hr eq_refl) as (Hread & _ & _).
  eapply returns_bind.
  { pose proof (returns_load64 mapped d (sp_slot plan) 8 0 s2 Hs2 Hread ltac:(lia) ltac:(lia)) as Hl.
    rewrite Z.add_0_r in Hl. exact Hl. }
  intros old s3 (-> & _ & Eold).
  destruct (Z.eqb_spec old (sp_original plan)) as [->|]; cbn [negb]; [|apply Hfail; [done|listed]]. cbv zeta.
  set (new := hk_sign_code _ (sp_discriminator plan)).
  eapply returns_bind with (R := λ m s', (m ≠ HK_MUTATION_NONE → sp_slot plan mod 8 = 0) ∧
    match m with
    | HK_MUTATION_NONE => state_memory s' = d_mem d
    | HK_MUTATION_COMPLETE => state_memory s' = store (sp_slot plan) (pointer_bytes new) (d_mem d)
    | HK_MUTATION_PARTIAL => False
    | HK_MUTATION_UNKNOWN => True
    end).
  { unfold on_native. apply returns_lift. unfold zoom, state_memory.
    pose proof (native_patch_pointer_spec vm page_size laws (sp_slot plan) new (ss_native s2)) as Hp.
    destruct (hk_native_patch_pointer _ _ _ _ _) as [m n']. cbn.
    rewrite <- (rd_device _ _ _ Hs2). exact Hp. }
  intros m s3 [Hal Hm].
  destruct m; try done; cbn.
  - eapply returns_bind with (R := λ _ s', state_memory s' = d_mem d ∧ ss_errno s' = HK_SWIFT_ERR_WRITE);
      [by apply returns_lift|].
    intros _ s4 [Hm4 He4]. apply returns_ret. split; cbn; [rewrite He4; listed|]. by split.
  - apply returns_ret. cbn. split_and!; [done|by apply Hal|done..].
  - eapply returns_bind with (R := λ _ s', ss_errno s' = HK_SWIFT_ERR_WRITE); [by apply returns_lift|].
    intros _ s4 He4. apply returns_ret. split; cbn; [rewrite He4; listed|]. by split.
Qed.

(** ** The public hook *)

Context (symbol_at : Z → option string) (hk_swift_demangle : option (string → option string)).
Context (hk_swift_supported : bool) (objc_getClass : string → Z).
Local Abbreviation slot_found := (slot_found mapped d symbol_at hk_swift_demangle).
Local Abbreviation target_class := (target_class objc_getClass).

(** The slot a target asks for. *)
Definition slot_chosen (target : hk_swift_target) (index : Z) : Prop :=
  match st_name_kind target with
  | HK_SWIFT_NAME_SLOT_INDEX => index = st_slot_index target
  | _ => ∃ name, st_method_name target = Some name ∧ slot_found (target_class target) name index
  end.

(** A target whose fields fit their types. *)
Definition target_typed (target : hk_swift_target) : Prop :=
  is_u64 (target_class target) ∧ is_u32 (st_slot_index target).

Lemma returns_target_index target s :
  reading s → target_typed target →
  returns (target_index vm page_size mapped symbol_at hk_swift_demangle (target_class target) target) s
    (λ r s', reading s' ∧ match r with Some i => 0 <= i ∧ slot_chosen target i | None => True end).
Proof.
  intros Hs [Hcls [Hi _]]. unfold target_index, slot_chosen.
  assert (Hname : returns match st_method_name target with
      | None | Some EmptyString => fret None
      | Some name => hk_swift_find_slot vm page_size mapped symbol_at hk_swift_demangle (target_class target) (Some name)
      end s (λ r s', reading s' ∧ match r with
        | Some i => 0 <= i ∧ ∃ name, st_method_name target = Some name ∧ slot_found (target_class target) name i
        | None => True end)).
  { destruct (st_method_name target) as [[|c name]|]; [by apply returns_ret| |by apply returns_ret].
    eapply returns_conseq; [by eapply (returns_find_slot vm laws page_size k)|].
    intros [i|] s' [Hs' H]; [|done]. destruct H as [[H _] Hf]. split; [done|]. split; [done|]. by eexists. }
  destruct (st_name_kind target); [exact Hname..|]. by apply returns_ret.
Qed.

(** What a prepared plan of a target is. *)
Definition plan_for (target : hk_swift_target) (plan : hk_swift_plan) : Prop :=
  sq_cls plan = target_class target ∧ ∃ index, slot_chosen target index ∧ plan_sound (sq_cls plan) index (sq_slot plan).

Lemma returns_prepare target s :
  reading s → (∀ t, target = Some t → target_typed t) →
  returns (hk_swift_prepare vm page_size mapped symbol_at hk_swift_demangle hk_swift_supported objc_getClass target) s
    (λ r s', reading s' ∧ match r with
      | (HK_STATUS_OK, Some plan) => ∃ t, target = Some t ∧ plan_for t plan
      | (HK_STATUS_OK, None) => False
      | (_, plan) => plan = None
      end).
Proof.
  intros Hs Ht. unfold hk_swift_prepare. destruct target as [t|]; [|by apply returns_ret].
  specialize (Ht t eq_refl). destruct (_ <? _); [by apply returns_ret|].
  destruct hk_swift_supported; cbn [negb]; [|by apply returns_ret]. cbv zeta.
  destruct (target_class t =? 0); [by apply returns_ret|].
  eapply returns_bind; [by apply returns_target_index|]. intros [i|] s1 [Hs1 Hi]; [|by apply returns_ret].
  destruct Hi as [Hi0 Hchosen].
  eapply returns_bind with (R := λ _ s', reading s').
  { apply returns_lift. unfold zoom. destruct (alloc (ss_heap s1)) as [b h]. by destruct Hs1; split. }
  intros [|] s2 Hs2; cbn [negb]; [|by apply returns_ret].
  eapply returns_bind; [by apply returns_prepare_slot; [|apply Ht|]|]. intros [plan|] s3 [Hs3 Hp]; apply returns_ret; split; try done.
  exists t. split; [done|]. split; [done|]. by exists i.
Qed.

(** Nothing is written, or the store was tried and its outcome is not known. *)
Definition hook_refused (original : option Z) (s' : swift_state K) : Prop :=
  (original = None ∧ state_memory s' = d_mem d) ∨ ss_errno s' = HK_SWIFT_ERR_WRITE.

Lemma plan_for_slot target plan : plan_for target plan → is_u64 (sp_slot (sq_slot plan)).
Proof.
  intros (_ & index & _ & vtable & methods & size & flags & _ & _ & _ & _ & _ & [H0 H1] & _). unfold is_u64. lia.
Qed.

Lemma returns_commit target plan replacement s :
  reading s → plan_for target plan → is_u64 replacement →
  returns (hk_swift_commit vm page_size mapped (Some plan) replacement) s (λ r s',
    let '(status, _, original) := r in
    match status with
    | HK_STATUS_OK => ∃ plan', slot_committed (sq_slot plan) plan' replacement original s' ∧
        hk_pac_strip_code (slot_value (state_memory s') (sp_slot (sq_slot plan))) = hk_pac_strip_code replacement
    | _ => hook_refused original s'
    end).
Proof.
  intros Hs Hp Hrep. unfold hk_swift_commit. destruct (replacement =? 0).
  { apply returns_ret. destruct Hs as [Hs _]. left. unfold state_memory. by rewrite Hs. }
  apply plan_for_slot in Hp as Hslot.
  eapply returns_bind; [by apply returns_commit_slot|]. intros [[ok plan'] original] s' H.
  apply returns_ret. cbn in *. destruct ok.
  - exists plan'. split; [exact H|]. destruct H as [-> _]. rewrite slot_value_store.
    + by apply (pac_strip_sign replacement HK_PAC_KEY_IA).
    + by apply pac_sign_range, pac_strip_range.
  - destruct H as (_ & _ & H). destruct (decide (ss_errno s' = HK_SWIFT_ERR_WRITE)); [by right|].
    left. by destruct (H ltac:(done)) as (_ & -> & ->).
Qed.

(** C29. Hooking a Swift method comes back for every target, class pointer and
    metadata: no read is made outside of what the kernel has called readable.
    An OK hook has written the eight bytes of one aligned slot of the vtable and
    nothing else: the slot of the method that the target chose, whose value was
    signed for it, with a pointer that leads to the replacement, the original
    made callable.  A refused one has written nothing, unless the store itself
    was tried and failed. *)
Theorem swift_hook_lifecycle target replacement s :
  reading s → (∀ t, target = Some t → target_typed t) → is_u64 replacement →
  returns (hk_swift_hook vm page_size mapped symbol_at hk_swift_demangle hk_swift_supported objc_getClass
    target replacement) s (λ r s', let '(status, original) := r in
    match status with
    | HK_STATUS_OK => ∃ t plan plan', target = Some t ∧ plan_for t plan ∧
        slot_committed (sq_slot plan) plan' replacement original s' ∧
        hk_pac_strip_code (slot_value (state_memory s') (sp_slot (sq_slot plan))) = hk_pac_strip_code replacement
    | _ => hook_refused original s'
    end).
Proof.
  intros Hs Ht Hrep. unfold hk_swift_hook.
  assert (Hunchanged : ∀ s', reading s' → hook_refused None s').
  { intros s' [Hs' _]. left. unfold state_memory. by rewrite Hs'. }
  destruct (_ || _); [by apply returns_ret, Hunchanged|].
  eapply returns_bind; [by apply returns_prepare|]. intros [status plan] s1 [Hs1 Hp].
  destruct status; cbn [fst snd]; try by apply returns_ret, Hunchanged.
  destruct plan as [plan|]; [|done]. destruct Hp as (t & -> & Hp).
  eapply returns_bind; [by apply (returns_commit t)|]. intros [[status plan'] original] s2 Hc. apply returns_ret. cbn in *.
  destruct status; try exact Hc. destruct Hc as (plan0 & Hc & Hread). exists t, plan, plan0. by split_and!.
Qed.

(** A search by name answers exactly when one non-async method of the class
    has the symbol: the slot it answers matches and no other does; when it
    refuses, the class is none it supports, no slot matches, or two different
    ones do.  It comes back for every class pointer and metadata, and writes
    nothing. *)
Theorem swift_find_slot_unique cls name s :
  reading s → is_u64 cls →
  returns (hk_swift_find_slot vm page_size mapped symbol_at hk_swift_demangle cls (Some name)) s
    (λ r s', state_memory s' = d_mem d ∧
      match r with
      | Some i => slot_found cls name i
      | None => slot_missing mapped d symbol_at hk_swift_demangle cls name (ss_errno s')
      end).
Proof.
  intros Hs Hcls. eapply returns_conseq; [by eapply (returns_find_slot vm laws page_size k)|].
  intros r s' [[Hs' _] Hr]. split; [unfold state_memory; by rewrite Hs'|]. by destruct r; [apply Hr|].
Qed.
End Slots.

(** ** A class *)

Local Abbreviation demo_mapped := (λ a, a <? 2 ^ 32).
(** A class with a vtable of two, over a build that signs pointers. *)
Definition demo_slot_value : Z := hk_sign_code (H := test_pac) 0x3000 (hk_pac_blend (PacOps := test_pac) 0x1080 7).
Definition demo_class_memory : Z → Z :=
  store 0x1020 (pointer_bytes 2) (store 0x1040 (pointer_bytes 0x2000) (store 0x1080 (pointer_bytes demo_slot_value)
  (store 0x2000 (bytes_of_words [2 ^ 31 + 16]) (store 0x202C (bytes_of_words [16; 2; 7 * 2 ^ 16 + 0x10; 0xFC8; 0x50; 0])
  (λ _, 0))))).
Definition demo_symbols (a : Z) : option string :=
  if a =? 0x3000 then Some "$s4demo1CC1fyyF"%string else None.
Definition demo_swift : swift_state unit :=
  SwiftState (Device demo_class_memory tt, None) (Heap (λ _, false) 0 1) 0.

Definition demo_find (name : string) : option (option Z * swift_state unit) :=
  hk_swift_find_slot (H := test_pac) demo_open_vm (2 ^ 2) demo_mapped demo_symbols None 0x1000 (Some name) demo_swift.
Definition demo_hook (name : string) : option (hk_status * option Z * swift_state unit) :=
  hk_swift_hook (H := test_pac) demo_open_vm (2 ^ 2) demo_mapped demo_symbols None true (λ _, 0)
    (Some (SwiftTarget SIZEOF_SWIFT_TARGET 0x1000 None HK_SWIFT_NAME_MANGLED_EXACT (Some name) 0 true
       HK_AVAILABILITY_REQUIRED_NOW)) 0x4000 demo_swift.

Example demo_found : (λ r, (r.1, ss_errno r.2)) <$> demo_find "_$s4demo1CC1fyyF" = Some (Some 0, 0).
Proof. vm_compute. reflexivity. Qed.
Example demo_not_found : (λ r, (r.1, ss_errno r.2)) <$> demo_find "$s4demo1CC1gyyF" = Some (None, HK_SWIFT_ERR_NOT_FOUND).
Proof. vm_compute. reflexivity. Qed.
Example demo_hooked : (λ r, (r.1.1, slot_value (state_memory r.2) 0x1080)) <$> demo_hook "$s4demo1CC1fyyF" =
  Some (HK_STATUS_OK, hk_sign_code (H := test_pac) 0x4000 (hk_pac_blend (PacOps := test_pac) 0x1080 7)).
Proof. vm_compute. reflexivity. Qed.

Lemma demo_bytes a : 0 <= demo_class_memory a < 256.
Proof.
  assert (Hstore : ∀ b l mem, Forall (λ v, 0 <= v < 256) l → (∀ x, 0 <= mem x < 256) → ∀ x, 0 <= store b l mem x < 256).
  { intros b l mem Hl Hm x. unfold store. destruct (_ <=? _); [|done].
    destruct (l !! _) as [v|] eqn:E; [|apply Hm]. eapply Forall_lookup_1 in E; [exact E|exact Hl]. }
  unfold demo_class_memory.
  repeat (apply Hstore; [apply (bool_decide_unpack (Forall _ _)); vm_compute; exact I|]). done.
Qed.

Lemma demo_regions : regions_mapped demo_open_vm demo_mapped (Device demo_class_memory tt).
Proof.
  intros q r Hq _ x Hx. apply Z.ltb_lt. cbn in Hq. destruct (Z.ltb_spec q (2 ^ 32)); [|done].
  injection Hq as <-. cbn in Hx. lia.
Qed.

Lemma demo_reading : reading demo_mapped (Device demo_class_memory tt) demo_swift.
Proof. by split. Qed.

Lemma swift_find_slot_unique_witness :
  returns (λ _, demo_find "$s4demo1CC1fyyF") demo_swift (λ r s', state_memory s' = demo_class_memory ∧ r = Some 0 ∧
    slot_found (Pac := test_pac) demo_mapped (Device demo_class_memory tt) demo_symbols None 0x1000 "$s4demo1CC1fyyF" 0).
Proof.
  pose proof (swift_find_slot_unique (Pac := test_pac) demo_open_vm demo_open_vm_laws (2 ^ 2) 2 eq_refl ltac:(lia)
    demo_mapped (Device demo_class_memory tt) demo_regions demo_bytes demo_symbols None 0x1000 "$s4demo1CC1fyyF"
    demo_swift demo_reading ltac:(split; lia)) as H.
  assert (E : fst <$> demo_find "$s4demo1CC1fyyF" = Some (Some 0)) by (vm_compute; reflexivity).
  unfold demo_find in E |- *. unfold returns in *. destruct (hk_swift_find_slot _ _ _ _ _ _ _ _) as [[r s']|]; [|done].
  cbn in E, H |- *. injection E as ->. destruct H as [H1 H2]. by split_and!.
Defined.

Lemma swift_hook_lifecycle_witness :
  returns (λ _, demo_hook "$s4demo1CC1fyyF") demo_swift (λ r s', r.1 = HK_STATUS_OK ∧
    ∃ slot, hk_pac_strip_code (H := test_pac) (slot_value (state_memory s') slot) = 0x4000).
Proof.
  pose proof (swift_hook_lifecycle (Pac := test_pac) demo_open_vm demo_open_vm_laws (2 ^ 2) 2 eq_refl ltac:(lia)
    demo_mapped (Device demo_class_memory tt) demo_regions demo_bytes demo_symbols None true (λ _, 0)
    (Some (SwiftTarget SIZEOF_SWIFT_TARGET 0x1000 None HK_SWIFT_NAME_MANGLED_EXACT (Some "$s4demo1CC1fyyF"%string) 0 true
       HK_AVAILABILITY_REQUIRED_NOW)) 0x4000 demo_swift demo_reading) as H.
  assert (E : fst ∘ fst <$> demo_hook "$s4demo1CC1fyyF" = Some HK_STATUS_OK) by (vm_compute; reflexivity).
  unfold demo_hook in E |- *. unfold returns in *. destruct (hk_swift_hook _ _ _ _ _ _ _ _ _ _) as [[[st o] s']|]; [|done].
  cbn in E, H |- *. injection E as ->.
  destruct H as (t & plan & plan' & _ & _ & _ & Hread); [intros t [= <-]; repeat split; cbn; lia|split; lia|].
  split; [done|]. by exists (sp_slot (sq_slot plan)).
Defined.
