(* ===== verification/DyldCache.v ===== *)
(** * Uses of a symbol in the dyld shared cache
    (src/resolvers/HKDyldCachePatches.c)

    The patch table of the cache, in its four versions, lists the slots that
    were bound to every export.  One symbol's slots are found by scanning the
    table, by replaying what an earlier scan of the same preparation matched,
    or through an index over all names that lives as long as the process.

    The visitor's answer is ignored by the code and it mutates nothing of what
    is read here, so the visits are the list of the sites, in order. *)

From stdpp Require Import base list strings numbers option sorting.
From S2P Require Import Prelude Types Ownership Memory SymbolTable SymbolResolve MachO ImportSlots ChainedFixups PointerAuth RebindEngine.

Inductive hk_cache_patch_status : Type :=
  | HK_CACHE_PATCH_OK | HK_CACHE_PATCH_NOT_CACHE | HK_CACHE_PATCH_NO_METADATA
  | HK_CACHE_PATCH_NOT_FOUND | HK_CACHE_PATCH_INVALID_ARGUMENT | HK_CACHE_PATCH_MALFORMED
  | HK_CACHE_PATCH_UNSUPPORTED | HK_CACHE_PATCH_SCOPE_UNREPRESENTABLE.

#[export] Instance hk_cache_patch_status_eq_dec : EqDecision hk_cache_patch_status.
Proof. solve_decision. Defined.

Record hk_cache_patch_target : Type := CachePatchTarget {
  ct_cache_base : Z;
  ct_cache_size : Z;
  ct_image_header : Z;
  ct_image_header_size : Z;
  ct_image_slide : Z;
  ct_image_path : option string;
  ct_uuid : option (list Z);
  ct_include_shared_got : bool;
  ct_immutable_metadata : bool }.

Definition DCH_MAPPING_OFFSET : Z := 16.
Definition DCH_MAPPING_COUNT : Z := 20.
Definition DCH_IMAGES_OFFSET_OLD : Z := 24.
Definition DCH_IMAGES_COUNT_OLD : Z := 28.
Definition DCH_PATCH_INFO_ADDR : Z := 152.
Definition DCH_PATCH_INFO_SIZE : Z := 160.
Definition DCH_FORMAT_FLAGS : Z := 220.
Definition DCH_SWIFT_OPTS_SIZE : Z := 384.
Definition DCH_IMAGES_OFFSET : Z := 448.
Definition DCH_IMAGES_COUNT : Z := 452.
Definition DCH_IMAGE_INFO_SIZE : Z := 32.
Definition DCH_MAPPING_INFO_SIZE : Z := 32.
Definition DCH_TEXT_INFO_SIZE : Z := 32.
Definition DCH_IMAGES_TEXT_OFFSET : Z := 136.
Definition DCH_IMAGES_TEXT_COUNT : Z := 144.

Definition CACHE_IMAGE_PATCH_V1_SIZE : Z := 8.
Definition CACHE_EXPORT_V1_SIZE : Z := 16.
Definition CACHE_LOCATION_V1_SIZE : Z := 16.
Definition CACHE_IMAGE_PATCH_V2_SIZE : Z := 16.
Definition CACHE_IMAGE_EXPORT_V2_SIZE : Z := 8.
Definition CACHE_CLIENT_V2_SIZE : Z := 12.
Definition CACHE_CLIENT_EXPORT_V2_SIZE : Z := 12.
Definition CACHE_LOCATION_V2_SIZE : Z := 8.
Definition CACHE_GOT_CLIENT_V3_SIZE : Z := 8.
Definition CACHE_GOT_EXPORT_V3_SIZE : Z := 12.
Definition CACHE_GOT_LOCATION_V3_SIZE : Z := 16.
Definition CACHE_GOT_LOCATION_V4_SIZE : Z := 16.

(** The address [offset] bytes in, where [count] elements fit. *)
Definition range_at (base size offset count stride : Z) : option Z :=
  if (size <? offset) || (UINT64_MAX / stride <? count) then None
  else if size - offset <? count * stride then None
  else Some (base + offset).

Record cache_view : Type := CacheView {
  cv_base : Z;
  cv_size : Z;
  cv_unslid_base : Z;
  cv_patch : Z;
  cv_patch_size : Z }.

(** [cache_view_equal] *)
#[export] Instance cache_view_eq_dec : EqDecision cache_view.
Proof. solve_decision. Defined.

(** An array of the patch table, by its unslid address. *)
Definition patch_array (view : cache_view) (address count stride : Z) : option Z :=
  if (address <? cv_unslid_base view) || (cv_size view <? address - cv_unslid_base view) then None
  else
    start ← range_at (cv_base view) (cv_size view) (address - cv_unslid_base view) count stride;
    if (start <? cv_patch view) || (cv_patch_size view <? start - cv_patch view) ||
       (cv_patch_size view - (start - cv_patch view) <? count * stride)
    then None
    else Some start.

Definition schema_v1_v3 (bits : Z) : hk_pac_schema :=
  PacSchema (negb (Z.land (Z.shiftr bits 12) 1 =? 0)) (Z.land (Z.shiftr bits 14) 3)
    (Z.shiftr bits 16) (negb (Z.land (Z.shiftr bits 13) 1 =? 0)).
Definition addend_v1_v3 (bits : Z) : Z := Z.land (Z.shiftr bits 7) 0x1F.

Definition schema_v4 (bits : Z) : hk_pac_schema :=
  if Z.land bits 1 =? 0 then PacSchema false 0 0 false
  else PacSchema true
         (if Z.land (Z.shiftr bits 15) 1 =? 0 then HK_PAC_KEY_IA else HK_PAC_KEY_DA)
         (Z.shiftr bits 16) (negb (Z.land (Z.shiftr bits 14) 1 =? 0)).
Definition addend_v4 (bits : Z) : Z :=
  if Z.land bits 1 =? 0 then Z.shiftr bits 9 else Z.land (Z.shiftr bits 9) 0x1F.
Definition weak_v4 (bits : Z) : bool := negb (Z.land (Z.shiftr bits 8) 1 =? 0).

(** ** Visits *)

(** The sites visited, and how it ended. *)
Abbreviation emits := (option (list hk_cache_patch_site * hk_cache_patch_status)).

Definition emit_end (status : hk_cache_patch_status) : emits := Some ([], status).
Definition emit_ok : emits := emit_end HK_CACHE_PATCH_OK.
Definition emit_malformed : emits := emit_end HK_CACHE_PATCH_MALFORMED.

Definition emit_then (m k : emits) : emits :=
  '(l, status) ← m;
  if bool_decide (status = HK_CACHE_PATCH_OK)
  then '(l', status) ← k; Some (l ++ l', status)
  else Some (l, status).

(** A loop from [i], [count] rounds of it left. *)
Fixpoint emit_loop (count : nat) (i : Z) (body : Z → emits) : emits :=
  match count with
  | O => emit_ok
  | S count => emit_then (body i) (emit_loop count (i + 1) body)
  end.

Section Code.
Context (mem : memory).

Definition writable_segment_contains (address slide : Z) (found : bool) (_ : Z)
    (s : hk_macho_segment) : visited bool :=
  if (Z.land (sg_initprot s) 2 =? 0) || (sg_vmsize s =? 0) then Some (true, found)
  else
    let start := u64 (sg_vmaddr s + slide) in
    if 2 ^ 64 - 1 - start <? sg_vmsize s then Some (true, found)
    else if (start <=? address) && (address <? start + sg_vmsize s) then Some (false, true)
    else Some (true, found).

Definition belongs_to_importer (target : hk_cache_patch_target) (address : Z) : option bool :=
  '(status, found) ← hk_macho_iterate_segments mem
                       (writable_segment_contains address (ct_image_slide target))
                       (ct_image_header target) (ct_image_header_size target) false;
  Some (bool_decide (status = HK_MACHO_OK) && found).

Section Target.
Context (target : hk_cache_patch_target) (view : cache_view).

Definition emit_location (offset bits : Z) (v4 shared_got : bool) : emits :=
  if cv_size view - 8 <? offset then emit_malformed
  else
    let address := u64 (cv_base view + offset) in
    let site := CachePatchSite address (if v4 then schema_v4 bits else schema_v1_v3 bits)
                  (if v4 then addend_v4 bits else addend_v1_v3 bits) (v4 && weak_v4 bits) in
    if shared_got then Some ([site], HK_CACHE_PATCH_OK)
    else
      belongs ← belongs_to_importer target address;
      if belongs : bool then Some ([site], HK_CACHE_PATCH_OK) else emit_malformed.

(** ** Version 1 *)

Section V1.
Context (candidates : list (list Z)).
Context (images exports locations names : Z) (export_count location_count names_size : Z).

Definition v1_location (loc_first k : Z) : emits :=
  let loc := locations + u32 (loc_first + k) * CACHE_LOCATION_V1_SIZE in
  offset ← read_u32 mem loc;
  belongs ← belongs_to_importer target (u64 (cv_base view + offset));
  if negb belongs then emit_ok
  else bits ← read_u32 mem (loc + 8); emit_location offset bits false false.

Definition v1_export (first j : Z) : emits :=
  let export := exports + u32 (first + j) * CACHE_EXPORT_V1_SIZE in
  name_offset ← read_u32 mem (export + 12);
  name ← bounded_string mem names names_size name_offset;
  match name with
  | None => emit_malformed
  | Some name =>
      same ← matches_any mem name candidates;
      if negb same then emit_ok
      else
        loc_first ← read_u32 mem (export + 4); loc_count ← read_u32 mem (export + 8);
        if location_count <? loc_first + loc_count then emit_malformed
        else emit_loop (Z.to_nat loc_count) 0 (v1_location loc_first)
  end.

Definition v1_image (i : Z) : emits :=
  let image := images + i * CACHE_IMAGE_PATCH_V1_SIZE in
  first ← read_u32 mem image; count ← read_u32 mem (image + 4);
  if export_count <? first + count then emit_malformed
  else emit_loop (Z.to_nat count) 0 (v1_export first).
End V1.

Definition parse_v1 (candidates : list (list Z)) : emits :=
  if cv_patch_size view <? 64 then emit_malformed
  else
    let p := cv_patch view in
    image_count ← read_u64 mem (p + 8); export_count ← read_u64 mem (p + 24);
    location_count ← read_u64 mem (p + 40); names_size ← read_u64 mem (p + 56);
    images_at ← read_u64 mem p; exports_at ← read_u64 mem (p + 16);
    locations_at ← read_u64 mem (p + 32); names_at ← read_u64 mem (p + 48);
    match patch_array view images_at image_count CACHE_IMAGE_PATCH_V1_SIZE,
          patch_array view exports_at export_count CACHE_EXPORT_V1_SIZE,
          patch_array view locations_at location_count CACHE_LOCATION_V1_SIZE,
          patch_array view names_at names_size 1 with
    | Some images, Some exports, Some locations, Some names =>
        emit_loop (Z.to_nat image_count) 0
          (v1_image candidates images exports locations names export_count location_count names_size)
    | _, _, _, _ => emit_malformed
    end.

(** ** Versions 2 to 4 *)

Record table_v2 : Type := TableV2 {
  tb_images : Z; tb_image_count : Z;
  tb_image_exports : Z; tb_image_export_count : Z;
  tb_clients : Z; tb_client_count : Z;
  tb_client_exports : Z; tb_client_export_count : Z;
  tb_locations : Z; tb_location_count : Z;
  tb_names : Z; tb_names_size : Z;
  tb_got_clients : Z; tb_got_client_count : Z;
  tb_got_exports : Z; tb_got_export_count : Z;
  tb_got_locations : Z; tb_got_location_count : Z }.

(** [LOAD_PAIR]: the array and its count, [inl] where it does not fit. *)
Definition load_pair (off stride : Z) : checked unit (Z * Z) :=
  count ← read_u64 mem (cv_patch view + (off + 8));
  address ← read_u64 mem (cv_patch view + off);
  match patch_array view address count stride with
  | None => refuse tt
  | Some start => accept (start, count)
  end.

Definition load_v2 (version : Z) : checked unit table_v2 :=
  if cv_patch_size view <? (if 3 <=? version then 152 else 104) then refuse tt
  else
    flags ← read_u32 mem (cv_patch view + 4);
    if negb (flags =? 0) then refuse tt
    else
      images <~ load_pair 8 CACHE_IMAGE_PATCH_V2_SIZE ;;
      exports <~ load_pair 24 CACHE_IMAGE_EXPORT_V2_SIZE ;;
      clients <~ load_pair 40 CACHE_CLIENT_V2_SIZE ;;
      client_exports <~ load_pair 56 CACHE_CLIENT_EXPORT_V2_SIZE ;;
      locations <~ load_pair 72 CACHE_LOCATION_V2_SIZE ;;
      names <~ load_pair 88 1 ;;
      let table := TableV2 images.1 images.2 exports.1 exports.2 clients.1 clients.2
        client_exports.1 client_exports.2 locations.1 locations.2 names.1 names.2 in
      if 3 <=? version then
        got_clients <~ load_pair 104 CACHE_GOT_CLIENT_V3_SIZE ;;
        got_exports <~ load_pair 120 CACHE_GOT_EXPORT_V3_SIZE ;;
        got_locations <~ load_pair 136
          (if version =? 4 then CACHE_GOT_LOCATION_V4_SIZE else CACHE_GOT_LOCATION_V3_SIZE) ;;
        accept (table got_clients.1 got_clients.2 got_exports.1 got_exports.2
                  got_locations.1 got_locations.2)
      else accept (table 0 0 0 0 0 0).

Section Table.
Context (table : table_v2) (version importer_index : Z).

Definition client_location (first i : Z) : emits :=
  let loc := tb_locations table + u32 (first + i) * CACHE_LOCATION_V2_SIZE in
  offset ← read_u32 mem loc;
  let image_offset := u64 (ct_image_header target - cv_base view) in
  if (cv_size view <? image_offset) || (cv_size view - image_offset <? offset) then emit_malformed
  else
    bits ← read_u32 mem (loc + 4);
    emit_location (image_offset + offset) bits (version =? 4) false.

Definition emit_client_export (global_export client_export : Z) : emits :=
  export ← read_u32 mem client_export;
  if negb (export =? global_export) then emit_ok
  else
    first ← read_u32 mem (client_export + 4); count ← read_u32 mem (client_export + 8);
    if tb_location_count table <? first + count then emit_malformed
    else emit_loop (Z.to_nat count) 0 (client_location first).

Definition got_location (first i : Z) : emits :=
  let stride := if version =? 4 then CACHE_GOT_LOCATION_V4_SIZE else CACHE_GOT_LOCATION_V3_SIZE in
  let loc := tb_got_locations table + u32 (first + i) * stride in
  offset ← read_u64 mem loc; bits ← read_u32 mem (loc + 8);
  emit_location offset bits (version =? 4) true.

Definition emit_got_export (global_export got_export : Z) : emits :=
  export ← read_u32 mem got_export;
  if negb (export =? global_export) then emit_ok
  else
    first ← read_u32 mem (got_export + 4); count ← read_u32 mem (got_export + 8);
    if tb_got_location_count table <? first + count then emit_malformed
    else if negb (count =? 0) && negb (ct_include_shared_got target)
    then emit_end HK_CACHE_PATCH_SCOPE_UNREPRESENTABLE
    else emit_loop (Z.to_nat count) 0 (got_location first).

Definition emit_client (global_export client_first c : Z) : emits :=
  let client := tb_clients table + u32 (client_first + c) * CACHE_CLIENT_V2_SIZE in
  ce_first ← read_u32 mem (client + 4); ce_count ← read_u32 mem (client + 8);
  if tb_client_export_count table <? ce_first + ce_count then emit_malformed
  else
    index ← read_u32 mem client;
    if negb (index =? importer_index) then emit_ok
    else emit_loop (Z.to_nat ce_count) 0 (λ ce,
      emit_client_export global_export
        (tb_client_exports table + u32 (ce_first + ce) * CACHE_CLIENT_EXPORT_V2_SIZE)).

Definition emit_export_uses (def global_export : Z) : emits :=
  let image := tb_images table + def * CACHE_IMAGE_PATCH_V2_SIZE in
  client_first ← read_u32 mem image; client_count ← read_u32 mem (image + 4);
  if tb_client_count table <? client_first + client_count then emit_malformed
  else
    emit_then (emit_loop (Z.to_nat client_count) 0 (emit_client global_export client_first))
      (if version <? 3 then emit_ok
       else
         let got_client := tb_got_clients table + def * CACHE_GOT_CLIENT_V3_SIZE in
         ge_first ← read_u32 mem got_client; ge_count ← read_u32 mem (got_client + 4);
         if tb_got_export_count table <? ge_first + ge_count then emit_malformed
         else emit_loop (Z.to_nat ge_count) 0 (λ ge,
           emit_got_export global_export
             (tb_got_exports table + u32 (ge_first + ge) * CACHE_GOT_EXPORT_V3_SIZE))).

(** An export that has matched. *)
Definition emit_matched (def global_export : Z) : emits :=
  name_and_kind ← read_u32 mem (tb_image_exports table + global_export * CACHE_IMAGE_EXPORT_V2_SIZE + 4);
  if negb (Z.shiftr name_and_kind 28 =? 0) then emit_end HK_CACHE_PATCH_UNSUPPORTED
  else emit_export_uses def global_export.

(** The name of an export; [inl] where it does not end inside the pool. *)
Definition export_name (global_export : Z) : checked unit Z :=
  name_and_kind ← read_u32 mem (tb_image_exports table + global_export * CACHE_IMAGE_EXPORT_V2_SIZE + 4);
  name ← bounded_string mem (tb_names table) (tb_names_size table) (Z.land name_and_kind 0x0FFFFFFF);
  match name with None => refuse tt | Some name => accept name end.

(** The export range of a definition's row, [inl] where the row is bad. *)
Definition image_row (def : Z) : checked unit (Z * Z) :=
  let image := tb_images table + def * CACHE_IMAGE_PATCH_V2_SIZE in
  client_first ← read_u32 mem image; client_count ← read_u32 mem (image + 4);
  export_first ← read_u32 mem (image + 8); export_count ← read_u32 mem (image + 12);
  if (tb_client_count table <? client_first + client_count) ||
     (tb_image_export_count table <? export_first + export_count)
  then refuse tt
  else accept (export_first, export_count).

(** *** The direct scan

    Beside the sites, the exports that matched. *)

Definition matched : Type := list (Z * Z).

Definition scanned : Type := option (list hk_cache_patch_site * matched * hk_cache_patch_status).

Definition scan_then (m k : scanned) : scanned :=
  '(l, found, status) ← m;
  if bool_decide (status = HK_CACHE_PATCH_OK)
  then '(l', found', status) ← k; Some (l ++ l', found ++ found', status)
  else Some (l, found, status).

Fixpoint scan_loop (count : nat) (i : Z) (body : Z → scanned) : scanned :=
  match count with
  | O => Some ([], [], HK_CACHE_PATCH_OK)
  | S count => scan_then (body i) (scan_loop count (i + 1) body)
  end.

Definition scan_export (candidates : list (list Z)) (def export_first e : Z) : scanned :=
  let global_export := u32 (export_first + e) in
  name ← export_name global_export;
  match name with
  | inl _ => Some ([], [], HK_CACHE_PATCH_MALFORMED)
  | inr name =>
      same ← matches_any mem name candidates;
      if negb same then Some ([], [], HK_CACHE_PATCH_OK)
      else '(l, status) ← emit_matched def global_export; Some (l, [(def, global_export)], status)
  end.

Definition scan_definition (candidates : list (list Z)) (def : Z) : scanned :=
  row ← image_row def;
  match row with
  | inl _ => Some ([], [], HK_CACHE_PATCH_MALFORMED)
  | inr (export_first, export_count) =>
      scan_loop (Z.to_nat export_count) 0 (scan_export candidates def export_first)
  end.

Definition direct_scan (candidates : list (list Z)) : scanned :=
  scan_loop (Z.to_nat (tb_image_count table)) 0 (scan_definition candidates).

(** *** The replay of a completed scan

    The loop over the definitions jumps to those that matched, and the loop
    over a definition's exports to its matches. *)

(** The inner loop from [e]: the matches left are returned with the visits. *)
Fixpoint replay_exports (fuel : nat) (def export_first export_count e : Z) (found : matched)
    : option (list hk_cache_patch_site * matched * hk_cache_patch_status) :=
  match fuel with
  | O => None
  | S fuel =>
      if negb (e <? export_count) then Some ([], found, HK_CACHE_PATCH_OK)
      else
        match found with
        | (image, export_index) :: rest =>
            if negb (image =? def) then Some ([], found, HK_CACHE_PATCH_OK)
            else
              let e := u32 (export_index - export_first) in
              '(l, status) ← emit_matched def (u32 (export_first + e));
              if bool_decide (status = HK_CACHE_PATCH_OK)
              then
                '(l', left_, status) ← replay_exports fuel def export_first export_count
                                         (u32 (e + 1)) rest;
                Some (l ++ l', left_, status)
              else Some (l, rest, status)
        | [] => Some ([], [], HK_CACHE_PATCH_OK)
        end
  end.

(** The outer loop at [def]; every round but the last uses up a match. *)
Fixpoint replay_definitions (fuel : nat) (def : Z) (found : matched) : emits :=
  match fuel with
  | O => None
  | S fuel =>
      if negb (def <? tb_image_count table) then emit_ok
      else
        match found with
        | [] => emit_ok
        | (image, _) :: _ =>
            row ← image_row image;
            match row with
            | inl _ => emit_malformed
            | inr (export_first, export_count) =>
                '(l, left_, status) ← replay_exports (S (length found)) image export_first
                                        export_count 0 found;
                if bool_decide (status = HK_CACHE_PATCH_OK)
                then '(l', status) ← replay_definitions fuel (image + 1) left_; Some (l ++ l', status)
                else Some (l, status)
            end
        end
  end.

(** ** The index *)

(** [ix_name] is the string the borrowed name points to. *)
Record cache_index_entry : Type := IndexEntry {
  ix_name : list Z;
  ix_defining_image : Z;
  ix_export_index : Z }.

(** [strcmp] on strings without NUL. *)
Fixpoint strcmp (a b : list Z) : comparison :=
  match a, b with
  | [], [] => Eq
  | [], _ => Lt
  | _, [] => Gt
  | x :: a, y :: b => match Z.compare x y with Eq => strcmp a b | c => c end
  end.

Definition cache_index_entry_less (a b : cache_index_entry) : bool :=
  if negb (ix_defining_image a =? ix_defining_image b)
  then ix_defining_image a <? ix_defining_image b
  else ix_export_index a <? ix_export_index b.

(** [cache_index_entry_compare(a, b) <= 0] *)
Definition index_entry_le (a b : cache_index_entry) : bool :=
  match strcmp (ix_name a) (ix_name b) with
  | Lt => true
  | Gt => false
  | Eq =>
      if negb (ix_defining_image a =? ix_defining_image b)
      then ix_defining_image a <? ix_defining_image b
      else ix_export_index a <=? ix_export_index b
  end.

(** The C string at an address that a NUL ends within [fuel] bytes. *)
Fixpoint string_at (fuel : nat) (a : Z) : option (list Z) :=
  match fuel with
  | O => None
  | S fuel =>
      c ← read_u8 mem a;
      if c =? 0 then Some [] else rest ← string_at fuel (a + 1); Some (c :: rest)
  end.

(** The entries of one row, from export [e], [count] left. *)
Fixpoint index_row (count : nat) (def export_first e : Z) : checked unit (list cache_index_entry) :=
  match count with
  | O => accept []
  | S count =>
      let global_export := u32 (export_first + e) in
      name <~ export_name global_export ;;
      s ← string_at (Z.to_nat (tb_names table + tb_names_size table - name)) name;
      rest <~ index_row count def export_first (e + 1) ;;
      accept (IndexEntry s (u32 def) global_export :: rest)
  end.

Fixpoint index_rows (count : nat) (def : Z) : checked unit (list cache_index_entry) :=
  match count with
  | O => accept []
  | S count =>
      row <~ image_row def ;;
      entries <~ index_row (Z.to_nat row.2) def row.1 0 ;;
      rest <~ index_rows count (def + 1) ;;
      accept (entries ++ rest)
  end.

(** The first pass: the rows are good, and how many entries they ask for. *)
Fixpoint index_capacity (count : nat) (def capacity : Z) : checked unit Z :=
  match count with
  | O => accept capacity
  | S count =>
      row <~ image_row def ;;
      if SIZE_MAX - row.2 <? capacity then refuse tt
      else index_capacity count (def + 1) (capacity + row.2)
  end.

Definition SIZEOF_INDEX_ENTRY : Z := 16.

End Table.

(** [inl] is [false]; the entries take one allocation. *)
Definition cache_index_build (version : Z) (h : heap)
    : option ((unit + list cache_index_entry) * heap) :=
  loaded ← load_v2 version;
  match loaded with
  | inl _ => Some (inl tt, h)
  | inr table =>
      if (tb_image_count table =? 0) || (2 ^ 32 - 1 <? tb_image_count table) ||
         ((3 <=? version) && negb (tb_got_client_count table =? tb_image_count table)) ||
         (2 ^ 32 - 1 <? tb_image_export_count table)
      then Some (inl tt, h)
      else
        capacity ← index_capacity table (Z.to_nat (tb_image_count table)) 0 0;
        match capacity with
        | inl _ => Some (inl tt, h)
        | inr capacity =>
            if SIZE_MAX / SIZEOF_INDEX_ENTRY <? capacity then Some (inl tt, h)
            else
              let '(ok, h) := if capacity =? 0 then (true, h) else alloc h in
              if negb ok then Some (inl tt, h)
              else
                entries ← index_rows table (Z.to_nat (tb_image_count table)) 0;
                match entries with
                | inl _ => Some (inl tt, h)
                | inr entries => Some (inr (merge_sort index_entry_le entries), h)
                end
        end
  end.

(** The binary search, over [low, high). *)
Fixpoint lower_bound_loop (fuel : nat) (index : list cache_index_entry) (name : list Z)
    (low high : nat) : nat :=
  match fuel with
  | O => low
  | S fuel =>
      if (low <? high)%nat then
        let mid := (low + (high - low) / 2)%nat in
        match index !! mid with
        | Some e =>
            match strcmp (ix_name e) name with
            | Lt => lower_bound_loop fuel index name (S mid) high
            | _ => lower_bound_loop fuel index name low mid
            end
        | None => low
        end
      else low
  end.

Definition cache_index_lower_bound (index : list cache_index_entry) (name : list Z) : nat :=
  lower_bound_loop (S (length index)) index name 0 (length index).

(** A candidate's run: the entries from its lower bound on that have the name. *)
Fixpoint name_run (name : list Z) (entries : list cache_index_entry) : list cache_index_entry :=
  match entries with
  | e :: entries =>
      if bool_decide (strcmp (ix_name e) name = Eq) then e :: name_run name entries else []
  | [] => []
  end.

Definition candidate_run (index : list cache_index_entry) (name : list Z)
    : list cache_index_entry :=
  name_run name (drop (cache_index_lower_bound index name) index).

(** The merge: the candidate whose next entry comes first, the earlier
    candidate where neither does. *)
Fixpoint pick_from (i : nat) (pick : option (nat * cache_index_entry))
    (runs : list (list cache_index_entry)) : option nat :=
  match runs with
  | [] => fst <$> pick
  | [] :: runs => pick_from (S i) pick runs
  | (e :: _) :: runs =>
      match pick with
      | None => pick_from (S i) (Some (i, e)) runs
      | Some (_, best) =>
          if cache_index_entry_less e best then pick_from (S i) (Some (i, e)) runs
          else pick_from (S i) pick runs
      end
  end.

Definition pick_run (runs : list (list cache_index_entry)) : option nat := pick_from 0 None runs.

Fixpoint merge_runs (fuel : nat) (runs : list (list cache_index_entry)) : list cache_index_entry :=
  match fuel with
  | O => []
  | S fuel =>
      match pick_run runs with
      | None => []
      | Some i =>
          match runs !! i with
          | Some (e :: rest) => e :: merge_runs fuel (<[i := rest]> runs)
          | _ => []
          end
      end
  end.

(** The entries of the candidates' names, in the order of the direct scan. *)
Definition index_matches (index : list cache_index_entry) (candidates : list (list Z))
    : list cache_index_entry :=
  let runs := candidate_run index <$> candidates in
  merge_runs (S (length (concat runs))) runs.

(** Their uses. *)
Fixpoint index_scan (table : table_v2) (version importer_index : Z)
    (entries : list cache_index_entry) : scanned :=
  match entries with
  | [] => Some ([], [], HK_CACHE_PATCH_OK)
  | e :: entries =>
      scan_then
        (name_and_kind ← read_u32 mem (tb_image_exports table +
                           ix_export_index e * CACHE_IMAGE_EXPORT_V2_SIZE + 4);
         if negb (Z.shiftr name_and_kind 28 =? 0)
         then Some ([], [], HK_CACHE_PATCH_UNSUPPORTED)
         else
           '(l, status) ← emit_export_uses table version importer_index (ix_defining_image e)
                            (ix_export_index e);
           Some (l, [(ix_defining_image e, ix_export_index e)], status))
        (index_scan table version importer_index entries)
  end.
End Target.

(** ** The lookup of one preparation *)

Record cache_lookup : Type := CacheLookup {
  lk_view : cache_view;
  lk_version : Z;
  lk_convention : Z;
  lk_symbol : string;
  lk_matches : matched;
  lk_capacity : Z;
  lk_complete : bool;
  lk_allocation_failed : bool }.

#[export] Instance cache_lookup_eta : Eta cache_lookup := λ l,
  CacheLookup (lk_view l) (lk_version l) (lk_convention l) (lk_symbol l) (lk_matches l)
    (lk_capacity l) (lk_complete l) (lk_allocation_failed l).

Definition hk_cache_patch_lookup_create (symbol : option string) (convention : Z)
    : M heap (option cache_lookup) :=
  match symbol with
  | None => ret None
  | Some symbol =>
      ok <- alloc ;;
      ret (if ok : bool
           then Some (CacheLookup (CacheView 0 0 0 0 0) 0 convention symbol [] 0 false false)
           else None)
  end.

Definition lookup_begin (l : cache_lookup) (view : cache_view) (version : Z) : cache_lookup :=
  let l := if negb (bool_decide (lk_view l = view)) || negb (lk_version l =? version)
           then l <| lk_complete := false |> else l in
  if lk_complete l then l
  else l <| lk_matches := [] |> <| lk_view := view |> <| lk_version := version |>.

Definition SIZEOF_EXPORT_MATCH : Z := 16.

Definition lookup_append (l : cache_lookup) (m : Z * Z) : M heap cache_lookup :=
  if lk_allocation_failed l then ret l
  else if Z.of_nat (length (lk_matches l)) =? lk_capacity l then
    let capacity := if lk_capacity l =? 0 then 4 else u64 (lk_capacity l * 2) in
    ok <- (if (lk_capacity l <? capacity) && (capacity <=? SIZE_MAX / SIZEOF_EXPORT_MATCH)
           then alloc else ret false) ;;
    if ok : bool
    then ret (l <| lk_capacity := capacity |> <| lk_matches := lk_matches l ++ [m] |>)
    else ret (l <| lk_allocation_failed := true |>)
  else ret (l <| lk_matches := lk_matches l ++ [m] |>).

Fixpoint lookup_append_all (l : cache_lookup) (found : matched) : M heap cache_lookup :=
  match found with
  | [] => ret l
  | m :: found => l <- lookup_append l m ;; lookup_append_all l found
  end.

(** [g_cache_index_slots], those in use. *)
Record index_slot : Type := IndexSlot {
  xs_view : cache_view;
  xs_version : Z;
  xs_entries : list cache_index_entry }.

Definition HK_CACHE_INDEX_SLOTS : Z := 4.

Record cache_state : Type := CacheState {
  ch_heap : heap;
  ch_slots : list index_slot;
  ch_lookup : option cache_lookup }.

#[export] Instance cache_state_eta : Eta cache_state := λ s,
  CacheState (ch_heap s) (ch_slots s) (ch_lookup s).

Definition cache_index_acquire (view : cache_view) (version : Z) (s : cache_state)
    : option (option (list cache_index_entry) * cache_state) :=
  match List.find (λ x, (xs_version x =? version) && bool_decide (xs_view x = view)) (ch_slots s) with
  | Some x => Some (Some (xs_entries x), s)
  | None =>
      if negb (Z.of_nat (length (ch_slots s)) <? HK_CACHE_INDEX_SLOTS) then Some (None, s)
      else
        '(built, h) ← cache_index_build view version (ch_heap s);
        let s := s <| ch_heap := h |> in
        match built with
        | inl _ => Some (None, s)
        | inr entries =>
            Some (Some entries, s <| ch_slots := ch_slots s ++ [IndexSlot view version entries] |>)
        end
  end.

(** The end of a scan: its matches are kept, and complete if it went well. *)
Definition keep_matches (l : cache_lookup) (found : matched) (status : hk_cache_patch_status)
    : M heap cache_lookup :=
  l <- lookup_append_all l found ;;
  ret (if bool_decide (status = HK_CACHE_PATCH_OK) && negb (lk_allocation_failed l)
       then l <| lk_complete := true |> else l).

Definition parse_v2_v4 (target : hk_cache_patch_target) (view : cache_view)
    (version importer_index : Z) (candidates : list (list Z))
    (index : option (list cache_index_entry)) (s : cache_state)
    : option (list hk_cache_patch_site * hk_cache_patch_status * cache_state) :=
  loaded ← load_v2 view version;
  match loaded with
  | inl _ => Some ([], HK_CACHE_PATCH_MALFORMED, s)
  | inr table =>
      if (tb_image_count table =? 0) || (tb_image_count table <=? importer_index) ||
         ((3 <=? version) && negb (tb_got_client_count table =? tb_image_count table))
      then Some ([], HK_CACHE_PATCH_MALFORMED, s)
      else
        let lookup := match ch_lookup s with
                      | Some l => if lk_allocation_failed l then None else Some (lookup_begin l view version)
                      | None => None
                      end in
        let reuse := match lookup with Some l => lk_complete l | None => false end in
        if reuse then
          let found := match lookup with Some l => lk_matches l | None => [] end in
          '(l, status) ← replay_definitions target view table version importer_index
                           (S (length found)) 0 found;
          Some (l, status, s <| ch_lookup := lookup |>)
        else
          '(l, found, status) ←
            match index with
            | Some index => index_scan target view table version importer_index
                              (index_matches index candidates)
            | None => direct_scan target view table version importer_index candidates
            end;
          match lookup with
          | None => Some (l, status, s)
          | Some k =>
              let '(k, h) := keep_matches k found status (ch_heap s) in
              Some (l, status, s <| ch_heap := h |> <| ch_lookup := Some k |>)
          end
  end.

(** ** The entry point *)

(** The importer's row among the images of the cache. *)
Section Importer.
Context (target : hk_cache_patch_target) (images unslid_base : Z).

Fixpoint find_importer (count : nat) (i : Z) : checked hk_cache_patch_status Z :=
  match count with
  | O => refuse HK_CACHE_PATCH_NOT_CACHE
  | S count =>
      let image := images + i * DCH_IMAGE_INFO_SIZE in
      address ← read_u64 mem image;
      if (address <? unslid_base) || (ct_cache_size target <=? address - unslid_base) ||
         negb (ct_cache_base target + (address - unslid_base) =? ct_image_header target)
      then find_importer count (i + 1)
      else
        path_offset ← read_u32 mem (image + 24);
        path ← bounded_string mem (ct_cache_base target) (ct_cache_size target) path_offset;
        match path, ct_image_path target with
        | Some path, Some wanted =>
            same ← strcmp_equal mem path (string_bytes wanted);
            if same : bool then accept i else refuse HK_CACHE_PATCH_MALFORMED
        | _, _ => refuse HK_CACHE_PATCH_MALFORMED
        end
  end.
End Importer.

(** The text record of the image, and whether it has the UUID. *)
Fixpoint text_uuid_matches (count : nat) (texts i image_unslid : Z) (uuid : list Z) : option bool :=
  match count with
  | O => Some false
  | S count =>
      let text := texts + i * DCH_TEXT_INFO_SIZE in
      address ← read_u64 mem (text + 16);
      if address =? image_unslid
      then stored ← read_bytes mem 16 text; Some (bool_decide (stored = uuid))
      else text_uuid_matches count texts (i + 1) image_unslid uuid
  end.

Definition check_uuid (target : hk_cache_patch_target) (mapping_offset images importer_index : Z)
    : option bool :=
  match ct_uuid target with
  | None => Some true
  | Some uuid =>
      if mapping_offset <? DCH_IMAGES_TEXT_COUNT + 8 then Some false
      else
        let base := ct_cache_base target in
        text_offset ← read_u64 mem (base + DCH_IMAGES_TEXT_OFFSET);
        text_count ← read_u64 mem (base + DCH_IMAGES_TEXT_COUNT);
        match range_at base (ct_cache_size target) text_offset text_count DCH_TEXT_INFO_SIZE with
        | None => Some false
        | Some texts =>
            image_unslid ← read_u64 mem (images + importer_index * DCH_IMAGE_INFO_SIZE);
            text_uuid_matches (Z.to_nat text_count) texts 0 image_unslid uuid
        end
  end.

(** What is read of the cache before its patch table: the view of the table, the
    importer's index, the number of images and the offset of the mappings. *)
Definition open_cache (target : hk_cache_patch_target)
    : checked hk_cache_patch_status (cache_view * Z * Z * Z) :=
  let base := ct_cache_base target in
  let size := ct_cache_size target in
  if (2 ^ 64 - 1 - base <? size) || (ct_image_header target <? base) ||
     (size <=? ct_image_header target - base)
  then refuse HK_CACHE_PATCH_NOT_CACHE
  else
    mapping_offset ← read_u32 mem (base + DCH_MAPPING_OFFSET);
    mapping_count ← read_u32 mem (base + DCH_MAPPING_COUNT);
    match if mapping_count =? 0 then None
          else range_at base size mapping_offset mapping_count DCH_MAPPING_INFO_SIZE with
    | None => refuse HK_CACHE_PATCH_MALFORMED
    | Some mappings =>
        file_offset ← read_u64 mem (mappings + 16);
        if negb (file_offset =? 0) then refuse HK_CACHE_PATCH_MALFORMED
        else
          unslid_base ← read_u64 mem mappings;
          if negb (ct_image_slide target =? u64 (base - unslid_base))
          then refuse HK_CACHE_PATCH_MALFORMED
          else
            let appended := DCH_IMAGES_COUNT + 4 <=? mapping_offset in
            if appended && (size <? DCH_IMAGES_COUNT + 4) then refuse HK_CACHE_PATCH_MALFORMED
            else
              images_offset ← read_u32 mem
                (base + (if appended then DCH_IMAGES_OFFSET else DCH_IMAGES_OFFSET_OLD));
              images_count ← read_u32 mem
                (base + (if appended then DCH_IMAGES_COUNT else DCH_IMAGES_COUNT_OLD));
              match range_at base size images_offset images_count DCH_IMAGE_INFO_SIZE with
              | None => refuse HK_CACHE_PATCH_MALFORMED
              | Some images =>
                  importer <~ find_importer target images unslid_base (Z.to_nat images_count) 0 ;;
                  uuid_ok ← check_uuid target mapping_offset images importer;
                  if negb uuid_ok then refuse HK_CACHE_PATCH_MALFORMED
                  else
                    patch_addr ← read_u64 mem (base + DCH_PATCH_INFO_ADDR);
                    patch_size ← read_u64 mem (base + DCH_PATCH_INFO_SIZE);
                    if (patch_addr =? 0) || (patch_size =? 0) then
                      let has_flags := DCH_FORMAT_FLAGS + 4 <=? mapping_offset in
                      if has_flags && (size <? DCH_FORMAT_FLAGS + 4)
                      then refuse HK_CACHE_PATCH_MALFORMED
                      else if negb has_flags then refuse HK_CACHE_PATCH_NO_METADATA
                      else
                        flags ← read_u32 mem (base + DCH_FORMAT_FLAGS);
                        refuse (if Z.testbit flags 11 then HK_CACHE_PATCH_MALFORMED
                                else HK_CACHE_PATCH_NO_METADATA)
                    else if (patch_addr <? unslid_base) || (size <? patch_addr - unslid_base) ||
                            (size - (patch_addr - unslid_base) <? patch_size)
                    then refuse HK_CACHE_PATCH_MALFORMED
                    else
                      accept (CacheView base size unslid_base (base + (patch_addr - unslid_base))
                                patch_size, importer, images_count, mapping_offset)
              end
    end.

(** A scan that went wrong leaves nothing to reuse. *)
Definition settle_lookup (status : hk_cache_patch_status) (s : cache_state) : cache_state :=
  if bool_decide (status = HK_CACHE_PATCH_OK) then s
  else s <| ch_lookup := (λ k, k <| lk_complete := false |>) <$> ch_lookup s |>.

(** The table of an opened cache. *)
Definition parse_table (target : hk_cache_patch_target) (view : cache_view)
    (importer_index images_count mapping_offset : Z) (candidates : list (list Z)) (s : cache_state)
    : option (list hk_cache_patch_site * hk_cache_patch_status * cache_state) :=
  version ← (if mapping_offset <=? DCH_SWIFT_OPTS_SIZE then Some 1 else read_u32 mem (cv_patch view));
  if cv_patch_size view <? 24 then Some ([], HK_CACHE_PATCH_MALFORMED, s)
  else
    patch_image_count ← read_u64 mem (cv_patch view + (if version =? 1 then 8 else 16));
    if negb (patch_image_count =? images_count) then Some ([], HK_CACHE_PATCH_MALFORMED, s)
    else if version =? 1 then
      '(l, status) ← parse_v1 target view candidates; Some (l, status, settle_lookup status s)
    else if (2 <=? version) && (version <=? 4) then
      let lookup_complete :=
        match ch_lookup s with
        | Some l => lk_complete l && (lk_version l =? version) && bool_decide (lk_view l = view)
        | None => false
        end in
      '(index, s) ← (if ct_immutable_metadata target && negb lookup_complete
                     then cache_index_acquire view version s else Some (None, s));
      '(l, status, s) ← parse_v2_v4 target view version importer_index candidates index s;
      Some (l, status, settle_lookup status s)
    else Some ([], HK_CACHE_PATCH_UNSUPPORTED, s).

(** [hk_dyld_cache_iterate_symbol_uses_with_lookup]: the sites visited, the
    status, and the state with the lookup as it is left.  A lookup for another
    symbol is put aside. *)
Definition hk_dyld_cache_iterate_symbol_uses_with_lookup (target : hk_cache_patch_target)
    (symbol : option string) (convention : Z) (s : cache_state)
    : option (list hk_cache_patch_site * hk_cache_patch_status * cache_state) :=
  let own := match ch_lookup s, symbol with
             | Some l, Some symbol => (lk_convention l =? convention) && bool_decide (lk_symbol l = symbol)
             | _, _ => false
             end in
  match symbol with
  | None => Some ([], HK_CACHE_PATCH_INVALID_ARGUMENT, s)
  | Some symbol =>
      if (ct_cache_base target =? 0) || (ct_image_header target =? 0) ||
         bool_decide (ct_image_path target = None) || (ct_cache_size target <? 168)
      then Some ([], HK_CACHE_PATCH_INVALID_ARGUMENT, s)
      else
        opened ← open_cache target;
        match opened with
        | inl status => Some ([], status, s)
        | inr (view, importer, images_count, mapping_offset) =>
            match hk_symbol_build_candidates (Some (string_bytes symbol)) convention with
            | inl _ => Some ([], HK_CACHE_PATCH_INVALID_ARGUMENT, s)
            | inr candidates =>
                '(l, status, s') ← parse_table target view importer images_count mapping_offset
                                     candidates (if own then s else s <| ch_lookup := None |>);
                Some (l,
                  if bool_decide (status = HK_CACHE_PATCH_OK)
                  then match l with [] => HK_CACHE_PATCH_NOT_FOUND | _ => HK_CACHE_PATCH_OK end
                  else status,
                  if own then s' else s' <| ch_lookup := ch_lookup s |>)
            end
        end
  end.
(** The lookup of a caller that keeps none. *)
Definition hk_dyld_cache_iterate_symbol_uses (target : hk_cache_patch_target)
    (symbol : option string) (convention : Z) (s : cache_state)
    : option (list hk_cache_patch_site * hk_cache_patch_status * cache_state) :=
  hk_dyld_cache_iterate_symbol_uses_with_lookup target symbol convention (s <| ch_lookup := None |>).
End Code.
