(* ===== verification/DyldIndex.v ===== *)
(** * The index over a cache's exports finds what a scan finds

    Order and merging alone: the sorted index, searched for the runs of the
    candidates and merged, is the list of the exports with those names in the
    order a scan of the table meets them. *)

From stdpp Require Import base list strings numbers option sorting.
From S2P Require Import Prelude DyldCache.

(** ** [strcmp] *)

Lemma strcmp_eq a b : strcmp a b = Eq ↔ a = b.
Proof.
  revert b. induction a as [|x a IH]; intros [|y b]; cbn; [done..|].
  destruct (Z.compare_spec x y) as [->|H|H].
  - rewrite IH. split; [by intros ->|by intros [= ->]].
  - split; [done|]. intros [= -> _]. lia.
  - split; [done|]. intros [= -> _]. lia.
Qed.

Lemma strcmp_opp a b : strcmp b a = CompOpp (strcmp a b).
Proof.
  revert b. induction a as [|x a IH]; intros [|y b]; cbn; [done..|].
  rewrite (Z.compare_antisym x y). destruct (x ?= y); cbn; [apply IH|done..].
Qed.

Lemma strcmp_lt_trans a b c : strcmp a b = Lt → strcmp b c = Lt → strcmp a c = Lt.
Proof.
  revert b c. induction a as [|x a IH]; intros [|y b] [|z c]; cbn; try done.
  destruct (Z.compare_spec x y), (Z.compare_spec y z), (Z.compare_spec x z);
    try done; try lia; eauto.
Qed.

(** ** The two orders *)

Definition less (a b : cache_index_entry) : Prop := cache_index_entry_less a b = true.
Definition entry_le (a b : cache_index_entry) : Prop := Is_true (index_entry_le a b).

Lemma less_spec a b : less a b ↔
  ix_defining_image a < ix_defining_image b ∨
  (ix_defining_image a = ix_defining_image b ∧ ix_export_index a < ix_export_index b).
Proof.
  unfold less, cache_index_entry_less. destruct (Z.eqb_spec (ix_defining_image a) (ix_defining_image b));
    cbn; rewrite Z.ltb_lt; lia.
Qed.

Lemma entry_le_spec a b : entry_le a b ↔
  strcmp (ix_name a) (ix_name b) = Lt ∨
  (ix_name a = ix_name b ∧
   (ix_defining_image a < ix_defining_image b ∨
    (ix_defining_image a = ix_defining_image b ∧ ix_export_index a <= ix_export_index b))).
Proof.
  unfold entry_le, index_entry_le. rewrite <- strcmp_eq.
  destruct (strcmp (ix_name a) (ix_name b)); cbn.
  - destruct (Z.eqb_spec (ix_defining_image a) (ix_defining_image b)); cbn;
      rewrite Is_true_true, ?Z.ltb_lt, ?Z.leb_le; intuition (done || lia).
  - intuition done.
  - intuition done.
Qed.

#[local] Instance less_trans : Transitive less.
Proof. intros a b c. rewrite !less_spec. lia. Qed.

Lemma less_irrefl a : ¬ less a a.
Proof. rewrite less_spec. lia. Qed.

#[local] Instance entry_le_trans : Transitive entry_le.
Proof.
  intros a b c. rewrite !entry_le_spec. intros [H1|[E1 H1]] [H2|[E2 H2]].
  - left. by eapply strcmp_lt_trans.
  - left. by rewrite <- E2.
  - left. by rewrite E1.
  - right. split; [congruence|lia].
Qed.

#[local] Instance entry_le_total : Total entry_le.
Proof.
  intros a b. rewrite !entry_le_spec, (strcmp_opp (ix_name a) (ix_name b)), <- !strcmp_eq,
    (strcmp_opp (ix_name a) (ix_name b)).
  destruct (strcmp (ix_name a) (ix_name b)); cbn; [|by left; left|by right; left].
  destruct (Z.lt_trichotomy (ix_defining_image a) (ix_defining_image b)) as [|[|]];
    [left; right; split; [done|lia]| |right; right; split; [done|lia]].
  destruct (Z.le_ge_cases (ix_export_index a) (ix_export_index b));
    [left|right]; right; (split; [done|lia]).
Qed.

Lemma sorted_lookup {A} (R : relation A) l i j x y :
  StronglySorted R l → (i < j)%nat → l !! i = Some x → l !! j = Some y → R x y.
Proof.
  intros Hs. revert i j. induction Hs as [|z l Hs IH Hz]; intros i j Hij Hx Hy; [done|].
  destruct j as [|j]; [lia|]. destruct i as [|i]; cbn in Hx, Hy.
  - injection Hx as ->. rewrite Forall_forall in Hz. by eapply Hz, list_elem_of_lookup_2.
  - eapply IH; [|done..]. lia.
Qed.

Lemma filter_none {A} P `{!∀ x : A, Decision (P x)} l : Forall (λ x, ¬ P x) l → filter P l = [].
Proof. induction 1 as [|x l Hx Hl IH]; [done|]. rewrite filter_cons. by destruct (decide (P x)). Qed.

(** Sorting keeps the order of the entries of one name. *)
Lemma sorted_filter {A} (R : relation A) P `{!∀ x, Decision (P x)} l :
  StronglySorted R l → StronglySorted R (filter P l).
Proof.
  induction 1 as [|x l Hs IH Hx]; [constructor|]. rewrite filter_cons.
  destruct (decide (P x)); [|done]. constructor; [done|]. rewrite Forall_forall in *.
  intros y [_ Hy]%list_elem_of_filter. by apply Hx.
Qed.

Lemma sorted_unique l l' :
  StronglySorted less l → StronglySorted less l' → l ≡ₚ l' → l = l'.
Proof.
  intros H1 H2 Hp. eapply (StronglySorted_unique_strong less); [|done..].
  intros x y _ _ Hxy Hyx. destruct (less_irrefl x). by transitivity y.
Qed.

Definition named (name : list Z) (e : cache_index_entry) : Prop := ix_name e = name.

#[local] Instance named_dec name e : Decision (named name e) := decide (ix_name e = name).

(** Distinct entries of one name that are sorted by [entry_le] are by [less]. *)
Lemma named_sorted name l :
  NoDup ((λ e, (ix_defining_image e, ix_export_index e)) <$> l) →
  Forall (named name) l → StronglySorted entry_le l → StronglySorted less l.
Proof.
  intros Hd Hn Hs. induction Hs as [|x l Hs IH Hx]; [constructor|].
  apply Forall_cons in Hn as [Hnx Hn]. cbn in Hd. apply NoDup_cons in Hd as [Hnot Hd].
  constructor; [by apply IH|]. rewrite Forall_forall in *. intros y Hy.
  specialize (Hx y Hy). specialize (Hn y Hy). rewrite entry_le_spec in Hx. rewrite less_spec.
  assert (Hne : (ix_defining_image x, ix_export_index x) ≠ (ix_defining_image y, ix_export_index y)).
  { intros E. apply Hnot. rewrite E. apply list_elem_of_fmap. by exists y. }
  destruct Hx as [Hx|[_ Hx]].
  - rewrite (proj2 (strcmp_eq _ _)) in Hx by (rewrite Hnx, Hn; done). done.
  - destruct Hx as [|[E Hle]]; [by left|]. right. split; [done|].
    destruct (Z.eq_dec (ix_export_index x) (ix_export_index y)) as [E'|]; [|lia]. by rewrite E, E' in Hne.
Qed.

Lemma less_nodup l : StronglySorted less l →
  NoDup ((λ e, (ix_defining_image e, ix_export_index e)) <$> l).
Proof.
  induction 1 as [|x l Hs IH Hx]; [constructor|]. cbn. constructor; [|done].
  intros (y & E & Hy)%list_elem_of_fmap. rewrite Forall_forall in Hx. specialize (Hx y Hy).
  rewrite less_spec in Hx. injection E as E1 E2. lia.
Qed.

(** ** The search *)

Lemma lower_bound_spec name l fuel low high :
  StronglySorted entry_le l → (low <= high <= length l)%nat → (high - low < fuel)%nat →
  Forall (λ e, strcmp (ix_name e) name = Lt) (take low l) →
  Forall (λ e, strcmp (ix_name e) name ≠ Lt) (drop high l) →
  let b := lower_bound_loop fuel l name low high in
  Forall (λ e, strcmp (ix_name e) name = Lt) (take b l) ∧
  Forall (λ e, strcmp (ix_name e) name ≠ Lt) (drop b l).
Proof.
  intros Hs. revert low high. induction fuel as [|fuel IH]; intros low high Hb Hf Hlo Hhi; [lia|].
  cbn [lower_bound_loop]. destruct (Nat.ltb_spec low high) as [Hlt|Hge].
  2: { assert (low = high) as <- by lia. done. }
  set (mid := (low + (high - low) / 2)%nat).
  assert (Hmid : (low <= mid < high)%nat).
  { unfold mid. pose proof (Nat.div_lt (high - low) 2 ltac:(lia) ltac:(lia)). lia. }
  destruct (l !! mid) as [e|] eqn:E; [|apply lookup_ge_None_1 in E; lia].
  assert (Hbefore : ∀ i x, l !! i = Some x → (i < mid)%nat → entry_le x e).
  { intros i x Hx Hi. by eapply (sorted_lookup entry_le l i mid). }
  assert (Hafter : ∀ i x, l !! i = Some x → (mid < i)%nat → entry_le e x).
  { intros i x Hx Hi. by eapply (sorted_lookup entry_le l mid i). }
  destruct (strcmp (ix_name e) name) eqn:Hc.
  - apply IH; [lia|lia|done|]. apply Forall_lookup. intros i x Hx. rewrite lookup_drop in Hx.
    destruct (decide (i = 0%nat)) as [->|].
    + rewrite Nat.add_0_r in Hx. assert (x = e) as -> by congruence. by rewrite Hc.
    + assert (Hle : entry_le e x) by (eapply Hafter; [exact Hx|lia]).
      apply strcmp_eq in Hc. rewrite entry_le_spec, Hc in Hle.
      rewrite strcmp_opp. destruct Hle as [->|[<- _]]; cbn; [done|].
      by rewrite (proj2 (strcmp_eq _ _) eq_refl).
  - apply IH; [lia|lia| |done]. apply Forall_lookup. intros i x Hx.
    apply lookup_take_Some in Hx as [Hx Hi].
    destruct (decide (i = mid)) as [->|]; [by assert (x = e) as -> by congruence|].
    assert (Hle : entry_le x e) by (eapply Hbefore; [exact Hx|lia]).
    rewrite entry_le_spec in Hle. destruct Hle as [H|[-> _]]; [by eapply strcmp_lt_trans|done].
  - apply IH; [lia|lia|done|]. apply Forall_lookup. intros i x Hx. rewrite lookup_drop in Hx.
    destruct (decide (i = 0%nat)) as [->|].
    + rewrite Nat.add_0_r in Hx. assert (x = e) as -> by congruence. by rewrite Hc.
    + assert (Hle : entry_le e x) by (eapply Hafter; [exact Hx|lia]). rewrite entry_le_spec in Hle.
      intros Hlt'. destruct Hle as [H|[En _]]; [|congruence].
      assert (strcmp (ix_name e) name = Lt) by (by eapply strcmp_lt_trans). congruence.
Qed.

Lemma name_run_filter name l :
  StronglySorted entry_le l → Forall (λ e, strcmp (ix_name e) name ≠ Lt) l →
  name_run name l = filter (named name) l.
Proof.
  intros Hs. induction Hs as [|x l Hs IH Hx]; intros Hn; [done|]. apply Forall_cons in Hn as [Hnx Hn].
  cbn [name_run]. rewrite filter_cons. case_bool_decide as H.
  - apply strcmp_eq in H. rewrite decide_True by done. f_equal. by apply IH.
  - rewrite decide_False by (intros E; apply H; by apply strcmp_eq).
    symmetry. apply filter_none. rewrite Forall_forall in *. intros y Hy E.
    specialize (Hx y Hy). rewrite entry_le_spec, E in Hx.
    destruct (strcmp (ix_name x) name) eqn:Ec; [done|by apply Hnx|].
    destruct Hx as [|[E' _]]; [congruence|]. by rewrite (proj2 (strcmp_eq _ _) E') in Ec.
Qed.

Lemma candidate_run_filter name l :
  StronglySorted entry_le l → candidate_run l name = filter (named name) l.
Proof.
  intros Hs. unfold candidate_run, cache_index_lower_bound.
  destruct (lower_bound_spec name l (S (length l)) 0 (length l)) as [Hlo Hhi];
    [done|lia|lia|constructor|rewrite drop_all; constructor|].
  set (b := lower_bound_loop _ _ _ _ _) in *.
  rewrite name_run_filter; [|by rewrite <- (take_drop b l) in Hs; eapply StronglySorted_app_1_r|done].
  rewrite <- (take_drop b l) at 2. rewrite filter_app.
  rewrite (filter_none (named name) (take b l)); [done|].
  eapply Forall_impl; [exact Hlo|]. intros e He E.
  cbv beta in He. by rewrite (proj2 (strcmp_eq _ _) E) in He.
Qed.

(** A candidate's run in the sorted index is its exports as they are scanned. *)
Lemma candidate_run_scan name entries :
  StronglySorted less entries →
  candidate_run (merge_sort index_entry_le entries) name = filter (named name) entries.
Proof.
  intros Hs. assert (Hsorted : StronglySorted entry_le (merge_sort index_entry_le entries)).
  { apply (StronglySorted_merge_sort entry_le). }
  rewrite candidate_run_filter by done.
  assert (Hp : filter (named name) (merge_sort index_entry_le entries) ≡ₚ filter (named name) entries).
  { by rewrite (merge_sort_Permutation (λ x y, Is_true (index_entry_le x y))). }
  apply sorted_unique; [|by apply sorted_filter|done].
  apply (named_sorted name).
  - rewrite Hp. by apply less_nodup, sorted_filter.
  - apply Forall_forall. by intros e [He _]%list_elem_of_filter.
  - by apply sorted_filter.
Qed.

(** ** The merge *)

(** The head that is picked is before every other. *)
Lemma pick_from_spec i pick runs :
  match pick_from i pick runs with
  | None => pick = None ∧ Forall (λ r, r = []) runs
  | Some k => ∃ e,
      (pick = Some (k, e) ∨ ∃ j rest, k = (i + j)%nat ∧ runs !! j = Some (e :: rest)) ∧
      (∀ k' e', pick = Some (k', e') → ¬ less e' e) ∧
      (∀ r x, r ∈ runs → head r = Some x → ¬ less x e)
  end.
Proof.
  revert i pick. induction runs as [|r runs IH]; intros i pick; cbn [pick_from].
  { destruct pick as [[k e]|]; cbn; [|done]. exists e. split; [by left|].
    split; [intros ? ? [= <- <-]; apply less_irrefl|]. intros r x Hr. by apply elem_of_nil in Hr. }
  destruct r as [|e r].
  - specialize (IH (S i) pick). destruct (pick_from _ _ _) as [k|].
    + destruct IH as (e & H1 & H2 & H3). exists e. split; [|split; [done|]].
      * destruct H1 as [|(j & rest & -> & Hj)]; [by left|]. right. exists (S j), rest. split; [lia|done].
      * intros r x [->|Hr]%elem_of_cons Hx; [done|by eapply H3].
    + destruct IH. split; [done|by constructor].
  - set (pick' := match pick with
                  | None => Some (i, e)
                  | Some (_, best) => if cache_index_entry_less e best then Some (i, e) else pick
                  end).
    assert (Hgo : match pick with
                  | None => pick_from (S i) (Some (i, e)) runs
                  | Some (_, best) =>
                      if cache_index_entry_less e best then pick_from (S i) (Some (i, e)) runs
                      else pick_from (S i) pick runs
                  end = pick_from (S i) pick' runs).
    { unfold pick'. destruct pick as [[k b]|]; [|done]. by destruct (cache_index_entry_less e b). }
    rewrite Hgo. specialize (IH (S i) pick').
    destruct (pick_from (S i) pick' runs) as [k|]; [|].
    + destruct IH as (m & H1 & H2 & H3). exists m.
      assert (He : ¬ less e m ∧ ∀ k' e', pick = Some (k', e') → ¬ less e' m).
      { unfold pick' in H2. destruct pick as [[k' b]|].
        - destruct (cache_index_entry_less e b) eqn:El.
          + pose proof (H2 i e eq_refl) as Hem. split; [done|]. intros ? ? [= <- <-] Hbm.
            apply Hem. by transitivity b.
          + pose proof (H2 k' b eq_refl) as Hbm. split; [|by intros ? ? [= <- <-]].
            assert (Hnl : ¬ less e b) by (unfold less; by rewrite El).
            rewrite less_spec in *. lia.
        - split; [by eapply H2|done]. }
      destruct He as [He Hp]. split; [|split; [done|]].
      * destruct H1 as [Hpick|(j & rest & -> & Hj)].
        -- unfold pick' in Hpick. destruct pick as [[k' b]|].
           ++ destruct (cache_index_entry_less e b); injection Hpick as <- <-; [|by left].
              right. exists 0%nat, r. split; [lia|done].
           ++ injection Hpick as <- <-. right. exists 0%nat, r. split; [lia|done].
        -- right. exists (S j), rest. split; [lia|done].
      * intros r' x [->|Hr]%elem_of_cons Hx; [by injection Hx as <-|by eapply H3].
    + destruct IH as [Hnone _]. unfold pick' in Hnone. destruct pick as [[k b]|]; [|done].
      by destruct (cache_index_entry_less e b).
Qed.

Definition key (e : cache_index_entry) : Z * Z := (ix_defining_image e, ix_export_index e).

Lemma less_trichotomy a b : less a b ∨ less b a ∨ key a = key b.
Proof.
  unfold key. rewrite !less_spec.
  destruct (Z.lt_trichotomy (ix_defining_image a) (ix_defining_image b)) as [|[E|]]; [lia| |lia].
  destruct (Z.lt_trichotomy (ix_export_index a) (ix_export_index b)) as [|[E'|]]; [lia| |lia].
  right. right. by rewrite E, E'.
Qed.

Lemma concat_insert (runs : list (list cache_index_entry)) k e rest :
  runs !! k = Some (e :: rest) → concat runs ≡ₚ e :: concat (<[k := rest]> runs).
Proof.
  revert k. induction runs as [|r runs IH]; intros [|k] Hk; cbn in *; [done..|by injection Hk as ->|].
  rewrite (IH k Hk). by rewrite <- Permutation_middle.
Qed.

Lemma merge_runs_spec fuel runs :
  Forall (StronglySorted less) runs → NoDup (key <$> concat runs) →
  (length (concat runs) < fuel)%nat →
  StronglySorted less (merge_runs fuel runs) ∧ merge_runs fuel runs ≡ₚ concat runs.
Proof.
  revert runs. induction fuel as [|fuel IH]; intros runs Hs Hd Hf; [lia|]. cbn [merge_runs].
  unfold pick_run. pose proof (pick_from_spec 0 None runs) as Hp.
  destruct (pick_from 0 None runs) as [k|].
  2: { destruct Hp as [_ Hp]. assert (concat runs = []) as ->; [|by repeat constructor].
       clear -Hp. induction Hp as [|r runs -> Hr IH]; [done|exact IH]. }
  destruct Hp as (e & [?|(j & rest & -> & Hj)] & _ & Hmin); [done|]. cbn. rewrite Hj.
  pose proof (concat_insert runs j e rest Hj) as Hperm.
  assert (Hrest : Forall (StronglySorted less) (<[j:=rest]> runs)).
  { apply Forall_insert; [done|]. rewrite Forall_forall in Hs.
    assert (Hr : StronglySorted less (e :: rest)) by (by eapply Hs, list_elem_of_lookup_2).
    by apply StronglySorted_cons in Hr as [_ Hr]. }
  rewrite Hperm in Hd. cbn in Hd. apply NoDup_cons in Hd as [Hnot Hd].
  destruct (IH (<[j:=rest]> runs) Hrest Hd) as [Hsort Hp'].
  { apply Permutation_length in Hperm. cbn in Hperm. lia. }
  split; [|by rewrite Hp', Hperm]. constructor; [done|]. rewrite Hp'. apply Forall_forall. intros x Hx.
  assert (Hxe : key x ≠ key e).
  { intros E. apply Hnot. rewrite <- E. by apply list_elem_of_fmap_2. }
  apply list_elem_of_In, in_concat in Hx as (r & Hr & Hx).
  apply list_elem_of_In, list_elem_of_lookup in Hr as (i & Hi).
  assert (Hhead : ∃ h, head r = Some h ∧ (h = x ∨ less h x)).
  { apply list_elem_of_In in Hx. destruct r as [|h t]; [by apply elem_of_nil in Hx|]. exists h. split; [done|].
    apply elem_of_cons in Hx as [->|Hx]; [by left|right].
    assert (Hr : StronglySorted less (h :: t)).
    { rewrite Forall_forall in Hrest. by eapply Hrest, list_elem_of_lookup_2. }
    apply StronglySorted_cons in Hr as [Hr _]. rewrite Forall_forall in Hr. by apply Hr. }
  destruct Hhead as (h & Hh & Hhx).
  assert (Hnl : ¬ less x e).
  { destruct (decide (i = j)) as [->|Hne].
    - rewrite list_lookup_insert_eq in Hi by (by eapply lookup_lt_Some). injection Hi as <-.
      rewrite Forall_forall in Hs.
      assert (Hr : StronglySorted less (e :: rest)) by (by eapply Hs, list_elem_of_lookup_2).
      apply StronglySorted_cons in Hr as [Hr _]. rewrite Forall_forall in Hr. intros Hlt.
      apply (less_irrefl e). transitivity x; [|done]. apply Hr. by apply list_elem_of_In.
    - rewrite list_lookup_insert_ne in Hi by done. intros Hlt.
      apply (Hmin r h); [by eapply list_elem_of_lookup_2|done|].
      destruct Hhx as [->|Hhx]; [done|by transitivity x]. }
  destruct (less_trichotomy e x) as [|[|E]]; [done..|]. by destruct Hxe.
Qed.

(** ** The index as a filter *)

Definition wanted (candidates : list (list Z)) (e : cache_index_entry) : Prop :=
  ix_name e ∈ candidates.
#[export] Instance wanted_dec candidates e : Decision (wanted candidates e) :=
  decide (ix_name e ∈ candidates).

Lemma runs_permutation candidates entries : NoDup candidates →
  concat ((λ name, filter (named name) entries) <$> candidates) ≡ₚ filter (wanted candidates) entries.
Proof.
  intros Hd. induction Hd as [|name candidates Hn Hd IH]; cbn.
  { rewrite filter_none; [done|]. apply Forall_forall. intros e _ He. by apply elem_of_nil in He. }
  rewrite IH. clear IH. induction entries as [|e entries IH]; [done|]. rewrite !filter_cons.
  destruct (decide (named name e)) as [He|He]; destruct (decide (wanted candidates e)) as [Hw|Hw];
    (destruct (decide (wanted (name :: candidates) e)) as [Hw'|Hw']; unfold wanted, named in *;
     rewrite elem_of_cons in Hw'); try (exfalso; by intuition congruence).
  - cbn. by rewrite IH.
  - rewrite <- Permutation_middle. by rewrite IH.
  - done.
Qed.

Lemma index_matches_scan candidates entries :
  StronglySorted less entries → NoDup candidates →
  index_matches (merge_sort index_entry_le entries) candidates = filter (wanted candidates) entries.
Proof.
  intros Hs Hd. unfold index_matches.
  rewrite (list_fmap_ext _ (λ name, filter (named name) entries))
    by (intros; by apply candidate_run_scan).
  pose proof (runs_permutation candidates entries Hd) as Hp.
  set (runs := _ <$> candidates) in *.
  destruct (merge_runs_spec (S (length (concat runs))) runs) as [H1 H2].
  - apply Forall_forall. intros r (name & -> & _)%list_elem_of_fmap. by apply sorted_filter.
  - rewrite Hp. by apply less_nodup, sorted_filter.
  - lia.
  - apply sorted_unique; [done|by apply sorted_filter|]. by rewrite H2.
Qed.
