(* ===== verification/DyldCacheSpec.v ===== *)
(** * The caches of the shared-cache lookup change no answer

    A scan of the table, a scan through the process's index and the replay of
    an earlier scan visit the same sites and end the same way. *)

From stdpp Require Import base list strings numbers option sorting.
From S2P Require Import Prelude Types Ownership Memory SymbolTable SymbolResolve MachO ImportSlots ResolverSafety PointerAuth RebindEngine DyldCache DyldIndex.

(** ** Sequences of visits *)

Lemma emit_then_assoc a b c : emit_then (emit_then a b) c = emit_then a (emit_then b c).
Proof.
  destruct a as [[l s]|]; cbn; [|done]. case_bool_decide as H; cbn.
  - destruct b as [[l' s']|]; cbn; [|done]. case_bool_decide; cbn; [|done].
    destruct c as [[l'' s'']|]; cbn; [|done]. by rewrite app_assoc.
  - by rewrite bool_decide_eq_false_2.
Qed.

Lemma emit_then_ok_l a : emit_then emit_ok a = a.
Proof. by destruct a as [[l s]|]. Qed.

Lemma emit_then_ok_r a : emit_then a emit_ok = a.
Proof.
  destruct a as [[l s]|]; cbn; [|done]. case_bool_decide as H; cbn; [|done]. by rewrite app_nil_r, H.
Qed.

(** ** Strings *)

Section Strings.
Context (mem : memory).

Lemma strcmp_string_at fuel a s name : string_at mem fuel a = Some s → cstring name →
  strcmp_equal mem a name = Some (bool_decide (s = name)).
Proof.
  unfold cstring. revert fuel a s. induction name as [|d name IH]; intros [|fuel] a s Hs Hname; try done;
    cbn [string_at strcmp_equal] in Hs |- *; destruct (read_u8 mem a) as [b|]; cbn [mbind option_bind] in Hs |- *; try done.
  - destruct (Z.eqb_spec b 0) as [Hb|Hb]; [by injection Hs as <-|].
    destruct (string_at mem fuel (a + 1)) as [t|]; cbn in Hs; [|done]. injection Hs as <-.
    by rewrite bool_decide_eq_false_2.
  - apply Forall_cons in Hname as [Hd Hname].
    destruct (Z.eqb_spec b 0) as [Hb|Hb].
    { injection Hs as <-. rewrite (proj2 (Z.eqb_neq b d)) by lia. by rewrite bool_decide_eq_false_2. }
    destruct (string_at mem fuel (a + 1)) as [t|] eqn:Et; cbn in Hs; [|done]. injection Hs as <-.
    destruct (Z.eqb_spec b d) as [Hbd|Hbd].
    + subst d. rewrite (IH _ _ _ Et Hname). f_equal. apply bool_decide_ext.
      split; [by intros ->|by intros [= ->]].
    + rewrite bool_decide_eq_false_2; [done|]. by intros [= H _].
Qed.

Lemma matches_any_string_at fuel a s candidates : string_at mem fuel a = Some s →
  Forall cstring candidates → matches_any mem a candidates = Some (bool_decide (s ∈ candidates)).
Proof.
  intros Hs. induction 1 as [|name candidates Hn Hc IH]; cbn [matches_any].
  { by rewrite bool_decide_eq_false_2 by apply not_elem_of_nil. }
  rewrite (strcmp_string_at _ _ _ _ Hs Hn), IH. cbn. rewrite (bool_decide_ext _ _ (elem_of_cons candidates s name)).
  destruct (bool_decide_reflect (s = name)); destruct (bool_decide_reflect (s ∈ candidates));
    first [rewrite bool_decide_eq_true_2 by tauto|rewrite bool_decide_eq_false_2 by tauto]; done.
Qed.
End Strings.

Section Table.
Context (mem : memory) (target : hk_cache_patch_target) (view : cache_view).
Context (table : table_v2) (version importer : Z).

Local Abbreviation matched_uses := (emit_matched mem target view table version importer).

(** The visits of a list of matched exports. *)
Fixpoint emit_list (ms : matched) : emits :=
  match ms with
  | [] => emit_ok
  | (def, g) :: ms => emit_then (matched_uses def g) (emit_list ms)
  end.

Lemma emit_list_app ms ms' : emit_list (ms ++ ms') = emit_then (emit_list ms) (emit_list ms').
Proof.
  induction ms as [|[def g] ms IH]; cbn [app emit_list]; [by rewrite emit_then_ok_l|].
  by rewrite IH, emit_then_assoc.
Qed.

(** A scan visits [ms], and keeps them if it ends well. *)
Definition scans (s : scanned) (ms : matched) : Prop :=
  ('(l, _, status) ← s; Some (l, status)) = emit_list ms ∧
  ∀ l found, s = Some (l, found, HK_CACHE_PATCH_OK) → found = ms.

Lemma scans_nil : scans (Some ([], [], HK_CACHE_PATCH_OK)) [].
Proof. split; [done|]. by intros l found [= _ <-]. Qed.

Lemma scans_then s s' ms ms' : scans s ms → scans s' ms' → scans (scan_then s s') (ms ++ ms').
Proof.
  intros [H1 H2] [H1' H2']. unfold scans. rewrite emit_list_app, <- H1, <- H1'.
  destruct s as [[[l f] st]|]; cbn; [|done]. case_bool_decide as H; cbn.
  - subst st. specialize (H2 _ _ eq_refl) as ->.
    destruct s' as [[[l' f'] st']|]; cbn; [|done]. split; [done|].
    intros l0 f0 [= _ <- ->]. by rewrite (H2' _ _ eq_refl).
  - split; [done|]. by intros ? ? [= _ _ ->].
Qed.

Lemma scans_matched def g :
  scans ('(l, status) ← matched_uses def g; Some (l, [(def, g)], status)) [(def, g)].
Proof.
  unfold scans. cbn [emit_list]. rewrite emit_then_ok_r.
  destruct (matched_uses def g) as [[l s]|]; cbn; [|done]. split; [done|]. by intros ? ? [= _ <- _].
Qed.

(** ** The direct scan of a good table *)

Definition pair_of (e : cache_index_entry) : Z * Z := (ix_defining_image e, ix_export_index e).

Section Scan.
Context (candidates : list (list Z)) (Hc : Forall cstring candidates).

Lemma scan_row count def first e entries : is_u32 def →
  index_row mem table count def first e = Some (inr entries) →
  scans (scan_loop count e (scan_export mem target view table version importer candidates def first))
    (pair_of <$> filter (wanted candidates) entries).
Proof.
  intros Hdef. revert e entries. induction count as [|count IH]; intros e entries H; cbn in H |- *.
  { injection H as <-. apply scans_nil. }
  cbv zeta in H. destruct (export_name mem table _) as [[[]|name]|] eqn:En; cbn in H; [done| |done].
  destruct (string_at mem _ name) as [s|] eqn:Es; cbn in H; [|done].
  destruct (index_row mem table count def first (e + 1)) as [[[]|rest]|] eqn:Er; cbn in H; [done| |done].
  injection H as <-. specialize (IH _ _ Er).
  assert (Hexport : scans (scan_export mem target view table version importer candidates def first e)
    (if decide (s ∈ candidates) then [(def, u32 (first + e))] else [])).
  { unfold scan_export. cbv zeta. rewrite En. cbn.
    rewrite (matches_any_string_at _ _ _ _ _ Es Hc). cbn. case_bool_decide as Hin; cbn.
    - rewrite decide_True by done. apply scans_matched.
    - rewrite decide_False by done. apply scans_nil. }
  rewrite filter_cons. unfold wanted at 1. cbn [ix_name].
  pose proof (scans_then _ _ _ _ Hexport IH) as Hs.
  assert (u32 def = def) as Hu by (by apply Z.mod_small).
  destruct (decide (s ∈ candidates)) as [Hin|Hin];
    destruct (decide (wanted candidates (IndexEntry s (u32 def) (u32 (first + e))))) as [Hw|Hw];
    try (by exfalso; unfold wanted in *); [|done].
  cbn. unfold pair_of at 1. cbn. by rewrite Hu.
Qed.

Lemma scan_rows count def entries : 0 <= def → def + Z.of_nat count <= 2 ^ 32 →
  index_rows mem table count def = Some (inr entries) →
  scans (scan_loop count def (scan_definition mem target view table version importer candidates))
    (pair_of <$> filter (wanted candidates) entries).
Proof.
  revert def entries. induction count as [|count IH]; intros def entries Hd Hle H; cbn in H |- *.
  { injection H as <-. apply scans_nil. }
  destruct (image_row mem table def) as [[[]|[first n]]|] eqn:Ei; cbn in H; [done| |done].
  destruct (index_row mem table (Z.to_nat n) def first 0) as [[[]|row]|] eqn:Er; cbn in H; [done| |done].
  destruct (index_rows mem table count (def + 1)) as [[[]|rest]|] eqn:Es; cbn in H; [done| |done].
  injection H as <-. rewrite filter_app, fmap_app. apply scans_then; [|apply IH; [lia|lia|done]].
  unfold scan_definition. rewrite Ei. cbn. apply scan_row; [unfold is_u32; lia|done].
Qed.
End Scan.

(** ** The order of the entries *)

Lemma row_sorted count def first n e entries : is_u32 def → 0 <= e → 0 <= first →
  e + Z.of_nat count = n → first + n <= 2 ^ 32 →
  index_row mem table count def first e = Some (inr entries) →
  StronglySorted less entries ∧
  Forall (λ x, ix_defining_image x = def ∧ first + e <= ix_export_index x) entries.
Proof.
  intros Hdef. revert e entries. induction count as [|count IH]; intros e entries He Hf Hn Hb H; cbn in H.
  { injection H as <-. by repeat constructor. }
  destruct (export_name mem table _) as [[[]|name]|]; cbn in H; [done| |done].
  destruct (string_at mem _ name) as [s|]; cbn in H; [|done].
  destruct (index_row mem table count def first (e + 1)) as [[[]|rest]|] eqn:Er; cbn in H; [done| |done].
  injection H as <-. destruct (IH (e + 1) rest ltac:(lia) Hf ltac:(lia) Hb Er) as [Hs Ha].
  assert (u32 def = def) as Hu by (by apply Z.mod_small).
  assert (u32 (first + e) = first + e) as Hg by (apply Z.mod_small; lia).
  rewrite Hu, Hg. split.
  - constructor; [done|]. eapply Forall_impl; [exact Ha|]. intros x [Hx1 Hx2]. rewrite less_spec. cbn. lia.
  - constructor; [cbn; lia|]. eapply Forall_impl; [exact Ha|]. intros x [Hx1 Hx2]. lia.
Qed.

Lemma row_below count def first n e entries : 0 <= e → 0 <= first →
  e + Z.of_nat count = n → first + n <= 2 ^ 32 →
  index_row mem table count def first e = Some (inr entries) →
  Forall (λ x, ix_export_index x < first + n) entries.
Proof.
  revert e entries. induction count as [|count IH]; intros e entries He Hf Hn Hb H; cbn in H.
  { by injection H as <-. }
  destruct (export_name mem table _) as [[[]|name]|]; cbn in H; [done| |done].
  destruct (string_at mem _ name) as [s|]; cbn in H; [|done].
  destruct (index_row mem table count def first (e + 1)) as [[[]|rest]|] eqn:Er; cbn in H; [done| |done].
  injection H as <-. constructor; [|by eapply IH; [..|exact Er]; lia].
  cbn. assert (u32 (first + e) = first + e) as -> by (apply Z.mod_small; lia). lia.
Qed.

Lemma rows_sorted count def entries : 0 <= def → def + Z.of_nat count <= 2 ^ 32 →
  tb_image_export_count table < 2 ^ 32 →
  (∀ a v, read_u32 mem a = Some v → 0 <= v) →
  index_rows mem table count def = Some (inr entries) →
  StronglySorted less entries ∧ Forall (λ x, def <= ix_defining_image x) entries.
Proof.
  intros Hd Hle Hcount Hread. revert def entries Hd Hle.
  induction count as [|count IH]; intros def entries Hd Hle H; cbn in H.
  { injection H as <-. by repeat constructor. }
  destruct (image_row mem table def) as [[[]|[first n]]|] eqn:Ei; cbn in H; [done| |done].
  destruct (index_row mem table (Z.to_nat n) def first 0) as [[[]|row]|] eqn:Er; cbn in H; [done| |done].
  destruct (index_rows mem table count (def + 1)) as [[[]|rest]|] eqn:Es; cbn in H; [done| |done].
  injection H as <-. destruct (IH (def + 1) rest ltac:(lia) ltac:(lia) Es) as [Hs Ha].
  assert (Hrow : 0 <= first ∧ 0 <= n ∧ first + n <= tb_image_export_count table).
  { unfold image_row in Ei. cbv zeta in Ei.
    do 4 (match type of Ei with mbind _ ?m = _ => destruct m eqn:? end; cbn [mbind option_bind] in Ei; [|done]).
    destruct (_ || _) eqn:Eb; [done|]. injection Ei as <- <-. apply orb_false_iff in Eb as [_ Eb].
    apply Z.ltb_ge in Eb. split_and!; eauto. }
  destruct (row_sorted (Z.to_nat n) def first n 0 row) as [Hrs Hra];
    [unfold is_u32; lia|lia|lia|lia|lia|done|]. split.
  - apply StronglySorted_app. split; [|done]. intros x y Hx Hy. rewrite Forall_forall in Ha, Hra.
    destruct (Hra x Hx) as [<- _]. specialize (Ha y Hy). rewrite less_spec. lia.
  - apply Forall_app. split; [eapply Forall_impl; [exact Hra|]; cbn; intros; lia|].
    eapply Forall_impl; [exact Ha|]. cbn; intros; lia.
Qed.

(** ** The scan through the index *)

Lemma index_scan_scans entries :
  scans (index_scan mem target view table version importer entries) (pair_of <$> entries).
Proof.
  induction entries as [|e entries IH]; [apply scans_nil|]. cbn [index_scan fmap list_fmap].
  apply (scans_then _ _ [pair_of e]); [|done].
  pose proof (scans_matched (ix_defining_image e) (ix_export_index e)) as [H1 H2].
  unfold emit_matched in H1, H2. unfold scans, pair_of.
  destruct (read_u32 mem _) as [kind|]; cbn in *; [|done].
  destruct (negb (Z.shiftr kind 28 =? 0)); cbn in *; [|done].
  split; [done|]. by intros ? ? [= ].
Qed.
(** ** The replay of a scan's matches *)

(** The entries lie in the ranges of their rows. *)
Definition entry_in_row (x : cache_index_entry) : Prop :=
  0 <= ix_defining_image x < tb_image_count table ∧
  ∃ first n, image_row mem table (ix_defining_image x) = Some (inr (first, n)) ∧
    0 <= first <= ix_export_index x ∧ ix_export_index x < first + n < 2 ^ 32.

Context (row_bound : ∀ def first n,
  image_row mem table def = Some (inr (first, n)) → 0 <= first ∧ 0 <= n ∧ first + n < 2 ^ 32).

Lemma rows_in_row count def entries : 0 <= def → def + Z.of_nat count <= 2 ^ 32 →
  def + Z.of_nat count <= tb_image_count table →
  index_rows mem table count def = Some (inr entries) → Forall entry_in_row entries.
Proof.
  revert def entries. induction count as [|count IH]; intros def entries Hd Hle Hc H; cbn in H.
  { by injection H as <-. }
  destruct (image_row mem table def) as [[[]|[first n]]|] eqn:Ei; cbn in H; [done| |done].
  destruct (index_row mem table (Z.to_nat n) def first 0) as [[[]|row]|] eqn:Er; cbn in H; [done| |done].
  destruct (index_rows mem table count (def + 1)) as [[[]|rest]|] eqn:Es; cbn in H; [done| |done].
  injection H as <-. apply Forall_app. split; [|by eapply IH; [..|exact Es]; lia].
  pose proof (row_bound _ _ _ Ei) as Hb.
  destruct (row_sorted (Z.to_nat n) def first n 0 row) as [Hs Ha];
    [unfold is_u32; lia|lia|lia|lia|lia|done|].
  pose proof (row_below (Z.to_nat n) def first n 0 row ltac:(lia) ltac:(lia) ltac:(lia) ltac:(lia) Er) as Hu.
  rewrite Forall_forall in *. intros x Hx. destruct (Ha x Hx) as [Hdx Hlow]. specialize (Hu x Hx).
  split; [lia|]. exists first, n. rewrite Hdx. split_and!; [done|lia..].
Qed.

(** The run of one definition, [k] being what follows. *)
Lemma replay_exports_run def first n fuel e es : image_row mem table def = Some (inr (first, n)) →
  0 <= e → first + e < 2 ^ 32 → (length es < fuel)%nat → StronglySorted less es → Forall entry_in_row es →
  Forall (λ x, def <= ix_defining_image x ∧
               (ix_defining_image x = def → first + e <= ix_export_index x)) es →
  ∃ run rest, es = run ++ rest ∧
    (∀ x, head es = Some x → ix_defining_image x = def → run ≠ []) ∧
    Forall (λ x, def < ix_defining_image x) rest ∧
    ∀ k : matched → emits,
      ('(l, left_, status) ← replay_exports mem target view table version importer fuel def first n e
                              (pair_of <$> es);
       if bool_decide (status = HK_CACHE_PATCH_OK)
       then '(l', status) ← k left_; Some (l ++ l', status)
       else Some (l, status))
      = emit_then (emit_list (pair_of <$> run)) (k (pair_of <$> rest)).
Proof.
  intros Hrow. revert e es. induction fuel as [|fuel IH]; intros e es He Hb Hf Hs Hin Hlow; [lia|].
  assert (Hskip : ∀ k : matched → emits, ('(l', status) ← k (pair_of <$> es); Some ([] ++ l', status))
    = emit_then (emit_list (pair_of <$> [])) (k (pair_of <$> es))).
  { intros k. cbn [fmap list_fmap emit_list]. rewrite emit_then_ok_l. cbn.
    by destruct (k _) as [[??]|]. }
  destruct es as [|x es].
  { exists [], []. split_and!; [done|done|done|]. intros k. rewrite <- Hskip. cbn [replay_exports].
    by destruct (e <? n). }
  apply Forall_cons in Hin as [[Hdx (first' & n' & Hrow' & Hf1 & Hf2)] Hin].
  apply Forall_cons in Hlow as [[Hge Hlx] Hlow]. apply StronglySorted_cons in Hs as [Hx Hs].
  rewrite Forall_forall in Hx.
  cbn [replay_exports fmap list_fmap]. change (pair_of x) with (ix_defining_image x, ix_export_index x).
  cbv beta iota zeta. destruct (Z.eqb_spec (ix_defining_image x) def) as [Hd|Hd].
  - rewrite Hd in Hrow'. rewrite Hrow in Hrow'. injection Hrow' as <- <-. specialize (Hlx Hd).
    rewrite (proj2 (Z.ltb_lt e n)) by lia. cbn [negb].
    assert (u32 (ix_export_index x - first) = ix_export_index x - first) as -> by (apply Z.mod_small; lia).
    assert (u32 (first + (ix_export_index x - first)) = ix_export_index x) as -> by (unfold u32; rewrite Z.mod_small; lia).
    assert (u32 (ix_export_index x - first + 1) = ix_export_index x - first + 1) as -> by (apply Z.mod_small; lia).
    destruct (IH (ix_export_index x - first + 1) es) as (run & rest & -> & _ & Hrest & Hk);
      [lia|lia|cbn in Hf; lia|done|done| |].
    { rewrite Forall_forall in *. intros y Hy. destruct (Hlow y Hy) as [Hy1 Hy2]. split; [done|]. intros Hyd.
      specialize (Hx y Hy). rewrite less_spec in Hx. lia. }
    exists (x :: run), rest. split_and!; [done|done|done|]. intros k.
    cbn [fmap list_fmap emit_list]. change (pair_of x) with (ix_defining_image x, ix_export_index x).
    cbv beta iota. rewrite Hd, emit_then_assoc, <- Hk.
    destruct (emit_matched _ _ _ _ _ _ _ _) as [[l status]|]; cbn; [|done].
    case_bool_decide as Hok; cbn; [|by rewrite bool_decide_eq_false_2].
    destruct (replay_exports _ _ _ _ _ _ _ _ _ _ _ _) as [[[l' left_] status']|]; cbn; [|done].
    case_bool_decide; cbn; [|done]. destruct (k left_) as [[??]|]; cbn; [|done]. by rewrite app_assoc.
  - exists [], (x :: es). split_and!; [done|by intros ? [= <-]| |].
    + constructor; [lia|]. rewrite Forall_forall. intros y Hy. specialize (Hx y Hy). rewrite less_spec in Hx. lia.
    + intros k. rewrite <- Hskip. by destruct (e <? n).
Qed.

Lemma replay_definitions_run fuel def es : (length es < fuel)%nat →
  StronglySorted less es → Forall entry_in_row es → Forall (λ x, def <= ix_defining_image x) es →
  replay_definitions mem target view table version importer fuel def (pair_of <$> es)
  = emit_list (pair_of <$> es).
Proof.
  revert def es. induction fuel as [|fuel IH]; intros def es Hf Hs Hin Hlow; [lia|].
  cbn [replay_definitions]. destruct es as [|x es]; [by destruct (def <? tb_image_count table)|].
  pose proof Hin as [[Hdx (first & n & Hrow & Hf1 & Hf2)] _]%Forall_cons.
  pose proof Hlow as [Hge _]%Forall_cons. rewrite (proj2 (Z.ltb_lt _ _)) by lia. cbn [negb fmap list_fmap].
  change (pair_of x) with (ix_defining_image x, ix_export_index x) at 1.
  cbv beta iota. rewrite Hrow. cbn [mbind option_bind].
  destruct (replay_exports_run (ix_defining_image x) first n (S (length (pair_of <$> x :: es))) 0 (x :: es))
    as (run & rest & E & Hrun & Hrest & Hk); [done|lia|lia|rewrite length_fmap; lia|done|done| |].
  { pose proof Hs as [Hx _]%StronglySorted_cons. constructor; [split; lia|].
    rewrite Forall_forall in *. intros y Hy. specialize (Hx y Hy). rewrite less_spec in Hx. split; [lia|].
    intros Hyd. lia. }
  cbn [fmap list_fmap] in Hk. rewrite (Hk (replay_definitions mem target view table version importer fuel _)).
  rewrite E in Hf, Hs, Hin, Hlow. rewrite IH.
  - rewrite <- emit_list_app, <- fmap_app, <- E. done.
  - assert (run ≠ []) by (by apply (Hrun x)). destruct run; [done|]. rewrite length_app in Hf. cbn in Hf. lia.
  - by apply StronglySorted_app in Hs as (_ & _ & ?).
  - by apply Forall_app in Hin as [_ ?].
  - eapply Forall_impl; [exact Hrest|]. cbn. lia.
Qed.
End Table.

(** ** Tables whose rows and names are good *)

Definition byte_valued (mem : memory) : Prop := ∀ a v, mem a = Some v → 0 <= v < 256.

Lemma read_le_range mem n a v : byte_valued mem → read_le mem n a = Some v → 0 <= v < 2 ^ (8 * Z.of_nat n).
Proof.
  intros Hm. revert a v. induction n as [|n IH]; intros a v H; [injection H as <-; cbn; lia|].
  change (mem a ≫= (λ b, read_le mem n (a + 1) ≫= λ rest, Some (b + 256 * rest)) = Some v) in H.
  destruct (mem a) as [b|] eqn:Hb; cbn [mbind option_bind] in H; [|done].
  destruct (read_le mem n (a + 1)) as [rest|] eqn:Hr; cbn [mbind option_bind] in H; [|done]. injection H as <-.
  specialize (Hm _ _ Hb). specialize (IH _ _ Hr).
  replace (8 * Z.of_nat (S n)) with (8 + 8 * Z.of_nat n) by lia. rewrite Z.pow_add_r by lia. lia.
Qed.

Section Answers.
Context (mem : memory) (Hmem : byte_valued mem).

Lemma read_u32_range a v : read_u32 mem a = Some v → 0 <= v < 2 ^ 32.
Proof. apply (read_le_range mem 4 a v Hmem). Qed.

(** The table of a view, all of whose rows and names are good. *)
Record good_table (view : cache_view) (version : Z) (table : table_v2)
    (entries : list cache_index_entry) : Prop := {
  gt_load : load_v2 mem view version = Some (inr table);
  gt_rows : index_rows mem table (Z.to_nat (tb_image_count table)) 0 = Some (inr entries);
  gt_images : tb_image_count table <= 2 ^ 32;
  gt_exports : tb_image_export_count table < 2 ^ 32 }.

Lemma good_row_bound table def first n : tb_image_export_count table < 2 ^ 32 →
  image_row mem table def = Some (inr (first, n)) → 0 <= first ∧ 0 <= n ∧ first + n < 2 ^ 32.
Proof.
  intros Hb H. unfold image_row in H. cbv zeta in H.
  do 4 (match type of H with mbind _ ?m = _ => destruct m eqn:? end; cbn [mbind option_bind] in H; [|done]).
  destruct (_ || _) eqn:E; [done|]. injection H as <- <-. apply orb_false_iff in E as [_ E].
  apply Z.ltb_ge in E. repeat match goal with H : read_u32 _ _ = Some _ |- _ => apply read_u32_range in H end. lia.
Qed.

Lemma good_sorted view version table entries : good_table view version table entries →
  0 <= tb_image_count table → StronglySorted less entries ∧ Forall (entry_in_row mem table) entries.
Proof.
  intros [_ Hrows Himg Hexp] H0. split.
  - apply (rows_sorted mem table (Z.to_nat (tb_image_count table)) 0); [lia|lia|done| |done].
    intros a v Hv%read_u32_range. lia.
  - apply (rows_in_row mem table (fun def first n => good_row_bound table def first n Hexp)
      (Z.to_nat (tb_image_count table)) 0); [lia|lia|lia|done].
Qed.

(** *** What a scan that ends well has seen *)

Lemma terminated_string fuel base size i : terminated mem fuel base size i = Some true →
  is_Some (string_at mem fuel (base + i)).
Proof.
  revert i. induction fuel as [|fuel IH]; intros i H; cbn [terminated string_at] in *; [done|].
  destruct (size <=? i); [done|]. destruct (read_u8 mem (base + i)) as [c|]; cbn in *; [|done].
  destruct (c =? 0); [by eexists|]. apply IH in H. replace (base + i + 1) with (base + (i + 1)) by lia.
  destruct H as [s ->]. by eexists.
Qed.

Lemma export_name_string table g name : export_name mem table g = Some (inr name) →
  is_Some (string_at mem (Z.to_nat (tb_names table + tb_names_size table - name)) name).
Proof.
  unfold export_name, bounded_string.
  destruct (read_u32 mem _) as [kind|]; cbn [mbind option_bind]; [|done].
  destruct (tb_names_size table <=? _) eqn:Ele; cbn [mbind option_bind]; [done|]. apply Z.leb_gt in Ele.
  destruct (terminated _ _ _ _ _) as [[]|] eqn:Et; cbn; [|done|done]. intros [= <-].
  apply terminated_string in Et.
  by replace (tb_names table + tb_names_size table - _) with (tb_names_size table - Z.land kind 268435455) by lia.
Qed.

Section Scan.
Context (target : hk_cache_patch_target) (view : cache_view) (table : table_v2).
Context (version importer : Z) (candidates : list (list Z)).

Lemma scan_ok_row count def first e l found :
  scan_loop count e (scan_export mem target view table version importer candidates def first)
    = Some (l, found, HK_CACHE_PATCH_OK) →
  ∃ entries, index_row mem table count def first e = Some (inr entries).
Proof.
  revert e l found. induction count as [|count IH]; intros e l found H; cbn [scan_loop index_row] in *; [by eexists|].
  unfold scan_then in H.
  destruct (scan_export _ _ _ _ _ _ _ _ _ e) as [[[l1 f1] st]|] eqn:E1; cbn in H; [|done].
  case_bool_decide as Hst; [subst st|by injection H as <- <- ->].
  destruct (scan_loop count (e + 1) _) as [[[l2 f2] st2]|] eqn:E2; cbn in H; [|done]. injection H as <- <- ->.
  destruct (IH _ _ _ E2) as [rest Hrest]. cbv zeta.
  unfold scan_export in E1. cbv zeta in E1.
  destruct (export_name mem table _) as [[[]|name]|] eqn:En; cbn in E1; [done| |done].
  destruct (export_name_string _ _ _ En) as [s Hs]. cbn. rewrite Hs. cbn. rewrite Hrest. by eexists.
Qed.

Lemma scan_ok_rows count def l found :
  scan_loop count def (scan_definition mem target view table version importer candidates)
    = Some (l, found, HK_CACHE_PATCH_OK) →
  ∃ entries, index_rows mem table count def = Some (inr entries).
Proof.
  revert def l found. induction count as [|count IH]; intros def l found H; cbn [scan_loop index_rows] in *; [by eexists|].
  unfold scan_then in H.
  destruct (scan_definition _ _ _ _ _ _ _ def) as [[[l1 f1] st]|] eqn:E1; cbn in H; [|done].
  case_bool_decide as Hst; [subst st|by injection H as <- <- ->].
  destruct (scan_loop count (def + 1) _) as [[[l2 f2] st2]|] eqn:E2; cbn in H; [|done]. injection H as <- <- ->.
  destruct (IH _ _ _ E2) as [rest Hrest]. unfold scan_definition in E1.
  destruct (image_row mem table def) as [[[]|[first n]]|]; cbn in E1 |- *; [done| |done].
  destruct (scan_ok_row _ _ _ _ _ _ E1) as [row Hrow]. rewrite Hrow, Hrest. by eexists.
Qed.

(** *** All three ways of a good table *)

Definition visits (s : scanned) : emits := '(l, _, status) ← s; Some (l, status).

Context (entries : list cache_index_entry) (Hgood : good_table view version table entries).
Context (Hpos : 0 <= tb_image_count table) (Hcand : Forall cstring candidates).

Definition matches_of : matched := pair_of <$> filter (wanted candidates) entries.

Lemma direct_scan_good :
  scans mem target view table version importer
    (direct_scan mem target view table version importer candidates) matches_of.
Proof.
  apply scan_rows; [done|lia| |apply Hgood]. pose proof (gt_images _ _ _ _ Hgood). lia.
Qed.

Lemma replay_good :
  replay_definitions mem target view table version importer (S (length matches_of)) 0 matches_of
  = visits (direct_scan mem target view table version importer candidates).
Proof.
  destruct (good_sorted _ _ _ _ Hgood Hpos) as [Hs Hin].
  unfold matches_of. rewrite length_fmap, replay_definitions_run.
  - symmetry. apply direct_scan_good.
  - lia.
  - by apply sorted_filter.
  - rewrite Forall_forall in *. intros x [_ Hx]%list_elem_of_filter. by apply Hin.
  - rewrite Forall_forall in *. intros x [_ Hx]%list_elem_of_filter. by apply Hin.
Qed.

Lemma index_good : NoDup candidates →
  let s := index_scan mem target view table version importer
             (index_matches (merge_sort index_entry_le entries) candidates) in
  visits s = visits (direct_scan mem target view table version importer candidates) ∧
  ∀ l found, s = Some (l, found, HK_CACHE_PATCH_OK) → found = matches_of.
Proof.
  intros Hd s. subst s. destruct (good_sorted _ _ _ _ Hgood Hpos) as [Hs _].
  rewrite index_matches_scan by done.
  destruct (index_scan_scans mem target view table version importer (filter (wanted candidates) entries)) as [H1 H2].
  split; [|exact H2]. unfold visits. rewrite H1. symmetry. apply direct_scan_good.
Qed.
End Scan.
End Answers.
