(* ===== verification/CacheReuse.v ===== *)
(** * What is kept of the shared cache stays true

    The indexes of the process and the matches of one preparation describe the
    patch table they were taken from; while they do, a lookup through them ends
    as the plain scan would. *)

From stdpp Require Import base list strings numbers option sorting.
From S2P Require Import Prelude Types Ownership Memory SymbolTable SymbolResolve MachO ImportSlots PointerAuth RebindEngine DyldCache DyldIndex DyldCacheSpec.

Section Tables.
Context (mem : memory) (Hmem : byte_valued mem).

Lemma patch_array_fits view address count stride start : 0 <= count →
  patch_array view address count stride = Some start → count * stride <= cv_size view.
Proof.
  intros H0. unfold patch_array. destruct (_ || _) eqn:E; [done|]. apply orb_false_iff in E as [E1 E2].
  apply Z.ltb_ge in E1, E2. destruct (range_at _ _ _ _ _) as [p|] eqn:Er; cbn; [|done]. intros _.
  unfold range_at in Er. destruct (_ || _); [done|].
  destruct (_ <? count * stride) eqn:E3; [done|]. apply Z.ltb_ge in E3. lia.
Qed.

Lemma load_pair_fits view off stride p :
  load_pair mem view off stride = Some (inr p) → 0 <= p.2 ∧ p.2 * stride <= cv_size view.
Proof.
  unfold load_pair. destruct (read_u64 mem (cv_patch view + (off + 8))) as [count|] eqn:Ec; cbn [mbind option_bind]; [|done].
  destruct (read_u64 mem (cv_patch view + off)) as [address|]; cbn [mbind option_bind]; [|done].
  destruct (patch_array _ _ _ _) as [start|] eqn:Ep; [|done]. intros [= <-]. cbn.
  pose proof (read_le_range mem 8 _ _ Hmem Ec). split; [lia|]. by apply patch_array_fits in Ep; [|lia].
Qed.

(** What loading a table says of its two largest counts. *)
Lemma load_v2_fits view version table : load_v2 mem view version = Some (inr table) →
  0 <= tb_image_count table ∧ tb_image_count table * CACHE_IMAGE_PATCH_V2_SIZE <= cv_size view ∧
  tb_image_export_count table * CACHE_IMAGE_EXPORT_V2_SIZE <= cv_size view.
Proof.
  unfold load_v2. destruct (_ <? _); [done|].
  destruct (read_u32 mem _) as [flags|]; cbn [mbind option_bind]; [|done]. destruct (negb _); [done|].
  destruct (load_pair mem view 8 _) as [[[]|images]|] eqn:Ei; [done| |done].
  destruct (load_pair mem view 24 _) as [[[]|exports]|] eqn:Ee; [done| |done].
  apply load_pair_fits in Ei as [Hi1 Hi2], Ee as [_ He].
  do 4 (destruct (load_pair mem view _ _) as [[[]|?]|]; [done| |done]). cbv zeta.
  destruct (3 <=? version); [|by intros [= <-]].
  do 3 (destruct (load_pair mem view _ _) as [[[]|?]|]; [done| |done]). by intros [= <-].
Qed.

(** ** The invariant *)

(** An index is the sorted entries of its view's table. *)
Definition slot_ok (x : index_slot) : Prop := ∃ table entries,
  good_table mem (xs_view x) (xs_version x) table entries ∧
  xs_entries x = merge_sort index_entry_le entries.

(** A complete lookup has the matches of its view's table, in order. *)
Definition lookup_ok (l : cache_lookup) : Prop := lk_complete l = true → ∃ table entries candidates,
  hk_symbol_build_candidates (Some (string_bytes (lk_symbol l))) (lk_convention l) = inr candidates ∧
  good_table mem (lk_view l) (lk_version l) table entries ∧
  lk_matches l = matches_of candidates entries.

Record caches_ok (s : cache_state) : Prop := {
  co_slots : Forall slot_ok (ch_slots s);
  co_lookup : ∀ l, ch_lookup s = Some l → lookup_ok l }.

Lemma caches_ok_slots s s' : caches_ok s → ch_slots s' = ch_slots s → ch_lookup s' = None → caches_ok s'.
Proof. intros [H1 H2] Es El. split; [by rewrite Es|]. by rewrite El. Qed.

Lemma cache_index_build_good view version h entries h' :
  cache_index_build mem view version h = Some (inr entries, h') →
  slot_ok (IndexSlot view version entries).
Proof.
  unfold cache_index_build. destruct (load_v2 mem view version) as [[[]|table]|] eqn:El; cbn [mbind option_bind]; [done| |done].
  destruct (_ || _) eqn:Eb; [done|].
  apply orb_false_iff in Eb as [Eb He], Eb as [Eb _], Eb as [_ Hi]. apply Z.ltb_ge in Hi, He.
  destruct (index_capacity _ _ _ _ _) as [[[]|capacity]|]; cbn [mbind option_bind]; [done| |done].
  destruct (_ <? capacity); [done|].
  destruct (if capacity =? 0 then _ else _) as [ok h1]. destruct (negb ok); [done|].
  destruct (index_rows _ _ _ _) as [[[]|rows]|] eqn:Er; cbn [mbind option_bind]; [done| |done].
  intros [= <- <-]. exists table, rows. cbn. split; [|done]. split; [done|done|lia|lia].
Qed.

Lemma cache_index_acquire_ok view version s index s' : caches_ok s →
  cache_index_acquire mem view version s = Some (index, s') →
  caches_ok s' ∧ ch_lookup s' = ch_lookup s ∧
  (∀ entries, index = Some entries → slot_ok (IndexSlot view version entries)).
Proof.
  intros Hs. unfold cache_index_acquire.
  destruct (List.find _ (ch_slots s)) as [x|] eqn:Ef.
  - intros [= <- <-]. split_and!; [done|done|]. intros entries [= <-].
    apply List.find_some in Ef as [Hin Hx]. apply andb_true_iff in Hx as [Hver Hview].
    apply Z.eqb_eq in Hver. apply bool_decide_eq_true in Hview. destruct Hs as [Hslots _].
    rewrite Forall_forall in Hslots. apply list_elem_of_In in Hin. specialize (Hslots _ Hin).
    by destruct x; cbn in *; subst.
  - destruct (negb _); [by intros [= <- <-]|]. destruct Hs as [Hslots Hlookup].
    destruct (cache_index_build mem view version (ch_heap s)) as [[[[]|entries] h]|] eqn:Eb;
      cbn [mbind option_bind]; [by intros [= <- <-]| |done].
    apply cache_index_build_good in Eb. intros [= <- <-]. split_and!; [split|done|by intros ? [= <-]].
    + apply Forall_app. by split; [|constructor].
    + done.
Qed.

(** ** Keeping matches *)

(** The lookups differ in their matches, by [found] unless memory ran out. *)
Record extends (l : cache_lookup) (found : matched) (l' : cache_lookup) : Prop := {
  ext_complete : lk_complete l' = lk_complete l;
  ext_view : lk_view l' = lk_view l;
  ext_version : lk_version l' = lk_version l;
  ext_symbol : lk_symbol l' = lk_symbol l;
  ext_convention : lk_convention l' = lk_convention l;
  ext_matches : lk_allocation_failed l' = false →
    lk_allocation_failed l = false ∧ lk_matches l' = lk_matches l ++ found }.

Lemma extends_nil l : extends l [] l.
Proof. split; [done..|]. by rewrite app_nil_r. Qed.

Lemma extends_app l1 l2 l3 found1 found2 :
  extends l1 found1 l2 → extends l2 found2 l3 → extends l1 (found1 ++ found2) l3.
Proof.
  intros [] []. split; [congruence..|]. intros Hf. destruct ext_matches1 as [Hf2 ->]; [done|].
  destruct ext_matches0 as [Hf1 ->]; [done|]. by rewrite app_assoc.
Qed.

Lemma lookup_append_extends l m h : extends l [m] (lookup_append l m h).1.
Proof.
  unfold lookup_append. destruct (lk_allocation_failed l) eqn:Ef; cbn; [split; [done..|]; by rewrite Ef|].
  destruct (_ =? lk_capacity l); cbn; [|by split].
  unfold bind. destruct (_ && _); [destruct (alloc h) as [[] h']|]; by split.
Qed.

Lemma lookup_append_all_extends l found h : extends l found (lookup_append_all l found h).1.
Proof.
  revert l h. induction found as [|m found IH]; intros l h; cbn [lookup_append_all]; [apply extends_nil|].
  unfold bind. pose proof (lookup_append_extends l m h) as H1.
  destruct (lookup_append l m h) as [l1 h1]. apply (extends_app l l1 _ [m]); [done|apply IH].
Qed.

Lemma lookup_begin_spec l view version : let l' := lookup_begin l view version in
  lk_symbol l' = lk_symbol l ∧ lk_convention l' = lk_convention l ∧
  lk_view l' = view ∧ lk_version l' = version ∧
  if lk_complete l' then l' = l else lk_matches l' = [].
Proof.
  unfold lookup_begin. cbv zeta.
  destruct (negb (bool_decide (lk_view l = view)) || negb (lk_version l =? version)) eqn:E.
  - cbn. by split_and!.
  - apply orb_false_iff in E as [E1%negb_false_iff E2%negb_false_iff].
    apply bool_decide_eq_true in E1. apply Z.eqb_eq in E2.
    destruct (lk_complete l) eqn:Ec; [by rewrite Ec|]. cbn. by rewrite Ec.
Qed.

Lemma keep_matches_ok l found status h candidates :
  hk_symbol_build_candidates (Some (string_bytes (lk_symbol l))) (lk_convention l) = inr candidates →
  lk_complete l = false → lk_matches l = [] →
  (status = HK_CACHE_PATCH_OK → ∃ table entries,
     good_table mem (lk_view l) (lk_version l) table entries ∧ found = matches_of candidates entries) →
  lookup_ok (keep_matches l found status h).1.
Proof.
  intros Hcand Hc Hm Hgood. unfold keep_matches, bind.
  pose proof (lookup_append_all_extends l found h) as [Ec Ev En Es Ex Em].
  destruct (lookup_append_all l found h) as [l' h']. cbn in *.
  destruct (bool_decide (status = HK_CACHE_PATCH_OK)) eqn:Est; cbn.
  - destruct (lk_allocation_failed l') eqn:Ef; cbn.
    + intros E. by rewrite Ec, Hc in E.
    + apply bool_decide_eq_true in Est. destruct (Hgood Est) as (table & entries & Ht & ->).
      intros _. exists table, entries, candidates. cbn. destruct (Em eq_refl) as [_ ->].
      by rewrite Ev, En, Es, Ex, Hm.
  - intros E. by rewrite Ec, Hc in E.
Qed.

Lemma settle_ok status s : caches_ok s → caches_ok (settle_lookup status s).
Proof.
  intros [H1 H2]. unfold settle_lookup. destruct (bool_decide _); [by split|]. split; [done|].
  cbn. intros l E. destruct (ch_lookup s); [|done]. by injection E as <-.
Qed.

(** What a scan that went wrong keeps does not matter. *)
Lemma settle_not_ok status s : Forall slot_ok (ch_slots s) →
  (∀ l, status = HK_CACHE_PATCH_OK → ch_lookup s = Some l → lookup_ok l) →
  caches_ok (settle_lookup status s).
Proof.
  intros H1 H2. unfold settle_lookup. destruct (bool_decide _) eqn:E.
  - apply bool_decide_eq_true in E. split; [done|]. intros l. by apply H2.
  - split; [done|]. cbn. intros l El. destruct (ch_lookup s); [|done]. by injection El as <-.
Qed.

Lemma candidates_ok name convention candidates : cstring name →
  hk_symbol_build_candidates (Some name) convention = inr candidates →
  Forall cstring candidates ∧ NoDup candidates.
Proof.
  intros Hn. unfold hk_symbol_build_candidates. cbv zeta.
  destruct (_ =? 0); [done|]. destruct (_ <? _); [done|].
  destruct (negb _); intros [= <-].
  - split; [by repeat constructor|]. apply NoDup_cons. split; [|apply NoDup_singleton].
    intros E%list_elem_of_singleton%(f_equal length). cbn in E. lia.
  - split; [by constructor|apply NoDup_singleton].
Qed.

(** ** The three ways are one *)

Section Parse.
Context (target : hk_cache_patch_target) (view : cache_view) (version importer : Z).
Context (symbol : string) (convention : Z) (candidates : list (list Z)).
Context (Hbuild : hk_symbol_build_candidates (Some (string_bytes symbol)) convention = inr candidates).
Context (Hname : cstring (string_bytes symbol)) (Hsize : cv_size view <= 2 ^ 34).

Lemma good_of_rows table entries : load_v2 mem view version = Some (inr table) →
  index_rows mem table (Z.to_nat (tb_image_count table)) 0 = Some (inr entries) →
  good_table mem view version table entries.
Proof.
  intros Hl Hr. destruct (load_v2_fits _ _ _ Hl) as (_ & H1 & H2).
  unfold CACHE_IMAGE_PATCH_V2_SIZE, CACHE_IMAGE_EXPORT_V2_SIZE in *. split; [done|done|lia|lia].
Qed.

(** The scan that is not a replay, through the index where there is one. *)
Definition fresh_scan (table : table_v2) (index : option (list cache_index_entry)) : scanned :=
  match index with
  | Some index => index_scan mem target view table version importer (index_matches index candidates)
  | None => direct_scan mem target view table version importer candidates
  end.

Lemma fresh_scan_spec table index : load_v2 mem view version = Some (inr table) →
  (∀ entries, index = Some entries → slot_ok (IndexSlot view version entries)) →
  visits (fresh_scan table index) = visits (fresh_scan table None) ∧
  ∀ l found, fresh_scan table index = Some (l, found, HK_CACHE_PATCH_OK) →
    ∃ entries, good_table mem view version table entries ∧ found = matches_of candidates entries.
Proof.
  intros Hl Hindex. destruct (candidates_ok _ _ _ Hname Hbuild) as [Hc Hd].
  destruct (load_v2_fits _ _ _ Hl) as [Hpos _]. destruct index as [entries|]; cbn [fresh_scan].
  - destruct (Hindex _ eq_refl) as (table' & rows & Hgood & E). cbn in Hgood, E. subst entries.
    pose proof (gt_load _ _ _ _ _ Hgood) as Hl'. rewrite Hl in Hl'. injection Hl' as <-.
    destruct (index_good mem Hmem target view table version importer candidates rows Hgood Hpos Hc Hd) as [H1 H2].
    split; [done|]. intros l found Hs. exists rows. split; [done|]. by eapply H2.
  - split; [done|]. intros l found Hs. destruct (scan_ok_rows _ _ _ _ _ _ _ _ _ _ _ Hs) as [rows Hrows].
    exists rows. pose proof (good_of_rows _ _ Hl Hrows) as Hgood. split; [done|].
    destruct (direct_scan_good mem target view table version importer candidates rows Hgood Hc) as [_ H].
    by eapply H.
Qed.

Lemma parse_v2_v4_ok index s sites status s' :
  caches_ok s → (∀ l, ch_lookup s = Some l → lk_symbol l = symbol ∧ lk_convention l = convention) →
  (∀ entries, index = Some entries → slot_ok (IndexSlot view version entries)) →
  parse_v2_v4 mem target view version importer candidates index s = Some (sites, status, s') →
  (∀ h, parse_v2_v4 mem target view version importer candidates None (CacheState h [] None)
        = Some (sites, status, CacheState h [] None)) ∧
  caches_ok (settle_lookup status s').
Proof.
  intros Hs Hown Hindex. unfold parse_v2_v4.
  destruct (load_v2 mem view version) as [[[]|table]|] eqn:Hl; cbn [mbind option_bind]; [|..|done].
  { intros [= <- <- <-]. split; [done|by apply settle_ok]. }
  destruct (_ || _); [intros [= <- <- <-]; split; [done|by apply settle_ok]|].
  destruct (fresh_scan_spec table index Hl Hindex) as [Hvis Hfound].
  change (match index with Some i => _ | None => _ end) with (fresh_scan table index).
  change (direct_scan mem target view table version importer candidates) with (fresh_scan table None).
  pose proof (co_slots _ Hs) as Hslots. cbn [ch_lookup ch_heap ch_slots].
  assert (Hplain : ∀ sites status, visits (fresh_scan table index) = Some (sites, status) →
    ∀ h, ('(l, _, status) ← fresh_scan table None; Some (l, status, CacheState h [] None))
         = Some (sites, status, CacheState h [] None)).
  { intros l0 st0 Hv h. rewrite Hvis in Hv. unfold visits in Hv.
    destruct (fresh_scan table None) as [[[??]?]|]; cbn in *; [|done]. by injection Hv as -> ->. }
  destruct (ch_lookup s) as [l|] eqn:El; [destruct (lk_allocation_failed l) eqn:Ef|].
  all: swap 1 2.
  { (* a lookup in use *)
    destruct (lookup_begin_spec l view version) as (Bs & Bc & Bv & Bn & Bm).
    destruct (Hown l eq_refl) as [Os Oc]. rewrite Os in Bs. rewrite Oc in Bc. cbv zeta.
    destruct (lk_complete (lookup_begin l view version)) eqn:Ec.
    - rewrite Bm in Ec, Bs, Bc, Bv, Bn |- *.
      destruct (co_lookup _ Hs _ El Ec) as (table' & rows & cs & Hcs & Hgood & Hms).
      rewrite Os, Oc, Hbuild in Hcs. injection Hcs as <-. rewrite Bv, Bn in Hgood.
      pose proof (gt_load _ _ _ _ _ Hgood) as Hl'. rewrite Hl in Hl'. injection Hl' as <-.
      destruct (load_v2_fits _ _ _ Hl) as [Hpos _]. destruct (candidates_ok _ _ _ Hname Hbuild) as [Hc _].
      rewrite Hms, (replay_good mem Hmem target view table version importer candidates rows Hgood Hpos Hc).
      fold (fresh_scan table None). rewrite <- Hvis.
      destruct (visits (fresh_scan table index)) as [[l0 st0]|] eqn:Ev; cbn [mbind option_bind]; [|done].
      intros [= <- <- <-]. split; [by apply Hplain|]. apply settle_ok. split; [done|].
      cbn. intros ? [= <-]. by apply (co_lookup _ Hs).
    - destruct (fresh_scan table index) as [[[l0 found] st0]|] eqn:Ev; cbn [mbind option_bind]; [|done].
      pose proof (keep_matches_ok (lookup_begin l view version) found st0 (ch_heap s) candidates) as Hk.
      destruct (keep_matches _ found st0 (ch_heap s)) as [k h]. intros [= <- <- <-].
      split; [by apply Hplain|]. apply settle_not_ok; [done|]. cbn. intros ? -> [= <-].
      apply Hk; [by rewrite Bs, Bc|done|done|]. intros _. rewrite Bv, Bn. exists table. by eapply Hfound. }
  all: cbv zeta; destruct (fresh_scan table index) as [[[l0 found] st0]|] eqn:Ev; cbn [mbind option_bind];
    [|done]; intros [= <- <- <-]; (split; [by apply Hplain|by apply settle_ok]).
Qed.
End Parse.

(** ** The entry point *)

(** A target that makes no claim on its metadata: no index is built for it. *)
Definition mutable_target (target : hk_cache_patch_target) : hk_cache_patch_target :=
  CachePatchTarget (ct_cache_base target) (ct_cache_size target) (ct_image_header target)
    (ct_image_header_size target) (ct_image_slide target) (ct_image_path target) (ct_uuid target)
    (ct_include_shared_got target) false.

Lemma mutable_parse_v1 target : parse_v1 mem (mutable_target target) = parse_v1 mem target.
Proof. destruct target. reflexivity. Qed.
Lemma mutable_parse_v2_v4 target : parse_v2_v4 mem (mutable_target target) = parse_v2_v4 mem target.
Proof. destruct target. reflexivity. Qed.
Lemma mutable_open_cache target : open_cache mem (mutable_target target) = open_cache mem target.
Proof. destruct target. reflexivity. Qed.

(** The answer of a lookup that keeps nothing. *)
Definition plain_state (h : heap) : cache_state := CacheState h [] None.

Lemma settle_plain status h : settle_lookup status (plain_state h) = plain_state h.
Proof. unfold settle_lookup. by destruct (bool_decide _). Qed.

Lemma parse_table_ok target view importer images_count mapping_offset symbol convention candidates
    s sites status s' :
  hk_symbol_build_candidates (Some (string_bytes symbol)) convention = inr candidates →
  cstring (string_bytes symbol) → cv_size view <= 2 ^ 34 → caches_ok s →
  (∀ l, ch_lookup s = Some l → lk_symbol l = symbol ∧ lk_convention l = convention) →
  parse_table mem target view importer images_count mapping_offset candidates s
    = Some (sites, status, s') →
  (∀ h, parse_table mem (mutable_target target) view importer images_count mapping_offset candidates
          (plain_state h) = Some (sites, status, plain_state h)) ∧
  caches_ok s'.
Proof.
  intros Hbuild Hname Hsize Hs Hown. unfold parse_table. rewrite mutable_parse_v1, mutable_parse_v2_v4.
  destruct (if mapping_offset <=? _ then _ else _) as [version|]; cbn [mbind option_bind]; [|done].
  destruct (cv_patch_size view <? 24); [by intros [= <- <- <-]|].
  destruct (read_u64 mem _) as [n|]; cbn [mbind option_bind]; [|done].
  destruct (negb _); [by intros [= <- <- <-]|].
  destruct (version =? 1).
  { destruct (parse_v1 mem target view candidates) as [[l st]|]; cbn [mbind option_bind]; [|done].
    intros [= <- <- <-]. split; [intros h; by rewrite settle_plain|by apply settle_ok]. }
  destruct (_ && _); [|by intros [= <- <- <-]].
  cbn [ct_immutable_metadata mutable_target andb mbind option_bind]. cbv zeta.
  destruct (if (ct_immutable_metadata target && _)%bool then _ else _) as [[index s1]|] eqn:Ea;
    cbn [mbind option_bind]; [|done].
  assert (H1 : caches_ok s1 ∧ ch_lookup s1 = ch_lookup s ∧
    ∀ entries, index = Some entries → slot_ok (IndexSlot view version entries)).
  { destruct (_ && _) in Ea; [by eapply cache_index_acquire_ok|by injection Ea as <- <-]. }
  destruct H1 as (Hs1 & El & Hindex).
  destruct (parse_v2_v4 mem target view version importer candidates index s1) as [[[l st] s2]|] eqn:Ep;
    cbn [mbind option_bind]; [|done]. intros [= <- <- <-].
  apply (parse_v2_v4_ok target view version importer symbol convention candidates Hbuild Hname Hsize)
    in Ep as [Hplain Hok]; [|done|by rewrite El|done].
  split; [|done]. intros h. unfold plain_state. rewrite Hplain. cbn [mbind option_bind].
  by rewrite (settle_plain st h : settle_lookup st (CacheState h [] None) = _).
Qed.

(** An accepted opening, step by step. *)
Ltac accepted H :=
  repeat match type of H with
    | None = Some _ => discriminate H
    | refuse _ = Some (inr _) => discriminate H
    | mbind _ ?m = Some _ => destruct m; cbn [mbind option_bind] in H
    | check_bind ?m _ = Some _ => destruct m as [[?|?]|]; cbn [check_bind] in H; try discriminate H
    | (if ?b then _ else _) = Some _ => destruct b
    | match ?m with None => _ | Some _ => _ end = Some _ => destruct m
    | match ?m with inl _ => _ | inr _ => _ end = Some _ => destruct m
    end.

Lemma open_cache_size target view importer n offset :
  open_cache mem target = Some (inr (view, importer, n, offset)) → cv_size view = ct_cache_size target.
Proof. unfold open_cache. cbv zeta. intros H. accepted H. unfold accept in H. by injection H as <- _ _ _. Qed.
End Tables.

(** C18. The indexes kept for the process and the matches kept for one
    preparation change no answer of the shared-cache lookup: on unchanging
    memory, whatever valid caches it starts from, the lookup visits the sites
    and ends with the status of a lookup that keeps nothing and claims nothing
    of its metadata; and the caches it leaves are valid again, so this holds of
    every later lookup. *)
Theorem caching_transparent mem target symbol convention s sites status s' :
  byte_valued mem → cstring (string_bytes symbol) → ct_cache_size target <= 2 ^ 34 →
  caches_ok mem s →
  hk_dyld_cache_iterate_symbol_uses_with_lookup mem target (Some symbol) convention s
    = Some (sites, status, s') →
  (∀ h, hk_dyld_cache_iterate_symbol_uses mem (mutable_target target) (Some symbol) convention
          (plain_state h) = Some (sites, status, plain_state h)) ∧
  caches_ok mem s'.
Proof.
  intros Hmem Hname Hsize Hs. unfold hk_dyld_cache_iterate_symbol_uses, hk_dyld_cache_iterate_symbol_uses_with_lookup.
  rewrite mutable_open_cache. cbv zeta. cbn [ct_cache_base ct_image_header ct_image_path ct_cache_size mutable_target].
  destruct (_ || _); [by intros [= <- <- <-]|].
  destruct (open_cache mem target) as [[st|[[[view importer] n] offset]]|] eqn:Eo; cbn [mbind option_bind];
    [by intros [= <- <- <-]| |done].
  pose proof (open_cache_size _ _ _ _ _ _ Eo) as Hv.
  destruct (hk_symbol_build_candidates _ convention) as [st|candidates] eqn:Eb; [by intros [= <- <- <-]|].
  set (own := match ch_lookup s with Some l => _ | None => _ end).
  set (s0 := if own then s else s <| ch_lookup := None |>).
  destruct (parse_table mem target view importer n offset candidates s0) as [[[l st] s1]|] eqn:Ep;
    cbn [mbind option_bind]; [|done]. intros [= <- <- <-].
  apply (parse_table_ok mem Hmem target view importer n offset symbol convention candidates) in Ep as [Hplain Hok];
    [|done|done|lia| |].
  - split.
    { intros h. specialize (Hplain h). cbv beta iota.
      change (ch_lookup (plain_state h <| ch_lookup := None |>)) with (@None cache_lookup).
      cbv beta iota.
      match type of Hplain with ?x = _ =>
        match goal with |- mbind _ ?y = _ => change y with x end end.
      by rewrite Hplain. }
    subst s0. destruct own; [done|]. by destruct Hs, Hok.
  - subst s0. destruct own; [done|]. by destruct Hs.
  - subst s0. destruct own eqn:E; [|done]. intros k Ek. subst own. rewrite Ek in E.
    apply andb_true_iff in E as [E1 E2]. apply Z.eqb_eq in E1. by apply bool_decide_eq_true in E2.
Qed.

(** ** A small cache *)

Module DemoCache.
Definition le32 (v : Z) : list Z := le_bytes 4 v.
Definition le64 (v : Z) : list Z := le_bytes 8 v.
Definition base : Z := 0x1000.

(** Pieces of the file, each padded to where the next begins. *)
Definition upto (n : nat) (l : list Z) : list Z := take n (l ++ replicate n 0).

Definition cache_header : list Z :=
  upto 16 [] ++ le32 456 ++ le32 1 ++ upto 128 [] ++ le64 (base + 664) ++ le64 176 ++
  upto 280 [] ++ le32 488 ++ le32 1.
Definition mappings : list Z := upto 32 (le64 base).
Definition images : list Z := upto 32 (le64 (base + 560) ++ upto 16 [] ++ le32 520).
Definition paths : list Z := upto 40 (string_bytes "/a").

(** One writable segment, with the slot. *)
Definition macho : list Z :=
  le32 0xfeedfacf ++ le32 0x0100000c ++ le32 0 ++ le32 6 ++ le32 1 ++ le32 72 ++ le32 0 ++ le32 0 ++
  le32 0x19 ++ le32 72 ++ upto 16 (string_bytes "__DATA") ++ le64 (base + 960) ++ le64 64 ++
  le64 0 ++ le64 0 ++ le32 3 ++ le32 3 ++ le32 0 ++ le32 0.

Definition pair (offset count : Z) : list Z := le64 (base + offset) ++ le64 count.
Definition patches : list Z :=
  le32 2 ++ le32 0 ++ pair 768 1 ++ pair 784 2 ++ pair 800 1 ++ pair 812 1 ++ pair 824 1 ++ pair 832 6 ++
  le32 0 ++ le32 1 ++ le32 0 ++ le32 2 ++          (* the image *)
  le32 0 ++ le32 0 ++ le32 0 ++ le32 3 ++          (* two exports *)
  le32 0 ++ le32 0 ++ le32 1 ++                    (* a client *)
  le32 0 ++ le32 0 ++ le32 1 ++                    (* its use of the first *)
  le32 408 ++ le32 0 ++                            (* at one slot *)
  string_bytes "_f" ++ [0] ++ string_bytes "_g" ++ [0].

Definition file : list Z := cache_header ++ mappings ++ images ++ paths ++ macho ++ upto 360 patches.
Definition memory : Memory.memory := memory_of base file.
Definition target : hk_cache_patch_target :=
  CachePatchTarget base 1024 (base + 560) 104 0 (Some "/a"%string) None false true.

Definition heap : Prelude.heap := Heap (λ _, false) 0 0x1000.
Definition start : cache_state :=
  CacheState heap [] (Some (CacheLookup (CacheView 0 0 0 0 0) 0 0 "f"%string [] 0 false false)).
Definition lookup (s : cache_state) :=
  hk_dyld_cache_iterate_symbol_uses_with_lookup memory target (Some "f"%string) 0 s.

(** The state a first lookup leaves, and the slot. *)
Definition after : cache_state :=
  Eval vm_compute in match lookup start with Some (_, _, s) => s | None => start end.
Definition site : hk_cache_patch_site :=
  CachePatchSite (base + 968) (PacSchema false 0 0 false) 0 false.
End DemoCache.

Lemma demo_cache_bytes : byte_valued DemoCache.memory.
Proof.
  intros a v. unfold DemoCache.memory, memory_of. destruct (a <? _); [done|]. intros Hv.
  assert (Forall (λ b, 0 <= b < 256) DemoCache.file) as HF
    by (apply (bool_decide_unpack (Forall _ _)); vm_compute; exact I).
  by eapply Forall_lookup_1 in HF.
Qed.

Lemma demo_first : DemoCache.lookup DemoCache.start
  = Some ([DemoCache.site], HK_CACHE_PATCH_OK, DemoCache.after).
Proof. vm_compute. reflexivity. Qed.
Lemma demo_second : DemoCache.lookup DemoCache.after
  = Some ([DemoCache.site], HK_CACHE_PATCH_OK, DemoCache.after).
Proof. vm_compute. reflexivity. Qed.

(** A first lookup builds the index, a second replays its matches. *)
Lemma caching_transparent_witness :
  DemoCache.lookup DemoCache.start = Some ([DemoCache.site], HK_CACHE_PATCH_OK, DemoCache.after) ∧
  DemoCache.lookup DemoCache.after = Some ([DemoCache.site], HK_CACHE_PATCH_OK, DemoCache.after) ∧
  caches_ok DemoCache.memory DemoCache.after ∧
  ∀ h, hk_dyld_cache_iterate_symbol_uses DemoCache.memory (mutable_target DemoCache.target)
         (Some "f"%string) 0 (plain_state h)
       = Some ([DemoCache.site], HK_CACHE_PATCH_OK, plain_state h).
Proof.
  assert (Hname : cstring (string_bytes "f")) by (by repeat constructor).
  assert (Hstart : caches_ok DemoCache.memory DemoCache.start).
  { split; [constructor|]. intros l E. injection E as <-. intros E. discriminate E. }
  assert (Hsize : ct_cache_size DemoCache.target <= 2 ^ 34) by (vm_compute; discriminate).
  pose proof (caching_transparent DemoCache.memory DemoCache.target "f"%string 0 DemoCache.start
    [DemoCache.site] HK_CACHE_PATCH_OK DemoCache.after demo_cache_bytes Hname Hsize Hstart demo_first) as [_ H1].
  pose proof (caching_transparent DemoCache.memory DemoCache.target "f"%string 0 DemoCache.after
    [DemoCache.site] HK_CACHE_PATCH_OK DemoCache.after demo_cache_bytes Hname Hsize H1 demo_second) as [H2 H3].
  exact (conj demo_first (conj demo_second (conj H3 H2))).
Defined.
