(* ===== verification/RebindCache.v ===== *)
(** * The rebind engine: import metadata and its caches
    (src/engines/HKRebindEngine.c: [prepare_file_chains] and
    [hk_rebind_prepare_with_lookup])

    Chained images are read from their file, which stays mapped in a cache of
    four; the sites of a symbol are kept in a cache of eight.  The live
    mappings are part of the state, and a read through a mapping that is gone
    has no result. *)

From stdpp Require Import base list strings numbers option.
From S2P Require Import Prelude Types Ownership Memory SymbolTable SymbolResolve MachO ImportSlots ChainedFixups PointerAuth RebindEngine DyldCache.

Definition HK_REBIND_MAX_SEGMENTS : Z := 64.
Definition HK_REBIND_FILE_CACHE_SIZE : Z := 4.
Definition HK_REBIND_SYMBOL_CACHE_SIZE : Z := 8.

(** The writer is apart: preparation has none. *)
Record hk_rebind_target : Type := RebindTarget {
  rt_image_base : Z;
  rt_image_size : Z;
  rt_slide : Z;
  rt_image_path : option string;
  rt_file_image : Z;
  rt_file_image_size : Z;
  rt_cache_base : Z;
  rt_cache_size : Z;
  rt_uuid : option (list Z);
  rt_include_shared_cache_got : bool }.

#[export] Instance hk_rebind_target_eta : Eta hk_rebind_target := λ t,
  RebindTarget (rt_image_base t) (rt_image_size t) (rt_slide t) (rt_image_path t) (rt_file_image t)
    (rt_file_image_size t) (rt_cache_base t) (rt_cache_size t) (rt_uuid t)
    (rt_include_shared_cache_got t).

(** [file_view_t] *)
Record file_view : Type := FileView {
  fv_base : Z;
  fv_size : Z;
  fv_mapped : bool }.

(** What is known of a file once its metadata is read. *)
Record loaded_file : Type := LoadedFile {
  lf_slice : Z;
  lf_slice_size : Z;
  lf_fixups : hk_chained_fixups;
  lf_collected : list hk_macho_segment;
  lf_mappings : list hk_chained_segment_mapping;
  lf_preferred : Z }.

(** An entry of [g_rebind_file_cache]. *)
Record file_entry : Type := FileEntry {
  fe_path : string;
  fe_image_base : Z;
  fe_cputype : Z;
  fe_cpusubtype : Z;
  fe_file : file_view;
  fe_loaded : loaded_file }.

(** What the symbol cache keeps of a site. *)
Record cached_site : Type := CachedSite {
  ks_address : Z;
  ks_addend : Z;
  ks_schema : hk_pac_schema;
  ks_weak : bool }.

(** An entry of [g_rebind_symbol_cache]. *)
Record symbol_entry : Type := SymbolEntry {
  ye_path : string;
  ye_image_base : Z;
  ye_symbol : string;
  ye_convention : Z;
  ye_sites : list cached_site }.

(** A live mapping: where it is, and the file's bytes. *)
Abbreviation mapping := (Z * list Z)%type.

Record rebind_globals : Type := RebindGlobals {
  rg_heap : heap;
  rg_maps : list mapping;
  rg_files : list (option file_entry);
  rg_files_next : Z;
  rg_symbols : list (option symbol_entry);
  rg_symbols_next : Z;
  rg_slots : list index_slot }.

#[export] Instance rebind_globals_eta : Eta rebind_globals := λ g,
  RebindGlobals (rg_heap g) (rg_maps g) (rg_files g) (rg_files_next g) (rg_symbols g)
    (rg_symbols_next g) (rg_slots g).

(** As the process starts. *)
Definition no_globals (h : heap) : rebind_globals :=
  RebindGlobals h [] (replicate 4 None) 0 (replicate 8 None) 0 [].

(** ** Computations on the globals that may fault *)

Definition R (A : Type) : Type := rebind_globals → option (A * rebind_globals).
Definition rret {A} (a : A) : R A := λ g, Some (a, g).
Definition rbind {A B} (m : R A) (k : A → R B) : R B := λ g, '(a, g) ← m g; k a g.
Notation "x <== m ;; k" := (rbind m (λ x, k))
  (at level 100, m at next level, right associativity) : monad_scope.
Definition rmodify (f : rebind_globals → rebind_globals) : R unit := λ g, Some (tt, f g).
Definition rgets {A} (f : rebind_globals → A) : R A := λ g, Some (f g, g).
Definition on_heap {A} (m : M heap A) : R A := λ g,
  let '(a, h) := m (rg_heap g) in Some (a, g <| rg_heap := h |>).

Fixpoint first_free {A} (i : Z) (entries : list (option A)) : option Z :=
  match entries with
  | [] => None
  | None :: _ => Some i
  | Some _ :: entries => first_free (i + 1) entries
  end.

(** The slot of an array of a cache to fill, and the counter after it: the
    first free one, or the next in turn. *)
Definition cache_victim {A} (size : Z) (entries : list (option A)) (next : Z) : Z * Z :=
  match first_free 0 entries with
  | Some i => (i, next)
  | None => (next mod size, (next mod size + 1) mod size)
  end.

Definition set_entry {A} (i : Z) (e : option A) (entries : list (option A)) : list (option A) :=
  <[Z.to_nat i := e]> entries.

(** The first valid entry with the property. *)
Definition find_entry {A} (P : A → bool) (entries : list (option A)) : option A :=
  match List.find (λ e, match e with Some a => P a | None => false end) entries with
  | Some e => e
  | None => None
  end.

(** ** Reading a file's metadata *)

Definition as_malformed {E A} (m : checked E A) : checked hk_rebind_status A :=
  match m with
  | None => None
  | Some (inl _) => refuse HK_REBIND_MALFORMED_IMAGE
  | Some (inr a) => accept a
  end.

(** [collect_segment]; the flag is [overflow]. *)
Definition collect_segment (c : list hk_macho_segment * bool) (index : Z) (s : hk_macho_segment)
    : visited (list hk_macho_segment * bool) :=
  if HK_REBIND_MAX_SEGMENTS <=? index then Some (false, (c.1, true))
  else Some (true, (c.1 ++ [s], c.2)).

Definition is_pagezero (s : hk_macho_segment) : bool := bool_decide (sg_segname s = PAGEZERO).

Definition preferred_base (segments : list hk_macho_segment) : Z :=
  foldl (λ preferred s,
    if negb (is_pagezero s) && (sg_vmaddr s <? preferred) then sg_vmaddr s else preferred)
    UINT64_MAX segments.

Fixpoint segment_mappings (preferred slice_size : Z) (segments : list hk_macho_segment)
    : option (list hk_chained_segment_mapping) :=
  match segments with
  | [] => Some []
  | s :: segments =>
      if is_pagezero s then
        rest ← segment_mappings preferred slice_size segments;
        Some (SegmentMapping 0 0 0 :: rest)
      else if (sg_vmaddr s <? preferred) || (slice_size <? sg_fileoff s) ||
              (slice_size - sg_fileoff s <? sg_filesize s)
      then None
      else
        rest ← segment_mappings preferred slice_size segments;
        Some (SegmentMapping (sg_vmaddr s - preferred) (sg_fileoff s) (sg_filesize s) :: rest)
  end.

Section Load.
Context (mem : memory).

(** From the file's bytes to its chains, as both the uncached and the caching
    path read them. *)
Definition load_file (image_base : Z) (header : hk_macho_header) (file : file_view)
    : checked hk_rebind_status loaded_file :=
  slice ← hk_macho_select_slice mem (fv_base file) (fv_size file) (mh_cputype header)
            (mh_cpusubtype header);
  match slice with
  | inl HK_MACHO_NOT_FOUND => refuse HK_REBIND_UNSUPPORTED_FORMAT
  | inl _ => refuse HK_REBIND_MALFORMED_IMAGE
  | inr (slice, slice_size) =>
      live <~ as_malformed (hk_macho_copy_uuid mem image_base
                (HK_MACHO_HEADER_64_SIZE + mh_sizeofcmds header)) ;;
      file_uuid <~ as_malformed (hk_macho_copy_uuid mem slice slice_size) ;;
      if negb (bool_decide (live = file_uuid)) then refuse HK_REBIND_MALFORMED_IMAGE
      else
        range <~ as_malformed (hk_macho_find_chained_fixups mem slice slice_size) ;;
        fixups ← hk_chained_fixups_parse mem (slice + range.1) range.2;
        match fixups with
        | inl HK_CHAINED_UNSUPPORTED_FORMAT | inl HK_CHAINED_UNSUPPORTED_VERSION =>
            refuse HK_REBIND_UNSUPPORTED_FORMAT
        | inl _ => refuse HK_REBIND_MALFORMED_IMAGE
        | inr fixups =>
            '(status, c) ← hk_macho_iterate_segments mem collect_segment slice slice_size ([], false);
            if negb (bool_decide (status = HK_MACHO_OK)) || c.2 || (Z.of_nat (length c.1) =? 0)
            then refuse (if c.2 then HK_REBIND_UNSUPPORTED_FORMAT else HK_REBIND_MALFORMED_IMAGE)
            else
              let preferred := preferred_base c.1 in
              if preferred =? UINT64_MAX then refuse HK_REBIND_MALFORMED_IMAGE
              else
                match segment_mappings preferred slice_size c.1 with
                | None => refuse HK_REBIND_MALFORMED_IMAGE
                | Some mappings =>
                    accept (LoadedFile slice slice_size fixups c.1 mappings preferred)
                end
        end
  end.

(** The verdict on a walk, where it is not yet settled by the plan. *)
Definition chains_error (c : chained_ctx) (chained : hk_chained_status) : option hk_rebind_status :=
  if cc_overflow c then Some HK_REBIND_TOO_MANY_SITES
  else if cc_pac_mismatch c then Some HK_REBIND_PAC_MISMATCH
  else if cc_malformed c || bool_decide (chained = HK_CHAINED_MALFORMED)
  then Some HK_REBIND_MALFORMED_IMAGE
  else if negb (bool_decide (chained = HK_CHAINED_OK)) then Some HK_REBIND_UNSUPPORTED_FORMAT
  else None.

Definition found_sites (plan : hk_rebind_plan) : hk_rebind_status :=
  match rp_sites plan with [] => HK_REBIND_NOT_FOUND | _ => HK_REBIND_OK end.

Context `{PacOps}.

(** The walk over the chains of a loaded file, from [plan]. *)
Definition parse_chains (target : hk_rebind_target) (candidates : list (list Z)) (file : loaded_file)
    (plan : hk_rebind_plan) : option (option hk_rebind_status * hk_rebind_plan) :=
  '(chained, c) ← hk_chained_fixups_iterate_file_binds mem
                    (chained_bind_cb mem (lf_fixups file) candidates (rt_image_base target)
                       (rt_image_size target))
                    (lf_fixups file) (lf_slice file) (lf_slice_size file) (Some (lf_mappings file))
                    (ChainedCtx plan false false false);
  Some (chains_error c chained, cc_plan c).

(** The sites of a cache hit, added afresh. *)
Fixpoint replay_sites (sites : list cached_site) (plan : hk_rebind_plan)
    : option (option hk_rebind_status * hk_rebind_plan) :=
  match sites with
  | [] => Some (None, plan)
  | s :: sites =>
      '(status, plan) ← add_site mem plan (ks_address s) (ks_schema s) (ks_addend s) (ks_weak s)
                          true false;
      match status with
      | ADD_SITE_OVERFLOW => Some (Some HK_REBIND_TOO_MANY_SITES, plan)
      | ADD_SITE_MALFORMED => Some (Some HK_REBIND_MALFORMED_IMAGE, plan)
      | ADD_SITE_PAC_MISMATCH => Some (Some HK_REBIND_PAC_MISMATCH, plan)
      | ADD_SITE_OK => replay_sites sites plan
      end
  end.
End Load.

(** The verdict once nothing went wrong on the way. *)
Definition settled (error : option hk_rebind_status) (plan : hk_rebind_plan) : hk_rebind_status :=
  match error with Some status => status | None => found_sites plan end.

Definition cached_of (s : hk_rebind_site) : cached_site :=
  CachedSite (rs_address s) (rs_addend s) (rs_schema s) (rs_weak_import s).

(** ** The caches *)

Definition file_matches (target : hk_rebind_target) (header : hk_macho_header) (e : file_entry)
    : bool :=
  bool_decide (rt_image_path target = Some (fe_path e)) &&
  (rt_image_base target =? fe_image_base e) && (mh_cputype header =? fe_cputype e) &&
  (mh_cpusubtype header =? fe_cpusubtype e).

Definition cached_symbol_matches (target : hk_rebind_target) (symbol : string) (convention : Z)
    (e : symbol_entry) : bool :=
  (ye_image_base e =? rt_image_base target) && (ye_convention e =? convention) &&
  bool_decide (Some (ye_path e) = rt_image_path target) && bool_decide (ye_symbol e = symbol).

(** The copies of the path and the symbol, [false] where one is NULL. *)
Definition alloc_strings : M heap bool :=
  p <- alloc ;; s <- alloc ;; ret (p && s).

(** A symbol's sites go into the cache, unless its strings cannot be copied. *)
Definition store_symbol (target : hk_rebind_target) (path symbol : string) (convention : Z)
    (plan : hk_rebind_plan) : R unit :=
  g <== rgets id ;;
  let '(victim, next) := cache_victim HK_REBIND_SYMBOL_CACHE_SIZE (rg_symbols g) (rg_symbols_next g) in
  _ <== rmodify (λ g, g <| rg_symbols := set_entry victim None (rg_symbols g) |>
                        <| rg_symbols_next := next |>) ;;
  copied <== on_heap alloc_strings ;;
  if copied : bool then
    rmodify (λ g, g <| rg_symbols := set_entry victim
      (Some (SymbolEntry path (rt_image_base target) symbol convention (cached_of <$> rp_sites plan)))
      (rg_symbols g) |>)
  else rret tt.

Section Process.
Context `{PacOps}.
(** The image's own memory, the files of the disk, and where a mapping of so
    many bytes is put beside the live ones. *)
Context (image_mem : memory) (file_bytes : string → option (list Z)).
Context (place : list mapping → Z → option Z).

Definition in_mapping (a : Z) (m : mapping) : bool :=
  (m.1 <=? a) && (a <? m.1 + Z.of_nat (length m.2)).

Definition live_memory (maps : list mapping) : memory := λ a,
  match List.find (in_mapping a) maps with
  | Some m => m.2 !! Z.to_nat (a - m.1)
  | None => image_mem a
  end.

(** A computation that reads memory as it is mapped now. *)
Definition reading {A} (f : memory → option A) : R A := λ g,
  a ← f (live_memory (rg_maps g)); Some (a, g).

Definition open_file_view (target : hk_rebind_target) : R (option file_view) := λ g,
  if negb (rt_file_image target =? 0) && negb (rt_file_image_size target =? 0)
  then Some (Some (FileView (rt_file_image target) (rt_file_image_size target) false), g)
  else
    match rt_image_path target with
    | None => Some (None, g)
    | Some path =>
        match file_bytes path with
        | None | Some [] => Some (None, g)
        | Some bytes =>
            match place (rg_maps g) (Z.of_nat (length bytes)) with
            | None => Some (None, g)
            | Some base =>
                Some (Some (FileView base (Z.of_nat (length bytes)) true),
                      g <| rg_maps := (base, bytes) :: rg_maps g |>)
            end
        end
    end.

Definition close_file_view (view : file_view) : R unit :=
  if fv_mapped view
  then rmodify (λ g, g <| rg_maps := filter (λ m : mapping, m.1 ≠ fv_base view) (rg_maps g) |>)
  else rret tt.

(** The host seam, which bypasses the caches. *)
Definition prepare_file_image (target : hk_rebind_target) (candidates : list (list Z))
    (header : hk_macho_header) (plan : hk_rebind_plan) : R (hk_rebind_status * hk_rebind_plan) :=
  view <== open_file_view target ;;
  match view with
  | None => rret (HK_REBIND_METADATA_UNAVAILABLE, plan)
  | Some view =>
      loaded <== reading (λ mem, load_file mem (rt_image_base target) header view) ;;
      match loaded with
      | inl status => _ <== close_file_view view ;; rret (status, plan)
      | inr file =>
          r <== reading (λ mem, parse_chains mem target candidates file plan) ;;
          _ <== close_file_view view ;;
          rret (settled r.1 r.2, r.2)
      end
  end.

(** The file's metadata is cached: the symbol's sites may be, too. *)
Definition prepare_hit (target : hk_rebind_target) (path symbol : string) (convention : Z)
    (candidates : list (list Z)) (e : file_entry) (plan : hk_rebind_plan)
    : R (hk_rebind_status * hk_rebind_plan) :=
  g <== rgets id ;;
  match find_entry (cached_symbol_matches target symbol convention) (rg_symbols g) with
  | Some cached =>
      r <== reading (λ mem, replay_sites mem (ye_sites cached) plan) ;;
      rret (settled r.1 r.2, r.2)
  | None =>
      r <== reading (λ mem, parse_chains mem target candidates (fe_loaded e) plan) ;;
      match r.1 with
      | Some status => rret (status, r.2)
      | None =>
          _ <== store_symbol target path symbol convention r.2 ;;
          rret (found_sites r.2, r.2)
      end
  end.

(** The mapping passes to the cache, or is dropped with the entry that cannot
    be made. *)
Definition store_file (target : hk_rebind_target) (path : string) (header : hk_macho_header)
    (view : file_view) (file : loaded_file) : R unit :=
  g <== rgets id ;;
  let '(victim, next) := cache_victim HK_REBIND_FILE_CACHE_SIZE (rg_files g) (rg_files_next g) in
  _ <== match rg_files g !! Z.to_nat victim with
        | Some (Some evicted) => close_file_view (fe_file evicted)
        | _ => rret tt
        end ;;
  _ <== rmodify (λ g, g <| rg_files := set_entry victim None (rg_files g) |>
                        <| rg_files_next := next |>) ;;
  copied <== on_heap alloc ;;
  if copied : bool then
    rmodify (λ g, g <| rg_files := set_entry victim
      (Some (FileEntry path (rt_image_base target) (mh_cputype header) (mh_cpusubtype header) view
               file)) (rg_files g) |>)
  else close_file_view view.

Definition prepare_miss (target : hk_rebind_target) (path symbol : string) (convention : Z)
    (candidates : list (list Z)) (header : hk_macho_header) (plan : hk_rebind_plan)
    : R (hk_rebind_status * hk_rebind_plan) :=
  view <== open_file_view target ;;
  match view with
  | None => rret (HK_REBIND_METADATA_UNAVAILABLE, plan)
  | Some view =>
      loaded <== reading (λ mem, load_file mem (rt_image_base target) header view) ;;
      match loaded with
      | inl status => _ <== close_file_view view ;; rret (status, plan)
      | inr file =>
          r <== reading (λ mem, parse_chains mem target candidates file plan) ;;
          _ <== store_file target path header view file ;;
          match r.1 with
          | Some status => rret (status, r.2)
          | None =>
              g <== rgets id ;;
              _ <== match find_entry (cached_symbol_matches target symbol convention) (rg_symbols g) with
                    | Some _ => rret tt
                    | None => store_symbol target path symbol convention r.2
                    end ;;
              rret (found_sites r.2, r.2)
          end
      end
  end.

(** Without the seam and without a path there is no file to open. *)
Definition prepare_file_chains (target : hk_rebind_target) (symbol : string) (convention : Z)
    (candidates : list (list Z)) (header : hk_macho_header) (plan : hk_rebind_plan)
    : R (hk_rebind_status * hk_rebind_plan) :=
  if negb (rt_file_image target =? 0) && negb (rt_file_image_size target =? 0)
  then prepare_file_image target candidates header plan
  else
    match rt_image_path target with
    | None => rret (HK_REBIND_METADATA_UNAVAILABLE, plan)
    | Some path =>
        g <== rgets id ;;
        match find_entry (file_matches target header) (rg_files g) with
        | Some e => prepare_hit target path symbol convention candidates e plan
        | None => prepare_miss target path symbol convention candidates header plan
        end
    end.

(** ** Preparation *)

(** The range of the shared cache that dyld answers, if it answers one. *)
Context (dyld_cache : option (Z * Z)).

(** [live_cache_range]: the base, the size and whether it cannot change. *)
Definition live_cache_range (target : hk_rebind_target) : Z * Z * bool :=
  if rt_cache_base target =? 0 then
    match dyld_cache with
    | Some (base, size) => (base, size, negb (base =? 0) && negb (size =? 0))
    | None => (rt_cache_base target, rt_cache_size target, false)
    end
  else (rt_cache_base target, rt_cache_size target, false).

Definition in_cache (target : hk_rebind_target) (base size : Z) : bool :=
  negb (base =? 0) && (base <=? rt_image_base target) && (rt_image_base target - base <? size).

Definition cache_target_of (target : hk_rebind_target) (base size : Z) (immutable : bool)
    (header_size : Z) : hk_cache_patch_target :=
  CachePatchTarget base size (rt_image_base target) header_size (rt_slide target)
    (rt_image_path target) (rt_uuid target) (rt_include_shared_cache_got target) immutable.

(** The visitor on every site: its answer does not stop the walk. *)
Fixpoint collect_cache_sites (mem : memory) (c : chained_ctx) (sites : list hk_cache_patch_site)
    : option chained_ctx :=
  match sites with
  | [] => Some c
  | s :: sites => '(_, c) ← cache_patch_cb mem c s; collect_cache_sites mem c sites
  end.

(** The verdict on a lookup, or [None] where the image's own tables decide. *)
Definition cache_verdict (c : chained_ctx) (status : hk_cache_patch_status)
    : option (hk_rebind_status * hk_rebind_plan) :=
  let plan := cc_plan c in
  if cc_overflow c then Some (HK_REBIND_TOO_MANY_SITES, plan)
  else if cc_pac_mismatch c then Some (HK_REBIND_PAC_MISMATCH, plan)
  else if cc_malformed c then Some (HK_REBIND_MALFORMED_IMAGE, plan)
  else
    match status with
    | HK_CACHE_PATCH_OK => Some (finalize_plan plan)
    | HK_CACHE_PATCH_NOT_FOUND => Some (HK_REBIND_NOT_FOUND, plan)
    | HK_CACHE_PATCH_SCOPE_UNREPRESENTABLE => Some (HK_REBIND_SCOPE_UNREPRESENTABLE, plan)
    | HK_CACHE_PATCH_UNSUPPORTED => Some (HK_REBIND_UNSUPPORTED_FORMAT, plan)
    | HK_CACHE_PATCH_NO_METADATA => None
    | _ => Some (HK_REBIND_MALFORMED_IMAGE, plan)
    end.

(** The shared cache's patch table: what it finds, and the lookup as it is left. *)
Definition prepare_cached (target : hk_rebind_target) (symbol : string) (convention : Z)
    (base size : Z) (immutable : bool) (header_size : Z) (lookup : option cache_lookup)
    : R (chained_ctx * hk_cache_patch_status * option cache_lookup) := λ g,
  let mem := live_memory (rg_maps g) in
  '(sites, status, s) ← hk_dyld_cache_iterate_symbol_uses_with_lookup mem
                          (cache_target_of target base size immutable header_size)
                          (Some symbol) convention (CacheState (rg_heap g) (rg_slots g) lookup);
  c ← collect_cache_sites mem (ChainedCtx empty_rebind_plan false false false) sites;
  Some ((c, status, ch_lookup s), g <| rg_heap := ch_heap s |> <| rg_slots := ch_slots s |>).

(** LC_DYSYMTAB *)
Definition prepare_dysymtab (mem : memory) (target : hk_rebind_target) (candidates : list (list Z))
    (header_size : Z) (plan : hk_rebind_plan) : option (hk_rebind_status * hk_rebind_plan) :=
  tables ← hk_import_tables_from_loaded_image mem (rt_image_base target) header_size
             (rt_slide target);
  match tables with
  | inl _ => Some (HK_REBIND_MALFORMED_IMAGE, plan)
  | inr tables =>
      if it_indirect_symbols tables =? 0 then Some (HK_REBIND_NOT_FOUND, plan)
      else
        '(status, c) ← hk_import_slots_iterate mem (dysymtab_slot_cb mem candidates (rt_slide target))
                         (rt_image_base target) header_size tables (plan, ADD_SITE_OK);
        Some (match c.2 with
              | ADD_SITE_OVERFLOW => (HK_REBIND_TOO_MANY_SITES, c.1)
              | ADD_SITE_PAC_MISMATCH => (HK_REBIND_PAC_MISMATCH, c.1)
              | ADD_SITE_MALFORMED => (HK_REBIND_MALFORMED_IMAGE, c.1)
              | ADD_SITE_OK =>
                  match status with
                  | HK_IMPORT_OK => finalize_plan c.1
                  | _ => (HK_REBIND_MALFORMED_IMAGE, c.1)
                  end
              end)
  end.

Definition finalize_ok (r : hk_rebind_status * hk_rebind_plan) : hk_rebind_status * hk_rebind_plan :=
  match r.1 with HK_REBIND_OK => finalize_plan r.2 | status => (status, r.2) end.

(** The image's own tables: the chains of its file where it has a command for
    them, LC_DYSYMTAB where it has none.  A walk of the cache that found no
    metadata has left its sites in [plan]. *)
Definition prepare_tables (target : hk_rebind_target) (symbol : string) (convention : Z)
    (candidates : list (list Z)) (header : hk_macho_header) (plan : hk_rebind_plan)
    : R (hk_rebind_status * hk_rebind_plan) :=
  let header_size := HK_MACHO_HEADER_64_SIZE + mh_sizeofcmds header in
  command <== reading (λ mem, hk_macho_find_load_command mem (rt_image_base target) header_size
                                HK_LC_DYLD_CHAINED_FIXUPS) ;;
  match command with
  | inr (_, cmdsize) =>
      if cmdsize <? HK_LINKEDIT_DATA_CMD_SIZE then rret (HK_REBIND_MALFORMED_IMAGE, plan)
      else
        r <== prepare_file_chains target symbol convention candidates header plan ;;
        rret (finalize_ok r)
  | inl HK_MACHO_NOT_FOUND =>
      reading (λ mem, prepare_dysymtab mem target candidates header_size plan)
  | inl _ => rret (HK_REBIND_MALFORMED_IMAGE, plan)
  end.

(** The status, the plan and the lookup as it is left. *)
Definition hk_rebind_prepare_with_lookup (target : hk_rebind_target) (symbol : option string)
    (convention : Z) (lookup : option cache_lookup)
    : R (hk_rebind_status * hk_rebind_plan * option cache_lookup) :=
  match symbol with
  | None => rret (HK_REBIND_INVALID_ARGUMENT, empty_rebind_plan, lookup)
  | Some symbol =>
      if rt_image_base target =? 0
      then rret (HK_REBIND_INVALID_ARGUMENT, empty_rebind_plan, lookup)
      else
        match hk_symbol_build_candidates (Some (string_bytes symbol)) convention with
        | inl _ => rret (HK_REBIND_INVALID_ARGUMENT, empty_rebind_plan, lookup)
        | inr candidates =>
            header <== reading (λ mem, hk_macho_peek_header mem (rt_image_base target)
                                         HK_MACHO_HEADER_64_SIZE) ;;
            match header with
            | inl _ => rret (HK_REBIND_MALFORMED_IMAGE, empty_rebind_plan, lookup)
            | inr header =>
                let header_size := HK_MACHO_HEADER_64_SIZE + mh_sizeofcmds header in
                if rt_image_size target <? header_size
                then rret (HK_REBIND_MALFORMED_IMAGE, empty_rebind_plan, lookup)
                else
                  let '(base, size, immutable) := live_cache_range target in
                  if in_cache target base size then
                    found <== prepare_cached target symbol convention base size immutable
                                header_size lookup ;;
                    let '(c, status, lookup) := found in
                    match cache_verdict c status with
                    | Some r => rret (r.1, r.2, lookup)
                    | None =>
                        r <== prepare_tables target symbol convention candidates header (cc_plan c) ;;
                        rret (r.1, r.2, lookup)
                    end
                  else
                    r <== prepare_tables target symbol convention candidates header
                            empty_rebind_plan ;;
                    rret (r.1, r.2, lookup)
            end
        end
  end.

Definition hk_rebind_prepare (target : hk_rebind_target) (symbol : option string) (convention : Z)
    : R (hk_rebind_status * hk_rebind_plan) :=
  r <== hk_rebind_prepare_with_lookup target symbol convention None ;;
  rret (r.1.1, r.1.2).
End Process.
