(* ===== verification/RebindDemo.v ===== *)
(** * A small image with chained fixups the rebind theorems are applied to

    One segment with two slots bound to [_f]; the file is the image before
    dyld resolved them.  Nothing here models code. *)

From stdpp Require Import base list strings numbers option.
From S2P Require Import Prelude Types Ownership Memory ChainedFixups ResolverSpec PointerAuth RebindEngine RebindCache.

Module DemoRebind.
Definition le32 (v : Z) : list Z := le_bytes 4 v.
Definition le64 (v : Z) : list Z := le_bytes 8 v.
Definition upto (n : nat) (l : list Z) : list Z := take n (l ++ replicate n 0).

Definition commands : list Z :=
  le32 0xfeedfacf ++ le32 0x0100000c ++ le32 0 ++ le32 6 ++ le32 3 ++ le32 112 ++ le32 0 ++ le32 0 ++
  le32 0x19 ++ le32 72 ++ upto 16 (string_bytes "__DATA") ++ le64 0x10000 ++ le64 512 ++ le64 0 ++
  le64 512 ++ le32 3 ++ le32 3 ++ le32 0 ++ le32 0 ++
  le32 0x1b ++ le32 24 ++ replicate 16 7 ++
  le32 0x80000034 ++ le32 16 ++ le32 144 ++ le32 68.

Definition fixups : list Z :=
  le32 0 ++ le32 28 ++ le32 60 ++ le32 64 ++ le32 1 ++ le32 1 ++ le32 0 ++
  le32 1 ++ le32 8 ++
  le32 24 ++ le_bytes 2 0x1000 ++ le_bytes 2 6 ++ le64 0 ++ le32 0 ++ le_bytes 2 1 ++ le_bytes 2 256 ++
  le32 1 ++ string_bytes "_f" ++ [0; 0].

Definition bind (next : Z) : list Z :=
  le64 (encode_bind (ChainedPtr true false 0 next 0 0 false 0) HK_CHAINED_PTR_64_OFFSET).

(** The image with the words of its two slots. *)
Definition image_with (first second : list Z) : list Z :=
  upto 256 (commands ++ fixups) ++ first ++ replicate 8 0 ++ second ++ replicate 232 0.

Definition file : list Z := image_with (bind 4) (bind 0).
Definition base : Z := 0x10000.
Definition image_memory : memory := memory_of base (image_with (le64 0x4000) (le64 0x4000)).

Definition files (path : string) : option (list Z) := if bool_decide (path = "/lib") then Some file else None.

(** Above everything that is mapped. *)
Definition place (maps : list mapping) (_ : Z) : option Z :=
  Some (foldr Z.max 0x80000 maps.*1 + 0x10000).

Lemma place_fresh maps n b : place maps n = Some b → b ∉ maps.*1.
Proof.
  intros [= <-] Hin. assert (∀ x, x ∈ maps.*1 → x <= foldr Z.max 0x80000 maps.*1) as Hmax.
  { clear. intros x. induction (maps.*1) as [|y l IH]; [by intros ?%elem_of_nil|].
    intros [->|H]%elem_of_cons; cbn; [lia|]. specialize (IH H). lia. }
  specialize (Hmax _ Hin). lia.
Qed.

Definition target : hk_rebind_target :=
  RebindTarget base 512 0 (Some "/lib"%string) 0 0 0 0 None false.
Definition prepare (g : rebind_globals) :=
  hk_rebind_prepare_with_lookup (H := plain_pac) image_memory files place None target (Some "f"%string) 0 None g.
Definition start : rebind_globals := no_globals (Heap (λ _, false) 0 0x1000).

(** What a first preparation leaves. *)
Definition after : rebind_globals :=
  Eval vm_compute in match prepare start with Some (_, g) => g | None => start end.
Definition site (a : Z) : hk_rebind_site :=
  RebindSite a 0x4000 0x4000 0 no_schema false true false.
Definition plan : hk_rebind_plan :=
  RebindPlan [site (base + 256); site (base + 272)] true 0x4000.

Lemma first_prepare : prepare start = Some (HK_REBIND_OK, plan, None, after).
Proof. vm_compute. reflexivity. Qed.
End DemoRebind.
