(* ===== verification/RebindLedger.v ===== *)
(** * The mappings of the rebind engine's file cache

    Every mapping that preparation makes is given back or belongs to an entry of
    the cache, and no entry outlives its mapping. *)

From stdpp Require Import base list strings numbers option sorting.
From S2P Require Import Prelude Types Ownership Memory SymbolTable SymbolResolve MachO ImportSlots ChainedFixups PointerAuth RebindEngine DyldCache RebindCache RebindDemo.

(** ** Ownership *)

Definition entry_base (e : option file_entry) : list Z :=
  match e with
  | Some e => if fv_mapped (fe_file e) then [fv_base (fe_file e)] else []
  | None => []
  end.

(** The mappings the entries own. *)
Definition owned (files : list (option file_entry)) : list Z := concat (entry_base <$> files).

Lemma owned_insert files i old e : files !! i = Some old →
  entry_base old ++ owned (<[i := e]> files) ≡ₚ entry_base e ++ owned files.
Proof.
  revert i. induction files as [|f files IH]; intros [|i] H; cbn in H; [done|done| |].
  - injection H as ->. unfold owned. cbn. rewrite !app_assoc.
    by rewrite (Permutation_app_comm (entry_base old) (entry_base e)).
  - specialize (IH i H). unfold owned in *. cbn.
    rewrite !app_assoc, (Permutation_app_comm _ (entry_base f)), (Permutation_app_comm (entry_base e) (entry_base f)).
    rewrite <- !app_assoc. by rewrite IH.
Qed.

Section Ledger.
Context (file_bytes : string → option (list Z)).

(** An entry's mapping is live, and is its file. *)
Definition entry_backed (maps : list mapping) (o : option file_entry) : Prop :=
  match o with
  | None => True
  | Some e => fv_mapped (fe_file e) = true ∧ ∃ bytes, file_bytes (fe_path e) = Some bytes ∧
      (fv_base (fe_file e), bytes) ∈ maps ∧ fv_size (fe_file e) = Z.of_nat (length bytes)
  end.

Record maps_ok (maps : list mapping) (files : list (option file_entry)) (next : Z) : Prop := {
  mo_slots : length files = 4%nat;
  mo_next : 0 <= next < HK_REBIND_FILE_CACHE_SIZE;
  mo_nodup : NoDup maps.*1;
  mo_owned : maps.*1 ≡ₚ owned files;
  mo_backed : Forall (entry_backed maps) files }.

Definition ledger_ok (g : rebind_globals) : Prop := maps_ok (rg_maps g) (rg_files g) (rg_files_next g).

Lemma no_globals_ok h : ledger_ok (no_globals h).
Proof. split; [done|done|constructor|done|]. by repeat constructor. Qed.

(** ** Closing a mapping *)

Definition drop_map (b : Z) (maps : list mapping) : list mapping :=
  filter (λ m : mapping, m.1 ≠ b) maps.

Lemma drop_map_fresh b maps : b ∉ maps.*1 → drop_map b maps = maps.
Proof.
  unfold drop_map. induction maps as [|m maps IH]; [done|]. rewrite filter_cons. cbn. intros H.
  apply not_elem_of_cons in H as [Hm H]. by rewrite decide_True, IH.
Qed.

Lemma drop_map_head b bytes maps : b ∉ maps.*1 → drop_map b ((b, bytes) :: maps) = maps.
Proof.
  intros H. unfold drop_map. rewrite filter_cons, decide_False by (intros E; by apply E). by apply drop_map_fresh.
Qed.

Lemma drop_map_elem b maps m : m ∈ drop_map b maps ↔ m.1 ≠ b ∧ m ∈ maps.
Proof. unfold drop_map. by rewrite list_elem_of_filter. Qed.

Lemma drop_map_bases b maps : (drop_map b maps).*1 = filter (λ a, a ≠ b) maps.*1.
Proof.
  unfold drop_map. induction maps as [|m maps IH]; [done|]. rewrite fmap_cons, !filter_cons.
  destruct (decide (m.1 ≠ b)); cbn; by rewrite IH.
Qed.

(** An evicted entry takes its mapping with it. *)
Lemma evict_ok maps files next i e : maps_ok maps files next → files !! i = Some (Some e) →
  maps_ok (drop_map (fv_base (fe_file e)) maps) (<[i := None]> files) next.
Proof.
  intros [Hl Hn Hd Ho Hb] Hi.
  assert (Hbe : entry_backed maps (Some e)) by (by eapply Forall_lookup_1 in Hb).
  destruct Hbe as (Hm & bytes & Hpath & Hin & Hsize).
  pose proof (owned_insert files i (Some e) None Hi) as Hins. cbn in Hins. rewrite Hm in Hins. cbn in Hins.
  rewrite <- Ho in Hins.
  assert (Hrest : owned (<[i := None]> files) ≡ₚ (drop_map (fv_base (fe_file e)) maps).*1).
  { rewrite drop_map_bases, <- Hins. rewrite filter_cons, decide_False by (intros E; by apply E).
    assert (Hnot : fv_base (fe_file e) ∉ owned (<[i := None]> files)).
    { assert (Hnd : NoDup (fv_base (fe_file e) :: owned (<[i := None]> files))) by (by rewrite Hins).
      by apply NoDup_cons in Hnd as [? _]. }
    clear - Hnot. induction (owned _) as [|a l IH]; [done|]. apply not_elem_of_cons in Hnot as [Ha Hnot].
    rewrite filter_cons, decide_True by done. by rewrite <- IH. }
  split; [by rewrite length_insert|done| |by rewrite Hrest|].
  - rewrite drop_map_bases. by apply NoDup_filter.
  - apply Forall_lookup. intros j o Hj. destruct (decide (j = i)) as [->|Hne].
    { rewrite list_lookup_insert_eq in Hj by (by eapply lookup_lt_Some). by injection Hj as <-. }
    rewrite list_lookup_insert_ne in Hj by done. pose proof (Forall_lookup_1 _ _ _ _ Hb Hj) as Hbo.
    destruct o as [f|]; [|done]. destruct Hbo as (Hmf & bytes' & Hp' & Hin' & Hs').
    split; [done|]. exists bytes'. split_and!; [done| |done]. apply drop_map_elem. split; [|done]. cbn.
    (* another entry's mapping *)
    intros E. assert (Hf : fv_base (fe_file f) ∈ owned (<[i := None]> files)).
    { apply list_elem_of_In, in_concat. exists (entry_base (Some f)).
      split; apply list_elem_of_In; [|cbn; rewrite Hmf; by left].
      apply list_elem_of_fmap. exists (Some f). split; [done|]. apply list_elem_of_lookup. exists j.
      by rewrite list_lookup_insert_ne. }
    rewrite Hrest, drop_map_bases in Hf. apply list_elem_of_filter in Hf as [Hf _]. by apply Hf.
Qed.

(** A free slot takes a new mapping. *)
Lemma publish_ok maps files next i e bytes : maps_ok maps files next → files !! i = Some None →
  fv_mapped (fe_file e) = true → file_bytes (fe_path e) = Some bytes →
  fv_size (fe_file e) = Z.of_nat (length bytes) → fv_base (fe_file e) ∉ maps.*1 →
  maps_ok ((fv_base (fe_file e), bytes) :: maps) (<[i := Some e]> files) next.
Proof.
  intros [Hl Hn Hd Ho Hb] Hi Hm Hp Hs Hf. split; [by rewrite length_insert|done| | |].
  - cbn. by apply NoDup_cons.
  - pose proof (owned_insert files i None (Some e) Hi) as Hins. cbn in Hins. rewrite Hm in Hins. cbn in *.
    by rewrite Hins, Ho.
  - apply Forall_lookup. intros j o Hj. destruct (decide (j = i)) as [->|Hne].
    + rewrite list_lookup_insert_eq in Hj by (by eapply lookup_lt_Some). injection Hj as <-.
      split; [done|]. exists bytes. split_and!; [done|by left|done].
    + rewrite list_lookup_insert_ne in Hj by done. pose proof (Forall_lookup_1 _ _ _ _ Hb Hj) as Hbo.
      destruct o as [f|]; [|done]. destruct Hbo as (Hmf & bytes' & Hp' & Hin' & Hs').
      split; [done|]. exists bytes'. split_and!; [done|by right|done].
Qed.

(** ** The steps *)

Lemma first_free_spec {A} (entries : list (option A)) i :
  match first_free i entries with
  | Some j => i <= j ∧ entries !! Z.to_nat (j - i) = Some None
  | None => ∀ k, (k < length entries)%nat → ∃ a, entries !! k = Some (Some a)
  end.
Proof.
  revert i. induction entries as [|[a|] entries IH]; intros i; cbn [first_free].
  - intros k Hk. cbn in Hk. lia.
  - specialize (IH (i + 1)). destruct (first_free (i + 1) entries) as [j|].
    + destruct IH as [Hle IH]. split; [lia|]. replace (Z.to_nat (j - i)) with (S (Z.to_nat (j - (i + 1)))) by lia. done.
    + intros [|k] Hk; [by exists a|]. cbn in Hk |- *. apply IH. lia.
  - split; [lia|]. by rewrite Z.sub_diag.
Qed.

Lemma rbind_inv {A B} (m : R A) (k : A → R B) g r : rbind m k g = Some r →
  ∃ a g1, m g = Some (a, g1) ∧ k a g1 = Some r.
Proof. unfold rbind. destruct (m g) as [[a g1]|]; [|done]. cbn. intros H. by exists a, g1. Qed.

Section Steps.
Context `{Pac : PacOps} (image_mem : memory) (place : list mapping → Z → option Z) (dyld_cache : option (Z * Z)).
Context (place_fresh : ∀ maps n b, place maps n = Some b → b ∉ maps.*1).

(** A step that leaves the files alone. *)
Definition leaves_files {A} (m : R A) : Prop := ∀ g a g', m g = Some (a, g') →
  rg_maps g' = rg_maps g ∧ rg_files g' = rg_files g ∧ rg_files_next g' = rg_files_next g.

Lemma leaves_ret {A} (a : A) : leaves_files (rret a).
Proof. by intros g a' g' [= _ <-]. Qed.
Lemma leaves_gets {A} (f : rebind_globals → A) : leaves_files (rgets f).
Proof. by intros g a g' [= _ <-]. Qed.
Lemma leaves_reading {A} (f : memory → option A) : leaves_files (reading image_mem f).
Proof. intros g a g' H. unfold reading in H. destruct (f _); [|done]. by injection H as _ <-. Qed.
Lemma leaves_on_heap {A} (m : M heap A) : leaves_files (on_heap m).
Proof. intros g a g' H. unfold on_heap in H. destruct (m (rg_heap g)). by injection H as _ <-. Qed.
Lemma leaves_bind {A B} (m : R A) (k : A → R B) :
  leaves_files m → (∀ a, leaves_files (k a)) → leaves_files (rbind m k).
Proof.
  intros Hm Hk g b g' (a & g1 & H1 & H2)%rbind_inv.
  apply Hm in H1 as (<- & <- & <-). by eapply Hk.
Qed.

Lemma leaves_store_symbol target path symbol convention plan :
  leaves_files (store_symbol target path symbol convention plan).
Proof.
  unfold store_symbol. apply leaves_bind; [apply leaves_gets|]. intros g.
  destruct (cache_victim _ _ _) as [victim next].
  apply leaves_bind; [by intros ? ? ? [= _ <-]|]. intros _. apply leaves_bind; [apply leaves_on_heap|].
  intros []; [by intros ? ? ? [= _ <-]|apply leaves_ret].
Qed.

Lemma leaves_ok {A} (m : R A) g a g' : leaves_files m → m g = Some (a, g') → ledger_ok g → ledger_ok g'.
Proof. intros Hm H. unfold ledger_ok. by apply Hm in H as (-> & -> & ->). Qed.

(** A mapping that is open beside a ledger in order. *)
Definition opened (view : file_view) (path : string) (g : rebind_globals) : Prop :=
  ∃ bytes maps, rg_maps g = (fv_base view, bytes) :: maps ∧ fv_mapped view = true ∧
    file_bytes path = Some bytes ∧ fv_size view = Z.of_nat (length bytes) ∧
    fv_base view ∉ maps.*1 ∧ maps_ok maps (rg_files g) (rg_files_next g).

Lemma open_file_view_ok target path g view g' : ledger_ok g →
  negb (rt_file_image target =? 0) && negb (rt_file_image_size target =? 0) = false →
  rt_image_path target = Some path →
  open_file_view file_bytes place target g = Some (view, g') →
  match view with None => g' = g | Some view => opened view path g' end.
Proof.
  intros Hg Hseam Hpath. unfold open_file_view. rewrite Hseam, Hpath.
  destruct (file_bytes path) as [[|b bytes]|] eqn:Ef; [by intros [= <- <-]| |by intros [= <- <-]].
  destruct (place _ _) as [base|] eqn:Ep; [|by intros [= <- <-]]. intros [= <- <-].
  exists (b :: bytes), (rg_maps g). cbn. split_and!; [done|done|done|done|by eapply place_fresh|done].
Qed.

Lemma close_opened view path g u g' : opened view path g →
  close_file_view view g = Some (u, g') → ledger_ok g'.
Proof.
  intros (bytes & maps & Hm & Hv & _ & _ & Hf & Hok). unfold close_file_view. rewrite Hv. intros [= _ <-].
  unfold ledger_ok. cbn. rewrite Hm. change (filter _ _) with (drop_map (fv_base view) ((fv_base view, bytes) :: maps)).
  by rewrite drop_map_head.
Qed.

Lemma opened_leaves {A} (m : R A) view path g a g' :
  leaves_files m → m g = Some (a, g') → opened view path g → opened view path g'.
Proof. intros Hm H. apply Hm in H as (E1 & E2 & E3). unfold opened. by rewrite E1, E2, E3. Qed.

Lemma store_file_ok target path header view file g u g' : opened view path g →
  store_file target path header view file g = Some (u, g') → ledger_ok g'.
Proof.
  intros (bytes & maps & Hm & Hv & Hp & Hs & Hf & Hok) H. unfold store_file in H.
  apply rbind_inv in H as (g0 & g1 & [= <- <-] & H).
  pose proof (first_free_spec (rg_files g) 0) as Hfree. unfold cache_victim in H.
  (* the state once the slot is free *)
  assert (Hslot : ∃ victim next maps0 files0 g2,
    (copied <== on_heap alloc ;;
     if copied : bool then rmodify (λ g, g <| rg_files := set_entry victim
         (Some (FileEntry path (rt_image_base target) (mh_cputype header) (mh_cpusubtype header) view file))
         (rg_files g) |>)
     else close_file_view view) g2 = Some (u, g') ∧
    rg_files g2 = files0 ∧ rg_files_next g2 = next ∧ rg_maps g2 = (fv_base view, bytes) :: maps0 ∧
    files0 !! Z.to_nat victim = Some None ∧
    fv_base view ∉ maps0.*1 ∧ maps_ok maps0 files0 next).
  { destruct (first_free 0 (rg_files g)) as [i|].
    - destruct Hfree as [Hi0 Hi]. rewrite Z.sub_0_r in Hi. rewrite Hi in H.
      apply rbind_inv in H as ([] & g1 & [= <-] & H). apply rbind_inv in H as ([] & g2 & [= <-] & H).
      eexists i, _, maps, _, _. split; [exact H|]. cbn. unfold set_entry. rewrite list_insert_id by done.
      by split_and!.
    - destruct (Hfree (Z.to_nat (rg_files_next g mod HK_REBIND_FILE_CACHE_SIZE))) as [e He].
      { rewrite (mo_slots _ _ _ Hok). unfold HK_REBIND_FILE_CACHE_SIZE.
        pose proof (Z.mod_pos_bound (rg_files_next g) 4 ltac:(lia)). lia. }
      rewrite He in H. apply rbind_inv in H as ([] & g1 & Hc & H).
      pose proof (evict_ok _ _ _ _ _ Hok He) as Hev.
      pose proof (Forall_lookup_1 _ _ _ _ (mo_backed _ _ _ Hok) He) as (Hme & ebytes & _ & Hein & _).
      unfold close_file_view in Hc. rewrite Hme in Hc. injection Hc as <-.
      apply rbind_inv in H as ([] & g2 & [= <-] & H).
      eexists _, _, (drop_map (fv_base (fe_file e)) maps), _, _. split; [exact H|].
      split_and!; [done|done|..]; cbn; unfold set_entry.
      + rewrite Hm, filter_cons, decide_True; [done|]. cbn. intros E. apply Hf. rewrite E.
        apply list_elem_of_fmap. by exists (fv_base (fe_file e), ebytes).
      + by rewrite list_lookup_insert_eq by (by eapply lookup_lt_Some).
      + rewrite drop_map_bases. intros [_ Hin]%list_elem_of_filter. by apply Hf.
      + destruct Hev. split; [done| |done..]. by apply Z.mod_pos_bound. }
  clear H Hfree. destruct Hslot as (victim & next & maps0 & files0 & g2 & H & Hf2 & Hn2 & Hm2 & Hi & Hfr & Hok2).
  apply rbind_inv in H as (copied & g3 & Hal & H).
  apply leaves_on_heap in Hal as (Em & Ef & En). destruct copied.
  - injection H as _ <-. unfold ledger_ok. cbn. rewrite Em, Ef, En, Hm2, Hf2, Hn2. unfold set_entry.
    apply (publish_ok _ _ _ _ (FileEntry path _ _ _ view file)); done.
  - unfold close_file_view in H. rewrite Hv in H. injection H as _ <-. unfold ledger_ok. cbn.
    rewrite Em, Ef, En, Hm2, Hf2, Hn2.
    change (filter _ _) with (drop_map (fv_base view) ((fv_base view, bytes) :: maps0)). by rewrite drop_map_head.
Qed.

(** ** Preparation *)

Lemma seam_ok target candidates header plan g r g' :
  negb (rt_file_image target =? 0) && negb (rt_file_image_size target =? 0) = true →
  prepare_file_image image_mem file_bytes place target candidates header plan g = Some (r, g') →
  ledger_ok g → ledger_ok g'.
Proof.
  intros Hseam H. unfold prepare_file_image in H. apply rbind_inv in H as (view & g1 & Ho & H).
  unfold open_file_view in Ho. rewrite Hseam in Ho. injection Ho as <- <-.
  eapply leaves_ok; [|exact H]. apply leaves_bind; [apply leaves_reading|]. intros [status|file].
  - apply leaves_bind; [apply leaves_ret|intros; apply leaves_ret].
  - apply leaves_bind; [apply leaves_reading|]. intros r0.
    apply leaves_bind; [apply leaves_ret|intros; apply leaves_ret].
Qed.

Lemma hit_leaves target path symbol convention candidates e plan :
  leaves_files (prepare_hit image_mem target path symbol convention candidates e plan).
Proof.
  unfold prepare_hit. apply leaves_bind; [apply leaves_gets|]. intros g.
  destruct (find_entry _ _) as [cached|].
  - apply leaves_bind; [apply leaves_reading|intros; apply leaves_ret].
  - apply leaves_bind; [apply leaves_reading|]. intros [[status|] plan']; [apply leaves_ret|].
    apply leaves_bind; [apply leaves_store_symbol|intros; apply leaves_ret].
Qed.

Lemma miss_ok target path symbol convention candidates header plan g r g' :
  negb (rt_file_image target =? 0) && negb (rt_file_image_size target =? 0) = false →
  rt_image_path target = Some path → ledger_ok g →
  prepare_miss image_mem file_bytes place target path symbol convention candidates header plan g
    = Some (r, g') → ledger_ok g'.
Proof.
  intros Hseam Hpath Hg H. unfold prepare_miss in H.
  apply rbind_inv in H as (view & g1 & Ho & H). apply open_file_view_ok with (path := path) in Ho; [|done..].
  destruct view as [view|]; [|by injection H as _ <-; rewrite Ho].
  apply rbind_inv in H as (loaded & g2 & Hl & H).
  eapply opened_leaves in Ho; [|apply leaves_reading|exact Hl].
  destruct loaded as [status|file].
  - apply rbind_inv in H as (u & g3 & Hc & H). injection H as _ <-. by eapply close_opened.
  - apply rbind_inv in H as (parsed & g3 & Hp & H).
    eapply opened_leaves in Ho; [|apply leaves_reading|exact Hp].
    apply rbind_inv in H as (u & g4 & Hs & H). eapply store_file_ok in Hs; [|exact Ho].
    eapply leaves_ok; [|exact H|exact Hs]. destruct parsed.1 as [status|]; [apply leaves_ret|].
    apply leaves_bind; [apply leaves_gets|]. intros g5. apply leaves_bind; [|intros; apply leaves_ret].
    destruct (find_entry _ _); [apply leaves_ret|apply leaves_store_symbol].
Qed.

Lemma chains_ok target symbol convention candidates header plan g r g' : ledger_ok g →
  prepare_file_chains image_mem file_bytes place target symbol convention candidates header plan g
    = Some (r, g') → ledger_ok g'.
Proof.
  intros Hg H. unfold prepare_file_chains in H. destruct (negb _ && negb _) eqn:Hseam; [by eapply seam_ok|].
  destruct (rt_image_path target) as [path|] eqn:Hpath; [|by injection H as _ <-].
  apply rbind_inv in H as (g1 & g2 & [= <- <-] & H).
  destruct (find_entry _ (rg_files g)) as [e|]; [|by eapply miss_ok].
  eapply leaves_ok; [apply hit_leaves|exact H|done].
Qed.

Lemma tables_ok target symbol convention candidates header plan g r g' : ledger_ok g →
  prepare_tables image_mem file_bytes place target symbol convention candidates header plan g
    = Some (r, g') → ledger_ok g'.
Proof.
  intros Hg H. unfold prepare_tables in H. apply rbind_inv in H as (command & g1 & Hc & H).
  eapply leaves_ok in Hc; [|apply leaves_reading|exact Hg]. destruct command as [status|[off size]].
  - eapply leaves_ok; [|exact H|exact Hc]. destruct status; first [apply leaves_reading|apply leaves_ret].
  - destruct (size <? _); [by injection H as _ <-|].
    apply rbind_inv in H as (r1 & g2 & H & [= _ <-]). by eapply chains_ok.
Qed.

Lemma cached_leaves target symbol convention base size immutable header_size lookup :
  leaves_files (prepare_cached image_mem target symbol convention base size immutable header_size lookup).
Proof.
  intros g a g' H. unfold prepare_cached in H. cbv zeta in H.
  destruct (hk_dyld_cache_iterate_symbol_uses_with_lookup _ _ _ _ _) as [[[sites status] s]|]; [|done].
  cbn in H. destruct (collect_cache_sites _ _ _) as [c|]; [|done]. cbn in H. by injection H as _ <-.
Qed.

Lemma prepare_ledger target symbol convention lookup g r g' : ledger_ok g →
  hk_rebind_prepare_with_lookup image_mem file_bytes place dyld_cache target symbol convention lookup g
    = Some (r, g') → ledger_ok g'.
Proof.
  intros Hg H. unfold hk_rebind_prepare_with_lookup in H.
  destruct symbol as [symbol|]; [|by injection H as _ <-].
  destruct (rt_image_base target =? 0); [by injection H as _ <-|].
  destruct (hk_symbol_build_candidates _ _) as [st|candidates]; [by injection H as _ <-|].
  apply rbind_inv in H as (header & g1 & Hh & H).
  eapply leaves_ok in Hh; [|apply leaves_reading|exact Hg].
  destruct header as [st|header]; [by injection H as _ <-|]. cbv zeta in H.
  destruct (_ <? _); [by injection H as _ <-|].
  destruct (live_cache_range dyld_cache target) as [[base size] immutable].
  destruct (in_cache target base size).
  - apply rbind_inv in H as ([[c status] lookup'] & g2 & Hc & H).
    eapply leaves_ok in Hc; [|apply cached_leaves|exact Hh].
    destruct (cache_verdict c status) as [v|]; [by injection H as _ <-|].
    apply rbind_inv in H as (r1 & g3 & H & [= _ <-]). by eapply tables_ok.
  - apply rbind_inv in H as (r1 & g3 & H & [= _ <-]). by eapply tables_ok.
Qed.
End Steps.
End Ledger.

(** What a sequence of preparations can reach: each may see another image
    memory, for the process writes to it between them. *)
Inductive reachable `{PacOps} (file_bytes : string → option (list Z))
    (place : list mapping → Z → option Z) (dyld_cache : option (Z * Z)) : rebind_globals → Prop :=
  | reachable_start h : reachable file_bytes place dyld_cache (no_globals h)
  | reachable_prepare image_mem target symbol convention lookup g r g' :
      reachable file_bytes place dyld_cache g →
      hk_rebind_prepare_with_lookup image_mem file_bytes place dyld_cache target symbol convention lookup g
        = Some (r, g') →
      reachable file_bytes place dyld_cache g'.

(** C34. After any sequence of preparations, whatever their outcomes, the files
    still mapped are exactly those the entries of the cache own: nothing
    leaks, at most four stay, an evicted entry takes its mapping with it, and a
    cached entry always finds its mapping in place and full of its file, so
    that the metadata it borrows may be read.  This holds where the kernel
    never puts a new mapping at the address of a live one. *)
Theorem rebind_mappings_owned `{PacOps} file_bytes place dyld_cache g :
  (∀ maps n b, place maps n = Some b → b ∉ maps.*1) →
  reachable file_bytes place dyld_cache g →
  (length (rg_maps g) <= 4)%nat ∧ NoDup (rg_maps g).*1 ∧ (rg_maps g).*1 ≡ₚ owned (rg_files g) ∧
  ∀ e, Some e ∈ rg_files g → ∃ bytes, file_bytes (fe_path e) = Some bytes ∧
    (fv_base (fe_file e), bytes) ∈ rg_maps g ∧ fv_size (fe_file e) = Z.of_nat (length bytes).
Proof.
  intros Hplace Hg.
  assert (Hok : ledger_ok file_bytes g).
  { induction Hg as [h|]; [apply no_globals_ok|by eapply prepare_ledger]. }
  destruct Hok as [Hl _ Hd Ho Hb]. split_and!; [|done|done|].
  - rewrite <- (length_fmap fst), Ho. assert (H1 : ∀ files, (length (owned files) <= length files)%nat); [|by rewrite <- Hl].
    clear. induction files as [|[e|] files IH]; [done|..]; unfold owned in *; cbn; [|lia].
    destruct (fv_mapped _); cbn; lia.
  - intros e He. rewrite Forall_forall in Hb. apply (Hb (Some e)) in He. by destruct He as [_ He].
Qed.

(** One file is mapped, and the cache owns it. *)
Lemma rebind_mappings_owned_witness :
  length (rg_maps DemoRebind.after) = 1%nat ∧
  (rg_maps DemoRebind.after).*1 ≡ₚ owned (rg_files DemoRebind.after) ∧
  ∃ e, Some e ∈ rg_files DemoRebind.after ∧
    ∃ bytes, DemoRebind.files (fe_path e) = Some bytes ∧
      (fv_base (fe_file e), bytes) ∈ rg_maps DemoRebind.after.
Proof.
  destruct (rebind_mappings_owned (H := plain_pac) DemoRebind.files DemoRebind.place None DemoRebind.after
    DemoRebind.place_fresh) as (_ & _ & Ho & Hb).
  - eapply (reachable_prepare (H := plain_pac)); [apply (reachable_start (H := plain_pac))|exact DemoRebind.first_prepare].
  - split; [reflexivity|]. split; [exact Ho|].
    destruct (rg_files DemoRebind.after) as [|[e|] rest] eqn:E; [discriminate E| |discriminate E].
    exists e. split; [by left|]. destruct (Hb e) as (bytes & Hp & Hin & _); [by left|].
    exists bytes. split; [exact Hp|exact Hin].
Defined.
