(* ===== verification/RebindReplay.v ===== *)
(** * The symbol cache of the rebind engine (replay in src/engines/HKRebindEngine.c)

    A hit in the symbol cache replays the sites a walk recorded; this file shows
    that the replay answers what the walk would have answered again, on memory
    whose slots have changed in the meantime. *)

From stdpp Require Import base list strings numbers option sorting.
From S2P Require Import Prelude Types Ownership Memory SymbolTable SymbolResolve MachO MachOBounds MachOSpec ImportSlots ChainedFixups ResolverSafety FixupsSafety BindWalk PointerAuth RebindEngine RebindCache RebindDemo.

(** ** What loading a file guarantees *)

Lemma readable_mono m m' base size : mem_le m m' → readable m base size → readable m' base size.
Proof. intros Hm Hr i Hi. destruct (Hr i Hi) as (b & Hb & ?). exists b. split; [by apply Hm|done]. Qed.

(** The chains of a loaded file may be walked, over memory [m]. *)
Definition loaded_ok (m : memory) (file : loaded_file) : Prop :=
  fixups_ok m (lf_fixups file) ∧ readable m (lf_slice file) (lf_slice_size file) ∧
  Forall (λ s, 0 <= cm_file_offset s) (lf_mappings file).

Lemma segment_mappings_nonneg preferred slice_size segments mappings :
  Forall segment_ok segments → segment_mappings preferred slice_size segments = Some mappings →
  Forall (λ s, 0 <= cm_file_offset s) mappings.
Proof.
  intros Hs. revert mappings. induction Hs as [|s segments (_ & _ & [Hoff _] & _) Hs IH]; intros mappings; cbn.
  { by intros [= <-]. }
  destruct (is_pagezero s).
  - destruct (segment_mappings _ _ segments) as [rest|]; [|done]. intros [= <-].
    constructor; [done|by apply IH].
  - destruct (_ || _); [done|].
    destruct (segment_mappings _ _ segments) as [rest|]; [|done]. intros [= <-].
    constructor; [done|by apply IH].
Qed.

(** What a run that went well satisfies. *)
Lemma runs_value {A} (m : option A) (Q : A → Prop) v : runs m Q → m = Some v → Q v.
Proof. by intros H ->. Qed.

Lemma as_malformed_inr {E A} (m : checked E A) (k : A → checked hk_rebind_status loaded_file) file :
  check_bind (as_malformed m) k = accept file → ∃ a, m = accept a ∧ k a = accept file.
Proof. destruct m as [[e|a]|]; [done| |done]. intros H. by exists a. Qed.

Lemma load_file_ok m m' image_base header view file :
  mem_le m m' → readable m (fv_base view) (fv_size view) →
  load_file m' image_base header view = accept file → loaded_ok m file.
Proof.
  intros Hm Hr. pose proof (readable_mono _ _ _ _ Hm Hr) as Hr'. unfold load_file.
  pose proof (runs_select_slice Hr' (mh_cputype header) (mh_cpusubtype header)) as Hslice.
  destruct (hk_macho_select_slice _ _ _ _ _) as [[[]|[slice size]]|]; try done. cbn [mbind option_bind].
  destruct Hslice as (Hlo & Hpos & Hhi & _). cbn in Hlo, Hpos, Hhi.
  assert (Hs : ∀ mem, readable mem (fv_base view) (fv_size view) → readable mem slice size).
  { intros mem Hmem. replace slice with (fv_base view + (slice - fv_base view)) by lia.
    eapply readable_sub; [exact Hmem|lia..]. }
  intros (live & _ & H)%as_malformed_inr. apply as_malformed_inr in H as (uuid & _ & H).
  destruct (negb _); [done|]. apply as_malformed_inr in H as (range & Hrange & H).
  pose proof (runs_value _ _ _ (runs_find_chained_fixups (Hs _ Hr')) Hrange) as (Ho & Hn & Hend).
  assert (Hblob : ∀ mem, readable mem slice size → readable mem (slice + range.1) range.2)
    by (intros mem Hmem; eapply readable_sub; [exact Hmem|lia..]).
  pose proof (runs_parse (slice + range.1) range.2 (Hblob _ (Hs _ Hr'))) as Hf.
  destruct (hk_chained_fixups_parse _ _ _) as [[[]|f]|]; try done. cbn in Hf, H.
  destruct Hf as ((_ & Hf) & Hb & Hsz).
  assert (Hseg : runs (hk_macho_iterate_segments m' collect_segment slice size ([], false))
      (λ r, Forall segment_ok r.2.1)).
  { apply (runs_iterate_segments (Hs _ Hr') collect_segment (λ c, Forall segment_ok c.1)); [|by constructor].
    intros c i seg Hc Hseg. unfold collect_segment. destruct (_ <=? _); [done|]. cbn. by apply Forall_app_2; [|constructor]. }
  destruct (hk_macho_iterate_segments _ _ _ _ _) as [[status c]|]; [|done]. cbn in H.
  destruct (_ || _); [done|]. destruct (_ =? _); [done|].
  destruct (segment_mappings _ _ _) as [mappings|] eqn:Em; [|done]. injection H as <-. split_and!; cbn.
  - split; [|done]. rewrite Hb, Hsz. by apply Hblob, Hs.
  - by apply Hs.
  - by eapply segment_mappings_nonneg; [exact Hseg|].
Qed.

(** ** The walk and the replay *)

Section Replay.
Context `{Pac : PacOps} (m m1 m2 : memory) (Hm1 : mem_le m m1) (Hm2 : mem_le m m2).

(** Sites that differ at most in what their slots held. *)
Definition same_sites (l l' : list hk_rebind_site) : Prop := cached_of <$> l = cached_of <$> l'.

Lemma same_sites_app l l' k k' : same_sites l l' → same_sites k k' → same_sites (l ++ k) (l' ++ k').
Proof. unfold same_sites. rewrite !fmap_app. by intros -> ->. Qed.

Lemma same_sites_length l l' : same_sites l l' → length l = length l'.
Proof. intros E%(f_equal length). by rewrite !length_fmap in E. Qed.

Lemma same_sites_at l l' a : same_sites l l' →
  match site_at a l, site_at a l' with
  | Some s, Some s' => cached_of s = cached_of s'
  | None, None => True
  | _, _ => False
  end.
Proof.
  unfold same_sites. revert l'. induction l as [|s l IH]; intros [|s' l'] E; cbn in E; try done.
  injection E as E El. unfold site_at. cbn. rewrite E. destruct (_ =? _); [|by apply IH].
  unfold cached_of. by f_equal.
Qed.

Lemma same_use_cached s s' schema addend :
  cached_of s = cached_of s' → same_use s schema addend = same_use s' schema addend.
Proof. unfold same_use, cached_of. by intros [= _ -> -> _]. Qed.

(** What an accepted site adds to a plan. *)
Lemma add_site_ok mem plan a schema addend weak plan' :
  add_site mem plan a schema addend weak true false = Some (ADD_SITE_OK, plan') →
  (plan' = plan ∧ ∃ s, site_at a (rp_sites plan) = Some s ∧ same_use s schema addend = true) ∨
  (site_at a (rp_sites plan) = None ∧ ∃ s,
    rp_sites plan' = rp_sites plan ++ [s] ∧ cached_of s = CachedSite a addend schema weak).
Proof.
  unfold add_site. destruct (site_at a _) as [s|].
  { destruct (same_use s schema addend) eqn:E; intros [= <-]. left. split; [done|]. by exists s. }
  destruct (_ <=? _); [done|]. destruct (hk_rebind_read_slot mem a) as [old|]; cbn; [|done].
  destruct (_ && _); [done|]. destruct (_ && _); [done|].
  destruct (checked_adjust _ _ _) as [base|]; [|done]. intros [= <-]. right. split; [done|].
  eexists. split; [reflexivity|done].
Qed.

(** A site the plan has is found there again, and changes nothing. *)
Lemma add_site_again mem plan l a schema addend weak s :
  same_sites l (rp_sites plan) → site_at a l = Some s → same_use s schema addend = true →
  add_site mem plan a schema addend weak true false = Some (ADD_SITE_OK, plan).
Proof.
  intros Hs Ha Hu. pose proof (same_sites_at _ _ a Hs) as Hat. rewrite Ha in Hat. unfold add_site.
  destruct (site_at a (rp_sites plan)) as [s'|]; [|done].
  by rewrite <- (same_use_cached _ _ _ _ Hat), Hu.
Qed.

(** The callback, once the import of a bind is known to match or not. *)
Definition chosen_bind (mem : memory) (import : hk_chained_import) (base size : Z) (c : chained_ctx)
    (bind : hk_chained_bind) : visited chained_ctx :=
  if (size <? cb_slot_image_offset bind) || (size - cb_slot_image_offset bind <? 8)
  then Some (false, c <| cc_malformed := true |>)
  else if addends_overflow (cb_addend bind) (ci_addend import)
  then Some (false, c <| cc_malformed := true |>)
  else
    '(status, plan) ← add_site mem (cc_plan c) (u64 (base + cb_slot_image_offset bind))
                        (schema_of_bind bind) (ci_addend import + cb_addend bind)
                        (ci_weak_import import) true false;
    Some (bool_decide (status = ADD_SITE_OK), flag_error (c <| cc_plan := plan |>) status).

(** The names are the file's, so the callback chooses alike over both. *)
Lemma chained_bind_cb_cases f candidates base size bind :
  fixups_ok m f → Forall cstring candidates → 0 <= cb_import_ordinal bind →
  (∀ m', mem_le m m' → ∀ c, chained_bind_cb m' f candidates base size c bind =
     Some (false, c <| cc_malformed := true |>)) ∨
  (∀ m', mem_le m m' → ∀ c, chained_bind_cb m' f candidates base size c bind = Some (true, c)) ∨
  ∃ import, ∀ m', mem_le m m' → ∀ c, chained_bind_cb m' f candidates base size c bind =
     chosen_bind m' import base size c bind.
Proof.
  intros Hf Hc Ho. pose proof (runs_import_at f _ Hf Ho) as Hi.
  destruct (hk_chained_import_at m f (cb_import_ordinal bind)) as [[e|import]|] eqn:Ei; [| |done].
  - left. intros m' Hm c. unfold chained_bind_cb. by rewrite (import_at_mono m m' Hm _ _ _ Ei).
  - destruct Hi as (_ & _ & Hterm). pose proof (runs_matches_any _ candidates Hterm Hc) as Hs.
    destruct (matches_any m (ci_symbol_name import) candidates) as [same|] eqn:Es; [clear Hs|done].
    assert (E : ∀ m', mem_le m m' → ∀ c, chained_bind_cb m' f candidates base size c bind =
      if negb same then Some (true, c) else chosen_bind m' import base size c bind).
    { intros m' Hm c. unfold chained_bind_cb. rewrite (import_at_mono m m' Hm _ _ _ Ei). cbn.
      by rewrite (matches_any_mono m m' Hm _ _ _ Es). }
    destruct same; [right; right; exists import|right; left]; intros m' Hm c; by rewrite E.
Qed.

Definition no_flags (plan : hk_rebind_plan) : chained_ctx := ChainedCtx plan false false false.

(** What [parse_chains] makes of a walk that did not fail of itself. *)
Definition walk_verdict (r : visited chained_ctx) : option (option hk_rebind_status * hk_rebind_plan) :=
  '(_, c) ← r; Some (chains_error c HK_CHAINED_OK, cc_plan c).

(** Walking on from a matching bind, over the second memory. *)
Lemma walk_chosen f candidates base size bind bs import plan plan' status :
  (∀ c, chained_bind_cb m2 f candidates base size c bind = chosen_bind m2 import base size c bind) →
  size <? cb_slot_image_offset bind = false → size - cb_slot_image_offset bind <? 8 = false →
  addends_overflow (cb_addend bind) (ci_addend import) = false →
  add_site m2 plan (u64 (base + cb_slot_image_offset bind)) (schema_of_bind bind)
    (ci_addend import + cb_addend bind) (ci_weak_import import) true false = Some (status, plan') →
  walk_verdict (visit_all (chained_bind_cb m2 f candidates base size) (bind :: bs) (no_flags plan)) =
  match status with
  | ADD_SITE_OVERFLOW => Some (Some HK_REBIND_TOO_MANY_SITES, plan')
  | ADD_SITE_MALFORMED => Some (Some HK_REBIND_MALFORMED_IMAGE, plan')
  | ADD_SITE_PAC_MISMATCH => Some (Some HK_REBIND_PAC_MISMATCH, plan')
  | ADD_SITE_OK => walk_verdict (visit_all (chained_bind_cb m2 f candidates base size) bs (no_flags plan'))
  end.
Proof.
  intros E H1 H2 H3 Ha. cbn [visit_all]. rewrite E. unfold chosen_bind. rewrite H1, H2, H3. cbn [orb cc_plan no_flags].
  rewrite Ha. by destruct status.
Qed.

Lemma visit_replays f candidates base size bs plan1 plan2 go c1 :
  fixups_ok m f → Forall cstring candidates → Forall (λ b, 0 <= cb_import_ordinal b) bs →
  same_sites (rp_sites plan1) (rp_sites plan2) →
  visit_all (chained_bind_cb m1 f candidates base size) bs (no_flags plan1) = Some (go, c1) →
  chains_error c1 HK_CHAINED_OK = None →
  go = true ∧ ∃ new, rp_sites (cc_plan c1) = rp_sites plan1 ++ new ∧
    walk_verdict (visit_all (chained_bind_cb m2 f candidates base size) bs (no_flags plan2)) =
    replay_sites m2 (cached_of <$> new) plan2.
Proof.
  intros Hf Hc Hbs. revert plan1 plan2. induction Hbs as [|b bs Hb Hbs IH]; intros plan1 plan2 Hs.
  { intros [= <- <-] _. split; [done|]. exists []. by rewrite app_nil_r. }
  intros H Hok. cbn [visit_all] in H.
  destruct (chained_bind_cb_cases f candidates base size b Hf Hc Hb) as [E|[E|[import E]]];
    pose proof (E m1 Hm1) as E1; pose proof (E m2 Hm2) as E2; clear E; rewrite E1 in H.
  - injection H as <- <-. done.
  - cbn [visit_all]. rewrite E2. by apply (IH plan1).
  - unfold chosen_bind in H. cbn [cc_plan no_flags] in H.
    destruct (size <? _) eqn:B1; [injection H as <- <-; done|]. cbn [orb] in H.
    destruct (_ <? 8) eqn:B2; [injection H as <- <-; done|].
    destruct (addends_overflow _ _) eqn:B3; [injection H as <- <-; done|].
    destruct (add_site m1 _ _ _ _ _ _ _) as [[status plan1']|] eqn:Ea; [|done].
    destruct status; try (injection H as <- <-; done). cbn in H.
    change (ChainedCtx plan1' false false false) with (no_flags plan1') in H.
    pose proof (walk_chosen f candidates base size b bs import plan2) as Hw.
    apply add_site_ok in Ea as [[-> (s & Hat & Hu)]|(Hat & s & Hnew & Hcs)].
    + rewrite (Hw plan2 ADD_SITE_OK E2 B1 B2 B3); [by apply (IH plan1)|]. by eapply add_site_again.
    + destruct (IH plan1' plan1' eq_refl H Hok) as (-> & new & Hsites & _). split; [done|].
      exists (s :: new). rewrite Hsites, Hnew, <- app_assoc. split; [done|]. cbn [fmap list_fmap replay_sites].
      rewrite Hcs. cbn [ks_address ks_schema ks_addend ks_weak].
      destruct (add_site m2 plan2 _ _ _ _ _ _) as [[status plan2']|] eqn:Ea2.
      2:{ cbn [visit_all]. rewrite E2. unfold chosen_bind. rewrite B1, B2, B3. cbn [orb cc_plan no_flags].
          by rewrite Ea2. }
      rewrite (walk_chosen f candidates base size b bs import plan2 plan2' status E2 B1 B2 B3 Ea2). destruct status; try done. cbn.
      apply add_site_ok in Ea2 as [[_ (s' & Hat' & _)]|(_ & s' & Hnew' & Hcs')].
      { pose proof (same_sites_at _ _ (u64 (base + cb_slot_image_offset b)) Hs) as Hx. by rewrite Hat, Hat' in Hx. }
      destruct (IH plan1' plan2') as (_ & new' & Hsites' & ->); [|done|done|].
      { rewrite Hnew, Hnew'. apply same_sites_app; [done|]. unfold same_sites. cbn. by rewrite Hcs, Hcs'. }
      by assert (new' = new) as -> by (by rewrite Hsites in Hsites'; apply app_inv_head in Hsites').
Qed.
End Replay.

(** ** The theorem *)

Lemma recorded_walk m f storage size mappings :
  fixups_ok m f → readable m storage size → Forall (λ s, 0 <= cm_file_offset s) mappings →
  ∃ status bs, iterate_binds m collect_bind f storage size (Some mappings) [] = Some (status, bs) ∧
    Forall (λ b, 0 <= cb_import_ordinal b) bs.
Proof.
  intros Hf Hr Hm.
  assert (Hw : runs (iterate_binds m collect_bind f storage size (Some mappings) [])
    (λ r, Forall (λ b, 0 <= cb_import_ordinal b) r.2)).
  { apply (runs_iterate_binds collect_bind (Forall (λ b, 0 <= cb_import_ordinal b))); [done|done| | |constructor].
    - intros l s [= <-] Hin. rewrite Forall_forall in Hm. by apply Hm.
    - intros l b Hl (_ & _ & Ho). by apply Forall_app_2; [|constructor]. }
  destruct (iterate_binds _ _ _ _ _ _ _) as [[status bs]|]; [|done]. by exists status, bs.
Qed.

(** C19. A hit in the symbol cache answers what parsing the file again would
    have: where a walk over the chains of a loaded file recorded the sites of a
    symbol, replaying them later, when the slots of the process may have changed
    but the file has not, gives the plan or the refusal of a new walk, for every
    target with the same base and size. *)
Theorem symbol_cache_replays `{PacOps} m m1 m2 header view file target again symbol convention
    candidates plan :
  readable m (fv_base view) (fv_size view) → mem_le m m1 → mem_le m m2 →
  cstring (string_bytes symbol) →
  hk_symbol_build_candidates (Some (string_bytes symbol)) convention = inr candidates →
  load_file m1 (rt_image_base target) header view = accept file →
  rt_image_base again = rt_image_base target → rt_image_size again = rt_image_size target →
  parse_chains m1 target candidates file empty_rebind_plan = Some (None, plan) →
  parse_chains m2 again candidates file empty_rebind_plan =
    replay_sites m2 (cached_of <$> rp_sites plan) empty_rebind_plan.
Proof.
  intros Hr Hm1 Hm2 Hname Hcand Hload Hbase Hsize Hparse.
  apply candidates_cstring in Hcand; [|by intros n [= <-]].
  destruct (load_file_ok _ _ _ _ _ _ Hm1 Hr Hload) as (Hf & Hstore & Hmaps).
  destruct (recorded_walk _ _ _ _ _ Hf Hstore Hmaps) as (status & bs & Hwalk & Hbs).
  unfold parse_chains, hk_chained_fixups_iterate_file_binds in *. rewrite Hbase, Hsize.
  rewrite (iterate_binds_follows _ _ _ Hm1 _ _ _ _ _ _ Hwalk) in Hparse.
  rewrite (iterate_binds_follows _ _ _ Hm2 _ _ _ _ _ _ Hwalk). unfold whole_walk in *.
  change (ChainedCtx empty_rebind_plan false false false) with (no_flags empty_rebind_plan) in *.
  destruct (visit_all _ bs _) as [[go c]|] eqn:Ev in Hparse; [|done]. cbn in Hparse.
  injection Hparse as Herr <-.
  assert (Hok : chains_error c HK_CHAINED_OK = None ∧ (go = true → status = HK_CHAINED_OK)).
  { unfold chains_error in *. destruct (cc_overflow c), (cc_pac_mismatch c), (cc_malformed c); try done.
    by destruct go, status. }
  destruct Hok as [Hok Hst].
  destruct (visit_replays m m1 m2 Hm1 Hm2 _ _ _ _ _ _ empty_rebind_plan _ _ Hf Hcand Hbs eq_refl Ev Hok)
    as (-> & new & Hnew & Hv).
  rewrite Hnew. cbn [rp_sites empty_rebind_plan app]. rewrite <- Hv, (Hst eq_refl). unfold walk_verdict.
  match goal with |- (?v ≫= _) ≫= _ = _ => by destruct v as [[[] c2]|] end.
Qed.

Module DemoReplay.
Definition mapped : Z := 0x90000.
Definition file_memory : memory := memory_of mapped DemoRebind.file.

(** The process with its slots as dyld resolved them, and later, when other
    targets have been written there. *)
Definition process (first second : Z) : memory :=
  live_memory (memory_of DemoRebind.base
    (DemoRebind.image_with (DemoRebind.le64 first) (DemoRebind.le64 second)))
    [(mapped, DemoRebind.file)].

Lemma file_mapped first second : mem_le file_memory (process first second).
Proof.
  intros a v Ha. unfold process, live_memory, file_memory, memory_of in *.
  destruct (Z.ltb_spec a mapped) as [|Hlo]; [done|]. pose proof (lookup_lt_Some _ _ _ Ha).
  cbn [List.find]. unfold in_mapping. cbn [fst snd].
  rewrite (proj2 (Z.leb_le _ _) Hlo), (proj2 (Z.ltb_lt _ _)) by lia. exact Ha.
Qed.

Definition header : hk_macho_header :=
  Eval vm_compute in
    match hk_macho_read_header file_memory mapped 512 with Some (inr h) => h | _ => MachoHeader 0 0 0 0 0 0 0 end.
Definition view : file_view := FileView mapped 512 true.
Definition loaded : loaded_file :=
  Eval vm_compute in
    match load_file (process 0x4000 0x4000) DemoRebind.base header view with
    | Some (inr f) => f
    | _ => LoadedFile 0 0 (ChainedFixups 0 0 0 0 0 0 0 0 0 0 0) [] [] 0
    end.
End DemoReplay.

(** The second walk reads other originals, 0x5000 and 0x6000, at the slots the
    first recorded. *)
Lemma symbol_cache_replays_witness :
  parse_chains (H := plain_pac) (DemoReplay.process 0x5000 0x6000) DemoRebind.target
    [string_bytes "f"; string_bytes "_f"] DemoReplay.loaded empty_rebind_plan =
  replay_sites (H := plain_pac) (DemoReplay.process 0x5000 0x6000)
    (cached_of <$> rp_sites DemoRebind.plan) empty_rebind_plan.
Proof.
  apply (symbol_cache_replays (H := plain_pac) DemoReplay.file_memory (DemoReplay.process 0x4000 0x4000)
    (DemoReplay.process 0x5000 0x6000) DemoReplay.header DemoReplay.view DemoReplay.loaded
    DemoRebind.target DemoRebind.target "f" 0 [string_bytes "f"; string_bytes "_f"]
    (RebindPlan (rp_sites DemoRebind.plan) false 0)).
  - apply (readable_memory_of DemoReplay.mapped DemoRebind.file).
    apply (bool_decide_unpack (Forall _ _)). vm_compute. exact I.
  - apply DemoReplay.file_mapped.
  - apply DemoReplay.file_mapped.
  - repeat constructor; lia.
  - vm_compute. reflexivity.
  - vm_compute. reflexivity.
  - reflexivity.
  - reflexivity.
  - vm_compute. reflexivity.
Defined.
