(* ===== verification/RebindPlanWf.v ===== *)
(** * The plans of the rebind engine (preparation in src/engines/HKRebindEngine.c)

    Whatever its tables hold, a preparation that comes back has a plan of at
    most thirty-two slots, all different, each with a value that passes the
    authentication it declares and the callable original it stands for. *)

From stdpp Require Import base list strings numbers option sorting.
From S2P Require Import Prelude Types Ownership Memory SymbolTable SymbolResolve MachO ImportSlots ChainedFixups WalkInvariants PointerAuth RebindEngine DyldCache RebindCache RebindDemo.

(** ** Where the uses the shared cache reports are *)

Definition site_in_range (s : hk_cache_patch_site) : Prop := is_u64 (cs_address s).
Definition emits_ok (m : emits) : Prop := ends m (λ r, Forall site_in_range r.1).
Definition scans_ok (m : scanned) : Prop := ends m (λ r, Forall site_in_range r.1.1).

Lemma emits_end status : emits_ok (emit_end status).
Proof. constructor. Qed.

Lemma emits_then m k : emits_ok m → emits_ok k → emits_ok (emit_then m k).
Proof.
  intros Hm Hk. eapply ends_bind; [exact Hm|]. intros [l status] Hl. destruct (bool_decide _); [|done].
  eapply ends_bind; [exact Hk|]. intros [l' status'] Hl'. by apply Forall_app_2.
Qed.

Lemma emits_loop count i body : (∀ j, emits_ok (body j)) → emits_ok (emit_loop count i body).
Proof.
  intros Hb. revert i. induction count as [|count IH]; intros i; [apply emits_end|by apply emits_then].
Qed.

Lemma scans_ok_then m k : scans_ok m → scans_ok k → scans_ok (scan_then m k).
Proof.
  intros Hm Hk. eapply ends_bind; [exact Hm|]. intros [[l found] status] Hl. destruct (bool_decide _); [|done].
  eapply ends_bind; [exact Hk|]. intros [[l' found'] status'] Hl'. by apply Forall_app_2.
Qed.

Lemma scans_ok_loop count i body : (∀ j, scans_ok (body j)) → scans_ok (scan_loop count i body).
Proof.
  intros Hb. revert i. induction count as [|count IH]; intros i; [constructor|by apply scans_ok_then].
Qed.

Create HintDb emits.
#[export] Hint Resolve emits_end : emits.
#[export] Hint Extern 1 (emits_ok emit_ok) => apply emits_end : emits.
#[export] Hint Extern 1 (emits_ok emit_malformed) => apply emits_end : emits.

(** Follows the structure of a traversal of the tables. *)
Ltac emits :=
  repeat first
    [ solve [auto 1 with emits]
    | progress cbv zeta
    | apply emits_loop; intros ?
    | apply emits_then
    | apply ends_after; intros ?
    | match goal with
      | |- emits_ok (if ?b then _ else _) => destruct b
      | |- emits_ok (match ?x with _ => _ end) => destruct x
      | |- emits_ok (mbind _ _) => unfold emits_ok
      | |- ends ?m (λ r, Forall site_in_range r.1) => change (emits_ok m)
      end ].

Section Uses.
Context (mem : memory) (target : hk_cache_patch_target) (view : cache_view).

Lemma emits_location offset bits v4 shared : emits_ok (emit_location mem target view offset bits v4 shared).
Proof.
  unfold emit_location. destruct (_ <? _); [apply emits_end|]. cbv zeta.
  assert (H : ∀ schema addend weak,
    Forall site_in_range [CachePatchSite (u64 (cv_base view + offset)) schema addend weak])
    by (intros; constructor; [apply u64_range|done]).
  destruct shared; [apply H|]. apply ends_after. intros [|]; [apply H|apply emits_end].
Qed.
Hint Resolve emits_location : emits.

Lemma emits_parse_v1 candidates : emits_ok (parse_v1 mem target view candidates).
Proof. unfold parse_v1, v1_image, v1_export, v1_location. emits. Qed.

Section Table.
Context (table : table_v2) (version importer_index : Z).

Lemma emits_export_uses def e : emits_ok (emit_export_uses mem target view table version importer_index def e).
Proof.
  unfold emit_export_uses, emit_client, emit_client_export, emit_got_export, client_location, got_location. emits.
Qed.
Hint Resolve emits_export_uses : emits.

Lemma emits_matched def e : emits_ok (emit_matched mem target view table version importer_index def e).
Proof. unfold emit_matched. emits. Qed.

Lemma scans_matched_export (m : emits) found : emits_ok m → scans_ok ('(l, status) ← m; Some (l, found, status)).
Proof. intros Hm. eapply ends_bind; [exact Hm|]. by intros [l status]. Qed.

Lemma scans_direct candidates : scans_ok (direct_scan mem target view table version importer_index candidates).
Proof.
  apply scans_ok_loop. intros def. apply ends_after. intros [u|[first count]]; [constructor|].
  apply scans_ok_loop. intros e. unfold scan_export. cbv zeta. apply ends_after. intros [u|name]; [constructor|].
  apply ends_after. intros [|]; cbn [negb]; [|constructor]. apply scans_matched_export, emits_matched.
Qed.

Lemma scans_index entries : scans_ok (index_scan mem target view table version importer_index entries).
Proof.
  induction entries as [|e entries IH]; [constructor|]. apply scans_ok_then; [|exact IH]. apply ends_after. intros w.
  destruct (negb _); [constructor|]. apply scans_matched_export, emits_export_uses.
Qed.

Lemma scans_replay_exports fuel def first count e found :
  scans_ok (replay_exports mem target view table version importer_index fuel def first count e found).
Proof.
  revert e found. induction fuel as [|fuel IH]; intros e found; [done|]. cbn [replay_exports].
  destruct (negb _); [constructor|]. destruct found as [|[image index] found]; [constructor|].
  destruct (negb _); [constructor|]. cbv zeta. eapply ends_bind; [apply emits_matched|]. intros [l status] Hl.
  destruct (bool_decide _); [|done]. eapply ends_bind; [apply IH|]. intros [[l' rest] status'] Hl'.
  by apply Forall_app_2.
Qed.

Lemma emits_replay fuel def found :
  emits_ok (replay_definitions mem target view table version importer_index fuel def found).
Proof.
  revert def found. induction fuel as [|fuel IH]; intros def found; [done|]. cbn [replay_definitions].
  destruct (negb _); [apply emits_end|]. destruct found as [|[image index] found]; [apply emits_end|].
  apply ends_after. intros [u|[first count]]; [apply emits_end|].
  eapply ends_bind; [apply scans_replay_exports|]. intros [[l rest] status] Hl.
  destruct (bool_decide _); [|done]. eapply ends_bind; [apply IH|]. intros [l' status'] Hl'. by apply Forall_app_2.
Qed.
End Table.

Lemma sites_parse_table importer n offset candidates s :
  ends (parse_table mem target view importer n offset candidates s) (λ r, Forall site_in_range r.1.1).
Proof.
  unfold parse_table. apply ends_after. intros version. destruct (_ <? _); [constructor|].
  apply ends_after. intros count. destruct (negb _); [constructor|]. destruct (_ =? 1).
  { eapply ends_bind; [apply emits_parse_v1|]. by intros [l status]. }
  destruct (_ && _); [|constructor]. cbv zeta. apply ends_after. intros [index s'].
  eapply (ends_bind _ _ (λ r, Forall site_in_range r.1.1)); [|by intros [[l status] s'']].
  unfold parse_v2_v4. apply ends_after. intros [u|table]; [constructor|]. destruct (_ || _); [constructor|]. cbv zeta.
  match goal with |- ends (if ?b then _ else _) _ => destruct b end.
  - eapply ends_bind; [apply emits_replay|]. by intros [l status].
  - eapply (ends_bind _ _ (λ r, Forall site_in_range r.1.1)).
    { destruct index; [apply scans_index|apply scans_direct]. }
    intros [[l found] status] Hl. match goal with |- ends (match ?o with _ => _ end) _ => destruct o as [k|]; [|done] end.
    by destruct (keep_matches _ _ _ _).
Qed.
End Uses.

Lemma sites_lookup mem target symbol convention s :
  ends (hk_dyld_cache_iterate_symbol_uses_with_lookup mem target symbol convention s)
    (λ r, Forall site_in_range r.1.1).
Proof.
  unfold hk_dyld_cache_iterate_symbol_uses_with_lookup. cbv zeta. destruct symbol as [symbol|]; [|constructor].
  destruct (_ || _); [constructor|]. apply ends_after. intros [st|[[[view importer] n] offset]]; [constructor|].
  destruct (hk_symbol_build_candidates _ _) as [st|candidates]; [constructor|].
  eapply ends_bind; [apply sites_parse_table|]. by intros [[l status] s'].
Qed.

(** ** Plans *)

Section Plans.
Context `{Pac : PacOps}.

(** What a site calls, by what was read at its slot. *)
Definition callable_of (s : hk_rebind_site) : option Z :=
  base ← checked_adjust (if rs_original s =? 0 then 0 else hk_pac_strip_slot (rs_original s) (rs_schema s))
           (rs_addend s) false;
  Some (pac_make_callable base).

Record site_wf (s : hk_rebind_site) : Prop := SiteWf {
  sw_address : is_u64 (rs_address s);
  sw_original : if rs_original s =? 0 then rs_weak_import s = true ∧ rs_addend s = 0
                else hk_pac_slot_matches (rs_original s) (rs_schema s) (rs_address s) = true;
  sw_callable : callable_of s = Some (rs_callable_original s) }.

Record plan_wf (plan : hk_rebind_plan) : Prop := PlanWf {
  pw_bound : Z.of_nat (length (rp_sites plan)) <= HK_REBIND_MAX_SITES;
  pw_distinct : NoDup (rs_address <$> rp_sites plan);
  pw_sites : Forall site_wf (rp_sites plan) }.

Lemma empty_plan_wf : plan_wf empty_rebind_plan.
Proof. split; cbn; [done|constructor|constructor]. Qed.

Lemma site_at_none a sites : site_at a sites = None → a ∉ rs_address <$> sites.
Proof.
  unfold site_at. induction sites as [|s sites IH]; cbn; [by intros _ ?%elem_of_nil|].
  destruct (Z.eqb_spec (rs_address s) a) as [|Hne]; [done|]. intros H [->|Hin]%elem_of_cons; [done|by apply IH].
Qed.

Lemma ends_add_site mem plan a schema addend weak chained cached :
  plan_wf plan → is_u64 a →
  ends (add_site mem plan a schema addend weak chained cached) (λ r, plan_wf r.2).
Proof.
  intros Hp Ha. unfold add_site. destruct (site_at a _) as [s|] eqn:Hat; [done|].
  destruct (Z.leb_spec HK_REBIND_MAX_SITES (Z.of_nat (length (rp_sites plan)))); [done|].
  apply ends_after. intros old. destruct (_ && _) eqn:Hweak; [done|]. destruct (_ && _) eqn:Hpac in |- *; [done|].
  destruct (checked_adjust _ _ _) as [base|] eqn:Ebase; [|done]. destruct Hp as [Hb Hd Hs]. cbn. split; cbn.
  - rewrite length_app. cbn. lia.
  - rewrite fmap_app, NoDup_app. split_and!; [done| |apply NoDup_singleton].
    intros x Hx ->%list_elem_of_singleton. by apply site_at_none in Hat.
  - apply Forall_app_2; [done|]. constructor; [|done]. split; cbn; [done| |].
    + destruct (old =? 0); cbn in Hweak, Hpac; [|by apply negb_false_iff in Hpac].
      apply orb_false_iff in Hweak as [H1%negb_false_iff H2%negb_false_iff%Z.eqb_eq]. done.
    + unfold callable_of. cbn. by rewrite Ebase.
Qed.

Lemma ends_chained_bind mem f candidates base size c b :
  plan_wf (cc_plan c) → ends (chained_bind_cb mem f candidates base size c b) (λ r, plan_wf (cc_plan r.2)).
Proof.
  intros Hc. unfold chained_bind_cb. apply ends_after. intros [e|import]; [done|]. apply ends_after. intros same.
  destruct (negb same); [done|]. destruct (_ || _); [done|]. destruct (addends_overflow _ _); [done|].
  eapply ends_bind; [apply ends_add_site; [done|apply u64_range]|]. intros [status plan] Hplan. by destruct status.
Qed.

Lemma ends_dysymtab_slot mem candidates slide c s :
  plan_wf c.1 → ends (dysymtab_slot_cb mem candidates slide c s) (λ r, plan_wf r.2.1).
Proof.
  intros Hc. unfold dysymtab_slot_cb. apply ends_after. intros same. destruct (negb same); [done|]. cbv zeta.
  eapply ends_bind; [apply ends_add_site; [done|apply u64_range]|]. intros [status plan] Hplan.
  by destruct (bool_decide _).
Qed.

Lemma ends_parse_chains mem target candidates file plan :
  plan_wf plan → ends (parse_chains mem target candidates file plan) (λ r, plan_wf r.2).
Proof.
  intros Hp. unfold parse_chains. eapply ends_bind; [apply (ends_file_binds _ _ (λ c, plan_wf (cc_plan c)))|].
  - intros c b. apply ends_chained_bind.
  - exact Hp.
  - by intros [status c].
Qed.


Lemma ends_replay mem sites plan :
  Forall (λ k, is_u64 (ks_address k)) sites → plan_wf plan →
  ends (replay_sites mem sites plan) (λ r, plan_wf r.2).
Proof.
  intros Hs. revert plan. induction Hs as [|k sites Hk Hs IH]; intros plan Hp; cbn [replay_sites]; [done|].
  eapply ends_bind; [by apply ends_add_site|]. intros [status plan'] Hp'. destruct status; [by apply IH|done..].
Qed.

Lemma ends_cache_sites mem c sites :
  Forall site_in_range sites → plan_wf (cc_plan c) →
  ends (collect_cache_sites mem c sites) (λ c, plan_wf (cc_plan c)).
Proof.
  intros Hs. revert c. induction Hs as [|s sites Hr Hs IH]; intros c Hc; cbn [collect_cache_sites]; [done|].
  eapply (ends_bind _ _ (λ r, plan_wf (cc_plan r.2))); [|intros [go c'] Hc'; by apply IH].
  unfold cache_patch_cb. eapply ends_bind; [by apply ends_add_site|]. intros [status plan] Hp. by destruct status.
Qed.

(** ** The answer of a preparation *)

(** A plan that was accepted has sites; where it says so, they all have its
    original. *)
Definition answer_ok (r : hk_rebind_status * hk_rebind_plan) : Prop :=
  plan_wf r.2 ∧ (r.1 = HK_REBIND_OK → rp_sites r.2 ≠ [] ∧
    (rp_originals_agree r.2 = true →
     Forall (λ s, rs_callable_original s = rp_original r.2) (rp_sites r.2))).

Lemma refused_answer status plan : plan_wf plan → status ≠ HK_REBIND_OK → answer_ok (status, plan).
Proof. by intros. Qed.

Lemma finalized_answer plan : plan_wf plan → answer_ok (finalize_plan plan).
Proof.
  intros [Hb Hd Hs]. unfold finalize_plan. destruct plan as [[|s l] agree original]; cbn in *; [done|].
  split; [by split|]. intros _. split; [done|]. intros Hall. constructor; [done|]. apply Forall_forall.
  intros t Ht. apply Z.eqb_eq, (proj1 (forallb_forall _ _) Hall), list_elem_of_In, Ht.
Qed.

Lemma finalize_ok_answer r : plan_wf r.2 → answer_ok (finalize_ok r).
Proof. destruct r as [status plan]. intros Hp. destruct status; try done. by apply finalized_answer. Qed.

Lemma ends_dysymtab mem target candidates header_size plan :
  plan_wf plan → ends (prepare_dysymtab mem target candidates header_size plan) answer_ok.
Proof.
  intros Hp. unfold prepare_dysymtab. apply ends_after. intros [e|tables]; [done|]. destruct (_ =? _); [done|].
  eapply ends_bind; [apply (ends_slots_iterate _ _ (λ c, plan_wf c.1)); [|exact Hp]|].
  - intros c s. apply ends_dysymtab_slot.
  - intros [status c] Hc. cbn in Hc |- *. destruct c.2; try done. destruct status; try done. by apply finalized_answer.
Qed.

(** ** The caches on the way *)

(** The addresses of the symbol cache come from plans. *)
Definition symbols_wf (g : rebind_globals) : Prop :=
  ∀ e, Some e ∈ rg_symbols g → Forall (λ k, is_u64 (ks_address k)) (ye_sites e).

Lemma no_globals_symbols h : symbols_wf (no_globals h).
Proof. intros e He. cbn in He. repeat (apply elem_of_cons in He as [He|He]; [done|]). by apply elem_of_nil in He. Qed.

Definition plans {A} (m : R A) (Q : A → Prop) : Prop :=
  ∀ g, symbols_wf g → ends (m g) (λ r, Q r.1 ∧ symbols_wf r.2).

Lemma plans_ret {A} (a : A) (Q : A → Prop) : Q a → plans (rret a) Q.
Proof. by intros Ha g Hg. Qed.

Lemma plans_bind {A B} (m : R A) (k : A → R B) Q Q' :
  plans m Q → (∀ a, Q a → plans (k a) Q') → plans (rbind m k) Q'.
Proof.
  intros Hm Hk g Hg. unfold rbind. eapply ends_bind; [exact (Hm g Hg)|].
  intros [a g'] [Ha Hg']. by apply Hk.
Qed.

Lemma plans_reading {A} image_mem (f : memory → option A) Q : (∀ mem, ends (f mem) Q) → plans (reading image_mem f) Q.
Proof. intros Hf g Hg. unfold reading. eapply ends_bind; [apply Hf|]. by intros a Ha. Qed.

Lemma plans_state : plans (rgets id) symbols_wf.
Proof. by intros g Hg. Qed.

(** A computation that leaves the symbol cache alone. *)
Definition leaves_symbols {A} (m : R A) : Prop := ∀ g, ends (m g) (λ r, rg_symbols r.2 = rg_symbols g).

Lemma plans_leaves {A} (m : R A) : leaves_symbols m → plans m (λ _, True).
Proof.
  intros Hm g Hg. eapply ends_conseq; [apply Hm|]. intros [a g'] E. split; [done|]. unfold symbols_wf. cbn in *.
  by rewrite E.
Qed.

Lemma leaves_symbols_bind {A B} (m : R A) (k : A → R B) :
  leaves_symbols m → (∀ a, leaves_symbols (k a)) → leaves_symbols (rbind m k).
Proof.
  intros Hm Hk g. unfold rbind. eapply ends_bind; [apply Hm|]. intros [a g'] E.
  eapply ends_conseq; [apply Hk|]. cbn in *. by intros r ->.
Qed.

Lemma close_leaves_symbols view : leaves_symbols (close_file_view view).
Proof. intros g. unfold close_file_view. by destruct (fv_mapped view). Qed.

Lemma open_leaves_symbols file_bytes place target : leaves_symbols (open_file_view file_bytes place target).
Proof.
  intros g. unfold open_file_view. destruct (_ && _); [done|]. destruct (rt_image_path target) as [path|]; [|done].
  destruct (file_bytes path) as [[|b bytes]|]; [done| |done]. by destruct (place _ _).
Qed.

Lemma store_leaves_symbols target path header view file : leaves_symbols (store_file target path header view file).
Proof.
  apply leaves_symbols_bind; [done|]. intros g. destruct (cache_victim _ _ _) as [victim next].
  apply leaves_symbols_bind.
  { destruct (rg_files g !! _) as [[e|]|]; [apply close_leaves_symbols|done|done]. }
  intros _. apply leaves_symbols_bind; [done|]. intros _. apply leaves_symbols_bind.
  { intros g'. unfold on_heap. by destruct (alloc _). }
  intros [|]; [done|apply close_leaves_symbols].
Qed.

Lemma elem_of_set_entry {A} i (e : option A) entries x : x ∈ set_entry i e entries → x = e ∨ x ∈ entries.
Proof.
  unfold set_entry. intros (j & Hj)%list_elem_of_lookup. apply list_lookup_insert_Some in Hj as [(_ & -> & _)|[_ Hj]]; [by left|].
  right. by eapply list_elem_of_lookup_2.
Qed.

Lemma plans_store_symbol target path symbol convention plan :
  plan_wf plan → plans (store_symbol target path symbol convention plan) (λ _, True).
Proof.
  intros [_ _ Hs]. unfold store_symbol. eapply plans_bind; [apply plans_state|]. intros g0 _.
  destruct (cache_victim _ _ _) as [victim next]. eapply plans_bind with (Q := λ _, True).
  { intros g Hg. split; [done|]. intros e [|He]%elem_of_set_entry; [done|by apply Hg]. }
  intros _ _. eapply plans_bind with (Q := λ _, True).
  { apply plans_leaves. intros g. unfold on_heap. by destruct (alloc_strings _). }
  intros [|] _; [|by apply plans_ret]. intros g Hg. split; [done|].
  intros e [[= ->]|He]%elem_of_set_entry; [|by apply Hg].
  apply Forall_fmap. eapply Forall_impl; [exact Hs|]. by intros s [Ha _ _].
Qed.

Lemma find_entry_elem {A} (P : A → bool) entries e : find_entry P entries = Some e → Some e ∈ entries.
Proof.
  unfold find_entry. destruct (List.find _ entries) as [[a|]|] eqn:E; [|done..]. intros [= ->].
  apply List.find_some in E as [Hin _]. by apply list_elem_of_In.
Qed.

(** ** Preparation *)

Section Prepare.
Context (image_mem : memory) (file_bytes : string → option (list Z)) (place : list mapping → Z → option Z).
Context (dyld_cache : option (Z * Z)).

Lemma plans_close view : plans (close_file_view view) (λ _, True).
Proof. apply plans_leaves, close_leaves_symbols. Qed.

Lemma plans_chains target symbol convention candidates header plan :
  plan_wf plan →
  plans (prepare_file_chains image_mem file_bytes place target symbol convention candidates header plan)
    (λ r, plan_wf r.2).
Proof.
  intros Hp.
  assert (Hopen : plans (open_file_view file_bytes place target) (λ _, True))
    by (apply plans_leaves, open_leaves_symbols).
  assert (Hload : ∀ view, plans (reading image_mem (λ mem, load_file mem (rt_image_base target) header view)) (λ _, True)).
  { intros view. apply plans_reading. intros mem. by destruct (load_file _ _ _ _). }
  assert (Hparse : ∀ file, plans (reading image_mem (λ mem, parse_chains mem target candidates file plan))
    (λ r, plan_wf r.2)).
  { intros file. apply plans_reading. intros mem. by apply ends_parse_chains. }
  unfold prepare_file_chains. destruct (_ && _).
  - eapply plans_bind; [exact Hopen|]. intros [view|] _; [|by apply plans_ret].
    eapply plans_bind; [apply Hload|]. intros [status|file] _.
    { eapply plans_bind; [apply plans_close|]. intros _ _. by apply plans_ret. }
    eapply plans_bind; [apply Hparse|]. intros r Hr. eapply plans_bind; [apply plans_close|]. intros _ _.
    by apply plans_ret.
  - destruct (rt_image_path target) as [path|]; [|by apply plans_ret].
    eapply plans_bind; [apply plans_state|]. intros g0 _. destruct (find_entry _ (rg_files g0)) as [e|].
    + eapply plans_bind; [apply plans_state|]. intros g1 Hg1.
      destruct (find_entry _ (rg_symbols g1)) as [cached|] eqn:Ec.
      * eapply plans_bind with (Q := λ r, plan_wf r.2); [|intros r Hr; by apply plans_ret].
        apply plans_reading. intros mem. apply ends_replay; [|done]. by eapply Hg1, find_entry_elem.
      * eapply plans_bind; [apply Hparse|]. intros [[status|] r] Hr; [by apply plans_ret|].
        eapply plans_bind; [by apply plans_store_symbol|]. intros _ _. by apply plans_ret.
    + eapply plans_bind; [exact Hopen|]. intros [view|] _; [|by apply plans_ret].
      eapply plans_bind; [apply Hload|]. intros [status|file] _.
      { eapply plans_bind; [apply plans_close|]. intros _ _. by apply plans_ret. }
      eapply plans_bind; [apply Hparse|]. intros [verdict r] Hr.
      eapply plans_bind; [apply plans_leaves, store_leaves_symbols|]. intros _ _.
      destruct verdict as [status|]; [by apply plans_ret|].
      eapply plans_bind; [apply plans_state|]. intros g1 _. eapply plans_bind with (Q := λ _, True).
      { destruct (find_entry _ _); [by apply plans_ret|by apply plans_store_symbol]. }
      intros _ _. by apply plans_ret.
Qed.

Lemma plans_tables target symbol convention candidates header plan :
  plan_wf plan →
  plans (prepare_tables image_mem file_bytes place target symbol convention candidates header plan) answer_ok.
Proof.
  intros Hp. unfold prepare_tables. eapply plans_bind with (Q := λ _, True).
  { apply plans_reading. intros mem. by destruct (hk_macho_find_load_command _ _ _ _). }
  intros [status|[off size]] _.
  - destruct status; try by apply plans_ret. apply plans_reading. intros mem.
    by apply ends_dysymtab.
  - destruct (_ <? _); [by apply plans_ret|].
    eapply plans_bind; [by apply plans_chains|]. intros r Hr. apply plans_ret. by apply finalize_ok_answer.
Qed.

Lemma plans_cached target symbol convention base size immutable header_size lookup :
  plans (prepare_cached image_mem target symbol convention base size immutable header_size lookup)
    (λ r, plan_wf (cc_plan r.1.1)).
Proof.
  intros g Hg. unfold prepare_cached. cbv zeta. eapply ends_bind; [apply sites_lookup|].
  intros [[sites status] s] Hs. eapply ends_bind; [by apply ends_cache_sites; [|apply empty_plan_wf]|].
  intros c Hc. by split.
Qed.

Lemma cache_verdict_answer c status r :
  plan_wf (cc_plan c) → cache_verdict c status = Some r → answer_ok r.
Proof.
  intros Hc. unfold cache_verdict. destruct (cc_overflow c); [by intros [= <-]|].
  destruct (cc_pac_mismatch c); [by intros [= <-]|]. destruct (cc_malformed c); [by intros [= <-]|].
  destruct status; intros [= <-]; try done. by apply finalized_answer.
Qed.

Lemma plans_prepare target symbol convention lookup :
  plans (hk_rebind_prepare_with_lookup image_mem file_bytes place dyld_cache target symbol convention lookup)
    (λ r, answer_ok r.1).
Proof.
  pose proof empty_plan_wf as He. unfold hk_rebind_prepare_with_lookup. destruct symbol as [symbol|]; [|by apply plans_ret].
  destruct (_ =? 0); [by apply plans_ret|].
  destruct (hk_symbol_build_candidates _ _) as [st|candidates]; [by apply plans_ret|].
  eapply plans_bind with (Q := λ _, True).
  { apply plans_reading. intros mem. by destruct (hk_macho_peek_header _ _ _). }
  intros [st|header] _; [by apply plans_ret|]. cbv zeta. destruct (_ <? _); [by apply plans_ret|].
  destruct (live_cache_range dyld_cache target) as [[base size] immutable].
  assert (Ht : ∀ plan (k : option cache_lookup), plan_wf plan → plans
    (rbind (prepare_tables image_mem file_bytes place target symbol convention candidates header plan)
       (λ r, rret (r.1, r.2, k))) (λ r, answer_ok r.1)).
  { intros plan k Hp. eapply plans_bind; [by apply plans_tables|]. intros [status plan'] Ha. by apply plans_ret. }
  destruct (in_cache target base size); [|by apply Ht].
  eapply plans_bind; [apply plans_cached|]. intros [[c status] lookup'] Hc.
  destruct (cache_verdict c status) as [[status' plan]|] eqn:Ev; [|by apply Ht].
  apply plans_ret. by eapply cache_verdict_answer.
Qed.
End Prepare.
End Plans.

(** C20. Whatever the image, its file and the shared cache hold, and whatever the
    caches kept from earlier preparations, the plan of a preparation has at most
    thirty-two sites at different addresses; every site's value passes the
    authentication it declares, or is the null of a weak import; and its callable
    original is that value, stripped and less the addend.  A plan that was
    accepted has a site, and where it says that the originals agree they are all
    its original.  The caches it leaves are such that this holds of the next
    preparation. *)
Theorem rebind_plan_typed `{PacOps} image_mem file_bytes place dyld_cache target symbol convention
    lookup g status plan lookup' g' :
  symbols_wf g →
  hk_rebind_prepare_with_lookup image_mem file_bytes place dyld_cache target symbol convention lookup g
    = Some (status, plan, lookup', g') →
  plan_wf plan ∧ symbols_wf g' ∧
  (status = HK_REBIND_OK → rp_sites plan ≠ [] ∧
    (rp_originals_agree plan = true →
     Forall (λ s, rs_callable_original s = rp_original plan) (rp_sites plan))).
Proof.
  intros Hg Hp.
  pose proof (ends_value _ _ _
    (plans_prepare image_mem file_bytes place dyld_cache target symbol convention lookup g Hg) Hp) as [[Hw Ho] Hs].
  by split_and!.
Qed.

Lemma rebind_plan_typed_witness :
  plan_wf (Pac := plain_pac) DemoRebind.plan ∧ rp_sites DemoRebind.plan ≠ [].
Proof.
  destruct (rebind_plan_typed (H := plain_pac) DemoRebind.image_memory DemoRebind.files DemoRebind.place None
    DemoRebind.target (Some "f"%string) 0 None DemoRebind.start HK_REBIND_OK DemoRebind.plan None DemoRebind.after)
    as (Hw & _ & Ho).
  - apply no_globals_symbols.
  - exact DemoRebind.first_prepare.
  - split; [exact Hw|]. by apply Ho.
Defined.
