(* ===== verification/RebindVtable.v ===== *)
(** * The rebind engine's adapter (src/engines/HKRebindVtable.c)

    One image pinned by the engine's context, or a bundle of plans for every
    image of the catalog that the request's caller scope matches.  A read of
    memory that is not mapped has no result, so every operation may have none. *)

From stdpp Require Import base list strings gmap numbers option.
From S2P Require Import Prelude Types Ownership ImageCatalog Artifacts Engine Memory Faults SymbolTable MachO SymbolResolve Device EngineWorld PointerAuth RebindEngine DyldCache RebindCache.

Definition HK_REBIND_DIAG_IMAGE_SCOPE_BASE : Z := 100.
Definition HK_REACH_EXISTING_IMPORTS : Z := 2 ^ 0.

Record hk_rebind_engine_ctx {X : Type} : Type := RebindEngineCtx {
  rx_image_base : Z;
  rx_image_size : Z;
  rx_slide : Z;
  rx_image_path : option string;
  rx_write : option (pointer_writer X);
  rx_catalog : option hk_image_catalog }.
Arguments hk_rebind_engine_ctx : clear implicits.
Arguments RebindEngineCtx {X} _ _ _ _ _ _.

(** A target, its writer, and its plan. *)
Record rebind_bundle_entry {X : Type} : Type := BundleEntry {
  be_target : hk_rebind_target;
  be_write : option (pointer_writer X);
  be_plan : hk_rebind_plan }.
Arguments rebind_bundle_entry : clear implicits.
Arguments BundleEntry {X} _ _ _.

(** [count] is the length of [rb_entries]. *)
Record rebind_bundle {X : Type} : Type := RebindBundle {
  rb_originals_agree : bool;
  rb_original : Z;
  rb_entries : list (rebind_bundle_entry X) }.
Arguments rebind_bundle : clear implicits.
Arguments RebindBundle {X} _ _ _.

Definition empty_bundle {X} : rebind_bundle X := RebindBundle true 0 [].

(** What the core hands back by pointer. *)
Inductive rebind_prepared {X : Type} : Type :=
  | PreparedPlan (plan : hk_rebind_plan)
  | PreparedBundle (bundle : rebind_bundle X).
Arguments rebind_prepared : clear implicits.
Arguments PreparedPlan {X} _.
Arguments PreparedBundle {X} _.

(** The world of the engine, and its caches; their heap is the world's. *)
Record rebind_world {X : Type} : Type := RebindWorld {
  rw_engine : engine_world X (rebind_prepared X);
  rw_globals : rebind_globals }.
Arguments rebind_world : clear implicits.
Arguments RebindWorld {X} _ _.

#[export] Instance rebind_world_eta {X} : Eta (rebind_world X) := λ w,
  RebindWorld (rw_engine w) (rw_globals w).

Section Targets.
Context {X : Type}.

Definition target_from (ctx : hk_rebind_engine_ctx X) : hk_rebind_target :=
  RebindTarget (rx_image_base ctx) (rx_image_size ctx) (rx_slide ctx) (rx_image_path ctx)
    0 0 0 0 None false.

Definition rebind_describe : hk_engine_capabilities :=
  Capabilities (Some "fishhook") (Some "HookKit") (Some "HookKit")
    (HK_TARGET_KIND_BIT HK_TARGET_FUNCTION_SYMBOL) 0 0
    HK_ENGINE_ARCHITECTURES HK_ENGINE_ARCHITECTURES (HK_ENGINE_IOS_VERSION 15 0 0)
    HK_REACH_EXISTING_IMPORTS
    (Z.lor (HK_ORIGINAL_REQ_BIT HK_ORIGINAL_NONE) (HK_ORIGINAL_REQ_BIT HK_ORIGINAL_DIRECT_PREDECESSOR))
    0 HK_EFFECT_IMPORT_MUTATION false false (HK_TARGET_KIND_BIT HK_TARGET_FUNCTION_SYMBOL).

(** Whether [ctx] asks for the images of its catalog. *)
Definition over_catalog (ctx : hk_rebind_engine_ctx X) : bool :=
  (rx_image_base ctx =? 0) && negb (bool_decide (rx_catalog ctx = None)).

(** The slots no earlier entry has. *)
Definition already_kept (entries : list (rebind_bundle_entry X)) (s : hk_rebind_site) : bool :=
  existsb (λ e, existsb (λ t, rs_address t =? rs_address s) (rp_sites (be_plan e))) entries.

Definition new_sites (entries : list (rebind_bundle_entry X)) (sites : list hk_rebind_site)
    : list hk_rebind_site :=
  List.filter (λ s, negb (already_kept entries s)) sites.

(** An image's plan joins the bundle; the comparison of originals is that of
    the plan as prepared. *)
Definition bundle_add (bundle : rebind_bundle X) (target : hk_rebind_target)
    (write : option (pointer_writer X)) (plan : hk_rebind_plan) : rebind_bundle X :=
  let kept := new_sites (rb_entries bundle) (rp_sites plan) in
  match kept with
  | [] => bundle
  | _ =>
      let agree := rb_originals_agree bundle && rp_originals_agree plan in
      let entries := rb_entries bundle ++ [BundleEntry target write (plan <| rp_sites := kept |>)] in
      match rb_entries bundle with
      | [] => RebindBundle agree (rp_original plan) entries
      | _ => RebindBundle (agree && (rb_original bundle =? rp_original plan)) (rb_original bundle)
               entries
      end
  end.

Definition rebind_classify (st : hk_rebind_status) : hk_prepare_result * hk_prepare_diag :=
  let failed message := (HK_PREPARE_FAILED, refused_with (hk_rebind_status_code st) message) in
  match st with
  | HK_REBIND_OK => (HK_PREPARE_OK, no_prepare_diag)
  | HK_REBIND_NOT_FOUND => failed "the image imports no such symbol"
  | HK_REBIND_MALFORMED_IMAGE => failed "the image's import metadata is structurally invalid"
  | HK_REBIND_TOO_MANY_SITES =>
      failed "more import slots for this symbol than the engine can record"
  | HK_REBIND_METADATA_UNAVAILABLE =>
      failed "authoritative on-disk import metadata is unavailable"
  | HK_REBIND_PAC_MISMATCH =>
      failed "an authenticated import slot does not match its declared PAC schema"
  | HK_REBIND_UNSUPPORTED_FORMAT =>
      failed "the image uses an unsupported chained-fixup or cache-patch format"
  | HK_REBIND_SCOPE_UNREPRESENTABLE =>
      failed "shared-cache GOT uses cannot represent the requested caller scope"
  | HK_REBIND_INVALID_ARGUMENT => failed "invalid rebind target"
  end.
End Targets.

(** An original is wanted, and there is not exactly one. *)
Definition no_single_original (spec : hk_hook_spec) (agree : bool) (original : Z) : bool :=
  negb (bool_decide (hs_original_requirement spec = HK_ORIGINAL_NONE)) &&
  (negb agree || (original =? 0)).

(** ** Preparing a bundle *)

Record rebind_collect_ctx {X : Type} : Type := RebindCollect {
  rk_globals : rebind_globals;
  rk_bundle : rebind_bundle X;
  rk_error : hk_rebind_status;
  rk_lookup : option cache_lookup }.
Arguments rebind_collect_ctx : clear implicits.
Arguments RebindCollect {X} _ _ _ _.

#[export] Instance rebind_collect_ctx_eta {X} : Eta (rebind_collect_ctx X) := λ c,
  RebindCollect (rk_globals c) (rk_bundle c) (rk_error c) (rk_lookup c).

Definition any_loaded (scope : image_selector) : bool :=
  let '(Selector kind _ _) := scope in bool_decide (kind = HK_IMAGE_ANY_LOADED).

Section Adapter.
Context `{PacOps} {X : Type}.
Context (ctx_at : Z → option (hk_rebind_engine_ctx X)).
Context (mapped : Z → bool) (file_bytes : string → option (list Z)).
Context (place : list mapping → Z → option Z) (dyld_cache : option (Z * Z)).
Local Abbreviation world := (rebind_world X).

(** An entry's target: its load commands, its whole span where that is known. *)
Definition entry_target (mem : memory) (engine : hk_rebind_engine_ctx X) (scope : image_selector)
    (entry : hk_image_entry) (commands_size : Z) : option hk_rebind_target :=
  let header := ie_header entry in
  span ← hk_macho_image_span_for_loaded_image mem header commands_size (ie_slide entry);
  let size := match span with
              | inr (_, image_end) =>
                  if header <? image_end then image_end - header else commands_size
              | inl _ => commands_size
              end in
  Some (RebindTarget header size (ie_slide entry) (ie_path entry) 0 0 0 0 (ie_uuid entry)
          (any_loaded scope)).

Definition rebind_collect_image (image_mem : memory) (engine : hk_rebind_engine_ctx X)
    (symbol : hk_symbol_target) (c : rebind_collect_ctx X) (entry : hk_image_entry)
    : visited (rebind_collect_ctx X) :=
  let fail status c := Some (false, c <| rk_error := status |>) in
  if ie_header entry =? 0 then fail HK_REBIND_MALFORMED_IMAGE c
  else
    let mem := live_memory image_mem (rg_maps (rk_globals c)) in
    header ← hk_macho_peek_header mem (ie_header entry) HK_MACHO_HEADER_64_SIZE;
    match header with
    | inl _ => fail HK_REBIND_MALFORMED_IMAGE c
    | inr header =>
        target ← entry_target mem engine (sy_caller_image_scope symbol) entry
                   (HK_MACHO_HEADER_64_SIZE + mh_sizeofcmds header);
        '(status, plan, lookup, g) ←
          hk_rebind_prepare_with_lookup image_mem file_bytes place dyld_cache target
            (sy_name symbol) (sy_name_convention symbol) (rk_lookup c) (rk_globals c);
        let c := c <| rk_globals := g |> <| rk_lookup := lookup |> in
        match status with
        | HK_REBIND_NOT_FOUND => Some (true, c)
        | HK_REBIND_OK =>
            Some (true, c <| rk_bundle := bundle_add (rk_bundle c) target (rx_write engine) plan |>)
        | status => fail status c
        end
    end.

(** The visitor as the catalog calls it: a fault ends the walk. *)
Definition collect_visit (image_mem : memory) (engine : hk_rebind_engine_ctx X)
    (symbol : hk_symbol_target) (_ : nat) (entry : hk_image_entry)
    : M (option (rebind_collect_ctx X)) bool := λ c,
  match c with
  | None => (false, None)
  | Some c =>
      match rebind_collect_image image_mem engine symbol c entry with
      | None => (false, None)
      | Some (go_on, c) => (go_on, Some c)
      end
  end.

(** ** The operations *)

Definition W (A : Type) : Type := world → option (A * world).
Definition wret {A} (a : A) : W A := λ w, Some (a, w).
Definition wbind {A B} (m : W A) (k : A → W B) : W B := λ w, '(a, w) ← m w; k a w.
Notation "x <=~ m ;; k" := (wbind m (λ x, k))
  (at level 100, m at next level, right associativity).

Definition on_engine {A} (m : M (engine_world X (rebind_prepared X)) A) : W A := λ w,
  let '(a, e) := m (rw_engine w) in Some (a, w <| rw_engine := e |>).

(** A computation on the caches, with the heap of the process. *)
Definition on_globals {A} (m : R A) : W A := λ w,
  '(a, g) ← m (rw_globals w <| rg_heap := ew_heap (rw_engine w) |>);
  Some (a, RebindWorld (rw_engine w <| ew_heap := rg_heap g |>) g).

(** The images' memory: the device's, where it is mapped. *)
Definition image_memory (w : world) : memory :=
  mapped_memory mapped (d_mem (ew_device (rw_engine w))).

Definition failed_prepare (diag : hk_prepare_diag) : W (hk_prepare_result * Z * hk_prepare_diag) :=
  wret (HK_PREPARE_FAILED, 0, diag).

(** The walk over the catalog, from an empty bundle. *)
Definition collect_bundle (image_mem : memory) (ctx : hk_rebind_engine_ctx X)
    (symbol : hk_symbol_target) : R (rebind_bundle X * hk_rebind_status) := λ g,
  let '(lookup, h) := hk_cache_patch_lookup_create (sy_name symbol) (sy_name_convention symbol)
                        (rg_heap g) in
  c ← (hk_image_catalog_match (rx_catalog ctx) (Some (sy_caller_image_scope symbol))
         (Some (collect_visit image_mem ctx symbol))
         (Some (RebindCollect (g <| rg_heap := h |>) empty_bundle HK_REBIND_OK lookup))).2;
  Some ((rk_bundle c, rk_error c), rk_globals c).

Definition prepare_bundle (ctx : hk_rebind_engine_ctx X) (spec : hk_hook_spec)
    (symbol : hk_symbol_target) : W (hk_prepare_result * Z * hk_prepare_diag) := λ w,
  (p <=~ on_engine malloc_object ;;
   if p =? 0 then failed_prepare (refused_with 0 "out of memory")
   else
     collected <=~ on_globals (collect_bundle (image_memory w) ctx symbol) ;;
     let '(bundle, error) := collected in
     let refused diag := _ <=~ on_engine (free_object p) ;; failed_prepare diag in
     if negb (bool_decide (error = HK_REBIND_OK)) then refused (rebind_classify error).2
     else
       match rb_entries bundle with
       | [] => refused (rebind_classify HK_REBIND_NOT_FOUND).2
       | _ =>
           if no_single_original spec (rb_originals_agree bundle) (rb_original bundle)
           then refused (refused_with 0 "rebind sites have no single original")
           else
             _ <=~ on_engine (put_object p (PreparedBundle bundle)) ;;
             wret (HK_PREPARE_OK, p, no_prepare_diag)
       end) w.

Definition prepare_pinned (ctx : hk_rebind_engine_ctx X) (spec : hk_hook_spec)
    (symbol : hk_symbol_target) : W (hk_prepare_result * Z * hk_prepare_diag) := λ w,
  (let scope := Scope.hk_image_scope_check_header (rx_catalog ctx)
                  (Some (sy_caller_image_scope symbol)) false None (rx_image_base ctx) in
   if scope_refuses scope
   then failed_prepare (refused_with (HK_REBIND_DIAG_IMAGE_SCOPE_BASE + scope_code scope)
                          (hk_image_scope_describe scope))
   else
     p <=~ on_engine malloc_object ;;
     if p =? 0 then failed_prepare (refused_with 0 "out of memory")
     else
       let target := target_from ctx <| rt_include_shared_cache_got :=
                       any_loaded (sy_caller_image_scope symbol) |> in
       answer <=~ on_globals (hk_rebind_prepare (image_memory w) file_bytes place dyld_cache target
                                (sy_name symbol) (sy_name_convention symbol)) ;;
       let '(st, plan) := answer in
       let '(result, diag) := rebind_classify st in
       let refused diag := _ <=~ on_engine (free_object p) ;; failed_prepare diag in
       match result with
       | HK_PREPARE_OK =>
           if no_single_original spec (rp_originals_agree plan) (rp_original plan)
           then refused (refused_with 0 "rebind sites have no single original")
           else
             _ <=~ on_engine (put_object p (PreparedPlan plan)) ;;
             wret (HK_PREPARE_OK, p, diag)
       | _ => refused diag
       end) w.

Definition rebind_prepare_one_ctx_status (engine_ctx : Z) (spec : hk_hook_spec)
    : W (hk_prepare_result * Z * hk_prepare_diag) :=
  match ctx_at engine_ctx, hs_target spec with
  | Some ctx, TSymbol symbol =>
      if over_catalog ctx then prepare_bundle ctx spec symbol else prepare_pinned ctx spec symbol
  | _, _ =>
      failed_prepare
        (refused_with 0 "rebind engine invoked without an image or with a non-symbol target")
  end.

(** *** Commit *)

Definition sink_predecessor (sink : hk_artifact_sink) : option Z :=
  if sk_require_predecessor_match sink then Some (sk_required_predecessor sink) else None.

Fixpoint commit_entries (replacement : Z) (predecessor : option Z)
    (entries : list (rebind_bundle_entry X)) (total : Z) (records : list hk_artifact)
    : M (device X) (hk_mutation_state * list hk_artifact) :=
  match entries with
  | [] => ret (HK_MUTATION_COMPLETE, records)
  | e :: entries =>
      reply <- hk_rebind_commit (be_write e) (be_plan e) replacement predecessor ;;
      let '(state, recorded, written) := reply in
      let total := u32 (total + written) in
      let records := records ++ recorded in
      if bool_decide (state = HK_MUTATION_COMPLETE)
      then commit_entries replacement predecessor entries total records
      else ret (if bool_decide (state = HK_MUTATION_UNKNOWN) then HK_MUTATION_UNKNOWN
                else if bool_decide (state = HK_MUTATION_PARTIAL) || negb (total =? 0)
                then HK_MUTATION_PARTIAL else HK_MUTATION_NONE, records)
  end.

(** The original goes out where the commit is complete and there is one. *)
Definition published (state : hk_mutation_state) (agree : bool) (original : Z) : option Z :=
  if bool_decide (state = HK_MUTATION_COMPLETE) && agree then Some original else None.

Definition rebind_commit_one_ctx (engine_ctx : Z) (spec : hk_hook_spec) (prepared : Z)
    (sink : hk_artifact_sink) : W commit_reply :=
  object <=~ on_engine (get_object prepared) ;;
  match ctx_at engine_ctx, object with
  | Some ctx, Some (PreparedBundle bundle) =>
      if over_catalog ctx then
        reply <=~ on_engine (on_device (commit_entries (hs_replacement spec) (sink_predecessor sink)
                                         (rb_entries bundle) 0 [])) ;;
        wret (CommitReply reply.2 (published reply.1 (rb_originals_agree bundle) (rb_original bundle))
                None reply.1)
      else λ _, None
  | Some ctx, Some (PreparedPlan plan) =>
      if over_catalog ctx then λ _, None
      else
        reply <=~ on_engine (on_device (hk_rebind_commit (rx_write ctx) plan (hs_replacement spec)
                                         (sink_predecessor sink))) ;;
        let '(state, records, _) := reply in
        wret (CommitReply records
                (published state (negb (Z.of_nat (length (rp_sites plan)) =? 0) &&
                                  rp_originals_agree plan) (rp_original plan))
                None state)
  | _, _ => wret (CommitReply [] None None HK_MUTATION_NONE)
  end.

(** *** Verification *)

(** A slot reads back as its replacement. *)
Definition slot_holds (mem : Z → Z) (replacement : Z) (s : hk_rebind_site) : bool :=
  match hk_rebind_replacement_for_site s replacement with
  | Some v => slot_value mem (rs_address s) =? v
  | None => false
  end.

Definition readback (holds : bool) : hk_verify_result * hk_verify_diag :=
  if holds then (HK_VERIFY_OK, no_verify_diag)
  else (HK_VERIFY_FAILED, VerifyDiag 0 (Some "rebind slot readback does not match the replacement")).

Definition rebind_verify_one_ctx (engine_ctx : Z) (spec : hk_hook_spec) (prepared : Z)
    : W (hk_verify_result * hk_verify_diag) := λ w,
  (object <=~ on_engine (get_object prepared) ;;
   let holds := slot_holds (d_mem (ew_device (rw_engine w))) (hs_replacement spec) in
   match ctx_at engine_ctx, object, hs_target spec with
   | Some ctx, Some (PreparedBundle bundle), TSymbol _ =>
       if over_catalog ctx
       then wret (readback (forallb (λ e, forallb holds (rp_sites (be_plan e))) (rb_entries bundle)))
       else λ _, None
   | Some ctx, Some (PreparedPlan plan), TSymbol _ =>
       if over_catalog ctx then λ _, None else wret (readback (forallb holds (rp_sites plan)))
   | _, _, _ =>
       wret (HK_VERIFY_FAILED,
             VerifyDiag 0 (Some "rebind verification received an invalid prepared plan"))
   end) w.

Definition rebind_release_prepared (engine_ctx prepared : Z) : W unit :=
  on_engine (free_object prepared).
End Adapter.
