(* ===== verification/RebindLifecycle.v ===== *)
(** * The life of a rebinding (src/engines/HKRebindVtable.c)

    The plans of a bundle never share a slot, so committing them one after the
    other is committing their slots; what a complete commit has written is what
    verification reads back. *)

From stdpp Require Import base list strings gmap numbers option sorting.
From S2P Require Import Prelude Types Ownership ImageCatalog Artifacts Engine Memory SymbolTable MachO SymbolResolve Device EngineWorld WalkInvariants PointerAuth RebindEngine RebindCommit DyldCache RebindCache RebindDemo RebindPlanWf RebindVtable MemoryEngine.

Lemma Forall_sub {A} (P : A → Prop) l k : l `sublist_of` k → Forall P k → Forall P l.
Proof. rewrite !Forall_forall. intros Hs Hk x Hx. apply Hk. by eapply elem_of_submseteq; [|apply sublist_submseteq]. Qed.

Section Lifecycle.
Context `{Pac : PacOps} {X : Type}.

(** ** The sites of a bundle *)

Definition bundle_sites (entries : list (rebind_bundle_entry X)) : list hk_rebind_site :=
  concat ((λ e, rp_sites (be_plan e)) <$> entries).

Lemma bundle_sites_snoc entries e : bundle_sites (entries ++ [e]) = bundle_sites entries ++ rp_sites (be_plan e).
Proof. unfold bundle_sites. rewrite fmap_app, concat_app. cbn. by rewrite app_nil_r. Qed.

Lemma not_kept entries s : already_kept entries s = false → rs_address s ∉ rs_address <$> bundle_sites entries.
Proof.
  unfold already_kept, bundle_sites. induction entries as [|e entries IH]; cbn; [by intros _ ?%elem_of_nil|].
  intros [He H]%orb_false_iff. rewrite fmap_app, elem_of_app. intros [Hin|Hin]; [|by apply IH].
  apply list_elem_of_fmap in Hin as (t & Et & Hin). apply list_elem_of_In in Hin.
  assert (Ht : existsb (λ t, rs_address t =? rs_address s) (rp_sites (be_plan e)) = true); [|by rewrite Ht in He].
  apply existsb_exists. exists t. split; [done|by apply Z.eqb_eq].
Qed.

(** The sites of a prepared object, whether they agree, and on what. *)
Record prepared_wf (sites : list hk_rebind_site) (agree : bool) (original : Z) : Prop := PreparedWf {
  pr_sites : Forall site_wf sites;
  pr_distinct : NoDup (rs_address <$> sites);
  pr_agree : agree = true → Forall (λ s, rs_callable_original s = original) sites }.

Definition bundle_wf (write : option (pointer_writer X)) (b : rebind_bundle X) : Prop :=
  prepared_wf (bundle_sites (rb_entries b)) (rb_originals_agree b) (rb_original b) ∧
  Forall (λ e, be_write e = write) (rb_entries b) ∧
  (rb_entries b ≠ [] → bundle_sites (rb_entries b) ≠ []).

Lemma new_sites_sub (entries : list (rebind_bundle_entry X)) sites :
  new_sites entries sites `sublist_of` sites ∧ Forall (λ s, already_kept entries s = false) (new_sites entries sites).
Proof.
  induction sites as [|s sites [IH1 IH2]]; cbn; [by split|].
  destruct (already_kept entries s) eqn:E; cbn; (split; [|by try constructor]); by constructor.
Qed.

Lemma bundle_snoc_wf write bundle target plan new agree original :
  bundle_wf write bundle → plan_wf plan → new ≠ [] → new `sublist_of` rp_sites plan →
  Forall (λ s, already_kept (rb_entries bundle) s = false) new →
  (agree = true → (rb_entries bundle ≠ [] → rb_originals_agree bundle = true ∧ original = rb_original bundle) ∧
    Forall (λ s, rs_callable_original s = original) (rp_sites plan)) →
  bundle_wf write (RebindBundle agree original
    (rb_entries bundle ++ [BundleEntry target write (plan <| rp_sites := new |>)])).
Proof.
  intros ([Hs Hd Ha] & Hw & Hne) [_ Hpd Hps] Hnil Hsub Hnew Hagree.
  unfold bundle_wf. cbn [rb_entries rb_originals_agree rb_original]. rewrite bundle_sites_snoc.
  change (rp_sites (be_plan _)) with new. split_and!; [split| |].
  - apply Forall_app_2; [done|]. by eapply Forall_sub.
  - rewrite fmap_app. apply NoDup_app. split_and!; [done| |].
    + intros a Ha' Hin. apply list_elem_of_fmap in Hin as (s & -> & Hin). rewrite Forall_forall in Hnew.
      by apply (not_kept _ _ (Hnew s Hin)).
    + eapply sublist_NoDup; [exact Hpd|by apply fmap_sublist].
  - intros Eagree. destruct (Hagree Eagree) as [Hold Hplan]. apply Forall_app_2; [|by eapply Forall_sub].
    destruct (rb_entries bundle) as [|e l] eqn:Ee; [constructor|].
    destruct (Hold ltac:(done)) as [Hb ->]. by apply Ha.
  - by apply Forall_app_2; [|constructor].
  - by intros _ [_ ->]%app_eq_nil.
Qed.

Lemma bundle_add_wf write bundle target plan :
  bundle_wf write bundle → answer_ok (HK_REBIND_OK, plan) →
  bundle_wf write (bundle_add bundle target write plan).
Proof.
  intros Hb [Hp Hok]. destruct (Hok eq_refl) as [_ Hagree]. cbn in Hp, Hagree.
  unfold bundle_add. destruct (new_sites_sub (rb_entries bundle) (rp_sites plan)) as [Hsub Hnew].
  destruct (new_sites _ _) as [|k kept]; [done|].
  pose proof (λ agree original, bundle_snoc_wf write bundle target plan (k :: kept) agree original Hb Hp
    ltac:(done) Hsub Hnew) as Hsnoc.
  destruct (rb_entries bundle) as [|e l] eqn:Ee; apply Hsnoc.
  - intros [_ Hag]%andb_true_iff. split; [done|by apply Hagree].
  - intros [[Hb1 Hag]%andb_true_iff Ho%Z.eqb_eq]%andb_true_iff. split; [done|]. rewrite Ho. by apply Hagree.
Qed.

(** ** Collecting a bundle *)

Lemma catalog_match_inv {C} selector (visit : nat → hk_image_entry → M C bool) (I : C → Prop) i entries c :
  (∀ i e c, I c → I (visit i e c).2) → I c → I (catalog_match_loop selector visit i entries c).2.
Proof.
  intros Hv. revert i c. induction entries as [|e entries IH]; intros i c Hc; [done|]. cbn [catalog_match_loop].
  destruct (entry_matches_selector e selector); [|by apply IH]. unfold bind, ret.
  specialize (Hv i e c Hc). destruct (visit i e c) as [[|] c']; [|done]. cbn in Hv.
  specialize (IH (S i) c' Hv). by destruct (catalog_match_loop _ _ _ _ _).
Qed.

Section Collect.
Context (file_bytes : string → option (list Z)) (place : list mapping → Z → option Z).
Context (dyld_cache : option (Z * Z)).

Definition collected_wf (write : option (pointer_writer X)) (c : rebind_collect_ctx X) : Prop :=
  bundle_wf write (rk_bundle c) ∧ symbols_wf (rk_globals c).

Lemma collect_image_wf image_mem engine symbol c entry :
  collected_wf (rx_write engine) c →
  ends (rebind_collect_image file_bytes place dyld_cache image_mem engine symbol c entry)
    (λ r, collected_wf (rx_write engine) r.2).
Proof.
  intros [Hb Hg]. unfold rebind_collect_image. cbv zeta. destruct (_ =? 0); [done|].
  apply ends_after. intros [e|header]; [done|]. apply ends_after. intros target.
  eapply ends_bind; [by apply plans_prepare|]. intros [[[status plan] lookup] g] [Ha Hg'].
  cbn [fst snd] in Ha, Hg'. destruct status; try done. split; [|done]. cbn. by apply bundle_add_wf.
Qed.

Lemma collect_bundle_wf image_mem engine symbol g :
  symbols_wf g →
  ends (collect_bundle file_bytes place dyld_cache image_mem engine symbol g)
    (λ r, bundle_wf (rx_write engine) r.1.1 ∧ symbols_wf r.2).
Proof.
  intros Hg. unfold collect_bundle. destruct (hk_cache_patch_lookup_create _ _ _) as [lookup h].
  set (I := λ c, match c with Some c => collected_wf (rx_write engine) c | None => True end).
  match goal with |- ends (mbind _ (hk_image_catalog_match _ _ _ ?c).2) _ => set (start := c) end.
  set (walk := hk_image_catalog_match _ _ _ start).
  assert (Hstart : I start).
  { split; [|exact Hg]. split_and!; cbn; [split; [constructor|constructor|constructor]|constructor|done]. }
  assert (Hw : I walk.2).
  { subst walk. unfold hk_image_catalog_match. destruct (rx_catalog engine) as [cat|]; [|exact Hstart].
    apply catalog_match_inv; [|exact Hstart]. intros i e [c|] Hc; [|done]. unfold collect_visit.
    pose proof (collect_image_wf image_mem engine symbol c e Hc) as Hi.
    by destruct (rebind_collect_image _ _ _ _ _ _ _ _) as [[go c']|]. }
  clearbody walk. destruct walk as [n [c|]]; [|done]. destruct Hw as [Hb Hs]. by split.
Qed.
End Collect.

(** ** Committing a bundle *)

Lemma outside_slot sites (mem mem' : Z → Z) s :
  (∀ x, Forall (λ t, ¬ in_slot x t) sites → mem' x = mem x) →
  Forall (λ t, rs_address t mod 8 = 0) sites → rs_address s mod 8 = 0 →
  rs_address s ∉ rs_address <$> sites →
  slot_value mem' (rs_address s) = slot_value mem (rs_address s).
Proof.
  intros Hout Hal Hs Hnot. apply slot_value_ext. intros x Hx. apply Hout. rewrite Forall_forall in *. intros t Ht.
  apply (aligned_apart s t); [done|by apply Hal| |exact Hx]. intros E. apply Hnot, list_elem_of_fmap. by exists t.
Qed.

Lemma redirected_aligned replacement sites mem mem' :
  sites_redirected replacement sites mem mem' → Forall (λ t, rs_address t mod 8 = 0) sites.
Proof. intros H. eapply Forall_impl; [exact H|]. by intros s (? & _). Qed.

(** One plan after another, when they share no slot. *)
Lemma redirected_app replacement l1 l2 mem mem1 mem2 :
  NoDup (rs_address <$> l1 ++ l2) →
  sites_redirected replacement l1 mem mem1 → sites_redirected replacement l2 mem1 mem2 →
  (∀ x, Forall (λ t, ¬ in_slot x t) l1 → mem1 x = mem x) →
  (∀ x, Forall (λ t, ¬ in_slot x t) l2 → mem2 x = mem1 x) →
  sites_redirected replacement (l1 ++ l2) mem mem2.
Proof.
  rewrite fmap_app. intros (_ & Hd & _)%NoDup_app H1 H2 Ho1 Ho2.
  pose proof (redirected_aligned _ _ _ _ H1) as Ha1. pose proof (redirected_aligned _ _ _ _ H2) as Ha2.
  unfold sites_redirected in *. apply Forall_app_2; rewrite Forall_forall in *; intros s Hs.
  - destruct (H1 s Hs) as (Ha & Hold & Hnew). split_and!; [done|done|].
    rewrite (outside_slot l2 mem1 mem2 s); [done|exact Ho2|by rewrite Forall_forall|done|].
    apply Hd, list_elem_of_fmap. by exists s.
  - destruct (H2 s Hs) as (Ha & Hold & Hnew). split_and!; [done| |done].
    rewrite <- Hold. symmetry. apply (outside_slot l1); [exact Ho1|by rewrite Forall_forall|done|].
    intros Hin. apply (Hd _ Hin), list_elem_of_fmap. by exists s.
Qed.

Section CommitBundle.
Context {laws : PacLaws Pac} (write : pointer_writer X) (contract : pointer_contract write).
Context (replacement : Z) (Hr : is_u64 replacement) (predecessor : option Z).

(** What a commit of [sites] has done, by the state it reports. *)
Definition sites_committed (sites : list hk_rebind_site) (mem mem' : Z → Z) (state : hk_mutation_state) : Prop :=
  (state ≠ HK_MUTATION_UNKNOWN → ∀ x, Forall (λ s, ¬ in_slot x s) sites → mem' x = mem x) ∧
  (state = HK_MUTATION_COMPLETE → sites_redirected replacement sites mem mem' ∧
    ∀ p, predecessor = Some p → Forall (λ s, rs_callable_original s = p) sites).

Lemma commit_entries_effect entries total records d :
  Forall (λ e, be_write e = Some write) entries → Forall (λ s, is_u64 (rs_address s)) (bundle_sites entries) →
  NoDup (rs_address <$> bundle_sites entries) →
  0 <= total → total + Z.of_nat (length (bundle_sites entries)) < 2 ^ 32 →
  let '(state, records', d') := commit_entries replacement predecessor entries total records d in
  sites_committed (bundle_sites entries) (d_mem d) (d_mem d') state ∧
  (state = HK_MUTATION_NONE → total = 0 ∧ d_mem d' = d_mem d ∧ records' = records).
Proof.
  revert total records d. induction entries as [|e entries IH]; intros total records d Hw Hu Hd Ht Hn.
  { cbn. split; [|done]. split; [done|]. intros _. split; [by constructor|]. by constructor. }
  apply Forall_cons in Hw as [He Hw]. change (bundle_sites (e :: entries)) with
    (rp_sites (be_plan e) ++ bundle_sites entries) in *.
  rewrite length_app in Hn. pose proof Hd as Hdup. rewrite fmap_app in Hd. apply NoDup_app in Hd as (Hd1 & _ & Hd2).
  apply Forall_app in Hu as [Hu1 Hu2]. cbn [commit_entries]. rewrite He. unfold bind at 1.
  pose proof (rebind_commit_effect write contract (be_plan e) replacement predecessor d Hu1 Hd1 Hr) as Hc.
  destruct (hk_rebind_commit _ _ _ _ d) as [[[state recorded] written] d1]. destruct Hc as (Hout & Hnone & Hcomp).
  cbv zeta. case_bool_decide as Hst.
  - destruct (Hcomp Hst) as (Hred & Hpred & _ & -> & Hpos).
    specialize (IH (u32 (total + Z.of_nat (length (rp_sites (be_plan e))))) (records ++ recorded) d1 Hw Hu2 Hd2).
    assert (Hu32 : u32 (total + Z.of_nat (length (rp_sites (be_plan e)))) =
      total + Z.of_nat (length (rp_sites (be_plan e)))) by (unfold u32; apply Z.mod_small; lia).
    rewrite Hu32 in *. specialize (IH ltac:(lia) ltac:(lia)).
    destruct (commit_entries _ _ _ _ _ _) as [[state' records'] d']. destruct IH as [[Hout' Hcomp'] Hnone'].
    assert (Hsame : ∀ x, Forall (λ s, ¬ in_slot x s) (rp_sites (be_plan e)) → d_mem d1 x = d_mem d x)
      by (apply Hout; by rewrite Hst). split; [split|].
    + intros Hx x [Hx1 Hx2]%Forall_app. by rewrite (Hout' Hx x Hx2), Hsame.
    + intros Hs'. destruct (Hcomp' Hs') as [Hred' Hpred']. split.
      * apply (redirected_app _ _ _ _ (d_mem d1)); [exact Hdup|done|done|done|]. apply Hout'. by rewrite Hs'.
      * intros p Hp. apply Forall_app_2; [by apply Hpred|by apply Hpred'].
    + intros Hs'. destruct (Hnone' Hs'). lia.
  - unfold ret. split; [split|].
    + intros Hx x [Hx1 _]%Forall_app. apply Hout; [|done]. intros ->. by rewrite bool_decide_eq_true_2 in Hx.
    + by repeat case_match.
    + destruct (bool_decide_reflect (state = HK_MUTATION_UNKNOWN)); [done|].
      destruct (bool_decide_reflect (state = HK_MUTATION_PARTIAL)) as [|Hp]; [done|].
      destruct (Hnone ltac:(by destruct state)) as (Hm & -> & ->). cbn [orb].
      unfold u32. rewrite Z.add_0_r, Z.mod_small by lia. destruct (Z.eqb_spec total 0); [|done]. intros _.
      by rewrite app_nil_r.
Qed.
End CommitBundle.

(** ** The adapter *)

Lemma wbind_inv {A B} (m : W (X := X) A) (k : A → W B) w r : wbind m k w = Some r →
  ∃ a w', m w = Some (a, w') ∧ k a w' = Some r.
Proof. unfold wbind. destruct (m w) as [[a w']|]; [|done]. intros H. by exists a, w'. Qed.

(** What preparation leaves behind its pointer. *)
Definition object_wf (ctx : hk_rebind_engine_ctx X) (spec : hk_hook_spec) (o : rebind_prepared X) : Prop :=
  match o with
  | PreparedBundle b =>
      over_catalog ctx = true ∧ bundle_wf (rx_write ctx) b ∧ rb_entries b ≠ [] ∧
      no_single_original spec (rb_originals_agree b) (rb_original b) = false
  | PreparedPlan plan =>
      over_catalog ctx = false ∧ answer_ok (HK_REBIND_OK, plan) ∧
      no_single_original spec (rp_originals_agree plan) (rp_original plan) = false
  end.

Section Adapter.
Context (ctx_at : Z → option (hk_rebind_engine_ctx X)).
Context (mapped : Z → bool) (file_bytes : string → option (list Z)).
Context (place : list mapping → Z → option Z) (dyld_cache : option (Z * Z)).

Lemma malloc_inv (w w1 : rebind_world X) p : on_engine malloc_object w = Some (p, w1) →
  ew_device (rw_engine w1) = ew_device (rw_engine w) ∧ rw_globals w1 = rw_globals w.
Proof.
  unfold on_engine, malloc_object, zoom. destruct (alloc_object _) as [a h]. by intros [= <- <-].
Qed.

Lemma globals_inv {A} (m : R A) Q (w w1 : rebind_world X) a :
  plans m Q → symbols_wf (rw_globals w) → on_globals m w = Some (a, w1) →
  Q a ∧ ew_device (rw_engine w1) = ew_device (rw_engine w).
Proof.
  intros Hm Hg. unfold on_globals.
  assert (Hg' : symbols_wf (rw_globals w <| rg_heap := ew_heap (rw_engine w) |>)) by (intros e He; by apply Hg).
  specialize (Hm _ Hg').
  destruct (m _) as [[b g]|]; [|done]. cbn. intros [= <- <-]. by destruct Hm.
Qed.

Lemma prepare_bundle_ok ctx spec symbol w p diag w1 :
  over_catalog ctx = true → symbols_wf (rw_globals w) →
  prepare_bundle mapped file_bytes place dyld_cache ctx spec symbol w = Some (HK_PREPARE_OK, p, diag, w1) →
  p ≠ 0 ∧ ew_device (rw_engine w1) = ew_device (rw_engine w) ∧
  ∃ o, ew_objects (rw_engine w1) !! p = Some o ∧ object_wf ctx spec o.
Proof.
  intros Hover Hg H. unfold prepare_bundle in H. apply wbind_inv in H as (p' & w2 & Hm & H).
  apply malloc_inv in Hm as [Hd Hg2]. destruct (Z.eqb_spec p' 0) as [|Hp]; [done|].
  apply wbind_inv in H as ([bundle error] & w3 & Hc & H).
  eapply (globals_inv _ (λ r, bundle_wf (rx_write ctx) r.1)) in Hc as [Hb Hd3]; [| |by rewrite Hg2].
  2: { intros g Hsg. eapply ends_conseq; [by apply collect_bundle_wf|]. by intros [[b st] g']. }
  destruct (bool_decide _); cbn [negb] in H; [|by apply wbind_inv in H as (? & ? & _ & ?)].
  destruct (rb_entries bundle) as [|e l] eqn:Ee; [by apply wbind_inv in H as (? & ? & _ & ?)|].
  destruct (no_single_original _ _ _) eqn:Es; [by apply wbind_inv in H as (? & ? & _ & ?)|].
  apply wbind_inv in H as ([] & w4 & [= <-] & [= <- <- <-]). split_and!; [done|by rewrite <- Hd, <- Hd3|].
  exists (PreparedBundle bundle). split; [by apply lookup_insert_eq|].
  split_and!; [done|exact Hb|by rewrite Ee|done].
Qed.

Lemma prepare_pinned_ok ctx spec symbol w p diag w1 :
  over_catalog ctx = false → symbols_wf (rw_globals w) →
  prepare_pinned mapped file_bytes place dyld_cache ctx spec symbol w = Some (HK_PREPARE_OK, p, diag, w1) →
  p ≠ 0 ∧ ew_device (rw_engine w1) = ew_device (rw_engine w) ∧
  ∃ o, ew_objects (rw_engine w1) !! p = Some o ∧ object_wf ctx spec o.
Proof.
  intros Hover Hg H. unfold prepare_pinned in H. cbv zeta in H. destruct (scope_refuses _); [done|].
  apply wbind_inv in H as (p' & w2 & Hm & H). apply malloc_inv in Hm as [Hd Hg2].
  destruct (Z.eqb_spec p' 0) as [|Hp]; [done|]. apply wbind_inv in H as ([st plan] & w3 & Hc & H).
  eapply (globals_inv _ answer_ok) in Hc as [Ha Hd3]; [| |by rewrite Hg2].
  2: { unfold hk_rebind_prepare. eapply plans_bind; [apply plans_prepare|]. intros [[status plan'] lookup] Ha.
       by apply plans_ret. }
  destruct (rebind_classify st) as [result d] eqn:Ec.
  destruct result; try by (apply wbind_inv in H as (? & ? & _ & ?)).
  assert (st = HK_REBIND_OK) as -> by (by destruct st).
  destruct (no_single_original _ _ _) eqn:Es; [by apply wbind_inv in H as (? & ? & _ & ?)|].
  apply wbind_inv in H as ([] & w4 & [= <-] & [= <- <- <-]). split_and!; [done|by rewrite <- Hd, <- Hd3|].
  exists (PreparedPlan plan). split; [by apply lookup_insert_eq|]. by split_and!.
Qed.

Lemma prepare_ok engine_ctx ctx spec w p diag w1 :
  ctx_at engine_ctx = Some ctx → symbols_wf (rw_globals w) →
  rebind_prepare_one_ctx_status ctx_at mapped file_bytes place dyld_cache engine_ctx spec w
    = Some (HK_PREPARE_OK, p, diag, w1) →
  (∃ symbol, hs_target spec = TSymbol symbol) ∧ p ≠ 0 ∧ ew_device (rw_engine w1) = ew_device (rw_engine w) ∧
  ∃ o, ew_objects (rw_engine w1) !! p = Some o ∧ object_wf ctx spec o.
Proof.
  intros Hctx Hg H. unfold rebind_prepare_one_ctx_status in H. rewrite Hctx in H.
  destruct (hs_target spec); try done. split; [by eexists|].
  destruct (over_catalog ctx) eqn:Eo; [by eapply prepare_bundle_ok|by eapply prepare_pinned_ok].
Qed.

(** The slots of an object. *)
Definition object_sites (o : rebind_prepared X) : list hk_rebind_site :=
  match o with PreparedPlan plan => rp_sites plan | PreparedBundle b => bundle_sites (rb_entries b) end.
Definition object_original (o : rebind_prepared X) : bool * Z :=
  match o with
  | PreparedPlan plan => (rp_originals_agree plan, rp_original plan)
  | PreparedBundle b => (rb_originals_agree b, rb_original b)
  end.

Lemma object_wf_sites ctx spec o : object_wf ctx spec o →
  prepared_wf (object_sites o) (object_original o).1 (object_original o).2 ∧ object_sites o ≠ [] ∧
  no_single_original spec (object_original o).1 (object_original o).2 = false.
Proof.
  destruct o as [plan|b]; cbn.
  - intros (_ & [[_ Hd Hs] Ha] & Hn). destruct (Ha eq_refl) as [Hne Hag]. by split_and!.
  - intros (_ & (Hb & _ & Hne) & He & Hn). split_and!; [done|by apply Hne|done].
Qed.

(** A commit of what preparation left there. *)
Lemma commit_object {laws : PacLaws Pac} engine_ctx ctx spec p o sink (w1 : rebind_world X) write :
  ctx_at engine_ctx = Some ctx → rx_write ctx = Some write → pointer_contract write →
  is_u64 (hs_replacement spec) → p ≠ 0 → ew_objects (rw_engine w1) !! p = Some o → object_wf ctx spec o →
  Z.of_nat (length (object_sites o)) < 2 ^ 32 →
  ∃ reply w2, rebind_commit_one_ctx ctx_at engine_ctx spec p sink w1 = Some (reply, w2) ∧
    let mem := d_mem (ew_device (rw_engine w1)) in
    let mem' := d_mem (ew_device (rw_engine w2)) in
    sites_committed (hs_replacement spec) (sink_predecessor sink) (object_sites o) mem mem' (cr_mutation reply) ∧
    (cr_mutation reply = HK_MUTATION_NONE → mem' = mem ∧ cr_artifacts reply = []) ∧
    cr_published_original reply = published (cr_mutation reply) (object_original o).1 (object_original o).2 ∧
    ew_objects (rw_engine w2) !! p = Some o.
Proof.
  intros Hctx Hwr Hcon Hr Hp Ho Hwf Hlen. destruct (object_wf_sites _ _ _ Hwf) as ([Hs Hd _] & Hne & _).
  assert (Hu : Forall (λ s, is_u64 (rs_address s)) (object_sites o))
    by (eapply Forall_impl; [exact Hs|]; by intros s [? _ _]).
  assert (Hget : on_engine (get_object p) w1 = Some (Some o, w1)).
  { unfold on_engine, get_object, gets. destruct (Z.eqb_spec p 0); [done|]. rewrite Ho. by destruct w1. }
  unfold rebind_commit_one_ctx, wbind at 1. rewrite Hget. cbn [mbind option_bind]. rewrite Hctx.
  destruct o as [plan|b]; destruct Hwf as (Hover & Hwf & Hrest); rewrite Hover.
  - unfold wbind, on_engine, on_device, zoom. rewrite Hwr.
    pose proof (rebind_commit_effect write Hcon plan (hs_replacement spec) (sink_predecessor sink)
      (ew_device (rw_engine w1)) Hu Hd Hr) as Hc.
    destruct (hk_rebind_commit _ _ _ _ _) as [[[state records] written] d'].
    destruct Hc as (Hout & Hnone & Hcomp). eexists _, _. split; [reflexivity|]. cbv zeta. cbn. split_and!.
    + split; [done|]. intros Hst. by destruct (Hcomp Hst) as (? & ? & _).
    + intros Hst. by destruct (Hnone Hst) as (? & ? & _).
    + destruct (Z.eqb_spec (Z.of_nat (length (rp_sites plan))) 0) as [Hz|]; [|done].
      exfalso. apply Hne. cbn. by destruct (rp_sites plan).
    + done.
  - destruct Hwf as (Hb & Hw & Hbne). unfold wbind, on_engine, on_device, zoom. rewrite Hwr in Hw.
    pose proof (commit_entries_effect write Hcon (hs_replacement spec) Hr (sink_predecessor sink)
      (rb_entries b) 0 [] (ew_device (rw_engine w1)) Hw Hu Hd ltac:(lia) Hlen) as Hc.
    destruct (commit_entries _ _ _ _ _ _) as [[state records] d']. destruct Hc as (Hc & Hnone).
    eexists _, _. split; [reflexivity|]. cbv zeta. cbn. split_and!; [exact Hc| |done|done].
    intros Hst. by destruct (Hnone Hst) as (_ & ? & ?).
Qed.

Lemma redirected_holds replacement sites mem mem' :
  sites_redirected replacement sites mem mem' → forallb (slot_holds mem' replacement) sites = true.
Proof.
  intros H. apply forallb_forall. intros s Hs%list_elem_of_In. unfold sites_redirected in H.
  rewrite Forall_forall in H. destruct (H s Hs) as (_ & _ & target & _ & Hv & _). unfold slot_holds. rewrite Hv.
  apply Z.eqb_refl.
Qed.

Lemma forallb_bundle f entries :
  forallb f (bundle_sites entries) = forallb (λ e, forallb f (rp_sites (be_plan e))) entries.
Proof. unfold bundle_sites. induction entries as [|e entries IH]; cbn; [done|]. by rewrite forallb_app, IH. Qed.

Lemma verify_object engine_ctx ctx spec symbol p o (w : rebind_world X) :
  ctx_at engine_ctx = Some ctx → hs_target spec = TSymbol symbol → p ≠ 0 →
  ew_objects (rw_engine w) !! p = Some o → object_wf ctx spec o →
  rebind_verify_one_ctx ctx_at engine_ctx spec p w =
    Some (readback (forallb (slot_holds (d_mem (ew_device (rw_engine w))) (hs_replacement spec)) (object_sites o)), w).
Proof.
  intros Hctx Ht Hp Ho Hwf. unfold rebind_verify_one_ctx, wbind at 1, on_engine, get_object, gets.
  destruct (Z.eqb_spec p 0); [done|]. rewrite Ho. cbn. rewrite Hctx, Ht.
  destruct o as [plan|b]; destruct Hwf as (Hover & _); rewrite Hover; [by destruct w|].
  cbn [object_sites]. rewrite forallb_bundle. by destruct w.
Qed.
End Adapter.
End Lifecycle.

(** C17. The life of a rebinding, through the adapter and over any pointer writer
    that keeps its contract.  Preparing changes no byte.  What it prepares has a
    slot, and no slot twice, whatever images it comes from.  Committing it comes
    back: unless the state is UNKNOWN no byte outside the slots has changed; NONE
    means that nothing changed and nothing is recorded; COMPLETE that every slot
    held what preparation read of it and now leads to the replacement, that
    verification succeeds, and that a published original is the one every slot
    called, which is there and not null where the request wants an original.  An
    original is published of a complete commit only. *)
Theorem rebind_hook_lifecycle `{laws : PacLaws} {X} (ctx_at : Z → option (hk_rebind_engine_ctx X))
    mapped file_bytes place dyld_cache engine_ctx ctx write spec (w w1 : rebind_world X) p diag :
  ctx_at engine_ctx = Some ctx → rx_write ctx = Some write → pointer_contract write →
  is_u64 (hs_replacement spec) → symbols_wf (rw_globals w) →
  rebind_prepare_one_ctx_status ctx_at mapped file_bytes place dyld_cache engine_ctx spec w
    = Some (HK_PREPARE_OK, p, diag, w1) →
  ew_device (rw_engine w1) = ew_device (rw_engine w) ∧
  ∃ object, ew_objects (rw_engine w1) !! p = Some object ∧
  let sites := object_sites object in
  sites ≠ [] ∧ NoDup (rs_address <$> sites) ∧ Forall site_wf sites ∧
  (Z.of_nat (length sites) < 2 ^ 32 → ∀ sink, ∃ reply w2,
    rebind_commit_one_ctx ctx_at engine_ctx spec p sink w1 = Some (reply, w2) ∧
    let mem := d_mem (ew_device (rw_engine w)) in
    let mem' := d_mem (ew_device (rw_engine w2)) in
    let state := cr_mutation reply in
    (state ≠ HK_MUTATION_UNKNOWN → ∀ x, Forall (λ s, ¬ in_slot x s) sites → mem' x = mem x) ∧
    (state = HK_MUTATION_NONE → mem' = mem ∧ cr_artifacts reply = []) ∧
    (state = HK_MUTATION_COMPLETE →
      sites_redirected (hs_replacement spec) sites mem mem' ∧
      rebind_verify_one_ctx ctx_at engine_ctx spec p w2 = Some (HK_VERIFY_OK, no_verify_diag, w2) ∧
      (hs_original_requirement spec ≠ HK_ORIGINAL_NONE →
       ∃ o, cr_published_original reply = Some o ∧ o ≠ 0)) ∧
    (∀ o, cr_published_original reply = Some o →
      state = HK_MUTATION_COMPLETE ∧ Forall (λ s, rs_callable_original s = o) sites)).
Proof.
  intros Hctx Hwr Hcon Hr Hg Hprep.
  destruct (prepare_ok _ _ _ _ _ _ _ _ _ _ _ _ Hctx Hg Hprep) as ([symbol Ht] & Hp & Hdev & o & Ho & Hwf).
  split; [done|]. destruct (object_wf_sites _ _ _ Hwf) as ([Hs Hd Ha] & Hne & Hno).
  exists o. split; [done|]. cbv zeta. split_and!; [done..|]. intros Hlen sink.
  destruct (commit_object ctx_at engine_ctx ctx spec p o sink w1 write Hctx Hwr Hcon Hr Hp Ho Hwf Hlen)
    as (reply & w2 & Hc & [Hout Hcomp] & Hnone & Hpub & Ho2). rewrite Hdev in *.
  exists reply, w2. split; [done|]. cbv zeta. split_and!; [done|done| |].
  - intros Hst. destruct (Hcomp Hst) as [Hred _]. split_and!; [done| |].
    + rewrite (verify_object ctx_at engine_ctx ctx spec symbol p o w2 Hctx Ht Hp Ho2 Hwf).
      by rewrite (redirected_holds _ _ _ _ Hred).
    + intros Hreq. unfold no_single_original in Hno. rewrite (bool_decide_eq_false_2 _ Hreq) in Hno.
      cbn [negb andb] in Hno. apply orb_false_iff in Hno as [Hag%negb_false_iff Hz%Z.eqb_neq].
      exists (object_original o).2. split; [|done]. unfold published in Hpub. rewrite Hpub, Hst, Hag.
      by rewrite bool_decide_eq_true_2.
  - intros original Hor. rewrite Hor in Hpub. unfold published in Hpub. case_bool_decide as Hst; [|done].
    destruct (object_original o).1 eqn:Hag; [|done]. injection Hpub as ->. split; [done|by apply Ha].
Qed.

(** The image of RebindDemo.v as the one entry of a catalog. *)
Module DemoBundle.
Definition catalog : hk_image_catalog :=
  ImageCatalog [ImageEntry (Some "/lib"%string) None DemoRebind.base 0 false] 1 1.
Definition ctx : hk_rebind_engine_ctx unit :=
  RebindEngineCtx 0 0 0 None (Some demo_slot_writer) (Some catalog).
Definition ctx_at (_ : Z) : option (hk_rebind_engine_ctx unit) := Some ctx.
Definition any_image : image_selector :=
  Selector HK_IMAGE_ANY_LOADED (SelectorExtra None [] 0) (SetNull 0).
Definition symbol : hk_symbol_target :=
  SymbolTarget (Some "f"%string) 0 HK_SYMBOL_VISIBILITY_EXPORTED_ONLY any_image any_image 0 false.
Definition spec : hk_hook_spec :=
  demo_memory_spec (TSymbol symbol) <| hs_original_requirement := HK_ORIGINAL_DIRECT_PREDECESSOR |>.

Definition bytes : list Z :=
  Eval vm_compute in DemoRebind.image_with (DemoRebind.le64 0x4000) (DemoRebind.le64 0x4000).
Definition mapped (a : Z) : bool := (DemoRebind.base <=? a) && (a <? DemoRebind.base + 512).
Definition memory (a : Z) : Z := default 0 (bytes !! Z.to_nat (a - DemoRebind.base)).
Definition world : rebind_world unit :=
  RebindWorld (demo_world memory) (no_globals (Heap (λ _, false) 0 0x1000)).

Local Abbreviation prepared :=
  (rebind_prepare_one_ctx_status (H := plain_pac) ctx_at mapped DemoRebind.files DemoRebind.place None 0 spec world).
Definition prepared_world : rebind_world unit :=
  match prepared with Some (_, w) => w | None => world end.

Lemma prepares : prepared = Some (HK_PREPARE_OK, 0x1000, no_prepare_diag, prepared_world).
Proof.
  assert (H : fst <$> prepared = Some (HK_PREPARE_OK, 0x1000, no_prepare_diag)) by (vm_compute; reflexivity).
  unfold prepared_world. destruct prepared as [[r w]|]; [|done]. by injection H as ->.
Qed.
End DemoBundle.

(** The prepared plan's two slots are committed, verified, and their original
    published. *)
Lemma rebind_hook_lifecycle_witness :
  ∃ reply w2,
    rebind_commit_one_ctx (H := plain_pac) DemoBundle.ctx_at 0 DemoBundle.spec 0x1000 demo_sink
      DemoBundle.prepared_world = Some (reply, w2) ∧
    cr_mutation reply = HK_MUTATION_COMPLETE ∧ cr_published_original reply = Some 0x4000 ∧
    rebind_verify_one_ctx (H := plain_pac) DemoBundle.ctx_at 0 DemoBundle.spec 0x1000 w2 =
      Some (HK_VERIFY_OK, no_verify_diag, w2).
Proof.
  destruct (rebind_hook_lifecycle (H := plain_pac) DemoBundle.ctx_at DemoBundle.mapped DemoRebind.files
    DemoRebind.place None 0 DemoBundle.ctx demo_slot_writer DemoBundle.spec DemoBundle.world
    DemoBundle.prepared_world 0x1000 no_prepare_diag) as (_ & object & Ho & _ & _ & _ & H).
  - reflexivity.
  - reflexivity.
  - apply demo_slot_writer_contract.
  - split; [|vm_compute]; done.
  - apply no_globals_symbols.
  - exact DemoBundle.prepares.
  - assert (Hlen : length (object_sites object) = 2%nat).
    { assert (Hl : (λ o, length (object_sites o)) <$>
        (ew_objects (rw_engine DemoBundle.prepared_world) !! 0x1000) = Some 2%nat) by (vm_compute; reflexivity).
      rewrite Ho in Hl. by injection Hl. }
    destruct (H ltac:(rewrite Hlen; done) demo_sink) as (reply & w2 & Hc & _ & _ & Hcomp & _).
    exists reply, w2. split; [exact Hc|].
    assert (Hr : cr_mutation <$> (fst <$> Some (reply, w2)) = Some HK_MUTATION_COMPLETE ∧
                 cr_published_original <$> (fst <$> Some (reply, w2)) = Some (Some 0x4000)).
    { rewrite <- Hc. split; vm_compute; reflexivity. }
    destruct Hr as [[= Hst] [= Hpub]]. split; [exact Hst|]. split; [exact Hpub|].
    destruct (Hcomp Hst) as (_ & Hv & _). exact Hv.
Defined.
