(* ===== verification/NativeSymbols.v ===== *)
(** * Native symbol lookup (src/native/hk_symbols.c)

    The local symbols of the shared cache, read once from its file and indexed;
    the symbol table of an image's own file; and the lookup in either.  Mapped
    files are part of the state, as in RebindCache.v; what dyld, [realpath] and
    [dlsym] answer are parameters, and a read of what is not mapped has no
    result. *)

From stdpp Require Import base list strings numbers option sorting.
From S2P Require Import Prelude Types Ownership ImageCatalog Memory Faults SymbolTable ImportSlots MachO DyldImages RelocEngine PointerAuth RebindCache.

Definition HK_DCH_MAPPING_OFFSET : Z := 16.
Definition HK_DCH_LOCAL_SYMS_OFFSET : Z := 72.
Definition HK_DCH_LOCAL_SYMS_SIZE : Z := 80.
Definition HK_DCH_MIN_MAPPING_OFFSET : Z := 88.
Definition SIZEOF_LOCAL_SYMBOLS_INFO : Z := 24.
Definition CACHE_MAGIC : list Z := string_bytes "dyld_v1".

(** ** The local symbols of the shared cache *)

(** [hk_local_symbols_info] *)
Record local_symbols_info : Type := LocalSymbolsInfo {
  li_nlist_offset : Z;
  li_nlist_count : Z;
  li_strings_offset : Z;
  li_strings_size : Z;
  li_entries_offset : Z;
  li_entries_count : Z }.

(** [hk_cache_symbols]; the index is a list of offsets and entry numbers, absent
    where it could not be allocated. *)
Record cache_symbols : Type := CacheSymbols {
  cs_map : Z;
  cs_map_size : Z;
  cs_nlist : Z;
  cs_nlist_count : Z;
  cs_strings : Z;
  cs_strings_size : Z;
  cs_entries : Z;
  cs_entries_count : Z;
  cs_entry_stride : Z;
  cs_entry_index : option (list (Z * Z)) }.

#[export] Instance cache_symbols_eta : Eta cache_symbols := λ s,
  CacheSymbols (cs_map s) (cs_map_size s) (cs_nlist s) (cs_nlist_count s) (cs_strings s)
    (cs_strings_size s) (cs_entries s) (cs_entries_count s) (cs_entry_stride s) (cs_entry_index s).

Section Parse.
Context (mem : memory).

Definition entry_dylib_offset (entry stride : Z) : option Z :=
  if stride =? 16 then read_u64 mem entry else read_u32 mem entry.
Definition entry_nlist_start (entry stride : Z) : option Z :=
  read_u32 mem (entry + (if stride =? 16 then 8 else 4)).
Definition entry_nlist_count (entry stride : Z) : option Z :=
  read_u32 mem (entry + (if stride =? 16 then 12 else 8)).

(** The probe, from entry [i], [count] left. *)
Fixpoint probe_loop (count : nat) (entries i stride nlist_total : Z) : option bool :=
  match count with
  | O => Some true
  | S count =>
      let entry := entries + i * stride in
      start ← entry_nlist_start entry stride; n ← entry_nlist_count entry stride;
      if nlist_total <? start + n then Some false
      else probe_loop count entries (i + 1) stride nlist_total
  end.

Definition entries_plausible (entries count stride nlist_total available : Z) : option bool :=
  if (count =? 0) || (available <? count * stride) then Some false
  else probe_loop (Z.to_nat (if count <? 8 then count else 8)) entries 0 stride nlist_total.

Definition read_info (region : Z) : option local_symbols_info :=
  a ← read_u32 mem region; b ← read_u32 mem (region + 4); c ← read_u32 mem (region + 8);
  d ← read_u32 mem (region + 12); e ← read_u32 mem (region + 16); f ← read_u32 mem (region + 20);
  Some (LocalSymbolsInfo a b c d e f).

(** The stride of the entries, tried in the order of the code. *)
Definition entry_stride (entries available : Z) (info : local_symbols_info) : option (option Z) :=
  wide ← entries_plausible entries (li_entries_count info) 16 (li_nlist_count info) available;
  if wide : bool then Some (Some 16)
  else
    narrow ← entries_plausible entries (li_entries_count info) 12 (li_nlist_count info) available;
    Some (if narrow : bool then Some 12 else None).

(** [out] is filled only where this answers. *)
Definition parse_cache_symbols (map map_size : Z) : option (option cache_symbols) :=
  if map_size <? 256 then Some None
  else
    magic ← read_bytes mem 7 map;
    if negb (bool_decide (magic = CACHE_MAGIC)) then Some None
    else
      mapping_offset ← read_u32 mem (map + HK_DCH_MAPPING_OFFSET);
      if mapping_offset <? HK_DCH_MIN_MAPPING_OFFSET then Some None
      else
        syms_offset ← read_u64 mem (map + HK_DCH_LOCAL_SYMS_OFFSET);
        syms_size ← read_u64 mem (map + HK_DCH_LOCAL_SYMS_SIZE);
        if (syms_offset =? 0) || (syms_size <? SIZEOF_LOCAL_SYMBOLS_INFO) then Some None
        else if (map_size <? syms_offset) || (map_size - syms_offset <? syms_size) then Some None
        else
          let region := map + syms_offset in
          info ← read_info region;
          if syms_size <? li_nlist_offset info + li_nlist_count info * SIZEOF_NLIST64 then Some None
          else if syms_size <? li_strings_offset info + li_strings_size info then Some None
          else if syms_size <? li_entries_offset info then Some None
          else
            let entries := region + li_entries_offset info in
            stride ← entry_stride entries (syms_size - li_entries_offset info) info;
            Some (
              stride ← stride;
              Some (CacheSymbols map map_size (region + li_nlist_offset info) (li_nlist_count info)
                (region + li_strings_offset info) (li_strings_size info) entries
                (li_entries_count info) stride None)).

(** The offsets of the entries from [i], [count] left, with their numbers. *)
Fixpoint collect_index (count : nat) (entries stride i : Z) : option (list (Z * Z)) :=
  match count with
  | O => Some []
  | S count =>
      offset ← entry_dylib_offset (entries + i * stride) stride;
      rest ← collect_index count entries stride (i + 1);
      Some ((offset, i) :: rest)
  end.

(** ** Binding an entry *)

(** [hk_image]: [im_map] is the file an image keeps mapped, [im_dl_handle] 0 where
    there is none; [sect_count] is the length of the flags. *)
Record hk_image : Type := HkImage {
  im_map : option file_view;
  im_slide : Z;
  im_nlist : Z;
  im_nlist_count : Z;
  im_strings : Z;
  im_strings_size : Z;
  im_dl_handle : Z;
  im_sect_flags : list Z }.

Definition bind_entry (symbols : cache_symbols) (entry : Z) (image : hk_image) : option hk_image :=
  start ← entry_nlist_start entry (cs_entry_stride symbols);
  count ← entry_nlist_count entry (cs_entry_stride symbols);
  Some (HkImage (im_map image) (im_slide image) (cs_nlist symbols + start * SIZEOF_NLIST64) count
          (cs_strings symbols) (cs_strings_size symbols) (im_dl_handle image) (im_sect_flags image)).

(** The search in [lo, hi) of the index. *)
Fixpoint index_search (fuel : nat) (index : list (Z * Z)) (wanted : Z) (lo hi : nat) : nat :=
  match fuel with
  | O => lo
  | S fuel =>
      if (lo <? hi)%nat then
        let mid := ((lo + hi) / 2)%nat in
        match index !! mid with
        | Some e => if e.1 <? wanted then index_search fuel index wanted (S mid) hi
                    else index_search fuel index wanted lo mid
        | None => lo
        end
      else lo
  end.

(** The number of the entry with the offset, by the index. *)
Definition index_entry (index : list (Z * Z)) (wanted : Z) : option Z :=
  match index !! index_search (S (length index)) index wanted 0 (length index) with
  | Some e => if e.1 =? wanted then Some e.2 else None
  | None => None
  end.

(** The same by going through the entries from [i], [count] left. *)
Fixpoint scan_entries (count : nat) (entries stride i wanted : Z) : option (option Z) :=
  match count with
  | O => Some None
  | S count =>
      offset ← entry_dylib_offset (entries + i * stride) stride;
      if offset =? wanted then Some (Some i) else scan_entries count entries stride (i + 1) wanted
  end.

Definition find_entry_number (symbols : cache_symbols) (wanted : Z) : option (option Z) :=
  match cs_entry_index symbols with
  | Some index => Some (index_entry index wanted)
  | None => scan_entries (Z.to_nat (cs_entries_count symbols)) (cs_entries symbols)
              (cs_entry_stride symbols) 0 wanted
  end.

(** ** The symbol table of a file *)

(** Where the symbol table of the commands from [cursor] on is, [count] left: its
    offset and count, and those of the strings. *)
Fixpoint symtab_loop (count : nat) (map size cursor : Z) : option (option (Z * Z * Z * Z)) :=
  match count with
  | O => Some None
  | S count =>
      if size <? cursor + HK_LOAD_COMMAND_SIZE then Some None
      else
        cmd ← read_u32 mem (map + cursor);
        cmdsize ← read_u32 mem (map + (cursor + 4));
        if (cmdsize <? HK_LOAD_COMMAND_SIZE) || (size <? cursor + cmdsize) then Some None
        else if (cmd =? HK_LC_SYMTAB) && (HK_SYMTAB_COMMAND_SIZE <=? cmdsize) then
          symoff ← read_u32 mem (map + (cursor + 8)); nsyms ← read_u32 mem (map + (cursor + 12));
          stroff ← read_u32 mem (map + (cursor + 16)); strsize ← read_u32 mem (map + (cursor + 20));
          Some (if (nsyms =? 0) || (size <? symoff + nsyms * SIZEOF_NLIST64) ||
                   (size <? stroff + strsize)
                then None else Some (symoff, nsyms, stroff, strsize))
        else symtab_loop count map size (cursor + cmdsize)
  end.

Definition file_symtab (map size : Z) : option (option (Z * Z * Z * Z)) :=
  magic ← read_u32 mem map;
  if negb (magic =? HK_MH_MAGIC_64) then Some None
  else
    ncmds ← read_u32 mem (map + 16);
    sizeofcmds ← read_u32 mem (map + 20);
    if size <? HK_MACHO_HEADER_64_SIZE + sizeofcmds then Some None
    else symtab_loop (Z.to_nat ncmds) map size HK_MACHO_HEADER_64_SIZE.

(** ** The flags of the sections of a loaded image *)

(** The first pass: how many sections, in 32 bits. *)
Fixpoint count_sections (count : nat) (cursor total : Z) : option Z :=
  match count with
  | O => Some total
  | S count =>
      cmd ← read_u32 mem cursor;
      cmdsize ← read_u32 mem (cursor + 4);
      if cmdsize <? HK_LOAD_COMMAND_SIZE then Some total
      else if cmd =? HK_LC_SEGMENT_64 then
        nsects ← read_u32 mem (cursor + 64);
        count_sections count (cursor + cmdsize) (u32 (total + nsects))
      else count_sections count (cursor + cmdsize) total
  end.

Fixpoint segment_flags (nsects : nat) (sect : Z) : option (list Z) :=
  match nsects with
  | O => Some []
  | S nsects =>
      flags ← read_u32 mem (sect + 64);
      rest ← segment_flags nsects (sect + HK_SECTION_64_SIZE);
      Some (flags :: rest)
  end.

(** The second pass. *)
Fixpoint section_flags (count : nat) (cursor : Z) : option (list Z) :=
  match count with
  | O => Some []
  | S count =>
      cmd ← read_u32 mem cursor;
      cmdsize ← read_u32 mem (cursor + 4);
      if cmdsize <? HK_LOAD_COMMAND_SIZE then Some []
      else if cmd =? HK_LC_SEGMENT_64 then
        nsects ← read_u32 mem (cursor + 64);
        here ← segment_flags (Z.to_nat nsects) (cursor + HK_SEGMENT_COMMAND_64_SIZE);
        rest ← section_flags count (cursor + cmdsize);
        Some (here ++ rest)
      else section_flags count (cursor + cmdsize)
  end.

(** ** The search of a name *)

Definition symbol_matches (entry : Z) (name : list Z) : option bool :=
  same ← strcmp_equal mem entry name;
  if same : bool then Some true
  else
    first ← read_u8 mem entry;
    if first =? 95 then strcmp_equal mem (entry + 1) name else Some false.

Context `{PacOps}.

(** The address a symbol is handed out as. *)
Definition symbol_address (image : hk_image) (sym : hk_macho_nlist64) : Z :=
  let addr := u64 (n_value sym + im_slide image) in
  let flags := if 0 <? n_sect sym then im_sect_flags image !! Z.to_nat (n_sect sym - 1) else None in
  match flags with
  | Some flags =>
      if Z.land flags (Z.lor HK_S_ATTR_PURE_INSTRUCTIONS HK_S_ATTR_SOME_INSTRUCTIONS) =? 0 then addr
      else pac_make_callable (hk_pac_strip_code addr)
  | None => addr
  end.

Definition entry_skipped (image : hk_image) (sym : hk_macho_nlist64) : bool :=
  (n_strx sym =? 0) || (im_strings_size image <=? n_strx sym) ||
  negb (Z.land (n_type sym) HK_N_TYPE =? HK_N_SECT) || (n_value sym =? 0).

(** From symbol [i], [count] left: the address and the raw value. *)
Fixpoint nlist_loop (count : nat) (image : hk_image) (name : list Z) (i : Z)
    : option (option (Z * Z)) :=
  match count with
  | O => Some None
  | S count =>
      sym ← nlist_at mem (im_nlist image) i;
      if entry_skipped image sym then nlist_loop count image name (i + 1)
      else
        same ← symbol_matches (im_strings image + n_strx sym) name;
        if same : bool then Some (Some (symbol_address image sym, n_value sym))
        else nlist_loop count image name (i + 1)
  end.

Definition find_nlist_symbol (image : hk_image) (name : list Z) : option (option (Z * Z)) :=
  if negb (im_nlist image =? 0) && negb (im_strings image =? 0)
  then nlist_loop (Z.to_nat (im_nlist_count image)) image name 0
  else Some None.
End Parse.

(** ** The process *)

Record native_globals : Type := NativeGlobals {
  ng_heap : heap;
  ng_maps : list mapping;
  ng_handles : list Z;
  ng_cache : option (option cache_symbols) }.

#[export] Instance native_globals_eta : Eta native_globals := λ g,
  NativeGlobals (ng_heap g) (ng_maps g) (ng_handles g) (ng_cache g).

(** What the system answers: the images dyld lists, [realpath], the range of the
    shared cache, the handle of a loaded image and its exports. *)
Record native_system : Type := NativeSystem {
  sy_images : list dyld_image;
  sy_realpath : string → option string;
  sy_shared_cache : Z * Z;
  sy_dlopen : string → Z;
  sy_dlsym : Z → list Z → Z }.

Section Process.
Context `{PacOps} (image_mem : memory) (file_bytes : string → option (list Z)).
Context (place : list mapping → Z → option Z) (system : native_system).
(** [qsort] with [entry_index_cmp]. *)
Context (qsort : list (Z * Z) → list (Z * Z)).

Local Abbreviation view g := (live_memory image_mem (ng_maps g)).
Definition alloc_in : F native_globals bool := λ g,
  let '(ok, h) := alloc (ng_heap g) in Some (ok, g <| ng_heap := h |>).
Definition look {A} (f : memory → option A) : F native_globals A := λ g, a ← f (view g); Some (a, g).

(** The first listed image of that name, or else one that is the same file. *)
Definition find_loaded_image (path : string) : option dyld_image :=
  match List.find (λ i, bool_decide (di_path i = Some path)) (sy_images system) with
  | Some i => Some i
  | None =>
      match sy_realpath system path with
      | None => None
      | Some resolved =>
          List.find (λ i, bool_decide ((di_path i ≫= sy_realpath system) = Some resolved))
            (sy_images system)
      end
  end.

(** [open], [fstat], [mmap] and [close]; an empty file cannot be mapped. *)
Definition map_file (path : string) : F native_globals (option file_view) := λ g,
  match file_bytes path with
  | None | Some [] => Some (None, g)
  | Some bytes =>
      match place (ng_maps g) (Z.of_nat (length bytes)) with
      | None => Some (None, g)
      | Some base => Some (Some (FileView base (Z.of_nat (length bytes)) true),
                           g <| ng_maps := (base, bytes) :: ng_maps g |>)
      end
  end.

Definition unmap_file (file : file_view) : F native_globals unit := λ g,
  Some (tt, g <| ng_maps := filter (λ m : mapping, m.1 ≠ fv_base file) (ng_maps g) |>).

Definition cache_candidates : list string :=
  ["/System/Cryptexes/OS/System/Library/dyld/dyld_shared_cache_arm64e.symbols";
   "/System/Cryptexes/OS/System/Library/dyld/dyld_shared_cache_arm64.symbols";
   "/System/Library/Caches/com.apple.dyld/dyld_shared_cache_arm64e";
   "/System/Library/Caches/com.apple.dyld/dyld_shared_cache_arm64"]%string.

Definition build_index (symbols : cache_symbols) : F native_globals cache_symbols :=
  allocated <-- alloc_in ;;
  if negb allocated then fret symbols
  else
    index <-- look (λ mem, collect_index mem (Z.to_nat (cs_entries_count symbols))
                             (cs_entries symbols) (cs_entry_stride symbols) 0) ;;
    fret (symbols <| cs_entry_index := Some (qsort index) |>).

(** The candidates in order, up to the first that is a cache with local symbols. *)
Fixpoint load_cache (candidates : list string) : F native_globals (option cache_symbols) :=
  match candidates with
  | [] => fret None
  | path :: candidates =>
      file <-- map_file path ;;
      match file with
      | None => load_cache candidates
      | Some file =>
          parsed <-- look (λ mem, parse_cache_symbols mem (fv_base file) (fv_size file)) ;;
          match parsed with
          | Some symbols => symbols <-- build_index symbols ;; fret (Some symbols)
          | None => _ <-- unmap_file file ;; load_cache candidates
          end
      end
  end.

(** [cache_symbols], once for the process. *)
Definition cache_symbols_once : F native_globals (option cache_symbols) := λ g,
  match ng_cache g with
  | Some symbols => Some (symbols, g)
  | None =>
      '(symbols, g) ← load_cache cache_candidates g;
      Some (symbols, g <| ng_cache := Some symbols |>)
  end.

Definition cache_image_offset (header : Z) : option Z :=
  let '(start, length) := sy_shared_cache system in
  if (start =? 0) || (length =? 0) then None
  else if (header <? start) || (u64 (start + length) <=? header) then None
  else Some (header - start).

(** The image bound to its entry, [None] where there is none. *)
Definition bind_cache_symbols (header : Z) (image : hk_image) : F native_globals (option hk_image) :=
  symbols <-- cache_symbols_once ;;
  match symbols, cache_image_offset header with
  | Some symbols, Some dylib_offset =>
      found <-- look (λ mem, find_entry_number mem symbols dylib_offset) ;;
      match found with
      | Some i =>
          bound <-- look (λ mem, bind_entry mem symbols (cs_entries symbols + i * cs_entry_stride symbols)
                                   image) ;;
          fret (Some bound)
      | None => fret None
      end
  | _, _ => fret None
  end.

Definition bind_ondisk_symbols (path : string) (image : hk_image) : F native_globals hk_image :=
  match file_bytes path with
  | Some bytes =>
      if Z.of_nat (length bytes) <? HK_MACHO_HEADER_64_SIZE then fret image
      else
        file <-- map_file path ;;
        match file with
        | None => fret image
        | Some file =>
            symtab <-- look (λ mem, file_symtab mem (fv_base file) (fv_size file)) ;;
            match symtab with
            | Some (symoff, nsyms, stroff, strsize) =>
                fret (HkImage (Some file) (im_slide image) (fv_base file + symoff) nsyms
                        (fv_base file + stroff) strsize (im_dl_handle image) (im_sect_flags image))
            | None => _ <-- unmap_file file ;; fret image
            end
        end
  | None => fret image
  end.

(** The flags in the order of [n_sect]; none where there is no section, or no
    memory for them.  A store past what was allocated has no result. *)
Definition collect_section_flags (header : Z) : F native_globals (list Z) :=
  count <-- look (λ mem, ncmds ← read_u32 mem (header + 16);
                         count_sections mem (Z.to_nat ncmds) (header + HK_MACHO_HEADER_64_SIZE) 0) ;;
  if count =? 0 then fret []
  else
    allocated <-- alloc_in ;;
    if negb allocated then fret []
    else
      look (λ mem, ncmds ← read_u32 mem (header + 16);
                   flags ← section_flags mem (Z.to_nat ncmds) (header + HK_MACHO_HEADER_64_SIZE);
                   if count <? Z.of_nat (length flags) then None else Some flags).

(** ** The interface *)

Definition open_handle (path : string) : F native_globals Z := λ g,
  let handle := sy_dlopen system path in
  Some (handle, if handle =? 0 then g else g <| ng_handles := handle :: ng_handles g |>).

Definition hk_native_open_image (path : option string) : F native_globals (option hk_image) :=
  match path with
  | None | Some EmptyString => fret None
  | Some path =>
      match find_loaded_image path with
      | None => fret None
      | Some loaded =>
          allocated <-- alloc_in ;;
          if negb allocated then fret None
          else
            handle <-- open_handle path ;;
            flags <-- collect_section_flags (di_header loaded) ;;
            let image := HkImage None (di_slide loaded) 0 0 0 0 handle flags in
            bound <-- bind_cache_symbols (di_header loaded) image ;;
            match bound with
            | Some image => fret (Some image)
            | None => image <-- bind_ondisk_symbols path image ;; fret (Some image)
            end
      end
  end.

(** One opening of the handle is given up. *)
Fixpoint remove_one (x : Z) (l : list Z) : list Z :=
  match l with [] => [] | y :: l => if y =? x then l else y :: remove_one x l end.

Definition hk_native_close_image (image : option hk_image) : F native_globals unit :=
  match image with
  | None => fret tt
  | Some image =>
      _ <-- (match im_map image with Some file => unmap_file file | None => fret tt end) ;;
      if im_dl_handle image =? 0 then fret tt
      else λ g, Some (tt, g <| ng_handles := remove_one (im_dl_handle image) (ng_handles g) |>)
  end.

Definition hk_native_find_symbol (image : option hk_image) (name : option (list Z))
    : F native_globals Z :=
  match image, name with
  | None, _ | _, None | _, Some [] => fret 0
  | Some image, Some name =>
      found <-- look (λ mem, find_nlist_symbol mem image name) ;;
      fret (match found with
            | Some (address, _) =>
                if address =? 0 then
                  if im_dl_handle image =? 0 then 0 else sy_dlsym system (im_dl_handle image) name
                else address
            | None => if im_dl_handle image =? 0 then 0 else sy_dlsym system (im_dl_handle image) name
            end)
  end.

(** The address and the raw value, 0 where nothing was found. *)
Definition hk_native_find_loaded_cache_symbol (header slide : Z) (name : option (list Z))
    : F native_globals (Z * Z) :=
  match name with
  | None | Some [] => fret (0, 0)
  | Some name =>
      if header =? 0 then fret (0, 0)
      else
        flags <-- collect_section_flags header ;;
        bound <-- bind_cache_symbols header (HkImage None slide 0 0 0 0 0 flags) ;;
        match bound with
        | None => fret (0, 0)
        | Some image =>
            found <-- look (λ mem, find_nlist_symbol mem image name) ;;
            fret (default (0, 0) found)
        end
  end.
End Process.
