(* ===== verification/NativeSymbolsSpec.v ===== *)
(** * Native symbol lookup: what is read and what is found

    The tables accepted from a file lie inside it, the sorted index changes no
    answer, a name resolves to its first defined symbol, and closing an image
    gives back what opening it took. *)

From stdpp Require Import base list strings numbers option sorting.
From S2P Require Import Prelude Types Ownership ImageCatalog Memory Faults SymbolTable ImportSlots MachO DyldImages RelocEngine PointerAuth RebindCache DyldIndex Demo ResolverSafety NativeSymbols.

(** ** The index over the entries *)

Definition by_offset (a b : Z * Z) : Prop := a.1 <= b.1.

Lemma index_search_spec wanted l fuel lo hi :
  StronglySorted by_offset l → (lo <= hi <= length l)%nat → (hi - lo < fuel)%nat →
  Forall (λ e, e.1 < wanted) (take lo l) → Forall (λ e, wanted <= e.1) (drop hi l) →
  let b := index_search fuel l wanted lo hi in
  Forall (λ e, e.1 < wanted) (take b l) ∧ Forall (λ e, wanted <= e.1) (drop b l).
Proof.
  intros Hs. revert lo hi. induction fuel as [|fuel IH]; intros lo hi Hb Hf Hlo Hhi; [lia|].
  cbn [index_search]. destruct (Nat.ltb_spec lo hi) as [Hlt|Hge].
  2: { by assert (lo = hi) as <- by lia. }
  set (mid := ((lo + hi) / 2)%nat).
  assert (Hmid : (lo <= mid < hi)%nat).
  { unfold mid. split; [apply Nat.div_le_lower_bound; lia|apply Nat.Div0.div_lt_upper_bound; lia]. }
  destruct (l !! mid) as [e|] eqn:E; [|apply lookup_ge_None_1 in E; lia].
  cbv zeta. destruct (Z.ltb_spec e.1 wanted) as [Hc|Hc]; (apply IH; [lia|lia| |]); try done;
    apply Forall_lookup; intros i x Hx.
  - apply lookup_take_Some in Hx as [Hx Hi]. destruct (decide (i = mid)) as [->|]; [by simplify_eq|].
    enough (by_offset x e) by (unfold by_offset in *; lia).
    eapply (sorted_lookup by_offset l i mid); [done|lia|done|done].
  - rewrite lookup_drop in Hx. destruct (decide (i = 0%nat)) as [->|].
    { rewrite Nat.add_0_r in Hx. by simplify_eq. }
    enough (by_offset e x) by (unfold by_offset in *; lia).
    eapply (sorted_lookup by_offset l mid (mid + i)); [done|lia|done|done].
Qed.

(** The search answers an entry of that offset, when there is one. *)
Lemma index_entry_spec l wanted : StronglySorted by_offset l →
  match index_entry l wanted with
  | Some i => (wanted, i) ∈ l
  | None => ∀ e, e ∈ l → e.1 ≠ wanted
  end.
Proof.
  intros Hs. unfold index_entry.
  destruct (index_search_spec wanted l (S (length l)) 0 (length l) Hs ltac:(lia) ltac:(lia)
    ltac:(by rewrite take_0) ltac:(by rewrite drop_all)) as [Hlo Hhi].
  set (b := index_search _ _ _ _ _) in *. clearbody b.
  assert (Hin : ∀ e, e ∈ l → e.1 = wanted → e ∈ drop b l).
  { intros e He Hw. rewrite <- (take_drop b l) in He. apply elem_of_app in He as [He|He]; [|done].
    rewrite Forall_forall in Hlo. specialize (Hlo e He). cbn in Hlo. lia. }
  destruct (l !! b) as [[o i]|] eqn:E.
  - pose proof (drop_S _ _ _ E) as Hd. cbn. destruct (Z.eqb_spec o wanted) as [->|Hne].
    { by eapply list_elem_of_lookup_2. }
    intros e He Hw. apply (Hin e He) in Hw as Hd'. rewrite Hd in Hhi, Hd'.
    assert (Hso : wanted <= o) by (by apply Forall_cons in Hhi as [? _]).
    apply elem_of_cons in Hd' as [->|Hd']; [cbn in *; lia|].
    apply list_elem_of_lookup in Hd' as [j Hj]. rewrite lookup_drop in Hj.
    assert (by_offset (o, i) e) by (eapply (sorted_lookup by_offset l b (S b + j)); [done|lia|done|done]).
    unfold by_offset in *. cbn in *. lia.
  - intros e He Hw. apply (Hin e He) in Hw. apply lookup_ge_None_1 in E.
    rewrite drop_ge in Hw by done. by apply elem_of_nil in Hw.
Qed.

Lemma index_entry_find index sorted wanted :
  sorted ≡ₚ index → StronglySorted by_offset sorted → NoDup index.*1 →
  index_entry sorted wanted = snd <$> List.find (λ e, e.1 =? wanted) index.
Proof.
  intros Hp Hs Hd. pose proof (index_entry_spec sorted wanted Hs) as He.
  destruct (List.find _ index) as [[o i]|] eqn:Ef.
  - apply List.find_some in Ef as [Hi%list_elem_of_In Ho]. apply Z.eqb_eq in Ho. cbn in Ho. subst o. cbn.
    destruct (index_entry sorted wanted) as [j|]; [|exfalso; eapply (He (wanted, i)); [by rewrite Hp|done]].
    rewrite Hp in He. f_equal.
    apply list_elem_of_lookup in Hi as [p Hi], He as [q He].
    assert (p = q) as <-; [|by simplify_eq].
    eapply (NoDup_lookup index.*1 p q wanted Hd); rewrite list_lookup_fmap; [by rewrite Hi|by rewrite He].
  - destruct (index_entry sorted wanted) as [j|]; [|done]. rewrite Hp in He.
    pose proof (List.find_none _ _ Ef _ (proj1 (list_elem_of_In _ _) He)) as H. cbn in H.
    by rewrite Z.eqb_refl in H.
Qed.

Lemma scan_collect mem count entries stride i index wanted :
  collect_index mem count entries stride i = Some index →
  scan_entries mem count entries stride i wanted
  = Some (snd <$> List.find (λ e, e.1 =? wanted) index).
Proof.
  revert i index. induction count as [|count IH]; intros i index H; cbn in H |- *; [by injection H as <-|].
  destruct (entry_dylib_offset mem _ stride) as [o|]; cbn in H |- *; [|done].
  destruct (collect_index mem count entries stride (i + 1)) as [rest|] eqn:E; cbn in H; [|done].
  injection H as <-. cbn. destruct (o =? wanted); [done|]. by apply IH.
Qed.

Lemma collect_numbers mem count entries stride i index :
  collect_index mem count entries stride i = Some index →
  Forall (λ e, i <= e.2 < i + Z.of_nat count) index.
Proof.
  revert i index. induction count as [|count IH]; intros i index H; cbn in H; [by injection H as <-|].
  destruct (entry_dylib_offset mem _ stride) as [o|]; cbn in H; [|done].
  destruct (collect_index mem count entries stride (i + 1)) as [rest|] eqn:E; cbn in H; [|done].
  injection H as <-. constructor; [cbn; lia|]. eapply Forall_impl; [by apply IH|]. cbn. lia.
Qed.

(** ** What is accepted lies inside the file *)

Section Inside.
Context (mem : memory).

Definition inside (map size a n : Z) : Prop := map <= a ∧ a + n <= map + size ∧ 0 <= n.

(** The ranges of the entries before [i] are in the table. *)
Definition probed (s : cache_symbols) (n : Z) : Prop := ∀ i, 0 <= i < n →
  ∃ start count,
    entry_nlist_start mem (cs_entries s + i * cs_entry_stride s) (cs_entry_stride s) = Some start ∧
    entry_nlist_count mem (cs_entries s + i * cs_entry_stride s) (cs_entry_stride s) = Some count ∧
    0 <= start ∧ 0 <= count ∧ start + count <= cs_nlist_count s.

Definition cache_inside (map size : Z) (s : cache_symbols) : Prop :=
  cs_map s = map ∧ cs_map_size s = size ∧ cs_entry_index s = None ∧
  (cs_entry_stride s = 16 ∨ cs_entry_stride s = 12) ∧
  is_u32 (cs_nlist_count s) ∧ is_u32 (cs_strings_size s) ∧ 0 < cs_entries_count s < 2 ^ 32 ∧
  inside map size (cs_nlist s) (cs_nlist_count s * SIZEOF_NLIST64) ∧
  inside map size (cs_strings s) (cs_strings_size s) ∧
  inside map size (cs_entries s) (cs_entries_count s * cs_entry_stride s) ∧
  probed s (Z.min 8 (cs_entries_count s)).

Lemma readable_inside map size a n : readable mem map size → inside map size a n → readable mem a n.
Proof.
  intros Hr (H1 & H2 & H3). replace a with (map + (a - map)) by lia.
  eapply readable_sub; [done|lia|lia].
Qed.

Section Entries.
Context (entries available : Z) (Hr : readable mem entries available).

Definition a_stride (stride : Z) : Prop := stride = 16 ∨ stride = 12.

Lemma runs_entry_fields stride i : a_stride stride → 0 <= i → (i + 1) * stride <= available →
  runs (entry_nlist_start mem (entries + i * stride) stride) is_u32 ∧
  runs (entry_nlist_count mem (entries + i * stride) stride) is_u32 ∧
  runs (entry_dylib_offset mem (entries + i * stride) stride) is_u64.
Proof.
  intros Hs Hi Ha. unfold entry_nlist_start, entry_nlist_count, entry_dylib_offset.
  rewrite <- !Z.add_assoc.
  assert (H32 : ∀ off, 0 <= off → off + 4 <= stride →
    runs (read_u32 mem (entries + (i * stride + off))) is_u32).
  { intros off H1 H2. eapply runs_u32; [exact Hr| |]; destruct Hs; subst; lia. }
  destruct Hs as [->| ->]; cbv beta iota zeta delta [Z.eqb Pos.eqb]; (split; [|split]).
  1, 2, 4, 5: apply H32; lia.
  - eapply runs_u64; [exact Hr|lia|lia].
  - eapply runs_conseq; [eapply runs_u32; [exact Hr|lia|lia]|].
    unfold is_u32, is_u64. intros v Hv. assert (2 ^ 32 < 2 ^ 64) by done. lia.
Qed.

Lemma runs_probe count stride total i : a_stride stride → 0 <= i →
  (i + Z.of_nat count) * stride <= available →
  runs (probe_loop mem count entries i stride total) (λ b, b = true →
    ∀ j, i <= j < i + Z.of_nat count → ∃ start n,
      entry_nlist_start mem (entries + j * stride) stride = Some start ∧
      entry_nlist_count mem (entries + j * stride) stride = Some n ∧
      0 <= start ∧ 0 <= n ∧ start + n <= total).
Proof.
  intros Hs. revert i. induction count as [|count IH]; intros i Hi Ha; cbn [probe_loop].
  { cbn. intros _ j Hj. lia. }
  destruct (runs_entry_fields stride i Hs Hi) as (H1 & H2 & _); [destruct Hs; subst; lia|].
  apply runs_some in H1 as (start & E1 & B1), H2 as (n & E2 & B2). cbv zeta. rewrite E1. cbn. rewrite E2. cbn.
  destruct (Z.ltb_spec total (start + n)); [done|].
  eapply runs_conseq; [apply IH; [lia|destruct Hs; subst; lia]|]. cbn beta. intros b Hb Ht j Hj.
  destruct (decide (j = i)) as [->|]; [|apply Hb; [done|lia]].
  exists start, n. unfold is_u32 in *. repeat split; try done; lia.
Qed.

Lemma runs_plausible count stride total : a_stride stride → 0 <= count →
  runs (entries_plausible mem entries count stride total available) (λ b, b = true →
    0 < count ∧ count * stride <= available ∧
    ∀ j, 0 <= j < Z.min 8 count → ∃ start n,
      entry_nlist_start mem (entries + j * stride) stride = Some start ∧
      entry_nlist_count mem (entries + j * stride) stride = Some n ∧
      0 <= start ∧ 0 <= n ∧ start + n <= total).
Proof.
  intros Hs Hc. unfold entries_plausible.
  destruct (Z.eqb_spec count 0); [done|]. cbn [orb].
  destruct (Z.ltb_spec available (count * stride)); [done|].
  assert (E : (if count <? 8 then count else 8) = Z.min 8 count) by (destruct (Z.ltb_spec count 8); lia).
  rewrite E. eapply runs_conseq; [apply (runs_probe _ stride); [done|lia|]|].
  - destruct Hs; subst; lia.
  - cbn beta. intros b Hb Ht. split; [lia|]. split; [done|]. intros j Hj. apply Hb; [done|lia].
Qed.

Lemma runs_collect count stride i : a_stride stride → 0 <= i →
  (i + Z.of_nat count) * stride <= available → runs (collect_index mem count entries stride i) (λ _, True).
Proof.
  intros Hs. revert i. induction count as [|count IH]; intros i Hi Ha; cbn [collect_index]; [done|].
  destruct (runs_entry_fields stride i Hs Hi) as (_ & _ & H3); [destruct Hs; subst; lia|].
  eapply runs_bind; [exact H3|]. intros o _.
  eapply runs_bind; [apply IH; [lia|destruct Hs; subst; lia]|]. done.
Qed.
End Entries.

Lemma runs_read_info region size : readable mem region size → 24 <= size →
  runs (read_info mem region) (λ i, is_u32 (li_nlist_offset i) ∧ is_u32 (li_nlist_count i) ∧
    is_u32 (li_strings_offset i) ∧ is_u32 (li_strings_size i) ∧ is_u32 (li_entries_offset i) ∧
    is_u32 (li_entries_count i)).
Proof.
  intros Hr Hs. unfold read_info.
  eapply runs_bind; [rewrite <- (Z.add_0_r region); eapply runs_u32; [exact Hr|lia|lia]|]. intros a Ha.
  do 5 (eapply runs_bind; [eapply runs_u32; [exact Hr|lia|lia]|]; intros).
  done.
Qed.

Lemma runs_stride entries available info : readable mem entries available →
  is_u32 (li_entries_count info) →
  runs (entry_stride mem entries available info) (λ r, ∀ stride, r = Some stride →
    a_stride stride ∧ 0 < li_entries_count info ∧ li_entries_count info * stride <= available ∧
    ∀ j, 0 <= j < Z.min 8 (li_entries_count info) → ∃ start n,
      entry_nlist_start mem (entries + j * stride) stride = Some start ∧
      entry_nlist_count mem (entries + j * stride) stride = Some n ∧
      0 <= start ∧ 0 <= n ∧ start + n <= li_nlist_count info).
Proof.
  intros Hr [Hc _]. unfold entry_stride.
  eapply runs_bind; [apply (runs_plausible entries available Hr _ 16); [by left|done]|].
  intros [|] H16; cbn beta in H16.
  { cbn. intros stride [= <-]. split; [by left|]. by apply H16. }
  eapply runs_bind; [apply (runs_plausible entries available Hr _ 12); [by right|done]|].
  intros [|] H12; cbn beta in H12; cbn; [|done].
  intros stride [= <-]. split; [by right|]. by apply H12.
Qed.

Lemma parse_inside map size : readable mem map size →
  runs (parse_cache_symbols mem map size) (λ r, ∀ s, r = Some s → cache_inside map size s).
Proof.
  intros Hr. unfold parse_cache_symbols. destruct (Z.ltb_spec size 256) as [|Hsize]; [done|].
  eapply runs_bind; [rewrite <- (Z.add_0_r map); eapply runs_bytes; [exact Hr|lia|lia]|].
  intros magic _. destruct (negb _); [done|].
  eapply runs_bind; [eapply runs_u32; [exact Hr|unfold HK_DCH_MAPPING_OFFSET; lia..]|].
  intros mapping_offset _. destruct (_ <? _); [done|].
  eapply runs_bind; [eapply runs_u64; [exact Hr|unfold HK_DCH_LOCAL_SYMS_OFFSET; lia..]|].
  intros syms_offset [Ho _].
  eapply runs_bind; [eapply runs_u64; [exact Hr|unfold HK_DCH_LOCAL_SYMS_SIZE; lia..]|].
  intros syms_size _. unfold SIZEOF_LOCAL_SYMBOLS_INFO.
  destruct (Z.eqb_spec syms_offset 0); [done|]. destruct (Z.ltb_spec syms_size 24) as [|Hss]; [done|]. cbn [orb].
  destruct (Z.ltb_spec size syms_offset); [done|].
  destruct (Z.ltb_spec (size - syms_offset) syms_size); [done|]. cbn [orb]. cbv zeta.
  set (region := map + syms_offset).
  assert (Hreg : readable mem region syms_size) by (eapply readable_sub; [exact Hr|lia|lia]).
  eapply runs_bind; [apply (runs_read_info _ syms_size); [done|lia]|].
  intros info (H1 & H2 & H3 & H4 & H5 & H6). unfold is_u32 in *.
  destruct (Z.ltb_spec syms_size (li_nlist_offset info + li_nlist_count info * SIZEOF_NLIST64)); [done|].
  destruct (Z.ltb_spec syms_size (li_strings_offset info + li_strings_size info)); [done|].
  destruct (Z.ltb_spec syms_size (li_entries_offset info)); [done|].
  eapply runs_bind; [apply runs_stride; [eapply readable_sub; [exact Hreg|lia|lia]|done]|].
  intros [stride|] Hst; cbn; [|done].
  destruct (Hst stride eq_refl) as (Hs & Hpos & Hfit & Hprobe). intros s [= <-].
  unfold SIZEOF_NLIST64 in *. unfold cache_inside, inside, is_u32, probed, region, SIZEOF_NLIST64. cbn.
  repeat match goal with |- _ ∧ _ => split end; try done; try (destruct Hs; subst; lia).
Qed.

(** ** The symbol table of a file *)

Definition symtab_inside (size : Z) (r : Z * Z * Z * Z) : Prop :=
  let '(symoff, nsyms, stroff, strsize) := r in
  0 <= symoff ∧ 0 < nsyms < 2 ^ 32 ∧ symoff + nsyms * SIZEOF_NLIST64 <= size ∧
  0 <= stroff ∧ is_u32 strsize ∧ stroff + strsize <= size.

Lemma runs_symtab_loop count map size cursor : readable mem map size → 0 <= cursor →
  runs (symtab_loop mem count map size cursor) (λ r, ∀ t, r = Some t → symtab_inside size t).
Proof.
  intros Hr. revert cursor. induction count as [|count IH]; intros cursor Hc; cbn [symtab_loop]; [done|].
  unfold HK_LOAD_COMMAND_SIZE. destruct (Z.ltb_spec size (cursor + 8)); [done|].
  eapply runs_bind; [eapply runs_u32; [exact Hr|lia|lia]|]. intros cmd _.
  eapply runs_bind; [eapply runs_u32; [exact Hr|lia|lia]|]. intros cmdsize _.
  destruct (Z.ltb_spec cmdsize 8); [done|]. destruct (Z.ltb_spec size (cursor + cmdsize)); [done|]. cbn [orb].
  destruct (cmd =? HK_LC_SYMTAB); cbn [andb]; [|apply IH; lia].
  unfold HK_SYMTAB_COMMAND_SIZE. destruct (Z.leb_spec 24 cmdsize); [|apply IH; lia].
  eapply runs_bind; [eapply runs_u32; [exact Hr|lia|lia]|]. intros symoff Hsymoff.
  eapply runs_bind; [eapply runs_u32; [exact Hr|lia|lia]|]. intros nsyms Hnsyms.
  eapply runs_bind; [eapply runs_u32; [exact Hr|lia|lia]|]. intros stroff Hstroff.
  eapply runs_bind; [eapply runs_u32; [exact Hr|lia|lia]|]. intros strsize Hstrsize.
  unfold is_u32 in *. cbn.
  destruct (Z.eqb_spec nsyms 0); [done|].
  destruct (Z.ltb_spec size (symoff + nsyms * SIZEOF_NLIST64)); [done|].
  destruct (Z.ltb_spec size (stroff + strsize)); [done|]. cbn.
  intros t [= <-]. unfold symtab_inside, is_u32. lia.
Qed.

Lemma file_symtab_inside map size : readable mem map size → HK_MACHO_HEADER_64_SIZE <= size →
  runs (file_symtab mem map size) (λ r, ∀ t, r = Some t → symtab_inside size t).
Proof.
  unfold HK_MACHO_HEADER_64_SIZE. intros Hr Hs. unfold file_symtab.
  eapply runs_bind; [rewrite <- (Z.add_0_r map); eapply runs_u32; [exact Hr|lia|lia]|]. intros magic _.
  destruct (negb _); [done|].
  eapply runs_bind; [eapply runs_u32; [exact Hr|lia|lia]|]. intros ncmds _.
  eapply runs_bind; [eapply runs_u32; [exact Hr|lia|lia]|]. intros sizeofcmds _.
  destruct (_ <? _); [done|]. apply runs_symtab_loop; [done|]. unfold HK_MACHO_HEADER_64_SIZE. lia.
Qed.

(** ** The search of a name *)

Context `{PacOps}.

(** A symbol's string is the name, or the name after an underscore. *)
Definition spelled (a : Z) (name : list Z) : Prop :=
  holds mem a (name ++ [0]) ∨ holds mem a ((95 :: name) ++ [0]).

Definition defines_name (image : hk_image) (name : list Z) (i : Z) (sym : hk_macho_nlist64) : Prop :=
  nlist_at mem (im_nlist image) i = Some sym ∧ entry_skipped image sym = false ∧
  spelled (im_strings image + n_strx sym) name.

(** The table may be read and the strings its entries name are terminated. *)
Definition image_tables_ok (image : hk_image) : Prop :=
  readable mem (im_nlist image) (im_nlist_count image * SIZEOF_NLIST64) ∧
  ∀ i sym, 0 <= i < im_nlist_count image → nlist_at mem (im_nlist image) i = Some sym →
    entry_skipped image sym = false → nul_terminated mem (im_strings image + n_strx sym).

Lemma runs_symbol_matches a name : nul_terminated mem a → cstring name →
  runs (symbol_matches mem a name) (λ b, b = true ↔ spelled a name).
Proof.
  intros Ha Hn. unfold symbol_matches, spelled.
  eapply runs_bind; [by apply runs_strcmp|]. intros [|] Hs; cbn beta in Hs; [cbn; tauto|].
  assert (Hno : ¬ holds mem a (name ++ [0])) by (intros Hh; by apply Hs in Hh).
  destruct Ha as (s & Hc & Hh).
  assert (∃ c, mem a = Some c ∧ (c = 0 ∨ nul_terminated mem (a + 1))) as (c & Ec & Hrest).
  { destruct Hc as [|c s Hc Hcs]; apply holds_cons in Hh as [Hb Hh]; [exists 0; auto|].
    exists c. split; [done|]. right. by exists s. }
  unfold read_u8. rewrite Ec. cbn [mbind option_bind].
  destruct (Z.eqb_spec c 95) as [->|Hne].
  - destruct Hrest as [|Hrest]; [done|].
    eapply runs_conseq; [by apply runs_strcmp|]. cbn beta. intros b ->. cbn [app]. rewrite (holds_cons _ a). tauto.
  - cbn. rewrite (holds_cons _ a 95). split; [done|]. intros [?|[E _]]; [done|congruence].
Qed.

Definition first_defined (image : hk_image) (name : list Z) (from : Z) (r : option (Z * Z)) : Prop :=
  match r with
  | Some (address, raw) => ∃ i sym, from <= i < im_nlist_count image ∧ defines_name image name i sym ∧
      (∀ j sym', from <= j < i → ¬ defines_name image name j sym') ∧
      address = symbol_address image sym ∧ raw = n_value sym
  | None => ∀ j sym, from <= j < im_nlist_count image → ¬ defines_name image name j sym
  end.

Lemma runs_nlist_loop count image name i : image_tables_ok image → cstring name → 0 <= i →
  i + Z.of_nat count = im_nlist_count image →
  runs (nlist_loop mem count image name i) (first_defined image name i).
Proof.
  intros [Hr Hstr] Hc. revert i. induction count as [|count IH]; intros i Hi Hcount; cbn [nlist_loop].
  { cbn. intros j sym Hj. lia. }
  pose proof (runs_nlist_at _ _ i Hr ltac:(lia)) as Hsym.
  apply runs_some in Hsym as (sym & Hat & _). rewrite Hat. cbn [mbind option_bind].
  assert (Hskip : (∀ s, ¬ defines_name image name i s) →
    runs (nlist_loop mem count image name (i + 1)) (first_defined image name i)).
  { intros Hno. eapply runs_conseq; [apply IH; lia|]. intros [[address raw]|]; cbn.
    - intros (j & s & Hj & Hd & Hall & ? & ?). exists j, s. split; [lia|]. split; [done|].
      split; [|done]. intros k s' Hk. destruct (Z.eq_dec k i) as [->|]; [apply Hno|apply Hall; lia].
    - intros Hall j s Hj. destruct (Z.eq_dec j i) as [->|]; [apply Hno|apply Hall; lia]. }
  destruct (entry_skipped image sym) eqn:Hsk.
  { apply Hskip. intros s (Hs & Hp & _). congruence. }
  eapply runs_bind; [apply runs_symbol_matches; [by eapply Hstr; [|exact Hat|]; [lia|]|done]|].
  intros [|] Hm; cbn beta in Hm.
  - cbn. exists i, sym. split; [lia|]. split; [split; [done|split; [done|by apply Hm]]|]. split; [intros; lia|done].
  - apply Hskip. intros s (Hs & _ & Hsp). rewrite Hat in Hs. injection Hs as <-. by apply Hm in Hsp.
Qed.
End Inside.

(** ** The cache of the process *)

Lemma live_memory_head image_mem base bytes maps : Forall (λ b, 0 <= b < 256) bytes →
  readable (live_memory image_mem ((base, bytes) :: maps)) base (Z.of_nat (length bytes)).
Proof.
  intros Hb i Hi. unfold live_memory, in_mapping. cbn.
  destruct (Z.leb_spec base (base + i)); [|lia]. destruct (Z.ltb_spec (base + i) (base + Z.of_nat (length bytes))); [|lia].
  cbn. replace (base + i - base) with i by lia.
  destruct (lookup_lt_is_Some_2 bytes (Z.to_nat i) ltac:(lia)) as [b E].
  exists b. split; [done|]. exact (Forall_lookup_1 _ _ _ _ Hb E).
Qed.

Section Process.
Context (image_mem : memory) (file_bytes : string → option (list Z)).
Context (place : list mapping → Z → option Z) (system : native_system).
Context (qsort : list (Z * Z) → list (Z * Z)).
Local Abbreviation view g := (live_memory image_mem (ng_maps g)).
Local Abbreviation load := (load_cache image_mem file_bytes place qsort).
Local Abbreviation collect mem s :=
  (collect_index mem (Z.to_nat (cs_entries_count s)) (cs_entries s) (cs_entry_stride s) 0).

(** The contents of files are bytes. *)
Definition files_are_bytes : Prop :=
  ∀ path bytes, file_bytes path = Some bytes → Forall (λ b, 0 <= b < 256) bytes.

(** [qsort] orders what it is given by offset. *)
Definition qsort_sorts : Prop := ∀ l, qsort l ≡ₚ l ∧ StronglySorted by_offset (qsort l).

(** What a loaded cache keeps: its entries may be read, and where there is an
    index it is the sorted list of their offsets. *)
Definition cache_ready (mem : memory) (s : cache_symbols) : Prop :=
  a_stride (cs_entry_stride s) ∧ 0 < cs_entries_count s ∧
  readable mem (cs_entries s) (cs_entries_count s * cs_entry_stride s) ∧
  ∃ index, collect mem s = Some index ∧ (cs_entry_index s = None ∨ cs_entry_index s = Some (qsort index)).

(** Two loads differ only in whether there is an index. *)
Definition alike (mem : memory) (r r' : option cache_symbols) : Prop :=
  match r, r' with
  | None, None => True
  | Some s, Some s' => cache_ready mem s ∧ cache_ready mem s' ∧
      s <| cs_entry_index := None |> = s' <| cs_entry_index := None |>
  | _, _ => False
  end.

(** What mapping a file adds. *)
Definition mapped (path : string) (maps : list mapping) : option mapping :=
  match file_bytes path with
  | None | Some [] => None
  | Some bytes => base ← place maps (Z.of_nat (length bytes)); Some (base, bytes)
  end.

Lemma map_file_mapped path g : map_file file_bytes place path g =
  match mapped path (ng_maps g) with
  | None => Some (None, g)
  | Some m => Some (Some (FileView m.1 (Z.of_nat (length m.2)) true), g <| ng_maps := m :: ng_maps g |>)
  end.
Proof.
  unfold map_file, mapped. destruct (file_bytes path) as [[|b bytes]|]; [done| |done].
  by destruct (place _ _).
Qed.

Lemma mapped_readable path maps m : files_are_bytes → mapped path maps = Some m →
  readable (live_memory image_mem (m :: maps)) m.1 (Z.of_nat (length m.2)) ∧
  file_bytes path = Some m.2 ∧ place maps (Z.of_nat (length m.2)) = Some m.1.
Proof.
  intros Hf. unfold mapped. destruct (file_bytes path) as [[|b bytes]|] eqn:E; [done| |done].
  destruct (place _ _) as [base|] eqn:Ep; cbn; [|done]. intros [= <-].
  split; [|by split]. cbn [fst snd]. apply live_memory_head. by eapply Hf.
Qed.

Lemma inside_ready mem map size s : readable mem map size → cache_inside mem map size s →
  ∃ index, collect mem s = Some index ∧ ∀ o, o = None ∨ o = Some (qsort index) →
    cache_ready mem (s <| cs_entry_index := o |>).
Proof.
  intros Hr (_ & _ & _ & Hs & _ & _ & [Hpos _] & _ & _ & Hin & _).
  pose proof (readable_inside _ _ _ _ _ Hr Hin) as He.
  assert (Hc : runs (collect mem s) (λ _, True)).
  { eapply runs_collect; [exact He|exact Hs|done|]. rewrite Z2Nat.id by lia. lia. }
  apply runs_some in Hc as (index & Ei & _). exists index. split; [done|]. intros o Ho.
  split; [done|]. split; [done|]. split; [done|]. by exists index.
Qed.

Lemma build_index_ready s g maps index : ng_maps g = maps →
  collect (live_memory image_mem maps) s = Some index → cs_entry_index s = None →
  ∃ o h, (o = None ∨ o = Some (qsort index)) ∧
    build_index image_mem qsort s g = Some (s <| cs_entry_index := o |>, g <| ng_heap := h |>).
Proof.
  intros <- Hc Hn. unfold build_index, fbind, alloc_in. destruct (alloc (ng_heap g)) as [[|] h]; cbn.
  - unfold look. cbn [ng_maps]. rewrite Hc. cbn. exists (Some (qsort index)), h. auto.
  - exists None, h. split; [by left|]. destruct s; cbn in *. by subst.
Qed.

(** The state the mapping of a candidate is given up in. *)
Definition dropped (m : mapping) (g : native_globals) : native_globals :=
  g <| ng_maps := filter (λ m' : mapping, m'.1 ≠ m.1) (m :: ng_maps g) |>.

Lemma load_step path candidates g : load (path :: candidates) g =
  match mapped path (ng_maps g) with
  | None => load candidates g
  | Some m =>
      parsed ← parse_cache_symbols (live_memory image_mem (m :: ng_maps g)) m.1 (Z.of_nat (length m.2));
      match parsed with
      | None => load candidates (dropped m g)
      | Some s => '(s, g) ← build_index image_mem qsort s (g <| ng_maps := m :: ng_maps g |>); Some (Some s, g)
      end
  end.
Proof.
  cbn [load_cache]. unfold fbind at 1. rewrite map_file_mapped.
  destruct (mapped path (ng_maps g)) as [m|]; cbn; [|done]. unfold fbind at 1, look. cbn.
  destruct (parse_cache_symbols _ _ _) as [[s|]|]; cbn; [|done..].
  unfold fbind, fret. done.
Qed.

Lemma load_cache_heap (Hfiles : files_are_bytes) candidates g h :
  ∃ r g1 r' g2, load candidates g = Some (r, g1) ∧ load candidates (g <| ng_heap := h |>) = Some (r', g2) ∧
    ng_maps g2 = ng_maps g1 ∧ ng_cache g1 = ng_cache g ∧ ng_handles g1 = ng_handles g ∧ alike (view g1) r r'.
Proof.
  revert g. induction candidates as [|path candidates IH]; intros g; [by exists None, g, None, (g <| ng_heap := h |>)|].
  rewrite !load_step.
  change (ng_maps (g <| ng_heap := h |>)) with (ng_maps g).
  destruct (mapped path (ng_maps g)) as [m|] eqn:Em; [|apply IH].
  destruct (mapped_readable _ _ _ Hfiles Em) as (Hr & _).
  pose proof (parse_inside _ _ _ Hr) as Hp. apply runs_some in Hp as ([s|] & -> & Hs); cbn [mbind option_bind].
  2: { apply (IH (dropped m g)). }
  destruct (inside_ready _ _ _ _ Hr (Hs s eq_refl)) as (index & Ei & Hready).
  assert (Hn : cs_entry_index s = None) by (by destruct (Hs s eq_refl) as (_ & _ & ? & _)).
  pose proof (build_index_ready s (g <| ng_maps := m :: ng_maps g |>)) as B1.
  pose proof (build_index_ready s (g <| ng_heap := h |> <| ng_maps := m :: ng_maps g |>)) as B2.
  destruct (B1 (m :: ng_maps g) index eq_refl Ei Hn) as (o & h1 & Ho & E1).
  destruct (B2 (m :: ng_maps g) index eq_refl Ei Hn) as (o' & h2 & Ho' & E2).
  do 4 eexists. split; [exact (f_equal (λ r, '(s, g) ← r; Some (Some s, g)) E1)|].
  split; [exact (f_equal (λ r, '(s, g) ← r; Some (Some s, g)) E2)|]. do 3 (split; [done|]).
  split; [by apply Hready|]. split; [by apply Hready|]. done.
Qed.

Context (Hsort : qsort_sorts).

(** The number looked up: the entry of that offset. *)
Lemma ready_find mem s wanted : cache_ready mem s →
  runs (find_entry_number mem s wanted) (λ r, ∀ i, r = Some i → 0 <= i < cs_entries_count s).
Proof.
  intros (Hs & Hpos & Hr & index & Ei & Ho). apply collect_numbers in Ei as Hnum.
  assert (Hin : ∀ e, e ∈ index → 0 <= e.2 < cs_entries_count s).
  { intros e He. rewrite Forall_forall in Hnum. specialize (Hnum e He). cbn in Hnum. lia. }
  unfold find_entry_number. destruct Ho as [-> | ->].
  - rewrite (scan_collect _ _ _ _ _ index wanted Ei). cbn. intros i Hi.
    destruct (List.find _ index) as [e|] eqn:Ef; [|done]. injection Hi as <-.
    apply List.find_some in Ef as [He%list_elem_of_In _]. by apply Hin.
  - cbn. intros i Hi. destruct (Hsort index) as [Hp Hss].
    pose proof (index_entry_spec (qsort index) wanted Hss) as He. rewrite Hi, Hp in He. by apply (Hin (wanted, i)).
Qed.

Lemma ready_bind mem s i image : cache_ready mem s → 0 <= i < cs_entries_count s →
  runs (bind_entry mem s (cs_entries s + i * cs_entry_stride s) image) (λ image',
    im_map image' = im_map image ∧ im_dl_handle image' = im_dl_handle image).
Proof.
  intros (Hs & Hpos & Hr & _) Hi. unfold bind_entry.
  destruct (runs_entry_fields mem _ _ Hr (cs_entry_stride s) i Hs) as (H1 & H2 & _); [lia| |].
  { destruct Hs as [-> | ->]; lia. }
  eapply runs_bind; [exact H1|]. intros start _. eapply runs_bind; [exact H2|]. by intros count _.
Qed.

(** With distinct offsets the index and the scan find the same entry. *)
Lemma alike_find mem s s' wanted :
  cache_ready mem s → cache_ready mem s' → s <| cs_entry_index := None |> = s' <| cs_entry_index := None |> →
  (∀ index, collect mem s = Some index → NoDup index.*1) →
  find_entry_number mem s wanted = find_entry_number mem s' wanted.
Proof.
  intros (_ & _ & _ & index & Ei & Ho) (_ & _ & _ & index' & Ei' & Ho') E Hd.
  destruct s as [? ? ? ? ? ? entries count stride o], s' as [? ? ? ? ? ? entries' count' stride' o'].
  injection E as -> -> -> -> -> -> -> -> ->. cbn [cs_entries cs_entries_count cs_entry_stride cs_entry_index] in *.
  rewrite Ei in Ei'. injection Ei' as <-.
  destruct (Hsort index) as [Hp Hss].
  enough (Hall : ∀ o, o = None ∨ o = Some (qsort index) →
    match o with Some index => Some (index_entry index wanted)
    | None => scan_entries mem (Z.to_nat count') entries' stride' 0 wanted end
    = Some (snd <$> List.find (λ e, e.1 =? wanted) index)) by (unfold find_entry_number; cbn; by rewrite !Hall).
  intros o1 [-> | ->]; [by apply scan_collect|]. f_equal. by apply index_entry_find; [..|apply Hd].
Qed.

(** A mapping goes where none is. *)
Definition place_fresh : Prop := ∀ maps n base m, place maps n = Some base → m ∈ maps → m.1 ≠ base.

Lemma unmapped_fresh (m : mapping) maps : (∀ m', m' ∈ maps → m'.1 ≠ m.1) →
  filter (λ m' : mapping, m'.1 ≠ m.1) (m :: maps) = maps.
Proof.
  intros H. rewrite filter_cons, decide_False by tauto. induction maps as [|m' maps IH]; [done|].
  rewrite filter_cons, decide_True by (apply H; by left). rewrite IH; [done|]. intros. apply H. by right.
Qed.

Context (Hfiles : files_are_bytes) (Hfresh : place_fresh).

Lemma dropped_same path g m : mapped path (ng_maps g) = Some m → dropped m g = g.
Proof.
  intros Em. destruct (mapped_readable _ _ _ Hfiles Em) as (_ & _ & Hp). unfold dropped.
  destruct g. cbn in *. unfold set_field. cbn. f_equal. apply unmapped_fresh. intros m' Hm. by eapply Hfresh.
Qed.

Lemma load_cache_maps candidates g r g1 : load candidates g = Some (r, g1) →
  match r with
  | None => g1 = g
  | Some _ => ∃ m, ng_maps g1 = m :: ng_maps g
  end.
Proof.
  revert g. induction candidates as [|path candidates IH]; intros g; [by intros [= <- <-]|].
  rewrite load_step. destruct (mapped path (ng_maps g)) as [m|] eqn:Em; [|apply IH].
  destruct (parse_cache_symbols _ _ _) as [[s|]|]; cbn [mbind option_bind]; [| |done].
  - unfold build_index, fbind, alloc_in. destruct (alloc _) as [[|] h]; cbn.
    + unfold look. cbn. destruct (collect_index _ _ _ _ _); cbn; [|done].
      intros [= <- <-]. by exists m.
    + intros [= <- <-]. by exists m.
  - rewrite (dropped_same _ _ _ Em). apply IH.
Qed.

(** The cache of the process: not looked for yet, not found, or ready. *)
Definition cache_ok (g : native_globals) : Prop :=
  match ng_cache g with Some (Some s) => cache_ready (view g) s | _ => True end.

(** Looking for the cache happens once and keeps at most one mapping. *)
Definition once (g g1 : native_globals) : Prop :=
  ng_handles g1 = ng_handles g ∧ cache_ok g1 ∧ ng_cache g1 ≠ None ∧
  match ng_cache g with
  | Some _ => g1 = g
  | None => ng_maps g1 = ng_maps g ∨ ∃ m, ng_maps g1 = m :: ng_maps g
  end.

Lemma returns_once g : cache_ok g →
  returns (cache_symbols_once image_mem file_bytes place qsort) g (λ r g1, once g g1 ∧
    ng_cache g1 = Some r ∧ ∀ s, r = Some s → cache_ready (view g1) s).
Proof.
  unfold cache_ok, returns, cache_symbols_once, once. intros Hc. destruct (ng_cache g) as [r|] eqn:Eg.
  { cbn. unfold cache_ok. rewrite Eg. split; [done|]. split; [done|]. by intros s ->. }
  destruct (load_cache_heap Hfiles cache_candidates g (ng_heap g)) as (r & g1 & r' & g2 & E1 & _ & _ & _ & Hh & Ha).
  rewrite E1. cbn. pose proof (load_cache_maps _ _ _ _ E1) as Hm. unfold cache_ok. cbn.
  assert (Hready : ∀ s, r = Some s → cache_ready (view g1) s).
  { intros s ->. by destruct r'; destruct Ha. }
  split; [|done]. split; [done|]. split; [by destruct r as [s|]; [apply Hready|]|]. split; [done|].
  destruct r; [by right|]. left. by rewrite Hm.
Qed.

Lemma returns_bind_cache header image g : cache_ok g →
  returns (bind_cache_symbols image_mem file_bytes place system qsort header image) g (λ r g1, once g g1 ∧
    ∀ image', r = Some image' → im_map image' = im_map image ∧ im_dl_handle image' = im_dl_handle image).
Proof.
  intros Hc. unfold bind_cache_symbols. eapply returns_bind; [by apply returns_once|].
  intros r g1 (Ho & _ & Hr). cbn beta. destruct r as [s|]; [|by apply returns_ret].
  destruct (cache_image_offset system header) as [offset|]; [|by apply returns_ret].
  specialize (Hr s eq_refl). eapply returns_bind.
  { apply returns_fetch with (Q := λ r g2, g2 = g1 ∧ ∀ i, r = Some i → 0 <= i < cs_entries_count s).
    eapply runs_conseq; [by apply (ready_find _ _ offset Hr)|]. by intros r Hi. }
  intros [i|] g2 [-> Hi]; [|by apply returns_ret]. specialize (Hi i eq_refl).
  eapply returns_bind.
  { apply returns_fetch with (Q := λ r g2, g2 = g1 ∧ im_map r = im_map image ∧ im_dl_handle r = im_dl_handle image).
    eapply runs_conseq; [by apply (ready_bind _ _ i image Hr)|]. done. }
  intros image' g2 (-> & Hm & Hd). apply returns_ret. split; [done|]. by intros ? [= <-].
Qed.

(** ** Opening and closing *)

(** The load commands of a loaded image may be read, and its sections counted. *)
Definition header_ok (mem : memory) (header : Z) : Prop := ∃ ncmds flags,
  read_u32 mem (header + 16) = Some ncmds ∧
  section_flags mem (Z.to_nat ncmds) (header + HK_MACHO_HEADER_64_SIZE) = Some flags ∧
  count_sections mem (Z.to_nat ncmds) (header + HK_MACHO_HEADER_64_SIZE) 0 = Some (Z.of_nat (length flags)).

Lemma returns_section_flags header g : header_ok (view g) header →
  returns (collect_section_flags image_mem header) g (λ _ g1, ∃ h, g1 = g <| ng_heap := h |>).
Proof.
  intros (ncmds & flags & En & Ef & Ec). unfold returns, collect_section_flags, fbind, look, alloc_in, fret.
  rewrite En. cbn. rewrite Ec. cbn. destruct (_ =? 0); cbn; [by exists (ng_heap g); destruct g|].
  destruct (h_fails _ _); cbn; [by eexists|].
  rewrite En. cbn. rewrite Ef. cbn. rewrite Z.ltb_irrefl. cbn. by eexists.
Qed.

Lemma returns_ondisk path image g : im_map image = None →
  returns (bind_ondisk_symbols image_mem file_bytes place path image) g (λ image' g1,
    im_dl_handle image' = im_dl_handle image ∧ ng_handles g1 = ng_handles g ∧ ng_cache g1 = ng_cache g ∧
    match im_map image' with
    | None => ng_maps g1 = ng_maps g
    | Some file => ∃ m, ng_maps g1 = m :: ng_maps g ∧ m.1 = fv_base file ∧ ∀ m', m' ∈ ng_maps g → m'.1 ≠ m.1
    end).
Proof.
  intros Hi. assert (Hsame : returns (fret image) g (λ image' g1,
    im_dl_handle image' = im_dl_handle image ∧ ng_handles g1 = ng_handles g ∧ ng_cache g1 = ng_cache g ∧
    match im_map image' with
    | None => ng_maps g1 = ng_maps g
    | Some file => ∃ m, ng_maps g1 = m :: ng_maps g ∧ m.1 = fv_base file ∧ ∀ m', m' ∈ ng_maps g → m'.1 ≠ m.1
    end)) by (apply returns_ret; by rewrite Hi).
  unfold bind_ondisk_symbols. destruct (file_bytes path) as [bytes|] eqn:Eb; [|done].
  destruct (Z.ltb_spec (Z.of_nat (length bytes)) HK_MACHO_HEADER_64_SIZE) as [|Hsize]; [done|].
  unfold returns, fbind at 1. rewrite map_file_mapped.
  destruct (mapped path (ng_maps g)) as [m|] eqn:Em; cbn [mbind option_bind]; [|done].
  destruct (mapped_readable _ _ _ Hfiles Em) as (Hr & Hb & Hp). rewrite Eb in Hb. injection Hb as ->.
  pose proof (file_symtab_inside _ _ _ Hr Hsize) as Hsym. apply runs_some in Hsym as (symtab & Es & _).
  unfold fbind at 1, look. cbn [fv_base fv_size ng_maps set_field]. rewrite Es. cbn [mbind option_bind].
  assert (Hf : ∀ m', m' ∈ ng_maps g → m'.1 ≠ m.1) by (intros m' Hm; by eapply Hfresh).
  destruct symtab as [[[[symoff nsyms] stroff] strsize]|].
  - cbn. do 3 (split; [done|]). by exists m.
  - unfold fbind, unmap_file. pose proof (dropped_same _ _ _ Em) as Hd. unfold dropped in Hd.
    cbn. rewrite Hi. do 3 (split; [done|]). by apply unmapped_fresh.
Qed.

Lemma returns_open_handle path g : returns (open_handle system path) g (λ handle g1,
  handle = sy_dlopen system path ∧
  g1 = g <| ng_handles := (if sy_dlopen system path =? 0 then ng_handles g
                           else sy_dlopen system path :: ng_handles g) |>).
Proof. unfold returns, open_handle. cbn. split; [done|]. destruct g. by destruct (_ =? 0). Qed.

Lemma find_loaded_image_listed path loaded : find_loaded_image system path = Some loaded →
  loaded ∈ sy_images system.
Proof.
  unfold find_loaded_image. destruct (List.find _ _) as [i|] eqn:E.
  - intros [= <-]. apply List.find_some in E as [E _]. by apply list_elem_of_In.
  - destruct (sy_realpath system path); [|done]. intros [E' _]%List.find_some. by apply list_elem_of_In.
Qed.

(** What binding an image leaves: its own file on top of [rest], if it keeps one,
    and the cache of the process ready over [rest]. *)
Definition bound_over (image : hk_image) (rest : list mapping) (g g1 : native_globals) : Prop :=
  ng_handles g1 = ng_handles g ∧
  match im_map image with
  | None => ng_maps g1 = rest
  | Some file => ∃ m, ng_maps g1 = m :: rest ∧ m.1 = fv_base file ∧ ∀ m', m' ∈ rest → m'.1 ≠ m.1
  end ∧
  match ng_cache g1 with Some (Some s) => cache_ready (live_memory image_mem rest) s | _ => True end ∧
  (rest = ng_maps g ∨ ng_cache g = None ∧ ∃ m, rest = m :: ng_maps g).

Lemma once_over image g g1 : once g g1 → im_map image = None → bound_over image (ng_maps g1) g g1.
Proof.
  intros (Hh & Hc & _ & Hm) Hi. unfold bound_over. rewrite Hi. split; [done|]. split; [done|].
  split; [exact Hc|]. destruct (ng_cache g) as [r|]; [left; by rewrite Hm|].
  destruct Hm as [Hm|Hm]; [by left|by right].
Qed.

(** The shared cache's symbols, or else those of the image's file. *)
Definition bind_symbols (header : Z) (path : string) (image : hk_image) : F native_globals (option hk_image) :=
  bound <-- bind_cache_symbols image_mem file_bytes place system qsort header image ;;
  match bound with
  | Some image => fret (Some image)
  | None => image <-- bind_ondisk_symbols image_mem file_bytes place path image ;; fret (Some image)
  end.

Lemma returns_bind_symbols header path image g : cache_ok g → im_map image = None →
  returns (bind_symbols header path image) g (λ r g1, ∃ image' rest, r = Some image' ∧
    im_dl_handle image' = im_dl_handle image ∧ bound_over image' rest g g1).
Proof.
  intros Hc Hi. unfold bind_symbols. eapply returns_bind; [by apply returns_bind_cache|].
  intros [image'|] g1 [Ho Hsame].
  - destruct (Hsame _ eq_refl) as [Hm Hd]. apply returns_ret. exists image', (ng_maps g1).
    split; [done|]. split; [done|]. apply once_over; [done|congruence].
  - eapply returns_bind; [by apply returns_ondisk|]. intros image' g2 (Hd & Hh & Hcache & Hm).
    apply returns_ret. exists image', (ng_maps g1). split; [done|]. split; [done|].
    destruct (once_over image _ _ Ho Hi) as (Hh1 & _ & Hc1 & Hr). unfold bound_over.
    rewrite Hcache, Hh. auto.
Qed.

Lemma close_gives_back image rest g g1 g' : bound_over image rest g g1 →
  ng_maps g = ng_maps g' → ng_cache g = ng_cache g' →
  ng_handles g = (if im_dl_handle image =? 0 then ng_handles g' else im_dl_handle image :: ng_handles g') →
  returns (hk_native_close_image (Some image)) g1 (λ _ g2, ng_handles g2 = ng_handles g' ∧ cache_ok g2 ∧
    (ng_maps g2 = ng_maps g' ∨ ng_cache g' = None ∧ ∃ m, ng_maps g2 = m :: ng_maps g')).
Proof.
  intros (Hh & Hm & Hc & Hr) Em Ec Eh. rewrite Em, Ec in Hr.
  assert (Hd : ∀ g2, ng_handles g2 = ng_handles g1 → ng_cache g2 = ng_cache g1 → ng_maps g2 = rest →
    returns (if im_dl_handle image =? 0 then fret tt
           else λ g, Some (tt, g <| ng_handles := remove_one (im_dl_handle image) (ng_handles g) |>)) g2
      (λ _ g2, ng_handles g2 = ng_handles g' ∧ cache_ok g2 ∧
        (ng_maps g2 = ng_maps g' ∨ ng_cache g' = None ∧ ∃ m, ng_maps g2 = m :: ng_maps g'))).
  { intros g2 E1 E2 E3. rewrite Hh, Eh in E1. rewrite <- E2 in Hc. unfold returns, cache_ok.
    destruct (im_dl_handle image =? 0); cbn.
    - by rewrite E1, E3.
    - rewrite E1, E3. cbn. by rewrite Z.eqb_refl. }
  unfold hk_native_close_image. destruct (im_map image) as [file|].
  - destruct Hm as (m & Em' & Hb & Hf). eapply returns_bind.
    { apply (returns_conseq _ _ (λ _ g2, ng_handles g2 = ng_handles g1 ∧ ng_cache g2 = ng_cache g1 ∧ ng_maps g2 = rest)).
      - unfold returns, unmap_file. cbn. do 2 (split; [done|]). rewrite Em', <- Hb. by apply unmapped_fresh.
      - intros ? ? H. exact H. }
    intros _ g2 (E1 & E2 & E3). by apply Hd.
  - eapply returns_bind; [by apply (returns_ret tt g1 (λ _ g2, g2 = g1))|]. intros _ g2 ->. by apply Hd.
Qed.

(** C31.  Opening an image always comes back, and closing what it answered
    gives back every mapping and every handle the opening took: afterwards the
    process holds what it held before, and at most the one mapping of the
    shared cache's file, kept for good the first time it is looked for. *)
Theorem native_open_close_balanced path g : cache_ok g →
  (∀ i, i ∈ sy_images system → header_ok (view g) (di_header i)) →
  returns (hk_native_open_image image_mem file_bytes place system qsort path) g (λ image g1,
    returns (hk_native_close_image image) g1 (λ _ g2,
      ng_handles g2 = ng_handles g ∧ cache_ok g2 ∧
      (ng_maps g2 = ng_maps g ∨ ng_cache g = None ∧ ∃ m, ng_maps g2 = m :: ng_maps g))).
Proof.
  intros Hc Hh. assert (Hnone : ∀ h, returns (fret None) (g <| ng_heap := h |>) (λ image g1,
    returns (hk_native_close_image image) g1 (λ _ g2,
      ng_handles g2 = ng_handles g ∧ cache_ok g2 ∧
      (ng_maps g2 = ng_maps g ∨ ng_cache g = None ∧ ∃ m, ng_maps g2 = m :: ng_maps g)))).
  { intros h. unfold returns. cbn. auto. }
  assert (Hg : g = g <| ng_heap := ng_heap g |>) by (by destruct g).
  unfold hk_native_open_image. destruct path as [[|c path]|]; [rewrite Hg; apply Hnone| |rewrite Hg; apply Hnone].
  destruct (find_loaded_image system (String c path)) as [loaded|] eqn:El; [|rewrite Hg; apply Hnone].
  apply find_loaded_image_listed in El. specialize (Hh _ El).
  eapply returns_bind; [apply (returns_conseq _ _ (λ _ g1, ∃ h, g1 = g <| ng_heap := h |>));
    [by eexists|intros ? ? H; exact H]|].
  intros [|] g1 [h ->]; [|apply Hnone]. cbn [negb].
  eapply returns_bind; [apply returns_open_handle|]. intros handle g1 [-> ->].
  eapply returns_bind; [by apply returns_section_flags|].
  intros flags g1 [h' ->]. cbv zeta.
  eapply returns_conseq; [eapply returns_bind_symbols; [exact Hc|done]|].
  intros r g2 (image & rest & -> & Hd & Hb). cbn [im_dl_handle] in Hd.
  eapply close_gives_back; [exact Hb|done|done|]. cbn. by rewrite Hd.
Qed.

Lemma once_unloaded g : ng_cache g = None →
  cache_symbols_once image_mem file_bytes place qsort g
  = '(s, g) ← load cache_candidates g; Some (s, g <| ng_cache := Some s |>).
Proof. unfold cache_symbols_once. by intros ->. Qed.

(** C32.  The local symbols of the shared cache are found whether or not there
    was memory for the sorted index: on a cache file whose entries are for
    different images, loading the cache and looking an image up in it answers
    the same table from any heap, for any sort that sorts. *)
Theorem native_cache_transparent header image g h : ng_cache g = None →
  (∀ s g1 index, load cache_candidates g = Some (Some s, g1) → collect (view g1) s = Some index →
    NoDup index.*1) →
  ∃ r g1 g2,
    bind_cache_symbols image_mem file_bytes place system qsort header image g = Some (r, g1) ∧
    bind_cache_symbols image_mem file_bytes place system qsort header image (g <| ng_heap := h |>) = Some (r, g2) ∧
    ng_maps g1 = ng_maps g2.
Proof.
  intros Eg Hd.
  destruct (load_cache_heap Hfiles cache_candidates g h) as (r & g1 & r' & g2 & E1 & E2 & Hm & _ & _ & Ha).
  unfold bind_cache_symbols. unfold fbind at 1 4. rewrite !once_unloaded, E1, E2 by done.
  unfold fbind, look, fret. cbn [mbind option_bind set_field ng_maps ng_heap ng_handles ng_cache].
  destruct r as [s|], r' as [s'|]; try done; [|by do 3 eexists].
  destruct (cache_image_offset system header) as [offset|]; [|by do 3 eexists].
  destruct Ha as (Hs & Hs' & E). specialize (λ index, Hd s g1 index E1).
  cbn. rewrite Hm. rewrite <- (alike_find _ s s' offset Hs Hs' E Hd).
  pose proof (ready_find _ _ offset Hs) as Hfind. apply runs_some in Hfind as (found & -> & Hi). cbn.
  destruct found as [i|]; cbn; [|by do 3 eexists].
  pose proof (ready_bind _ _ i image Hs (Hi i eq_refl)) as Hb. apply runs_some in Hb as (image' & Eb & _).
  rewrite Eb.
  destruct s, s'. injection E as -> -> -> -> -> -> -> -> ->. cbn in *. unfold bind_entry in *. cbn in *.
  rewrite Eb. cbn. by do 3 eexists.
Qed.
End Process.

(** ** A process *)

Module DemoNative.
Import DemoImage.

(** A cache file with one symbol, [_f], and two entries, the second for the
    image at 256 of the cache. *)
Definition locals : list Z :=
  le32 24 ++ le32 1 ++ le32 40 ++ le32 8 ++ le32 48 ++ le32 2 ++
  (le32 1 ++ [0x0e; 1; 0; 0] ++ le64 0x40) ++ [0; 95; 102; 0; 0; 0; 0; 0] ++
  (le64 0x200 ++ le32 0 ++ le32 0) ++ (le64 0x100 ++ le32 0 ++ le32 1).
Definition cache : list Z :=
  string_bytes "dyld_v1" ++ replicate 9 0 ++ le32 88 ++ replicate 52 0 ++ le64 256 ++ le64 80 ++
  replicate 168 0 ++ locals.

Definition file_bytes (path : string) : option (list Z) :=
  if bool_decide (path = "/lib"%string) then Some image
  else if bool_decide (path = "/System/Library/Caches/com.apple.dyld/dyld_shared_cache_arm64"%string)
  then Some cache else None.

Definition next_base (maps : list mapping) : Z :=
  foldr (λ (m : mapping) b, Z.max (m.1 + 0x10000) b) 0x1000000 maps.
Definition place (maps : list mapping) (n : Z) : option Z := Some (next_base maps).

(** The image of the demonstration, [offset] into the cache. *)
Definition system (offset : Z) : native_system :=
  NativeSystem [DyldImage base (Some "/lib"%string) 0x8000] (λ _, None) (base - offset, 0x10000)
    (λ _, 7) (λ _ _, 0).

Definition sort : list (Z * Z) → list (Z * Z) := merge_sort (λ a b, Is_true (a.1 <=? b.1)).
Definition start : native_globals := NativeGlobals (Heap (λ n, false) 0 1) [] [] None.
Definition starved : heap := Heap (λ n, true) 0 1.

Lemma files : files_are_bytes file_bytes.
Proof.
  intros path bytes. unfold file_bytes. case_bool_decide; [|case_bool_decide; [|done]]; intros [= <-];
    apply (bool_decide_unpack (Forall _ _)); vm_compute; exact I.
Qed.

Lemma sorts : qsort_sorts sort.
Proof.
  intros l. split; [apply merge_sort_Permutation|].
  assert (Transitive (λ a b : Z * Z, Is_true (a.1 <=? b.1))).
  { intros a b c. rewrite !Is_true_true, !Z.leb_le. lia. }
  assert (Total (λ a b : Z * Z, Is_true (a.1 <=? b.1))).
  { intros a b. rewrite !Is_true_true, !Z.leb_le. lia. }
  pose proof (StronglySorted_merge_sort (λ a b : Z * Z, Is_true (a.1 <=? b.1)) l) as Hl.
  fold (sort l) in Hl. induction Hl as [|a l' Hl IH Ha]; constructor; [done|].
  eapply Forall_impl; [exact Ha|]. intros b. unfold by_offset. cbn beta. by rewrite Is_true_true, Z.leb_le.
Qed.

Lemma fresh : place_fresh place.
Proof.
  intros maps n b m. unfold place. intros [= <-] Hm. enough (m.1 < next_base maps) by lia. unfold next_base.
  induction Hm as [maps|m' maps Hm IH]; cbn in *; lia.
Qed.

Lemma header_fine maps : maps = [] → header_ok (live_memory memory maps) base.
Proof. intros ->. exists 4, [6]. repeat split; vm_compute; reflexivity. Qed.
End DemoNative.

(** C33.  Over any file that may be read, reading the shared cache's header, its
    local symbols and its entries, or an image's symbol table, reads only the
    file; and what is accepted (tables, strings, entries, the symbols of the
    entries probed) lies inside it. *)
Theorem native_files_safe mem map size : readable mem map size →
  runs (parse_cache_symbols mem map size) (λ r, ∀ s, r = Some s → cache_inside mem map size s) ∧
  (HK_MACHO_HEADER_64_SIZE <= size →
   runs (file_symtab mem map size) (λ r, ∀ t, r = Some t → symtab_inside size t)).
Proof. intros Hr. split; [by apply parse_inside|]. by apply file_symtab_inside. Qed.

(** A name resolves to the first symbol of the table that is defined in a
    section, has an address, and is spelled that way or that way after an
    underscore: to its slid address, signed when its section holds code; and to
    nothing only when no symbol is. *)
Theorem native_find_first `{PacOps} mem image name : image_tables_ok mem image → cstring name →
  0 <= im_nlist_count image →
  runs (find_nlist_symbol mem image name) (λ r,
    if (im_nlist image =? 0) || (im_strings image =? 0) then r = None else first_defined mem image name 0 r).
Proof.
  intros Ht Hn Hc. unfold find_nlist_symbol.
  destruct (im_nlist image =? 0); [done|]. destruct (im_strings image =? 0); [done|]. cbn [negb andb orb].
  apply runs_nlist_loop; [done..|]. lia.
Qed.

Lemma native_open_close_balanced_witness :
  returns (hk_native_open_image DemoImage.memory DemoNative.file_bytes DemoNative.place
             (DemoNative.system 0x300) DemoNative.sort (Some "/lib"%string)) DemoNative.start (λ image g1,
    returns (hk_native_close_image image) g1 (λ _ g2,
      ng_handles g2 = [] ∧ cache_ok DemoImage.memory DemoNative.sort g2 ∧
      (ng_maps g2 = [] ∨ ng_cache DemoNative.start = None ∧ ∃ m, ng_maps g2 = [m]))).
Proof.
  apply (native_open_close_balanced DemoImage.memory DemoNative.file_bytes DemoNative.place
    (DemoNative.system 0x300) DemoNative.sort DemoNative.sorts DemoNative.files DemoNative.fresh
    (Some "/lib"%string) DemoNative.start I).
  intros i Hi. apply list_elem_of_singleton in Hi. subst i. by apply DemoNative.header_fine.
Defined.

Lemma native_cache_transparent_witness : ∃ r g1 g2,
  bind_cache_symbols DemoImage.memory DemoNative.file_bytes DemoNative.place (DemoNative.system 0x100)
    DemoNative.sort DemoImage.base (HkImage None 0 0 0 0 0 0 []) DemoNative.start = Some (r, g1) ∧
  bind_cache_symbols DemoImage.memory DemoNative.file_bytes DemoNative.place (DemoNative.system 0x100)
    DemoNative.sort DemoImage.base (HkImage None 0 0 0 0 0 0 [])
    (DemoNative.start <| ng_heap := DemoNative.starved |>) = Some (r, g2) ∧
  ng_maps g1 = ng_maps g2.
Proof.
  apply (native_cache_transparent DemoImage.memory DemoNative.file_bytes DemoNative.place
    (DemoNative.system 0x100) DemoNative.sort DemoNative.sorts DemoNative.files); [reflexivity|].
  intros s g1 index Hl Hc. vm_compute in Hl. injection Hl as <- <-. vm_compute in Hc. injection Hc as <-.
  apply (bool_decide_unpack (NoDup _)). vm_compute. exact I.
Defined.

Lemma native_files_safe_witness :
  runs (parse_cache_symbols (memory_of 0 DemoNative.cache) 0 336) (λ r,
    ∀ s, r = Some s → cache_inside (memory_of 0 DemoNative.cache) 0 336 s).
Proof.
  apply (native_files_safe (memory_of 0 DemoNative.cache) 0 336).
  apply (readable_memory_of 0 DemoNative.cache), (bool_decide_unpack (Forall _ _)). vm_compute. exact I.
Defined.

Lemma native_find_first_witness :
  runs (@find_nlist_symbol (memory_of 0 DemoNative.cache) plain_pac
          (HkImage None 0x8000 280 1 296 8 0 [Z.shiftl 1 31]) (string_bytes "f")) (λ r,
    first_defined (H := plain_pac) (memory_of 0 DemoNative.cache)
      (HkImage None 0x8000 280 1 296 8 0 [Z.shiftl 1 31]) (string_bytes "f") 0 r).
Proof.
  apply (@native_find_first plain_pac (memory_of 0 DemoNative.cache)
    (HkImage None 0x8000 280 1 296 8 0 [Z.shiftl 1 31]) (string_bytes "f")).
  - split.
    + apply (readable_inside _ 0 336); [|repeat split; vm_compute; discriminate].
      apply (readable_memory_of 0 DemoNative.cache), (bool_decide_unpack (Forall _ _)). vm_compute. exact I.
    + intros i sym Hi Hat _. cbn in Hi. assert (i = 0) as -> by lia.
      vm_compute in Hat. injection Hat as <-. exists [95; 102]. split.
      * apply (bool_decide_unpack (Forall _ _)). vm_compute. exact I.
      * apply holdsb_holds. vm_compute. reflexivity.
  - apply (bool_decide_unpack (Forall _ _)). vm_compute. exact I.
  - cbn. lia.
Defined.

(** It is found at its slid address, once the cache is searched for it. *)
Example native_demo_found :
  fst <$> hk_native_find_loaded_cache_symbol (H := plain_pac) DemoImage.memory DemoNative.file_bytes
    DemoNative.place (DemoNative.system 0x100) DemoNative.sort DemoImage.base 0x8000
    (Some (string_bytes "f")) DemoNative.start
  = Some (0x8040, 0x40).
Proof. vm_compute. reflexivity. Qed.
