(* ===== verification/RuntimeSymbol.v ===== *)
(** * Symbols of a runtime's images (src/core/HKRuntimeSymbol.c)

    The lookup over the runtime's catalog (64-bit builds), and the one through the
    resolvers of the old vendor libraries (32-bit builds).  What dlsym, dlopen and
    those libraries' functions answer are parameters. *)

From stdpp Require Import base list strings numbers option.
From S2P Require Import Prelude Types Ownership ImageCatalog Memory MachO SymbolTable SymbolResolve RelocEngine PointerAuth NativeSymbols Artifacts Plan.

(** ** Through the catalog *)

(** [hk_runtime_symbol_lookup_t] without the name. *)
Record symbol_lookup : Type := SymbolLookup {
  sl_address : Z;
  sl_classification_failed : bool }.

#[export] Instance symbol_lookup_eta : Eta symbol_lookup := λ l,
  SymbolLookup (sl_address l) (sl_classification_failed l).

Section Catalog.
Context `{PacOps} (mem : memory).
(** [hk_native_find_loaded_cache_symbol], where it is compiled in. *)
Context (native : option (Z → Z → list Z → option (Z * Z))).
Context (symbol_name : list Z).

(** Whether the symbol is code: by its section where the symbol table names one,
    by its address otherwise. *)
Definition symbol_is_code (entry : hk_image_entry) (size : Z) (resolved : hk_symbol_resolution)
    : checked hk_macho_status bool :=
  if match sr_source resolved with HK_RESOLVE_SOURCE_SYMBOL_TABLE => true | _ => false end &&
     negb (sr_n_sect resolved =? 0)
  then
    flags <~ hk_macho_section_flags mem (ie_header entry) size (sr_n_sect resolved) ;;
    accept (hk_macho_section_is_code flags)
  else hk_macho_runtime_address_is_code mem (ie_header entry) size (ie_slide entry) (sr_address resolved).

(** What the visitor finds in an image; the context is lost where a read faults. *)
Definition visit_image (entry : hk_image_entry) (lookup : symbol_lookup) : option (bool * symbol_lookup) :=
  if ie_header entry =? 0 then Some (true, lookup)
  else
    header ← hk_macho_peek_header mem (ie_header entry) HK_MACHO_HEADER_64_SIZE;
    match header with
    | inl _ => Some (true, lookup)
    | inr header =>
        let size := HK_MACHO_HEADER_64_SIZE + mh_sizeofcmds header in
        '(status, out) ← hk_resolve_loaded_image_symbol mem native (ie_header entry) size
                           (ie_slide entry) (Some symbol_name) HK_SYMBOL_NAME_C
                           HK_SYMBOL_VISIBILITY_PRIVATE_ALLOWED;
        match status, out with
        | HK_RESOLVE_OK, Some resolved =>
            if sr_address resolved =? 0 then Some (true, lookup)
            else
              code ← symbol_is_code entry size resolved;
              match code with
              | inl _ => Some (false, lookup <| sl_classification_failed := true |>)
              | inr code =>
                  Some (false, lookup <| sl_address :=
                    (if code : bool then pac_make_callable (sr_address resolved) else sr_address resolved) |>)
              end
        | _, _ => Some (true, lookup)
        end
    end.

Definition hk_runtime_find_symbol_64 (_ : nat) (entry : hk_image_entry)
    : M (option symbol_lookup) bool := λ lookup,
  match lookup ≫= visit_image entry with
  | Some (go_on, lookup) => (go_on, Some lookup)
  | None => (false, None)
  end.
End Catalog.

(** The selector of the image path, or of every image. *)
Definition image_path_selector (image_path : option string) : image_selector :=
  Selector (match image_path with Some _ => HK_IMAGE_EXACT_PATH | None => HK_IMAGE_ANY_LOADED end)
    (SelectorExtra image_path zero_uuid 0) (SetNull 0).

(** [out_given] is whether there is a place for the address; the address is what
    is put there. *)
Definition hk_runtime_find_symbol `{PacOps} {E} (mem : memory)
    (native : option (Z → Z → list Z → option (Z * Z))) (runtime : option (hk_runtime E))
    (image_path : option string) (symbol_name : option (list Z)) (out_given : bool)
    : option (hk_status * Z) :=
  match runtime, symbol_name, out_given with
  | None, _, _ | _, None, _ | _, Some [], _ | _, _, false => Some (HK_STATUS_INVALID_ARGUMENT, 0)
  | Some runtime, Some name, true =>
      match rt_catalog runtime with
      | None => Some (HK_STATUS_UNAVAILABLE, 0)
      | Some catalog =>
          lookup ← (hk_image_catalog_match (Some catalog) (Some (image_path_selector image_path))
                      (Some (hk_runtime_find_symbol_64 mem native name))
                      (Some (SymbolLookup 0 false))).2;
          Some (if sl_classification_failed lookup then (HK_STATUS_UNAVAILABLE, 0)
                else if sl_address lookup =? 0 then (HK_STATUS_UNAVAILABLE, 0)
                else (HK_STATUS_OK, sl_address lookup))
      end
  end.

(** ** Through the old vendors' resolvers (32-bit builds) *)

Module Legacy.

Definition RTLD_DEFAULT : Z := -2.

(** What is loaded and what its functions answer: [dlsym] of a handle,
    [dlopen], and the five functions, each called through its pointer.  The
    last gives the address written for the name, 0 where none is. *)
Record vendor : Type := Vendor {
  v_dlsym : Z → list Z → Z;
  v_dlopen : string → Z;
  v_get_image : Z → option string → Z;
  v_find_symbol : Z → Z → list Z → Z;
  v_open_image : Z → option string → Z;
  v_find_private : Z → Z → list Z → Z }.

(** [hk_runtime_legacy_resolver_t] without its lock; 0 is NULL. *)
Record hk_runtime_legacy_resolver : Type := LegacyResolver {
  lr_handle : Z;
  lr_get_image : Z;
  lr_find_symbol : Z;
  lr_open_image : Z;
  lr_close_image : Z;
  lr_find_private : Z }.

(** [g_legacy_resolver], the libraries opened and not closed, and the substitute
    images opened and not closed. *)
Record process : Type := Process {
  pr_resolver : hk_runtime_legacy_resolver;
  pr_handles : list Z;
  pr_images : list Z }.

#[export] Instance process_eta : Eta process := λ p,
  Process (pr_resolver p) (pr_handles p) (pr_images p).

Section Code.
Context (v : vendor).
Local Abbreviation dlsym handle s := (v_dlsym v handle (string_bytes s)).

Definition hk_runtime_resolver_symbol (handle : Z) (first : string) (second : option string) : Z :=
  let symbol := dlsym handle first in
  if negb (symbol =? 0) then symbol
  else match second with Some second => dlsym handle second | None => 0 end.

(** One of the two interfaces is whole. *)
Definition usable (r : hk_runtime_legacy_resolver) : bool :=
  (negb (lr_get_image r =? 0) && negb (lr_find_symbol r =? 0)) ||
  (negb (lr_open_image r =? 0) && negb (lr_close_image r =? 0) && negb (lr_find_private r =? 0)).

(** The five functions as [handle] has them; the handle that is kept. *)
Definition functions_of (handle kept : Z) : hk_runtime_legacy_resolver :=
  LegacyResolver kept
    (hk_runtime_resolver_symbol handle "MSGetImageByName" (Some "SubGetImageByName"%string))
    (hk_runtime_resolver_symbol handle "MSFindSymbol" (Some "SubFindSymbol"%string))
    (dlsym handle "substitute_open_image") (dlsym handle "substitute_close_image")
    (dlsym handle "substitute_find_private_syms").

Definition paths : list string :=
  ["/usr/lib/libsubstitute.0.dylib";
   "/Library/Frameworks/CydiaSubstrate.framework/CydiaSubstrate"]%string.

Definition dlopen (path : string) : M process Z := λ p,
  let handle := v_dlopen v path in
  (handle, if handle =? 0 then p else p <| pr_handles := handle :: pr_handles p |>).

Definition dlclose (handle : Z) : M process unit := λ p,
  (tt, p <| pr_handles := remove_one handle (pr_handles p) |>).

Fixpoint load_paths (paths : list string) : M process bool :=
  match paths with
  | [] => ret false
  | path :: paths =>
      handle <- dlopen path ;;
      if handle =? 0 then load_paths paths
      else
        let functions := functions_of handle handle in
        if usable functions then
          _ <- modify (λ p, p <| pr_resolver := functions |>) ;; ret true
        else
          _ <- dlclose handle ;; load_paths paths
  end.

Definition hk_runtime_load_legacy_resolver_locked : M process bool := λ p,
  if usable (pr_resolver p) then (true, p)
  else
    let functions := functions_of RTLD_DEFAULT (lr_handle (pr_resolver p)) in
    if usable functions then (true, p <| pr_resolver := functions |>)
    else load_paths paths p.

Definition open_image (r : hk_runtime_legacy_resolver) (path : option string) : M process Z := λ p,
  let image := v_open_image v (lr_open_image r) path in
  (image, if image =? 0 then p else p <| pr_images := image :: pr_images p |>).

Definition close_image (image : Z) : M process unit := λ p,
  (tt, p <| pr_images := remove_one image (pr_images p) |>).

Definition find_in_substitute_image (r : hk_runtime_legacy_resolver) (path : option string)
    (symbol_name : list Z) : M process Z :=
  image <- open_image r path ;;
  if image =? 0 then ret 0
  else
    let address := v_find_private v (lr_find_private r) image symbol_name in
    _ <- close_image image ;; ret address.

Definition hk_runtime_find_legacy_in_image (path : option string) (symbol_name : list Z) : M process Z :=
  ready <- hk_runtime_load_legacy_resolver_locked ;;
  λ p,
    let r := pr_resolver p in
    if negb ready then (0, p)
    else
      let '(address, p) :=
        if negb (lr_open_image r =? 0) && negb (lr_close_image r =? 0) && negb (lr_find_private r =? 0)
        then find_in_substitute_image r path symbol_name p else (0, p) in
      if negb (address =? 0) then (address, p)
      else if negb (lr_get_image r =? 0) && negb (lr_find_symbol r =? 0) then
        let image := v_get_image v (lr_get_image r) path in
        (if negb (image =? 0) then v_find_symbol v (lr_find_symbol r) image symbol_name else 0, p)
      else (0, p).

(** The images dyld lists, by name. *)
Fixpoint find_in_images (names : list (option string)) (symbol_name : list Z) : M process Z :=
  match names with
  | [] => ret 0
  | None :: names => find_in_images names symbol_name
  | Some path :: names =>
      address <- hk_runtime_find_legacy_in_image (Some path) symbol_name ;;
      if negb (address =? 0) then ret address else find_in_images names symbol_name
  end.

Definition hk_runtime_find_symbol_legacy (names : list (option string)) (image_path : option string)
    (symbol_name : list Z) : M process Z :=
  match image_path with
  | Some _ => hk_runtime_find_legacy_in_image image_path symbol_name
  | None =>
      let address := v_dlsym v RTLD_DEFAULT symbol_name in
      let address :=
        match symbol_name with
        | 95 :: rest => if address =? 0 then v_dlsym v RTLD_DEFAULT rest else address
        | _ => address
        end in
      if negb (address =? 0) then ret address else find_in_images names symbol_name
  end.

(** [hk_runtime_find_symbol] of a 32-bit build. *)
Definition hk_runtime_find_symbol_32 (runtime_given : bool) (names : list (option string))
    (image_path : option string) (symbol_name : option (list Z)) (out_given : bool)
    : M process (hk_status * Z) :=
  match symbol_name with
  | Some ((_ :: _) as name) =>
      if runtime_given && out_given then
        address <- hk_runtime_find_symbol_legacy names image_path name ;;
        ret (if negb (address =? 0) then HK_STATUS_OK else HK_STATUS_UNAVAILABLE, address)
      else ret (HK_STATUS_INVALID_ARGUMENT, 0)
  | _ => ret (HK_STATUS_INVALID_ARGUMENT, 0)
  end.
End Code.
End Legacy.
