(* ===== verification/RuntimeSymbolSpec.v ===== *)
(** * Symbols of a runtime's images: which image answers, and what stays open *)

From stdpp Require Import base list strings numbers option sets.
From S2P Require Import Prelude Types Ownership ImageCatalog Memory MachO SymbolTable SymbolResolve RelocEngine PointerAuth NativeSymbols Artifacts Plan Demo RuntimeSymbol.

(** ** The lookup through the catalog *)

Section Lookup.
Context `{PacOps} (mem : memory) (native : option (Z → Z → list Z → option (Z * Z))) (name : list Z).

(** The images the lookup is about: those of that path, or all. *)
Definition images_of (image_path : option string) (entries : list hk_image_entry) : list hk_image_entry :=
  match image_path with
  | None => entries
  | Some path => filter (λ e, ie_path e = Some path) entries
  end.

Lemma matching_images_of image_path entries :
  matching (image_path_selector image_path) entries = images_of image_path entries.
Proof.
  assert (Hpath : ∀ e path, entry_matches_selector e (image_path_selector (Some path))
    = bool_decide (ie_path e = Some path)).
  { intros e path. cbn. destruct (ie_path e) as [q|]; [|done]. apply bool_decide_ext. split; congruence. }
  induction entries as [|e entries IH]; [by destruct image_path|]. rewrite matching_cons, IH.
  destruct image_path as [path|]; [|done]. rewrite Hpath. unfold images_of. rewrite filter_cons.
  case_bool_decide; [by rewrite decide_True|by rewrite decide_False].
Qed.

(** The symbol an image has, with the size of its commands: an image without a
    header, or that is no 64-bit Mach-O, has none, nor one whose symbol is at 0. *)
Definition image_symbol (e : hk_image_entry) : option (option (Z * hk_symbol_resolution)) :=
  if ie_header e =? 0 then Some None
  else
    header ← hk_macho_peek_header mem (ie_header e) HK_MACHO_HEADER_64_SIZE;
    match header with
    | inl _ => Some None
    | inr header =>
        let size := HK_MACHO_HEADER_64_SIZE + mh_sizeofcmds header in
        '(status, out) ← hk_resolve_loaded_image_symbol mem native (ie_header e) size (ie_slide e) (Some name)
                           HK_SYMBOL_NAME_C HK_SYMBOL_VISIBILITY_PRIVATE_ALLOWED;
        Some (match status, out with
              | HK_RESOLVE_OK, Some r => if sr_address r =? 0 then None else Some (size, r)
              | _, _ => None
              end)
    end.

(** The image may be read as far as the lookup does. *)
Definition image_readable (e : hk_image_entry) : Prop :=
  ∃ found, image_symbol e = Some found ∧
    ∀ size r, found = Some (size, r) → is_Some (symbol_is_code mem e size r).

(** What the images' own answers come to. *)
Fixpoint first_symbol (entries : list hk_image_entry) : option symbol_lookup :=
  match entries with
  | [] => Some (SymbolLookup 0 false)
  | e :: entries =>
      found ← image_symbol e;
      match found with
      | None => first_symbol entries
      | Some (size, r) =>
          code ← symbol_is_code mem e size r;
          Some (match code with
                | inl _ => SymbolLookup 0 true
                | inr code => SymbolLookup
                    (if code : bool then pac_make_callable (sr_address r) else sr_address r) false
                end)
      end
  end.

Lemma visit_image_symbol e : visit_image mem native name e (SymbolLookup 0 false) =
  found ← image_symbol e;
  match found with
  | None => Some (true, SymbolLookup 0 false)
  | Some (size, r) =>
      code ← symbol_is_code mem e size r;
      Some (false, match code with
                   | inl _ => SymbolLookup 0 true
                   | inr code => SymbolLookup
                       (if code : bool then pac_make_callable (sr_address r) else sr_address r) false
                   end)
  end.
Proof.
  unfold visit_image, image_symbol. destruct (ie_header e =? 0); [done|].
  destruct (hk_macho_peek_header _ _ _) as [[?|h]|]; cbn [mbind option_bind]; [done| |done].
  destruct (hk_resolve_loaded_image_symbol _ _ _ _ _ _ _ _) as [[status out]|]; cbn [mbind option_bind]; [|done].
  destruct status; try done. destruct out as [r|]; [|done]. destruct (sr_address r =? 0); [done|].
  by destruct (symbol_is_code mem e _ r) as [[|]|].
Qed.

Lemma catalog_lookup_first selector i entries :
  (catalog_match_loop selector (hk_runtime_find_symbol_64 mem native name) i entries
     (Some (SymbolLookup 0 false))).2 = first_symbol (matching selector entries).
Proof.
  revert i. induction entries as [|e entries IH]; intros i; [done|]. cbn [catalog_match_loop].
  rewrite matching_cons. destruct (entry_matches_selector e selector); [|apply IH]. cbn [first_symbol].
  unfold bind, hk_runtime_find_symbol_64 at 1. cbn [mbind option_bind]. rewrite visit_image_symbol.
  destruct (image_symbol e) as [[[size r]|]|]; cbn [mbind option_bind]; [| |done].
  - by destruct (symbol_is_code mem e size r).
  - specialize (IH (S i)). destruct (catalog_match_loop _ _ _ _ _) as [n l]. by rewrite <- IH.
Qed.

(** The images up to the first that has the symbol. *)
Lemma first_symbol_spec entries : Forall image_readable entries →
  (Forall (λ e, image_symbol e = Some None) entries ∧ first_symbol entries = Some (SymbolLookup 0 false)) ∨
  ∃ before e after size r code, entries = before ++ e :: after ∧
    Forall (λ e, image_symbol e = Some None) before ∧ image_symbol e = Some (Some (size, r)) ∧
    symbol_is_code mem e size r = Some code ∧
    first_symbol entries = Some (match code with
      | inl _ => SymbolLookup 0 true
      | inr code => SymbolLookup (if code : bool then pac_make_callable (sr_address r) else sr_address r) false
      end).
Proof.
  induction 1 as [|e entries (found & Ef & Hcode) Hr IH]; [by left|]. cbn [first_symbol]. rewrite Ef. cbn.
  destruct found as [[size r]|].
  - right. destruct (Hcode size r eq_refl) as [code Ec]. rewrite Ec. by exists [], e, entries, size, r, code.
  - destruct IH as [[Hn E]|(before & e' & after & size & r & code & -> & Hb & H1)]; [left|right].
    + split; [by constructor|done].
    + exists (e :: before), e', after, size, r, code. split; [done|]. split; [by constructor|done].
Qed.
End Lookup.

(** The lookup of a symbol in a runtime's images comes back, and one image
    decides it: the first in the catalog's order, among those of the path asked
    for, that has the symbol.  OK gives that symbol's address, signed when it is
    code and plain when it is data; UNAVAILABLE, with no address, is that no image
    has it, that nothing says whether it is code, or that no signed address
    exists. *)
Theorem runtime_symbol_first_image `{PacOps} {E} (mem : memory)
    (native : option (Z → Z → list Z → option (Z * Z))) (runtime : hk_runtime E) (catalog : hk_image_catalog)
    (image_path : option string) (name : list Z) :
  rt_catalog runtime = Some catalog → name ≠ [] →
  Forall (image_readable mem native name) (images_of image_path (ic_entries catalog)) →
  ∃ status address,
    hk_runtime_find_symbol mem native (Some runtime) image_path (Some name) true = Some (status, address) ∧
    (status = HK_STATUS_OK ∧ address ≠ 0 ∨ status = HK_STATUS_UNAVAILABLE ∧ address = 0) ∧
    (Forall (λ e, image_symbol mem native name e = Some None) (images_of image_path (ic_entries catalog)) ∧
       status = HK_STATUS_UNAVAILABLE ∨
     ∃ before e after size r code, images_of image_path (ic_entries catalog) = before ++ e :: after ∧
       Forall (λ e, image_symbol mem native name e = Some None) before ∧
       image_symbol mem native name e = Some (Some (size, r)) ∧ symbol_is_code mem e size r = Some code ∧
       match code with
       | inl _ => status = HK_STATUS_UNAVAILABLE
       | inr code => address = (if code : bool then pac_make_callable (sr_address r) else sr_address r)
       end).
Proof.
  intros Ec Hn Hr. unfold hk_runtime_find_symbol. destruct name as [|c name]; [done|]. rewrite Ec.
  cbn [hk_image_catalog_match]. rewrite catalog_lookup_first, matching_images_of.
  destruct (first_symbol_spec mem native (c :: name) _ Hr)
    as [[Hnone ->]|(before & e & after & size & r & code & Ee & Hb & Es & Eq & ->)]; cbn.
  - do 2 eexists. split; [done|]. split; [by right|]. by left.
  - destruct code as [|code]; cbn [sl_classification_failed sl_address].
    + do 2 eexists. split; [done|]. split; [by right|]. right. by exists before, e, after, size, r, (inl h).
    + set (address := if code then _ else _). destruct (Z.eqb_spec address 0) as [Ha|Ha].
      * do 2 eexists. split; [done|]. split; [by right|]. right. exists before, e, after, size, r, (inr code).
        by repeat split.
      * do 2 eexists. split; [done|]. split; [by left|]. right. exists before, e, after, size, r, (inr code).
        by repeat split.
Qed.

(** ** What the old vendors' lookup leaves open *)

Section Legacy.
Import Legacy.
Context (v : vendor).

(** The resolver is settled once, by the functions already in the process or by
    one library, which then stays open; nothing else does. *)
Definition settles (p p' : process) : Prop :=
  pr_images p' = pr_images p ∧
  (p' = p ∨
   usable (pr_resolver p) = false ∧ usable (pr_resolver p') = true ∧
   (pr_handles p' = pr_handles p ∧ pr_resolver p' = functions_of v RTLD_DEFAULT (lr_handle (pr_resolver p)) ∨
    ∃ path, path ∈ paths ∧ v_dlopen v path ≠ 0 ∧ pr_handles p' = v_dlopen v path :: pr_handles p ∧
      pr_resolver p' = functions_of v (v_dlopen v path) (v_dlopen v path))).

Lemma settles_refl p : settles p p.
Proof. split; [done|by left]. Qed.

Lemma settles_trans p p' p'' : settles p p' → settles p' p'' → settles p p''.
Proof.
  intros [Hi [->|(Hu & Hu' & Hc)]] [Hi' Hc']; [by split|]. split; [congruence|].
  destruct Hc' as [->|(Hu'' & _)]; [by right|congruence].
Qed.

Lemma load_paths_settles l p : usable (pr_resolver p) = false → l ⊆ paths →
  settles p (load_paths v l p).2 ∧ (load_paths v l p).1 = usable (pr_resolver (load_paths v l p).2).
Proof.
  intros Hu. revert p Hu. induction l as [|path l IH]; intros p Hu Hsub; cbn [load_paths].
  { split; [apply settles_refl|done]. }
  assert (Hl : l ⊆ paths) by set_solver. unfold bind, dlopen.
  destruct (Z.eqb_spec (v_dlopen v path) 0) as [E|E]; [by apply IH|].
  destruct (usable (functions_of v (v_dlopen v path) (v_dlopen v path))) eqn:Ef; cbn.
  - split; [|by rewrite Ef]. split; [done|]. right. split; [done|]. split; [done|]. right. exists path.
    split; [set_solver|done].
  - rewrite Z.eqb_refl. destruct p. by apply IH.
Qed.

Lemma load_settles p :
  settles p (hk_runtime_load_legacy_resolver_locked v p).2 ∧
  (hk_runtime_load_legacy_resolver_locked v p).1
  = usable (pr_resolver (hk_runtime_load_legacy_resolver_locked v p).2).
Proof.
  unfold hk_runtime_load_legacy_resolver_locked. destruct (usable (pr_resolver p)) eqn:Hu.
  { split; [apply settles_refl|done]. }
  cbv zeta. destruct (usable (functions_of v RTLD_DEFAULT _)) eqn:Ef; [|by apply load_paths_settles].
  cbn. split; [|by rewrite Ef]. split; [done|]. right. split; [done|]. split; [done|]. by left.
Qed.

Lemma substitute_image_closed r path name p : (find_in_substitute_image v r path name p).2 = p.
Proof.
  unfold find_in_substitute_image, bind, open_image. destruct (Z.eqb_spec (v_open_image v (lr_open_image r) path) 0);
    [done|]. cbn. rewrite Z.eqb_refl. by destruct p.
Qed.

Lemma find_in_image_settles path name p :
  settles p (hk_runtime_find_legacy_in_image v path name p).2 ∧
  ((hk_runtime_find_legacy_in_image v path name p).1 ≠ 0 →
   usable (pr_resolver (hk_runtime_find_legacy_in_image v path name p).2) = true).
Proof.
  unfold hk_runtime_find_legacy_in_image, bind. pose proof (load_settles p) as Hl.
  destruct (hk_runtime_load_legacy_resolver_locked v p) as [ready p1]. cbn [fst snd] in Hl.
  destruct Hl as [Hs ->]. destruct (usable (pr_resolver p1)) eqn:Hu; cbn [negb]; [|done].
  set (both := _ && _ && _). assert (∃ a, (if both then find_in_substitute_image v (pr_resolver p1) path name p1
    else (0, p1)) = (a, p1)) as [a ->].
  { destruct both; [|by exists 0]. pose proof (substitute_image_closed (pr_resolver p1) path name p1) as H.
    destruct (find_in_substitute_image _ _ _ _ _) as [a p2]. cbn in H. subst p2. by exists a. }
  destruct (negb (a =? 0)); [by split|]. match goal with |- context [if ?b then _ else _] => destruct b end; by split.
Qed.

Lemma find_in_images_settles names name p : settles p (find_in_images v names name p).2.
Proof.
  revert p. induction names as [|[path|] names IH]; intros p; cbn [find_in_images]; [apply settles_refl| |apply IH].
  unfold bind. pose proof (find_in_image_settles (Some path) name p) as [Hs _].
  destruct (hk_runtime_find_legacy_in_image v (Some path) name p) as [a p1]. cbn [fst snd] in Hs.
  destruct (negb (a =? 0)); [done|]. eapply settles_trans; [exact Hs|apply IH].
Qed.

(** A 32-bit lookup leaves no substitute image open and at most one library
    more than before, the one whose functions it keeps using: once a usable pair
    of functions is known no later lookup changes or reopens anything.  It says
    OK exactly with an address. *)
Theorem legacy_lookup_balanced runtime_given names image_path name out_given p :
  let '(status, address, p') :=
    hk_runtime_find_symbol_32 v runtime_given names image_path name out_given p in
  settles p p' ∧ (status = HK_STATUS_OK ↔ address ≠ 0) ∧ (usable (pr_resolver p) = true → p' = p).
Proof.
  enough (Hall : let '(_, _, p') := hk_runtime_find_symbol_32 v runtime_given names image_path name out_given p in
    settles p p').
  { assert (Hst : let '(status, address, _) :=
      hk_runtime_find_symbol_32 v runtime_given names image_path name out_given p in
      status = HK_STATUS_OK ↔ address ≠ 0).
    { unfold hk_runtime_find_symbol_32. destruct name as [[|c name]|]; try by cbn.
      destruct (runtime_given && out_given); [|by cbn]. unfold bind.
      destruct (hk_runtime_find_symbol_legacy _ _ _ _ _) as [a p']. cbn.
      destruct (Z.eqb_spec a 0); cbn; by split. }
    destruct (hk_runtime_find_symbol_32 _ _ _ _ _ _ _) as [[status address] p'].
    split; [done|]. split; [done|]. intros Hu. destruct Hall as [_ [->|(Hu' & _)]]; congruence. }
  unfold hk_runtime_find_symbol_32. destruct name as [[|c name]|]; try apply settles_refl.
  destruct (runtime_given && out_given); [|apply settles_refl]. unfold bind.
  enough (Hs : settles p (hk_runtime_find_symbol_legacy v names image_path (c :: name) p).2).
  { by destruct (hk_runtime_find_symbol_legacy _ _ _ _ _). }
  unfold hk_runtime_find_symbol_legacy. destruct image_path as [path|]; [apply find_in_image_settles|].
  destruct (negb _); [apply settles_refl|apply find_in_images_settles].
Qed.
End Legacy.

(** ** A runtime with two images, the first without a header *)

Module DemoSymbols.
Definition first : hk_image_entry := ImageEntry (Some "/a"%string) None 0 0 false.
Definition second : hk_image_entry := ImageEntry (Some "/lib"%string) None DemoImage.base 0x8000 false.
Definition catalog : hk_image_catalog := ImageCatalog [first; second] 2 1.
Definition runtime : hk_runtime unit := Demo.runtime <| rt_catalog := Some catalog |>.
(** The shared cache's symbols have it in the data section. *)
Definition native : option (Z → Z → list Z → option (Z * Z)) := Some (λ _ _ _, Some (0x10000, 0x8000)).
End DemoSymbols.

Lemma runtime_symbol_first_image_witness : ∃ status address,
  hk_runtime_find_symbol (H := plain_pac) DemoImage.memory DemoSymbols.native (Some DemoSymbols.runtime) None
    (Some (string_bytes "ok")) true = Some (status, address) ∧ status = HK_STATUS_OK ∧ address = 0x10000.
Proof.
  destruct (@runtime_symbol_first_image plain_pac unit DemoImage.memory DemoSymbols.native DemoSymbols.runtime
    DemoSymbols.catalog None (string_bytes "ok") eq_refl ltac:(discriminate)) as (status & address & E & _).
  - apply Forall_cons. split; [by exists None|]. apply Forall_cons. split; [|apply Forall_nil; exact I].
    eexists. split; [vm_compute; reflexivity|]. intros size r [= <- <-]. vm_compute. by eexists.
  - exists status, address. split; [exact E|]. vm_compute in E. by injection E as <- <-.
Defined.
