(* ===== verification/Vendors.v ===== *)
(** * The vendors' libraries (the platform bindings of src/core/HKRuntime.c)

    Finding a vendor's library in the jailbreak's root, binding its functions and
    calling them, for Dobby, Gum, ElleKit and Substitute.  What dlopen, dlsym,
    dladdr, the preflight and the vendors' functions answer is the environment;
    the libraries opened, the files mapped and the calls made are in the state. *)

From Stdlib Require Import String.
From stdpp Require Import base list strings numbers option.
From S2P Require Import Prelude Types Ownership Artifacts Engine Memory Faults MachO SymbolTable SymbolResolve RebindCache NativeSymbols ProviderEngine.

Open Scope list_scope.
Open Scope Z_scope.

(** ** The environment *)

(** How paths of the root are found: as they are, by libroot, or by libroothide. *)
Inductive jb_scheme : Type :=
  | Rootful | Rootless (libroot : string → option string) | Roothide (jbroot : string → option string).

Record vendor_env : Type := VendorEnv {
  ve_scheme : jb_scheme;
  ve_file : string → option (list Z);
  ve_place : list mapping → Z → option Z;
  ve_memory : memory;
  ve_preflight : string → bool;
  ve_dlopen : string → Z;
  ve_dlsym : Z → string → Z;
  ve_dladdr : Z → option string;
  (** A vendor's hook function, called for a target, a replacement and what the
      original's cell holds, if there is one: its code and what the cell holds
      then; for the one without a code, what [errno] is. *)
  ve_hook : Z → Z → Z → option Z → Z * Z;
  ve_dobby : Z → Z → option Z → Z * Z;
  (** The inline preflight of a target: 0, or its error. *)
  ve_inline_preflight : Z → Z → Z → Z * Z;
  ve_inline_preflight_basic : Z → Z → Z * Z;
  (** What [vm_read] copies. *)
  ve_vm_read : Z → Z → option (list Z);
  ve_thumb : bool }.

Definition PATH_MAX : Z := 1024.

Definition hk_jb_path (env : vendor_env) (path : string) : string :=
  match ve_scheme env with
  | Roothide jbroot => default path (jbroot path)
  | Rootless libroot =>
      match libroot path with
      | Some resolved => if Z.of_nat (String.length resolved) <? PATH_MAX then resolved else path
      | None => path
      end
  | Rootful => path
  end.

(** ** The state *)

Record gum_state : Type := GumState {
  gm_handle : Z; gm_hook : Z; gm_begin_transaction : Z; gm_end_transaction : Z }.
Record ellekit_state : Type := EllekitState { ek_handle : Z; ek_hook_functions : Z }.
Record substitute_state : Type := SubstituteState { sb_handle : Z; sb_native_hook : Z; sb_ms_hook : Z }.

#[export] Instance substitute_state_eta : Eta substitute_state := λ s,
  SubstituteState (sb_handle s) (sb_native_hook s) (sb_ms_hook s).

(** What was called, by its pointer. *)
Inductive vendor_call : Type :=
  | CallPlain (f : Z)
  | CallHook (f target replacement : Z).

(** The three states and the memoised verdicts, [None] for -1; beside them what is
    open, mapped and was called, newest first. *)
Record vendors : Type := Vendors {
  vs_gum : gum_state;
  vs_ellekit : ellekit_state;
  vs_substitute : substitute_state;
  vs_gum_cached : option bool;
  vs_ellekit_cached : option bool;
  vs_substitute_cached : option bool;
  vs_handles : list Z;
  vs_maps : list mapping;
  vs_calls : list vendor_call }.

#[export] Instance vendors_eta : Eta vendors := λ s,
  Vendors (vs_gum s) (vs_ellekit s) (vs_substitute s) (vs_gum_cached s) (vs_ellekit_cached s)
    (vs_substitute_cached s) (vs_handles s) (vs_maps s) (vs_calls s).

Definition HK_PLATFORM_DOBBY_INSPECTION_BYTES : Z := 16.
Definition RTLD_DEFAULT_HANDLE : Z := -2.

Section Bindings.
Context (env : vendor_env).

(** ** Is a symbol exported by a file *)

(** A resolution that succeeds, in the sources of one image. *)
Definition image_exports (mem : memory) (sources : hk_symbol_sources) (symbol : string) : option bool :=
  '(status, _) ← hk_resolve_symbol mem sources (Some (string_bytes symbol)) HK_SYMBOL_NAME_C
                   HK_SYMBOL_VISIBILITY_ANY;
  Some (bool_decide (status = HK_RESOLVE_OK)).

Definition CPU_TYPE_ARM64 : Z := 0x0100000C.

(** In a file mapped at [map]: a thin image, or the arm64 slice of a fat one. *)
Definition mapped_exports (mem : memory) (map size : Z) (symbol : string) : option bool :=
  thin ← hk_symbol_sources_from_file_image mem map size;
  match thin with
  | inr sources => image_exports mem sources symbol
  | inl _ =>
      first ← hk_macho_select_slice mem map size CPU_TYPE_ARM64 0;
      slice ← (match first with
               | inr slice => accept slice
               | inl _ => hk_macho_select_slice mem map size (Z.lor CPU_TYPE_ARM64 0x01000000) 0
               end);
      match slice with
      | inl _ => Some false
      | inr (slice, slice_size) =>
          sources ← hk_symbol_sources_from_file_image mem slice slice_size;
          match sources with
          | inr sources => image_exports mem sources symbol
          | inl _ => Some false
          end
      end
  end.

Definition hk_platform_file_exports (path symbol : string) : F vendors bool := λ s,
  match ve_file env path with
  | None => Some (false, s)
  | Some bytes =>
      let size := Z.of_nat (length bytes) in
      if size <? HK_MACHO_HEADER_64_SIZE then Some (false, s)
      else
        match ve_place env (vs_maps s) size with
        | None => Some (false, s)
        | Some map =>
            let s := s <| vs_maps := (map, bytes) :: vs_maps s |> in
            found ← mapped_exports (live_memory (ve_memory env) (vs_maps s)) map size symbol;
            Some (found, s <| vs_maps := filter (λ m : mapping, m.1 ≠ map) (vs_maps s) |>)
        end
  end.

(** [a && b] of tests that map files. *)
Definition fand (a b : F vendors bool) : F vendors bool :=
  x <-- a ;; if x : bool then b else fret false.
Definition for_ (a b : F vendors bool) : F vendors bool :=
  x <-- a ;; if x : bool then fret true else b.
Definition fnot (a : F vendors bool) : F vendors bool := x <-- a ;; fret (negb x).

(** [dlopen_preflight(path) && hk_platform_file_exports(path, symbol)] *)
Definition loadable (path symbol : string) : F vendors bool :=
  let path := hk_jb_path env path in
  fand (fret (ve_preflight env path)) (hk_platform_file_exports path symbol).

(** ** Opening a library *)

Definition provider_dlopen (path : string) : M vendors Z := λ s,
  let handle := ve_dlopen env (hk_jb_path env path) in
  (handle, if handle =? 0 then s else s <| vs_handles := handle :: vs_handles s |>).

Definition provider_dlclose (handle : Z) : M vendors unit :=
  modify (λ s, s <| vs_handles := remove_one handle (vs_handles s) |>).

Definition provider_load_effects : Z :=
  bits_of [HK_EFFECT_PROVIDER_IMAGE_LOAD; HK_EFFECT_PROVIDER_ACTIVATION; HK_EFFECT_UNKNOWN_PROCESS_MUTATION].

Definition call (c : vendor_call) : M vendors unit := modify (λ s, s <| vs_calls := c :: vs_calls s |>).

(** A hook function, called and recorded. *)
Definition call_hook (f target replacement : Z) (cell : option Z) : M vendors (Z * Z) :=
  _ <- call (CallHook f target replacement) ;; ret (ve_hook env f target replacement cell).

Definition refused (code : Z) (message : string) (diag : hk_prepare_diag) : bool * hk_prepare_diag :=
  (false, diag <| pd_error_code := code |> <| pd_error_message := Some message |>).

Definition address_of (spec : hk_hook_spec) : Z :=
  match hs_target spec with TAddress a => ad_address a | _ => 0 end.

(** ** Dobby *)

Definition hk_platform_dobby_validate (spec : hk_hook_spec) (diag : hk_prepare_diag)
    : bool * hk_prepare_diag :=
  let '(status, provider_error) :=
    ve_inline_preflight env (address_of spec) (hs_replacement spec) HK_PLATFORM_DOBBY_INSPECTION_BYTES in
  if status =? 0 then (true, diag)
  else refused provider_error "Dobby preflight refused the target" diag.

Definition hk_platform_dobby_hook (target replacement : Z) (cell : option Z) : M vendors (Z * Z) :=
  ret (ve_dobby env target replacement cell).

(** The preflight Gum and ElleKit have in common. *)
Definition basic_validate (message : string) (spec : hk_hook_spec) (diag : hk_prepare_diag)
    : bool * hk_prepare_diag :=
  let '(status, provider_error) :=
    ve_inline_preflight_basic env (address_of spec) (hs_replacement spec) in
  if status =? 0 then (true, diag) else refused provider_error message diag.

(** ** Gum *)

Definition gum_path : string := "/usr/lib/HKGum.dylib".

Definition hk_platform_gum_discover : F vendors bool := λ s,
  match vs_gum_cached s with
  | Some available => Some (available, s)
  | None =>
      '(available, s) ← loadable gum_path "hkgum_hook_function" s;
      Some (available, s <| vs_gum_cached := Some available |>)
  end.

Definition hk_platform_gum_validate : hk_hook_spec → hk_prepare_diag → bool * hk_prepare_diag :=
  basic_validate "Gum preflight refused the target".

Definition gum_bound (g : gum_state) : bool :=
  negb (gm_hook g =? 0) && negb (gm_begin_transaction g =? 0) && negb (gm_end_transaction g =? 0).

(** Opening the library, where no hook function is bound: whether it was activated
    now, and what is to be reported of it. *)
Definition gum_activate (diag : hk_prepare_diag) : M vendors (bool * hk_prepare_diag) :=
  handle <- provider_dlopen gum_path ;;
  if handle =? 0 then ret (false, diag)
  else
    let state := GumState handle (ve_dlsym env handle "hkgum_hook_function")
                   (ve_dlsym env handle "hkgum_begin_transaction")
                   (ve_dlsym env handle "hkgum_end_transaction") in
    if gum_bound state then
      _ <- modify (λ s, s <| vs_gum := state |>) ;; ret (true, diag)
    else
      _ <- provider_dlclose handle ;; ret (false, diag <| pd_observed_effects := provider_load_effects |>).

Definition hk_platform_gum_prepare (diag : hk_prepare_diag) : M vendors (bool * hk_prepare_diag) := λ s,
  let '((activated_now, diag), s) :=
    if gm_hook (vs_gum s) =? 0 then gum_activate diag s else ((false, diag), s) in
  if negb (gum_bound (vs_gum s)) then
    ((false, diag <| pd_error_message :=
        Some "HKGum.dylib is unavailable or has an incomplete wrapper ABI"%string |>), s)
  else ((true, if activated_now : bool then diag <| pd_observed_effects := provider_load_effects |> else diag), s).

(** [None] is the -1 of a binding that is not there. *)
Definition hk_platform_gum_hook (target replacement : Z) (cell : option Z) : M vendors (Z * Z) := λ s,
  let g := vs_gum s in
  if negb (gum_bound g) then ((-1, default 0 cell), s)
  else
    (_ <- call (CallPlain (gm_begin_transaction g)) ;;
     result <- call_hook (gm_hook g) target replacement cell ;;
     _ <- call (CallPlain (gm_end_transaction g)) ;;
     ret result) s.

(** ** ElleKit *)

Definition ellekit_paths : list string := ["/usr/lib/libellekit.dylib"; "/usr/lib/libhooker.dylib"]%string.

(** The first of the paths that is the library. *)
Fixpoint any_loadable (paths : list string) (symbol : string) : F vendors bool :=
  match paths with
  | [] => fret false
  | path :: paths => for_ (loadable path symbol) (any_loadable paths symbol)
  end.

Definition hk_platform_ellekit_discover : F vendors bool := λ s,
  match vs_ellekit_cached s with
  | Some available => Some (available, s)
  | None =>
      '(available, s) ← any_loadable ellekit_paths "LHHookFunctions" s;
      Some (available, s <| vs_ellekit_cached := Some available |>)
  end.

Definition hk_platform_ellekit_validate : hk_hook_spec → hk_prepare_diag → bool * hk_prepare_diag :=
  basic_validate "ElleKit preflight refused the target".

Fixpoint ellekit_activate (paths : list string) (diag : hk_prepare_diag)
    : M vendors (bool * hk_prepare_diag) :=
  match paths with
  | [] => ret (false, diag)
  | path :: paths =>
      handle <- provider_dlopen path ;;
      if handle =? 0 then ellekit_activate paths diag
      else
        let hook_functions := ve_dlsym env handle "LHHookFunctions" in
        if negb (hook_functions =? 0) && negb (ve_dlsym env handle "EKHookFunction" =? 0) then
          _ <- modify (λ s, s <| vs_ellekit := EllekitState handle hook_functions |>) ;; ret (true, diag)
        else
          _ <- provider_dlclose handle ;;
          ellekit_activate paths (diag <| pd_observed_effects := provider_load_effects |>)
  end.

Definition hk_platform_ellekit_prepare (diag : hk_prepare_diag) : M vendors (bool * hk_prepare_diag) := λ s,
  let '((activated_now, diag), s) :=
    if ek_hook_functions (vs_ellekit s) =? 0 then ellekit_activate ellekit_paths diag s
    else ((false, diag), s) in
  if ek_hook_functions (vs_ellekit s) =? 0 then
    ((false, diag <| pd_error_message :=
        Some "ElleKit is unavailable or lacks its marker/libhooker ABI"%string |>), s)
  else ((true, if activated_now : bool then diag <| pd_observed_effects := provider_load_effects |> else diag), s).

Definition hk_platform_ellekit_hook (target replacement : Z) (cell : option Z) : M vendors (Z * Z) := λ s,
  if ek_hook_functions (vs_ellekit s) =? 0 then ((-1, default 0 cell), s)
  else call_hook (ek_hook_functions (vs_ellekit s)) target replacement cell s.

(** ** Substitute *)

Definition substitute_bound (t : substitute_state) : bool :=
  negb (sb_native_hook t =? 0) || negb (sb_ms_hook t =? 0).

Definition substitute_paths : list string :=
  ["/usr/lib/libsubstitute.0.dylib";
   "/Library/Frameworks/CydiaSubstrate.framework/CydiaSubstrate"]%string.

(** The two functions as [handle] has them; the handle that is kept. *)
Definition substitute_functions (handle kept : Z) : substitute_state :=
  let ms_hook := ve_dlsym env handle "MSHookFunction" in
  SubstituteState kept (ve_dlsym env handle "substitute_hook_functions")
    (if ms_hook =? 0 then ve_dlsym env handle "SubHookFunction" else ms_hook).

Fixpoint substitute_open (paths : list string) : M vendors bool :=
  match paths with
  | [] => ret false
  | path :: paths =>
      handle <- provider_dlopen path ;;
      if handle =? 0 then substitute_open paths
      else
        let state := substitute_functions handle handle in
        if substitute_bound state then _ <- modify (λ s, s <| vs_substitute := state |>) ;; ret true
        else _ <- provider_dlclose handle ;; substitute_open paths
  end.

(** What the process has already is stored before it is tested. *)
Definition hk_platform_substitute_load_locked : M vendors bool := λ s,
  if substitute_bound (vs_substitute s) then (true, s)
  else
    let s := s <| vs_substitute := substitute_functions RTLD_DEFAULT_HANDLE (sb_handle (vs_substitute s)) |> in
    if substitute_bound (vs_substitute s) then (true, s) else substitute_open substitute_paths s.

Definition strstr (s needle : string) : bool :=
  match String.index 0 needle s with Some _ => true | None => false end.

(** A hook function that is Substitute's by the name of its image. *)
Definition from_substitute (ellekit_names : list string) (f : Z) : bool :=
  if f =? 0 then false
  else
    match ve_dladdr env f with
    | None => false
    | Some fname =>
        (strstr fname "substitute" || strstr fname "CydiaSubstrate") &&
        negb (existsb (strstr fname) ellekit_names)
    end.

(** The verdict over the files. *)
Definition substitute_files : F vendors bool :=
  has_substitute <-- for_ (loadable "/usr/lib/libsubstitute.0.dylib" "substitute_hook_functions")
                          (loadable "/usr/lib/libsubstitute.0.dylib" "SubHookFunction") ;;
  has_cydia <-- fand (loadable "/Library/Frameworks/CydiaSubstrate.framework/CydiaSubstrate" "MSHookFunction")
                     (fnot (hk_platform_file_exports
                       (hk_jb_path env "/Library/Frameworks/CydiaSubstrate.framework/CydiaSubstrate")
                       "LHHookFunctions")) ;;
  has_ellekit <-- for_ (loadable "/usr/lib/libellekit.dylib" "LHHookFunctions")
                       (loadable "/usr/lib/libhooker.dylib" "LHHookFunctions") ;;
  fret (has_substitute || has_cydia && negb has_ellekit).

(** What the process has now, before any file is looked at. *)
Definition substitute_live (t : substitute_state) : bool :=
  substitute_bound t ||
  negb (ve_dlsym env RTLD_DEFAULT_HANDLE "substitute_hook_functions" =? 0) ||
  from_substitute ["ellekit"; "hooker"; "libhooker"]%string (ve_dlsym env RTLD_DEFAULT_HANDLE "MSHookFunction") ||
  from_substitute ["ellekit"; "hooker"]%string (ve_dlsym env RTLD_DEFAULT_HANDLE "SubHookFunction").

Definition hk_platform_substitute_discover : F vendors bool := λ s,
  if substitute_live (vs_substitute s) then Some (true, s)
  else
    match vs_substitute_cached s with
    | Some available => Some (available, s)
    | None =>
        '(available, s) ← substitute_files s;
        Some (available, s <| vs_substitute_cached := Some available |>)
    end.

Definition hk_platform_substitute_prepare (diag : hk_prepare_diag) : M vendors (bool * hk_prepare_diag) := λ s,
  let was_loaded := substitute_bound (vs_substitute s) in
  let '(ready, s) := hk_platform_substitute_load_locked s in
  if negb ready then
    ((false, diag <| pd_error_message :=
        Some "Substitute/Cydia Substrate function-hook ABI is unavailable"%string |>), s)
  else ((true, if was_loaded then diag else diag <| pd_observed_effects := provider_load_effects |>), s).

Definition hk_platform_substitute_validate (spec : option hk_hook_spec) (diag : hk_prepare_diag)
    : bool * hk_prepare_diag :=
  match spec with
  | Some spec =>
      if (address_of spec =? 0) || (hs_replacement spec =? 0)
      then (false, diag <| pd_error_message := Some "invalid Substitute function target"%string |>)
      else (true, diag)
  | None => (false, diag <| pd_error_message := Some "invalid Substitute function target"%string |>)
  end.

(** The bytes read, [None] where the code refuses; [out_given] is whether there is
    a place for them. *)
Definition hk_platform_substitute_read (target : Z) (out_given : bool) (size : Z) : option (list Z) :=
  if (target =? 0) || negb out_given || (size =? 0) || (2 ^ 32 - 1 <? size) then None
  else
    let address := if ve_thumb env then Z.land target (Z.lnot 1) else target in
    copied ← ve_vm_read env address size;
    if negb (Z.of_nat (length copied) =? size) then None else Some copied.

Definition hk_platform_substitute_hook (target replacement : Z) (cell : option Z) : M vendors (Z * Z) := λ s,
  let t := vs_substitute s in
  if negb (sb_native_hook t =? 0) then call_hook (sb_native_hook t) target replacement cell s
  else if sb_ms_hook t =? 0 then ((-1, default 0 cell), s)
  else
    let '((errno, output), s) := call_hook (sb_ms_hook t) target replacement (Some (default 0 cell)) s in
    ((if (errno =? 0) && negb (output =? 0) then 0 else -1, output), s).
End Bindings.
