(* ===== verification/VendorsSpec.v ===== *)
(** * The vendors' libraries: verdicts, bindings and what stays open

    Over any sequence of discoveries, preparations and hooks: a memoised verdict
    is the one a fresh look would give, the libraries open are those whose
    functions are bound, no file stays mapped, and a library that was opened is
    reported. *)

From stdpp Require Import base list strings numbers option sets.
From S2P Require Import Prelude Types Ownership Artifacts Engine Memory Faults MachO MachOSpec SymbolTable SymbolResolve ResolverSafety RebindCache NativeSymbols NativeSymbolsSpec ProviderEngine Vendors.

(** ** A look at the files changes nothing *)

Section Look.
Context (env : vendor_env).
Context (Hfiles : files_are_bytes (ve_file env)) (Hplace : place_fresh (ve_place env)).

(** A test whose answer depends on the mappings alone, and which keeps them. *)
Definition answers (m : F vendors bool) (maps : list mapping) (b : bool) : Prop :=
  ∀ s, vs_maps s = maps → m s = Some (b, s).
Definition looks (m : F vendors bool) : Prop := ∀ maps, ∃ b, answers m maps b.

Lemma runs_image_exports mem sources symbol : sources_ok mem sources → cstring (string_bytes symbol) →
  runs (image_exports mem sources symbol) (λ _, True).
Proof.
  intros Hs Hc. unfold image_exports. eapply runs_bind; [apply runs_resolve_symbol; [done|]|].
  - by intros n [= <-].
  - by intros [status out] _.
Qed.

Lemma runs_mapped_exports mem map size symbol : readable mem map size → cstring (string_bytes symbol) →
  runs (mapped_exports mem map size symbol) (λ _, True).
Proof.
  intros Hr Hc. unfold mapped_exports.
  eapply runs_bind; [by apply runs_sources_from_file|]. intros [status|sources] Hs; [|by apply runs_image_exports].
  eapply runs_bind; [apply (runs_select_slice Hr)|]. intros first Hfirst.
  set (ok := λ s : Z * Z, map <= s.1 ∧ 0 <= s.2 ∧ s.1 + s.2 <= map + size).
  eapply runs_bind with (R := accepted ok).
  - destruct first as [st|slice].
    + eapply runs_conseq; [apply (runs_select_slice Hr)|]. intros [|s]; [done|]. intros (? & ? & ? & _). done.
    + destruct Hfirst as (? & ? & ? & _). done.
  - intros [st|[slice slice_size]] Hslice; [done|]. destruct Hslice as (H1 & H2 & H3). cbn in H1, H2, H3.
    assert (Hsub : readable mem slice slice_size).
    { replace slice with (map + (slice - map)) by lia. eapply readable_sub; [exact Hr|lia|lia]. }
    eapply runs_bind; [by apply runs_sources_from_file|]. intros [?|sources] Hs'; [done|].
    by apply runs_image_exports.
Qed.

Lemma looks_file_exports path symbol : cstring (string_bytes symbol) →
  looks (hk_platform_file_exports env path symbol).
Proof.
  intros Hc maps. unfold answers, hk_platform_file_exports.
  destruct (ve_file env path) as [bytes|] eqn:Ef; [|by exists false].
  destruct (_ <? _); [by exists false|].
  destruct (ve_place env maps (Z.of_nat (length bytes))) as [map|] eqn:Ep.
  2: { exists false. intros s <-. by rewrite Ep. }
  pose proof (live_memory_head (ve_memory env) map bytes maps (Hfiles _ _ Ef)) as Hr.
  pose proof (runs_mapped_exports _ _ _ symbol Hr Hc) as Hx. apply runs_some in Hx as (b & Eb & _).
  exists b. intros s <-. rewrite Ep. cbn [set_field vs_maps]. rewrite Eb. cbn [mbind option_bind].
  do 2 f_equal. destruct s. cbn in *. f_equal. apply (unmapped_fresh (ve_place env) (map, bytes)). intros m Hm. by eapply Hplace.
Qed.

Lemma looks_fret b : looks (fret b).
Proof. intros maps. exists b. by intros s _. Qed.

Lemma looks_bind m (k : bool → F vendors bool) : looks m → (∀ b, looks (k b)) → looks (fbind m k).
Proof.
  intros Hm Hk maps. destruct (Hm maps) as [a Ha]. destruct (Hk a maps) as [b Hb]. exists b. intros s Hs.
  unfold fbind. rewrite (Ha s Hs). cbn. by apply Hb.
Qed.

Lemma looks_and a b : looks a → looks b → looks (fand a b).
Proof. intros Ha Hb. apply looks_bind; [done|]. intros [|]; [done|apply looks_fret]. Qed.

Lemma looks_or a b : looks a → looks b → looks (for_ a b).
Proof. intros Ha Hb. apply looks_bind; [done|]. intros [|]; [apply looks_fret|done]. Qed.

Lemma looks_not a : looks a → looks (fnot a).
Proof. intros Ha. apply looks_bind; [done|]. intros b. apply looks_fret. Qed.

Lemma looks_loadable path symbol : cstring (string_bytes symbol) → looks (loadable env path symbol).
Proof. intros Hc. apply looks_and; [apply looks_fret|by apply looks_file_exports]. Qed.

(** The names looked for are C strings. *)
Ltac name := apply (bool_decide_unpack (Forall _ _)); vm_compute; exact I.

Lemma looks_gum : looks (loadable env gum_path "hkgum_hook_function").
Proof. apply looks_loadable. name. Qed.

Lemma looks_ellekit : looks (any_loadable env ellekit_paths "LHHookFunctions").
Proof. repeat first [apply looks_or|apply looks_loadable; name|apply looks_fret]. Qed.

Lemma looks_substitute : looks (substitute_files env).
Proof.
  unfold substitute_files.
  repeat first [apply looks_fret|apply looks_loadable; name|apply looks_file_exports; name|apply looks_or
               |apply looks_and|apply looks_not|apply looks_bind; [|intros ?]].
Qed.
End Look.

(** ** What is bound is open *)

Section Owned.
Context (env : vendor_env).

Definition handle_of (h : Z) : list Z := if h =? 0 then [] else [h].

(** Each binding is whole or not there, and the libraries open are those bound. *)
Definition owned (s : vendors) : Prop :=
  (gum_bound (vs_gum s) = true ∨ vs_gum s = GumState 0 0 0 0) ∧
  (ek_hook_functions (vs_ellekit s) ≠ 0 ∨ vs_ellekit s = EllekitState 0 0) ∧
  (substitute_bound (vs_substitute s) = true ∨ vs_substitute s = SubstituteState 0 0 0) ∧
  vs_handles s ≡ₚ handle_of (gm_handle (vs_gum s)) ++ handle_of (ek_handle (vs_ellekit s)) ++
                  handle_of (sb_handle (vs_substitute s)).

(** What binding leaves alone. *)
Definition same_looks (s s' : vendors) : Prop :=
  vs_maps s' = vs_maps s ∧ vs_gum_cached s' = vs_gum_cached s ∧ vs_ellekit_cached s' = vs_ellekit_cached s ∧
  vs_substitute_cached s' = vs_substitute_cached s ∧ vs_calls s' = vs_calls s.

Lemma same_looks_refl s : same_looks s s.
Proof. done. Qed.

Definition opens (path : string) : bool := negb (ve_dlopen env (hk_jb_path env path) =? 0).

Lemma provider_dlopen_closed path s :
  let '(h, s1) := provider_dlopen env path s in
  h = ve_dlopen env (hk_jb_path env path) ∧ (h = 0 → s1 = s) ∧
  (h ≠ 0 → s1 = s <| vs_handles := h :: vs_handles s |> ∧ (provider_dlclose h s1).2 = s).
Proof.
  unfold provider_dlopen. split; [done|]. destruct (Z.eqb_spec (ve_dlopen env (hk_jb_path env path)) 0) as [E|E]; [done|].
  split; [done|]. intros _. split; [done|]. unfold provider_dlclose, modify. cbn. rewrite Z.eqb_refl. by destruct s.
Qed.

Lemma handle_of_some h : h ≠ 0 → handle_of h = [h].
Proof. intros H. unfold handle_of. by rewrite (proj2 (Z.eqb_neq h 0)). Qed.

Lemma prepare_gum diag s : owned s →
  let '((ok, diag'), s') := hk_platform_gum_prepare env diag s in
  owned s' ∧ same_looks s s' ∧ ok = gum_bound (vs_gum s') ∧
  pd_observed_effects diag' = if negb (gum_bound (vs_gum s)) && opens gum_path
                              then provider_load_effects else pd_observed_effects diag.
Proof.
  intros (Hg & He & Ht & Hp). unfold hk_platform_gum_prepare.
  destruct Hg as [Hg|Hg].
  { assert ((gm_hook (vs_gum s) =? 0) = false) as ->.
    { unfold gum_bound in Hg. destruct (gm_hook (vs_gum s) =? 0); done. }
    cbv beta iota. rewrite Hg. cbn. split; [|done]. split; [by left|done]. }
  rewrite Hg. cbn [gm_hook Z.eqb]. unfold gum_activate, bind, opens. pose proof (provider_dlopen_closed gum_path s) as Hd.
  destruct (provider_dlopen env gum_path s) as [h s1]. destruct Hd as (-> & H0 & H1).
  destruct (Z.eqb_spec (ve_dlopen env (hk_jb_path env gum_path)) 0) as [E|E].
  { rewrite (H0 E). cbn. rewrite Hg. cbn.
    split; [by split; [right|]|]. rewrite Hg. done. }
  destruct (H1 E) as [-> Hclose]. set (h := ve_dlopen _ _) in *.
  destruct (gum_bound (GumState h _ _ _)) eqn:Hb.
  - cbn [modify ret fst snd vs_gum set_field]. rewrite Hb. cbn. split; [|done]. split; [by left|]. cbn.
    split; [done|]. split; [done|]. rewrite Hg in Hp. cbn in Hp. by rewrite (handle_of_some h E), Hp.
  - destruct (provider_dlclose h _) as [u s2] eqn:Ec. cbn in Hclose. subst s2. cbn [ret fst snd]. rewrite Hg. cbn.
    split; [by split; [right|]|]. by rewrite Hg.
Qed.

Lemma activate_ellekit paths diag s : vs_ellekit s = EllekitState 0 0 → owned s →
  let '((now, diag'), s') := ellekit_activate env paths diag s in
  owned s' ∧ same_looks s s' ∧ now = negb (ek_hook_functions (vs_ellekit s') =? 0) ∧
  (if now then provider_load_effects else pd_observed_effects diag')
    = if existsb opens paths then provider_load_effects else pd_observed_effects diag.
Proof.
  intros He Ho. revert diag. induction paths as [|path paths IH]; intros diag; cbn [ellekit_activate existsb].
  { cbn. rewrite He. cbn. split; [done|]. by split. }
  unfold bind at 1, opens at 1. pose proof (provider_dlopen_closed path s) as Hd.
  destruct (provider_dlopen env path s) as [h s1]. destruct Hd as (-> & H0 & H1).
  destruct (Z.eqb_spec (ve_dlopen env (hk_jb_path env path)) 0) as [E|E].
  { rewrite (H0 E). apply IH. }
  destruct (H1 E) as [-> Hclose]. set (h := ve_dlopen _ _) in *. cbn [negb orb].
  destruct (negb (ve_dlsym env h "LHHookFunctions" =? 0) && _) eqn:Hb.
  - unfold bind, modify, ret. cbn. apply andb_true_iff in Hb as [Hb _]. rewrite Hb. split; [|done].
    destruct Ho as (Hg & _ & Ht & Hp). split; [done|]. cbn. split; [left; by apply negb_true_iff, Z.eqb_neq in Hb|].
    split; [done|]. rewrite He in Hp. cbn in Hp. rewrite (handle_of_some h E), Hp. cbn. by rewrite <- Permutation_middle.
  - unfold bind. destruct (provider_dlclose h _) as [u s2]. cbn in Hclose. subst s2.
    specialize (IH (diag <| pd_observed_effects := provider_load_effects |>)).
    destruct (ellekit_activate env paths _ s) as [[now diag'] s']. destruct IH as (Ho' & Hs & Hn & Hd).
    split; [done|]. split; [done|]. split; [done|]. rewrite Hd. by destruct (existsb opens paths).
Qed.

Lemma prepare_ellekit diag s : owned s →
  let '((ok, diag'), s') := hk_platform_ellekit_prepare env diag s in
  owned s' ∧ same_looks s s' ∧ ok = negb (ek_hook_functions (vs_ellekit s') =? 0) ∧
  pd_observed_effects diag' = if (ek_hook_functions (vs_ellekit s) =? 0) && existsb opens ellekit_paths
                              then provider_load_effects else pd_observed_effects diag.
Proof.
  intros Ho. unfold hk_platform_ellekit_prepare. destruct (proj1 (proj2 Ho)) as [He|He].
  { rewrite (proj2 (Z.eqb_neq _ 0) He). cbv beta iota. rewrite (proj2 (Z.eqb_neq _ 0) He).
    rewrite (proj2 (Z.eqb_neq _ 0) He). by split. }
  rewrite He. cbn [ek_hook_functions Z.eqb]. pose proof (activate_ellekit ellekit_paths diag s He Ho) as Ha.
  destruct (ellekit_activate env ellekit_paths diag s) as [[now diag'] s']. destruct Ha as (Ho' & Hs & Hn & Hd).
  destruct (ek_hook_functions (vs_ellekit s') =? 0) eqn:Hz; cbn [negb] in Hn; subst now; cbn [andb].
  - rewrite Hz. split; [done|]. split; [done|]. split; [first [done|by rewrite Hz]|exact Hd].
  - rewrite Hz. split; [done|]. split; [done|]. split; [first [done|by rewrite Hz]|exact Hd].
Qed.

Lemma open_substitute paths s : vs_substitute s = SubstituteState 0 0 0 → owned s →
  let '(ready, s') := substitute_open env paths s in
  owned s' ∧ same_looks s s' ∧ ready = substitute_bound (vs_substitute s').
Proof.
  intros Ht Ho. induction paths as [|path paths IH]; cbn [substitute_open].
  { cbn. by rewrite Ht. }
  unfold bind at 1. pose proof (provider_dlopen_closed path s) as Hd.
  destruct (provider_dlopen env path s) as [h s1]. destruct Hd as (-> & H0 & H1).
  destruct (Z.eqb_spec (ve_dlopen env (hk_jb_path env path)) 0) as [E|E]; [by rewrite (H0 E)|].
  destruct (H1 E) as [-> Hclose]. set (h := ve_dlopen _ _) in *.
  destruct (substitute_bound (substitute_functions env h h)) eqn:Hb.
  - unfold bind, modify, ret. cbn [fst snd set_field]. split; [|split; [done|symmetry; exact Hb]].
    destruct Ho as (Hg & He & _ & Hp). split; [done|]. split; [done|]. split; [by left|]. rewrite Ht in Hp.
    cbn in Hp. cbn. rewrite (handle_of_some h E), Hp. cbn. rewrite app_nil_r, app_assoc. by rewrite <- Permutation_cons_append.
  - unfold bind. destruct (provider_dlclose h _) as [u s2]. cbn in Hclose. by subst s2.
Qed.

Lemma prepare_substitute diag s : owned s →
  let '((ok, diag'), s') := hk_platform_substitute_prepare env diag s in
  owned s' ∧ same_looks s s' ∧ ok = substitute_bound (vs_substitute s') ∧
  pd_observed_effects diag' = if ok && negb (substitute_bound (vs_substitute s))
                              then provider_load_effects else pd_observed_effects diag.
Proof.
  intros Ho. unfold hk_platform_substitute_prepare, hk_platform_substitute_load_locked.
  destruct (substitute_bound (vs_substitute s)) eqn:Hb; [by cbn; rewrite Hb|].
  destruct (proj1 (proj2 (proj2 Ho))) as [Ht|Ht]; [congruence|]. rewrite Ht. cbn [sb_handle].
  set (s1 := s <| vs_substitute := _ |>).
  destruct (substitute_bound (vs_substitute s1)) eqn:Hb1.
  { cbn. split; [|split; [done|split; [symmetry; exact Hb1|done]]]. destruct Ho as (Hg & He & _ & Hp). rewrite Ht in Hp.
    split; [done|]. split; [done|]. split; [by left|done]. }
  assert (Es1 : vs_substitute s1 = SubstituteState 0 0 0).
  { revert Hb1. unfold s1, substitute_bound, substitute_functions. cbn. intros [H1 H2]%orb_false_iff.
    apply negb_false_iff, Z.eqb_eq in H1, H2. by rewrite H1, H2. }
  assert (Ho1 : owned s1).
  { destruct Ho as (Hg & He & _ & Hp). rewrite Ht in Hp. split; [done|]. split; [done|]. split; [by right|].
    rewrite Es1. exact Hp. }
  pose proof (open_substitute substitute_paths s1 Es1 Ho1) as Hop.
  destruct (substitute_open env substitute_paths s1) as [ready s2]. destruct Hop as (Ho2 & Hs & ->).
  assert (Hs' : same_looks s s2) by exact Hs.
  destruct (substitute_bound (vs_substitute s2)) eqn:E2; cbn; (split; [done|]; split; [done|]; by rewrite E2).
Qed.
End Owned.

(** ** Any sequence of operations *)

Inductive vendor_op : Type :=
  | GumDiscover | EllekitDiscover | SubstituteDiscover
  | GumPrepare (diag : hk_prepare_diag) | EllekitPrepare (diag : hk_prepare_diag)
  | SubstitutePrepare (diag : hk_prepare_diag)
  | GumHook (target replacement : Z) (cell : option Z) | EllekitHook (target replacement : Z) (cell : option Z)
  | SubstituteHook (target replacement : Z) (cell : option Z).

Section Runs.
Context (env : vendor_env).

Definition run_op (op : vendor_op) : F vendors unit :=
  match op with
  | GumDiscover => _ <-- hk_platform_gum_discover env ;; fret tt
  | EllekitDiscover => _ <-- hk_platform_ellekit_discover env ;; fret tt
  | SubstituteDiscover => _ <-- hk_platform_substitute_discover env ;; fret tt
  | GumPrepare diag => _ <-- lift (hk_platform_gum_prepare env diag) ;; fret tt
  | EllekitPrepare diag => _ <-- lift (hk_platform_ellekit_prepare env diag) ;; fret tt
  | SubstitutePrepare diag => _ <-- lift (hk_platform_substitute_prepare env diag) ;; fret tt
  | GumHook t r c => _ <-- lift (hk_platform_gum_hook env t r c) ;; fret tt
  | EllekitHook t r c => _ <-- lift (hk_platform_ellekit_hook env t r c) ;; fret tt
  | SubstituteHook t r c => _ <-- lift (hk_platform_substitute_hook env t r c) ;; fret tt
  end.

Fixpoint run_ops (ops : list vendor_op) : F vendors unit :=
  match ops with [] => fret tt | op :: ops => _ <-- run_op op ;; run_ops ops end.

(** Nothing bound, nothing known, nothing open. *)
Definition vendors_start (maps : list mapping) : vendors :=
  Vendors (GumState 0 0 0 0) (EllekitState 0 0) (SubstituteState 0 0 0) None None None [] maps [].

(** No function is called through a null pointer. *)
Definition called_through (c : vendor_call) : Z := match c with CallPlain f | CallHook f _ _ => f end.

(** A kept verdict is what a look at the files answers. *)
Record vendors_ok (maps : list mapping) (s : vendors) : Prop := VendorsOk {
  vo_owned : owned s;
  vo_maps : vs_maps s = maps;
  vo_gum : ∀ b, vs_gum_cached s = Some b → answers (loadable env gum_path "hkgum_hook_function") maps b;
  vo_ellekit : ∀ b, vs_ellekit_cached s = Some b → answers (any_loadable env ellekit_paths "LHHookFunctions") maps b;
  vo_substitute : ∀ b, vs_substitute_cached s = Some b → answers (substitute_files env) maps b;
  vo_calls : Forall (λ c, called_through c ≠ 0) (vs_calls s) }.

Context (Hfiles : files_are_bytes (ve_file env)) (Hplace : place_fresh (ve_place env)).

Definition forget (s : vendors) : vendors :=
  s <| vs_gum_cached := None |> <| vs_ellekit_cached := None |> <| vs_substitute_cached := None |>.

Lemma gum_discover_ok maps s : vendors_ok maps s →
  ∃ b s', hk_platform_gum_discover env s = Some (b, s') ∧ vendors_ok maps s' ∧
    ∃ s'', hk_platform_gum_discover env (forget s) = Some (b, s'').
Proof.
  intros [Ho Hm Hg He Ht Hc]. destruct (looks_gum env Hfiles Hplace maps) as [b Hb].
  unfold hk_platform_gum_discover. cbn [vs_gum_cached forget set_field]. rewrite (Hb (forget s) Hm). cbn [mbind option_bind].
  destruct (vs_gum_cached s) as [b'|] eqn:Eg.
  - pose proof (Hg b' eq_refl (forget s) Hm) as Hb'. rewrite (Hb (forget s) Hm) in Hb'. injection Hb' as <-.
    do 2 eexists. split; [done|]. split; [|by eexists]. split; try done. by rewrite Eg.
  - rewrite (Hb s Hm). cbn. do 2 eexists. split; [done|]. split; [|by eexists]. split; try done. by intros ? [= <-].
Qed.

Lemma ellekit_discover_ok maps s : vendors_ok maps s →
  ∃ b s', hk_platform_ellekit_discover env s = Some (b, s') ∧ vendors_ok maps s' ∧
    ∃ s'', hk_platform_ellekit_discover env (forget s) = Some (b, s'').
Proof.
  intros [Ho Hm Hg He Ht Hc]. destruct (looks_ellekit env Hfiles Hplace maps) as [b Hb].
  unfold hk_platform_ellekit_discover. cbn [vs_ellekit_cached forget set_field]. rewrite (Hb (forget s) Hm). cbn [mbind option_bind].
  destruct (vs_ellekit_cached s) as [b'|] eqn:Eg.
  - pose proof (He b' eq_refl (forget s) Hm) as Hb'. rewrite (Hb (forget s) Hm) in Hb'. injection Hb' as <-.
    do 2 eexists. split; [done|]. split; [|by eexists]. split; try done. by rewrite Eg.
  - rewrite (Hb s Hm). cbn. do 2 eexists. split; [done|]. split; [|by eexists]. split; try done. by intros ? [= <-].
Qed.

Lemma substitute_discover_ok maps s : vendors_ok maps s →
  ∃ b s', hk_platform_substitute_discover env s = Some (b, s') ∧ vendors_ok maps s' ∧
    ∃ s'', hk_platform_substitute_discover env (forget s) = Some (b, s'').
Proof.
  intros [Ho Hm Hg He Ht Hc]. destruct (looks_substitute env Hfiles Hplace maps) as [b Hb].
  unfold hk_platform_substitute_discover. cbn [vs_substitute_cached vs_substitute forget set_field].
  destruct (substitute_live env (vs_substitute s)).
  { do 2 eexists. split; [done|]. split; [done|]. by eexists. }
  rewrite (Hb (forget s) Hm). cbn [mbind option_bind].
  destruct (vs_substitute_cached s) as [b'|] eqn:Eg.
  - pose proof (Ht b' eq_refl (forget s) Hm) as Hb'. rewrite (Hb (forget s) Hm) in Hb'. injection Hb' as <-.
    do 2 eexists. split; [done|]. split; [|by eexists]. split; try done. by rewrite Eg.
  - rewrite (Hb s Hm). cbn. do 2 eexists. split; [done|]. split; [|by eexists]. split; try done. by intros ? [= <-].
Qed.

Lemma bound_ok maps s s' : vendors_ok maps s → owned s' → same_looks s s' → vendors_ok maps s'.
Proof.
  intros [Ho Hm Hg He Ht Hc] Ho' (E1 & E2 & E3 & E4 & E5).
  split; [done|congruence|by rewrite E2|by rewrite E3|by rewrite E4|by rewrite E5].
Qed.

(** Calls change the record of calls only. *)
Definition calls_only (m : M vendors (Z * Z)) : Prop := ∀ s, Forall (λ c, called_through c ≠ 0) (vs_calls s) →
  ∃ l, (m s).2 = s <| vs_calls := l |> ∧ Forall (λ c, called_through c ≠ 0) l.

Lemma called_ok maps m s : vendors_ok maps s → calls_only m → vendors_ok maps (m s).2.
Proof. intros [Ho Hm Hg He Ht Hc] H. destruct (H s Hc) as (l & -> & Hl). by split. Qed.

Lemma gum_hook_calls t r c : calls_only (hk_platform_gum_hook env t r c).
Proof.
  intros s Hs. unfold hk_platform_gum_hook. destruct (gum_bound (vs_gum s)) eqn:Hb; cbn [negb].
  - unfold gum_bound in Hb. apply andb_true_iff in Hb as [[H1 H2]%andb_true_iff H3].
    apply negb_true_iff, Z.eqb_neq in H1, H2, H3. cbn. eexists. split; [done|]. by repeat constructor.
  - exists (vs_calls s). by destruct s.
Qed.

Lemma ellekit_hook_calls t r c : calls_only (hk_platform_ellekit_hook env t r c).
Proof.
  intros s Hs. unfold hk_platform_ellekit_hook. destruct (Z.eqb_spec (ek_hook_functions (vs_ellekit s)) 0).
  - exists (vs_calls s). by destruct s.
  - cbn. eexists. split; [done|]. by constructor.
Qed.

Lemma substitute_hook_calls t r c : calls_only (hk_platform_substitute_hook env t r c).
Proof.
  intros s Hs. unfold hk_platform_substitute_hook.
  destruct (Z.eqb_spec (sb_native_hook (vs_substitute s)) 0) as [E|E]; cbn [negb].
  2: { cbn. eexists. split; [done|]. by constructor. }
  destruct (Z.eqb_spec (sb_ms_hook (vs_substitute s)) 0) as [E'|E'].
  { exists (vs_calls s). by destruct s. }
  unfold call_hook, call, bind, modify, ret. cbn. destruct (ve_hook _ _ _ _ _) as [errno output]. cbn.
  eexists. split; [done|]. by constructor.
Qed.

Lemma op_ok maps op s : vendors_ok maps s → ∃ s', run_op op s = Some (tt, s') ∧ vendors_ok maps s'.
Proof.
  intros Hok. pose proof (vo_owned _ _ Hok) as Ho.
  destruct op as [| | |diag|diag|diag|t r c|t r c|t r c]; unfold run_op, fbind, lift, fret.
  - destruct (gum_discover_ok _ _ Hok) as (b & s' & -> & Hok' & _). by exists s'.
  - destruct (ellekit_discover_ok _ _ Hok) as (b & s' & -> & Hok' & _). by exists s'.
  - destruct (substitute_discover_ok _ _ Hok) as (b & s' & -> & Hok' & _). by exists s'.
  - pose proof (prepare_gum env diag s Ho) as H. destruct (hk_platform_gum_prepare env diag s) as [[ok d] s'].
    destruct H as (Ho' & Hs & _). exists s'. split; [done|]. by eapply bound_ok.
  - pose proof (prepare_ellekit env diag s Ho) as H. destruct (hk_platform_ellekit_prepare env diag s) as [[ok d] s'].
    destruct H as (Ho' & Hs & _). exists s'. split; [done|]. by eapply bound_ok.
  - pose proof (prepare_substitute env diag s Ho) as H. destruct (hk_platform_substitute_prepare env diag s) as [[ok d] s'].
    destruct H as (Ho' & Hs & _). exists s'. split; [done|]. by eapply bound_ok.
  - pose proof (called_ok maps _ s Hok (gum_hook_calls t r c)) as H.
    destruct (hk_platform_gum_hook env t r c s) as [? s']. by exists s'.
  - pose proof (called_ok maps _ s Hok (ellekit_hook_calls t r c)) as H.
    destruct (hk_platform_ellekit_hook env t r c s) as [? s']. by exists s'.
  - pose proof (called_ok maps _ s Hok (substitute_hook_calls t r c)) as H.
    destruct (hk_platform_substitute_hook env t r c s) as [? s']. by exists s'.
Qed.

Lemma ops_ok maps ops s : vendors_ok maps s →
  ∃ s', run_ops ops s = Some (tt, s') ∧ vendors_ok maps s'.
Proof.
  revert s. induction ops as [|op ops IH]; intros s Hok; [by exists s|]. cbn [run_ops]. unfold fbind.
  destruct (op_ok maps op s Hok) as (s1 & -> & Hok1). cbn. by apply IH.
Qed.

Lemma start_ok maps : vendors_ok maps (vendors_start maps).
Proof.
  split; try done. all: repeat (split; [by right|]); done.
Qed.

(** C26.  Any sequence of discoveries, preparations and hooks of Gum, ElleKit and
    Substitute comes back.  After it each vendor is bound whole or not at all,
    the libraries open are exactly those whose functions are bound, each opened
    once, no file is left mapped, and no function was called through a null
    pointer. *)
Theorem vendor_bindings_owned maps ops : ∃ s, run_ops ops (vendors_start maps) = Some (tt, s) ∧
  owned s ∧ vs_maps s = maps ∧ Forall (λ c, called_through c ≠ 0) (vs_calls s).
Proof. destruct (ops_ok maps ops _ (start_ok maps)) as (s & E & [? ? ? ? ? ?]). by exists s. Qed.

(** The memoised verdicts change no answer: after any sequence of operations
    a discovery of any of the three vendors answers what it would with every
    verdict forgotten. *)
Theorem vendor_discovery_fresh maps ops : ∃ s, run_ops ops (vendors_start maps) = Some (tt, s) ∧
  ∀ discover, discover ∈ [hk_platform_gum_discover env; hk_platform_ellekit_discover env;
                          hk_platform_substitute_discover env] →
    ∃ available s1 s2, discover s = Some (available, s1) ∧ discover (forget s) = Some (available, s2).
Proof.
  destruct (ops_ok maps ops _ (start_ok maps)) as (s & E & Hok). exists s. split; [done|].
  intros d [->|[->|[->|[]%elem_of_nil]%elem_of_cons]%elem_of_cons]%elem_of_cons.
  - destruct (gum_discover_ok _ _ Hok) as (b & s1 & E1 & _ & s2 & E2). by exists b, s1, s2.
  - destruct (ellekit_discover_ok _ _ Hok) as (b & s1 & E1 & _ & s2 & E2). by exists b, s1, s2.
  - destruct (substitute_discover_ok _ _ Hok) as (b & s1 & E1 & _ & s2 & E2). by exists b, s1, s2.
Qed.

(** What a preparation reports of its effects.  Preparing Gum or ElleKit
    reports that an image was loaded exactly when the vendor was not bound and one
    of its libraries could be opened, also when the library was then closed as
    unusable; preparing Substitute reports it exactly when it became bound.
    Each says it is ready exactly when it is bound. *)
Theorem vendor_prepare_reports maps ops diag : ∃ s, run_ops ops (vendors_start maps) = Some (tt, s) ∧
  (let '((ok, diag'), s') := hk_platform_gum_prepare env diag s in ok = gum_bound (vs_gum s') ∧
   pd_observed_effects diag' = if negb (gum_bound (vs_gum s)) && opens env gum_path
                               then provider_load_effects else pd_observed_effects diag) ∧
  (let '((ok, diag'), s') := hk_platform_ellekit_prepare env diag s in
   ok = negb (ek_hook_functions (vs_ellekit s') =? 0) ∧
   pd_observed_effects diag' = if (ek_hook_functions (vs_ellekit s) =? 0) && existsb (opens env) ellekit_paths
                               then provider_load_effects else pd_observed_effects diag) ∧
  (let '((ok, diag'), s') := hk_platform_substitute_prepare env diag s in
   ok = substitute_bound (vs_substitute s') ∧
   pd_observed_effects diag' = if ok && negb (substitute_bound (vs_substitute s))
                               then provider_load_effects else pd_observed_effects diag).
Proof.
  destruct (ops_ok maps ops _ (start_ok maps)) as (s & E & Hok). exists s. split; [done|].
  pose proof (vo_owned _ _ Hok) as Ho.
  pose proof (prepare_gum env diag s Ho) as Hg. pose proof (prepare_ellekit env diag s Ho) as He.
  pose proof (prepare_substitute env diag s Ho) as Ht.
  destruct (hk_platform_gum_prepare env diag s) as [[ok1 d1] s1].
  destruct (hk_platform_ellekit_prepare env diag s) as [[ok2 d2] s2].
  destruct (hk_platform_substitute_prepare env diag s) as [[ok3 d3] s3]. tauto.
Qed.
End Runs.

(** ** A process with ElleKit's library *)

Module DemoVendors.
Definition env : vendor_env := {|
  ve_scheme := Rootless (λ path, Some (String.append "/var/jb" path));
  ve_file := DemoNative.file_bytes;
  ve_place := DemoNative.place;
  ve_memory := λ _, None;
  ve_preflight := λ _, true;
  ve_dlopen := λ path, if bool_decide (path = "/var/jb/usr/lib/libhooker.dylib"%string) then 7 else 0;
  ve_dlsym := λ handle _, if handle =? 7 then 0x100 else 0;
  ve_dladdr := λ _, None;
  ve_hook := λ _ _ _ _, (0, 1);
  ve_dobby := λ _ _ _, (0, 1);
  ve_inline_preflight := λ _ _ _, (0, 0);
  ve_inline_preflight_basic := λ _ _, (0, 0);
  ve_vm_read := λ _ _, None;
  ve_thumb := false |}.
Definition diag : hk_prepare_diag := PrepareDiag 0 None 0.
Definition ops : list vendor_op :=
  [EllekitDiscover; EllekitPrepare diag; EllekitHook 1 2 None; SubstitutePrepare diag; SubstituteHook 1 2 None].
End DemoVendors.

Lemma vendor_bindings_owned_witness :
  ∃ s, run_ops DemoVendors.env DemoVendors.ops (vendors_start []) = Some (tt, s) ∧
    owned s ∧ vs_maps s = [] ∧ Forall (λ c, called_through c ≠ 0) (vs_calls s).
Proof. exact (vendor_bindings_owned DemoVendors.env DemoNative.files DemoNative.fresh [] DemoVendors.ops). Defined.

Lemma vendor_discovery_fresh_witness :
  ∃ s, run_ops DemoVendors.env DemoVendors.ops (vendors_start []) = Some (tt, s) ∧
    ∃ available s1 s2, hk_platform_ellekit_discover DemoVendors.env s = Some (available, s1) ∧
      hk_platform_ellekit_discover DemoVendors.env (forget s) = Some (available, s2).
Proof.
  destruct (vendor_discovery_fresh DemoVendors.env DemoNative.files DemoNative.fresh [] DemoVendors.ops)
    as (s & E & H).
  exists s. split; [exact E|]. apply H. right. left.
Defined.

Lemma vendor_prepare_reports_witness :
  ∃ s, run_ops DemoVendors.env [] (vendors_start []) = Some (tt, s) ∧
    let '((ok, diag'), s') := hk_platform_ellekit_prepare DemoVendors.env DemoVendors.diag s in
    ok = true ∧ pd_observed_effects diag' = provider_load_effects.
Proof.
  destruct (vendor_prepare_reports DemoVendors.env DemoNative.files DemoNative.fresh [] [] DemoVendors.diag)
    as (s & E & _). exists s. split; [exact E|]. cbn in E. injection E as <-. vm_compute. auto.
Defined.
