(* ===== verification/Facade.v ===== *)
(** * The legacy facade (src/compatibility/HKLegacyFacade.c, HKLegacyFacade.h)

    One legacy call is one runtime and one plan: created, analysed, prepared,
    committed and released.  dyld's [dladdr], the demangler the process exports
    and what the engines of the build do are parameters. *)

From stdpp Require Import base list strings gmap numbers option pretty.
From Stdlib Require Ascii String.
From S2P Require Import Prelude Types Memory Faults Device SymbolTable NativeMemory PointerAuth.
From S2P Require Import RebindVtable Objc Swift Ownership ImageCatalog Artifacts Engine DyldImages EngineWorld.
From S2P Require Import Plan Dispatch Analyze Prepare Commit Pending Runtime.

Definition HK_LEGACY_OK : Z := 0.
Definition HK_LEGACY_ERR : Z := 1.
Definition HK_LEGACY_ERR_NOT_SUPPORTED : Z := 2.
Definition HK_LEGACY_ERR_INVALID_ARGUMENT : Z := 4.
Definition HK_LEGACY_ERR_PARTIAL : Z := 8.

Definition map_status (status : hk_status) : Z :=
  match status with
  | HK_STATUS_INVALID_ARGUMENT => HK_LEGACY_ERR_INVALID_ARGUMENT
  | HK_STATUS_UNAVAILABLE => HK_LEGACY_ERR_NOT_SUPPORTED
  | HK_STATUS_OK => HK_LEGACY_OK
  | _ => HK_LEGACY_ERR
  end.

(** ** The list of backends *)

(** Between two words of the list: a comma, a blank, a tab or a line end. *)
Definition is_gap (c : Ascii.ascii) : bool :=
  (code c =? 44) || (code c =? 32) || (code c =? 9) || (code c =? 10) || (code c =? 13).

Fixpoint skip_gaps (s : string) : string :=
  match s with
  | String.String c rest => if is_gap c then skip_gaps rest else s
  | String.EmptyString => s
  end.

(** Up to the next gap, and the rest from there. *)
Fixpoint take_word (s : string) : string * string :=
  match s with
  | String.String c rest =>
      if is_gap c then (String.EmptyString, s)
      else let '(word, rest) := take_word rest in (String.String c word, rest)
  | String.EmptyString => (String.EmptyString, String.EmptyString)
  end.

(** The loop at [cursor]. *)
Fixpoint only_loop (fuel : nat) (cursor wanted : string) (found : bool) : bool :=
  match fuel, cursor with
  | S fuel, String.String _ _ =>
      let '(token, cursor) := take_word (skip_gaps cursor) in
      if Z.of_nat (String.length token) =? 0 then only_loop fuel cursor wanted found
      else if found || negb (bool_decide (token = wanted)) then false
      else only_loop fuel cursor wanted true
  | _, _ => found
  end.

Definition hk_legacy_backend_ids_are_only (backend_ids wanted : option string) : bool :=
  match backend_ids, wanted with
  | Some ids, Some wanted =>
      if bool_decide (wanted = EmptyString) then false
      else only_loop (S (String.length ids)) ids wanted false
  | _, _ => false
  end.

(** ** Specifications *)

Definition HK_OBJC_INSTANCE_METHOD : Z := 0.
Definition HK_OBJC_ALLOW_INHERITED_OVERRIDE : Z := 1.
Definition HK_SYMBOL_ALIAS_EXACT_ONLY : Z := 0.
Definition HK_MEMORY_KIND_DATA : Z := 1.
Definition LEGACY_ID_CAP : Z := 48.

Definition init_spec (stable_id : string) (target : hk_target) (replacement reach : Z)
    (original : hk_original_requirement) : hk_hook_spec :=
  HookSpec SIZEOF_HOOK_SPEC (Some stable_id) target replacement reach reach original
    HK_CONTINUATION_ANY 0 HK_AVAILABILITY_REQUIRED_NOW HK_OPERATION_MANDATORY 0 0 (AfterNull 0).

(** What [snprintf] leaves in a buffer of [cap] bytes that holds [held]. *)
Definition snprintf (held : string) (cap : Z) (text : string) : string :=
  if cap =? 0 then held else String.substring 0 (Z.to_nat (cap - 1)) text.

(** [prefix] and the counter in decimal. *)
Definition numbered (prefix : string) (n : Z) : string :=
  (prefix +:+ "-" +:+ pretty (Z.to_N n))%string.

(** The specification, and the counter after [++hk_legacy_spec_counter]. *)
Definition init_spec_id (counter : Z) (held : string) (id_cap : Z) (prefix : string)
    (target : hk_target) (replacement reach : Z) (original : hk_original_requirement)
    : hk_hook_spec * Z :=
  let counter := u64 (counter + 1) in
  (init_spec (snprintf held id_cap (numbered prefix counter)) target replacement reach original,
   counter).

(** A pointer argument is its address, 0 for NULL; [held] what the caller's
    [id_buf] of [id_cap] bytes holds. *)
Definition hk_legacy_build_objc_spec (counter dispatch_class selector replacement out_original : Z)
    (held : string) (id_cap : Z) : Z * option hk_hook_spec * Z :=
  if (dispatch_class =? 0) || (selector =? 0) || (replacement =? 0)
  then (HK_LEGACY_ERR_INVALID_ARGUMENT, None, counter)
  else
    let '(spec, counter) := init_spec_id counter held id_cap "legacy-objc"
      (TObjc (ObjcTarget dispatch_class None selector None HK_OBJC_INSTANCE_METHOD
                HK_OBJC_ALLOW_INHERITED_OVERRIDE HK_AVAILABILITY_REQUIRED_NOW))
      replacement HK_REACH_OBJC_DISPATCH
      (if negb (out_original =? 0) then HK_ORIGINAL_DIRECT_PREDECESSOR else HK_ORIGINAL_NONE) in
    (HK_LEGACY_OK, Some spec, counter).

Definition hk_legacy_build_function_spec (counter function replacement out_original : Z)
    (held : string) (id_cap : Z) : Z * option hk_hook_spec * Z :=
  if (function =? 0) || (replacement =? 0) then (HK_LEGACY_ERR_INVALID_ARGUMENT, None, counter)
  else
    let '(spec, counter) := init_spec_id counter held id_cap "legacy-function"
      (TAddress (AddressTarget function zero_selector None (BytesNull 0) false))
      replacement HK_REACH_ENTRYPOINT
      (if negb (out_original =? 0) then HK_ORIGINAL_CALLABLE_CONTINUATION else HK_ORIGINAL_NONE) in
    (HK_LEGACY_OK, Some spec, counter).

(** The target that rebinds imports of [name] from any image. *)
Definition rebind_target (name : string) : hk_symbol_target :=
  SymbolTarget (Some name) HK_SYMBOL_NAME_C HK_SYMBOL_VISIBILITY_EXPORTED_ONLY zero_selector
    zero_selector HK_SYMBOL_ALIAS_EXACT_ONLY false.

Section Route.
(** [dladdr]: [None] where it finds no image, else [dli_sname], NULL as [None]. *)
Context (dladdr : Z → option (option string)).

Definition hk_legacy_route_function_spec (spec : option hk_hook_spec) (backend_ids : option string)
    (out_spec : bool) : Z * option hk_hook_spec :=
  match spec with
  | Some spec =>
      if negb out_spec then (HK_LEGACY_ERR_INVALID_ARGUMENT, None)
      else
        match hs_target spec with
        | TAddress target =>
            if negb (hk_legacy_backend_ids_are_only backend_ids (Some "fishhook"%string))
            then (HK_LEGACY_OK, Some spec)
            else
              match dladdr (ad_address target) with
              | Some (Some (String.String _ _ as name)) =>
                  (HK_LEGACY_OK, Some (spec
                    <| hs_target := TSymbol (rebind_target name) |>
                    <| hs_required_reach := HK_REACH_EXISTING_IMPORTS |>
                    <| hs_preferred_reach := HK_REACH_EXISTING_IMPORTS |>
                    <| hs_original_requirement :=
                         if bool_decide (hs_original_requirement spec = HK_ORIGINAL_CALLABLE_CONTINUATION)
                         then HK_ORIGINAL_DIRECT_PREDECESSOR else hs_original_requirement spec |>))
              | _ => (HK_LEGACY_ERR_NOT_SUPPORTED, Some spec)
              end
        | _ => (HK_LEGACY_OK, Some spec)
        end
  | None => (HK_LEGACY_ERR_INVALID_ARGUMENT, None)
  end.
End Route.

(** ** The process *)

(** Besides the core's process: the pointers callers let the facade write, by
    address; the counter of identifiers; [hk_swift_demangle], NULL as [None];
    [hk_swift_errno]. *)
Record facade {E : Type} : Type := Facade {
  fc_core : sys E;
  fc_cells : gmap Z Z;
  fc_counter : Z;
  fc_demangle : option (string → option string);
  fc_swift_errno : Z }.
Arguments facade : clear implicits.
Arguments Facade {E} _ _ _ _ _.

#[export] Instance facade_eta {E} : Eta (facade E) := λ s,
  Facade (fc_core s) (fc_cells s) (fc_counter s) (fc_demangle s) (fc_swift_errno s).

(** The hook at an address of the plan, what a [hk_hook_t *] points at. *)
Definition hook_at {E} (p : hk_plan E) (address : Z) : option (hk_hook E) :=
  snd <$> list_find (λ h, h_address h = address) (pl_hooks p).

(** [hk_runtime_release] besides freeing: the queue is given up. *)
Definition hk_runtime_release {E} (runtime : bool) : M (sys E) unit :=
  when runtime hk_runtime_free_pending_hooks.

Section Facade.
Context {E K : Type} `{PacOps}.
(** The build, what dyld lists and the memory its images are in. *)
Context (build : platform_build (E := E)) (images : list dyld_image) (mem : memory).
Context (dladdr : Z → option (option string)).
Local Abbreviation state := (facade E).
Local Abbreviation hook := (hk_hook E).

(** ** Access *)

Definition on_core {A} (m : F (sys E) A) : F state A := λ s,
  '(a, c) ← m (fc_core s); Some (a, s <| fc_core := c |>).
Definition core {A} (m : M (sys E) A) : F state A := on_core (lift m).

(** [*p] and [*p = v]; a pointer to nothing faults. *)
Definition load_cell (p : Z) : F state Z := fetch (λ s, fc_cells s !! p).
Definition store_cell (p v : Z) : F state unit := λ s,
  _ ← fc_cells s !! p; Some (tt, s <| fc_cells := <[p := v]> (fc_cells s) |>).
(** [if (p) *p = v] *)
Definition store_if (p v : Z) : F state unit := if p =? 0 then fret tt else store_cell p v.

(** A runtime of one's own, the caller's set aside. *)
Definition with_runtime {A} (rt : hk_runtime E) (m : F state A) : F state A :=
  saved <-- core (gets (λ s, (s_runtime s, s_plan s))) ;;
  _ <-- core (modify (λ s, s <| s_runtime := rt |>)) ;;
  a <-- m ;;
  _ <-- core (modify (λ s, s <| s_runtime := saved.1 |> <| s_plan := saved.2 |>)) ;;
  fret a.

Definition plan_hook (address : Z) : F state (option hook) :=
  core (gets (λ s, hook_at (s_plan s) address)).

(** ** One hook *)

Definition map_result (hook : Z) (out_original : Z) : F state Z :=
  h <-- plan_hook hook ;;
  match hk_hook_copy_result h with
  | (HK_STATUS_OK, Some result) =>
      _ <-- (if negb (out_original =? 0) && bool_decide (r_mutation result = HK_MUTATION_NONE)
             then store_cell out_original 0 else fret tt) ;;
      match r_outcome result with
      | HK_OUTCOME_ACTIVE =>
          if out_original =? 0 then fret HK_LEGACY_OK
          else if negb (r_original_available result) then fret HK_LEGACY_ERR
          else
            let installed := hk_original_slot_load (hk_hook_original_slot h) in
            _ <-- (if negb (installed =? 0) then store_cell out_original installed else fret tt) ;;
            original <-- load_cell out_original ;;
            fret (if negb (original =? 0) then HK_LEGACY_OK else HK_LEGACY_ERR)
      | HK_OUTCOME_NO_ROUTE | HK_OUTCOME_FAILED_SAFE => fret HK_LEGACY_ERR_NOT_SUPPORTED
      | HK_OUTCOME_FAILED_PARTIAL => fret HK_LEGACY_ERR_PARTIAL
      | _ => fret HK_LEGACY_ERR
      end
  | _ => fret HK_LEGACY_ERR
  end.

Definition runtime_create (backend_ids : option string) : F state (hk_status * option (hk_runtime E)) :=
  on_core (hk_runtime_create_with_backend_override images mem build
    (Some (SIZEOF_RUNTIME_CONFIG, HK_INSTALL_CONTEXT_EARLY_PROCESS)) backend_ids true).

(** The original the preparation already knows; [false] where the hook is not
    PREPARED. *)
Definition publish_early (hook out_original : Z) : F state bool :=
  if out_original =? 0 then fret true
  else
    h <-- plan_hook hook ;;
    match hk_hook_copy_result h with
    | (HK_STATUS_OK, Some result) =>
        if negb (bool_decide (r_outcome result = HK_OUTCOME_PREPARED)) then fret false
        else
          let address := ci_address (r_continuation result) in
          _ <-- (if negb (address =? 0) then store_cell out_original address else fret tt) ;;
          fret true
    | _ => fret false
    end.

(** From the new plan up to [done]. *)
Definition apply_in_plan (spec : hk_hook_spec) (out_original : Z) (backend_ids : option string)
    : F state Z :=
  let '(route, routed) := hk_legacy_route_function_spec dladdr (Some spec) backend_ids true in
  if negb (route =? HK_LEGACY_OK) then fret route
  else
    added <-- core (hk_plan_add_hook hk_pac_strip_code true true routed) ;;
    let '(status, hook) := added in
    if negb (bool_decide (status = HK_STATUS_OK)) || (hook =? 0) then fret (map_status status)
    else
      analyzed <-- core (hk_plan_analyze true) ;;
      if negb (bool_decide (analyzed.1 = HK_STATUS_OK)) then fret HK_LEGACY_ERR
      else
        prepared <-- core (hk_plan_prepare true) ;;
        if negb (bool_decide (prepared.1 = HK_STATUS_OK)) then fret HK_LEGACY_ERR
        else
          ready <-- publish_early hook out_original ;;
          if negb ready then fret HK_LEGACY_ERR
          else
            committed <-- core (hk_plan_commit true) ;;
            result <-- map_result hook out_original ;;
            fret (if bool_decide (committed.1 = HK_STATUS_OK) then result
                  else map_status committed.1).

Definition apply_in_runtime (spec : hk_hook_spec) (out_original : Z) (backend_ids : option string)
    : F state Z :=
  created <-- core (hk_plan_create true true None) ;;
  result <--
    match created with
    | HK_STATUS_OK =>
        result <-- apply_in_plan spec out_original backend_ids ;;
        _ <-- core hk_plan_release ;;
        fret result
    | _ => fret HK_LEGACY_ERR
    end ;;
  _ <-- core (hk_runtime_release true) ;;
  fret result.

Definition apply_plan (spec : hk_hook_spec) (out_original : Z) (backend_ids : option string)
    : F state Z :=
  _ <-- store_if out_original 0 ;;
  created <-- runtime_create backend_ids ;;
  match created with
  | (HK_STATUS_OK, Some rt) => with_runtime rt (apply_in_runtime spec out_original backend_ids)
  | _ => fret HK_LEGACY_ERR_NOT_SUPPORTED
  end.

(** ** Many hooks *)

(** The first loop: each specification's status and hook, 0 for NULL. *)
Fixpoint add_specs (specs : list hk_hook_spec) (backend_ids : option string)
    : F state (list (Z * Z)) :=
  match specs with
  | [] => fret []
  | spec :: specs =>
      let '(route, routed) := hk_legacy_route_function_spec dladdr (Some spec) backend_ids true in
      one <-- (if negb (route =? HK_LEGACY_OK) then fret (route, 0)
               else
                 added <-- core (hk_plan_add_hook hk_pac_strip_code true true routed) ;;
                 fret (map_status added.1, added.2)) ;;
      rest <-- add_specs specs backend_ids ;;
      fret (one :: rest)
  end.

(** The second loop, over each operation and where its original goes. *)
Fixpoint publish_all (ops : list (Z * Z)) (originals : list Z) : F state unit :=
  match ops, originals with
  | (_, hook) :: ops, original :: originals =>
      _ <-- (if (hook =? 0) || (original =? 0) then fret tt
             else _ <-- publish_early hook original ;; fret tt) ;;
      publish_all ops originals
  | _, _ => fret tt
  end.

(** The last loop: the results and how many succeeded. *)
Fixpoint collect_results (ops : list (Z * Z)) (originals : list Z) : F state (list Z * Z) :=
  match ops, originals with
  | (status, hook) :: ops, original :: originals =>
      if hook =? 0 then
        rest <-- collect_results ops originals ;;
        fret (status :: rest.1, rest.2)
      else
        result <-- map_result hook original ;;
        rest <-- collect_results ops originals ;;
        fret (result :: rest.1, rest.2 + (if result =? HK_LEGACY_OK then 1 else 0))
  | _, _ => fret ([], 0)
  end.

Definition commit_specs (ops : list (Z * Z)) (originals : list Z) : F state unit :=
  analyzed <-- core (hk_plan_analyze true) ;;
  if negb (bool_decide (analyzed.1 = HK_STATUS_OK)) then fret tt
  else
    prepared <-- core (hk_plan_prepare true) ;;
    if negb (bool_decide (prepared.1 = HK_STATUS_OK)) then fret tt
    else
      _ <-- publish_all ops originals ;;
      _ <-- core (hk_plan_commit true) ;;
      fret tt.

Definition aggregate (succeeded count : Z) : Z :=
  if succeeded =? count then HK_LEGACY_OK
  else if 0 <? succeeded then HK_LEGACY_ERR_PARTIAL else HK_LEGACY_ERR.

(** From the new plan on. *)
Definition apply_specs_in_plan (specs : list hk_hook_spec) (originals : list Z)
    (backend_ids : option string) : F state (Z * list Z) :=
  ops <-- add_specs specs backend_ids ;;
  _ <-- commit_specs ops originals ;;
  results <-- collect_results ops originals ;;
  _ <-- core hk_plan_release ;;
  _ <-- core (hk_runtime_release true) ;;
  fret (aggregate results.2 (Z.of_nat (length specs)), results.1).

(** [specs] and [originals] are arrays of [count] elements, [None] for NULL; the
    results are [None] where nothing is written to [out_results]. *)
Definition hk_legacy_apply_specs_with_backend_ids (specs : option (list hk_hook_spec))
    (originals : option (list Z)) (count : Z) (out_results : bool) (backend_ids : option string)
    : F state (Z * option (list Z)) :=
  if count =? 0 then fret (HK_LEGACY_OK, None)
  else
    match specs with
    | None => fret (HK_LEGACY_ERR_INVALID_ARGUMENT, None)
    | Some specs =>
        if negb out_results then fret (HK_LEGACY_ERR_INVALID_ARGUMENT, None)
        else
          let all code := fret (code, Some (replicate (Z.to_nat count) code)) in
          hooks <-- core (on_heap alloc) ;;
          if negb hooks then all HK_LEGACY_ERR
          else
            created <-- runtime_create backend_ids ;;
            match created with
            | (HK_STATUS_OK, Some rt) =>
                with_runtime rt (
                  plan <-- core (hk_plan_create true true None) ;;
                  match plan with
                  | HK_STATUS_OK =>
                      r <-- apply_specs_in_plan specs
                              (default (replicate (Z.to_nat count) 0) originals) backend_ids ;;
                      fret (r.1, Some r.2)
                  | _ => all HK_LEGACY_ERR
                  end)
            | _ => all HK_LEGACY_ERR_NOT_SUPPORTED
            end
    end.

Definition hk_legacy_apply_specs (specs : option (list hk_hook_spec)) (originals : option (list Z))
    (count : Z) (out_results : bool) : F state (Z * option (list Z)) :=
  hk_legacy_apply_specs_with_backend_ids specs originals count out_results None.

(** ** The calls *)

(** A specification built from the process's counter. *)
Definition building (f : Z → Z * option hk_hook_spec * Z) : F state (Z * option hk_hook_spec) :=
  lift (λ s, let '(build, spec, counter) := f (fc_counter s) in
             ((build, spec), s <| fc_counter := counter |>)).

Definition apply_built (built : Z * option hk_hook_spec) (out_original : Z)
    (backend_ids : option string) : F state Z :=
  match built with
  | (code, Some spec) =>
      if negb (code =? HK_LEGACY_OK) then fret code else apply_plan spec out_original backend_ids
  | (code, None) => fret code
  end.

(** [held] is what the call's buffer on the stack holds. *)
Definition hk_legacy_hook_objc (held : string) (dispatch_class selector replacement out_original : Z)
    : F state Z :=
  _ <-- store_if out_original 0 ;;
  built <-- building (λ c, hk_legacy_build_objc_spec c dispatch_class selector replacement
                             out_original held LEGACY_ID_CAP) ;;
  apply_built built out_original None.

Definition hk_legacy_hook_function_with_backend_ids (held : string)
    (function replacement out_original : Z) (backend_ids : option string) : F state Z :=
  _ <-- store_if out_original 0 ;;
  built <-- building (λ c, hk_legacy_build_function_spec c function replacement out_original
                             held LEGACY_ID_CAP) ;;
  apply_built built out_original backend_ids.

Definition hk_legacy_hook_function (held : string) (function replacement out_original : Z)
    : F state Z :=
  hk_legacy_hook_function_with_backend_ids held function replacement out_original None.

(** *** Memory

    The engines' world holds the process memory the native layer works on. *)

Context (vm : vm_calls K) (page_size : Z) (mapped : Z → bool).
Context (native : E → device K * option memo_region)
  (set_native : device K * option memo_region → E → E).

Definition memory_spec (target : Z) (data expected : list Z) : hk_hook_spec :=
  init_spec "legacy-memory"
    (TMemory (MemoryTarget target false zero_selector (Bytes data) (Bytes expected) (BytesNull 0)
                (Z.of_nat (length data)) HK_MEMORY_KIND_DATA))
    0 HK_REACH_EXACT_MEMORY HK_ORIGINAL_NONE.

(** [memcpy] out of the process memory. *)
Definition read_process (target : Z) (size : nat) : F state (list Z) :=
  fetch (λ s, read_bytes (mapped_memory mapped (d_mem (native (s_engine (fc_core s))).1)) size target).

(** [data] is [None] for NULL, or the [size] bytes it points at. *)
Definition hk_legacy_hook_memory_with_backend_ids (target : Z) (data : option (list Z))
    (backend_ids : option string) : F state Z :=
  match data with
  | None | Some [] => fret HK_LEGACY_ERR_INVALID_ARGUMENT
  | Some data =>
      if target =? 0 then fret HK_LEGACY_ERR_INVALID_ARGUMENT
      else if negb (pb_native build) then fret HK_LEGACY_ERR_NOT_SUPPORTED
      else
        expected <-- core (on_heap alloc) ;;
        if negb expected then fret HK_LEGACY_ERR
        else
          ok <-- core (on_engine (zoom native set_native
                         (hk_native_range_readable vm page_size target (Z.of_nat (length data))))) ;;
          if negb ok then fret HK_LEGACY_ERR_INVALID_ARGUMENT
          else
            expected <-- read_process target (length data) ;;
            apply_plan (memory_spec target data expected) 0 backend_ids
  end.

Definition hk_legacy_hook_memory (target : Z) (data : option (list Z)) : F state Z :=
  hk_legacy_hook_memory_with_backend_ids target data None.

(** *** Swift *)

Context (symbol_at : Z → option string) (hk_swift_supported : bool) (objc_getClass : string → Z).
(** [dlsym(RTLD_DEFAULT, "swift_demangle")] *)
Context (dlsym_demangle : option (string → option string)).

(** A call of the Swift layer, on the process memory, allocator and error. *)
Definition on_swift {A} (m : F (swift_state K) A) : F state A := λ s,
  let c := fc_core s in
  '(a, w) ← m (SwiftState (native (s_engine c)) (s_heap c) (fc_swift_errno s));
  Some (a, s <| fc_core := c <| s_engine := set_native (ss_native w) (s_engine c) |>
                             <| s_heap := Swift.ss_heap w |> |>
             <| fc_swift_errno := ss_errno w |>).

Definition ensure_swift_demangler : F state Z :=
  _ <-- lift (modify (λ s : state, match fc_demangle s with
                                   | None => s <| fc_demangle := dlsym_demangle |>
                                   | Some _ => s
                                   end)) ;;
  demangle <-- lift (gets fc_demangle) ;;
  fret (match demangle with Some _ => HK_LEGACY_OK | None => HK_LEGACY_ERR_NOT_SUPPORTED end).

Definition swift_call (target : hk_swift_target) (replacement out_original : Z) : F state Z :=
  demangle <-- lift (gets fc_demangle) ;;
  r <-- on_swift (hk_swift_hook vm page_size mapped symbol_at demangle hk_swift_supported
                    objc_getClass (Some target) replacement) ;;
  _ <-- (match r.2 with Some original => store_if out_original original | None => fret tt end) ;;
  fret (map_status r.1).

Definition swift_name_kind (name : string) : hk_swift_name_kind :=
  if String.prefix "$s" name || String.prefix "_$s" name
  then HK_SWIFT_NAME_MANGLED_EXACT else HK_SWIFT_NAME_DEMANGLED_SUBSTRING.

Definition hk_legacy_hook_swift_method (metadata : Z) (name : option string)
    (replacement out_original : Z) : F state Z :=
  _ <-- store_if out_original 0 ;;
  match name with
  | Some (String.String _ _ as name) =>
      if (metadata =? 0) || (replacement =? 0) then fret HK_LEGACY_ERR_INVALID_ARGUMENT
      else
        let target := SwiftTarget SIZEOF_SWIFT_TARGET metadata None (swift_name_kind name)
                        (Some name) 0 true HK_AVAILABILITY_REQUIRED_NOW in
        demangler <-- (match swift_name_kind name with
                       | HK_SWIFT_NAME_DEMANGLED_SUBSTRING => ensure_swift_demangler
                       | _ => fret HK_LEGACY_OK
                       end) ;;
        if negb (demangler =? HK_LEGACY_OK) then fret HK_LEGACY_ERR_NOT_SUPPORTED
        else swift_call target replacement out_original
  | _ => fret HK_LEGACY_ERR_INVALID_ARGUMENT
  end.

Definition hk_legacy_hook_swift_slot (metadata index replacement out_original : Z) : F state Z :=
  _ <-- store_if out_original 0 ;;
  if (metadata =? 0) || (replacement =? 0) then fret HK_LEGACY_ERR_INVALID_ARGUMENT
  else
    swift_call (SwiftTarget SIZEOF_SWIFT_TARGET metadata None HK_SWIFT_NAME_SLOT_INDEX None index
                  true HK_AVAILABILITY_REQUIRED_NOW) replacement out_original.
End Facade.
