(* ===== verification/FacadeSpec.v ===== *)
(** * The legacy facade: what a call's answer stands for *)

From stdpp Require Import base strings gmap numbers option list pretty.
From S2P Require Import Prelude Types Memory Faults Device NativeMemory DyldImages Ownership ImageCatalog Artifacts Engine Plan.
From S2P Require Import Dispatch Analyze Prepare PrepareSafety Commit CommitOrder CommitVerdict PrepareKeeps.
From S2P Require Import EngineWorld PlanWf SwiftSafety Pending PointerAuth RebindCommit Runtime RuntimeSpec Demo Facade.

(** ** Nothing of the process has moved *)

(** What a mutation would show in, a runtime's own state apart. *)
Record unmoved {E} (s0 s : sys E) : Prop := {
  um_commits : commits (s_trace s) = commits (s_trace s0);
  um_owners : s_owners s = s_owners s0;
  um_installed : s_installed s = s_installed s0;
  um_process : s_process s = s_process s0 }.

#[export] Instance unmoved_preorder {E} : PreOrder (unmoved (E := E)).
Proof. split; [by intros s|]. intros s1 s2 s3 [] []. split; congruence. Qed.

Lemma unmoved_stable {E} (s0 : sys E) : PrepareStable (unmoved s0).
Proof.
  split; intros; destruct H; constructor; try done; unfold commits in *; cbn [s_trace set_field];
    rewrite list.filter_app, um_commits0; cbn; by rewrite app_nil_r.
Qed.

Section Release.
Context {E : Type} (s0 : sys E).

Lemma unmoved_runtime f : triple (unmoved s0) (on_runtime f) (λ _, unmoved s0).
Proof. apply triple_modify. intros s []. by constructor. Qed.
#[local] Hint Resolve unmoved_stable stable_heap stable_ids stable_engine stable_locals stable_plan
  stable_prepared stable_released stable_gets stable_ret stable_report stable_release unmoved_runtime : stable.

Lemma unmoved_adopt b h : triple (unmoved s0) (hk_runtime_adopt_pending_hook b h) (λ _, unmoved s0).
Proof. unfold hk_runtime_adopt_pending_hook. stable. Qed.
#[local] Hint Resolve unmoved_adopt : stable.

Lemma create_unmoved rt out config : triple (unmoved s0) (hk_plan_create rt out config) (λ _, unmoved s0).
Proof. unfold hk_plan_create. stable. Qed.

Lemma add_unmoved strip plan out spec :
  triple (unmoved s0) (hk_plan_add_hook strip plan out spec) (λ _, unmoved s0).
Proof. unfold hk_plan_add_hook, hk_plan_add_hook_impl. stable. Qed.

Lemma release_unmoved : triple (unmoved s0) hk_plan_release (λ _, unmoved s0).
Proof. unfold hk_plan_release, hk_hook_free. stable. Qed.

Lemma runtime_release_unmoved b : triple (unmoved s0) (hk_runtime_release b) (λ _, unmoved s0).
Proof. unfold hk_runtime_release, hk_runtime_free_pending_hooks, hk_hook_free. stable. Qed.
End Release.

(** ** The first hook of a plan *)

(** The hook was made from the specification, whose target it owns a copy of. *)
Definition asks {E} (spec : hk_hook_spec) (h : hk_hook E) : Prop :=
  ∃ t hp hp', hk_hook_copy_target (hs_target spec) hp = ((HK_STATUS_OK, Some t), hp') ∧
    h_spec h = spec <| hs_struct_size := SIZEOF_HOOK_SPEC |> <| hs_target := t |>.

Lemma add_first {E} strip spec :
  triple (λ s : sys E, pl_hooks (s_plan s) = [])
    (hk_plan_add_hook strip true true (Some spec))
    (λ r s, match r.1 with
            | HK_STATUS_OK => ∃ h, pl_hooks (s_plan s) = [h] ∧ h_address h = r.2 ∧ r.2 ≠ 0 ∧
                unmutated (h_result h) ∧ commit_after (h_spec h) = [] ∧ asks spec h
            | _ => True
            end).
Proof.
  set (I := λ s : sys E, pl_hooks (s_plan s) = []).
  assert (Hh : ∀ A (m : M heap A), triple I (on_heap m) (λ _, I)) by (intros A m; by apply triple_zoom).
  assert (Hi : ∀ A (m : M ids A), triple I (on_ids m) (λ _, I)) by (intros A m; by apply triple_zoom).
  unfold hk_plan_add_hook, hk_plan_add_hook_impl.
  eapply (triple_bind _ _ _ (λ p s, I s ∧ pl_hooks p = [])); [by apply triple_gets|].
  intros p. apply triple_pure. intros Hp. cbn [negb orb].
  destruct (negb _); [by apply triple_ret|]. destruct (add_hook_rejects p spec) eqn:Er; [by apply triple_ret|].
  assert (Hafter : commit_after spec = []).
  { apply add_hook_accepts in Er as (_ & _ & _ & Ha & _). destruct (commit_after spec) as [|a l]; [done|].
    destruct (Ha a ltac:(by left)) as (_ & h & Hin & _). rewrite Hp in Hin. by apply not_elem_of_nil in Hin. }
  assert (Hcopy : triple I (on_heap (hk_hook_copy_target (hs_target spec)))
    (λ r s, I s ∧ ∀ t, r = (HK_STATUS_OK, Some t) →
       ∃ hp hp', hk_hook_copy_target (hs_target spec) hp = ((HK_STATUS_OK, Some t), hp'))).
  { intros s Hs. unfold on_heap, zoom. destruct (hk_hook_copy_target _ (s_heap s)) as [r hp'] eqn:Ec.
    split; [done|]. cbn [fst]. intros t ->. by exists (s_heap s), hp'. }
  repeat match goal with
  | |- triple _ (bind (on_heap (hk_hook_copy_target _)) _) _ =>
      eapply triple_bind; [apply Hcopy|intros ?; apply triple_pure; intros Hcopied]
  | |- triple _ (bind (on_heap _) _) _ => eapply triple_bind; [apply Hh|intros ?]
  | |- triple _ (bind (on_ids _) _) _ => eapply triple_bind; [apply Hi|intros ?]
  | |- triple _ (ret (_, _)) _ => by apply triple_ret
  | |- triple _ (if ?a =? 0 then _ else _) _ => destruct (Z.eqb_spec a 0)
  | |- triple _ (if ?b then _ else _) _ => destruct b
  | |- triple _ (let '(_, _) := ?x in _) _ => destruct x
  | |- triple _ (match ?x with _ => _ end) _ => destruct x
  end.
  intros s Hs. unfold bind, on_plan, modify, ret. cbn [fst snd s_plan set_field pl_hooks]. rewrite Hs.
  eexists. split; [done|]. split_and!; try done. destruct (Hcopied _ eq_refl) as (hp & hp' & E1).
  by exists h, hp, hp'.
Qed.

(** The statuses a commit ends with. *)
Definition commit_status (st : hk_status) : Prop :=
  match st with HK_STATUS_UNAVAILABLE | HK_STATUS_INVALID_ARGUMENT => False | _ => True end.

Section Status.
Context {E : Type}.
Local Abbreviation ends m := (triple (λ _ : sys E, True) m (λ st _, commit_status st)).

Lemma commit_ends_bind {A} (m : M (sys E) A) k : (∀ a, ends (k a)) → ends (bind m k).
Proof. intros H. by eapply (triple_bind _ _ _ (λ _ _, True)). Qed.
Lemma ends_ret st : commit_status st → ends (ret st).
Proof. intros H. by apply triple_ret. Qed.

Lemma group_ends idx : ends (hk_plan_commit_group idx).
Proof.
  unfold hk_plan_commit_group. do 4 (apply commit_ends_bind; intros ?). destruct (negb _); [by apply ends_ret|].
  apply commit_ends_bind. intros first. destruct (first ≫= h_matched_engine) as [v|]; [|by apply ends_ret].
  cbv zeta. apply commit_ends_bind. intros [cells|]; [|by apply ends_ret].
  do 8 (apply commit_ends_bind; intros ?). by apply ends_ret.
Qed.

Lemma loop_ends before order n : ends (commit_loop before order n).
Proof.
  revert before n. induction order as [|i order IH]; intros before n; cbn [commit_loop]; [by apply ends_ret|].
  destruct n as [|n]; [|apply IH]. apply commit_ends_bind. intros [h|]; [|apply IH]. apply commit_ends_bind. intros _.
  destruct (negb _); [apply IH|]. do 3 (apply commit_ends_bind; intros ?). cbv zeta.
  destruct (1 <? _)%nat; [|apply commit_ends_bind; intros _; apply IH].
  eapply triple_bind; [apply group_ends|]. intros st s Hst.
  destruct st; try done; apply (IH _ _ s I).
Qed.

Lemma commit_ends :
  triple (λ _ : sys E, True) (hk_plan_commit true) (λ r _, commit_status r.1).
Proof.
  assert (Hb : ∀ A (m : M (sys E) A) k, (∀ a, triple (λ _, True) (k a) (λ r _, commit_status r.1)) →
    triple (λ _, True) (bind m k) (λ (r : hk_status * option hk_report) _, commit_status r.1)).
  { intros A m k H. by eapply (triple_bind _ _ _ (λ _ _, True)). }
  unfold hk_plan_commit. apply Hb. intros p. cbn [negb]. destruct (_ && _); [by apply triple_ret|].
  apply Hb. intros []; cbn [negb]; [|by apply triple_ret].
  apply Hb. intros [l|]; [|by apply triple_ret]. apply Hb. intros [order|]; [|by apply triple_ret].
  apply Hb. intros _. eapply triple_bind; [apply loop_ends|]. intros st s Hst.
  destruct st; try done. refine (Hb _ _ _ _ s I). intros l'. apply Hb. intros [r|]; [|by apply triple_ret].
  do 2 (apply Hb; intros _). by apply triple_ret.
Qed.
End Status.

(** ** The calls *)

(** The calls that hook something to call, with their arguments. *)
Inductive hook_call : Type :=
  | HookObjc (buffer : string) (cls sel replacement out : Z)
  | HookFunction (buffer : string) (function replacement out : Z) (ids : option string).

Definition call_out (c : hook_call) : Z :=
  match c with HookObjc _ _ _ _ out => out | HookFunction _ _ _ out _ => out end.
Definition call_ids (c : hook_call) : option string :=
  match c with HookObjc _ _ _ _ _ => None | HookFunction _ _ _ _ ids => ids end.
Definition call_build (c : hook_call) (counter : Z) : Z * option hk_hook_spec * Z :=
  match c with
  | HookObjc buffer cls sel replacement out =>
      hk_legacy_build_objc_spec counter cls sel replacement out buffer LEGACY_ID_CAP
  | HookFunction buffer function replacement out _ =>
      hk_legacy_build_function_spec counter function replacement out buffer LEGACY_ID_CAP
  end.

(** ** Identifiers of specifications *)

Lemma pretty_go_length k x s :
  (x < 10 ^ N.of_nat k)%N → (String.length (pretty_N_go x s) <= k + String.length s)%nat.
Proof.
  revert x s. induction k as [|k IH]; intros x s Hx.
  { replace x with 0%N by (cbn in Hx; lia). rewrite pretty_N_go_0. lia. }
  destruct (decide (x = 0%N)) as [->|Hne]; [rewrite pretty_N_go_0; lia|].
  rewrite pretty_N_go_step by lia. etrans; [apply IH|cbn; lia].
  apply N.Div0.div_lt_upper_bound. rewrite Nat2N.inj_succ, N.pow_succ_r' in Hx. lia.
Qed.

Lemma pretty_length n : (n < 2 ^ 64)%N → (String.length (pretty n) <= 20)%nat.
Proof.
  intros Hn. unfold pretty, pretty_N. case_decide; [cbn; lia|].
  etrans; [apply (pretty_go_length 20)|cbn; lia]. etrans; [exact Hn|]. by vm_compute.
Qed.

Lemma substring_all s n : (String.length s <= n)%nat → String.substring 0 n s = s.
Proof.
  revert n. induction s as [|c s IH]; intros n Hn; [by destruct n|].
  destruct n as [|n]; cbn in Hn |- *; [lia|]. f_equal. apply IH. lia.
Qed.

Lemma length_string_app s1 s2 : String.length (s1 +:+ s2) = (String.length s1 + String.length s2)%nat.
Proof.
  induction s1 as [|c s1 IH]; [done|].
  change (S (String.length (s1 +:+ s2)) = S (String.length s1 + String.length s2))%nat. by rewrite IH.
Qed.

(** The buffer is long enough: nothing of a numbered name is cut off. *)
Lemma snprintf_numbered buffer prefix n :
  (String.length prefix <= 15)%nat → 0 <= n < 2 ^ 64 →
  snprintf buffer LEGACY_ID_CAP (numbered prefix n) = numbered prefix n.
Proof.
  intros Hp Hn. unfold snprintf, LEGACY_ID_CAP. cbn [Z.eqb]. apply substring_all.
  unfold numbered. rewrite !length_string_app. cbn.
  pose proof (pretty_length (Z.to_N n) ltac:(lia)). lia.
Qed.

Lemma numbered_inj prefix n m : 0 <= n → 0 <= m → numbered prefix n = numbered prefix m → n = m.
Proof.
  intros Hn Hm H. unfold numbered in H. do 2 apply (inj (String.app _)) in H.
  apply (inj pretty) in H. lia.
Qed.

(** The specifications a sequence of calls builds. *)
Fixpoint build_all (calls : list hook_call) (counter : Z) : list hk_hook_spec :=
  match calls with
  | [] => []
  | c :: calls =>
      let '((_, spec), counter) := call_build c counter in
      option_list spec ++ build_all calls counter
  end.

(** A name with a counter above [n]. *)
Definition named_above (n : Z) (spec : hk_hook_spec) : Prop :=
  ∃ k, n < k < 2 ^ 64 ∧ (hs_stable_hook_id spec = Some (numbered "legacy-objc" k) ∨
                         hs_stable_hook_id spec = Some (numbered "legacy-function" k)).

Lemma call_build_name c n :
  0 <= n → n + 1 < 2 ^ 64 →
  match call_build c n with
  | ((_, Some spec), m) => m = n + 1 ∧
      (hs_stable_hook_id spec = Some (numbered "legacy-objc" m) ∨
       hs_stable_hook_id spec = Some (numbered "legacy-function" m))
  | ((_, None), m) => m = n
  end.
Proof.
  intros Hn Hm. assert (Hu : u64 (n + 1) = n + 1) by (apply u64_small; unfold is_u64; lia).
  destruct c; unfold call_build, hk_legacy_build_objc_spec, hk_legacy_build_function_spec, init_spec_id;
    cbv zeta; rewrite Hu; [destruct (_ || _ || _)|destruct (_ || _)]; try done; (split; [done|]);
    cbn [hs_stable_hook_id init_spec]; rewrite snprintf_numbered by (cbn; lia); auto.
Qed.

Lemma build_all_above calls n :
  0 <= n → n + Z.of_nat (length calls) < 2 ^ 64 → Forall (named_above n) (build_all calls n).
Proof.
  revert n. induction calls as [|c calls IH]; intros n Hn Hl; cbn [build_all length] in *; [done|].
  pose proof (call_build_name c n Hn ltac:(lia)) as Hb.
  destruct (call_build c n) as [[code [spec|]] m]; cbn [option_list app].
  - destruct Hb as [-> Hb]. constructor; [exists (n + 1); split; [lia|done]|].
    eapply Forall_impl; [apply IH; lia|]. intros x (k & Hk & Hx). exists k. split; [lia|done].
  - subst m. apply IH; lia.
Qed.

(** The specifications built by any sequence of calls of one process have
    pairwise different identifiers, none of them cut off by the buffer, so that
    a plan that takes several of them refuses none for its name; this until
    the 64-bit counter wraps. *)
Theorem legacy_ids_distinct calls counter :
  0 <= counter → counter + Z.of_nat (length calls) < 2 ^ 64 →
  NoDup (hs_stable_hook_id <$> build_all calls counter) ∧
  Forall (λ spec, is_Some (hs_stable_hook_id spec)) (build_all calls counter).
Proof.
  intros Hn Hl. split.
  2:{ eapply Forall_impl; [by apply build_all_above|]. intros spec (k & _ & [->| ->]); by eexists. }
  revert counter Hn Hl. induction calls as [|c calls IH]; intros n Hn Hl; cbn [build_all length] in *.
  { apply NoDup_nil_2. }
  pose proof (call_build_name c n Hn ltac:(lia)) as Hb.
  destruct (call_build c n) as [[code [spec|]] m]; cbn [option_list app].
  - destruct Hb as [-> Hb]. cbn [fmap list_fmap]. apply NoDup_cons. split; [|apply IH; lia].
    intros (x & Heq & Hx)%list_elem_of_fmap.
    pose proof (build_all_above calls (n + 1) ltac:(lia) ltac:(lia)) as Ha.
    rewrite Forall_forall in Ha. destruct (Ha x Hx) as (k & Hk & Hxk).
    destruct Hb as [Hb|Hb], Hxk as [Hxk|Hxk]; rewrite Hb, Hxk in Heq; apply (inj Some) in Heq;
      try (by apply numbered_inj in Heq; lia); by inversion Heq.
  - subst m. apply IH; lia.
Qed.

(** ** Calls on the core *)
Section Calls.
Context {E K : Type} `{PacOps}.
Context (build : platform_build (E := E)) (images : list dyld_image) (mem : memory).
Context (dladdr : Z → option (option string)).
Local Abbreviation state := (facade E).
Local Abbreviation hook := (hk_hook E).
Implicit Types (s : state) (h : hook).

Lemma returns_core {A} (m : M (sys E) A) P R s (Q : A → state → Prop) :
  triple P m R → P (fc_core s) → (∀ a c, R a c → Q a (s <| fc_core := c |>)) → returns (core m) s Q.
Proof.
  intros Hm HP HQ. unfold returns, core, on_core, lift. cbn. specialize (Hm _ HP).
  destruct (m (fc_core s)) as [a c]. by apply HQ.
Qed.

Lemma core_bind {A B} (m : M (sys E) A) (k : A → F state B) P R s Q :
  triple P m R → P (fc_core s) → (∀ a c, R a c → returns (k a) (s <| fc_core := c |>) Q) →
  returns (fbind (core m) k) s Q.
Proof.
  intros Hm HP Hk. apply (returns_bind _ _ _ (λ a s', ∃ c, s' = s <| fc_core := c |> ∧ R a c)).
  - eapply returns_core; [exact Hm|exact HP|]. intros a c Hr. by exists c.
  - intros a s' (c & -> & Hr). by apply Hk.
Qed.

Lemma triple_and {A} (m : M (sys E) A) P P' R R' :
  triple P m R → triple P' m R' → triple (λ c, P c ∧ P' c) m (λ a c, R a c ∧ R' a c).
Proof. intros H1 H2 c [Hp Hp']. split; [by apply H1|by apply H2]. Qed.

(** The pointer may be written. *)
Definition cell_ok (out : Z) s : Prop := out = 0 ∨ is_Some (fc_cells s !! out).

(** What a pointer the caller passed holds, 0 for NULL. *)
Definition held (out : Z) (cells : gmap Z Z) : Z := if out =? 0 then 0 else default 0 (cells !! out).

Definition only_cell (out : Z) (cells cells' : gmap Z Z) : Prop :=
  ∀ p, p ≠ out ∨ out = 0 → cells' !! p = cells !! p.

Lemma only_refl out cells : only_cell out cells cells.
Proof. done. Qed.
Lemma only_insert out cells v : out ≠ 0 → only_cell out cells (<[out := v]> cells).
Proof. intros Ho p [Hp|?]; [by rewrite lookup_insert_ne|done]. Qed.
Lemma only_none cells cells' : only_cell 0 cells cells' → cells' = cells.
Proof. intros Ho. apply map_eq. intros p. apply Ho. by right. Qed.
Lemma only_trans out c1 c2 c3 : only_cell out c1 c2 → only_cell out c2 c3 → only_cell out c1 c3.
Proof. intros H1 H2 p Hp. by rewrite H2, H1. Qed.

Lemma returns_store out v s (Q : unit → state → Prop) :
  is_Some (fc_cells s !! out) → Q tt (s <| fc_cells := <[out := v]> (fc_cells s) |>) →
  returns (store_cell out v) s Q.
Proof. intros [x Hx] HQ. unfold returns, store_cell. rewrite Hx. exact HQ. Qed.

(** ** One result *)

(** How a settled hook is reported: the code and what the caller's pointer
    holds. *)
Definition reported h (out r original : Z) : Prop :=
  (r_mutation (h_result h) = HK_MUTATION_NONE → original = 0) ∧
  match r_outcome (h_result h) with
  | HK_OUTCOME_ACTIVE =>
      r = if (out =? 0) || (r_original_available (h_result h) && negb (original =? 0))
          then HK_LEGACY_OK else HK_LEGACY_ERR
  | HK_OUTCOME_NO_ROUTE | HK_OUTCOME_FAILED_SAFE => r = HK_LEGACY_ERR_NOT_SUPPORTED
  | HK_OUTCOME_FAILED_PARTIAL => r = HK_LEGACY_ERR_PARTIAL
  | _ => r = HK_LEGACY_ERR
  end.

Lemma held_none cells : held 0 cells = 0.
Proof. done. Qed.
Lemma held_insert out cells v : out ≠ 0 → held out (<[out := v]> cells) = v.
Proof. intros Ho. unfold held. rewrite (proj2 (Z.eqb_neq _ _) Ho). by rewrite lookup_insert_eq. Qed.

Lemma plan_hook_spec address s :
  returns (plan_hook address) s (λ f s', f = hook_at (s_plan (fc_core s)) address ∧ s' = s).
Proof. unfold returns, plan_hook, core, on_core, lift, gets. cbn. by destruct s. Qed.

Lemma map_result_spec address out s :
  cell_ok out s →
  returns (map_result address out) s (λ r s', fc_core s' = fc_core s ∧
    only_cell out (fc_cells s) (fc_cells s') ∧ cell_ok out s' ∧
    (∀ h, hook_at (s_plan (fc_core s)) address = Some h → honest (h_result h) →
      reported h out r (held out (fc_cells s'))) ∧
    (r = HK_LEGACY_OK → ∃ h, hook_at (s_plan (fc_core s)) address = Some h ∧
      r_outcome (h_result h) = HK_OUTCOME_ACTIVE)).
Proof.
  intros Hc. unfold map_result. eapply returns_bind; [apply plan_hook_spec|].
  intros f s1 [-> ->]. destruct (hook_at _ _) as [h|]; cbn [hk_hook_copy_result]; [|by apply returns_ret].
  set (Q := λ r s', _ : Prop).
  assert (Hq : ∀ r cells, only_cell out (fc_cells s) cells → out = 0 ∨ is_Some (cells !! out) →
    (honest (h_result h) → reported h out r (held out cells)) →
    (r = HK_LEGACY_OK → r_outcome (h_result h) = HK_OUTCOME_ACTIVE) → Q r (s <| fc_cells := cells |>)).
  { intros r cells H1 H2 H3 H4. split_and!; [done|done|done| |intros Hr; exists h; by split; [|apply H4]].
    intros h' [= <-]. exact H3. }
  assert (Hsame : ∀ r, out = 0 → (honest (h_result h) → reported h out r 0) →
    (r = HK_LEGACY_OK → r_outcome (h_result h) = HK_OUTCOME_ACTIVE) → returns (fret r) s Q).
  { intros r -> Hr Hr'. apply returns_ret.
    specialize (Hq r (fc_cells s) (only_refl _ _) (or_introl eq_refl) Hr Hr'). by destruct s. }
  destruct (Z.eqb_spec out 0) as [->|Hne]; cbn [negb andb].
  { eapply returns_bind; [by apply (returns_ret _ _ (λ _ s', s' = s))|]. intros [] s' ->.
    destruct (r_outcome (h_result h)) eqn:Eo; apply Hsame; rewrite ?Eo; try done; unfold reported; rewrite Eo; done. }
  destruct Hc as [?|Hc]; [done|]. clear Hsame.
  set (b := bool_decide (r_mutation (h_result h) = HK_MUTATION_NONE)).
  eapply (returns_bind _ _ _ (λ _ s', s' = s <| fc_cells := if b then <[out := 0]> (fc_cells s) else fc_cells s |>)).
  { destruct b; [by apply returns_store|apply returns_ret; by destruct s]. }
  intros [] s' ->. set (cells := if b then _ else _).
  assert (Hcells : is_Some (cells !! out) ∧ only_cell out (fc_cells s) cells ∧
    (r_mutation (h_result h) = HK_MUTATION_NONE → held out cells = 0)).
  { unfold cells, b. case_bool_decide as Hm; split_and!; try done.
    - rewrite lookup_insert_eq. by eexists.
    - by apply only_insert.
    - intros _. by apply held_insert. }
  destruct Hcells as (Hsome & Honly & Hzero). unfold honest, reported in Hq. 
  rewrite (proj2 (Z.eqb_neq _ _) Hne) in Hq. cbn [orb] in Hq.
  destruct (r_outcome (h_result h)) eqn:Eo;
    try (apply returns_ret, Hq; [done|by right|intros _; by split|done]).
  destruct (r_original_available (h_result h)); cbn [negb andb] in Hq |- *;
    [|apply returns_ret, Hq; [done|by right| |done]; intros Hm; split; [congruence|done]].
  cbv zeta. set (v := hk_original_slot_load _).
  set (cells' := if v =? 0 then cells else <[out := v]> cells).
  eapply (returns_bind _ _ _ (λ _ s', s' = s <| fc_cells := cells' |>)).
  { unfold cells'. destruct (v =? 0); cbn [negb]; [by apply returns_ret|by apply returns_store]. }
  intros [] s' ->.
  assert (Hc' : is_Some (cells' !! out) ∧ only_cell out (fc_cells s) cells').
  { unfold cells'. destruct (v =? 0); [done|]. split; [rewrite lookup_insert_eq; by eexists|].
    eapply only_trans; [done|by apply only_insert]. }
  destruct Hc' as [[x Hx] Honly'].
  eapply (returns_bind _ _ _ (λ y s', y = x ∧ s' = s <| fc_cells := cells' |>)).
  { apply returns_fetch. cbn [fc_cells set_field]. by rewrite Hx. }
  intros y s' [-> ->]. apply returns_ret, Hq; [done|right; by eexists| |done]. intros Hm.
  assert (Hheld : held out cells' = x) by (unfold held; rewrite (proj2 (Z.eqb_neq _ _) Hne), Hx; done).
  rewrite Hheld. split; [congruence|]. by destruct (x =? 0).
Qed.

(** Publishing early writes at most the caller's pointer, and nothing where it
    refuses. *)
Lemma publish_early_spec address out s :
  cell_ok out s →
  returns (publish_early address out) s (λ ok s', fc_core s' = fc_core s ∧
    only_cell out (fc_cells s) (fc_cells s') ∧ cell_ok out s' ∧ (ok = false → fc_cells s' = fc_cells s)).
Proof.
  intros Hc. unfold publish_early. destruct (Z.eqb_spec out 0) as [->|Hne]; [by apply returns_ret|].
  destruct Hc as [?|Hc]; [done|]. eapply returns_bind; [apply plan_hook_spec|]. intros f s1 [_ ->].
  destruct f as [h|]; cbn [hk_hook_copy_result]; [|by apply returns_ret; split_and!; try right].
  destruct (negb (bool_decide _)); [by apply returns_ret; split_and!; try right|]. cbv zeta.
  set (a := ci_address _).
  eapply (returns_bind _ _ _ (λ _ s', s' = s <| fc_cells := if a =? 0 then fc_cells s else <[out := a]> (fc_cells s) |>)).
  { destruct (a =? 0); cbn [negb]; [apply returns_ret; by destruct s|by apply returns_store]. }
  intros [] s' ->. apply returns_ret. split_and!; try done; cbn [fc_cells set_field]; destruct (a =? 0); try done.
  - by apply only_insert.
  - by right.
  - right. cbn. rewrite lookup_insert_eq. by eexists.
Qed.

(** ** One call *)

(** Nothing was mutated, and the answer is a refusal. *)
Definition refused (s0 : state) (r : Z) s : Prop :=
  unmoved (fc_core s0) (fc_core s) ∧ fc_cells s = fc_cells s0 ∧ r ≠ HK_LEGACY_OK.

(** The plan of the one hook that was asked for was committed, and the answer is
    what became of it. *)
Definition settled (s0 : state) spec ids (out r : Z) s : Prop :=
  ∃ routed c1 status report c2,
    hk_legacy_route_function_spec dladdr (Some spec) ids true = (HK_LEGACY_OK, Some routed) ∧
    unmoved (fc_core s0) c1 ∧ (∃ h, pl_hooks (s_plan c1) = [h] ∧ asks routed h) ∧
    hk_plan_commit true c1 = ((status, report), c2) ∧
    unmoved c2 (fc_core s) ∧ only_cell out (fc_cells s0) (fc_cells s) ∧
    match status with
    | HK_STATUS_OK => ∃ h, pl_hooks (s_plan c2) = [h] ∧ asks routed h ∧ honest (h_result h) ∧
        reported h out r (held out (fc_cells s))
    | _ => r = HK_LEGACY_ERR
    end.

Lemma map_status_err status : commit_status status → status ≠ HK_STATUS_OK → map_status status = HK_LEGACY_ERR.
Proof. by destruct status. Qed.

Lemma map_status_ok status : status ≠ HK_STATUS_OK → map_status status ≠ HK_LEGACY_OK.
Proof. by destruct status. Qed.

(** A hook that can be committed and reported. *)
Definition single spec (address : Z) (c : sys E) : Prop :=
  ∃ h0 h, alike h0 h ∧ pl_hooks (s_plan c) = [h] ∧ h_address h0 = address ∧
    commit_after (h_spec h0) = [] ∧ asks spec h0.

Lemma same_asks spec h h' : same_hook h h' → asks spec h → asks spec h'.
Proof. intros Hs (t & hp & hp' & H1 & H2). exists t, hp, hp'. by rewrite (sh_spec _ _ Hs). Qed.

Lemma commit_single spec address c :
  single spec address c →
  (∃ h, pl_hooks (s_plan c) = [h] ∧ asks spec h) ∧
  ∃ status report c2, hk_plan_commit true c = ((status, report), c2) ∧ commit_status status ∧
    (status = HK_STATUS_OK → ∃ h, pl_hooks (s_plan c2) = [h] ∧ h_address h = address ∧ asks spec h ∧
       honest (h_result h)).
Proof.
  intros (h0 & h & [Hsame Hm] & Hp & Ha & Hafter & Hask). split; [exists h; split; [done|by eapply same_asks]|].
  pose proof (commit_ends c I) as Hst.
  assert (W : order_wf (s_plan c)).
  { split; rewrite Hp; [apply NoDup_singleton|].
    intros i x a Hi Hax. apply list_lookup_singleton_Some in Hi as [_ <-].
    rewrite (sh_spec _ _ Hsame), Hafter in Hax. by apply not_elem_of_nil in Hax. }
  pose proof (commit_settles c W c eq_refl) as Hv.
  destruct (hk_plan_commit true c) as [[status report] c2]. cbn [fst snd] in Hst, Hv. exists status, report, c2.
  split; [done|]. split; [done|]. intros ->. destruct (Hv eq_refl) as [_ [Hf _ _ _ _]].
  rewrite Hp in Hf. apply Forall2_cons_inv_l in Hf as (h' & l & (Hs & _ & Hhon & Heq) & Hl & ->).
  apply Forall2_nil_inv_l in Hl as ->. exists h'. split; [done|].
  split; [rewrite (sh_address _ _ Hs), (sh_address _ _ Hsame); done|].
  split; [eapply same_asks; [exact Hs|]; by eapply same_asks|].
  destruct (is_prepared h) eqn:Ep; [by apply Hhon|]. rewrite Heq by done. apply Hm.
Qed.

Lemma single_found address c h : pl_hooks (s_plan c) = [h] → h_address h = address →
  hook_at (s_plan c) address = Some h.
Proof. intros Hp Ha. unfold hook_at. rewrite Hp. cbn. by rewrite decide_True. Qed.

(** From the new plan to the end of its commit. *)
Lemma apply_in_plan_spec spec out ids s :
  pl_hooks (s_plan (fc_core s)) = [] → cell_ok out s →
  returns (apply_in_plan dladdr spec out ids) s (λ r s',
    (refused s r s' ∨ settled s spec ids out r s') ∧ cell_ok out s').
Proof.
  intros Hnew Hc. unfold apply_in_plan.
  destruct (hk_legacy_route_function_spec dladdr (Some spec) ids true) as [route routed] eqn:Er.
  destruct (Z.eqb_spec route HK_LEGACY_OK) as [->|Hroute]; cbn [negb].
  2:{ apply returns_ret. split; [by left|done]. }
  destruct routed as [routed|].
  2:{ unfold hk_legacy_route_function_spec in Er. repeat case_match; done. }
  pose proof (unmoved_stable (fc_core s)) as Hst.
  assert (Hrefuse : ∀ r c, unmoved (fc_core s) c → r ≠ HK_LEGACY_OK →
    returns (fret r) (s <| fc_core := c |>) (λ r s', (refused s r s' ∨ settled s spec ids out r s') ∧ cell_ok out s')).
  { intros r c Hu Hr. apply returns_ret. split; [by left|exact Hc]. }
  eapply core_bind; [apply triple_and; [apply (add_unmoved (fc_core s))|apply add_first]|split; [reflexivity|done]|].
  intros [status address] c1 [Hu1 Hadd]. cbn [fst snd] in Hadd.
  destruct (decide (status = HK_STATUS_OK)) as [->|Hne].
  2:{ rewrite bool_decide_false by done. cbn [negb orb]. by apply Hrefuse; [|apply map_status_ok]. }
  rewrite bool_decide_true by done. cbn [negb orb]. destruct Hadd as (h0 & Hp & Ha & Hnz & Hm & Hafter & Hask).
  rewrite (proj2 (Z.eqb_neq _ _) Hnz).
  assert (H0 : Forall2 alike [h0] (pl_hooks (s_plan c1))).
  { rewrite Hp. constructor; [|constructor]. by split. }
  eapply core_bind; [apply triple_and; [apply (stable_analyze (unmoved (fc_core s)))|apply (analyze_keeps true [h0])]|by split|].
  intros [st1 rep1] c2 [Hu2 H2]. cbn [fst].
  destruct (bool_decide (st1 = HK_STATUS_OK)); cbn [negb]; [|by apply Hrefuse].
  eapply core_bind; [apply triple_and; [apply (stable_prepare (unmoved (fc_core s)))|apply (prepare_keeps true [h0])]|by split|].
  intros [st2 rep2] c3 [Hu3 H3]. cbn [fst].
  destruct (bool_decide (st2 = HK_STATUS_OK)); cbn [negb]; [|by apply Hrefuse].
  eapply returns_bind; [by apply (publish_early_spec address out)|].
  intros ok s4 (Hc4 & Honly & Hcell & Hsame). cbn [fc_core fc_cells set_field] in Hc4, Honly, Hsame.
  destruct ok; cbn [negb].
  2:{ apply returns_ret. split; [left|done]. split_and!; [by rewrite Hc4|by apply Hsame|done]. }
  assert (Hsingle : single routed address c3).
  { apply Forall2_cons_inv_l in H3 as (h & l & Hh & Hl & Heq). apply Forall2_nil_inv_l in Hl as ->.
    by exists h0, h. }
  destruct (commit_single routed address c3 Hsingle) as (Hasked & status & report & c5 & Hcommit & Hends & Hok).
  eapply (core_bind _ _ (λ c, c = c3) (λ a c, a = (status, report) ∧ c = c5)); [|done|].
  { intros c ->. by rewrite Hcommit. }
  intros a c [-> ->]. cbn [fst].
  eapply returns_bind; [by apply (map_result_spec address out)|].
  intros r s6 (Hc6 & Honly6 & Hcell6 & Hrep & _). apply returns_ret. split; [right|done].
  exists routed, c3, status, report, c5. cbn [fc_core fc_cells set_field] in Hc6, Honly6, Hrep. rewrite Hc6.
  split_and!; [done|done|done|done|reflexivity|by eapply only_trans|].
  destruct (decide (status = HK_STATUS_OK)) as [->|Hne].
  - rewrite bool_decide_true by done. destruct (Hok eq_refl) as (h & Hp5 & Ha5 & Hask5 & Hh5). exists h.
    split_and!; [done|done|done|]. apply Hrep; [by apply single_found|done].
  - rewrite bool_decide_false by done. by destruct status.
Qed.

(** *** The runtime around it *)

Lemma create_first config :
  triple (λ _ : sys E, True) (hk_plan_create true true config)
    (λ st c, st = HK_STATUS_OK → pl_hooks (s_plan c) = []).
Proof.
  unfold hk_plan_create. cbn [negb orb].
  destruct (match config with Some _ => _ | None => false end); [by apply triple_ret|].
  eapply (triple_bind _ _ _ (λ _ _, True)); [done|intros []; cbn [negb]; [|by apply triple_ret]].
  eapply (triple_bind _ _ _ (λ _ _, True)); [done|intros id]. cbv zeta.
  eapply (triple_bind _ _ _ (λ _ _, True)); [done|intros []; cbn [negb]; [|by apply triple_ret]].
  by intros c _ _.
Qed.

Definition ended (s0 : state) spec ids (out r : Z) s : Prop :=
  (refused s0 r s ∨ settled s0 spec ids out r s) ∧ cell_ok out s.

Lemma ended_moves s0 spec ids out r s c :
  ended s0 spec ids out r s → unmoved (fc_core s) c → ended s0 spec ids out r (s <| fc_core := c |>).
Proof.
  intros [Hv Hc] Hu. split; [|exact Hc]. destruct Hv as [(H1 & H2 & H3)|(rt & c1 & st & rep & c2 & H0 & H1 & Hp & H2 & H3 & H4)].
  - left. split_and!; [by etrans|done|done].
  - right. exists rt, c1, st, rep, c2. split_and!; [done|done|done|done|by etrans|apply H4|apply H4].
Qed.

Lemma ended_from s0 s1 spec ids out r s :
  unmoved (fc_core s0) (fc_core s1) → fc_cells s1 = fc_cells s0 → ended s1 spec ids out r s →
  ended s0 spec ids out r s.
Proof.
  intros Hu Hcells [Hv Hc]. split; [|done]. destruct Hv as [(H1 & H2 & H3)|(rt & c1 & st & rep & c2 & H0 & H1 & Hp & H2 & H3 & H4)].
  - left. split_and!; [by etrans|congruence|done].
  - right. exists rt, c1, st, rep, c2. split_and!; [done|by etrans|done|done|done| |apply H4].
    rewrite <- Hcells. apply H4.
Qed.

Lemma returns_last {A} (m : M (sys E) A) s0 spec ids out r s :
  (∀ c, triple (unmoved c) m (λ _, unmoved c)) → ended s0 spec ids out r s →
  returns (fbind (core m) (λ _, fret r)) s (ended s0 spec ids out).
Proof.
  intros Hm He. eapply core_bind; [apply (Hm (fc_core s))|reflexivity|].
  intros a c Hu. apply returns_ret. by apply ended_moves.
Qed.

Lemma apply_in_runtime_spec spec out ids s :
  cell_ok out s → returns (apply_in_runtime dladdr spec out ids) s (ended s spec ids out).
Proof.
  intros Hc. unfold apply_in_runtime.
  eapply core_bind; [apply triple_and; [apply (create_unmoved (fc_core s))|apply create_first]|split; [reflexivity|done]|].
  intros created c [Hu Hfirst].
  eapply (returns_bind _ _ _ (ended s spec ids out)); [|intros r s' He; apply returns_last; [intros c'; apply runtime_release_unmoved|done]].
  assert (Hs : ended s spec ids out HK_LEGACY_ERR (s <| fc_core := c |>)) by (split; [by left|exact Hc]).
  destruct created; try by apply returns_ret.
  eapply returns_bind; [apply (apply_in_plan_spec spec out ids); [by apply Hfirst|exact Hc]|].
  intros r s' He. apply returns_last; [intros c'; apply release_unmoved|].
  by eapply (ended_from _ (s <| fc_core := c |>)).
Qed.

(** *** The runtime's creation *)

Section Creation.
Context (I : sys E → Prop).
Hypothesis I_heap : ∀ c hp, I c → I (c <| s_heap := hp |>).
Hypothesis I_ids : ∀ c i, I c → I (c <| s_ids := i |>).

Lemma create_keeps config override out c :
  Forall (image_mapped mem) images → I c →
  returns (hk_runtime_create_impl images mem build config override out) c (λ _, I).
Proof.
  intros Hm Hc. unfold hk_runtime_create_impl.
  destruct out; cbn [negb]; [|by apply returns_ret].
  destruct (match config with Some _ => _ | None => false end); [by apply returns_ret|].
  assert (Hh : ∀ A (m : M heap A) c, I c → returns (lift (on_heap m)) c (λ a c', I c' ∧ a = (m (s_heap c)).1)).
  { intros A m c1 H1. apply returns_lift. unfold on_heap, zoom. destruct (m (s_heap c1)). split; [by apply I_heap|done]. }
  eapply returns_bind; [by apply Hh|]. intros [] c1 [H1 _]; cbn [negb]; [|by apply returns_ret].
  eapply (returns_bind _ _ _ (λ _, I)).
  { apply returns_lift. unfold on_ids, zoom. destruct (hk_id_generate (s_ids c1)). by apply I_ids. }
  intros id c2 H2. eapply returns_bind; [by apply Hh|]. intros [l|] c3 [H3 _]; [|by apply returns_ret].
  eapply returns_bind; [by apply Hh|]. intros catalog c4 [H4 Hcat]. destruct catalog as [cat|]; [|by apply returns_ret].
  assert (He : ic_entries cat = []).
  { unfold hk_image_catalog_create, bind, ret in Hcat. destruct (alloc (s_heap c3)) as [[] h]; [|done].
    by injection Hcat as ->. }
  eapply (returns_bind _ _ _ (λ _, I)); [|intros rt c5 H5; by apply returns_ret].
  set (rt := Runtime _ _ _ _ _ _ _ _ _).
  pose proof (register_platform_spec images mem build rt cat (s_heap c4) Hm eq_refl eq_refl He) as Hr.
  unfold returns, faulty_heap in *.
  destruct (hk_runtime_register_platform_engines _ _ _ _ _) as [[a h]|]; [|done]. by apply I_heap.
Qed.
End Creation.

(** ** What a legacy call stands for *)

(** The state with the caller's runtime and plan put back. *)
Definition restored s s1 : state :=
  s1 <| fc_core := fc_core s1 <| s_runtime := s_runtime (fc_core s) |> <| s_plan := s_plan (fc_core s) |> |>.

Lemma with_runtime_spec {A} rt (m : F state A) s (Q : A → state → Prop) :
  returns m (s <| fc_core := fc_core s <| s_runtime := rt |> |>) Q →
  returns (with_runtime rt m) s (λ a s', ∃ s1, Q a s1 ∧ s' = restored s s1).
Proof.
  intros Hm. unfold with_runtime.
  eapply (core_bind _ _ (λ c, c = fc_core s)
    (λ a c, a = (s_runtime (fc_core s), s_plan (fc_core s)) ∧ c = fc_core s)); [by intros c ->|done|].
  intros a c [-> ->].
  eapply (core_bind _ _ (λ c, c = fc_core s) (λ _ c, c = fc_core s <| s_runtime := rt |>)); [by intros c ->|done|].
  intros _ c ->. eapply returns_bind; [exact Hm|]. intros r s' He.
  eapply (core_bind _ _ (λ c, c = fc_core s') (λ _ c, c = fc_core s' <| s_runtime := s_runtime (fc_core s) |>
    <| s_plan := s_plan (fc_core s) |>)); [by intros c ->|done|].
  intros _ c ->. apply returns_ret. by exists s'.
Qed.

Lemma unmoved_restored s s1 c : unmoved c (fc_core s1) → unmoved c (fc_core (restored s s1)).
Proof. intros []. by constructor. Qed.

(** The runtime that is set aside does not count. *)
Lemma unmoved_from s rt c : unmoved (fc_core (s <| fc_core := fc_core s <| s_runtime := rt |> |>)) c → unmoved (fc_core s) c.
Proof. intros []. by constructor. Qed.

(** Creating a runtime changes nothing else. *)
Definition undisturbed s s' : Prop :=
  unmoved (fc_core s) (fc_core s') ∧ s_runtime (fc_core s') = s_runtime (fc_core s) ∧
  s_plan (fc_core s') = s_plan (fc_core s) ∧ fc_cells s' = fc_cells s.

Lemma runtime_create_spec ids s :
  Forall (image_mapped mem) images → returns (runtime_create build images mem ids) s (λ _, undisturbed s).
Proof.
  intros Hm. set (I := λ c : sys E, unmoved (fc_core s) c ∧ s_runtime c = s_runtime (fc_core s) ∧ s_plan c = s_plan (fc_core s)).
  pose proof (create_keeps I ltac:(by intros c hp [[] ?]) ltac:(by intros c i [[] ?])
    (Some (SIZEOF_RUNTIME_CONFIG, HK_INSTALL_CONTEXT_EARLY_PROCESS)) ids true (fc_core s) Hm ltac:(by split)) as Hr.
  unfold returns, runtime_create, on_core, hk_runtime_create_with_backend_override in *.
  destruct (hk_runtime_create_impl _ _ _ _ _ _ _) as [[a c]|]; [|done]. cbn in *. destruct Hr as (H1 & H2 & H3).
  by split_and!.
Qed.

Lemma clear_spec out s :
  cell_ok out s →
  returns (store_if out 0) s (λ _ s', fc_core s' = fc_core s ∧ fc_counter s' = fc_counter s ∧ only_cell out (fc_cells s) (fc_cells s') ∧
    cell_ok out s' ∧ held out (fc_cells s') = 0).
Proof.
  intros Hc. unfold store_if. destruct (Z.eqb_spec out 0) as [->|Hne]; [by apply returns_ret|].
  destruct Hc as [?|Hc]; [done|]. apply returns_store; [done|]. cbn [fc_core fc_cells set_field].
  split_and!; [done|done|by apply only_insert|right; cbn; rewrite lookup_insert_eq; by eexists|by apply held_insert].
Qed.

Lemma apply_plan_spec spec out ids s :
  Forall (image_mapped mem) images → cell_ok out s →
  returns (apply_plan build images mem dladdr spec out ids) s (λ r s',
    s_runtime (fc_core s') = s_runtime (fc_core s) ∧ s_plan (fc_core s') = s_plan (fc_core s) ∧
    only_cell out (fc_cells s) (fc_cells s') ∧
    ((unmoved (fc_core s) (fc_core s') ∧ r ≠ HK_LEGACY_OK ∧ held out (fc_cells s') = 0) ∨
     settled s spec ids out r s')).
Proof.
  intros Hm Hc. unfold apply_plan. eapply returns_bind; [by apply clear_spec|].
  intros [] s1 (Hcore & _ & Honly & Hc1 & Hheld).
  eapply returns_bind; [by apply runtime_create_spec|].
  intros created s2 (Hu & Hrt & Hpl & Hcells). rewrite Hcore in Hu, Hrt, Hpl.
  assert (Hno : ∀ r, r ≠ HK_LEGACY_OK → returns (fret r) s2 (λ r s',
    s_runtime (fc_core s') = s_runtime (fc_core s) ∧ s_plan (fc_core s') = s_plan (fc_core s) ∧
    only_cell out (fc_cells s) (fc_cells s') ∧
    ((unmoved (fc_core s) (fc_core s') ∧ r ≠ HK_LEGACY_OK ∧ held out (fc_cells s') = 0) ∨
     settled s spec ids out r s'))).
  { intros r Hr. apply returns_ret. rewrite Hcells. split_and!; [done..|]. by left. }
  destruct created as [[] [rt|]]; try by apply Hno.
  eapply returns_conseq.
  { apply with_runtime_spec, (apply_in_runtime_spec spec out ids). unfold cell_ok in *. cbn. by rewrite Hcells. }
  intros r s' (s3 & [He _] & ->). cbn [restored fc_core s_runtime s_plan fc_cells set_field].
  rewrite Hrt, Hpl. split; [done|]. split; [done|].
  destruct He as [(H1 & H2 & H3)|(routed & c1 & st & rep & c2 & H0 & H1 & Hpl' & H2 & H3 & H4 & H5)].
  - rewrite H2. cbn [fc_cells set_field]. rewrite Hcells. split; [done|]. left. split; [|done].
    apply unmoved_restored. etrans; [exact Hu|]. by eapply unmoved_from.
  - assert (Ho : only_cell out (fc_cells s) (fc_cells s3)).
    { eapply only_trans; [exact Honly|]. by rewrite <- Hcells. }
    split; [done|]. right. exists routed, c1, st, rep, c2. split_and!; try done.
    + etrans; [exact Hu|]. by eapply unmoved_from.
    + by apply unmoved_restored.
Qed.

Definition run_hook (c : hook_call) : F state Z :=
  match c with
  | HookObjc buffer cls sel replacement out =>
      hk_legacy_hook_objc build images mem dladdr buffer cls sel replacement out
  | HookFunction buffer function replacement out ids =>
      hk_legacy_hook_function_with_backend_ids build images mem dladdr buffer function replacement out ids
  end.

Lemma run_hook_eq c :
  run_hook c = (_ <-- store_if (call_out c) 0 ;;
                built <-- building (call_build c) ;;
                apply_built build images mem dladdr built (call_out c) (call_ids c)).
Proof. by destruct c. Qed.

Lemma settled_from s0 s1 spec ids out r s :
  fc_core s1 = fc_core s0 → only_cell out (fc_cells s0) (fc_cells s1) →
  settled s1 spec ids out r s → settled s0 spec ids out r s.
Proof.
  intros Hc Ho (routed & c1 & st & rep & c2 & H0 & H1 & Hp & H2 & H3 & H4 & H5).
  exists routed, c1, st, rep, c2. rewrite <- Hc. split_and!; try done. by eapply only_trans.
Qed.

(** C3.  A legacy hook of a method or a function always comes back, with the
    caller's runtimes and plans as they were and no cell but the caller's
    pointer written.  Either nothing was mutated, the answer is not OK and the
    pointer is NULL; or the specification the call builds was made the only hook
    of a plan that was committed, and the answer is what became of it: OK only
    for an ACTIVE hook whose mutation is complete and, where the caller wants it,
    whose original is in the pointer; NOT_SUPPORTED only where nothing was mutated,
    PARTIAL only for a partial mutation; and the pointer is NULL wherever the
    mutation is none. *)
Theorem legacy_hook_verdict c s :
  Forall (image_mapped mem) images → cell_ok (call_out c) s →
  returns (run_hook c) s (λ r s',
    s_runtime (fc_core s') = s_runtime (fc_core s) ∧ s_plan (fc_core s') = s_plan (fc_core s) ∧
    only_cell (call_out c) (fc_cells s) (fc_cells s') ∧
    ((unmoved (fc_core s) (fc_core s') ∧ r ≠ HK_LEGACY_OK ∧ held (call_out c) (fc_cells s') = 0) ∨
     ∃ spec, (call_build c (fc_counter s)).1 = (HK_LEGACY_OK, Some spec) ∧
       settled s spec (call_ids c) (call_out c) r s')).
Proof.
  intros Hm Hc. rewrite run_hook_eq. eapply returns_bind; [by apply clear_spec|].
  intros [] s1 (Hcore & Hcount & Honly & Hc1 & Hheld).
  eapply (returns_bind _ _ _ (λ built s2, built = (call_build c (fc_counter s)).1 ∧
    fc_core s2 = fc_core s ∧ fc_cells s2 = fc_cells s1)).
  { apply returns_lift. rewrite Hcount. by destruct (call_build c (fc_counter s)) as [[b spec] n]. }
  intros built s2 (-> & Hcore2 & Hcells2).
  assert (Hno : ∀ r, r ≠ HK_LEGACY_OK → returns (fret r) s2 (λ r s',
    s_runtime (fc_core s') = s_runtime (fc_core s) ∧ s_plan (fc_core s') = s_plan (fc_core s) ∧
    only_cell (call_out c) (fc_cells s) (fc_cells s') ∧
    ((unmoved (fc_core s) (fc_core s') ∧ r ≠ HK_LEGACY_OK ∧ held (call_out c) (fc_cells s') = 0) ∨
     ∃ spec, (call_build c (fc_counter s)).1 = (HK_LEGACY_OK, Some spec) ∧
       settled s spec (call_ids c) (call_out c) r s'))).
  { intros r Hr. apply returns_ret. rewrite Hcore2, Hcells2. split_and!; [done..|]. by left. }
  assert (Hb : match (call_build c (fc_counter s)).1 with
               | (code, Some _) => code = HK_LEGACY_OK | (code, None) => code ≠ HK_LEGACY_OK end).
  { destruct c; unfold call_build, hk_legacy_build_objc_spec, hk_legacy_build_function_spec, init_spec_id;
      cbv zeta; [destruct (_ || _ || _)|destruct (_ || _)]; done. }
  destruct (call_build c (fc_counter s)).1 as [code [spec|]] eqn:Eb; cbn [apply_built]; [|by apply Hno].
  subst code. rewrite Z.eqb_refl. cbn [negb].
  eapply returns_conseq; [apply apply_plan_spec; [done|]; unfold cell_ok in *; by rewrite Hcells2|].
  intros r s' (Hr & Hp & Ho & Hv). rewrite Hcore2 in Hr, Hp, Hv. rewrite Hcells2 in Ho.
  assert (Ho' : only_cell (call_out c) (fc_cells s) (fc_cells s')) by (by eapply only_trans).
  split_and!; [done|done|done|]. destruct Hv as [Hv|Hv]; [by left|right]. exists spec.
  split; [done|]. eapply settled_from; [exact Hcore2| |exact Hv]. by rewrite Hcells2.
Qed.

(** ** Many hooks at once *)

(** Only the callers' pointers are written, and stay writable. *)
Definition only_cells (outs : list Z) (cells cells' : gmap Z Z) : Prop :=
  ∀ p, p ∉ outs ∨ p = 0 → cells' !! p = cells !! p.
Definition cells_ok (outs : list Z) s : Prop := Forall (λ p, cell_ok p s) outs.

(** One step that may write [out]. *)
Lemma only_cells_step out outs s s' :
  out ∈ outs → only_cell out (fc_cells s) (fc_cells s') → cell_ok out s' → cells_ok outs s →
  only_cells outs (fc_cells s) (fc_cells s') ∧ cells_ok outs s'.
Proof.
  intros Hin Ho Hc Hok. split.
  - intros p Hp. apply Ho. destruct (decide (out = 0)) as [|Hne]; [by right|left].
    intros ->. by destruct Hp.
  - eapply Forall_impl; [exact Hok|]. intros p Hp. destruct (decide (p = out)) as [->|Hne]; [done|].
    destruct Hp as [->|Hp]; [by left|right]. by rewrite (Ho p) by by left.
Qed.

Lemma only_cells_trans outs c1 c2 c3 : only_cells outs c1 c2 → only_cells outs c2 c3 → only_cells outs c1 c3.
Proof. intros H1 H2 p Hp. by rewrite H2, H1. Qed.

Definition succeeded (l : list Z) : Z := Z.of_nat (length (filter (λ r, r = HK_LEGACY_OK) l)).

(** What the last loop leaves, over the plan [c]. *)
Definition collected (c : sys E) (outs : list Z) (ops : list (Z * Z)) s (r : list Z * Z) s' : Prop :=
  length r.1 = length ops ∧ r.2 = succeeded r.1 ∧ fc_core s' = fc_core s ∧
  only_cells outs (fc_cells s) (fc_cells s') ∧ cells_ok outs s' ∧
  (HK_LEGACY_OK ∈ r.1 → ∃ h, h ∈ pl_hooks (s_plan c) ∧ r_outcome (h_result h) = HK_OUTCOME_ACTIVE).

Lemma hook_at_elem (c : sys E) address h : hook_at (s_plan c) address = Some h → h ∈ pl_hooks (s_plan c).
Proof.
  unfold hook_at. destruct (list_find _ _) as [[i h']|] eqn:Ef; [|done]. intros [= <-].
  apply list_find_Some in Ef as (Hi & _). by eapply list_elem_of_lookup_2.
Qed.

Lemma collect_spec outs ops originals s :
  length ops = length originals → (∀ p, p ∈ originals → p ∈ outs) → cells_ok outs s →
  Forall (λ op, op.2 = 0 → op.1 ≠ HK_LEGACY_OK) ops →
  returns (collect_results ops originals) s (collected (fc_core s) outs ops s).
Proof.
  revert originals s. induction ops as [|[status hook] ops IH]; intros [|original originals] s Hlen Hin Hok Hst;
    try done; cbn [collect_results].
  { apply returns_ret. split_and!; try done. by intros ?%not_elem_of_nil. }
  apply Forall_cons in Hst as [Hst0 Hst]. cbn in Hst0.
  destruct (Z.eqb_spec hook 0) as [->|Hne].
  - eapply returns_bind; [apply (IH originals s); [by injection Hlen|intros p Hp; apply Hin; by right|done|done]|].
    intros [l n] s' (H1 & H2 & H3 & H4 & H5 & H6). apply returns_ret. cbn [fst snd] in *.
    split_and!; try done; cbn [fst snd].
    + cbn. by f_equal.
    + rewrite H2. unfold succeeded. by rewrite filter_cons_False by (by apply Hst0).
    + intros [Heq|Hl]%elem_of_cons; [by destruct (Hst0 eq_refl)|by apply H6].
  - assert (Hc : cell_ok original s).
    { unfold cells_ok in Hok. rewrite Forall_forall in Hok. apply Hok, Hin. by left. }
    eapply returns_bind; [by apply (map_result_spec hook original)|].
    intros r s1 (H1 & H2 & H3 & _ & H4).
    destruct (only_cells_step original outs s s1 ltac:(apply Hin; by left) H2 H3 Hok) as [Ho1 Hok1].
    eapply returns_bind; [apply (IH originals s1); [by injection Hlen|intros p Hp; apply Hin; by right|done|done]|].
    intros [l n] s' (G1 & G2 & G3 & G4 & G5 & G6). apply returns_ret. rewrite H1 in G3, G6. cbn [fst snd] in *.
    split_and!; try done; cbn [fst snd].
    + cbn. by f_equal.
    + rewrite G2. unfold succeeded. destruct (Z.eqb_spec r HK_LEGACY_OK) as [->|Hr].
      * rewrite filter_cons_True by done. cbn. lia.
      * rewrite filter_cons_False by done. lia.
    + by eapply only_cells_trans.
    + intros [Heq|Hl]%elem_of_cons; [|by apply G6]. destruct (H4 (eq_sym Heq)) as (h & Hh & Ha).
      exists h. split; [by eapply hook_at_elem|done].
Qed.

Lemma succeeded_spec l :
  0 <= succeeded l <= Z.of_nat (length l) ∧
  (succeeded l = Z.of_nat (length l) ↔ Forall (λ r, r = HK_LEGACY_OK) l) ∧
  (0 < succeeded l ↔ HK_LEGACY_OK ∈ l).
Proof.
  unfold succeeded. induction l as [|r l IH]; [split_and!; try done; split; [done|by intros ?%not_elem_of_nil]|].
  destruct IH as (H1 & H2 & H3). rewrite Forall_cons, elem_of_cons, <- H2, <- H3.
  destruct (decide (r = HK_LEGACY_OK)) as [->|Hr].
  - rewrite filter_cons_True by done. cbn [length]. split_and!; [lia|lia| |split; [intros; by left|lia]].
    split; [intros; split; [done|lia]|intros [_ ?]; lia].
  - rewrite filter_cons_False by done. cbn [length]. split_and!; [lia|lia|split; [lia|by intros [? _]]|].
    split; [by right|]. intros [?|?]; [by destruct Hr|done].
Qed.

Lemma aggregate_spec l :
  l ≠ [] →
  let rc := aggregate (succeeded l) (Z.of_nat (length l)) in
  (rc = HK_LEGACY_OK ↔ Forall (λ r, r = HK_LEGACY_OK) l) ∧
  (rc = HK_LEGACY_ERR_PARTIAL ↔ HK_LEGACY_OK ∈ l ∧ ¬ Forall (λ r, r = HK_LEGACY_OK) l).
Proof.
  intros Hl. destruct (succeeded_spec l) as (H1 & H2 & H3). cbv zeta. unfold aggregate. rewrite <- H2, <- H3.
  destruct (Z.eqb_spec (succeeded l) (Z.of_nat (length l))) as [E1|E1].
  - split; [done|]. split; [done|]. by intros [_ ?].
  - destruct (Z.ltb_spec 0 (succeeded l)); (split; [done|]); split; try done; lia.
Qed.

(** Adding a hook keeps every hook of the plan unmutated. *)
Definition none_mutated (c : sys E) : Prop := Forall (λ h, unmutated (h_result h)) (pl_hooks (s_plan c)).

Lemma add_none_mutated strip spec :
  triple none_mutated (hk_plan_add_hook strip true true spec)
    (λ r c, none_mutated c ∧ (r.2 = 0 → r.1 ≠ HK_STATUS_OK)).
Proof.
  assert (Hh : ∀ A (m : M heap A), triple none_mutated (on_heap m) (λ _, none_mutated)) by (intros A m; by apply triple_zoom).
  assert (Hi : ∀ A (m : M ids A), triple none_mutated (on_ids m) (λ _, none_mutated)) by (intros A m; by apply triple_zoom).
  unfold hk_plan_add_hook, hk_plan_add_hook_impl.
  eapply triple_bind; [by apply (triple_gets _ _ (λ _, none_mutated))|intros p].
  destruct spec as [spec|]; [|by apply triple_ret]. cbn [negb orb].
  repeat match goal with
  | |- triple _ (bind (on_heap _) _) _ => eapply triple_bind; [apply Hh|intros ?]
  | |- triple _ (bind (on_ids _) _) _ => eapply triple_bind; [apply Hi|intros ?]
  | |- triple _ (ret (_, _)) _ => by apply triple_ret
  | |- triple _ (if ?a =? 0 then _ else _) _ => destruct (Z.eqb_spec a 0)
  | |- triple _ (if ?b then _ else _) _ => destruct b
  | |- triple _ (let '(_, _) := ?x in _) _ => destruct x
  | |- triple _ (match ?x with _ => _ end) _ => destruct x
  end.
  intros c Hc. split; [|done]. unfold none_mutated. cbn. apply Forall_app_2; [done|].
  constructor; [by split|constructor].
Qed.

(** What the first loop leaves. *)
Definition added (s0 : state) (specs : list hk_hook_spec) (ops : list (Z * Z)) s : Prop :=
  length ops = length specs ∧ Forall (λ op, op.2 = 0 → op.1 ≠ HK_LEGACY_OK) ops ∧
  fc_cells s = fc_cells s0 ∧ unmoved (fc_core s0) (fc_core s) ∧ none_mutated (fc_core s).

Lemma add_specs_spec specs ids s :
  none_mutated (fc_core s) → returns (add_specs dladdr specs ids) s (added s specs).
Proof.
  revert s. induction specs as [|spec specs IH]; intros s Hs; cbn [add_specs]; [by apply returns_ret|].
  destruct (hk_legacy_route_function_spec _ _ _ _) as [route routed].
  eapply (returns_bind _ _ _ (λ op s', (op.2 = 0 → op.1 ≠ HK_LEGACY_OK) ∧ fc_cells s' = fc_cells s ∧
    unmoved (fc_core s) (fc_core s') ∧ none_mutated (fc_core s'))).
  { destruct (Z.eqb_spec route HK_LEGACY_OK) as [->|Hr]; cbn [negb]; [|by apply returns_ret].
    eapply core_bind; [apply triple_and; [apply (add_unmoved (fc_core s))|apply add_none_mutated]|split; [reflexivity|done]|].
    intros [st a] c [Hu [Hn Ha]]. apply returns_ret. cbn [fst snd] in *. split_and!; try done.
    intros Hz. by apply map_status_ok, Ha. }
  intros op s1 (H1 & H2 & H3 & H4). eapply returns_bind; [by apply IH|].
  intros ops s2 (G1 & G2 & G3 & G4 & G5). apply returns_ret. split_and!; [cbn; by f_equal| |congruence|by etrans|done].
  by constructor.
Qed.

Lemma publish_all_spec outs ops originals s :
  length ops = length originals → (∀ p, p ∈ originals → p ∈ outs) → cells_ok outs s →
  returns (publish_all ops originals) s (λ _ s', fc_core s' = fc_core s ∧
    only_cells outs (fc_cells s) (fc_cells s') ∧ cells_ok outs s').
Proof.
  revert originals s. induction ops as [|[status hook] ops IH]; intros [|original originals] s Hlen Hin Hok;
    try done; cbn [publish_all].
  eapply (returns_bind _ _ _ (λ _ s', fc_core s' = fc_core s ∧
    only_cells outs (fc_cells s) (fc_cells s') ∧ cells_ok outs s')).
  { destruct (_ || _); [by apply returns_ret|].
    assert (Hc : cell_ok original s).
    { unfold cells_ok in Hok. rewrite Forall_forall in Hok. apply Hok, Hin. by left. }
    eapply returns_bind; [by apply (publish_early_spec hook original)|].
    intros ok s' (H1 & H2 & H3 & _). apply returns_ret. split; [done|].
    apply (only_cells_step original outs s s'); try done. apply Hin. by left. }
  intros [] s1 (H1 & H2 & H3).
  eapply returns_conseq; [apply (IH originals s1); [by injection Hlen|intros p Hp; apply Hin; by right|done]|].
  intros [] s' (G1 & G2 & G3). split_and!; [congruence|by eapply only_cells_trans|done].
Qed.

(** The middle of a batch: either no commit was reached and no hook claims to be
    mutated, or there was one. *)
Definition committed_once (s0 s : state) : Prop :=
  (unmoved (fc_core s0) (fc_core s) ∧ none_mutated (fc_core s)) ∨
  ∃ c1 status report, unmoved (fc_core s0) c1 ∧ hk_plan_commit true c1 = ((status, report), fc_core s).

Lemma none_mutated_alike (c : sys E) :
  none_mutated c ↔ Forall2 alike (pl_hooks (s_plan c)) (pl_hooks (s_plan c)).
Proof.
  unfold none_mutated. split.
  - intros Hf. apply Forall_Forall2_diag. eapply Forall_impl; [exact Hf|]. intros h Hh. by split.
  - intros Hf. apply Forall_forall. intros h (i & Hi)%list_elem_of_lookup.
    by destruct (Forall2_lookup_lr _ _ _ _ _ _ Hf Hi Hi).
Qed.

Lemma alike_none_mutated hooks0 (c : sys E) : Forall2 alike hooks0 (pl_hooks (s_plan c)) → none_mutated c.
Proof.
  intros Hf. apply Forall_forall. intros h (i & Hi)%list_elem_of_lookup.
  by destruct (Forall2_lookup_r _ _ _ _ _ Hf Hi) as (h0 & _ & _ & Hm).
Qed.

Lemma commit_specs_spec outs ops originals s :
  length ops = length originals → (∀ p, p ∈ originals → p ∈ outs) → cells_ok outs s →
  none_mutated (fc_core s) →
  returns (commit_specs ops originals) s (λ _ s', committed_once s s' ∧
    only_cells outs (fc_cells s) (fc_cells s') ∧ cells_ok outs s').
Proof.
  intros Hlen Hin Hok Hn. unfold commit_specs. pose proof (unmoved_stable (fc_core s)) as Hst.
  set (hooks0 := pl_hooks (s_plan (fc_core s))).
  assert (Hno : ∀ c, unmoved (fc_core s) c → Forall2 alike hooks0 (pl_hooks (s_plan c)) →
    returns (fret tt) (s <| fc_core := c |>) (λ _ s', committed_once s s' ∧
      only_cells outs (fc_cells s) (fc_cells s') ∧ cells_ok outs s')).
  { intros c Hu Ha. apply returns_ret. split; [left|by split]. split; [done|by eapply alike_none_mutated]. }
  eapply core_bind; [apply triple_and; [apply (stable_analyze (unmoved (fc_core s)))|apply (analyze_keeps true hooks0)]| |].
  { split; [reflexivity|by apply none_mutated_alike]. }
  intros [st1 rep1] c2 [Hu2 H2]. cbn [fst]. destruct (bool_decide (st1 = HK_STATUS_OK)); cbn [negb]; [|by apply Hno].
  eapply core_bind; [apply triple_and; [apply (stable_prepare (unmoved (fc_core s)))|apply (prepare_keeps true hooks0)]|by split|].
  intros [st2 rep2] c3 [Hu3 H3]. cbn [fst]. destruct (bool_decide (st2 = HK_STATUS_OK)); cbn [negb]; [|by apply Hno].
  eapply returns_bind; [by apply (publish_all_spec outs ops originals)|].
  intros [] s4 (Hc4 & Ho4 & Hok4). cbn [fc_core fc_cells set_field] in Hc4, Ho4.
  eapply (core_bind _ _ (λ c, c = c3) (λ a c, (a, c) = hk_plan_commit true c3)); [|done|].
  { intros c ->. by destruct (hk_plan_commit true c3). }
  intros [status report] c Hcommit. apply returns_ret. split; [right|by split].
  by exists c3, status, report.
Qed.

(** From the new plan to the answer. *)
Definition batched (s0 : state) (outs : list Z) (n : nat) (r : Z * list Z) s : Prop :=
  length r.2 = n ∧
  (r.1 = HK_LEGACY_OK ↔ Forall (λ code, code = HK_LEGACY_OK) r.2) ∧
  (r.1 = HK_LEGACY_ERR_PARTIAL ↔ HK_LEGACY_OK ∈ r.2 ∧ ¬ Forall (λ code, code = HK_LEGACY_OK) r.2) ∧
  only_cells outs (fc_cells s0) (fc_cells s) ∧
  ((unmoved (fc_core s0) (fc_core s) ∧ HK_LEGACY_OK ∉ r.2) ∨
   ∃ c1 status report c2, unmoved (fc_core s0) c1 ∧ hk_plan_commit true c1 = ((status, report), c2) ∧
     unmoved c2 (fc_core s) ∧
     (HK_LEGACY_OK ∈ r.2 → ∃ h, h ∈ pl_hooks (s_plan c2) ∧ r_outcome (h_result h) = HK_OUTCOME_ACTIVE)).

Lemma batched_moves s0 outs n r s c :
  batched s0 outs n r s → unmoved (fc_core s) c → batched s0 outs n r (s <| fc_core := c |>).
Proof.
  intros (H1 & H2 & H3 & H4 & H5) Hu. split_and!; try done.
  destruct H5 as [[H5 H6]|(c1 & st & rep & c2 & G1 & G2 & G3 & G4)].
  - left. split; [by etrans|done].
  - right. exists c1, st, rep, c2. split_and!; [done|done|by etrans|done].
Qed.

Lemma apply_specs_in_plan_spec specs originals ids s :
  length specs = length originals → specs ≠ [] → cells_ok originals s → pl_hooks (s_plan (fc_core s)) = [] →
  returns (apply_specs_in_plan dladdr specs originals ids) s (batched s originals (length specs)).
Proof.
  intros Hlen Hne Hok Hnew. unfold apply_specs_in_plan.
  eapply returns_bind; [apply add_specs_spec; unfold none_mutated; by rewrite Hnew|].
  intros ops s1 (A1 & A2 & A3 & A4 & A5).
  assert (Hok1 : cells_ok originals s1).
  { unfold cells_ok, cell_ok in *. by rewrite A3. }
  eapply returns_bind; [by apply (commit_specs_spec originals ops originals); [congruence|..]|].
  intros [] s2 (B1 & B2 & B3).
  eapply returns_bind; [by apply (collect_spec originals ops originals); [congruence|..]|].
  intros [l n] s3 (C1 & C2 & C3 & C4 & C5 & C6). cbn [fst snd] in *. subst n.
  assert (Hl : length l = length specs) by congruence.
  assert (Hlne : l ≠ []) by (intros ->; by destruct specs).
  assert (Hbatched : batched s originals (length specs) (aggregate (succeeded l) (Z.of_nat (length specs)), l) s3).
  { rewrite <- Hl. destruct (aggregate_spec l Hlne) as [G1 G2]. split_and!; try done; cbn [fst snd].
    { eapply only_cells_trans; [|exact C4]. by rewrite <- A3. }
    rewrite C3. destruct B1 as [[U1 U2]|(c1 & st & rep & U1 & U2)].
    - left. split; [by etrans|]. intros Hin. destruct (C6 Hin) as (h & Hh & Ho).
      unfold none_mutated in U2. rewrite Forall_forall in U2. destruct (U2 h Hh) as [Hm Hhon].
      unfold honest in Hhon. rewrite Ho in Hhon. congruence.
    - right. exists c1, st, rep, (fc_core s2). split_and!; [by etrans|done|reflexivity|done]. }
  eapply core_bind; [apply (release_unmoved (fc_core s3))|reflexivity|]. intros [] c4 Hu4.
  eapply core_bind; [apply (runtime_release_unmoved c4)|reflexivity|]. intros [] c5 Hu5.
  apply returns_ret. apply batched_moves; [|exact Hu5]. by apply batched_moves.
Qed.

(** Refused before any operation: every result is the same code. *)
Lemma batched_refused s0 outs n code s :
  (0 < n)%nat → code ≠ HK_LEGACY_OK → code ≠ HK_LEGACY_ERR_PARTIAL →
  unmoved (fc_core s0) (fc_core s) → fc_cells s = fc_cells s0 →
  batched s0 outs n (code, replicate n code) s.
Proof.
  intros Hn Hc Hc' Hu Hcells.
  assert (Hin : HK_LEGACY_OK ∉ replicate n code) by (intros [? _]%elem_of_replicate; congruence).
  split_and!; cbn [fst snd].
  - apply length_replicate.
  - split; [done|]. intros Hf. destruct n; [lia|]. by apply Forall_cons in Hf as [? _].
  - split; [done|by intros [? _]].
  - intros p _. by rewrite Hcells.
  - by left.
Qed.

Lemma batched_from s0 s1 outs n r s :
  unmoved (fc_core s0) (fc_core s1) → fc_cells s1 = fc_cells s0 → batched s1 outs n r s →
  batched s0 outs n r s.
Proof.
  intros Hu Hcells (H1 & H2 & H3 & H4 & H5). split_and!; try done.
  { by rewrite <- Hcells. }
  destruct H5 as [[H5 H6]|(c1 & st & rep & c2 & G1 & G2)]; [left; split; [by etrans|done]|right].
  exists c1, st, rep, c2. split; [by etrans|done].
Qed.

Lemma batched_cells s0 outs outs' n r s :
  (∀ p, p ∉ outs' ∨ p = 0 → p ∉ outs ∨ p = 0) → batched s0 outs n r s → batched s0 outs' n r s.
Proof. intros Hp (H1 & H2 & H3 & H4 & H5). split_and!; try done. intros p Hp'. by apply H4, Hp. Qed.

Lemma batched_restored s s0 outs n r s3 :
  batched s0 outs n r s3 → batched s0 outs n r (restored s s3).
Proof. intros H1. eapply batched_moves in H1; [exact H1|]. by apply unmoved_restored. Qed.

(** The batch once its runtime exists. *)
Lemma batch_in_runtime_spec specs originals ids s :
  length specs = length originals → specs ≠ [] → cells_ok originals s →
  returns (plan <-- core (hk_plan_create true true None) ;;
           match plan with
           | HK_STATUS_OK =>
               r <-- apply_specs_in_plan dladdr specs originals ids ;; fret (r.1, Some r.2)
           | _ => fret (HK_LEGACY_ERR, Some (replicate (length specs) HK_LEGACY_ERR))
           end) s
    (λ r s', ∃ l, r.2 = Some l ∧ batched s originals (length specs) (r.1, l) s').
Proof.
  intros Hlen Hne Hok.
  eapply core_bind; [apply triple_and; [apply (create_unmoved (fc_core s))|apply create_first]|split; [reflexivity|done]|].
  intros created c [Hu Hfirst].
  destruct created; try (apply returns_ret; eexists; split; [done|]; apply batched_refused; try done; by destruct specs; [|cbn; lia]).
  eapply returns_bind; [apply (apply_specs_in_plan_spec specs originals ids); [done|done|exact Hok|by apply Hfirst]|].
  intros [rc l] s' Hb. apply returns_ret. exists l. split; [done|]. by eapply batched_from, Hb.
Qed.

(** C4.  A batch always comes back, with the caller's runtimes and plans as they
    were and no cells but the caller's pointers written.  It is refused without
    a result only for a missing array (or done at once for no operations);
    otherwise there is a code for each operation, and the answer says what they
    are: OK exactly when all of them are, PARTIAL exactly when some are.  Either
    nothing was mutated and no operation is reported OK, or one plan was
    committed, and an operation is reported OK only if it left an ACTIVE hook. *)
Theorem legacy_batch_reports specs originals count out_results ids s :
  Forall (image_mapped mem) images →
  (∀ l, specs = Some l → Z.of_nat (length l) = count) →
  (∀ l, originals = Some l → Z.of_nat (length l) = count) → cells_ok (default [] originals) s →
  returns (hk_legacy_apply_specs_with_backend_ids build images mem dladdr specs originals count out_results ids) s
    (λ r s',
    s_runtime (fc_core s') = s_runtime (fc_core s) ∧ s_plan (fc_core s') = s_plan (fc_core s) ∧
    match r.2 with
    | None => s' = s ∧ (count = 0 ∧ r.1 = HK_LEGACY_OK ∨
        count ≠ 0 ∧ (specs = None ∨ out_results = false) ∧ r.1 = HK_LEGACY_ERR_INVALID_ARGUMENT)
    | Some l => count ≠ 0 ∧ batched s (default [] originals) (Z.to_nat count) (r.1, l) s'
    end).
Proof.
  intros Hm Hspecs Horig Hok. unfold hk_legacy_apply_specs_with_backend_ids.
  destruct (Z.eqb_spec count 0) as [->|Hne]; [apply returns_ret; do 2 (split; [done|]); cbn; split; [done|by left]|].
  destruct specs as [specs|]; [|apply returns_ret; do 2 (split; [done|]); cbn; split; [done|right; auto]].
  destruct out_results; cbn [negb]; [|apply returns_ret; do 2 (split; [done|]); cbn; split; [done|right; auto]].
  specialize (Hspecs specs eq_refl). cbv zeta.
  assert (Hn : length specs = Z.to_nat count) by lia.
  match goal with |- returns _ _ ?q => set (Q := q) end.
  assert (Hall : ∀ code s', code ≠ HK_LEGACY_OK → code ≠ HK_LEGACY_ERR_PARTIAL → undisturbed s s' →
    returns (fret (code, Some (replicate (Z.to_nat count) code))) s' Q).
  { intros code s' Hc Hc' (H1 & H2 & H3 & H4). apply returns_ret. unfold Q; cbn.
    do 3 (split; [done|]). apply batched_refused; try done. lia. }
  eapply (core_bind _ _ (λ c, c = fc_core s) (λ _ c, ∃ hp, c = fc_core s <| s_heap := hp |>)); [|done|].
  { intros c ->. unfold on_heap, zoom. destruct (alloc _) as [ok hp]. by exists hp. }
  intros ok c [hp ->].
  assert (H1 : undisturbed s (s <| fc_core := fc_core s <| s_heap := hp |> |>)) by (split_and!; done).
  destruct ok; cbn [negb]; [|by apply Hall].
  eapply returns_bind; [by apply runtime_create_spec|]. intros created s2 (G1 & G2 & G3 & G4).
  assert (H2 : undisturbed s s2) by (split_and!; [etrans; [apply H1|exact G1]|done|done|done]).
  destruct created as [[] [rt|]]; try (by apply Hall).
  rewrite <- Hn. eapply returns_conseq.
  { apply with_runtime_spec, (batch_in_runtime_spec specs (default (replicate (length specs) 0) originals) ids).
    - destruct originals as [l|]; cbn [default from_option id]; [by apply Nat2Z.inj; rewrite Hspecs, Horig|by rewrite length_replicate].
    - intros ->. cbn in Hspecs. lia.
    - unfold cells_ok, cell_ok in *. cbn [fc_cells set_field]. rewrite G4.
      destruct originals as [l|]; [exact Hok|]. apply Forall_replicate. by left. }
  intros [rc res] s' (s3 & Hb & ->). unfold Q. cbn [restored fc_core s_runtime s_plan set_field fst snd] in *.
  rewrite G2, G3. split_and!; [done..|]. destruct Hb as (l & -> & Hb). split; [done|]. rewrite Hn in Hb.
  eapply (batched_from s (s2 <| fc_core := fc_core s2 <| s_runtime := rt |> |>)); [|done|].
  { etrans; [apply H2|by constructor]. }
  apply batched_restored. eapply batched_cells; [|exact Hb].
  destruct originals as [l'|]; [done|]. intros p _.
  destruct (decide (p = 0)) as [|Hp]; [by right|left]. by intros [? _]%elem_of_replicate.
Qed.
End Calls.

(** ** Patching memory *)
Section MemoryCall.
Context {E K : Type} {Pac : PacOps} (vm : vm_calls K) (laws : vm_laws vm).
Context (page_size k : Z) (Hpage : page_size = 2 ^ k) (Hk : 0 <= k < 64) (mapped : Z → bool).
Context (build : platform_build (E := E)) (images : list dyld_image) (mem : memory).
Context (dladdr : Z → option (option string)).
Context (native : E → device K * option memo_region)
  (set_native : device K * option memo_region → E → E).
Hypothesis native_set : ∀ n e, native (set_native n e) = n.

Lemma read_mapped (m : Z → Z) n a :
  (∀ x, a <= x < a + Z.of_nat n → mapped x = true) →
  read_bytes (mapped_memory mapped m) n a = Some (bytes_at m a n).
Proof.
  revert a. induction n as [|n IH]; intros a Hm; [done|].
  change (read_bytes (mapped_memory mapped m) (S n) a) with
    (b ← mapped_memory mapped m a; rest ← read_bytes (mapped_memory mapped m) n (a + 1); Some (b :: rest)).
  assert (E1 : mapped_memory mapped m a = Some (m a)) by (unfold mapped_memory; by rewrite Hm by lia).
  rewrite E1. cbn [mbind option_bind]. rewrite IH by (intros x Hx; apply Hm; lia).
  by rewrite bytes_at_S.
Qed.

(** The probe answers without changing memory, and what it calls readable is
    mapped. *)
Lemma probe_mapped n addr len :
  is_u64 addr → is_u64 len → regions_mapped vm mapped n.1 → memo_mapped mapped n.2 →
  let '(ok, n') := hk_native_range_readable vm page_size addr len n in
  n'.1 = n.1 ∧ (ok = true → ∀ x, addr <= x < addr + len → mapped x = true).
Proof.
  intros Ha Hl Hd Hm. unfold hk_native_range_readable, range_probe.
  destruct (hk_range_bounds page_size addr len) as [[start stop]|] eqn:Eb; [|done].
  destruct (range_bounds_spec _ _ _ _ _ _ Hpage Hk Ha Hl Eb) as (_ & _ & _ & Hs & He & _ & _ & _).
  pose proof (all_protected_mapped vm laws mapped n.1 n.2 start stop Hd Hm) as Hp.
  destruct (hk_range_all_protected vm n.1 n.2 start stop _) as [ok memo]. split; [done|].
  intros Hok x Hx. apply Hp; [done|lia].
Qed.

(** The bytes a process has at an address. *)
Definition process_bytes (s : facade E) (a : Z) (n : nat) : list Z :=
  bytes_at (d_mem (native (s_engine (fc_core s))).1) a n.

End MemoryCall.

(** ** A process with one engine *)
Module DemoFacade.
Section World.
Context {E : Type} (kind : hk_target_kind) (reach : Z) (native : bool) (world : E).

Definition engine : hk_engine_vtable E :=
  Vtable E 0x9000 0 0
    (builtin_capabilities "hookkit.demo" kind reach HK_ORIGINAL_REQ_ALL 16 17)
    None None None None None None
    (Some (λ _ _ _ _, ret (CommitReply [demo_artifact] (Some 0x5000) None HK_MUTATION_COMPLETE)))
    None None (Some (λ _ _, ret (HK_PREPARE_OK, 0x7000, no_prepare_diag)))
    None None None None None None.

Definition build : platform_build (E := E) :=
  let vc := (engine, 1) in PlatformBuild 1 150000 native vc vc vc None None None vc vc vc None.

(** The caller's own runtime and plan are empty; three pointers can be written. *)
Definition process : facade E :=
  Facade (Sys Demo.memory (Ids None 0 7) [] None [] world []
            (Runtime (Id 8 8) HK_INSTALL_CONTEXT_EARLY_PROCESS 0 0 [] None [] 0 None)
            (Plan (Id 7 7) None HK_PLAN_DRAFT [] 0 [] 0) no_locals)
    {[0x10 := 0x77; 0x18 := 0x78; 0x20 := 0x79]} 0 None 0.
End World.

Definition dladdr (_ : Z) : option (option string) := Some (Some "malloc"%string).

(** Hooking a function, with [out] for its original. *)
Definition function (ids : option string) (out : Z) : facade unit → option (Z * facade unit) :=
  run_hook (H := test_pac) (build HK_TARGET_FUNCTION_ADDRESS HK_REACH_ENTRYPOINT false) demo_images
    DemoImage.memory dladdr (HookFunction "" 0x4000 0x6000 out ids).

(** Two functions, and a third under the name of the first. *)
Definition specs : list hk_hook_spec :=
  let named name function :=
    init_spec name (TAddress (AddressTarget function zero_selector None (BytesNull 0) false)) 0x6000
      HK_REACH_ENTRYPOINT HK_ORIGINAL_CALLABLE_CONTINUATION in
  [named "a"%string 0x4000; named "b"%string 0x4800; named "a"%string 0x4900].

Abbreviation batch ids :=
  (hk_legacy_apply_specs_with_backend_ids (H := test_pac)
    (build HK_TARGET_FUNCTION_ADDRESS HK_REACH_ENTRYPOINT false) demo_images
    DemoImage.memory dladdr (Some specs) (Some [0x10; 0x18; 0]) 3 true ids).

Definition world : device unit * option memo_region := (Device (λ a, a `mod` 256) tt, None).
Definition demo_mapped (a : Z) : bool := a <? 2 ^ 32.
Abbreviation patch target :=
  (hk_legacy_hook_memory_with_backend_ids (K := unit) (H := test_pac)
    (build HK_TARGET_MEMORY_PATCH HK_REACH_EXACT_MEMORY true) demo_images DemoImage.memory dladdr
    demo_open_vm (2 ^ 2) demo_mapped id (λ n _, n) target (Some [1; 2; 3; 4]) None).
End DemoFacade.

Lemma legacy_ids_distinct_witness :
  length (build_all [HookObjc "" 1 2 3 0; HookFunction "" 0 2 0 None; HookFunction "" 1 2 0 None] 9) = 2%nat ∧
  NoDup (hs_stable_hook_id <$>
    build_all [HookObjc "" 1 2 3 0; HookFunction "" 0 2 0 None; HookFunction "" 1 2 0 None] 9).
Proof. split; [done|]. apply legacy_ids_distinct; cbn; lia. Defined.

Lemma legacy_hook_verdict_witness :
  returns (DemoFacade.function None 0x10) (DemoFacade.process tt) (λ r s',
    r = HK_LEGACY_OK ∧ fc_cells s' !! 0x10 = Some 0x5000 ∧
    ∃ h : hk_hook unit, r_outcome (h_result h) = HK_OUTCOME_ACTIVE ∧ r_mutation (h_result h) = HK_MUTATION_COMPLETE).
Proof.
  assert (E : (λ r, (r.1, fc_cells r.2 !! 0x10)) <$> DemoFacade.function None 0x10 (DemoFacade.process tt) =
    Some (HK_LEGACY_OK, Some 0x5000)) by (vm_compute; reflexivity).
  pose proof (legacy_hook_verdict (H := test_pac)
    (DemoFacade.build HK_TARGET_FUNCTION_ADDRESS HK_REACH_ENTRYPOINT false) demo_images DemoImage.memory
    DemoFacade.dladdr (HookFunction "" 0x4000 0x6000 0x10 None) (DemoFacade.process tt)
    demo_images_mapped ltac:(right; by eexists)) as H.
  unfold DemoFacade.function in *. unfold returns in *.
  destruct (run_hook _ _ _ _ _ _) as [[r s']|]; [|done].
  cbn [fmap option_fmap option_map fst snd] in E. injection E as -> E.
  split; [done|]. split; [exact E|].
  destruct H as (_ & _ & _ & [(_ & H & _)|(spec & _ & routed & c1 & status & report & c2 & H)]); [done|].
  destruct H as (_ & _ & _ & _ & _ & _ & H). destruct status; try done.
  destruct H as (h & _ & _ & Hh & _ & Hr). exists h. unfold honest in Hh.
  destruct (r_outcome (h_result h)); try done.
Defined.

Lemma legacy_batch_reports_witness :
  ∃ r s', DemoFacade.batch None (DemoFacade.process tt) = Some (r, s') ∧
    r = (HK_LEGACY_ERR_PARTIAL, Some [HK_LEGACY_OK; HK_LEGACY_OK; HK_LEGACY_ERR_INVALID_ARGUMENT]) ∧
    fc_cells s' !! 0x20 = Some 0x79 ∧
    ∃ (c2 : sys unit) h, h ∈ pl_hooks (s_plan c2) ∧ r_outcome (h_result h) = HK_OUTCOME_ACTIVE.
Proof.
  assert (E : fst <$> DemoFacade.batch None (DemoFacade.process tt) =
    Some (HK_LEGACY_ERR_PARTIAL, Some [HK_LEGACY_OK; HK_LEGACY_OK; HK_LEGACY_ERR_INVALID_ARGUMENT]))
    by (vm_compute; reflexivity).
  pose proof (legacy_batch_reports (H := test_pac)
    (DemoFacade.build HK_TARGET_FUNCTION_ADDRESS HK_REACH_ENTRYPOINT false) demo_images DemoImage.memory
    DemoFacade.dladdr (Some DemoFacade.specs) (Some [0x10; 0x18; 0]) 3 true None (DemoFacade.process tt)
    demo_images_mapped ltac:(by intros l [= <-]) ltac:(by intros l [= <-])
    ltac:(apply Forall_cons_2; [right; by eexists|apply Forall_cons_2; [right; by eexists|apply Forall_singleton; by left]])) as H.
  apply returns_some in H as (r & s' & Er & H). rewrite Er in E. exists r, s'. split; [exact Er|clear Er].
  cbn [fmap option_fmap option_map fst snd] in E. injection E as ->. split; [done|].
  destruct H as (_ & _ & _ & _ & _ & _ & Hcells & H). cbn [fst snd] in *.
  split. { rewrite (Hcells 0x20); [done|left]. by apply (bool_decide_unpack (0x20 ∉ [0x10; 0x18; 0])). }
  destruct H as [[_ H]|(c1 & st & rep & c2 & _ & _ & _ & H)]; [destruct H; by left|].
  destruct (H ltac:(by left)) as (h & Hh & Ho). exists c2, h. exact (conj Hh Ho).
Defined.


(** Where no backend can do it, a single call that wants the original answers ERR,
    one that does not and the batch answer NOT_SUPPORTED. *)
Example legacy_refusals_differ :
  fst <$> DemoFacade.function (Some "nothing"%string) 0x10 (DemoFacade.process tt) = Some HK_LEGACY_ERR ∧
  fst <$> DemoFacade.function (Some "nothing"%string) 0 (DemoFacade.process tt) = Some HK_LEGACY_ERR_NOT_SUPPORTED ∧
  fst <$> DemoFacade.batch (Some "nothing"%string) (DemoFacade.process tt) =
    Some (HK_LEGACY_ERR, Some [HK_LEGACY_ERR_NOT_SUPPORTED; HK_LEGACY_ERR_NOT_SUPPORTED; HK_LEGACY_ERR_INVALID_ARGUMENT]).
Proof. vm_compute. done. Qed.
