(* ===== verification/Compat.v ===== *)
(** * The compatibility header (src/include/HookKit/HookKitCompat.h)

    The entry points of substrate, substitute and libhooker as plans on one
    runtime, which the first call creates.  Unlike the legacy facade these calls
    go on to commit whatever analysis and preparation answered, and they trust
    the memory they patch to be readable. *)

From stdpp Require Import base list strings gmap numbers option pretty.
From Stdlib Require Ascii String.
From S2P Require Import Prelude Types Memory Faults Device SymbolTable NativeMemory PointerAuth.
From S2P Require Import Objc Ownership ImageCatalog Artifacts Engine DyldImages EngineWorld.
From S2P Require Import Plan Dispatch Analyze Prepare Commit Pending Runtime Facade.

(** ** Specifications *)

Definition COMPAT_ID_CAP : Z := 32.

Definition or_name (sid : option string) (name : string) : option string :=
  match sid with Some sid => Some sid | None => Some name end.

Definition _hk_compat_make_function_spec (sid : option string) (func rep : Z) : hk_hook_spec :=
  HookSpec SIZEOF_HOOK_SPEC (or_name sid "compat.func")
    (TAddress (AddressTarget func zero_selector None (BytesNull 0) false)) rep
    HK_REACH_ENTRYPOINT 0 HK_ORIGINAL_CALLABLE_CONTINUATION HK_CONTINUATION_ANY 0
    HK_AVAILABILITY_REQUIRED_NOW HK_OPERATION_MANDATORY 0 0 (AfterNull 0).

Definition _hk_compat_make_objc_spec (sid : option string) (cls sel rep : Z) (is_meta : bool)
    : hk_hook_spec :=
  HookSpec SIZEOF_HOOK_SPEC (or_name sid "compat.objc")
    (TObjc (ObjcTarget cls None sel None
              (if is_meta then HK_OBJC_CLASS_METHOD else HK_OBJC_INSTANCE_METHOD)
              HK_OBJC_LOCAL_METHOD_ONLY HK_AVAILABILITY_REQUIRED_NOW)) rep
    HK_REACH_OBJC_DISPATCH 0 HK_ORIGINAL_NONE HK_CONTINUATION_ANY 0
    HK_AVAILABILITY_REQUIRED_NOW HK_OPERATION_MANDATORY 0 0 (AfterNull 0).

(** [expected] is what was copied, [None] for NULL; [sz] the size of [data]. *)
Definition compat_memory_spec (sid : option string) (dst : Z) (data : bytes_view) (sz : Z)
    (expected : option (list Z)) : hk_hook_spec :=
  HookSpec SIZEOF_HOOK_SPEC (or_name sid "compat.mem")
    (TMemory (MemoryTarget dst false zero_selector data
                (match expected with Some bytes => Bytes bytes | None => BytesNull 0 end)
                (BytesNull 0) sz HK_MEMORY_KIND_DATA)) 0
    HK_REACH_EXACT_MEMORY 0 HK_ORIGINAL_NONE HK_CONTINUATION_ANY 0
    HK_AVAILABILITY_REQUIRED_NOW HK_OPERATION_MANDATORY 0 0 (AfterNull 0).

Definition view_size (v : bytes_view) : Z :=
  match v with Bytes l => Z.of_nat (length l) | BytesNull n => n end.

(** [snprintf] of a prefix and a number into [ids[i]], which is zeroed. *)
Definition compat_id (prefix : string) (i : nat) : string :=
  snprintf EmptyString COMPAT_ID_CAP (prefix +:+ "." +:+ pretty (N.of_nat i))%string.

(** ** What is asked for *)

Record hk_compat_function_hook : Type := CompatFunctionHook {
  cf_function : Z;
  cf_replacement : Z;
  cf_old_ptr : Z }.

Record hk_compat_LHMemoryPatch : Type := CompatMemoryPatch {
  lp_destination : Z;
  lp_data : bytes_view }.

(** ** The process *)

(** Besides the process of Facade.v: [_hk_compat_rt_storage], [None] until the
    [pthread_once] has run. *)
Record compat {E : Type} : Type := Compat {
  ct_process : facade E;
  ct_runtime : option (option (hk_runtime E)) }.
Arguments compat : clear implicits.
Arguments Compat {E} _ _.

#[export] Instance compat_eta {E} : Eta (compat E) := λ s, Compat (ct_process s) (ct_runtime s).

Section Compat.
Context {E K : Type} `{PacOps}.
Context (build : platform_build (E := E)) (images : list dyld_image) (mem : memory).
Local Abbreviation process := (facade E).
Local Abbreviation state := (compat E).
Local Abbreviation hook := (hk_hook E).

(** ** On a plan *)

Definition compat_active (r : hk_hook_result) : bool :=
  match r_outcome r with HK_OUTCOME_ACTIVE | HK_OUTCOME_ALREADY_ACTIVE => true | _ => false end.

(** The original, where there is one and somebody wants it. *)
Definition compat_deliver (h : option hook) (out_orig : Z) : F process unit :=
  if out_orig =? 0 then fret tt
  else
    let o := hk_original_slot_load (hk_hook_original_slot h) in
    if negb (o =? 0) then store_cell out_orig o else fret tt.

(** Whether the hook is in place. *)
Definition compat_result (address out_orig : Z) : F process bool :=
  if address =? 0 then fret false
  else
    h <-- plan_hook address ;;
    match hk_hook_copy_result h with
    | (HK_STATUS_OK, Some r) =>
        if compat_active r then _ <-- compat_deliver h out_orig ;; fret true else fret false
    | _ => fret false
    end.

(** Analysis, preparation and commit, whatever each answers. *)
Definition compat_run_plan : M (sys E) unit :=
  _ <- hk_plan_analyze true ;;
  _ <- hk_plan_prepare true ;;
  _ <- hk_plan_commit true ;;
  ret tt.

Definition compat_one_in_runtime (spec : hk_hook_spec) (out_orig : Z) : F process Z :=
  created <-- core (hk_plan_create true true None) ;;
  match created with
  | HK_STATUS_OK =>
      added <-- core (hk_plan_add_hook hk_pac_strip_code true true (Some spec)) ;;
      match added with
      | (HK_STATUS_OK, address) =>
          _ <-- core compat_run_plan ;;
          ok <-- compat_result address out_orig ;;
          _ <-- core hk_plan_release ;;
          fret (if ok : bool then 0 else -1)
      | _ =>
          _ <-- core hk_plan_release ;;
          fret (-1)
      end
  | _ => fret (-1)
  end.

(** [idbuf] where the caller left no name; what [%p] prints is a parameter. *)
Definition named_spec (synthesized : nat → string) (i : nat) (spec : hk_hook_spec) : hk_hook_spec :=
  match hs_stable_hook_id spec with
  | Some (String.String _ _) => spec
  | _ => spec <| hs_stable_hook_id := Some (synthesized i) |>
  end.

(** The first loop: each hook, 0 for NULL. *)
Fixpoint compat_add (specs : list hk_hook_spec) : M (sys E) (list Z) :=
  match specs with
  | [] => ret []
  | spec :: specs =>
      added <- hk_plan_add_hook hk_pac_strip_code true true (Some spec) ;;
      let one := match added with (HK_STATUS_OK, address) => address | _ => 0 end in
      rest <- compat_add specs ;;
      ret (one :: rest)
  end.

(** The last loop: how many are in place. *)
Fixpoint compat_count (hooks origs : list Z) : F process Z :=
  match hooks, origs with
  | address :: hooks, orig :: origs =>
      ok <-- compat_result address orig ;;
      rest <-- compat_count hooks origs ;;
      fret ((if ok : bool then 1 else 0) + rest)
  | _, _ => fret 0
  end.

(** From the hooks that were added to the count. *)
Definition compat_settle (hooks origs : list Z) : F process Z :=
  _ <-- core compat_run_plan ;;
  ok <-- compat_count hooks origs ;;
  _ <-- core hk_plan_release ;;
  fret ok.

Definition compat_batch_in_runtime (synthesized : nat → string) (specs : list hk_hook_spec)
    (origs : list Z) : F process Z :=
  created <-- core (hk_plan_create true true None) ;;
  match created with
  | HK_STATUS_OK =>
      hooks <-- core (on_heap alloc) ;;
      if negb hooks then
        _ <-- core hk_plan_release ;;
        fret (-1)
      else
        hooks <-- core (compat_add (imap (named_spec synthesized) specs)) ;;
        compat_settle hooks origs
  | _ => fret (-1)
  end.

(** ** On the one runtime *)

Definition on_process {A} (m : F process A) : F state A := λ s,
  '(a, p) ← m (ct_process s); Some (a, s <| ct_process := p |>).

Definition _hk_compat_rt_init : F state unit :=
  answer <-- on_process (on_core (hk_runtime_create images mem build
    (Some (SIZEOF_RUNTIME_CONFIG, HK_INSTALL_CONTEXT_EARLY_PROCESS)) true)) ;;
  lift (modify (λ s : state, s <| ct_runtime := Some answer.2 |>)).

Definition _hk_compat_runtime : F state (option (hk_runtime E)) :=
  once <-- lift (gets ct_runtime) ;;
  _ <-- (match once with None => _hk_compat_rt_init | Some _ => fret tt end) ;;
  lift (gets (λ s, default None (ct_runtime s))).

(** A computation on that runtime, which keeps what it does to it; a plan of the
    caller's is set aside. *)
Definition in_compat_runtime {A} (rt : hk_runtime E) (m : F process A) : F state A :=
  r <-- on_process (with_runtime rt (a <-- m ;; rt <-- core (gets s_runtime) ;; fret (a, rt))) ;;
  _ <-- lift (modify (λ s : state, s <| ct_runtime := Some (Some r.2) |>)) ;;
  fret r.1.

Definition _hk_compat_hook_one (spec : hk_hook_spec) (out_orig : Z) : F state Z :=
  rt <-- _hk_compat_runtime ;;
  match rt with
  | None => fret (-1)
  | Some rt => in_compat_runtime rt (compat_one_in_runtime spec out_orig)
  end.

(** [origs] are the callers' pointers, 0 for NULL. *)
Definition _hk_compat_hook_batch (synthesized : nat → string) (specs : list hk_hook_spec)
    (origs : list Z) : F state Z :=
  if Z.of_nat (length specs) =? 0 then fret 0
  else
    rt <-- _hk_compat_runtime ;;
    match rt with
    | None => fret (-1)
    | Some rt => in_compat_runtime rt (compat_batch_in_runtime synthesized specs origs)
    end.

(** ** The calls *)

Definition compat_alloc : F state bool := on_process (core (on_heap alloc)).

Definition hk_compat_MSHookFunction_int (sym rep out : Z) : F state Z :=
  if (sym =? 0) || (rep =? 0) then fret (-1)
  else _hk_compat_hook_one (_hk_compat_make_function_spec (Some "compat.substrate.func"%string) sym rep) out.

Definition hk_compat_MSHookFunction (sym rep out : Z) : F state unit :=
  _ <-- hk_compat_MSHookFunction_int sym rep out ;; fret tt.

Definition hk_compat_MSHookMessageEx_int (cls sel imp out : Z) : F state Z :=
  if (cls =? 0) || (sel =? 0) || (imp =? 0) then fret (-1)
  else _hk_compat_hook_one (_hk_compat_make_objc_spec (Some "compat.substrate.msg"%string) cls sel imp false) out.

Definition hk_compat_MSHookMessageEx (cls sel imp out : Z) : F state unit :=
  _ <-- hk_compat_MSHookMessageEx_int cls sel imp out ;; fret tt.

(** The answer, and [*created], untouched where [created] is NULL. *)
Definition hk_compat_substitute_hook_objc_message (cls sel rep old_ptr : Z) (created : option bool)
    : F state (Z * option bool) :=
  r <-- _hk_compat_hook_one (_hk_compat_make_objc_spec (Some "compat.substitute.objc"%string) cls sel rep false) old_ptr ;;
  fret (if r =? 0 then 0 else 11, (λ _, false) <$> created).

Definition hk_compat_LBHookMessage_int (cls sel rep old_ptr : Z) : F state Z :=
  _hk_compat_hook_one (_hk_compat_make_objc_spec (Some "compat.libhooker.msg"%string) cls sel rep false) old_ptr.

Definition hk_compat_LBHookMessage (cls sel rep old_ptr : Z) : F state Z :=
  r <-- hk_compat_LBHookMessage_int cls sel rep old_ptr ;;
  fret (if r =? 0 then 0 else 1).

Definition function_specs (prefix : string) (hooks : list hk_compat_function_hook) : list hk_hook_spec :=
  imap (λ i h, _hk_compat_make_function_spec (Some (compat_id prefix i)) (cf_function h) (cf_replacement h)) hooks.

(** [(int)n] *)
Definition int_of_size (n : Z) : Z := let w := u32 n in if w <? 2 ^ 31 then w else w - 2 ^ 32.

(** The array of pointers is written without asking whether it was allocated. *)
Definition hk_compat_substitute_hook_functions (synthesized : nat → string)
    (hooks : option (list hk_compat_function_hook)) (nhooks : Z) : F state Z :=
  match hooks with
  | None => fret 0
  | Some hooks =>
      if nhooks =? 0 then fret 0
      else
        specs <-- compat_alloc ;;
        ids <-- compat_alloc ;;
        if negb specs || negb ids then fret 5
        else
          out_ptrs <-- compat_alloc ;;
          _ <-- fetch (λ _, if out_ptrs : bool then Some tt else None) ;;
          ok <-- _hk_compat_hook_batch synthesized (function_specs "compat.substitute" hooks)
                   (cf_old_ptr <$> hooks) ;;
          fret (if ok =? int_of_size nhooks then 0 else 1)
  end.

Definition hk_compat_LHHookFunctions (synthesized : nat → string)
    (hooks : option (list hk_compat_function_hook)) (count : Z) : F state Z :=
  match hooks with
  | None => fret 0
  | Some hooks =>
      if count <=? 0 then fret 0
      else
        specs <-- compat_alloc ;;
        out_ptrs <-- compat_alloc ;;
        ids <-- compat_alloc ;;
        if negb specs || negb out_ptrs || negb ids then fret 0
        else
          _hk_compat_hook_batch synthesized (function_specs "compat.libhooker" hooks)
            (cf_old_ptr <$> hooks)
  end.

(** *** Memory *)

Context (mapped : Z → bool) (native : E → device K * option memo_region).

(** The bytes at [dst], read as they are: [memcpy] faults where nothing is mapped. *)
Definition _hk_compat_make_memory_spec (sid : option string) (dst : Z) (data : bytes_view) (sz : Z)
    : F process hk_hook_spec :=
  if 0 <? sz then
    ok <-- core (on_heap alloc) ;;
    if ok : bool then
      expected <-- read_process mapped native dst (Z.to_nat sz) ;;
      fret (compat_memory_spec sid dst data sz (Some expected))
    else fret (compat_memory_spec sid dst data sz None)
  else fret (compat_memory_spec sid dst data sz None).

(** [data] is [None] for NULL, or the bytes it points at. *)
Definition hk_compat_MSHookMemory_int (dst : Z) (data : option (list Z)) : F state Z :=
  match data with
  | None | Some [] => fret (-1)
  | Some data =>
      if dst =? 0 then fret (-1)
      else
        spec <-- on_process (_hk_compat_make_memory_spec (Some "compat.substrate.mem"%string) dst
                               (Bytes data) (Z.of_nat (length data))) ;;
        _hk_compat_hook_one spec 0
  end.

Definition hk_compat_MSHookMemory (dst : Z) (data : option (list Z)) : F state unit :=
  _ <-- hk_compat_MSHookMemory_int dst data ;; fret tt.

(** The loop over the patches.  A name that could not be copied is left in a
    buffer on the stack, which is given to [free] on every way out. *)
Fixpoint patch_specs (i : nat) (patches : list hk_compat_LHMemoryPatch)
    : F process (list hk_hook_spec) :=
  match patches with
  | [] => fret []
  | p :: patches =>
      idcopy <-- core (on_heap alloc) ;;
      _ <-- fetch (λ _, if idcopy : bool then Some tt else None) ;;
      spec <-- _hk_compat_make_memory_spec (Some (compat_id "compat.libhooker.mem" i))
                 (lp_destination p) (lp_data p) (view_size (lp_data p)) ;;
      rest <-- patch_specs (S i) patches ;;
      fret (spec :: rest)
  end.

(** The array of hooks is written without asking whether it was allocated. *)
Definition patches_in_runtime (specs : list hk_hook_spec) : F process Z :=
  created <-- core (hk_plan_create true true None) ;;
  match created with
  | HK_STATUS_OK =>
      hooks <-- core (on_heap alloc) ;;
      _ <-- fetch (λ _, if hooks : bool then Some tt else None) ;;
      hooks <-- core (compat_add specs) ;;
      compat_settle hooks (replicate (length specs) 0)
  | _ => fret 0
  end.

Definition hk_compat_LHPatchMemory (patches : option (list hk_compat_LHMemoryPatch)) (count : Z)
    : F state Z :=
  match patches with
  | None => fret 0
  | Some patches =>
      if count <=? 0 then fret 0
      else
        specs <-- compat_alloc ;;
        if negb specs then fret 0
        else
          specs <-- on_process (patch_specs 0 patches) ;;
          rt <-- _hk_compat_runtime ;;
          match rt with
          | None => fret 0
          | Some rt => in_compat_runtime rt (patches_in_runtime specs)
          end
  end.
End Compat.
