(* ===== verification/CompatSpec.v ===== *)
(** * The compatibility header: what its answers stand for *)

From stdpp Require Import base strings gmap numbers option list.
From S2P Require Import Prelude Types Memory Faults Device DyldImages Ownership ImageCatalog Artifacts Engine Plan.
From S2P Require Import Dispatch Analyze Prepare PrepareSafety Commit CommitVerdict PrepareKeeps.
From S2P Require Import EngineWorld PlanWf NativeMemory Pending PointerAuth Runtime RuntimeSpec RebindCommit Demo Facade FacadeSpec Compat.

Section Calls.
Context {E K : Type} `{PacOps}.
Context (build : platform_build (E := E)) (images : list dyld_image) (mem : memory).
Local Abbreviation process := (facade E).
Local Abbreviation state := (compat E).
Local Abbreviation hook := (hk_hook E).
Implicit Types (p : process) (s : state) (h : hook).

Lemma returns_process {A} (m : F process A) s (Q : A → process → Prop) :
  returns m (ct_process s) Q → returns (on_process m) s (λ a s', ∃ p, Q a p ∧ s' = s <| ct_process := p |>).
Proof.
  intros Hm. apply returns_some in Hm as (a & p & E1 & HQ). unfold returns, on_process. rewrite E1. by exists p.
Qed.

(** ** One result *)

(** The hook is in place. *)
Definition placed (r : hk_hook_result) : bool :=
  bool_decide (r_outcome r = HK_OUTCOME_ACTIVE) || bool_decide (r_outcome r = HK_OUTCOME_ALREADY_ACTIVE).

Lemma active_placed r : compat_active r = placed r.
Proof. unfold compat_active, placed. by destruct (r_outcome r). Qed.

(** What the caller's pointer gets from a hook. *)
Definition delivered (f : option hook) (out : Z) (cells : gmap Z Z) : gmap Z Z :=
  let o := hk_original_slot_load (hk_hook_original_slot f) in
  if (out =? 0) || (o =? 0) then cells else <[out := o]> cells.

Lemma delivered_only f out cells : only_cell out cells (delivered f out cells).
Proof.
  unfold delivered. cbv zeta. destruct (Z.eqb_spec out 0); [done|]. destruct (_ =? 0); [done|]. by apply only_insert.
Qed.

Definition settled_in (c : sys E) (address out : Z) (ok : bool) (cells cells' : gmap Z Z) : Prop :=
  match ok with
  | true => ∃ h, hook_at (s_plan c) address = Some h ∧ placed (h_result h) = true ∧
      cells' = delivered (Some h) out cells
  | false => cells' = cells ∧ (address = 0 ∨
      ∀ h, hook_at (s_plan c) address = Some h → placed (h_result h) = false)
  end.

Lemma compat_result_spec address out p :
  cell_ok out p →
  returns (compat_result address out) p (λ ok p', fc_core p' = fc_core p ∧ cell_ok out p' ∧
    settled_in (fc_core p) address out ok (fc_cells p) (fc_cells p')).
Proof.
  intros Hc. unfold compat_result, settled_in. destruct (Z.eqb_spec address 0) as [->|Hne].
  { apply returns_ret. split_and!; [done|done|done|by left]. }
  eapply returns_bind; [apply plan_hook_spec|]. intros f p1 [-> ->].
  destruct (hook_at _ address) as [h|] eqn:Eh; cbn [hk_hook_copy_result]; rewrite ?active_placed.
  2:{ apply returns_ret. split_and!; [done|done|done|right]. by intros h. }
  destruct (placed (h_result h)) eqn:Ea.
  2:{ apply returns_ret. split_and!; [done|done|done|right]. by intros h' [= <-]. }
  eapply (returns_bind _ _ _ (λ _ p', p' = p <| fc_cells := delivered (Some h) out (fc_cells p) |>)).
  { unfold compat_deliver, delivered. cbv zeta. destruct (Z.eqb_spec out 0) as [->|Ho]; cbn [orb].
    { apply returns_ret. by destruct p. }
    destruct (_ =? 0); cbn [negb]; [apply returns_ret; by destruct p|].
    destruct Hc as [?|Hc]; [done|]. by apply returns_store. }
  intros [] p' ->. apply returns_ret. split_and!; [done| |by exists h].
  destruct Hc as [->|Hc]; [by left|right]. cbn [fc_cells set_field]. unfold delivered. cbv zeta.
  destruct (_ || _); [done|]. rewrite lookup_insert_eq. by eexists.
Qed.
(** ** One hook on a runtime *)

(** Whatever analysis and preparation answer, the plan is committed, from a state
    in which nothing has moved and each hook is as it was added. *)
Lemma run_plan_spec hooks0 (c : sys E) :
  Forall2 alike hooks0 (pl_hooks (s_plan c)) →
  ∃ c1 status report, unmoved c c1 ∧ Forall2 alike hooks0 (pl_hooks (s_plan c1)) ∧
    hk_plan_commit true c1 = ((status, report), (compat_run_plan c).2).
Proof.
  intros Ha. pose proof (unmoved_stable c) as Hst. unfold compat_run_plan, bind.
  pose proof (triple_and _ _ _ _ _ (stable_analyze (unmoved c) true) (analyze_keeps true hooks0) c (conj (reflexivity c) Ha)) as H1.
  destruct (hk_plan_analyze true c) as [a1 c1]. cbn [fst snd] in H1.
  pose proof (triple_and _ _ _ _ _ (stable_prepare (unmoved c) true) (prepare_keeps true hooks0) c1 H1) as H2.
  destruct (hk_plan_prepare true c1) as [a2 c2]. cbn [fst snd] in H2. destruct H2 as [H2 H3].
  exists c2. destruct (hk_plan_commit true c2) as [[status report] c3] eqn:Ec.
  exists status, report. split_and!; done.
Qed.

(** What one hook that was committed came to. *)
Definition compat_settled (p0 : process) spec (out r : Z) p : Prop :=
  ∃ c1 status report c2,
    unmoved (fc_core p0) c1 ∧ (∃ h, pl_hooks (s_plan c1) = [h] ∧ asks spec h) ∧
    hk_plan_commit true c1 = ((status, report), c2) ∧ unmoved c2 (fc_core p) ∧
    match r with
    | 0 => ∃ h, h ∈ pl_hooks (s_plan c2) ∧ placed (h_result h) = true ∧
        fc_cells p = delivered (Some h) out (fc_cells p0)
    | _ => r = -1 ∧ fc_cells p = fc_cells p0 ∧
        (status = HK_STATUS_OK → ∃ h, pl_hooks (s_plan c2) = [h] ∧ asks spec h ∧ honest (h_result h) ∧
           placed (h_result h) = false)
    end.

Definition compat_refused (p0 : process) (r : Z) p : Prop :=
  unmoved (fc_core p0) (fc_core p) ∧ fc_cells p = fc_cells p0 ∧ r = -1.

Lemma compat_one_spec spec out p :
  cell_ok out p →
  returns (compat_one_in_runtime spec out) p (λ r p', compat_refused p r p' ∨ compat_settled p spec out r p').
Proof.
  intros Hc. unfold compat_one_in_runtime.
  eapply core_bind; [apply triple_and; [apply (create_unmoved (fc_core p))|apply create_first]|split; [reflexivity|done]|].
  intros created c0 [Hu0 Hfirst].
  destruct created; try (apply returns_ret; by left).
  eapply core_bind; [apply triple_and; [apply (add_unmoved c0)|apply add_first]|split; [reflexivity|by apply Hfirst]|].
  intros [status address] c1 [Hu1 Hadd]. cbn [fst snd] in Hadd.
  assert (Hu : unmoved (fc_core p) c1) by (etrans; [exact Hu0|exact Hu1]).
  destruct status.
  2-7: (eapply core_bind; [apply (release_unmoved c1)|reflexivity|]; intros [] c2 Hu2; apply returns_ret;
        left; split_and!; [etrans; [exact Hu|exact Hu2]|done|done]).
  destruct Hadd as (h0 & Hp & Ha & Hnz & Hm & Hafter & Hask).
  destruct (run_plan_spec [h0] c1) as (c2 & status & report & Hu2 & H2 & Hcommit).
  { rewrite Hp. constructor; [|constructor]. by split. }
  assert (Hsingle : single spec address c2).
  { apply Forall2_cons_inv_l in H2 as (h & l & Hh & Hl & Heq). apply Forall2_nil_inv_l in Hl as ->.
    by exists h0, h. }
  destruct (commit_single spec address c2 Hsingle) as (Hasked & status' & report' & c3 & Hcommit' & _ & Hok).
  rewrite Hcommit in Hcommit'. injection Hcommit' as <- <- <-.
  eapply (core_bind _ _ (λ c, c = c1) (λ _ c, c = (compat_run_plan c1).2)); [|done|].
  { intros c ->. by destruct (compat_run_plan c1). }
  intros _ c ->. set (c3 := (compat_run_plan c1).2) in *.
  eapply returns_bind; [by apply (compat_result_spec address out)|].
  intros ok p2 (Hc2 & _ & Hset). cbn [fc_core fc_cells set_field] in Hc2, Hset.
  eapply core_bind; [apply (release_unmoved c3)|by rewrite Hc2|].
  intros [] c4 Hu4. apply returns_ret. right. exists c2, status, report, c3.
  split_and!; [etrans; [exact Hu|exact Hu2]|exact Hasked|exact Hcommit|exact Hu4|].
  destruct ok; cbn [fc_cells set_field].
  - destruct Hset as (h & Hh & Hact & Hcells). exists h. split; [by eapply hook_at_elem|by split].
  - destruct Hset as (Hcells & Hset). split_and!; [done|done|]. intros Est.
    destruct (Hok Est) as (h & Hp3 & Ha3 & Hask3 & Hh3). exists h. split_and!; [done..|].
    destruct Hset as [Hset|Hset]; [by destruct Hnz|]. by apply Hset, single_found.
Qed.

(** ** The one runtime *)

(** Nothing but the heap, the identifiers and the runtime's cell has changed. *)
Definition quiet_compat s s' : Prop :=
  undisturbed (ct_process s) (ct_process s') ∧ (∀ rt, ct_runtime s = Some rt → s' = s).

Lemma compat_runtime_spec s :
  Forall (image_mapped mem) images →
  returns (_hk_compat_runtime build images mem) s (λ rt s',
    quiet_compat s s' ∧ ct_runtime s' = Some rt).
Proof.
  intros Hm. unfold _hk_compat_runtime.
  eapply (returns_bind _ _ _ (λ once s', once = ct_runtime s ∧ s' = s)); [by apply returns_lift|].
  intros once s1 [-> ->]. destruct (ct_runtime s) as [rt|] eqn:Er.
  { eapply (returns_bind _ _ _ (λ _ s', s' = s)); [by apply returns_ret|]. intros [] s' ->.
    apply returns_lift. unfold gets. cbn. rewrite Er. split; [|done]. by split. }
  eapply (returns_bind _ _ _ (λ _ s', undisturbed (ct_process s) (ct_process s') ∧ is_Some (ct_runtime s'))).
  { unfold _hk_compat_rt_init. eapply returns_bind.
    - apply returns_process, (runtime_create_spec build images mem None). exact Hm.
    - intros answer s' (p & Hp & ->). apply returns_lift. unfold modify. cbn. split; [exact Hp|by eexists]. }
  intros [] s' [Hu [rt Hs]]. apply returns_lift. unfold gets. cbn. rewrite Hs. split; [|done].
  split; [exact Hu|]. intros rt' Hrt. by rewrite Er in Hrt.
Qed.

Lemma in_runtime_spec {A} rt (m : F process A) s R :
  returns m (ct_process s <| fc_core := fc_core (ct_process s) <| s_runtime := rt |> |>) R →
  returns (in_compat_runtime rt m) s (λ a s', ∃ p, R a p ∧ ct_process s' = restored (ct_process s) p ∧
    ct_runtime s' = Some (Some (s_runtime (fc_core p)))).
Proof.
  intros Hm. unfold in_compat_runtime. eapply returns_bind.
  - apply returns_process, with_runtime_spec.
    apply (returns_bind _ _ _ R (λ r p, R r.1 p ∧ r.2 = s_runtime (fc_core p))); [exact Hm|].
    intros a p Ha. eapply (core_bind _ _ (λ c, c = fc_core p) (λ rt c, rt = s_runtime c ∧ c = fc_core p)); [by intros c ->|done|].
    intros rt' c [-> ->]. apply returns_ret. by destruct p.
  - intros [a rt'] s' (p & (p1 & [Ha Hrt] & ->) & ->). unfold returns, fbind, lift, modify, fret, runs. cbn. exists p1. split_and!; [exact Ha|done|]. cbn in Hrt. by rewrite <- Hrt.
Qed.

(** What one hook comes to, for the caller. *)
Definition compat_ended s spec (out r : Z) s' : Prop :=
  s_runtime (fc_core (ct_process s')) = s_runtime (fc_core (ct_process s)) ∧
  s_plan (fc_core (ct_process s')) = s_plan (fc_core (ct_process s)) ∧
  only_cell out (fc_cells (ct_process s)) (fc_cells (ct_process s')) ∧
  (ct_runtime s = Some None → s' = s ∧ r = -1) ∧
  (compat_refused (ct_process s) r (ct_process s') ∨ compat_settled (ct_process s) spec out r (ct_process s')).

Lemma settled_only p0 spec out r p : compat_settled p0 spec out r p → only_cell out (fc_cells p0) (fc_cells p).
Proof.
  intros (c1 & st & rep & c2 & _ & _ & _ & _ & Hr).
  assert (Hsame : fc_cells p = fc_cells p0 → only_cell out (fc_cells p0) (fc_cells p)) by by intros ->.
  destruct r; [|by apply Hsame, Hr..]. destruct Hr as (h & _ & _ & ->). apply delivered_only.
Qed.

Lemma compat_hook_one_spec spec out s :
  Forall (image_mapped mem) images → cell_ok out (ct_process s) →
  returns (_hk_compat_hook_one build images mem spec out) s (compat_ended s spec out).
Proof.
  intros Hm Hc. unfold _hk_compat_hook_one. eapply returns_bind; [by apply compat_runtime_spec|].
  intros rt s1 [[(H1 & H2 & H3 & H4) Honce] Hrt]. destruct rt as [rt|].
  2:{ apply returns_ret. split_and!; [done|done|by rewrite H4| |by left]. intros Hs. split; [by eapply Honce|done]. }
  eapply returns_conseq.
  { apply in_runtime_spec, (compat_one_spec spec out). unfold cell_ok in *. cbn [fc_cells set_field]. by rewrite H4. }
  intros r s' (p & Hp & Hs' & Hr').
  assert (Hv : compat_refused (ct_process s) r (ct_process s') ∨ compat_settled (ct_process s) spec out r (ct_process s')).
  { rewrite Hs'. destruct Hp as [(G1 & G2 & G3)|(c1 & st & rep & c2 & G1 & G2 & G3 & G4 & G5)].
    - left. split_and!; [|by rewrite <- H4|done]. apply unmoved_restored. etrans; [exact H1|]. by eapply unmoved_from.
    - right. exists c1, st, rep, c2. cbn [fc_cells set_field] in G5. rewrite H4 in G5.
      split_and!; [|done|done|by apply unmoved_restored|exact G5]. etrans; [exact H1|]. by eapply unmoved_from. }
  split_and!; [by rewrite Hs'|by rewrite Hs'| | |exact Hv].
  - destruct Hv as [(_ & -> & _)|Hv]; [done|by eapply settled_only].
  - intros Hs. specialize (Honce _ Hs). subst s1. congruence.
Qed.

(** ** The calls that hook one thing *)

Inductive compat_call : Type :=
  | CompatFunction (sym rep out : Z)
  | CompatMessage (cls sel imp out : Z)
  | CompatBlackjack (cls sel rep out : Z).

Definition compat_out (c : compat_call) : Z :=
  match c with CompatFunction _ _ out | CompatMessage _ _ _ out | CompatBlackjack _ _ _ out => out end.

Definition run_compat (c : compat_call) : F state Z :=
  match c with
  | CompatFunction sym rep out => hk_compat_MSHookFunction_int build images mem sym rep out
  | CompatMessage cls sel imp out => hk_compat_MSHookMessageEx_int build images mem cls sel imp out
  | CompatBlackjack cls sel rep out => hk_compat_LBHookMessage_int build images mem cls sel rep out
  end.

(** What a call asks for. *)
Definition compat_spec (c : compat_call) : hk_hook_spec :=
  match c with
  | CompatFunction sym rep _ => _hk_compat_make_function_spec (Some "compat.substrate.func"%string) sym rep
  | CompatMessage cls sel imp _ => _hk_compat_make_objc_spec (Some "compat.substrate.msg"%string) cls sel imp false
  | CompatBlackjack cls sel rep _ => _hk_compat_make_objc_spec (Some "compat.libhooker.msg"%string) cls sel rep false
  end.

(** C5.  A compatibility call that hooks one thing always comes back, with the
    caller's own runtimes and plans as they were and no cell but the caller's
    pointer written; once the process's runtime could not be created, no later
    call does anything.  Either nothing was mutated, the answer is -1 and no
    pointer changed; or what the call asks for was made the only hook of a plan
    that was committed, whatever analysis and preparation had answered.  Then 0
    stands for a hook that is in place, whose original, where it has one, is in
    the pointer, and -1 for one that is not, with the pointer as it was. *)
Theorem compat_hook_verdict c s :
  Forall (image_mapped mem) images → cell_ok (compat_out c) (ct_process s) →
  returns (run_compat c) s (compat_ended s (compat_spec c) (compat_out c)).
Proof.
  intros Hm Hc.
  assert (Hno : returns (fret (-1)) s (compat_ended s (compat_spec c) (compat_out c))).
  { apply returns_ret. split_and!; try done. left. split_and!; reflexivity. }
  destruct c as [sym rep out|cls sel imp out|cls sel rep out]; cbn [run_compat].
  - unfold hk_compat_MSHookFunction_int. destruct (_ || _); [exact Hno|]. by apply compat_hook_one_spec.
  - unfold hk_compat_MSHookMessageEx_int. destruct (_ || _ || _); [exact Hno|]. by apply compat_hook_one_spec.
  - by apply compat_hook_one_spec.
Qed.

(** ** Many hooks on one plan *)

(** A hook that was added and is in place. *)
Definition in_place (c : sys E) (address : Z) : bool :=
  negb (address =? 0) &&
  match hook_at (s_plan c) address with Some h => placed (h_result h) | None => false end.

Definition count_in_place (c : sys E) (addresses : list Z) : Z :=
  Z.of_nat (length (List.filter (in_place c) addresses)).

Lemma settled_in_place c address out ok cells cells' :
  settled_in c address out ok cells cells' → address ≠ 0 ∨ ok = false → in_place c address = ok.
Proof.
  intros Hs Ha. unfold in_place. destruct ok.
  - destruct Hs as (h & -> & Hact & _). destruct Ha as [Ha|]; [|done]. by rewrite (proj2 (Z.eqb_neq _ _) Ha).
  - destruct Hs as [_ [->|Hs]]; [done|]. destruct (hook_at _ _) as [h|]; [|by rewrite andb_false_r].
    by rewrite (Hs h), andb_false_r.
Qed.

Lemma compat_count_spec outs addresses origs p :
  length addresses = length origs → (∀ q, q ∈ origs → q ∈ outs) → cells_ok outs p →
  returns (compat_count addresses origs) p (λ n p', fc_core p' = fc_core p ∧
    n = count_in_place (fc_core p) addresses ∧ only_cells outs (fc_cells p) (fc_cells p')).
Proof.
  revert origs p. induction addresses as [|address addresses IH]; intros [|orig origs] p Hlen Hin Hok; try done;
    cbn [compat_count].
  assert (Hc : cell_ok orig p).
  { unfold cells_ok in Hok. rewrite Forall_forall in Hok. apply Hok, Hin. by left. }
  eapply returns_bind.
  { apply (returns_conseq _ _ (λ ok p', (address ≠ 0 ∨ ok = false) ∧ fc_core p' = fc_core p ∧ cell_ok orig p' ∧
      settled_in (fc_core p) address orig ok (fc_cells p) (fc_cells p'))); [|intros ok p' Hp; exact Hp].
    destruct (decide (address = 0)) as [->|Hne].
    - unfold compat_result. cbn [Z.eqb]. apply returns_ret. split_and!; [by right|done|done|]. split; [done|by left].
    - eapply returns_conseq; [by apply compat_result_spec|]. intros ok p' Hp. split; [by left|exact Hp]. }
  intros ok p1 (Ha & H1 & H2 & H3).
  assert (H4 : only_cell orig (fc_cells p) (fc_cells p1)).
  { destruct ok; [destruct H3 as (h & _ & _ & ->); apply delivered_only|by destruct H3 as [-> _]]. }
  destruct (only_cells_step orig outs p p1 ltac:(apply Hin; by left) H4 H2 Hok) as [Ho1 Hok1].
  eapply returns_bind; [apply (IH origs p1); [by injection Hlen|intros q Hq; apply Hin; by right|done]|].
  intros n p2 (G1 & G2 & G3). apply returns_ret. rewrite H1 in G1, G2.
  split_and!; [done| |by eapply only_cells_trans].
  rewrite G2. unfold count_in_place. cbn [List.filter]. rewrite (settled_in_place _ _ _ _ _ _ H3 Ha).
  destruct ok; cbn [length]; lia.
Qed.

Lemma compat_add_spec specs (c0 : sys E) :
  triple (λ c : sys E, unmoved c0 c ∧ none_mutated c) (compat_add specs)
    (λ addresses (c : sys E), length addresses = length specs ∧ unmoved c0 c ∧ none_mutated c).
Proof.
  induction specs as [|spec specs IH]; cbn [compat_add]; [by apply triple_ret|].
  eapply triple_bind; [apply (triple_and _ _ _ _ _ (add_unmoved c0 _ _ _ _) (add_none_mutated _ _))|].
  intros added. cbv zeta. eapply triple_bind.
  - eapply triple_conseq; [exact IH| |by intros rest c Hc; exact Hc]. by intros c (H1 & H2 & _).
  - intros rest c (H1 & H2). cbn. split; [by f_equal|exact H2].
Qed.

(** What a batch that was committed came to. *)
Definition batch_settled (p0 : process) (n : nat) (r : Z) p : Prop :=
  ∃ c1 status report c2 addresses,
    unmoved (fc_core p0) c1 ∧ none_mutated c1 ∧ hk_plan_commit true c1 = ((status, report), c2) ∧
    unmoved c2 (fc_core p) ∧ length addresses = n ∧ r = count_in_place c2 addresses.

Lemma compat_settle_spec outs p0 addresses origs p :
  unmoved (fc_core p0) (fc_core p) → none_mutated (fc_core p) →
  length addresses = length origs → (∀ q, q ∈ origs → q ∈ outs) → cells_ok outs p →
  returns (compat_settle addresses origs) p (λ r p', batch_settled p0 (length addresses) r p' ∧
    only_cells outs (fc_cells p) (fc_cells p')).
Proof.
  intros Hu Hn Hlen Hin Hok. unfold compat_settle.
  destruct (run_plan_spec (pl_hooks (s_plan (fc_core p))) (fc_core p)) as (c1 & status & report & Hu1 & H1 & Hcommit).
  { by apply none_mutated_alike. }
  eapply (core_bind _ _ (λ c, c = fc_core p) (λ _ c, c = (compat_run_plan (fc_core p)).2)); [|done|].
  { intros c ->. by destruct (compat_run_plan (fc_core p)). }
  intros _ c ->. set (c2 := (compat_run_plan (fc_core p)).2) in *.
  eapply returns_bind; [by apply (compat_count_spec outs addresses origs)|].
  intros n p1 (G1 & G2 & G3). cbn [fc_core fc_cells set_field] in G1, G2, G3.
  eapply core_bind; [apply (release_unmoved c2)|by rewrite G1|].
  intros [] c3 Hu3. apply returns_ret. split; [|exact G3]. exists c1, status, report, c2, addresses.
  split_and!; [by etrans|by eapply alike_none_mutated|exact Hcommit|exact Hu3|done|exact G2].
Qed.

Definition batch_ended (p0 : process) (outs : list Z) (n : nat) (r : Z) p : Prop :=
  only_cells outs (fc_cells p0) (fc_cells p) ∧
  ((unmoved (fc_core p0) (fc_core p) ∧ r <= 0 ∧ fc_cells p = fc_cells p0) ∨ batch_settled p0 n r p).

Lemma compat_batch_spec synthesized specs origs p :
  length specs = length origs → cells_ok origs p →
  returns (compat_batch_in_runtime synthesized specs origs) p (batch_ended p origs (length specs)).
Proof.
  intros Hlen Hok. unfold compat_batch_in_runtime.
  eapply core_bind; [apply triple_and; [apply (create_unmoved (fc_core p))|apply create_first]|split; [reflexivity|done]|].
  intros created c0 [Hu0 Hfirst].
  destruct created; try (apply returns_ret; split; [done|by left]).
  eapply (core_bind _ _ (λ c, c = c0) (λ _ c, ∃ hp, c = c0 <| s_heap := hp |>)); [|done|].
  { intros c ->. unfold on_heap, zoom. destruct (alloc _) as [ok hp]. by exists hp. }
  intros ok c [hp ->]. assert (Hu : unmoved (fc_core p) (c0 <| s_heap := hp |>)) by (by destruct Hu0).
  destruct ok; cbn [negb].
  2:{ eapply core_bind; [apply (release_unmoved (c0 <| s_heap := hp |>))|reflexivity|]. intros [] c1 Hu1.
      apply returns_ret. split; [done|]. left. split_and!; [by etrans|lia|done]. }
  eapply core_bind; [apply (compat_add_spec _ (fc_core p))| |].
  { split; [exact Hu|]. unfold none_mutated. cbn. by rewrite Hfirst. }
  intros addresses c1 (H1 & H2 & H3). rewrite length_imap in H1.
  eapply returns_conseq.
  { apply (compat_settle_spec origs p addresses origs); [exact H2|exact H3|congruence|done|exact Hok]. }
  intros r p' [Hb Ho]. rewrite H1 in Hb. split; [exact Ho|by right].
Qed.

(** What the caller has of its own is as it was. *)
Definition callers_kept s s' : Prop :=
  s_runtime (fc_core (ct_process s')) = s_runtime (fc_core (ct_process s)) ∧
  s_plan (fc_core (ct_process s')) = s_plan (fc_core (ct_process s)).

Lemma batch_ended_from p0 p1 outs n r p :
  unmoved (fc_core p0) (fc_core p1) → fc_cells p1 = fc_cells p0 → batch_ended p1 outs n r p → batch_ended p0 outs n r p.
Proof.
  intros Hu Hcells [Ho Hv]. split; [by rewrite <- Hcells|]. rewrite Hcells in Hv.
  destruct Hv as [(H1 & H2)|(c1 & st & rep & c2 & l & H1 & H2)]; [left; split; [by etrans|done]|right].
  exists c1, st, rep, c2, l. split; [by etrans|done].
Qed.

Lemma batch_ended_restored p0 outs n r p p' :
  batch_ended p0 outs n r p' → batch_ended p0 outs n r (restored p p').
Proof.
  intros [Ho Hv]. split; [exact Ho|].
  destruct Hv as [(H1 & H2)|(c1 & st & rep & c2 & l & H1 & H2 & H3 & H4 & H5)].
  - left. split; [by apply unmoved_restored|done].
  - right. exists c1, st, rep, c2, l. split_and!; try done; [by apply unmoved_restored|apply H5..].
Qed.

Lemma compat_hook_batch_spec synthesized specs origs s :
  Forall (image_mapped mem) images → length specs = length origs → cells_ok origs (ct_process s) →
  returns (_hk_compat_hook_batch build images mem synthesized specs origs) s (λ r s', callers_kept s s' ∧
    batch_ended (ct_process s) origs (length specs) r (ct_process s')).
Proof.
  intros Hm Hlen Hok. unfold _hk_compat_hook_batch.
  assert (Hno : ∀ r s1, r <= 0 → undisturbed (ct_process s) (ct_process s1) → returns (fret r) s1 (λ r s', callers_kept s s' ∧
    batch_ended (ct_process s) origs (length specs) r (ct_process s'))).
  { intros r s1 Hr (H1 & H2 & H3 & H4). apply returns_ret. split; [done|]. split; [by rewrite H4|by left]. }
  destruct (_ =? 0); [by apply Hno|].
  eapply returns_bind; [by apply compat_runtime_spec|].
  intros rt s1 [[Hu _] _]. destruct rt as [rt|]; [|by apply Hno].
  destruct Hu as (H1 & H2 & H3 & H4). eapply returns_conseq.
  { apply in_runtime_spec, (compat_batch_spec synthesized specs origs); [exact Hlen|].
    unfold cells_ok, cell_ok in *. cbn [fc_cells set_field]. by rewrite H4. }
  intros r s' (p & Hp & Hs' & _). unfold callers_kept. rewrite Hs'. split; [done|]. apply batch_ended_restored.
  eapply batch_ended_from; [| |exact Hp]; [etrans; [exact H1|by constructor]|done].
Qed.

Lemma undisturbed_trans p1 p2 p3 : undisturbed p1 p2 → undisturbed p2 p3 → undisturbed p1 p3.
Proof. intros (H1 & H2 & H3 & H4) (G1 & G2 & G3 & G4). split_and!; [by etrans|congruence..]. Qed.

Lemma compat_alloc_spec s :
  returns compat_alloc s (λ _ s', undisturbed (ct_process s) (ct_process s')).
Proof.
  unfold returns, compat_alloc, on_process, core, on_core, lift, on_heap, zoom, runs. cbn.
  by destruct (alloc (s_heap (fc_core (ct_process s)))).
Qed.

(** A batch of functions hooked through libhooker's interface comes back,
    with the caller's own runtimes and plans as they were and no cells but the
    caller's pointers written.  Either nothing was mutated and the answer counts
    nothing; or one plan was committed, and the answer is the number of hooks of
    it that were added and are in place, of one for each function asked for. *)
Theorem compat_batch_counts synthesized hooks s :
  Forall (image_mapped mem) images → cells_ok (cf_old_ptr <$> hooks) (ct_process s) →
  returns (hk_compat_LHHookFunctions build images mem synthesized (Some hooks) (Z.of_nat (length hooks))) s (λ r s',
    s_runtime (fc_core (ct_process s')) = s_runtime (fc_core (ct_process s)) ∧
    s_plan (fc_core (ct_process s')) = s_plan (fc_core (ct_process s)) ∧
    batch_ended (ct_process s) (cf_old_ptr <$> hooks) (length hooks) r (ct_process s')).
Proof.
  intros Hm Hok. unfold hk_compat_LHHookFunctions.
  set (Q := λ (r : Z) (s' : state), _ : Prop).
  assert (Hno : ∀ s1, undisturbed (ct_process s) (ct_process s1) → returns (fret 0) s1 Q).
  { intros s1 (H1 & H2 & H3 & H4). apply returns_ret. split_and!; [done|done|]. split; [by rewrite H4|by left]. }
  destruct (_ <=? 0); [by apply Hno|].
  eapply returns_bind; [apply compat_alloc_spec|]. intros a1 s1 H1.
  eapply returns_bind; [apply compat_alloc_spec|]. intros a2 s2 H2.
  eapply returns_bind; [apply compat_alloc_spec|]. intros a3 s3 H3.
  assert (Hu : undisturbed (ct_process s) (ct_process s3)) by exact (undisturbed_trans _ _ _ H1 (undisturbed_trans _ _ _ H2 H3)).
  destruct (_ || _ || _); [by apply Hno|]. destruct Hu as (G1 & G2 & G3 & G4).
  eapply returns_conseq; [apply compat_hook_batch_spec; [done| |]|].
  - unfold function_specs. by rewrite length_imap, length_fmap.
  - unfold cells_ok, cell_ok in *. by rewrite G4.
  - intros r s' [[K1 K2] Hb]. split_and!; [congruence|congruence|].
    unfold function_specs in Hb. rewrite length_imap in Hb. by eapply batch_ended_from.
Qed.
End Calls.

(** ** Patching memory *)
Section MemoryCall.
Context {E K : Type} {Pac : PacOps} (mapped : Z → bool).
Context (build : platform_build (E := E)) (images : list dyld_image) (mem : memory).
Context (native : E → device K * option memo_region).

Lemma read_unmapped (m : Z → Z) n a x :
  a <= x < a + Z.of_nat n → mapped x = false → read_bytes (mapped_memory mapped m) n a = None.
Proof.
  intros Hx Hmap. revert a Hx. induction n as [|n IH]; intros a Hx; [lia|].
  change (read_bytes (mapped_memory mapped m) (S n) a) with
    (b ← mapped_memory mapped m a; rest ← read_bytes (mapped_memory mapped m) n (a + 1); Some (b :: rest)).
  destruct (decide (x = a)) as [->|Hne].
  { assert (E0 : mapped_memory mapped m a = None) by (unfold mapped_memory; by rewrite Hmap). by rewrite E0. }
  destruct (mapped_memory mapped m a) as [b|]; [|done]. cbn [mbind option_bind]. by rewrite IH by lia.
Qed.

(** The bytes a process has at an address. *)
Definition compat_bytes (s : compat E) (a : Z) (n : nat) : list Z :=
  bytes_at (d_mem (native (s_engine (fc_core (ct_process s)))).1) a n.

(** The process after one allocation. *)
Definition allocated (s : compat E) : compat E :=
  let c := fc_core (ct_process s) in
  s <| ct_process := ct_process s <| fc_core := c <| s_heap := (alloc (s_heap c)).2 |> |> |>.

End MemoryCall.

(** ** A process with one engine *)
Module DemoCompat.
Definition functions : platform_build (E := unit) :=
  DemoFacade.build HK_TARGET_FUNCTION_ADDRESS HK_REACH_ENTRYPOINT false.
Definition process : compat unit := Compat (DemoFacade.process tt) None.
Abbreviation hook := (run_compat (H := test_pac) functions demo_images DemoImage.memory (CompatFunction 0x4000 0x6000 0x10)).

(** Two functions, the original of the second of no interest. *)
Definition hooks : list hk_compat_function_hook :=
  [CompatFunctionHook 0x4000 0x6000 0x10; CompatFunctionHook 0x4800 0x6000 0].
Abbreviation batch := (hk_compat_LHHookFunctions (H := test_pac) functions demo_images DemoImage.memory
  (λ _, "compat.batch"%string) (Some hooks) 2).

Definition patches : platform_build (E := device unit * option memo_region) :=
  DemoFacade.build HK_TARGET_MEMORY_PATCH HK_REACH_EXACT_MEMORY true.
Definition world : compat (device unit * option memo_region) := Compat (DemoFacade.process DemoFacade.world) None.
Abbreviation patch dst := (hk_compat_MSHookMemory_int (H := test_pac) patches demo_images DemoImage.memory
  DemoFacade.demo_mapped id dst (Some [1; 2; 3; 4])).
End DemoCompat.

Lemma compat_hook_verdict_witness : ∃ r s',
  DemoCompat.hook DemoCompat.process = Some (r, s') ∧ r = 0 ∧
  fc_cells (ct_process s') !! 0x18 = Some 0x78 ∧
  ∃ h : hk_hook unit, placed (h_result h) = true.
Proof.
  assert (E : fst <$> DemoCompat.hook DemoCompat.process = Some 0) by (vm_compute; reflexivity).
  pose proof (compat_hook_verdict (H := test_pac) DemoCompat.functions demo_images DemoImage.memory
    (CompatFunction 0x4000 0x6000 0x10) DemoCompat.process demo_images_mapped ltac:(right; by eexists)) as H.
  apply returns_some in H as (r & s' & Er & H). rewrite Er in E. exists r, s'. split; [exact Er|clear Er].
  cbn [fmap option_fmap option_map fst snd] in E. injection E as ->. split; [done|].
  destruct H as (_ & _ & Hcells & _ & H). split; [by rewrite (Hcells 0x18); [|left]|].
  destruct H as [(_ & _ & H)|(c1 & st & rep & c2 & _ & _ & _ & _ & h & _ & H & _)]; [discriminate H|].
  exists h. exact H.
Defined.

Lemma compat_batch_counts_witness : ∃ r s',
  DemoCompat.batch DemoCompat.process = Some (r, s') ∧ r = 2 ∧
  ∃ (c2 : sys unit) addresses, count_in_place c2 addresses = 2.
Proof.
  assert (E : fst <$> DemoCompat.batch DemoCompat.process = Some 2) by (vm_compute; reflexivity).
  pose proof (compat_batch_counts (H := test_pac) DemoCompat.functions demo_images DemoImage.memory
    (λ _, "compat.batch"%string) DemoCompat.hooks DemoCompat.process demo_images_mapped
    ltac:(apply Forall_cons_2; [right; by eexists|apply Forall_singleton; by left])) as H.
  change (Z.of_nat (length DemoCompat.hooks)) with 2 in H.
  apply returns_some in H as (r & s' & Er & H). rewrite Er in E. exists r, s'. split; [exact Er|clear Er].
  cbn [fmap option_fmap option_map fst snd] in E. injection E as ->. split; [done|].
  destruct H as (_ & _ & _ & [(_ & H & _)|(c1 & st & rep & c2 & l & _ & _ & _ & _ & _ & H)]); [by destruct H|].
  exists c2, l. exact (eq_sym H).
Defined.

